(* ===== verification/_CoqProject ===== *)
-Q . S2P
Prelude.v
OpCode.v
BitUtil.v
PcodeSem.v
OpCodeFacts.v
Space.v
SpaceFacts.v
Funcdata.v
FuncdataLinks.v
FuncdataEdits.v
FuncdataRemove.v
FuncdataBlocks.v
FuncdataTheorems.v
FuncdataBuild.v
FuncdataBuildFacts.v
Dominator.v
DominatorFacts.v
DominatorSolve.v
DominatorTheorems.v
Cfg.v
CfgFacts.v
CfgGraph.v
CfgTheorems.v
Cover.v
CoverFacts.v
CoverLive.v
CoverTheorems.v
RuleBase.v
Divopt.v
DivRules.v
Rules.v
DivoptFacts.v
Valuation.v
ValuationEdits.v
Rewrite.v
RuleFacts.v
RuleArith.v
DivRulesSound.v
DivChain.v
ModRulesSound.v
RulesSound.v
LogicSound.v
AlgebraSound.v
HostFloat.v
ConstFold.v
PoolSound.v
RuleTheorems.v
AddressSet.v
Pcode.v
M68kAlu.v
Machine.v
MachineFacts.v
M68kModifier.v
AluFacts.v
Step.v
StepFacts.v
StepEval.v
Run.v
RunFacts.v
RunBlind.v
Trace.v
TraceFacts.v
CircleRange.v
CircleRangeSpec.v
CircleRangeSets.v
CircleRangePull.v
CircleRangePush.v
NzMask.v
NzMaskFacts.v
NzMaskSound.v
NzMaskGraph.v
NzMaskCalc.v
NzMaskTheorems.v
Ditted.v
Sequence.v
SequenceFacts.v
SequenceSpec.v
Memory.v
Search.v
