(* ===== verification/Prelude.v ===== *)
(** * Mosura, verified

    Mosura is a decompiler and a recompilation checker written in Rust.  A program image is lifted by
    a SLEIGH engine to p-code, a small register-transfer language; the decompiler cuts the p-code of a
    function into basic blocks, puts it in SSA form, analyses and rewrites it and prints C; the
    checker compiles the C again and compares the two functions by running both in a p-code
    interpreter.  This library models the parts of [crates/mosura-core/src] the kernel can follow,
    definition by definition from the source, and proves what makes them correct.

    ** How the parts correspond

    - Shared: this file (words, the state monad, sorting, automation), [OpCode] ([decompile/opcode.rs]),
      [BitUtil] (the mask helpers of [nzmask.rs] and [circlerange.rs]) and [PcodeSem], which is not
      code: the meaning of the integer operations, the specification the interpreter, the ranges and
      the masks are all proved against.  [OpCodeFacts] checks the complement table against it.
    - The decompiler's store.  [Space] ([space.rs]: spaces, range lists, joins; [SpaceFacts]);
      [Funcdata] ([funcdata.rs], [varnode.rs], [op.rs], [block.rs]: values, operations and blocks in
      arenas, named by index, and every primitive that edits them), [FuncdataBuild] (the compound
      edits, and [replace_lessequal] of [rules.rs]).  [FuncdataLinks], [FuncdataEdits],
      [FuncdataRemove] and [FuncdataBlocks] show, primitive by primitive, that an edit with valid
      arguments does not panic and keeps both sides of every link; [FuncdataTheorems] composes them: the
      type [edit] lists the primitives, [valid] their preconditions, [wf] the invariant.
    - The control-flow graph.  [Cfg] ([cfg.rs], [build_cfg]) cuts the operations of a [Funcdata] into
      blocks; [CfgFacts] follows leaders and runs, [CfgGraph] the search, the numbering and the edges,
      [CfgTheorems] states the result.  [Dominator] ([dominator.rs]) computes dominators and frontiers
      of the same [Funcdata]: [DominatorFacts] (walks, postorder), [DominatorSolve] (the invariant of
      the iteration), [DominatorTheorems].  The well-formedness [build_cfg] leaves is what
      [compute] asks for, and [CfgTheorems.build_cfg_wf] composes the two.
    - Covers.  [Cover] ([cover.rs]): where values of a [Funcdata] are alive; [CoverFacts] (ranges and
      their unions), [CoverLive] (positions, and the backward search from the reads), [CoverTheorems].
    - The analyses of values.  [CircleRange] ([circlerange.rs]), with its meaning in [CircleRangeSpec],
      the set operations in [CircleRangeSets] and the transfer functions in [CircleRangePull] and
      [CircleRangePush].  [NzMask] ([nzmask.rs]) over the part of [Funcdata] it reads; [NzMaskFacts] and
      [NzMaskSound] show one operation and then whole executions sound, [NzMaskGraph] and [NzMaskCalc]
      follow the two phases, [NzMaskTheorems] states the results.
    - The rewriting rules.  [RuleBase] ([action.rs]: what a rule is, and [ActionPool], which runs a list
      of rules to a fixed point), [Rules] (the simplification rules of [rules.rs]), [Divopt]
      ([divopt.rs]: recovery of a divisor from a multiplication) and [DivRules] (its rules).
      [Valuation] says when values agree with the operations that define them; [ValuationEdits] and
      [Rewrite] what an edit of the graph has to respect, with the class [Sound] a rule implements;
      [RuleFacts] and [RuleArith] hold the lemmas on edits and on words, [RulesSound], [LogicSound],
      [AlgebraSound], [DivRulesSound] and [ModRulesSound] the instances, [DivChain] and [ConstFold] where chains of divisions
      and constants are folded and what is left there, [PoolSound] the pool of sound rules,
      [DivoptFacts] the arithmetic of the recovery, and [RuleTheorems] the results.
    - The interpreter.  [Pcode] ([sleigh/pcode.rs]), [Machine] (state, memory, bus, effects),
      [Step] (one operation), [M68kAlu] and [M68kModifier] ([sleigh/emu_m68k.rs]), [HostFloat] (the
      interface of the host's floats and an IEEE implementation), [Run] (whole runs, [Image::resume])
      and [Trace] ([run_traced]), from [sleigh/emu.rs].  [MachineFacts], [AluFacts], [StepFacts],
      [StepEval], [RunFacts], [RunBlind] and [TraceFacts] hold their theorems.
    - The program under analysis.  [AddressSet] ([program/address_set.rs]), [Memory]
      ([program/memory.rs]), [Ditted], [Sequence] and [Search] ([bytesearch/]: patterns with don't-care
      bits, the compiled matcher, the search of memory), with [SequenceFacts] and [SequenceSpec].

    ** What the theorems show

    - Invariants of the store: any sequence of valid edits runs and keeps the graph well formed;
      constants keep one reader, MULTIEQUALs stay first, inputs stay unique; recursive destruction
      ends and destroys exactly what only destroyed operations used.
    - The control-flow graph is made of basic blocks, connected on both sides, reached from an entry
      nothing returns to; its dominators and frontiers are those of the walks of the graph.
    - The cover of a value holds the points at which it is alive, no others; values alive at one point
      have covers that intersect.
    - Soundness of the analyses: masks and ranges contain the values the p-code semantics gives, exactly
      so where the code claims it; the mask phases end at a solution of every operation's equation.
    - Rewriting: a rule that is [Sound] keeps the graph well formed and every valuation of it a
      valuation; any pool of such rules therefore does.  Constant folding
      and the merging of division chains fire exactly where they may and leave the value of the
      operation, but for the cases they name.  The divisor [calc_divisor] recovers is the one
      the shifted product divides by.
    - The interpreter computes the p-code semantics, faults included, runs end, tracing does not change
      them, and a differential run leaves both functions the same answers.
    - Sets, range lists, memory reads, the pattern matcher and the search agree with their
      specifications as sets, bytes and matches.

    ** Modelling conventions and bounds

    A Rust word is a [Z] in its range, with the wrap-around of a release build; an index is a [nat],
    under the assumption that an arena holds fewer than 2^32 nodes (for covers, a block fewer than
    2^30 - 1 operations: points are [i32]).  A panic is [None] of an [option]
    ([Panic] and [Panicked] in the interpreter's steps and runs); in [NzMask], which reads its function by
    index, a missing node or input reads a default instead.
    Hash maps are [gmap]s or association lists where order matters.  Loops have fuel: the covering mask
    seven doublings of a 64-bit word; [destroy_fuel] one turn per input slot; [dfs_fuel] one step per
    block and edge; [solve_fuel] one pass per lowering of a candidate's number, at most the square of
    the blocks; the search of [build_cfg] one pop per block; [walk_fuel] one pop per edge;
    [ops_fuel], [run_fuel] and [traced_fuel]
    the step budget of the options; [search_fuel] one step per input of the function; [levels_fuel] the
    longest pattern.  Each is proved sufficient by the theorem that the run returns.  Assumptions on
    code outside the source: the instruction decoder is a field of [spec] that returns well-formed
    instructions ([decoder_ok]); the host's floats are the class [HostFloat]; jump tables recovered
    elsewhere are an argument of [build_cfg]; dominators are an argument of [NzMask]; the callbacks of
    the pattern search are parameters.

    ** Not modelled

    The rules of [rules.rs] and [divopt.rs] not named in [Rules] and [DivRules] (among the latter
    [RuleDivOpt] and the two that cut its terms), heritage, merging, structuring and the
    C printer ([heritage.rs], [merge.rs], [structure.rs], [printc.rs], [emit/]) with the passes over
    types and storage between them; the SLEIGH engine; the loaders, the analyzers and the
    function identification of [analysis/]; the recompilation driver ([recompile/]), the command
    line, the C and Rust interfaces.  The manifest lists them one by one with the reason: they are
    input and output, read files or third-party formats, or rest on passes not modelled yet. *)
From Stdlib Require Import ZArith Lia Bool List Permutation Sorted.
From stdpp Require Import base tactics.
Local Open Scope Z_scope.

(** ** Machine words

    A Rust [u64] (and [u32], [u8], [usize]) is a [Z] in its range; [i64]/[i32] values are
    signed [Z]s.  Unchecked [+], [-], [*] and shifts of the source are modelled with the
    wrap-around of a release build ([wrapping_*] where the source says so). *)

Definition u64_modulus : Z := 18446744073709551616.
Definition u64_max : Z := 18446744073709551615.
Definition w64 (z : Z) : Z := z mod 18446744073709551616.
Definition w32 (z : Z) : Z := z mod 4294967296.
Definition w16 (z : Z) : Z := z mod 65536.
Definition w8 (z : Z) : Z := z mod 256.

(** [x as i64], [x as i32] : reinterpretation of the low bits as two's complement. *)
Definition i64 (z : Z) : Z :=
  let u := w64 z in if u <? 9223372036854775808 then u else u - 18446744073709551616.
Definition i32 (z : Z) : Z :=
  let u := w32 z in if u <? 2147483648 then u else u - 4294967296.

Definition u64_add (a b : Z) : Z := w64 (a + b).
Definition u64_sub (a b : Z) : Z := w64 (a - b).
Definition u64_mul (a b : Z) : Z := w64 (a * b).
Definition u64_not (a : Z) : Z := w64 (Z.lnot a).
(** [wrapping_shl]/[wrapping_shr], and the release behaviour of [<<]/[>>]: the distance is
    taken modulo the width. *)
Definition u64_shl (a n : Z) : Z := w64 (Z.shiftl a (n mod 64)).
Definition u64_shr (a n : Z) : Z := Z.shiftr a (n mod 64).
(** arithmetic [>>] of an [i64] *)
Definition i64_shr (a n : Z) : Z := Z.shiftr a (n mod 64).
(** [checked_shl(n).unwrap_or(0)], [checked_shr(n).unwrap_or(0)] *)
Definition u64_checked_shl0 (a n : Z) : Z := if n <? 64 then u64_shl a n else 0.
Definition u64_checked_shr0 (a n : Z) : Z := if n <? 64 then u64_shr a n else 0.

Definition u64_leading_zeros (v : Z) : Z := if v =? 0 then 64 else 63 - Z.log2 v.

Fixpoint pos_ctz (p : positive) : Z :=
  match p with
  | xO q => 1 + pos_ctz q
  | _ => 0
  end.

Definition u64_trailing_zeros (v : Z) : Z :=
  match v with
  | Zpos p => pos_ctz p
  | _ => 64
  end.

Fixpoint pos_popcount (p : positive) : Z :=
  match p with
  | xH => 1
  | xO q => pos_popcount q
  | xI q => 1 + pos_popcount q
  end.

Definition count_ones (v : Z) : Z :=
  match v with
  | Zpos p => pos_popcount p
  | _ => 0
  end.

(** [b as u64] for a [bool] *)
Definition u64_of_bool (b : bool) : Z := if b then 1 else 0.

(** A low-bit mask [2^k - 1]; the domains of the range and mask analyses are of this form. *)
Definition is_mask (m : Z) : Prop := exists k, 0 <= k <= 64 /\ m = Z.ones k.

(** ** State

    A Rust method on [&mut self] is a function from the state to a result and the new state;
    [let*] threads it. *)

Declare Scope state_scope.
Delimit Scope state_scope with state.

Definition state (S A : Type) : Type := S -> A * S.
Definition ret {S A : Type} (a : A) : state S A := fun s => (a, s).
Definition bind {S A B : Type} (c : state S A) (k : A -> state S B) : state S B :=
  fun s => let '(a, s) := c s in k a s.
Definition get {S : Type} : state S S := fun s => (s, s).
Definition modify {S : Type} (f : S -> S) : state S unit := fun s => (tt, f s).

Notation "'let*' x ':=' c 'in' k" := (bind c (fun x => k))
  (at level 10, x name, c at level 100, k at level 200) : state_scope.
Notation "c ;* k" := (bind c (fun _ => k)) (at level 199, right associativity) : state_scope.

(** ** Sorting, stable, by a total preorder *)

Fixpoint insert_by {A : Type} (leb : A -> A -> bool) (x : A) (l : list A) : list A :=
  match l with
  | [] => [x]
  | y :: l' => if leb x y then x :: l else y :: insert_by leb x l'
  end.
Definition sort_by {A : Type} (leb : A -> A -> bool) (l : list A) : list A :=
  fold_right (insert_by leb) [] l.

(** [partition_point] of a slice: the length of the prefix that satisfies [p] *)
Fixpoint partition_point {A : Type} (p : A -> bool) (l : list A) : nat :=
  match l with
  | [] => 0%nat
  | r :: l => if p r then S (partition_point p l) else 0%nat
  end.

Definition u64_checked_add (a b : Z) : option Z := if a + b <? 2 ^ 64 then Some (a + b) else None.

(** * Automation *)

Create HintDb words.
Create Rewrite HintDb wraps.

(** Case analysis on the boolean comparisons of the goal and the hypotheses. *)
Ltac cmp_step :=
  match goal with
  | |- context [Z.eqb ?a ?b] => destruct (Z.eqb_spec a b)
  | |- context [Z.leb ?a ?b] => destruct (Z.leb_spec a b)
  | |- context [Z.ltb ?a ?b] => destruct (Z.ltb_spec a b)
  | H : context [Z.eqb ?a ?b] |- _ => destruct (Z.eqb_spec a b)
  | H : context [Z.leb ?a ?b] |- _ => destruct (Z.leb_spec a b)
  | H : context [Z.ltb ?a ?b] |- _ => destruct (Z.ltb_spec a b)
  end.
Ltac cmp := repeat cmp_step.

(** * Lemmas on modulus and masks *)

(** A number within one period of the domain has one of three residues. *)
Lemma mod_cases (a m : Z) : 0 < m -> - m <= a < 2 * m ->
  (- m <= a < 0 /\ a mod m = a + m) \/ (0 <= a < m /\ a mod m = a) \/ (m <= a < 2 * m /\ a mod m = a - m).
Proof.
  intros Hm Ha.
  destruct (Z.lt_ge_cases a 0); [left|destruct (Z.lt_ge_cases a m); [right; left|right; right]].
  - split; [lia|]. symmetry. apply (Z.mod_unique_pos _ _ (-1)); lia.
  - split; [lia|]. apply Z.mod_small; lia.
  - split; [lia|]. symmetry. apply (Z.mod_unique_pos _ _ 1); lia.
Qed.

(** [modcase a m]: replace [a mod m] by its value in each of the three cases. *)
Ltac modcase a m :=
  let H := fresh "Hm" in
  let E := fresh "E" in
  destruct (mod_cases a m) as [[H E]|[[H E]|[H E]]]; [lia|lia|rewrite ?E in *|rewrite ?E in *|rewrite ?E in *].

Lemma mod_eq_sub (a b s : Z) : 0 < s -> (a mod s = b mod s <-> (a - b) mod s = 0).
Proof.
  intros Hs. split; intros H.
  - rewrite Zminus_mod, H, Z.sub_diag. apply Z.mod_0_l; lia.
  - apply Z.mod_divide in H as [q Hq]; [|lia].
    replace a with (b + q * s) by lia. apply Z.mod_add; lia.
Qed.

Lemma w64_small (z : Z) : 0 <= z < 2 ^ 64 -> w64 z = z.
Proof. intros. unfold w64. apply Z.mod_small. lia. Qed.

Lemma w32_small (z : Z) : 0 <= z < 2 ^ 32 -> w32 z = z.
Proof. intros. unfold w32. apply Z.mod_small. lia. Qed.

Lemma w64_range (z : Z) : 0 <= w64 z < 2 ^ 64.
Proof. unfold w64. pose proof (Z.mod_pos_bound z 18446744073709551616). lia. Qed.

(** Masking the low [k] bits after a 64-bit wrap is the residue modulo [2^k]. *)
Lemma land_ones_w64 (z k : Z) : 0 <= k <= 64 -> Z.land (w64 z) (Z.ones k) = z mod 2 ^ k.
Proof.
  intros Hk. rewrite Z.land_ones by lia. unfold w64.
  change 18446744073709551616 with (2 ^ 64).
  apply Z.mod_mod_divide.
  exists (2 ^ (64 - k)). rewrite <- Z.pow_add_r by lia. f_equal; lia.
Qed.

Lemma ones_pow (k : Z) : 0 <= k -> Z.ones k = 2 ^ k - 1.
Proof. intros. rewrite Z.ones_equiv. lia. Qed.

Lemma pow2_pos (k : Z) : 0 <= k -> 0 < 2 ^ k.
Proof. intros. apply Z.pow_pos_nonneg; lia. Qed.

Lemma pow2_le_64 (k : Z) : 0 <= k <= 64 -> 2 ^ k <= 2 ^ 64.
Proof. intros. apply Z.pow_le_mono_r; lia. Qed.

Lemma pow2_divide (a b : Z) : 0 <= a <= b -> (2 ^ a | 2 ^ b).
Proof. intros. exists (2 ^ (b - a)). rewrite <- Z.pow_add_r by lia. f_equal; lia. Qed.

#[export] Hint Resolve pow2_pos w64_range : words.

(** Nested 64-bit wraps collapse into the outermost one. *)
Lemma w64_add_l (a b : Z) : w64 (w64 a + b) = w64 (a + b).
Proof. apply Zplus_mod_idemp_l. Qed.
Lemma w64_add_r (a b : Z) : w64 (a + w64 b) = w64 (a + b).
Proof. apply Zplus_mod_idemp_r. Qed.
Lemma w64_sub_l (a b : Z) : w64 (w64 a - b) = w64 (a - b).
Proof. apply Zminus_mod_idemp_l. Qed.
Lemma w64_sub_r (a b : Z) : w64 (a - w64 b) = w64 (a - b).
Proof. apply Zminus_mod_idemp_r. Qed.
Lemma w64_mul_l (a b : Z) : w64 (w64 a * b) = w64 (a * b).
Proof. apply Zmult_mod_idemp_l. Qed.
Lemma w64_mul_r (a b : Z) : w64 (a * w64 b) = w64 (a * b).
Proof. apply Zmult_mod_idemp_r. Qed.
Lemma w64_w64 (a : Z) : w64 (w64 a) = w64 a.
Proof. apply Z.mod_mod. lia. Qed.

Lemma w64_add_add (a b c : Z) : w64 (w64 a + b + c) = w64 (a + b + c).
Proof. rewrite <- !Z.add_assoc. apply w64_add_l. Qed.
Lemma w64_sub_add (a b c : Z) : w64 (w64 a - b + c) = w64 (a - b + c).
Proof. replace (w64 a - b + c) with (w64 a + (c - b)) by lia. rewrite w64_add_l. f_equal. lia. Qed.
Lemma w64_add_sub (a b c : Z) : w64 (w64 a + b - c) = w64 (a + b - c).
Proof. replace (w64 a + b - c) with (w64 a + (b - c)) by lia. rewrite w64_add_l. f_equal. lia. Qed.
Lemma w64_sub_sub (a b c : Z) : w64 (w64 a - b - c) = w64 (a - b - c).
Proof. replace (w64 a - b - c) with (w64 a + (- b - c)) by lia. rewrite w64_add_l. f_equal. lia. Qed.

#[export] Hint Rewrite w64_add_add w64_sub_add w64_add_sub w64_sub_sub : wraps.
#[export] Hint Rewrite w64_add_l w64_add_r w64_sub_l w64_sub_r w64_mul_l w64_mul_r w64_w64 : wraps.

(** Unfold the wrapping operations into one wrap of an integer expression. *)
Ltac wsimpl := unfold u64_add, u64_sub, u64_mul, u64_not in *; autorewrite with wraps in *.

Lemma mod_zero_small (a m : Z) : - m < a < m -> a mod m = 0 -> a = 0.
Proof. intros Ha H. modcase a m; lia. Qed.

Lemma mod_sub3 (a s b m : Z) : 0 < m -> (a mod m - s - b mod m) mod m = (a - s - b) mod m.
Proof.
  intros. rewrite !Z.mod_eq by lia.
  replace (a - m * (a / m) - s - (b - m * (b / m))) with (a - s - b + (b / m - a / m) * m) by lia.
  rewrite <- !Z.mod_eq by lia. apply Z.mod_add. lia.
Qed.

(** Multiples of [s] are at least [s] apart. *)
Lemma multiple_lt (a b s : Z) : 0 < s -> a mod s = 0 -> b mod s = 0 -> (a < b <-> a + s <= b).
Proof.
  intros Hs Ha Hb. apply Z.mod_divide in Ha as [p ->]; [|lia]. apply Z.mod_divide in Hb as [q ->]; [|lia].
  replace (p * s + s) with ((p + 1) * s) by lia.
  rewrite <- Z.mul_lt_mono_pos_r, <- Z.mul_le_mono_pos_r by lia. lia.
Qed.

(** Distinct numbers of one residue class are at least [s] apart. *)
Lemma mod_gap (a b s : Z) : 0 < s -> a mod s = b mod s -> a < b -> a + s <= b.
Proof.
  intros Hs Hc Hlt. symmetry in Hc. apply mod_eq_sub in Hc; [|done].
  pose proof (multiple_lt 0 (b - a) s Hs (Z.mod_0_l s ltac:(lia)) Hc). lia.
Qed.

(** A signed word survives the passage through its bits. *)
Lemma i64_small (z : Z) : - 2 ^ 63 <= z < 2 ^ 63 -> i64 (w64 z) = z.
Proof.
  intros. unfold i64. rewrite w64_w64. unfold w64.
  modcase z 18446744073709551616; cmp; lia.
Qed.

Lemma partition_point_le {A : Type} (p : A -> bool) (l : list A) :
  (partition_point p l <= List.length l)%nat.
Proof. induction l as [|r l IH]; cbn; [done|]. destruct (p r); lia. Qed.

(** ** Sorting *)

Section sorting.
Context {A : Type} (leb : A -> A -> bool).

Lemma insert_by_perm (x : A) (l : list A) : Permutation (x :: l) (insert_by leb x l).
Proof.
  induction l as [|y l IH]; [apply Permutation_refl|]. cbn. destruct (leb x y); [apply Permutation_refl|].
  eapply perm_trans; [apply perm_swap|]. by apply perm_skip.
Qed.

Lemma sort_by_perm (l : list A) : Permutation l (sort_by leb l).
Proof.
  induction l as [|x l IH]; [apply perm_nil|]. cbn. eapply perm_trans; [apply perm_skip, IH|apply insert_by_perm].
Qed.

Lemma sort_by_in (x : A) (l : list A) : In x (sort_by leb l) <-> In x l.
Proof. split; apply Permutation_in; [symmetry|]; apply sort_by_perm. Qed.

Hypothesis total : forall x y, leb x y = true \/ leb y x = true.
Hypothesis transitive : forall x y z, leb x y = true -> leb y z = true -> leb x z = true.

Lemma sort_by_sorted (l : list A) : StronglySorted (fun x y => leb x y = true) (sort_by leb l).
Proof.
  induction l as [|x l IH]; [constructor|]. cbn [sort_by fold_right]. fold (sort_by leb l).
  induction IH as [|y l' Hl' IH' Hy]; [repeat constructor|]. cbn. destruct (leb x y) eqn:E.
  - constructor; [by constructor|]. constructor; [done|]. revert Hy. apply List.Forall_impl. intros z. by apply transitive.
  - constructor; [done|]. apply List.Forall_forall. intros z Hz. apply (Permutation_in z (Permutation_sym (insert_by_perm x l'))) in Hz.
    destruct Hz as [<-|Hz]; [destruct (total x y); congruence|]. by apply (proj1 (List.Forall_forall _ _) Hy).
Qed.
End sorting.
