(* ===== verification/OpCode.v ===== *)
(** [decompile/opcode.rs] and the opcode table of [sleigh/pcode.rs]: the p-code operation set. *)
From Stdlib Require Import ZArith Lia Bool List String.
From stdpp Require Import base decidable tactics.
Local Open Scope string_scope.
Local Open Scope Z_scope.

Inductive opcode : Type :=
| Copy | Load | Store | Branch | Cbranch | Branchind | Call | Callind | Callother | Return
| IntEqual | IntNotequal | IntSless | IntSlessequal | IntLess | IntLessequal
| IntZext | IntSext | IntAdd | IntSub | IntCarry | IntScarry | IntSborrow | Int2comp
| IntNegate | IntXor | IntAnd | IntOr | IntLeft | IntRight | IntSright | IntMult
| IntDiv | IntSdiv | IntRem | IntSrem
| BoolNegate | BoolXor | BoolAnd | BoolOr
| FloatEqual | FloatNotequal | FloatLess | FloatLessequal | FloatNan | FloatAdd | FloatDiv
| FloatMult | FloatSub | FloatNeg | FloatAbs | FloatSqrt | FloatInt2float | FloatFloat2float
| FloatTrunc | FloatCeil | FloatFloor | FloatRound
| Multiequal | Indirect | Piece | Subpiece | Cast | Ptradd | Ptrsub | Segmentop | Cpoolref
| New | Insert | Extract | Popcount | Lzcount.

#[export] Instance opcode_eq_dec : EqDecision opcode.
Proof. intros a b. unfold Decision. decide equality. Defined.

(** the discriminants: [op as u32] *)
Definition as_u32 (op : opcode) : Z :=
  match op with
  | Copy => 1 | Load => 2 | Store => 3 | Branch => 4 | Cbranch => 5
  | Branchind => 6 | Call => 7 | Callind => 8 | Callother => 9 | Return => 10
  | IntEqual => 11 | IntNotequal => 12 | IntSless => 13 | IntSlessequal => 14 | IntLess => 15
  | IntLessequal => 16 | IntZext => 17 | IntSext => 18 | IntAdd => 19 | IntSub => 20
  | IntCarry => 21 | IntScarry => 22 | IntSborrow => 23 | Int2comp => 24 | IntNegate => 25
  | IntXor => 26 | IntAnd => 27 | IntOr => 28 | IntLeft => 29 | IntRight => 30
  | IntSright => 31 | IntMult => 32 | IntDiv => 33 | IntSdiv => 34 | IntRem => 35
  | IntSrem => 36 | BoolNegate => 37 | BoolXor => 38 | BoolAnd => 39 | BoolOr => 40
  | FloatEqual => 41 | FloatNotequal => 42 | FloatLess => 43 | FloatLessequal => 44 | FloatNan => 46
  | FloatAdd => 47 | FloatDiv => 48 | FloatMult => 49 | FloatSub => 50 | FloatNeg => 51
  | FloatAbs => 52 | FloatSqrt => 53 | FloatInt2float => 54 | FloatFloat2float => 55 | FloatTrunc => 56
  | FloatCeil => 57 | FloatFloor => 58 | FloatRound => 59 | Multiequal => 60 | Indirect => 61
  | Piece => 62 | Subpiece => 63 | Cast => 64 | Ptradd => 65 | Ptrsub => 66
  | Segmentop => 67 | Cpoolref => 68 | New => 69 | Insert => 70 | Extract => 71
  | Popcount => 72 | Lzcount => 73
  end.

Definition from_u32 (n : Z) : option opcode :=
  match n with
  | 1 => Some Copy | 2 => Some Load | 3 => Some Store | 4 => Some Branch
  | 5 => Some Cbranch | 6 => Some Branchind | 7 => Some Call | 8 => Some Callind
  | 9 => Some Callother | 10 => Some Return | 11 => Some IntEqual | 12 => Some IntNotequal
  | 13 => Some IntSless | 14 => Some IntSlessequal | 15 => Some IntLess | 16 => Some IntLessequal
  | 17 => Some IntZext | 18 => Some IntSext | 19 => Some IntAdd | 20 => Some IntSub
  | 21 => Some IntCarry | 22 => Some IntScarry | 23 => Some IntSborrow | 24 => Some Int2comp
  | 25 => Some IntNegate | 26 => Some IntXor | 27 => Some IntAnd | 28 => Some IntOr
  | 29 => Some IntLeft | 30 => Some IntRight | 31 => Some IntSright | 32 => Some IntMult
  | 33 => Some IntDiv | 34 => Some IntSdiv | 35 => Some IntRem | 36 => Some IntSrem
  | 37 => Some BoolNegate | 38 => Some BoolXor | 39 => Some BoolAnd | 40 => Some BoolOr
  | 41 => Some FloatEqual | 42 => Some FloatNotequal | 43 => Some FloatLess | 44 => Some FloatLessequal
  | 46 => Some FloatNan | 47 => Some FloatAdd | 48 => Some FloatDiv | 49 => Some FloatMult
  | 50 => Some FloatSub | 51 => Some FloatNeg | 52 => Some FloatAbs | 53 => Some FloatSqrt
  | 54 => Some FloatInt2float | 55 => Some FloatFloat2float | 56 => Some FloatTrunc | 57 => Some FloatCeil
  | 58 => Some FloatFloor | 59 => Some FloatRound | 60 => Some Multiequal | 61 => Some Indirect
  | 62 => Some Piece | 63 => Some Subpiece | 64 => Some Cast | 65 => Some Ptradd
  | 66 => Some Ptrsub | 67 => Some Segmentop | 68 => Some Cpoolref | 69 => Some New
  | 70 => Some Insert | 71 => Some Extract | 72 => Some Popcount | 73 => Some Lzcount
  | _ => None
  end.

Definition name (op : opcode) : string :=
  match op with
  | Copy => "COPY" | Load => "LOAD" | Store => "STORE"
  | Branch => "BRANCH" | Cbranch => "CBRANCH" | Branchind => "BRANCHIND"
  | Call => "CALL" | Callind => "CALLIND" | Callother => "CALLOTHER"
  | Return => "RETURN" | IntEqual => "INT_EQUAL" | IntNotequal => "INT_NOTEQUAL"
  | IntSless => "INT_SLESS" | IntSlessequal => "INT_SLESSEQUAL" | IntLess => "INT_LESS"
  | IntLessequal => "INT_LESSEQUAL" | IntZext => "INT_ZEXT" | IntSext => "INT_SEXT"
  | IntAdd => "INT_ADD" | IntSub => "INT_SUB" | IntCarry => "INT_CARRY"
  | IntScarry => "INT_SCARRY" | IntSborrow => "INT_SBORROW" | Int2comp => "INT_2COMP"
  | IntNegate => "INT_NEGATE" | IntXor => "INT_XOR" | IntAnd => "INT_AND"
  | IntOr => "INT_OR" | IntLeft => "INT_LEFT" | IntRight => "INT_RIGHT"
  | IntSright => "INT_SRIGHT" | IntMult => "INT_MULT" | IntDiv => "INT_DIV"
  | IntSdiv => "INT_SDIV" | IntRem => "INT_REM" | IntSrem => "INT_SREM"
  | BoolNegate => "BOOL_NEGATE" | BoolXor => "BOOL_XOR" | BoolAnd => "BOOL_AND"
  | BoolOr => "BOOL_OR" | FloatEqual => "FLOAT_EQUAL" | FloatNotequal => "FLOAT_NOTEQUAL"
  | FloatLess => "FLOAT_LESS" | FloatLessequal => "FLOAT_LESSEQUAL" | FloatNan => "FLOAT_NAN"
  | FloatAdd => "FLOAT_ADD" | FloatDiv => "FLOAT_DIV" | FloatMult => "FLOAT_MULT"
  | FloatSub => "FLOAT_SUB" | FloatNeg => "FLOAT_NEG" | FloatAbs => "FLOAT_ABS"
  | FloatSqrt => "FLOAT_SQRT" | FloatInt2float => "FLOAT_INT2FLOAT" | FloatFloat2float => "FLOAT_FLOAT2FLOAT"
  | FloatTrunc => "FLOAT_TRUNC" | FloatCeil => "FLOAT_CEIL" | FloatFloor => "FLOAT_FLOOR"
  | FloatRound => "FLOAT_ROUND" | Multiequal => "MULTIEQUAL" | Indirect => "INDIRECT"
  | Piece => "PIECE" | Subpiece => "SUBPIECE" | Cast => "CAST"
  | Ptradd => "PTRADD" | Ptrsub => "PTRSUB" | Segmentop => "SEGMENTOP"
  | Cpoolref => "CPOOLREF" | New => "NEW" | Insert => "INSERT"
  | Extract => "EXTRACT" | Popcount => "POPCOUNT" | Lzcount => "LZCOUNT"
  end.

Definition is_branch (op : opcode) : bool :=
  match op with
  | Branch | Cbranch | Branchind => true
  | _ => false
  end.

Definition terminates_block (op : opcode) : bool :=
  match op with
  | Branch | Cbranch | Branchind | Return => true
  | _ => false
  end.

(** the complementary operation and whether its inputs are reordered *)
Definition get_booleanflip (opc : opcode) : option (opcode * bool) :=
  match opc with
  | IntEqual => Some (IntNotequal, false)
  | IntNotequal => Some (IntEqual, false)
  | IntSless => Some (IntSlessequal, true)
  | IntSlessequal => Some (IntSless, true)
  | IntLess => Some (IntLessequal, true)
  | IntLessequal => Some (IntLess, true)
  | BoolNegate => Some (Copy, false)
  | FloatEqual => Some (FloatNotequal, false)
  | FloatNotequal => Some (FloatEqual, false)
  | FloatLess => Some (FloatLessequal, true)
  | FloatLessequal => Some (FloatLess, true)
  | _ => None
  end.

(** the lifter's own table of names ([sleigh/pcode.rs]), by raw number *)
Definition opcode_name (op : Z) : string :=
  match op with
  | 1 => "COPY" | 2 => "LOAD" | 3 => "STORE"
  | 4 => "BRANCH" | 5 => "CBRANCH" | 6 => "BRANCHIND"
  | 7 => "CALL" | 8 => "CALLIND" | 9 => "CALLOTHER"
  | 10 => "RETURN" | 11 => "INT_EQUAL" | 12 => "INT_NOTEQUAL"
  | 13 => "INT_SLESS" | 14 => "INT_SLESSEQUAL" | 15 => "INT_LESS"
  | 16 => "INT_LESSEQUAL" | 17 => "INT_ZEXT" | 18 => "INT_SEXT"
  | 19 => "INT_ADD" | 20 => "INT_SUB" | 21 => "INT_CARRY"
  | 22 => "INT_SCARRY" | 23 => "INT_SBORROW" | 24 => "INT_2COMP"
  | 25 => "INT_NEGATE" | 26 => "INT_XOR" | 27 => "INT_AND"
  | 28 => "INT_OR" | 29 => "INT_LEFT" | 30 => "INT_RIGHT"
  | 31 => "INT_SRIGHT" | 32 => "INT_MULT" | 33 => "INT_DIV"
  | 34 => "INT_SDIV" | 35 => "INT_REM" | 36 => "INT_SREM"
  | 37 => "BOOL_NEGATE" | 38 => "BOOL_XOR" | 39 => "BOOL_AND"
  | 40 => "BOOL_OR" | 41 => "FLOAT_EQUAL" | 42 => "FLOAT_NOTEQUAL"
  | 43 => "FLOAT_LESS" | 44 => "FLOAT_LESSEQUAL" | 46 => "FLOAT_NAN"
  | 47 => "FLOAT_ADD" | 48 => "FLOAT_DIV" | 49 => "FLOAT_MULT"
  | 50 => "FLOAT_SUB" | 51 => "FLOAT_NEG" | 52 => "FLOAT_ABS"
  | 53 => "FLOAT_SQRT" | 54 => "FLOAT_INT2FLOAT" | 55 => "FLOAT_FLOAT2FLOAT"
  | 56 => "FLOAT_TRUNC" | 57 => "FLOAT_CEIL" | 58 => "FLOAT_FLOOR"
  | 59 => "FLOAT_ROUND" | 62 => "PIECE" | 63 => "SUBPIECE"
  | 64 => "CAST" | 65 => "PTRADD" | 66 => "PTRSUB"
  | 67 => "SEGMENTOP" | 68 => "CPOOLREF" | 69 => "NEW"
  | 70 => "INSERT" | 71 => "EXTRACT" | 72 => "POPCOUNT"
  | 73 => "LZCOUNT"
  | _ => "PCODE_OP"
  end.

(** The raw numbers and the operations correspond: [from_u32] inverts the discriminants and
    recognizes nothing else, and the lifter's table and [name] agree on every operation except
    MULTIEQUAL and INDIRECT, which the lifter never emits. *)
Theorem from_u32_round_trip (n : Z) (op : opcode) :
  (from_u32 n = Some op <-> as_u32 op = n) /\ 
  (opcode_name (as_u32 op) = name op <-> op <> Multiequal /\ op <> Indirect).
Proof.
  split.
  - split; [|intros <-; by destruct op].
    unfold from_u32. intros H. repeat (case_match; try discriminate); by injection H as <-.
  - destruct op; split; (done || (intros [? ?]; done) || (cbn; intros; split; discriminate)).
Qed.
