(* ===== verification/BitUtil.v ===== *)
(** The bit-mask helpers of [decompile/nzmask.rs] and [decompile/circlerange.rs]
    (Ghidra's [address.cc]): masks by byte size, guarded shifts, covering masks, bit
    positions and sign extension. *)
From Stdlib Require Import ZArith Lia Bool List.
From stdpp Require Import base tactics.
From S2P Require Import Prelude.
Local Open Scope Z_scope.

(** ** nzmask.rs *)

Definition calc_mask (size : Z) : Z :=
  if 8 <=? size then u64_max else u64_shl 1 (8 * size) - 1.

Definition pcode_left (val sa : Z) : Z := if 64 <=? sa then 0 else u64_shl val sa.

Definition pcode_right (val sa : Z) : Z := if 64 <=? sa then 0 else u64_shr val sa.

(** the [while sz < 64] loop; [sz] doubles from 1, so six rounds reach 64 *)
Fixpoint coveringmask_loop (fuel : nat) (sz val : Z) : Z :=
  match fuel with
  | O => val
  | S fuel =>
      if sz <? 64
      then coveringmask_loop fuel (Z.shiftl sz 1) (Z.lor val (u64_shr val sz))
      else val
  end.

Definition coveringmask (val : Z) : Z := coveringmask_loop 7 1 val.

Definition minimalmask (val : Z) : Z :=
  if 4294967295 <? val then u64_max
  else if 65535 <? val then 4294967295
  else if 255 <? val then 65535
  else 255.

Definition mostsigbit_set (val : Z) : Z :=
  if val =? 0 then -1 else 63 - u64_leading_zeros val.

Definition leastsigbit_set (val : Z) : Z :=
  if val =? 0 then -1 else u64_trailing_zeros val.

Definition signbit_negative (val size : Z) : bool :=
  if size =? 0 then false
  else negb (Z.land val (u64_checked_shl0 128 (8 * (size - 1))) =? 0).

(** the mask form: [sign_extend_mask(inmask, sizein, sizeout)] *)
Definition sign_extend_mask (inmask sizein sizeout : Z) : Z :=
  let sizein := Z.min sizein 8 in
  let sizeout := Z.min sizeout 8 in
  if sizeout <=? sizein then Z.land inmask (calc_mask sizeout)
  else
    let sval := i64 (u64_shl inmask ((8 - sizein) * 8)) in
    let res := w64 (i64_shr sval ((sizeout - sizein) * 8)) in
    u64_shr res ((8 - sizeout) * 8).

(** ** circlerange.rs *)

(** [calc_mask(size: i32)] clamps a negative size to 0 first *)
Definition calc_mask_i32 (size : Z) : Z := calc_mask (Z.max size 0).

(** the value form: [sign_extend(inp, sizein, sizeout)] *)
Definition sign_extend (inp sizein sizeout : Z) : Z :=
  let sizein := Z.min sizein 8 in
  let sizeout := Z.min sizeout 8 in
  let sval := i64 (u64_shl (w64 (i64 inp)) (w32 ((8 - sizein) * 8))) in
  let res := w64 (i64_shr sval ((sizeout - sizein) * 8)) in
  u64_shr res ((8 - sizeout) * 8).

(** [sign_extend_bit(val: i64, bit)] *)
Definition sign_extend_bit (val bit : Z) : Z :=
  if 63 <=? bit then val
  else
    let mask := i64 (u64_shl (w64 (-1)) bit) in
    if negb (Z.land (i64_shr val bit) 1 =? 0) then Z.lor val mask
    else Z.land val (Z.lnot mask).

(** the [for _ in 1..(8 * sz)] loop, [n] the iterations left *)
Fixpoint bit_transitions_loop (n : nat) (val last res : Z) : Z :=
  match n with
  | O => res
  | S n =>
      let val := u64_shr val 1 in
      let cur := Z.land val 1 in
      let '(res, last) := if negb (cur =? last) then (res + 1, cur) else (res, last) in
      if val =? 0 then res else bit_transitions_loop n val last res
  end.

Definition bit_transitions (val sz : Z) : Z :=
  bit_transitions_loop (Z.to_nat (8 * sz - 1)) val (Z.land val 1) 0.

Lemma calc_mask_ones (size : Z) : 0 <= size <= 8 -> calc_mask size = Z.ones (8 * size).
Proof.
  intros H. assert (size = 0 \/ size = 1 \/ size = 2 \/ size = 3 \/ size = 4 \/ size = 5 \/
    size = 6 \/ size = 7 \/ size = 8) as Hc by lia.
  repeat (destruct Hc as [->|Hc]; [reflexivity|]). subst. reflexivity.
Qed.

Lemma calc_mask_i32_ones (size : Z) : 0 <= size <= 8 -> calc_mask_i32 size = Z.ones (8 * size).
Proof. intros. unfold calc_mask_i32. rewrite Z.max_l by lia. by apply calc_mask_ones. Qed.
