(* ===== verification/PcodeSem.v ===== *)
(** The meaning of the integer p-code operations on [size]-byte values, as Ghidra's p-code
    reference gives it: the abstract specification the interpreter ([Machine]) refines and the
    range and mask analyses ([CircleRange], [NzMask]) are proved sound for.  Values are
    unsigned residues modulo [2 ^ (8 * size)]. *)
From Stdlib Require Import ZArith Lia Bool List.
From stdpp Require Import base tactics.
From S2P Require Import Prelude OpCode BitUtil.
Local Open Scope Z_scope.

Definition bits (size : Z) : Z := 8 * size.
Definition modulus (size : Z) : Z := 2 ^ (8 * size).
Definition wrap (size x : Z) : Z := x mod modulus size.
Definition signed (size x : Z) : Z := if x <? modulus size / 2 then x else x - modulus size.

Definition valid_size (size : Z) : Prop := 1 <= size <= 8.
Definition is_value (size x : Z) : Prop := 0 <= x < modulus size.

Definition b2z (b : bool) : Z := if b then 1 else 0.

(** one-input operations; [None]: not an integer computation of this form *)
Definition eval_unary (opc : opcode) (in_size out_size x : Z) : option Z :=
  match opc with
  | Copy | IntZext => Some (wrap out_size x)
  | IntSext => Some (wrap out_size (signed in_size x))
  | Int2comp => Some (wrap out_size (- x))
  | IntNegate => Some (wrap out_size (Z.lnot x))
  | BoolNegate => Some (b2z (x =? 0))
  | Popcount => Some (wrap out_size (count_ones x))
  | Lzcount => Some (wrap out_size (8 * in_size - (if x =? 0 then 0 else Z.log2 x + 1)))
  | _ => None
  end.

Definition eval_binary (opc : opcode) (in_size out_size x y : Z) : option Z :=
  match opc with
  | IntEqual => Some (b2z (x =? y))
  | IntNotequal => Some (b2z (negb (x =? y)))
  | IntLess => Some (b2z (x <? y))
  | IntLessequal => Some (b2z (x <=? y))
  | IntSless => Some (b2z (signed in_size x <? signed in_size y))
  | IntSlessequal => Some (b2z (signed in_size x <=? signed in_size y))
  | IntCarry => Some (b2z (modulus in_size <=? x + y))
  | IntScarry =>
      let s := signed in_size x + signed in_size y in
      Some (b2z ((modulus in_size / 2 <=? s) || (s <? - (modulus in_size / 2))))
  | IntSborrow =>
      let s := signed in_size x - signed in_size y in
      Some (b2z ((modulus in_size / 2 <=? s) || (s <? - (modulus in_size / 2))))
  | IntAdd => Some (wrap out_size (x + y))
  | IntSub => Some (wrap out_size (x - y))
  | IntMult => Some (wrap out_size (x * y))
  | IntAnd => Some (wrap out_size (Z.land x y))
  | IntOr => Some (wrap out_size (Z.lor x y))
  | IntXor => Some (wrap out_size (Z.lxor x y))
  | IntLeft => Some (wrap out_size (x * 2 ^ y))
  | IntRight => Some (wrap out_size (x / 2 ^ y))
  | IntSright => Some (wrap out_size (signed in_size x / 2 ^ y))
  | IntDiv => if y =? 0 then None else Some (wrap out_size (x / y))
  | IntRem => if y =? 0 then None else Some (wrap out_size (x mod y))
  | IntSdiv => if y =? 0 then None
               else Some (wrap out_size (Z.quot (signed in_size x) (signed in_size y)))
  | IntSrem => if y =? 0 then None
               else Some (wrap out_size (Z.rem (signed in_size x) (signed in_size y)))
  | BoolAnd => Some (Z.land (Z.land x 1) (Z.land y 1))
  | BoolOr => Some (Z.lor (Z.land x 1) (Z.land y 1))
  | BoolXor => Some (Z.lxor (Z.land x 1) (Z.land y 1))
  | Subpiece => Some (wrap out_size (x / 2 ^ (8 * y)))
  | _ => None
  end.

(** The operand sizes of the p-code reference. *)
Definition binary_sizes (opc : opcode) (s1 s2 out : Z) : bool :=
  match opc with
  | IntEqual | IntNotequal | IntLess | IntLessequal | IntSless | IntSlessequal
  | IntCarry | IntScarry | IntSborrow => (s1 =? s2) && (out =? 1)
  | BoolAnd | BoolOr | BoolXor => (s1 =? 1) && (s2 =? 1) && (out =? 1)
  | IntLeft | IntRight | IntSright => s1 =? out
  | Subpiece => true
  | _ => (s1 =? s2) && (s1 =? out)
  end.

(** The output size of the p-code reference. *)
Definition unary_sizes (opc : opcode) (in_size out_size : Z) : bool :=
  match opc with
  | IntZext | IntSext => in_size <? out_size
  | BoolNegate => out_size =? 1
  | Popcount | Lzcount => true
  | _ => in_size =? out_size
  end.

Lemma modulus_pos (size : Z) : valid_size size -> 0 < modulus size.
Proof. unfold valid_size, modulus. intros. apply pow2_pos. lia. Qed.

Lemma modulus_half (size : Z) : valid_size size -> modulus size = 2 * (modulus size / 2).
Proof.
  unfold valid_size, modulus. intros.
  replace (8 * size) with (1 + (8 * size - 1)) by lia.
  rewrite Z.pow_add_r by lia. rewrite (Z.mul_comm (2 ^ 1)), Z.div_mul by lia. lia.
Qed.

Lemma modulus_ge (size : Z) : valid_size size -> 256 <= modulus size <= 2 ^ 64.
Proof.
  unfold valid_size, modulus. intros. split.
  - change 256 with (2 ^ 8). apply Z.pow_le_mono_r; lia.
  - apply Z.pow_le_mono_r; lia.
Qed.

Lemma wrap_value (size x : Z) : valid_size size -> is_value size (wrap size x).
Proof. intros. unfold wrap, is_value. apply Z.mod_pos_bound, modulus_pos; done. Qed.

Lemma wrap_small (size x : Z) : is_value size x -> wrap size x = x.
Proof. intros. unfold wrap. apply Z.mod_small. done. Qed.

Lemma signed_range (size x : Z) : valid_size size -> is_value size x ->
  - (modulus size / 2) <= signed size x < modulus size / 2.
Proof.
  intros Hs Hx. pose proof (modulus_half size Hs). unfold signed, is_value in *. cmp; lia.
Qed.

#[export] Hint Resolve modulus_pos wrap_value wrap_small signed_range : words.

Lemma calc_mask_modulus (size : Z) : valid_size size -> calc_mask_i32 size = modulus size - 1.
Proof.
  unfold valid_size, modulus. intros. rewrite calc_mask_i32_ones, ones_pow; lia.
Qed.

Lemma w64_mod (size z : Z) : valid_size size -> w64 z mod modulus size = z mod modulus size.
Proof.
  intros Hs. unfold w64. apply Z.mod_mod_divide. unfold modulus, valid_size in *.
  change 18446744073709551616 with (2 ^ 64). apply pow2_divide. lia.
Qed.
