(* ===== verification/OpCodeFacts.v ===== *)
(** The complement table of [OpCode] against the p-code semantics. *)
From Stdlib Require Import ZArith Lia Bool List.
From stdpp Require Import base tactics.
From S2P Require Import Prelude OpCode BitUtil PcodeSem.
Local Open Scope Z_scope.

(** The two inputs, exchanged when the complement reorders them. *)
Definition eval_flipped (opc : opcode) (reorder : bool) (in_size x y : Z) : option Z :=
  if reorder then eval_binary opc in_size 1 y x else eval_binary opc in_size 1 x y.

(** [get_booleanflip] gives an operation with the opposite outcome on the same inputs
    (exchanged when it says so), and the complement of the complement is the operation again. *)
Theorem booleanflip_opposite (opc opc' : opcode) (reorder : bool) (in_size x y v : Z) :
  get_booleanflip opc = Some (opc', reorder) ->
  (opc <> BoolNegate -> get_booleanflip opc' = Some (opc, reorder)) /\
  (eval_binary opc in_size 1 x y = Some v ->
     eval_flipped opc' reorder in_size x y = Some (1 - v)).
Proof.
  intros H. destruct opc; try discriminate; injection H as <- <-; (split; [done|]);
    unfold eval_flipped; cbn; try discriminate; intros [= <-]; f_equal; cmp; cbn; (done || lia).
Qed.

Lemma booleanflip_opposite_witness :
  get_booleanflip IntSlessequal = Some (IntSless, true) /\
  eval_flipped IntSless true 1 200 7 = Some (1 - 1).
Proof.
  destruct (booleanflip_opposite IntSless IntSlessequal true 1 200 7 1) as [H1 H2];
    [reflexivity|]. split; [apply H1; discriminate|].
  destruct (booleanflip_opposite IntSlessequal IntSless true 1 200 7 1) as [_ H3]; [reflexivity|].
  apply H3. reflexivity.
Defined.
