(* ===== verification/Space.v ===== *)
(** [decompile/space.rs]: addresses, the address spaces of an architecture and the logical joins
    that several pieces of storage form, and lists of address ranges.  An offset is a [u64], a space
    identifier an index into the manager's list.  An index out of range panics in the source; the
    defaults below stand for it. *)
From Stdlib Require Import ZArith Lia Bool List.
From stdpp Require Import base decidable strings gmap list numbers.
From S2P Require Import Prelude.
Local Open Scope Z_scope.

Record address := Addr { a_space : Z; a_offset : Z }.

#[export] Instance address_eq_dec : EqDecision address.
Proof. solve_decision. Defined.

(** ** Spaces *)

Inductive space_kind := KConstant | KProcessor | KInternal | KSpacebase | KSpecial.

#[export] Instance space_kind_eq_dec : EqDecision space_kind.
Proof. solve_decision. Defined.

Record aspace := Space {
  sp_id : Z;
  sp_name : string;
  sp_kind : space_kind;
  sp_addr_size : Z;
  sp_big_endian : bool;
  sp_wordsize : Z;
  sp_delay : Z;
  sp_deadcodedelay : Z;
  sp_spacebase : list (address * Z);
  sp_contain : option Z;
}.

Definition is_heritaged (s : aspace) : bool :=
  match sp_kind s with KProcessor | KInternal | KSpacebase => true | _ => false end.

(** [mask * wordsize + (wordsize - 1)] wraps as a release build does *)
Definition highest (s : aspace) : Z :=
  let mask := if 8 <=? sp_addr_size s then u64_max else u64_shl 1 (sp_addr_size s * 8) - 1 in
  if 1 <? sp_wordsize s then u64_add (u64_mul mask (sp_wordsize s)) (sp_wordsize s - 1) else mask.

(** [%] of [i64] truncates towards zero *)
Definition wrap_offset (s : aspace) (off : Z) : Z :=
  let highest := highest s in
  if off <=? highest then off
  else
    let m := i64 highest + 1 in
    if 2 ^ 63 <=? m then off
    else if m =? 0 then off
    else
      let res := Z.rem (i64 off) m in
      w64 (if res <? 0 then res + m else res).

(** ** Ranges *)

Record range := Range { r_spc : Z; r_first : Z; r_last : Z }.

Definition range_list := list range.

(** the derived order: space, first, last *)
Definition range_lt (a b : range) : bool :=
  (r_spc a <? r_spc b) ||
  ((r_spc a =? r_spc b) && ((r_first a <? r_first b) || ((r_first a =? r_first b) && (r_last a <? r_last b)))).

Definition upper_bound (l : range_list) (spc off : Z) : nat :=
  partition_point (fun r => (r_spc r <? spc) || ((r_spc r =? spc) && (r_first r <=? off))) l.

(** the first range with [last >= first]: the one before the bound, or the bound *)
Definition lower_touch (l : range_list) (spc first : Z) : nat :=
  match upper_bound l spc first with
  | O => O
  | S i =>
      match nth_error l i with
      | Some r => if negb (r_spc r =? spc) || (r_last r <? first) then S i else i
      | None => i
      end
  end.

(** [None] when the slice [iter1..iter2] is not one, which panics *)
Definition insert_range (l : range_list) (spc first last : Z) : option range_list :=
  let iter1 := lower_touch l spc first in
  let iter2 := upper_bound l spc last in
  if Nat.ltb iter2 iter1 then None
  else
    let hit := take (iter2 - iter1) (drop iter1 l) in
    let first := fold_left (fun m r => Z.min m (r_first r)) hit first in
    let last := fold_left (fun m r => Z.max m (r_last r)) hit last in
    let l := take iter1 l ++ drop iter2 l in
    let ins := Range spc first last in
    let at_ := partition_point (fun r => range_lt r ins) l in
    Some (take at_ l ++ ins :: drop at_ l).

Definition remainders (spc first last : Z) (r : range) : list range :=
  (if r_first r <? first then [Range spc (r_first r) (first - 1)] else []) ++
  (if last <? r_last r then [Range spc (last + 1) (r_last r)] else []).

Definition remove_range (l : range_list) (spc first last : Z) : option range_list :=
  match l with
  | [] => Some []
  | _ =>
      let iter1 := lower_touch l spc first in
      let iter2 := upper_bound l spc last in
      if Nat.ltb iter2 iter1 then None
      else
        let replacement := flat_map (remainders spc first last) (take (iter2 - iter1) (drop iter1 l)) in
        Some (sort_by (fun a b => negb (range_lt b a)) (take iter1 l ++ replacement ++ drop iter2 l))
  end.

Definition in_range (l : range_list) (addr : address) (size : Z) : bool :=
  match upper_bound l (a_space addr) (a_offset addr) with
  | O => false
  | S i =>
      match nth_error l i with
      | None => false
      | Some r => (r_spc r =? a_space addr) && (u64_sub (u64_add (a_offset addr) size) 1 <=? r_last r)
      end
  end.

(** the [while] loop, over the ranges from [i] on *)
Fixpoint chain_fit (l : range_list) (spc offset maxsize sizeres : Z) : Z :=
  match l with
  | [] => sizeres
  | r :: l =>
      if negb (r_spc r =? spc) || (offset <? r_first r) then sizeres
      else
        let sizeres := u64_add sizeres (u64_sub (u64_add (r_last r) 1) offset) in
        if maxsize <=? sizeres then sizeres else chain_fit l spc (u64_add (r_last r) 1) maxsize sizeres
  end.

Definition longest_fit (l : range_list) (spc off maxsize : Z) : Z :=
  match upper_bound l spc off with
  | O => 0
  | S i =>
      match nth_error l i with
      | None => 0
      | Some r => if negb (r_spc r =? spc) || (r_last r <? off) then 0 else chain_fit (drop i l) spc off maxsize 0
      end
  end.

(** ** The manager *)

(** One logical value in several pieces of storage, the most significant first. *)
Record join_record := JoinRecord { j_pieces : list (address * Z); j_addr : address; j_size : Z }.

#[export] Instance join_record_eq_dec : EqDecision join_record.
Proof. solve_decision. Defined.

Record space_manager := SpaceManager {
  sm_spaces : list aspace;
  sm_by_name : gmap string Z;
  sm_joins : list join_record;
  sm_join_allocate : Z;
}.

Definition no_space : aspace := Space 0 EmptyString KSpecial 0 false 0 0 0 [] None.

Definition get_space (m : space_manager) (id : Z) : aspace := nth (Z.to_nat id) (sm_spaces m) no_space.

Definition by_name (m : space_manager) (name : string) : option Z := sm_by_name m !! name.

Definition update_space (m : space_manager) (id : Z) (f : aspace -> aspace) : space_manager :=
  SpaceManager (alter f (Z.to_nat id) (sm_spaces m)) (sm_by_name m) (sm_joins m) (sm_join_allocate m).

Definition heritage_delay (kind : space_kind) (name : string) : Z :=
  match kind with
  | KConstant | KInternal | KSpecial => 0
  | KProcessor => if bool_decide (name = "register"%string) then 0 else 1
  | KSpacebase => 1
  end.

Definition add_space (m : space_manager) (name : string) (kind : space_kind) (addr_size wordsize : Z)
    : Z * space_manager :=
  match by_name m name with
  | Some id => (id, m)
  | None =>
      let id := w32 (Z.of_nat (List.length (sm_spaces m))) in
      let delay := heritage_delay kind name in
      (id, SpaceManager (sm_spaces m ++ [Space id name kind addr_size false wordsize delay delay [] None])
             (<[name := id]> (sm_by_name m)) (sm_joins m) (sm_join_allocate m))
  end.

Definition set_deadcode_delay (m : space_manager) (id delay : Z) : space_manager :=
  update_space m id (fun s => Space (sp_id s) (sp_name s) (sp_kind s) (sp_addr_size s) (sp_big_endian s)
    (sp_wordsize s) (sp_delay s) delay (sp_spacebase s) (sp_contain s)).

Definition with_spacebase (m : space_manager) (id addr_size : Z) (regs : list (address * Z)) : space_manager :=
  update_space m id (fun s => Space (sp_id s) (sp_name s) (sp_kind s) addr_size (sp_big_endian s)
    (sp_wordsize s) (sp_delay s) (sp_deadcodedelay s) regs (sp_contain s)).

Definition set_spacebase (m : space_manager) (id : Z) (reg : address) (size : Z) : space_manager :=
  let s := get_space m id in
  with_spacebase m id (sp_addr_size s) (sp_spacebase s ++ [(reg, size)]).

Definition set_stack_pointer (m : space_manager) (reg : address) (size : Z) : space_manager :=
  match by_name m "stack" with
  | None => m
  | Some stack => set_spacebase (with_spacebase m stack size []) stack reg size
  end.

Definition set_ram_addr_size (m : space_manager) (size : Z) : space_manager :=
  match by_name m "ram" with
  | None => m
  | Some ram => if 0 <? size then with_spacebase m ram size (sp_spacebase (get_space m ram)) else m
  end.

Definition set_contain (m : space_manager) (id contain : Z) : space_manager :=
  update_space m id (fun s => Space (sp_id s) (sp_name s) (sp_kind s) (sp_addr_size s) (sp_big_endian s)
    (sp_wordsize s) (sp_delay s) (sp_deadcodedelay s) (sp_spacebase s) (Some contain)).

Definition with_endian (big : bool) (s : aspace) : aspace :=
  Space (sp_id s) (sp_name s) (sp_kind s) (sp_addr_size s) big (sp_wordsize s) (sp_delay s)
    (sp_deadcodedelay s) (sp_spacebase s) (sp_contain s).

Definition set_big_endian (m : space_manager) (big : bool) : space_manager :=
  SpaceManager (map (with_endian big) (sm_spaces m)) (sm_by_name m) (sm_joins m) (sm_join_allocate m).

Definition is_big_endian (m : space_manager) (id : Z) : bool := sp_big_endian (get_space m id).

Definition space_by_spacebase (m : space_manager) (loc : address) (size : Z) : option Z :=
  option_map sp_id
    (List.find (fun s => existsb (fun p => bool_decide (p = (loc, size))) (sp_spacebase s)) (sm_spaces m)).

Definition standard : space_manager :=
  let m := SpaceManager [] ∅ [] 0 in
  let '(_, m) := add_space m "const" KConstant 8 1 in
  let '(_, m) := add_space m "ram" KProcessor 8 1 in
  let '(register, m) := add_space m "register" KProcessor 4 1 in
  let '(_, m) := add_space m "unique" KInternal 4 1 in
  let '(stack, m) := add_space m "stack" KSpacebase 8 1 in
  let m := set_spacebase m stack (Addr register 32) 8 in
  set_contain m stack (default 0 (by_name m "ram")).

Definition from_spaces (l : list aspace) : space_manager :=
  SpaceManager l (fold_left (fun names s => <[sp_name s := sp_id s]> names) l ∅) [] 0.

(** the offset of [(op2, sz2)] within [(addr, sz)], from the least significant byte *)
Definition justified_contain (m : space_manager) (addr : address) (sz : Z) (op2 : address) (sz2 : Z)
    (forceleft : bool) : option Z :=
  if negb (a_space addr =? a_space op2) || (sz =? 0) || (sz2 =? 0) then None
  else if a_offset op2 <? a_offset addr then None
  else
    let off1 := u64_add (a_offset addr) (sz - 1) in
    let off2 := u64_add (a_offset op2) (sz2 - 1) in
    if off1 <? off2 then None
    else if is_big_endian m (a_space addr) && negb forceleft then Some (off1 - off2)
    else Some (a_offset op2 - a_offset addr).

(** ** Joins *)

(** [None] is a failed assertion *)
Definition find_add_join (m : space_manager) (pieces : list (address * Z)) (logical_size : Z)
    : option (address * space_manager) :=
  let n := List.length pieces in
  if Nat.eqb n 0 || (Nat.eqb n 1 && (logical_size =? 0)) || (negb (logical_size =? 0) && negb (Nat.eqb n 1)) then None
  else
    let size := if negb (logical_size =? 0) then logical_size else fold_left (fun s p => w32 (s + snd p)) pieces 0 in
    if size =? 0 then None
    else
      match List.find (fun r => bool_decide (j_pieces r = pieces) && (j_size r =? size)) (sm_joins m) with
      | Some r => Some (j_addr r, m)
      | None =>
          let '(space, m) := match by_name m "join" with
                             | Some id => (id, m)
                             | None => add_space m "join" KSpecial 8 1
                             end in
          let m := update_space m space (with_endian (sp_big_endian (get_space m 0))) in
          let addr := Addr space (sm_join_allocate m) in
          Some (addr, SpaceManager (sm_spaces m) (sm_by_name m) (sm_joins m ++ [JoinRecord pieces addr size])
                        (u64_add (sm_join_allocate m) (Z.land (u64_add size 15) (u64_not 15))))
      end.

Definition no_piece : address * Z := (Addr 0 0, 0).

Definition piece (r : join_record) (i : nat) : address * Z := nth i (j_pieces r) no_piece.

Fixpoint find_piece (r : join_record) (indices : list nat) (off : Z) : option (address * nat) :=
  match indices with
  | [] => None
  | pos :: indices =>
      let '(addr, size) := piece r pos in
      if off <? size then Some (Addr (a_space addr) (u64_add (a_offset addr) off), pos)
      else find_piece r indices (off - size)
  end.

Definition join_indices (m : space_manager) (r : join_record) : list nat :=
  let n := List.length (j_pieces r) in
  if is_big_endian m (a_space (fst (piece r 0))) then seq 0 n else rev (seq 0 n).

Definition join_equivalent_address (m : space_manager) (r : join_record) (offset : Z) : option (address * nat) :=
  if offset <? a_offset (j_addr r) then None else find_piece r (join_indices m r) (offset - a_offset (j_addr r)).

Definition covering_join (m : space_manager) (addr : address) : option join_record :=
  List.find (fun r => (a_space (j_addr r) =? a_space addr) && (a_offset (j_addr r) <=? a_offset addr) &&
                      (a_offset addr <? u64_add (a_offset (j_addr r)) (j_size r))) (sm_joins m).

Definition join_range (m : space_manager) (addr : address) (size : Z) : option (list (address * Z)) :=
  match covering_join m addr with
  | None => None
  | Some r =>
      match join_equivalent_address m r (a_offset addr) with
      | None => None
      | Some (first, p1) =>
          if size <? 1 then None
          else
            match u64_checked_add (a_offset addr) (size - 1) with
            | None => None
            | Some end_ =>
                match join_equivalent_address m r end_ with
                | None => None
                | Some (last, p2) =>
                    if Nat.eqb p1 p2 then Some [(first, size)]
                    else
                      let lo := Nat.min p1 p2 in
                      let pieces := take (S (Nat.max p1 p2 - lo)) (drop lo (j_pieces r)) in
                      let truncate_first := w32 (a_offset first - a_offset (fst (piece r p1))) in
                      let truncate_last :=
                        w32 (snd (piece r p2) - w32 (a_offset last - a_offset (fst (piece r p2))) - 1) in
                      let high_index := Nat.pred (List.length pieces) in
                      let '(start, end_) := if Nat.ltb p2 p1 then (high_index, 0%nat) else (0%nat, high_index) in
                      let pieces := alter (fun p => (first, w32 (snd p - truncate_first))) start pieces in
                      Some (alter (fun p => (fst p, w32 (snd p - truncate_last))) end_ pieces)
                end
            end
      end
  end.

Definition find_join (m : space_manager) (addr : address) : option join_record :=
  List.find (fun r => bool_decide (j_addr r = addr)) (sm_joins m).

Definition known_join (m : space_manager) (addr : address) (size : Z) : bool :=
  match find_join m addr with Some r => j_size r =? size | None => false end.

(** [None] is a panic *)
Definition renormalize_join_address (m : space_manager) (addr : address) (size : Z)
    : option (address * space_manager) :=
  if negb (bool_decide (by_name m "join" = Some (a_space addr))) || known_join m addr size then Some (addr, m)
  else
    match join_range m addr size with
    | None => None
    | Some [p] => Some (fst p, m)
    | Some pieces => find_add_join m pieces 0
    end.

Definition normalized_address_eq (m : space_manager) (addr : address) (size : Z) (other : address) : bool :=
  if negb (bool_decide (by_name m "join" = Some (a_space addr))) || known_join m addr size
  then bool_decide (addr = other)
  else
    match join_range m addr size with
    | None => false
    | Some [p] => bool_decide (fst p = other)
    | Some pieces =>
        match find_join m other with
        | Some r => (j_size r =? size) && bool_decide (j_pieces r = pieces)
        | None => false
        end
    end.
