(* ===== verification/SpaceFacts.v ===== *)
(** Range lists denote sets of addresses: insertion and removal keep the list sorted and disjoint and
    change the set as they say; the queries read it.  Offsets wrap into their space; a join is
    interned once and its byte positions name the bytes of its pieces. *)
From Stdlib Require Import ZArith Lia Bool List Sorted.
From stdpp Require Import base decidable strings gmap list numbers tactics.
From S2P Require Import Prelude Space.
Local Open Scope Z_scope.

(** ** Range lists *)

Definition covers (l : range_list) (s o : Z) : Prop :=
  exists r, In r l /\ r_spc r = s /\ r_first r <= o <= r_last r.

Definition before (a b : range) : Prop :=
  r_spc a < r_spc b \/ (r_spc a = r_spc b /\ r_last a < r_first b).

Definition range_ok (r : range) : Prop := 0 <= r_first r <= r_last r /\ r_last r < 2 ^ 64.

(** sorted and disjoint *)
Definition ranges_ok (l : range_list) : Prop := StronglySorted before l /\ List.Forall range_ok l.

(** where a range lies with respect to the window [first, last] of a space *)
Definition left_of (s first : Z) (r : range) : Prop := r_spc r < s \/ (r_spc r = s /\ r_last r < first).
Definition right_of (s last : Z) (r : range) : Prop := s < r_spc r \/ (r_spc r = s /\ last < r_first r).
Definition touching (s first last : Z) (r : range) : Prop := r_spc r = s /\ r_first r <= last /\ first <= r_last r.

Lemma sorted_app {A : Type} (R : A -> A -> Prop) (a b : list A) :
  StronglySorted R (a ++ b) <->
  StronglySorted R a /\ StronglySorted R b /\ forall x y, In x a -> In y b -> R x y.
Proof.
  induction a as [|z a IH]; cbn; [split; [intros H; split_and!; [constructor|done|done]|tauto]|]. split.
  - intros H. apply StronglySorted_inv in H as [H Hz]. apply IH in H as (Ha & Hb & Hx). rewrite List.Forall_forall in Hz.
    split_and!; [|done|intros x y [<-|Hin] Hy; [apply Hz, in_app_iff; by right|auto]].
    constructor; [done|]. apply List.Forall_forall. intros x Hin. apply Hz, in_app_iff. by left.
  - intros (Ha & Hb & Hx). apply StronglySorted_inv in Ha as [Ha Hz]. rewrite List.Forall_forall in Hz.
    constructor; [apply IH; split_and!; auto|]. apply List.Forall_forall. intros x [Hin|Hin]%in_app_iff; auto.
Qed.

Lemma ranges_ok_cons (r : range) (l : range_list) :
  ranges_ok (r :: l) <-> range_ok r /\ List.Forall (before r) l /\ ranges_ok l.
Proof.
  unfold ranges_ok. split.
  - intros [Hs Hf]. apply StronglySorted_inv in Hs as [Hs Hb]. inversion Hf; subst. by split_and!.
  - intros (Hr & Hb & Hs & Hf). split; by constructor.
Qed.

(** [partition_point] of a predicate that can only turn false splits the list in two. *)
Lemma partition_point_split {A : Type} (R : A -> A -> Prop) (p : A -> bool) (l : list A) :
  StronglySorted R l -> (forall a b, R a b -> p b = true -> p a = true) ->
  List.Forall (fun a => p a = true) (take (partition_point p l) l) /\
  List.Forall (fun a => p a = false) (drop (partition_point p l) l).
Proof.
  intros Hs Hp. induction Hs as [|a l Hs IH Ha]; cbn [partition_point]; [by split|].
  destruct (p a) eqn:E; cbn [take drop].
  - destruct IH as [IH1 IH2]. split; [by constructor|done].
  - split; [constructor|]. constructor; [done|]. apply List.Forall_forall. intros b Hb.
    rewrite List.Forall_forall in Ha. specialize (Ha b Hb). destruct (p b) eqn:Eb; [|done].
    rewrite (Hp a b Ha Eb) in E. done.
Qed.

(** The split by the predicate, from the left. *)
Lemma partition_point_app {A : Type} (p : A -> bool) (l1 l2 : list A) :
  List.Forall (fun a => p a = true) l1 -> List.Forall (fun a => p a = false) l2 ->
  partition_point p (l1 ++ l2) = List.length l1.
Proof.
  induction 1 as [|a l1 Ha H1 IH]; cbn [app partition_point List.length]; intros H2.
  - destruct H2 as [|a l2 Ha _]; cbn; [done|]. by rewrite Ha.
  - rewrite Ha. f_equal. by apply IH.
Qed.

(** ** Splitting a list at a window *)

Record windowed (l : range_list) (s first last : Z) (l1 mid l2 : range_list) : Prop := Windowed {
  w_list : l = l1 ++ mid ++ l2;
  w_left : List.Forall (left_of s first) l1;
  w_mid : List.Forall (touching s first last) mid;
  w_right : List.Forall (right_of s last) l2;
}.

Lemma window_exists (l : range_list) (s first last : Z) : ranges_ok l -> first <= last ->
  exists l1 mid l2, windowed l s first last l1 mid l2.
Proof.
  intros Hok Hw. induction l as [|r l IH]; [exists [], [], []; by constructor|].
  apply ranges_ok_cons in Hok as (Hr & Hb & Hok). destruct (IH Hok) as (l1 & mid & l2 & [El H1 H2 H3]). clear IH.
  assert (Hd : left_of s first r \/ touching s first last r \/ right_of s last r).
  { unfold left_of, touching, right_of, range_ok in *. lia. }
  assert (Hin : forall x, In x l1 \/ In x mid -> before r x /\ range_ok x).
  { destruct Hok as [_ Hok]. intros x Hx. rewrite List.Forall_forall in Hb, Hok.
    assert (In x l) by (rewrite El, !in_app_iff; tauto). auto. }
  rewrite List.Forall_forall in H1, H2, H3. unfold left_of, touching, right_of, before, range_ok in *.
  destruct Hd as [Hd|[Hd|Hd]].
  - exists (r :: l1), mid, l2. constructor; [by rewrite El|by constructor; [|apply List.Forall_forall]|by apply List.Forall_forall..].
  - destruct l1 as [|x l1]; [|specialize (H1 x (or_introl eq_refl)); specialize (Hin x ltac:(by left; left)); lia].
    exists [], (r :: mid), l2. constructor; [by rewrite El|done|by constructor; [|apply List.Forall_forall]|by apply List.Forall_forall].
  - destruct l1 as [|x l1]; [|specialize (H1 x (or_introl eq_refl)); specialize (Hin x ltac:(by left; left)); lia].
    destruct mid as [|x mid]; [|specialize (H2 x (or_introl eq_refl)); specialize (Hin x ltac:(by right; left)); lia].
    exists [], [], (r :: l2). constructor; [by rewrite El|done|done|by constructor; [|apply List.Forall_forall]].
Qed.

(** The positions the operations compute are the borders of the window. *)
Lemma upper_bound_app (a b : list range) (s off : Z) :
  (forall r, In r a -> r_spc r < s \/ r_spc r = s /\ r_first r <= off) ->
  (forall r, In r b -> s < r_spc r \/ r_spc r = s /\ off < r_first r) ->
  upper_bound (a ++ b) s off = List.length a.
Proof.
  intros Ha Hb. apply partition_point_app; apply List.Forall_forall; intros r Hr;
    [specialize (Ha r Hr)|specialize (Hb r Hr)]; cmp; cbn; lia.
Qed.

Lemma upper_bound_window (l : range_list) (s first last : Z) (l1 mid l2 : list range) :
  List.Forall range_ok l -> first <= last -> windowed l s first last l1 mid l2 ->
  upper_bound l s last = List.length (l1 ++ mid).
Proof.
  intros Hok Hw [-> H1 H2 H3]. rewrite app_assoc in *. apply List.Forall_app in Hok as [Hok _].
  rewrite List.Forall_forall in *. unfold left_of, touching, right_of, range_ok in *. apply upper_bound_app; intros x Hx.
  - specialize (Hok x Hx). apply in_app_iff in Hx as [Hx|Hx]; [specialize (H1 x Hx)|specialize (H2 x Hx)]; lia.
  - specialize (H3 x Hx). lia.
Qed.

(** The bound of [first] is the left border, or one past it when a range holds [first]. *)
Lemma lower_bound_window (l : range_list) (s first last : Z) (l1 mid l2 : list range) :
  ranges_ok l -> first <= last -> windowed l s first last l1 mid l2 ->
  upper_bound l s first = List.length l1 \/
  exists m mid', mid = m :: mid' /\ upper_bound l s first = S (List.length l1).
Proof.
  intros [Hs Hok] Hw [-> H1 H2 H3]. rewrite List.Forall_forall in *. unfold left_of, touching, right_of, range_ok in *.
  assert (Hl : forall r, In r l1 -> r_spc r < s \/ r_spc r = s /\ r_first r <= first).
  { intros r Hr. specialize (H1 r Hr). specialize (Hok r ltac:(apply in_app_iff; by left)). lia. }
  apply sorted_app in Hs as (_ & Hs & _). destruct mid as [|m mid].
  { left. apply upper_bound_app; [done|]. intros r Hr. specialize (H3 r Hr). lia. }
  cbn in Hs. apply StronglySorted_inv in Hs as [_ Hm]. rewrite List.Forall_forall in Hm. unfold before in Hm.
  pose proof (H2 m (or_introl eq_refl)) as Hm2.
  destruct (Z.le_gt_cases (r_first m) first) as [Hf|Hf]; [right|left].
  - exists m, mid. split; [done|]. replace (l1 ++ (m :: mid) ++ l2) with ((l1 ++ [m]) ++ mid ++ l2) by by rewrite <- app_assoc.
    rewrite upper_bound_app; [rewrite length_app; cbn; lia| |].
    + intros r Hr. apply in_app_iff in Hr as [Hr|[<-|[]]]; [by apply Hl|lia].
    + intros r Hr. specialize (Hm r Hr). lia.
  - apply upper_bound_app; [done|]. cbn. intros r [<-|Hr]; [lia|]. specialize (Hm r Hr).
    specialize (Hok m ltac:(apply in_app_iff; right; by left)). lia.
Qed.

Lemma lower_touch_window (l : range_list) (s first last : Z) (l1 mid l2 : list range) :
  ranges_ok l -> first <= last -> windowed l s first last l1 mid l2 -> lower_touch l s first = List.length l1.
Proof.
  intros Hok Hw HW. unfold lower_touch. destruct (lower_bound_window _ _ _ _ _ _ _ Hok Hw HW) as [E|(m & mid' & -> & E)];
    rewrite E; destruct HW as [-> H1 H2 H3].
  - destruct (List.length l1) as [|i] eqn:El; [done|]. rewrite nth_error_app1 by lia.
    destruct (nth_error l1 i) as [r|] eqn:Er; [|apply nth_error_None in Er; lia].
    apply nth_error_In in Er. rewrite List.Forall_forall in H1. specialize (H1 r Er). unfold left_of in H1. cmp; cbn; lia.
  - rewrite nth_error_app2, Nat.sub_diag by lia. cbn. apply List.Forall_inv in H2. unfold touching in H2. cmp; cbn; lia.
Qed.

(** ** Insertion *)

Lemma fold_min_spec (l : list range) (z : Z) : let m := fold_left (fun m r => Z.min m (r_first r)) l z in
  m <= z /\ (forall r, In r l -> m <= r_first r) /\ (m = z \/ exists r, In r l /\ m = r_first r).
Proof.
  revert z. induction l as [|r l IH]; intros z; cbn; [split_and!; [lia|done|by left]|].
  destruct (IH (Z.min z (r_first r))) as (H1 & H2 & H3). split_and!; [lia|intros x [<-|Hx]; [lia|auto]|].
  destruct H3 as [H3|(x & Hx & H3)]; [|right; exists x; tauto].
  destruct (Z.le_gt_cases z (r_first r)); [left; lia|right; exists r; split; [by left|lia]].
Qed.

Lemma fold_max_spec (l : list range) (z : Z) : let m := fold_left (fun m r => Z.max m (r_last r)) l z in
  z <= m /\ (forall r, In r l -> r_last r <= m) /\ (m = z \/ exists r, In r l /\ m = r_last r).
Proof.
  revert z. induction l as [|r l IH]; intros z; cbn; [split_and!; [lia|done|by left]|].
  destruct (IH (Z.max z (r_last r))) as (H1 & H2 & H3). split_and!; [lia|intros x [<-|Hx]; [lia|auto]|].
  destruct H3 as [H3|(x & Hx & H3)]; [|right; exists x; tauto].
  destruct (Z.le_gt_cases (r_last r) z); [left; lia|right; exists r; split; [by left|lia]].
Qed.

Lemma window_slices (l1 mid l2 : list range) : let l := l1 ++ mid ++ l2 in
  let n1 := List.length l1 in let n2 := List.length (l1 ++ mid) in
  take n1 l = l1 /\ drop n2 l = l2 /\ take (n2 - n1) (drop n1 l) = mid /\ Nat.ltb n2 n1 = false.
Proof.
  cbn. rewrite length_app. split_and!.
  - by rewrite take_app_length.
  - by rewrite app_assoc, <- length_app, drop_app_length.
  - rewrite drop_app_length. replace (List.length l1 + List.length mid - List.length l1)%nat with (List.length mid) by lia.
    by rewrite take_app_length.
  - apply Nat.ltb_ge. lia.
Qed.

(** Replacing the middle of a list by ranges that fit the gap. *)
Lemma ranges_ok_replace (l1 mid mid' l2 : list range) : ranges_ok (l1 ++ mid ++ l2) -> ranges_ok mid' ->
  (forall x y, In x l1 -> In y mid' -> before x y) -> (forall x y, In x mid' -> In y l2 -> before x y) ->
  ranges_ok (l1 ++ mid' ++ l2).
Proof.
  unfold ranges_ok. rewrite !sorted_app, !List.Forall_app.
  intros ((Hs1 & (_ & Hs2 & _) & Hx) & Hf1 & _ & Hf2) [Hs Hf] Hl Hr. split_and!; auto.
  intros x y Hin [Hy|Hy]%in_app_iff; [auto|]. apply Hx; [done|]. apply in_app_iff. by right.
Qed.

Lemma covers_app (a b : list range) (s o : Z) : covers (a ++ b) s o <-> covers a s o \/ covers b s o.
Proof.
  unfold covers. split.
  - intros (r & [Hr|Hr]%in_app_iff & H); [left|right]; eauto.
  - intros [(r & Hr & H)|(r & Hr & H)]; exists r; (split; [apply in_app_iff; tauto|done]).
Qed.

Lemma before_lt (a b : range) : range_ok a -> before a b -> range_lt a b = true.
Proof. unfold before, range_ok, range_lt. cmp; cbn; lia. Qed.

Lemma before_not_lt (a b : range) : range_ok a -> before a b -> range_lt b a = false.
Proof. unfold before, range_ok, range_lt. cmp; cbn; lia. Qed.

Section Window.
Context (l : range_list) (s first last : Z) (l1 mid l2 : list range).
Context (Hok : ranges_ok l) (Hw : 0 <= first <= last) (Hmax : last < 2 ^ 64).
Context (HW : windowed l s first last l1 mid l2).

Lemma window_left (x : range) : In x l1 -> range_ok x /\ left_of s first x /\ forall m, In m mid -> before x m.
Proof using Hok Hw HW.
  destruct HW as [-> H1 _ _], Hok as [Hs Hf]. intros Hx. rewrite List.Forall_forall in *. split_and!; [|by apply H1|].
  - apply Hf, in_app_iff. by left.
  - intros m Hm. apply sorted_app in Hs as (_ & _ & Hs). apply Hs; [done|]. apply in_app_iff. by left.
Qed.

Lemma window_right (x : range) : In x l2 -> range_ok x /\ right_of s last x /\ forall m, In m mid -> before m x.
Proof using Hok Hw HW.
  destruct HW as [-> _ _ H3], Hok as [Hs Hf]. intros Hx. rewrite List.Forall_forall in *. split_and!; [|by apply H3|].
  - apply Hf. rewrite !in_app_iff. tauto.
  - intros m Hm. apply sorted_app in Hs as (_ & Hs & _). apply sorted_app in Hs as (_ & _ & Hs). by apply Hs.
Qed.

Lemma window_mid (x : range) : In x mid -> range_ok x /\ touching s first last x.
Proof using Hok Hw HW.
  destruct HW as [-> _ H2 _], Hok as [_ Hf]. intros Hx. rewrite List.Forall_forall in *. split; [|by apply H2].
  apply Hf. rewrite !in_app_iff. tauto.
Qed.

Lemma insert_range_window : let ins := Range s (fold_left (fun m r => Z.min m (r_first r)) mid first)
    (fold_left (fun m r => Z.max m (r_last r)) mid last) in
  insert_range l s first last = Some (l1 ++ ins :: l2) /\ ranges_ok (l1 ++ [ins] ++ l2) /\
  forall o, r_first ins <= o <= r_last ins <-> covers mid s o \/ first <= o <= last.
Proof.
  cbv zeta. set (ins := Range _ _ _).
  destruct (fold_min_spec mid first) as (Hm1 & Hm2 & Hm3), (fold_max_spec mid last) as (HM1 & HM2 & HM3).
  cbn in *. assert (Hl : forall x, In x l1 -> before x ins).
  { intros x Hx. destruct (window_left x Hx) as (Hr & Hxl & Hxm). unfold left_of, before, range_ok in *. cbn.
    destruct Hm3 as [->|(m & Hm & ->)]; [lia|]. destruct (window_mid m Hm) as [_ [Hms _]]. specialize (Hxm m Hm). lia. }
  assert (Hr : forall x, In x l2 -> before ins x).
  { intros x Hx. destruct (window_right x Hx) as (Hr & Hxr & Hxm). unfold right_of, before, range_ok in *. cbn.
    destruct HM3 as [->|(m & Hm & ->)]; [lia|]. destruct (window_mid m Hm) as [_ [Hms _]]. specialize (Hxm m Hm). lia. }
  assert (Hins : range_ok ins).
  { unfold range_ok. cbn. split; [split|].
    - destruct Hm3 as [->|(m & Hm & ->)]; [lia|]. destruct (window_mid m Hm) as [[? _] _]. lia.
    - lia.
    - destruct HM3 as [->|(m & Hm & ->)]; [lia|]. destruct (window_mid m Hm) as [[_ ?] _]. lia. }
  split_and!.
  - unfold insert_range. rewrite (lower_touch_window _ _ _ _ _ _ _ Hok (proj2 Hw) HW).
    rewrite (upper_bound_window _ _ _ _ _ _ _ (proj2 Hok) (proj2 Hw) HW).
    rewrite (w_list _ _ _ _ _ _ _ HW). destruct (window_slices l1 mid l2) as (E1 & E2 & E3 & E4). cbv zeta in *.
    rewrite E4, E1, E2, E3. fold ins. rewrite partition_point_app.
    + by rewrite take_app_length, drop_app_length.
    + apply List.Forall_forall. intros x Hx. apply before_lt; [apply (window_left x Hx)|by apply Hl].
    + apply List.Forall_forall. intros x Hx. apply before_not_lt; [done|by apply Hr].
  - pose proof Hok as Hok'. rewrite (w_list _ _ _ _ _ _ _ HW) in Hok'. apply (ranges_ok_replace l1 mid [ins] l2); [done| | |].
    + split; [constructor; [constructor|done]|by constructor].
    + intros x y Hx [<-|[]]. by apply Hl.
    + intros x y [<-|[]] Hy. by apply Hr.
  - intros o. cbn. split.
    + intros Ho. destruct (Z.lt_ge_cases o first) as [Hf|Hf]; [|destruct (Z.lt_ge_cases last o) as [Hg|Hg]; [|right; lia]]; left.
      * destruct Hm3 as [E|(m & Hm & E)]; [lia|]. destruct (window_mid m Hm) as [_ Hmt]. unfold touching in Hmt. exists m.
        split_and!; [done|lia..].
      * destruct HM3 as [E|(m & Hm & E)]; [lia|]. destruct (window_mid m Hm) as [_ Hmt]. unfold touching in Hmt. exists m.
        split_and!; [done|lia..].
    + intros [(m & Hm & _ & Ho)|Ho]; [|lia]. specialize (Hm2 m Hm). specialize (HM2 m Hm). lia.
Qed.
End Window.

Lemma insert_range_ok (l : range_list) (s first last : Z) : ranges_ok l -> 0 <= first <= last -> last < 2 ^ 64 ->
  exists l', insert_range l s first last = Some l' /\ ranges_ok l' /\
    forall s' o, covers l' s' o <-> covers l s' o \/ (s' = s /\ first <= o <= last).
Proof.
  intros Hok Hw Hmax. destruct (window_exists l s first last Hok (proj2 Hw)) as (l1 & mid & l2 & HW).
  destruct (insert_range_window _ _ _ _ _ _ _ Hok Hw Hmax HW) as (E & Hok' & Hc). eexists. split_and!; [exact E|exact Hok'|].
  intros s' o. change (l1 ++ ?i :: l2) with (l1 ++ [i] ++ l2). rewrite (w_list _ _ _ _ _ _ _ HW), !covers_app.
  assert (Hone : forall i, covers [i] s' o <-> s' = r_spc i /\ r_first i <= o <= r_last i).
  { intros i. split; [intros (r & [<-|[]] & H); split; [symmetry|]; tauto|intros [-> H]; exists i; cbn; tauto]. }
  rewrite Hone, Hc. cbn [r_spc]. split.
  - intros [H|[[-> [H|H]]|H]]; tauto.
  - intros [[H|[H|H]]|[-> H]]; try tauto. right; left. destruct H as (m & Hm & Hs & Ho).
    destruct (window_mid _ _ _ _ _ _ _ Hok Hw HW m Hm) as [_ [Hms _]]. split; [congruence|]. left. exists m. by rewrite Hms.
Qed.

(** ** Removal *)

Lemma sort_by_id {A : Type} (leb : A -> A -> bool) (l : list A) :
  StronglySorted (fun a b => leb a b = true) l -> sort_by leb l = l.
Proof.
  induction 1 as [|a l Hs IH Ha]; [done|]. unfold sort_by in *. cbn [fold_right]. rewrite IH.
  destruct l as [|b l]; [done|]. apply List.Forall_inv in Ha. cbn. by rewrite Ha.
Qed.

Lemma ranges_ok_sorted (l : range_list) : ranges_ok l -> sort_by (fun a b => negb (range_lt b a)) l = l.
Proof.
  intros Hok. apply sort_by_id. induction l as [|r l IH]; [constructor|].
  apply ranges_ok_cons in Hok as (Hr & Hb & Hok). constructor; [by apply IH|].
  eapply List.Forall_impl; [|exact Hb]. intros x Hx. cbn. by rewrite before_not_lt.
Qed.

(** [x] is a piece of [r]. *)
Definition inside (x r : range) : Prop :=
  r_spc x = r_spc r /\ r_first r <= r_first x <= r_last x /\ r_last x <= r_last r.

Lemma inside_before (x r y t : range) : inside x r -> inside y t -> before r t -> before x y.
Proof. unfold inside, before. lia. Qed.

Lemma inside_refl (r : range) : range_ok r -> inside r r.
Proof. unfold inside, range_ok. lia. Qed.

Lemma flat_map_inside (f : range -> list range) (l : range_list) : ranges_ok l ->
  (forall r, In r l -> ranges_ok (f r) /\ forall x, In x (f r) -> inside x r) -> ranges_ok (flat_map f l).
Proof.
  induction l as [|r l IH]; intros Hok Hf; [split; constructor|]. apply ranges_ok_cons in Hok as (Hr & Hb & Hok). cbn.
  destruct (Hf r (or_introl eq_refl)) as [[Hs1 Hf1] Hi1]. destruct (IH Hok) as [Hs2 Hf2]; [intros x Hx; apply Hf; by right|].
  split; [apply sorted_app; split_and!; [done|done|]|by apply List.Forall_app].
  intros x y Hx (t & Ht & Hy)%in_flat_map. rewrite List.Forall_forall in Hb.
  apply (inside_before x r y t); [by apply Hi1|by apply (Hf t); [right|]|by apply Hb].
Qed.

Lemma remainders_ok (s first last : Z) (r : range) : 0 <= first <= last -> last < 2 ^ 64 -> range_ok r ->
  touching s first last r ->
  ranges_ok (remainders s first last r) /\ (forall x, In x (remainders s first last r) -> inside x r) /\
  forall s' o, covers (remainders s first last r) s' o <-> covers [r] s' o /\ ~ (s' = s /\ first <= o <= last).
Proof.
  unfold range_ok, touching, remainders. intros Hw Hm Hr (Hs & H1 & H2). split_and!.
  - split; [|apply List.Forall_app; split]; cmp; cbn; repeat constructor; unfold before; cbn; lia.
  - intros x [Hx|Hx]%in_app_iff; revert Hx; cmp; cbn; intros [<-|[]] || intros []; unfold inside; cbn; lia.
  - intros s' o. rewrite covers_app. unfold covers. split.
    + intros [(x & Hx & Hxs & Ho)|(x & Hx & Hxs & Ho)]; revert Hx; cmp; cbn; intros [<-|[]] || intros []; cbn in *;
        (split; [exists r; split_and!; [by left|congruence|lia..]|lia]).
    + intros [(x & [<-|[]] & Hxs & Ho) Hn]. assert (o < first \/ last < o) as [Hf|Hf] by (subst; lia); [left|right]; cmp; cbn; try lia;
        (eexists; split_and!; [by left|cbn; congruence|cbn; lia..]).
Qed.

Lemma remove_range_ok (l : range_list) (s first last : Z) : ranges_ok l -> 0 <= first <= last -> last < 2 ^ 64 ->
  exists l', remove_range l s first last = Some l' /\ ranges_ok l' /\
    forall s' o, covers l' s' o <-> covers l s' o /\ ~ (s' = s /\ first <= o <= last).
Proof.
  intros Hok Hw Hmax. destruct (window_exists l s first last Hok (proj2 Hw)) as (l1 & mid & l2 & HW).
  pose proof (fun m => window_mid _ _ _ _ _ _ _ Hok Hw HW m) as Hmid.
  pose proof (fun x => window_left _ _ _ _ _ _ _ Hok Hw HW x) as Hleft.
  pose proof (fun x => window_right _ _ _ _ _ _ _ Hok Hw HW x) as Hright.
  set (mid' := flat_map (remainders s first last) mid).
  assert (Hrem : forall m, In m mid -> _) by (intros m Hm; destruct (Hmid m Hm); exact (remainders_ok s first last m Hw Hmax ltac:(done) ltac:(done))).
  assert (Hok' : ranges_ok (l1 ++ mid' ++ l2)).
  { pose proof Hok as Ho. rewrite (w_list _ _ _ _ _ _ _ HW) in Ho. apply (ranges_ok_replace l1 mid mid' l2); [done| | |].
    - apply flat_map_inside; [|intros r Hr; split; apply (Hrem r Hr)]. destruct Ho as [Hs Hf]. split.
      + apply sorted_app in Hs as (_ & Hs & _). by apply sorted_app in Hs as (Hs & _).
      + apply List.Forall_app in Hf as [_ Hf]. by apply List.Forall_app in Hf as [Hf _].
    - intros x y Hx (m & Hm & Hy)%in_flat_map. destruct (Hleft x Hx) as (Hxo & _ & Hxm).
      apply (inside_before x x y m); [by apply inside_refl|by apply (Hrem m Hm)|by apply Hxm].
    - intros y x (m & Hm & Hy)%in_flat_map Hx. destruct (Hright x Hx) as (Hxo & _ & Hxm).
      apply (inside_before y m x x); [by apply (Hrem m Hm)|by apply inside_refl|by apply Hxm]. }
  exists (l1 ++ mid' ++ l2). split_and!; [|done|].
  - destruct l as [|r0 l0]; [|cbn [remove_range]].
    { pose proof (w_list _ _ _ _ _ _ _ HW) as [-> [-> ->]%app_nil]%eq_sym%app_nil. done. }
    rewrite (lower_touch_window _ _ _ _ _ _ _ Hok (proj2 Hw) HW), (upper_bound_window _ _ _ _ _ _ _ (proj2 Hok) (proj2 Hw) HW).
    rewrite (w_list _ _ _ _ _ _ _ HW). destruct (window_slices l1 mid l2) as (E1 & E2 & E3 & E4). cbv zeta in *.
    rewrite E4, E1, E2, E3. fold mid'. by rewrite ranges_ok_sorted.
  - intros s' o. rewrite (w_list _ _ _ _ _ _ _ HW), !covers_app.
    assert (Hm : covers mid' s' o <-> covers mid s' o /\ ~ (s' = s /\ first <= o <= last)).
    { split.
      - intros (x & (m & Hm & Hx)%in_flat_map & Hc). destruct (Hrem m Hm) as (_ & _ & Hcov).
        destruct (proj1 (Hcov s' o)) as [(y & [<-|[]] & Hy) Hn]; [by exists x|]. split; [by exists m|done].
      - intros [(m & Hm & Hc) Hn]. destruct (Hrem m Hm) as (_ & _ & Hcov).
        destruct (proj2 (Hcov s' o)) as (y & Hy & Hyc); [split; [exists m; split; [by left|done]|done]|].
        exists y. split; [|done]. apply in_flat_map. by exists m. }
    rewrite Hm. split.
    + intros [(x & Hx & Hc)|[H|(x & Hx & Hc)]]; [|tauto|].
      * split; [left; by exists x|]. destruct (Hleft x Hx) as (_ & Hxl & _). unfold left_of in Hxl. lia.
      * split; [right; right; by exists x|]. destruct (Hright x Hx) as (_ & Hxl & _). unfold right_of in Hxl. lia.
    + tauto.
Qed.

(** ** Queries *)

(** The range just before the bound is the only one that can hold [off]. *)
Lemma upper_bound_holder (l : range_list) (s off : Z) : ranges_ok l -> 0 <= off ->
  (exists l1 m l2, l = l1 ++ m :: l2 /\ upper_bound l s off = S (List.length l1) /\ touching s off off m) \/
  (~ covers l s off /\
   match upper_bound l s off with O => True | S i => exists r, nth_error l i = Some r /\ left_of s off r end).
Proof.
  intros Hok Ho. destruct (window_exists l s off off Hok ltac:(lia)) as (l1 & mid & l2 & HW).
  rewrite (upper_bound_window l s off off l1 mid l2 (proj2 Hok) ltac:(lia) HW).
  pose proof HW as [El H1 H2 H3]. rewrite List.Forall_forall in H1, H2, H3. destruct mid as [|m mid].
  - right. rewrite app_nil_r. cbn in El. unfold left_of, right_of in *. split.
    + intros (r & Hr & Hs & Hf). subst l. apply in_app_iff in Hr as [Hr|Hr]; [specialize (H1 r Hr)|specialize (H3 r Hr)]; lia.
    + destruct (List.length l1) as [|i] eqn:E; [done|]. destruct (nth_error l1 i) as [r|] eqn:Er; [|apply nth_error_None in Er; lia].
      exists r. subst l. rewrite nth_error_app1 by lia. split; [done|]. apply (H1 r). by eapply nth_error_In.
  - left. destruct mid as [|m' mid].
    + exists l1, m, l2. split_and!; [done|rewrite length_app; cbn; lia|apply H2; by left].
    + exfalso. destruct Hok as [Hs _]. subst l. apply sorted_app in Hs as (_ & Hs & _). cbn in Hs.
      apply StronglySorted_inv in Hs as [_ Hs]. apply List.Forall_inv in Hs.
      pose proof (H2 m (or_introl eq_refl)) as Hm. pose proof (H2 m' (or_intror (or_introl eq_refl))) as Hm'.
      unfold before, touching in *. lia.
Qed.

Lemma nth_error_middle {A : Type} (a b : list A) (x : A) : nth_error (a ++ x :: b) (List.length a) = Some x.
Proof. by rewrite nth_error_app2, Nat.sub_diag. Qed.

(** A query on one byte or more, not past the last offset, asks for one range that holds them all. *)
Lemma in_range_ok (l : range_list) (a : address) (size : Z) : ranges_ok l -> 0 <= a_offset a -> 0 < size ->
  a_offset a + size <= 2 ^ 64 ->
  (in_range l a size = true <-> exists r, In r l /\ r_spc r = a_space a /\ r_first r <= a_offset a /\ a_offset a + size - 1 <= r_last r).
Proof.
  intros Hok Ho Hsize Hmax. destruct a as [s off]. unfold in_range. cbn [a_space a_offset] in *.
  assert (Ew : u64_sub (u64_add off size) 1 = off + size - 1) by (wsimpl; apply w64_small; lia). rewrite Ew.
  destruct (upper_bound_holder l s off Hok Ho) as [(l1 & m & l2 & El & Eu & Hm)|[Hn Hu]].
  - rewrite Eu, El, nth_error_middle. unfold touching in Hm. split.
    + intros [Hs%Z.eqb_eq Hl%Z.leb_le]%andb_true_iff. exists m. split_and!; [apply in_app_iff; right; by left|done|lia|lia].
    + intros (r & Hr & Hs & Hf & Hl). apply andb_true_iff. split; [lia|]. apply Z.leb_le.
      destruct Hok as [Hsort Hf']. subst l. rewrite List.Forall_forall in Hf'. pose proof (Hf' r Hr) as Hro. unfold range_ok in Hro.
      apply sorted_app in Hsort as (_ & Hsort & Hx). apply StronglySorted_inv in Hsort as [_ Hm2]. rewrite List.Forall_forall in Hm2.
      apply in_app_iff in Hr as [Hr|[->|Hr]]; [specialize (Hx r m Hr (or_introl eq_refl))|lia|specialize (Hm2 r Hr)];
        unfold before in *; lia.
  - destruct (upper_bound l s off) as [|i]; [|destruct Hu as (r & -> & Hr)]; (split; [|]).
    + done.
    + intros (r & Hr & Hs & Hf & Hl). destruct Hn. exists r. split_and!; [done..|lia].
    + unfold left_of in Hr. intros [Hs%Z.eqb_eq Hl%Z.leb_le]%andb_true_iff. lia.
    + intros (x & Hx & Hs & Hf & Hl). destruct Hn. exists x. split_and!; [done..|lia].
Qed.

(** ** The longest run *)

Lemma chain_fit_past (l : range_list) (s offset maxsize n : Z) :
  (forall r, In r l -> s < r_spc r \/ (r_spc r = s /\ offset < r_first r)) -> chain_fit l s offset maxsize n = n.
Proof.
  destruct l as [|r l]; intros H; [done|]. specialize (H r (or_introl eq_refl)). cbn [chain_fit]. cmp; cbn; (done || lia).
Qed.

Lemma chain_fit_ok (l : range_list) (s off maxsize n : Z) : ranges_ok l -> 0 <= off -> 0 <= n -> off + n < 2 ^ 64 ->
  (forall r, In r l -> s < r_spc r \/ (r_spc r = s /\ off + n <= r_last r)) -> 0 < off \/ ~ covers l s (2 ^ 64 - 1) ->
  let n' := chain_fit l s (off + n) maxsize n in
  n <= n' /\ off + n' <= 2 ^ 64 /\ (forall o, off + n <= o < off + n' -> covers l s o) /\
  (maxsize <= n' \/ off + n' = 2 ^ 64 \/ ~ covers l s (off + n')).
Proof.
  revert n. induction l as [|r l IH]; intros n Hok Ho Hn Hmax Hlast Hfull; cbn [chain_fit].
  { split_and!; [lia|lia|intros o; lia|right; right]. intros (r & [] & _). }
  apply ranges_ok_cons in Hok as (Hr & Hb & Hok). rewrite List.Forall_forall in Hb. pose proof (Hlast r (or_introl eq_refl)) as Hlr.
  destruct (negb (r_spc r =? s) || (off + n <? r_first r)) eqn:E.
  { split_and!; [lia|lia|intros o; lia|right; right]. intros (x & [<-|Hx] & Hs & Hf); [|specialize (Hb x Hx)];
      unfold before, range_ok in *; revert E; cmp; cbn; (done || lia). }
  apply orb_false_iff in E as [Es%negb_false_iff%Z.eqb_eq Ef%Z.ltb_ge]. unfold range_ok in Hr.
  assert (Hcov : forall o, off + n <= o <= r_last r -> covers (r :: l) s o).
  { intros o Hoo. exists r. split_and!; [by left|done|lia|lia]. }
  assert (Hadd : forall m, m = r_last r + 1 - off -> m < 2 ^ 64 ->
    u64_add n (u64_sub (u64_add (r_last r) 1) (off + n)) = m).
  { intros m -> Hm. wsimpl. replace (n + (r_last r + 1 - (off + n))) with (r_last r + 1 - off) by lia. apply w64_small. lia. }
  assert (Hnofull : 0 < off \/ r_last r < 2 ^ 64 - 1).
  { destruct Hfull as [?|Hfull]; [by left|right]. destruct (Z.lt_ge_cases (r_last r) (2 ^ 64 - 1)); [done|].
    destruct Hfull. apply Hcov. lia. }
  rewrite (Hadd (r_last r + 1 - off)) by lia. destruct (Z.leb_spec maxsize (r_last r + 1 - off)).
  { split_and!; [lia|lia|intros o Hoo; apply Hcov; lia|by left]. }
  destruct (Z.eq_dec (r_last r) (2 ^ 64 - 1)) as [El|El].
  - rewrite chain_fit_past; [split_and!; [lia|lia|intros o Hoo; apply Hcov; lia|right; left; lia]|].
    intros x Hx. specialize (Hb x Hx). unfold before in Hb. pose proof (proj2 Hok) as Hf. rewrite List.Forall_forall in Hf.
    specialize (Hf x Hx). unfold range_ok in Hf. lia.
  - assert (Ew : u64_add (r_last r) 1 = off + (r_last r + 1 - off)) by (wsimpl; rewrite w64_small; lia). rewrite Ew.
    destruct (IH (r_last r + 1 - off)) as (H1 & H2 & H3 & H4); [done|done|lia|lia| | |].
    + intros x Hx. specialize (Hb x Hx). unfold before in Hb. pose proof (proj2 Hok) as Hf. rewrite List.Forall_forall in Hf.
      specialize (Hf x Hx). unfold range_ok in Hf. specialize (Hlast x (or_intror Hx)). lia.
    + destruct Hfull as [?|Hfull]; [by left|right]. intros (x & Hx & Hc). apply Hfull. exists x. split; [by right|done].
    + split_and!; [lia|done| |].
      * intros o Hoo. destruct (Z.le_gt_cases o (r_last r)); [by apply Hcov; lia|].
        destruct (H3 o) as (x & Hx & Hc); [lia|]. exists x. split; [by right|done].
      * destruct H4 as [H4|[H4|H4]]; [by left|right; by left|right; right].
        intros (x & [<-|Hx] & Hs & Hf); [lia|]. apply H4. by exists x.
Qed.

Lemma longest_fit_ok (l : range_list) (s off maxsize : Z) : ranges_ok l -> 0 <= off < 2 ^ 64 ->
  0 < off \/ ~ covers l s (2 ^ 64 - 1) ->
  let n := longest_fit l s off maxsize in
  0 <= n /\ off + n <= 2 ^ 64 /\ (forall o, off <= o < off + n -> covers l s o) /\
  (maxsize <= n \/ off + n = 2 ^ 64 \/ ~ covers l s (off + n)).
Proof.
  intros Hok Ho Hfull. unfold longest_fit. destruct (upper_bound_holder l s off Hok ltac:(lia)) as [(l1 & m & l2 & El & Eu & Hm)|[Hn Hu]].
  - assert (En : nth_error l (List.length l1) = Some m) by (rewrite El; apply nth_error_middle).
    assert (Ed : drop (List.length l1) l = m :: l2) by (rewrite El; apply drop_app_length).
    rewrite Eu, En, Ed. unfold touching in Hm.
    replace (negb (r_spc m =? s) || (r_last m <? off)) with false by (cmp; cbn; (done || lia)).
    pose proof Hok as [Hs Hf]. rewrite El in Hs, Hf. apply sorted_app in Hs as (_ & Hs & Hx). apply List.Forall_app in Hf as [Hf1 Hf].
    rewrite List.Forall_forall in Hf, Hf1.
    assert (Hsub : forall o, off <= o -> covers l s o <-> covers (m :: l2) s o).
    { intros o Hoo. rewrite El, covers_app. split; [|by right]. intros [(x & Hx1 & Hsx & Hfx)|H]; [|done].
      specialize (Hx x m Hx1 (or_introl eq_refl)). unfold before in Hx. lia. }
    destruct (chain_fit_ok (m :: l2) s off maxsize 0) as (H1 & H2 & H3 & H4); [split; [done|by apply List.Forall_forall]|lia..| | |].
    + intros r [<-|Hr]; [right; lia|]. apply StronglySorted_inv in Hs as [_ Hs]. rewrite List.Forall_forall in Hs.
      specialize (Hs r Hr). specialize (Hf r (or_intror Hr)). unfold before, range_ok in *. lia.
    + destruct Hfull as [?|Hfull]; [by left|right]. by rewrite <- Hsub by lia.
    + rewrite Z.add_0_r in *. split_and!; [done|done|intros o Hoo; apply Hsub; [lia|by apply H3]|].
      destruct H4 as [H4|[H4|H4]]; [by left|right; by left|right; right]. rewrite Hsub by lia. done.
  - assert (E : match upper_bound l s off with O => 0 | S i => match nth_error l i with None => 0
        | Some r => if negb (r_spc r =? s) || (r_last r <? off) then 0 else chain_fit (drop i l) s off maxsize 0 end end = 0).
    { destruct (upper_bound l s off) as [|i]; [done|]. destruct Hu as (r & -> & Hr). unfold left_of in Hr. cmp; cbn; (done || lia). }
    rewrite E. rewrite Z.add_0_r. split_and!; [lia|lia|intros o; lia|right; by right].
Qed.

(** ** Wrapping *)

Lemma rem_pos (a m : Z) : 0 < m -> (let r := Z.rem a m in if r <? 0 then r + m else r) = a mod m.
Proof.
  intros Hm. cbv zeta. pose proof (Z.quot_rem' a m) as E. destruct (Z.le_gt_cases 0 a) as [Ha|Ha].
  - pose proof (Z.rem_bound_pos a m Ha Hm). destruct (Z.ltb_spec (Z.rem a m) 0); [lia|].
    apply (Z.mod_unique_pos a m (Z.quot a m)); lia.
  - pose proof (Z.rem_bound_pos_neg a m ltac:(lia) ltac:(lia)). destruct (Z.ltb_spec (Z.rem a m) 0).
    + apply (Z.mod_unique_pos a m (Z.quot a m - 1)); lia.
    + apply (Z.mod_unique_pos a m (Z.quot a m)); lia.
Qed.

Lemma highest_of (s : aspace) : 0 <= sp_addr_size s < 8 -> 1 <= sp_wordsize s < 256 ->
  highest s = sp_wordsize s * 2 ^ (8 * sp_addr_size s) - 1.
Proof.
  intros Ha Hw. unfold highest. rewrite (proj2 (Z.leb_gt 8 (sp_addr_size s))) by lia.
  assert (Hp : 0 < 2 ^ (8 * sp_addr_size s) <= 2 ^ 56) by (split; [apply pow2_pos; lia|apply Z.pow_le_mono_r; lia]).
  assert (E : u64_shl 1 (sp_addr_size s * 8) = 2 ^ (8 * sp_addr_size s)).
  { rewrite (Z.mul_comm (sp_addr_size s) 8). unfold u64_shl. rewrite Z.mod_small, Z.shiftl_mul_pow2, Z.mul_1_l, w64_small by lia. done. }
  rewrite E. destruct (Z.ltb_spec 1 (sp_wordsize s)).
  - wsimpl. rewrite w64_small; [lia|]. nia.
  - assert (sp_wordsize s = 1) as -> by lia. lia.
Qed.

Lemma wrap_offset_ok (s : aspace) (off : Z) : 0 <= off < 2 ^ 64 -> 0 <= highest s < 2 ^ 63 - 1 ->
  0 <= wrap_offset s off <= highest s /\
  ((highest s + 1 | 2 ^ 64) -> wrap_offset s off = off mod (highest s + 1)).
Proof.
  intros Ho Hh. unfold wrap_offset. destruct (Z.leb_spec off (highest s)) as [Hle|Hgt].
  { split; [lia|]. intros _. symmetry. apply Z.mod_small. lia. }
  assert (Ei : i64 (highest s) = highest s) by (unfold i64; rewrite w64_small by lia; cmp; lia). rewrite Ei.
  rewrite (proj2 (Z.leb_gt (2 ^ 63) (highest s + 1))) by lia. rewrite (proj2 (Z.eqb_neq (highest s + 1) 0)) by lia.
  pose proof (rem_pos (i64 off) (highest s + 1) ltac:(lia)) as Er. cbv zeta in Er |- *. rewrite Er.
  pose proof (Z.mod_pos_bound (i64 off) (highest s + 1) ltac:(lia)). rewrite w64_small by lia. split; [lia|].
  intros [q Hq]. unfold i64. rewrite w64_small by lia. destruct (Z.ltb_spec off 9223372036854775808); [done|].
  replace (off - 18446744073709551616) with (off + (- q) * (highest s + 1)) by lia. apply Z.mod_add. lia.
Qed.

(** ** Joins *)

(** Records lie one after the other below the allocation pointer; no logical value has two. *)
Record joins_ok (m : space_manager) : Prop := JoinsOk {
  jo_sorted : StronglySorted (fun a b => a_offset (j_addr a) + j_size a <= a_offset (j_addr b)) (sm_joins m);
  jo_below : List.Forall (fun r => 0 <= a_offset (j_addr r) /\ 0 < j_size r /\
                                   a_offset (j_addr r) + j_size r <= sm_join_allocate m) (sm_joins m);
  jo_space : List.Forall (fun r => by_name m "join" = Some (a_space (j_addr r))) (sm_joins m);
  jo_unique : forall r r', In r (sm_joins m) -> In r' (sm_joins m) -> j_pieces r = j_pieces r' -> j_size r = j_size r' -> r = r';
  jo_pointer : 0 <= sm_join_allocate m;
}.

Definition pieces_size (pieces : list (address * Z)) (logical_size : Z) : Z :=
  if negb (logical_size =? 0) then logical_size else fold_left (fun s p => w32 (s + snd p)) pieces 0.

(** the shapes the assertions accept *)
Definition join_request (pieces : list (address * Z)) (logical_size : Z) : Prop :=
  pieces <> [] /\ (List.length pieces = 1%nat <-> logical_size <> 0) /\ 0 < pieces_size pieces logical_size < 2 ^ 32.

Lemma joins_distinct (l : list join_record) (x y : join_record) :
  StronglySorted (fun a b => a_offset (j_addr a) + j_size a <= a_offset (j_addr b)) l ->
  (forall r, In r l -> 0 < j_size r) -> In x l -> In y l -> j_addr x = j_addr y -> x = y.
Proof.
  induction 1 as [|r l Hs IH Hr]; [done|]. intros Hp. rewrite List.Forall_forall in Hr.
  pose proof (Hp r (or_introl eq_refl)). intros [<-|Hx] [<-|Hy] E; [done|specialize (Hr y Hy); rewrite E in Hr; lia| |].
  - specialize (Hr x Hx). rewrite <- E in Hr. lia.
  - apply IH; [|done..]. intros z Hz. apply Hp. by right.
Qed.

Lemma find_join_known (m : space_manager) (r : join_record) : joins_ok m -> In r (sm_joins m) -> find_join m (j_addr r) = Some r.
Proof.
  intros [Hs Hb _ _ _] Hr. rewrite List.Forall_forall in Hb. unfold find_join. destruct (List.find _ _) as [r'|] eqn:E.
  - apply find_some in E as [Hr' E%bool_decide_eq_true]. f_equal. eapply joins_distinct; eauto. intros x Hx. by destruct (Hb x Hx) as (_ & ? & _).
  - pose proof (find_none _ _ E r Hr) as Hn. cbv beta in Hn. by rewrite bool_decide_eq_true_2 in Hn.
Qed.

Lemma align16 (z : Z) : 0 <= z < 2 ^ 32 -> z <= Z.land (u64_add z 15) (u64_not 15) < z + 16.
Proof.
  intros Hz. replace (u64_not 15) with (2 ^ 64 - 16) by reflexivity. wsimpl. rewrite w64_small by lia.
  assert (E : Z.land (z + 15) (2 ^ 64 - 16) = 16 * ((z + 15) / 16)).
  { change (2 ^ 64 - 16) with (Z.shiftl (Z.ones 60) 4). change 16 with (2 ^ 4). rewrite Z.mul_comm, <- Z.shiftl_mul_pow2 by lia.
    rewrite <- Z.shiftr_div_pow2 by lia. apply Z.bits_inj'. intros i Hi. rewrite Z.land_spec.
    destruct (Z.lt_ge_cases i 4) as [Hl|Hl].
    - rewrite !Z.shiftl_spec_low by lia. by rewrite andb_false_r.
    - rewrite !Z.shiftl_spec_high, Z.shiftr_spec by lia. replace (i - 4 + 4) with i by lia.
      destruct (Z.lt_ge_cases (i - 4) 60); [rewrite Z.ones_spec_low by lia; by rewrite andb_true_r|].
      rewrite Z.ones_spec_high by lia. rewrite andb_false_r. symmetry. apply Z.bits_above_log2; [lia|].
      destruct (Z.eq_dec (z + 15) 0); [lia|]. apply Z.log2_lt_pow2; [lia|].
      assert (2 ^ 33 <= 2 ^ i) by (apply Z.pow_le_mono_r; lia). lia. }
  rewrite E. pose proof (Z.div_mod (z + 15) 16 ltac:(lia)). pose proof (Z.mod_pos_bound (z + 15) 16 ltac:(lia)). lia.
Qed.

Lemma find_add_join_shape (m : space_manager) (pieces : list (address * Z)) (ls : Z) : join_request pieces ls ->
  find_add_join m pieces ls =
  let size := pieces_size pieces ls in
  match List.find (fun r => bool_decide (j_pieces r = pieces) && (j_size r =? size)) (sm_joins m) with
  | Some r => Some (j_addr r, m)
  | None =>
      let '(space, m) := match by_name m "join" with Some id => (id, m) | None => add_space m "join" KSpecial 8 1 end in
      let m := update_space m space (with_endian (sp_big_endian (get_space m 0))) in
      let addr := Addr space (sm_join_allocate m) in
      Some (addr, SpaceManager (sm_spaces m) (sm_by_name m) (sm_joins m ++ [JoinRecord pieces addr size])
                    (u64_add (sm_join_allocate m) (Z.land (u64_add size 15) (u64_not 15))))
  end.
Proof.
  intros (Hne & H1 & Hsize). unfold find_add_join. fold (pieces_size pieces ls). destruct pieces as [|p l]; [done|].
  replace (_ || _ || _) with false.
  - cbv zeta. by rewrite (proj2 (Z.eqb_neq _ 0)) by lia.
  - cbn [List.length] in *. destruct (Z.eqb_spec ls 0) as [->|Hls]; destruct l; cbn; try done; exfalso.
    + by apply (proj1 H1).
    + by assert (S (S (List.length l)) = 1%nat) by tauto.
Qed.

Lemma find_add_join_ok (m : space_manager) (pieces : list (address * Z)) (ls : Z) :
  joins_ok m -> join_request pieces ls -> sm_join_allocate m + 2 ^ 32 + 16 <= 2 ^ 64 ->
  exists addr m', find_add_join m pieces ls = Some (addr, m') /\ joins_ok m' /\
    find_join m' addr = Some (JoinRecord pieces addr (pieces_size pieces ls)) /\
    (forall a r, find_join m a = Some r -> find_join m' a = Some r) /\
    find_add_join m' pieces ls = Some (addr, m').
Proof.
  intros Hok Hreq Hroom. rewrite !find_add_join_shape by done. cbv zeta. set (size := pieces_size pieces ls) in *.
  assert (Hsize : 0 < size < 2 ^ 32) by apply Hreq.
  destruct (List.find _ _) as [r|] eqn:E.
  { exists (j_addr r), m. split_and!; [done|done| |done|rewrite find_add_join_shape by done; cbv zeta; fold size; by rewrite E].
    apply find_some in E as [Hr [E1%bool_decide_eq_true E2%Z.eqb_eq]%andb_true_iff].
    rewrite find_join_known by done. destruct r; cbn in *; by subst. }
  set (p := match by_name m "join" with Some id => (id, m) | None => add_space m "join" KSpecial 8 1 end).
  assert (Hp : sm_joins (snd p) = sm_joins m /\ sm_join_allocate (snd p) = sm_join_allocate m /\
               by_name (snd p) "join" = Some (fst p) /\ (forall s, by_name m "join" = Some s -> s = fst p)).
  { unfold p. destruct (by_name m "join") as [id|] eqn:Ej; cbn; [split_and!; [done..|congruence]|].
    unfold add_space. rewrite Ej. cbn. split_and!; [done|done|by unfold by_name; cbn; rewrite lookup_insert|done]. }
  destruct p as [space m1]. cbn [fst snd] in Hp. destruct Hp as (Hj & Ha & Hn & Hold). cbn.
  rewrite Hj, Ha. set (addr := Addr space (sm_join_allocate m)). set (rec := JoinRecord pieces addr size).
  pose proof (align16 size ltac:(lia)) as Hal. destruct Hok as [Hs Hb Hsp Hu Hptr]. rewrite List.Forall_forall in Hb, Hsp.
  set (m2 := SpaceManager _ _ _ _).
  assert (Hok2 : joins_ok m2).
  { assert (Eptr : u64_add (sm_join_allocate m) (Z.land (u64_add size 15) (u64_not 15)) =
                   sm_join_allocate m + Z.land (u64_add size 15) (u64_not 15)) by (apply w64_small; lia).
    constructor; cbn; rewrite ?Eptr.
    - apply sorted_app. split_and!; [done|repeat constructor|]. intros x y Hx [<-|[]]. cbn. by destruct (Hb x Hx) as (_ & _ & ?).
    - apply List.Forall_forall. intros x [Hx|[<-|[]]]%in_app_iff; cbn; [destruct (Hb x Hx) as (? & ? & ?)|]; lia.
    - apply List.Forall_forall. intros x [Hx|[<-|[]]]%in_app_iff; cbn; [|done]. specialize (Hsp x Hx). apply Hold in Hsp. by rewrite Hsp.
    - intros x y [Hx|[<-|[]]]%in_app_iff [Hy|[<-|[]]]%in_app_iff Ep Es; [by apply Hu| | |done]; exfalso.
      + pose proof (find_none _ _ E x Hx) as Hno. cbv beta in Hno. cbn in Ep, Es. rewrite bool_decide_eq_true_2, Es, Z.eqb_refl in Hno by done. done.
      + pose proof (find_none _ _ E y Hy) as Hno. cbv beta in Hno. cbn in Ep, Es. rewrite bool_decide_eq_true_2, <- Es, Z.eqb_refl in Hno by done. done.
    - lia. }
  assert (Hin : In rec (sm_joins m2)) by (cbn; apply in_app_iff; right; by left).
  assert (Hfind : List.find (fun r => bool_decide (j_pieces r = pieces) && (j_size r =? size)) (sm_joins m2) = Some rec).
  { destruct (List.find _ (sm_joins m2)) as [r|] eqn:E'.
    - apply find_some in E' as [Hr [E1%bool_decide_eq_true E2%Z.eqb_eq]%andb_true_iff]. f_equal. exact (jo_unique _ Hok2 r rec Hr Hin E1 E2).
    - pose proof (find_none _ _ E' rec Hin) as Hno. cbv beta in Hno. cbn [j_pieces j_size rec] in Hno. by rewrite bool_decide_eq_true_2, Z.eqb_refl in Hno. }
  exists addr, m2. split_and!; [done|done|by apply (find_join_known m2 rec)| |].
  - intros a r Hf. pose proof Hf as Hf'. apply find_some in Hf' as [Hr Er%bool_decide_eq_true]. rewrite <- Er.
    apply find_join_known; [done|]. cbn. apply in_app_iff. by left.
  - rewrite find_add_join_shape by done. cbv zeta. fold size. by rewrite Hfind.
Qed.

(** ** Properties *)

(** A range list implements a set of addresses.  On a sorted disjoint list [insert_range] and
    [remove_range] of a window do not panic, leave a sorted disjoint list, and the set becomes the
    old one with exactly the window added or taken away; [in_range] answers whether one range of
    the list holds every byte asked for. *)
Theorem range_list_refines (l : range_list) (s first last : Z) (a : address) (size : Z) :
  ranges_ok l -> 0 <= first <= last -> last < 2 ^ 64 ->
  0 <= a_offset a -> 0 < size -> a_offset a + size <= 2 ^ 64 ->
  (exists l', insert_range l s first last = Some l' /\ ranges_ok l' /\
     forall s' o, covers l' s' o <-> covers l s' o \/ (s' = s /\ first <= o <= last)) /\
  (exists l', remove_range l s first last = Some l' /\ ranges_ok l' /\
     forall s' o, covers l' s' o <-> covers l s' o /\ ~ (s' = s /\ first <= o <= last)) /\
  (in_range l a size = true <->
     exists r, In r l /\ r_spc r = a_space a /\ r_first r <= a_offset a /\ a_offset a + size - 1 <= r_last r).
Proof.
  intros Hok Hw Hm Ho Hsize Hend.
  split_and!; [by apply insert_range_ok|by apply remove_range_ok|by apply in_range_ok].
Qed.

Definition two_ranges : range_list := [Range 1 0 9; Range 1 20 29].

Lemma two_ranges_ok : ranges_ok two_ranges.
Proof. split; repeat constructor; unfold before, range_ok; cbn; lia. Qed.

Lemma range_list_refines_witness :
  insert_range two_ranges 1 5 24 = Some [Range 1 0 29] /\
  remove_range two_ranges 1 5 24 = Some [Range 1 0 4; Range 1 25 29] /\
  (exists l', insert_range two_ranges 1 5 24 = Some l' /\ ranges_ok l' /\
     forall s' o, covers l' s' o <-> covers two_ranges s' o \/ (s' = 1 /\ 5 <= o <= 24)).
Proof.
  split; [reflexivity|]. split; [reflexivity|].
  apply (range_list_refines two_ranges 1 5 24 (Addr 1 0) 1 two_ranges_ok); cbn; lia.
Defined.

(** [longest_fit] finds the run of addresses that starts at [off]: every offset of the answer
    is in the list, the answer does not run past the 64-bit space, and it stops only where asked,
    at the end of the space, or at an offset outside the list.  The run of the whole 64-bit space
    from 0 is excepted: its length does not fit a [u64] and the answer is 0. *)
Theorem longest_fit_spec (l : range_list) (s off maxsize : Z) : ranges_ok l -> 0 <= off < 2 ^ 64 ->
  0 < off \/ ~ covers l s (2 ^ 64 - 1) ->
  let n := longest_fit l s off maxsize in
  0 <= n /\ off + n <= 2 ^ 64 /\ (forall o, off <= o < off + n -> covers l s o) /\
  (maxsize <= n \/ off + n = 2 ^ 64 \/ ~ covers l s (off + n)).
Proof. apply longest_fit_ok. Qed.

Lemma longest_fit_spec_witness :
  longest_fit two_ranges 1 4 100 = 6 /\
  (let n := longest_fit two_ranges 1 4 100 in
   0 <= n /\ 4 + n <= 2 ^ 64 /\ (forall o, 4 <= o < 4 + n -> covers two_ranges 1 o) /\
   (100 <= n \/ 4 + n = 2 ^ 64 \/ ~ covers two_ranges 1 (4 + n))).
Proof. split; [reflexivity|]. apply (longest_fit_spec two_ranges 1 4 100 two_ranges_ok); lia. Defined.

(** The whole space, as one range: the run from 0 is reported as empty. *)
Example longest_fit_whole_space : longest_fit [Range 1 0 (2 ^ 64 - 1)] 1 0 16 = 0.
Proof. reflexivity. Qed.

(** Adjacent ranges are not joined, so a query that spans two of them fails. *)
Example adjacent_ranges_stay_apart :
  insert_range [Range 1 0 3] 1 4 7 = Some [Range 1 0 3; Range 1 4 7] /\
  in_range [Range 1 0 3; Range 1 4 7] (Addr 1 2) 4 = false.
Proof. split; reflexivity. Qed.

(** A query that runs past the last offset wraps, and is then answered from its start alone. *)
Example in_range_wraps : in_range [Range 1 (2 ^ 64 - 8) (2 ^ 64 - 1)] (Addr 1 (2 ^ 64 - 4)) 8 = true.
Proof. reflexivity. Qed.

(** [C37] [wrap_offset] never leaves the space: its result is at most [highest], and, where the size
    of the space divides 2^64, it is the offset modulo that size.  The bound covers every space
    whose highest offset is below 2^63 - 1. *)
Theorem wrap_offset_spec (s : aspace) (off : Z) : 0 <= off < 2 ^ 64 -> 0 <= highest s < 2 ^ 63 - 1 ->
  0 <= wrap_offset s off <= highest s /\
  ((highest s + 1 | 2 ^ 64) -> wrap_offset s off = off mod (highest s + 1)).
Proof. apply wrap_offset_ok. Qed.

Definition stack32 : aspace := Space 4 "stack" KSpacebase 4 false 1 1 1 [] None.

Lemma wrap_offset_spec_witness :
  wrap_offset stack32 (2 ^ 64 - 16) = 2 ^ 32 - 16 /\
  0 <= wrap_offset stack32 (2 ^ 64 - 16) <= highest stack32.
Proof.
  split; [reflexivity|].
  apply (wrap_offset_spec stack32 (2 ^ 64 - 16)); [lia|].
  change (highest stack32) with (2 ^ 32 - 1). lia.
Defined.

(** A join is interned once: [find_add_join] of well-shaped pieces gives an address at which
    [find_join] returns exactly those pieces with their size, asking again gives the same address
    and changes nothing, every earlier join is still found, and the records stay disjoint and
    unique. *)
Theorem find_add_join_interns (m : space_manager) (pieces : list (address * Z)) (logical_size : Z) :
  joins_ok m -> join_request pieces logical_size -> sm_join_allocate m + 2 ^ 32 + 16 <= 2 ^ 64 ->
  exists addr m', find_add_join m pieces logical_size = Some (addr, m') /\ joins_ok m' /\
    find_join m' addr = Some (JoinRecord pieces addr (pieces_size pieces logical_size)) /\
    (forall a r, find_join m a = Some r -> find_join m' a = Some r) /\
    find_add_join m' pieces logical_size = Some (addr, m').
Proof. apply find_add_join_ok. Qed.

Definition edx_eax : list (address * Z) := [(Addr 2 8, 4); (Addr 2 0, 4)].

Lemma find_add_join_interns_witness : exists addr m',
  find_add_join standard edx_eax 0 = Some (addr, m') /\
  find_join m' addr = Some (JoinRecord edx_eax addr 8).
Proof.
  destruct (find_add_join_interns standard edx_eax 0) as (addr & m' & E & _ & Ef & _).
  - constructor; cbn; [constructor|constructor|constructor|done|done].
  - unfold join_request. change (pieces_size edx_eax 0) with 8. split_and!; [done|split; done|lia|lia].
  - change (sm_join_allocate standard) with 0. lia.
  - exists addr, m'. split; [exact E|exact Ef].
Defined.
