(* ===== verification/Funcdata.v ===== *)
(** [decompile/funcdata.rs], with the nodes of [varnode.rs], [op.rs] and [block.rs]: the graph of one
    function -- values, operations and basic blocks in arenas, named by index -- and the primitives
    that edit it.  [None] is a panic.  The record holds the part of [Funcdata] the primitives touch;
    the [OPACTION_DEBUG] recording of [debug_mod_check], off outside debugging, is left out.  An
    arena holds fewer than 2^32 nodes, so a [u32] index is a [nat]. *)
From Stdlib Require Import ZArith Lia Bool List.
From stdpp Require Import base decidable option list strings gmap numbers.
From S2P Require Import Prelude Space OpCode BitUtil.
Local Open Scope Z_scope.

(** ** Nodes *)

Inductive datatype :=
| TVoid
| TSpacebase (space : Z)
| TUnknown (n : Z)
| TChar
| TInt (n : Z)
| TUint (n : Z)
| TBool
| TFloat (n : Z)
| TCode
| TPointer (n : Z) (to : datatype)
| TArray (elem : datatype) (count : Z)
| TStruct (size : Z) (fields : list (Z * datatype)).

(** [varnode::flags] *)
Definition CONSTANT : Z := 0x2.
Definition ANNOTATION : Z := 0x4.
Definition INPUT : Z := 0x8.
Definition WRITTEN : Z := 0x10.
Definition INSERT : Z := 0x20.
Definition VOLATILE : Z := 0x800.
Definition EXTERNREF : Z := 0x1000.
Definition READONLY : Z := 0x2000.
Definition NOLOCALALIAS : Z := 0x400.
Definition PERSIST : Z := 0x4000.
Definition ADDRTIED : Z := 0x8000.
Definition UNAFFECTED : Z := 0x10000.
Definition SPACEBASE : Z := 0x20000.
Definition DIRECTWRITE : Z := 0x80000.
Definition ADDRFORCE : Z := 0x100000.
Definition MAPPED : Z := 0x200000.
Definition INDIRECT_CREATION : Z := 0x400000.
Definition RETURN_ADDRESS : Z := 0x800000.
Definition PRECISLO : Z := 0x2000000.
Definition PRECISHI : Z := 0x4000000.
Definition INCIDENTAL_COPY : Z := 0x20000000.
Definition AUTOLIVE_HOLD : Z := 0x40000000.

(** [varnode::addlflags] *)
Definition WRITEMASK : Z := 0x2.
Definition LOCKED_INPUT : Z := 0x200.

(** [op::flags] *)
Definition STARTBASIC : Z := 0x1.
Definition DEAD : Z := 0x10.
Definition BOOLEAN_FLIP : Z := 0x80.
Definition FALLTHRU_TRUE : Z := 0x100.
Definition INDIRECT_SOURCE : Z := 0x400.
Definition NO_INDIRECT_COLLAPSE : Z := 0x1000.
Definition INDIRECT_STORE : Z := 0x4000.
Definition CALCULATED_BOOL : Z := 0x8000.
Definition NO_COLLAPSE : Z := 0x10000.
Definition SPECIAL_PRINT : Z := 0x20000.

(** [flags & mask != 0], and [flags &= !mask] *)
Definition has (flags mask : Z) : bool := negb (Z.land flags mask =? 0).
Definition clear (flags mask : Z) : Z := Z.ldiff flags mask.

Record varnode := Varnode {
  deleted : bool;
  loc : address;
  size : Z;
  flags : Z;
  addlflags : Z;
  create_index : Z;
  vdef : option nat;
  descend : list nat;
  ty : option datatype;
  nzm : Z;
  consume : Z;
}.

Record seq_num := SeqNum { pc : address; uniq : Z }.

Record pcode_op := PcodeOp {
  opc : opcode;
  oflags : Z;
  seqnum : seq_num;
  parent : option nat;
  output : option nat;
  inrefs : list nat;
  guarded_op : option nat;
}.

Record block_basic := BlockBasic {
  bops : list nat;
  in_edges : list nat;
  out_edges : list nat;
}.

Record effect_record := EffectRecord { e_space : Z; e_offset : Z; e_size : Z; e_effect : Z }.

(** [structured] says whether a structured hierarchy is cached. *)
Record funcdata := Funcdata {
  entry : address;
  spaces : space_manager;
  effectlist : list effect_record;
  varnodes : list varnode;
  ops : list pcode_op;
  blocks : list block_basic;
  next_create : Z;
  unique_offset : Z;
  structured : bool;
}.

Definition is_constant (v : varnode) : bool := has (flags v) CONSTANT.
Definition is_annotation (v : varnode) : bool := has (flags v) ANNOTATION.
Definition is_input (v : varnode) : bool := has (flags v) INPUT.
Definition is_locked_input (v : varnode) : bool := has (addlflags v) LOCKED_INPUT.
Definition is_written (v : varnode) : bool := has (flags v) WRITTEN.
Definition is_free (v : varnode) : bool := negb (has (flags v) (Z.lor WRITTEN INPUT)).
Definition is_spacebase (v : varnode) : bool := has (flags v) SPACEBASE.
Definition is_auto_live (v : varnode) : bool := has (flags v) (Z.lor ADDRFORCE AUTOLIVE_HOLD).

Definition is_dead (o : pcode_op) : bool := has (oflags o) DEAD.
Definition is_indirect_source (o : pcode_op) : bool := has (oflags o) INDIRECT_SOURCE.
Definition is_call (o : pcode_op) : bool := match opc o with Call | Callind | Callother => true | _ => false end.
Definition is_marker (o : pcode_op) : bool := match opc o with Multiequal | Indirect => true | _ => false end.

(** ** Field updates *)

Definition set_flags (fl : Z) (v : varnode) : varnode :=
  Varnode (deleted v) (loc v) (size v) fl (addlflags v) (create_index v) (vdef v) (descend v) (ty v) (nzm v) (consume v).
Definition set_addlflags (fl : Z) (v : varnode) : varnode :=
  Varnode (deleted v) (loc v) (size v) (flags v) fl (create_index v) (vdef v) (descend v) (ty v) (nzm v) (consume v).
Definition set_vdef (d : option nat) (v : varnode) : varnode :=
  Varnode (deleted v) (loc v) (size v) (flags v) (addlflags v) (create_index v) d (descend v) (ty v) (nzm v) (consume v).
Definition set_descend (d : list nat) (v : varnode) : varnode :=
  Varnode (deleted v) (loc v) (size v) (flags v) (addlflags v) (create_index v) (vdef v) d (ty v) (nzm v) (consume v).
Definition set_ty (t : option datatype) (v : varnode) : varnode :=
  Varnode (deleted v) (loc v) (size v) (flags v) (addlflags v) (create_index v) (vdef v) (descend v) t (nzm v) (consume v).
Definition set_consume (m : Z) (v : varnode) : varnode :=
  Varnode (deleted v) (loc v) (size v) (flags v) (addlflags v) (create_index v) (vdef v) (descend v) (ty v) (nzm v) m.
Definition set_deleted (v : varnode) : varnode :=
  Varnode true (loc v) (size v) (flags v) (addlflags v) (create_index v) (vdef v) (descend v) (ty v) (nzm v) (consume v).

Definition set_opc (c : opcode) (o : pcode_op) : pcode_op :=
  PcodeOp c (oflags o) (seqnum o) (parent o) (output o) (inrefs o) (guarded_op o).
Definition set_oflags (fl : Z) (o : pcode_op) : pcode_op :=
  PcodeOp (opc o) fl (seqnum o) (parent o) (output o) (inrefs o) (guarded_op o).
Definition set_parent (b : option nat) (o : pcode_op) : pcode_op :=
  PcodeOp (opc o) (oflags o) (seqnum o) b (output o) (inrefs o) (guarded_op o).
Definition set_output (v : option nat) (o : pcode_op) : pcode_op :=
  PcodeOp (opc o) (oflags o) (seqnum o) (parent o) v (inrefs o) (guarded_op o).
Definition set_inrefs (l : list nat) (o : pcode_op) : pcode_op :=
  PcodeOp (opc o) (oflags o) (seqnum o) (parent o) (output o) l (guarded_op o).
Definition set_guarded (g : option nat) (o : pcode_op) : pcode_op :=
  PcodeOp (opc o) (oflags o) (seqnum o) (parent o) (output o) (inrefs o) g.

Definition set_bops (l : list nat) (b : block_basic) : block_basic := BlockBasic l (in_edges b) (out_edges b).
Definition set_ins (l : list nat) (b : block_basic) : block_basic := BlockBasic (bops b) l (out_edges b).
Definition set_outs (l : list nat) (b : block_basic) : block_basic := BlockBasic (bops b) (in_edges b) l.

Definition with_varnodes (f : funcdata) (l : list varnode) : funcdata :=
  Funcdata (entry f) (spaces f) (effectlist f) l (ops f) (blocks f) (next_create f) (unique_offset f) (structured f).
Definition with_ops (f : funcdata) (l : list pcode_op) : funcdata :=
  Funcdata (entry f) (spaces f) (effectlist f) (varnodes f) l (blocks f) (next_create f) (unique_offset f) (structured f).
Definition with_blocks (f : funcdata) (l : list block_basic) : funcdata :=
  Funcdata (entry f) (spaces f) (effectlist f) (varnodes f) (ops f) l (next_create f) (unique_offset f) (structured f).

(** [vn_mut], [op_mut], [block_mut]: an index out of range panics *)
Definition vn_mut (f : funcdata) (v : nat) (g : varnode -> varnode) : option funcdata :=
  x ← varnodes f !! v; Some (with_varnodes f (<[v := g x]> (varnodes f))).
Definition op_mut (f : funcdata) (o : nat) (g : pcode_op -> pcode_op) : option funcdata :=
  x ← ops f !! o; Some (with_ops f (<[o := g x]> (ops f))).
Definition block_mut (f : funcdata) (b : nat) (g : block_basic -> block_basic) : option funcdata :=
  x ← blocks f !! b; Some (with_blocks f (<[b := g x]> (blocks f))).

(** ** Vectors *)

(** [iter().position(p)] *)
Fixpoint position {A : Type} (p : A -> bool) (l : list A) : option nat :=
  match l with
  | [] => None
  | x :: l => if p x then Some 0%nat else S <$> position p l
  end.

Definition position_of (x : nat) (l : list nat) : option nat := position (Nat.eqb x) l.

(** [Vec::insert], which panics past the end *)
Definition vec_insert (i x : nat) (l : list nat) : option (list nat) :=
  if Nat.leb i (List.length l) then Some (take i l ++ x :: drop i l) else None.

(** removal of the first occurrence, if any *)
Definition remove_first (x : nat) (l : list nat) : list nat :=
  match position_of x l with Some i => delete i l | None => l end.

Fixpoint fold_opt {A S : Type} (g : S -> A -> option S) (l : list A) (s : S) : option S :=
  match l with
  | [] => Some s
  | x :: l => s ← g s x; fold_opt g l s
  end.

(** the function before any of its nodes; [effects] are those of its prototype model *)
Definition new_funcdata (addr : address) (sm : space_manager) (effects : list effect_record) : funcdata :=
  Funcdata addr sm effects [] [] [] 0 0x10000 false.

(** ** Creation of values *)

Definition scope_flags (sp : aspace) : Z :=
  match sp_kind sp with
  | KSpacebase => Z.lor MAPPED ADDRTIED
  | KProcessor => if 0 <? sp_delay sp then Z.lor (Z.lor MAPPED ADDRTIED) PERSIST else 0
  | _ => 0
  end.

Definition alloc_varnode (f : funcdata) (sz : Z) (l : address) (vflags : Z) : option (nat * funcdata) :=
  let nzm := if has vflags CONSTANT then Z.land (a_offset l) (calc_mask sz) else calc_mask sz in
  sp ← sm_spaces (spaces f) !! Z.to_nat (a_space l);
  let v := Varnode false l sz (Z.lor vflags (scope_flags sp)) 0 (next_create f) None [] None nzm (u64_not 0) in
  Some (List.length (varnodes f),
        Funcdata (entry f) (spaces f) (effectlist f) (varnodes f ++ [v]) (ops f) (blocks f)
          (w32 (next_create f + 1)) (unique_offset f) (structured f)).

Definition new_varnode (f : funcdata) (sz : Z) (l : address) : option (nat * funcdata) := alloc_varnode f sz l 0.

(** [lookup_effect]: the last record at or before the address, if it holds the whole range *)
Definition effect_unaffected : Z := 1.
Definition effect_return_address : Z := 3.
Definition effect_unknown : Z := 4.

Definition lookup_effect (efflist : list effect_record) (addr : address) (sz : Z) : Z :=
  let n := partition_point (fun e => (e_space e <? a_space addr) ||
                                     ((e_space e =? a_space addr) && (e_offset e <=? a_offset addr))) efflist in
  match n with
  | O => effect_unknown
  | S i =>
      match nth_error efflist i with
      | None => effect_unknown
      | Some e =>
          if negb (e_space e =? a_space addr) then effect_unknown
          else
            let end_ := Z.min (a_offset addr + sz) u64_max in
            if (e_offset e <=? a_offset addr) && (end_ <=? u64_add (e_offset e) (e_size e)) then e_effect e
            else effect_unknown
      end
  end.

Definition effect_flags (effecttype : Z) : Z :=
  if effecttype =? effect_unaffected then UNAFFECTED
  else if effecttype =? effect_return_address then Z.lor UNAFFECTED RETURN_ADDRESS
  else 0.

Definition apply_input_effect (f : funcdata) (vid : nat) : option funcdata :=
  v ← varnodes f !! vid;
  let effecttype := lookup_effect (effectlist f) (loc v) (size v) in
  vn_mut f vid (fun v => set_flags (Z.lor (flags v) (effect_flags effecttype)) v).

(** an input at exactly this storage, other than [but] *)
Definition input_at (f : funcdata) (l : address) (sz : Z) (but : option nat) : option nat :=
  position (fun '(i, o) => negb (bool_decide (but = Some i)) && is_input o && bool_decide (loc o = l) && (size o =? sz))
    (imap (fun i o => (i, o)) (varnodes f)).

Definition new_input (f : funcdata) (sz : Z) (l : address) : option (nat * funcdata) :=
  match input_at f l sz None with
  | Some i => Some (i, f)
  | None =>
      '(vid, f) ← alloc_varnode f sz l (Z.lor INPUT INSERT);
      f ← apply_input_effect f vid;
      Some (vid, f)
  end.

Definition constant_space (f : funcdata) : option Z := by_name (spaces f) "const".

Definition new_const (f : funcdata) (sz value : Z) : option (nat * funcdata) :=
  c ← constant_space f;
  alloc_varnode f sz (Addr c value) CONSTANT.

Definition next_unique (f : funcdata) (sz : Z) : option (address * funcdata) :=
  space ← by_name (spaces f) "unique";
  Some (Addr space (unique_offset f),
        Funcdata (entry f) (spaces f) (effectlist f) (varnodes f) (ops f) (blocks f) (next_create f)
          (u64_add (unique_offset f) (Z.max sz 1)) (structured f)).

Definition new_unique (f : funcdata) (sz : Z) : option (nat * funcdata) :=
  '(l, f) ← next_unique f sz;
  alloc_varnode f sz l 0.

Definition new_code_ref (f : funcdata) (m : address) : option (nat * funcdata) :=
  '(v, f) ← alloc_varnode f 1 m ANNOTATION;
  f ← vn_mut f v (set_ty (Some TCode));
  Some (v, f).

(** ** Wiring *)

Definition unique_constant_for (f : funcdata) (vid : nat) : option (nat * funcdata) :=
  v ← varnodes f !! vid;
  if negb (is_constant v) || bool_decide (descend v = []) || is_spacebase v then Some (vid, f)
  else
    '(cvn, f) ← new_const f (size v) (a_offset (loc v));
    f ← vn_mut f cvn (set_ty (ty v));
    Some (cvn, f).

(** a reader joins or leaves the list of a value's readers *)
Definition attach (f : funcdata) (op v : nat) : option funcdata := vn_mut f v (fun x => set_descend (descend x ++ [op]) x).
Definition detach (f : funcdata) (op v : nat) : option funcdata :=
  vn_mut f v (fun x => set_descend (remove_first op (descend x)) x).

Fixpoint unique_constants (f : funcdata) (inputs : list nat) : option (list nat * funcdata) :=
  match inputs with
  | [] => Some ([], f)
  | v :: inputs =>
      '(v, f) ← unique_constant_for f v;
      '(vs, f) ← unique_constants f inputs;
      Some (v :: vs, f)
  end.

Definition new_op (f : funcdata) (c : opcode) (seq : seq_num) (inputs : list nat) : option (nat * funcdata) :=
  let id := List.length (ops f) in
  '(inputs, f) ← unique_constants f inputs;
  f ← fold_opt (fun f v => attach f id v) inputs f;
  Some (id, with_ops f (ops f ++ [PcodeOp c 0 seq None None inputs None])).

(** what [makeFree] clears *)
Definition FREED : Z := Z.lor (Z.lor WRITTEN INPUT) (Z.lor INSERT INDIRECT_CREATION).

(** the operation loses its output, which is free again *)
Definition unset_output (f : funcdata) (op : nat) : option funcdata :=
  o ← ops f !! op;
  match output o with
  | None => Some f
  | Some old =>
      f ← op_mut f op (set_output None);
      vn_mut f old (fun v => set_flags (clear (flags v) FREED) (set_vdef None v))
  end.

Definition new_output (f : funcdata) (op : nat) (sz : Z) (l : address) : option (nat * funcdata) :=
  f ← unset_output f op;
  '(v, f) ← alloc_varnode f sz l (Z.lor WRITTEN INSERT);
  f ← vn_mut f v (set_vdef (Some op));
  f ← op_mut f op (set_output (Some v));
  Some (v, f).

Definition new_output_unique (f : funcdata) (op : nat) (sz : Z) : option (nat * funcdata) :=
  '(l, f) ← next_unique f sz;
  new_output f op sz l.

Definition op_set_output (f : funcdata) (op vid : nat) : option funcdata :=
  o ← ops f !! op;
  if bool_decide (output o = Some vid) then Some f
  else
    f ← unset_output f op;
    v ← varnodes f !! vid;
    f ← match vdef v with
        | None => Some f
        | Some olddef => f ← vn_mut f vid (set_vdef None); op_mut f olddef (set_output None)
        end;
    f ← vn_mut f vid (fun v => set_flags (Z.lor (flags v) (Z.lor WRITTEN INSERT)) (set_vdef (Some op) v));
    op_mut f op (set_output (Some vid)).

Definition op_set_input (f : funcdata) (op slot vid : nat) : option funcdata :=
  o ← ops f !! op;
  old ← inrefs o !! slot;
  if Nat.eqb old vid then Some f
  else
    '(vid, f) ← unique_constant_for f vid;
    f ← detach f op old;
    f ← op_mut f op (fun o => set_inrefs (<[slot := vid]> (inrefs o)) o);
    attach f op vid.

Definition op_insert_input (f : funcdata) (op slot vid : nat) : option funcdata :=
  '(vid, f) ← unique_constant_for f vid;
  o ← ops f !! op;
  l ← vec_insert slot vid (inrefs o);
  f ← op_mut f op (set_inrefs l);
  attach f op vid.

Definition op_append_input (f : funcdata) (op vid : nat) : option funcdata :=
  '(vid, f) ← unique_constant_for f vid;
  f ← op_mut f op (fun o => set_inrefs (inrefs o ++ [vid]) o);
  attach f op vid.

Definition op_remove_input (f : funcdata) (op slot : nat) : option funcdata :=
  o ← ops f !! op;
  vid ← inrefs o !! slot;
  f ← op_mut f op (set_inrefs (delete slot (inrefs o)));
  detach f op vid.

Definition op_swap_input (f : funcdata) (op i j : nat) : option funcdata :=
  o ← ops f !! op;
  a ← inrefs o !! i;
  b ← inrefs o !! j;
  op_mut f op (set_inrefs (<[j := a]> (<[i := b]> (inrefs o)))).

(** the operation gives up all its inputs *)
Definition release_inputs (f : funcdata) (op : nat) : option funcdata :=
  o ← ops f !! op;
  f ← op_mut f op (set_inrefs []);
  fold_opt (fun f v => detach f op v) (inrefs o) f.

Definition op_set_all_input (f : funcdata) (op : nat) (inputs : list nat) : option funcdata :=
  f ← release_inputs f op;
  fold_opt (fun f v => op_append_input f op v) inputs f.

Definition op_set_opcode (f : funcdata) (op : nat) (c : opcode) : option funcdata := op_mut f op (set_opc c).

(** one user of [old], at every slot *)
Definition replace_in (old new : nat) (f : funcdata) (op : nat) : option funcdata :=
  o ← ops f !! op;
  f ← op_mut f op (fun o => set_inrefs (map (fun v => if Nat.eqb v old then new else v) (inrefs o)) o);
  fold_opt (fun f v => if Nat.eqb v old then attach f op new else Some f) (inrefs o) f.

Definition total_replace (f : funcdata) (old new : nat) : option funcdata :=
  v ← varnodes f !! old;
  f ← vn_mut f old (set_descend []);
  fold_opt (replace_in old new) (descend v) f.

(** ** Removal *)

Definition delete_varnode (f : funcdata) (vid : nat) : option funcdata :=
  vn_mut f vid (fun v => set_flags (clear (flags v) (Z.lor (Z.lor INPUT INSERT) (Z.lor WRITTEN UNAFFECTED)))
                           (set_vdef None (set_deleted v))).

Definition mark_dead (f : funcdata) (op : nat) : option funcdata := op_mut f op (fun o => set_oflags (Z.lor (oflags o) DEAD) o).

Definition op_destroy (f : funcdata) (op : nat) : option funcdata :=
  f ← release_inputs f op;
  o ← ops f !! op;
  f ← match output o with
      | None => Some f
      | Some out => f ← op_mut f op (set_output None); delete_varnode f out
      end;
  mark_dead f op.

Definition lone_descend (v : varnode) : option nat := match descend v with [o] => Some o | _ => None end.

(** the operation whose only purpose was the input [v], if any; [None] is a panic *)
Definition only_for (f : funcdata) (v : nat) : option (option nat) :=
  x ← varnodes f !! v;
  if negb (is_written x) || is_auto_live x then Some None
  else match lone_descend x with
       | None => Some None
       | Some _ =>
           d ← vdef x;
           o ← ops f !! d;
           Some (if is_call o || is_indirect_source o then None else Some d)
       end.

(** [worklist] is what [worklist[pos..]] holds *)
Fixpoint destroy_loop (fuel : nat) (f : funcdata) (worklist : list nat) : option funcdata :=
  match fuel with
  | O => None
  | S fuel =>
      match worklist with
      | [] => Some f
      | cur :: worklist =>
          o ← ops f !! cur;
          more ← mapM (only_for f) (inrefs o);
          f ← op_destroy f cur;
          destroy_loop fuel f (worklist ++ omap id more)
      end
  end.

(** one turn for the operation and one for each input of the function at most *)
Definition destroy_fuel (f : funcdata) : nat := S (S (sum_list_with (fun o => List.length (inrefs o)) (ops f))).

Definition op_destroy_recursive (f : funcdata) (op : nat) : option funcdata := destroy_loop (destroy_fuel f) f [op].

Definition varnode_ids (f : funcdata) : list nat :=
  List.filter (fun i => match varnodes f !! i with Some v => negb (deleted v) | None => false end)
    (seq 0 (List.length (varnodes f))).

Definition is_dead_varnode (f : funcdata) (i : nat) : bool :=
  match varnodes f !! i with
  | Some v => bool_decide (descend v = []) && (is_free v || (is_input v && negb (is_locked_input v)))
  | None => false
  end.

Definition clear_dead_varnodes (f : funcdata) : option funcdata :=
  fold_opt delete_varnode (List.filter (is_dead_varnode f) (varnode_ids f)) f.

(** ** Position of operations in their blocks *)

Definition op_code (f : funcdata) (o : nat) : option opcode := opc <$> ops f !! o.

Definition is_phi (f : funcdata) (o : nat) : bool := bool_decide (op_code f o = Some Multiequal).

(** the operation joins block [b] at position [at_] of its list *)
Definition place (f : funcdata) (b at_ op : nat) : option funcdata :=
  x ← blocks f !! b;
  l ← vec_insert at_ op (bops x);
  block_mut f b (set_bops l).

Definition op_insert_before (f : funcdata) (newop follow : nat) : option funcdata :=
  o ← ops f !! follow;
  f ← op_mut f newop (set_parent (parent o));
  match parent o with
  | None => Some f
  | Some b =>
      x ← blocks f !! b;
      place f b (default (List.length (bops x)) (position_of follow (bops x))) newop
  end.

(** the operation whose effect an INDIRECT carries, unless it is dead *)
Definition effect_of (f : funcdata) (prev : nat) : option nat :=
  o ← ops f !! prev;
  match opc o, guarded_op o with
  | Indirect, Some targ => t ← ops f !! targ; Some (if is_dead t then prev else targ)
  | _, _ => Some prev
  end.

(** how many operations of [l] are leading MULTIEQUALs *)
Definition leading_phis (f : funcdata) (l : list nat) : nat := partition_point (is_phi f) l.

Definition op_insert_after (f : funcdata) (newop prev : nat) : option funcdata :=
  prev ← effect_of f prev;
  o ← ops f !! prev;
  f ← op_mut f newop (set_parent (parent o));
  match parent o with
  | None => Some f
  | Some b =>
      x ← blocks f !! b;
      let pos := default (List.length (bops x)) (S <$> position_of prev (bops x)) in
      let pos := if is_phi f newop then pos else (pos + leading_phis f (drop pos (bops x)))%nat in
      place f b pos newop
  end.

Definition op_uninsert (f : funcdata) (op : nat) : option funcdata :=
  o ← ops f !! op;
  match parent o with
  | None => Some f
  | Some b => block_mut f b (fun x => set_bops (remove_first op (bops x)) x)
  end.

Definition op_insert_begin (f : funcdata) (op block : nat) : option funcdata :=
  f ← op_mut f op (set_parent (Some block));
  x ← blocks f !! block;
  place f block (if is_phi f op then 0%nat else leading_phis f (bops x)) op.

Definition op_insert_end (f : funcdata) (op block : nat) : option funcdata :=
  f ← op_mut f op (set_parent (Some block));
  x ← blocks f !! block;
  let n := List.length (bops x) in
  match bops x !! Nat.pred n with
  | None => place f block n op
  | Some lastop => c ← op_code f lastop; place f block (if terminates_block c then Nat.pred n else n) op
  end.

Definition set_block_ops (f : funcdata) (block : nat) (l : list nat) : option funcdata := block_mut f block (set_bops l).

(** ** Control-flow edges *)

Definition structure_reset (f : funcdata) : funcdata :=
  Funcdata (entry f) (spaces f) (effectlist f) (varnodes f) (ops f) (blocks f) (next_create f) (unique_offset f) false.

Definition set_blocks (f : funcdata) (l : list block_basic) : funcdata := with_blocks (structure_reset f) l.

Definition new_block_basic (f : funcdata) : nat * funcdata :=
  let f := structure_reset f in
  (List.length (blocks f), with_blocks f (blocks f ++ [BlockBasic [] [] []])).

Definition add_edge (f : funcdata) (from to : nat) : option funcdata :=
  let f := structure_reset f in
  f ← block_mut f from (fun x => set_outs (out_edges x ++ [to]) x);
  block_mut f to (fun x => set_ins (in_edges x ++ [from]) x).

(** [None] also where an edge is not reciprocal, which panics *)
Definition remove_edge (f : funcdata) (from to : nat) : option funcdata :=
  let f := structure_reset f in
  a ← blocks f !! from;
  oi ← position_of to (out_edges a);
  b ← blocks f !! to;
  ii ← position_of from (in_edges b);
  f ← block_mut f from (fun x => set_outs (delete oi (out_edges x)) x);
  block_mut f to (fun x => set_ins (delete ii (in_edges x)) x).

Definition move_out_edge (f : funcdata) (blold slot blnew : nat) : option funcdata :=
  let f := structure_reset f in
  a ← blocks f !! blold;
  outbl ← out_edges a !! slot;
  b ← blocks f !! outbl;
  i ← position_of blold (in_edges b);
  f ← block_mut f blold (fun x => set_outs (delete slot (out_edges x)) x);
  f ← block_mut f outbl (fun x => set_ins (<[i := blnew]> (in_edges x)) x);
  block_mut f blnew (fun x => set_outs (out_edges x ++ [outbl]) x).

Definition replace_edges_thru (f : funcdata) (bl inslot outslot : nat) : option funcdata :=
  let f := structure_reset f in
  x ← blocks f !! bl;
  inb ← in_edges x !! inslot;
  outb ← out_edges x !! outslot;
  p ← blocks f !! inb;
  inblock_outslot ← position_of bl (out_edges p);
  s ← blocks f !! outb;
  outblock_inslot ← position_of bl (in_edges s);
  f ← block_mut f inb (fun x => set_outs (<[inblock_outslot := outb]> (out_edges x)) x);
  f ← block_mut f outb (fun x => set_ins (<[outblock_inslot := inb]> (in_edges x)) x);
  f ← block_mut f bl (fun x => set_ins (delete inslot (in_edges x)) x);
  block_mut f bl (fun x => set_outs (delete outslot (out_edges x)) x).

Definition remove_from_flow_split (f : funcdata) (bl : nat) (flipflow : bool) : option funcdata :=
  f ← replace_edges_thru (structure_reset f) bl (if flipflow then 0%nat else 1%nat) 1;
  replace_edges_thru f bl 0 0.

(** the edge of the higher in-index goes; the other side is returned *)
Definition drop_higher_edge (f : funcdata) (block1 block2 exit : nat) (block1ishigh : bool) : option (nat * funcdata) :=
  if block1ishigh then f ← remove_edge f block1 exit; Some (block2, f)
  else f ← remove_edge f block2 exit; Some (block1, f).

(** re-source the out-edge of [swap] to [exit] onto [newblock] *)
Definition move_edge_to (f : funcdata) (swap exit newblock : nat) : option funcdata :=
  x ← blocks f !! swap;
  s ← position_of exit (out_edges x);
  move_out_edge f swap s newblock.

Definition node_join_create_block (f : funcdata) (block1 block2 exita exitb : nat)
    (fora_block1ishigh forb_block1ishigh : bool) : option (nat * funcdata) :=
  let '(newblock, f) := new_block_basic (structure_reset f) in
  '(swapa, f) ← drop_higher_edge f block1 block2 exita fora_block1ishigh;
  '(swapb, f) ← drop_higher_edge f block1 block2 exitb forb_block1ishigh;
  f ← move_edge_to f swapa exita newblock;
  f ← move_edge_to f swapb exitb newblock;
  f ← add_edge f block1 newblock;
  f ← add_edge f block2 newblock;
  Some (newblock, f).
