(* ===== verification/FuncdataLinks.v ===== *)
(** The links of the graph of a function: a value lists its readers, an operation its inputs, and
    each knows the other.  The invariant, and how the elementary updates act on it. *)
From Stdlib Require Import ZArith Lia Bool List.
From stdpp Require Import base decidable option list strings gmap numbers tactics.
From S2P Require Import Prelude Space OpCode BitUtil Funcdata.
Local Open Scope Z_scope.

(** ** Runs that do not panic *)

(** [runs m Q]: the computation does not panic and its result satisfies [Q]. *)
Definition runs {A : Type} (m : option A) (Q : A -> Prop) : Prop :=
  match m with Some a => Q a | None => False end.

Lemma runs_bind {A B : Type} (m : option A) (k : A -> option B) (Q : B -> Prop) :
  runs m (fun a => runs (k a) Q) -> runs (m ≫= k) Q.
Proof. by destruct m. Qed.

Lemma runs_mono {A : Type} (m : option A) (P Q : A -> Prop) : runs m P -> (forall a, P a -> Q a) -> runs m Q.
Proof. destruct m; cbn; auto. Qed.

Lemma runs_some {A : Type} (m : option A) (a : A) (Q : A -> Prop) : m = Some a -> Q a -> runs m Q.
Proof. by intros ->. Qed.

Lemma runs_exists {A : Type} (m : option A) (Q : A -> Prop) : runs m Q <-> exists a, m = Some a /\ Q a.
Proof. destruct m; cbn; split; [eauto|by intros (? & [= <-] & ?)|done|by intros (? & ? & _)]. Qed.

(** Step over the first computation of a sequence. *)
Ltac run_step lem := apply runs_bind; eapply runs_mono; [lem|].

(** ** The links *)

Definition readers (f : funcdata) (v : nat) : list nat := default [] (descend <$> varnodes f !! v).
Definition def_of (f : funcdata) (v : nat) : option nat := varnodes f !! v ≫= vdef.
Definition inputs (f : funcdata) (o : nat) : list nat := default [] (inrefs <$> ops f !! o).
Definition out_of (f : funcdata) (o : nat) : option nat := ops f !! o ≫= output.

Definition count (l : list nat) (x : nat) : nat := count_occ Nat.eq_dec l x.

(** The flags of one value agree with its links: written when it has a definition, in the tree when
    written or an input, and never both. *)
Record flags_ok (x : varnode) : Prop := FlagsOk {
  fo_written : is_written x = true <-> vdef x <> None;
  fo_insert : has (flags x) INSERT = is_written x || is_input x;
  fo_input : is_input x = true -> vdef x = None;
}.

Record graph_ok (f : funcdata) : Prop := GraphOk {
  go_use : forall v o, count (readers f v) o = count (inputs f o) v;
  go_def : forall v o, def_of f v = Some o <-> out_of f o = Some v;
  go_flags : forall v x, varnodes f !! v = Some x -> flags_ok x;
}.

(** [f'] has the nodes of [f], perhaps more, in the same blocks, and the same spaces. *)
Record keeps (f f' : funcdata) : Prop := Keeps {
  k_spaces : spaces f' = spaces f;
  k_blocks : blocks f' = blocks f;
  k_nv : (List.length (varnodes f) <= List.length (varnodes f'))%nat;
  k_no : (List.length (ops f) <= List.length (ops f'))%nat;
  k_ops : forall o x, ops f !! o = Some x ->
    exists x', ops f' !! o = Some x' /\ parent x' = parent x /\ guarded_op x' = guarded_op x;
  k_new : forall o x', (List.length (ops f) <= o)%nat -> ops f' !! o = Some x' -> parent x' = None /\ guarded_op x' = None;
}.

#[export] Instance keeps_refl : Reflexive keeps.
Proof.
  intros f. constructor; try done; [eauto|]. intros o x' Ho Hx. apply lookup_lt_Some in Hx. lia.
Qed.

#[export] Instance keeps_trans : Transitive keeps.
Proof.
  intros f g h [] []. constructor; try congruence; try lia.
  - intros o x Hx. destruct (k_ops0 o x Hx) as (y & Hy & E1 & E2). destruct (k_ops1 o y Hy) as (z & Hz & E3 & E4).
    exists z. split_and!; [done|congruence..].
  - intros o x' Ho Hx. destruct (decide (List.length (ops g) <= o)%nat) as [Hle|Hlt]; [eauto|].
    destruct (lookup_lt_is_Some_2 (ops g) o ltac:(lia)) as [y Hy]. destruct (k_ops1 o y Hy) as (z & Hz & E1 & E2).
    destruct (k_new0 o y Ho Hy). split; congruence.
Qed.

Definition spaces_ok (f : funcdata) : Prop :=
  (exists c, by_name (spaces f) "const" = Some c /\ is_Some (sm_spaces (spaces f) !! Z.to_nat c)) /\
  (exists u, by_name (spaces f) "unique" = Some u /\ is_Some (sm_spaces (spaces f) !! Z.to_nat u)).

Lemma spaces_ok_keeps (f f' : funcdata) : keeps f f' -> spaces_ok f -> spaces_ok f'.
Proof. intros K. unfold spaces_ok. by rewrite (k_spaces _ _ K). Qed.

(** ** Flags as bits *)

Lemma has_bit (fl : Z) (i : nat) : has fl (2 ^ Z.of_nat i) = Z.testbit fl (Z.of_nat i).
Proof.
  unfold has. destruct (Z.testbit fl (Z.of_nat i)) eqn:E.
  - apply negb_true_iff, Z.eqb_neq. intros H. apply (f_equal (fun z => Z.testbit z (Z.of_nat i))) in H.
    rewrite Z.land_spec, E, Z.pow2_bits_true, Z.bits_0 in H by lia. done.
  - apply negb_false_iff, Z.eqb_eq. apply Z.bits_inj'. intros j Hj. rewrite Z.land_spec, Z.bits_0.
    destruct (Z.eq_dec j (Z.of_nat i)) as [->|Hne]; [by rewrite E|]. rewrite Z.pow2_bits_false by lia. apply andb_false_r.
Qed.

Lemma has_or (fl m : Z) (i : nat) : has (Z.lor fl m) (2 ^ Z.of_nat i) = has fl (2 ^ Z.of_nat i) || has m (2 ^ Z.of_nat i).
Proof. by rewrite !has_bit, Z.lor_spec. Qed.

Lemma has_clear (fl m : Z) (i : nat) : has (clear fl m) (2 ^ Z.of_nat i) = has fl (2 ^ Z.of_nat i) && negb (has m (2 ^ Z.of_nat i)).
Proof. unfold clear. by rewrite !has_bit, Z.ldiff_spec. Qed.

Lemma has_two (fl : Z) (i j : nat) : has fl (Z.lor (2 ^ Z.of_nat i) (2 ^ Z.of_nat j)) = has fl (2 ^ Z.of_nat i) || has fl (2 ^ Z.of_nat j).
Proof.
  unfold has. rewrite Z.land_lor_distr_r. rewrite <- negb_andb. f_equal.
  destruct (Z.eqb_spec (Z.land fl (2 ^ Z.of_nat i)) 0) as [E1|E1]; [|cbn].
  - rewrite E1, Z.lor_0_l. done.
  - apply Z.eqb_neq. intros H. apply Z.lor_eq_0_iff in H. tauto.
Qed.

(** the three flags of the links, after setting and clearing *)
Lemma written_or (fl m : Z) : has (Z.lor fl m) WRITTEN = has fl WRITTEN || has m WRITTEN.
Proof. apply (has_or _ _ 4). Qed.
Lemma input_or (fl m : Z) : has (Z.lor fl m) INPUT = has fl INPUT || has m INPUT.
Proof. apply (has_or _ _ 3). Qed.
Lemma insert_or (fl m : Z) : has (Z.lor fl m) INSERT = has fl INSERT || has m INSERT.
Proof. apply (has_or _ _ 5). Qed.
Lemma written_clear (fl m : Z) : has (clear fl m) WRITTEN = has fl WRITTEN && negb (has m WRITTEN).
Proof. apply (has_clear _ _ 4). Qed.
Lemma input_clear (fl m : Z) : has (clear fl m) INPUT = has fl INPUT && negb (has m INPUT).
Proof. apply (has_clear _ _ 3). Qed.
Lemma insert_clear (fl m : Z) : has (clear fl m) INSERT = has fl INSERT && negb (has m INSERT).
Proof. apply (has_clear _ _ 5). Qed.

Create Rewrite HintDb node_flags.
#[export] Hint Rewrite written_or input_or insert_or written_clear input_clear insert_clear : node_flags.

(** ** Elementary updates *)

Lemma runs_vn_mut (f : funcdata) (v : nat) (g : varnode -> varnode) (x : varnode) (Q : funcdata -> Prop) :
  varnodes f !! v = Some x -> Q (with_varnodes f (<[v := g x]> (varnodes f))) -> runs (vn_mut f v g) Q.
Proof. unfold vn_mut. by intros ->. Qed.

Lemma runs_op_mut (f : funcdata) (o : nat) (g : pcode_op -> pcode_op) (x : pcode_op) (Q : funcdata -> Prop) :
  ops f !! o = Some x -> Q (with_ops f (<[o := g x]> (ops f))) -> runs (op_mut f o g) Q.
Proof. unfold op_mut. by intros ->. Qed.

Lemma lookup_upd {A : Type} (l : list A) (i j : nat) (y : A) : (i < List.length l)%nat ->
  <[i := y]> l !! j = if decide (j = i) then Some y else l !! j.
Proof. intros Hi. destruct (decide (j = i)) as [->|]; [by apply list_lookup_insert_eq|by apply list_lookup_insert_ne]. Qed.

(** What an update of one value does to the links. *)
Record vn_update (f : funcdata) (v : nat) (x y : varnode) (f' : funcdata) : Prop := VnUpdate {
  vu_at : varnodes f !! v = Some x;
  vu_vns : forall w, varnodes f' !! w = if decide (w = v) then Some y else varnodes f !! w;
  vu_len : List.length (varnodes f') = List.length (varnodes f);
  vu_ops : ops f' = ops f;
  vu_blocks : blocks f' = blocks f;
  vu_spaces : spaces f' = spaces f;
}.

Record op_update (f : funcdata) (o : nat) (x y : pcode_op) (f' : funcdata) : Prop := OpUpdate {
  ou_at : ops f !! o = Some x;
  ou_ops : forall p, ops f' !! p = if decide (p = o) then Some y else ops f !! p;
  ou_len : List.length (ops f') = List.length (ops f);
  ou_vns : varnodes f' = varnodes f;
  ou_blocks : blocks f' = blocks f;
  ou_spaces : spaces f' = spaces f;
}.

Lemma vn_mut_update (f : funcdata) (v : nat) (g : varnode -> varnode) (x : varnode) :
  varnodes f !! v = Some x -> runs (vn_mut f v g) (vn_update f v x (g x)).
Proof.
  intros Hx. eapply runs_vn_mut; [done|]. pose proof (lookup_lt_Some _ _ _ Hx).
  constructor; try done; cbn; [intros w; by apply lookup_upd|by rewrite length_insert].
Qed.

Lemma op_mut_update (f : funcdata) (o : nat) (g : pcode_op -> pcode_op) (x : pcode_op) :
  ops f !! o = Some x -> runs (op_mut f o g) (op_update f o x (g x)).
Proof.
  intros Hx. eapply runs_op_mut; [done|]. pose proof (lookup_lt_Some _ _ _ Hx).
  constructor; try done; cbn; [intros w; by apply lookup_upd|by rewrite length_insert].
Qed.

Section VnUpdate.
Context (f f' : funcdata) (v : nat) (x y : varnode) (U : vn_update f v x y f').

Lemma vu_readers (w : nat) : readers f' w = if decide (w = v) then descend y else readers f w.
Proof. unfold readers. rewrite (vu_vns _ _ _ _ _ U). by destruct (decide (w = v)). Qed.

Lemma vu_def_of (w : nat) : def_of f' w = if decide (w = v) then vdef y else def_of f w.
Proof. unfold def_of. rewrite (vu_vns _ _ _ _ _ U). by destruct (decide (w = v)). Qed.

Lemma vu_inputs (o : nat) : inputs f' o = inputs f o.
Proof. unfold inputs. by rewrite (vu_ops _ _ _ _ _ U). Qed.

Lemma vu_out_of (o : nat) : out_of f' o = out_of f o.
Proof. unfold out_of. by rewrite (vu_ops _ _ _ _ _ U). Qed.

Lemma vu_keeps : keeps f f'.
Proof.
  destruct U. constructor; try congruence; try lia; rewrite ?vu_ops0; [lia|eauto|].
  intros o x' Ho Hx. apply lookup_lt_Some in Hx. lia.
Qed.
End VnUpdate.

Section OpUpdate.
Context (f f' : funcdata) (o : nat) (x y : pcode_op) (U : op_update f o x y f').

Lemma ou_inputs (p : nat) : inputs f' p = if decide (p = o) then inrefs y else inputs f p.
Proof. unfold inputs. rewrite (ou_ops _ _ _ _ _ U). by destruct (decide (p = o)). Qed.

Lemma ou_out_of (p : nat) : out_of f' p = if decide (p = o) then output y else out_of f p.
Proof. unfold out_of. rewrite (ou_ops _ _ _ _ _ U). by destruct (decide (p = o)). Qed.

Lemma ou_readers (v : nat) : readers f' v = readers f v.
Proof. unfold readers. by rewrite (ou_vns _ _ _ _ _ U). Qed.

Lemma ou_def_of (v : nat) : def_of f' v = def_of f v.
Proof. unfold def_of. by rewrite (ou_vns _ _ _ _ _ U). Qed.

Lemma ou_keeps : parent y = parent x -> guarded_op y = guarded_op x -> keeps f f'.
Proof.
  intros Ep Eg. destruct U as [Hx Ho Hlen Hv Hb Hs]. constructor; try congruence; rewrite ?Hv; try lia.
  - intros p z Hz. rewrite Ho. destruct (decide (p = o)) as [->|]; [|eauto].
    exists y. rewrite Hx in Hz. injection Hz as <-. done.
  - intros p z Hp Hz. apply lookup_lt_Some in Hz. lia.
Qed.
End OpUpdate.

Lemma readers_at (f : funcdata) (v : nat) (x : varnode) : varnodes f !! v = Some x -> readers f v = descend x.
Proof. unfold readers. by intros ->. Qed.
Lemma def_of_at (f : funcdata) (v : nat) (x : varnode) : varnodes f !! v = Some x -> def_of f v = vdef x.
Proof. unfold def_of. by intros ->. Qed.
Lemma inputs_at (f : funcdata) (o : nat) (x : pcode_op) : ops f !! o = Some x -> inputs f o = inrefs x.
Proof. unfold inputs. by intros ->. Qed.
Lemma out_of_at (f : funcdata) (o : nat) (x : pcode_op) : ops f !! o = Some x -> out_of f o = output x.
Proof. unfold out_of. by intros ->. Qed.

(** ** Counting *)

Lemma count_app (a b : list nat) (x : nat) : count (a ++ b) x = (count a x + count b x)%nat.
Proof. apply count_occ_app. Qed.

Lemma count_cons (a x : nat) (l : list nat) : count (a :: l) x = ((if decide (a = x) then 1 else 0) + count l x)%nat.
Proof. unfold count. cbn. destruct (Nat.eq_dec a x), (decide (a = x)); try done; lia. Qed.

Lemma count_nil (x : nat) : count [] x = 0%nat.
Proof. done. Qed.

Lemma count_pos (l : list nat) (x : nat) : (0 < count l x)%nat <-> In x l.
Proof. unfold count. symmetry. apply count_occ_In. Qed.

Lemma count_zero (l : list nat) (x : nat) : count l x = 0%nat <-> ~ In x l.
Proof. rewrite <- count_pos. lia. Qed.

Lemma position_of_spec (x : nat) (l : list nat) :
  match position_of x l with
  | Some i => exists a b, l = a ++ x :: b /\ ~ In x a /\ i = List.length a
  | None => ~ In x l
  end.
Proof.
  unfold position_of. induction l as [|y l IH]; cbn [position]; [tauto|].
  destruct (Nat.eqb_spec x y) as [<-|Hn]; [exists [], l; split_and!; [done|intros []|done]|].
  destruct (position _ l) as [j|]; cbn.
  - destruct IH as (a & b & -> & Ha & ->). exists (y :: a), b. split; [done|]. split; [|done]. intros [|]; [congruence|done].
  - intros [|]; [congruence|done].
Qed.

Lemma remove_first_split (x : nat) (l : list nat) : In x l ->
  exists a b, l = a ++ x :: b /\ ~ In x a /\ remove_first x l = a ++ b.
Proof.
  intros Hin. pose proof (position_of_spec x l) as H. unfold remove_first. destruct (position_of x l) as [i|]; [|done].
  destruct H as (a & b & -> & Ha & ->). exists a, b. split_and!; [done|done|]. clear. induction a as [|y a IH]; cbn; [done|].
  f_equal. exact IH.
Qed.

Lemma remove_first_absent (x : nat) (l : list nat) : ~ In x l -> remove_first x l = l.
Proof.
  intros Hn. unfold remove_first. pose proof (position_of_spec x l) as H. destruct (position_of x l) as [i|]; [|done].
  destruct H as (a & b & -> & _). destruct Hn. apply in_app_iff. right. by left.
Qed.

Lemma count_remove_first (x y : nat) (l : list nat) :
  count (remove_first x l) y = (count l y - if decide (x = y) then 1 else 0)%nat.
Proof.
  destruct (in_dec Nat.eq_dec x l) as [Hin|Hn].
  - destruct (remove_first_split x l Hin) as (a & b & -> & _ & ->). rewrite !count_app, count_cons. case_decide; lia.
  - rewrite remove_first_absent by done. apply count_zero in Hn. case_decide; subst; lia.
Qed.

Lemma count_delete (l : list nat) (i x y : nat) : l !! i = Some x ->
  (count (delete i l) y + if decide (x = y) then 1 else 0)%nat = count l y.
Proof.
  intros H. rewrite <- (take_drop_middle l i x H) at 2. rewrite delete_take_drop, !count_app, count_cons. lia.
Qed.

Lemma count_insert (l : list nat) (i x z y : nat) : l !! i = Some x ->
  (count (<[i := z]> l) y + if decide (x = y) then 1 else 0)%nat = (count l y + if decide (z = y) then 1 else 0)%nat.
Proof.
  intros H. rewrite <- (take_drop_middle l i x H) at 2. pose proof (lookup_lt_Some _ _ _ H).
  rewrite insert_take_drop by lia. rewrite !count_app, !count_cons. lia.
Qed.

Lemma count_perm (l l' : list nat) (y : nat) : l ≡ₚ l' -> count l y = count l' y.
Proof. induction 1 as [|x l l' _ IH|x z l|l1 l2 l3 _ IH1 _ IH2]; rewrite ?count_cons; lia. Qed.
