(* ===== verification/FuncdataEdits.v ===== *)
(** Every primitive that edits the links runs without panic on valid arguments and leaves a graph
    whose links agree. *)
From Stdlib Require Import ZArith Lia Bool List.
From stdpp Require Import base decidable option list strings gmap numbers tactics.
From S2P Require Import Prelude Space OpCode BitUtil Funcdata FuncdataLinks.
Local Open Scope Z_scope.

(** ** Allocation *)

Definition neutral (fl : Z) : Prop := has fl WRITTEN = false /\ has fl INPUT = false /\ has fl INSERT = false.

Lemma scope_flags_neutral (sp : aspace) : neutral (scope_flags sp).
Proof. unfold neutral, scope_flags. destruct (sp_kind sp); try done. by destruct (0 <? sp_delay sp). Qed.

Definition space_known (f : funcdata) (l : address) : Prop := is_Some (sm_spaces (spaces f) !! Z.to_nat (a_space l)).

(** A value appended to the arena, without links. *)
Record appended (f : funcdata) (x : varnode) (v : nat) (f' : funcdata) : Prop := Appended {
  ap_id : v = List.length (varnodes f);
  ap_vns : varnodes f' = varnodes f ++ [x];
  ap_ops : ops f' = ops f;
  ap_blocks : blocks f' = blocks f;
  ap_spaces : spaces f' = spaces f;
  ap_readers : descend x = [];
  ap_def : vdef x = None;
}.

Lemma alloc_runs (f : funcdata) (sz : Z) (l : address) (fl : Z) : space_known f l ->
  runs (alloc_varnode f sz l fl) (fun '(v, f') => exists x sp, appended f x v f' /\
    sm_spaces (spaces f) !! Z.to_nat (a_space l) = Some sp /\ flags x = Z.lor fl (scope_flags sp) /\ size x = sz /\ loc x = l).
Proof.
  intros [sp Hsp]. unfold alloc_varnode. cbn. rewrite Hsp. cbn. eexists _, sp. split_and!; [by constructor|done..].
Qed.

Section Appended.
Context (f f' : funcdata) (x : varnode) (v : nat) (A : appended f x v f').

Lemma ap_lookup (w : nat) : varnodes f' !! w = if decide (w = v) then Some x else varnodes f !! w.
Proof.
  destruct A as [-> -> _ _ _ _ _]. destruct (decide (w = _)) as [->|Hn]; [by apply list_lookup_middle|].
  destruct (decide (w < List.length (varnodes f))%nat); [by apply lookup_app_l|].
  rewrite lookup_app_r, (lookup_ge_None_2 (varnodes f)) by lia. apply lookup_ge_None_2. cbn. lia.
Qed.

Lemma ap_old : varnodes f !! v = None.
Proof. rewrite (ap_id _ _ _ _ A). by apply lookup_ge_None_2. Qed.

Lemma ap_same_readers (w : nat) : readers f' w = readers f w.
Proof.
  unfold readers. rewrite ap_lookup. case_decide as E; [|done]. rewrite E, ap_old. cbn. apply (ap_readers _ _ _ _ A).
Qed.

Lemma ap_same_def (w : nat) : def_of f' w = def_of f w.
Proof. unfold def_of. rewrite ap_lookup. case_decide as E; [|done]. rewrite E, ap_old. cbn. apply (ap_def _ _ _ _ A). Qed.

Lemma ap_same_inputs (o : nat) : inputs f' o = inputs f o.
Proof. unfold inputs. by rewrite (ap_ops _ _ _ _ A). Qed.

Lemma ap_same_out (o : nat) : out_of f' o = out_of f o.
Proof. unfold out_of. by rewrite (ap_ops _ _ _ _ A). Qed.

Lemma ap_len : List.length (varnodes f') = S v.
Proof. rewrite (ap_vns _ _ _ _ A), length_app, (ap_id _ _ _ _ A). cbn. lia. Qed.

Lemma ap_keeps : keeps f f'.
Proof.
  destruct A. constructor; try congruence; rewrite ?ap_vns0, ?ap_ops0, ?length_app; try lia; [eauto|].
  intros o x' Ho Hx. apply lookup_lt_Some in Hx. lia.
Qed.

Lemma ap_graph : graph_ok f -> flags_ok x -> graph_ok f'.
Proof.
  intros [Hu Hd Hf] Hx. constructor.
  - intros w o. by rewrite ap_same_readers, ap_same_inputs.
  - intros w o. by rewrite ap_same_def, ap_same_out.
  - intros w y. rewrite ap_lookup. case_decide; [by intros [= <-]|apply Hf].
Qed.
End Appended.

Lemma fresh_flags (x : varnode) (fl : Z) (sp : aspace) : flags x = Z.lor fl (scope_flags sp) -> vdef x = None ->
  neutral fl \/ fl = Z.lor INPUT INSERT -> flags_ok x.
Proof.
  intros Ef Ed Hfl. destruct (scope_flags_neutral sp) as (W & I & N).
  constructor; unfold is_written, is_input; rewrite Ef, ?written_or, ?input_or, ?insert_or, ?W, ?I, ?N, ?orb_false_r, ?Ed.
  - destruct Hfl as [(-> & _ & _)| ->]; [done|]. by split; [vm_compute|].
  - destruct Hfl as [(-> & -> & ->)| ->]; [done|reflexivity].
  - done.
Qed.

Lemma alloc_graph (f : funcdata) (sz : Z) (l : address) (fl : Z) : graph_ok f -> space_known f l ->
  neutral fl \/ fl = Z.lor INPUT INSERT ->
  runs (alloc_varnode f sz l fl) (fun '(v, f') => graph_ok f' /\ keeps f f' /\ (v < List.length (varnodes f'))%nat).
Proof.
  intros G Hs Hfl. eapply runs_mono; [by apply alloc_runs|]. intros [v f'] (x & sp & A & _ & Ef & _).
  split_and!; [|by eapply ap_keeps|rewrite (ap_len _ _ _ _ A); lia].
  eapply ap_graph; [done|done|]. eapply fresh_flags; [done|apply (ap_def _ _ _ _ A)|done].
Qed.

(** ** Constants *)

(** The value to wire: the one asked for, or a fresh copy of the constant; no link changes. *)
Record wired (f : funcdata) (vid v : nat) (f' : funcdata) : Prop := Wired {
  wi_keeps : keeps f f';
  wi_ops : ops f' = ops f;
  wi_readers : forall w, readers f' w = readers f w;
  wi_def : forall w, def_of f' w = def_of f w;
  wi_graph : graph_ok f -> graph_ok f';
  wi_lt : (v < List.length (varnodes f'))%nat;
  wi_old : forall w x, varnodes f !! w = Some x -> varnodes f' !! w = Some x;
  wi_new : forall w x, varnodes f !! w = None -> varnodes f' !! w = Some x -> w = v /\ descend x = [];
  wi_same : v = vid \/ exists x y, varnodes f !! vid = Some x /\ is_constant x = true /\ varnodes f' !! v = Some y /\
    is_constant y = true /\ size y = size x /\ a_offset (loc y) = a_offset (loc x) /\ v = List.length (varnodes f);
  wi_private : forall x, varnodes f' !! v = Some x -> is_constant x = true -> is_spacebase x = false -> descend x = [];
}.

Lemma wi_inputs (f f' : funcdata) (vid v : nat) : wired f vid v f' -> forall o, inputs f' o = inputs f o.
Proof. intros W o. unfold inputs. by rewrite (wi_ops _ _ _ _ W). Qed.
Lemma wi_out (f f' : funcdata) (vid v : nat) : wired f vid v f' -> forall o, out_of f' o = out_of f o.
Proof. intros W o. unfold out_of. by rewrite (wi_ops _ _ _ _ W). Qed.

Lemma flags_ok_ext (x y : varnode) : flags y = flags x -> vdef y = vdef x -> flags_ok x -> flags_ok y.
Proof. intros Ef Ed [H1 H2 H3]. constructor; unfold is_written, is_input in *; by rewrite ?Ef, ?Ed. Qed.

(** An update that leaves the flags and the definition of a value keeps the flags consistent. *)
Lemma vu_flags (f f' : funcdata) (v : nat) (x y : varnode) : vn_update f v x y f' -> (flags_ok x -> flags_ok y) ->
  (forall w z, varnodes f !! w = Some z -> flags_ok z) -> forall w z, varnodes f' !! w = Some z -> flags_ok z.
Proof.
  intros U Hy Hf w z. rewrite (vu_vns _ _ _ _ _ U). case_decide; [|apply Hf].
  intros [= <-]. apply Hy, (Hf v), U.
Qed.

Lemma const_has (fl : Z) (sp : aspace) : has (Z.lor (Z.lor CONSTANT fl) (scope_flags sp)) CONSTANT = true.
Proof. change CONSTANT with (2 ^ Z.of_nat 1). rewrite !has_or. done. Qed.

Lemma new_const_runs (f : funcdata) (sz value : Z) : spaces_ok f ->
  runs (new_const f sz value) (fun '(v, f') => exists x sp c, appended f x v f' /\ by_name (spaces f) "const" = Some c /\
    flags x = Z.lor CONSTANT (scope_flags sp) /\ size x = sz /\ loc x = Addr c value).
Proof.
  intros [(c & Hc & Hk) _]. unfold new_const, constant_space. cbn. rewrite Hc. cbn.
  eapply runs_mono; [by apply alloc_runs|]. intros [v f'] (x & sp & A & _ & Ef & Es & El). by exists x, sp, c.
Qed.

Lemma unique_constant_runs (f : funcdata) (vid : nat) : spaces_ok f -> (vid < List.length (varnodes f))%nat ->
  runs (unique_constant_for f vid) (fun '(v, f') => wired f vid v f').
Proof.
  intros Hs Hv. destruct (lookup_lt_is_Some_2 _ _ Hv) as [x Hx]. unfold unique_constant_for. cbn. rewrite Hx. cbn.
  destruct (negb (is_constant x) || bool_decide (descend x = []) || is_spacebase x) eqn:E.
  - constructor; try done; [intros w y -> [=]|by left|]. intros y Hy Hc Hsb. rewrite Hx in Hy. injection Hy as <-. rewrite Hc, Hsb, orb_false_r in E.
    by apply bool_decide_eq_true in E.
  - apply orb_false_iff in E as [[Ec%negb_false_iff _]%orb_false_iff _].
    run_step ltac:(by apply new_const_runs). intros [cvn f1] (y & sp & c & A & _ & Ef & Esz & El).
    assert (Hy : varnodes f1 !! cvn = Some y) by (rewrite (ap_lookup _ _ _ _ A); by case_decide).
    run_step ltac:(by apply vn_mut_update). intros f2 U. cbn.
    assert (Hl : forall w, varnodes f2 !! w = if decide (w = cvn) then Some (set_ty (ty x) y) else varnodes f !! w).
    { intros w. rewrite (vu_vns _ _ _ _ _ U). case_decide; [done|]. rewrite (ap_lookup _ _ _ _ A). by case_decide. }
    constructor.
    + etrans; [by eapply ap_keeps|by eapply vu_keeps].
    + by rewrite (vu_ops _ _ _ _ _ U), (ap_ops _ _ _ _ A).
    + intros w. rewrite (vu_readers _ _ _ _ _ U). case_decide as Ew; [|by apply (ap_same_readers _ _ _ _ A)].
      rewrite Ew, <- (ap_same_readers _ _ _ _ A cvn), (readers_at _ _ _ Hy). done.
    + intros w. rewrite (vu_def_of _ _ _ _ _ U). case_decide as Ew; [|by apply (ap_same_def _ _ _ _ A)].
      rewrite Ew, <- (ap_same_def _ _ _ _ A cvn), (def_of_at _ _ _ Hy). done.
    + intros G. assert (G1 : graph_ok f1).
      { eapply ap_graph; [done|done|]. eapply fresh_flags; [done|apply (ap_def _ _ _ _ A)|]. left. by vm_compute. }
      destruct G1 as [Hu Hd Hf]. constructor.
      * intros w o. rewrite (vu_readers _ _ _ _ _ U), (vu_inputs _ _ _ _ _ U), <- Hu.
        case_decide as Ew; [by rewrite Ew, (readers_at _ _ _ Hy)|done].
      * intros w o. rewrite (vu_def_of _ _ _ _ _ U), (vu_out_of _ _ _ _ _ U), <- Hd.
        case_decide as Ew; [by rewrite Ew, (def_of_at _ _ _ Hy)|done].
      * eapply vu_flags; [done| |done]. by apply flags_ok_ext.
    + rewrite (vu_len _ _ _ _ _ U), (ap_len _ _ _ _ A). lia.
    + intros w z Hz. rewrite Hl. case_decide as Ew; [|done]. subst w. by rewrite (ap_old _ _ _ _ A) in Hz.
    + intros w z Hn. rewrite Hl. case_decide as Ew; [|by rewrite Hn]. intros [= <-]. split; [done|]. apply (ap_readers _ _ _ _ A).
    + right. exists x, (set_ty (ty x) y). rewrite Hl. case_decide; [|done]. split_and!; try done.
      * unfold is_constant. cbn. rewrite Ef. apply (const_has 0).
      * cbn. by rewrite El.
      * apply (ap_id _ _ _ _ A).
    + intros z. rewrite Hl. case_decide; [|done]. intros [= <-] _ _. apply (ap_readers _ _ _ _ A).
Qed.

(** ** Joining and leaving lists of readers *)

Definition one (v o w p : nat) : nat := if decide (w = v /\ p = o) then 1 else 0.

(** What a change of lists of readers alone leaves alone. *)
Record readers_only (f f' : funcdata) : Prop := ReadersOnly {
  ro_ops : ops f' = ops f;
  ro_len : List.length (varnodes f') = List.length (varnodes f);
  ro_keeps : keeps f f';
  ro_def : forall w, def_of f' w = def_of f w;
  ro_vns : forall w x', varnodes f' !! w = Some x' -> exists x, varnodes f !! w = Some x /\ flags x' = flags x /\ vdef x' = vdef x;
}.

#[export] Instance readers_only_refl : Reflexive readers_only.
Proof. intros f. constructor; try done. eauto. Qed.

#[export] Instance readers_only_trans : Transitive readers_only.
Proof.
  intros f g h [] []. constructor; try congruence; [by etrans|].
  intros w x Hx. destruct (ro_vns1 w x Hx) as (y & Hy & E1 & E2). destruct (ro_vns0 w y Hy) as (z & Hz & E3 & E4).
  exists z. split_and!; [done|congruence..].
Qed.

Lemma ro_inputs (f f' : funcdata) : readers_only f f' -> forall o, inputs f' o = inputs f o.
Proof. intros R o. unfold inputs. by rewrite (ro_ops _ _ R). Qed.
Lemma ro_out (f f' : funcdata) : readers_only f f' -> forall o, out_of f' o = out_of f o.
Proof. intros R o. unfold out_of. by rewrite (ro_ops _ _ R). Qed.

Lemma vu_readers_only (f f' : funcdata) (v : nat) (x : varnode) (d : list nat) :
  vn_update f v x (set_descend d x) f' -> readers_only f f'.
Proof.
  intros U. constructor; [apply U|apply U|by eapply vu_keeps| |].
  - intros w. rewrite (vu_def_of _ _ _ _ _ U). case_decide as E; [|done]. by rewrite E, (def_of_at _ _ _ (vu_at _ _ _ _ _ U)).
  - intros w y. rewrite (vu_vns _ _ _ _ _ U). case_decide as E; [|eauto]. intros [= <-]. exists x. rewrite E. split_and!; [apply U|done|done].
Qed.

Lemma attach_runs (f : funcdata) (op v : nat) : (v < List.length (varnodes f))%nat ->
  runs (attach f op v) (fun f' => readers_only f f' /\
    forall w p, count (readers f' w) p = (count (readers f w) p + one v op w p)%nat).
Proof.
  intros Hv. destruct (lookup_lt_is_Some_2 _ _ Hv) as [x Hx]. unfold attach. eapply runs_mono; [by apply vn_mut_update|].
  intros f' U. split; [by eapply vu_readers_only|]. intros w p. rewrite (vu_readers _ _ _ _ _ U). unfold one.
  destruct (decide (w = v)) as [->|]; [|rewrite decide_False by tauto; lia].
  cbn [descend set_descend]. rewrite (readers_at _ _ _ Hx), count_app, count_cons, count_nil.
  destruct (decide (op = p)), (decide (v = v /\ p = op)); intuition lia.
Qed.

Lemma detach_runs (f : funcdata) (op v : nat) : (v < List.length (varnodes f))%nat ->
  runs (detach f op v) (fun f' => readers_only f f' /\
    forall w p, count (readers f' w) p = (count (readers f w) p - one v op w p)%nat).
Proof.
  intros Hv. destruct (lookup_lt_is_Some_2 _ _ Hv) as [x Hx]. unfold detach. eapply runs_mono; [by apply vn_mut_update|].
  intros f' U. split; [by eapply vu_readers_only|]. intros w p. rewrite (vu_readers _ _ _ _ _ U). unfold one.
  destruct (decide (w = v)) as [->|]; [|rewrite decide_False by tauto; lia].
  cbn [descend set_descend]. rewrite (readers_at _ _ _ Hx), count_remove_first.
  destruct (decide (op = p)), (decide (v = v /\ p = op)); intuition lia.
Qed.

(** A whole list of values. *)
Definition ones (l : list nat) (o w p : nat) : nat := if decide (p = o) then count l w else 0.

Lemma ones_cons (v : nat) (l : list nat) (o w p : nat) : ones (v :: l) o w p = (one v o w p + ones l o w p)%nat.
Proof.
  unfold ones, one. destruct (decide (p = o)) as [->|]; [|by rewrite decide_False by tauto].
  rewrite count_cons. destruct (decide (v = w)), (decide (w = v /\ o = o)); intuition lia.
Qed.

Definition in_arena (f : funcdata) (l : list nat) : Prop := List.Forall (fun v => (v < List.length (varnodes f))%nat) l.

Lemma attach_all_runs (f : funcdata) (op : nat) (l : list nat) : in_arena f l ->
  runs (fold_opt (fun f v => attach f op v) l f) (fun f' => readers_only f f' /\
    forall w p, count (readers f' w) p = (count (readers f w) p + ones l op w p)%nat).
Proof.
  revert f. induction l as [|v l IH]; intros f Hl; cbn [fold_opt].
  - split; [done|]. intros w p. unfold ones. rewrite count_nil. case_decide; lia.
  - inversion Hl as [|? ? Hv Hl']; subst. run_step ltac:(by apply attach_runs). intros f1 [R1 C1].
    eapply runs_mono; [apply IH; unfold in_arena; by rewrite (ro_len _ _ R1)|]. intros f2 [R2 C2].
    split; [by etrans|]. intros w p. rewrite C2, C1, ones_cons. lia.
Qed.

Lemma detach_all_runs (f : funcdata) (op : nat) (l : list nat) : in_arena f l ->
  runs (fold_opt (fun f v => detach f op v) l f) (fun f' => readers_only f f' /\
    forall w p, count (readers f' w) p = (count (readers f w) p - ones l op w p)%nat).
Proof.
  revert f. induction l as [|v l IH]; intros f Hl; cbn [fold_opt].
  - split; [done|]. intros w p. unfold ones. rewrite count_nil. case_decide; lia.
  - inversion Hl as [|? ? Hv Hl']; subst. run_step ltac:(by apply detach_runs). intros f1 [R1 C1].
    eapply runs_mono; [apply IH; unfold in_arena; by rewrite (ro_len _ _ R1)|]. intros f2 [R2 C2].
    split; [by etrans|]. intros w p. rewrite C2, C1, ones_cons. lia.
Qed.

(** ** Inputs *)

Lemma graph_in_arena (f : funcdata) (o : nat) : graph_ok f -> in_arena f (inputs f o).
Proof.
  intros G. apply List.Forall_forall. intros v Hv. apply count_pos in Hv. rewrite <- (go_use _ G) in Hv.
  unfold readers in Hv. destruct (varnodes f !! v) eqn:E; [by eapply lookup_lt_Some|cbn in Hv; lia].
Qed.

Lemma graph_readers_lt (f : funcdata) (v o : nat) : graph_ok f -> In o (readers f v) -> (o < List.length (ops f))%nat.
Proof.
  intros G Ho. apply count_pos in Ho. rewrite (go_use _ G) in Ho. unfold inputs in Ho.
  destruct (ops f !! o) eqn:E; [by eapply lookup_lt_Some|cbn in Ho; lia].
Qed.

(** The definitions and the flags survive whatever changes readers and inputs only. *)
Lemma graph_rewired (f f' : funcdata) : graph_ok f ->
  (forall w, def_of f' w = def_of f w) -> (forall o, out_of f' o = out_of f o) ->
  (forall w x', varnodes f' !! w = Some x' -> exists x, varnodes f !! w = Some x /\ flags x' = flags x /\ vdef x' = vdef x) ->
  (forall v o, count (readers f' v) o = count (inputs f' o) v) -> graph_ok f'.
Proof.
  intros [_ Hd Hf] Ed Eo Ev Hu. constructor; [done|intros w o; by rewrite Ed, Eo|].
  intros w x' Hx. destruct (Ev w x' Hx) as (x & Hx0 & E1 & E2). eapply flags_ok_ext; [done|done|by eapply Hf].
Qed.

(** An update of the inputs of one operation. *)
Record inputs_set (f : funcdata) (op : nat) (l : list nat) (f' : funcdata) : Prop := InputsSet {
  is_vns : varnodes f' = varnodes f;
  is_inputs : forall p, inputs f' p = if decide (p = op) then l else inputs f p;
  is_out : forall p, out_of f' p = out_of f p;
  is_keeps : keeps f f';
  is_len : List.length (ops f') = List.length (ops f);
}.

Lemma set_inputs_runs (f : funcdata) (op : nat) (x : pcode_op) (g : pcode_op -> pcode_op) (l : list nat) :
  ops f !! op = Some x -> g x = set_inrefs l x -> runs (op_mut f op g) (inputs_set f op l).
Proof.
  intros Hx Eg. eapply runs_mono; [by apply op_mut_update|]. intros f' U. rewrite Eg in U. constructor.
  - apply U.
  - intros p. by rewrite (ou_inputs _ _ _ _ _ U).
  - intros p. rewrite (ou_out_of _ _ _ _ _ U). case_decide as E; [|done]. by rewrite E, (out_of_at _ _ _ Hx).
  - by eapply ou_keeps.
  - apply U.
Qed.

(** What a link edit establishes: the links agree, the arenas keep their nodes. *)
Definition edited (f f' : funcdata) : Prop := graph_ok f' /\ keeps f f'.

Lemma is_readers (f f' : funcdata) (op : nat) (l : list nat) : inputs_set f op l f' -> forall v, readers f' v = readers f v.
Proof. intros I v. unfold readers. by rewrite (is_vns _ _ _ _ I). Qed.
Lemma is_def (f f' : funcdata) (op : nat) (l : list nat) : inputs_set f op l f' -> forall v, def_of f' v = def_of f v.
Proof. intros I v. unfold def_of. by rewrite (is_vns _ _ _ _ I). Qed.

(** Everything but the counts of an edit made of reader and input updates on one operation. *)
Record reinput (f : funcdata) (op : nat) (l : list nat) (f' : funcdata) : Prop := Reinput {
  ri_inputs : forall p, inputs f' p = if decide (p = op) then l else inputs f p;
  ri_out : forall p, out_of f' p = out_of f p;
  ri_def : forall w, def_of f' w = def_of f w;
  ri_vns : forall w x', varnodes f' !! w = Some x' -> exists x, varnodes f !! w = Some x /\ flags x' = flags x /\ vdef x' = vdef x;
  ri_keeps : keeps f f';
  ri_len : List.length (varnodes f') = List.length (varnodes f);
}.

Lemma ri_after (f f1 f' : funcdata) (op : nat) (l : list nat) : readers_only f f1 -> reinput f1 op l f' -> reinput f op l f'.
Proof.
  intros R I. constructor.
  - intros p. by rewrite (ri_inputs _ _ _ _ I), (ro_inputs _ _ R).
  - intros p. by rewrite (ri_out _ _ _ _ I), (ro_out _ _ R).
  - intros p. by rewrite (ri_def _ _ _ _ I), (ro_def _ _ R).
  - intros w x Hx. destruct (ri_vns _ _ _ _ I w x Hx) as (y & Hy & E1 & E2). destruct (ro_vns _ _ R w y Hy) as (z & Hz & E3 & E4).
    exists z. split_and!; [done|congruence..].
  - etrans; [apply R|apply I].
  - rewrite (ri_len _ _ _ _ I). apply R.
Qed.

Lemma ri_before (f f1 f' : funcdata) (op : nat) (l : list nat) : reinput f op l f1 -> readers_only f1 f' -> reinput f op l f'.
Proof.
  intros I R. constructor.
  - intros p. by rewrite (ro_inputs _ _ R), (ri_inputs _ _ _ _ I).
  - intros p. by rewrite (ro_out _ _ R), (ri_out _ _ _ _ I).
  - intros p. by rewrite (ro_def _ _ R), (ri_def _ _ _ _ I).
  - intros w x Hx. destruct (ro_vns _ _ R w x Hx) as (y & Hy & E1 & E2). destruct (ri_vns _ _ _ _ I w y Hy) as (z & Hz & E3 & E4).
    exists z. split_and!; [done|congruence..].
  - etrans; [apply I|apply R].
  - rewrite (ro_len _ _ R). apply I.
Qed.

Lemma ri_set (f f' : funcdata) (op : nat) (l : list nat) : inputs_set f op l f' -> reinput f op l f'.
Proof.
  intros I. constructor; [apply I|apply I|by eapply is_def| |apply I|by rewrite (is_vns _ _ _ _ I)].
  intros w x. rewrite (is_vns _ _ _ _ I). eauto.
Qed.

Lemma ri_graph (f f' : funcdata) (op : nat) (l : list nat) : graph_ok f -> reinput f op l f' ->
  (forall v o, count (readers f' v) o = count (inputs f' o) v) -> graph_ok f'.
Proof. intros G I. apply (graph_rewired f); [done|apply I..]. Qed.

Lemma one_here (v o : nat) : one v o v o = 1%nat.
Proof. unfold one. by rewrite decide_True. Qed.
Lemma one_else (v o w p : nat) : ~ (w = v /\ p = o) -> one v o w p = 0%nat.
Proof. intros. unfold one. by rewrite decide_False. Qed.

(** Case analysis on [one]. *)
Ltac ones_cases := unfold one in *; repeat case_decide; subst; try tauto; try lia.

Section Inputs.
Context (f : funcdata) (op : nat) (x : pcode_op).
Context (G : graph_ok f) (Hs : spaces_ok f) (Hx : ops f !! op = Some x).

Lemma use_at (v : nat) : count (readers f v) op = count (inrefs x) v.
Proof. by rewrite (go_use _ G), (inputs_at _ _ _ Hx). Qed.

Lemma input_lt (slot v : nat) : inrefs x !! slot = Some v -> (v < List.length (varnodes f))%nat.
Proof.
  intros H. pose proof (graph_in_arena f op G) as Ha. rewrite (inputs_at _ _ _ Hx) in Ha. unfold in_arena in Ha.
  rewrite List.Forall_forall in Ha. apply Ha. by eapply list_elem_of_In, list_elem_of_lookup_2.
Qed.

Lemma op_set_input_edit (slot vid old : nat) : inrefs x !! slot = Some old -> (vid < List.length (varnodes f))%nat ->
  runs (op_set_input f op slot vid) (fun f' => edited f f' /\
    ((old = vid /\ f' = f) \/ (old <> vid /\ exists v f1, wired f vid v f1 /\ reinput f1 op (<[slot := v]> (inrefs x)) f'))).
Proof.
  intros Hold Hvid. unfold op_set_input. cbn. rewrite Hx. cbn. rewrite Hold. cbn. destruct (Nat.eqb_spec old vid) as [->|Hne].
  { split; [by split|by left]. }
  run_step ltac:(by apply unique_constant_runs). intros [v f1] W. pose proof (wi_graph _ _ _ _ W G) as G1.
  assert (Hx1 : ops f1 !! op = Some x) by by rewrite (wi_ops _ _ _ _ W).
  pose proof (input_lt slot old Hold) as Hlt. pose proof (k_nv _ _ (wi_keeps _ _ _ _ W)) as Hnv.
  run_step ltac:(apply detach_runs; lia). intros f2 [R2 C2].
  run_step ltac:(eapply set_inputs_runs; [by rewrite (ro_ops _ _ R2)|reflexivity]). intros f3 I3.
  eapply runs_mono; [apply attach_runs; rewrite (is_vns _ _ _ _ I3), (ro_len _ _ R2); apply W|]. intros f4 [R4 C4].
  assert (RI : reinput f1 op (<[slot := v]> (inrefs x)) f4) by (eapply ri_before; [eapply ri_after; [done|by apply ri_set]|done]).
  split; [split|right; split; [done|by exists v, f1]].
  - eapply ri_graph; [exact G1|exact RI|]. intros w o. rewrite C4, (is_readers _ _ _ _ I3), C2, (ri_inputs _ _ _ _ RI), (go_use _ G1).
    case_decide as Eo; [|rewrite !one_else by tauto; lia]. subst o. rewrite (inputs_at _ _ _ Hx1).
    pose proof (count_insert (inrefs x) slot old v w Hold) as Hci. pose proof (count_delete (inrefs x) slot old w Hold).
    ones_cases.
  - etrans; [apply W|apply RI].
Qed.

(** Adding one input after the value to wire has been chosen. *)
Lemma add_input_edit (f1 : funcdata) (vid v : nat) (g : pcode_op -> pcode_op) (l : list nat) : wired f vid v f1 ->
  g x = set_inrefs l x -> (forall w, count l w = (count (inrefs x) w + if decide (v = w) then 1 else 0)%nat) ->
  runs (f ← op_mut f1 op g; attach f op v) (fun f' => edited f f' /\ reinput f1 op l f').
Proof.
  intros W Eg Hl. pose proof (wi_graph _ _ _ _ W G) as G1.
  assert (Hx1 : ops f1 !! op = Some x) by by rewrite (wi_ops _ _ _ _ W).
  run_step ltac:(by eapply set_inputs_runs). intros f3 I3.
  eapply runs_mono; [apply attach_runs; rewrite (is_vns _ _ _ _ I3); apply W|]. intros f4 [R4 C4].
  assert (RI : reinput f1 op l f4) by (eapply ri_before; [by apply ri_set|done]). split; [split|done].
  - eapply ri_graph; [exact G1|exact RI|]. intros w o. rewrite C4, (is_readers _ _ _ _ I3), (ri_inputs _ _ _ _ RI), (go_use _ G1).
    case_decide as Eo; [|rewrite one_else by tauto; lia]. subst o. rewrite (inputs_at _ _ _ Hx1), Hl. ones_cases.
  - etrans; [apply W|apply RI].
Qed.

Lemma op_insert_input_edit (slot vid : nat) : (slot <= List.length (inrefs x))%nat -> (vid < List.length (varnodes f))%nat ->
  runs (op_insert_input f op slot vid) (fun f' => edited f f' /\ exists v f1, wired f vid v f1 /\
    reinput f1 op (take slot (inrefs x) ++ v :: drop slot (inrefs x)) f').
Proof.
  intros Hslot Hvid. unfold op_insert_input. run_step ltac:(by apply unique_constant_runs). intros [v f1] W. cbn.
  rewrite (wi_ops _ _ _ _ W), Hx. cbn. unfold vec_insert. rewrite (proj2 (Nat.leb_le _ _) Hslot). cbn.
  eapply runs_mono; [eapply (add_input_edit f1 vid v); [done|reflexivity|]|].
  - intros w. rewrite <- (take_drop slot (inrefs x)) at 3. rewrite !count_app, count_cons. lia.
  - intros f' [E RI]. split; [done|]. by exists v, f1.
Qed.

Lemma op_append_input_edit (vid : nat) : (vid < List.length (varnodes f))%nat ->
  runs (op_append_input f op vid) (fun f' => edited f f' /\ exists v f1, wired f vid v f1 /\ reinput f1 op (inrefs x ++ [v]) f').
Proof.
  intros Hvid. unfold op_append_input. run_step ltac:(by apply unique_constant_runs). intros [v f1] W.
  eapply runs_mono; [eapply (add_input_edit f1 vid v); [done|reflexivity|]|].
  - intros w. rewrite count_app, count_cons, count_nil. lia.
  - intros f' [E RI]. split; [done|]. by exists v, f1.
Qed.

Lemma op_remove_input_edit (slot v : nat) : inrefs x !! slot = Some v ->
  runs (op_remove_input f op slot) (fun f' => edited f f' /\ reinput f op (delete slot (inrefs x)) f').
Proof.
  intros Hv. unfold op_remove_input. cbn. rewrite Hx. cbn. rewrite Hv. cbn.
  run_step ltac:(by eapply set_inputs_runs). intros f1 I1. pose proof (input_lt slot v Hv).
  eapply runs_mono; [apply detach_runs; by rewrite (is_vns _ _ _ _ I1)|]. intros f2 [R2 C2].
  assert (RI : reinput f op (delete slot (inrefs x)) f2) by (eapply ri_before; [by apply ri_set|done]). split; [split|done].
  - eapply ri_graph; [exact G|exact RI|]. intros w o. rewrite C2, (is_readers _ _ _ _ I1), (ri_inputs _ _ _ _ RI), (go_use _ G).
    case_decide as Eo; [|rewrite one_else by tauto; lia]. subst o. rewrite (inputs_at _ _ _ Hx).
    pose proof (count_delete (inrefs x) slot v w Hv). ones_cases.
  - apply RI.
Qed.

Lemma op_swap_input_edit (i j a b : nat) : inrefs x !! i = Some a -> inrefs x !! j = Some b ->
  runs (op_swap_input f op i j) (fun f' => edited f f' /\ reinput f op (<[j := a]> (<[i := b]> (inrefs x))) f').
Proof.
  intros Ha Hb. unfold op_swap_input. cbn. rewrite Hx. cbn. rewrite Ha. cbn. rewrite Hb. cbn.
  eapply runs_mono; [by eapply set_inputs_runs|]. intros f' I. pose proof (ri_set _ _ _ _ I) as RI. split; [split|done].
  - eapply ri_graph; [exact G|exact RI|]. intros w o. rewrite (is_readers _ _ _ _ I), (ri_inputs _ _ _ _ RI), (go_use _ G).
    case_decide as Eo; [|done]. subst o. rewrite (inputs_at _ _ _ Hx).
    pose proof (count_insert (inrefs x) i a b w Ha) as H1.
    assert (Hj : <[i := b]> (inrefs x) !! j = Some b).
    { destruct (decide (j = i)) as [->|]; [apply list_lookup_insert_eq; by eapply lookup_lt_Some|by rewrite list_lookup_insert_ne]. }
    pose proof (count_insert _ j b a w Hj). lia.
  - apply RI.
Qed.

Lemma release_inputs_edit : runs (release_inputs f op) (fun f' => edited f f' /\ reinput f op [] f').
Proof.
  unfold release_inputs. cbn. rewrite Hx. cbn. run_step ltac:(by eapply set_inputs_runs). intros f1 I1.
  eapply runs_mono; [apply detach_all_runs|].
  { pose proof (graph_in_arena f op G) as Ha. rewrite (inputs_at _ _ _ Hx) in Ha. unfold in_arena in *. by rewrite (is_vns _ _ _ _ I1). }
  intros f2 [R2 C2]. assert (RI : reinput f op [] f2) by (eapply ri_before; [by apply ri_set|done]). split; [split|done].
  - eapply ri_graph; [exact G|exact RI|]. intros w o. rewrite C2, (is_readers _ _ _ _ I1), (ri_inputs _ _ _ _ RI), (go_use _ G).
    unfold ones. case_decide as Eo; [|lia]. subst o. rewrite (inputs_at _ _ _ Hx), count_nil. lia.
  - apply RI.
Qed.
End Inputs.

(** ** New operations *)

(** The values to wire for a list of inputs. *)
Record wired_all (f : funcdata) (vids vs : list nat) (f' : funcdata) : Prop := WiredAll {
  wa_keeps : keeps f f';
  wa_ops : ops f' = ops f;
  wa_readers : forall w, readers f' w = readers f w;
  wa_def : forall w, def_of f' w = def_of f w;
  wa_graph : graph_ok f -> graph_ok f';
  wa_lt : in_arena f' vs;
  wa_length : List.length vs = List.length vids;
}.

Lemma in_arena_keeps (f f' : funcdata) (l : list nat) : keeps f f' -> in_arena f l -> in_arena f' l.
Proof. intros K. apply List.Forall_impl. intros v Hv. pose proof (k_nv _ _ K). lia. Qed.

Lemma unique_constants_runs (f : funcdata) (vids : list nat) : spaces_ok f -> in_arena f vids ->
  runs (unique_constants f vids) (fun '(vs, f') => wired_all f vids vs f').
Proof.
  revert f. induction vids as [|v vids IH]; intros f Hs Hv; cbn [unique_constants].
  - by constructor.
  - inversion Hv as [|? ? Hlt Hv']; subst. run_step ltac:(by apply unique_constant_runs). intros [v1 f1] W.
    pose proof (wi_keeps _ _ _ _ W) as K1. run_step ltac:(apply IH; [by eapply spaces_ok_keeps|by eapply in_arena_keeps]).
    intros [vs f2] W2. cbn. constructor.
    + etrans; [done|apply W2].
    + by rewrite (wa_ops _ _ _ _ W2), (wi_ops _ _ _ _ W).
    + intros w. by rewrite (wa_readers _ _ _ _ W2), (wi_readers _ _ _ _ W).
    + intros w. by rewrite (wa_def _ _ _ _ W2), (wi_def _ _ _ _ W).
    + intros G. apply W2. by apply (wi_graph _ _ _ _ W).
    + constructor; [|apply W2]. pose proof (wi_lt _ _ _ _ W). pose proof (k_nv _ _ (wa_keeps _ _ _ _ W2)). lia.
    + cbn. f_equal. apply W2.
Qed.

(** An operation appended to the arena, in no block and without output. *)
Record op_added (f : funcdata) (id : nat) (l : list nat) (f' : funcdata) : Prop := OpAdded {
  oa_id : id = List.length (ops f);
  oa_len : List.length (ops f') = S id;
  oa_inputs : forall p, inputs f' p = if decide (p = id) then l else inputs f p;
  oa_out : forall p, out_of f' p = out_of f p;
  oa_at : exists x, ops f' !! id = Some x /\ inrefs x = l /\ output x = None /\ parent x = None;
  oa_arena : in_arena f' l;
}.

Lemma new_op_edit (f : funcdata) (c : opcode) (seq : seq_num) (vids : list nat) : graph_ok f -> spaces_ok f -> in_arena f vids ->
  runs (new_op f c seq vids) (fun '(id, f') => edited f f' /\ exists vs, op_added f id vs f' /\ List.length vs = List.length vids).
Proof.
  intros G Hs Hv. unfold new_op. run_step ltac:(by apply unique_constants_runs). intros [vs f1] W.
  set (id := List.length (ops f)). run_step ltac:(apply attach_all_runs; apply W). intros f2 [R2 C2]. cbn.
  assert (Ho : ops f2 = ops f) by by rewrite (ro_ops _ _ R2), (wa_ops _ _ _ _ W).
  set (x := PcodeOp c 0 seq None None vs None). set (f3 := with_ops f2 (ops f2 ++ [x])).
  assert (Hl : forall p, ops f3 !! p = if decide (p = id) then Some x else ops f !! p).
  { intros p. cbn. rewrite Ho. destruct (decide (p = id)) as [->|Hn]; [by apply list_lookup_middle|].
    destruct (decide (p < id)%nat); [by apply lookup_app_l|]. rewrite lookup_app_r, (lookup_ge_None_2 (ops f)) by (unfold id in *; lia).
    apply lookup_ge_None_2. cbn. unfold id in *. lia. }
  assert (Hid : ops f !! id = None) by by apply lookup_ge_None_2.
  assert (Hin : forall p, inputs f3 p = if decide (p = id) then vs else inputs f p) by (intros p; unfold inputs; rewrite Hl; by case_decide).
  assert (Hout : forall p, out_of f3 p = out_of f p).
  { intros p. unfold out_of. rewrite Hl. case_decide as E; [|done]. by rewrite E, Hid. }
  assert (Hvns : varnodes f3 = varnodes f2) by done.
  assert (Ha : in_arena f3 vs) by (unfold in_arena; rewrite Hvns, (ro_len _ _ R2); apply W).
  assert (K3 : keeps f2 f3).
  { constructor; try done; cbn; rewrite ?length_app; try lia.
    - intros o y Hy. exists y. by rewrite (lookup_app_l_Some _ _ _ _ Hy).
    - intros o y Hlt Hy. rewrite lookup_app_r in Hy by done. apply list_lookup_singleton_Some in Hy as [_ <-]. done. }
  split; [split|].
  - pose proof (wa_graph _ _ _ _ W G) as [Hu Hd Hf]. constructor.
    + intros w o. change (readers f3 w) with (readers f2 w). rewrite C2, (wa_readers _ _ _ _ W), Hin. unfold ones.
      rewrite (go_use _ G). case_decide as E; [|lia]. subst o. unfold inputs. rewrite Hid. cbn. lia.
    + intros w o. change (def_of f3 w) with (def_of f2 w). by rewrite (ro_def _ _ R2), (wa_def _ _ _ _ W), Hout, (go_def _ G).
    + intros w y Hy. change (varnodes f3) with (varnodes f2) in Hy. destruct (ro_vns _ _ R2 w y Hy) as (z & Hz & E1 & E2).
      eapply flags_ok_ext; [done|done|by eapply Hf].
  - etrans; [apply W|]. etrans; [apply R2|done].
  - exists vs. split; [|apply W]. constructor; [done| |done|done| |done].
    + cbn. rewrite length_app, Ho. cbn. unfold id. lia.
    + exists x. rewrite Hl. by case_decide.
Qed.

(** ** Outputs *)

Section Outputs.
Context (f : funcdata) (op : nat) (x : pcode_op) (G : graph_ok f) (Hx : ops f !! op = Some x).

Lemma output_at (v : nat) : output x = Some v -> exists y, varnodes f !! v = Some y /\ vdef y = Some op.
Proof.
  intros Ho. pose proof (proj2 (go_def _ G v op)) as H. rewrite (out_of_at _ _ _ Hx) in H. specialize (H Ho). unfold def_of in H.
  destruct (varnodes f !! v) as [y|]; [by exists y|done].
Qed.
End Outputs.

(** The outcome of detaching the output of an operation. *)
Record unlinked (f : funcdata) (op : nat) (f' : funcdata) : Prop := Unlinked {
  ul_keeps : keeps f f';
  ul_inputs : forall p, inputs f' p = inputs f p;
  ul_readers : forall w, readers f' w = readers f w;
  ul_out : forall p, out_of f' p = if decide (p = op) then None else out_of f p;
  ul_def : forall w, def_of f' w = if decide (out_of f op = Some w) then None else def_of f w;
  ul_flags : forall w y, varnodes f' !! w = Some y -> flags_ok y;
  ul_len : List.length (varnodes f') = List.length (varnodes f);
  ul_nops : List.length (ops f') = List.length (ops f);
  ul_input : forall w y', varnodes f' !! w = Some y' -> is_input y' = true -> exists y, varnodes f !! w = Some y /\ is_input y = true;
}.

Lemma unlinked_graph (f f' : funcdata) (op : nat) : graph_ok f -> unlinked f op f' -> graph_ok f'.
Proof.
  intros G U. constructor; [intros w o; rewrite (ul_readers _ _ _ U), (ul_inputs _ _ _ U); apply G| |apply U].
  intros w o. rewrite (ul_def _ _ _ U), (ul_out _ _ _ U). pose proof (go_def _ G w o) as Hd. pose proof (go_def _ G w op) as Hdo.
  case_decide as E1; case_decide as E2; subst; try done.
  - split; [done|]. intros Ho. apply Hdo in E1. apply Hd in Ho. rewrite Ho in E1. by injection E1.
  - split; [|done]. intros Ho. by apply Hd in Ho.
Qed.

(** Clearing the link flags of a value without definition. *)
Lemma cleared_flags_ok (y : varnode) (m : Z) (g : varnode -> varnode) : has m WRITTEN = true -> has m INPUT = true -> has m INSERT = true ->
  (forall z, flags (g z) = flags z) -> flags_ok (set_flags (clear (flags y) m) (set_vdef None (g y))).
Proof.
  intros Hw Hi Hn Hg. constructor; unfold is_written, is_input; cbn; rewrite ?written_clear, ?input_clear, ?insert_clear, ?Hw, ?Hi, ?Hn, ?andb_false_r; done.
Qed.

Lemma unlink_runs (f : funcdata) (op : nat) (x : pcode_op) (m : Z) (g : varnode -> varnode) : graph_ok f -> ops f !! op = Some x ->
  has m WRITTEN = true -> has m INPUT = true -> has m INSERT = true -> (forall z, flags (g z) = flags z /\ descend (g z) = descend z) ->
  runs (match output x with
        | None => Some f
        | Some old => f ← op_mut f op (set_output None);
                      vn_mut f old (fun v => set_flags (clear (flags v) m) (set_vdef None (g v)))
        end) (unlinked f op).
Proof.
  intros G Hx Hw Hi Hn Hg. destruct (output x) as [old|] eqn:Eo; cycle 1.
  { constructor; try done; [| | |eauto].
    - intros p. case_decide as E; [|done]. by rewrite E, (out_of_at _ _ _ Hx).
    - intros w. rewrite (out_of_at _ _ _ Hx), Eo. by case_decide.
    - apply G. }
  destruct (output_at f op x G Hx old Eo) as (y & Hy & Ey).
  run_step ltac:(by apply op_mut_update). intros f1 U1.
  eapply runs_mono; [eapply vn_mut_update; by rewrite (ou_vns _ _ _ _ _ U1)|]. intros f2 U2. constructor.
  - etrans; [by eapply ou_keeps|by eapply vu_keeps].
  - intros p. rewrite (vu_inputs _ _ _ _ _ U2), (ou_inputs _ _ _ _ _ U1). case_decide as E; [|done]. by rewrite E, (inputs_at _ _ _ Hx).
  - intros w. rewrite (vu_readers _ _ _ _ _ U2), (ou_readers _ _ _ _ _ U1). case_decide as E; [|done].
    rewrite E, (readers_at _ _ _ Hy). cbn. apply Hg.
  - intros p. rewrite (vu_out_of _ _ _ _ _ U2), (ou_out_of _ _ _ _ _ U1). by case_decide.
  - intros w. rewrite (vu_def_of _ _ _ _ _ U2), (ou_def_of _ _ _ _ _ U1), (out_of_at _ _ _ Hx), Eo.
    case_decide as E; [by rewrite decide_True by congruence|by rewrite decide_False by congruence].
  - intros w z. rewrite (vu_vns _ _ _ _ _ U2), (ou_vns _ _ _ _ _ U1). case_decide; [|apply G].
    intros [= <-]. apply cleared_flags_ok; try done. intros z'. apply Hg.
  - by rewrite (vu_len _ _ _ _ _ U2), (ou_vns _ _ _ _ _ U1).
  - by rewrite (vu_ops _ _ _ _ _ U2), (ou_len _ _ _ _ _ U1).
  - intros w z. rewrite (vu_vns _ _ _ _ _ U2), (ou_vns _ _ _ _ _ U1). case_decide; [|eauto].
    intros [= <-]. unfold is_input. cbn. by rewrite input_clear, Hi, andb_false_r.
Qed.

Lemma unset_output_runs (f : funcdata) (op : nat) : graph_ok f -> (op < List.length (ops f))%nat ->
  runs (unset_output f op) (unlinked f op).
Proof.
  intros G Ho. destruct (lookup_lt_is_Some_2 _ _ Ho) as [x Hx]. unfold unset_output. cbn. rewrite Hx. cbn.
  apply (unlink_runs f op x FREED id G Hx); by vm_compute.
Qed.

(** The links agree, whatever the flags say. *)
Definition links_ok (f : funcdata) : Prop :=
  (forall v o, count (readers f v) o = count (inputs f o) v) /\ (forall v o, def_of f v = Some o <-> out_of f o = Some v).

Lemma graph_links (f : funcdata) : graph_ok f -> links_ok f.
Proof. intros [? ? ?]. by split. Qed.

(** A free value becomes the output of an operation that has none. *)
Lemma linked_graph (f f' : funcdata) (v op : nat) : links_ok f -> def_of f v = None -> out_of f op = None ->
  (forall w, readers f' w = readers f w) -> (forall p, inputs f' p = inputs f p) ->
  (forall w, def_of f' w = if decide (w = v) then Some op else def_of f w) ->
  (forall p, out_of f' p = if decide (p = op) then Some v else out_of f p) ->
  (forall w y, varnodes f' !! w = Some y -> flags_ok y) -> graph_ok f'.
Proof.
  intros [Lu Ld] Hv Hop Hr Hi Hd Ho Hf. constructor; [intros w o; rewrite Hr, Hi; apply Lu| |done].
  intros w p. rewrite Hd, Ho. case_decide as E1; case_decide as E2; subst; [by split|split; [congruence|]|split; [|congruence]|apply Ld].
  - intros H. apply Ld in H. congruence.
  - intros H. apply Ld in H. congruence.
Qed.

Lemma written_flags_ok (x : varnode) (sp : aspace) (op : nat) : flags x = Z.lor (Z.lor WRITTEN INSERT) (scope_flags sp) ->
  flags_ok (set_vdef (Some op) x).
Proof.
  intros Ef. destruct (scope_flags_neutral sp) as (W & I & N).
  constructor; unfold is_written, is_input; cbn; rewrite Ef, ?written_or, ?input_or, ?insert_or, ?W, ?I, ?N, ?orb_false_r; by vm_compute.
Qed.

Lemma new_output_edit (f : funcdata) (op : nat) (sz : Z) (l : address) : graph_ok f -> (op < List.length (ops f))%nat -> space_known f l ->
  runs (new_output f op sz l) (fun '(v, f') => edited f f' /\ v = List.length (varnodes f) /\ out_of f' op = Some v /\
    (forall p, inputs f' p = inputs f p) /\ (forall w, readers f' w = readers f w) /\
    (forall p, p <> op -> out_of f' p = out_of f p) /\
    List.length (varnodes f') = S v /\ List.length (ops f') = List.length (ops f)).
Proof.
  intros G Hop Hl. unfold new_output. run_step ltac:(by apply unset_output_runs). intros f1 U1.
  pose proof (unlinked_graph _ _ _ G U1) as G1.
  run_step ltac:(apply alloc_runs; unfold space_known; by rewrite (k_spaces _ _ (ul_keeps _ _ _ U1))).
  intros [v f2] (x & sp & A & _ & Ef & _).
  assert (Hx : varnodes f2 !! v = Some x) by (rewrite (ap_lookup _ _ _ _ A); by case_decide).
  run_step ltac:(by apply vn_mut_update). intros f3 U3.
  destruct (lookup_lt_is_Some_2 (ops f3) op) as [y Hy].
  { rewrite (vu_ops _ _ _ _ _ U3), (ap_ops _ _ _ _ A), (ul_nops _ _ _ U1). done. }
  run_step ltac:(by apply op_mut_update). intros f4 U4. cbn.
  assert (Hin : forall p, inputs f4 p = inputs f1 p).
  { intros p. rewrite (ou_inputs _ _ _ _ _ U4), (vu_inputs _ _ _ _ _ U3), (ap_same_inputs _ _ _ _ A).
    case_decide as E; [|done]. subst p. rewrite <- (ap_same_inputs _ _ _ _ A), <- (vu_inputs _ _ _ _ _ U3). by rewrite (inputs_at _ _ _ Hy). }
  assert (Hre : forall w, readers f4 w = readers f1 w).
  { intros w. rewrite (ou_readers _ _ _ _ _ U4), (vu_readers _ _ _ _ _ U3), (ap_same_readers _ _ _ _ A).
    case_decide as E; [|done]. subst w. rewrite <- (ap_same_readers _ _ _ _ A). by rewrite (readers_at _ _ _ Hx). }
  assert (Hout : forall p, out_of f4 p = if decide (p = op) then Some v else out_of f1 p).
  { intros p. rewrite (ou_out_of _ _ _ _ _ U4). case_decide; [done|]. by rewrite (vu_out_of _ _ _ _ _ U3), (ap_same_out _ _ _ _ A). }
  split_and!.
  - split.
    + eapply (linked_graph f1 f4 v op); [by apply graph_links| | |done|done| |done|].
      * rewrite <- (ap_same_def _ _ _ _ A), (def_of_at _ _ _ Hx). apply (ap_def _ _ _ _ A).
      * rewrite (ul_out _ _ _ U1). by case_decide.
      * intros w. rewrite (ou_def_of _ _ _ _ _ U4), (vu_def_of _ _ _ _ _ U3). case_decide; [done|]. apply (ap_same_def _ _ _ _ A).
      * intros w z. rewrite (ou_vns _ _ _ _ _ U4), (vu_vns _ _ _ _ _ U3). case_decide as E.
        { intros [= <-]. by eapply written_flags_ok. }
        rewrite (ap_lookup _ _ _ _ A), decide_False by done. apply G1.
    + etrans; [apply U1|]. etrans; [by eapply ap_keeps|]. etrans; [by eapply vu_keeps|by eapply ou_keeps].
  - by rewrite (ap_id _ _ _ _ A), (ul_len _ _ _ U1).
  - rewrite Hout. by case_decide.
  - intros p. by rewrite Hin, (ul_inputs _ _ _ U1).
  - intros w. by rewrite Hre, (ul_readers _ _ _ U1).
  - intros p Hp. rewrite Hout, (ul_out _ _ _ U1). by case_decide.
  - by rewrite (ou_vns _ _ _ _ _ U4), (vu_len _ _ _ _ _ U3), (ap_len _ _ _ _ A).
  - by rewrite (ou_len _ _ _ _ _ U4), (vu_ops _ _ _ _ _ U3), (ap_ops _ _ _ _ A), (ul_nops _ _ _ U1).
Qed.

(** The producer of a value gives it up; the value itself keeps the stale flags for a moment. *)
Lemma take_def_runs (f : funcdata) (vid : nat) (v : varnode) : graph_ok f -> varnodes f !! vid = Some v ->
  runs (match vdef v with
        | None => Some f
        | Some olddef => f ← vn_mut f vid (set_vdef None); op_mut f olddef (set_output None)
        end) (fun f' => exists v', varnodes f' !! vid = Some v' /\ vdef v' = None /\ flags v' = flags v /\
    (forall w, w <> vid -> varnodes f' !! w = varnodes f !! w) /\ keeps f f' /\
    (forall w, readers f' w = readers f w) /\ (forall p, inputs f' p = inputs f p) /\
    (forall w, def_of f' w = if decide (w = vid) then None else def_of f w) /\
    (forall p, out_of f' p = if decide (def_of f vid = Some p) then None else out_of f p) /\
    List.length (ops f') = List.length (ops f)).
Proof.
  intros G Hv. destruct (vdef v) as [olddef|] eqn:Ed; cycle 1.
  { exists v. split_and!; try done; intros w; [case_decide as E; [by rewrite E, (def_of_at _ _ _ Hv)|done]|].
    rewrite (def_of_at _ _ _ Hv), Ed. by case_decide. }
  assert (Ho : out_of f olddef = Some vid) by (apply (go_def _ G); by rewrite (def_of_at _ _ _ Hv)).
  run_step ltac:(by apply vn_mut_update). intros f1 U1.
  destruct (ops f !! olddef) as [x|] eqn:Hx; [|by unfold out_of in Ho; rewrite Hx in Ho].
  eapply runs_mono; [eapply op_mut_update; by rewrite (vu_ops _ _ _ _ _ U1)|]. intros f2 U2.
  exists (set_vdef None v). rewrite (ou_vns _ _ _ _ _ U2), (vu_vns _ _ _ _ _ U1), decide_True by done. split_and!; try done.
  - intros w Hw. rewrite (vu_vns _ _ _ _ _ U1). by case_decide.
  - etrans; [by eapply vu_keeps|by eapply ou_keeps].
  - intros w. rewrite (ou_readers _ _ _ _ _ U2), (vu_readers _ _ _ _ _ U1). case_decide as E; [|done]. by rewrite E, (readers_at _ _ _ Hv).
  - intros p. rewrite (ou_inputs _ _ _ _ _ U2), (vu_inputs _ _ _ _ _ U1). case_decide as E; [|done]. by rewrite E, (inputs_at _ _ _ Hx).
  - intros w. rewrite (ou_def_of _ _ _ _ _ U2), (vu_def_of _ _ _ _ _ U1). done.
  - intros p. rewrite (ou_out_of _ _ _ _ _ U2), (vu_out_of _ _ _ _ _ U1), (def_of_at _ _ _ Hv), Ed.
    case_decide as E; [by rewrite decide_True by congruence|by rewrite decide_False by congruence].
  - by rewrite (ou_len _ _ _ _ _ U2), (vu_ops _ _ _ _ _ U1).
Qed.

Lemma op_set_output_edit (f : funcdata) (op vid : nat) (v : varnode) : graph_ok f -> (op < List.length (ops f))%nat ->
  varnodes f !! vid = Some v -> is_input v = false ->
  runs (op_set_output f op vid) (fun f' => edited f f' /\ out_of f' op = Some vid /\
    (forall p, inputs f' p = inputs f p) /\ (forall w, readers f' w = readers f w)).
Proof.
  intros G Hop Hv Hi. destruct (lookup_lt_is_Some_2 _ _ Hop) as [x Hx]. unfold op_set_output. cbn. rewrite Hx. cbn.
  destruct (bool_decide (output x = Some vid)) eqn:Eo.
  { apply bool_decide_eq_true in Eo. split_and!; [by split|by rewrite (out_of_at _ _ _ Hx)|done|done]. }
  apply bool_decide_eq_false in Eo. run_step ltac:(by apply unset_output_runs). intros f1 U1.
  pose proof (unlinked_graph _ _ _ G U1) as G1.
  destruct (lookup_lt_is_Some_2 (varnodes f1) vid) as [v1 Hv1]; [rewrite (ul_len _ _ _ U1); by eapply lookup_lt_Some|].
  cbn. rewrite Hv1. cbn. run_step ltac:(by apply take_def_runs).
  intros f2 (v2 & Hv2 & Hd2 & Hf2 & Hother & K2 & Hr2 & Hi2 & Hdef2 & Hout2 & Hlen2).
  run_step ltac:(by apply vn_mut_update). intros f3 U3.
  destruct (lookup_lt_is_Some_2 (ops f3) op) as [y Hy]; [rewrite (vu_ops _ _ _ _ _ U3), Hlen2, (ul_nops _ _ _ U1); done|].
  eapply runs_mono; [by apply op_mut_update|]. intros f4 U4.
  assert (Hin : forall p, inputs f4 p = inputs f2 p).
  { intros p. rewrite (ou_inputs _ _ _ _ _ U4), (vu_inputs _ _ _ _ _ U3). case_decide as E; [|done].
    subst p. rewrite <- (vu_inputs _ _ _ _ _ U3). by rewrite (inputs_at _ _ _ Hy). }
  assert (Hre : forall w, readers f4 w = readers f2 w).
  { intros w. rewrite (ou_readers _ _ _ _ _ U4), (vu_readers _ _ _ _ _ U3). case_decide as E; [|done]. by rewrite E, (readers_at _ _ _ Hv2). }
  assert (Hi1 : is_input v1 = false).
  { destruct (is_input v1) eqn:E; [|done]. destruct (ul_input _ _ _ U1 vid v1 Hv1 E) as (z & Hz & Ez). congruence. }
  assert (L2 : links_ok f2).
  { split; [intros w o; rewrite Hr2, Hi2; apply G1|]. intros w o. rewrite Hdef2, Hout2. pose proof (go_def _ G1 w o) as Hwo.
    case_decide as E1; case_decide as E2; try done; subst.
    - split; [done|]. intros Ho. by apply Hwo in Ho.
    - split; [|done]. intros Ho. apply (go_def _ G1) in E2. apply (go_def _ G1) in Ho. congruence. }
  split_and!.
  - split; [eapply (linked_graph f2 f4 vid op); try done|].
    + by rewrite (def_of_at _ _ _ Hv2).
    + rewrite Hout2. case_decide; [done|]. rewrite (ul_out _ _ _ U1). by case_decide.
    + intros w. rewrite (ou_def_of _ _ _ _ _ U4), (vu_def_of _ _ _ _ _ U3). done.
    + intros p. rewrite (ou_out_of _ _ _ _ _ U4), (vu_out_of _ _ _ _ _ U3). done.
    + intros w z. rewrite (ou_vns _ _ _ _ _ U4), (vu_vns _ _ _ _ _ U3). case_decide as E; [|rewrite Hother by done; apply G1].
      intros [= <-]. constructor; unfold is_written, is_input in *; cbn; rewrite Hf2, ?written_or, ?input_or, ?insert_or, ?Hi1; cbn;
        rewrite ?orb_true_r; done.
    + etrans; [apply U1|]. etrans; [done|]. etrans; [by eapply vu_keeps|by eapply ou_keeps].
  - rewrite (ou_out_of _ _ _ _ _ U4). by case_decide.
  - intros p. by rewrite Hin, Hi2, (ul_inputs _ _ _ U1).
  - intros w. by rewrite Hre, Hr2, (ul_readers _ _ _ U1).
Qed.
