(* ===== verification/FuncdataRemove.v ===== *)
(** The primitives that replace and remove: new input lists, total replacement, destruction of an
    operation and of what only it used, dead values. *)
From Stdlib Require Import ZArith Lia Bool List.
From stdpp Require Import base decidable option list strings gmap numbers tactics.
From S2P Require Import Prelude Space OpCode BitUtil Funcdata FuncdataLinks FuncdataEdits.
Local Open Scope Z_scope.

Lemma keeps_op (f f' : funcdata) (o : nat) : keeps f f' -> (o < List.length (ops f))%nat -> (o < List.length (ops f'))%nat.
Proof. intros K. pose proof (k_no _ _ K). lia. Qed.

(** ** All inputs at once *)

Lemma append_all_runs (f : funcdata) (op : nat) (l : list nat) : graph_ok f -> spaces_ok f -> (op < List.length (ops f))%nat ->
  in_arena f l -> runs (fold_opt (fun f v => op_append_input f op v) l f) (fun f' => edited f f' /\
    List.length (inputs f' op) = (List.length (inputs f op) + List.length l)%nat /\
    (forall p, p <> op -> inputs f' p = inputs f p) /\ (forall p, out_of f' p = out_of f p)).
Proof.
  revert f. induction l as [|v l IH]; intros f G Hs Hop Hl; cbn [fold_opt].
  - split_and!; done.
  - inversion Hl as [|? ? Hv Hl']; subst. destruct (lookup_lt_is_Some_2 _ _ Hop) as [x Hx].
    run_step ltac:(by eapply op_append_input_edit). intros f1 ([G1 K1] & w & f0 & W & RI).
    eapply runs_mono; [apply IH; [done|by eapply spaces_ok_keeps|by eapply keeps_op|by eapply in_arena_keeps]|].
    intros f2 ([G2 K2] & Hlen & Hin & Hout). split_and!; [by split; [|etrans]| | |].
    + rewrite Hlen, (ri_inputs _ _ _ _ RI), (inputs_at f _ _ Hx). case_decide; [|done]. rewrite length_app. cbn. lia.
    + intros p Hp. rewrite Hin, (ri_inputs _ _ _ _ RI), (wi_inputs _ _ _ _ W) by done. by case_decide.
    + intros p. by rewrite Hout, (ri_out _ _ _ _ RI), (wi_out _ _ _ _ W).
Qed.

Lemma op_set_all_input_edit (f : funcdata) (op : nat) (l : list nat) : graph_ok f -> spaces_ok f -> (op < List.length (ops f))%nat ->
  in_arena f l -> runs (op_set_all_input f op l) (fun f' => edited f f' /\ List.length (inputs f' op) = List.length l /\
    (forall p, p <> op -> inputs f' p = inputs f p) /\ (forall p, out_of f' p = out_of f p)).
Proof.
  intros G Hs Hop Hl. destruct (lookup_lt_is_Some_2 _ _ Hop) as [x Hx]. unfold op_set_all_input.
  run_step ltac:(by eapply release_inputs_edit). intros f1 ([G1 K1] & RI).
  eapply runs_mono; [apply append_all_runs; [done|by eapply spaces_ok_keeps|by eapply keeps_op|by eapply in_arena_keeps]|].
  intros f2 ([G2 K2] & Hlen & Hin & Hout). split_and!; [by split; [|etrans]| | |].
  - rewrite Hlen, (ri_inputs _ _ _ _ RI). case_decide; [done|done].
  - intros p Hp. rewrite Hin, (ri_inputs _ _ _ _ RI) by done. by case_decide.
  - intros p. by rewrite Hout, (ri_out _ _ _ _ RI).
Qed.

(** ** Total replacement *)

Definition subst_in (old new : nat) (l : list nat) : list nat := map (fun v => if Nat.eqb v old then new else v) l.

Lemma count_subst (old new w : nat) (l : list nat) : old <> new ->
  count (subst_in old new l) w =
  (if decide (w = old) then 0 else count l w + if decide (w = new) then count l old else 0)%nat.
Proof.
  intros Hn. unfold subst_in. induction l as [|v l IH]; cbn [map]; [cbn; repeat case_decide; lia|].
  rewrite !count_cons, IH. destruct (Nat.eqb_spec v old); repeat case_decide; subst; try lia; congruence.
Qed.

Lemma attach_matching_runs (f : funcdata) (op old new : nat) (l : list nat) : (new < List.length (varnodes f))%nat ->
  runs (fold_opt (fun f v => if Nat.eqb v old then attach f op new else Some f) l f) (fun f' => readers_only f f' /\
    forall w p, count (readers f' w) p = (count (readers f w) p + if decide (w = new /\ p = op) then count l old else 0)%nat).
Proof.
  revert f. induction l as [|v l IH]; intros f Hn; cbn [fold_opt].
  - split; [done|]. intros w p. rewrite count_nil. case_decide; lia.
  - apply runs_bind. destruct (Nat.eqb_spec v old) as [->|Hne].
    + eapply runs_mono; [by apply attach_runs|]. intros f1 [R1 C1].
      eapply runs_mono; [apply IH; by rewrite (ro_len _ _ R1)|]. intros f2 [R2 C2]. split; [by etrans|].
      intros w p. rewrite C2, C1, count_cons. unfold one. repeat case_decide; try lia; congruence.
    + eapply runs_some; [done|]. eapply runs_mono; [by apply IH|]. intros f2 [R2 C2]. split; [done|].
      intros w p. rewrite C2, count_cons. repeat case_decide; try lia; congruence.
Qed.

(** The state of a total replacement: [left] are the users not visited yet. *)
Record replacing (f0 : funcdata) (old new : nat) (left : list nat) (f : funcdata) : Prop := Replacing {
  rp_other : forall w o, w <> old -> count (readers f w) o = count (inputs f o) w;
  rp_old : readers f old = [];
  rp_left : forall o, In old (inputs f o) -> In o left;
  rp_inputs : forall o, inputs f o = inputs f0 o \/ inputs f o = subst_in old new (inputs f0 o);
  rp_out : forall o, out_of f o = out_of f0 o;
  rp_def : forall w, def_of f w = def_of f0 w;
  rp_vns : forall w x', varnodes f !! w = Some x' -> exists x, varnodes f0 !! w = Some x /\ flags x' = flags x /\ vdef x' = vdef x;
  rp_keeps : keeps f0 f;
  rp_len : List.length (varnodes f) = List.length (varnodes f0);
}.

Lemma subst_in_idem (old new : nat) (l : list nat) : old <> new -> subst_in old new (subst_in old new l) = subst_in old new l.
Proof.
  intros Hn. unfold subst_in. rewrite map_map. apply map_ext. intros v. destruct (Nat.eqb_spec v old); [by destruct (Nat.eqb_spec new old)|].
  by destruct (Nat.eqb_spec v old).
Qed.

Lemma replace_in_runs (f0 f : funcdata) (old new op : nat) (left : list nat) : old <> new -> (new < List.length (varnodes f0))%nat ->
  (op < List.length (ops f0))%nat -> replacing f0 old new (op :: left) f ->
  runs (replace_in old new f op) (replacing f0 old new left).
Proof.
  intros Hn Hnew Hop R. destruct (lookup_lt_is_Some_2 (ops f) op) as [x Hx]; [eapply keeps_op; [apply R|done]|].
  unfold replace_in. cbn. rewrite Hx. cbn.
  run_step ltac:(eapply (set_inputs_runs f op x _ (subst_in old new (inrefs x))); [done|reflexivity]). intros f1 I1.
  eapply runs_mono; [apply attach_matching_runs; rewrite (is_vns _ _ _ _ I1), (rp_len _ _ _ _ _ R); done|]. intros f2 [R2 C2].
  assert (RI : reinput f op (subst_in old new (inrefs x)) f2) by (eapply ri_before; [by apply ri_set|done]).
  constructor.
  - intros w o Hw. rewrite C2, (is_readers _ _ _ _ I1), (ri_inputs _ _ _ _ RI), (rp_other _ _ _ _ _ R) by done.
    destruct (decide (o = op)) as [->|E]; [|rewrite decide_False by tauto; lia]. rewrite (inputs_at _ _ _ Hx), count_subst by done.
    repeat case_decide; try lia; tauto.
  - assert (Hc : forall o, count (readers f2 old) o = 0%nat).
    { intros o. rewrite C2, (is_readers _ _ _ _ I1), (rp_old _ _ _ _ _ R), decide_False by (intros [? _]; congruence). done. }
    destruct (readers f2 old) as [|o l]; [done|]. specialize (Hc o). rewrite count_cons, decide_True in Hc by done. lia.
  - intros o. rewrite (ri_inputs _ _ _ _ RI). case_decide as E.
    + intros Ho%count_pos. rewrite count_subst, decide_True in Ho by done. lia.
    + intros Ho. destruct (rp_left _ _ _ _ _ R o Ho) as [->|]; [congruence|done].
  - intros o. rewrite (ri_inputs _ _ _ _ RI). case_decide as E; [|apply R]. subst o. right.
    pose proof (rp_inputs _ _ _ _ _ R op) as Hi. rewrite (inputs_at f _ _ Hx) in Hi. destruct Hi as [-> | ->]; [done|by apply subst_in_idem].
  - intros o. rewrite (ri_out _ _ _ _ RI). apply R.
  - intros o. rewrite (ri_def _ _ _ _ RI). apply R.
  - intros w y Hy. destruct (ri_vns _ _ _ _ RI w y Hy) as (z & Hz & E1 & E2). destruct (rp_vns _ _ _ _ _ R w z Hz) as (z0 & Hz0 & E3 & E4).
    exists z0. split_and!; [done|congruence..].
  - etrans; [apply R|apply RI].
  - rewrite (ri_len _ _ _ _ RI). apply R.
Qed.

Lemma replace_all_runs (f0 f : funcdata) (old new : nat) (left : list nat) : old <> new -> (new < List.length (varnodes f0))%nat ->
  List.Forall (fun o => (o < List.length (ops f0))%nat) left -> replacing f0 old new left f ->
  runs (fold_opt (replace_in old new) left f) (replacing f0 old new []).
Proof.
  intros Hn Hnew. revert f. induction left as [|op left IH]; intros f Hl R; cbn [fold_opt]; [done|].
  inversion Hl; subst. run_step ltac:(by eapply replace_in_runs). intros f1 R1. by apply IH.
Qed.

Lemma total_replace_edit (f : funcdata) (old new : nat) : graph_ok f -> old <> new ->
  (old < List.length (varnodes f))%nat -> (new < List.length (varnodes f))%nat ->
  runs (total_replace f old new) (fun f' => edited f f' /\ readers f' old = [] /\
    (forall o, inputs f' o = subst_in old new (inputs f o)) /\ (forall o, out_of f' o = out_of f o) /\
    List.length (varnodes f') = List.length (varnodes f) /\
    (forall w x', varnodes f' !! w = Some x' -> exists x, varnodes f !! w = Some x /\ flags x' = flags x)).
Proof.
  intros G Hn Hold Hnew. destruct (lookup_lt_is_Some_2 _ _ Hold) as [x Hx]. unfold total_replace. cbn. rewrite Hx. cbn.
  run_step ltac:(by apply vn_mut_update). intros f1 U1. pose proof (vu_readers_only _ _ _ _ _ U1) as R1.
  eapply runs_mono; [apply (replace_all_runs f f1 old new); try done|].
  - apply List.Forall_forall. intros o Ho. eapply (graph_readers_lt f old o G). by rewrite (readers_at _ _ _ Hx).
  - constructor; try apply R1.
    + intros w o Hw. rewrite (vu_readers _ _ _ _ _ U1), decide_False, (ro_inputs _ _ R1) by done. apply G.
    + rewrite (vu_readers _ _ _ _ _ U1). by case_decide.
    + intros o Ho. rewrite (ro_inputs _ _ R1) in Ho. apply count_pos in Ho. rewrite <- (go_use _ G) in Ho.
      apply count_pos in Ho. by rewrite (readers_at _ _ _ Hx) in Ho.
    + intros o. left. apply (ro_inputs _ _ R1).
    + intros o. apply (ro_out _ _ R1).
  - intros f2 R. assert (Hno : forall o, ~ In old (inputs f2 o)) by (intros o Ho; destruct (rp_left _ _ _ _ _ R o Ho)).
    split_and!; [split| | | | |]; try apply R.
    + eapply graph_rewired; [exact G|apply R|apply R|apply R|]. intros w o.
      destruct (decide (w = old)) as [->|Hw]; [|by apply R]. rewrite (rp_old _ _ _ _ _ R), count_nil. symmetry. by apply count_zero.
    + intros o. destruct (rp_inputs _ _ _ _ _ R o) as [E|E]; [|done]. rewrite E. pose proof (Hno o) as Ho. rewrite E in Ho.
      unfold subst_in. symmetry. etrans; [|apply map_id]. apply map_ext_in. intros v Hv.
      destruct (Nat.eqb_spec v old); [congruence|done].
    + intros w y Hy. destruct (rp_vns _ _ _ _ _ R w y Hy) as (z & Hz & Ef & _). eauto.
Qed.

(** ** Updates that touch no link *)

Lemma op_touch_runs (f : funcdata) (op : nat) (x : pcode_op) (g : pcode_op -> pcode_op) : graph_ok f -> ops f !! op = Some x ->
  inrefs (g x) = inrefs x -> output (g x) = output x -> parent (g x) = parent x -> guarded_op (g x) = guarded_op x ->
  runs (op_mut f op g) (fun f' => edited f f' /\ op_update f op x (g x) f').
Proof.
  intros G Hx Ei Eo Ep Eg. eapply runs_mono; [by apply op_mut_update|]. intros f' U. split; [split|done].
  - eapply graph_rewired; [exact G| | | |].
    + intros w. apply (ou_def_of _ _ _ _ _ U).
    + intros p. rewrite (ou_out_of _ _ _ _ _ U). case_decide as E; [|done]. by rewrite E, (out_of_at _ _ _ Hx).
    + intros w y. rewrite (ou_vns _ _ _ _ _ U). eauto.
    + intros w p. rewrite (ou_readers _ _ _ _ _ U), (ou_inputs _ _ _ _ _ U), (go_use _ G).
      case_decide as E; [|done]. by rewrite E, (inputs_at _ _ _ Hx), Ei.
  - by eapply ou_keeps.
Qed.

(** ** Destruction *)

Definition dead_form (x : pcode_op) : pcode_op := set_oflags (Z.lor (oflags x) DEAD) (set_output None (set_inrefs [] x)).

(** A value after a destruction: untouched but for its readers, or without definition. *)
Definition survives (f f' : funcdata) : Prop :=
  forall w x', varnodes f' !! w = Some x' -> exists x, varnodes f !! w = Some x /\
    ((flags x' = flags x /\ vdef x' = vdef x) \/ (vdef x' = None /\ is_written x' = false)).

Record destroyed (f : funcdata) (op : nat) (f' : funcdata) : Prop := Destroyed {
  ds_edit : edited f f';
  ds_ops : forall p, ops f' !! p = if decide (p = op) then dead_form <$> ops f !! op else ops f !! p;
  ds_vns : survives f f';
  ds_nv : List.length (varnodes f') = List.length (varnodes f);
  ds_no : List.length (ops f') = List.length (ops f);
}.

Lemma release_ops (f : funcdata) (op : nat) (x : pcode_op) : ops f !! op = Some x ->
  forall f', release_inputs f op = Some f' -> in_arena f (inrefs x) ->
  (forall p, ops f' !! p = if decide (p = op) then Some (set_inrefs [] x) else ops f !! p) /\ List.length (ops f') = List.length (ops f).
Proof.
  intros Hx f' E Ha. unfold release_inputs in E. cbn in E. rewrite Hx in E. cbn in E.
  pose proof (op_mut_update f op (set_inrefs []) x Hx) as H1. apply runs_exists in H1 as (f1 & E1 & U1). rewrite E1 in E. cbn in E.
  pose proof (detach_all_runs f1 op (inrefs x)) as H2. apply runs_exists in H2 as (f2 & E2 & R2 & _).
  - rewrite E2 in E. injection E as <-. rewrite (ro_ops _ _ R2). split; [apply U1|apply U1].
  - unfold in_arena in *. by rewrite (ou_vns _ _ _ _ _ U1).
Qed.

Lemma op_destroy_edit (f : funcdata) (op : nat) : graph_ok f -> (op < List.length (ops f))%nat ->
  runs (op_destroy f op) (destroyed f op).
Proof.
  intros G Hop. destruct (lookup_lt_is_Some_2 _ _ Hop) as [x Hx]. unfold op_destroy.
  assert (Ha : in_arena f (inrefs x)) by (pose proof (graph_in_arena f op G) as Ha; by rewrite (inputs_at _ _ _ Hx) in Ha).
  pose proof (release_inputs_edit f op x G Hx) as Hr. apply runs_exists in Hr as (f1 & E1 & [G1 K1] & RI).
  destruct (release_ops f op x Hx f1 E1 Ha) as [O1 N1]. rewrite E1. cbn.
  assert (Hx1 : ops f1 !! op = Some (set_inrefs [] x)) by (rewrite O1; by case_decide). rewrite Hx1. cbn.
  assert (Hun : runs (match output x with None => Some f1 | Some out => f ← op_mut f1 op (set_output None); delete_varnode f out end)
                  (fun f2 => unlinked f1 op f2 /\ ops f2 !! op = Some (set_output None (set_inrefs [] x)) /\
                             (forall p, p <> op -> ops f2 !! p = ops f1 !! p) /\ survives f1 f2)).
  { pose proof (unlink_runs f1 op (set_inrefs [] x) (Z.lor (Z.lor INPUT INSERT) (Z.lor WRITTEN UNAFFECTED)) set_deleted G1 Hx1) as Hu.
    apply runs_exists in Hu as (f2 & E2 & U2); [|by vm_compute..|done]. cbn [output set_inrefs] in E2. unfold delete_varnode. rewrite E2.
    split_and!; [done| | |].
    - destruct (output x) as [old|] eqn:Eo.
      + unfold op_mut in E2. cbn in E2. rewrite Hx1 in E2. cbn in E2. unfold vn_mut in E2. cbn in E2.
        destruct (varnodes f1 !! old); [|done]. injection E2 as <-. cbn. rewrite list_lookup_insert_eq; [done|]. by rewrite N1.
      + injection E2 as <-. rewrite Hx1. f_equal. destruct x; cbn in *. by subst.
    - intros p Hp. destruct (output x) as [old|] eqn:Eo; [|by injection E2 as <-].
      unfold op_mut in E2. cbn in E2. rewrite Hx1 in E2. cbn in E2. unfold vn_mut in E2. cbn in E2.
      destruct (varnodes f1 !! old); [|done]. injection E2 as <-. cbn. by rewrite list_lookup_insert_ne.
    - intros w y Hy. destruct (output x) as [old|] eqn:Eo; [|injection E2 as <-; eauto].
      unfold op_mut in E2. cbn in E2. rewrite Hx1 in E2. cbn in E2. unfold vn_mut in E2. cbn in E2.
      destruct (varnodes f1 !! old) as [z|] eqn:Hz; [|done]. injection E2 as <-. cbn in Hy.
      destruct (decide (w = old)) as [->|Hne]; [|rewrite list_lookup_insert_ne in Hy by done; eauto].
      rewrite list_lookup_insert_eq in Hy by (by eapply lookup_lt_Some). injection Hy as <-. exists z. split; [done|right].
      split; [done|]. unfold is_written. cbn [flags set_flags]. rewrite written_clear. by rewrite andb_false_r. }
  apply runs_bind. eapply runs_mono; [exact Hun|]. intros f2 (U2 & Hx2 & O2 & S2).
  pose proof (unlinked_graph _ _ _ G1 U2) as G2. unfold mark_dead.
  eapply runs_mono; [eapply op_touch_runs; [done|done|done|done|done|done]|]. intros f3 ([G3 K3] & U3). constructor.
  - split; [done|]. etrans; [exact K1|]. etrans; [apply U2|done].
  - intros p. rewrite (ou_ops _ _ _ _ _ U3), Hx. case_decide as E; [done|]. rewrite O2, O1 by done. by case_decide.
  - intros w y. rewrite (ou_vns _ _ _ _ _ U3). intros Hy. destruct (S2 w y Hy) as (z & Hz & Hc).
    destruct (ri_vns _ _ _ _ RI w z Hz) as (z0 & Hz0 & Ef & Ed). exists z0. split; [done|].
    destruct Hc as [[? ?]|?]; [left; split; congruence|by right].
  - by rewrite (ou_vns _ _ _ _ _ U3), (ul_len _ _ _ U2), (ri_len _ _ _ _ RI).
  - by rewrite (ou_len _ _ _ _ _ U3), (ul_nops _ _ _ U2), N1.
Qed.

(** ** Recursive destruction *)

Definition edges (f : funcdata) : nat := sum_list_with (fun o => List.length (inrefs o)) (ops f).

Lemma sum_list_with_update {A : Type} (g : A -> nat) (l : list A) (i : nat) (x y : A) : l !! i = Some x ->
  (sum_list_with g (<[i := y]> l) + g x)%nat = (sum_list_with g l + g y)%nat.
Proof.
  intros H. rewrite <- (take_drop_middle l i x H) at 2. pose proof (lookup_lt_Some _ _ _ H).
  rewrite insert_take_drop by lia. rewrite !sum_list_with_app. cbn. lia.
Qed.

Lemma destroyed_edges (f f' : funcdata) (op : nat) (x : pcode_op) : ops f !! op = Some x -> destroyed f op f' ->
  (edges f' + List.length (inrefs x))%nat = edges f.
Proof.
  intros Hx D. assert (E : ops f' = <[op := dead_form x]> (ops f)).
  { apply list_eq. intros p. rewrite (ds_ops _ _ _ D), lookup_upd, Hx by (by eapply lookup_lt_Some). done. }
  unfold edges. rewrite E. pose proof (sum_list_with_update (fun o => List.length (inrefs o)) (ops f) op x (dead_form x) Hx) as H.
  cbn [inrefs dead_form set_oflags set_output set_inrefs List.length] in H. lia.
Qed.

(** Why [d] falls with its reader: it is the definition of a value with no reader left but [cur]. *)
Record falls (f : funcdata) (cur d : nat) : Prop := Falls {
  fl_val : exists v x o, out_of f d = Some v /\ varnodes f !! v = Some x /\ ops f !! d = Some o /\ is_written x = true /\
    is_auto_live x = false /\ (forall p, In p (readers f v) -> p = cur) /\ is_call o = false /\ is_indirect_source o = false;
}.

Lemma only_for_runs (f : funcdata) (cur v : nat) : graph_ok f -> In v (inputs f cur) ->
  runs (only_for f v) (fun r => forall d, r = Some d -> falls f cur d).
Proof.
  intros G Hv. assert (Hc : In cur (readers f v)) by (apply count_pos; rewrite (go_use _ G); by apply count_pos).
  unfold readers in Hc. destruct (varnodes f !! v) as [x|] eqn:Hx; [|done]. cbn in Hc.
  unfold only_for. cbn. rewrite Hx. cbn. destruct (negb (is_written x) || is_auto_live x) eqn:E; [done|].
  apply orb_false_iff in E as [Hw%negb_false_iff Ha]. unfold lone_descend.
  destruct (descend x) as [|c [|c' l]] eqn:Ed; [done| |done]. destruct Hc as [->|[]].
  pose proof (fo_written _ (go_flags _ G v x Hx)) as Hd. destruct (vdef x) as [d|] eqn:Evd; [|by destruct (proj1 Hd Hw)]. cbn.
  assert (Ho : out_of f d = Some v) by (apply (go_def _ G); by rewrite (def_of_at _ _ _ Hx)).
  destruct (ops f !! d) as [o|] eqn:Eo; [|by unfold out_of in Ho; rewrite Eo in Ho]. cbn.
  intros d' Hr. destruct (is_call o || is_indirect_source o) eqn:Ec; [done|]. injection Hr as <-.
  apply orb_false_iff in Ec as [Ec Ei]. constructor. exists v, x, o. split_and!; try done.
  intros p Hp. rewrite (readers_at _ _ _ Hx), Ed in Hp. by destruct Hp as [->|[]].
Qed.

Lemma mapM_runs {A B : Type} (g : A -> option B) (l : list A) (P : B -> Prop) :
  (forall a, In a l -> runs (g a) P) -> runs (mapM g l) (fun r => List.Forall P r /\ List.length r = List.length l).
Proof.
  induction l as [|a l IH]; intros H; cbn; [done|]. apply runs_bind. eapply runs_mono; [apply H; by left|]. intros b Hb.
  apply runs_bind. eapply runs_mono; [apply IH; intros; apply H; by right|]. intros r [Hr Hlen]. cbn. split; [by constructor|by rewrite Hlen].
Qed.

Lemma omap_in {A : Type} (l : list (option A)) (d : A) : In d (omap id l) -> In (Some d) l.
Proof. induction l as [|[a|] l IH]; cbn; [done|intros [->|H]; auto|auto]. Qed.

Lemma omap_len {A : Type} (l : list (option A)) : (List.length (omap id l) <= List.length l)%nat.
Proof. induction l as [|[a|] l IH]; cbn; lia. Qed.

(** [d] computed a value that only operations of [D] read, and nothing else holds it. *)
Definition doomed (f0 : funcdata) (D : list nat) (d : nat) : Prop :=
  exists v x o, out_of f0 d = Some v /\ varnodes f0 !! v = Some x /\ ops f0 !! d = Some o /\ is_written x = true /\
    is_auto_live x = false /\ (forall p, In p (readers f0 v) -> In p D) /\ is_call o = false /\ is_indirect_source o = false.

Lemma doomed_mono (f0 : funcdata) (D D' : list nat) (d : nat) : (forall p, In p D -> In p D') -> doomed f0 D d -> doomed f0 D' d.
Proof. intros H (v & x & o & ? & ? & ? & ? & ? & ? & ? & ?). exists v, x, o. split_and!; auto. Qed.

(** [c] alone reads, once, the value [d] computes, and nothing else holds it. *)
Definition only_reader (f0 : funcdata) (c d : nat) : Prop :=
  exists v x o, out_of f0 d = Some v /\ varnodes f0 !! v = Some x /\ ops f0 !! d = Some o /\ readers f0 v = [c] /\
    is_auto_live x = false /\ is_call o = false /\ is_indirect_source o = false.

(** The state of a recursive destruction: [D] are the operations destroyed so far. *)
Record destroying (f0 : funcdata) (root : nat) (D wl : list nat) (f : funcdata) : Prop := Destroying {
  dg_edit : edited f0 f;
  dg_wl : List.Forall (fun o => (o < List.length (ops f0))%nat) wl;
  dg_no : List.length (ops f) = List.length (ops f0);
  dg_kept : forall p, ~ In p D -> ops f !! p = ops f0 !! p;
  dg_dead : forall p x, In p D -> ops f !! p = Some x -> inrefs x = [] /\ output x = None /\ is_dead x = true;
  dg_vns : survives f0 f;
  dg_root : In root D \/ In root wl;
  dg_why : forall d, In d D \/ In d wl -> d = root \/ doomed f0 D d;
  dg_all : forall c d, In c D -> only_reader f0 c d -> In d D \/ In d wl;
}.

Lemma survives_trans (f g h : funcdata) : graph_ok g -> survives f g -> survives g h -> survives f h.
Proof.
  intros G S1 S2 w z Hz. destruct (S2 w z Hz) as (y & Hy & Hc). destruct (S1 w y Hy) as (x & Hx & Hc'). exists x. split; [done|].
  destruct Hc as [[E1 E2]|[E1 E2]]; [|by right]. destruct Hc' as [[E3 E4]|[E3 E4]]; [left; split; congruence|right].
  unfold is_written in *. rewrite E1, E2. done.
Qed.

Lemma dead_form_dead (x : pcode_op) : inrefs (dead_form x) = [] /\ output (dead_form x) = None /\ is_dead (dead_form x) = true.
Proof.
  split_and!; [done|done|]. unfold is_dead, dead_form. cbn. change DEAD with (2 ^ Z.of_nat 4) at 2. rewrite has_or. apply orb_true_r.
Qed.

Lemma falls_doomed (f0 f : funcdata) (root cur : nat) (D wl : list nat) (d : nat) : graph_ok f0 -> destroying f0 root D wl f ->
  falls f cur d -> doomed f0 (cur :: D) d.
Proof.
  intros G0 S [(v & x & o & Ho & Hx & Hop & Hw & Ha & Hr & Hc & Hi)].
  assert (Hd : ~ In d D).
  { intros Hin. destruct (dg_dead _ _ _ _ _ S d o Hin Hop) as (_ & E & _). by rewrite (out_of_at _ _ _ Hop), E in Ho. }
  pose proof (dg_kept _ _ _ _ _ S d Hd) as Ek. destruct (dg_vns _ _ _ _ _ S v x Hx) as (x0 & Hx0 & [[Ef Ed]|[_ Ew]]); [|congruence].
  exists v, x0, o. unfold is_written, is_auto_live in *. rewrite <- Ef. split_and!; try done.
  - unfold out_of in *. by rewrite <- Ek.
  - congruence.
  - intros p Hp. destruct (in_dec Nat.eq_dec p D) as [HD|HD]; [by right|]. left. symmetry. apply Hr.
    apply count_pos. apply count_pos in Hp. rewrite (go_use _ (proj1 (dg_edit _ _ _ _ _ S))). rewrite (go_use _ G0) in Hp.
    unfold inputs in *. by rewrite (dg_kept _ _ _ _ _ S p HD).
Qed.

Lemma mapM_in {A B : Type} (g : A -> option B) (l : list A) (r : list B) (a : A) : mapM g l = Some r -> In a l ->
  exists b, g a = Some b /\ In b r.
Proof.
  revert r. induction l as [|x l IH]; intros r Hm Hin; [done|]. cbn in Hm. destruct (g x) as [b|] eqn:Eb; [|done]. cbn in Hm.
  destruct (mapM g l) as [r'|]; [|done]. injection Hm as <-. destruct Hin as [->|Hin]; [exists b; split; [done|by left]|].
  destruct (IH r' eq_refl Hin) as (b' & ? & ?). exists b'. split; [done|by right].
Qed.

Lemma counts_singleton (l : list nat) (c : nat) : (forall x, count l x = count [c] x) -> l = [c].
Proof.
  intros H. assert (Hin : forall x, In x l -> x = c).
  { intros x Hx%count_pos. rewrite H in Hx. apply count_pos in Hx. by destruct Hx as [|[]]. }
  destruct l as [|a [|b l]].
  - specialize (H c). rewrite count_cons, decide_True in H by done. cbn in H. lia.
  - by rewrite (Hin a (or_introl eq_refl)).
  - exfalso. specialize (H c). rewrite (Hin a (or_introl eq_refl)), (Hin b (or_intror (or_introl eq_refl))) in H.
    rewrite !count_cons, decide_True in H by done. cbn in H. lia.
Qed.

Lemma in_readers (f : funcdata) (v o : nat) : graph_ok f -> In o (readers f v) <-> In v (inputs f o).
Proof. intros G. by rewrite <- !count_pos, (go_use _ G). Qed.

(** An operation whose only reader is destroyed next is found. *)
Lemma only_for_finds (f0 f : funcdata) (root cur : nat) (D wl : list nat) (d : nat) : graph_ok f0 -> destroying f0 root D wl f ->
  ~ In cur D -> only_reader f0 cur d -> In d D \/ exists v, In v (inputs f cur) /\ only_for f v = Some (Some d).
Proof.
  intros G0 S Hcur (v & x & o & Ho & Hx & Hop & Hr & Ha & Hc & Hi). destruct (in_dec Nat.eq_dec d D) as [Hd|Hd]; [by left|right].
  pose proof (dg_edit _ _ _ _ _ S) as [G K]. pose proof (dg_kept _ _ _ _ _ S d Hd) as Ek. pose proof (dg_kept _ _ _ _ _ S cur Hcur) as Ec.
  assert (Ho' : out_of f d = Some v) by (unfold out_of in *; by rewrite Ek). pose proof (proj2 (go_def _ G v d) Ho') as Hdef.
  destruct (varnodes f !! v) as [y|] eqn:Hy; [|unfold def_of in Hdef; by rewrite Hy in Hdef]. rewrite (def_of_at _ _ _ Hy) in Hdef.
  destruct (dg_vns _ _ _ _ _ S v y Hy) as (x' & Hx' & [[Ef Ed]|[E _]]); [|congruence]. assert (x' = x) as -> by congruence.
  assert (Hl : readers f v = [cur]).
  { apply counts_singleton. intros p. rewrite (go_use _ G), <- Hr, (go_use _ G0). destruct (in_dec Nat.eq_dec p D) as [HD|HD].
    - assert (p <> cur) by congruence. rewrite <- (go_use _ G0 v p), Hr, count_cons, decide_False, count_nil by congruence.
      unfold inputs. destruct (ops f !! p) as [z|] eqn:Hz; [|done]. cbn. by destruct (dg_dead _ _ _ _ _ S p z HD Hz) as (-> & _).
    - unfold inputs. by rewrite (dg_kept _ _ _ _ _ S p HD). }
  exists v. split; [apply in_readers; [done|rewrite Hl; by left]|]. unfold only_for. rewrite Hy. cbn [mbind option_bind].
  pose proof (fo_written _ (go_flags _ G v y Hy)) as Hw. rewrite (proj2 Hw) by congruence. unfold is_auto_live in *. rewrite Ef, Ha. cbn [negb orb].
  unfold lone_descend. rewrite (readers_at _ _ _ Hy) in Hl. rewrite Hl, Hdef. cbn [mbind option_bind]. rewrite Ek, Hop. cbn [mbind option_bind].
  by rewrite Hc, Hi.
Qed.

Lemma destroy_loop_runs (f0 : funcdata) (root : nat) (fuel : nat) : graph_ok f0 ->
  forall f D wl, destroying f0 root D wl f -> (List.length wl + edges f < fuel)%nat ->
  runs (destroy_loop fuel f wl) (fun f' => exists D', destroying f0 root D' [] f' /\ forall p, In p D \/ In p wl -> In p D').
Proof.
  intros G0. induction fuel as [|fuel IH]; intros f D wl S Hfuel; [lia|]. cbn [destroy_loop].
  destruct wl as [|cur wl]; [exists D; split; [done|by intros p [|[]]]|].
  pose proof (dg_edit _ _ _ _ _ S) as [G K]. pose proof (dg_wl _ _ _ _ _ S) as Hwl. inversion Hwl as [|? ? Hcur Hwl']; subst.
  destruct (lookup_lt_is_Some_2 (ops f) cur) as [x Hx]; [by rewrite (dg_no _ _ _ _ _ S)|]. cbn. rewrite Hx. cbn.
  assert (Hm : runs (mapM (only_for f) (inrefs x)) (fun r => List.Forall (fun r => forall d, r = Some d -> falls f cur d) r /\
    List.length r = List.length (inrefs x))).
  { apply mapM_runs. intros v Hv. apply only_for_runs; [done|]. by rewrite (inputs_at _ _ _ Hx). }
  apply runs_exists in Hm as (more & Em & Hmore & Hlen). rewrite Em. cbn. rewrite List.Forall_forall in Hmore.
  apply runs_bind. eapply runs_mono; [apply op_destroy_edit; [done|by eapply lookup_lt_Some]|]. intros f1 Dd.
  pose proof (destroyed_edges _ _ _ _ Hx Dd) as Hedges. pose proof (omap_len more) as Hol.
  assert (Hnew : forall d, In d (omap id more) -> falls f cur d) by (intros d Hd%omap_in; by apply (Hmore (Some d))).
  eapply runs_mono; [apply (IH f1 (cur :: D) (wl ++ omap id more))|].
  - constructor.
    + split; [apply Dd|]. etrans; [done|apply Dd].
    + apply List.Forall_app. split; [done|]. apply List.Forall_forall. intros d Hd.
      destruct (Hnew d Hd) as [(v & y & o & _ & _ & Ho & _)]. apply lookup_lt_Some in Ho. by rewrite (dg_no _ _ _ _ _ S) in Ho.
    + rewrite (ds_no _ _ _ Dd). apply S.
    + intros p Hp. rewrite (ds_ops _ _ _ Dd). case_decide as E; [subst; destruct Hp; by left|]. apply S. intros ?. apply Hp. by right.
    + intros p y Hp. rewrite (ds_ops _ _ _ Dd), Hx. case_decide as E; [intros [= <-]; apply dead_form_dead|].
      destruct Hp as [->|Hp]; [done|]. by apply S.
    + eapply survives_trans; [exact G|apply S|apply Dd].
    + destruct (dg_root _ _ _ _ _ S) as [?|[->|?]]; [left; by right|left; by left|right; apply in_app_iff; by left].
    + intros d Hd. assert (Hold : In d D \/ In d (cur :: wl) \/ In d (omap id more)).
      { destruct Hd as [[->|Hd]|[Hd|Hd]%in_app_iff]; [right; left; by left|by left|right; left; by right|right; by right]. }
      destruct Hold as [Ho|[Ho|Ho]].
      * destruct (dg_why _ _ _ _ _ S d (or_introl Ho)) as [?|?]; [by left|right]. eapply doomed_mono; [|done]. intros; by right.
      * destruct (dg_why _ _ _ _ _ S d (or_intror Ho)) as [?|?]; [by left|right]. eapply doomed_mono; [|done]. intros; by right.
      * right. eapply falls_doomed; [done|done|by apply Hnew].
    + intros c d Hc Hr. destruct (in_dec Nat.eq_dec c D) as [HcD|HcD].
      * destruct (dg_all _ _ _ _ _ S c d HcD Hr) as [?|[->|?]]; [left; by right|left; by left|right; apply in_app_iff; by left].
      * destruct Hc as [->|?]; [|done]. destruct (only_for_finds f0 f root c D (c :: wl) d) as [?|(v & Hv & Ev)]; try done; [left; by right|].
        right. apply in_app_iff. right. rewrite (inputs_at _ _ _ Hx) in Hv. destruct (mapM_in _ _ _ _ Em Hv) as (b & Eb & Hb).
        apply list_elem_of_In, list_elem_of_omap. exists (Some d). split; [|done]. apply list_elem_of_In. congruence.
  - rewrite length_app. cbn in Hfuel. lia.
  - intros f' (D' & S' & HD'). exists D'. split; [done|]. intros p Hp. apply HD'.
    destruct Hp as [Hp|[->|Hp]]; [left; by right|left; by left|right; apply in_app_iff; by left].
Qed.

Lemma op_destroy_recursive_edit (f : funcdata) (op : nat) : graph_ok f -> (op < List.length (ops f))%nat ->
  runs (op_destroy_recursive f op) (fun f' => exists D, destroying f op D [] f' /\ In op D).
Proof.
  intros G Hop. eapply runs_mono; [apply (destroy_loop_runs f op (destroy_fuel f) G f [] [op])|].
  - constructor; try done; [by constructor|intros w x Hx; eauto|right; by left|].
    intros d [[]|[->|[]]]. by left.
  - unfold destroy_fuel, edges. cbn. lia.
  - intros f' (D & S & HD). exists D. split; [done|]. apply HD. right. by left.
Qed.

(** ** Dead values *)

Lemma delete_unread_runs (f : funcdata) (v : nat) (x : varnode) : graph_ok f -> varnodes f !! v = Some x -> is_written x = false ->
  runs (delete_varnode f v) (fun f' => edited f f' /\ (forall w, w <> v -> varnodes f' !! w = varnodes f !! w)).
Proof.
  intros G Hx Hw. unfold delete_varnode. eapply runs_mono; [by apply vn_mut_update|]. intros f' U.
  assert (Hd : vdef x = None).
  { destruct (vdef x) eqn:E; [|done]. assert (is_written x = true) by (apply (go_flags _ G v x Hx); congruence). congruence. }
  split; [split|].
  - constructor.
    + intros w o. rewrite (vu_readers _ _ _ _ _ U), (vu_inputs _ _ _ _ _ U), <- (go_use _ G). case_decide as E; [|done].
      by rewrite E, (readers_at _ _ _ Hx).
    + intros w o. rewrite (vu_def_of _ _ _ _ _ U), (vu_out_of _ _ _ _ _ U), <- (go_def _ G). case_decide as E; [|done].
      by rewrite E, (def_of_at _ _ _ Hx), Hd.
    + intros w y. rewrite (vu_vns _ _ _ _ _ U). case_decide; [|apply G]. intros [= <-]. apply cleared_flags_ok; by vm_compute.
  - by eapply vu_keeps.
  - intros w Hne. rewrite (vu_vns _ _ _ _ _ U). by case_decide.
Qed.

Lemma free_unwritten (x : varnode) : flags_ok x -> is_free x = true \/ is_input x = true -> is_written x = false.
Proof.
  intros [Hw _ Hi] [Hf|Hin].
  - unfold is_free in Hf. apply negb_true_iff in Hf. pose proof (has_two (flags x) 4 3) as E.
    change (2 ^ Z.of_nat 4) with WRITTEN in E. change (2 ^ Z.of_nat 3) with INPUT in E. rewrite Hf in E.
    symmetry in E. apply orb_false_iff in E as [E _]. exact E.
  - apply Hi in Hin. destruct (is_written x); [|done]. by destruct (proj1 Hw eq_refl).
Qed.

Lemma delete_all_runs (f : funcdata) (l : list nat) : graph_ok f -> List.NoDup l ->
  (forall v, In v l -> exists x, varnodes f !! v = Some x /\ is_written x = false) ->
  runs (fold_opt delete_varnode l f) (fun f' => edited f f' /\ forall w, ~ In w l -> varnodes f' !! w = varnodes f !! w).
Proof.
  revert f. induction l as [|v l IH]; intros f G Hn Hl; cbn [fold_opt]; [by split|].
  inversion Hn as [|? ? Hv Hn']; subst. destruct (Hl v (or_introl eq_refl)) as (x & Hx & Hw).
  run_step ltac:(by eapply delete_unread_runs). intros f1 [[G1 K1] Ho].
  eapply runs_mono; [apply IH; [done|done|]|].
  - intros w Hin. rewrite Ho by (intros ->; done). apply Hl. by right.
  - intros f2 [[G2 K2] Ho2]. split; [split; [done|by etrans]|]. intros w Hin. rewrite Ho2 by (intros ?; apply Hin; by right).
    apply Ho. intros ->. apply Hin. by left.
Qed.

Lemma clear_dead_edit (f : funcdata) : graph_ok f ->
  runs (clear_dead_varnodes f) (fun f' => edited f f' /\
    forall w x, varnodes f !! w = Some x -> descend x <> [] \/ is_written x = true -> varnodes f' !! w = Some x).
Proof.
  intros G. eapply runs_mono; [apply delete_all_runs; [done| |]|].
  - apply List.NoDup_filter, List.NoDup_filter, seq_NoDup.
  - intros v [_ Hv]%filter_In. unfold is_dead_varnode in Hv. destruct (varnodes f !! v) as [x|] eqn:Hx; [|done]. exists x. split; [done|].
    apply andb_true_iff in Hv as [_ Hv]. eapply free_unwritten; [by eapply G|]. apply orb_true_iff in Hv as [?|[? _]%andb_true_iff]; tauto.
  - intros f' [E Ho]. split; [done|]. intros w x Hx Hkeep. rewrite Ho; [done|]. intros [_ Hw]%filter_In.
    unfold is_dead_varnode in Hw. rewrite Hx in Hw. apply andb_true_iff in Hw as [Hd%bool_decide_eq_true Hf].
    destruct Hkeep as [?|Hkeep]; [done|]. assert (is_written x = false); [|congruence].
    eapply free_unwritten; [by eapply G|]. apply orb_true_iff in Hf as [?|[? _]%andb_true_iff]; tauto.
Qed.
