(* ===== verification/FuncdataBlocks.v ===== *)
(** Operations in their blocks, and the edges between blocks: an operation lies in at most one block,
    the one it names; leading MULTIEQUALs stay in front; an edge is listed on both of its sides. *)
From Stdlib Require Import ZArith Lia Bool List.
From stdpp Require Import base decidable option list strings gmap numbers tactics.
From S2P Require Import Prelude Space OpCode BitUtil Funcdata FuncdataLinks FuncdataEdits.
Local Open Scope Z_scope.

Definition block_ops (f : funcdata) (b : nat) : list nat := default [] (bops <$> blocks f !! b).
Definition ins (f : funcdata) (b : nat) : list nat := default [] (in_edges <$> blocks f !! b).
Definition outs (f : funcdata) (b : nat) : list nat := default [] (out_edges <$> blocks f !! b).
Definition parent_of (f : funcdata) (o : nat) : option nat := ops f !! o ≫= parent.

Record placed_ok (f : funcdata) : Prop := PlacedOk {
  pl_parent : forall b o, In o (block_ops f b) -> parent_of f o = Some b;
  pl_nodup : forall b, List.NoDup (block_ops f b);
  pl_block : forall o b, parent_of f o = Some b -> (b < List.length (blocks f))%nat;
  pl_guard : forall o x t, ops f !! o = Some x -> guarded_op x = Some t -> (t < List.length (ops f))%nat;
}.

Definition edges_ok (f : funcdata) : Prop := forall a b, count (outs f a) b = count (ins f b) a.

(** Link edits leave both alone. *)
Lemma keeps_placed (f f' : funcdata) : keeps f f' -> placed_ok f -> placed_ok f'.
Proof.
  intros K [H1 H2 H3 H4].
  assert (Hp : forall o, (o < List.length (ops f))%nat -> parent_of f' o = parent_of f o).
  { intros o Ho. destruct (lookup_lt_is_Some_2 _ _ Ho) as [x Hx]. destruct (k_ops _ _ K o x Hx) as (y & Hy & E & _).
    unfold parent_of. by rewrite Hx, Hy. }
  assert (Hn : forall o b, parent_of f' o = Some b -> (o < List.length (ops f))%nat).
  { intros o b Ho. destruct (decide (o < List.length (ops f))%nat); [done|]. unfold parent_of in Ho.
    destruct (ops f' !! o) as [y|] eqn:Hy; [|done]. cbn in Ho. destruct (k_new _ _ K o y ltac:(lia) Hy). congruence. }
  constructor; unfold block_ops in *; rewrite ?(k_blocks _ _ K).
  - intros b o Hin. specialize (H1 b o Hin). rewrite Hp; [done|]. unfold parent_of in H1.
    destruct (ops f !! o) eqn:E; [by eapply lookup_lt_Some|done].
  - done.
  - intros o b Ho. apply (H3 o). rewrite <- Hp; [done|by eapply Hn].
  - intros o y t Hy Hg. pose proof (k_no _ _ K). destruct (decide (o < List.length (ops f))%nat) as [Ho|Ho].
    + destruct (lookup_lt_is_Some_2 _ _ Ho) as [x Hx]. destruct (k_ops _ _ K o x Hx) as (y' & Hy' & _ & E).
      assert (guarded_op x = Some t) by congruence. specialize (H4 o x t Hx ltac:(done)). lia.
    + destruct (k_new _ _ K o y ltac:(lia) Hy). congruence.
Qed.

Lemma keeps_edges (f f' : funcdata) : keeps f f' -> edges_ok f -> edges_ok f'.
Proof. intros K H a b. unfold outs, ins. rewrite (k_blocks _ _ K). apply H. Qed.

(** ** Updates of one block *)

Record block_update (f : funcdata) (b : nat) (x y : block_basic) (f' : funcdata) : Prop := BlockUpdate {
  bu_at : blocks f !! b = Some x;
  bu_blocks : forall c, blocks f' !! c = if decide (c = b) then Some y else blocks f !! c;
  bu_len : List.length (blocks f') = List.length (blocks f);
  bu_ops : ops f' = ops f;
  bu_vns : varnodes f' = varnodes f;
  bu_spaces : spaces f' = spaces f;
  bu_structured : structured f' = structured f;
}.

Lemma block_mut_update (f : funcdata) (b : nat) (g : block_basic -> block_basic) (x : block_basic) :
  blocks f !! b = Some x -> runs (block_mut f b g) (block_update f b x (g x)).
Proof.
  intros Hx. unfold block_mut. cbn. rewrite Hx. cbn. pose proof (lookup_lt_Some _ _ _ Hx).
  constructor; try done; cbn; [intros c; by apply lookup_upd|by rewrite length_insert].
Qed.

Section BlockUpdate.
Context (f f' : funcdata) (b : nat) (x y : block_basic) (U : block_update f b x y f').

Lemma bu_block_ops (c : nat) : block_ops f' c = if decide (c = b) then bops y else block_ops f c.
Proof. unfold block_ops. rewrite (bu_blocks _ _ _ _ _ U). by case_decide. Qed.
Lemma bu_ins (c : nat) : ins f' c = if decide (c = b) then in_edges y else ins f c.
Proof. unfold ins. rewrite (bu_blocks _ _ _ _ _ U). by case_decide. Qed.
Lemma bu_outs (c : nat) : outs f' c = if decide (c = b) then out_edges y else outs f c.
Proof. unfold outs. rewrite (bu_blocks _ _ _ _ _ U). by case_decide. Qed.

Lemma bu_graph : graph_ok f -> graph_ok f'.
Proof.
  destruct U as [_ _ _ Eo Ev _ _]. intros [H1 H2 H3]. unfold readers, inputs, def_of, out_of in *. constructor; unfold readers, inputs, def_of, out_of; rewrite ?Eo, ?Ev; done.
Qed.
End BlockUpdate.

Lemma block_ops_at (f : funcdata) (b : nat) (x : block_basic) : blocks f !! b = Some x -> block_ops f b = bops x.
Proof. unfold block_ops. by intros ->. Qed.
Lemma ins_at (f : funcdata) (b : nat) (x : block_basic) : blocks f !! b = Some x -> ins f b = in_edges x.
Proof. unfold ins. by intros ->. Qed.
Lemma outs_at (f : funcdata) (b : nat) (x : block_basic) : blocks f !! b = Some x -> outs f b = out_edges x.
Proof. unfold outs. by intros ->. Qed.

(** ** Insertion *)

(** [f'] is [f] with [op], which was in no block, at position [at_] of block [b]; without a block it
    only loses its parent. *)
Record inserted (f : funcdata) (op b at_ : nat) (f' : funcdata) : Prop := Inserted {
  ip_graph : graph_ok f -> graph_ok f';
  ip_placed : placed_ok f -> placed_ok f';
  ip_edges : edges_ok f -> edges_ok f';
  ip_at : block_ops f' b = take at_ (block_ops f b) ++ op :: drop at_ (block_ops f b);
  ip_other : forall c, c <> b -> block_ops f' c = block_ops f c;
  ip_code : forall o, op_code f' o = op_code f o;
  ip_spaces : spaces f' = spaces f;
}.

Definition unplaced (f : funcdata) (op : nat) : Prop := forall b, ~ In op (block_ops f b).

Lemma op_update_graph (f f' : funcdata) (op : nat) (x y : pcode_op) : op_update f op x y f' -> inrefs y = inrefs x -> output y = output x ->
  graph_ok f -> graph_ok f'.
Proof.
  intros U Ei Eo G. pose proof (ou_at _ _ _ _ _ U) as Hx. eapply graph_rewired; [exact G| | | |].
  - intros w. apply (ou_def_of _ _ _ _ _ U).
  - intros p. rewrite (ou_out_of _ _ _ _ _ U). case_decide as E; [|done]. by rewrite E, (out_of_at _ _ _ Hx).
  - intros w z. rewrite (ou_vns _ _ _ _ _ U). eauto.
  - intros w p. rewrite (ou_readers _ _ _ _ _ U), (ou_inputs _ _ _ _ _ U), (go_use _ G).
    case_decide as E; [|done]. by rewrite E, (inputs_at _ _ _ Hx), Ei.
Qed.

(** An operation changes its parent while it lies in no block. *)
Lemma reparent_placed (f f' : funcdata) (op : nat) (x : pcode_op) (b : option nat) : unplaced f op ->
  (forall c, b = Some c -> (c < List.length (blocks f))%nat) -> op_update f op x (set_parent b x) f' -> placed_ok f -> placed_ok f'.
Proof.
  intros Hu Hb U [H1 H2 H3 H4]. pose proof (ou_at _ _ _ _ _ U) as Hx.
  assert (Hp : forall o, parent_of f' o = if decide (o = op) then b else parent_of f o).
  { intros o. unfold parent_of. rewrite (ou_ops _ _ _ _ _ U). by case_decide. }
  constructor; unfold block_ops in *; rewrite ?(ou_blocks _ _ _ _ _ U).
  - intros c o Hin. rewrite Hp. case_decide as E; [subst; by destruct (Hu c)|by apply H1].
  - done.
  - intros o c. rewrite Hp. case_decide; [apply Hb|apply H3].
  - intros o y t. rewrite (ou_ops _ _ _ _ _ U), (ou_len _ _ _ _ _ U). case_decide as E; [|apply H4].
    intros [= <-]. apply (H4 op x t Hx).
Qed.

Lemma NoDup_insert_at (l : list nat) (i x : nat) : List.NoDup l -> ~ In x l -> List.NoDup (take i l ++ x :: drop i l).
Proof.
  intros Hn Hx. rewrite <- (take_drop i l) in Hn, Hx.
  apply (proj2 (List.NoDup_Add (Add_app x (take i l) (drop i l)))). done.
Qed.

Lemma op_update_blocks (f f' : funcdata) (op : nat) (x y : pcode_op) : op_update f op x y f' ->
  (forall b, block_ops f' b = block_ops f b) /\ (forall b, ins f' b = ins f b) /\ (forall b, outs f' b = outs f b).
Proof. intros U. unfold block_ops, ins, outs. by rewrite (ou_blocks _ _ _ _ _ U). Qed.

Lemma place_edit (f : funcdata) (b at_ op : nat) : parent_of f op = Some b -> unplaced f op ->
  (b < List.length (blocks f))%nat -> (at_ <= List.length (block_ops f b))%nat ->
  runs (place f b at_ op) (inserted f op b at_).
Proof.
  intros Hp Hu Hb Hat. destruct (lookup_lt_is_Some_2 _ _ Hb) as [x Hx]. unfold place. rewrite (block_ops_at _ _ _ Hx) in Hat.
  rewrite Hx. cbn. unfold vec_insert. rewrite (proj2 (Nat.leb_le _ _) Hat). cbn [mbind option_bind].
  eapply runs_mono; [by apply block_mut_update|]. cbn beta. intros f' U.
  pose proof (bu_block_ops _ _ _ _ _ U) as Hops. cbn in Hops.
  constructor; unfold op_code; rewrite ?(bu_ops _ _ _ _ _ U), ?(bu_spaces _ _ _ _ _ U); try done.
  - by apply (bu_graph _ _ _ _ _ U).
  - intros [H1 H2 H3 H4]. constructor; unfold parent_of; rewrite ?(bu_ops _ _ _ _ _ U), ?(bu_len _ _ _ _ _ U); try done.
    + intros c o. rewrite Hops. case_decide as E; [|apply H1]. subst c. intros [Hin | [<- | Hin]]%in_app_iff; [|done|].
      * apply H1. rewrite (block_ops_at _ _ _ Hx). rewrite <- (take_drop at_ (bops x)). apply in_app_iff. by left.
      * apply H1. rewrite (block_ops_at _ _ _ Hx). rewrite <- (take_drop at_ (bops x)). apply in_app_iff. by right.
    + intros c. rewrite Hops. case_decide as E; [|apply H2]. subst c. specialize (Hu b). specialize (H2 b).
      rewrite (block_ops_at _ _ _ Hx) in Hu, H2. by apply NoDup_insert_at.
  - intros H a c. rewrite (bu_outs _ _ _ _ _ U), (bu_ins _ _ _ _ _ U). specialize (H a c). repeat case_decide; subst; cbn;
      rewrite <- ?(outs_at _ _ _ Hx), <- ?(ins_at _ _ _ Hx); done.
  - rewrite Hops, decide_True by done. by rewrite (block_ops_at _ _ _ Hx).
  - intros c Hc. rewrite Hops. by case_decide.
Qed.

Lemma lookup_op_code (f f' : funcdata) (op : nat) (x y : pcode_op) (o : nat) : op_update f op x y f' -> opc y = opc x ->
  op_code f' o = op_code f o.
Proof.
  intros U E. unfold op_code. rewrite (ou_ops _ _ _ _ _ U). case_decide as D; [|done]. subst o.
  rewrite (ou_at _ _ _ _ _ U). cbn. by rewrite E.
Qed.

(** The common shape of the insertions: the operation takes block [b] as its parent and its place there. *)
Lemma enter_block (f : funcdata) (op b at_ : nat) (x : pcode_op) : ops f !! op = Some x -> unplaced f op ->
  (b < List.length (blocks f))%nat -> (at_ <= List.length (block_ops f b))%nat ->
  runs (f ← op_mut f op (set_parent (Some b)); place f b at_ op) (inserted f op b at_).
Proof.
  intros Hx Hu Hb Hat. run_step ltac:(by apply op_mut_update). cbn beta. intros f1 U.
  destruct (op_update_blocks _ _ _ _ _ U) as (Eb & Ei & Eo). eapply runs_mono.
  - apply place_edit; unfold parent_of; rewrite ?(ou_ops _ _ _ _ _ U), ?(ou_blocks _ _ _ _ _ U), ?Eb; try done.
    + by rewrite decide_True.
    + intros c. by rewrite Eb.
  - intros f2 [G1 G2 G3 G4 G5 G6 G7]. rewrite Eb in G4. constructor; try done.
    + intros G. apply G1. by eapply op_update_graph.
    + intros P. apply G2. eapply reparent_placed; [done| |done|done]. by intros c [= <-].
    + intros E. apply G3. intros a c. by rewrite Eo, Ei.
    + intros c Hc. by rewrite G5, Eb.
    + intros o. rewrite G6. by apply (lookup_op_code _ _ _ _ _ _ U).
    + by rewrite G7, (ou_spaces _ _ _ _ _ U).
Qed.

Lemma enter_block_as (f : funcdata) (op b at_ : nat) (x : pcode_op) (k : funcdata -> option funcdata) :
  ops f !! op = Some x -> unplaced f op -> (b < List.length (blocks f))%nat -> (at_ <= List.length (block_ops f b))%nat ->
  (forall f1, op_update f op x (set_parent (Some b) x) f1 -> k f1 = place f1 b at_ op) ->
  runs (f ← op_mut f op (set_parent (Some b)); k f) (inserted f op b at_).
Proof.
  intros Hx Hu Hb Hat Hk. pose proof (enter_block f op b at_ x Hx Hu Hb Hat) as H.
  pose proof (op_mut_update f op (set_parent (Some b)) x Hx) as U. destruct (op_mut f op _) as [f1|]; [|done].
  cbn in *. by rewrite (Hk f1 U).
Qed.

(** Reading the block after the operation took its parent is reading it before. *)
Lemma op_update_block (f f' : funcdata) (op b : nat) (x y : pcode_op) (z : block_basic) : op_update f op x y f' ->
  blocks f !! b = Some z -> blocks f' !! b = Some z.
Proof. intros U. by rewrite (ou_blocks _ _ _ _ _ U). Qed.

Lemma op_update_phi (f f' : funcdata) (op o : nat) (x : pcode_op) (p : option nat) : op_update f op x (set_parent p x) f' ->
  is_phi f' o = is_phi f o.
Proof. intros U. unfold is_phi. by rewrite (lookup_op_code _ _ _ _ _ o U). Qed.

Lemma partition_point_ext {A : Type} (p q : A -> bool) (l : list A) : (forall a, p a = q a) -> partition_point p l = partition_point q l.
Proof. intros H. induction l as [|a l IH]; cbn; [done|]. by rewrite H, IH. Qed.

Lemma op_update_phis (f f' : funcdata) (op : nat) (x : pcode_op) (p : option nat) (l : list nat) : op_update f op x (set_parent p x) f' ->
  leading_phis f' l = leading_phis f l.
Proof. intros U. apply partition_point_ext. intros o. by eapply op_update_phi. Qed.

Lemma position_of_in (x : nat) (l : list nat) : In x l ->
  exists a b, l = a ++ x :: b /\ position_of x l = Some (List.length a).
Proof.
  intros Hin. pose proof (position_of_spec x l) as H. destruct (position_of x l); [|done]. destruct H as (a & b & -> & _ & ->). eauto.
Qed.

(** An insertion, read on the list of the block: [op] enters between [before] and [after]. *)
Record entered (f : funcdata) (op b : nat) (before after : list nat) (f' : funcdata) : Prop := Entered {
  en_was : block_ops f b = before ++ after;
  en_ins : inserted f op b (List.length before) f';
}.

Lemma entered_ops (f f' : funcdata) (op b : nat) (before after : list nat) : entered f op b before after f' ->
  block_ops f' b = before ++ op :: after.
Proof. intros [E I]. by rewrite (ip_at _ _ _ _ _ I), E, take_app_length, drop_app_length. Qed.

Section Insertions.
Context (f : funcdata) (PL : placed_ok f).

Lemma op_insert_before_edit (newop follow b : nat) (x : pcode_op) : ops f !! newop = Some x -> unplaced f newop ->
  In follow (block_ops f b) ->
  runs (op_insert_before f newop follow) (fun f' => exists before after, entered f newop b before (follow :: after) f').
Proof.
  intros Hx Hu Hin. pose proof (pl_parent _ PL b follow Hin) as Hp. pose proof (pl_block _ PL _ _ Hp) as Hb.
  destruct (lookup_lt_is_Some_2 _ _ Hb) as [z Hz]. destruct (position_of_in _ _ Hin) as (l1 & l2 & E & Epos).
  unfold op_insert_before. unfold parent_of in Hp. destruct (ops f !! follow) as [o|]; [|done]. cbn in Hp |- *. rewrite Hp.
  eapply runs_mono; [eapply (enter_block_as f newop b (List.length l1) x)|].
  - done.
  - done.
  - done.
  - rewrite E, length_app. lia.
  - intros f1 U. rewrite (op_update_block _ _ _ _ _ _ _ U Hz). cbn. rewrite <- (block_ops_at _ _ _ Hz), Epos. done.
  - intros f' I. exists l1, l2. by split.
Qed.

Lemma op_insert_after_edit (newop prev at_ b : nat) (x : pcode_op) : ops f !! newop = Some x -> unplaced f newop ->
  effect_of f prev = Some at_ -> In at_ (block_ops f b) ->
  runs (op_insert_after f newop prev) (fun f' => exists before phis after,
    entered f newop b (before ++ at_ :: phis) after f' /\
    (is_phi f newop = true -> phis = []) /\ List.Forall (fun o => is_phi f o = true) phis /\
    (is_phi f newop = false -> forall o after', after = o :: after' -> is_phi f o = false)).
Proof.
  intros Hx Hu He Hin. pose proof (pl_parent _ PL b at_ Hin) as Hp. pose proof (pl_block _ PL _ _ Hp) as Hb.
  destruct (lookup_lt_is_Some_2 _ _ Hb) as [z Hz]. destruct (position_of_in _ _ Hin) as (l1 & l2 & E & Epos).
  unfold op_insert_after. rewrite He. cbn [mbind option_bind]. unfold parent_of in Hp. destruct (ops f !! at_) as [o|]; [|done].
  cbn in Hp |- *. rewrite Hp. pose proof (partition_point_le (is_phi f) l2) as Hle.
  set (n := if is_phi f newop then 0%nat else leading_phis f l2).
  assert (Hn : (n <= List.length l2)%nat) by (unfold n, leading_phis; destruct (is_phi f newop); lia).
  assert (Ed : drop (S (List.length l1)) (block_ops f b) = l2).
  { rewrite E. change (at_ :: l2) with ([at_] ++ l2). rewrite app_assoc, drop_app_length'; [done|]. rewrite length_app. cbn. lia. }
  eapply runs_mono; [eapply (enter_block_as f newop b (S (List.length l1) + n) x)|].
  - done.
  - done.
  - done.
  - rewrite E, length_app. cbn. lia.
  - intros f1 U. rewrite (op_update_block _ _ _ _ _ _ _ U Hz). cbn [mbind option_bind].
    rewrite <- (block_ops_at _ _ _ Hz), Epos. change (default _ (S <$> Some (List.length l1))) with (S (List.length l1)).
    rewrite (op_update_phi _ _ _ newop _ _ U), Ed. rewrite (op_update_phis _ _ _ _ _ _ U). unfold n.
    destruct (is_phi f newop); [by rewrite Nat.add_0_r|done].
  - intros f' I. exists l1, (take n l2), (drop n l2). split; [split|split_and!].
    + by rewrite <- app_assoc, <- app_comm_cons, take_drop.
    + by replace (List.length (l1 ++ at_ :: take n l2)) with (S (List.length l1) + n)%nat
        by (rewrite length_app; cbn; rewrite length_take; lia).
    + unfold n. by intros ->.
    + unfold n. destruct (is_phi f newop); [constructor|]. clear. unfold leading_phis. induction l2 as [|a l IH]; cbn; [constructor|].
      destruct (is_phi f a) eqn:Ea; cbn; [by constructor|constructor].
    + unfold n. intros -> o' after' Ha. clear - Ha. unfold leading_phis in Ha. induction l2 as [|a l IH]; cbn in Ha; [done|].
      destruct (is_phi f a) eqn:Ea; cbn in Ha; [by apply IH|congruence].
Qed.

Lemma op_insert_begin_edit (op b : nat) (x : pcode_op) : ops f !! op = Some x -> unplaced f op -> (b < List.length (blocks f))%nat ->
  runs (op_insert_begin f op b) (entered f op b (if is_phi f op then [] else take (leading_phis f (block_ops f b)) (block_ops f b))
                                   (if is_phi f op then block_ops f b else drop (leading_phis f (block_ops f b)) (block_ops f b))).
Proof.
  intros Hx Hu Hb. destruct (lookup_lt_is_Some_2 _ _ Hb) as [z Hz]. unfold op_insert_begin.
  pose proof (partition_point_le (is_phi f) (block_ops f b)) as Hle. fold (leading_phis f (block_ops f b)) in Hle.
  eapply runs_mono; [eapply (enter_block_as f op b (if is_phi f op then 0%nat else leading_phis f (block_ops f b)) x)|].
  - done.
  - done.
  - done.
  - destruct (is_phi f op); lia.
  - intros f1 U. rewrite (op_update_block _ _ _ _ _ _ _ U Hz). cbn [mbind option_bind].
    rewrite (op_update_phi _ _ _ op _ _ U), <- (block_ops_at _ _ _ Hz). by rewrite (op_update_phis _ _ _ _ _ _ U).
  - intros f' I. split; [destruct (is_phi f op); [done|by rewrite take_drop]|].
    destruct (is_phi f op); [done|]. rewrite length_take, Nat.min_l by lia. done.
Qed.

Lemma op_insert_end_edit (op b : nat) (x : pcode_op) : ops f !! op = Some x -> unplaced f op -> (b < List.length (blocks f))%nat ->
  (forall o, In o (block_ops f b) -> is_Some (op_code f o)) ->
  runs (op_insert_end f op b) (fun f' =>
    (entered f op b (block_ops f b) [] f' /\
     (forall o l, block_ops f b = l ++ [o] -> terminates_block <$> op_code f o = Some false)) \/
    (exists l o, entered f op b l [o] f' /\ terminates_block <$> op_code f o = Some true)).
Proof.
  intros Hx Hu Hb Hcodes. destruct (lookup_lt_is_Some_2 _ _ Hb) as [z Hz]. unfold op_insert_end.
  destruct (list_eq_dec Nat.eq_dec (block_ops f b) []) as [E|E].
  - eapply runs_mono; [eapply (enter_block_as f op b 0 x)|]; [done|done|done|lia| |].
    + intros f1 U. rewrite (op_update_block _ _ _ _ _ _ _ U Hz). cbn [mbind option_bind].
      rewrite <- (block_ops_at _ _ _ Hz), E. done.
    + intros f' I. left. split; [split; [by rewrite app_nil_r|by rewrite E]|]. intros o l. rewrite E. by destruct l.
  - destruct (exists_last E) as (l & o & El). destruct (Hcodes o) as [c Hc]; [rewrite El; apply in_app_iff; right; by left|].
    assert (Hlast : block_ops f b !! Nat.pred (List.length (block_ops f b)) = Some o).
    { rewrite El, length_app. cbn. rewrite Nat.add_1_r. cbn. by rewrite list_lookup_middle. }
    eapply runs_mono; [eapply (enter_block_as f op b (if terminates_block c then List.length l else S (List.length l)) x)|]; [done|done|done| | |].
    + rewrite El, length_app. cbn. destruct (terminates_block c); lia.
    + intros f1 U. rewrite (op_update_block _ _ _ _ _ _ _ U Hz). cbn [mbind option_bind].
      rewrite <- (block_ops_at _ _ _ Hz), Hlast, (lookup_op_code _ _ _ _ _ o U), Hc by done. cbn [mbind option_bind].
      rewrite El, length_app. cbn. by rewrite Nat.add_1_r.
    + intros f' I. destruct (terminates_block c) eqn:Et.
      * right. exists l, o. split; [by split|]. by rewrite Hc; cbn; rewrite Et.
      * left. split; [split; [by rewrite app_nil_r|]|].
        -- rewrite El, length_app. cbn. by rewrite Nat.add_1_r.
        -- intros o' l' El'. rewrite El in El'. apply app_inj_tail in El' as [<- <-]. rewrite Hc. cbn. by rewrite Et.
Qed.

(** [op_uninsert] takes the operation out of its block; its parent stays. *)
Lemma op_uninsert_edit (op b : nat) : In op (block_ops f b) -> 
  runs (op_uninsert f op) (fun f' => unplaced f' op /\ block_ops f' b = remove_first op (block_ops f b) /\
    (forall c, c <> b -> block_ops f' c = block_ops f c) /\ placed_ok f' /\
    (graph_ok f -> graph_ok f') /\ (edges_ok f -> edges_ok f') /\ ops f' = ops f /\ spaces f' = spaces f).
Proof.
  intros Hin. pose proof (pl_parent _ PL b op Hin) as Hp. pose proof (pl_block _ PL _ _ Hp) as Hb.
  destruct (lookup_lt_is_Some_2 _ _ Hb) as [z Hz]. unfold op_uninsert. pose proof Hp as Hp'. unfold parent_of in Hp.
  destruct (ops f !! op) as [o|] eqn:Eo; [|done]. cbn in Hp |- *. rewrite Hp. eapply runs_mono; [by apply block_mut_update|].
  cbn beta. intros f' U. pose proof (bu_block_ops _ _ _ _ _ U) as Hops. cbn in Hops. rewrite <- (block_ops_at _ _ _ Hz) in Hops.
  destruct (remove_first_split op (block_ops f b) Hin) as (l1 & l2 & E & _ & Er). pose proof (pl_nodup _ PL b) as Hn. rewrite E in Hn.
  apply (List.NoDup_Add (Add_app op l1 l2)) in Hn as [Hn Hni].
  assert (Hu : unplaced f' op).
  { intros c. rewrite Hops. case_decide as D; [by rewrite Er|]. intros Hc. pose proof (pl_parent _ PL c op Hc). congruence. }
  split_and!.
  - done.
  - by rewrite Hops, decide_True.
  - intros c Hc. rewrite Hops. by case_decide.
  - destruct PL as [H1 H2 H3 H4]. constructor; unfold parent_of; rewrite ?(bu_ops _ _ _ _ _ U), ?(bu_len _ _ _ _ _ U); try done.
    + intros c p. rewrite Hops. case_decide as D; [|apply H1]. subst c. intros Hq. apply H1. rewrite E. rewrite Er in Hq.
      apply in_app_iff in Hq as [|]; apply in_app_iff; [by left|by right; right].
    + intros c. rewrite Hops. case_decide; [by rewrite Er|apply H2].
  - apply (bu_graph _ _ _ _ _ U).
  - intros H a c. rewrite (bu_outs _ _ _ _ _ U), (bu_ins _ _ _ _ _ U). specialize (H a c). repeat case_decide; subst; cbn;
      rewrite <- ?(outs_at _ _ _ Hz), <- ?(ins_at _ _ _ Hz); done.
  - apply (bu_ops _ _ _ _ _ U).
  - apply (bu_spaces _ _ _ _ _ U).
Qed.
End Insertions.

(** ** Edges *)

(** The blocks keep their operations, and the function its values and operations. *)
Record same_nodes (f f' : funcdata) : Prop := SameNodes {
  sn_ops : ops f' = ops f;
  sn_vns : varnodes f' = varnodes f;
  sn_spaces : spaces f' = spaces f;
  sn_bops : forall b, block_ops f' b = block_ops f b;
  sn_len : (List.length (blocks f) <= List.length (blocks f'))%nat;
}.

#[export] Instance same_nodes_refl : Reflexive same_nodes.
Proof. intros f. by constructor. Qed.

#[export] Instance same_nodes_trans : Transitive same_nodes.
Proof. intros f g h [] []. constructor; solve [congruence | lia | intros b; congruence]. Qed.

Lemma same_nodes_graph (f f' : funcdata) : same_nodes f f' -> graph_ok f -> graph_ok f'.
Proof.
  intros [Eo Ev _ _ _] [H1 H2 H3]. unfold readers, inputs, def_of, out_of in *.
  constructor; unfold readers, inputs, def_of, out_of; rewrite ?Eo, ?Ev; done.
Qed.

Lemma same_nodes_placed (f f' : funcdata) : same_nodes f f' -> placed_ok f -> placed_ok f'.
Proof.
  intros [Eo _ _ Eb Hl] [H1 H2 H3 H4]. unfold parent_of in *. constructor; unfold parent_of; rewrite ?Eo.
  - intros b o. rewrite Eb. apply H1.
  - intros b. rewrite Eb. apply H2.
  - intros o b Hp. specialize (H3 o b Hp). lia.
  - done.
Qed.

(** The number of edges from [a] to [b]. *)
Definition edge (f : funcdata) (a b : nat) : nat := count (outs f a) b.

(** One edge, as a function of its ends. *)
Definition one (x y a b : nat) : nat := if decide (a = x) then if decide (b = y) then 1 else 0 else 0.

Lemma structure_reset_same (f : funcdata) : same_nodes f (structure_reset f).
Proof. by constructor. Qed.

Lemma outs_mut (f : funcdata) (b : nat) (g : list nat -> list nat) : (b < List.length (blocks f))%nat ->
  runs (block_mut f b (fun x => set_outs (g (out_edges x)) x)) (fun f' => same_nodes f f' /\ structured f' = structured f /\
    List.length (blocks f') = List.length (blocks f) /\
    (forall a, outs f' a = if decide (a = b) then g (outs f b) else outs f a) /\ (forall a, ins f' a = ins f a)).
Proof.
  intros Hb. destruct (lookup_lt_is_Some_2 _ _ Hb) as [x Hx]. eapply runs_mono; [by apply block_mut_update|]. cbn beta.
  intros f' U. pose proof (bu_block_ops _ _ _ _ _ U) as E1. pose proof (bu_ins _ _ _ _ _ U) as E2. cbn in E1, E2.
  split_and!; [|apply (bu_structured _ _ _ _ _ U)|apply (bu_len _ _ _ _ _ U)| |].
  - destruct U as [_ _ El Eo Ev Es _]. constructor; try done; [|lia]. intros c. rewrite E1. case_decide; [|done]. subst. by rewrite (block_ops_at _ _ _ Hx).
  - intros a. rewrite (bu_outs _ _ _ _ _ U), (outs_at _ _ _ Hx). done.
  - intros a. rewrite E2. case_decide; [|done]. subst. by rewrite (ins_at _ _ _ Hx).
Qed.

Lemma ins_mut (f : funcdata) (b : nat) (g : list nat -> list nat) : (b < List.length (blocks f))%nat ->
  runs (block_mut f b (fun x => set_ins (g (in_edges x)) x)) (fun f' => same_nodes f f' /\ structured f' = structured f /\
    List.length (blocks f') = List.length (blocks f) /\
    (forall a, ins f' a = if decide (a = b) then g (ins f b) else ins f a) /\ (forall a, outs f' a = outs f a)).
Proof.
  intros Hb. destruct (lookup_lt_is_Some_2 _ _ Hb) as [x Hx]. eapply runs_mono; [by apply block_mut_update|]. cbn beta.
  intros f' U. pose proof (bu_block_ops _ _ _ _ _ U) as E1. pose proof (bu_outs _ _ _ _ _ U) as E2. cbn in E1, E2.
  split_and!; [|apply (bu_structured _ _ _ _ _ U)|apply (bu_len _ _ _ _ _ U)| |].
  - destruct U as [_ _ El Eo Ev Es _]. constructor; try done; [|lia]. intros c. rewrite E1. case_decide; [|done]. subst. by rewrite (block_ops_at _ _ _ Hx).
  - intros a. rewrite (bu_ins _ _ _ _ _ U), (ins_at _ _ _ Hx). done.
  - intros a. rewrite E2. case_decide; [|done]. subst. by rewrite (outs_at _ _ _ Hx).
Qed.

(** What an edge edit promises: the nodes stay, the sides still agree, and the structure is stale. *)
Record reflowed (f f' : funcdata) : Prop := Reflowed {
  rf_same : same_nodes f f';
  rf_edges : edges_ok f';
  rf_structured : structured f' = false;
}.

Lemma outs_lt (f : funcdata) (a b : nat) : In b (outs f a) -> (a < List.length (blocks f))%nat.
Proof. unfold outs. destruct (blocks f !! a) eqn:E; [intros _; by eapply lookup_lt_Some|intros []]. Qed.

Lemma ins_lt (f : funcdata) (a b : nat) : In b (ins f a) -> (a < List.length (blocks f))%nat.
Proof. unfold ins. destruct (blocks f !! a) eqn:E; [intros _; by eapply lookup_lt_Some|intros []]. Qed.

Lemma edge_sides (f : funcdata) (a b : nat) : edges_ok f -> In b (outs f a) <-> In a (ins f b).
Proof. intros H. by rewrite <- !count_pos, (H a b). Qed.

Ltac edge_cases := unfold edge, one in *; repeat case_decide; subst; rewrite ?count_app, ?count_cons, ?count_nil in *;
  repeat case_decide; try congruence; try lia.

Lemma add_edge_edit (f : funcdata) (from to : nat) : edges_ok f -> (from < List.length (blocks f))%nat -> (to < List.length (blocks f))%nat ->
  runs (add_edge f from to) (fun f' => reflowed f f' /\ List.length (blocks f') = List.length (blocks f) /\
    (forall a, outs f' a = if decide (a = from) then outs f from ++ [to] else outs f a) /\
    (forall a, ins f' a = if decide (a = to) then ins f to ++ [from] else ins f a) /\
    (forall a b, edge f' a b = edge f a b + one from to a b)%nat).
Proof.
  intros Hok Hf Ht. unfold add_edge.
  run_step ltac:(by apply (outs_mut (structure_reset f) from (fun l => l ++ [to]))). cbn beta. intros f1 (S1 & T1 & L1 & O1 & I1).
  eapply runs_mono; [apply (ins_mut f1 to (fun l => l ++ [from])); by rewrite L1|]. cbn beta. intros f2 (S2 & T2 & L2 & I2 & O2).
  assert (EO : forall a, outs f2 a = if decide (a = from) then outs f from ++ [to] else outs f a) by (intros a; by rewrite O2, O1).
  assert (EI : forall a, ins f2 a = if decide (a = to) then ins f to ++ [from] else ins f a) by (intros a; by rewrite I2, !I1).
  split_and!; [constructor| |done|done|].
  - etrans; [exact (structure_reset_same f)|]. by etrans.
  - intros a b. rewrite EO, EI. pose proof (Hok a b). edge_cases.
  - by rewrite T2, T1.
  - by rewrite L2, L1.
  - intros a b. unfold edge. rewrite EO. edge_cases.
Qed.

Lemma new_block_basic_edit (f : funcdata) : edges_ok f -> let '(n, f') := new_block_basic f in
  reflowed f f' /\ n = List.length (blocks f) /\ List.length (blocks f') = S n /\
  (forall a, outs f' a = outs f a) /\ (forall a, ins f' a = ins f a) /\ (forall a b, edge f' a b = edge f a b).
Proof.
  intros Hok. cbn.
  assert (H : forall b (A : Type) (g : block_basic -> list A), g (BlockBasic [] [] []) = [] ->
    default [] (g <$> (blocks f ++ [BlockBasic [] [] []]) !! b) = default [] (g <$> blocks f !! b)).
  { intros b A g Hg. destruct (lt_eq_lt_dec b (List.length (blocks f))) as [[Hb | ->]|Hb].
    - by rewrite lookup_app_l.
    - rewrite list_lookup_middle by done. cbn. rewrite Hg. rewrite (proj2 (list.lookup_ge_None (blocks f) (List.length (blocks f)))); [done|lia].
    - rewrite (proj2 (list.lookup_ge_None _ b)) by (rewrite length_app; cbn; lia). by rewrite (proj2 (list.lookup_ge_None _ b)) by lia. }
  assert (HO : forall a, outs (with_blocks (structure_reset f) (blocks f ++ [BlockBasic [] [] []])) a = outs f a)
    by (intros a; by apply (H a nat out_edges)).
  assert (HI : forall a, ins (with_blocks (structure_reset f) (blocks f ++ [BlockBasic [] [] []])) a = ins f a)
    by (intros a; by apply (H a nat in_edges)).
  split_and!; [constructor|done| |done|done|].
  - constructor; try done; [|cbn; rewrite length_app; lia]. intros b. by apply (H b nat bops).
  - intros a b. rewrite HO, HI. apply Hok.
  - done.
  - rewrite length_app. cbn. lia.
  - intros a b. unfold edge. by rewrite HO.
Qed.

Lemma remove_edge_edit (f : funcdata) (from to : nat) : edges_ok f -> In to (outs f from) ->
  runs (remove_edge f from to) (fun f' => reflowed f f' /\ List.length (blocks f') = List.length (blocks f) /\
    (forall a, outs f' a = if decide (a = from) then remove_first to (outs f from) else outs f a) /\
    (forall a, ins f' a = if decide (a = to) then remove_first from (ins f to) else ins f a) /\
    (forall a b, edge f' a b + one from to a b = edge f a b)%nat).
Proof.
  intros Hok Hin. pose proof (outs_lt _ _ _ Hin) as Hf. pose proof (proj1 (edge_sides _ _ _ Hok) Hin) as Hin'.
  pose proof (ins_lt _ _ _ Hin') as Ht. unfold remove_edge. cbn [blocks structure_reset].
  destruct (lookup_lt_is_Some_2 _ _ Hf) as [x Hx]. destruct (lookup_lt_is_Some_2 _ _ Ht) as [y Hy]. rewrite Hx, Hy. cbn [mbind option_bind].
  rewrite <- (outs_at _ _ _ Hx), <- (ins_at _ _ _ Hy).
  destruct (position_of_in _ _ Hin) as (l1 & l2 & E & Ep). destruct (position_of_in _ _ Hin') as (m1 & m2 & E' & Ep').
  rewrite Ep, Ep'. cbn [mbind option_bind].
  run_step ltac:(by apply (outs_mut (structure_reset f) from (delete (List.length l1)))). cbn beta. intros f1 (S1 & T1 & L1 & O1 & I1).
  eapply runs_mono; [apply (ins_mut f1 to (delete (List.length m1))); by rewrite L1|]. cbn beta. intros f2 (S2 & T2 & L2 & I2 & O2).
  assert (EO : forall a, outs f2 a = if decide (a = from) then remove_first to (outs f from) else outs f a).
  { intros a. rewrite O2, O1. unfold remove_first. by rewrite Ep. }
  assert (EI : forall a, ins f2 a = if decide (a = to) then remove_first from (ins f to) else ins f a).
  { intros a. rewrite I2, !I1. unfold remove_first. by rewrite Ep'. }
  assert (EE : forall a b, (edge f2 a b + one from to a b = edge f a b)%nat).
  { intros a b. unfold edge, one. rewrite EO. case_decide; [|lia]. subst. rewrite count_remove_first.
    pose proof (proj2 (count_pos _ _) Hin). repeat case_decide; subst; try congruence; lia. }
  split_and!; [constructor| |done|done|done].
  - etrans; [exact (structure_reset_same f)|]. by etrans.
  - intros a b. specialize (EE a b). pose proof (Hok a b) as H. unfold edge, one in EE. rewrite EI. destruct (decide (b = to)) as [D|D].
    + subst b. rewrite count_remove_first. repeat case_decide; subst; try congruence; lia.
    + repeat case_decide; try congruence; lia.
  - by rewrite T2, T1.
  - by rewrite L2, L1.
Qed.

Lemma move_out_edge_edit (f : funcdata) (blold slot blnew outbl : nat) : edges_ok f -> outs f blold !! slot = Some outbl ->
  (blnew < List.length (blocks f))%nat ->
  runs (move_out_edge f blold slot blnew) (fun f' => reflowed f f' /\ List.length (blocks f') = List.length (blocks f) /\
    (blnew <> blold -> outs f' blnew = outs f blnew ++ [outbl]) /\
    List.length (ins f' outbl) = List.length (ins f outbl) /\
    (forall a b, edge f' a b + one blold outbl a b = edge f a b + one blnew outbl a b)%nat).
Proof.
  intros Hok Hs Hn. assert (Hin : In outbl (outs f blold)) by (by eapply list_elem_of_In, list_elem_of_lookup_2).
  pose proof (outs_lt _ _ _ Hin) as Hf. pose proof (proj1 (edge_sides _ _ _ Hok) Hin) as Hin'.
  pose proof (ins_lt _ _ _ Hin') as Ht. unfold move_out_edge. cbn [blocks structure_reset].
  destruct (lookup_lt_is_Some_2 _ _ Hf) as [x Hx]. destruct (lookup_lt_is_Some_2 _ _ Ht) as [y Hy]. rewrite Hx. cbn [mbind option_bind].
  rewrite <- (outs_at _ _ _ Hx), Hs. cbn [mbind option_bind]. rewrite Hy. cbn [mbind option_bind]. rewrite <- (ins_at _ _ _ Hy).
  destruct (position_of_in _ _ Hin') as (m1 & m2 & E' & Ep'). rewrite Ep'. cbn [mbind option_bind].
  assert (Hm : ins f outbl !! List.length m1 = Some blold) by (rewrite E'; by apply list_lookup_middle).
  run_step ltac:(by apply (outs_mut (structure_reset f) blold (delete slot))). cbn beta. intros f1 (S1 & T1 & L1 & O1 & I1).
  run_step ltac:(apply (ins_mut f1 outbl (fun l => <[List.length m1 := blnew]> l)); by rewrite L1). cbn beta. intros f2 (S2 & T2 & L2 & I2 & O2).
  eapply runs_mono; [apply (outs_mut f2 blnew (fun l => l ++ [outbl])); by rewrite L2, L1|]. cbn beta. intros f3 (S3 & T3 & L3 & O3 & I3).
  change (ins (structure_reset f)) with (ins f) in I1. change (outs (structure_reset f)) with (outs f) in O1.
  assert (EE : forall a b, (edge f3 a b + one blold outbl a b = edge f a b + one blnew outbl a b)%nat).
  { intros a b. unfold edge, one. rewrite O3, !O2, !O1. pose proof (count_delete (outs f blold) slot outbl b Hs) as Hc.
    repeat case_decide; subst; rewrite ?count_app, ?count_cons, ?count_nil; repeat case_decide; try congruence; lia. }
  split_and!; [constructor| | | |done].
  - etrans; [exact (structure_reset_same f)|]. etrans; [done|]. by etrans.
  - intros a b. specialize (EE a b). pose proof (Hok a b) as H. unfold edge, one in EE. rewrite I3, I2, !I1. destruct (decide (b = outbl)) as [D|D].
    + subst b. pose proof (count_insert (ins f outbl) (List.length m1) blold blnew a Hm). repeat case_decide; subst; try congruence; lia.
    + repeat case_decide; try congruence; lia.
  - by rewrite T3, T2, T1.
  - by rewrite L3, L2, L1.
  - intros Hne. rewrite O3, decide_True, O2, O1 by done. by case_decide.
  - rewrite I3, I2, decide_True, !I1 by done. by rewrite length_insert.
Qed.

Lemma replace_edges_thru_edit (f : funcdata) (bl inslot outslot inb outb : nat) : edges_ok f ->
  ins f bl !! inslot = Some inb -> outs f bl !! outslot = Some outb -> inb <> bl -> outb <> bl ->
  runs (replace_edges_thru f bl inslot outslot) (fun f' => reflowed f f' /\ List.length (blocks f') = List.length (blocks f) /\
    (exists i, outs f inb !! i = Some bl /\ outs f' inb = <[i := outb]> (outs f inb)) /\
    (exists i, ins f outb !! i = Some bl /\ ins f' outb = <[i := inb]> (ins f outb)) /\
    ins f' bl = delete inslot (ins f bl) /\ outs f' bl = delete outslot (outs f bl) /\
    (forall a b, edge f' a b + one inb bl a b + one bl outb a b = edge f a b + one inb outb a b)%nat).
Proof.
  intros Hok Hi Ho Ni No. assert (Ho' : In outb (outs f bl)) by (by eapply list_elem_of_In, list_elem_of_lookup_2).
  assert (Hi' : In inb (ins f bl)) by (by eapply list_elem_of_In, list_elem_of_lookup_2).
  pose proof (proj2 (edge_sides _ _ _ Hok) Hi') as Hp. pose proof (proj1 (edge_sides _ _ _ Hok) Ho') as Hs.
  pose proof (ins_lt _ _ _ Hi') as Lb. pose proof (outs_lt _ _ _ Hp) as Lp. pose proof (ins_lt _ _ _ Hs) as Ls.
  destruct (lookup_lt_is_Some_2 _ _ Lb) as [x Hx]. destruct (lookup_lt_is_Some_2 _ _ Lp) as [p Hpx]. destruct (lookup_lt_is_Some_2 _ _ Ls) as [s Hsx].
  unfold replace_edges_thru. cbn [blocks structure_reset]. rewrite Hx. cbn [mbind option_bind].
  rewrite <- (outs_at _ _ _ Hx), <- (ins_at _ _ _ Hx), Hi. cbn [mbind option_bind]. rewrite Ho. cbn [mbind option_bind]. rewrite Hpx. cbn [mbind option_bind].
  rewrite <- (outs_at _ _ _ Hpx). destruct (position_of_in _ _ Hp) as (m1 & m2 & E & Ep). rewrite Ep. cbn [mbind option_bind]. rewrite Hsx. cbn [mbind option_bind].
  rewrite <- (ins_at _ _ _ Hsx). destruct (position_of_in _ _ Hs) as (n1 & n2 & E' & Ep'). rewrite Ep'. cbn [mbind option_bind].
  assert (Hm : outs f inb !! List.length m1 = Some bl) by (rewrite E; by apply list_lookup_middle).
  assert (Hn : ins f outb !! List.length n1 = Some bl) by (rewrite E'; by apply list_lookup_middle).
  run_step ltac:(by apply (outs_mut (structure_reset f) inb (fun l => <[List.length m1 := outb]> l))). cbn beta. intros f1 (S1 & T1 & L1 & O1 & I1).
  run_step ltac:(apply (ins_mut f1 outb (fun l => <[List.length n1 := inb]> l)); by rewrite L1). cbn beta. intros f2 (S2 & T2 & L2 & I2 & O2).
  run_step ltac:(apply (ins_mut f2 bl (delete inslot)); by rewrite L2, L1). cbn beta. intros f3 (S3 & T3 & L3 & I3 & O3).
  eapply runs_mono; [apply (outs_mut f3 bl (delete outslot)); by rewrite L3, L2, L1|]. cbn beta. intros f4 (S4 & T4 & L4 & O4 & I4).
  change (ins (structure_reset f)) with (ins f) in I1. change (outs (structure_reset f)) with (outs f) in O1.
  assert (EO : forall a, outs f4 a = if decide (a = bl) then delete outslot (outs f bl) else if decide (a = inb) then <[List.length m1 := outb]> (outs f inb) else outs f a).
  { intros a. rewrite O4, !O3, !O2, !O1. repeat case_decide; subst; congruence. }
  assert (EI : forall a, ins f4 a = if decide (a = bl) then delete inslot (ins f bl) else if decide (a = outb) then <[List.length n1 := inb]> (ins f outb) else ins f a).
  { intros a. rewrite I4, I3, !I2, !I1. repeat case_decide; subst; congruence. }
  assert (EE : forall a b, (edge f4 a b + one inb bl a b + one bl outb a b = edge f a b + one inb outb a b)%nat).
  { intros a b. unfold edge, one. rewrite EO. pose proof (count_delete (outs f bl) outslot outb b Ho) as Hc.
    pose proof (count_insert (outs f inb) (List.length m1) bl outb b Hm) as Hc'. repeat case_decide; subst; try congruence; lia. }
  split_and!; [constructor| |exists (List.length m1)|exists (List.length n1)| | |done].
  - etrans; [exact (structure_reset_same f)|]. etrans; [done|]. etrans; [done|]. by etrans.
  - intros a b. specialize (EE a b). pose proof (Hok a b) as H. unfold edge, one in EE. rewrite EI.
    pose proof (count_delete (ins f bl) inslot inb a Hi) as Hc. pose proof (count_insert (ins f outb) (List.length n1) bl inb a Hn) as Hc'.
    repeat case_decide; subst; try congruence; lia.
  - by rewrite T4, T3, T2, T1.
  - by rewrite L4, L3, L2, L1.
  - split; [done|]. rewrite EO. by rewrite decide_False, decide_True.
  - split; [done|]. rewrite EI. by rewrite decide_False, decide_True.
  - by rewrite EI, decide_True.
  - by rewrite EO, decide_True.
Qed.

(** ** Splitting and joining flow *)

Lemma in_edge (f : funcdata) (a b : nat) : In b (outs f a) <-> (0 < edge f a b)%nat.
Proof. unfold edge. by rewrite count_pos. Qed.

Lemma drop_higher_edge_edit (f : funcdata) (block1 block2 exit : nat) (high : bool) : edges_ok f -> (0 < edge f block1 exit)%nat ->
  (0 < edge f block2 exit)%nat ->
  runs (drop_higher_edge f block1 block2 exit high) (fun '(kept, f') => reflowed f f' /\ List.length (blocks f') = List.length (blocks f) /\
    kept = (if high then block2 else block1) /\
    (forall a b, edge f' a b + one (if high then block1 else block2) exit a b = edge f a b)%nat).
Proof.
  intros Hok H1 H2. rewrite <- in_edge in H1, H2. unfold drop_higher_edge. destruct high; (run_step ltac:(by apply remove_edge_edit)); cbn;
    intros f1 (R & L & _ & _ & E); by split_and!.
Qed.

Lemma move_edge_to_edit (f : funcdata) (swap exit newblock : nat) : edges_ok f -> (0 < edge f swap exit)%nat ->
  (newblock < List.length (blocks f))%nat -> newblock <> swap ->
  runs (move_edge_to f swap exit newblock) (fun f' => reflowed f f' /\ List.length (blocks f') = List.length (blocks f) /\
    outs f' newblock = outs f newblock ++ [exit] /\
    (forall a b, edge f' a b + one swap exit a b = edge f a b + one newblock exit a b)%nat).
Proof.
  intros Hok Hin Hn Hne. rewrite <- in_edge in Hin. pose proof (outs_lt _ _ _ Hin) as Hb. destruct (lookup_lt_is_Some_2 _ _ Hb) as [x Hx].
  destruct (position_of_in _ _ Hin) as (l1 & l2 & E & Ep). unfold move_edge_to. rewrite Hx. cbn [mbind option_bind].
  rewrite <- (outs_at _ _ _ Hx), Ep. cbn [mbind option_bind]. eapply runs_mono; [apply (move_out_edge_edit f swap (List.length l1) newblock exit)|].
  - done.
  - rewrite E. by apply list_lookup_middle.
  - done.
  - intros f' (R & L & O & _ & EE). split_and!; [done|done|by apply O|done].
Qed.

Lemma remove_from_flow_split_edit (f : funcdata) (bl in0 in1 out0 out1 : nat) (flipflow : bool) : edges_ok f ->
  ins f bl = [in0; in1] -> outs f bl = [out0; out1] -> in0 <> bl -> in1 <> bl -> out0 <> bl -> out1 <> bl ->
  runs (remove_from_flow_split f bl flipflow) (fun f' => reflowed f f' /\ ins f' bl = [] /\ outs f' bl = [] /\
    (forall a b, edge f' a b + one in0 bl a b + one in1 bl a b + one bl out0 a b + one bl out1 a b =
      edge f a b + one in0 (if flipflow then out1 else out0) a b + one in1 (if flipflow then out0 else out1) a b)%nat).
Proof.
  intros Hok Ei Eo N1 N2 N3 N4. unfold remove_from_flow_split.
  set (f0 := structure_reset f). change (edges_ok f0) in Hok. change (ins f0 bl = [in0; in1]) in Ei. change (outs f0 bl = [out0; out1]) in Eo.
  run_step ltac:(apply (replace_edges_thru_edit f0 bl (if flipflow then 0%nat else 1%nat) 1 (if flipflow then in0 else in1) out1);
    rewrite ?Ei, ?Eo; by destruct flipflow).
  cbn beta. intros f1 (R1 & L1 & _ & _ & I1 & O1 & E1). rewrite Ei in I1. rewrite Eo in O1. cbn in O1.
  eapply runs_mono; [apply (replace_edges_thru_edit f1 bl 0 0 (if flipflow then in1 else in0) out0);
    [apply R1|rewrite I1; by destruct flipflow|by rewrite O1|by destruct flipflow|done]|].
  cbn beta. intros f2 (R2 & L2 & _ & _ & I2 & O2 & E2). split_and!.
  - destruct R1, R2. constructor; [|done|done]. etrans; [exact (structure_reset_same f)|]. by etrans.
  - rewrite I2, I1. by destruct flipflow.
  - by rewrite O2, O1.
  - intros a b. specialize (E1 a b). specialize (E2 a b). change (edge f0 a b) with (edge f a b) in E1. destruct flipflow; lia.
Qed.

Lemma reflowed_trans (f g h : funcdata) : reflowed f g -> reflowed g h -> reflowed f h.
Proof. intros [] []. constructor; [by etrans|done|done]. Qed.

Lemma edges_lt (f : funcdata) (a b : nat) : edges_ok f -> (0 < edge f a b)%nat -> (b < List.length (blocks f))%nat.
Proof. intros Hok H. rewrite <- in_edge, edge_sides in H by done. by eapply ins_lt. Qed.

Lemma one_diff (x y a b : nat) : (a <> x \/ b <> y) -> one x y a b = 0%nat.
Proof. unfold one. intros []; repeat case_decide; subst; done || lia. Qed.

Lemma one_le (x y a b : nat) : (one x y a b <= 1)%nat.
Proof. unfold one. repeat case_decide; lia. Qed.

(** The two branches on the same exits become one: the new block takes both exits, in order. *)
Lemma node_join_edit (f : funcdata) (block1 block2 exita exitb : nat) (higha highb : bool) : edges_ok f ->
  block1 <> block2 -> exita <> exitb ->
  (0 < edge f block1 exita)%nat -> (0 < edge f block2 exita)%nat -> (0 < edge f block1 exitb)%nat -> (0 < edge f block2 exitb)%nat ->
  runs (node_join_create_block f block1 block2 exita exitb higha highb) (fun '(n, f') =>
    n = List.length (blocks f) /\ List.length (blocks f') = S n /\ reflowed f f' /\ outs f' n = [exita; exitb] /\
    (forall a b, edge f' a b + one block1 exita a b + one block2 exita a b + one block1 exitb a b + one block2 exitb a b =
      edge f a b + one n exita a b + one n exitb a b + one block1 n a b + one block2 n a b)%nat).
Proof.
  intros Hok Nb Ne A1 A2 B1 B2. unfold node_join_create_block.
  pose proof (outs_lt _ _ _ (proj2 (in_edge f _ _) A1)) as Lb1. pose proof (outs_lt _ _ _ (proj2 (in_edge f _ _) A2)) as Lb2.
  assert (Hok0 : edges_ok (structure_reset f)) by apply Hok. pose proof (new_block_basic_edit _ Hok0) as H0.
  destruct (new_block_basic (structure_reset f)) as [n f0]. destruct H0 as (R0 & En & L0 & O0 & I0 & E0).
  change (blocks (structure_reset f)) with (blocks f) in En. change (edge (structure_reset f)) with (edge f) in E0. change (outs (structure_reset f)) with (outs f) in O0.
  assert (R0' : reflowed f f0) by (destruct R0; constructor; [by etrans; [apply structure_reset_same|]|done|done]).
  assert (On : outs f0 n = []).
  { rewrite O0. unfold outs. by rewrite (proj2 (list.lookup_ge_None (blocks f) n)) by lia. }
  run_step ltac:(by apply (drop_higher_edge_edit f0 block1 block2 exita higha); [apply R0|rewrite E0|rewrite E0]). intros [swapa f1] (R1 & L1 & -> & E1).
  pose proof (fun a b => one_le (if higha then block1 else block2) exita a b) as B1'.
  assert (X1 : forall b, (0 < edge f b exitb)%nat -> (0 < edge f1 b exitb)%nat).
  { intros b Hb. specialize (E1 b exitb). rewrite one_diff, E0 in E1 by (right; congruence). lia. }
  run_step ltac:(by apply (drop_higher_edge_edit f1 block1 block2 exitb highb); [apply R1|apply X1|apply X1]). intros [swapb f2] (R2 & L2 & -> & E2).
  assert (Y1 : (0 < edge f2 (if higha then block2 else block1) exita)%nat).
  { specialize (E2 (if higha then block2 else block1) exita). rewrite one_diff in E2 by (right; congruence).
    specialize (E1 (if higha then block2 else block1) exita). rewrite one_diff, E0 in E1 by (left; destruct higha; congruence). destruct higha; lia. }
  assert (Hlt : (n < List.length (blocks f2))%nat) by lia.
  assert (Z0 : forall g, outs g n = [] -> forall b, edge g n b = 0%nat) by (intros g Hg b; unfold edge; by rewrite Hg).
  assert (Ok2 : outs f2 n = []).
  { destruct (outs f2 n) as [|c l] eqn:Ec; [done|]. pose proof (count_pos (outs f2 n) c) as Hc. rewrite Ec in Hc. unfold edge in E1, E2.
    pose proof (proj2 Hc (or_introl eq_refl)). rewrite <- Ec in H. specialize (E2 n c). specialize (E1 n c). rewrite On in E1. cbn in E1. lia. }
  run_step ltac:(apply (move_edge_to_edit f2 (if higha then block2 else block1) exita n); [apply R2|done|done|destruct higha; lia]).
  cbn beta. intros f3 (R3 & L3 & O3 & E3). rewrite Ok2 in O3.
  assert (Y2 : (0 < edge f3 (if highb then block2 else block1) exitb)%nat).
  { specialize (E3 (if highb then block2 else block1) exitb). rewrite !one_diff in E3 by (right; congruence).
    specialize (E2 (if highb then block2 else block1) exitb). rewrite one_diff in E2 by (left; destruct highb; congruence).
    specialize (X1 (if highb then block2 else block1)). destruct highb; lia. }
  run_step ltac:(apply (move_edge_to_edit f3 (if highb then block2 else block1) exitb n); [apply R3|done|lia|destruct highb; lia]).
  cbn beta. intros f4 (R4 & L4 & O4 & E4). rewrite O3 in O4.
  run_step ltac:(apply (add_edge_edit f4 block1 n); [apply R4|lia|lia]). cbn beta. intros f5 (R5 & L5 & O5 & _ & E5).
  run_step ltac:(apply (add_edge_edit f5 block2 n); [apply R5|lia|lia]). cbn beta. intros f6 (R6 & L6 & O6 & _ & E6).
  cbn. split_and!; [done|lia| | |].
  - eauto 10 using reflowed_trans.
  - rewrite O6, decide_False by lia. rewrite O5, decide_False by lia. by rewrite O4.
  - intros a b. specialize (E0 a b). specialize (E1 a b). specialize (E2 a b). specialize (E3 a b). specialize (E4 a b). specialize (E5 a b). specialize (E6 a b).
    destruct higha, highb; lia.
Qed.
