(* ===== verification/FuncdataTheorems.v ===== *)
(** What the primitives of a function's graph promise together: any valid sequence of edits runs and
    keeps the graph well formed; destruction, replacement and joins do what they say. *)
From Stdlib Require Import ZArith Lia Bool List.
From stdpp Require Import base decidable option list strings gmap numbers tactics.
From S2P Require Import Prelude Space OpCode BitUtil Funcdata FuncdataLinks FuncdataEdits FuncdataRemove FuncdataBlocks.
Local Open Scope Z_scope.

(** ** Well-formed functions and edits *)

Record wf (f : funcdata) : Prop := Wf {
  wf_graph : graph_ok f;
  wf_placed : placed_ok f;
  wf_edges : edges_ok f;
  wf_spaces : spaces_ok f;
}.

Lemma wf_edited (f f' : funcdata) : wf f -> edited f f' -> wf f'.
Proof.
  intros [_ P E S] [G K]. constructor; [done|by eapply keeps_placed|by eapply keeps_edges|by eapply spaces_ok_keeps].
Qed.

Lemma wf_inserted (f f' : funcdata) (op b at_ : nat) : wf f -> inserted f op b at_ f' -> wf f'.
Proof. intros [G P E S] I. constructor; try by apply I. unfold spaces_ok. by rewrite (ip_spaces _ _ _ _ _ I). Qed.

Lemma wf_reflowed (f f' : funcdata) : wf f -> reflowed f f' -> wf f'.
Proof.
  intros [G P E S] [N E' _]. constructor; [by eapply same_nodes_graph|by eapply same_nodes_placed|done|].
  unfold spaces_ok. by rewrite (sn_spaces _ _ N).
Qed.

(** A function starts well formed. *)
Lemma new_funcdata_wf (addr : address) (sm : space_manager) (e : list effect_record) :
  spaces_ok (new_funcdata addr sm e) -> wf (new_funcdata addr sm e).
Proof.
  intros S. constructor; [| | |done].
  - constructor; [done|done|by intros v x [=]].
  - constructor; [by intros b o []|intros b; constructor|done|done].
  - done.
Qed.

(** The edits a transformation makes, with their arguments. *)
Inductive edit :=
  | ENewVarnode (sz : Z) (l : address)
  | ENewInput (sz : Z) (l : address)
  | ENewConst (sz value : Z)
  | ENewUnique (sz : Z)
  | ENewOp (c : opcode) (seq : seq_num) (vids : list nat)
  | ENewOutput (op : nat) (sz : Z) (l : address)
  | ENewOutputUnique (op : nat) (sz : Z)
  | ESetOutput (op v : nat)
  | ESetInput (op slot v : nat)
  | EInsertInput (op slot v : nat)
  | EAppendInput (op v : nat)
  | ERemoveInput (op slot : nat)
  | ESwapInput (op i j : nat)
  | ESetAllInput (op : nat) (l : list nat)
  | ESetOpcode (op : nat) (c : opcode)
  | ETotalReplace (old new : nat)
  | EDestroy (op : nat)
  | EDestroyRecursive (op : nat)
  | EClearDead
  | EInsertBefore (op follow : nat)
  | EInsertAfter (op prev : nat)
  | EInsertBegin (op b : nat)
  | EInsertEnd (op b : nat)
  | EUninsert (op : nat)
  | ENewBlock
  | EAddEdge (from to : nat)
  | ERemoveEdge (from to : nat)
  | EMoveOutEdge (blold slot blnew : nat)
  | EReplaceThru (bl inslot outslot : nat)
  | ENodeJoin (block1 block2 exita exitb : nat) (higha highb : bool).

Definition apply_edit (f : funcdata) (e : edit) : option funcdata :=
  match e with
  | ENewVarnode sz l => snd <$> new_varnode f sz l
  | ENewInput sz l => snd <$> new_input f sz l
  | ENewConst sz value => snd <$> new_const f sz value
  | ENewUnique sz => snd <$> new_unique f sz
  | ENewOp c seq vids => snd <$> new_op f c seq vids
  | ENewOutput op sz l => snd <$> new_output f op sz l
  | ENewOutputUnique op sz => snd <$> new_output_unique f op sz
  | ESetOutput op v => op_set_output f op v
  | ESetInput op slot v => op_set_input f op slot v
  | EInsertInput op slot v => op_insert_input f op slot v
  | EAppendInput op v => op_append_input f op v
  | ERemoveInput op slot => op_remove_input f op slot
  | ESwapInput op i j => op_swap_input f op i j
  | ESetAllInput op l => op_set_all_input f op l
  | ESetOpcode op c => op_set_opcode f op c
  | ETotalReplace old new => total_replace f old new
  | EDestroy op => op_destroy f op
  | EDestroyRecursive op => op_destroy_recursive f op
  | EClearDead => clear_dead_varnodes f
  | EInsertBefore op follow => op_insert_before f op follow
  | EInsertAfter op prev => op_insert_after f op prev
  | EInsertBegin op b => op_insert_begin f op b
  | EInsertEnd op b => op_insert_end f op b
  | EUninsert op => op_uninsert f op
  | ENewBlock => Some (snd (new_block_basic f))
  | EAddEdge from to => add_edge f from to
  | ERemoveEdge from to => remove_edge f from to
  | EMoveOutEdge blold slot blnew => move_out_edge f blold slot blnew
  | EReplaceThru bl inslot outslot => replace_edges_thru f bl inslot outslot
  | ENodeJoin block1 block2 exita exitb higha highb =>
      snd <$> node_join_create_block f block1 block2 exita exitb higha highb
  end.

(** ** Valid edits: the indices exist, and an operation enters a block from outside *)

Definition is_vn (f : funcdata) (v : nat) : bool := Nat.ltb v (List.length (varnodes f)).
Definition is_op (f : funcdata) (o : nat) : bool := Nat.ltb o (List.length (ops f)).
Definition is_block (f : funcdata) (b : nat) : bool := Nat.ltb b (List.length (blocks f)).
Definition is_space (f : funcdata) (l : address) : bool := bool_decide (is_Some (sm_spaces (spaces f) !! Z.to_nat (a_space l))).
Definition mem (x : nat) (l : list nat) : bool := existsb (Nat.eqb x) l.
Definition outside (f : funcdata) (o : nat) : bool := forallb (fun b => negb (mem o (bops b))) (blocks f).
Definition inside (f : funcdata) (o : nat) : bool :=
  match parent_of f o with Some b => mem o (block_ops f b) | None => false end.

Definition valid (f : funcdata) (e : edit) : bool :=
  match e with
  | ENewVarnode _ l | ENewInput _ l => is_space f l
  | ENewConst _ _ | ENewUnique _ | EClearDead | ENewBlock => true
  | ENewOp _ _ vids => forallb (is_vn f) vids
  | ENewOutput op _ l => is_op f op && is_space f l
  | ENewOutputUnique op _ => is_op f op
  | ESetOutput op v => is_op f op && match varnodes f !! v with Some x => negb (is_input x) | None => false end
  | ESetInput op slot v => is_op f op && Nat.ltb slot (List.length (inputs f op)) && is_vn f v
  | EInsertInput op slot v => is_op f op && Nat.leb slot (List.length (inputs f op)) && is_vn f v
  | EAppendInput op v => is_op f op && is_vn f v
  | ERemoveInput op slot => is_op f op && Nat.ltb slot (List.length (inputs f op))
  | ESwapInput op i j => is_op f op && Nat.ltb i (List.length (inputs f op)) && Nat.ltb j (List.length (inputs f op))
  | ESetAllInput op l => is_op f op && forallb (is_vn f) l
  | ESetOpcode op _ | EDestroy op | EDestroyRecursive op => is_op f op
  | ETotalReplace old new => negb (Nat.eqb old new) && is_vn f old && is_vn f new
  | EInsertBefore op follow => is_op f op && outside f op && inside f follow
  | EInsertAfter op prev =>
      is_op f op && outside f op && match effect_of f prev with Some at_ => inside f at_ | None => false end
  | EInsertBegin op b => is_op f op && outside f op && is_block f b
  | EInsertEnd op b => is_op f op && outside f op && is_block f b
  | EUninsert op => inside f op
  | EAddEdge from to => is_block f from && is_block f to
  | ERemoveEdge from to => mem to (outs f from)
  | EMoveOutEdge blold slot blnew => Nat.ltb slot (List.length (outs f blold)) && is_block f blnew
  | EReplaceThru bl inslot outslot =>
      Nat.ltb inslot (List.length (ins f bl)) && Nat.ltb outslot (List.length (outs f bl)) &&
      negb (Nat.eqb (nth inslot (ins f bl) bl) bl) && negb (Nat.eqb (nth outslot (outs f bl) bl) bl)
  | ENodeJoin block1 block2 exita exitb _ _ =>
      negb (Nat.eqb block1 block2) && negb (Nat.eqb exita exitb) && mem exita (outs f block1) && mem exita (outs f block2) &&
      mem exitb (outs f block1) && mem exitb (outs f block2)
  end.

(** Every edit of the list is valid where it is made. *)
Fixpoint valid_all (f : funcdata) (es : list edit) : bool :=
  match es with
  | [] => true
  | e :: es => valid f e && match apply_edit f e with Some f' => valid_all f' es | None => true end
  end.

Lemma mem_in (x : nat) (l : list nat) : mem x l = true <-> In x l.
Proof.
  unfold mem. rewrite existsb_exists. split.
  - intros (y & Hy & E%Nat.eqb_eq). by subst.
  - intros Hx. exists x. by rewrite Nat.eqb_refl.
Qed.

Lemma outside_unplaced (f : funcdata) (o : nat) : outside f o = true -> unplaced f o.
Proof.
  unfold outside, unplaced, block_ops. intros H b. rewrite forallb_forall in H. destruct (blocks f !! b) as [x|] eqn:Hx; cbn; [|tauto].
  specialize (H x ltac:(by eapply list_elem_of_In, list_elem_of_lookup_2)). apply negb_true_iff in H. intros Hin%mem_in. congruence.
Qed.

Lemma inside_in (f : funcdata) (o : nat) : inside f o = true -> exists b, parent_of f o = Some b /\ In o (block_ops f b).
Proof. unfold inside. destruct (parent_of f o) as [b|]; [|done]. intros H%mem_in. eauto. Qed.

Lemma is_op_at (f : funcdata) (o : nat) : is_op f o = true -> exists x, ops f !! o = Some x.
Proof. unfold is_op. intros H%Nat.ltb_lt. destruct (lookup_lt_is_Some_2 _ _ H). eauto. Qed.

Lemma is_op_lt (f : funcdata) (o : nat) : is_op f o = true -> (o < List.length (ops f))%nat.
Proof. unfold is_op. apply Nat.ltb_lt. Qed.

Lemma is_vn_arena (f : funcdata) (l : list nat) : forallb (is_vn f) l = true -> in_arena f l.
Proof.
  intros H. rewrite forallb_forall in H. apply List.Forall_forall. intros v Hv. apply Nat.ltb_lt. exact (H v Hv).
Qed.

(** ** Every valid edit runs *)

Lemma effect_flags_neutral (e : Z) : neutral (effect_flags e).
Proof. unfold effect_flags. destruct (e =? _); [by vm_compute|]. by destruct (e =? _). Qed.

(** A value gains flags that say nothing about its links. *)
Lemma neutral_flags_edit (f : funcdata) (v : nat) (x : varnode) (fl : Z) : graph_ok f -> varnodes f !! v = Some x -> neutral fl ->
  runs (vn_mut f v (fun v => set_flags (Z.lor (flags v) fl) v)) (fun f' => edited f f' /\
    varnodes f' !! v = Some (set_flags (Z.lor (flags x) fl) x)).
Proof.
  intros G Hx (N1 & N2 & N3). eapply runs_mono; [by apply vn_mut_update|]. cbn beta. intros f' U. split; [split|].
  - destruct G as [Hu Hd Hf]. constructor.
    + intros w o. rewrite (vu_readers _ _ _ _ _ U), (vu_inputs _ _ _ _ _ U), <- Hu. case_decide as E; [by rewrite E, (readers_at _ _ _ Hx)|done].
    + intros w o. rewrite (vu_def_of _ _ _ _ _ U), (vu_out_of _ _ _ _ _ U), <- Hd. case_decide as E; [by rewrite E, (def_of_at _ _ _ Hx)|done].
    + eapply vu_flags; [done| |done]. intros [W I Id]. unfold is_written, is_input in *.
      constructor; unfold is_written, is_input; cbn [flags set_flags vdef]; rewrite ?written_or, ?input_or, ?insert_or, ?N1, ?N2, ?N3, ?orb_false_r; done.
  - by eapply vu_keeps.
  - rewrite (vu_vns _ _ _ _ _ U). by rewrite decide_True.
Qed.

Lemma new_input_edit (f : funcdata) (sz : Z) (l : address) : graph_ok f -> space_known f l ->
  runs (new_input f sz l) (fun '(v, f') => edited f f').
Proof.
  intros G Hs. unfold new_input. destruct (input_at f l sz None) as [i|]; [by split|].
  pose proof (alloc_graph f sz l (Z.lor INPUT INSERT) G Hs (or_intror eq_refl)) as Ha.
  run_step ltac:(exact Ha). intros [v f1] (G1 & K1 & Hv). destruct (lookup_lt_is_Some_2 _ _ Hv) as [x Hx].
  apply runs_bind. unfold apply_input_effect. rewrite Hx. cbn [mbind option_bind].
  eapply runs_mono; [apply (neutral_flags_edit f1 v x); [done|done|apply effect_flags_neutral]|].
  cbn. intros f2 [[G2 K2] _]. split; [done|by etrans].
Qed.

Lemma neutral_zero : neutral 0.
Proof. by vm_compute. Qed.

Lemma neutral_constant : neutral CONSTANT.
Proof. by vm_compute. Qed.

(** A new temporary only moves the counter of temporaries. *)
Lemma next_unique_runs (f : funcdata) (sz : Z) : graph_ok f -> spaces_ok f ->
  runs (next_unique f sz) (fun '(l, f') => edited f f' /\ space_known f' l).
Proof.
  intros [Hu Hd Hf] [_ (u & Eu & Su)]. unfold next_unique. rewrite Eu. cbn. split; [split|done].
  - by constructor.
  - constructor; try done; cbn; eauto. intros o x Ho Hx. apply lookup_lt_Some in Hx. lia.
Qed.

Lemma runs_snd {A B : Type} (m : option (A * B)) (Q : B -> Prop) : runs m (fun '(_, b) => Q b) -> runs (snd <$> m) Q.
Proof. by destruct m as [[]|]. Qed.

(** Graph edits, case by case. *)
Section EditCases.
Context (f : funcdata) (W : wf f).

Lemma edited_ok (m : option funcdata) (Q : funcdata -> Prop) : runs m (fun f' => edited f f' /\ Q f') -> runs m wf.
Proof. intros H. eapply runs_mono; [exact H|]. intros f' [E _]. by eapply wf_edited. Qed.

Lemma alloc_ok (sz : Z) (l : address) (fl : Z) : space_known f l -> neutral fl -> runs (alloc_varnode f sz l fl) (fun '(_, f') => wf f').
Proof.
  intros Hs Hn. eapply runs_mono; [apply alloc_graph; [apply W|done|by left]|]. intros [v f'] (G & K & _). eapply wf_edited; [done|by split].
Qed.

Lemma new_const_ok (sz value : Z) : runs (new_const f sz value) (fun '(_, f') => wf f').
Proof.
  destruct (wf_spaces _ W) as [(c & Ec & Sc) _]. unfold new_const, constant_space. rewrite Ec. cbn [mbind option_bind].
  apply alloc_ok; [done|apply neutral_constant].
Qed.

Lemma new_unique_ok (sz : Z) : runs (new_unique f sz) (fun '(_, f') => wf f').
Proof.
  unfold new_unique. run_step ltac:(apply next_unique_runs; apply W). intros [l f1] [[G1 K1] Hl].
  eapply runs_mono; [apply alloc_graph; [done|done|left; apply neutral_zero]|]. intros [v f'] (G & K & _). eapply wf_edited; [exact W|]. split; [done|by etrans].
Qed.

Lemma new_output_ok (op : nat) (sz : Z) (l : address) : is_op f op = true -> space_known f l -> runs (new_output f op sz l) (fun '(_, f') => wf f').
Proof.
  intros Ho Hs. eapply runs_mono; [apply new_output_edit; [apply W|by apply is_op_lt|done]|]. intros [v f'] [E _]. by eapply wf_edited.
Qed.

Lemma new_output_unique_ok (op : nat) (sz : Z) : is_op f op = true -> runs (new_output_unique f op sz) (fun '(_, f') => wf f').
Proof.
  intros Ho. unfold new_output_unique. run_step ltac:(apply next_unique_runs; apply W). intros [l f1] [E1 Hl].
  pose proof (k_no _ _ (proj2 E1)). apply is_op_lt in Ho. eapply runs_mono; [apply new_output_edit; [apply E1|lia|done]|].
  intros [v f'] [E _]. eapply wf_edited; [by eapply wf_edited|done].
Qed.

Lemma input_edit_ok (op : nat) (m : option funcdata) : is_op f op = true ->
  (forall x, ops f !! op = Some x -> graph_ok f -> exists Q, runs m (fun f' => edited f f' /\ Q f')) -> runs m wf.
Proof.
  intros Ho H. destruct (is_op_at _ _ Ho) as [x Hx]. destruct (H x Hx (wf_graph _ W)) as [Q HQ]. by eapply edited_ok.
Qed.

Lemma set_opcode_ok (op : nat) (c : opcode) : is_op f op = true -> runs (op_set_opcode f op c) wf.
Proof.
  intros Ho. destruct (is_op_at _ _ Ho) as [x Hx]. unfold op_set_opcode. eapply runs_mono; [eapply op_touch_runs; [apply W|exact Hx|done..]|].
  intros f' [E _]. by eapply wf_edited.
Qed.

Lemma lt_lookup (slot : nat) (l : list nat) : Nat.ltb slot (List.length l) = true -> exists v, l !! slot = Some v.
Proof. intros H%Nat.ltb_lt. destruct (lookup_lt_is_Some_2 _ _ H). eauto. Qed.

Lemma nth_at (slot v d : nat) (l : list nat) : l !! slot = Some v -> nth slot l d = v.
Proof. intros H. by rewrite nth_lookup, H. Qed.
End EditCases.

Ltac split_valid := repeat match goal with
  | H : _ && _ = true |- _ => apply andb_true_iff in H as [? ?]
  | H : negb (Nat.eqb _ _) = true |- _ => apply negb_true_iff, Nat.eqb_neq in H
  | H : mem _ _ = true |- _ => apply mem_in in H
  | H : is_space _ _ = true |- _ => apply bool_decide_eq_true in H
  | H : is_block _ _ = true |- _ => apply Nat.ltb_lt in H
  | H : is_vn _ _ = true |- _ => apply Nat.ltb_lt in H
  | H : outside _ _ = true |- _ => apply outside_unplaced in H
  end.

(** the edits of inputs *)
Lemma inputs_edit_runs (f : funcdata) (e : edit) : wf f -> valid f e = true ->
  match e with
  | ESetInput _ _ _ | EInsertInput _ _ _ | EAppendInput _ _ | ERemoveInput _ _ | ESwapInput _ _ _ | ESetAllInput _ _ =>
      runs (apply_edit f e) wf
  | _ => True
  end.
Proof.
  intros W V. pose proof (wf_graph _ W) as G. pose proof (wf_spaces _ W) as S. destruct e; try exact I; cbn [valid apply_edit] in V |- *; split_valid;
    (apply input_edit_ok with (op := op) (f := f); [done|done|]); intros x Hx _; rewrite ?(inputs_at _ _ _ Hx) in *.
  - destruct (lt_lookup slot (inrefs x) ltac:(done)) as [old Hold]. eexists. by eapply op_set_input_edit.
  - eexists. eapply op_insert_input_edit; try done. by apply Nat.leb_le.
  - eexists. by eapply op_append_input_edit.
  - destruct (lt_lookup slot (inrefs x) ltac:(done)) as [v Hv]. eexists. by eapply op_remove_input_edit.
  - destruct (lt_lookup i (inrefs x) ltac:(done)) as [a Ha], (lt_lookup j (inrefs x) ltac:(done)) as [b Hb].
    eexists. by eapply op_swap_input_edit.
  - eexists. eapply op_set_all_input_edit; try done; [by apply is_op_lt|by apply is_vn_arena].
Qed.

(** the insertions *)
Lemma insert_edit_runs (f : funcdata) (e : edit) : wf f -> valid f e = true ->
  match e with
  | EInsertBefore _ _ | EInsertAfter _ _ | EInsertBegin _ _ | EInsertEnd _ _ | EUninsert _ => runs (apply_edit f e) wf
  | _ => True
  end.
Proof.
  intros W V. pose proof (wf_placed _ W) as P. destruct e; try exact I; cbn [valid apply_edit] in V |- *; split_valid.
  - destruct (is_op_at f op ltac:(done)) as [x Hx]. destruct (inside_in f follow ltac:(done)) as (b & _ & Hin).
    eapply runs_mono; [by eapply op_insert_before_edit|]. intros f' (l1 & l2 & [_ I]). by eapply wf_inserted.
  - destruct (is_op_at f op ltac:(done)) as [x Hx]. destruct (effect_of f prev) as [at_|] eqn:He; [|done].
    destruct (inside_in f at_ ltac:(done)) as (b & _ & Hin).
    eapply runs_mono; [by eapply op_insert_after_edit|]. intros f' (l1 & ph & l2 & [_ I] & _). by eapply wf_inserted.
  - destruct (is_op_at f op ltac:(done)) as [x Hx]. eapply runs_mono; [by eapply op_insert_begin_edit|]. intros f' [_ I]. by eapply wf_inserted.
  - destruct (is_op_at f op ltac:(done)) as [x Hx]. eapply runs_mono; [eapply op_insert_end_edit; try done|].
    + intros o Hin. pose proof (pl_parent _ P _ _ Hin) as Hp. unfold op_code, parent_of in *. by destruct (ops f !! o).
    + intros f' [[[_ I] _]|(l & o & [_ I] & _)]; by eapply wf_inserted.
  - destruct (inside_in f op ltac:(done)) as (b & _ & Hin). eapply runs_mono; [by eapply op_uninsert_edit|].
    intros f' (_ & _ & _ & P' & G' & E' & _ & Es). constructor; [by apply G', W|done|by apply E', W|].
    unfold spaces_ok. rewrite Es. apply W.
Qed.

(** the edits of the flow graph *)
Lemma flow_edit_runs (f : funcdata) (e : edit) : wf f -> valid f e = true ->
  match e with
  | ENewBlock | EAddEdge _ _ | ERemoveEdge _ _ | EMoveOutEdge _ _ _ | EReplaceThru _ _ _ | ENodeJoin _ _ _ _ _ _ =>
      runs (apply_edit f e) (fun f' => wf f' /\ structured f' = false)
  | _ => True
  end.
Proof.
  intros W V. pose proof (wf_edges _ W) as E. destruct e; try exact I; cbn [valid apply_edit] in V |- *; split_valid.
  - pose proof (new_block_basic_edit f E) as H. destruct (new_block_basic f) as [n f']. destruct H as (R & _). cbn. split; [by eapply wf_reflowed|apply R].
  - eapply runs_mono; [by apply add_edge_edit|]. intros f' (R & _). split; [by eapply wf_reflowed|apply R].
  - eapply runs_mono; [by apply remove_edge_edit|]. intros f' (R & _). split; [by eapply wf_reflowed|apply R].
  - destruct (lt_lookup slot (outs f blold) ltac:(done)) as [o Ho]. eapply runs_mono; [by eapply move_out_edge_edit|].
    intros f' (R & _). split; [by eapply wf_reflowed|apply R].
  - destruct (lt_lookup inslot (ins f bl) ltac:(done)) as [a Ha], (lt_lookup outslot (outs f bl) ltac:(done)) as [b Hb].
    rewrite (nth_at inslot a bl) in * by done. rewrite (nth_at outslot b bl) in * by done.
    eapply runs_mono; [by eapply replace_edges_thru_edit|]. intros f' (R & _). split; [by eapply wf_reflowed|apply R].
  - rewrite !in_edge in *. apply runs_snd. eapply runs_mono; [by apply node_join_edit|]. intros [n f'] (_ & _ & R & _).
    split; [by eapply wf_reflowed|apply R].
Qed.

Lemma edit_runs (f : funcdata) (e : edit) : wf f -> valid f e = true -> runs (apply_edit f e) wf.
Proof.
  intros W V. pose proof (wf_graph _ W) as G. pose proof (wf_spaces _ W) as S.
  pose proof (inputs_edit_runs f e W V) as H1. pose proof (insert_edit_runs f e W V) as H2. pose proof (flow_edit_runs f e W V) as H3.
  destruct e; try exact H1; try exact H2; try (eapply runs_mono; [exact H3|]; by intros ? [? _]);
    clear H1 H2 H3; cbn [valid apply_edit] in V |- *; split_valid.
  - apply runs_snd. by apply alloc_ok.
  - apply runs_snd. eapply runs_mono; [by apply new_input_edit|]. intros [v f']. by apply wf_edited.
  - apply runs_snd. by apply new_const_ok.
  - apply runs_snd. by apply new_unique_ok.
  - apply runs_snd. eapply runs_mono; [apply new_op_edit; [done|done|by apply is_vn_arena]|]. intros [v f'] [E _]. by eapply wf_edited.
  - apply runs_snd. by apply new_output_ok.
  - apply runs_snd. by apply new_output_unique_ok.
  - destruct (varnodes f !! v) as [x|] eqn:Hx; [|done].
    eapply edited_ok; [done|]. eapply op_set_output_edit; [done|by apply is_op_lt|done|by apply negb_true_iff].
  - by apply set_opcode_ok.
  - eapply edited_ok; [done|]. by apply total_replace_edit.
  - eapply runs_mono; [apply op_destroy_edit; [done|by apply is_op_lt]|]. intros f' D. eapply wf_edited; [done|apply D].
  - eapply runs_mono; [apply op_destroy_recursive_edit; [done|by apply is_op_lt]|]. intros f' (D & S' & _). eapply wf_edited; [done|apply S'].
  - eapply edited_ok; [done|]. by apply clear_dead_edit.
Qed.

Lemma edits_run (f : funcdata) (es : list edit) : wf f -> valid_all f es = true -> runs (fold_opt apply_edit es f) wf.
Proof.
  revert f. induction es as [|e es IH]; intros f W V; cbn in V |- *; [done|]. apply andb_true_iff in V as [V Vs].
  pose proof (edit_runs f e W V) as H. destruct (apply_edit f e) as [f'|]; [|done]. cbn in *. by apply IH.
Qed.

(** the function after valid edits *)
Definition edited_by (f : funcdata) (es : list edit) : funcdata := default f (fold_opt apply_edit es f).

Lemma edited_by_wf (f : funcdata) (es : list edit) : wf f -> valid_all f es = true -> wf (edited_by f es).
Proof. intros W V. pose proof (edits_run f es W V) as H. unfold edited_by. by destruct (fold_opt apply_edit es f). Qed.

(** ** Constants have one reader *)





















(** ** MULTIEQUALs first *)

(** The MULTIEQUALs of the block are at its front. *)
Definition phis_first (f : funcdata) (b : nat) : Prop := exists p r, block_ops f b = p ++ r /\
  List.Forall (fun o => is_phi f o = true) p /\ List.Forall (fun o => is_phi f o = false) r.

Lemma inserted_phi (f f' : funcdata) (op b at_ o : nat) : inserted f op b at_ f' -> is_phi f' o = is_phi f o.
Proof. intros I. unfold is_phi. by rewrite (ip_code _ _ _ _ _ I). Qed.

Lemma phis_first_intro (f f' : funcdata) (b : nat) (p r : list nat) : (forall o, is_phi f' o = is_phi f o) -> block_ops f' b = p ++ r ->
  List.Forall (fun o => is_phi f o = true) p -> List.Forall (fun o => is_phi f o = false) r -> phis_first f' b.
Proof.
  intros E Eb Hp Hr. exists p, r. rewrite List.Forall_forall in Hp, Hr.
  split_and!; [done|apply List.Forall_forall; intros o Ho; rewrite E; by apply Hp|apply List.Forall_forall; intros o Ho; rewrite E; by apply Hr].
Qed.

Lemma leading_phis_app (f : funcdata) (p r : list nat) : List.Forall (fun o => is_phi f o = true) p ->
  List.Forall (fun o => is_phi f o = false) r -> leading_phis f (p ++ r) = List.length p.
Proof.
  intros Hp Hr. unfold leading_phis. induction Hp as [|o p Ho Hp IH]; cbn; [|by rewrite Ho, IH].
  destruct Hr as [|o r Ho Hr]; cbn; [done|]. by rewrite Ho.
Qed.

Lemma insert_begin_phis (f : funcdata) (op b : nat) (x : pcode_op) : placed_ok f -> ops f !! op = Some x -> unplaced f op ->
  (b < List.length (blocks f))%nat -> phis_first f b -> runs (op_insert_begin f op b) (fun f' => phis_first f' b).
Proof.
  intros P Hx Hu Hb (p & r & Eb & Hp & Hr). eapply runs_mono; [by eapply op_insert_begin_edit|]. intros f' En.
  pose proof (entered_ops _ _ _ _ _ _ En) as Eops. rewrite Eb, leading_phis_app in Eops by done.
  rewrite take_app_length, drop_app_length in Eops. assert (Ei : forall o, is_phi f' o = is_phi f o) by (intros o; eapply inserted_phi, En).
  destruct (is_phi f op) eqn:Eo; cbn in Eops.
  - eapply (phis_first_intro f f' b (op :: p) r); [exact Ei|done|by constructor|done].
  - eapply (phis_first_intro f f' b p (op :: r)); [exact Ei|done|done|by constructor].
Qed.

Lemma insert_after_phis (f : funcdata) (newop prev at_ b : nat) (x : pcode_op) : placed_ok f -> ops f !! newop = Some x -> unplaced f newop ->
  effect_of f prev = Some at_ -> In at_ (block_ops f b) -> (is_phi f newop = true -> is_phi f at_ = true) -> phis_first f b ->
  runs (op_insert_after f newop prev) (fun f' => phis_first f' b).
Proof.
  intros P Hx Hu He Hin Hphi (p & r & Eb & Hp & Hr). eapply runs_mono; [by eapply op_insert_after_edit|].
  intros f' (l1 & ph & l2 & En & Hnil & Hph & Hl2). pose proof (entered_ops _ _ _ _ _ _ En) as Eops. pose proof (en_was _ _ _ _ _ _ En) as Ewas.
  assert (Ei : forall o, is_phi f' o = is_phi f o) by (intros o; eapply inserted_phi, En). rewrite Eb in Ewas.
  destruct (is_phi f newop) eqn:Eo.
  - specialize (Hphi eq_refl). rewrite (Hnil eq_refl) in Ewas, Eops. clear Hl2 Hph Hnil.
    (* [at_] is one of the leading MULTIEQUALs *)
    assert (exists p', p = (l1 ++ [at_]) ++ p' /\ l2 = p' ++ r) as (p' & -> & ->).
    { clear - Ewas Hphi Hr. revert p Ewas. induction l1 as [|a l1 IH]; intros [|q p] Ewas; cbn in *.
      - subst r. inversion Hr; subst. congruence.
      - injection Ewas as <- <-. by exists p.
      - subst r. assert (H : In at_ (a :: (l1 ++ [at_]) ++ l2)) by (right; rewrite <- app_assoc; apply in_app_iff; right; by left).
        rewrite List.Forall_forall in Hr. specialize (Hr _ H). congruence.
      - injection Ewas as <- Ewas. destruct (IH p Ewas) as (p' & -> & ->). by exists p'. }
    apply List.Forall_app in Hp as [Hp1 Hp2]. eapply (phis_first_intro f f' b ((l1 ++ [at_]) ++ newop :: p') r); [done| | |done].
    + rewrite Eops. by rewrite <- !app_assoc.
    + apply List.Forall_app. split; [done|by constructor].
  - specialize (Hl2 eq_refl). clear Hnil Hphi.
    assert (exists r', r = r' ++ l2 /\ p ++ r' = l1 ++ at_ :: ph) as (r' & -> & Er).
    { clear - Ewas Hl2 Hr Hp. revert p Hp Ewas. generalize (l1 ++ at_ :: ph). intros l. induction l as [|a l IH]; intros p Hp Ewas; cbn in *.
      - destruct p as [|q p]; [by exists []|]. cbn in Ewas. subst l2. specialize (Hl2 q _ eq_refl). inversion Hp; subst. congruence.
      - destruct p as [|q p]; cbn in *.
        + subst r. exists (a :: l). by split.
        + injection Ewas as <- Ewas. inversion Hp; subst. destruct (IH p ltac:(done) Ewas) as (r' & -> & Er). exists r'. split; [done|]. by rewrite Er. }
    apply List.Forall_app in Hr as [Hr1 Hr2]. eapply (phis_first_intro f f' b p (r' ++ newop :: l2)); [done| |done|].
    + rewrite Eops, <- Er. by rewrite <- app_assoc.
    + apply List.Forall_app. split; [done|by constructor].
Qed.

(** ** A function built by edits *)

Definition at_entry (n : Z) : seq_num := SeqNum (Addr 1 (0x1000 + n)) n.

(** [add] of an input and a constant, its negation, a copy of that, returned; four blocks in a diamond. *)
Definition sample_edits : list edit := [
  ENewInput 8 (Addr 2 0x38);
  ENewConst 8 5;
  ENewOp IntAdd (at_entry 0) [0; 1]; ENewOutputUnique 0 8;
  ENewOp Int2comp (at_entry 1) [2]; ENewOutputUnique 1 8;
  ENewOp Copy (at_entry 2) [3]; ENewOutput 2 8 (Addr 2 0x0);
  ENewOp Return (at_entry 3) [4];
  ENewOp Multiequal (at_entry 4) [4; 4]; ENewOutputUnique 4 8;
  ENewBlock; ENewBlock; ENewBlock; ENewBlock;
  EInsertEnd 3 0; EInsertBefore 0 3; EInsertAfter 1 0; EInsertEnd 2 0; EInsertBegin 4 0;
  EAddEdge 0 2; EAddEdge 0 3; EAddEdge 1 2; EAddEdge 1 3]%nat.

Definition sample_start : funcdata := new_funcdata (Addr 1 0x1000) standard [].

Lemma sample_start_wf : wf sample_start.
Proof. apply new_funcdata_wf. split; [exists 0|exists 3]; (split; [vm_compute; reflexivity|by eexists]). Qed.

Definition sample : funcdata := edited_by sample_start sample_edits.

Lemma sample_wf : wf sample.
Proof. apply edited_by_wf; [exact sample_start_wf|vm_compute; reflexivity]. Qed.

(** the same function with the negation out of its block *)
Definition sample_open : funcdata := edited_by sample [EUninsert 1].

Lemma sample_open_wf : wf sample_open.
Proof. apply edited_by_wf; [exact sample_wf|vm_compute; reflexivity]. Qed.

Lemma sample_open_phis : phis_first sample_open 0.
Proof. exists [4%nat], [0; 2; 3]%nat. split; [|split]; vm_compute; repeat constructor. Qed.

(** ** Properties *)

(** [C3] Starting from a function with well-formed links, block lists and edges, any sequence of
    valid edits (values, operations, inputs and outputs, destruction, total replacement, insertion
    into blocks, edge edits, joins) runs without panic and ends in a well-formed function: every value
    lists its readers with their multiplicity, definition and output agree, flags agree with the
    links, each operation lies in at most the block it names, and edges are listed on both sides. *)
Theorem edits_keep_wf (f : funcdata) (es : list edit) : wf f -> valid_all f es = true ->
  exists f', fold_opt apply_edit es f = Some f' /\ wf f'.
Proof. intros W V. apply runs_exists. by apply edits_run. Qed.

Lemma edits_keep_wf_witness : valid_all sample_start sample_edits = true /\
  exists f', fold_opt apply_edit sample_edits sample_start = Some f' /\ wf f'.
Proof.
  split; [vm_compute; reflexivity|]. apply (edits_keep_wf sample_start sample_edits sample_start_wf). vm_compute; reflexivity.
Defined.

(** [C10] Recursive destruction ends (within its bound) with exactly a closed set of operations
    dead: the operation itself, and operations whose value only destroyed operations read, that
    nothing holds alive; an operation whose only reader is destroyed is always destroyed with it;
    no other operation changes. *)
Theorem destroy_recursive_spec (f : funcdata) (op : nat) : wf f -> is_op f op = true ->
  exists f' D, op_destroy_recursive f op = Some f' /\ wf f' /\ In op D /\
    (forall p, ~ In p D -> ops f' !! p = ops f !! p) /\
    (forall p x, In p D -> ops f' !! p = Some x -> inrefs x = [] /\ output x = None /\ is_dead x = true) /\
    (forall d, In d D -> d = op \/ doomed f D d) /\
    (forall c d, In c D -> only_reader f c d -> In d D).
Proof.
  intros W Ho. pose proof (op_destroy_recursive_edit f op (wf_graph _ W) (is_op_lt _ _ Ho)) as H.
  apply runs_exists in H as (f' & E & D & S & HD). exists f', D. destruct S as [Ed _ _ Kept Dead _ _ Why All].
  split_and!; try done; [by eapply wf_edited| |].
  - intros d Hd. apply Why. by left.
  - intros c d Hc Hr. by destruct (All c d Hc Hr) as [|[]].
Qed.

(** the copy goes, and with it the negation and the addition *)
Lemma destroy_recursive_spec_witness : exists f' D, op_destroy_recursive sample 2 = Some f' /\ In 2%nat D /\
  (forall c d, In c D -> only_reader sample c d -> In d D) /\
  map is_dead (ops f') = [true; true; true; false; false].
Proof.
  destruct (destroy_recursive_spec sample 2 sample_wf ltac:(vm_compute; reflexivity)) as (f' & D & E & _ & HD & _ & _ & _ & All).
  exists f', D. split_and!; [done|done|done|]. vm_compute in E. injection E as <-. reflexivity.
Defined.

(** Replacing a value by another everywhere leaves the old one without readers and rewrites
    every input list, keeping outputs and all links consistent. *)
Theorem total_replace_spec (f : funcdata) (old new : nat) : wf f -> old <> new -> is_vn f old = true -> is_vn f new = true ->
  exists f', total_replace f old new = Some f' /\ wf f' /\ readers f' old = [] /\
    (forall o, inputs f' o = subst_in old new (inputs f o)) /\ (forall o, out_of f' o = out_of f o).
Proof.
  intros W Hne Ho%Nat.ltb_lt Hn%Nat.ltb_lt. pose proof (total_replace_edit f old new (wf_graph _ W) Hne Ho Hn) as H.
  apply runs_exists in H as (f' & E & Ed & Hr & Hin & Hout & _ & _). exists f'. split_and!; try done. by eapply wf_edited.
Qed.

Lemma total_replace_spec_witness : exists f', total_replace sample 2 0 = Some f' /\ readers f' 2 = [] /\ inputs f' 1 = [0%nat].
Proof.
  destruct (total_replace_spec sample 2 0 sample_wf ltac:(done) ltac:(vm_compute; reflexivity) ltac:(vm_compute; reflexivity)) as (f' & E & _ & Er & Ei & _).
  exists f'. split_and!; [done|done|]. rewrite Ei. vm_compute. reflexivity.
Defined.


Definition privateb (f : funcdata) : bool :=
  forallb (fun x => negb (is_constant x) || is_spacebase x || Nat.leb (List.length (descend x)) 1) (varnodes f).



(** [new_op] clones each input before it wires any, so an unread constant given twice gets two readers. *)
Example new_op_shares_constant :
  runs ('(v, f) ← new_const sample 8 7; '(op, f') ← new_op f IntAdd (at_entry 9) [v; v]; Some (f, v, op, f'))
    (fun '(f, v, op, f') => privateb f = true /\ readers f' v = [op; op]).
Proof. vm_compute. by split. Qed.

(** [total_replace] moves readers without cloning: by a constant in use, it gives that one more. *)
Example total_replace_shares_constant : privateb sample = true /\
  runs (total_replace sample 0 1) (fun f' => privateb f' = false /\ readers f' 1 = [0; 0]%nat).
Proof. vm_compute. by split_and!. Qed.

(** [C39] Inserting at the beginning of a block, or after an operation (a MULTIEQUAL only after a
    MULTIEQUAL), keeps the block's MULTIEQUALs in front of its other operations. *)
Theorem insertion_keeps_phis_first (f : funcdata) (op b : nat) : wf f -> is_op f op = true -> outside f op = true -> phis_first f b ->
  (is_block f b = true -> exists f', op_insert_begin f op b = Some f' /\ wf f' /\ phis_first f' b /\ In op (block_ops f' b)) /\
  (forall prev at_, effect_of f prev = Some at_ -> In at_ (block_ops f b) -> (is_phi f op = true -> is_phi f at_ = true) ->
     exists f', op_insert_after f op prev = Some f' /\ wf f' /\ phis_first f' b /\ In op (block_ops f' b)).
Proof.
  intros W Ho Hu%outside_unplaced Hp. destruct (is_op_at _ _ Ho) as [x Hx]. pose proof (wf_placed _ W) as P. split.
  - intros Hb%Nat.ltb_lt. pose proof (insert_begin_phis f op b x P Hx Hu Hb Hp) as H1. pose proof (op_insert_begin_edit f op b x Hx Hu Hb) as H2.
    destruct (op_insert_begin f op b) as [f'|]; [|done]. exists f'. split_and!; [done|eapply wf_inserted, H2; done|done|].
    rewrite (entered_ops _ _ _ _ _ _ H2). apply in_app_iff. right; by left.
  - intros prev at_ He Hin Hphi. pose proof (insert_after_phis f op prev at_ b x P Hx Hu He Hin Hphi Hp) as H1.
    pose proof (op_insert_after_edit f P op prev at_ b x Hx Hu He Hin) as H2.
    destruct (op_insert_after f op prev) as [f'|]; [|done]. destruct H2 as (l1 & ph & l2 & En & _). exists f'.
    split_and!; [done|eapply wf_inserted; [done|apply En]|done|]. rewrite (entered_ops _ _ _ _ _ _ En). apply in_app_iff. right; by left.
Qed.

Lemma insertion_keeps_phis_first_witness : exists f' f'',
  op_insert_begin sample_open 1 0 = Some f' /\ phis_first f' 0 /\ op_insert_after sample_open 1 4 = Some f'' /\ phis_first f'' 0 /\
  block_ops f' 0 = [4; 1; 0; 2; 3]%nat /\ block_ops f'' 0 = [4; 1; 0; 2; 3]%nat.
Proof.
  destruct (insertion_keeps_phis_first sample_open 1 0 sample_open_wf ltac:(vm_compute; reflexivity) ltac:(vm_compute; reflexivity) sample_open_phis) as [H1 H2].
  destruct (H1 ltac:(vm_compute; reflexivity)) as (f' & E1 & _ & P1 & _).
  destruct (H2 4%nat 4%nat ltac:(vm_compute; reflexivity) ltac:(vm_compute; by left) ltac:(vm_compute; done)) as (f'' & E2 & _ & P2 & _).
  exists f', f''. split; [done|]. split; [done|]. split; [done|]. split; [done|].
  vm_compute in E1, E2. injection E1 as <-. injection E2 as <-. by split.
Defined.

(** [C15] Joining two blocks that branch to the same two exits makes one new block with exactly
    those exits, in order; the four branches are gone, both blocks lead to the new one, every other
    edge stays, and the two sides of each edge still agree. *)
Theorem node_join_spec (f : funcdata) (block1 block2 exita exitb : nat) (higha highb : bool) : wf f ->
  valid f (ENodeJoin block1 block2 exita exitb higha highb) = true ->
  exists n f', node_join_create_block f block1 block2 exita exitb higha highb = Some (n, f') /\ wf f' /\
    n = List.length (blocks f) /\ outs f' n = [exita; exitb] /\ structured f' = false /\
    (forall a b, edge f' a b + one block1 exita a b + one block2 exita a b + one block1 exitb a b + one block2 exitb a b =
      edge f a b + one n exita a b + one n exitb a b + one block1 n a b + one block2 n a b)%nat.
Proof.
  intros W V. cbn in V. split_valid. rewrite !in_edge in *.
  pose proof (node_join_edit f block1 block2 exita exitb higha highb (wf_edges _ W)) as Hj.
  apply runs_exists in Hj as ([n f'] & E & -> & _ & R & Eo & Ee); try done. exists (List.length (blocks f)), f'.
  split_and!; try done; [by eapply wf_reflowed|apply R].
Qed.

Lemma node_join_spec_witness : exists f', node_join_create_block sample 0 1 2 3 true false = Some (4%nat, f') /\ outs f' 4 = [2; 3]%nat /\
  ins f' 2 = [4]%nat /\ ins f' 3 = [4]%nat /\ outs f' 0 = [4]%nat.
Proof.
  destruct (node_join_spec sample 0 1 2 3 true false sample_wf ltac:(vm_compute; reflexivity)) as (n & f' & E & _ & En & Eo & _).
  assert (Hn : n = 4%nat) by (rewrite En; vm_compute; reflexivity). rewrite Hn in E, Eo. exists f'. split; [done|]. split; [done|].
  vm_compute in E. injection E as <-. split; [|split]; reflexivity.
Defined.
