(* ===== verification/FuncdataBuild.v ===== *)
(** The compound edits of [decompile/funcdata.rs], built from the primitives of [Funcdata.v]: new
    operations in place, inputs, replacement by a constant, flipped conditions, split values and
    split blocks; and [replace_lessequal] of [rules.rs], which flipping uses.  [None] is a panic. *)
From Stdlib Require Import ZArith Lia Bool List.
From stdpp Require Import base decidable option list strings gmap numbers.
From S2P Require Import Prelude Space OpCode BitUtil Funcdata.
Local Open Scope Z_scope.

Definition TYPELOCK : Z := 0x100.

Definition num_ops (f : funcdata) : Z := Z.of_nat (List.length (ops f)).

Definition input (o : pcode_op) (slot : nat) : option nat := inrefs o !! slot.

(** the value an operation computes; [None] if it has none or does not exist *)
Definition output_of (f : funcdata) (op : nat) : option nat := o ← ops f !! op; output o.

(** ** Inputs of the function *)

Definition set_input_varnode (f : funcdata) (vid : nat) : option (nat * funcdata) :=
  v ← varnodes f !! vid;
  if is_input v then Some (vid, f)
  else
    match input_at f (loc v) (size v) (Some vid) with
    | Some i => Some (i, f)
    | None =>
        f ← vn_mut f vid (fun v => set_flags (Z.lor (clear (flags v) WRITTEN) (Z.lor INPUT INSERT)) (set_vdef None v));
        f ← apply_input_effect f vid;
        Some (vid, f)
    end.

(** the order of the def-ordered set: by offset, then by creation *)
Definition def_order (f : funcdata) (a b : nat) : bool :=
  match varnodes f !! a, varnodes f !! b with
  | Some x, Some y =>
      (a_offset (loc x) <? a_offset (loc y)) ||
      ((a_offset (loc x) =? a_offset (loc y)) && (create_index x <=? create_index y))
  | _, _ => true
  end.

Definition inputs_where (f : funcdata) (p : varnode -> bool) : list nat :=
  sort_by (def_order f)
    (List.filter (fun i => match varnodes f !! i with Some v => is_input v && p v | None => false end)
       (seq 0 (List.length (varnodes f)))).

Definition find_covered_input (f : funcdata) (s : Z) (l : address) : option nat :=
  let end_ := u64_sub (u64_add (a_offset l) s) 1 in
  head (inputs_where f (fun v => (a_space (loc v) =? a_space l) && (a_offset l <=? a_offset (loc v)) &&
                                 (a_offset (loc v) <=? end_) && (u64_add (a_offset (loc v)) (size v - 1) <=? end_))).

(** ** New operations in place *)

Definition new_op_before_sized (f : funcdata) (follow : nat) (c : opcode) (inputs : list nat) (out_size : Z)
    : option (nat * funcdata) :=
  o ← ops f !! follow;
  '(id, f) ← new_op f c (SeqNum (pc (seqnum o)) (num_ops f)) inputs;
  '(_, f) ← new_output_unique f id out_size;
  f ← op_insert_before f id follow;
  Some (id, f).

Definition new_op_before (f : funcdata) (follow : nat) (c : opcode) (inputs : list nat) : option (nat * funcdata) :=
  _ ← ops f !! follow;
  v ← head inputs;
  x ← varnodes f !! v;
  new_op_before_sized f follow c inputs (size x).

Definition op_bool_negate (f : funcdata) (vn op : nat) (insertafter : bool) : option (nat * funcdata) :=
  o ← ops f !! op;
  '(negateop, f) ← new_op f BoolNegate (SeqNum (pc (seqnum o)) (num_ops f)) [vn];
  '(_, f) ← new_output_unique f negateop 1;
  f ← if insertafter then op_insert_after f negateop op else op_insert_before f negateop op;
  out ← output_of f negateop;
  Some (out, f).

Definition new_extended_constant (f : funcdata) (sz val : Z) (op : nat) : option (nat * funcdata) :=
  let lo := w64 val in
  let hi := w64 (Z.shiftr val 64) in
  if sz <=? 8 then new_const f sz lo
  else
    '(newop, f) ←
      (if hi =? 0 then
         '(clo, f) ← new_const f 8 lo;
         new_op_before_sized f op IntZext [clo] sz
       else
         '(chi, f) ← new_const f 8 hi;
         '(clo, f) ← new_const f 8 lo;
         new_op_before_sized f op Piece [chi; clo] sz);
    out ← output_of f newop;
    Some (out, f).

Definition new_indirect_op (f : funcdata) (indeffect : nat) (l : address) (sz : Z) : option (nat * funcdata) :=
  '(before, f) ← new_varnode f sz l;
  o ← ops f !! indeffect;
  '(op, f) ← new_op f Indirect (SeqNum (pc (seqnum o)) (num_ops f)) [before];
  f ← op_mut f op (set_guarded (Some indeffect));
  '(_, f) ← new_output f op sz l;
  f ← op_insert_before f op indeffect;
  Some (op, f).

Fixpoint new_varnodes (n : nat) (f : funcdata) (sz : Z) (l : address) : option (list nat * funcdata) :=
  match n with
  | O => Some ([], f)
  | S n =>
      '(v, f) ← new_varnode f sz l;
      '(vs, f) ← new_varnodes n f sz l;
      Some (v :: vs, f)
  end.

Definition first_pc (f : funcdata) (b : block_basic) (or : address) : option address :=
  match bops b with
  | [] => Some or
  | o :: _ => x ← ops f !! o; Some (pc (seqnum x))
  end.

Definition new_multiequal (f : funcdata) (block : nat) (space offset sz : Z) (npreds : nat) : option (nat * funcdata) :=
  let l := Addr space offset in
  b ← blocks f !! block;
  a ← first_pc f b (entry f);
  '(inputs, f) ← new_varnodes npreds f sz l;
  '(id, f) ← new_op f Multiequal (SeqNum a (2 ^ 32 - 1)) inputs;
  '(_, f) ← new_output f id sz l;
  f ← op_mut f id (set_parent (Some block));
  f ← block_mut f block (fun b => set_bops (id :: bops b) b);
  Some (id, f).

(** ** The stack *)

Definition new_spacebase_ptr (f : funcdata) (space : Z) : option (option nat * funcdata) :=
  match sp_spacebase (get_space (spaces f) space) with
  | [] => Some (None, f)
  | (reg, sz) :: _ => '(v, f) ← new_varnode f sz reg; Some (Some v, f)
  end.

(** a result of [None] inside is Rust's [None]; outside, a panic *)
Definition create_stack_ref (f : funcdata) (space off : Z) (op : nat) (stackptr : option nat) (insertafter : bool)
    : option (option nat * funcdata) :=
  '(sp, f) ← match stackptr with Some v => Some (Some v, f) | None => new_spacebase_ptr f space end;
  match sp with
  | None => Some (None, f)
  | Some stackptr =>
      x ← varnodes f !! stackptr;
      o ← ops f !! op;
      let ws := sp_wordsize (get_space (spaces f) space) in
      let off := if ws =? 1 then off else off / ws in
      '(cst, f) ← new_const f (size x) off;
      '(addop, f) ← new_op f IntAdd (seqnum o) [stackptr; cst];
      '(addout, f) ← new_output_unique f addop (size x);
      f ← if insertafter then op_insert_after f addop op else op_insert_before f addop op;
      Some (Some addout, f)
  end.

Definition op_stack_load (f : funcdata) (space off sz : Z) (op : nat) (stackref : option nat) (insertafter : bool)
    : option (option nat * funcdata) :=
  match sp_contain (get_space (spaces f) space) with
  | None => Some (None, f)
  | Some container =>
      '(r, f) ← create_stack_ref f space off op stackref insertafter;
      match r with
      | None => Some (None, f)
      | Some addout =>
          o ← ops f !! op;
          '(spacevn, f) ← new_const f 8 container;
          '(loadop, f) ← new_op f Load (seqnum o) [spacevn; addout];
          '(res, f) ← new_output_unique f loadop sz;
          x ← varnodes f !! addout;
          addop ← vdef x;
          f ← op_insert_after f loadop addop;
          Some (Some res, f)
      end
  end.

(** [not_mapped] is the hole list of the function's local scope *)
Definition mark_not_mapped (f : funcdata) (not_mapped : range_list) (spc first sz : Z) : option range_list :=
  let highest := highest (get_space (spaces f) spc) in
  let last := u64_sub (u64_add first sz) 1 in
  let last := if (last <? first) || (highest <? last) then highest else last in
  insert_range not_mapped spc first last.

Definition block_range (f : funcdata) (b : nat) : option (Z * Z) :=
  x ← blocks f !! b;
  first ← head (bops x);
  last ← bops x !! Nat.pred (List.length (bops x));
  o1 ← ops f !! first;
  o2 ← ops f !! last;
  Some (a_offset (pc (seqnum o1)), a_offset (pc (seqnum o2))).

(** ** Properties of values *)

Definition transfer_varnode_properties (f : funcdata) (vn new_vn : nat) (lsb_offset : Z) : option funcdata :=
  x ← varnodes f !! vn;
  y ← varnodes f !! new_vn;
  let ones := 2 ^ 64 - 1 in
  let new_consume :=
    if (0 <=? lsb_offset) && (lsb_offset <? 8) then
      let fill_bits := if lsb_offset =? 0 then 0 else u64_shl ones (8 * (8 - lsb_offset)) in
      Z.land (Z.lor (u64_shr (consume x) (8 * lsb_offset)) fill_bits) (calc_mask (size y))
    else ones in
  vn_mut f new_vn (fun y => set_consume new_consume
                              (set_flags (Z.lor (flags y) (Z.land (flags x) (Z.lor DIRECTWRITE ADDRFORCE))) y)).

Definition set_indirect_creation (v : varnode) : varnode := set_flags (Z.lor (flags v) INDIRECT_CREATION) v.

Definition mark_indirect_creation (f : funcdata) (indop : nat) (possible_output : bool) : option funcdata :=
  o ← ops f !! indop;
  f ← match output o with Some out => vn_mut f out set_indirect_creation | None => Some f end;
  if possible_output then Some f
  else
    match input o 0 with
    | None => Some f
    | Some in0 => x ← varnodes f !! in0; if is_constant x then vn_mut f in0 set_indirect_creation else Some f
    end.

(** ** Conditions *)

Definition op_flip_condition (f : funcdata) (op : nat) : option funcdata :=
  op_mut f op (fun o => set_oflags (Z.lxor (oflags o) BOOLEAN_FLIP) o).

Definition last_op (f : funcdata) (b : nat) : option (option nat) :=
  x ← blocks f !! b; Some (bops x !! Nat.pred (List.length (bops x))).

Definition block_negate_condition (f : funcdata) (b : nat) : option funcdata :=
  l ← last_op f b;
  match l with
  | None => Some f
  | Some lastop => op_mut f lastop (fun o => set_oflags (Z.lor (oflags o) (Z.lor BOOLEAN_FLIP FALLTHRU_TRUE)) o)
  end.

Definition flip_in_place_execute (f : funcdata) (b : nat) : option funcdata :=
  l ← last_op f b;
  match l with
  | None => Some f
  | Some lastop => op_mut f lastop (fun o => set_oflags (Z.lxor (oflags o) FALLTHRU_TRUE) o)
  end.

(** the operation that computes [vn] for [op] alone *)
Definition lone_def (f : funcdata) (vn op : nat) : option (option nat) :=
  x ← varnodes f !! vn;
  if negb (bool_decide (lone_descend x = Some op)) || negb (is_written x) then Some None
  else d ← vdef x; Some (Some d).

Fixpoint op_flip_in_place_test_rec (fuel : nat) (f : funcdata) (op : nat) (fliplist : list nat) : option (Z * list nat) :=
  match fuel with
  | O => None
  | S fuel =>
      o ← ops f !! op;
      match opc o with
      | Cbranch =>
          match input o 1 with
          | None => Some (2, fliplist)
          | Some vn =>
              d ← lone_def f vn op;
              match d with None => Some (2, fliplist) | Some d => op_flip_in_place_test_rec fuel f d fliplist end
          end
      | IntEqual | FloatEqual => Some (1, fliplist ++ [op])
      | BoolNegate | IntNotequal | FloatNotequal => Some (0, fliplist ++ [op])
      | IntSless | IntLess =>
          in0 ← input o 0;
          x ← varnodes f !! in0;
          Some (if negb (is_constant x) then 1 else 0, fliplist ++ [op])
      | IntSlessequal | IntLessequal =>
          in1 ← input o 1;
          x ← varnodes f !! in1;
          Some (if is_constant x then 1 else 0, fliplist ++ [op])
      | BoolOr | BoolAnd =>
          in0 ← input o 0;
          d0 ← lone_def f in0 op;
          match d0 with
          | None => Some (2, fliplist)
          | Some d0 =>
              '(subtest1, fliplist) ← op_flip_in_place_test_rec fuel f d0 fliplist;
              if subtest1 =? 2 then Some (2, fliplist)
              else
                in1 ← input o 1;
                d1 ← lone_def f in1 op;
                match d1 with
                | None => Some (2, fliplist)
                | Some d1 =>
                    '(subtest2, fliplist) ← op_flip_in_place_test_rec fuel f d1 fliplist;
                    if subtest2 =? 2 then Some (2, fliplist) else Some (subtest1, fliplist ++ [op])
                end
          end
      | _ => Some (2, fliplist)
      end
  end.

(** each level of the recursion is at another operation *)
Definition op_flip_in_place_test (f : funcdata) (op : nat) : option (Z * list nat) :=
  op_flip_in_place_test_rec (S (List.length (ops f))) f op [].

Definition sign_extend_val (val sizein sizeout : Z) : Z :=
  let bit := sizein * 8 in
  let sval := if (bit =? 0) || (64 <=? bit) then val else w64 (Z.shiftr (i64 (u64_shl val (64 - bit))) (64 - bit)) in
  Z.land sval (calc_mask sizeout).

(** the tests for overflow, on the constant as a signed 64-bit value *)
Definition overflows (c : opcode) (val diff : Z) : bool :=
  let vpd := i64 (w64 (val + diff)) in
  if bool_decide (c = IntSlessequal) then ((val <? 0) && (0 <? vpd)) || ((0 <? val) && (vpd <? 0))
  else ((diff =? -1) && (val =? 0)) || ((diff =? 1) && (val =? -1)).

Definition replace_lessequal (f : funcdata) (op : nat) : option (bool * funcdata) :=
  o ← ops f !! op;
  in0 ← input o 0;
  in1 ← input o 1;
  x0 ← varnodes f !! in0;
  x1 ← varnodes f !! in1;
  match (if is_constant x0 then Some (x0, -1, 0%nat) else if is_constant x1 then Some (x1, 1, 1%nat) else None) with
  | None => Some (false, f)
  | Some (x, diff, i) =>
      let val := i64 (sign_extend_val (a_offset (loc x)) (size x) 8) in
      if overflows (opc o) val diff then Some (false, f)
      else
        f ← op_set_opcode f op (if bool_decide (opc o = IntSlessequal) then IntSless else IntLess);
        '(newvn, f) ← new_const f (size x) (Z.land (w64 (val + diff)) (calc_mask (size x)));
        f ← op_set_input f op i newvn;
        Some (true, f)
  end.

Definition flip_one (f : funcdata) (op : nat) : option funcdata :=
  o ← ops f !! op;
  match get_booleanflip (opc o) with
  | Some (Copy, _) =>
      vn ← input o 0;
      outvn ← output o;
      x ← varnodes f !! outvn;
      otherop ← lone_descend x;
      other ← ops f !! otherop;
      slot ← position_of outvn (inrefs other);
      f ← op_set_input f otherop slot vn;
      op_destroy f op
  | None =>
      match opc o with
      | BoolAnd => op_set_opcode f op BoolOr
      | BoolOr => op_set_opcode f op BoolAnd
      | _ => None
      end
  | Some (c, flipyes) =>
      f ← op_set_opcode f op c;
      if flipyes then
        f ← op_swap_input f op 0 1;
        match c with
        | IntLessequal | IntSlessequal => '(_, f) ← replace_lessequal f op; Some f
        | _ => Some f
        end
      else Some f
  end.

Definition op_flip_in_place_execute (f : funcdata) (fliplist : list nat) : option funcdata := fold_opt flip_one fliplist f.

(** ** Replacement by a constant *)

(** the shared COPY of the constant that marker operations read *)
Definition constant_copy (f : funcdata) (vn : nat) (sz val : Z) : option (nat * funcdata) :=
  '(k, f) ← new_const f sz val;
  x ← varnodes f !! vn;
  match vdef x with
  | Some def =>
      o ← ops f !! def;
      '(cop, f) ← new_op f Copy (SeqNum (pc (seqnum o)) (num_ops f)) [k];
      '(out, f) ← new_output_unique f cop sz;
      f ← op_insert_after f cop def;
      Some (out, f)
  | None =>
      '(cop, f) ← new_op f Copy (SeqNum (entry f) (num_ops f)) [k];
      '(out, f) ← new_output_unique f cop sz;
      f ← op_insert_begin f cop 0;
      Some (out, f)
  end.

Definition replace_constant_in (vn : nat) (sz val : Z) (s : funcdata * option nat) (op : nat) : option (funcdata * option nat) :=
  let '(f, copyout) := s in
  o ← ops f !! op;
  match position_of vn (inrefs o) with
  | None => Some (f, copyout)
  | Some slot =>
      '(newrep, f, copyout) ←
        (if is_marker o then
           match copyout with
           | Some v => Some (v, f, copyout)
           | None => '(v, f) ← constant_copy f vn sz val; Some (v, f, Some v)
           end
         else '(k, f) ← new_const f sz val; Some (k, f, copyout));
      f ← op_set_input f op slot newrep;
      Some (f, copyout)
  end.

Definition total_replace_constant (f : funcdata) (vn : nat) (val : Z) : option funcdata :=
  x ← varnodes f !! vn;
  '(f, _) ← fold_opt (replace_constant_in vn (size x) val) (descend x) (f, None);
  Some f.

(** ** One definition for each read *)

Definition split_use (vn op : nat) (x : varnode) (o : pcode_op) (f : funcdata) (useop : nat) : option funcdata :=
  u ← ops f !! useop;
  match position_of vn (inrefs u) with
  | None => Some f
  | Some slot =>
      '(newop, f) ← new_op f (opc o) (SeqNum (pc (seqnum o)) (num_ops f)) (inrefs o);
      '(newvn, f) ← new_output f newop (size x) (loc x);
      f ← vn_mut f newvn (set_ty (ty x));
      f ← op_set_input f useop slot newvn;
      op_insert_before f newop op
  end.

Definition split_uses (f : funcdata) (vn : nat) : option funcdata :=
  x ← varnodes f !! vn;
  match vdef x with
  | None => Some f
  | Some op =>
      if Nat.leb (List.length (descend x)) 1 then Some f
      else o ← ops f !! op; fold_opt (split_use vn op x o) (descend x) f
  end.

Definition mark_spacebase (spc sz : Z) (f : funcdata) (v : nat) : option funcdata :=
  x ← varnodes f !! v;
  if is_free x then Some f
  else if is_spacebase x then
    match vdef x with
    | None => Some f
    | Some op => o ← ops f !! op; if bool_decide (opc o = IntAdd) then split_uses f v else Some f
    end
  else
    f ← vn_mut f v (fun x => set_flags (Z.lor (flags x) SPACEBASE) x);
    if is_input x then
      vn_mut f v (fun x => set_flags (Z.lor (flags x) TYPELOCK) (set_ty (Some (TPointer sz (TSpacebase spc))) x))
    else Some f.

Definition at_storage (f : funcdata) (l : address) (sz : Z) : list nat :=
  List.filter (fun i => match varnodes f !! i with Some v => bool_decide (loc v = l) && (size v =? sz) | None => false end)
    (seq 0 (List.length (varnodes f))).

(** (space, register, size) of each spacebase register of each space *)
Definition spacebase_registers (m : space_manager) : list (Z * address * Z) :=
  flat_map (fun i => map (fun '(l, sz) => (Z.of_nat i, l, sz)) (sp_spacebase (get_space m (Z.of_nat i))))
    (seq 0 (List.length (sm_spaces m))).

Definition spacebase (f : funcdata) : option funcdata :=
  fold_opt (fun f '(spc, l, sz) => fold_opt (mark_spacebase spc sz) (at_storage f l sz) f)
    (spacebase_registers (spaces f)) f.

(** ** Inputs joined or widened *)

(** the value [v] of the storage, carved out of the input to come: a SUBPIECE at [off], at the entry block *)
Definition carve (f : funcdata) (v : nat) (a : address) (off : Z) : option (nat * nat * funcdata) :=
  '(k, f) ← new_const f 4 off;
  '(op, f) ← new_op f Subpiece (SeqNum a (num_ops f)) [v; k];
  x ← varnodes f !! v;
  '(newvn, f) ← new_output f op (size x) (loc x);
  f ← op_insert_begin f op 0;
  f ← total_replace f v newvn;
  Some (op, newvn, f).

Definition is_piece_of (f : funcdata) (vn_hi vn_lo op : nat) : option bool :=
  o ← ops f !! op;
  Some (bool_decide (opc o = Piece) && bool_decide (input o 0 = Some vn_hi) && bool_decide (input o 1 = Some vn_lo)).

(** the program counter of the entry block's first operation *)
Definition start_pc (f : funcdata) : option (option address) :=
  b ← blocks f !! 0%nat;
  match bops b with [] => Some None | o :: _ => x ← ops f !! o; Some (Some (pc (seqnum x))) end.

Definition when {A : Type} (c : bool) (m : option (A * funcdata)) (f : funcdata) : option (option A * funcdata) :=
  if c then '(a, f) ← m; Some (Some a, f) else Some (None, f).

Definition patch (f : funcdata) (op : option nat) (vn : nat) : option funcdata :=
  match op with Some op => op_set_input f op 0 vn | None => Some f end.

Definition combine_input_varnodes (f : funcdata) (vn_hi vn_lo : nat) : option (bool * funcdata) :=
  hi ← varnodes f !! vn_hi;
  lo ← varnodes f !! vn_lo;
  if negb (is_input hi) || negb (is_input lo) then Some (false, f)
  else if negb (bool_decide (Addr (a_space (loc lo)) (u64_add (a_offset (loc lo)) (size lo)) = loc hi)) then Some (false, f)
  else
    pieces_hi ← mapM (is_piece_of f vn_hi vn_lo) (descend hi);
    pieces_lo ← mapM (is_piece_of f vn_hi vn_lo) (descend lo);
    let piece_list := map fst (List.filter snd (combine (descend hi) pieces_hi)) in
    f ← fold_opt (fun f p => op_remove_input f p 1) piece_list f;
    start ← start_pc f;
    '(sub_hi, f) ← when (negb (forallb id pieces_hi)) ('(op, _, f) ← carve f vn_hi (default (loc hi) start) (size lo); Some (op, f)) f;
    '(sub_lo, f) ← when (negb (forallb id pieces_lo)) ('(op, _, f) ← carve f vn_lo (default (loc lo) start) 0; Some (op, f)) f;
    '(in_vn, f) ← new_varnode f (w32 (size hi + size lo)) (loc lo);
    '(in_vn, f) ← set_input_varnode f in_vn;
    f ← fold_opt (fun f p => f ← op_set_input f p 0 in_vn; op_set_opcode f p Copy) piece_list f;
    f ← patch f sub_hi in_vn;
    f ← patch f sub_lo in_vn;
    Some (true, f).

(** one old input becomes a SUBPIECE, whose input 0 is patched later *)
Definition adjust_one (addr : address) (sz : Z) (s : funcdata * list nat) (v : nat) : option (funcdata * list nat) :=
  let '(f, done) := s in
  x ← varnodes f !! v;
  sa ← justified_contain (spaces f) addr sz (loc x) (size x) false;
  if negb (is_input x) || (sz <=? size x) then None
  else
    let uniq := num_ops f in
    '(k, f) ← new_const f 4 sa;
    '(subop, f) ← new_op f Subpiece (SeqNum (entry f) uniq) [k; k];
    f ← op_set_input f subop 1 k;
    '(newvn, f) ← new_output f subop (size x) (loc x);
    f ← op_insert_begin f subop 0;
    f ← total_replace f v newvn;
    f ← delete_varnode f v;
    Some (f, done ++ [newvn]).

Definition adjust_input_varnodes (f : funcdata) (addr : address) (sz : Z) : option funcdata :=
  let endoff := u64_add (a_offset addr) (u64_sub sz 1) in
  let inlist := inputs_where f (fun v => (a_space (loc v) =? a_space addr) && (a_offset addr <=? a_offset (loc v)) &&
                                         (a_offset (loc v) <=? endoff)) in
  let fits v := match varnodes f !! v with Some x => u64_add (a_offset (loc x)) (u64_sub (size x) 1) <=? endoff | None => false end in
  if negb (forallb fits inlist) then None
  else
    '(f, outs) ← fold_opt (adjust_one addr sz) inlist (f, []);
    '(invn, f) ← new_varnode f sz addr;
    '(invn, f) ← set_input_varnode f invn;
    f ← vn_mut f invn (fun v => set_addlflags (Z.lor (addlflags v) WRITEMASK) v);
    fold_opt (fun f v => x ← varnodes f !! v; op ← vdef x; op_set_input f op 0 invn) outs f.

(** ** Splitting a block *)

Definition OP_KEEP : Z :=
  fold_left Z.lor [NO_INDIRECT_COLLAPSE; INDIRECT_STORE; CALCULATED_BOOL; NO_COLLAPSE; SPECIAL_PRINT] STARTBASIC.
Definition VN_KEEP : Z :=
  fold_left Z.lor [VOLATILE; INCIDENTAL_COPY; READONLY; PERSIST; ADDRTIED; ADDRFORCE; NOLOCALALIAS; SPACEBASE;
                   INDIRECT_CREATION; RETURN_ADDRESS; PRECISLO; PRECISHI] EXTERNREF.

(** the clone of one operation, with an output like its original's; a plain branch is not cloned *)
Definition clone_op (bprime : nat) (s : funcdata * list (nat * nat)) (orig : nat) : option (funcdata * list (nat * nat)) :=
  let '(f, clones) := s in
  o ← ops f !! orig;
  if is_branch (opc o) then (if bool_decide (opc o = Branch) then Some (f, clones) else None)
  else
    '(dup, f) ← new_op f (opc o) (SeqNum (pc (seqnum o)) (num_ops f)) (inrefs o);
    f ← op_mut f dup (fun d => set_oflags (Z.lor (oflags d) (Z.land (oflags o) OP_KEEP)) d);
    f ← match output o with
        | None => Some f
        | Some opvn =>
            x ← varnodes f !! opvn;
            '(newvn, f) ← new_output f dup (size x) (loc x);
            vn_mut f newvn (fun v => set_addlflags (Z.lor (addlflags v) (Z.land (addlflags x) WRITEMASK))
                                       (set_flags (Z.lor (flags v) (Z.land (flags x) VN_KEEP)) v))
        end;
    f ← op_insert_end f dup bprime;
    Some (f, clones ++ [(dup, orig)]).

Definition clone_of (clones : list (nat * nat)) (orig : nat) : option nat :=
  fst <$> find (fun '(_, o) => Nat.eqb o orig) (rev clones).

(** what the clone reads where the original reads [orig_vn] *)
Definition clone_input (clones : list (nat * nat)) (o : pcode_op) (i : nat) (f : funcdata) (orig_vn : nat) : option (nat * funcdata) :=
  x ← varnodes f !! orig_vn;
  if is_constant x then Some (orig_vn, f)
  else if is_annotation x then new_code_ref f (loc x)
  else if is_free x then
    if bool_decide (opc o = Return) && Nat.eqb i 0 then new_varnode f (size x) (loc x) else None
  else
    match d ← vdef x; clone_of clones d with
    | Some c => out ← output_of f c; Some (out, f)
    | None => Some (orig_vn, f)
    end.

(** the clone of a MULTIEQUAL takes the one edge; the original loses it *)
Definition patch_phi (inedge clone_op orig : nat) (f : funcdata) : option funcdata :=
  o ← ops f !! orig;
  c ← ops f !! clone_op;
  pick ← input o inedge;
  f ← fold_opt (fun f _ => op_remove_input f clone_op 1) (seq 1 (Nat.pred (List.length (inrefs c)))) f;
  f ← op_set_opcode f clone_op Copy;
  f ← op_set_input f clone_op 0 pick;
  f ← op_remove_input f orig inedge;
  o ← ops f !! orig;
  if Nat.eqb (List.length (inrefs o)) 1 then op_set_opcode f orig Copy else Some f.

Definition patch_clone (clones : list (nat * nat)) (inedge : nat) (f : funcdata) (p : nat * nat) : option funcdata :=
  let '(clone_op, orig) := p in
  o ← ops f !! orig;
  if bool_decide (opc o = Multiequal) then patch_phi inedge clone_op orig f
  else if bool_decide (opc o = Indirect) || is_call o then None
  else
    c ← ops f !! clone_op;
    fold_opt (fun f i =>
        o ← ops f !! orig;
        orig_vn ← input o i;
        '(clone_vn, f) ← clone_input clones o i f orig_vn;
        op_set_input f clone_op i clone_vn)
      (seq 0 (List.length (inrefs c))) f.

Definition clone_block_ops (f : funcdata) (b bprime inedge : nat) : option funcdata :=
  let f := structure_reset f in
  x ← blocks f !! b;
  '(f, clones) ← fold_opt (clone_op bprime) (bops x) (f, []);
  fold_opt (patch_clone clones inedge) clones f.

Definition node_split (f : funcdata) (b inedge : nat) : option funcdata :=
  let f := structure_reset f in
  x ← blocks f !! b;
  if negb (bool_decide (out_edges x = [])) || Nat.leb (List.length (in_edges x)) 1 ||
     negb (bool_decide (base.NoDup (in_edges x))) then None
  else
    a ← in_edges x !! inedge;
    let '(bprime, f) := new_block_basic f in
    y ← blocks f !! a;
    a_out ← position_of b (out_edges y);
    f ← block_mut f a (fun y => set_outs (<[a_out := bprime]> (out_edges y)) y);
    f ← block_mut f b (fun x => set_ins (delete inedge (in_edges x)) x);
    f ← block_mut f bprime (fun x => set_ins (in_edges x ++ [a]) x);
    clone_block_ops f b bprime inedge.
