(* ===== verification/FuncdataBuildFacts.v ===== *)
(** The compound edits: an input is marked once, a comparison with a constant is rewritten to one of
    the same truth, a flipped comparison is the opposite one, the search for a flip ends. *)
From Stdlib Require Import ZArith Lia Bool List.
From stdpp Require Import base decidable option list strings gmap numbers tactics.
From S2P Require Import Prelude Space OpCode BitUtil PcodeSem Funcdata FuncdataLinks FuncdataEdits FuncdataRemove FuncdataBlocks FuncdataTheorems FuncdataBuild.
Local Open Scope Z_scope.

(** ** What wiring leaves alone *)

(** Every value keeps its storage and flags, every operation its code and output. *)
Record same_core (f f' : funcdata) : Prop := SameCore {
  sc_vns : forall w x, varnodes f !! w = Some x ->
    exists x', varnodes f' !! w = Some x' /\ loc x' = loc x /\ size x' = size x /\ flags x' = flags x;
  sc_ops : forall o x, ops f !! o = Some x -> exists x', ops f' !! o = Some x' /\ opc x' = opc x /\ output x' = output x;
}.

#[export] Instance same_core_refl : Reflexive same_core.
Proof. intros f. constructor; eauto. Qed.

#[export] Instance same_core_trans : Transitive same_core.
Proof.
  intros f g h [V1 O1] [V2 O2]. constructor.
  - intros w x Hx. destruct (V1 w x Hx) as (y & Hy & E1 & E2 & E3). destruct (V2 w y Hy) as (z & Hz & E4 & E5 & E6). exists z. split_and!; congruence.
  - intros w x Hx. destruct (O1 w x Hx) as (y & Hy & E1 & E2). destruct (O2 w y Hy) as (z & Hz & E4 & E5). exists z. split_and!; congruence.
Qed.

Lemma vn_mut_core (f f' : funcdata) (v : nat) (g : varnode -> varnode) :
  (forall x, loc (g x) = loc x /\ size (g x) = size x /\ flags (g x) = flags x) -> vn_mut f v g = Some f' -> same_core f f'.
Proof.
  intros Hg H. unfold vn_mut in H. destruct (varnodes f !! v) as [x|] eqn:Hx; [|done]. injection H as <-. constructor; cbn; [|eauto].
  intros w y Hy. pose proof (lookup_lt_Some _ _ _ Hx). rewrite lookup_upd by done. case_decide as E; [|eauto].
  subst w. assert (y = x) as -> by congruence. exists (g x). split; [done|apply Hg].
Qed.

Lemma op_mut_core (f f' : funcdata) (o : nat) (g : pcode_op -> pcode_op) :
  (forall x, opc (g x) = opc x /\ output (g x) = output x) -> op_mut f o g = Some f' -> same_core f f'.
Proof.
  intros Hg H. unfold op_mut in H. destruct (ops f !! o) as [x|] eqn:Hx; [|done]. injection H as <-. constructor; cbn; [eauto|].
  intros w y Hy. pose proof (lookup_lt_Some _ _ _ Hx). rewrite lookup_upd by done. case_decide as E; [|eauto].
  subst w. assert (y = x) as -> by congruence. exists (g x). split; [done|apply Hg].
Qed.

Lemma alloc_core (f f' : funcdata) (sz : Z) (l : address) (fl : Z) (v : nat) : alloc_varnode f sz l fl = Some (v, f') -> same_core f f'.
Proof.
  unfold alloc_varnode. intros H. destruct (sm_spaces (spaces f) !! _); [|done]. injection H as <- <-. constructor; cbn; [|eauto].
  intros w x Hx. exists x. split_and!; try done. rewrite lookup_app_l; [done|by eapply lookup_lt_Some].
Qed.

Lemma new_const_core (f f' : funcdata) (sz value : Z) (v : nat) : new_const f sz value = Some (v, f') -> same_core f f'.
Proof. unfold new_const. intros H. destruct (constant_space f); [|done]. by eapply alloc_core. Qed.

Lemma unique_constant_core (f f' : funcdata) (vid v : nat) : unique_constant_for f vid = Some (v, f') -> same_core f f'.
Proof.
  unfold unique_constant_for. intros H. destruct (varnodes f !! vid) as [x|]; [|done]. cbn in H. destruct (_ || _); [by injection H as <- <-|].
  destruct (new_const f _ _) as [[c f1]|] eqn:E1; [|done]. cbn in H. destruct (vn_mut f1 c _) as [f2|] eqn:E2; [|done]. injection H as <- <-.
  etrans; [by eapply new_const_core|]. eapply vn_mut_core; [|done]. done.
Qed.

Lemma op_set_input_core (f f' : funcdata) (op slot vid : nat) : op_set_input f op slot vid = Some f' -> same_core f f'.
Proof.
  unfold op_set_input. intros H. destruct (ops f !! op) as [o|]; [|done]. cbn in H. destruct (inrefs o !! slot) as [old|]; [|done]. cbn in H.
  destruct (Nat.eqb old vid); [by injection H as <-|].
  destruct (unique_constant_for f vid) as [[v f1]|] eqn:E1; [|done]. cbn in H. destruct (detach f1 op old) as [f2|] eqn:E2; [|done]. cbn in H.
  destruct (op_mut f2 op _) as [f3|] eqn:E3; [|done]. cbn in H.
  etrans; [by eapply unique_constant_core|]. etrans; [eapply vn_mut_core; [|exact E2]; done|].
  etrans; [eapply op_mut_core; [|exact E3]; done|]. eapply vn_mut_core; [|exact H]. done.
Qed.

(** ** The value of a comparison *)

(** the value an operation reads at a varnode, under a valuation of the values that are not constants *)
Definition value (f : funcdata) (rho : nat -> Z) (v : nat) : option Z :=
  (fun x => if is_constant x then a_offset (loc x) else rho v) <$> varnodes f !! v.

Definition size_of (f : funcdata) (v : nat) : Z := default 0 (size <$> varnodes f !! v).

(** what a two-input operation computes *)
Definition computes (f : funcdata) (rho : nat -> Z) (op : nat) : option Z :=
  o ← ops f !! op;
  match inrefs o with
  | [a; b] => x ← value f rho a; y ← value f rho b; eval_binary (opc o) (size_of f a) 1 x y
  | _ => None
  end.

(** the valuation gives every value of the size a value of the size, and constants fit theirs *)
Definition fits (f : funcdata) (rho : nat -> Z) : Prop :=
  forall v x, varnodes f !! v = Some x -> is_value (size x) (if is_constant x then a_offset (loc x) else rho v).

(** the constants at which the signed rewrite is wrong: the least or greatest value of fewer than eight bytes *)
Definition at_signed_edge (c : opcode) (sz diff k : Z) : bool :=
  bool_decide (c = IntSlessequal) && (sz <? 8) &&
  ((diff =? 1) && (k =? modulus sz / 2 - 1) || (diff =? -1) && (k =? modulus sz / 2)).

(** ** Sign extension *)

Lemma signed_mod (sz k : Z) : valid_size sz -> is_value sz k -> signed sz k mod modulus sz = k.
Proof.
  intros Hs Hk. pose proof (modulus_pos sz Hs). unfold signed, is_value in *. destruct (k <? _).
  - by apply Z.mod_small.
  - rewrite <- (Z.mod_small k (modulus sz)) at 2 by done. rewrite <- (Z_mod_plus_full (k - modulus sz) 1). f_equal. lia.
Qed.

Lemma sign_extend_val_spec (k sz : Z) : valid_size sz -> is_value sz k -> i64 (sign_extend_val k sz 8) = signed sz k.
Proof.
  intros Hs Hk. pose proof (modulus_ge sz Hs) as Hm. unfold valid_size, is_value in *.
  assert (H64 : forall z, Z.land (w64 z) (calc_mask 8) = w64 z).
  { intros z. pose proof (w64_range z). change (calc_mask 8) with (Z.ones 64). rewrite Z.land_ones by lia. by apply Z.mod_small. }
  pose proof (signed_range sz k ltac:(done) ltac:(done)) as Hr. pose proof (modulus_half sz ltac:(done)) as Hh.
  unfold sign_extend_val. destruct (Z.eqb_spec (sz * 8) 0) as [|_]; [lia|]. destruct (Z.leb_spec 64 (sz * 8)) as [Hge|Hlt]; cbn [orb].
  - assert (sz = 8) as -> by lia. rewrite <- (w64_small k) by (change (modulus 8) with (2 ^ 64) in *; lia). rewrite H64, w64_small by (change (modulus 8) with (2 ^ 64) in *; lia).
    unfold i64, signed. change (modulus 8 / 2) with (2 ^ 63). change (modulus 8) with (2 ^ 64).
    rewrite w64_small by (change (modulus 8) with (2 ^ 64) in *; lia). reflexivity.
  - rewrite H64, <- (i64_small (signed sz k)) by lia. f_equal. f_equal.
    set (n := 64 - sz * 8). assert (Hn : 0 < n < 64) by (unfold n; lia).
    assert (Hp : 2 ^ n * modulus sz = 2 ^ 64) by (unfold modulus, n; rewrite <- Z.pow_add_r by lia; f_equal; lia).
    assert (E : i64 (u64_shl k n) = signed sz k * 2 ^ n).
    { unfold u64_shl. rewrite Z.mod_small, Z.shiftl_mul_pow2 by lia. rewrite <- (i64_small (signed sz k * 2 ^ n)) by nia.
      f_equal. unfold w64. change 18446744073709551616 with (2 ^ 64). rewrite <- Hp, Z.mul_comm, !(Z.mul_comm _ (2 ^ n)).
      rewrite !Z.mul_mod_distr_l by lia. f_equal. rewrite signed_mod by done. by apply Z.mod_small. }
    rewrite E, Z.shiftr_div_pow2, Z.div_mul by lia. done.
Qed.

Lemma signed_of_mod (sz z : Z) : valid_size sz -> - (modulus sz / 2) <= z < modulus sz / 2 -> signed sz (z mod modulus sz) = z.
Proof.
  intros Hs Hz. pose proof (modulus_half sz Hs). pose proof (modulus_pos sz Hs). unfold signed.
  destruct (Z.lt_ge_cases z 0).
  - assert (E : z mod modulus sz = z + modulus sz).
    { rewrite <- (Z_mod_plus_full z 1), Z.mul_1_l. apply Z.mod_small. lia. }
    rewrite E. cmp; lia.
  - rewrite Z.mod_small by lia. cmp; lia.
Qed.

Lemma masked (sz z : Z) : valid_size sz -> Z.land (w64 z) (calc_mask sz) = z mod modulus sz.
Proof. intros Hs. unfold valid_size, modulus in *. rewrite calc_mask_ones, land_ones_w64 by lia. done. Qed.

(** [<=] against a constant, as [<] against its neighbour *)
Lemma lessequal_neighbour (c : opcode) (sz k diff x : Z) : valid_size sz -> is_value sz k -> is_value sz x ->
  c = IntLessequal \/ c = IntSlessequal -> diff = 1 \/ diff = -1 ->
  overflows c (signed sz k) diff = false -> at_signed_edge c sz diff k = false ->
  let c' := if bool_decide (c = IntSlessequal) then IntSless else IntLess in
  let k' := (signed sz k + diff) mod modulus sz in
  is_value sz k' /\
  (if diff =? 1 then eval_binary c' sz 1 x k' = eval_binary c sz 1 x k else eval_binary c' sz 1 k' x = eval_binary c sz 1 k x).
Proof.
  intros Hs Hk Hx Hc Hd Hg He c' k'. pose proof (modulus_half sz Hs) as Hh. pose proof (modulus_pos sz Hs) as Hp. pose proof (modulus_ge sz Hs) as Hm.
  assert (Hk' : is_value sz k') by (apply Z.mod_pos_bound; lia). split; [done|]. unfold is_value in *.
  assert (Em : forall d, (signed sz k + d) mod modulus sz = (k + d) mod modulus sz).
  { intros d. rewrite <- (signed_mod sz k) at 2 by done. by rewrite Zplus_mod_idemp_l. }
  destruct Hc as [-> | ->]; unfold overflows in Hg; cbn [bool_decide] in *; unfold c' in *; clear c'.
  - (* unsigned *)
    change (bool_decide (IntLessequal = IntSlessequal)) with false in *. cbn [orb andb] in *. cbn [eval_binary].
    unfold k' in *. rewrite Em in *. clear k'. apply orb_false_iff in Hg as [H1 H2]. destruct Hd as [-> | ->]; cbn in H1, H2 |- *.
    + apply Z.eqb_neq in H2. assert (k <> modulus sz - 1).
      { intros E. apply H2. unfold signed. cmp; lia. }
      rewrite Z.mod_small by lia. f_equal. f_equal. cmp; lia.
    + apply Z.eqb_neq in H1. assert (k <> 0) by (intros E; apply H1; unfold signed; cmp; lia).
      rewrite Z.mod_small by lia. f_equal. f_equal. cmp; lia.
  - change (bool_decide (IntSlessequal = IntSlessequal)) with true in *. cbn [eval_binary].
    pose proof (signed_range sz k Hs ltac:(done)) as Hr. pose proof (signed_range sz x Hs ltac:(done)) as Hrx.
    assert (Hin : - (modulus sz / 2) <= signed sz k + diff < modulus sz / 2).
    { unfold at_signed_edge in He. change (bool_decide (IntSlessequal = IntSlessequal)) with true in He. cbn [andb] in He.
      destruct (Z.ltb_spec sz 8) as [Hlt|Hge].
      - cbn [andb] in He. apply orb_false_iff in He as [H1 H2]. unfold signed in *. destruct Hd as [-> | ->]; cbn in H1, H2.
        + apply Z.eqb_neq in H1. cmp; lia.
        + apply Z.eqb_neq in H2. cmp; lia.
      - assert (sz = 8) as -> by (unfold valid_size in *; lia). change (modulus 8) with (2 ^ 64) in *. change (2 ^ 64 / 2) with (2 ^ 63) in *.
        apply orb_false_iff in Hg as [H1 H2]. destruct (decide (- 2 ^ 63 <= signed 8 k + diff < 2 ^ 63)) as [|Hout]; [done|exfalso].
        destruct Hd as [-> | ->].
        + assert (E : signed 8 k = 2 ^ 63 - 1) by lia. rewrite E in H2. vm_compute in H2. done.
        + assert (E : signed 8 k = - 2 ^ 63) by lia. rewrite E in H1. vm_compute in H1. done. }
    assert (Ek : signed sz k' = signed sz k + diff) by (by apply signed_of_mod). rewrite Ek.
    destruct Hd as [-> | ->]; cbn; f_equal; f_equal; cmp; lia.
Qed.

(** ** The rewrite of [<=] against a constant *)

Lemma vn_mut_ops (f f' : funcdata) (v : nat) (g : varnode -> varnode) : vn_mut f v g = Some f' -> ops f' = ops f.
Proof. unfold vn_mut. destruct (varnodes f !! v); [|done]. by intros [= <-]. Qed.

(** An unread value is wired as it is. *)
Lemma op_set_input_unread (f f' : funcdata) (op slot vid : nat) (x : pcode_op) (y : varnode) : ops f !! op = Some x ->
  varnodes f !! vid = Some y -> descend y = [] -> op_set_input f op slot vid = Some f' -> inputs f' op = <[slot := vid]> (inrefs x).
Proof.
  intros Hx Hy Hd H. unfold op_set_input in H. rewrite Hx in H. cbn in H. destruct (inrefs x !! slot) as [old|] eqn:Hs; [|done]. cbn in H.
  destruct (Nat.eqb_spec old vid) as [->|Hne]; [injection H as <-; by rewrite (inputs_at _ _ _ Hx), list_insert_id|].
  assert (E1 : unique_constant_for f vid = Some (vid, f)).
  { unfold unique_constant_for. rewrite Hy. cbn. rewrite bool_decide_true by done. by rewrite orb_true_r. }
  rewrite E1 in H. cbn in H. destruct (detach f op old) as [f2|] eqn:E2; [|done]. cbn in H. unfold detach in E2. apply vn_mut_ops in E2.
  unfold op_mut in H. rewrite E2, Hx in H. cbn in H. apply vn_mut_ops in H. unfold inputs. rewrite H. cbn.
  rewrite list_lookup_insert_eq by (by eapply lookup_lt_Some). done.
Qed.

Lemma value_core (f f' : funcdata) (rho : nat -> Z) (v : nat) : same_core f f' -> (v < List.length (varnodes f))%nat ->
  value f' rho v = value f rho v /\ size_of f' v = size_of f v.
Proof.
  intros C Hv. destruct (lookup_lt_is_Some_2 _ _ Hv) as [x Hx]. destruct (sc_vns _ _ C v x Hx) as (y & Hy & El & Es & Ef).
  unfold value, size_of, is_constant. rewrite Hx, Hy. cbn. by rewrite El, Es, Ef.
Qed.

(** An operation between two values of [sz] bytes. *)
Record comparison (f : funcdata) (op : nat) (o : pcode_op) (a b : nat) (x y : varnode) (sz : Z) : Prop := Comparison {
  cm_op : ops f !! op = Some o;
  cm_inputs : inrefs o = [a; b];
  cm_a : varnodes f !! a = Some x;
  cm_b : varnodes f !! b = Some y;
  cm_sa : size x = sz;
  cm_sb : size y = sz;
  cm_sz : valid_size sz;
}.

Lemma computes_at (f : funcdata) (rho : nat -> Z) (op : nat) (o : pcode_op) (a b : nat) (x y : varnode) (sz : Z) : comparison f op o a b x y sz ->
  computes f rho op = eval_binary (opc o) sz 1 (if is_constant x then a_offset (loc x) else rho a) (if is_constant y then a_offset (loc y) else rho b).
Proof. intros []. unfold computes, value, size_of. rewrite cm_op0. cbn. rewrite cm_inputs0, cm_a0, cm_b0. cbn. by rewrite cm_sa0. Qed.

(** Which constant the rewrite moves, and which way. *)
Definition moved (x y : varnode) : option (varnode * Z * nat) :=
  if is_constant x then Some (x, -1, 0%nat) else if is_constant y then Some (y, 1, 1%nat) else None.

(** Replacing input [i] of a comparison by a fresh constant, with a new code. *)
Lemma recode_runs (f : funcdata) (op : nat) (o : pcode_op) (a b : nat) (x y : varnode) (sz : Z) (c : opcode) (k : Z) (i : nat) : wf f ->
  comparison f op o a b x y sz -> (i < 2)%nat ->
  runs (f ← op_set_opcode f op c; '(v, f) ← new_const f sz k; op_set_input f op i v) (fun f' => wf f' /\
    forall rho, computes f' rho op = eval_binary c sz 1
      (if decide (i = 0%nat) then k else if is_constant x then a_offset (loc x) else rho a)
      (if decide (i = 0%nat) then if is_constant y then a_offset (loc y) else rho b else k)).
Proof.
  intros W [Ho Ei Ha Hb Sa Sb Hsz] Hi. pose proof (lookup_lt_Some _ _ _ Ha) as La. pose proof (lookup_lt_Some _ _ _ Hb) as Lb.
  unfold op_set_opcode. run_step ltac:(eapply op_touch_runs; [apply W|exact Ho|done..]). cbn beta. intros f1 [E1 U1].
  assert (W1 : wf f1) by (by eapply wf_edited).
  assert (Hva : forall v x, varnodes f !! v = Some x -> varnodes f1 !! v = Some x) by (intros v z; by rewrite (ou_vns _ _ _ _ _ U1)).
  run_step ltac:(apply new_const_runs; apply W1). intros [v f2] (z & sp & cs & A & Ec & Ef & Es & El).
  assert (W2 : wf f2).
  { eapply wf_edited; [exact W1|]. split; [|by eapply ap_keeps]. eapply ap_graph; [done|apply W1|].
    eapply fresh_flags; [done|apply (ap_def _ _ _ _ A)|]. left. apply neutral_constant. }
  assert (Ho2 : ops f2 !! op = Some (set_opc c o)) by (rewrite (ap_ops _ _ _ _ A), (ou_ops _ _ _ _ _ U1); by case_decide).
  assert (Hz : varnodes f2 !! v = Some z) by (rewrite (ap_lookup _ _ _ _ A); by case_decide).
  assert (Hold : forall w y, varnodes f !! w = Some y -> varnodes f2 !! w = Some y /\ w <> v).
  { intros w y' Hw. apply Hva in Hw. pose proof (lookup_lt_Some _ _ _ Hw). pose proof (ap_id _ _ _ _ A).
    split; [|lia]. rewrite (ap_lookup _ _ _ _ A). case_decide; [lia|done]. }
  assert (Ez : is_constant z = true) by (unfold is_constant; rewrite Ef; apply (const_has 0)).
  assert (Hslot : exists old, inrefs (set_opc c o) !! i = Some old /\ old <> v).
  { cbn. rewrite Ei. destruct i as [|[|]]; [exists a|exists b|lia]; (split; [done|]); [by eapply (Hold a)|by eapply (Hold b)]. }
  destruct Hslot as (old & Hs & Hne). pose proof (op_set_input_edit f2 op _ (wf_graph _ W2) (wf_spaces _ W2) Ho2 i v old Hs) as Hset.
  specialize (Hset ltac:(by eapply lookup_lt_Some)). apply runs_exists in Hset as (f3 & E3 & Ed3 & _). rewrite E3. cbn.
  split; [by eapply wf_edited|]. intros rho. pose proof (op_set_input_core _ _ _ _ _ E3) as C.
  pose proof (op_set_input_unread _ _ _ _ _ _ _ Ho2 Hz (ap_readers _ _ _ _ A) E3) as Ein. cbn [inrefs set_opc] in Ein. rewrite Ei in Ein.
  destruct (sc_ops _ _ C op _ Ho2) as (o3 & Ho3 & Eopc & _). rewrite (inputs_at _ _ _ Ho3) in Ein.
  destruct (Hold a x Ha) as [Ha2 Na]. destruct (Hold b y Hb) as [Hb2 Nb].
  destruct (sc_vns _ _ C a x Ha2) as (x3 & Hx3 & Elx & Esx & Efx). destruct (sc_vns _ _ C b y Hb2) as (y3 & Hy3 & Ely & Esy & Efy).
  destruct (sc_vns _ _ C v z Hz) as (z3 & Hz3 & Elz & Esz & Efz).
  assert (Cz : is_constant z3 = true) by (unfold is_constant in *; by rewrite Efz). assert (Cx : is_constant x3 = is_constant x) by (unfold is_constant in *; by rewrite Efx).
  assert (Cy : is_constant y3 = is_constant y) by (unfold is_constant in *; by rewrite Efy).
  unfold computes. rewrite Ho3. cbn [mbind option_bind]. rewrite Ein. unfold value, size_of.
  destruct i as [|[|]]; [| |lia]; cbn [insert list_insert]; rewrite ?Hx3, ?Hy3, Hz3; cbn; rewrite ?Cx, ?Cy, Cz, ?Elx, ?Ely, Elz, El; cbn.
  - by rewrite Eopc, Esz, Es.
  - by rewrite Eopc, Esx, Sa.
Qed.

Lemma replace_lessequal_runs (f : funcdata) (op : nat) (o : pcode_op) (a b : nat) (x y : varnode) (sz : Z) : wf f ->
  comparison f op o a b x y sz -> opc o = IntLessequal \/ opc o = IntSlessequal ->
  (forall z d i, moved x y = Some (z, d, i) -> at_signed_edge (opc o) sz d (a_offset (loc z)) = false) ->
  runs (replace_lessequal f op) (fun '(fired, f') => wf f' /\
    (forall rho, fits f rho -> computes f' rho op = computes f rho op) /\ (fired = false -> f' = f)).
Proof.
  intros W Cm Hc He. pose proof Cm as [Ho Ei Ha Hb Sa Sb Hsz]. unfold replace_lessequal, input. rewrite Ho. cbn [mbind option_bind].
  rewrite Ei. cbn [lookup list_lookup]. cbn [mbind option_bind]. rewrite Ha, Hb. cbn [mbind option_bind].
  change (if is_constant x then Some (x, -1, 0%nat) else if is_constant y then Some (y, 1, 1%nat) else None) with (moved x y).
  destruct (moved x y) as [[[z d] i]|] eqn:Em; [|by split_and!].
  assert (Hz : is_constant z = true /\ size z = sz /\ (d = 1 \/ d = -1) /\ (i < 2)%nat /\ exists v, varnodes f !! v = Some z).
  { unfold moved in Em. destruct (is_constant x) eqn:Cx; [injection Em as <- <- <-; eauto 10|].
    destruct (is_constant y) eqn:Cy; [injection Em as <- <- <-; eauto 10|done]. }
  destruct Hz as (Cz & Sz & Hd & Hi & v & Hv). specialize (He z d i eq_refl). set (k := a_offset (loc z)) in *.
  destruct (decide (is_value sz k)) as [Hk|Hk]; cycle 1.
  { (* no valuation fits a constant that exceeds its size *)
    assert (Hno : forall rho, ~ fits f rho) by (intros rho Hf; specialize (Hf v z Hv); rewrite Cz, Sz in Hf; done).
    destruct (overflows _ _ _); [split_and!; [done|by intros rho Hf; destruct (Hno rho)|done]|].
    eapply runs_mono with (P := fun '(fired, f') => fired = true /\ wf f').
    - pose proof (recode_runs f op o a b x y sz (if bool_decide (opc o = IntSlessequal) then IntSless else IntLess)
        (Z.land (w64 (i64 (sign_extend_val k (size z) 8) + d)) (calc_mask (size z))) i W Cm Hi) as R. rewrite Sz in R |- *.
      destruct (op_set_opcode f op _) as [f1|]; [|done]. cbn in *. destruct (new_const f1 sz _) as [[w f2]|]; [|done]. cbn in *.
      destruct (op_set_input f2 op i w) as [f3|]; [|done]. cbn in *. by destruct R.
    - intros [fired f'] [-> W']. split_and!; [done|by intros rho Hf; destruct (Hno rho)|done]. }
  rewrite Sz, sign_extend_val_spec by done.
  destruct (overflows (opc o) (signed sz k) d) eqn:Hg; [by split_and!|].
  set (c' := if bool_decide (opc o = IntSlessequal) then IntSless else IntLess). rewrite masked by done. set (k' := (signed sz k + d) mod modulus sz).
  pose proof (recode_runs f op o a b x y sz c' k' i W Cm Hi) as R.
  destruct (op_set_opcode f op c') as [f1|]; [|done]. cbn [mbind option_bind] in *. destruct (new_const f1 sz k') as [[w f2]|]; [|done]. cbn [mbind option_bind] in *.
  destruct (op_set_input f2 op i w) as [f3|]; [|done]. cbn in R |- *. destruct R as [W3 R]. split_and!; [done| |done].
  intros rho Hf. rewrite R, (computes_at f rho op o a b x y sz Cm). clear R.
  pose proof (Hf a x Ha) as Va. pose proof (Hf b y Hb) as Vb. rewrite Sa in Va. rewrite Sb in Vb.
  unfold moved in Em. destruct (is_constant x) eqn:Cx.
  - injection Em as <- <- <-. rewrite decide_True by done.
    destruct (lessequal_neighbour (opc o) sz k (-1) (if is_constant y then a_offset (loc y) else rho b) Hsz Hk Vb Hc Hd Hg He) as [_ E]. exact E.
  - destruct (is_constant y) eqn:Cy; [|done]. injection Em as <- <- <-. rewrite decide_False by done.
    destruct (lessequal_neighbour (opc o) sz k 1 (rho a) Hsz Hk Va Hc Hd Hg He) as [_ E]. exact E.
Qed.

(** ** Flipping one comparison *)

Definition is_comparison (c : opcode) : bool :=
  match c with IntEqual | IntNotequal | IntSless | IntLess | IntSlessequal | IntLessequal => true | _ => false end.

(** Recoding and exchanging the inputs of a comparison. *)
Lemma recode_comparison (f : funcdata) (op : nat) (o : pcode_op) (a b : nat) (x y : varnode) (sz : Z) (c : opcode) : wf f ->
  comparison f op o a b x y sz ->
  runs (op_set_opcode f op c) (fun f' => wf f' /\ varnodes f' = varnodes f /\ comparison f' op (set_opc c o) a b x y sz).
Proof.
  intros W [Ho Ei Ha Hb Sa Sb Hsz]. unfold op_set_opcode. eapply runs_mono; [eapply op_touch_runs; [apply W|exact Ho|done..]|].
  intros f' [E U]. split; [by eapply wf_edited|]. split; [apply U|]. constructor; rewrite ?(ou_vns _ _ _ _ _ U); try done.
  rewrite (ou_ops _ _ _ _ _ U). by case_decide.
Qed.

Lemma swap_comparison (f : funcdata) (op : nat) (o : pcode_op) (a b : nat) (x y : varnode) (sz : Z) : wf f ->
  comparison f op o a b x y sz ->
  runs (op_swap_input f op 0 1) (fun f' => wf f' /\ varnodes f' = varnodes f /\ exists o', opc o' = opc o /\ comparison f' op o' b a y x sz).
Proof.
  intros W [Ho Ei Ha Hb Sa Sb Hsz]. pose proof (op_swap_input_edit f op o (wf_graph _ W) Ho 0 1 a b ltac:(by rewrite Ei) ltac:(by rewrite Ei)) as H.
  unfold op_swap_input in *. rewrite Ho in *. cbn [mbind option_bind] in *. rewrite Ei in *. cbn [lookup list_lookup mbind option_bind] in *.
  eapply runs_mono; [apply runs_exists in H as (f1 & E1 & H1 & _); eapply runs_some with (Q := fun f' => edited f f' /\ op_update f op o (set_inrefs (<[1%nat:=a]> (<[0%nat:=b]> [a; b])) o) f'); [exact E1|split; [exact H1|]]|].
  - pose proof (op_mut_update f op (set_inrefs (<[1%nat:=a]> (<[0%nat:=b]> [a; b]))) o Ho) as U. rewrite E1 in U. exact U.
  - intros f' [E U]. split; [by eapply wf_edited|]. split; [apply U|]. eexists. split; [|constructor; rewrite ?(ou_vns _ _ _ _ _ U); try done].
    2:{ rewrite (ou_ops _ _ _ _ _ U). case_decide; [reflexivity|done]. } all: done.
Qed.

Lemma fits_same_values (f f' : funcdata) (rho : nat -> Z) : varnodes f' = varnodes f -> fits f rho -> fits f' rho.
Proof. intros E H v x. rewrite E. apply H. Qed.

(** The opposite truth value. *)
Definition opposite (t : option Z) : option Z := (fun t => 1 - t) <$> t.

Lemma flip_eval (c c' : opcode) (yes : bool) (sz u v : Z) : is_comparison c = true -> get_booleanflip c = Some (c', yes) ->
  eval_binary c' sz 1 (if yes then v else u) (if yes then u else v) = opposite (eval_binary c sz 1 u v).
Proof.
  destruct c; try done; intros _ [= <- <-]; unfold opposite, eval_binary; cbn [fmap option_fmap option_map]; f_equal;
    repeat match goal with |- context [?p =? ?q] => destruct (Z.eqb_spec p q) | |- context [?p <? ?q] => destruct (Z.ltb_spec p q) | |- context [?p <=? ?q] => destruct (Z.leb_spec p q) end; cbn; lia.
Qed.

Lemma flip_comparison_runs (f : funcdata) (op : nat) (o : pcode_op) (a b : nat) (x y : varnode) (sz : Z) : wf f ->
  comparison f op o a b x y sz -> is_comparison (opc o) = true ->
  (forall z d i, moved y x = Some (z, d, i) -> opc o = IntSless -> at_signed_edge IntSlessequal sz d (a_offset (loc z)) = false) ->
  runs (flip_one f op) (fun f' => wf f' /\ forall rho, fits f rho -> computes f' rho op = opposite (computes f rho op)).
Proof.
  intros W Cm Hc He. unfold flip_one. rewrite (cm_op _ _ _ _ _ _ _ _ Cm). cbn [mbind option_bind].
  assert (Hb : exists c yes, get_booleanflip (opc o) = Some (c, yes) /\ c <> Copy) by (destruct (opc o); try done; eexists _, _; by split).
  destruct Hb as (c & yes & Ec & Nc). rewrite Ec.
  assert (Hflip : forall u v, eval_binary c sz 1 (if yes then v else u) (if yes then u else v) = opposite (eval_binary (opc o) sz 1 u v)) by (intros; by apply flip_eval).
  assert (Hgo : runs (f ← op_set_opcode f op c; if yes then f ← op_swap_input f op 0 1;
      match c with IntLessequal | IntSlessequal => '(_, f) ← replace_lessequal f op; Some f | _ => Some f end else Some f)
      (fun f' => wf f' /\ forall rho, fits f rho -> computes f' rho op = opposite (computes f rho op))).
  2:{ destruct c; done. }
  run_step ltac:(by eapply recode_comparison). cbn beta. intros f1 (W1 & V1 & C1). destruct yes.
  - run_step ltac:(by eapply swap_comparison). cbn beta. intros f2 (W2 & V2 & o2 & E2 & C2). cbn [opc set_opc] in E2.
    assert (Hv : forall rho, computes f2 rho op = opposite (computes f rho op)).
    { intros rho. rewrite (computes_at _ _ _ _ _ _ _ _ _ C2), (computes_at _ _ _ _ _ _ _ _ _ Cm), E2. apply Hflip. }
    assert (Hl : runs ('(_, f) ← replace_lessequal f2 op; Some f) (fun f' => wf f' /\ forall rho, fits f rho -> computes f' rho op = opposite (computes f rho op)) \/
                 ~ (c = IntLessequal \/ c = IntSlessequal)).
    { destruct (decide (c = IntLessequal \/ c = IntSlessequal)) as [Hle|]; [left|by right]. apply runs_bind. eapply runs_mono.
      - eapply replace_lessequal_runs; [done|exact C2|by rewrite E2|]. intros z d i Hm. rewrite E2.
        destruct Hle as [-> | ->]; [done|]. eapply He; [exact Hm|]. by destruct (opc o).
      - intros [fired f3] (W3 & R & _). cbn. split; [done|]. intros rho Hf. rewrite R; [apply Hv|].
        eapply fits_same_values; [|exact Hf]. by rewrite V2, V1. }
    assert (Hd : wf f2 /\ forall rho, fits f rho -> computes f2 rho op = opposite (computes f rho op)) by (split; [done|intros; apply Hv]).
    destruct Hl as [Hl|Hl]; [destruct c; first [exact Hl | exact Hd]|].
    destruct c; first [exact Hd | exfalso; apply Hl; first [by left | by right]].
  - cbn. split; [done|]. intros rho _. rewrite (computes_at _ _ _ _ _ _ _ _ _ C1), (computes_at _ _ _ _ _ _ _ _ _ Cm). apply Hflip.
Qed.

(** ** The search for a flip ends *)

(** [d] computes a value that [p] alone reads. *)
Definition sole (f : funcdata) (p d : nat) : Prop := exists v, out_of f d = Some v /\ readers f v = [p].

(** the operations passed from the root down to [d] *)
Inductive chain (f : funcdata) (root : nat) : list nat -> nat -> Prop :=
  | chain_root : chain f root [] root
  | chain_step (path : list nat) (p d : nat) : chain f root path p -> sole f p d -> chain f root (p :: path) d.

Lemma chain_reader (f : funcdata) (root : nat) (path : list nat) (d q : nat) : chain f root path d -> In q path -> q <> root ->
  exists q' l1 l2, path = l1 ++ q :: q' :: l2 /\ sole f q' q.
Proof.
  intros C. induction C as [|path p d C IH S]; intros Hin Hne; [done|]. destruct Hin as [->|Hin].
  - inversion C as [|path' p' d' C' S']; subst; [done|]. by exists p', [], path'.
  - destruct (IH Hin Hne) as (q' & l1 & l2 & -> & Hs). by exists q', (p :: l1), l2.
Qed.

Lemma chain_nodup (f : funcdata) (root : nat) (path : list nat) (d : nat) : out_of f root = None -> chain f root path d -> List.NoDup (d :: path).
Proof.
  intros Hr C. induction C as [|path p d C IH (v & Ho & Hv)]; [repeat constructor; by intros []|]. constructor; [|done]. intros Hin.
  destruct (decide (d = root)) as [->|Hne]; [congruence|].
  assert (C' : chain f root (p :: path) d) by (econstructor; [exact C|by exists v]).
  destruct (chain_reader f root _ _ d C' Hin Hne) as (q & l1 & l2 & E & (v' & Ho' & Hv')).
  assert (q = p) as -> by congruence. rewrite E in IH. destruct l1 as [|a l1]; cbn in E; injection E as E1 E2.
  - subst. inversion IH as [|? ? Hn _]; subst. apply Hn. by left.
  - subst. cbn in IH. inversion IH as [|? ? Hn _]; subst. apply Hn. apply in_app_iff. right. right. by left.
Qed.

Lemma chain_lt (f : funcdata) (root : nat) (path : list nat) (d : nat) : is_op f root = true -> chain f root path d ->
  List.Forall (fun o => (o < List.length (ops f))%nat) (d :: path).
Proof.
  intros Hr C. induction C as [|path p d C IH (v & Ho & _)]; [constructor; [by apply is_op_lt|constructor]|]. constructor; [|done].
  unfold out_of in Ho. destruct (ops f !! d) eqn:E; [by eapply lookup_lt_Some|done].
Qed.

Lemma nodup_bound (l : list nat) (n : nat) : List.NoDup l -> List.Forall (fun o => (o < n)%nat) l -> (List.length l <= n)%nat.
Proof.
  intros Hn Hl. rewrite <- (length_seq n 0). apply NoDup_incl_length; [done|]. intros x Hx. rewrite List.Forall_forall in Hl.
  apply in_seq. specialize (Hl x Hx). lia.
Qed.

(** Operations have the inputs their codes say. *)
Definition needs_two (c : opcode) : bool :=
  match c with IntSless | IntLess | IntSlessequal | IntLessequal | BoolOr | BoolAnd => true | _ => false end.

Definition arity_ok (f : funcdata) : Prop := forall o x, ops f !! o = Some x -> needs_two (opc x) = true -> exists a b, inrefs x = [a; b].

Lemma lone_def_runs (f : funcdata) (v op : nat) : graph_ok f -> In v (inputs f op) ->
  runs (lone_def f v op) (fun d => forall d', d = Some d' -> sole f op d').
Proof.
  intros G Hin. assert (Hv : (v < List.length (varnodes f))%nat).
  { pose proof (graph_in_arena f op G) as Ha. unfold in_arena in Ha. rewrite List.Forall_forall in Ha. by apply Ha. }
  destruct (lookup_lt_is_Some_2 _ _ Hv) as [x Hx]. unfold lone_def. rewrite Hx. cbn [mbind option_bind].
  destruct (bool_decide (lone_descend x = Some op)) eqn:El; [|done]. destruct (is_written x) eqn:Ew; [|done]. cbn [negb orb].
  apply bool_decide_eq_true in El. pose proof (proj1 (fo_written _ (go_flags _ G v x Hx)) Ew) as Hd.
  destruct (vdef x) as [d|] eqn:Ed; [|done]. cbn. intros d' [= <-]. exists v. split.
  - apply (go_def _ G). by rewrite (def_of_at _ _ _ Hx).
  - rewrite (readers_at _ _ _ Hx). unfold lone_descend in El. destruct (descend x) as [|a [|]]; try done. by injection El as <-.
Qed.

Lemma flip_test_runs (f : funcdata) (root fuel : nat) : graph_ok f -> arity_ok f -> is_op f root = true -> out_of f root = None ->
  forall op path fl, chain f root path op -> (List.length (ops f) < fuel + List.length path)%nat ->
  runs (op_flip_in_place_test_rec fuel f op fl) (fun _ => True).
Proof.
  intros G Ar Hr Ho. induction fuel as [|fuel IH]; intros op path fl C Hf.
  { pose proof (nodup_bound _ _ (chain_nodup _ _ _ _ Ho C) (chain_lt _ _ _ _ Hr C)) as Hb. cbn in Hb. lia. }
  pose proof (chain_lt _ _ _ _ Hr C) as Hlt. inversion Hlt as [|? ? Hop _]; subst. destruct (lookup_lt_is_Some_2 _ _ Hop) as [x Hx].
  assert (Hin : forall v, In v (inrefs x) -> In v (inputs f op)) by (intros v; by rewrite (inputs_at _ _ _ Hx)).
  assert (Hval : forall v, In v (inrefs x) -> exists y, varnodes f !! v = Some y).
  { intros v Hv%Hin. pose proof (graph_in_arena f op G) as Ha. unfold in_arena in Ha. rewrite List.Forall_forall in Ha.
    destruct (lookup_lt_is_Some_2 _ _ (Ha v Hv)). eauto. }
  assert (Hdown : forall d fl, sole f op d -> runs (op_flip_in_place_test_rec fuel f d fl) (fun _ => True)).
  { intros d fl' Hs. apply (IH d (op :: path)); [by econstructor|cbn; lia]. }
  cbn [op_flip_in_place_test_rec]. rewrite Hx. cbn [mbind option_bind]. pose proof (Ar op x Hx) as Hn. unfold input.
  destruct (opc x) eqn:Ec; try done; try (destruct (Hn eq_refl) as (a & b & Ei); rewrite Ei in *; cbn [lookup list_lookup mbind option_bind]).
  all: try (destruct (Hval a (or_introl eq_refl)) as [y ->]; done).
  all: try (destruct (Hval b (or_intror (or_introl eq_refl))) as [y ->]; done).
  - destruct (inrefs x !! 1%nat) as [v|] eqn:Ev; [|done].
    run_step ltac:(apply (lone_def_runs f v op G), Hin; by eapply list_elem_of_In, list_elem_of_lookup_2). intros [d|] Hd; [|done]. by apply Hdown, Hd.
  - run_step ltac:(apply (lone_def_runs f a op G), Hin; by left). intros [d|] Hd; [|done].
    run_step ltac:(by apply Hdown, Hd). intros [s1 fl1] _. destruct (s1 =? 2); [done|].
    run_step ltac:(apply (lone_def_runs f b op G), Hin; right; by left). intros [e|] He; [|done].
    run_step ltac:(by apply Hdown, He). intros [s2 fl2] _. by destruct (s2 =? 2).
  - run_step ltac:(apply (lone_def_runs f a op G), Hin; by left). intros [d|] Hd; [|done].
    run_step ltac:(by apply Hdown, Hd). intros [s1 fl1] _. destruct (s1 =? 2); [done|].
    run_step ltac:(apply (lone_def_runs f b op G), Hin; right; by left). intros [e|] He; [|done].
    run_step ltac:(by apply Hdown, He). intros [s2 fl2] _. by destruct (s2 =? 2).
Qed.

(** ** One input for each storage *)

Lemma position_spec {A : Type} (p : A -> bool) (l : list A) :
  match position p l with
  | Some i => exists a, l !! i = Some a /\ p a = true
  | None => forall i a, l !! i = Some a -> p a = false
  end.
Proof.
  induction l as [|x l IH]; cbn [position]; [by intros i a|]. destruct (p x) eqn:E; [by exists x|].
  destruct (position p l) as [i|]; cbn; [exact IH|]. intros [|i] a H; [by injection H as <-|by apply (IH i)].
Qed.

Lemma input_at_spec (f : funcdata) (l : address) (sz : Z) (but : option nat) :
  match input_at f l sz but with
  | Some i => but <> Some i /\ exists x, varnodes f !! i = Some x /\ is_input x = true /\ loc x = l /\ size x = sz
  | None => forall i x, varnodes f !! i = Some x -> is_input x = true -> loc x = l -> size x = sz -> but = Some i
  end.
Proof.
  unfold input_at. match goal with |- context [position ?p ?l] => pose proof (position_spec p l) as H; destruct (position p l) as [i|] end.
  - destruct H as ([j x] & Hj & Hp). rewrite list_lookup_imap in Hj. destruct (varnodes f !! i) as [y|]; [|done]. cbn in Hj. injection Hj as <- <-.
    apply andb_true_iff in Hp as [[[Hn Hi]%andb_true_iff Hl]%andb_true_iff Hs]. apply negb_true_iff, bool_decide_eq_false in Hn.
    apply bool_decide_eq_true in Hl. apply Z.eqb_eq in Hs. split; [done|]. by exists y.
  - intros i x Hx Hi Hl Hs. specialize (H i (i, x)). rewrite list_lookup_imap, Hx in H. specialize (H eq_refl). cbn in H.
    rewrite Hi, bool_decide_true with (P := loc x = l), Hs, Z.eqb_refl, !andb_true_r in H by done. apply negb_false_iff, bool_decide_eq_true in H. done.
Qed.

(** No two inputs have the same storage. *)
Definition inputs_unique (f : funcdata) : Prop := forall i j x y, varnodes f !! i = Some x -> varnodes f !! j = Some y ->
  is_input x = true -> is_input y = true -> loc x = loc y -> size x = size y -> i = j.

Lemma effect_input (x : varnode) (e : Z) : is_input (set_flags (Z.lor (flags x) (effect_flags e)) x) = is_input x.
Proof. destruct (effect_flags_neutral e) as (_ & E & _). unfold is_input. cbn [flags set_flags]. by rewrite input_or, E, orb_false_r. Qed.

(** The value [v] becomes an input: every other value is as it was. *)
Record made_input (f : funcdata) (v : nat) (l : address) (sz : Z) (f' : funcdata) : Prop := MadeInput {
  mi_at : exists x, varnodes f' !! v = Some x /\ is_input x = true /\ loc x = l /\ size x = sz;
  mi_other : forall w, w <> v -> varnodes f' !! w = varnodes f !! w;
}.

Lemma made_unique (f f' : funcdata) (v : nat) (l : address) (sz : Z) : inputs_unique f -> made_input f v l sz f' ->
  (forall i x, varnodes f !! i = Some x -> is_input x = true -> loc x = l -> size x = sz -> i = v) -> inputs_unique f'.
Proof.
  intros U [(x & Hx & Ix & Lx & Sx) Ho] Hf i j y z Hy Hz Iy Iz El Es.
  destruct (decide (i = v)) as [->|Hi], (decide (j = v)) as [->|Hj]; [done| | |].
  - assert (y = x) as -> by congruence. rewrite Ho in Hz by done. symmetry. apply (Hf j z); congruence.
  - assert (z = x) as -> by congruence. rewrite Ho in Hy by done. apply (Hf i y); congruence.
  - rewrite Ho in Hy, Hz by done. by eapply U.
Qed.

Lemma apply_effect_runs (f : funcdata) (v : nat) (x : varnode) : graph_ok f -> varnodes f !! v = Some x -> is_input x = true ->
  runs (apply_input_effect f v) (fun f' => edited f f' /\ made_input f v (loc x) (size x) f').
Proof.
  intros G Hx Hi. unfold apply_input_effect. rewrite Hx. cbn [mbind option_bind]. set (e := lookup_effect _ _ _).
  eapply runs_mono; [|intros f' H; exact H].
  pose proof (neutral_flags_edit f v x (effect_flags e) G Hx (effect_flags_neutral e)) as H1.
  pose proof (vn_mut_update f v (fun v => set_flags (Z.lor (flags v) (effect_flags e)) v) x Hx) as H2.
  destruct (vn_mut f v _) as [f'|]; [|done]. cbn in *. destruct H1 as [E Hv]. split; [done|]. constructor.
  - eexists. split; [exact Hv|]. by rewrite effect_input.
  - intros w Hw. rewrite (vu_vns _ _ _ _ _ H2). by case_decide.
Qed.

Lemma new_input_unique (f : funcdata) (sz : Z) (l : address) : wf f -> space_known f l -> inputs_unique f ->
  runs (new_input f sz l) (fun '(v, f') => wf f' /\ inputs_unique f' /\
    exists x, varnodes f' !! v = Some x /\ is_input x = true /\ loc x = l /\ size x = sz).
Proof.
  intros W Hs U. unfold new_input. pose proof (input_at_spec f l sz None) as Hi. destruct (input_at f l sz None) as [i|].
  { destruct Hi as [_ Hx]. by split_and!. }
  run_step ltac:(by apply alloc_runs). intros [v f1] (x & sp & A & _ & Ef & Es & El).
  assert (G1 : graph_ok f1) by (eapply ap_graph; [done|apply W|]; eapply fresh_flags; [done|apply (ap_def _ _ _ _ A)|by right]).
  assert (Hx : varnodes f1 !! v = Some x) by (rewrite (ap_lookup _ _ _ _ A); by case_decide).
  assert (Ix : is_input x = true) by (unfold is_input; by rewrite Ef, input_or).
  run_step ltac:(by apply apply_effect_runs). cbn. intros f2 [[G2 K2] M]. rewrite Es, El in M.
  assert (M' : made_input f v l sz f2).
  { constructor; [apply M|]. intros w Hw. rewrite (mi_other _ _ _ _ _ M) by done. rewrite (ap_lookup _ _ _ _ A). by case_decide. }
  split_and!; [|eapply made_unique; [done|done|]|apply M].
  - eapply wf_edited; [done|]. split; [done|]. etrans; [by eapply ap_keeps|done].
  - intros i y Hy Iy Ly Sy. by specialize (Hi i y Hy Iy Ly Sy).
Qed.

Lemma set_input_unique (f : funcdata) (v : nat) (x : varnode) : wf f -> varnodes f !! v = Some x -> vdef x = None -> inputs_unique f ->
  runs (set_input_varnode f v) (fun '(w, f') => wf f' /\ inputs_unique f' /\
    exists y, varnodes f' !! w = Some y /\ is_input y = true /\ loc y = loc x /\ size y = size x).
Proof.
  intros W Hx Hd U. unfold set_input_varnode. rewrite Hx. cbn [mbind option_bind].
  destruct (is_input x) eqn:Ix; [split_and!; [done|done|by exists x]|].
  pose proof (input_at_spec f (loc x) (size x) (Some v)) as Hi. destruct (input_at f (loc x) (size x) (Some v)) as [i|].
  { destruct Hi as [_ Hy]. by split_and!. }
  pose proof (wf_graph _ W) as G.
  assert (Hw : is_written x = false).
  { destruct (is_written x) eqn:E; [|done]. by destruct (proj1 (fo_written _ (go_flags _ G v x Hx)) E). }
  run_step ltac:(by apply vn_mut_update). cbn beta. intros f1 U1. set (x1 := set_flags _ _) in U1.
  assert (Hx1 : varnodes f1 !! v = Some x1) by (rewrite (vu_vns _ _ _ _ _ U1); by case_decide).
  assert (I1 : is_input x1 = true) by (unfold is_input, x1; cbn [flags set_flags]; rewrite input_or; apply orb_true_r).
  assert (G1 : graph_ok f1).
  { destruct G as [Hu Hdf Hfl]. constructor.
    - intros w o. rewrite (vu_readers _ _ _ _ _ U1), (vu_inputs _ _ _ _ _ U1), <- Hu. case_decide as E; [by rewrite E, (readers_at _ _ _ Hx)|done].
    - intros w o. rewrite (vu_def_of _ _ _ _ _ U1), (vu_out_of _ _ _ _ _ U1), <- Hdf. case_decide as E; [by rewrite E, (def_of_at _ _ _ Hx), Hd|done].
    - eapply vu_flags; [done| |done]. intros _. unfold x1. constructor; unfold is_written, is_input; cbn [flags set_flags vdef set_vdef];
        rewrite ?written_or, ?input_or, ?insert_or, ?written_clear.
      + change (has WRITTEN WRITTEN) with true. cbn. rewrite andb_false_r. done.
      + change (has WRITTEN WRITTEN) with true. change (has (Z.lor INPUT INSERT) INSERT) with true.
        change (has (Z.lor INPUT INSERT) INPUT) with true. by rewrite !orb_true_r.
      + done. }
  run_step ltac:(by apply apply_effect_runs). cbn. intros f2 [[G2 K2] M]. change (loc x1) with (loc x) in M. change (size x1) with (size x) in M.
  assert (M' : made_input f v (loc x) (size x) f2).
  { constructor; [apply M|]. intros w Hne. rewrite (mi_other _ _ _ _ _ M) by done. rewrite (vu_vns _ _ _ _ _ U1). by case_decide. }
  split_and!; [|eapply made_unique; [done|done|]|apply M].
  - eapply wf_edited; [done|]. split; [done|]. etrans; [by eapply vu_keeps|done].
  - intros i y Hy Iy Ly Sy. specialize (Hi i y Hy Iy Ly Sy). congruence.
Qed.

(** ** Properties *)

(** [C40] No two inputs of a function share their storage: making a new input, or marking a free
    value as one, keeps that, and returns an input of exactly the storage asked for. *)
Theorem inputs_stay_unique (f : funcdata) : wf f -> inputs_unique f ->
  (forall sz l, space_known f l -> exists v f', new_input f sz l = Some (v, f') /\ wf f' /\ inputs_unique f' /\
     exists x, varnodes f' !! v = Some x /\ is_input x = true /\ loc x = l /\ size x = sz) /\
  (forall v x, varnodes f !! v = Some x -> vdef x = None -> exists w f', set_input_varnode f v = Some (w, f') /\ wf f' /\ inputs_unique f' /\
     exists y, varnodes f' !! w = Some y /\ is_input y = true /\ loc y = loc x /\ size y = size x).
Proof.
  intros W U. split.
  - intros sz l Hs. pose proof (new_input_unique f sz l W Hs U) as H. destruct (new_input f sz l) as [[v f']|]; [|done]. by exists v, f'.
  - intros v x Hx Hd. pose proof (set_input_unique f v x W Hx Hd U) as H. destruct (set_input_varnode f v) as [[w f']|]; [|done]. by exists w, f'.
Qed.

(** a free value at the storage of the input of [sample] *)
Definition sample_free : funcdata := edited_by sample [ENewVarnode 8 (Addr 2 0x38)].

Lemma sample_free_wf : wf sample_free.
Proof. apply edited_by_wf; [exact sample_wf|vm_compute; reflexivity]. Qed.

Definition inputs_of (f : funcdata) : list nat :=
  List.filter (fun i => match varnodes f !! i with Some x => is_input x | None => false end) (seq 0 (List.length (varnodes f))).

Lemma one_input_unique (f : funcdata) (v : nat) : inputs_of f = [v] -> inputs_unique f.
Proof.
  intros E. assert (H : forall i x, varnodes f !! i = Some x -> is_input x = true -> i = v).
  { intros i x Hx Hi. assert (Hin : In i (inputs_of f)).
    { apply filter_In. split; [apply in_seq; apply lookup_lt_Some in Hx; lia|by rewrite Hx]. }
    rewrite E in Hin. by destruct Hin as [->|[]]. }
  intros i j x y Hx Hy Ix Iy _ _. rewrite (H i x), (H j y); done.
Qed.

(** the input already there is returned *)
Lemma inputs_stay_unique_witness : exists w f', set_input_varnode sample_free 6 = Some (w, f') /\ inputs_unique f' /\ w = 0%nat.
Proof.
  destruct (inputs_stay_unique sample_free sample_free_wf (one_input_unique sample_free 0 ltac:(vm_compute; reflexivity))) as [_ H].
  destruct (varnodes sample_free !! 6%nat) as [x|] eqn:Hx; [|vm_compute in Hx; discriminate Hx].
  assert (Hd : vdef x = None) by (vm_compute in Hx; by injection Hx as <-).
  destruct (H 6%nat x Hx Hd) as (w & f' & E & _ & U & _). exists w, f'. split; [done|]. split; [done|].
  vm_compute in E. by injection E.
Defined.

(** A comparison of two registers with a constant of [sz] bytes on the right. *)
Definition comparison_edits (c : opcode) (sz k : Z) : list edit :=
  [ENewInput sz (Addr 2 0x38); ENewConst sz k; ENewOp c (at_entry 0) [0; 1]%nat; ENewOutputUnique 0 1].
Definition comparing (c : opcode) (sz k : Z) : funcdata := edited_by sample_start (comparison_edits c sz k).

(** Rewriting [<=] against a constant to [<] against its neighbour never changes the truth of
    the comparison, whatever the other operand, the signed extremes of fewer than eight bytes excepted. *)
Theorem replace_lessequal_keeps_truth (f : funcdata) (op : nat) (o : pcode_op) (a b : nat) (x y : varnode) (sz : Z) : wf f ->
  comparison f op o a b x y sz -> opc o = IntLessequal \/ opc o = IntSlessequal ->
  (forall z d i, moved x y = Some (z, d, i) -> at_signed_edge (opc o) sz d (a_offset (loc z)) = false) ->
  exists fired f', replace_lessequal f op = Some (fired, f') /\ wf f' /\
    (forall rho, fits f rho -> computes f' rho op = computes f rho op) /\ (fired = false -> f' = f).
Proof.
  intros W Cm Hc He. pose proof (replace_lessequal_runs f op o a b x y sz W Cm Hc He) as H.
  destruct (replace_lessequal f op) as [[fired f']|]; [|done]. by exists fired, f'.
Qed.

(** the arguments of the theorem read off a function *)
Lemma comparison_intro (f : funcdata) (op : nat) (o : pcode_op) (a b : nat) (x y : varnode) (sz : Z) : ops f !! op = Some o ->
  inrefs o = [a; b] -> varnodes f !! a = Some x -> varnodes f !! b = Some y -> size x = sz -> size y = sz -> valid_size sz ->
  comparison f op o a b x y sz.
Proof. by constructor. Qed.

Definition op_at (f : funcdata) (o : nat) : pcode_op := default (PcodeOp Copy 0 (at_entry 0) None None [] None) (ops f !! o).
Definition vn_at (f : funcdata) (v : nat) : varnode := default (Varnode false (Addr 0 0) 0 0 0 0 None [] None 0 0) (varnodes f !! v).

Lemma comparing_wf (c : opcode) (sz k : Z) : valid_all sample_start (comparison_edits c sz k) = true -> wf (comparing c sz k).
Proof. apply edited_by_wf, sample_start_wf. Qed.

(** [x <= 0xff] on two bytes, as [x < 0x100] *)
Lemma replace_lessequal_keeps_truth_witness : exists f', replace_lessequal (comparing IntLessequal 2 0xff) 0 = Some (true, f') /\
  (forall rho, fits (comparing IntLessequal 2 0xff) rho -> computes f' rho 0 = computes (comparing IntLessequal 2 0xff) rho 0) /\
  opc (op_at f' 0) = IntLess.
Proof.
  pose (f := comparing IntLessequal 2 0xff).
  destruct (replace_lessequal_keeps_truth f 0 (op_at f 0) 0 1 (vn_at f 0) (vn_at f 1) 2) as (fired & f' & E & _ & H & _).
  - apply comparing_wf. vm_compute; reflexivity.
  - apply comparison_intro; vm_compute; try reflexivity. by split.
  - left. vm_compute; reflexivity.
  - intros z d i Hm. vm_compute in Hm. injection Hm as <- <- <-. vm_compute; reflexivity.
  - assert (fired = true) as -> by (vm_compute in E; by injection E). exists f'. split; [exact E|]. split; [exact H|].
    vm_compute in E. injection E as <-. reflexivity.
Defined.

(** At the excluded extremes the truth changes: [x <= 0x7f], signed on one byte, always holds, and is
    rewritten to [x < 0x80], that is [x < -128], which never does. *)
Example replace_lessequal_edge :
  runs (replace_lessequal (comparing IntSlessequal 1 0x7f) 0) (fun '(fired, f') => fired = true /\
    (fun rho => computes (comparing IntSlessequal 1 0x7f) rho 0) (fun _ => 5) = Some 1 /\ computes f' (fun _ => 5) 0 = Some 0).
Proof. vm_compute. by split_and!. Qed.

(** [C14] Flipping a comparison in place (new code, inputs exchanged when the complement reorders,
    [<=] against a constant rewritten to [<]) leaves an operation that is true exactly where the old
    one was false, the signed extremes of fewer than eight bytes excepted. *)
Theorem flip_comparison_complements (f : funcdata) (op : nat) (o : pcode_op) (a b : nat) (x y : varnode) (sz : Z) : wf f ->
  comparison f op o a b x y sz -> is_comparison (opc o) = true ->
  (forall z d i, moved y x = Some (z, d, i) -> opc o = IntSless -> at_signed_edge IntSlessequal sz d (a_offset (loc z)) = false) ->
  exists f', flip_one f op = Some f' /\ wf f' /\ forall rho, fits f rho -> computes f' rho op = opposite (computes f rho op).
Proof.
  intros W Cm Hc He. pose proof (flip_comparison_runs f op o a b x y sz W Cm Hc He) as H.
  destruct (flip_one f op) as [f'|]; [|done]. by exists f'.
Qed.

(** [x < 7], signed on four bytes, flipped: [7 <= x], that is [6 < x] *)
Lemma flip_comparison_complements_witness : exists f', flip_one (comparing IntSless 4 7) 0 = Some f' /\
  (forall rho, fits (comparing IntSless 4 7) rho -> computes f' rho 0 = opposite (computes (comparing IntSless 4 7) rho 0)) /\
  opc (op_at f' 0) = IntSless.
Proof.
  pose (f := comparing IntSless 4 7).
  destruct (flip_comparison_complements f 0 (op_at f 0) 0 1 (vn_at f 0) (vn_at f 1) 4) as (f' & E & _ & H).
  - apply comparing_wf. vm_compute; reflexivity.
  - apply comparison_intro; vm_compute; try reflexivity. by split.
  - vm_compute; reflexivity.
  - intros z d i Hm _. vm_compute in Hm. injection Hm as <- <- <-. vm_compute; reflexivity.
  - exists f'. split; [exact E|]. split; [exact H|]. vm_compute in E. injection E as <-. reflexivity.
Defined.

(** The search for the operations to flip ends from any operation without output, such as a
    branch: every operation below is read by the one above alone, so none is met twice. *)
Theorem flip_test_ends (f : funcdata) (op : nat) : wf f -> arity_ok f -> is_op f op = true -> out_of f op = None ->
  exists r fliplist, op_flip_in_place_test f op = Some (r, fliplist).
Proof.
  intros W Ar Ho Hn. pose proof (flip_test_runs f op (S (List.length (ops f))) (wf_graph _ W) Ar Ho Hn op [] [] (chain_root f op) ltac:(cbn; lia)) as H.
  unfold op_flip_in_place_test. destruct (op_flip_in_place_test_rec _ f op []) as [[r l]|]; [|done]. by exists r, l.
Qed.

Definition arityb (f : funcdata) : bool :=
  forallb (fun x => negb (needs_two (opc x)) || Nat.eqb (List.length (inrefs x)) 2) (ops f).

Lemma arityb_ok (f : funcdata) : arityb f = true -> arity_ok f.
Proof.
  unfold arityb, arity_ok. rewrite forallb_forall. intros H o x Hx Hn. specialize (H x ltac:(by eapply list_elem_of_In, list_elem_of_lookup_2)).
  rewrite Hn in H. cbn in H. apply Nat.eqb_eq in H. destruct (inrefs x) as [|a [|b [|]]]; try done. by exists a, b.
Qed.

(** a branch on the conjunction of two comparisons *)
Definition branching : funcdata :=
  edited_by sample_start [ENewInput 4 (Addr 2 0x38); ENewConst 4 7; ENewConst 4 9;
    ENewOp IntSless (at_entry 0) [0; 1]; ENewOutputUnique 0 1; ENewOp IntNotequal (at_entry 1) [0; 2]; ENewOutputUnique 1 1;
    ENewOp BoolAnd (at_entry 2) [3; 4]; ENewOutputUnique 2 1; ENewOp Cbranch (at_entry 3) [0; 5]]%nat.

Lemma flip_test_ends_witness : exists r fliplist, op_flip_in_place_test branching 3 = Some (r, fliplist) /\ fliplist = [0; 1; 2]%nat.
Proof.
  destruct (flip_test_ends branching 3) as (r & l & E).
  - apply edited_by_wf; [exact sample_start_wf|vm_compute; reflexivity].
  - apply arityb_ok. vm_compute; reflexivity.
  - vm_compute; reflexivity.
  - vm_compute; reflexivity.
  - exists r, l. split; [done|]. vm_compute in E. by injection E.
Defined.
