(* ===== verification/Dominator.v ===== *)
(** [decompile/dominator.rs]: the postorder of the control-flow graph, the Cooper-Harvey-Kennedy
    iteration for the immediate dominators, and the dominance frontiers.  A [usize::MAX] entry of
    [idom] is [None]; an index out of range, or an index of [usize::MAX], is a panic, the outer
    [None]. *)
From Stdlib Require Import Bool List Lia.
From stdpp Require Import base decidable option list.
From S2P Require Import Prelude Space OpCode Funcdata.
Local Open Scope nat_scope.

Record dominators := Dominators {
  idom : list (option nat);
  frontier : list (list nat);
}.

Definition num_blocks (f : funcdata) : nat := List.length (blocks f).

(** ** [Dominators::dominates] *)

Fixpoint dominates_loop (fuel : nat) (d : list (option nat)) (a n : nat) : option bool :=
  match fuel with
  | O => None
  | S fuel =>
      if n =? a then Some true
      else
        up ← d !! n;
        match up with
        | Some m => if n =? m then Some false else dominates_loop fuel d a m
        | None => None
        end
  end.
(** The chain of immediate dominators meets a block at most once. *)
Definition dominates (d : dominators) (a b : nat) : option bool :=
  dominates_loop (S (List.length (idom d))) (idom d) a b.

(** ** [postorder] *)

Fixpoint dfs (fuel : nat) (f : funcdata) (visited : list bool) (stack : list (nat * nat)) (order : list nat) :
    option (list nat) :=
  match fuel with
  | O => None
  | S fuel =>
      match stack with
      | [] => Some order
      | (node, ci) :: below =>
          b ← blocks f !! node;
          match out_edges b !! ci with
          | Some succ =>
              seen ← visited !! succ;
              let stack := (node, S ci) :: below in
              if seen : bool then dfs fuel f visited stack order
              else dfs fuel f (<[succ := true]> visited) ((succ, 0) :: stack) order
          | None => dfs fuel f visited below (order ++ [node])
          end
      end
  end.
(** Each step follows one edge or leaves one block. *)
Definition dfs_fuel (f : funcdata) : nat := 2 + num_blocks f + sum_list_with (fun b => List.length (out_edges b)) (blocks f).

Definition postorder (f : funcdata) : option (list nat) :=
  if num_blocks f =? 0 then None
  else dfs (dfs_fuel f) f (<[0 := true]> (replicate (num_blocks f) false)) [(0, 0)] [].

(** ** [compute] *)

(** [rpo_num[b] = i] for the [i]th block of the list *)
Fixpoint number (i : nat) (rpo : list nat) (num : list nat) : option (list nat) :=
  match rpo with
  | [] => Some num
  | b :: rpo => if b <? List.length num then number (S i) rpo (<[b := i]> num) else None
  end.

(** [while rpo_num[x] > rpo_num[other] { x = idom[x] }] *)
Fixpoint climb (fuel : nat) (d : list (option nat)) (num : list nat) (x other : nat) : option nat :=
  match fuel with
  | O => None
  | S fuel =>
      nx ← num !! x;
      no ← num !! other;
      if no <? nx then
        up ← d !! x;
        match up with Some y => climb fuel d num y other | None => None end
      else Some x
  end.

Fixpoint intersect_loop (fuel : nat) (d : list (option nat)) (num : list nat) (a b : nat) : option nat :=
  match fuel with
  | O => None
  | S fuel =>
      if a =? b then Some a
      else
        a ← climb (S (List.length num)) d num a b;
        b ← climb (S (List.length num)) d num b a;
        intersect_loop fuel d num a b
  end.
(** Every round lowers the larger of the two numbers. *)
Definition intersect (d : list (option nat)) (num : list nat) (a b : nat) : option nat :=
  intersect_loop (S (S (List.length num))) d num a b.

Fixpoint new_idom (d : list (option nat)) (num preds : list nat) (cur : option nat) : option (option nat) :=
  match preds with
  | [] => Some cur
  | p :: preds =>
      dp ← d !! p;
      match dp, cur with
      | None, _ => new_idom d num preds cur
      | Some _, None => new_idom d num preds (Some p)
      | Some _, Some c => c ← intersect d num p c; new_idom d num preds (Some c)
      end
  end.

(** The body of [for &b in rpo.iter()] *)
Definition visit (f : funcdata) (num : list nat) (st : list (option nat) * bool) (b : nat) :
    option (list (option nat) * bool) :=
  let '(d, changed) := st in
  if b =? 0 then Some st
  else
    blk ← blocks f !! b;
    new ← new_idom d num (in_edges blk) None;
    match new with
    | None => Some st
    | Some _ =>
        old ← d !! b;
        if decide (old = new) then Some st else Some (<[b := new]> d, true)
    end.

Fixpoint solve (fuel : nat) (f : funcdata) (num rpo : list nat) (d : list (option nat)) : option (list (option nat)) :=
  match fuel with
  | O => None
  | S fuel =>
      '(d, changed) ← fold_opt (visit f num) rpo (d, false);
      if changed : bool then solve fuel f num rpo d else Some d
  end.
(** Every pass but the last lowers the number of some immediate dominator. *)
Definition solve_fuel (f : funcdata) : nat := 2 + num_blocks f * num_blocks f.

(** [while runner != idom[b] && runner != usize::MAX] *)
Fixpoint walk (fuel : nat) (d : list (option nat)) (stop : option nat) (b : nat) (runner : option nat)
    (front : list (list nat)) : option (list (list nat)) :=
  match fuel with
  | O => None
  | S fuel =>
      match runner with
      | None => Some front
      | Some r =>
          if decide (runner = stop) then Some front
          else
            fr ← front !! r;
            let front := if existsb (Nat.eqb b) fr then front else <[r := fr ++ [b]]> front in
            up ← d !! r;
            if decide (up = Some r) then Some front else walk fuel d stop b up front
      end
  end.

(** The body of [for b in 0..nb] *)
Definition join_frontier (f : funcdata) (d : list (option nat)) (front : list (list nat)) (b : nat) :
    option (list (list nat)) :=
  blk ← blocks f !! b;
  if List.length (in_edges blk) <? 2 then Some front
  else
    stop ← d !! b;
    fold_opt (fun front p => walk (S (S (num_blocks f))) d stop b (Some p) front) (in_edges blk) front.

Definition compute (f : funcdata) : option dominators :=
  let nb := num_blocks f in
  if nb =? 0 then Some (Dominators [] [])
  else
    po ← postorder f;
    let rpo := rev po in
    num ← number 0 rpo (replicate nb 0);
    d ← solve (solve_fuel f) f num rpo (<[0 := Some 0]> (replicate nb None));
    front ← fold_opt (join_frontier f d) (seq 0 nb) (replicate nb []);
    Some (Dominators d (map (sort_by Nat.leb) front)).
