(* ===== verification/DominatorFacts.v ===== *)
(** Walks of the control-flow graph, and what [postorder] and the numbering of its reverse give: every
    block a walk from the entry reaches, once, each but the entry after one of its predecessors. *)
From Stdlib Require Import Bool List Lia.
From stdpp Require Import base decidable option list relations tactics.
From S2P Require Import Prelude Space OpCode Funcdata FuncdataLinks FuncdataBlocks Dominator.
Local Open Scope nat_scope.

(** ** Walks from the entry *)

(** [path f b l]: [l] lists the blocks of a walk from the entry to [b], the last one first. *)
Inductive path (f : funcdata) : nat -> list nat -> Prop :=
| path_entry : path f 0 [0]
| path_step a b l : path f a l -> In b (outs f a) -> path f b (b :: l).

Definition reachable (f : funcdata) (b : nat) : Prop := exists l, path f b l.
(** [a] is on every walk from the entry to [b]. *)
Definition dominated (f : funcdata) (a b : nat) : Prop := forall l, path f b l -> In a l.
Definition strictly_dominated (f : funcdata) (a b : nat) : Prop := dominated f a b /\ a <> b.

Lemma reachable_step (f : funcdata) (a b : nat) : reachable f a -> In b (outs f a) -> reachable f b.
Proof. intros [l Hl] Hb. exists (b :: l). by eapply path_step. Qed.

Lemma dominated_refl (f : funcdata) (b : nat) : dominated f b b.
Proof. intros l Hl. destruct Hl; by left. Qed.

(** A strict dominator of a block dominates each of its reachable predecessors. *)
Lemma dominated_pred (f : funcdata) (z p b : nat) : dominated f z b -> z <> b -> In b (outs f p) -> dominated f z p.
Proof. intros Hd Hz Hp l Hl. destruct (Hd _ (path_step _ _ _ _ Hl Hp)); [congruence|done]. Qed.

Lemma path_prefix (f : funcdata) (a b : nat) (l : list nat) : path f b l -> In a l -> a <> b ->
  exists l', path f a l' /\ List.length l' < List.length l.
Proof.
  intros Hl. revert a. induction Hl as [|c b l Hl IH Hb]; intros a Ha Hne; [by destruct Ha as [<-|[]]|].
  destruct Ha as [<-|Ha]; [done|]. destruct (decide (a = c)) as [->|Hac]; [exists l; split; [done|cbn; lia]|].
  destruct (IH a Ha Hac) as (l' & Hl' & Hlt). exists l'. split; [done|cbn; lia].
Qed.

Lemma dominated_antisym (f : funcdata) (a b : nat) : reachable f a -> dominated f a b -> dominated f b a -> a = b.
Proof.
  intros [l Hl] Hab Hba. destruct (decide (a = b)) as [|Hne]; [done|exfalso].
  remember (List.length l) as n eqn:E. revert l Hl E. induction n as [n IH] using (well_founded_induction lt_wf). intros l Hl ->.
  destruct (path_prefix f b a l Hl (Hba l Hl) ltac:(done)) as (l1 & Hl1 & H1).
  destruct (path_prefix f a b l1 Hl1 (Hab l1 Hl1) Hne) as (l2 & Hl2 & H2).
  eapply (IH (List.length l2)); [lia|exact Hl2|done].
Qed.

Lemma out_lt (f : funcdata) (a b : nat) : edges_ok f -> In b (outs f a) -> (b < num_blocks f).
Proof. intros Hok Hb. apply (edges_lt f a b Hok). by apply in_edge. Qed.

Lemma reachable_lt (f : funcdata) (b : nat) : edges_ok f -> 0 < num_blocks f -> reachable f b -> b < num_blocks f.
Proof. intros Hok H0 [l Hl]. destruct Hl; [done|by eapply out_lt]. Qed.

(** ** The depth-first search *)

(** The last of the list is the entry, and each other block has a predecessor after it. *)
Fixpoint tree_order (f : funcdata) (l : list nat) : Prop :=
  match l with
  | [] => True
  | x :: l => (if decide (l = []) then x = 0 else exists p, In p l /\ In x (outs f p)) /\ tree_order f l
  end.

Lemma tree_order_insert (f : funcdata) (l1 l2 : list nat) (n s : nat) :
  tree_order f (l1 ++ n :: l2) -> In s (outs f n) -> tree_order f (l1 ++ s :: n :: l2).
Proof.
  intros H Hs. induction l1 as [|x l1 IH].
  - simpl app in *. split; [|done]. rewrite decide_False by done. exists n. split; [by left|done].
  - destruct H as [Hx H]. split; [|by apply IH]. assert (Hne : forall l : list nat, l1 ++ n :: l <> []) by (by destruct l1). rewrite decide_False in Hx by apply Hne.
    rewrite decide_False by (by destruct l1). destruct Hx as (p & Hp & Hxp). exists p. split; [|done]. apply in_app_iff in Hp as [?|Hp]; apply in_app_iff; [by left|right; by right].
Qed.

Lemma tree_order_reachable (f : funcdata) (l : list nat) (x : nat) : tree_order f l -> In x l -> reachable f x.
Proof.
  revert x. induction l as [|y l IH]; [done|]. intros x [Hy H] [->|Hx]; [|by apply IH].
  destruct (decide (l = [])); [subst; exists [0]; constructor|].
  destruct Hy as (p & Hp & Hxp). eapply reachable_step; eauto.
Qed.

Lemma tree_order_last (f : funcdata) (l : list nat) : tree_order f l -> l <> [] -> exists l', l = l' ++ [0].
Proof.
  induction l as [|x l IH]; [done|]. intros [Hx H] _. destruct (decide (l = [])) as [->|Hl]; [exists []; by subst|].
  destruct (IH H Hl) as [l' ->]. by exists (x :: l').
Qed.

Definition cost (b : block_basic) : nat := S (List.length (out_edges b)).
Fixpoint unseen (visited : list bool) (bs : list block_basic) : nat :=
  match visited, bs with
  | s :: visited, b :: bs => (if s then 0 else cost b) + unseen visited bs
  | _, _ => 0
  end.

Lemma unseen_mark (visited : list bool) (bs : list block_basic) (x : nat) (b : block_basic) :
  visited !! x = Some false -> bs !! x = Some b -> unseen (<[x := true]> visited) bs + cost b = unseen visited bs.
Proof.
  revert bs x. induction visited as [|s visited IH]; [done|]. intros [|c bs] [|x] Hv Hb; try done.
  - injection Hv as ->. injection Hb as ->. cbn. unfold cost. lia.
  - specialize (IH bs x Hv Hb). change (unseen (s :: <[x := true]> visited) (c :: bs) + cost b = unseen (s :: visited) (c :: bs)).
    cbn [unseen]. lia.
Qed.

Definition entries (stack : list (nat * nat)) : list nat := map fst stack.
Definition left_over (f : funcdata) (e : nat * nat) : nat := S (List.length (outs f e.1)) - e.2.

(** The blocks left, then the blocks of the stack, are in tree order at every step. *)
Record searching (f : funcdata) (visited : list bool) (stack : list (nat * nat)) (order : list nat) : Prop := Searching {
  se_len : List.length visited = num_blocks f;
  se_seen : forall x, visited !! x = Some true <-> In x (order ++ entries stack);
  se_nodup : List.NoDup (order ++ entries stack);
  se_tree : tree_order f (order ++ entries stack);
  se_left : forall x y, In x order -> In y (outs f x) -> In y (order ++ entries stack);
  se_stack : forall v c, In (v, c) stack -> c <= List.length (outs f v) /\ forall y, In y (take c (outs f v)) -> In y (order ++ entries stack);
}.

Lemma outs_block (f : funcdata) (a : nat) (b : block_basic) : blocks f !! a = Some b -> outs f a = out_edges b.
Proof. intros H. unfold outs. by rewrite H. Qed.

Lemma ins_block (f : funcdata) (a : nat) (b : block_basic) : blocks f !! a = Some b -> ins f a = in_edges b.
Proof. intros H. unfold ins. by rewrite H. Qed.

Lemma searching_seen_lt (f : funcdata) (visited : list bool) (stack : list (nat * nat)) (order : list nat) (x : nat) :
  searching f visited stack order -> In x (order ++ entries stack) -> x < num_blocks f.
Proof. intros [] Hx. apply se_seen0 in Hx. apply lookup_lt_Some in Hx. lia. Qed.

(** The next edge leads to a block already seen. *)
Lemma searching_skip (f : funcdata) (visited : list bool) (node ci succ : nat) (below : list (nat * nat)) (order : list nat) :
  searching f visited ((node, ci) :: below) order -> outs f node !! ci = Some succ -> visited !! succ = Some true ->
  searching f visited ((node, S ci) :: below) order.
Proof.
  intros [] Hs Hv. constructor; try done. intros v c [[= <- <-]|Hin]; [|apply se_stack0; by right].
  destruct (se_stack0 node ci (or_introl eq_refl)) as [Hc Ht]. apply lookup_lt_Some in Hs as Hlt. split; [lia|].
  intros y. rewrite (take_S_r _ _ _ Hs), in_app_iff. intros [Hy|[<-|[]]]; [by apply Ht|by apply se_seen0].
Qed.

(** The next edge leads to a new block. *)
Lemma searching_push (f : funcdata) (visited : list bool) (node ci succ : nat) (below : list (nat * nat)) (order : list nat) :
  searching f visited ((node, ci) :: below) order -> outs f node !! ci = Some succ -> visited !! succ = Some false ->
  searching f (<[succ := true]> visited) ((succ, 0) :: (node, S ci) :: below) order.
Proof.
  intros [] Hs Hv. set (old := order ++ entries ((node, ci) :: below)) in *.
  set (new := order ++ entries ((succ, 0) :: (node, S ci) :: below)).
  assert (Hn : forall x, In x new <-> x = succ \/ In x old) by (intros x; subst new old; rewrite !in_app_iff; cbn; intuition congruence).
  assert (Hfresh : ~ In succ old) by (intros H; apply se_seen0 in H; congruence).
  apply lookup_lt_Some in Hv as Hlt. apply lookup_lt_Some in Hs as Hlt'.
  constructor; fold new.
  - by rewrite length_insert.
  - intros x. rewrite Hn. destruct (decide (x = succ)) as [->|Hne].
    + rewrite list_lookup_insert_eq by done. split; [by left|done].
    + rewrite list_lookup_insert_ne by congruence. rewrite se_seen0. intuition congruence.
  - subst new old. cbn in *. apply List.NoDup_Add with (a := succ) (l := order ++ node :: entries below); [|split; done].
    apply List.Add_app.
  - subst new old. cbn in *. apply tree_order_insert; [done|]. eapply list_elem_of_In, list_elem_of_lookup_2; eauto.
  - intros x y Hx Hy. apply Hn. right. eauto.
  - intros v c [[= <- <-]|[[= <- <-]|Hin]].
    + split; [lia|]. intros y. rewrite take_0. done.
    + destruct (se_stack0 node ci (or_introl eq_refl)) as [Hc Ht]. split; [lia|].
      intros y. rewrite (take_S_r _ _ _ Hs), in_app_iff, Hn. intros [Hy|[<-|[]]]; [right; by apply Ht|by left].
    + destruct (se_stack0 v c (or_intror Hin)) as [Hc Ht]. split; [done|]. intros y Hy. apply Hn. right. by apply Ht.
Qed.

(** The block on top has no edge left. *)
Lemma searching_pop (f : funcdata) (visited : list bool) (node ci : nat) (below : list (nat * nat)) (order : list nat) :
  searching f visited ((node, ci) :: below) order -> outs f node !! ci = None -> searching f visited below (order ++ [node]).
Proof.
  intros [] Hs. assert (E : (order ++ [node]) ++ entries below = order ++ entries ((node, ci) :: below)) by by rewrite <- app_assoc.
  apply lookup_ge_None in Hs. constructor; rewrite ?E; try done.
  - intros x y Hx Hy. apply in_app_iff in Hx as [Hx|[<-|[]]]; [by eauto|].
    destruct (se_stack0 node ci (or_introl eq_refl)) as [Hc Ht]. apply Ht. by rewrite take_ge.
  - intros v c Hin. apply se_stack0. by right.
Qed.

Definition work (f : funcdata) (visited : list bool) (stack : list (nat * nat)) : nat :=
  sum_list_with (left_over f) stack + unseen visited (blocks f).

Lemma dfs_runs (f : funcdata) (fuel : nat) (visited : list bool) (stack : list (nat * nat)) (order : list nat) :
  edges_ok f -> searching f visited stack order -> work f visited stack < fuel ->
  exists visited' po, dfs fuel f visited stack order = Some po /\ searching f visited' [] po /\
    incl (order ++ entries stack) po.
Proof.
  intros Hok. revert visited stack order. induction fuel as [|fuel IH]; [lia|]. intros visited stack order Hse Hw.
  destruct stack as [|[node ci] below]; cbn [dfs].
  { exists visited, order. split_and!; [done|done|]. rewrite app_nil_r. apply incl_refl. }
  assert (Hlt : node < num_blocks f) by (eapply searching_seen_lt; [done|apply in_app_iff; right; by left]).
  destruct (lookup_lt_is_Some_2 (blocks f) node Hlt) as [b Hb]. rewrite Hb. cbn [mbind option_bind].
  rewrite <- (outs_block f node b Hb). unfold work in Hw. cbn [sum_list_with] in Hw. unfold left_over in Hw at 1. cbn [fst snd] in Hw.
  destruct (se_stack _ _ _ _ Hse node ci (or_introl eq_refl)) as [Hci _].
  destruct (outs f node !! ci) as [succ|] eqn:Es.
  - apply lookup_lt_Some in Es as Hl.
    assert (Hs : succ < num_blocks f) by (eapply out_lt; [done|]; eapply list_elem_of_In, list_elem_of_lookup_2; eauto).
    destruct (lookup_lt_is_Some_2 visited succ) as [s Hv]; [by rewrite (se_len _ _ _ _ Hse)|].
    rewrite Hv. cbn [mbind option_bind]. destruct s.
    + destruct (IH visited ((node, S ci) :: below) order) as (v' & po & E & S' & Hincl); [exact (searching_skip f visited node ci succ below order Hse Es Hv)| |by exists v', po].
      unfold work, left_over in *. cbn [sum_list_with fst snd] in *. lia.
    + destruct (lookup_lt_is_Some_2 (blocks f) succ Hs) as [sb Hsb].
      pose proof (unseen_mark visited (blocks f) succ sb Hv Hsb) as Hu. unfold cost in Hu. rewrite <- (outs_block f succ sb Hsb) in Hu.
      destruct (IH (<[succ := true]> visited) ((succ, 0) :: (node, S ci) :: below) order) as (v' & po & E & S' & Hincl).
      * by eapply searching_push.
      * unfold work, left_over in *. cbn [sum_list_with fst snd] in *. lia.
      * exists v', po. split_and!; [done|done|]. intros x Hx. apply Hincl.
        rewrite in_app_iff in Hx |- *. cbn in *. tauto.
  - apply lookup_ge_None in Es.
    destruct (IH visited below (order ++ [node])) as (v' & po & E & S' & Hincl).
    + eapply searching_pop; [done|]. by apply lookup_ge_None.
    + unfold work, left_over in *. cbn [sum_list_with fst snd] in *. lia.
    + exists v', po. split_and!; [done|done|]. by rewrite <- app_assoc in Hincl.
Qed.

(** [rpo] lists the reachable blocks, each once, the entry first, each other block after one of its
    predecessors. *)
Record reverse_postorder (f : funcdata) (rpo : list nat) : Prop := ReversePostorder {
  rp_reachable : forall x, In x rpo <-> reachable f x;
  rp_nodup : List.NoDup rpo;
  rp_entry : rpo !! 0 = Some 0;
  rp_before : forall i x, rpo !! S i = Some x -> exists j p, j < S i /\ rpo !! j = Some p /\ In x (outs f p);
}.

Lemma tree_order_before (f : funcdata) (l : list nat) (i x : nat) : tree_order f l -> rev l !! S i = Some x ->
  exists j p, j < S i /\ rev l !! j = Some p /\ In x (outs f p).
Proof.
  induction l as [|y l IH]; [done|]. intros [Hy H] Hi. cbn [rev] in *.
  destruct (decide (S i < List.length (rev l))) as [Hlt|Hge].
  - rewrite lookup_app_l in Hi by done. destruct (IH H Hi) as (j & p & Hj & Hp & Hx).
    exists j, p. split_and!; [done| |done]. by rewrite lookup_app_l by lia.
  - rewrite lookup_app_r in Hi by lia. apply list_lookup_singleton_Some in Hi as [Hi ->].
    rewrite length_rev in *. destruct (decide (l = [])) as [->|Hl]; [cbn in *; lia|].
    destruct Hy as (p & Hp & Hx). apply in_rev, list_elem_of_In, list_elem_of_lookup in Hp as [j Hj].
    apply lookup_lt_Some in Hj as Hlt. exists j, p. rewrite length_rev in Hlt. split_and!; [lia| |done]. by rewrite lookup_app_l by (rewrite length_rev; lia).
Qed.

(** The search ends, and its order, reversed, is as described. *)
Lemma postorder_spec (f : funcdata) : edges_ok f -> 0 < num_blocks f ->
  exists po, postorder f = Some po /\ reverse_postorder f (rev po).
Proof.
  intros Hok H0. unfold postorder. destruct (Nat.eqb_spec (num_blocks f) 0) as [|_]; [lia|].
  set (visited := <[0 := true]> (replicate (num_blocks f) false)).
  assert (Hse : searching f visited [(0, 0)] []).
  { constructor; cbn.
    - subst visited. by rewrite length_insert, length_replicate.
    - intros x. subst visited. destruct (decide (x = 0)) as [->|Hx].
      + rewrite list_lookup_insert_eq by (rewrite length_replicate; lia). split; [by left|done].
      + rewrite list_lookup_insert_ne by congruence. rewrite lookup_replicate. split; [by intros []|by intros [<-|[]]].
    - repeat constructor. by intros [].
    - by rewrite decide_True.
    - by intros x y [].
    - intros v c [[= <- <-]|[]]. split; [lia|]. by rewrite take_0. }
  destruct (dfs_runs f (dfs_fuel f) visited [(0, 0)] [] Hok Hse) as (v' & po & E & S' & Hincl).
  { unfold work, dfs_fuel, left_over. cbn [sum_list_with fst snd entries map].
    destruct (lookup_lt_is_Some_2 (blocks f) 0 H0) as [b Hb]. rewrite (outs_block f 0 b Hb).
    assert (Hu : forall bs, unseen (replicate (List.length bs) false) bs = List.length bs + sum_list_with (fun b => List.length (out_edges b)) bs).
    { induction bs as [|c bs IH]; [done|]. cbn [List.length replicate unseen sum_list_with]. unfold cost. lia. }
    pose proof (unseen_mark (replicate (num_blocks f) false) (blocks f) 0 b) as Hm. unfold num_blocks in *. rewrite Hu in Hm.
    rewrite lookup_replicate in Hm. specialize (Hm ltac:(done) Hb). fold visited in Hm. unfold cost in Hm. lia. }
  exists po. split; [done|].
  assert (E' : po ++ entries [] = po) by apply app_nil_r. destruct S'. rewrite E' in *.
  assert (H0' : In 0 po) by (apply Hincl; by left).
  constructor.
  - intros x. rewrite <- in_rev. split; [by apply tree_order_reachable|]. intros [l Hl].
    induction Hl as [|a b l Hl IH Hb]; [done|]. by eapply se_left0.
  - by apply List.NoDup_rev.
  - destruct (tree_order_last f po se_tree0) as [l' ->]; [by destruct po|]. by rewrite rev_app_distr.
  - intros i x Hi. by apply tree_order_before.
Qed.

(** ** Numbers *)

Lemma number_spec (i : nat) (rpo num : list nat) : List.NoDup rpo -> (forall b, In b rpo -> b < List.length num) ->
  exists num', number i rpo num = Some num' /\ List.length num' = List.length num /\
    (forall k b, rpo !! k = Some b -> num' !! b = Some (i + k)) /\ (forall b, ~ In b rpo -> num' !! b = num !! b).
Proof.
  revert i num. induction rpo as [|b rpo IH]; intros i num Hnd Hlt; cbn [number].
  { exists num. split_and!; done. }
  apply NoDup_cons_iff in Hnd as [Hb Hnd]. pose proof (Hlt b (or_introl eq_refl)) as Hbl.
  destruct (Nat.ltb_spec b (List.length num)); [|lia].
  destruct (IH (S i) (<[b := i]> num) Hnd) as (num' & E & Hlen & Hin & Hout).
  { intros c Hc. rewrite length_insert. apply Hlt. by right. }
  rewrite length_insert in Hlen. exists num'. split_and!; [done|done| |].
  - intros [|k] c Hk; cbn in Hk.
    + injection Hk as <-. rewrite Hout by done. rewrite list_lookup_insert_eq by done. f_equal. lia.
    + rewrite (Hin k c Hk). f_equal. lia.
  - intros c Hc. rewrite Hout by (intros ?; apply Hc; by right). apply list_lookup_insert_ne. intros ->. apply Hc. by left.
Qed.
