(* ===== verification/DominatorSolve.v ===== *)
(** The iteration of [compute]: the chains of candidate dominators always hold the true dominators of
    their block, every change moves one candidate towards the entry, and when nothing changes the
    chains hold nothing else. *)
From Stdlib Require Import Bool List Lia.
From stdpp Require Import base decidable option list relations tactics.
From S2P Require Import Prelude Space OpCode Funcdata FuncdataLinks FuncdataBlocks Dominator DominatorFacts.
Local Open Scope nat_scope.

(** ** Chains of candidates *)

Definition up (d : list (option nat)) (x y : nat) : Prop := d !! x = Some (Some y).
(** [anc d x z]: [z] is on the chain from [x]. *)
Definition anc (d : list (option nat)) : nat -> nat -> Prop := rtc (up d).
Definition processed (d : list (option nat)) (x : nat) : Prop := exists y, up d x y.

Lemma up_fun (d : list (option nat)) (x y y' : nat) : up d x y -> up d x y' -> y = y'.
Proof. unfold up. congruence. Qed.

(** Of two members of a chain one is on the chain of the other. *)
Lemma anc_linear (d : list (option nat)) (x y z : nat) : anc d x y -> anc d x z -> anc d y z \/ anc d z y.
Proof.
  intros Hy. revert z. induction Hy as [x|x y' y Hu Hy IH]; intros z Hz; [by left|].
  inversion Hz as [|? z' ? Hu' Hz']; subst; [right; by eapply rtc_l|].
  rewrite (up_fun _ _ _ _ Hu Hu') in *. by apply IH.
Qed.

Section numbered.
Context (f : funcdata) (num rpo : list nat).
Hypothesis OK : edges_ok f.
Hypothesis RP : reverse_postorder f rpo.
Hypothesis NL : List.length num = num_blocks f.
Hypothesis NUM : forall k b, rpo !! k = Some b -> num !! b = Some k.

Definition rank (x : nat) : nat := default 0 (num !! x).

Lemma in_rpo (x : nat) : In x rpo -> rpo !! rank x = Some x /\ num !! x = Some (rank x).
Proof.
  intros Hx. apply list_elem_of_In, list_elem_of_lookup in Hx as [k Hk]. unfold rank. by rewrite (NUM _ _ Hk).
Qed.

Lemma rank_at (k b : nat) : rpo !! k = Some b -> rank b = k.
Proof. intros Hk. unfold rank. by rewrite (NUM _ _ Hk). Qed.

Lemma rank_inj (x y : nat) : In x rpo -> In y rpo -> rank x = rank y -> x = y.
Proof. intros [Hx _]%in_rpo [Hy _]%in_rpo E. rewrite E in Hx. congruence. Qed.

Lemma rank_0 : rank 0 = 0.
Proof. by apply rank_at, (rp_entry _ _ RP). Qed.

Lemma entry_in : In 0 rpo.
Proof. eapply list_elem_of_In, list_elem_of_lookup_2, (rp_entry _ _ RP). Qed.

Lemma rpo_lt (x : nat) : In x rpo -> x < num_blocks f /\ rank x < num_blocks f.
Proof.
  intros [Hr Hn]%in_rpo. apply lookup_lt_Some in Hn as Hl. rewrite NL in Hl. split; [done|].
  apply lookup_lt_Some in Hr. enough (List.length rpo <= num_blocks f) by lia. rewrite <- (length_seq (num_blocks f) 0).
  apply NoDup_incl_length; [apply (rp_nodup _ _ RP)|]. intros y Hy.
  apply list_elem_of_In, list_elem_of_lookup in Hy as [k Hk]. apply in_seq. apply NUM, lookup_lt_Some in Hk. lia.
Qed.

Lemma rpo_out (p x : nat) : In p rpo -> In p (ins f x) -> In x rpo.
Proof. intros Hp He. apply (rp_reachable _ _ RP) in Hp. apply (rp_reachable _ _ RP). apply (edge_sides f p x OK) in He. by eapply reachable_step. Qed.

(** A forward edge leads away from the entry. *)
Definition forward (p x : nat) : Prop := In p (ins f x) /\ In p rpo /\ rank p < rank x.

Lemma forward_pred (x : nat) : In x rpo -> x <> 0 -> exists p, forward p x.
Proof.
  intros Hx H0. destruct (in_rpo x Hx) as [Hr _]. destruct (rank x) as [|i] eqn:E.
  { destruct H0. rewrite (rp_entry _ _ RP) in Hr. congruence. }
  destruct (rp_before _ _ RP i x Hr) as (j & p & Hj & Hp & He). exists p. unfold forward.
  rewrite (rank_at _ _ Hp), E. split_and!; [by apply (edge_sides f p x OK)| |lia]. by eapply list_elem_of_In, list_elem_of_lookup_2.
Qed.

Lemma forward_path (y x : nat) (l : list nat) : rtc forward y x -> path f y l ->
  exists l', path f x (l' ++ l) /\ forall v, In v l' -> rank y < rank v.
Proof.
  intros Hr Hl. revert x Hr. apply (rtc_ind_r (fun x => exists l', path f x (l' ++ l) /\ forall v, In v l' -> rank y < rank v)).
  - exists []. split; [done|by intros v []].
  - intros z x Hyz Hzx IH. destruct IH as (l' & Hp & Hv). destruct Hzx as (He & Hin & Hlt).
    exists (x :: l'). split; [eapply path_step; [done|by apply (edge_sides f z x OK)]|].
    assert (Hyz' : rank y <= rank z).
    { clear -Hyz. induction Hyz as [|a b c Hab _ IH]; [done|]. destruct Hab as (_ & _ & ?). lia. }
    intros v [<-|Hv']; [lia|by apply Hv].
Qed.

(** A dominator of [x] that lies above [y], which leads to [x] by forward edges, dominates [y]. *)
Lemma dominated_above (z y x : nat) : rtc forward y x -> dominated f z x -> rank z < rank y -> dominated f z y.
Proof.
  intros Hr Hd Hlt l Hl. destruct (forward_path y x l Hr Hl) as (l' & Hp & Hv).
  destruct (in_app_or _ _ _ (Hd _ Hp)) as [Hz|Hz]; [|done]. specialize (Hv z Hz). lia.
Qed.

(** The state of the iteration before the [i]th block of a pass. *)
Record solving (i : nat) (d : list (option nat)) : Prop := Solving {
  sv_len : List.length d = num_blocks f;
  sv_entry : up d 0 0;
  sv_up : forall x y, up d x y -> In x rpo /\ In y rpo /\ processed d y /\ (x <> 0 -> rank y < rank x);
  sv_forward : forall x y, up d x y -> rtc forward y x;
  sv_keeps : forall x y z, up d x y -> dominated f z x -> anc d x z;
  sv_needs : forall x y z, up d x y -> x <> 0 -> (forall p, In p (ins f x) -> processed d p -> anc d p z) -> anc d x z;
  sv_lag : forall x y p, up d x y -> x <> 0 -> rank x < i \/ i <= rank y -> forward p x -> anc d p y;
  sv_prefix : forall x, In x rpo -> rank x < i -> processed d x;
}.

Section state.
Context (i : nat) (d : list (option nat)) (SV : solving i d).

Lemma up_entry (y : nat) : up d 0 y -> y = 0.
Proof. intros H. exact (up_fun _ _ _ _ H (sv_entry _ _ SV)). Qed.

Lemma up_rank (x y : nat) : up d x y -> rank y <= rank x.
Proof.
  intros H. destruct (decide (x = 0)) as [->|Hx]; [by rewrite (up_entry _ H)|].
  destruct (sv_up _ _ SV x y H) as (_ & _ & _ & Hr). specialize (Hr Hx). lia.
Qed.

Lemma anc_rank (x z : nat) : anc d x z -> rank z <= rank x.
Proof. intros H. induction H as [|x y z Hu _ IH]; [done|]. apply up_rank in Hu. lia. Qed.

Lemma anc_processed (x z : nat) : processed d x -> anc d x z -> processed d z /\ In z rpo.
Proof.
  intros [y Hy] H. revert y Hy. induction H as [x|x y z Hu _ IH]; intros y' Hy.
  - split; [by exists y'|]. by destruct (sv_up _ _ SV _ _ Hy).
  - destruct (sv_up _ _ SV x y Hu) as (_ & _ & [y'' H''] & _). by eapply IH.
Qed.

Lemma processed_in (x : nat) : processed d x -> In x rpo.
Proof. intros [y Hy]. by destruct (sv_up _ _ SV x y Hy). Qed.

(** Members of one chain are ordered by their numbers. *)
Lemma anc_le (x y z : nat) : processed d x -> anc d x y -> anc d x z -> rank z <= rank y -> anc d y z.
Proof.
  intros Hp Hy Hz Hle. destruct (anc_linear d x y z Hy Hz) as [|H]; [done|].
  apply anc_rank in H as Hr. enough (y = z) as -> by apply rtc_refl.
  apply rank_inj; [by eapply anc_processed|by eapply anc_processed|lia].
Qed.

Lemma anc_up (x y z : nat) : up d x y -> anc d x z -> z = x \/ anc d y z.
Proof. intros Hu Hz. inversion Hz as [|? y' ? Hu' Hz']; subst; [by left|right]. by rewrite (up_fun _ _ _ _ Hu Hu'). Qed.

Lemma anc_entry (z : nat) : anc d 0 z -> z = 0.
Proof.
  intros H. apply anc_rank in H as Hr. rewrite rank_0 in Hr. apply rank_inj; [|apply entry_in|rewrite rank_0; lia].
  eapply anc_processed; [|done]. exists 0. apply (sv_entry _ _ SV).
Qed.

(** *** [intersect] *)

Lemma climb_spec (fuel x other : nat) : processed d x -> In other rpo -> rank x < fuel ->
  exists y, climb fuel d num x other = Some y /\ anc d x y /\ rank y <= rank other /\
    (forall z, anc d x z -> rank z <= rank other -> anc d y z) /\ (rank x <= rank other -> y = x).
Proof.
  revert x. induction fuel as [|fuel IH]; [lia|]. intros x Hp Ho Hf. cbn [climb].
  destruct (in_rpo x (processed_in x Hp)) as [_ ->], (in_rpo other Ho) as [_ ->]. cbn [mbind option_bind].
  destruct (Nat.ltb_spec (rank other) (rank x)) as [Hlt|Hge].
  - destruct Hp as [y Hy]. rewrite Hy. cbn [mbind option_bind].
    destruct (sv_up _ _ SV x y Hy) as (_ & _ & Hpy & Hr). assert (Hx : x <> 0) by (intros ->; rewrite rank_0 in Hlt; lia).
    destruct (IH y Hpy Ho) as (w & E & Ha & Hle & Hz & _); [specialize (Hr Hx); lia|].
    exists w. split_and!; [done|by eapply rtc_l|done| |lia].
    intros z Hxz Hzo. apply Hz; [|done]. destruct (anc_up _ _ _ Hy Hxz) as [->|]; [lia|done].
  - exists x. split_and!; [done|apply rtc_refl|done|done|done].
Qed.

Lemma intersect_loop_spec (fuel a b : nat) : processed d a -> processed d b -> max (rank a) (rank b) < fuel ->
  exists n, intersect_loop fuel d num a b = Some n /\ processed d n /\ forall z, anc d n z <-> anc d a z /\ anc d b z.
Proof.
  revert a b. induction fuel as [|fuel IH]; [lia|]. intros a b Ha Hb Hf. cbn [intersect_loop].
  destruct (Nat.eqb_spec a b) as [<-|Hne]; [exists a; split_and!; [done|done|tauto]|].
  pose proof (rpo_lt a (processed_in a Ha)) as Hla. pose proof (rpo_lt b (processed_in b Hb)) as Hlb.
  destruct (climb_spec (S (List.length num)) a b Ha (processed_in b Hb)) as (a' & -> & Haa & Hab & Hza & Ea); [lia|].
  cbn [mbind option_bind]. destruct (anc_processed a a' Ha Haa) as [Ha' Hia].
  destruct (climb_spec (S (List.length num)) b a' Hb Hia) as (b' & -> & Hbb & Hba & Hzb & Eb); [lia|].
  cbn [mbind option_bind]. destruct (anc_processed b b' Hb Hbb) as [Hb' _].
  assert (rank a <> rank b) by (intros E; apply Hne, rank_inj; eauto using processed_in).
  destruct (IH a' b' Ha' Hb') as (n & E & Hn & Hz).
  { destruct (decide (rank a <= rank b)); [rewrite Ea in * by done; lia|lia]. }
  exists n. split_and!; [done|done|]. intros z. rewrite Hz. split.
  - intros [H1 H2]. split; by etrans.
  - intros [H1 H2]. assert (H3 : anc d a' z) by (apply Hza; [done|by apply anc_rank]). split; [done|].
    apply Hzb; [done|by apply anc_rank].
Qed.

Lemma intersect_spec (a b : nat) : processed d a -> processed d b ->
  exists n, intersect d num a b = Some n /\ processed d n /\ forall z, anc d n z <-> anc d a z /\ anc d b z.
Proof.
  intros Ha Hb. apply intersect_loop_spec; [done|done|].
  pose proof (rpo_lt a (processed_in a Ha)). pose proof (rpo_lt b (processed_in b Hb)). lia.
Qed.

(** The chain of the new candidate is what the chains of the processed predecessors share. *)
Lemma new_idom_spec (preds : list nat) (cur : option nat) : (forall p, In p preds -> p < num_blocks f) ->
  (forall c, cur = Some c -> processed d c) ->
  exists r, new_idom d num preds cur = Some r /\
    match r with
    | None => cur = None /\ forall p, In p preds -> ~ processed d p
    | Some n => processed d n /\ forall z, anc d n z <->
        (forall c, cur = Some c -> anc d c z) /\ (forall p, In p preds -> processed d p -> anc d p z)
    end.
Proof.
  revert cur. induction preds as [|p preds IH]; intros cur Hlt Hc; cbn [new_idom].
  { exists cur. split; [done|]. destruct cur as [c|]; [|by split]. split; [by apply Hc|]. intros z. split; [|by intros [H _]; apply H].
    intros H. split; [by intros c' [= <-]|by intros p []]. }
  destruct (lookup_lt_is_Some_2 d p) as [dp Hp]; [rewrite (sv_len _ _ SV); apply Hlt; by left|].
  rewrite Hp. cbn [mbind option_bind]. assert (Hlt' : forall q, In q preds -> q < num_blocks f) by (intros q Hq; apply Hlt; by right).
  destruct dp as [y|].
  - assert (Hpp : processed d p) by by exists y. destruct cur as [c|].
    + destruct (intersect_spec p c Hpp (Hc c eq_refl)) as (n & -> & Hn & Hz). cbn [mbind option_bind].
      destruct (IH (Some n) Hlt') as (r & E & Hr); [by intros c' [= <-]|]. exists r. split; [done|].
      destruct r as [m|]; [|by destruct Hr]. destruct Hr as [Hm Hr]. split; [done|]. intros z. rewrite Hr. split.
      * intros [H1 H2]. specialize (H1 n eq_refl). apply Hz in H1 as [H1 H3]. split; [by intros c' [= <-]|].
        intros q [<-|Hq]; [done|by apply H2].
      * intros [H1 H2]. split; [intros n' [= <-]; apply Hz; split; [apply H2; [by left|done]|by apply H1]|].
        intros q Hq. apply H2. by right.
    + destruct (IH (Some p) Hlt') as (r & E & Hr); [by intros c' [= <-]|]. exists r. split; [done|].
      destruct r as [m|]; [|by destruct Hr]. destruct Hr as [Hm Hr]. split; [done|]. intros z. rewrite Hr. split.
      * intros [H1 H2]. split; [done|]. intros q [<-|Hq]; [intros _; by apply H1|by apply H2].
      * intros [_ H2]. split; [intros c' [= <-]; apply H2; [by left|done]|]. intros q Hq. apply H2. by right.
  - assert (Hpp : ~ processed d p) by (intros [y Hy]; unfold up in Hy; congruence).
    destruct (IH cur Hlt' Hc) as (r & E & Hr). exists r. split; [done|]. destruct r as [m|].
    + destruct Hr as [Hm Hr]. split; [done|]. intros z. rewrite Hr. split; intros [H1 H2]; (split; [done|]).
      * intros q [<-|Hq]; [done|by apply H2].
      * intros q Hq. apply H2. by right.
    + destruct Hr as [Hc' Hr]. split; [done|]. intros q [<-|Hq]; [done|by apply Hr].
Qed.

Lemma anc_dec (x z : nat) : {anc d x z} + {~ anc d x z}.
Proof.
  remember (rank x) as r eqn:E. revert x E. induction r as [r IH] using (well_founded_induction lt_wf). intros x ->.
  destruct (decide (x = z)) as [->|Hz]; [left; apply rtc_refl|].
  assert (Hno : (forall y, ~ up d x y) -> ~ anc d x z) by (intros H Ha; inversion Ha; subst; [done|by eapply H]).
  destruct (d !! x) as [[y|]|] eqn:Ed; [|right; apply Hno; unfold up; congruence..].
  destruct (decide (x = 0)) as [->|H0]; [right; intros H; by apply anc_entry in H|].
  destruct (sv_up _ _ SV x y Ed) as (_ & _ & _ & Hr). destruct (IH (rank y) (Hr H0) y eq_refl) as [H|H].
  - left. by eapply rtc_l.
  - right. intros Ha. by destruct (anc_up x y z Ed Ha).
Qed.

Lemma anc_forward (x z : nat) : anc d x z -> rtc forward z x.
Proof. intros Ha. induction Ha as [x|x y z Hu _ IH]; [apply rtc_refl|]. etrans; [exact IH|]. by apply (sv_forward _ _ SV). Qed.

(** *** One block of a pass *)

Section change.
Context (b n : nat).
Hypothesis AT : rpo !! i = Some b.
Hypothesis B0 : b <> 0.
Hypothesis PN : processed d n.
Hypothesis NCA : forall z, anc d n z <-> forall p, In p (ins f b) -> processed d p -> anc d p z.
Let d' := <[b := Some n]> d.

Lemma b_in : In b rpo.
Proof. eapply list_elem_of_In, list_elem_of_lookup_2, AT. Qed.

Lemma b_rank : rank b = i.
Proof. by apply rank_at. Qed.

Lemma forward_processed (p : nat) : forward p b -> processed d p.
Proof. intros (_ & Hp & Hlt). rewrite b_rank in Hlt. by apply (sv_prefix _ _ SV). Qed.

Lemma n_forward : rank n < rank b /\ rtc forward n b.
Proof.
  destruct (forward_pred b b_in B0) as [p Hp]. assert (Ha : anc d p n).
  { apply (proj1 (NCA n)); [apply rtc_refl|by destruct Hp|by apply forward_processed]. }
  split; [apply anc_rank in Ha; destruct Hp as (_ & _ & ?); lia|].
  apply rtc_r with p; [by apply anc_forward|done].
Qed.

Lemma up_here : up d' b n.
Proof. unfold up, d'. apply list_lookup_insert_eq. rewrite (sv_len _ _ SV). apply (rpo_lt b b_in). Qed.

Lemma up_there (x y : nat) : x <> b -> up d' x y <-> up d x y.
Proof. intros Hx. unfold up, d'. by rewrite list_lookup_insert_ne by congruence. Qed.

Lemma up_cases (x y : nat) : up d' x y -> x = b /\ y = n \/ x <> b /\ up d x y.
Proof.
  intros H. destruct (decide (x = b)) as [->|Hx]; [left; split; [done|exact (up_fun _ _ _ _ H up_here)]|].
  right. split; [done|by apply up_there].
Qed.

Lemma processed_mono (x : nat) : processed d x -> processed d' x.
Proof. intros [y Hy]. destruct (decide (x = b)) as [->|Hx]; [exists n; apply up_here|exists y; by apply up_there]. Qed.

(** The candidate moves up its own chain. *)
Lemma candidate_rises (o : nat) : up d b o -> anc d o n.
Proof.
  intros Ho. assert (H : anc d b n) by (apply (sv_needs _ _ SV b o n Ho B0), NCA, rtc_refl).
  destruct (anc_up _ _ _ Ho H) as [E|]; [|done]. pose proof n_forward as [? _]. rewrite E in *. lia.
Qed.

Lemma shrink (x z : nat) : processed d x -> anc d' x z -> anc d x z.
Proof.
  intros Hp H. induction H as [x|x y z Hu _ IH]; [apply rtc_refl|].
  destruct (up_cases x y Hu) as [[-> ->]|[Hx Hu']].
  - destruct Hp as [o Ho]. eapply rtc_l; [exact Ho|]. etrans; [by apply candidate_rises|by apply IH].
  - eapply rtc_l; [exact Hu'|]. apply IH. by destruct (sv_up _ _ SV x y Hu') as (_ & _ & ? & _).
Qed.

(** The part of a chain up to [b] stays. *)
Lemma keep (x z : nat) : anc d x z -> rank b <= rank z -> anc d' x z.
Proof.
  intros H Hle. induction H as [x|x y z Hu H IH]; [apply rtc_refl|]. eapply rtc_l; [|by apply IH].
  apply up_there; [|done]. intros ->. apply anc_rank in H. destruct (sv_up _ _ SV b y Hu) as (_ & _ & _ & Hr). specialize (Hr B0). lia.
Qed.

(** A chain that avoids [b] stays. *)
Lemma other (x z : nat) : anc d x z -> ~ anc d x b -> anc d' x z.
Proof.
  intros H Hb. induction H as [x|x y z Hu H IH]; [apply rtc_refl|]. eapply rtc_l.
  - apply up_there; [|done]. intros ->. apply Hb, rtc_refl.
  - apply IH. intros Hy. apply Hb. by eapply rtc_l.
Qed.

Lemma below_avoids (x : nat) : rank x < rank b -> ~ anc d x b.
Proof. intros Hlt H. apply anc_rank in H. lia. Qed.

Lemma through_n (z : nat) : anc d n z -> anc d' b z.
Proof. intros H. eapply rtc_l; [apply up_here|]. apply other; [done|]. apply below_avoids, n_forward. Qed.

Lemma change_keeps (x y z : nat) : up d' x y -> dominated f z x -> anc d' x z.
Proof.
  assert (Hb : dominated f z b -> anc d' b z).
  { intros Hd. destruct (decide (z = b)) as [->|Hz]; [apply rtc_refl|]. apply through_n, NCA. intros p Hp [q Hq].
    apply (sv_keeps _ _ SV p q z Hq). eapply dominated_pred; [done|done|]. by apply edge_sides. }
  intros Hu Hd. destruct (up_cases x y Hu) as [[-> ->]|[Hx Hu']]; [by apply Hb|].
  pose proof (sv_keeps _ _ SV x y z Hu' Hd) as Ha.
  destruct (decide (rank b <= rank z)) as [Hle|Hgt]; [by apply keep|].
  destruct (anc_dec x b) as [Hxb|Hxb]; [|by apply other].
  etrans; [apply keep; [exact Hxb|done]|]. apply Hb. apply dominated_above with x; [by apply anc_forward|done|lia].
Qed.

Lemma change_needs (x y z : nat) : up d' x y -> x <> 0 ->
  (forall p, In p (ins f x) -> processed d' p -> anc d' p z) -> anc d' x z.
Proof.
  intros Hu H0 Hall.
  assert (Hall' : forall p, In p (ins f x) -> processed d p -> anc d p z).
  { intros p Hp Hpp. apply shrink; [done|]. apply Hall; [done|by apply processed_mono]. }
  destruct (up_cases x y Hu) as [[-> ->]|[Hx Hu']]; [by apply through_n, NCA|].
  pose proof (sv_needs _ _ SV x y z Hu' H0 Hall') as Ha.
  destruct (decide (rank b <= rank z)) as [Hle|Hgt]; [by apply keep|].
  destruct (anc_dec x b) as [Hxb|Hxb]; [|by apply other].
  destruct (anc_up _ _ _ Hu' Hxb) as [->|Hyb]; [done|].
  destruct (sv_up _ _ SV x y Hu') as (Hxin & _ & Hpy & _).
  destruct (forward_pred x Hxin H0) as [p Hp]. apply anc_rank in Hyb as Hr.
  pose proof (sv_lag _ _ SV x y p Hu' H0 ltac:(right; rewrite <- b_rank; lia) Hp) as Hpa.
  assert (Hpp : processed d p) by (inversion Hpa; subst; [done|by eexists]).
  assert (Hpb : anc d p b) by by etrans.
  pose proof (Hall p ltac:(by destruct Hp) (processed_mono p Hpp)) as Hpz.
  etrans; [apply keep; [exact Hxb|done]|].
  destruct (anc_linear d' p b z ltac:(by apply keep) Hpz) as [|Hzb]; [done|].
  apply shrink in Hzb; [apply anc_rank in Hzb; lia|]. eapply anc_processed; [exact Hpp|by apply shrink].
Qed.

Lemma change_lag (x y p : nat) : up d' x y -> x <> 0 -> rank x < S i \/ S i <= rank y -> forward p x -> anc d' p y.
Proof.
  intros Hu H0 Hi Hp. pose proof b_rank as Hb. destruct (up_cases x y Hu) as [[-> ->]|[Hx Hu']].
  - apply other; [|apply below_avoids; by destruct Hp as (_ & _ & ?)].
    apply (proj1 (NCA n)); [apply rtc_refl|by destruct Hp|by apply forward_processed].
  - destruct Hi as [Hlt|Hge].
    + destruct (sv_up _ _ SV x y Hu') as (Hin & _).
      assert (rank x <> rank b) by (intros E; apply Hx, rank_inj; [done|apply b_in|done]).
      apply other; [apply (sv_lag _ _ SV x y p Hu' H0); [left; lia|done]|].
      apply below_avoids. destruct Hp as (_ & _ & ?). lia.
    + apply keep; [apply (sv_lag _ _ SV x y p Hu' H0); [right; lia|done]|lia].
Qed.

Lemma change_solving : solving (S i) d'.
Proof.
  constructor.
  - unfold d'. rewrite length_insert. apply SV.
  - apply up_there; [congruence|apply SV].
  - intros x y Hu. destruct (up_cases x y Hu) as [[-> ->]|[Hx Hu']].
    + split_and!; [apply b_in|by apply processed_in|by apply processed_mono|intros _; apply n_forward].
    + destruct (sv_up _ _ SV x y Hu') as (? & ? & ? & ?). split_and!; [done|done|by apply processed_mono|done].
  - intros x y Hu. destruct (up_cases x y Hu) as [[-> ->]|[Hx Hu']]; [apply n_forward|by apply (sv_forward _ _ SV)].
  - apply change_keeps.
  - apply change_needs.
  - apply change_lag.
  - intros x Hin Hlt. destruct (decide (x = b)) as [->|Hx]; [exists n; apply up_here|].
    assert (rank x <> rank b) by (intros E; apply Hx, rank_inj; [done|apply b_in|done]). rewrite b_rank in *.
    apply processed_mono, (sv_prefix _ _ SV); [done|lia].
Qed.
End change.
End state.
End numbered.
