(* ===== verification/DominatorTheorems.v ===== *)
(** [compute]: it ends, its chains are the dominators, and the frontiers are the dominance frontiers. *)
From Stdlib Require Import Bool List Lia Sorted Permutation.
From stdpp Require Import base decidable option list relations tactics.
From S2P Require Import Prelude Space OpCode Funcdata FuncdataLinks FuncdataBlocks FuncdataTheorems Dominator DominatorFacts DominatorSolve.
Local Open Scope nat_scope.

Section numbered.
Context (f : funcdata) (num rpo : list nat).
Hypothesis OK : edges_ok f.
Hypothesis RP : reverse_postorder f rpo.
Hypothesis NL : List.length num = num_blocks f.
Hypothesis NUM : forall k b, rpo !! k = Some b -> num !! b = Some k.

Local Abbreviation rank := (rank num).
Local Abbreviation solving := (solving f num rpo).

(** ** Passes *)

(** The sum of the numbers of the candidates *)
Definition weight (d : list (option nat)) (x : nat) : nat :=
  match d !! x with Some (Some y) => rank y | _ => num_blocks f end.
Definition total_weight (d : list (option nat)) : nat := sum_list_with (weight d) rpo.

Lemma sum_decreases (w w' : nat -> nat) (l : list nat) (b : nat) : (forall x, In x l -> w' x <= w x) -> In b l -> w' b < w b ->
  sum_list_with w' l < sum_list_with w l.
Proof.
  intros Hle Hb Hlt.
  assert (Hs : forall l', incl l' l -> sum_list_with w' l' <= sum_list_with w l').
  { induction l' as [|x l' IH]; [done|]. intros Hi. cbn. pose proof (Hle x (Hi x (or_introl eq_refl))).
    specialize (IH (fun y Hy => Hi y (or_intror Hy))). lia. }
  apply in_split in Hb as (l1 & l2 & ->). rewrite !sum_list_with_app. cbn.
  pose proof (Hs l1 ltac:(intros x Hx; apply in_app_iff; by left)).
  pose proof (Hs l2 ltac:(intros x Hx; apply in_app_iff; right; by right)). lia.
Qed.

(** The candidate of [b] is what the chains of its predecessors share. *)
Definition settled (d : list (option nat)) (b : nat) : Prop :=
  b <> 0 -> exists y, up d b y /\ forall z, anc d y z <-> forall p, In p (ins f b) -> processed d p -> anc d p z.

Lemma unchanged_solving (i b : nat) (d : list (option nat)) : solving i d -> rpo !! i = Some b -> settled d b -> solving (S i) d.
Proof.
  intros SV Hb Hs. pose proof (rank_at num rpo NUM _ _ Hb) as Hr.
  assert (Hbi : In b rpo) by (eapply list_elem_of_In, list_elem_of_lookup_2, Hb).
  assert (Heq : forall x, In x rpo -> rank x < S i -> x = b \/ rank x < i).
  { intros x Hx Hlt. destruct (decide (x = b)); [by left|right].
    enough (rank x <> rank b) by lia. intros E. by eapply n, (rank_inj num rpo). }
  constructor; try apply SV.
  - intros x y p Hu H0 Hi Hp. destruct (sv_up _ _ _ _ _ SV x y Hu) as (Hin & _).
    destruct Hi as [Hlt|Hge]; [|apply (sv_lag _ _ _ _ _ SV x y p Hu H0); [right; lia|done]].
    destruct (Heq x Hin Hlt) as [->|?]; [|apply (sv_lag _ _ _ _ _ SV x y p Hu H0); [by left|done]].
    destruct (Hs H0) as (y' & Hy' & Hn). rewrite (up_fun _ _ _ _ Hu Hy').
    destruct Hp as (Hp & Hpi & Hlt'). apply (proj1 (Hn y')); [apply rtc_refl|done|].
    apply (sv_prefix _ _ _ _ _ SV); [done|lia].
  - intros x Hx Hlt. destruct (Heq x Hx Hlt) as [->|?]; [|by apply (sv_prefix _ _ _ _ _ SV)].
    destruct (decide (b = 0)) as [->|H0]; [exists 0; apply SV|]. destruct (Hs H0) as (y & Hy & _). by exists y.
Qed.

Definition advanced (l : list nat) (d : list (option nat)) (changed : bool) (d' : list (option nat)) (changed' : bool) : Prop :=
  d' = d /\ changed' = changed /\ Forall (settled d) l \/ changed' = true /\ total_weight d' < total_weight d.

Lemma visit_runs (i b : nat) (d : list (option nat)) (changed : bool) : solving i d -> rpo !! i = Some b ->
  exists d' changed', visit f num (d, changed) b = Some (d', changed') /\ solving (S i) d' /\ advanced [b] d changed d' changed'.
Proof.
  intros SV Hb. cbn [visit]. assert (Hbi : In b rpo) by (eapply list_elem_of_In, list_elem_of_lookup_2, Hb).
  assert (Hstay : settled d b -> solving (S i) d /\ advanced [b] d changed d changed).
  { intros Hs. split; [by eapply unchanged_solving|left]. split_and!; [done|done|by repeat constructor]. }
  destruct (Nat.eqb_spec b 0) as [->|H0]; [exists d, changed; split; [done|apply Hstay; by intros []]|].
  destruct (rpo_lt f num rpo RP NL NUM b Hbi) as [Hlt _].
  destruct (lookup_lt_is_Some_2 (blocks f) b Hlt) as [blk Hblk]. rewrite Hblk. cbn [mbind option_bind].
  rewrite <- (ins_block f b blk Hblk).
  destruct (new_idom_spec f num rpo RP NL NUM i d SV (ins f b) None) as (r & -> & Hr); [|done|].
  { intros p Hp. apply (edge_sides f p b OK) in Hp. unfold num_blocks. by eapply outs_lt, Hp. }
  cbn [mbind option_bind]. destruct (forward_pred f num rpo OK RP NL NUM b Hbi H0) as [p Hp].
  assert (Hpp : processed d p).
  { destruct Hp as (_ & Hpi & Hr'). rewrite (rank_at num rpo NUM _ _ Hb) in Hr'. by apply (sv_prefix _ _ _ _ _ SV). }
  destruct r as [n|]; [|by destruct Hr as [_ Hr]; destruct (Hr p ltac:(by destruct Hp) Hpp)].
  destruct Hr as [Hn Hz]. assert (NCA : forall z, anc d n z <-> forall p, In p (ins f b) -> processed d p -> anc d p z).
  { intros z. rewrite Hz. split; [by intros [_ H]|by intros H; split]. }
  destruct (lookup_lt_is_Some_2 d b) as [old Hold]; [by rewrite (sv_len _ _ _ _ _ SV)|].
  rewrite Hold. cbn [mbind option_bind]. case_decide as E.
  - exists d, changed. split; [done|]. apply Hstay. intros _. exists n. split; [unfold up; congruence|done].
  - exists (<[b := Some n]> d), true. split; [done|]. split; [by apply change_solving|right; split; [done|]].
    pose proof (n_forward f num rpo OK RP NL NUM i d SV b n Hb H0 NCA) as [Hnb _].
    apply sum_decreases with b; [|done|].
    + intros x _. unfold weight. destruct (decide (x = b)) as [->|Hx].
      * rewrite list_lookup_insert_eq by (by rewrite (sv_len _ _ _ _ _ SV)). rewrite Hold. destruct old as [o|].
        -- apply (anc_rank f num rpo NL i d SV). by eapply candidate_rises.
        -- pose proof (rpo_lt f num rpo RP NL NUM n (processed_in _ _ _ _ _ SV n Hn)). lia.
      * by rewrite list_lookup_insert_ne by congruence.
    + unfold weight. rewrite list_lookup_insert_eq by (by rewrite (sv_len _ _ _ _ _ SV)). rewrite Hold.
      pose proof (rpo_lt f num rpo RP NL NUM n (processed_in _ _ _ _ _ SV n Hn)) as [_ Hn'].
      destruct old as [o|]; [|lia].
      assert (Ha : anc d o n) by (by eapply candidate_rises).
      pose proof (anc_rank f num rpo NL i d SV _ _ Ha) as Hle.
      destruct (sv_up _ _ _ _ _ SV b o Hold) as (_ & Hoi & _).
      enough (rank n <> rank o) by lia. intros E'. apply E. do 2 f_equal.
      by apply (rank_inj num rpo NUM); [|apply (processed_in _ _ _ _ _ SV n Hn)|].
Qed.

Lemma pass_runs (l1 l2 : list nat) (d : list (option nat)) (changed : bool) : rpo = l1 ++ l2 -> solving (List.length l1) d ->
  exists d' changed', fold_opt (visit f num) l2 (d, changed) = Some (d', changed') /\
    solving (List.length rpo) d' /\ advanced l2 d changed d' changed'.
Proof.
  revert l1 d changed. induction l2 as [|b l2 IH]; intros l1 d changed E SV.
  { exists d, changed. assert (Hl : List.length rpo = List.length l1) by by rewrite E, app_nil_r.
    rewrite Hl. split_and!; [done|done|left]. split_and!; [done|done|constructor]. }
  assert (Hb : rpo !! List.length l1 = Some b) by (rewrite E, lookup_app_r, Nat.sub_diag by lia; done).
  destruct (visit_runs (List.length l1) b d changed SV Hb) as (d1 & c1 & E1 & SV1 & A1).
  cbn [fold_opt]. rewrite E1. cbn [mbind option_bind].
  destruct (IH (l1 ++ [b]) d1 c1) as (d2 & c2 & E2 & SV2 & A2); [by rewrite <- app_assoc|by rewrite length_app, Nat.add_comm|].
  exists d2, c2. split_and!; [done|done|].
  destruct A1 as [(-> & -> & H1)|[-> H1]], A2 as [(-> & -> & H2)|[-> H2]].
  - left. split_and!; [done|done|]. constructor; [by inversion H1|done].
  - by right.
  - by right.
  - right. split; [done|lia].
Qed.

Definition solved (d : list (option nat)) : Prop := solving 0 d /\ Forall (settled d) rpo /\ forall x, In x rpo -> processed d x.

Lemma end_of_pass (d : list (option nat)) : solving (List.length rpo) d -> solving 0 d /\ forall x, In x rpo -> processed d x.
Proof.
  intros SV. assert (Hall : forall x, In x rpo -> rank x < List.length rpo).
  { intros x Hx. destruct (in_rpo num rpo NUM x Hx) as [H _]. by apply lookup_lt_Some in H. }
  split; [constructor; try apply SV|].
  - intros x y p Hu H0 _ Hp. apply (sv_lag _ _ _ _ _ SV x y p Hu H0); [left|done]. apply Hall. by destruct (sv_up _ _ _ _ _ SV x y Hu).
  - lia.
  - intros x Hx. apply (sv_prefix _ _ _ _ _ SV); auto.
Qed.

Lemma solve_runs (fuel : nat) (d : list (option nat)) : solving 0 d -> total_weight d < fuel ->
  exists d', solve fuel f num rpo d = Some d' /\ solved d'.
Proof.
  revert d. induction fuel as [|fuel IH]; [lia|]. intros d SV Hw. cbn [solve].
  destruct (pass_runs [] rpo d false eq_refl SV) as (d' & c & -> & SV' & A). cbn [mbind option_bind].
  apply end_of_pass in SV' as [SV' Hp]. destruct A as [(-> & -> & Hs)|[-> Hlt]].
  - exists d. split; [done|]. by split_and!.
  - apply IH; [done|lia].
Qed.

Lemma start_solving : 0 < num_blocks f -> solving 0 (<[0 := Some 0]> (replicate (num_blocks f) None)).
Proof.
  intros H0. set (d := <[0 := Some 0]> _).
  assert (Hu : forall x y, up d x y -> x = 0 /\ y = 0).
  { intros x y. unfold up, d. destruct (decide (x = 0)) as [->|Hx].
    - rewrite list_lookup_insert_eq by (rewrite length_replicate; lia). by intros [= <-].
    - rewrite list_lookup_insert_ne, lookup_replicate by congruence. by intros []. }
  assert (He : up d 0 0) by (unfold up, d; rewrite list_lookup_insert_eq by (rewrite length_replicate; lia); done).
  constructor.
  - unfold d. by rewrite length_insert, length_replicate.
  - done.
  - intros x y [-> ->]%Hu. split_and!; [by eapply entry_in|by eapply entry_in|by exists 0|done].
  - intros x y [-> ->]%Hu. apply rtc_refl.
  - intros x y z [-> ->]%Hu Hd. destruct (Hd [0] ltac:(constructor)) as [<-|[]]. apply rtc_refl.
  - by intros x y z [-> ->]%Hu.
  - by intros x y p [-> ->]%Hu.
  - lia.
Qed.

Lemma start_weight (d : list (option nat)) : solving 0 d -> total_weight d <= num_blocks f * num_blocks f.
Proof.
  intros SV. assert (Hw : forall x, weight d x <= num_blocks f).
  { intros x. unfold weight. destruct (d !! x) as [[y|]|] eqn:E; [|done..].
    destruct (sv_up _ _ _ _ _ SV x y E) as (_ & Hy & _). apply (rpo_lt f num rpo RP NL NUM) in Hy. lia. }
  assert (Hl : List.length rpo <= num_blocks f).
  { rewrite <- (length_seq (num_blocks f) 0). apply NoDup_incl_length; [apply (rp_nodup _ _ RP)|].
    intros y Hy. apply in_seq. apply (rpo_lt f num rpo RP NL NUM) in Hy. lia. }
  transitivity (List.length rpo * num_blocks f); [|by apply Nat.mul_le_mono_r].
  unfold total_weight. clear Hl SV RP NUM. induction rpo as [|x l IH]; [done|]. cbn. specialize (Hw x). lia.
Qed.

(** ** The solution *)

Section solution.
Context (d : list (option nat)) (SD : solved d).

Lemma solution_sound (x z : nat) (l : list nat) : path f x l -> anc d x z -> In z l.
Proof.
  destruct SD as (SV & Hs & Hp). intros Hl. revert z. induction Hl as [|a b l Hl IH Hb]; intros z Hz.
  - left. symmetry. eapply anc_entry; [exact RP|exact NL|exact NUM|exact SV|exact Hz].
  - assert (Hbi : In b rpo) by (apply (rp_reachable _ _ RP); exists (b :: l); by eapply path_step).
    destruct (decide (b = 0)) as [->|H0].
    { left. symmetry. eapply anc_entry; [exact RP|exact NL|exact NUM|exact SV|exact Hz]. }
    destruct (proj1 (List.Forall_forall _ _) Hs b Hbi H0) as (y & Hy & Hn).
    destruct (anc_up _ _ _ _ Hy Hz) as [->|Hyz]; [by left|right]. apply IH.
    apply (proj1 (Hn z) Hyz); [by apply edge_sides|]. apply Hp, (rp_reachable _ _ RP). by exists l.
Qed.

(** On the blocks reached, the chains are the dominators. *)
Lemma solution (x z : nat) : reachable f x -> anc d x z <-> dominated f z x.
Proof.
  intros Hx. split; [intros Ha l Hl; by eapply solution_sound|].
  destruct SD as (SV & Hs & Hp). apply (rp_reachable _ _ RP) in Hx. destruct (Hp x Hx) as [y Hy].
  by apply (sv_keeps _ _ _ _ _ SV x y).
Qed.

Lemma dominates_loop_spec (fuel a n : nat) : reachable f n -> rank n < fuel ->
  exists r, dominates_loop fuel d a n = Some r /\ (r = true <-> anc d n a).
Proof.
  destruct SD as (SV & Hs & Hp). revert n. induction fuel as [|fuel IH]; [lia|]. intros n Hn Hf. cbn [dominates_loop].
  destruct (Nat.eqb_spec n a) as [->|Hne]; [exists true; split; [done|]; split; [intros _; apply rtc_refl|done]|].
  apply (rp_reachable _ _ RP) in Hn. destruct (Hp n Hn) as [y Hy]. rewrite Hy. cbn [mbind option_bind].
  destruct (sv_up _ _ _ _ _ SV n y Hy) as (_ & Hyi & _ & Hr).
  destruct (Nat.eqb_spec n y) as [<-|Hny].
  - exists false. split; [done|]. split; [done|]. intros Ha. destruct (decide (n = 0)) as [->|H0]; [|specialize (Hr H0); lia].
    destruct Hne. symmetry. eapply anc_entry; [exact RP|exact NL|exact NUM|exact SV|exact Ha].
  - assert (H0 : n <> 0) by (intros ->; apply Hny; symmetry; by eapply up_entry). specialize (Hr H0).
    destruct (IH y) as (r & E & Hiff); [by apply (rp_reachable _ _ RP)|lia|]. exists r. split; [done|]. rewrite Hiff.
    split; [intros Ha; by eapply rtc_l|]. intros Ha. by destruct (anc_up _ _ _ _ Hy Ha).
Qed.

(** ** Frontiers *)

Definition at_ (front : list (list nat)) (x : nat) : list nat := default [] (front !! x).

(** [front'] is [front] with [b] added to the lists of the blocks of [P]. *)
Record adds (P : nat -> Prop) (b : nat) (front front' : list (list nat)) : Prop := Adds {
  ad_len : List.length front' = List.length front;
  ad_in : forall x c, x < List.length front -> In c (at_ front' x) <-> In c (at_ front x) \/ c = b /\ P x;
  ad_nodup : forall x, List.NoDup (at_ front x) -> List.NoDup (at_ front' x);
}.

Lemma adds_none (P : nat -> Prop) (b : nat) (front : list (list nat)) : (forall x, ~ P x) -> adds P b front front.
Proof. intros H. constructor; [done| |done]. intros x c _. split; [by left|]. by intros [|[_ []%H]]. Qed.

Lemma adds_trans (P Q R : nat -> Prop) (b : nat) (f1 f2 f3 : list (list nat)) : adds P b f1 f2 -> adds Q b f2 f3 ->
  (forall x, x < List.length f1 -> R x <-> P x \/ Q x) -> adds R b f1 f3.
Proof.
  intros [] [] H. constructor; [congruence| |auto]. intros x c Hx. rewrite ad_in1, ad_in0, H by congruence. tauto.
Qed.

Lemma add_one (b r : nat) (front : list (list nat)) (fr : list nat) : front !! r = Some fr ->
  adds (fun x => x = r) b front (if existsb (Nat.eqb b) fr then front else <[r := fr ++ [b]]> front).
Proof.
  intros Hfr. assert (Har : at_ front r = fr) by (unfold at_; by rewrite Hfr). apply lookup_lt_Some in Hfr as Hlt.
  destruct (existsb (Nat.eqb b) fr) eqn:E.
  - apply existsb_exists in E as (c & Hc & <-%Nat.eqb_eq). constructor; [done| |done].
    intros x c _. split; [by left|]. intros [|[-> ->]]; [done|by rewrite Har].
  - assert (Hb : ~ In b fr).
    { intros Hin. enough (existsb (Nat.eqb b) fr = true) by congruence. apply existsb_exists. exists b. by rewrite Nat.eqb_refl. }
    assert (Hat : forall x, at_ (<[r := fr ++ [b]]> front) x = if decide (x = r) then fr ++ [b] else at_ front x).
    { intros x. unfold at_. case_decide as Ex; [subst; by rewrite list_lookup_insert_eq|by rewrite list_lookup_insert_ne by congruence]. }
    constructor.
    + apply length_insert.
    + intros x c _. rewrite Hat. case_decide as Ex; [subst x; rewrite Har, in_app_iff; cbn; intuition congruence|tauto].
    + intros x Hnd. rewrite Hat. case_decide as Ex; [|done]. subst x. rewrite Har in Hnd.
      apply (NoDup_Add (a := b) (l := fr)); [|by split]. pose proof (Add_app b fr []) as Ha. by rewrite app_nil_r in Ha.
Qed.

(** [walk] adds [b] to the blocks of the chain of the runner that are not on the chain of [stop]. *)
Lemma walk_spec (fuel b r s : nat) (front : list (list nat)) : List.length front = num_blocks f ->
  reachable f r -> rank r < fuel -> anc d r s ->
  exists front', walk fuel d (Some s) b (Some r) front = Some front' /\
    adds (fun x => anc d r x /\ ~ anc d s x) b front front'.
Proof.
  destruct SD as (SV & _ & Hp). revert r front. induction fuel as [|fuel IH]; [lia|]. intros r front Hlen Hr Hf Ha. cbn [walk].
  case_decide as E; [injection E as ->; exists front; split; [done|]; apply adds_none; intros x; tauto|].
  apply (rp_reachable _ _ RP) in Hr. destruct (rpo_lt f num rpo RP NL NUM r Hr) as [Hlt _].
  destruct (lookup_lt_is_Some_2 front r) as [fr Hfr]; [by rewrite Hlen|]. rewrite Hfr. cbn [mbind option_bind].
  destruct (Hp r Hr) as [y Hy]. rewrite Hy. cbn [mbind option_bind].
  destruct (anc_up _ _ _ _ Hy Ha) as [->|Hys]; [done|]. destruct (sv_up _ _ _ _ _ SV r y Hy) as (_ & Hyi & _ & Hrk).
  assert (H0 : r <> 0).
  { intros ->. apply E. f_equal. symmetry. eapply anc_entry; [exact RP|exact NL|exact NUM|exact SV|exact Ha]. }
  specialize (Hrk H0). case_decide as E'; [injection E' as ->; lia|].
  pose proof (add_one b r front fr Hfr) as A1.
  destruct (IH y _ ltac:(by rewrite (ad_len _ _ _ _ A1)) ltac:(by apply (rp_reachable _ _ RP)) ltac:(lia) Hys) as (front' & -> & A2).
  exists front'. split; [done|]. eapply adds_trans; [exact A1|exact A2|]. intros x _. split.
  - intros [Hrx Hsx]. destruct (anc_up _ _ _ _ Hy Hrx) as [->|]; [by left|by right].
  - intros [->|[Hyx Hsx]]; [|split; [by eapply rtc_l|done]]. split; [apply rtc_refl|]. intros Hsr.
    apply (anc_rank f num rpo NL 0 d SV) in Hsr, Hys. lia.
Qed.

(** A predecessor never reached was never processed. *)
Lemma walk_unreached (fuel b p : nat) (stop : option nat) (front : list (list nat)) : List.length front = num_blocks f ->
  p < num_blocks f -> ~ reachable f p -> stop <> Some p ->
  exists front', walk (S (S fuel)) d stop b (Some p) front = Some front' /\ adds (fun x => x = p) b front front'.
Proof.
  destruct SD as (SV & _ & _). intros Hlen Hp Hr Hstop. cbn [walk]. rewrite decide_False by congruence.
  destruct (lookup_lt_is_Some_2 front p) as [fr Hfr]; [by rewrite Hlen|]. rewrite Hfr. cbn [mbind option_bind].
  destruct (lookup_lt_is_Some_2 d p) as [dp Hdp]; [by rewrite (sv_len _ _ _ _ _ SV)|]. rewrite Hdp. cbn [mbind option_bind].
  destruct dp as [y|].
  - destruct Hr. apply (rp_reachable _ _ RP). by destruct (sv_up _ _ _ _ _ SV p y Hdp).
  - rewrite decide_False by done. eexists. split; [done|by apply add_one].
Qed.

(** [x] dominates a predecessor of [b] without being above [b]. *)
Definition joins (b x : nat) : Prop :=
  2 <= List.length (ins f b) /\ exists p, In p (ins f b) /\ reachable f p /\ anc d p x /\ forall s, up d b s -> ~ anc d s x.

Definition adds_joins (P : nat -> Prop) (b : nat) (front front' : list (list nat)) : Prop :=
  exists Q, adds Q b front front' /\ forall x, reachable f x -> Q x <-> P x.

Lemma one_pred (b p : nat) (stop : option nat) (front : list (list nat)) : List.length front = num_blocks f ->
  In p (ins f b) -> d !! b = Some stop ->
  exists front', walk (S (S (num_blocks f))) d stop b (Some p) front = Some front' /\
    adds_joins (fun x => reachable f p /\ anc d p x /\ forall s, stop = Some s -> ~ anc d s x) b front front'.
Proof.
  intros Hlen Hp Hb. destruct SD as (SV & Hs & Hall). apply (edge_sides f p b OK) in Hp as Ho. pose proof (outs_lt f p b Ho) as Hlt.
  destruct (in_dec Nat.eq_dec p rpo) as [Hpi|Hpi].
  - apply (rp_reachable _ _ RP) in Hpi as Hr. pose proof (reachable_step f p b Hr Ho) as Hbr.
    apply (rp_reachable _ _ RP) in Hbr as Hbi. destruct (Hall b Hbi) as [s Hs'].
    unfold up in Hs'. rewrite Hb in Hs'. injection Hs' as ->.
    assert (Ha : anc d p s).
    { destruct (decide (b = 0)) as [->|H0].
      - rewrite (up_entry _ _ _ _ _ SV s Hb). apply solution; [done|]. intros l Hl. clear -Hl. induction Hl; [by left|by right].
      - destruct (proj1 (List.Forall_forall _ _) Hs b Hbi H0) as (y & Hy & Hn). unfold up in Hy. rewrite Hb in Hy. injection Hy as <-.
        apply (proj1 (Hn s)); [apply rtc_refl|done|by apply Hall]. }
    destruct (walk_spec (S (S (num_blocks f))) b p s front Hlen Hr) as (front' & E & A); [|done|].
    { pose proof (rpo_lt f num rpo RP NL NUM p Hpi). lia. }
    exists front'. split; [done|]. eexists. split; [exact A|]. intros x _. split.
    + intros [H1 H2]. split_and!; [done|done|]. by intros s' [= <-].
    + intros (_ & H1 & H2). split; [done|by apply H2].
  - assert (Hr : ~ reachable f p) by (intros H; by apply (rp_reachable _ _ RP) in H).
    destruct (walk_unreached (num_blocks f) b p stop front Hlen Hlt Hr) as (front' & E & A).
    { intros ->. apply Hpi. by destruct (sv_up _ _ _ _ _ SV b p Hb) as (_ & ? & _). }
    exists front'. split; [done|]. eexists. split; [exact A|]. intros x Hx. split; [by intros ->|by intros []].
Qed.

Lemma join_frontier_spec (b : nat) (front : list (list nat)) : List.length front = num_blocks f -> b < num_blocks f ->
  exists front', join_frontier f d front b = Some front' /\ adds_joins (joins b) b front front'.
Proof.
  intros Hlen Hb. unfold join_frontier. destruct (lookup_lt_is_Some_2 (blocks f) b Hb) as [blk Hblk]. rewrite Hblk. cbn [mbind option_bind].
  rewrite <- (ins_block f b blk Hblk). unfold joins. destruct (Nat.ltb_spec (List.length (ins f b)) 2) as [Hlt|Hge].
  { exists front. split; [done|]. exists (fun _ => False). split; [apply adds_none; tauto|]. intros x _. split; [done|lia]. }
  destruct (lookup_lt_is_Some_2 d b) as [stop Hd]; [destruct SD as [SV _]; by rewrite (sv_len _ _ _ _ _ SV)|].
  rewrite Hd. cbn [mbind option_bind].
  assert (Hfold : forall l front, incl l (ins f b) -> List.length front = num_blocks f ->
    exists front', fold_opt (fun front p => walk (S (S (num_blocks f))) d stop b (Some p) front) l front = Some front' /\
      adds_joins (fun x => exists p, In p l /\ reachable f p /\ anc d p x /\ forall s, stop = Some s -> ~ anc d s x) b front front').
  { clear front Hlen. induction l as [|p l IH]; intros front Hincl Hlen.
    - exists front. split; [done|]. exists (fun _ => False). split; [apply adds_none; tauto|]. intros x _. split; [done|by intros (? & [] & _)].
    - destruct (one_pred b p stop front Hlen (Hincl p (or_introl eq_refl)) Hd) as (f1 & E1 & P1 & A1 & H1).
      cbn [fold_opt]. rewrite E1. cbn [mbind option_bind].
      destruct (IH f1 (fun q Hq => Hincl q (or_intror Hq))) as (f2 & E2 & P2 & A2 & H2); [by rewrite (ad_len _ _ _ _ A1)|].
      exists f2. split; [done|]. exists (fun x => P1 x \/ P2 x). split; [by eapply adds_trans|].
      intros x Hx. rewrite H1, H2 by done. split.
      + intros [?|(q & Hq & ?)]; [exists p; split; [by left|done]|exists q; split; [by right|done]].
      + intros (q & [<-|Hq] & ?); [by left|right; by exists q]. }
  destruct (Hfold (ins f b) front (incl_refl _) Hlen) as (front' & E & P & A & H). exists front'. split; [done|].
  exists P. split; [done|]. intros x Hx. rewrite H by done. unfold up. rewrite Hd. split.
  - intros (p & Hp & Hr & Ha & Hn). split; [done|]. exists p. split_and!; [done..|]. intros s [= ->]. by apply Hn.
  - intros (_ & p & Hp & Hr & Ha & Hn). exists p. split_and!; [done..|]. intros s ->. by apply Hn.
Qed.

Lemma frontiers_spec (l : list nat) (front : list (list nat)) : List.length front = num_blocks f -> (forall b, In b l -> b < num_blocks f) ->
  exists front', fold_opt (join_frontier f d) l front = Some front' /\ List.length front' = num_blocks f /\
    (forall x b, reachable f x -> In b (at_ front' x) <-> In b (at_ front x) \/ In b l /\ joins b x) /\
    (forall x, List.NoDup (at_ front x) -> List.NoDup (at_ front' x)).
Proof.
  revert front. induction l as [|b l IH]; intros front Hlen Hl.
  { exists front. split_and!; [done|done| |done]. intros x c _. split; [by left|by intros [|[[] _]]]. }
  destruct (join_frontier_spec b front Hlen (Hl b (or_introl eq_refl))) as (f1 & E1 & P & A & HP).
  cbn [fold_opt]. rewrite E1. cbn [mbind option_bind].
  destruct (IH f1) as (f2 & E2 & Hlen2 & Hin & Hnd); [by rewrite (ad_len _ _ _ _ A)|intros c Hc; apply Hl; by right|].
  exists f2. split_and!; [done|done| |intros x Hx; apply Hnd; by apply (ad_nodup _ _ _ _ A)].
  intros x c Hx. rewrite Hin, (ad_in _ _ _ _ A), HP by (done || by rewrite Hlen; apply (rp_reachable _ _ RP), (rpo_lt f num rpo RP NL NUM) in Hx; lia).
  cbn [In]. split.
  - intros [[?|[-> ?]]|[? ?]]; auto.
  - intros [?|[[<-|?] ?]]; auto.
Qed.
End solution.
End numbered.

(** ** [compute] *)

Definition sorted_set (l : list nat) : Prop := StronglySorted lt l.

Lemma sort_set (l : list nat) : List.NoDup l -> sorted_set (sort_by Nat.leb l).
Proof.
  intros Hnd. assert (Hs : StronglySorted (fun x y => Nat.leb x y = true) (sort_by Nat.leb l)).
  { apply sort_by_sorted; intros *; rewrite !Nat.leb_le; lia. }
  apply (Permutation_NoDup (sort_by_perm Nat.leb l)) in Hnd. unfold sorted_set. induction Hs as [|x l' Hs IH Hx]; [constructor|].
  apply NoDup_cons_iff in Hnd as [Hn Hnd]. constructor; [by apply IH|]. apply List.Forall_forall. intros y Hy.
  pose proof (proj1 (List.Forall_forall _ _) Hx y Hy) as Hle. apply Nat.leb_le in Hle.
  enough (x <> y) by lia. by intros ->.
Qed.

(** The result, and what is known of it. *)
Record computed (f : funcdata) (dom : dominators) : Prop := Computed {
  cd_len : List.length (idom dom) = num_blocks f;
  cd_chain : forall a b, reachable f b -> exists r, dominates dom a b = Some r /\ (r = true <-> dominated f a b);
  cd_idom : forall b, reachable f b -> b <> 0 -> exists s, idom dom !! b = Some (Some s) /\ strictly_dominated f s b /\
    forall a, strictly_dominated f a b -> dominated f a s;
  cd_joins : forall x b, reachable f x -> reachable f b -> In b (at_ (frontier dom) x) <->
    2 <= List.length (ins f b) /\ exists p, In p (ins f b) /\ reachable f p /\ dominated f x p /\
      if decide (b = 0) then x <> 0 else ~ strictly_dominated f x b;
  cd_one : forall p b, reachable f p -> b <> 0 -> ins f b = [p] -> strictly_dominated f p b;
  cd_sorted : forall x, sorted_set (at_ (frontier dom) x);
}.

Lemma at_map (g : list nat -> list nat) (front : list (list nat)) (x : nat) : g [] = [] -> at_ (map g front) x = g (at_ front x).
Proof. intros Hg. unfold at_. rewrite list_lookup_fmap. by destruct (front !! x). Qed.

Lemma compute_runs (f : funcdata) : edges_ok f -> 0 < num_blocks f -> exists dom, compute f = Some dom /\ computed f dom.
Proof.
  intros OK H0. unfold compute. destruct (Nat.eqb_spec (num_blocks f) 0) as [|_]; [lia|].
  destruct (postorder_spec f OK H0) as (po & -> & RP). cbn [mbind option_bind]. set (rpo := rev po) in *.
  destruct (number_spec 0 rpo (replicate (num_blocks f) 0) (rp_nodup _ _ RP)) as (num & -> & NL & NUM & _).
  { intros b Hb. rewrite length_replicate. apply reachable_lt; [done|done|]. by apply (rp_reachable _ _ RP). }
  rewrite length_replicate in NL. cbn [mbind option_bind Nat.add] in *.
  pose proof (start_solving f num rpo RP NL H0) as SV0.
  destruct (solve_runs f num rpo OK RP NL NUM (solve_fuel f) _ SV0) as (d & -> & SD).
  { pose proof (start_weight f num rpo RP NL NUM _ SV0). unfold solve_fuel. lia. }
  cbn [mbind option_bind].
  destruct (frontiers_spec f num rpo OK RP NL NUM d SD (seq 0 (num_blocks f)) (replicate (num_blocks f) [])) as (front & -> & Hfl & Hin & Hnd).
  { apply length_replicate. }
  { intros b [_ Hb]%in_seq. lia. }
  cbn [mbind option_bind]. eexists. split; [done|]. pose proof (solution f num rpo OK RP NL NUM d SD) as Hsol.
  assert (Hempty : forall x, at_ (replicate (num_blocks f) []) x = []).
  { intros x. unfold at_. destruct (replicate (num_blocks f) [] !! x) as [l|] eqn:E; [|done]. by apply lookup_replicate in E as [-> _]. }
  destruct SD as (SV & Hset & Hall) eqn:ESD. clear ESD.
  assert (Hsd : forall b s a, reachable f b -> b <> 0 -> up d b s -> anc d s a <-> strictly_dominated f a b).
  { intros b s a Hb Hb0 Hs. unfold strictly_dominated. rewrite <- (Hsol b a Hb). split.
    - intros Ha. split; [by eapply rtc_l|]. intros ->. apply (anc_rank f num rpo NL 0 d SV) in Ha.
      destruct (sv_up _ _ _ _ _ SV b s Hs) as (_ & _ & _ & Hr). specialize (Hr Hb0). lia.
    - intros [Ha Hne]. by destruct (anc_up _ _ _ _ Hs Ha). }
  constructor; cbn [idom frontier].
  - apply SV.
  - intros a b Hb. unfold dominates. cbn [idom].
    destruct (dominates_loop_spec f num rpo RP NL NUM d (conj SV (conj Hset Hall)) (S (List.length d)) a b Hb) as (r & E & Hr).
    { apply (rp_reachable _ _ RP), (rpo_lt f num rpo RP NL NUM) in Hb. rewrite (sv_len _ _ _ _ _ SV). lia. }
    exists r. split; [done|]. by rewrite Hr, Hsol.
  - intros b Hb Hb0. destruct (Hall b (proj2 (rp_reachable _ _ RP b) Hb)) as [s Hs]. exists s. split; [done|].
    destruct (sv_up _ _ _ _ _ SV b s Hs) as (_ & Hsi & _ & _). split; [by apply (Hsd b s s Hb Hb0 Hs), rtc_refl|].
    intros a Ha. apply Hsol; [by apply (rp_reachable _ _ RP)|]. by apply (Hsd b s a Hb Hb0 Hs).
  - intros x b Hx Hb. rewrite at_map, sort_by_in, Hin, Hempty by done. unfold joins.
    destruct (Hall b (proj2 (rp_reachable _ _ RP b) Hb)) as [s Hs].
    assert (Hbl : In b (seq 0 (num_blocks f))) by (apply in_seq; pose proof (reachable_lt f b OK H0 Hb); lia).
    assert (Hstop : (forall s, up d b s -> ~ anc d s x) <-> if decide (b = 0) then x <> 0 else ~ strictly_dominated f x b).
    { case_decide as E.
      - subst b. rewrite (up_entry f num rpo 0 d SV s Hs) in Hs. split.
        + intros H ->. by apply (H 0 Hs), rtc_refl.
        + intros Hx0 s' Hs' Ha. rewrite (up_entry f num rpo 0 d SV s' Hs') in Ha. by apply (anc_entry f num rpo RP NL NUM 0 d SV) in Ha.
      - rewrite <- (Hsd b s x Hb E Hs). split; [by intros H; apply H|]. intros H s' Hs'. by rewrite (up_fun _ _ _ _ Hs' Hs). }
    split.
    + intros [[]|(_ & Hl & p & Hp & Hr & Ha & Hn)]. split; [done|]. exists p. split_and!; [done|done|by apply Hsol|by apply Hstop].
    + intros (Hl & p & Hp & Hr & Ha & Hn). right. split; [done|]. split; [done|]. exists p. split_and!; [done|done|by apply Hsol|by apply Hstop].
  - intros p b Hp Hb0 Hins. assert (Ho : In b (outs f p)) by (apply (edge_sides f p b OK); rewrite Hins; by left).
    pose proof (reachable_step f p b Hp Ho) as Hb. apply (rp_reachable _ _ RP) in Hb as Hbi, Hp as Hpi.
    destruct (proj1 (List.Forall_forall _ _) Hset b Hbi Hb0) as (s & Hs & Hn). apply (Hsd b s p Hb Hb0 Hs), Hn.
    rewrite Hins. intros q [<-|[]] _. apply rtc_refl.
  - intros x. rewrite at_map by done. apply sort_set, Hnd. rewrite Hempty. constructor.
Qed.

(** A loop around a diamond: 0 -> 1 -> {2, 3} -> 4 -> {1, 5}. *)
Definition diamond_loop : funcdata :=
  edited_by sample_start
    (repeat ENewBlock 6 ++ [EAddEdge 0 1; EAddEdge 1 2; EAddEdge 1 3; EAddEdge 2 4; EAddEdge 3 4; EAddEdge 4 1; EAddEdge 4 5]).

Lemma diamond_loop_wf : wf diamond_loop.
Proof. apply edited_by_wf; [exact sample_start_wf|vm_compute; reflexivity]. Qed.

Example diamond_loop_result : compute diamond_loop =
  Some (Dominators [Some 0; Some 0; Some 1; Some 1; Some 1; Some 4] [[]; [1]; [4]; [4]; [1]; []]).
Proof. vm_compute. reflexivity. Qed.

(** [C1] [compute] ends without panic on every graph whose edges agree on both sides, and walking its
    [idom] chains from a reachable block answers exactly whether a block is on every walk from the
    entry to it; [idom] is the closest strict dominator. *)
Theorem compute_dominators (f : funcdata) : edges_ok f -> 0 < num_blocks f ->
  exists dom, compute f = Some dom /\ List.length (idom dom) = num_blocks f /\
    (forall a b, reachable f b -> exists r, dominates dom a b = Some r /\ (r = true <-> dominated f a b)) /\
    (forall b, reachable f b -> b <> 0 -> exists s, idom dom !! b = Some (Some s) /\ strictly_dominated f s b /\
      forall a, strictly_dominated f a b -> dominated f a s).
Proof. intros OK H0. destruct (compute_runs f OK H0) as (dom & E & []). exists dom. by split_and!. Qed.

Lemma compute_dominators_witness : exists dom, compute diamond_loop = Some dom /\ idom dom !! 4 = Some (Some 1) /\
  (forall l, path diamond_loop 5 l -> In 4 l) /\ ~ dominated diamond_loop 2 4.
Proof.
  destruct (compute_dominators diamond_loop (wf_edges _ diamond_loop_wf) ltac:(vm_compute; lia)) as (dom & E & _ & Hd & _).
  exists dom. assert (E' := E). vm_compute in E'. injection E' as Ed.
  assert (H1 : path diamond_loop 4 [4; 2; 1; 0]).
  { apply (path_step _ 2); [apply (path_step _ 1); [apply (path_step _ 0); [constructor|]|]|]; vm_compute; auto. }
  assert (H2 : path diamond_loop 5 [5; 4; 2; 1; 0]) by (apply (path_step _ 4); [exact H1|vm_compute; auto]).
  split; [done|]. split; [by rewrite <- Ed|]. split.
  - destruct (Hd 4 5 (ex_intro _ _ H2)) as (r & Er & Hr). rewrite <- Ed in Er. vm_compute in Er. injection Er as <-. by apply Hr.
  - destruct (Hd 2 4 (ex_intro _ _ H1)) as (r & Er & Hr). rewrite <- Ed in Er. vm_compute in Er. injection Er as <-.
    intros H. apply Hr in H. discriminate H.
Defined.

(** [C13] With nothing leading back to the entry, the frontier of a reachable block [x] lists, sorted and
    once, exactly the reachable joins [b]: [x] dominates a predecessor of [b], and not [b] strictly. *)
Theorem compute_frontiers (f : funcdata) : edges_ok f -> 0 < num_blocks f -> ins f 0 = [] ->
  exists dom, compute f = Some dom /\ forall x, reachable f x -> sorted_set (at_ (frontier dom) x) /\
    forall b, reachable f b -> In b (at_ (frontier dom) x) <->
      exists p, In p (ins f b) /\ reachable f p /\ dominated f x p /\ ~ strictly_dominated f x b.
Proof.
  intros OK H0 Hentry. destruct (compute_runs f OK H0) as (dom & E & C). exists dom. split; [done|]. intros x Hx.
  split; [apply C|]. intros b Hb. rewrite (cd_joins _ _ C x b Hx Hb). split.
  - intros (_ & p & Hp & Hr & Hd & Hn). exists p. split_and!; [done..|]. case_decide; [|done]. subst b. by rewrite Hentry in Hp.
  - intros (p & Hp & Hr & Hd & Hn). destruct (decide (b = 0)) as [->|Hb0]; [by rewrite Hentry in Hp|].
    split; [|exists p; by split_and!]. destruct (ins f b) as [|q [|q' l]] eqn:Ei; [done| |cbn; lia].
    destruct Hp as [->|[]]. destruct (cd_one _ _ C p b Hr Hb0 Ei) as [Hpd Hpb]. destruct Hn. split.
    + intros l Hl. destruct Hl as [|a b l Hl Ho]; [done|]. right. apply (edge_sides f a b OK) in Ho. rewrite Ei in Ho.
      destruct Ho as [<-|[]]. by apply Hd.
    + intros ->. by apply Hpb, (dominated_antisym f p b).
Qed.

Lemma compute_frontiers_witness : exists dom, compute diamond_loop = Some dom /\
  (exists p, In p (ins diamond_loop 4) /\ dominated diamond_loop 2 p) /\ ~ strictly_dominated diamond_loop 2 4.
Proof.
  destruct (compute_frontiers diamond_loop (wf_edges _ diamond_loop_wf) ltac:(vm_compute; lia) eq_refl) as (dom & E & H).
  exists dom. split; [done|]. vm_compute in E. injection E as <-.
  assert (H2 : path diamond_loop 2 [2; 1; 0]).
  { apply (path_step _ 1); [apply (path_step _ 0); [constructor|]|]; vm_compute; auto. }
  assert (H4 : path diamond_loop 4 [4; 2; 1; 0]) by (apply (path_step _ 2); [exact H2|vm_compute; auto]).
  assert (Hin : In 4 [4]) by by left.
  destruct (proj1 (proj2 (H 2 (ex_intro _ _ H2)) 4 (ex_intro _ _ H4)) Hin) as (p & Hp & _ & Hd & Hn). split; [by exists p|done].
Defined.
