(* ===== verification/Cfg.v ===== *)
(** [decompile/cfg.rs]: the operations of a function, in creation order, cut into basic blocks, and
    the edges between them.  [switch_targets], the recovered jump tables by the address of their
    branch, is an argument.  [None] is a panic. *)
From Stdlib Require Import ZArith Lia Bool List.
From stdpp Require Import base decidable option list numbers.
From S2P Require Import Prelude Space OpCode Funcdata.
Local Open Scope Z_scope.

(** ** Ordered maps and sets *)

(** A [BTreeMap<u64, usize>], in key order *)
Definition addr_map : Type := list (Z * nat).

(** [entry(k).or_insert(v)] *)
Fixpoint or_insert (k : Z) (v : nat) (m : addr_map) : addr_map :=
  match m with
  | [] => [(k, v)]
  | (k', v') :: m' => if k <? k' then (k, v) :: m else if k =? k' then m else (k', v') :: or_insert k v m'
  end.

(** [range(k..).next()] *)
Definition at_or_after (k : Z) (m : addr_map) : option nat := snd <$> List.find (fun e => k <=? fst e) m.
(** [get(&k)] *)
Definition at_key {V : Type} (k : Z) (m : list (Z * V)) : option V := snd <$> List.find (fun e => k =? fst e) m.

(** [BTreeSet<usize>::insert] *)
Fixpoint set_insert (x : nat) (s : list nat) : list nat :=
  match s with
  | [] => [x]
  | y :: s' => if Nat.ltb x y then x :: s else if Nat.eqb x y then s else y :: set_insert x s'
  end.

(** ** [branch_target] *)

Definition op_pc (f : funcdata) (o : nat) : option Z := (fun x => a_offset (Funcdata.pc (seqnum x))) <$> ops f !! o.

Definition addr_index (f : funcdata) : addr_map :=
  fold_left (fun m e => or_insert (a_offset (Funcdata.pc (seqnum (snd e)))) (fst e) m) (imap (fun i o => (i, o)) (ops f)) [].

(** The displacement of a relative branch, sign-extended from the width of its operand *)
Definition relative (vn : varnode) : Z :=
  let bits := w32 (size vn * 8) in
  let raw := a_offset (loc vn) in
  if (bits =? 0) || (64 <=? bits) then i64 raw
  else let sign := Z.shiftl 1 (bits - 1) in i64 (u64_sub (Z.lxor (Z.land raw (Z.shiftl 1 bits - 1)) sign) sign).

Definition branch_target (f : funcdata) (index : addr_map) (i : nat) : option (option nat) :=
  o ← ops f !! i;
  match inrefs o !! 0%nat with
  | None => Some None
  | Some in0 =>
      vn ← varnodes f !! in0;
      if is_constant vn then
        let t := i64 (Z.of_nat i + relative vn) in
        Some (if 0 <=? t then Some (Z.to_nat t) else None)
      else Some (at_or_after (a_offset (loc vn)) index)
  end.

(** ** Leaders *)

Definition op_leaders (f : funcdata) (index : addr_map) (leaders : list nat) (i : nat) : option (list nat) :=
  oc ← op_code f i;
  leaders ←
    (if is_branch oc then
       target ← branch_target f index i;
       match target with
       | Some t => Some (if Nat.ltb t (List.length (ops f)) then set_insert t leaders else leaders)
       | None => Some leaders
       end
     else Some leaders);
  Some (if terminates_block oc && Nat.ltb (S i) (List.length (ops f)) then set_insert (S i) leaders else leaders).

Definition switch_leaders (index : addr_map) (switch_targets : list (Z * list Z)) (leaders : list nat) : list nat :=
  fold_left (fun leaders t => match at_key t index with Some idx => set_insert idx leaders | None => leaders end)
    (concat (map snd switch_targets)) leaders.

Definition leaders (f : funcdata) (index : addr_map) (switch_targets : list (Z * list Z)) : option (list nat) :=
  l ← fold_opt (op_leaders f index) (seq 0 (List.length (ops f))) (set_insert 0 []);
  Some (switch_leaders index switch_targets l).

(** ** Cutting *)

(** The runs [leader_vec[bi]..leader_vec[bi + 1]] *)
Fixpoint cut (n : nat) (leader_vec : list nat) : list (nat * nat) :=
  match leader_vec with
  | [] => []
  | start :: rest => (start, default n (rest !! 0%nat)) :: cut n rest
  end.

(** [block_of[i]] *)
Definition block_of (runs : list (nat * nat)) (i : nat) : option nat :=
  position (fun r => Nat.leb (fst r) i && Nat.ltb i (snd r)) runs.

Definition run_ops (f : funcdata) (r : nat * nat) : option (list nat) :=
  fold_opt (fun l i => o ← ops f !! i; Some (if is_dead o then l else l ++ [i])) (seq (fst r) (snd r - fst r)) [].

Definition block_at (runs : list (nat * nat)) (t : option nat) : option (list nat) :=
  match t with Some t => b ← block_of runs t; Some [b] | None => Some [] end.

Definition fallthrough (f : funcdata) (index : addr_map) (runs : list (nat * nat)) (last_idx : nat) : option (list nat) :=
  last_addr ← op_pc f last_idx;
  let by_address := block_at runs (at_or_after (u64_add last_addr 1) index) in
  if Nat.ltb (S last_idx) (List.length (ops f)) then
    next_addr ← op_pc f (S last_idx);
    if next_addr =? last_addr then block_at runs (Some (S last_idx)) else by_address
  else by_address.

Definition switch_outs (index : addr_map) (runs : list (nat * nat)) (targets : list Z) : option (list nat) :=
  fold_opt (fun outs t =>
    match at_key t index with
    | Some idx => b ← block_of runs idx; Some (if existsb (Nat.eqb b) outs then outs else outs ++ [b])
    | None => Some outs
    end) targets [].

(** The successors of a block, by its last operation *)
Definition block_outs (f : funcdata) (index : addr_map) (switch_targets : list (Z * list Z)) (runs : list (nat * nat))
    (bl : list nat) : option (list nat) :=
  last_idx ← bl !! Nat.pred (List.length bl);
  oc ← op_code f last_idx;
  ft ← fallthrough f index runs last_idx;
  match oc with
  | Return => Some []
  | Branchind =>
      pc ← op_pc f last_idx;
      match at_key pc switch_targets with Some targets => switch_outs index runs targets | None => Some [] end
  | Branch => t ← branch_target f index last_idx; block_at runs t
  | Cbranch =>
      t ← branch_target f index last_idx;
      taken ← block_at runs t;
      Some (ft ++ taken)
  | _ => Some ft
  end.

(** ** Blocks reached from the entry *)

Definition first_pc (f : funcdata) (b : block_basic) : option Z := bops b !! 0%nat ≫= op_pc f.

Definition entry_block (f : funcdata) (bs : list block_basic) : nat :=
  default 0%nat (position (fun b => bool_decide (first_pc f b = Some (a_offset (entry f)))) bs).

(** One edge: its block, when new, goes on the stack. *)
Definition mark (st : list bool * list nat) (o : nat) : option (list bool * list nat) :=
  let '(reached, stack) := st in
  seen ← reached !! o;
  Some (if seen : bool then (reached, stack) else (<[o := true]> reached, o :: stack)).

Fixpoint trace (fuel : nat) (bs : list block_basic) (reached : list bool) (stack : list nat) : option (list bool) :=
  match fuel with
  | O => None
  | S fuel =>
      match stack with
      | [] => Some reached
      | b :: stack =>
          blk ← bs !! b;
          '(reached, stack) ← fold_opt mark (out_edges blk) (reached, stack);
          trace fuel bs reached stack
      end
  end.

(** A block is on the stack once. *)
Definition reached_from (bs : list block_basic) (e : nat) : option (list bool) :=
  if Nat.ltb e (List.length bs) then trace (S (S (List.length bs))) bs (<[e := true]> (replicate (List.length bs) false)) [e] else None.

(** The entry, then the other blocks reached by the address of their first operation *)
Definition block_order (f : funcdata) (bs : list block_basic) (reached : list bool) (e : nat) : list nat :=
  let rest := List.filter (fun b => bool_decide (reached !! b = Some true) && negb (Nat.eqb b e)) (seq 0 (List.length bs)) in
  let key b := default u64_max (bs !! b ≫= first_pc f) in
  e :: sort_by (fun a b => key a <=? key b) rest.

Definition renumber (order : list nat) (reached : list bool) (blk : block_basic) : option block_basic :=
  outs ← mapM (fun o => position_of o order) (List.filter (fun o => bool_decide (reached !! o = Some true)) (out_edges blk));
  Some (BlockBasic (bops blk) (in_edges blk) outs).

Definition push_in (from : nat) (bs : list block_basic) (to : nat) : option (list block_basic) :=
  blk ← bs !! to;
  Some (<[to := set_ins (in_edges blk ++ [from]) blk]> bs).

(** [in_edges] in the order the predecessors were created *)
Definition connect (order : list nat) (bs : list block_basic) : option (list block_basic) :=
  let creation_seq := sort_by (fun a b => Nat.leb (default 0%nat (order !! a)) (default 0%nat (order !! b))) (seq 0 (List.length bs)) in
  fold_opt (fun bs bi => blk ← bs !! bi; fold_opt (push_in bi) (out_edges blk) bs) creation_seq bs.

(** The entry has no incoming edge: when it has, an empty block goes in front. *)
Definition front_block (bs : list block_basic) : list block_basic :=
  match bs with
  | first :: _ =>
      if Nat.eqb (List.length (in_edges first)) 0 then bs
      else
        match map (fun b => BlockBasic (bops b) (map S (in_edges b)) (map S (out_edges b))) bs with
        | first :: rest => BlockBasic [] [] [1%nat] :: set_ins (in_edges first ++ [0%nat]) first :: rest
        | [] => bs
        end
  | [] => bs
  end.

Definition set_parents (f : funcdata) (bs : list block_basic) : option funcdata :=
  fold_opt (fun f '(bi, blk) => fold_opt (fun f o => op_mut f o (set_parent (Some bi))) (bops blk) f)
    (imap (fun i b => (i, b)) bs) f.

(** The blocks as cut, before any is dropped *)
Definition cut_blocks (f : funcdata) (switch_targets : list (Z * list Z)) : option (list block_basic) :=
  let index := addr_index f in
  leader_vec ← leaders f index switch_targets;
  let runs := cut (List.length (ops f)) leader_vec in
  bodies ← mapM (run_ops f) runs;
  mapM (fun bl => outs ← block_outs f index switch_targets runs bl; Some (BlockBasic bl [] outs)) bodies.

Definition build_cfg (f : funcdata) (switch_targets : list (Z * list Z)) : option funcdata :=
  if Nat.eqb (List.length (ops f)) 0 then Some f
  else
    bs ← cut_blocks f switch_targets;
    let e := entry_block f bs in
    reached ← reached_from bs e;
    let unreached := List.filter (fun b => negb (bool_decide (reached !! b = Some true))) (seq 0 (List.length bs)) in
    let to_destroy := concat (map (fun b => default [] (bops <$> bs !! b)) unreached) in
    f ← fold_opt op_destroy to_destroy f;
    let order := block_order f bs reached e in
    pruned ← mapM (fun b => blk ← bs !! b; renumber order reached blk) order;
    connected ← connect order pruned;
    let bs := front_block connected in
    f ← set_parents f bs;
    Some (set_blocks f bs).
