(* ===== verification/CfgFacts.v ===== *)
(** Leaders and runs: the runs between leaders cover the operations in order, every run starts at a
    leader and ends before the next, and a successor of an operation lies in some run. *)
From Stdlib Require Import ZArith Lia Bool List Sorted Permutation.
From stdpp Require Import base decidable option list relations tactics numbers.
From S2P Require Import Prelude Space OpCode Funcdata FuncdataLinks FuncdataEdits FuncdataBlocks FuncdataRemove FuncdataTheorems Cfg.
Local Open Scope nat_scope.

#[local] Hint Resolve incl_refl : core.

Definition num_ops (f : funcdata) : nat := List.length (ops f).

(** ** Ordered maps and sets *)

Lemma set_insert_in (x y : nat) (s : list nat) : In y (set_insert x s) <-> y = x \/ In y s.
Proof.
  induction s as [|z s IH]; cbn [set_insert]; [split; (intros [->|[]]; by left)|].
  destruct (Nat.ltb_spec x z); [split; (intros [->|H']; [by left|by right])|].
  destruct (Nat.eqb_spec x z) as [->|]; [split; [by right|intros [->|H']; [by left|done]]|]. cbn [In]. rewrite IH. tauto.
Qed.

Lemma set_insert_sorted (x : nat) (s : list nat) : StronglySorted lt s -> StronglySorted lt (set_insert x s).
Proof.
  induction 1 as [|z s Hs IH Hz]; cbn [set_insert]; [repeat constructor|]. destruct (Nat.ltb_spec x z) as [Hlt|Hge].
  - constructor; [by constructor|]. constructor; [done|]. revert Hz. apply List.Forall_impl. lia.
  - destruct (Nat.eqb_spec x z) as [->|Hne]; [by constructor|]. constructor; [done|].
    apply List.Forall_forall. intros y [->|Hy]%set_insert_in; [lia|]. by apply (proj1 (List.Forall_forall _ _) Hz).
Qed.

Lemma or_insert_in (k : Z) (v : nat) (m : addr_map) (e : Z * nat) : In e (or_insert k v m) -> e = (k, v) \/ In e m.
Proof.
  induction m as [|[k' v'] m IH]; cbn [or_insert]; [intros [<-|[]]; by left|].
  destruct (k <? k')%Z; [intros [<-|H]; [by left|by right]|].
  destruct (k =? k')%Z; [by right|]. cbn [In]. intros [?|H]; [tauto|]. apply IH in H. tauto.
Qed.

(** Every entry of the index is an operation at its address. *)
Definition indexed (f : funcdata) (index : addr_map) : Prop :=
  forall k v, In (k, v) index -> v < num_ops f /\ op_pc f v = Some k.

Lemma addr_index_indexed (f : funcdata) : indexed f (addr_index f).
Proof.
  unfold addr_index.
  assert (H : forall l m, indexed f m -> (forall i o, In (i, o) l -> ops f !! i = Some o) ->
    indexed f (fold_left (fun m e => or_insert (a_offset (Funcdata.pc (seqnum (snd e)))) (fst e) m) l m)).
  { induction l as [|[i o] l IH]; [done|]. intros m Hm Hl. cbn [fold_left]. apply IH; [|intros; apply Hl; by right].
    intros k v Hin. apply or_insert_in in Hin as [[= -> ->]|Hin]; [|by apply Hm]. pose proof (Hl i o (or_introl eq_refl)) as Ho.
    split; [by eapply lookup_lt_Some|]. unfold op_pc. cbn [fst snd]. by rewrite Ho. }
  apply H; [by intros k v []|]. intros i o Hin. apply list_elem_of_In, list_elem_of_lookup in Hin as [j Hj].
  rewrite list_lookup_imap in Hj. destruct (ops f !! j) eqn:E; [|done]. by injection Hj as <- <-.
Qed.

Lemma at_or_after_lt (f : funcdata) (index : addr_map) (k : Z) (t : nat) : indexed f index -> at_or_after k index = Some t -> t < num_ops f.
Proof.
  unfold at_or_after. intros Hi E. destruct (List.find _ index) as [[k' v]|] eqn:Ef; [|done]. injection E as <-.
  apply find_some in Ef as [Ef _]. by eapply Hi.
Qed.

Lemma at_key_lt (f : funcdata) (index : addr_map) (k : Z) (t : nat) : indexed f index -> at_key k index = Some t ->
  t < num_ops f /\ op_pc f t = Some k.
Proof.
  unfold at_key. intros Hi E. destruct (List.find _ index) as [[k' v]|] eqn:Ef; [|done]. injection E as <-.
  apply find_some in Ef as [Ef Ek]. cbn in Ek. apply Z.eqb_eq in Ek as ->. by apply Hi.
Qed.

(** ** Leaders *)

Record leads (f : funcdata) (l : list nat) : Prop := Leads {
  ld_sorted : StronglySorted lt l;
  ld_lt : forall x, In x l -> x < num_ops f;
  ld_zero : In 0 l;
}.

Lemma leads_insert (f : funcdata) (l : list nat) (x : nat) : leads f l -> x < num_ops f -> leads f (set_insert x l).
Proof.
  intros [] Hx. constructor; [by apply set_insert_sorted| |apply set_insert_in; by right].
  intros y [->|Hy]%set_insert_in; auto.
Qed.

(** What [op_leaders] demands of an operation *)
Definition led (f : funcdata) (index : addr_map) (l : list nat) (i : nat) : Prop := forall oc, op_code f i = Some oc ->
  (terminates_block oc = true -> S i < num_ops f -> In (S i) l) /\
  (is_branch oc = true -> forall t, branch_target f index i = Some (Some t) -> t < num_ops f -> In t l).

Lemma branch_target_runs (f : funcdata) (index : addr_map) (i : nat) : graph_ok f -> i < num_ops f -> is_Some (branch_target f index i).
Proof.
  intros G Hi. unfold branch_target. destruct (lookup_lt_is_Some_2 (ops f) i Hi) as [o Ho]. rewrite Ho. cbn [mbind option_bind].
  destruct (inrefs o !! 0) as [v|] eqn:E; [|done]. assert (Hv : v < List.length (varnodes f)).
  { pose proof (graph_in_arena f i G) as Ha. rewrite (inputs_at _ _ _ Ho) in Ha. apply (proj1 (List.Forall_forall _ _) Ha).
    eapply list_elem_of_In, list_elem_of_lookup_2, E. }
  destruct (lookup_lt_is_Some_2 (varnodes f) v Hv) as [x Hx]. rewrite Hx. cbn [mbind option_bind]. by destruct (is_constant x).
Qed.

Lemma op_leaders_runs (f : funcdata) (index : addr_map) (l : list nat) (i : nat) : graph_ok f -> i < num_ops f -> leads f l ->
  exists l', op_leaders f index l i = Some l' /\ leads f l' /\ incl l l' /\ led f index l' i.
Proof.
  intros G Hi L. unfold op_leaders. destruct (lookup_lt_is_Some_2 (ops f) i Hi) as [o Ho].
  assert (Hc : op_code f i = Some (opc o)) by (unfold op_code; by rewrite Ho). rewrite Hc. cbn [mbind option_bind].
  destruct (branch_target_runs f index i G Hi) as [t Ht].
  assert (H1 : exists l1, (if is_branch (opc o) then target ← branch_target f index i;
       match target with
       | Some t => Some (if Nat.ltb t (List.length (ops f)) then set_insert t l else l)
       | None => Some l
       end else Some l) = Some l1 /\ leads f l1 /\ incl l l1 /\
       (is_branch (opc o) = true -> forall t, branch_target f index i = Some (Some t) -> t < num_ops f -> In t l1)).
  { rewrite Ht. cbn [mbind option_bind]. destruct (is_branch (opc o)); [|exists l; by split_and!].
    destruct t as [t|]; [|by exists l; split_and!].
    destruct (Nat.ltb_spec t (List.length (ops f))) as [Hlt|Hge].
    - exists (set_insert t l). split_and!; [done|by apply leads_insert|intros x Hx; apply set_insert_in; by right|].
      intros _ t' [= <-] _. apply set_insert_in. by left.
    - exists l. split_and!; [done|done|done|]. intros _ t' [= <-] Hlt. unfold num_ops in Hlt. lia. }
  destruct H1 as (l1 & -> & L1 & I1 & B1). cbn [mbind option_bind]. fold (num_ops f).
  destruct (terminates_block (opc o)) eqn:Et, (Nat.ltb_spec (S i) (num_ops f)) as [Hlt|Hge]; cbn [andb].
  - exists (set_insert (S i) l1). split_and!; [done|by apply leads_insert| |].
    + intros x Hx. apply set_insert_in. right. by apply I1.
    + intros oc [= <-]%(eq_trans (eq_sym Hc)). split; [intros _ _; apply set_insert_in; by left|].
      intros Hb t' Ht' Hl. apply set_insert_in. right. by apply B1.
  - exists l1. split_and!; [done|done|done|]. intros oc [= <-]%(eq_trans (eq_sym Hc)). split; [lia|done].
  - exists l1. split_and!; [done|done|done|]. intros oc [= <-]%(eq_trans (eq_sym Hc)). split; [congruence|done].
  - exists l1. split_and!; [done|done|done|]. intros oc [= <-]%(eq_trans (eq_sym Hc)). split; [congruence|done].
Qed.

Lemma led_incl (f : funcdata) (index : addr_map) (l l' : list nat) (i : nat) : incl l l' -> led f index l i -> led f index l' i.
Proof. intros Hi H oc Hoc. destruct (H oc Hoc) as [H1 H2]. split; intros; apply Hi; eauto. Qed.

Lemma leaders_runs (f : funcdata) (st : list (Z * list Z)) : graph_ok f -> 0 < num_ops f ->
  exists l, leaders f (addr_index f) st = Some l /\ leads f l /\ forall i, i < num_ops f -> led f (addr_index f) l i.
Proof.
  intros G H0. unfold leaders. set (index := addr_index f).
  assert (H : forall ids l, (forall i, In i ids -> i < num_ops f) -> leads f l -> exists l', fold_opt (op_leaders f index) ids l = Some l' /\
    leads f l' /\ incl l l' /\ forall i, In i ids -> led f index l' i).
  { induction ids as [|i ids IH]; intros l Hlt L; [exists l; by split_and!|].
    destruct (op_leaders_runs f index l i G (Hlt i (or_introl eq_refl)) L) as (l1 & E1 & L1 & I1 & B1).
    destruct (IH l1 (fun j Hj => Hlt j (or_intror Hj)) L1) as (l2 & E2 & L2 & I2 & B2).
    exists l2. cbn [fold_opt]. rewrite E1. cbn [mbind option_bind]. split_and!; [done|done|by eapply incl_tran|].
    intros j [<-|Hj]; [by eapply led_incl|by apply B2]. }
  destruct (H (seq 0 (List.length (ops f))) (set_insert 0 [])) as (l & -> & L & _ & B).
  { intros i Hi%in_seq. unfold num_ops. lia. }
  { constructor; [repeat constructor|by intros x [<-|[]]|by left]. }
  cbn [mbind option_bind]. clear H. eexists. split; [done|]. unfold switch_leaders.
  assert (H : forall ts l, leads f l -> (forall i, i < num_ops f -> led f index l i) ->
    let l' := fold_left (fun leaders t => match at_key t index with Some idx => set_insert idx leaders | None => leaders end) ts l in
    leads f l' /\ forall i, i < num_ops f -> led f index l' i).
  { induction ts as [|t ts IH]; intros l0 L0 B0; [done|]. cbn [fold_left]. destruct (at_key t index) as [idx|] eqn:E; [|by apply IH].
    apply IH.
    - apply leads_insert; [done|]. apply (at_key_lt f index t idx); [apply addr_index_indexed|done].
    - intros i Hi. eapply led_incl; [|by apply B0]. intros x Hx. apply set_insert_in. by right. }
  apply H; [done|]. intros i Hi. apply B, in_seq. unfold num_ops in Hi. lia.
Qed.

(** ** Runs *)

(** [runs_from lo n rs]: the runs follow each other from [lo] up to [n], none empty. *)
Fixpoint runs_from (lo n : nat) (rs : list (nat * nat)) : Prop :=
  match rs with
  | [] => lo = n
  | (a, b) :: rs => a = lo /\ a < b /\ runs_from b n rs
  end.

Lemma cut_runs (n x : nat) (l : list nat) : StronglySorted lt (x :: l) -> (forall y, In y (x :: l) -> y < n) -> runs_from x n (cut n (x :: l)).
Proof.
  revert x. induction l as [|y l IH]; intros x Hs Hlt.
  - cbn. split_and!; [done|apply Hlt; by left|done].
  - apply StronglySorted_inv in Hs as [Hs Hx]. inversion Hx as [|? ? Hxy _]; subst.
    split; [done|]. split; [done|]. apply IH; [done|]. intros z Hz. apply Hlt. by right.
Qed.

Lemma cut_starts (n : nat) (l : list nat) (k : nat) : fst <$> cut n l !! k = l !! k.
Proof. revert k. induction l as [|x l IH]; [done|]. intros [|k]; [done|apply IH]. Qed.

Lemma runs_from_bounds (lo n : nat) (rs : list (nat * nat)) (k a b : nat) : runs_from lo n rs -> rs !! k = Some (a, b) -> lo <= a /\ a < b /\ b <= n.
Proof.
  revert lo k. induction rs as [|[a' b'] rs IH]; intros lo k; [done|]. intros (-> & Hlt & Hr) Hk.
  assert (Hle : forall lo rs, runs_from lo n rs -> lo <= n).
  { clear. intros lo rs. revert lo. induction rs as [|[a b] rs IH]; intros lo; [by intros ->|]. intros (-> & ? & H). apply IH in H. lia. }
  destruct k as [|k]; cbn in Hk.
  - injection Hk as <- <-. apply Hle in Hr. lia.
  - destruct (IH b' k Hr Hk) as (? & ? & ?). lia.
Qed.

Lemma block_of_spec (lo n : nat) (rs : list (nat * nat)) (i : nat) : runs_from lo n rs -> lo <= i < n ->
  exists k a b, block_of rs i = Some k /\ rs !! k = Some (a, b) /\ a <= i < b.
Proof.
  unfold block_of. revert lo. induction rs as [|[a b] rs IH]; intros lo; [cbn; lia|]. intros (-> & Hlt & Hr) Hi. cbn [position fst snd].
  destruct (Nat.leb_spec lo i); [|lia]. destruct (Nat.ltb_spec i b) as [Hb|Hb]; cbn [andb].
  - exists 0, lo, b. by split_and!.
  - destruct (IH b Hr ltac:(lia)) as (k & a' & b' & E & Hk & Hab). exists (S k), a', b'. by rewrite E.
Qed.

(** The runs do not overlap. *)
Lemma runs_disjoint (lo n : nat) (rs : list (nat * nat)) (j k a b a' b' i : nat) : runs_from lo n rs ->
  rs !! j = Some (a, b) -> rs !! k = Some (a', b') -> a <= i < b -> a' <= i < b' -> j = k.
Proof.
  revert lo j k. induction rs as [|[x y] rs IH]; intros lo j k; [done|]. intros (-> & Hlt & Hr) Hj Hk H1 H2.
  destruct j as [|j], k as [|k]; cbn in Hj, Hk; [done| | |f_equal; by eapply IH].
  - injection Hj as <- <-. pose proof (runs_from_bounds _ _ _ _ _ _ Hr Hk). lia.
  - injection Hk as <- <-. pose proof (runs_from_bounds _ _ _ _ _ _ Hr Hj). lia.
Qed.

(** ** The blocks as cut *)

(** The operation executed after [i] when [i] does not branch: the next of its instruction, else the
    first of the next instruction. *)
Definition next_op (f : funcdata) (i : nat) : option nat :=
  p ← op_pc f i;
  if decide (op_pc f (S i) = Some p) then Some (S i) else at_or_after (u64_add p 1) (addr_index f).

Definition target_of (f : funcdata) (i : nat) : option nat := mjoin (branch_target f (addr_index f) i).

Definition case_ops (f : funcdata) (st : list (Z * list Z)) (i : nat) : list nat :=
  match op_pc f i ≫= (fun p => at_key p st) with
  | Some targets => omap (fun t => at_key t (addr_index f)) targets
  | None => []
  end.

(** The operations control passes to after [i] *)
Definition succ_ops (f : funcdata) (st : list (Z * list Z)) (i : nat) : list nat :=
  match op_code f i with
  | None | Some Return => []
  | Some Branchind => case_ops f st i
  | Some Branch => option_list (target_of f i)
  | Some Cbranch => option_list (next_op f i) ++ option_list (target_of f i)
  | Some _ => option_list (next_op f i)
  end.

(** A basic block: consecutive operations, none but the last ends a block, none but the first is branched to. *)
Record basic_block (f : funcdata) (l : list nat) : Prop := BasicBlock {
  bb_run : exists a n, l = seq a (S n);
  bb_last : forall i oc, In i l -> op_code f i = Some oc -> terminates_block oc = true -> l !! Nat.pred (List.length l) = Some i;
  bb_first : forall i oc t, op_code f i = Some oc -> is_branch oc = true -> target_of f i = Some t -> In t l -> l !! 0 = Some t;
}.

(** The edges out of a block lead to the blocks of the operations control passes to after its last one,
    the false exit of a conditional branch first, and each block once for a switch. *)
Definition exits_ok (f : funcdata) (st : list (Z * list Z)) (body : nat -> list nat) (l outs : list nat) : Prop :=
  forall i, l !! Nat.pred (List.length l) = Some i ->
    if decide (op_code f i = Some Branchind) then
      List.NoDup outs /\ forall o, In o outs <-> exists t, In t (succ_ops f st i) /\ In t (body o)
    else Forall2 (fun o t => In t (body o)) outs (succ_ops f st i).

Section cut.
Context (f : funcdata) (st : list (Z * list Z)) (rs : list (nat * nat)).
Hypothesis G : graph_ok f.
Hypothesis RS : runs_from 0 (num_ops f) rs.
Hypothesis TARGETS : forall i oc t, op_code f i = Some oc -> is_branch oc = true -> oc <> Branchind -> target_of f i = Some t -> t < num_ops f.

Definition run_body (k : nat) : list nat := match rs !! k with Some (a, b) => seq a (b - a) | None => [] end.

Lemma run_body_in (k i : nat) : In i (run_body k) <-> exists a b, rs !! k = Some (a, b) /\ a <= i < b.
Proof.
  unfold run_body. destruct (rs !! k) as [[a b]|]; [rewrite in_seq|by split; [|intros (? & ? & ? & _)]].
  split; [intros H; exists a, b; split; [done|lia]|]. intros (? & ? & [= <- <-] & H). lia.
Qed.

Lemma run_body_unique (j k i : nat) : In i (run_body j) -> In i (run_body k) -> j = k.
Proof. rewrite !run_body_in. intros (a & b & Hj & H1) (a' & b' & Hk & H2). exact (runs_disjoint _ _ _ _ _ _ _ _ _ i RS Hj Hk H1 H2). Qed.

Lemma block_of_body (i : nat) : i < num_ops f -> exists k, block_of rs i = Some k /\ In i (run_body k) /\ k < List.length rs.
Proof.
  intros Hi. destruct (block_of_spec 0 (num_ops f) rs i RS ltac:(lia)) as (k & a & b & E & Hk & Hab). exists k.
  split_and!; [done|apply run_body_in; eauto|by eapply lookup_lt_Some].
Qed.

Definition in_runs (o : nat) : Prop := o < List.length rs.

Lemma block_at_body (t : option nat) : (forall i, t = Some i -> i < num_ops f) ->
  exists outs, block_at rs t = Some outs /\ Forall2 (fun o t => In t (run_body o)) outs (option_list t) /\ List.Forall in_runs outs.
Proof.
  intros Ht. destruct t as [i|]; cbn; [|exists []; split_and!; constructor].
  destruct (block_of_body i (Ht i eq_refl)) as (k & -> & Hin & Hlt). exists [k]. cbn. split_and!; [done|repeat constructor; done|repeat constructor; done].
Qed.

Lemma next_op_lt (i t : nat) : next_op f i = Some t -> t < num_ops f.
Proof.
  unfold next_op. destruct (op_pc f i) as [p|]; [|done]. cbn [mbind option_bind]. case_decide as E.
  - intros [= <-]. unfold op_pc in E. destruct (ops f !! S i) eqn:E'; [|done]. by apply lookup_lt_Some in E'.
  - apply at_or_after_lt, addr_index_indexed.
Qed.

Lemma fallthrough_eq (i : nat) : i < num_ops f -> fallthrough f (addr_index f) rs i = block_at rs (next_op f i).
Proof.
  intros Hi. unfold fallthrough, next_op. destruct (lookup_lt_is_Some_2 (ops f) i Hi) as [o Ho].
  destruct (op_pc f i) as [p|] eqn:Ep; [|unfold op_pc in Ep; by rewrite Ho in Ep]. cbn [mbind option_bind].
  destruct (Nat.ltb_spec (S i) (List.length (ops f))) as [Hlt|Hge].
  - destruct (lookup_lt_is_Some_2 (ops f) (S i) Hlt) as [o' Ho']. unfold op_pc at 1. rewrite Ho'. cbn [fmap option_fmap option_map mbind option_bind].
    unfold op_pc. rewrite Ho'. cbn. destruct (Z.eqb_spec (a_offset (Funcdata.pc (seqnum o'))) p) as [->|Hne]; [by rewrite decide_True|].
    rewrite decide_False by congruence. done.
  - rewrite decide_False; [done|]. unfold op_pc. apply lookup_ge_None in Hge. by rewrite Hge.
Qed.

Lemma switch_outs_spec (targets : list Z) : exists outs, switch_outs (addr_index f) rs targets = Some outs /\ List.NoDup outs /\
  (forall o, In o outs <-> exists t, In t (omap (fun t => at_key t (addr_index f)) targets) /\ In t (run_body o)) /\ List.Forall in_runs outs.
Proof.
  unfold switch_outs.
  assert (H : forall ts outs, List.NoDup outs -> List.Forall in_runs outs -> exists outs', fold_opt (fun outs t =>
      match at_key t (addr_index f) with
      | Some idx => b ← block_of rs idx; Some (if existsb (Nat.eqb b) outs then outs else outs ++ [b])
      | None => Some outs
      end) ts outs = Some outs' /\ List.NoDup outs' /\
      (forall o, In o outs' <-> In o outs \/ exists t, In t (omap (fun t => at_key t (addr_index f)) ts) /\ In t (run_body o)) /\ List.Forall in_runs outs').
  { induction ts as [|t ts IH]; intros outs Hnd Hr.
    { exists outs. split_and!; [done|done| |done]. intros o. split; [by left|intros [|(? & [] & _)]; done]. }
    cbn [fold_opt]. destruct (at_key t (addr_index f)) as [idx|] eqn:E.
    - destruct (at_key_lt f _ t idx (addr_index_indexed f) E) as [Hlt _].
      destruct (block_of_body idx Hlt) as (k & -> & Hin & Hk). cbn [mbind option_bind].
      set (outs1 := if existsb (Nat.eqb k) outs then outs else outs ++ [k]).
      assert (H1 : List.NoDup outs1 /\ (forall o, In o outs1 <-> o = k \/ In o outs) /\ List.Forall in_runs outs1).
      { subst outs1. destruct (existsb (Nat.eqb k) outs) eqn:Ex.
        - apply existsb_exists in Ex as (c & Hc & <-%Nat.eqb_eq). split_and!; [done| |done]. intros o. split; [by right|by intros [->|]].
        - assert (Hnk : ~ In k outs). { intros Hk'. enough (existsb (Nat.eqb k) outs = true) by congruence. apply existsb_exists. exists k. by rewrite Nat.eqb_refl. }
          split_and!.
          + apply (List.NoDup_Add (a := k) (l := outs)); [|by split]. pose proof (Add_app k outs []) as Ha. by rewrite app_nil_r in Ha.
          + intros o. rewrite in_app_iff. cbn. split; [intros [?|[->|[]]]; auto|intros [->|?]; auto].
          + apply List.Forall_app. split; [done|repeat constructor; done]. }
      destruct H1 as (Hnd1 & Hin1 & Hr1). destruct (IH outs1 Hnd1 Hr1) as (outs' & -> & Hnd' & Hin' & Hr').
      exists outs'. split_and!; [done|done| |done]. intros o. rewrite Hin', Hin1. cbn [omap list_omap]. rewrite E. cbn [In]. split.
      + intros [[->|?]|(t' & Ht' & ?)]; [right; exists idx; auto|by left|right; exists t'; auto].
      + intros [?|(t' & [<-|Ht'] & Hb)]; [auto| |right; eauto]. left. left. by eapply run_body_unique.
    - cbn [mbind option_bind]. destruct (IH outs Hnd Hr) as (outs' & -> & Hnd' & Hin' & Hr'). exists outs'. split_and!; [done|done| |done].
      intros o. rewrite Hin'. cbn [omap list_omap]. by rewrite E. }
  destruct (H targets []) as (outs & -> & Hnd & Hin & Hr); [constructor|constructor|]. exists outs. split_and!; [done|done| |done].
  intros o. rewrite Hin. split; [by intros [[]|]|by right].
Qed.

Lemma target_of_runs (i : nat) : i < num_ops f -> branch_target f (addr_index f) i = Some (target_of f i).
Proof. intros Hi. destruct (branch_target_runs f (addr_index f) i G Hi) as [t Ht]. unfold target_of. by rewrite Ht. Qed.

Lemma block_outs_spec (l : list nat) (i : nat) : l !! Nat.pred (List.length l) = Some i -> i < num_ops f ->
  exists outs, block_outs f (addr_index f) st rs l = Some outs /\ exits_ok f st run_body l outs /\ List.Forall in_runs outs.
Proof.
  intros Hl Hi. unfold block_outs, exits_ok. rewrite Hl. cbn [mbind option_bind].
  destruct (lookup_lt_is_Some_2 (ops f) i Hi) as [o Ho].
  assert (Hc : op_code f i = Some (opc o)) by (unfold op_code; by rewrite Ho). rewrite Hc. cbn [mbind option_bind].
  rewrite (fallthrough_eq i Hi), (target_of_runs i Hi). cbn [mbind option_bind].
  destruct (block_at_body (next_op f i)) as (ft & -> & Hft & Rft); [intros t; apply next_op_lt|]. cbn [mbind option_bind].
  assert (Hplain : forall outs, Forall2 (fun o t => In t (run_body o)) outs (succ_ops f st i) -> List.Forall in_runs outs -> opc o <> Branchind ->
    exists outs', Some outs = Some outs' /\ (forall i', Some i = Some i' -> if decide (op_code f i' = Some Branchind) then
      List.NoDup outs' /\ (forall o, In o outs' <-> exists t, In t (succ_ops f st i') /\ In t (run_body o))
      else Forall2 (fun o t => In t (run_body o)) outs' (succ_ops f st i')) /\ List.Forall in_runs outs').
  { intros outs H1 H2 H3. exists outs. split_and!; [done| |done]. intros i' [= <-]. rewrite decide_False by congruence. done. }
  assert (Htb : opc o = Branch \/ opc o = Cbranch -> exists outs, block_at rs (target_of f i) = Some outs /\
    Forall2 (fun o t => In t (run_body o)) outs (option_list (target_of f i)) /\ List.Forall in_runs outs).
  { intros Hoc. apply block_at_body. intros t Ht. apply (TARGETS i (opc o) t Hc); [by destruct Hoc as [-> | ->]|by destruct Hoc as [-> | ->]|done]. }
  unfold succ_ops in Hplain. rewrite Hc in Hplain.
  destruct (opc o) eqn:Eo; try (apply Hplain; [exact Hft|done|done]).
  - destruct (Htb ltac:(by left)) as (outs & -> & H1 & H2). by apply Hplain.
  - destruct (Htb ltac:(by right)) as (outs & -> & H1 & H2). cbn [mbind option_bind]. apply Hplain; [by apply Forall2_app|by apply List.Forall_app|done].
  - clear Hplain. destruct (op_pc f i) as [p|] eqn:Ep; [|unfold op_pc in Ep; by rewrite Ho in Ep]. cbn [mbind option_bind].
    destruct (at_key p st) as [targets|] eqn:Ek.
    + destruct (switch_outs_spec targets) as (outs & -> & H1 & H2 & H3). exists outs. split_and!; [done| |done].
      intros i' [= <-]. rewrite decide_True by done. split; [done|]. intros k. rewrite H2. unfold succ_ops, case_ops. rewrite Hc, Ep. cbn [mbind option_bind]. by rewrite Ek.
    + exists []. split_and!; [done| |constructor]. intros i' [= <-]. rewrite decide_True by done. split; [constructor|].
      intros k. unfold succ_ops, case_ops. rewrite Hc, Ep. cbn [mbind option_bind]. rewrite Ek. split; [done|by intros (? & [] & _)].
  - apply Hplain; [constructor|constructor|done].
Qed.
End cut.

(** A function as it is before its blocks are cut: operations, none dead, no block yet, and no branch
    past the last operation. *)
Record ready (f : funcdata) : Prop := Ready {
  rd_wf : wf f;
  rd_blocks : blocks f = [];
  rd_ops : 0 < num_ops f;
  rd_alive : forall o x, ops f !! o = Some x -> is_dead x = false;
  rd_targets : forall i oc t, op_code f i = Some oc -> is_branch oc = true -> oc <> Branchind -> target_of f i = Some t -> t < num_ops f;
}.

Record cut_ok (f : funcdata) (st : list (Z * list Z)) (rs : list (nat * nat)) (bs : list block_basic) : Prop := CutOk {
  ct_runs : runs_from 0 (num_ops f) rs;
  ct_len : List.length bs = List.length rs;
  ct_body : forall k blk, bs !! k = Some blk -> bops blk = run_body rs k /\ in_edges blk = [] /\ basic_block f (bops blk) /\
    exits_ok f st (run_body rs) (bops blk) (out_edges blk) /\ List.Forall (in_runs rs) (out_edges blk);
}.

Lemma run_ops_all (f : funcdata) (a b : nat) : (forall o x, ops f !! o = Some x -> is_dead x = false) -> b <= num_ops f ->
  run_ops f (a, b) = Some (seq a (b - a)).
Proof.
  intros Ha Hb. unfold run_ops. cbn [fst snd].
  assert (H : forall ids acc, (forall i, In i ids -> i < num_ops f) ->
    fold_opt (fun l i => o ← ops f !! i; Some (if is_dead o then l else l ++ [i])) ids acc = Some (acc ++ ids)).
  { induction ids as [|i ids IH]; intros acc Hi; [by rewrite app_nil_r|]. cbn [fold_opt].
    destruct (lookup_lt_is_Some_2 (ops f) i (Hi i (or_introl eq_refl))) as [o Ho]. rewrite Ho. cbn [mbind option_bind].
    rewrite (Ha i o Ho), IH by (intros j Hj; apply Hi; by right). by rewrite <- app_assoc. }
  rewrite H; [done|]. intros i Hi%in_seq. lia.
Qed.

Lemma mapM_lookup {A B : Type} (g : A -> option B) (l : list A) (r : list B) : mapM g l = Some r ->
  List.length r = List.length l /\ forall k b, r !! k = Some b -> exists a, l !! k = Some a /\ g a = Some b.
Proof.
  intros H. apply mapM_Some_1 in H. split; [symmetry; by eapply Forall2_length|]. intros k b Hb.
  by destruct (Forall2_lookup_r _ _ _ _ _ H Hb) as (a & ? & ?); exists a.
Qed.

Lemma mapM_total {A B : Type} (g : A -> option B) (l : list A) : (forall k a, l !! k = Some a -> is_Some (g a)) -> is_Some (mapM g l).
Proof.
  intros H. apply mapM_is_Some_2, Forall_lookup. done.
Qed.

Lemma cut_basic (f : funcdata) (leader_vec : list nat) (k a b : nat) : graph_ok f -> leads f leader_vec ->
  (forall i, i < num_ops f -> led f (addr_index f) leader_vec i) -> runs_from 0 (num_ops f) (cut (num_ops f) leader_vec) ->
  cut (num_ops f) leader_vec !! k = Some (a, b) -> basic_block f (seq a (b - a)).
Proof.
  intros G L B RS Hk. destruct (runs_from_bounds _ _ _ _ _ _ RS Hk) as (_ & Hab & Hb).
  assert (Hstart : forall x, In x leader_vec -> a <= x < b -> x = a).
  { intros x Hx Hin. apply list_elem_of_In, list_elem_of_lookup in Hx as [j Hj]. rewrite <- (cut_starts (num_ops f)) in Hj.
    destruct (cut (num_ops f) leader_vec !! j) as [[x' y]|] eqn:Ej; [|done]. injection Hj as ->.
    destruct (runs_from_bounds _ _ _ _ _ _ RS Ej) as (_ & Hxy & _).
    rewrite (runs_disjoint _ _ _ _ _ _ _ _ _ x RS Ej Hk ltac:(lia) Hin) in Ej. congruence. }
  constructor.
  - exists a, (Nat.pred (b - a)). f_equal. lia.
  - intros i oc Hi Hc Ht. apply in_seq in Hi. rewrite length_seq.
    destruct (B i ltac:(lia) oc Hc) as [H1 _]. rewrite lookup_seq_lt by lia. f_equal.
    destruct (decide (S i < b)) as [Hlt|]; [|lia]. specialize (Hstart (S i) (H1 Ht ltac:(lia)) ltac:(lia)). lia.
  - intros i oc t Hc Hbr Ht Hin. apply in_seq in Hin. assert (Hi : i < num_ops f).
    { unfold op_code in Hc. destruct (ops f !! i) eqn:E; [by apply lookup_lt_Some in E|done]. }
    destruct (B i Hi oc Hc) as [_ H2]. pose proof (target_of_runs f G i Hi) as Ebt. rewrite Ht in Ebt.
    rewrite (Hstart t (H2 Hbr t Ebt ltac:(lia)) ltac:(lia)). rewrite lookup_seq_lt by lia. f_equal. lia.
Qed.

Lemma cut_blocks_runs (f : funcdata) (st : list (Z * list Z)) : ready f ->
  exists rs bs, cut_blocks f st = Some bs /\ cut_ok f st rs bs /\ 0 < List.length bs.
Proof.
  intros [[G _ _ _] _ H0 Ha Ht]. unfold cut_blocks. destruct (leaders_runs f st G H0) as (lv & -> & L & B). cbn [mbind option_bind].
  set (rs := cut (List.length (ops f)) lv). assert (RS : runs_from 0 (num_ops f) rs).
  { destruct L as [Ls Ll Lz]. destruct lv as [|x lv]; [done|]. enough (x = 0) as ->.
    { by apply cut_runs. }
    destruct Lz as [|Hz]; [done|]. apply StronglySorted_inv in Ls as [_ Hx]. pose proof (proj1 (List.Forall_forall _ _) Hx 0 Hz). lia. }
  destruct (mapM_total (run_ops f) rs) as [bodies Eb].
  { intros k [a b] Hk. rewrite run_ops_all; [done|done|]. apply (runs_from_bounds _ _ _ _ _ _ RS Hk). }
  rewrite Eb. cbn [mbind option_bind]. apply mapM_lookup in Eb as [Lb Eb].
  assert (Hbody : forall k bl, bodies !! k = Some bl -> exists a b, rs !! k = Some (a, b) /\ a < b /\ b <= num_ops f /\ bl = seq a (b - a)).
  { intros k bl Hbl. destruct (Eb k bl Hbl) as ([a b] & Hk & E). exists a, b.
    destruct (runs_from_bounds _ _ _ _ _ _ RS Hk) as (_ & ? & ?). rewrite run_ops_all in E by done. by injection E as <-. }
  assert (Hlast : forall a b, a < b -> seq a (b - a) !! Nat.pred (List.length (seq a (b - a))) = Some (Nat.pred b)).
  { intros a b Hab. rewrite length_seq, lookup_seq_lt by lia. f_equal. lia. }
  destruct (mapM_total (fun bl => outs ← block_outs f (addr_index f) st rs bl; Some (BlockBasic bl [] outs)) bodies) as [bs Ebs].
  { intros k bl Hbl. destruct (Hbody k bl Hbl) as (a & b & _ & Hab & Hb & ->).
    destruct (block_outs_spec f st rs G RS Ht _ _ (Hlast a b Hab) ltac:(lia)) as (outs & -> & _). done. }
  rewrite Ebs. apply mapM_lookup in Ebs as [Lbs Ebs]. exists rs, bs. split; [done|]. split; [|].
  - constructor; [done|congruence|]. intros k blk Hblk. destruct (Ebs k blk Hblk) as (bl & Hbl & E).
    destruct (Hbody k bl Hbl) as (a & b & Hk & Hab & Hb & ->).
    destruct (block_outs_spec f st rs G RS Ht _ _ (Hlast a b Hab) ltac:(lia)) as (outs & Eo & Hex & Hr). rewrite Eo in E.
    injection E as <-. cbn [bops in_edges out_edges]. split_and!; [unfold run_body; by rewrite Hk|done| |done|done].
    by eapply cut_basic.
  - rewrite Lbs, Lb. destruct rs as [|r rs']; [|cbn; lia]. cbn in RS. lia.
Qed.
