(* ===== verification/CfgGraph.v ===== *)
(** The graph of the blocks as cut: the search from the entry, the new numbering, the edges listed on
    both sides, and the block put in front of an entry that control comes back to. *)
From Stdlib Require Import ZArith Lia Bool List Sorted Permutation.
From stdpp Require Import base decidable option list relations tactics numbers.
From S2P Require Import Prelude Space OpCode Funcdata FuncdataLinks FuncdataEdits FuncdataBlocks FuncdataRemove FuncdataTheorems Cfg CfgFacts.
Local Open Scope nat_scope.

Definition lops (bs : list block_basic) (b : nat) : list nat := default [] (bops <$> bs !! b).
Definition lins (bs : list block_basic) (b : nat) : list nat := default [] (in_edges <$> bs !! b).
Definition louts (bs : list block_basic) (b : nat) : list nat := default [] (out_edges <$> bs !! b).
Definition lstep (bs : list block_basic) (a b : nat) : Prop := In b (louts bs a).

(** ** The search from the entry *)

Definition unmarked (reached : list bool) : nat := sum_list_with (fun s : bool => if s then 0 else 1) reached.

Lemma mark_all (outs : list nat) (reached : list bool) (stack : list nat) : (forall o, In o outs -> o < List.length reached) ->
  exists reached' stack', fold_opt mark outs (reached, stack) = Some (reached', stack') /\
    List.length reached' = List.length reached /\
    (forall x, reached' !! x = Some true <-> reached !! x = Some true \/ In x outs) /\
    (forall x, In x stack' -> In x stack \/ In x outs) /\ incl stack stack' /\
    (forall x, reached' !! x = Some true -> reached !! x = Some true \/ In x stack') /\
    unmarked reached' + List.length stack' = unmarked reached + List.length stack.
Proof.
  revert reached stack. induction outs as [|o outs IH]; intros reached stack Hlt; cbn [fold_opt].
  { exists reached, stack. split_and!; [done|done| |by left|apply incl_refl|by left|done]. intros x. split; [by left|by intros [|[]]]. }
  destruct (lookup_lt_is_Some_2 reached o (Hlt o (or_introl eq_refl))) as [s Hs]. cbn [mark]. rewrite Hs. cbn [mbind option_bind].
  destruct s.
  - destruct (IH reached stack (fun p Hp => Hlt p (or_intror Hp))) as (r & k & -> & H1 & H2 & H3 & H4 & H5 & H6).
    exists r, k. split_and!; [done|done| | |done|done|done].
    + intros x. rewrite H2. cbn. split; [intros [|]; auto|intros [|[<-|]]; auto].
    + intros x Hx. apply H3 in Hx as [|]; [by left|right; by right].
  - pose proof (lookup_lt_Some _ _ _ Hs) as Ho.
    destruct (IH (<[o := true]> reached) (o :: stack)) as (r & k & -> & H1 & H2 & H3 & H4 & H5 & H6).
    { intros p Hp. rewrite length_insert. apply Hlt. by right. }
    assert (Hx : forall x, <[o := true]> reached !! x = Some true <-> x = o \/ reached !! x = Some true).
    { intros x. destruct (decide (x = o)) as [->|Hne]; [rewrite list_lookup_insert_eq by done; tauto|].
      rewrite list_lookup_insert_ne by congruence. tauto. }
    exists r, k. split_and!; [done|by rewrite H1, length_insert| | | | |].
    + intros x. rewrite H2, Hx. cbn. split; [intros [[->|]|]; auto|intros [|[<-|]]; auto].
    + intros x Hk. apply H3 in Hk as [[<-|]|]; [right; by left|by left|right; by right].
    + intros x Hk. apply H4. by right.
    + intros x Hr. apply H5 in Hr as [Hr|]; [|by right]. apply Hx in Hr as [->|]; [right; apply H4; by left|by left].
    + unfold unmarked in *. pose proof (sum_list_with_update (fun s : bool => if s then 0 else 1) reached o false true Hs) as Hu.
      cbn [List.length] in *. lia.
Qed.

Record tracing (bs : list block_basic) (e : nat) (reached : list bool) (stack : list nat) : Prop := Tracing {
  tr_len : List.length reached = List.length bs;
  tr_start : reached !! e = Some true;
  tr_stack : forall x, In x stack -> reached !! x = Some true;
  tr_sound : forall x, reached !! x = Some true -> rtc (lstep bs) e x;
  tr_closed : forall x y, reached !! x = Some true -> ~ In x stack -> In y (louts bs x) -> reached !! y = Some true;
}.

Lemma trace_runs (bs : list block_basic) (e fuel : nat) (reached : list bool) (stack : list nat) :
  (forall a b, In b (louts bs a) -> b < List.length bs) -> tracing bs e reached stack -> unmarked reached + List.length stack < fuel ->
  exists reached', trace fuel bs reached stack = Some reached' /\ List.length reached' = List.length bs /\
    forall x, reached' !! x = Some true <-> rtc (lstep bs) e x.
Proof.
  intros Hlt. revert reached stack. induction fuel as [|fuel IH]; [lia|]. intros reached stack [] Hf. destruct stack as [|b stack]; cbn [trace].
  { exists reached. split_and!; [done|done|]. intros x. split; [apply tr_sound0|]. revert x.
    apply (rtc_ind_r (fun x => reached !! x = Some true)); [done|]. intros x y _ Hxy Hx. exact (tr_closed0 x y Hx (fun H => H) Hxy). }
  pose proof (tr_stack0 b (or_introl eq_refl)) as Hb. apply lookup_lt_Some in Hb as Hbl. rewrite tr_len0 in Hbl.
  destruct (lookup_lt_is_Some_2 bs b Hbl) as [blk Hblk]. rewrite Hblk. cbn [mbind option_bind].
  assert (Ho : out_edges blk = louts bs b) by (unfold louts; by rewrite Hblk). rewrite Ho.
  destruct (mark_all (louts bs b) reached stack) as (r & k & E & H1 & H2 & H3 & H4 & H5 & H6); [intros o Hin; rewrite tr_len0; by eapply Hlt|].
  rewrite E. cbn [mbind option_bind]. apply IH; [|cbn [List.length] in *; lia]. constructor.
  - congruence.
  - apply H2. by left.
  - intros x Hx. apply H2. apply H3 in Hx as [Hx|]; [left; apply tr_stack0; by right|by right].
  - intros x Hx. apply H2 in Hx as [Hx|Hx]; [by apply tr_sound0|]. eapply rtc_r; [by apply tr_sound0|exact Hx].
  - intros x y Hx Hk Hy. apply H2. destruct (decide (x = b)) as [->|Hne]; [by right|]. left.
    destruct (H5 x Hx) as [Hx'|]; [|done]. apply (tr_closed0 x y Hx'); [|done]. intros [->|Hs]; [done|]. apply Hk, H4, Hs.
Qed.

Lemma reached_from_runs (bs : list block_basic) (e : nat) : (forall a b, In b (louts bs a) -> b < List.length bs) -> e < List.length bs ->
  exists reached, reached_from bs e = Some reached /\ List.length reached = List.length bs /\
    forall x, reached !! x = Some true <-> rtc (lstep bs) e x.
Proof.
  intros Hlt He. unfold reached_from. destruct (Nat.ltb_spec e (List.length bs)); [|lia].
  assert (Hr : forall x, <[e := true]> (replicate (List.length bs) false) !! x = Some true <-> x = e).
  { intros x. destruct (decide (x = e)) as [->|Hne]; [rewrite list_lookup_insert_eq by (by rewrite length_replicate); tauto|].
    rewrite list_lookup_insert_ne, lookup_replicate by congruence. split; [by intros []|done]. }
  apply trace_runs; [done| |].
  - constructor.
    + by rewrite length_insert, length_replicate.
    + by apply Hr.
    + intros x [<-|[]]. by apply Hr.
    + intros x ->%Hr. apply rtc_refl.
    + intros x y ->%Hr Hn. destruct Hn. by left.
  - unfold unmarked. pose proof (sum_list_with_update (fun s : bool => if s then 0 else 1) (replicate (List.length bs) false) e false true) as Hu.
    rewrite lookup_replicate in Hu. specialize (Hu ltac:(done)).
    assert (Hs : forall n, sum_list_with (fun s : bool => if s then 0 else 1) (replicate n false) = n) by (induction n; cbn; lia).
    rewrite Hs in Hu. cbn [List.length]. lia.
Qed.

(** ** The new numbering *)

Record numbering (bs : list block_basic) (reached : list bool) (e : nat) (order : list nat) : Prop := Numbering {
  nb_in : forall x, In x order <-> reached !! x = Some true;
  nb_nodup : List.NoDup order;
  nb_entry : order !! 0 = Some e;
}.

Lemma block_order_numbers (f : funcdata) (bs : list block_basic) (reached : list bool) (e : nat) : List.length reached = List.length bs ->
  reached !! e = Some true -> numbering bs reached e (block_order f bs reached e).
Proof.
  intros Hlen He. unfold block_order. set (rest := List.filter _ _). set (leb := fun a b : nat => _).
  assert (Hrest : forall x, In x rest <-> reached !! x = Some true /\ x <> e).
  { intros x. unfold rest. rewrite filter_In, in_seq, andb_true_iff, bool_decide_eq_true, negb_true_iff, Nat.eqb_neq. split; [tauto|].
    intros [H1 H2]. apply lookup_lt_Some in H1 as Hl. split; [lia|done]. }
  constructor; [| |done].
  - intros x. cbn [In]. rewrite sort_by_in, Hrest. split; [by intros [<-|[? _]]|]. intros Hx. destruct (decide (e = x)); [by left|right; done].
  - constructor.
    + rewrite sort_by_in, Hrest. by intros [_ []].
    + eapply Permutation_NoDup; [apply sort_by_perm|]. apply List.NoDup_filter, seq_NoDup.
Qed.

Section renumbered.
Context (bs : list block_basic) (reached : list bool) (e : nat) (order : list nat).
Hypothesis NB : numbering bs reached e order.
Hypothesis REACH : forall x, reached !! x = Some true <-> rtc (lstep bs) e x.
Hypothesis LT : forall x, reached !! x = Some true -> x < List.length bs.
Hypothesis NOIN : forall k blk, bs !! k = Some blk -> in_edges blk = [].

Lemma order_inj (j k x : nat) : order !! j = Some x -> order !! k = Some x -> j = k.
Proof. intros Hj Hk. eapply (proj1 (NoDup_alt order)); [apply NoDup_ListNoDup; apply NB|exact Hj|exact Hk]. Qed.

Record pruned_ok (pr : list block_basic) : Prop := PrunedOk {
  pn_len : List.length pr = List.length order;
  pn_at : forall k blk, pr !! k = Some blk -> exists o blk0, order !! k = Some o /\ bs !! o = Some blk0 /\ bops blk = bops blk0 /\
    in_edges blk = [] /\ Forall2 (fun k' o' => order !! k' = Some o') (out_edges blk) (out_edges blk0);
}.

Lemma renumber_runs (k o : nat) (blk0 : block_basic) : order !! k = Some o -> bs !! o = Some blk0 ->
  exists blk, renumber order reached blk0 = Some blk /\ bops blk = bops blk0 /\ in_edges blk = [] /\
    Forall2 (fun k' o' => order !! k' = Some o') (out_edges blk) (out_edges blk0).
Proof.
  intros Hk Ho. unfold renumber.
  assert (Hr : reached !! o = Some true) by (apply (nb_in _ _ _ _ NB); eapply list_elem_of_In, list_elem_of_lookup_2, Hk).
  assert (Hall : forall o', In o' (out_edges blk0) -> reached !! o' = Some true).
  { intros o' Ho'. apply REACH. apply REACH in Hr. eapply rtc_r; [exact Hr|]. unfold lstep, louts. by rewrite Ho. }
  assert (Hf : List.filter (fun o => bool_decide (reached !! o = Some true)) (out_edges blk0) = out_edges blk0).
  { clear -Hall. induction (out_edges blk0) as [|x l IH]; [done|]. cbn. rewrite bool_decide_true by (apply Hall; by left).
    f_equal. apply IH. intros; apply Hall; by right. }
  rewrite Hf. destruct (mapM_total (fun o => position_of o order) (out_edges blk0)) as [outs E].
  { intros j x Hx. assert (Hin : In x order).
    { apply (nb_in _ _ _ _ NB), Hall. eapply list_elem_of_In, list_elem_of_lookup_2, Hx. }
    destruct (position_of_in x order Hin) as (a & b & _ & ->). done. }
  rewrite E. cbn [mbind option_bind]. eexists. split; [done|]. cbn [bops in_edges out_edges]. split_and!; [done|by eapply NOIN|].
  apply mapM_Some_1 in E. apply Forall2_flip. eapply Forall2_impl; [|exact E]. intros x y Hxy. cbn in *.
  pose proof (position_of_spec x order) as Hp. rewrite Hxy in Hp. destruct Hp as (a & b & -> & _ & ->).
  by rewrite lookup_app_r, Nat.sub_diag by lia.
Qed.

Lemma pruned_runs : exists pr, mapM (fun b => blk ← bs !! b; renumber order reached blk) order = Some pr /\ pruned_ok pr.
Proof.
  assert (Hat : forall k o, order !! k = Some o -> exists blk0, bs !! o = Some blk0).
  { intros k o Hk. apply lookup_lt_is_Some_2, LT. apply (nb_in _ _ _ _ NB). eapply list_elem_of_In, list_elem_of_lookup_2, Hk. }
  destruct (mapM_total (fun b => blk ← bs !! b; renumber order reached blk) order) as [pr E].
  { intros k o Hk. destruct (Hat k o Hk) as [blk0 Hb]. rewrite Hb. cbn [mbind option_bind].
    by destruct (renumber_runs k o blk0 Hk Hb) as (blk & -> & _). }
  exists pr. split; [done|]. apply mapM_lookup in E as [Hl E]. constructor; [done|]. intros k blk Hblk.
  destruct (E k blk Hblk) as (o & Hk & E'). destruct (Hat k o Hk) as [blk0 Hb]. rewrite Hb in E'. cbn [mbind option_bind] in E'.
  destruct (renumber_runs k o blk0 Hk Hb) as (blk' & E2 & ? & ? & ?). rewrite E2 in E'. injection E' as <-. exists o, blk0. by split_and!.
Qed.

(** Every block kept is reached from the first. *)
Lemma pruned_reach (pr : list block_basic) : pruned_ok pr -> forall k, k < List.length pr -> rtc (lstep pr) 0 k.
Proof.
  intros [Hl Hat]. assert (H : forall o, rtc (lstep bs) e o -> forall k, order !! k = Some o -> rtc (lstep pr) 0 k).
  { apply (rtc_ind_r (fun o => forall k, order !! k = Some o -> rtc (lstep pr) 0 k)).
    - intros k Hk. rewrite (order_inj _ _ _ Hk (nb_entry _ _ _ _ NB)). apply rtc_refl.
    - intros o o' Ho Hoo' IH k' Hk'. assert (Hin : In o order) by (by apply (nb_in _ _ _ _ NB), REACH).
      apply list_elem_of_In, list_elem_of_lookup in Hin as [k Hk]. eapply rtc_r; [by apply IH|].
      destruct (lookup_lt_is_Some_2 pr k) as [blk Hblk]; [rewrite Hl; by eapply lookup_lt_Some|].
      destruct (Hat k blk Hblk) as (o1 & blk0 & Ho1 & Hb0 & _ & _ & HF). rewrite Hk in Ho1. injection Ho1 as <-.
      unfold lstep, louts in Hoo' |- *. rewrite Hb0 in Hoo'. rewrite Hblk. cbn in *.
      apply list_elem_of_In, list_elem_of_lookup in Hoo' as [j Hj].
      destruct (Forall2_lookup_r _ _ _ _ _ HF Hj) as (k2 & Hk2 & Ek2). rewrite (order_inj _ _ _ Hk' Ek2).
      eapply list_elem_of_In, list_elem_of_lookup_2, Hk2. }
  intros k Hk. rewrite Hl in Hk. apply lookup_lt_is_Some_2 in Hk as [o Ho]. apply (H o); [|done].
  apply REACH, (nb_in _ _ _ _ NB). eapply list_elem_of_In, list_elem_of_lookup_2, Ho.
Qed.
End renumbered.

(** ** Edges on both sides *)

(** Only the lists of incoming edges differ. *)
Record reined (bs bs' : list block_basic) : Prop := Reined {
  re_len : List.length bs' = List.length bs;
  re_ops : forall b, lops bs' b = lops bs b;
  re_outs : forall b, louts bs' b = louts bs b;
}.

Lemma reined_refl (bs : list block_basic) : reined bs bs.
Proof. by constructor. Qed.

Lemma reined_trans (a b c : list block_basic) : reined a b -> reined b c -> reined a c.
Proof. intros [] []. constructor; congruence. Qed.

Lemma reined_in (bs : list block_basic) (i : nat) (blk : block_basic) (l : list nat) : bs !! i = Some blk ->
  reined bs (<[i := set_ins l blk]> bs) /\ forall b, lins (<[i := set_ins l blk]> bs) b = if decide (b = i) then l else lins bs b.
Proof.
  intros Hi. assert (Hat : forall b, <[i := set_ins l blk]> bs !! b = if decide (b = i) then Some (set_ins l blk) else bs !! b).
  { intros b. case_decide as E; [subst; apply list_lookup_insert_eq; by eapply lookup_lt_Some|by apply list_lookup_insert_ne]. }
  split; [constructor|].
  - apply length_insert.
  - intros b. unfold lops. rewrite Hat. case_decide as E; [|done]. subst. by rewrite Hi.
  - intros b. unfold louts. rewrite Hat. case_decide as E; [|done]. subst. by rewrite Hi.
  - intros b. unfold lins. rewrite Hat. by case_decide.
Qed.

Lemma push_all (from : nat) (l : list nat) (bs : list block_basic) : (forall o, In o l -> o < List.length bs) ->
  exists bs', fold_opt (push_in from) l bs = Some bs' /\ reined bs bs' /\
    forall a b, count (lins bs' b) a = count (lins bs b) a + (if decide (a = from) then count l b else 0).
Proof.
  revert bs. induction l as [|o l IH]; intros bs Hlt; cbn [fold_opt].
  { exists bs. split_and!; [done|apply reined_refl|]. intros a b. rewrite count_nil. case_decide; lia. }
  destruct (lookup_lt_is_Some_2 bs o (Hlt o (or_introl eq_refl))) as [blk Hb]. unfold push_in at 2. rewrite Hb. cbn [mbind option_bind].
  destruct (reined_in bs o blk (in_edges blk ++ [from]) Hb) as [R Hin].
  destruct (IH (<[o := set_ins (in_edges blk ++ [from]) blk]> bs)) as (bs' & -> & R' & Hc).
  { intros p Hp. rewrite (re_len _ _ R). apply Hlt. by right. }
  exists bs'. split_and!; [done|by eapply reined_trans|]. intros a b. rewrite Hc, Hin, count_cons. case_decide as E1.
  - subst b. rewrite count_app, count_cons, count_nil. assert (Hl : lins bs o = in_edges blk) by (unfold lins; by rewrite Hb). rewrite Hl.
    rewrite (decide_True (P := o = o)) by done. repeat case_decide; subst; try congruence; lia.
  - rewrite (decide_False (P := o = b)) by congruence. case_decide; lia.
Qed.

Lemma connect_all (cs : list nat) (bs : list block_basic) : (forall c, In c cs -> c < List.length bs) ->
  (forall a b, In b (louts bs a) -> b < List.length bs) ->
  exists bs', fold_opt (fun bs bi => blk ← bs !! bi; fold_opt (push_in bi) (out_edges blk) bs) cs bs = Some bs' /\ reined bs bs' /\
    forall a b, count (lins bs' b) a = count (lins bs b) a + count cs a * count (louts bs a) b.
Proof.
  revert bs. induction cs as [|c cs IH]; intros bs Hc Hlt; cbn [fold_opt].
  { exists bs. split_and!; [done|apply reined_refl|]. intros a b. rewrite count_nil. lia. }
  destruct (lookup_lt_is_Some_2 bs c (Hc c (or_introl eq_refl))) as [blk Hb]. rewrite Hb. cbn [mbind option_bind].
  assert (Ho : out_edges blk = louts bs c) by (unfold louts; by rewrite Hb). rewrite Ho.
  destruct (push_all c (louts bs c) bs) as (bs1 & -> & R & Hn); [intros o; apply Hlt|]. cbn [mbind option_bind].
  destruct (IH bs1) as (bs' & -> & R' & Hn').
  { intros d Hd. rewrite (re_len _ _ R). apply Hc. by right. }
  { intros a b. rewrite (re_outs _ _ R), (re_len _ _ R). apply Hlt. }
  exists bs'. split_and!; [done|by eapply reined_trans|]. intros a b. rewrite Hn', Hn, (re_outs _ _ R), count_cons.
  destruct (decide (a = c)) as [->|Hne]; [rewrite (decide_True (P := c = c)) by done; lia|]. rewrite (decide_False (P := c = a)) by congruence. lia.
Qed.

Lemma count_NoDup (l : list nat) (x : nat) : List.NoDup l -> In x l -> count l x = 1.
Proof.
  intros Hn Hx. assert (Hp : 0 < count l x) by (by apply count_pos).
  pose proof (proj1 (NoDup_count_occ Nat.eq_dec l) Hn x) as Hle. unfold count in *. lia.
Qed.

Lemma connect_runs (order : list nat) (bs : list block_basic) : (forall a b, In b (louts bs a) -> b < List.length bs) ->
  (forall b, lins bs b = []) ->
  exists bs', connect order bs = Some bs' /\ reined bs bs' /\ forall a b, count (louts bs' a) b = count (lins bs' b) a.
Proof.
  intros Hlt Hno. unfold connect. set (cs := sort_by _ _).
  assert (Hcs : forall c, In c cs <-> c < List.length bs) by (intros c; unfold cs; rewrite sort_by_in, in_seq; lia).
  destruct (connect_all cs bs) as (bs' & -> & R & Hc); [intros c; apply Hcs|done|]. exists bs'. split_and!; [done|done|].
  intros a b. rewrite Hc, Hno, count_nil, (re_outs _ _ R). destruct (decide (a < List.length bs)) as [Ha|Ha].
  - rewrite (count_NoDup cs a); [lia| |by apply Hcs]. eapply Permutation_NoDup; [apply sort_by_perm|]. apply seq_NoDup.
  - assert (Hz : louts bs a = []) by (unfold louts; rewrite (proj2 (lookup_ge_None bs a)) by lia; done). rewrite Hz, count_nil. lia.
Qed.

(** ** The block in front *)

Lemma count_map_S (l : list nat) (x : nat) : count (map S l) x = match x with 0 => 0 | S y => count l y end.
Proof.
  induction l as [|z l IH]; [by destruct x|]. cbn [map]. rewrite count_cons, IH. destruct x as [|y]; [by rewrite decide_False|].
  rewrite count_cons. repeat case_decide; lia.
Qed.

Definition shifted (b : block_basic) : block_basic := BlockBasic (bops b) (map S (in_edges b)) (map S (out_edges b)).

Lemma shifted_at (bs : list block_basic) (b : nat) : lops (map shifted bs) b = lops bs b /\
  lins (map shifted bs) b = map S (lins bs b) /\ louts (map shifted bs) b = map S (louts bs b).
Proof. unfold lops, lins, louts. rewrite list_lookup_fmap. by destruct (bs !! b). Qed.

Lemma front_block_cases (bs : list block_basic) : 0 < List.length bs ->
  lins bs 0 = [] /\ front_block bs = bs \/
  List.length (front_block bs) = S (List.length bs) /\ (forall b, lops (front_block bs) (S b) = lops bs b) /\ lops (front_block bs) 0 = [] /\
  louts (front_block bs) 0 = [1] /\ lins (front_block bs) 0 = [] /\
  (forall b, louts (front_block bs) (S b) = map S (louts bs b)) /\
  (forall b, lins (front_block bs) (S b) = map S (lins bs b) ++ (if decide (b = 0) then [0] else [])).
Proof.
  intros Hl. destruct bs as [|first rest]; [cbn in Hl; lia|]. unfold front_block.
  destruct (Nat.eqb_spec (List.length (in_edges first)) 0) as [E|_]; [left; split; [by apply nil_length_inv in E|done]|right].
  change (map _ (first :: rest)) with (map shifted (first :: rest)). cbn [map]. split_and!; [cbn; by rewrite length_map| |done|done|done| |].
  - intros [|b]; [done|]. apply (shifted_at rest b).
  - intros [|b]; [done|]. apply (shifted_at rest b).
  - intros [|b]; [done|]. rewrite decide_False by done. rewrite app_nil_r. apply (shifted_at rest b).
Qed.

Record balanced (bs : list block_basic) : Prop := Balanced {
  bl_edges : forall a b, count (louts bs a) b = count (lins bs b) a;
  bl_entry : lins bs 0 = [];
  bl_reach : forall b, b < List.length bs -> rtc (lstep bs) 0 b;
}.

Lemma front_block_balanced (bs : list block_basic) : 0 < List.length bs -> (forall a b, count (louts bs a) b = count (lins bs b) a) ->
  (forall b, b < List.length bs -> rtc (lstep bs) 0 b) -> balanced (front_block bs).
Proof.
  intros Hl He Hr. destruct (front_block_cases bs Hl) as [[H1 ->]|(H1 & H2 & H3 & H4 & H5 & H6 & H7)]; [by constructor|]. constructor.
  - intros [|a] [|b].
    + rewrite H4, H5. done.
    + rewrite H4, H7, count_app, count_map_S, count_cons, count_nil. destruct (decide (b = 0)) as [->|E]; [done|].
      by rewrite count_nil, decide_False by lia.
    + rewrite H5, H6, count_map_S. by rewrite count_nil.
    + rewrite H6, H7, count_app, !count_map_S, He. case_decide; [rewrite count_cons, count_nil, decide_False by done; lia|rewrite count_nil; lia].
  - done.
  - intros [|b] Hb; [apply rtc_refl|]. rewrite H1 in Hb. eapply rtc_l; [unfold lstep; rewrite H4; by left|].
    assert (Hb' : b < List.length bs) by lia. specialize (Hr b Hb'). clear -Hr H6.
    assert (G : forall a, rtc (lstep bs) 0 a -> rtc (lstep (front_block bs)) 1 (S a)).
    { apply (rtc_ind_r (fun a => rtc (lstep (front_block bs)) 1 (S a))); [apply rtc_refl|]. intros x y _ Hxy IH.
      eapply rtc_r; [exact IH|]. unfold lstep in *. rewrite H6. by apply in_map. }
    by apply G.
Qed.
