(* ===== verification/CfgTheorems.v ===== *)
(** [build_cfg]: the blocks it builds are well formed, basic, and all reached from a first block that
    nothing leads back to. *)
From Stdlib Require Import ZArith Lia Bool List Sorted Permutation.
From stdpp Require Import base decidable option list relations tactics numbers.
From S2P Require Import Prelude Space OpCode Funcdata FuncdataLinks FuncdataEdits FuncdataBlocks FuncdataRemove FuncdataTheorems Dominator DominatorFacts DominatorTheorems Cfg CfgFacts CfgGraph.
Local Open Scope nat_scope.

(** ** Blocks dropped *)

Lemma destroy_all (l : list nat) (f : funcdata) : graph_ok f -> (forall o, In o l -> o < num_ops f) ->
  exists f', fold_opt op_destroy l f = Some f' /\ edited f f' /\ num_ops f' = num_ops f /\
    (forall o, ~ In o l -> ops f' !! o = ops f !! o) /\ (forall o, In o l -> exists x, ops f' !! o = Some x /\ is_dead x = true).
Proof.
  revert f. induction l as [|o l IH]; intros f G Hlt; cbn [fold_opt].
  { exists f. split_and!; [done|by split|done|done|by intros o []]. }
  pose proof (op_destroy_edit f o G (Hlt o (or_introl eq_refl))) as H. apply runs_exists in H as (f1 & -> & [[G1 K1] Ho _ _ Hn]).
  cbn [mbind option_bind]. destruct (IH f1 G1) as (f' & -> & [G' K'] & Hn' & Hout & Hin).
  { intros p Hp. unfold num_ops. rewrite Hn. apply Hlt. by right. }
  exists f'. split_and!; [done|split; [done|by etrans]|by rewrite Hn'| |].
  - intros p Hp. rewrite Hout by (intros ?; apply Hp; by right). rewrite Ho, decide_False; [done|]. intros ->. apply Hp. by left.
  - intros p Hp. destruct (in_dec Nat.eq_dec p l) as [Hpl|Hpl]; [by apply Hin|]. destruct Hp as [<-|Hp]; [|done].
    destruct (lookup_lt_is_Some_2 (ops f) o (Hlt o (or_introl eq_refl))) as [x Hx]. exists (dead_form x).
    split; [by rewrite (Hout o Hpl), Ho, decide_True, Hx|apply dead_form_dead].
Qed.

(** ** Parents *)

(** Only parents differ. *)
Record reparented (f f' : funcdata) : Prop := Reparented {
  rt_ops : forall o x', ops f' !! o = Some x' -> exists x, ops f !! o = Some x /\ x' = set_parent (parent x') x;
  rt_len : num_ops f' = num_ops f;
  rt_graph : graph_ok f -> graph_ok f';
  rt_blocks : blocks f' = blocks f;
  rt_spaces : spaces f' = spaces f;
}.

Lemma reparented_refl (f : funcdata) : reparented f f.
Proof. constructor; try done. intros o x Hx. exists x. split; [done|by destruct x]. Qed.

Lemma reparented_trans (f g h : funcdata) : reparented f g -> reparented g h -> reparented f h.
Proof.
  intros A B. constructor; try (destruct A, B; solve [congruence|auto]).
  intros o z Hz. destruct (rt_ops _ _ B o z Hz) as (y & Hy & ->). destruct (rt_ops _ _ A o y Hy) as (x & Hx & ->). by exists x.
Qed.

Lemma set_parent_all (b : nat) (l : list nat) (f : funcdata) : (forall o, In o l -> o < num_ops f) ->
  exists f', fold_opt (fun f o => op_mut f o (set_parent (Some b))) l f = Some f' /\ reparented f f' /\
    (forall o, In o l -> parent_of f' o = Some b) /\ (forall o, ~ In o l -> ops f' !! o = ops f !! o).
Proof.
  revert f. induction l as [|o l IH]; intros f Hlt; cbn [fold_opt].
  { exists f. split_and!; [done|apply reparented_refl|by intros o []|done]. }
  destruct (lookup_lt_is_Some_2 (ops f) o (Hlt o (or_introl eq_refl))) as [x Hx].
  pose proof (op_mut_update f o (set_parent (Some b)) x Hx) as H. apply runs_exists in H as (f1 & -> & U). cbn [mbind option_bind].
  assert (R : reparented f f1).
  { constructor; [|apply U|by apply (op_update_graph _ _ _ _ _ U)|apply U|apply U]. intros p y. rewrite (ou_ops _ _ _ _ _ U).
    case_decide as E; [intros [= <-]; subst; by exists x|]. intros Hy. exists y. split; [done|by destruct y]. }
  destruct (IH f1) as (f' & -> & R' & Hin & Hout).
  { intros p Hp. rewrite (rt_len _ _ R). apply Hlt. by right. }
  exists f'. split_and!; [done|by eapply reparented_trans| |].
  - intros p [<-|Hp]; [|by apply Hin]. destruct (in_dec Nat.eq_dec o l) as [Hp|Hp]; [by apply Hin|].
    unfold parent_of. rewrite (Hout o Hp), (ou_ops _ _ _ _ _ U). by rewrite decide_True.
  - intros p Hp. rewrite Hout by (intros ?; apply Hp; by right). rewrite (ou_ops _ _ _ _ _ U), decide_False; [done|]. intros ->. apply Hp. by left.
Qed.

Lemma set_parents_runs (f : funcdata) (bs : list block_basic) : (forall b o, In o (lops bs b) -> o < num_ops f) ->
  (forall j k o, In o (lops bs j) -> In o (lops bs k) -> j = k) ->
  exists f', set_parents f bs = Some f' /\ reparented f f' /\
    (forall b o, In o (lops bs b) -> parent_of f' o = Some b) /\ (forall o, (forall b, ~ In o (lops bs b)) -> ops f' !! o = ops f !! o).
Proof.
  intros Hlt Hdis. unfold set_parents.
  assert (H : forall ps f, (forall b blk, In (b, blk) ps -> bs !! b = Some blk) -> (forall b o, In o (lops bs b) -> o < num_ops f) ->
    exists f', fold_opt (fun f '(bi, blk) => fold_opt (fun f o => op_mut f o (set_parent (Some bi))) (bops blk) f) ps f = Some f' /\ reparented f f' /\
      (forall b blk o, In (b, blk) ps -> In o (bops blk) -> parent_of f' o = Some b) /\
      (forall o, (forall b blk, In (b, blk) ps -> ~ In o (bops blk)) -> ops f' !! o = ops f !! o)).
  { clear f Hlt. induction ps as [|[b blk] ps IH]; intros f Hps Hlt; cbn [fold_opt].
    { exists f. split_and!; [done|apply reparented_refl|by intros ? ? ? []|done]. }
    assert (Hb : lops bs b = bops blk) by (unfold lops; by rewrite (Hps b blk (or_introl eq_refl))).
    destruct (set_parent_all b (bops blk) f) as (f1 & -> & R & Hin & Hout); [intros o; rewrite <- Hb; apply Hlt|]. cbn [mbind option_bind].
    destruct (IH f1) as (f' & -> & R' & Hin' & Hout').
    { intros; apply Hps; by right. }
    { intros c o Ho. rewrite (rt_len _ _ R). by eapply Hlt. }
    exists f'. split_and!; [done|by eapply reparented_trans| |].
    - intros c blk' o [[= <- <-]|Hc] Ho; [|by eapply Hin'].
      destruct (existsb (fun e => existsb (Nat.eqb o) (bops (snd e))) ps) eqn:Ex.
      + apply existsb_exists in Ex as ([c blk'] & Hc & (p & Hp & <-%Nat.eqb_eq)%existsb_exists). cbn in Hp.
        rewrite (Hin' c blk' o Hc Hp). f_equal. apply (Hdis c b o); [|by rewrite Hb].
        unfold lops. by rewrite (Hps c blk' (or_intror Hc)).
      + unfold parent_of. rewrite Hout'; [by apply Hin|]. intros c blk' Hc Hp. enough (existsb (fun e => existsb (Nat.eqb o) (bops (snd e))) ps = true) by congruence.
        apply existsb_exists. exists (c, blk'). split; [done|]. apply existsb_exists. exists o. by rewrite Nat.eqb_refl.
    - intros o Ho. rewrite Hout' by (intros c blk' Hc; apply (Ho c blk'); by right). apply Hout, (Ho b blk). by left. }
  destruct (H (imap (fun i b => (i, b)) bs) f) as (f' & -> & R & Hin & Hout); [|done|].
  { intros b blk Hin. apply list_elem_of_In, list_elem_of_lookup in Hin as [j Hj]. rewrite list_lookup_imap in Hj.
    destruct (bs !! j) eqn:E; [|done]. by injection Hj as <- <-. }
  assert (Hps : forall b blk, bs !! b = Some blk -> In (b, blk) (imap (fun i b => (i, b)) bs)).
  { intros b blk Hb. apply list_elem_of_In, list_elem_of_lookup. exists b. rewrite list_lookup_imap. by rewrite Hb. }
  exists f'. split_and!; [done|done| |].
  - intros b o Ho. unfold lops in Ho. destruct (bs !! b) as [blk|] eqn:E; [|done]. by apply (Hin b blk o (Hps b blk E)).
  - intros o Ho. apply Hout. intros b blk Hb Hbo. apply (Ho b). unfold lops.
    apply list_elem_of_In, list_elem_of_lookup in Hb as [j Hj]. rewrite list_lookup_imap in Hj.
    destruct (bs !! j) eqn:E; [|done]. injection Hj as <- <-. by rewrite E.
Qed.

(** ** The function with its blocks *)

(** The blocks of the result are the blocks connected, renamed by [sh]; there may be one in front. *)
Lemma front_block_names (bs : list block_basic) : 0 < List.length bs -> exists sh : nat -> nat,
  (forall i j, sh i = sh j -> i = j) /\ (forall j, lops (front_block bs) (sh j) = lops bs j) /\
  (forall j, louts (front_block bs) (sh j) = map sh (louts bs j)) /\ 0 < List.length (front_block bs) /\
  (forall k, k < List.length (front_block bs) -> (exists j, j < List.length bs /\ k = sh j) \/
    k = 0 /\ lops (front_block bs) 0 = [] /\ louts (front_block bs) 0 = [1]) /\
  (sh 0 = 0 \/ sh 0 = 1 /\ lops (front_block bs) 0 = []).
Proof.
  intros Hl. destruct (front_block_cases bs Hl) as [[H1 ->]|(H1 & H2 & H3 & H4 & H5 & H6 & H7)].
  - exists (fun k => k). split_and!; try done; [intros j; by rewrite map_id|intros k Hk; left; by exists k|by left].
  - exists S. split_and!; try done; [by intros i j [= ->]|lia| |by right].
    intros [|k] Hk; [right; by split_and!|left; exists k; split; [lia|done]].
Qed.

Lemma exits_renamed (f : funcdata) (st : list (Z * list Z)) (R : nat -> nat -> Prop) (body body' : nat -> list nat) (l outs outs' : list nat) :
  exits_ok f st body l outs -> Forall2 R outs' outs -> (forall k o, R k o -> body' k = body o) ->
  (forall k t, In t (body' k) -> exists o, R k o) -> (forall k k' o, R k o -> R k' o -> k = k') -> (forall k o o', R k o -> R k o' -> o = o') ->
  exits_ok f st body' l outs'.
Proof.
  intros Hex HF Hb Hr Hi Hfun i Hl. specialize (Hex i Hl). case_decide as E.
  - destruct Hex as [Hnd Hin]. split.
    + clear Hin. induction HF as [|k o ks os HR HF IH]; [constructor|]. apply NoDup_cons_iff in Hnd as [Hn Hnd].
      constructor; [|by apply IH]. intros Hk. apply Hn. apply list_elem_of_In, list_elem_of_lookup in Hk as [j Hj].
      destruct (Forall2_lookup_l _ _ _ _ _ HF Hj) as (o' & Ho' & HR'). rewrite (Hfun _ _ _ HR HR').
      eapply list_elem_of_In, list_elem_of_lookup_2, Ho'.
    + intros k. split.
      * intros Hk. apply list_elem_of_In, list_elem_of_lookup in Hk as [j Hj]. destruct (Forall2_lookup_l _ _ _ _ _ HF Hj) as (o & Ho & HR).
        destruct (proj1 (Hin o)) as (t & Ht & Hto); [eapply list_elem_of_In, list_elem_of_lookup_2, Ho|]. exists t. by rewrite (Hb _ _ HR).
      * intros (t & Ht & Htk). destruct (Hr k t Htk) as [o HR]. rewrite (Hb _ _ HR) in Htk.
        assert (Ho : In o outs) by (apply Hin; eauto). apply list_elem_of_In, list_elem_of_lookup in Ho as [j Hj].
        destruct (Forall2_lookup_r _ _ _ _ _ HF Hj) as (k' & Hk' & HR'). rewrite (Hi _ _ _ HR HR'). eapply list_elem_of_In, list_elem_of_lookup_2, Hk'.
  - clear Hl E. revert Hex. generalize (succ_ops f st i) as ts. induction HF as [|k o ks os HR HF IH]; intros ts Hex.
    + inversion Hex. constructor.
    + inversion Hex as [|? t ? ts' Ht Hts]; subst. constructor; [by rewrite (Hb _ _ HR)|by apply IH].
Qed.

Record built (f : funcdata) (st : list (Z * list Z)) (f' : funcdata) : Prop := Built {
  bt_wf : wf f';
  bt_entry : ins f' 0 = [];
  bt_some : 0 < num_blocks f';
  bt_reach : forall b, b < num_blocks f' -> reachable f' b;
  bt_basic : forall b, b < num_blocks f' -> (b = 0 /\ block_ops f' b = [] /\ outs f' b = [1]) \/
    (basic_block f (block_ops f' b) /\ exits_ok f st (block_ops f') (block_ops f' b) (outs f' b));
  bt_ops : forall o x, ops f !! o = Some x -> exists x', ops f' !! o = Some x' /\
    ((exists b, In o (block_ops f' b) /\ x' = set_parent (Some b) x) \/ ((forall b, ~ In o (block_ops f' b)) /\ is_dead x' = true));
  bt_start : op_pc f 0 = Some (a_offset (entry f)) -> exists k, block_ops f' k !! 0 = Some 0 /\ (k = 0 \/ k = 1 /\ block_ops f' 0 = []);
}.

Section building.
Context (f : funcdata) (st : list (Z * list Z)) (rs : list (nat * nat)) (bs : list block_basic) (reached : list bool) (order : list nat).
Hypothesis RD : ready f.
Hypothesis CT : cut_ok f st rs bs.
Let e := entry_block f bs.
Hypothesis REACH : forall x, reached !! x = Some true <-> rtc (lstep bs) e x.
Hypothesis RLEN : List.length reached = List.length bs.
Hypothesis NB : numbering bs reached e order.

Lemma cut_at (k : nat) (blk : block_basic) : bs !! k = Some blk -> bops blk = run_body rs k.
Proof. intros Hk. by apply (ct_body _ _ _ _ CT). Qed.

Lemma cut_lops (k : nat) : lops bs k = run_body rs k.
Proof.
  unfold lops. destruct (bs !! k) as [blk|] eqn:E; [by apply cut_at|]. cbn. unfold run_body.
  apply lookup_ge_None in E. rewrite (ct_len _ _ _ _ CT) in E. by apply lookup_ge_None in E as ->.
Qed.

Lemma cut_louts_lt (a b : nat) : In b (louts bs a) -> b < List.length bs.
Proof.
  unfold louts. destruct (bs !! a) as [blk|] eqn:E; [|by intros []]. destruct (ct_body _ _ _ _ CT a blk E) as (_ & _ & _ & _ & H).
  rewrite (ct_len _ _ _ _ CT). intros Hb. exact (proj1 (List.Forall_forall _ _) H b Hb).
Qed.

Lemma reached_lt (x : nat) : reached !! x = Some true -> x < List.length bs.
Proof. intros H. apply lookup_lt_Some in H. by rewrite <- RLEN. Qed.

(** The blocks kept and connected: the [k]th is the block [order[k]] of the cut. *)
Record kept (pr : list block_basic) : Prop := Kept {
  kp_len : List.length pr = List.length order;
  kp_ops : forall k o, order !! k = Some o -> lops pr k = run_body rs o;
  kp_outs : forall k o, order !! k = Some o -> Forall2 (fun k' o' => order !! k' = Some o') (louts pr k) (louts bs o);
  kp_edges : forall a b, count (louts pr a) b = count (lins pr b) a;
  kp_reach : forall k, k < List.length pr -> rtc (lstep pr) 0 k;
}.

Lemma kept_blocks : exists pr cn, mapM (fun b => blk ← bs !! b; renumber order reached blk) order = Some pr /\ connect order pr = Some cn /\ kept cn.
Proof.
  destruct (pruned_runs bs reached e order NB REACH reached_lt) as (pr & E & P).
  { intros k blk Hk. by destruct (ct_body _ _ _ _ CT k blk Hk) as (_ & ? & _). }
  pose proof (pruned_reach bs reached e order NB REACH pr P) as HR. destruct P as [Hl Hat].
  assert (Hlt : forall a b, In b (louts pr a) -> b < List.length pr).
  { intros a b. unfold louts. destruct (pr !! a) as [blk|] eqn:Ea; [|by intros []]. destruct (Hat a blk Ea) as (o & blk0 & _ & _ & _ & _ & HF).
    intros Hb. apply list_elem_of_In, list_elem_of_lookup in Hb as [j Hj]. destruct (Forall2_lookup_l _ _ _ _ _ HF Hj) as (o' & _ & Ho').
    rewrite Hl. by eapply lookup_lt_Some. }
  assert (Hno : forall b, lins pr b = []).
  { intros b. unfold lins. destruct (pr !! b) as [blk|] eqn:Eb; [|done]. by destruct (Hat b blk Eb) as (? & ? & _ & _ & _ & ? & _). }
  destruct (connect_runs order pr Hlt Hno) as (cn & Ec & R & Hc). exists pr, cn. split_and!; [done|done|].
  assert (Hsome : forall k o, order !! k = Some o -> exists blk blk0, pr !! k = Some blk /\ bs !! o = Some blk0 /\ bops blk = bops blk0 /\
    Forall2 (fun k' o' => order !! k' = Some o') (out_edges blk) (out_edges blk0)).
  { intros k o Hk. destruct (lookup_lt_is_Some_2 pr k) as [blk Hb]; [rewrite Hl; by eapply lookup_lt_Some|].
    destruct (Hat k blk Hb) as (o' & blk0 & Ho' & Hb0 & Hops & _ & HF). rewrite Hk in Ho'. injection Ho' as <-. by exists blk, blk0. }
  constructor.
  - by rewrite (re_len _ _ R).
  - intros k o Hk. destruct (Hsome k o Hk) as (blk & blk0 & H1 & H2 & H3 & _). rewrite (re_ops _ _ R). unfold lops. rewrite H1. cbn. by rewrite H3, (cut_at o blk0 H2).
  - intros k o Hk. destruct (Hsome k o Hk) as (blk & blk0 & H1 & H2 & _ & H4). rewrite (re_outs _ _ R). unfold louts. by rewrite H1, H2.
  - done.
  - intros k Hk. rewrite (re_len _ _ R) in Hk. specialize (HR k Hk). revert HR. apply rtc_subrel. intros x y Hxy. unfold lstep in *. by rewrite (re_outs _ _ R).
Qed.

Lemma order_run (k o : nat) : order !! k = Some o -> o < List.length bs.
Proof. intros Hk. apply reached_lt, (nb_in _ _ _ _ NB). eapply list_elem_of_In, list_elem_of_lookup_2, Hk. Qed.

Context (cn : list block_basic) (KP : kept cn).

Lemma kept_ops (k i : nat) : In i (lops cn k) -> exists o, order !! k = Some o /\ In i (run_body rs o).
Proof.
  intros Hi. destruct (order !! k) as [o|] eqn:E; [exists o; split; [done|]; by rewrite (kp_ops _ KP k o E) in Hi|].
  apply lookup_ge_None in E. rewrite <- (kp_len _ KP) in E. unfold lops in Hi. by rewrite (proj2 (lookup_ge_None cn k) E) in Hi.
Qed.

Lemma kept_disjoint (j k i : nat) : In i (lops cn j) -> In i (lops cn k) -> j = k.
Proof.
  intros (o & Ho & Hi)%kept_ops (o' & Ho' & Hi')%kept_ops. rewrite (run_body_unique f rs (ct_runs _ _ _ _ CT) o o' i Hi Hi') in Ho.
  by eapply (order_inj bs reached e order NB).
Qed.

(** The blocks of the result *)
Context (sh : nat -> nat).
Hypothesis INJ : forall i j, sh i = sh j -> i = j.
Hypothesis OPS : forall j, lops (front_block cn) (sh j) = lops cn j.
Hypothesis OUTS : forall j, louts (front_block cn) (sh j) = map sh (louts cn j).
Hypothesis NAMES : forall k, k < List.length (front_block cn) -> (exists j, j < List.length cn /\ k = sh j) \/
    k = 0 /\ lops (front_block cn) 0 = [] /\ louts (front_block cn) 0 = [1].

Lemma final_ops (k i : nat) : In i (lops (front_block cn) k) -> exists j o, k = sh j /\ order !! j = Some o /\ In i (run_body rs o).
Proof.
  intros Hi. assert (Hk : k < List.length (front_block cn)).
  { unfold lops in Hi. destruct (front_block cn !! k) eqn:E; [by eapply lookup_lt_Some|done]. }
  destruct (NAMES k Hk) as [(j & _ & ->)|(-> & E & _)]; [|by rewrite E in Hi]. rewrite OPS in Hi.
  destruct (kept_ops j i Hi) as (o & ? & ?). by exists j, o.
Qed.

Lemma final_disjoint (j k i : nat) : In i (lops (front_block cn) j) -> In i (lops (front_block cn) k) -> j = k.
Proof.
  intros Hj Hk. destruct (final_ops j i Hj) as (j' & _ & -> & _), (final_ops k i Hk) as (k' & _ & -> & _).
  rewrite OPS in Hj, Hk. f_equal. by eapply kept_disjoint.
Qed.

Lemma final_basic (k : nat) : k < List.length (front_block cn) ->
  (k = 0 /\ lops (front_block cn) k = [] /\ louts (front_block cn) k = [1]) \/
  (basic_block f (lops (front_block cn) k) /\ exits_ok f st (lops (front_block cn)) (lops (front_block cn) k) (louts (front_block cn) k)).
Proof.
  intros Hk. destruct (NAMES k Hk) as [(j & Hj & ->)|(-> & E1 & E2)]; [right|by left].
  assert (Ho : exists o, order !! j = Some o) by (apply lookup_lt_is_Some_2; by rewrite <- (kp_len _ KP)). destruct Ho as [o Ho].
  destruct (lookup_lt_is_Some_2 bs o (order_run j o Ho)) as [blk Hb].
  destruct (ct_body _ _ _ _ CT o blk Hb) as (Eb & _ & Hbasic & Hex & _).
  rewrite OPS, OUTS, (kp_ops _ KP j o Ho), <- Eb. split; [done|].
  assert (Ho' : out_edges blk = louts bs o) by (unfold louts; by rewrite Hb). rewrite Ho' in Hex.
  apply (exits_renamed f st (fun k o => exists j, k = sh j /\ order !! j = Some o) (run_body rs) _ _ (louts bs o)); [exact Hex| | | | |].
  - pose proof (kp_outs _ KP j o Ho) as HF. clear -HF. induction HF as [|k' o' ks os HR HF IH]; cbn [map]; [constructor|]. constructor; [by exists k'|done].
  - intros k o' (j' & -> & Hj'). by rewrite OPS, (kp_ops _ KP j' o' Hj').
  - intros k t Ht. destruct (final_ops k t Ht) as (j' & o' & -> & Hj' & _). by exists o', j'.
  - intros k k' o' (j1 & -> & H1) (j2 & -> & H2). f_equal. by eapply (order_inj bs reached e order NB).
  - intros k o1 o2 (j1 & -> & H1) (j2 & E & H2). apply INJ in E as <-. congruence.
Qed.
End building.

Lemma entry_block_lt (f : funcdata) (bs : list block_basic) : 0 < List.length bs -> entry_block f bs < List.length bs.
Proof.
  intros Hl. unfold entry_block. assert (H : forall {A} (p : A -> bool) (l : list A) k, position p l = Some k -> k < List.length l).
  { intros A p l. induction l as [|x l IH]; [done|]. cbn [position List.length]. destruct (p x); [intros k [= <-]; lia|].
    intros k Hk. destruct (position p l) as [j|]; [|done]. injection Hk as <-. specialize (IH j eq_refl). lia. }
  destruct (position _ bs) as [k|] eqn:E; [by apply H in E|done].
Qed.

(** When the first operation is at the entry address, the entry block is the first of the cut. *)
Lemma entry_block_first (f : funcdata) (st : list (Z * list Z)) (rs : list (nat * nat)) (bs : list block_basic) : cut_ok f st rs bs ->
  0 < List.length bs -> op_pc f 0 = Some (a_offset (entry f)) -> entry_block f bs = 0 /\ run_body rs 0 !! 0 = Some 0.
Proof.
  intros CT Hl Hpc. destruct rs as [|[a b] rs'] eqn:Ers; [rewrite (ct_len _ _ _ _ CT) in Hl; cbn in Hl; lia|].
  destruct (ct_runs _ _ _ _ CT) as (-> & Hab & _).
  assert (H0 : run_body ((0, b) :: rs') 0 !! 0 = Some 0) by (unfold run_body; cbn [lookup list_lookup]; rewrite lookup_seq_lt by lia; done).
  split; [|done]. unfold entry_block. destruct bs as [|blk bs]; [cbn in Hl; lia|]. cbn [position].
  rewrite bool_decide_true; [done|]. unfold first_pc. destruct (ct_body _ _ _ _ CT 0 blk eq_refl) as (-> & _). rewrite H0. exact Hpc.
Qed.

Lemma reparent_wf (f f1 f2 : funcdata) (bs : list block_basic) : wf f -> blocks f = [] -> edited f f1 -> reparented f1 f2 -> num_ops f1 = num_ops f ->
  balanced bs -> (forall j k i, In i (lops bs j) -> In i (lops bs k) -> j = k) -> (forall b, List.NoDup (lops bs b)) ->
  (forall b o, In o (lops bs b) -> parent_of f2 o = Some b) -> (forall o, (forall b, ~ In o (lops bs b)) -> ops f2 !! o = ops f1 !! o) ->
  wf (set_blocks f2 bs).
Proof.
  intros [G P E S] Hb [G1 K] R Hn BL Hdis Hnd Hin Hout.
  assert (Hpar : forall o, parent_of f1 o = None).
  { intros o. destruct (parent_of f1 o) as [b|] eqn:Ep; [|done]. pose proof (pl_block _ (keeps_placed _ _ K P) o b Ep) as Hlt.
    rewrite (k_blocks _ _ K), Hb in Hlt. cbn in Hlt. lia. }
  constructor.
  - destruct (rt_graph _ _ R G1). by constructor.
  - constructor.
    + intros b o Ho. by apply Hin.
    + intros b. apply Hnd.
    + intros o b Ep. change (parent_of f2 o = Some b) in Ep. change (b < List.length bs).
      destruct (in_dec Nat.eq_dec o (concat (map bops bs))) as [Hex|Hex].
      * apply in_concat in Hex as (l & (blk & <- & Hblk)%in_map_iff & Ho). apply list_elem_of_In, list_elem_of_lookup in Hblk as [c Hc].
        assert (Hoc : In o (lops bs c)) by (unfold lops; by rewrite Hc). rewrite (Hin c o Hoc) in Ep. injection Ep as <-. by eapply lookup_lt_Some.
      * assert (Hno : forall c, ~ In o (lops bs c)).
        { intros c Hc. apply Hex. unfold lops in Hc. destruct (bs !! c) as [blk|] eqn:Ec; [|done]. apply in_concat. exists (bops blk).
          split; [|done]. apply in_map. by eapply list_elem_of_In, list_elem_of_lookup_2. }
        specialize (Hpar o). unfold parent_of in *. rewrite (Hout o Hno), Hpar in Ep. done.
    + intros o x t Hx Ht. change (ops f2 !! o = Some x) in Hx. change (t < num_ops f2).
      destruct (rt_ops _ _ R o x Hx) as (y & Hy & Ey). rewrite Ey in Ht. cbn in Ht. rewrite (rt_len _ _ R).
      exact (pl_guard _ (keeps_placed _ _ K P) o y t Hy Ht).
  - intros a b. apply (bl_edges _ BL).
  - pose proof (spaces_ok_keeps _ _ K S) as S1. unfold spaces_ok in *. change (spaces (set_blocks f2 bs)) with (spaces f2). by rewrite (rt_spaces _ _ R).
Qed.

Lemma rtc_reachable (f : funcdata) (b : nat) : rtc (lstep (blocks f)) 0 b -> reachable f b.
Proof.
  revert b. apply (rtc_ind_r (fun b => reachable f b)); [exists [0]; constructor|]. intros x y _ Hxy Hx. by eapply reachable_step.
Qed.

Lemma in_to_destroy (bs : list block_basic) (reached : list bool) (o : nat) :
  In o (concat (map (fun b => default [] (bops <$> bs !! b))
    (List.filter (fun b => negb (bool_decide (reached !! b = Some true))) (seq 0 (List.length bs))))) <->
  exists b, In o (lops bs b) /\ reached !! b <> Some true.
Proof.
  rewrite in_concat. split.
  - intros (l & (b & <- & Hb)%in_map_iff & Ho). apply filter_In in Hb as [_ Hb]. exists b. split; [done|].
    by rewrite negb_true_iff, bool_decide_eq_false in Hb.
  - intros (b & Ho & Hb). exists (lops bs b). split; [|done]. apply in_map_iff. exists b. split; [done|]. apply filter_In.
    rewrite negb_true_iff, bool_decide_eq_false. split; [|done]. apply in_seq. unfold lops in Ho.
    destruct (bs !! b) eqn:E; [apply lookup_lt_Some in E; lia|done].
Qed.

Lemma build_cfg_runs (f : funcdata) (st : list (Z * list Z)) : ready f -> exists f', build_cfg f st = Some f' /\ built f st f'.
Proof.
  intros RD. unfold build_cfg. pose proof (rd_ops _ RD) as H0. unfold num_ops in H0.
  destruct (Nat.eqb_spec (List.length (ops f)) 0) as [|_]; [lia|].
  destruct (cut_blocks_runs f st RD) as (rs & bs & -> & CT & Hl). cbn [mbind option_bind].
  pose proof (entry_block_lt f bs Hl) as He.
  destruct (reached_from_runs bs (entry_block f bs)) as (reached & -> & RLEN & REACH); [|done|]; cbn [mbind option_bind].
  { intros a b. by eapply (cut_louts_lt f st rs bs). }
  set (td := concat _). destruct (destroy_all td f (wf_graph _ (rd_wf _ RD))) as (f1 & -> & Ed & Hn1 & Hkeep & Hdead).
  { intros o Ho. apply in_to_destroy in Ho as (b & Ho & _). rewrite (cut_lops f st rs bs CT) in Ho.
    apply run_body_in in Ho as (x & y & Hr & Ho). pose proof (runs_from_bounds _ _ _ _ _ _ (ct_runs _ _ _ _ CT) Hr). lia. }
  cbn [mbind option_bind]. set (order := block_order f1 bs reached (entry_block f bs)).
  assert (NB : numbering bs reached (entry_block f bs) order).
  { apply block_order_numbers; [done|]. apply REACH, rtc_refl. }
  destruct (kept_blocks f st rs bs reached order CT REACH RLEN NB) as (pr & cn & -> & Ec & KP). cbn [mbind option_bind].
  rewrite Ec. cbn [mbind option_bind].
  assert (Hcl : 0 < List.length cn) by (rewrite (kp_len _ _ _ _ KP); eapply lookup_lt_Some, (nb_entry _ _ _ _ NB)).
  destruct (front_block_names cn Hcl) as (sh & INJ & OPS & OUTS & Hfl & NAMES & Hsh).
  pose proof (front_block_balanced cn Hcl (kp_edges _ _ _ _ KP) (kp_reach _ _ _ _ KP)) as BL.
  assert (Hdis := final_disjoint f st rs bs reached order CT NB cn KP sh OPS NAMES).
  assert (Hfin := final_ops rs bs order cn KP sh OPS NAMES).
  destruct (set_parents_runs f1 (front_block cn)) as (f2 & -> & R & Hin & Hout); [|done|]; cbn [mbind option_bind].
  { intros b o Ho. destruct (Hfin b o Ho) as (j & o' & _ & _ & (x & y & Hr & Ho')%run_body_in).
    pose proof (runs_from_bounds _ _ _ _ _ _ (ct_runs _ _ _ _ CT) Hr). lia. }
  eexists. split; [done|].
  assert (Hbasic := final_basic f st rs bs reached order CT RLEN NB cn KP sh INJ OPS OUTS NAMES).
  constructor.
  - eapply reparent_wf; [apply RD|apply RD|exact Ed|exact R|done|exact BL|exact Hdis| |exact Hin|exact Hout].
    intros b. destruct (decide (b < List.length (front_block cn))) as [Hb|Hb].
    + destruct (Hbasic b Hb) as [(_ & -> & _)|[[(a & n & ->) _ _] _]]; [constructor|apply seq_NoDup].
    + unfold lops. rewrite (proj2 (lookup_ge_None (front_block cn) b)) by lia. constructor.
  - apply (bl_entry _ BL).
  - done.
  - intros b Hb. apply rtc_reachable. by apply (bl_reach _ BL).
  - apply Hbasic.
  - intros o x Hx. assert (Ho : o < num_ops f) by by eapply lookup_lt_Some.
    destruct (block_of_body f rs (ct_runs _ _ _ _ CT) o Ho) as (k & _ & Hk & Hkl).
    destruct (reached !! k) as [r|] eqn:Er; [|apply lookup_ge_None in Er; rewrite RLEN, (ct_len _ _ _ _ CT) in Er; lia].
    assert (Htd : r = false -> In o td).
    { intros ->. apply in_to_destroy. exists k. by rewrite (cut_lops f st rs bs CT), Er. }
    destruct r.
    + assert (Hord : In k order) by by apply (nb_in _ _ _ _ NB). apply list_elem_of_In, list_elem_of_lookup in Hord as [j Hj].
      assert (Hob : In o (lops (front_block cn) (sh j))) by (rewrite OPS; by rewrite (kp_ops _ _ _ _ KP j k Hj)).
      assert (Hnt : ~ In o td).
      { intros (b & Hb & Hnr)%in_to_destroy. rewrite (cut_lops f st rs bs CT) in Hb.
        rewrite (run_body_unique f rs (ct_runs _ _ _ _ CT) k b o Hk Hb) in Er. congruence. }
      pose proof (Hin (sh j) o Hob) as Hp. unfold parent_of in Hp. destruct (ops f2 !! o) as [x'|] eqn:Ex'; [|done]. cbn in Hp.
      destruct (rt_ops _ _ R o x' Ex') as (y & Hy & E'). rewrite (Hkeep o Hnt), Hx in Hy. injection Hy as <-. rewrite Hp in E'.
      exists x'. split; [done|]. left. by exists (sh j).
    + destruct (Hdead o (Htd eq_refl)) as (y & Hy & Hd).
      assert (Hno : forall b, ~ In o (lops (front_block cn) b)).
      { intros b Hb. destruct (Hfin b o Hb) as (j & k' & _ & Hj & Hk').
        rewrite (run_body_unique f rs (ct_runs _ _ _ _ CT) k k' o Hk Hk') in Er.
        assert (reached !! k' = Some true) by (apply (nb_in _ _ _ _ NB); eapply list_elem_of_In, list_elem_of_lookup_2, Hj). congruence. }
      exists y. split; [change (ops f2 !! o = Some y); by rewrite (Hout o Hno)|]. by right.
  - intros Hpc. destruct (entry_block_first f st rs bs CT Hl Hpc) as [Ee Hr0].
    pose proof (nb_entry _ _ _ _ NB) as He0. rewrite Ee in He0. exists (sh 0). change (block_ops _ (sh 0)) with (lops (front_block cn) (sh 0)).
    rewrite OPS, (kp_ops _ _ _ _ KP 0 0 He0). split; [done|]. destruct Hsh as [->|[-> ?]]; [by left|by right].
Qed.

(** ** Samples *)

Definition at_pc (p : Z) : seq_num := SeqNum (Addr 1 p) 0.

Definition readyb (f : funcdata) : bool :=
  Nat.eqb (List.length (blocks f)) 0 && Nat.ltb 0 (num_ops f) && forallb (fun o => negb (is_dead o)) (ops f) &&
  forallb (fun i => match op_code f i with
                    | Some oc => negb (is_branch oc) || bool_decide (oc = Branchind) ||
                                 match target_of f i with Some t => Nat.ltb t (num_ops f) | None => true end
                    | None => true
                    end) (seq 0 (num_ops f)).

Lemma readyb_ready (f : funcdata) : wf f -> readyb f = true -> ready f.
Proof.
  intros W H. unfold readyb in H. rewrite !andb_true_iff in H. destruct H as [[[H1 H2] H3] H4]. constructor; [done| | | |].
  - by apply Nat.eqb_eq, nil_length_inv in H1.
  - by apply Nat.ltb_lt.
  - intros o x Hx. rewrite forallb_forall in H3. apply negb_true_iff, H3. eapply list_elem_of_In, list_elem_of_lookup_2, Hx.
  - intros i oc t Hc Hb Hn Ht. rewrite forallb_forall in H4. assert (Hi : In i (seq 0 (num_ops f))).
    { apply in_seq. unfold op_code in Hc. destruct (ops f !! i) eqn:E; [apply lookup_lt_Some in E; unfold num_ops; lia|done]. }
    specialize (H4 i Hi). rewrite Hc, Hb, Ht in H4. cbn in H4. rewrite bool_decide_false in H4 by done. by apply Nat.ltb_lt.
Qed.

(** A loop whose head is the entry: a copy and a conditional exit, a jump back, a return. *)
Definition loop_ops : funcdata :=
  edited_by sample_start
    [ENewConst 4 7; ENewVarnode 4 (Addr 1 0x1008); ENewUnique 1; ENewVarnode 4 (Addr 1 0x1000);
     ENewOp Copy (at_pc 0x1000) [0]; ENewOp Cbranch (at_pc 0x1002) [1; 2]; ENewOp Branch (at_pc 0x1004) [3]; ENewOp Return (at_pc 0x1008) [0]].

Lemma loop_ops_ready : ready loop_ops.
Proof.
  apply readyb_ready; [|vm_compute; reflexivity]. apply edited_by_wf; [exact sample_start_wf|vm_compute; reflexivity].
Qed.

Example loop_blocks : blocks <$> build_cfg loop_ops [] =
  Some [BlockBasic [] [] [1]; BlockBasic [0; 1] [2; 0] [2; 3]; BlockBasic [2] [1] [1]; BlockBasic [3] [1] []].
Proof. vm_compute. reflexivity. Qed.

(** A relative branch past the last operation panics, though the search for leaders skips such a target
    and one before the first operation is no target at all. *)
Example branch_past_the_end :
  let f target := edited_by sample_start [ENewConst 4 target; ENewOp Branch (at_pc 0x1000) [0]] in
  build_cfg (f 1%Z) [] = None /\ is_Some (build_cfg (f 0xffffffff%Z) []).
Proof. vm_compute. by split; [|eexists]. Qed.

(** ** Properties *)

(** [C2] [build_cfg] of operations not yet in blocks runs without panic and leaves the function well
    formed; nothing leads back to its first block and every block is reached from it; so the dominators
    computed next are, for every block, those of the walks from the entry. *)
Theorem build_cfg_wf (f : funcdata) (st : list (Z * list Z)) : ready f ->
  exists f', build_cfg f st = Some f' /\ wf f' /\ ins f' 0 = [] /\ (forall b, b < num_blocks f' -> reachable f' b) /\
    exists dom, compute f' = Some dom /\
      forall a b, b < num_blocks f' -> exists r, dominates dom a b = Some r /\ (r = true <-> dominated f' a b).
Proof.
  intros RD. destruct (build_cfg_runs f st RD) as (f' & E & []). exists f'. split_and!; [done..|].
  destruct (compute_runs f' (wf_edges _ bt_wf0) bt_some0) as (dom & Ed & C). exists dom. split; [done|].
  intros a b Hb. apply (cd_chain _ _ C). auto.
Qed.

Lemma build_cfg_wf_witness : exists f', build_cfg loop_ops [] = Some f' /\ wf f' /\ ins f' 0 = [] /\ outs f' 1 = [2; 3].
Proof.
  destruct (build_cfg_wf loop_ops [] loop_ops_ready) as (f' & E & W & H0 & _). exists f'. split_and!; [done|done|done|].
  vm_compute in E. injection E as <-. reflexivity.
Defined.

(** [C16] The blocks [build_cfg] builds are basic: consecutive operations, of which only the last ends a
    block and only the first is branched to; the edges out of a block lead to the blocks of the
    operations control passes to, in order; an operation is in the one block it names, or dead; and the
    first operation at the entry address opens the first block that has operations. *)
Theorem build_cfg_basic_blocks (f : funcdata) (st : list (Z * list Z)) : ready f ->
  exists f', build_cfg f st = Some f' /\
    (forall b, b < num_blocks f' -> (b = 0 /\ block_ops f' b = [] /\ outs f' b = [1]) \/
      (basic_block f (block_ops f' b) /\ exits_ok f st (block_ops f') (block_ops f' b) (outs f' b))) /\
    (forall o x, ops f !! o = Some x -> exists x', ops f' !! o = Some x' /\
      ((exists b, In o (block_ops f' b) /\ x' = set_parent (Some b) x) \/ ((forall b, ~ In o (block_ops f' b)) /\ is_dead x' = true))) /\
    (op_pc f 0 = Some (a_offset (entry f)) -> exists k, block_ops f' k !! 0 = Some 0 /\ (k = 0 \/ k = 1 /\ block_ops f' 0 = [])).
Proof. intros RD. destruct (build_cfg_runs f st RD) as (f' & E & []). exists f'. by split_and!. Qed.

Lemma build_cfg_basic_blocks_witness : exists f', build_cfg loop_ops [] = Some f' /\ basic_block loop_ops (block_ops f' 1) /\
  block_ops f' 1 = [0; 1] /\ exists k, block_ops f' k !! 0 = Some 0.
Proof.
  destruct (build_cfg_basic_blocks loop_ops [] loop_ops_ready) as (f' & E & Hb & _ & Hs). exists f'. split; [done|].
  destruct (Hs ltac:(vm_compute; reflexivity)) as (k & Hk & _).
  assert (Hn : 1 < num_blocks f') by (vm_compute in E; injection E as <-; vm_compute; lia).
  destruct (Hb 1 Hn) as [[? _]|[Hbb _]]; [discriminate|]. split; [exact Hbb|]. split; [|by exists k].
  vm_compute in E. injection E as <-. reflexivity.
Defined.
