(* ===== verification/Cover.v ===== *)
(** [decompile/cover.rs]: where a value is alive, as ranges of program points per block.  In a block of
    [n] operations the entry is point 0, operation [i] reads at [2i+1] and writes at [2i+2], and the exit
    is [2n+2].  Hash maps by block are [gmap]s; an operation in no block has no position. *)
From Stdlib Require Import ZArith Lia Bool List.
From stdpp Require Import base decidable option list gmap.
From S2P Require Import Prelude Space OpCode Funcdata.
Local Open Scope Z_scope.

(** ** [Cover] *)

(** [cblocks] holds the hull of the ranges of a block, [spans] the ranges *)
Record cover := Cover { cblocks : gmap nat (Z * Z); spans : gmap nat (list (Z * Z)) }.

Definition no_cover : cover := Cover ∅ ∅.

Definition i32_min : Z := -2147483648.
Definition i32_max : Z := 2147483647.

(** the order of pairs *)
Definition span_le (p q : Z * Z) : bool := (fst p <? fst q) || ((fst p =? fst q) && (snd p <=? snd q)).

(** [match merged.last_mut()]; the last range comes first *)
Definition push_span (merged : list (Z * Z)) (p : Z * Z) : list (Z * Z) :=
  match merged with
  | (lo, hi) :: rest => if fst p <=? i32 (hi + 1) then (lo, Z.max hi (snd p)) :: rest else p :: merged
  | [] => [p]
  end.

Definition merge_spans (l : list (Z * Z)) : list (Z * Z) := rev (fold_left push_span l []).

Definition extend (c : cover) (block : nat) (lo hi : Z) : cover :=
  let e := default (i32_max, i32_min) (cblocks c !! block) in
  let v := default [] (spans c !! block) ++ [(lo, hi)] in
  Cover (<[block := (Z.min (fst e) lo, Z.max (snd e) hi)]> (cblocks c))
    (<[block := merge_spans (sort_by span_le v)]> (spans c)).

Definition intersects (c other : cover) : bool :=
  existsb (fun '(b, (lo1, hi1)) =>
    match cblocks other !! b with Some (lo2, hi2) => (lo1 <=? hi2) && (lo2 <=? hi1) | None => false end)
    (map_to_list (cblocks c)).

Definition is_empty (c : cover) : bool := bool_decide (cblocks c = ∅).
Definition block_range (c : cover) (block : nat) : option (Z * Z) := cblocks c !! block.
Definition span_of (c : cover) (block : nat) : option (Z * Z) := cblocks c !! block.

Definition merge_from (c other : cover) : cover :=
  fold_left (fun c '(b, ranges) => fold_left (fun c '(lo, hi) => extend c b lo hi) ranges c) (map_to_list (spans other)) c.

Definition contains_point (c : cover) (block : nat) (point : Z) : bool :=
  match spans c !! block with Some v => existsb (fun '(lo, hi) => (lo <=? point) && (point <=? hi)) v | None => false end.

Definition contains_op_interior (c : cover) (block : nat) (point : Z) : bool :=
  match spans c !! block with Some v => existsb (fun '(lo, hi) => (lo <=? point) && (point <? hi)) v | None => false end.

(** ** Positions *)

Definition position (pos : list (option (nat * nat))) (op : nat) : option (nat * nat) := pos !! op ≫= id.

(** [pos[op] = (b, i)] for the operations of a block from index [i] on *)
Fixpoint place_ops (pos : list (option (nat * nat))) (b i : nat) (l : list nat) : option (list (option (nat * nat))) :=
  match l with
  | [] => Some pos
  | op :: l => if Nat.ltb op (List.length pos) then place_ops (<[op := Some (b, i)]> pos) b (S i) l else None
  end.

Fixpoint place_blocks (pos : list (option (nat * nat))) (b : nat) (l : list block_basic) : option (list (option (nat * nat))) :=
  match l with
  | [] => Some pos
  | x :: l => pos ← place_ops pos b 0 (bops x); place_blocks pos (S b) l
  end.

Definition op_positions (f : funcdata) : option (list (option (nat * nat))) :=
  place_blocks (replicate (List.length (ops f)) None) 0 (blocks f).

Definition op_index (f : funcdata) (op : nat) (pos : list (option (nat * nat))) : option (option (nat * nat)) :=
  o ← ops f !! op;
  match opc o, guarded_op o with
  | Indirect, Some g => match position pos g with Some p => Some (Some p) | None => Some (position pos op) end
  | _, _ => Some (position pos op)
  end.

(** [2 * i + 1], [2 * i + 2] and [2 * n + 2], in [i32] *)
Definition read_point (i : nat) : Z := i32 (2 * i32 (Z.of_nat i) + 1).
Definition write_point (i : nat) : Z := i32 (2 * i32 (Z.of_nat i) + 2).

(** ** Covers of values *)

(** where a value comes alive; free values and constants do not *)
Definition def_point (f : funcdata) (v : nat) (pos : list (option (nat * nat))) : option (option (nat * Z)) :=
  vn ← varnodes f !! v;
  if is_written vn then
    d ← vdef vn; p ← op_index f d pos;
    '(db, di) ← p;
    Some (Some (db, write_point di))
  else Some (if is_input vn then Some (0%nat, 0) else None).

(** the predecessors in whose slots a MULTIEQUAL reads [v], the last one first *)
Fixpoint phi_preds (v : nat) (inrefs preds : list nat) (live : list nat) : list nat :=
  match inrefs with
  | [] => live
  | iv :: inrefs =>
      phi_preds v inrefs (tail preds) (if Nat.eqb iv v then match preds with p :: _ => p :: live | [] => live end else live)
  end.

(** the body of [for u in descend]: the cover, and the blocks to whose exit [v] is alive *)
Definition read_one (f : funcdata) (pos : list (option (nat * nat))) (def : nat * Z) (v : nat) (st : cover * list nat) (u : nat) : option (cover * list nat) :=
  let '(cov, live) := st in
  p ← op_index f u pos;
  match p with
  | None => Some st
  | Some (ub, ui) =>
      o ← ops f !! u; b ← blocks f !! ub;
      if bool_decide (opc o = Multiequal) then Some (cov, phi_preds v (inrefs o) (in_edges b) live)
      else
        let rpos := read_point ui in
        if Nat.eqb (fst def) ub && (snd def <=? rpos) then Some (extend cov ub (snd def) rpos, live)
        else Some (extend cov ub 0 rpos, fold_left (fun l p => p :: l) (in_edges b) live)
  end.

(** [while let Some(b) = liveout.pop()]; the top of the stack comes first *)
Fixpoint walk_back (fuel : nat) (f : funcdata) (def : nat * Z) (cov : cover) (seen : gset nat) (live : list nat) : option cover :=
  match fuel with
  | O => None
  | S fuel =>
      match live with
      | [] => Some cov
      | b :: live =>
          if bool_decide (b ∈ seen) then walk_back fuel f def cov seen live
          else
            x ← blocks f !! b;
            let seen := {[b]} ∪ seen in
            let here := Nat.eqb (fst def) b in
            let cov := extend cov b (if here then snd def else 0) (write_point (List.length (bops x))) in
            let live := if here then live else fold_left (fun l p => if bool_decide (p ∈ seen) then l else p :: l) (in_edges x) live in
            walk_back fuel f def cov seen live
      end
  end.

(** each block puts its predecessors on the stack once at most *)
Definition walk_fuel (f : funcdata) (live : list nat) : nat := S (List.length live + sum_list_with (fun b => List.length (in_edges b)) (blocks f)).

(** from the reads of [v] back to its definition *)
Definition cover_reads (f : funcdata) (pos : list (option (nat * nat))) (def : nat * Z) (v : nat) (reads : list nat) (cov : cover) : option cover :=
  '(cov, live) ← fold_opt (read_one f pos def v) reads (cov, []);
  walk_back (walk_fuel f live) f def cov ∅ live.

(** [sort_unstable(); dedup()] *)
Fixpoint dedup_adjacent (l : list nat) : list nat :=
  match l with
  | [] => []
  | a :: l' =>
      match l' with
      | b :: _ => if Nat.eqb a b then dedup_adjacent l' else a :: dedup_adjacent l'
      | [] => [a]
      end
  end.
Definition sorted_readers (vn : varnode) : list nat := dedup_adjacent (sort_by Nat.leb (descend vn)).

Definition cover_to_read (f : funcdata) (v read_op : nat) (pos : list (option (nat * nat))) : option cover :=
  d ← def_point f v pos;
  match d with
  | None => Some no_cover
  | Some def => cover_reads f pos def v [read_op] no_cover
  end.

Definition cover_of (f : funcdata) (v : nat) (pos : list (option (nat * nat))) : option cover :=
  d ← def_point f v pos;
  match d with
  | None => Some no_cover
  | Some def => vn ← varnodes f !! v; cover_reads f pos def v (sorted_readers vn) (extend no_cover (fst def) (snd def) (snd def))
  end.

Definition cover_replacing (f : funcdata) (def_vn read_vn : nat) (pos : list (option (nat * nat))) : option cover :=
  d ← def_point f def_vn pos;
  match d with
  | None => Some no_cover
  | Some def => vn ← varnodes f !! read_vn; cover_reads f pos def read_vn (sorted_readers vn) no_cover
  end.

Definition def_point_cover (f : funcdata) (v : nat) (pos : list (option (nat * nat))) : option cover :=
  vn ← varnodes f !! v;
  if is_written vn then
    d ← vdef vn; p ← op_index f d pos;
    Some (match p with Some (db, di) => extend no_cover db (write_point di) (write_point di) | None => no_cover end)
  else Some (if is_input vn then extend no_cover 0 0 0 else no_cover).

(** ** Covers through implied values *)

(** the body of [for &op in &f.vn(cur).descend]: the cover, and the values met, in order *)
Definition extend_use (f : funcdata) (v : nat) (pos : list (option (nat * nat))) (is_implied : nat -> bool) (cur : nat) (st : cover * list nat) (op : nat) : option (cover * list nat) :=
  let '(cov, path) := st in
  o ← ops f !! op;
  if is_dead o then Some st
  else
    cov ← (if Nat.eqb cur v then Some cov else r ← cover_to_read f v op pos; Some (merge_from cov r));
    Some (cov, match output o with
               | Some out => if is_implied out && negb (bool_decide (out ∈ path)) then path ++ [out] else path
               | None => path
               end).

(** [while i < path.len()]; the path holds what [seen] holds *)
Fixpoint extend_path (fuel : nat) (f : funcdata) (v : nat) (pos : list (option (nat * nat))) (is_implied : nat -> bool) (i : nat) (cov : cover) (path : list nat) : option cover :=
  match fuel with
  | O => None
  | S fuel =>
      match path !! i with
      | None => Some cov
      | Some cur => x ← varnodes f !! cur; '(cov, path) ← fold_opt (extend_use f v pos is_implied cur) (descend x) (cov, path); extend_path fuel f v pos is_implied (S i) cov path
      end
  end.

(** the path meets each value once *)
Definition extended_cover (f : funcdata) (v : nat) (pos : list (option (nat * nat))) (is_implied : nat -> bool) : option cover :=
  cov ← cover_of f v pos;
  extend_path (S (List.length (varnodes f))) f v pos is_implied 0 cov [v].

(** ** All covers *)

Definition collect (get : nat -> option cover) (n : nat) : option (gmap nat cover) :=
  fold_opt (fun out v => c ← get v; Some (if is_empty c then out else <[v := c]> out)) (seq 0 n) ∅.

Definition all_covers (f : funcdata) : option (gmap nat cover) :=
  pos ← op_positions f;
  collect (fun v => cover_of f v pos) (List.length (varnodes f)).

Definition all_covers_extended (f : funcdata) (explicit : list bool) : option (gmap nat cover) :=
  pos ← op_positions f;
  let is_implied x := negb (default true (explicit !! x)) in
  collect (fun v => extended_cover f v pos is_implied) (List.length (varnodes f)).
