(* ===== verification/CoverFacts.v ===== *)
(** Covers as sets of program points: what [extend], [merge_from] and the queries do to them. *)
From Stdlib Require Import ZArith Lia Bool List Sorted.
From stdpp Require Import base decidable option list gmap tactics.
From S2P Require Import Prelude Space OpCode Funcdata Cover.
Local Open Scope Z_scope.

(** ** Ranges *)

Definition within (p : Z * Z) (q : Z) : Prop := fst p <= q <= snd p.
Definition in_spans (l : list (Z * Z)) (q : Z) : Prop := exists p, In p l /\ within p q.

(** a range of points, whose end has a successor in [i32] *)
Definition span_ok (p : Z * Z) : Prop := 0 <= fst p <= snd p /\ snd p < i32_max.

(** ranges from the last to the first, with points between any two *)
Fixpoint apart (l : list (Z * Z)) : Prop :=
  match l with
  | p :: l' => match l' with q :: _ => snd q + 1 < fst p | [] => True end /\ apart l'
  | [] => True
  end.

Lemma in_spans_cons (p : Z * Z) (l : list (Z * Z)) (q : Z) : in_spans (p :: l) q <-> within p q \/ in_spans l q.
Proof. split; [intros (r & [<-|Hr] & H); [by left|right; by exists r]|intros [H|(r & Hr & H)]; [exists p|exists r]; cbn; auto]. Qed.

Lemma in_spans_nil (q : Z) : ~ in_spans [] q.
Proof. by intros (p & [] & _). Qed.

Lemma in_spans_incl (l l' : list (Z * Z)) (q : Z) : (forall p, In p l <-> In p l') -> in_spans l q <-> in_spans l' q.
Proof. intros H; split; intros (p & Hp & Hq); exists p; split; try done; by apply H. Qed.

Lemma in_spans_app (l l' : list (Z * Z)) (q : Z) : in_spans (l ++ l') q <-> in_spans l q \/ in_spans l' q.
Proof.
  split.
  - intros (p & Hp%in_app_iff & Hq); destruct Hp; [left|right]; by exists p.
  - intros [(p & Hp & Hq)|(p & Hp & Hq)]; exists p; (split; [apply in_app_iff; auto|done]).
Qed.

Lemma next_point (z : Z) : 0 <= z < i32_max -> i32 (z + 1) = z + 1.
Proof. unfold i32_max, i32, w32; intros H; rewrite Z.mod_small by lia; destruct (Z.ltb_spec (z + 1) 2147483648); lia. Qed.

(** the last range starts no later than [a] *)
Definition starts_by (l : list (Z * Z)) (a : Z) : Prop := match l with p :: _ => fst p <= a | [] => True end.

Record pushed (l l' : list (Z * Z)) (p : Z * Z) : Prop := Pushed {
  pu_spans : forall q, in_spans l' q <-> in_spans l q \/ within p q;
  pu_ok : List.Forall span_ok l';
  pu_apart : apart l';
  pu_starts : starts_by l' (fst p);
  pu_some : l' <> [];
}.

Lemma push_span_spec (l : list (Z * Z)) (p : Z * Z) : List.Forall span_ok l -> apart l -> starts_by l (fst p) -> span_ok p -> pushed l (push_span l p) p.
Proof.
  intros Hl Ha Hs [Hp Hp']; destruct l as [|[lo hi] rest]; cbn [push_span].
  - constructor; cbn; [intros q; rewrite in_spans_cons; tauto|constructor; [by split|constructor]|done|done|done].
  - pose proof (List.Forall_inv Hl) as [H1 H2]; pose proof (List.Forall_inv_tail Hl) as Hr; cbn in H1, H2, Hs; rewrite next_point by lia; destruct p as [a b]; cbn [fst snd] in *.
    destruct (Z.leb_spec a (hi + 1)) as [L|L]; constructor; cbn [fst snd starts_by]; try done; try lia.
    + intros q; rewrite !in_spans_cons; unfold within; cbn [fst snd]; split; [intros [H|H]; [|tauto]|intros [[H|H]|H]; [left|tauto|left]; lia].
      destruct (Z.le_gt_cases q hi); [left; left; lia|right; lia].
    + constructor; [|done]; split; cbn; lia.
    + intros q; rewrite in_spans_cons; tauto.
    + constructor; [by split|done].
Qed.

Lemma push_all_in (l merged : list (Z * Z)) : List.Forall span_ok l -> List.Forall span_ok merged -> apart merged ->
  StronglySorted (fun p q => fst p <= fst q) l -> match l with p :: _ => starts_by merged (fst p) | [] => True end ->
  let m := fold_left push_span l merged in
  (forall q, in_spans m q <-> in_spans merged q \/ in_spans l q) /\ List.Forall span_ok m /\ apart m /\ (l <> [] \/ merged <> [] -> m <> []).
Proof.
  revert merged; induction l as [|p l IH]; intros merged Hl Hm Ha Hs Hst; cbn [fold_left].
  - split_and!; try done; [|by intros [?|?]]; intros q; pose proof (in_spans_nil q); tauto.
  - inversion Hl as [|? ? Hp Hl']; subst; inversion Hs as [|? ? Hs' Hle]; subst; destruct (push_span_spec merged p Hm Ha Hst Hp) as [P1 P2 P3 P4 P5].
    destruct (IH (push_span merged p)) as (Q1 & Q2 & Q3 & Q4); try done.
    { destruct l as [|r l]; [done|]; apply List.Forall_inv in Hle; unfold starts_by in *; destruct (push_span merged p) as [|t ?]; [done|]; lia. }
    split_and!; try done; [|intros _; apply Q4; by right]; intros q; rewrite Q1, P1, in_spans_cons; tauto.
Qed.

Lemma span_le_total (p q : Z * Z) : span_le p q = true \/ span_le q p = true.
Proof. unfold span_le; rewrite !orb_true_iff, !andb_true_iff, !Z.ltb_lt, !Z.eqb_eq, !Z.leb_le; lia. Qed.

Lemma span_le_trans (p q r : Z * Z) : span_le p q = true -> span_le q r = true -> span_le p r = true.
Proof. unfold span_le; rewrite !orb_true_iff, !andb_true_iff, !Z.ltb_lt, !Z.eqb_eq, !Z.leb_le; lia. Qed.

Lemma sort_spans (l : list (Z * Z)) : StronglySorted (fun p q => fst p <= fst q) (sort_by span_le l).
Proof.
  pose proof (sort_by_sorted span_le span_le_total span_le_trans l) as H; induction H as [|p l' _ IH Hp]; constructor; [done|].
  eapply List.Forall_impl; [|exact Hp]; intros q; unfold span_le; rewrite !orb_true_iff, !andb_true_iff, !Z.ltb_lt, !Z.eqb_eq, !Z.leb_le; lia.
Qed.

Lemma merge_spans_spec (l : list (Z * Z)) : List.Forall span_ok l -> let m := merge_spans (sort_by span_le l) in
  (forall q, in_spans m q <-> in_spans l q) /\ List.Forall span_ok m /\ apart (rev m) /\ (l <> [] -> m <> []).
Proof.
  intros Hl; unfold merge_spans; assert (Hl' : List.Forall span_ok (sort_by span_le l)) by (rewrite List.Forall_forall in Hl |- *; intros p Hp; by apply Hl, (sort_by_in span_le)).
  destruct (push_all_in (sort_by span_le l) [] Hl' ltac:(constructor) I (sort_spans l)) as (Q1 & Q2 & Q3 & Q4); [by destruct (sort_by span_le l)|].
  split_and!.
  - intros q; rewrite (in_spans_incl (rev _) (fold_left push_span (sort_by span_le l) [])) by (intros p; symmetry; apply in_rev).
    rewrite Q1, (in_spans_incl (sort_by span_le l) l) by (intros p; apply sort_by_in); pose proof (in_spans_nil q); tauto.
  - rewrite List.Forall_forall in Q2 |- *; intros p Hp; by apply Q2, in_rev.
  - by rewrite rev_involutive.
  - intros N E; assert (N' : sort_by span_le l <> []) by (intros E'; pose proof (sort_by_perm span_le l) as P; rewrite E' in P; by apply Permutation_sym, Permutation_nil in P).
    apply (f_equal (@rev _)) in E; rewrite rev_involutive in E; by apply Q4; [left|].
Qed.

(** ** Covers *)

Definition covers (c : cover) (b : nat) (q : Z) : Prop := in_spans (default [] (spans c !! b)) q.

Lemma contains_point_covers (c : cover) (b : nat) (q : Z) : contains_point c b q = true <-> covers c b q.
Proof.
  unfold contains_point, covers; destruct (spans c !! b) as [l|]; cbn; [|split; [done|intros (p & [] & _)]].
  rewrite existsb_exists; split; intros ([lo hi] & Hin & H); exists (lo, hi); (split; [done|]); unfold within in *; cbn in *.
  - apply andb_true_iff in H as [H1%Z.leb_le H2%Z.leb_le]; lia.
  - apply andb_true_iff; rewrite !Z.leb_le; lia.
Qed.

(** the ranges of a block: apart, in order, with their hull *)
Record block_ok (l : list (Z * Z)) (hull : Z * Z) : Prop := BlockOk {
  bk_spans : List.Forall span_ok l;
  bk_apart : apart (rev l);
  bk_within : forall q, in_spans l q -> within hull q;
  bk_first : in_spans l (fst hull);
  bk_last : in_spans l (snd hull);
}.

Definition cover_ok (c : cover) : Prop := forall b,
  match spans c !! b, cblocks c !! b with
  | Some l, Some hull => block_ok l hull
  | None, None => True
  | _, _ => False
  end.

Lemma no_cover_ok : cover_ok no_cover.
Proof. intros b; cbn; by rewrite !lookup_empty. Qed.

Lemma ranges_ok (c : cover) (b : nat) (p : Z * Z) : cover_ok c -> span_ok p -> List.Forall span_ok (default [] (spans c !! b) ++ [p]).
Proof.
  intros C S; pose proof (C b) as Cb; apply List.Forall_app; split; [|by constructor]; destruct (spans c !! b) as [l|]; [|constructor].
  destruct (cblocks c !! b); [apply Cb|done].
Qed.

Lemma extend_covers (c : cover) (b : nat) (lo hi : Z) : cover_ok c -> span_ok (lo, hi) -> forall b' q,
  covers (extend c b lo hi) b' q <-> covers c b' q \/ (b' = b /\ lo <= q <= hi).
Proof.
  intros C S b' q; unfold covers, extend; cbn; destruct (decide (b' = b)) as [-> |N]; [|rewrite lookup_insert_ne by done; intuition].
  rewrite lookup_insert, decide_True by done; cbn.
  destruct (merge_spans_spec _ (ranges_ok c b _ C S)) as (Q & _); rewrite Q, in_spans_app, in_spans_cons; unfold within; cbn; pose proof (in_spans_nil q); tauto.
Qed.

Lemma extend_ok (c : cover) (b : nat) (lo hi : Z) : cover_ok c -> span_ok (lo, hi) -> cover_ok (extend c b lo hi).
Proof.
  intros C S b'; pose proof (extend_covers c b lo hi C S) as E; unfold extend in *; cbn in *; destruct (decide (b' = b)) as [-> |N]; [|rewrite !lookup_insert_ne by done; apply C].
  pose proof (C b) as Cb; specialize (E b); unfold covers in E; cbn in E; rewrite lookup_insert, decide_True in E by done; cbn in E; rewrite !lookup_insert, !decide_True by done.
  destruct (merge_spans_spec _ (ranges_ok c b _ C S)) as (_ & Q2 & Q3 & _); destruct S as [[S1 S2] S3]; cbn in S1, S2, S3.
  assert (Hb : fst (default (i32_max, i32_min) (cblocks c !! b)) = i32_max /\ snd (default (i32_max, i32_min) (cblocks c !! b)) = i32_min /\ default [] (spans c !! b) = [] \/
    block_ok (default [] (spans c !! b)) (default (i32_max, i32_min) (cblocks c !! b))) by (destruct (spans c !! b), (cblocks c !! b); cbn in *; auto; done).
  generalize dependent (default (i32_max, i32_min) (cblocks c !! b)); intros [hlo hhi] Hb; cbn in Hb |- *.
  assert (Hne : forall q, ~ in_spans [] q) by apply in_spans_nil; constructor; [done|done|..]; cbn; [intros q Hq%E; unfold within; cbn|apply E|apply E]; destruct Hb as [(Elo & Ehi & El)|[_ _ W F L]]; rewrite ?El in *; subst.
  - destruct Hq as [Hq|[_ Hq]]; [by apply Hne in Hq|]; unfold i32_max, i32_min in *; lia.
  - destruct Hq as [Hq%W|[_ Hq]]; unfold within in *; cbn in *; lia.
  - right; unfold i32_max in *; lia.
  - cbn in F; destruct (Z.min_spec hlo lo) as [[_ ->]|[_ ->]]; [by left|right; lia].
  - right; unfold i32_min in *; lia.
  - cbn in L; destruct (Z.max_spec hhi hi) as [[_ ->]|[_ ->]]; [right; lia|by left].
Qed.

Lemma no_cover_covers (b : nat) (q : Z) : ~ covers no_cover b q.
Proof. unfold covers; cbn; rewrite lookup_empty; apply in_spans_nil. Qed.

(** two covers that share a point intersect *)
Lemma intersects_shared (c d : cover) (b : nat) (q : Z) : cover_ok c -> cover_ok d -> covers c b q -> covers d b q -> intersects c d = true.
Proof.
  intros C D Hc Hd; unfold covers in *; pose proof (C b) as Cb; pose proof (D b) as Db.
  destruct (spans c !! b) as [l|]; [|by apply in_spans_nil in Hc]; destruct (spans d !! b) as [l'|]; [|by apply in_spans_nil in Hd]; cbn in Hc, Hd.
  destruct (cblocks c !! b) as [[lo1 hi1]|] eqn:E1; [|done]; destruct (cblocks d !! b) as [[lo2 hi2]|] eqn:E2; [|done].
  apply existsb_exists; exists (b, (lo1, hi1)); split; [by apply list_elem_of_In, elem_of_map_to_list|]; rewrite E2.
  apply (bk_within _ _ Cb) in Hc; apply (bk_within _ _ Db) in Hd; unfold within in *; cbn in *; apply andb_true_iff; rewrite !Z.leb_le; lia.
Qed.

(** the union of two covers *)
Lemma extend_all (l : list (Z * Z)) (b : nat) (c : cover) : cover_ok c -> List.Forall span_ok l ->
  let c' := fold_left (fun c '(lo, hi) => extend c b lo hi) l c in
  cover_ok c' /\ forall b' q, covers c' b' q <-> covers c b' q \/ b' = b /\ in_spans l q.
Proof.
  revert c; induction l as [|[lo hi] l IH]; intros c C Hl; cbn [fold_left].
  - split; [done|]; intros b' q; pose proof (in_spans_nil q); tauto.
  - inversion Hl; subst; destruct (IH (extend c b lo hi)) as [C' E]; [by apply extend_ok|done|]; split; [done|]; intros b' q.
    rewrite E, extend_covers, in_spans_cons by done; unfold within; cbn; tauto.
Qed.

Lemma merge_from_covers (c d : cover) : cover_ok c -> cover_ok d -> cover_ok (merge_from c d) /\ forall b q, covers (merge_from c d) b q <-> covers c b q \/ covers d b q.
Proof.
  intros C D; unfold merge_from.
  assert (Hall : List.Forall (fun '(b, l) => List.Forall span_ok l) (map_to_list (spans d))).
  { apply List.Forall_forall; intros [b l] Hin%list_elem_of_In%elem_of_map_to_list; pose proof (D b) as Db; rewrite Hin in Db; destruct (cblocks d !! b); [apply Db|done]. }
  assert (Hcov : forall b q, covers d b q <-> exists l, In (b, l) (map_to_list (spans d)) /\ in_spans l q).
  { intros b q; unfold covers; split.
    - destruct (spans d !! b) as [l|] eqn:E; [|by intros ?%in_spans_nil]; intros H; exists l; split; [by apply list_elem_of_In, elem_of_map_to_list|done].
    - intros (l & Hin%list_elem_of_In%elem_of_map_to_list & H); by rewrite Hin. }
  revert Hall Hcov; generalize (map_to_list (spans d)); intros m Hall Hcov.
  enough (H : forall c, cover_ok c -> let c' := fold_left (fun c '(b, ranges) => fold_left (fun c '(lo, hi) => extend c b lo hi) ranges c) m c in
    cover_ok c' /\ forall b q, covers c' b q <-> covers c b q \/ exists l, In (b, l) m /\ in_spans l q).
  { destruct (H c C) as [H1 H2]; split; [done|]; intros b q; by rewrite H2, Hcov. }
  clear Hcov C c; induction m as [|[b l] m IH]; intros c C; cbn [fold_left].
  - split; [done|]; intros b q; split; [auto|by intros [?|(l & [] & _)]].
  - inversion Hall; subst; destruct (extend_all l b c C) as [C1 E1]; [done|]; destruct (IH ltac:(done) _ C1) as [C2 E2]; split; [done|]; intros b' q; rewrite E2, E1; split.
    + intros [[H|[-> H]]|(l' & Hin & H)]; [by left|right; exists l; cbn; auto|right; exists l'; cbn; auto].
    + intros [H|(l' & [E|Hin] & H)]; [auto|injection E as <- <-; auto|right; by exists l'].
Qed.
