(* ===== verification/CoverLive.v ===== *)
(** The cover of a value is where it is alive: the points from which a read is reached without passing
    its definition. *)
From Stdlib Require Import ZArith Lia Bool List.
From stdpp Require Import base decidable option list gmap tactics.
From S2P Require Import Prelude Space OpCode Funcdata FuncdataLinks FuncdataEdits FuncdataRemove FuncdataBlocks FuncdataTheorems Cover CoverFacts.
Local Open Scope Z_scope.

(** ** Positions *)

(** a position says where an operation is *)
Record positions (f : funcdata) (pos : list (option (nat * nat))) : Prop := Positions {
  po_at : forall op b i, position pos op = Some (b, i) -> block_ops f b !! i = Some op;
  po_some : forall op b, In op (block_ops f b) -> exists i, position pos op = Some (b, i);
}.

Lemma position_insert (pos : list (option (nat * nat))) (op op' : nat) (p : nat * nat) : (op < List.length pos)%nat ->
  position (<[op := Some p]> pos) op' = if decide (op' = op) then Some p else position pos op'.
Proof.
  intros L; unfold position; destruct (decide (op' = op)) as [-> |N]; [by rewrite list_lookup_insert_eq|by rewrite list_lookup_insert_ne].
Qed.

Lemma place_ops_spec (b : nat) (l : list nat) (i : nat) (pos : list (option (nat * nat))) : (forall op, In op l -> (op < List.length pos)%nat) ->
  runs (place_ops pos b i l) (fun pos' => List.length pos' = List.length pos /\
    (forall op, In op l -> exists j, l !! j = Some op /\ position pos' op = Some (b, (i + j)%nat)) /\ (forall op, ~ In op l -> position pos' op = position pos op)).
Proof.
  revert i pos; induction l as [|op0 l IH]; intros i pos Hl; cbn [place_ops]; [split_and!; [done|by intros ? []|done]|].
  assert (L : (op0 < List.length pos)%nat) by (apply Hl; by left); rewrite (proj2 (Nat.ltb_lt _ _) L).
  eapply runs_mono; [apply (IH (S i)); intros op Hop; rewrite length_insert; apply Hl; by right|]; intros pos' (E1 & E2 & E3).
  rewrite length_insert in E1; split_and!; [done| |].
  - intros op Hop; destruct (in_dec Nat.eq_dec op l) as [Hin|Hn]; [destruct (E2 op Hin) as (j & Hj & Hp); exists (S j); split; [done|rewrite Hp; f_equal; f_equal; lia]|].
    destruct Hop as [->|]; [|done]; exists 0%nat; split; [done|]; rewrite (E3 _ Hn), position_insert, decide_True by done; by rewrite Nat.add_0_r.
  - intros op Hop; cbn in Hop; rewrite E3 by tauto; rewrite position_insert, decide_False by (done || (intros ->; tauto)); done.
Qed.

Lemma place_blocks_spec (l : list block_basic) (b : nat) (pos : list (option (nat * nat))) : (forall x op, In x l -> In op (bops x) -> (op < List.length pos)%nat) ->
  runs (place_blocks pos b l) (fun pos' =>
    (forall op k x, l !! k = Some x -> In op (bops x) -> exists k' x' j, l !! k' = Some x' /\ bops x' !! j = Some op /\ position pos' op = Some ((b + k')%nat, j)) /\
    (forall op, (forall x, In x l -> ~ In op (bops x)) -> position pos' op = position pos op)).
Proof.
  revert b pos; induction l as [|x l IH]; intros b pos Hl; cbn [place_blocks]; [by split|].
  apply runs_bind; eapply runs_mono; [apply place_ops_spec; intros op Hop; by eapply Hl; [left|]|]; intros pos1 (E1 & E2 & E3).
  eapply runs_mono; [apply (IH (S b)); intros y op Hy Hop; rewrite E1; by eapply Hl; [right|]|]; intros pos' [F1 F2]; split.
  - intros op k y Hk Hop; destruct (existsb (fun y => existsb (Nat.eqb op) (bops y)) l) eqn:Ex.
    + apply existsb_exists in Ex as (y' & Hy' & (op' & Hop' & <-%Nat.eqb_eq)%existsb_exists); apply list_elem_of_In, list_elem_of_lookup in Hy' as [k' Hk'].
      destruct (F1 op k' y' Hk' Hop') as (k2 & x2 & j & H1 & H2 & H3); exists (S k2), x2, j; split_and!; [done..|]; rewrite H3; do 2 f_equal; lia.
    + assert (Hn : forall y, In y l -> ~ In op (bops y)).
      { intros y' Hy' Hop'; apply not_true_iff_false in Ex; apply Ex, existsb_exists; exists y'; split; [done|]; apply existsb_exists; exists op; split; [done|apply Nat.eqb_refl]. }
      destruct k as [|k]; [|cbn in Hk; exfalso; eapply (Hn y); [by apply list_elem_of_In, (list_elem_of_lookup_2 _ k)|done]]; cbn in Hk; injection Hk as ->.
      destruct (E2 op Hop) as (j & Hj & Hp); exists 0%nat, y, j; split_and!; [done..|]; rewrite (F2 op Hn), Hp; do 2 f_equal; lia.
  - intros op Hop; rewrite F2 by (intros y Hy; apply Hop; by right); apply E3, Hop; by left.
Qed.

Lemma block_op_lt (f : funcdata) (b op : nat) : wf f -> In op (block_ops f b) -> (op < List.length (ops f))%nat.
Proof.
  intros W Hin; pose proof (pl_parent _ (wf_placed _ W) b op Hin) as Hp; unfold parent_of in Hp; destruct (ops f !! op) as [o|] eqn:Ho; [by eapply lookup_lt_Some|done].
Qed.

Lemma op_positions_runs (f : funcdata) : wf f -> runs (op_positions f) (positions f).
Proof.
  intros W; unfold op_positions; eapply runs_mono; [apply place_blocks_spec|].
  - intros x op [b Hb]%list_elem_of_In%list_elem_of_lookup Hop; rewrite length_replicate; apply (block_op_lt f b op W); unfold block_ops; by rewrite Hb.
  - intros pos [E1 E2]; assert (Hsome : forall op b, In op (block_ops f b) -> exists b' i, position pos op = Some (b', i) /\ block_ops f b' !! i = Some op).
    { intros op b Hin; unfold block_ops in Hin; destruct (blocks f !! b) as [x|] eqn:Hb; [|done]; destruct (E1 op b x Hb Hin) as (k & x' & j & H1 & H2 & H3).
      exists k, j; split; [done|]; unfold block_ops; by rewrite H1. }
    constructor.
    + intros op b i Hp; destruct (existsb (fun y => existsb (Nat.eqb op) (bops y)) (blocks f)) eqn:Ex.
      * apply existsb_exists in Ex as (y & [k Hk]%list_elem_of_In%list_elem_of_lookup & (op' & Hop' & <-%Nat.eqb_eq)%existsb_exists).
        destruct (Hsome op k) as (b' & i' & H1 & H2); [unfold block_ops; by rewrite Hk|]; rewrite Hp in H1; by injection H1 as -> ->.
      * rewrite E2 in Hp.
        { unfold position in Hp; destruct (replicate _ _ !! op) as [r|] eqn:Er; [|done]; by apply lookup_replicate in Er as [-> _]. }
        intros y Hy Hop; apply not_true_iff_false in Ex; apply Ex, existsb_exists; exists y; split; [done|]; apply existsb_exists; exists op; split; [done|apply Nat.eqb_refl].
    + intros op b Hin; destruct (Hsome op b Hin) as (b' & i & Hp & Hi); exists i; rewrite Hp; do 2 f_equal.
      assert (E : parent_of f op = Some b') by (apply (pl_parent _ (wf_placed _ W)); by apply list_elem_of_In, (list_elem_of_lookup_2 _ i)).
      rewrite (pl_parent _ (wf_placed _ W) b op Hin) in E; by injection E.
Qed.

(** ** Program points *)

Definition exit_of (f : funcdata) (b : nat) : Z := 2 * Z.of_nat (List.length (block_ops f b)) + 2.

(** blocks whose points fit [i32] *)
Definition short_blocks (f : funcdata) : Prop := forall b, Z.of_nat (List.length (block_ops f b)) < 2 ^ 30 - 1.

(** from a point to the next, and from the exit of a block to the entry of its successors *)
Inductive flows (f : funcdata) : nat * Z -> nat * Z -> Prop :=
| flow_on (b : nat) (p : Z) : 0 <= p < exit_of f b -> flows f (b, p) (b, p + 1)
| flow_edge (a b : nat) : In a (ins f b) -> flows f (a, exit_of f a) (b, 0).

(** the points where [u] reads [v]: itself, or for a MULTIEQUAL the exit of the predecessor of each slot *)
Inductive reads_at (f : funcdata) (pos : list (option (nat * nat))) (v u : nat) : nat * Z -> Prop :=
| read_here (o : pcode_op) (b i : nat) : ops f !! u = Some o -> In v (inrefs o) -> opc o <> Multiequal ->
    op_index f u pos = Some (Some (b, i)) -> reads_at f pos v u (b, 2 * Z.of_nat i + 1)
| read_phi (o : pcode_op) (b i slot p : nat) : ops f !! u = Some o -> opc o = Multiequal -> op_index f u pos = Some (Some (b, i)) ->
    inrefs o !! slot = Some v -> ins f b !! slot = Some p -> reads_at f pos v u (p, exit_of f p).

(** a read is reached without passing the definition *)
Inductive live (f : funcdata) (pos : list (option (nat * nat))) (v : nat) (def : nat * Z) : nat * Z -> Prop :=
| live_use (u : nat) (q : nat * Z) : reads_at f pos v u q -> live f pos v def q
| live_flow (q q' : nat * Z) : flows f q q' -> q' <> def -> live f pos v def q' -> live f pos v def q.

Lemma exit_pos (f : funcdata) (b : nat) : 2 <= exit_of f b.
Proof. unfold exit_of; lia. Qed.

Lemma exit_small (f : funcdata) (b : nat) : short_blocks f -> exit_of f b < i32_max.
Proof. intros H; specialize (H b); unfold exit_of, i32_max; lia. Qed.

Lemma small_i32 (z : Z) : 0 <= z < 2 ^ 31 -> i32 z = z.
Proof. intros H; unfold i32, w32; rewrite Z.mod_small by lia; destruct (Z.ltb_spec z 2147483648); lia. Qed.

Lemma write_point_eq (i : nat) : Z.of_nat i < 2 ^ 30 - 1 -> write_point i = 2 * Z.of_nat i + 2.
Proof. intros H; unfold write_point; rewrite (small_i32 (Z.of_nat i)), small_i32; lia. Qed.

Lemma read_point_eq (i : nat) : Z.of_nat i < 2 ^ 30 - 1 -> read_point i = 2 * Z.of_nat i + 1.
Proof. intros H; unfold read_point; rewrite (small_i32 (Z.of_nat i)), small_i32; lia. Qed.

(** ** The search *)

Section Live.
Context (f : funcdata) (W : wf f) (Hs : short_blocks f) (pos : list (option (nat * nat))) (Hpos : positions f pos).

Lemma in_block (a b : nat) : In a (ins f b) -> exists x, blocks f !! a = Some x.
Proof.
  intros Hin; apply (edge_sides f a b (wf_edges _ W)) in Hin; unfold outs in Hin; destruct (blocks f !! a) as [x|]; [by exists x|done].
Qed.

Lemma block_ins (b : nat) (x : block_basic) : blocks f !! b = Some x -> ins f b = in_edges x /\ block_ops f b = bops x.
Proof. intros H; unfold ins, block_ops; by rewrite H. Qed.

Lemma op_index_at (u b i : nat) : op_index f u pos = Some (Some (b, i)) -> (i < List.length (block_ops f b))%nat /\ exists x, blocks f !! b = Some x.
Proof.
  intros H; assert (Hp : exists op, position pos op = Some (b, i)).
  { unfold op_index in H; destruct (ops f !! u) as [o|]; [|done]; cbn in H; destruct (opc o); try (injection H as H; by exists u).
    destruct (guarded_op o) as [g|]; [|injection H as H; by exists u]; destruct (position pos g) eqn:E; [injection H as ->; by exists g|injection H as H; by exists u]. }
  destruct Hp as [op Hp]; pose proof (po_at _ _ Hpos _ _ _ Hp) as Hi; split; [by eapply lookup_lt_Some|].
  unfold block_ops in Hi; destruct (blocks f !! b) as [x|]; [by exists x|done].
Qed.

Lemma op_index_some (u : nat) (o : pcode_op) : ops f !! u = Some o -> exists p, op_index f u pos = Some p.
Proof. intros Ho; unfold op_index; rewrite Ho; cbn; destruct (opc o); eauto; destruct (guarded_op o); eauto; destruct (position pos _); eauto. Qed.

Lemma index_short (b i : nat) : (i < List.length (block_ops f b))%nat -> Z.of_nat i < 2 ^ 30 - 1.
Proof. intros H; specialize (Hs b); lia. Qed.

Context (v : nat) (def : nat * Z) (Hdw : 0 <= snd def <= exit_of f (fst def)).

(** what is alive at a point is alive at those before, back to the definition *)
Lemma live_back (b : nat) (lo hi : Z) : 0 <= lo -> hi <= exit_of f b -> live f pos v def (b, hi) -> (forall p, lo < p <= hi -> (b, p) <> def) ->
  forall p, lo <= p <= hi -> live f pos v def (b, p).
Proof.
  intros Hlo Hhi Hl Hd p Hp; remember (Z.to_nat (hi - p)) as n eqn:En; revert p Hp En; induction n as [|n IH]; intros p Hp En.
  - assert (p = hi) as -> by lia; done.
  - apply (live_flow _ _ _ _ _ (b, p + 1)); [constructor; lia|apply Hd; lia|apply IH; lia].
Qed.

(** the point is covered, or the exit of a block still on the stack *)
Definition pending (c : cover) (l : list nat) (a : nat) (p : Z) : Prop := covers c a p \/ (p = exit_of f a /\ In a l).

Record searching (c : cover) (l : list nat) : Prop := Searching {
  se_ok : cover_ok c;
  se_sound : forall b q, covers c b q -> (b, q) = def \/ live f pos v def (b, q);
  se_stack : forall a, In a l -> live f pos v def (a, exit_of f a) /\ exists x, blocks f !! a = Some x;
  se_back : forall b q a p, covers c b q -> (b, q) <> def -> flows f (a, p) (b, q) -> pending c l a p;
}.

(** [c'] and [l'] keep what was covered or pending *)
Definition keeps_pending (c c' : cover) (l l' : list nat) : Prop := forall a p, pending c l a p -> pending c' l' a p.

(** a range that ends where [v] is alive, and starts at the entry or at the definition *)
Lemma extend_search (c : cover) (l l' : list nat) (b : nat) (lo hi : Z) : searching c l -> 0 <= lo <= hi -> hi <= exit_of f b -> live f pos v def (b, hi) ->
  (forall p, lo < p <= hi -> (b, p) <> def) -> (lo = 0 /\ ((b, 0) <> def -> forall a, In a (ins f b) -> covers (extend c b lo hi) a (exit_of f a) \/ In a l') \/ (b, lo) = def) ->
  (forall a, In a l' -> live f pos v def (a, exit_of f a) /\ exists x, blocks f !! a = Some x) -> (forall a, In a l -> covers (extend c b lo hi) a (exit_of f a) \/ In a l') ->
  searching (extend c b lo hi) l' /\ keeps_pending c (extend c b lo hi) l l'.
Proof.
  intros [So Ss Sk Sb] Hr Hhi Hl Hd Hlo Hl' Hk; assert (Sp : span_ok (lo, hi)) by (pose proof (exit_small f b Hs); split; cbn; lia).
  pose proof (extend_covers c b lo hi So Sp) as E; assert (Hkeep : keeps_pending c (extend c b lo hi) l l').
  { intros a p [H|[-> H]]; [left; apply E; by left|]; destruct (Hk a H); [by left|by right]. }
  split; [|done]; constructor; [by apply extend_ok| |done|].
  - intros b' q [H|[-> Hq]]%E; [by apply Ss|]; right; by eapply (live_back b lo hi); [lia|lia|..].
  - intros b' q a p [H|[-> Hq]]%E Hn Hf; [by apply Hkeep, (Sb b' q)|]; inversion Hf as [b0 p0 Hp0 E1 E2|a0 b0 Ha E1 E2]; subst.
    + destruct (Z.eq_dec lo (p + 1)) as [->|N]; [destruct Hlo as [[Hlo _]|Hlo]; [lia|done]|]; left; apply E; right; split; [done|lia].
    + assert (lo = 0) as -> by lia; destruct Hlo as [[_ Hlo]|Hlo]; [|done]; destruct (Hlo Hn a Ha); [by left|by right].
Qed.

Lemma phi_preds_in (p : nat) (l preds st : list nat) : In p (phi_preds v l preds st) <-> In p st \/ exists slot, l !! slot = Some v /\ preds !! slot = Some p.
Proof.
  revert preds st; induction l as [|iv l IH]; intros preds st; cbn [phi_preds]; [split; [auto|by intros [?|(slot & ? & _)]]|].
  rewrite IH; destruct (Nat.eqb_spec iv v) as [-> |N].
  - destruct preds as [|q preds]; cbn [tail].
    + split; [intros [H|(slot & H1 & H2)]; [by left|done]|intros [H|(slot & H1 & H2)]; [by left|done]].
    + split.
      * intros [[->|H]|(slot & H1 & H2)]; [right; by exists 0%nat|by left|right; by exists (S slot)].
      * intros [H|([|slot] & H1 & H2)]; [left; by right|left; left; cbn in H2; congruence|right; by exists slot].
  - split.
    + intros [H|(slot & H1 & H2)]; [by left|right; exists (S slot); split; [done|]]; by destruct preds.
    + intros [H|([|slot] & H1 & H2)]; [by left|cbn in H1; congruence|right; exists slot; split; [done|]]; by destruct preds.
Qed.

Lemma push_in (p : nat) (l st : list nat) : In p (fold_left (fun l p => p :: l) l st) <-> In p st \/ In p l.
Proof. revert st; induction l as [|q l IH]; intros st; cbn; [tauto|]; rewrite IH; cbn; tauto. Qed.

Lemma stack_search (c : cover) (l l' : list nat) : searching c l -> incl l l' -> (forall a, In a l' -> live f pos v def (a, exit_of f a) /\ exists x, blocks f !! a = Some x) ->
  searching c l' /\ keeps_pending c c l l'.
Proof.
  intros [So Ss Sk Sb] Hi Hl; assert (K : keeps_pending c c l l') by (intros a p [H|[-> H]]; [by left|right; split; [done|by apply Hi]]).
  split; [|done]; constructor; try done; intros b q a p H1 H2 H3; apply K; by eapply Sb.
Qed.

Lemma pending_incl (c : cover) (l : list nat) (q : nat * Z) : (exists b p, q = (b, p) /\ pending c l b p) <-> pending c l (fst q) (snd q).
Proof. destruct q as [b p]; split; [by intros (b' & p' & [= <- <-] & H)|intros H; by exists b, p]. Qed.

(** one reader *)
Lemma read_one_search (c : cover) (l : list nat) (u : nat) (o : pcode_op) : searching c l -> ops f !! u = Some o -> In v (inrefs o) ->
  runs (read_one f pos def v (c, l) u) (fun '(c', l') => searching c' l' /\ keeps_pending c c' l l' /\ forall q, reads_at f pos v u q -> pending c' l' (fst q) (snd q)).
Proof.
  intros S Ho Hv; unfold read_one; destruct (op_index_some u o Ho) as [p Hp]; rewrite Hp; cbn [mbind option_bind]; destruct p as [[ub ui]|].
  2: { split_and!; [done|by intros ? ?|]; intros q Hq; inversion Hq; congruence. }
  destruct (op_index_at u ub ui Hp) as [Hui [b Hb]]; destruct (block_ins ub b Hb) as [Ei _]; rewrite Ho; cbn [mbind option_bind]; rewrite Hb; cbn [mbind option_bind].
  pose proof (index_short ub ui Hui) as Hsh; assert (Hle : 2 * Z.of_nat ui + 1 < exit_of f ub) by (unfold exit_of; lia).
  case_bool_decide as Ec.
  - assert (Hl : forall a, In a (phi_preds v (inrefs o) (in_edges b) l) -> live f pos v def (a, exit_of f a) /\ exists x, blocks f !! a = Some x).
    { intros a [H|(slot & H1 & H2)]%phi_preds_in; [by apply (se_stack _ _ S)|]; rewrite <- Ei in H2; split; [by eapply live_use, read_phi|].
      by eapply in_block, list_elem_of_In, list_elem_of_lookup_2. }
    destruct (stack_search c l (phi_preds v (inrefs o) (in_edges b) l) S) as [S' K]; [intros a Ha; apply phi_preds_in; by left|exact Hl|]; split_and!; [done|done|].
    intros q Hq; inversion Hq; subst; cbn; [congruence|]; right; split; [done|]; apply phi_preds_in; right; assert (o0 = o) as -> by congruence.
    exists slot; split; [done|]; assert (b0 = ub) as -> by congruence; by rewrite <- Ei.
  - rewrite read_point_eq by done; assert (Hlive : live f pos v def (ub, 2 * Z.of_nat ui + 1)) by (by eapply live_use, read_here).
    assert (Hread : forall c' l' lo, cover_ok c -> span_ok (lo, 2 * Z.of_nat ui + 1) -> c' = extend c ub lo (2 * Z.of_nat ui + 1) -> forall q, reads_at f pos v u q -> pending c' l' (fst q) (snd q)).
    { intros c' l' lo Co Sp -> q Hq; inversion Hq as [o0 b0 i0 H1 H2 H3 H4 E|]; subst; [|congruence]; assert (E : b0 = ub /\ i0 = ui) by (split; congruence); destruct E as [-> ->]; left; cbn.
      apply extend_covers; [done|done|]; right; split; [done|]; destruct Sp as [[_ Sp] _]; cbn in Sp; lia. }
    pose proof (exit_small f ub Hs) as Hsm; destruct (Nat.eqb (fst def) ub && (snd def <=? 2 * Z.of_nat ui + 1)) eqn:Ed.
    + apply andb_true_iff in Ed as [<-%Nat.eqb_eq Hw%Z.leb_le]; destruct (extend_search c l l (fst def) (snd def) (2 * Z.of_nat ui + 1) S) as [S' K]; try done; try lia.
      * intros p Hp'; destruct def as [db dw]; cbn in *; intros [= ->]; lia.
      * right; by destruct def.
      * apply (se_stack _ _ S).
      * intros a Ha; by right.
      * split_and!; [done|done|]; eapply Hread; [apply S| |done]; split; cbn; lia.
    + assert (Hnd : forall p, 0 <= p <= 2 * Z.of_nat ui + 1 -> (ub, p) <> def).
      { intros p Hp' E; rewrite <- E in Ed; cbn in Ed; rewrite Nat.eqb_refl in Ed; cbn in Ed; apply Z.leb_gt in Ed; lia. }
      assert (Hl : forall a, In a (fold_left (fun l p => p :: l) (in_edges b) l) -> live f pos v def (a, exit_of f a) /\ exists x, blocks f !! a = Some x).
      { intros a [H|H]%push_in; [by apply (se_stack _ _ S)|]; rewrite <- Ei in H; split; [|by eapply in_block].
        apply (live_flow _ _ _ _ _ (ub, 0)); [by constructor|apply Hnd; lia|]; apply (live_back ub 0 (2 * Z.of_nat ui + 1)); [lia|lia|done|intros p ?; apply Hnd; lia|lia]. }
      destruct (extend_search c l (fold_left (fun l p => p :: l) (in_edges b) l) ub 0 (2 * Z.of_nat ui + 1) S) as [S' K]; try done; try lia.
      * intros p Hp'; apply Hnd; lia.
      * left; split; [done|]; intros _ a Ha; right; apply push_in; right; by rewrite <- Ei.
      * intros a Ha; right; apply push_in; by left.
      * split_and!; [done|done|]; eapply Hread; [apply S| |done]; split; cbn; lia.
Qed.

(** ** The walk back *)

(** the predecessors the blocks not seen yet may put on the stack *)
Fixpoint rest_ins (seen : gset nat) (k : nat) (bs : list block_basic) : nat :=
  match bs with
  | [] => 0
  | x :: bs => (if bool_decide (k ∈ seen) then 0 else List.length (in_edges x)) + rest_ins seen (S k) bs
  end.

Lemma rest_other (seen seen' : gset nat) (k : nat) (bs : list block_basic) : (forall i, (k <= i)%nat -> i ∈ seen <-> i ∈ seen') -> rest_ins seen k bs = rest_ins seen' k bs.
Proof.
  revert k; induction bs as [|x bs IH]; intros k H; cbn; [done|]; rewrite (IH (S k)) by (intros i Hi; apply H; lia).
  by rewrite (bool_decide_ext (k ∈ seen) (k ∈ seen')) by (apply H; lia).
Qed.

Lemma rest_seen (seen : gset nat) (k j : nat) (bs : list block_basic) (x : block_basic) : bs !! j = Some x -> (k + j)%nat ∉ seen ->
  rest_ins seen k bs = (List.length (in_edges x) + rest_ins ({[(k + j)%nat]} ∪ seen) k bs)%nat.
Proof.
  revert k j; induction bs as [|y bs IH]; intros k [|j] Hx Hn; try done; cbn [rest_ins].
  - cbn in Hx; injection Hx as ->; rewrite Nat.add_0_r in *; rewrite bool_decide_false by done; rewrite bool_decide_true by set_solver.
    rewrite (rest_other seen ({[k]} ∪ seen) (S k)); [lia|]; intros i Hi; rewrite elem_of_union, elem_of_singleton; split; [by right|intros [->|]; [lia|done]].
  - cbn in Hx; rewrite (IH (S k) j Hx) by (by rewrite Nat.add_succ_comm); rewrite Nat.add_succ_comm.
    rewrite (bool_decide_ext (k ∈ {[(k + S j)%nat]} ∪ seen) (k ∈ seen)); [lia|]; rewrite elem_of_union, elem_of_singleton; split; [intros [E|]; [lia|done]|by right].
Qed.

Lemma rest_start (k : nat) (bs : list block_basic) : rest_ins ∅ k bs = sum_list_with (fun b => List.length (in_edges b)) bs.
Proof. revert k; induction bs as [|x bs IH]; intros k; cbn; [done|]; by rewrite IH. Qed.

Lemma push_unseen (seen : gset nat) (l st : list nat) : let r := fold_left (fun l p => if bool_decide (p ∈ seen) then l else p :: l) l st in
  (List.length r <= List.length st + List.length l)%nat /\ (forall p, In p r <-> In p st \/ (In p l /\ p ∉ seen)).
Proof.
  revert st; induction l as [|q l IH]; intros st; cbn; [split; [lia|tauto]|]; case_bool_decide as E.
  - destruct (IH st) as [H1 H2]; split; [lia|]; intros p; rewrite H2; split; [tauto|]; intros [H|[[->|H] N]]; [by left|done|by right].
  - destruct (IH (q :: st)) as [H1 H2]; cbn in H1; split; [lia|]; intros p; rewrite H2; cbn; split; [intros [[->|H]|H]; tauto|intros [H|[[->|H] N]]; tauto].
Qed.

Lemma walk_back_search (fuel : nat) (c : cover) (seen : gset nat) (l : list nat) : searching c l -> (forall b, b ∈ seen -> covers c b (exit_of f b)) ->
  (List.length l + rest_ins seen 0 (blocks f) < fuel)%nat -> runs (walk_back fuel f def c seen l) (fun c' => searching c' [] /\ keeps_pending c c' l []).
Proof.
  revert c seen l; induction fuel as [|fuel IH]; intros c seen l S Hseen Hf; [lia|]; cbn [walk_back]; destruct l as [|b l]; [split; [done|by intros a p H]|].
  case_bool_decide as Eb.
  - assert (K : keeps_pending c c (b :: l) l) by (intros a p [H|[-> [<-|H]]]; [by left|left; by apply Hseen|by right]).
    assert (S' : searching c l).
    { destruct S as [So Ss Sk Sb]; constructor; [done|done|intros a Ha; apply Sk; by right|]; intros b' q a p H1 H2 H3; apply K; by eapply Sb. }
    eapply runs_mono; [apply (IH c seen l S' Hseen); cbn in Hf; lia|]; intros c' [Sc Kc]; split; [done|]; intros a p H; by apply Kc, K.
  - destruct (se_stack _ _ S b ltac:(by left)) as [Hb [x Hx]]; rewrite Hx; cbn [mbind option_bind]; destruct (block_ins b x Hx) as [Ei Eo].
    assert (Ex : write_point (List.length (bops x)) = exit_of f b) by (rewrite write_point_eq by (rewrite <- Eo; apply Hs); unfold exit_of; by rewrite Eo).
    rewrite Ex; pose proof (exit_pos f b) as Hpos2; pose proof (exit_small f b Hs) as Hsm; pose proof (rest_seen seen 0 b (blocks f) x Hx Eb) as Hrest; cbn [Nat.add] in Hrest.
    set (here := Nat.eqb (fst def) b); set (lo := if here then snd def else 0); set (c1 := extend c b lo (exit_of f b)); set (seen1 := {[b]} ∪ seen).
    set (l1 := if here then l else _); assert (Hlo : 0 <= lo <= exit_of f b) by (unfold lo, here; destruct (Nat.eqb_spec (fst def) b) as [E|]; [rewrite <- E; exact Hdw|lia]).
    pose proof (extend_covers c b lo (exit_of f b) (se_ok _ _ S) ltac:(split; cbn; lia)) as Ec; fold c1 in Ec.
    assert (Hseen1 : forall a, a ∈ seen1 -> covers c1 a (exit_of f a)).
    { intros a [->%elem_of_singleton|Ha]%elem_of_union; apply Ec; [right; split; [done|lia]|left; by apply Hseen]. }
    pose proof (push_unseen seen1 (in_edges x) l) as [Hlen Hin].
    assert (Hin1 : forall a, In a l -> In a l1) by (intros a Ha; unfold l1; destruct here; [done|apply Hin; by left]).
    destruct (extend_search c (b :: l) l1 b lo (exit_of f b) S) as [S1 K1]; try done.
    + intros p Hp E; unfold lo, here in Hp; rewrite <- E in Hp; cbn in Hp; rewrite Nat.eqb_refl in Hp; lia.
    + unfold lo, here in *; destruct (Nat.eqb_spec (fst def) b) as [E|N]; [right; by rewrite <- E; destruct def|left; split; [done|]]; intros _ a Ha; fold c1.
      destruct (decide (a ∈ seen1)) as [Hs1|Hs1]; [left; by apply Hseen1|right; unfold l1; apply Hin; right; split; [by rewrite <- Ei|done]].
    + intros a Ha; unfold l1, here in Ha; destruct (Nat.eqb_spec (fst def) b) as [E|N]; [apply (se_stack _ _ S); by right|].
      apply Hin in Ha as [Ha|[Ha _]]; [apply (se_stack _ _ S); by right|]; rewrite <- Ei in Ha; split; [|by eapply in_block].
      apply (live_flow _ _ _ _ _ (b, 0)); [by constructor|intros E; by rewrite <- E in N|]; apply (live_back b 0 (exit_of f b)); try done; try lia; intros p _ E; by rewrite <- E in N.
    + intros a [<-|Ha]; [left; apply Ec; right; split; [done|lia]|right; by apply Hin1].
    + eapply runs_mono; [apply (IH c1 seen1 l1 S1 Hseen1)|].
      * cbn in Hf; fold seen1 in Hrest; assert (List.length l1 <= List.length l + List.length (in_edges x))%nat by (unfold l1; destruct here; lia); lia.
      * intros c' [Sc Kc]; split; [done|]; intros a p H; by apply Kc, K1.
Qed.
End Live.

(** ** Covers *)

Lemma dedup_in (u : nat) (l : list nat) : In u (dedup_adjacent l) <-> In u l.
Proof.
  induction l as [|a [|b l] IH]; [done|done|]; change (dedup_adjacent (a :: b :: l)) with (if Nat.eqb a b then dedup_adjacent (b :: l) else a :: dedup_adjacent (b :: l)).
  destruct (Nat.eqb_spec a b) as [-> |N]; [rewrite IH; cbn; tauto|]; cbn [In] in *; tauto.
Qed.

Lemma sorted_readers_in (u : nat) (x : varnode) : In u (sorted_readers x) <-> In u (descend x).
Proof. unfold sorted_readers; rewrite dedup_in; apply sort_by_in. Qed.

Lemma reader_input (f : funcdata) (v u : nat) (x : varnode) : wf f -> varnodes f !! v = Some x ->
  In u (descend x) <-> exists o, ops f !! u = Some o /\ In v (inrefs o).
Proof.
  intros W Hx; pose proof (go_use _ (wf_graph _ W) v u) as E; unfold readers, inputs, count in E; rewrite Hx in E; cbn in E.
  split; intros H.
  - apply (count_occ_In Nat.eq_dec) in H; rewrite E in H; apply (count_occ_In Nat.eq_dec) in H; destruct (ops f !! u) as [o|]; [by exists o|done].
  - destruct H as (o & Ho & Hin); rewrite Ho in E; cbn in E; apply (count_occ_In Nat.eq_dec) in Hin; apply (count_occ_In Nat.eq_dec); lia.
Qed.

Section Covers.
Context (f : funcdata) (W : wf f) (Hs : short_blocks f) (pos : list (option (nat * nat))) (Hpos : positions f pos).

Lemma def_point_at (v : nat) (db : nat) (dw : Z) : def_point f v pos = Some (Some (db, dw)) -> 0 <= dw <= exit_of f db.
Proof.
  unfold def_point; destruct (varnodes f !! v) as [x|]; [|done]; cbn; destruct (is_written x); cbn.
  - destruct (vdef x) as [d|]; [|done]; cbn; destruct (op_index f d pos) as [[[b i]|]|] eqn:E; try done; cbn; intros [= <- <-].
    destruct (op_index_at f pos Hpos d b i E) as [Hi _]; rewrite write_point_eq by (by eapply index_short); unfold exit_of; lia.
  - destruct (is_input x); intros [= <- <-]; unfold exit_of; lia.
Qed.

Lemma op_index_placed (d : nat) : inside f d = true -> exists p, op_index f d pos = Some (Some p).
Proof.
  intros Hd; destruct (inside_in f d Hd) as (b & _ & Hin); pose proof (block_op_lt f b d W Hin) as L; destruct (lookup_lt_is_Some_2 _ _ L) as [o Ho].
  destruct (po_some _ _ Hpos d b Hin) as [i Hi]; unfold op_index; rewrite Ho; cbn [mbind option_bind]; rewrite Hi.
  destruct (opc o); eauto; destruct (guarded_op o) as [g|]; eauto; destruct (position pos g); eauto.
Qed.

(** a value comes alive where its definition is placed *)
Lemma def_point_runs (v : nat) (x : varnode) : varnodes f !! v = Some x -> (forall d, vdef x = Some d -> inside f d = true) -> exists d, def_point f v pos = Some d.
Proof.
  intros Hx Hd; unfold def_point; rewrite Hx; cbn; destruct (is_written x) eqn:Ew; [|eauto].
  apply (fo_written _ (go_flags _ (wf_graph _ W) v x Hx)) in Ew; destruct (vdef x) as [d|] eqn:Ed; [|done]; cbn.
  destruct (op_index_placed d (Hd d eq_refl)) as [[b i] E]; rewrite E; cbn; eauto.
Qed.

Context (v : nat) (def : nat * Z) (Hdw : 0 <= snd def <= exit_of f (fst def)).

Lemma reads_search (reads : list nat) (c : cover) (l : list nat) : (forall u, In u reads -> exists o, ops f !! u = Some o /\ In v (inrefs o)) -> searching f pos v def c l ->
  runs (fold_opt (read_one f pos def v) reads (c, l)) (fun '(c', l') => searching f pos v def c' l' /\ keeps_pending f c c' l l' /\
    forall u q, In u reads -> reads_at f pos v u q -> pending f c' l' (fst q) (snd q)).
Proof.
  revert c l; induction reads as [|u reads IH]; intros c l Hr S; cbn [fold_opt]; [split_and!; [done|by intros a p H|by intros ? ? []]|].
  destruct (Hr u ltac:(by left)) as (o & Ho & Hv); apply runs_bind; eapply runs_mono; [by eapply read_one_search|]; intros [c1 l1] (S1 & K1 & U1).
  eapply runs_mono; [apply (IH c1 l1); [intros u' Hu'; apply Hr; by right|done]|]; intros [c2 l2] (S2 & K2 & U2); split_and!; [done|intros a p H; by apply K2, K1|].
  intros u' q [<-|Hu'] Hq; [by apply K2, U1|by eapply U2].
Qed.

(** the walk from the readers of [v] covers what is alive *)
Lemma cover_reads_live (reads : list nat) (x : varnode) : varnodes f !! v = Some x -> (forall u, In u reads <-> In u (descend x)) ->
  runs (cover_reads f pos def v reads (extend no_cover (fst def) (snd def) (snd def))) (fun c => cover_ok c /\
    forall b q, covers c b q <-> (b, q) = def \/ live f pos v def (b, q)).
Proof.
  intros Hx Hr; assert (Sp : span_ok (snd def, snd def)) by (pose proof (exit_small f (fst def) Hs); split; cbn; lia).
  pose proof (extend_covers no_cover (fst def) (snd def) (snd def) no_cover_ok Sp) as E0.
  assert (Hdef : forall b q, covers (extend no_cover (fst def) (snd def) (snd def)) b q <-> (b, q) = def).
  { intros b q; rewrite E0; split; [intros [H|[-> H]]; [by apply no_cover_covers in H|destruct def; cbn in *; f_equal; lia]|intros <-; right; cbn; split; [done|lia]]. }
  assert (S0 : searching f pos v def (extend no_cover (fst def) (snd def) (snd def)) []).
  { constructor; [apply extend_ok; [apply no_cover_ok|done]|intros b q H; left; by apply Hdef|by intros ? []|intros b q a p H N; by apply Hdef in H]. }
  unfold cover_reads; apply runs_bind; eapply runs_mono; [apply (reads_search reads); [intros u Hu; apply (reader_input f v u x W Hx), Hr, Hu|exact S0]|].
  intros [c l] (S1 & K1 & U1); eapply runs_mono.
  { apply walk_back_search; [done|done|done|done|exact S1|by intros b Hb%elem_of_empty|]; unfold walk_fuel; rewrite rest_start; lia. }
  intros c' [S2 K2]; split; [apply S2|]; intros b q; split; [apply (se_sound _ _ _ _ _ _ S2)|].
  assert (Hc : forall a p, pending f c' [] a p -> covers c' a p) by (intros a p [H|[_ []]]; done).
  intros [Hq|Hl]; [apply Hc, K2, K1; left; by apply Hdef|].
  assert (Hall : forall r, live f pos v def r -> covers c' (fst r) (snd r)).
  { induction 1 as [u r Hu|r r' Hf N _ IH].
    - apply Hc, K2, (U1 u); [|done]; apply Hr, (reader_input f v u x W Hx); inversion Hu; subst; eexists; (split; [done|]); [done|by eapply list_elem_of_In, list_elem_of_lookup_2].
    - apply Hc; destruct r as [a p], r' as [b' q']; by eapply (se_back _ _ _ _ _ _ S2 b' q'). }
  apply (Hall _ Hl).
Qed.
End Covers.
