(* ===== verification/CoverTheorems.v ===== *)
(** What covers promise: a value is covered exactly where it is alive, and values alive at one point
    have covers that intersect, so they are never merged. *)
From Stdlib Require Import ZArith Lia Bool List.
From stdpp Require Import base decidable option list gmap tactics.
From S2P Require Import Prelude Space OpCode Funcdata FuncdataLinks FuncdataEdits FuncdataRemove FuncdataBlocks FuncdataTheorems Cover CoverFacts CoverLive.
Local Open Scope Z_scope.

(** the operation that defines the value, if any, lies in a block *)
Definition def_placed (f : funcdata) (v : nat) : bool :=
  match varnodes f !! v with Some x => match vdef x with Some d => inside f d | None => true end | None => false end.

Definition short_blocksb (f : funcdata) : bool := forallb (fun b => Z.of_nat (List.length (bops b)) <? 2 ^ 30 - 1) (blocks f).

Lemma short_blocksb_short (f : funcdata) : short_blocksb f = true -> short_blocks f.
Proof.
  unfold short_blocksb, short_blocks, block_ops; rewrite forallb_forall; intros H b; destruct (blocks f !! b) as [x|] eqn:Hb; cbn; [|lia].
  by eapply Z.ltb_lt, H, list_elem_of_In, list_elem_of_lookup_2.
Qed.

Lemma cover_of_spec (f : funcdata) (pos : list (option (nat * nat))) (v : nat) : wf f -> short_blocks f -> positions f pos -> def_placed f v = true ->
  runs (cover_of f v pos) (fun c => cover_ok c /\ forall b q, covers c b q <-> exists def, def_point f v pos = Some (Some def) /\ ((b, q) = def \/ live f pos v def (b, q))).
Proof.
  intros W Hs Hpos Hd; unfold def_placed in Hd; destruct (varnodes f !! v) as [x|] eqn:Hx; [|done]; unfold cover_of.
  destruct (def_point_runs f W pos Hpos v x Hx) as [[[db dw]|] E]; [intros d Ed; by rewrite Ed in Hd|..]; rewrite E; cbn [mbind option_bind].
  - rewrite Hx; cbn [mbind option_bind]; eapply runs_mono; [exact (cover_reads_live f W Hs pos Hpos v (db, dw) (def_point_at f Hs pos Hpos v db dw E) (sorted_readers x) x Hx (λ u, sorted_readers_in u x))|].
    intros c [C H]; split; [done|]; intros b q; rewrite H; split; [intros Hq; by exists (db, dw)|by intros (def & [= <-] & Hq)].
  - split; [apply no_cover_ok|]; intros b q; split; [by intros Hq%no_cover_covers|by intros (def & [=] & _)].
Qed.

(** ** A loop: [i = phi(0, j); j = i + 1; t = (j == n)], and back *)

Definition looping_edits : list edit :=
  [ENewInput 4 (Addr 2 0x38); ENewConst 4 0; ENewConst 4 1;
   ENewOp Copy (at_entry 0) [1]; ENewOutputUnique 0 4;
   ENewOp Multiequal (at_entry 1) [3; 3]; ENewOutputUnique 1 4;
   ENewOp IntAdd (at_entry 2) [4; 2]; ENewOutputUnique 2 4; ESetInput 1 1 5;
   ENewOp IntEqual (at_entry 3) [5; 0]; ENewOutputUnique 3 1;
   ENewBlock; ENewBlock; EInsertEnd 0 0; EInsertEnd 1 1; EInsertEnd 2 1; EInsertEnd 3 1; EAddEdge 0 1; EAddEdge 1 1]%nat.

Definition looping : funcdata := edited_by sample_start looping_edits.

Lemma looping_wf : wf looping.
Proof. apply edited_by_wf; [exact sample_start_wf|vm_compute; reflexivity]. Qed.

Lemma looping_short : short_blocks looping.
Proof. apply short_blocksb_short; vm_compute; reflexivity. Qed.

(** [C9] The cover of a value holds the point where it comes alive, and the points from which one of its reads
    is reached without passing that point; it is found for every value whose definition is in a block. *)
Theorem cover_of_exact (f : funcdata) (v : nat) : wf f -> short_blocks f -> def_placed f v = true ->
  exists pos c, op_positions f = Some pos /\ cover_of f v pos = Some c /\
    forall b q, contains_point c b q = true <-> exists def, def_point f v pos = Some (Some def) /\ ((b, q) = def \/ live f pos v def (b, q)).
Proof.
  intros W Hs Hd; pose proof (op_positions_runs f W) as P; destruct (op_positions f) as [pos|]; [|done].
  pose proof (cover_of_spec f pos v W Hs P Hd) as R; destruct (cover_of f v pos) as [c|] eqn:Ec; [|done]; exists pos, c; split_and!; [done..|].
  intros b q; rewrite contains_point_covers; apply R.
Qed.

(** the counter of the loop is alive from its increment to the end of the block, round the edge back *)
Lemma cover_of_exact_witness : exists pos c, op_positions looping = Some pos /\ cover_of looping 5 pos = Some c /\
  contains_point c 1 8 = true /\ contains_point c 1 3 = false /\ (forall b q, contains_point c b q = true <-> (b, q) = (1%nat, 4) \/ live looping pos 5 (1%nat, 4) (b, q)).
Proof.
  destruct (cover_of_exact looping 5 looping_wf looping_short ltac:(vm_compute; reflexivity)) as (pos & c & Hp & Hc & H); exists pos, c.
  assert (Ed : def_point looping 5 pos = Some (Some (1%nat, 4))) by (vm_compute in Hp; injection Hp as <-; vm_compute; reflexivity).
  split; [exact Hp|]; split; [exact Hc|]; split; [|split].
  - clear H Ed; vm_compute in Hp; injection Hp as <-; vm_compute in Hc; injection Hc as <-; vm_compute; reflexivity.
  - clear H Ed; vm_compute in Hp; injection Hp as <-; vm_compute in Hc; injection Hc as <-; vm_compute; reflexivity.
  - intros b q; rewrite H, Ed; split; [intros (def & E & Hq); injection E as <-; exact Hq|intros Hq; eexists; split; [reflexivity|exact Hq]].
Defined.

(** [C18] Two values alive at one point are found to intersect: [intersects] compares the hulls of the ranges
    of each block, which hold every point of the ranges. *)
Theorem alive_together_intersect (f : funcdata) (v w : nat) (pos : list (option (nat * nat))) (c d : cover) (b : nat) (q : Z) : wf f -> short_blocks f ->
  def_placed f v = true -> def_placed f w = true -> op_positions f = Some pos -> cover_of f v pos = Some c -> cover_of f w pos = Some d ->
  contains_point c b q = true -> contains_point d b q = true -> intersects c d = true.
Proof.
  intros W Hs Hv Hw Hp Hc Hd Hq Hq'; pose proof (op_positions_runs f W) as P; rewrite Hp in P.
  pose proof (cover_of_spec f pos v W Hs P Hv) as Rc; pose proof (cover_of_spec f pos w W Hs P Hw) as Rd; rewrite Hc in Rc; rewrite Hd in Rd.
  apply contains_point_covers in Hq, Hq'; eapply intersects_shared; [apply Rc|apply Rd|exact Hq|exact Hq'].
Qed.

(** the counter and the bound it is compared with are both alive in the loop *)
Lemma alive_together_intersect_witness : exists pos c d, op_positions looping = Some pos /\ cover_of looping 5 pos = Some c /\ cover_of looping 0 pos = Some d /\
  intersects c d = true.
Proof.
  destruct (op_positions looping) as [pos|] eqn:Hp; [|vm_compute in Hp; discriminate Hp]; destruct (cover_of looping 5 pos) as [c|] eqn:Hc; [|vm_compute in Hp; injection Hp as <-; vm_compute in Hc; discriminate Hc].
  destruct (cover_of looping 0 pos) as [d|] eqn:Hd; [|vm_compute in Hp; injection Hp as <-; vm_compute in Hd; discriminate Hd].
  exists pos, c, d; split; [reflexivity|]; split; [exact Hc|]; split; [exact Hd|].
  apply (alive_together_intersect looping 5 0 pos c d 1 6 looping_wf looping_short ltac:(vm_compute; reflexivity) ltac:(vm_compute; reflexivity) Hp Hc Hd).
  - vm_compute in Hp; injection Hp as <-; vm_compute in Hc; injection Hc as <-; vm_compute; reflexivity.
  - vm_compute in Hp; injection Hp as <-; vm_compute in Hd; injection Hd as <-; vm_compute; reflexivity.
Defined.
