(* ===== verification/RuleBase.v ===== *)
(** Rules and the pool that applies them ([decompile/action.rs]), and how a rule body is written here:
    the search for a match, whose [None] is a panic and whose [Some None] is the [return 0] or
    [continue] of the source, then the edits. *)
From Stdlib Require Import ZArith Lia Bool List.
From stdpp Require Import base decidable option list strings numbers.
From S2P Require Import Prelude Space OpCode BitUtil Funcdata FuncdataBuild.
Local Open Scope Z_scope.

(** ** Rules *)

(** [trait Rule]: the codes a rule is tried on (none: all), and its effect; the count is 0 if it did not fire. *)
Record rule := Rule { oplist : list opcode; apply_op : nat -> funcdata -> option (Z * funcdata) }.

(** ** Matches *)

(** [e?], or a guard that gives up the match *)
Definition try {A B : Type} (m : option A) (k : A -> option (option B)) : option (option B) :=
  match m with Some a => k a | None => Some None end.
(** [e?] of a call that may panic itself *)
Definition try_call {A B : Type} (m : option (option A)) (k : A -> option (option B)) : option (option B) :=
  match m with Some r => try r k | None => None end.

Declare Scope match_scope.
Delimit Scope match_scope with match_.
Notation "'let?' x ':=' m 'in' k" := (try m (fun x => k)) (at level 10, x name, m at level 100, k at level 200) : match_scope.
Notation "'call?' x ':=' m 'in' k" := (try_call m (fun x => k)) (at level 10, x name, m at level 100, k at level 200) : match_scope.
Notation "'need' c 'in' k" := (if (c : bool) then k else Some None) (at level 10, c at level 100, k at level 200) : match_scope.
Notation "'found' e" := (Some (Some e)) (at level 10, e at level 9) : match_scope.

(** [for slot in 0..2]: the first match *)
Definition first_slot {A : Type} (g : nat -> option (option A)) : option (option A) :=
  r ← g 0%nat; match r with Some a => Some (Some a) | None => g 1%nat end.

(** [for op in descend]: the first match *)
Fixpoint first_of {A : Type} (g : nat -> option (option A)) (l : list nat) : option (option A) :=
  match l with
  | [] => Some None
  | o :: l => r ← g o; match r with Some a => Some (Some a) | None => first_of g l end
  end.

(** the edits, where the match was found *)
Definition fire {A : Type} (m : option (option A)) (f : funcdata) (k : A -> option funcdata) : option (Z * funcdata) :=
  r ← m; match r with None => Some (0, f) | Some a => f ← k a; Some (1, f) end.

Definition constant_value (x : varnode) : Z := a_offset (loc x).

(** [op.code() == c] *)
Definition is_code (c : opcode) (o : pcode_op) : bool := bool_decide (opc o = c).

(** a constant that holds -1 at its size *)
Definition is_minus_one (x : varnode) : bool := is_constant x && (constant_value x =? calc_mask (size x)).

(** [8 * size - 1], in [u32] *)
Definition sign_bit (x : varnode) : Z := w32 (8 * size x - 1).

(** ** [ActionPool] *)

(** the rules registered for a code, in order of priority *)
Definition rules_for (pool : list rule) (c : opcode) : list rule :=
  List.filter (fun r => bool_decide (oplist r = []) || bool_decide (c ∈ oplist r)) pool.

(** [processOp]: the rules of the operation's code in turn, from the first again where the code changes;
    [fuel] bounds the turns, and the rest of the list is abandoned when it runs out. *)
Fixpoint process_op (fuel : nat) (pool : list rule) (id : nat) (c : opcode) (todo : list rule) (round : Z) (f : funcdata) : option (Z * funcdata) :=
  match fuel with
  | O => Some (round, f)
  | S fuel =>
      match todo with
      | [] => Some (round, f)
      | r :: todo =>
          '(changed, f) ← apply_op r id f;
          o ← ops f !! id;
          let round := w32 (round + changed) in
          if (0 <? changed) && is_dead o then Some (round, f)
          else if bool_decide (opc o = c) then process_op fuel pool id c todo round f
          else process_op fuel pool id (opc o) (rules_for pool (opc o)) round f
      end
  end.

(** the order of a round: by address, then by [uniq] *)
Definition seq_le (f : funcdata) (a b : nat) : bool :=
  match ops f !! a, ops f !! b with
  | Some x, Some y =>
      let p := seqnum x in let q := seqnum y in
      let s := a_space (pc p) in let t := a_space (pc q) in
      let u := a_offset (pc p) in let v := a_offset (pc q) in
      (s <? t) || ((s =? t) && ((u <? v) || ((u =? v) && (uniq p <=? uniq q))))
  | _, _ => true
  end.

(** One round: each operation that was there at its start and is not dead. *)
Definition pool_round (fuel : nat) (pool : list rule) (f : funcdata) : option (Z * funcdata) :=
  fold_opt (fun '(round, f) id =>
    o ← ops f !! id;
    if is_dead o then Some (round, f) else process_op fuel pool id (opc o) (rules_for pool (opc o)) round f)
    (sort_by (seq_le f) (seq 0 (List.length (ops f)))) (0, f).

(** [ActionPool::apply]: rounds until one changes nothing, or the deadline passes, which [rounds] stands for. *)
Fixpoint pool_apply (rounds fuel : nat) (pool : list rule) (total : Z) (f : funcdata) : option (Z * funcdata) :=
  match rounds with
  | O => Some (total, f)
  | S rounds =>
      '(round, f) ← pool_round fuel pool f;
      if round =? 0 then Some (w32 (total + round), f) else pool_apply rounds fuel pool (w32 (total + round)) f
  end.
