(* ===== verification/Divopt.v ===== *)
(** [decompile/divopt.rs], the recovery of division: compilers turn a division by a constant into a
    multiplication by a magic constant and a shift; [calc_divisor] recovers the divisor, [find_form]
    the form, [find_form_apply] ([RuleDivOpt]) rewrites it.  A [u128] is a [Z] in its range.  The outer
    [None] is a panic, the inner one the [None] the source returns. *)
From Stdlib Require Import ZArith Lia Bool List.
From stdpp Require Import base decidable option list numbers.
From S2P Require Import Prelude Space OpCode BitUtil Funcdata FuncdataBuild RuleBase.
Local Open Scope Z_scope.
Local Open Scope match_scope.

Definition w128 (z : Z) : Z := z mod 2 ^ 128.

(** ** The divisor *)

(** The part of [calc_divisor] after the quotient [q] and its remainder [r] are adjusted: [diff] is
    how far [q * magic] exceeds the power. *)
Definition check_precision (power q diff xsize : Z) : Z :=
  let maxx := if xsize =? 64 then u64_max else u64_shl 1 xsize - 1 in
  if diff =? 0 then w64 q
  else
    let tmp := power / diff in
    if u64_max <? tmp then w64 q
    else if tmp <=? maxx then 0
    else w64 q.

Definition calc_divisor (n magic xsize : Z) : Z :=
  if (127 <? n) || (64 <? xsize) || (magic <=? 1) then 0
  else
    let y := magic - 1 in
    let power := 2 ^ n in
    let q := power / y in
    let r := power mod y in
    if u64_max <? q then 0
    else if y <? q then 0
    else if q <=? r then
      let q := q + 1 in
      let r := w128 (w128 (r - y) + q) in
      if q <=? r then 0
      else check_precision power q (u64_add (w64 q) (u64_sub (w64 q) (w64 r))) xsize
    else check_precision power q (u64_add 0 (u64_sub (w64 q) (w64 r))) xsize.

(** ** Constants *)

Definition pack (lo hi : Z) : Z := Z.lor (Z.shiftl hi 64) lo.

Definition is_constant_extended (f : funcdata) (v : nat) : option (option Z) :=
  x ← varnodes f !! v;
  if is_constant x then found (constant_value x)
  else if (size x <=? 8) || (16 <? size x) then Some None
  else
    let? d := vdef x in
    o ← ops f !! d;
    match opc o with
    | IntZext =>
        let? vn0 := input o 0 in
        x0 ← varnodes f !! vn0;
        Some (if is_constant x0 then Some (pack (constant_value x0) 0) else None)
    | IntSext =>
        let? vn0 := input o 0 in
        x0 ← varnodes f !! vn0;
        if is_constant x0 then
          let val0 :=
            if size x0 <? 8 then let sh := w32 (64 - w32 (8 * size x0)) in w64 (i64_shr (i64 (u64_shl (constant_value x0) sh)) sh)
            else constant_value x0 in
          let val1 := if Z.testbit val0 63 then u64_max else 0 in
          found (pack val0 val1)
        else Some None
    | Piece =>
        let? vnlo := input o 1 in
        let? vnhi := input o 0 in
        xlo ← varnodes f !! vnlo;
        xhi ← varnodes f !! vnhi;
        if is_constant xlo && is_constant xhi then
          let val0 := constant_value xlo in
          let val1 := constant_value xhi in
          if size xlo =? 8 then found (pack val0 val1)
          else found (pack (Z.lor val0 (u64_shl val1 (w32 (8 * size xlo)))) (u64_shr val1 (w32 (8 * w32 (8 - size xlo)))))
        else Some None
    | _ => Some None
    end.

(** ** The form *)

(** The numerand, the total truncation, the multiplier, the bits of the numerand, its extension *)
Record form := Form { fm_res : nat; fm_n : Z; fm_y : Z; fm_xsize : Z; fm_ext : opcode }.

(** The optional shift at the root: its amount, its code, and the operation under it *)
Definition leading_shift (f : funcdata) (op : nat) : option (option (Z * option opcode * nat)) :=
  o ← ops f !! op;
  match opc o with
  | IntRight | IntSright =>
      let? vn := input o 0 in
      x ← varnodes f !! vn;
      if negb (is_written x) then Some None
      else
        let? cvn := input o 1 in
        c ← varnodes f !! cvn;
        if negb (is_constant c) then Some None
        else let? d := vdef x in found (i64 (constant_value c), Some (opc o), d)
  | Subpiece => found (0, None, op)
  | _ => Some None
  end.

(** The optional truncation, which keeps the high bytes: the truncation so far, and the operation under it *)
Definition high_part (f : funcdata) (n : Z) (cur : nat) : option (option (Z * nat)) :=
  o ← ops f !! cur;
  if bool_decide (opc o = Subpiece) then
    let? cvn := input o 1 in
    c ← varnodes f !! cvn;
    let c := i64 (constant_value c) in
    let? invn := input o 0 in
    x ← varnodes f !! invn;
    if negb (is_written x) then Some None
    else
      let? out := output o in
      xo ← varnodes f !! out;
      if negb (i64 (size xo + c) =? size x) then Some None
      else let? d := vdef x in found (i64 (n + i64 (8 * c)), d)
  else found (n, cur).

(** The multiplication: the constant, from either slot, and the other input *)
Definition magic_mult (f : funcdata) (cur : nat) : option (option (Z * nat)) :=
  o ← ops f !! cur;
  if negb (bool_decide (opc o = IntMult)) then Some None
  else
    let? in0 := input o 0 in
    x0 ← varnodes f !! in0;
    if negb (is_written x0) then Some None
    else
      c0 ← is_constant_extended f in0;
      match c0 with
      | Some y =>
          let? in1 := input o 1 in
          x1 ← varnodes f !! in1;
          if negb (is_written x1) then Some None else found (y, in1)
      | None =>
          let? in1 := input o 1 in
          call? y := is_constant_extended f in1 in
          found (y, in0)
      end.

(** The bits of the numerand *)
Definition numerand_bits (f : funcdata) (x : varnode) (ext : pcode_op) : option (option Z) :=
  if negb (bool_decide (opc ext = IntSext)) then
    let bits (nzmask : Z) : option Z :=
      let xsize := 64 - u64_leading_zeros nzmask in
      if xsize =? 0 then None else if 4 * size x <? xsize then None else Some xsize in
    if bool_decide (opc ext = IntZext) then
      let? ev := input ext 0 in
      xe ← varnodes f !! ev;
      Some (bits (nzm xe))
    else Some (bits (nzm x))
  else
    let? ev := input ext 0 in
    xe ← varnodes f !! ev;
    found (size xe * 8).

Definition find_form (f : funcdata) (op : nat) : option (option form) :=
  call? root := leading_shift f op in
  let '(n, shiftopc, cur) := root in
  call? high := high_part f n cur in
  let '(n, cur) := high in
  call? mult := magic_mult f cur in
  let '(y, invn) := mult in
  x ← varnodes f !! invn;
  let? extid := vdef x in
  ext ← ops f !! extid;
  o ← ops f !! op;
  let? out := output o in
  xo ← varnodes f !! out;
  let out_size := size xo in
  call? xsize := numerand_bits f x ext in
  let finish (resvn : nat) (extopc : opcode) : option (option form) :=
    let mismatch := bool_decide (extopc = IntZext /\ shiftopc = Some IntSright) ||
                    bool_decide (extopc = IntSext /\ shiftopc = Some IntRight) in
    if mismatch && negb (i64 (8 * out_size - n) =? xsize) then Some None
    else found (Form resvn n y xsize extopc) in
  if bool_decide (opc ext = IntZext) || bool_decide (opc ext = IntSext) then
    let? extvn := input ext 0 in
    xe ← varnodes f !! extvn;
    if is_free xe then Some None
    else finish (if size x =? out_size then invn else extvn) (opc ext)
  else finish invn IntZext.

Definition check_form_overlap (f : funcdata) (op : nat) : option bool :=
  o ← ops f !! op;
  if negb (bool_decide (opc o = Subpiece)) then Some false
  else
    match output o with
    | None => Some false
    | Some out =>
        x ← varnodes f !! out;
        (fix scan (supers : list nat) : option bool :=
           match supers with
           | [] => Some false
           | s :: supers =>
               so ← ops f !! s;
               match opc so with
               | IntRight | IntSright =>
                   match input so 1 with
                   | None => Some true
                   | Some c =>
                       xc ← varnodes f !! c;
                       if negb (is_constant xc) then Some true
                       else
                         r ← find_form f s;
                         match r with Some _ => Some true | None => scan supers end
                   end
               | _ => scan supers
               end
           end) (descend x)
    end.
