(* ===== verification/DivRules.v ===== *)
(** The rules of [decompile/divopt.rs] that recover a division or a remainder from the shifts, masks and
    corrections a compiler emits for it.  A shift beyond its width takes its distance modulo the
    width, as in a release build. *)
From Stdlib Require Import ZArith Lia Bool List.
From stdpp Require Import base decidable option list numbers.
From S2P Require Import Prelude Space OpCode BitUtil Funcdata FuncdataBuild RuleBase Divopt.
Local Open Scope Z_scope.
Local Open Scope match_scope.

(** ** Sign extraction *)

(** [res] where the value is [res s>> (8 * size - 1)] *)
Definition check_sign_extraction (f : funcdata) (out_vn : nat) : option (option nat) :=
  x ← varnodes f !! out_vn;
  need (is_written x) in
  d ← vdef x; sign_op ← ops f !! d;
  need (is_code IntSright sign_op) in
  const_vn ← input sign_op 1; xc ← varnodes f !! const_vn;
  need (is_constant xc) in
  res_vn ← input sign_op 0; xr ← varnodes f !! res_vn;
  need (constant_value xc =? sign_bit xr) in
  found res_vn.

(** ** [RuleSignDiv2]: [(V + -1 * (V s>> (w - 1))) s>> 1] is [V s/ 2] *)

Definition sign_div2_term (f : funcdata) (add : pcode_op) (i : nat) : option (option nat) :=
  multout ← input add i; xm ← varnodes f !! multout;
  need (is_written xm) in
  multop ← vdef xm; mult ← ops f !! multop;
  need (is_code IntMult mult) in
  mc ← input mult 1; xc ← varnodes f !! mc;
  need (is_minus_one xc) in
  shiftout ← input mult 0; xs ← varnodes f !! shiftout;
  need (is_written xs) in
  shiftop ← vdef xs; shift ← ops f !! shiftop;
  need (is_code IntSright shift) in
  sc ← input shift 1; xn ← varnodes f !! sc;
  need (is_constant xn) in
  a ← input shift 0;
  need (bool_decide (Some a = input add (1 - i))) in
  xa ← varnodes f !! a;
  need ((constant_value xn =? sign_bit xa) && negb (is_free xa)) in
  found a.

Definition sign_div2_match (f : funcdata) (op : nat) : option (option nat) :=
  o ← ops f !! op;
  in1 ← input o 1; x1 ← varnodes f !! in1;
  need (is_constant x1 && (constant_value x1 =? 1)) in
  addout ← input o 0; xo ← varnodes f !! addout;
  need (is_written xo) in
  addop ← vdef xo; add ← ops f !! addop;
  need (is_code IntAdd add) in
  first_slot (sign_div2_term f add).

Definition RuleSignDiv2 : rule :=
  Rule [IntSright] (fun op f => fire (sign_div2_match f op) f (fun a =>
    f ← op_set_input f op 0 a;
    xa ← varnodes f !! a;
    '(two, f) ← new_const f (size xa) 2;
    f ← op_set_input f op 1 two;
    op_set_opcode f op IntSdiv)).

(** ** [RuleDivChain]: [(x / c1) / c2] is [x / (c1 * c2)] *)

(** the magnitude of a divisor, read as signed *)
Definition magnitude (v sz : Z) : Z := if signbit_negative v sz then Z.land (w64 (- v)) (calc_mask sz) else v.

Definition div_chain_match (f : funcdata) (op : nat) : option (option (nat * Z * Z)) :=
  o ← ops f !! op;
  let opc2 := opc o in
  const_vn2 ← input o 1; x2 ← varnodes f !! const_vn2;
  need (is_constant x2) in
  vn ← input o 0; x ← varnodes f !! vn;
  need (is_written x) in
  div_op ← vdef x; d ← ops f !! div_op;
  let opc1 := opc d in
  need (bool_decide (opc1 = opc2) || (bool_decide (opc2 = IntDiv) && bool_decide (opc1 = IntRight))) in
  const_vn1 ← input d 1; x1 ← varnodes f !! const_vn1;
  need (is_constant x1) in
  need (Nat.eqb (List.length (descend x)) 1) in
  let sz := size x in
  let val1 := if bool_decide (opc1 = opc2) then constant_value x1 else u64_checked_shl0 1 (w32 (constant_value x1)) in
  base_vn ← input d 0; xb ← varnodes f !! base_vn;
  need (negb (is_free xb)) in
  let val2 := constant_value x2 in
  let resval := Z.land (u64_mul val1 val2) (calc_mask sz) in
  need (negb (resval =? 0)) in
  let bitcount := mostsigbit_set (magnitude val1 sz) + mostsigbit_set (magnitude val2 sz) + 2 in
  need (negb (bool_decide (opc2 = IntDiv) && (i32 (w32 (sz * 8)) <? bitcount))) in
  need (negb (bool_decide (opc2 = IntSdiv) && (i32 (w32 (sz * 8)) - 2 <? bitcount))) in
  found (base_vn, sz, resval).

Definition RuleDivChain : rule :=
  Rule [IntDiv; IntSdiv] (fun op f => fire (div_chain_match f op) f (fun '(base_vn, sz, resval) =>
    f ← op_set_input f op 0 base_vn;
    '(rc, f) ← new_const f sz resval;
    op_set_input f op 1 rc)).

(** ** [RuleSignNearMult]: [(V + ((V s>> (w - 1)) >> (w - n))) & (-1 << n)] is [(V s/ 2 ^ n) * 2 ^ n] *)

(** the term that is a logical shift by a constant: its slot, its value, its operation *)
Definition near_mult_term (f : funcdata) (add : pcode_op) (i : nat) : option (option (nat * nat * nat)) :=
  sv ← input add i; xv ← varnodes f !! sv;
  need (is_written xv) in
  uso ← vdef xv; u ← ops f !! uso;
  need (is_code IntRight u) in
  c ← input u 1; xc ← varnodes f !! c;
  need (is_constant xc) in
  found (i, sv, uso).

Definition near_mult_match (f : funcdata) (op : nat) : option (option (nat * Z)) :=
  o ← ops f !! op;
  in1 ← input o 1; x1 ← varnodes f !! in1;
  need (is_constant x1) in
  in0 ← input o 0; x0 ← varnodes f !! in0;
  need (is_written x0) in
  addop ← vdef x0; add ← ops f !! addop;
  need (is_code IntAdd add) in
  call? t := first_slot (near_mult_term f add) in
  let '(idx, shiftvn, unshiftop) := t in
  x ← input add (1 - idx); xx ← varnodes f !! x;
  need (negb (is_free xx)) in
  u ← ops f !! unshiftop;
  nc ← input u 1; xn ← varnodes f !! nc;
  let n0 := i64 (constant_value xn) in
  need (0 <? n0) in
  xs ← varnodes f !! shiftvn;
  let n := i64 (size xs * 8 - n0) in
  need (0 <? n) in
  let mask0 := calc_mask (size xs) in
  need (Z.land (u64_shl mask0 (w32 n)) mask0 =? constant_value x1) in
  sgnvn ← input u 0; xg ← varnodes f !! sgnvn;
  need (is_written xg) in
  sshiftop ← vdef xg; ss ← ops f !! sshiftop;
  need (is_code IntSright ss) in
  sc ← input ss 1; xc ← varnodes f !! sc;
  need (is_constant xc) in
  need (bool_decide (input ss 0 = Some x)) in
  need (constant_value xc =? sign_bit xx) in
  found (x, n).

Definition RuleSignNearMult : rule :=
  Rule [IntAnd] (fun op f => fire (near_mult_match f op) f (fun '(x, n) =>
    let pow := u64_shl 1 (w32 n) in
    xx ← varnodes f !! x;
    let xsize := size xx in
    '(powc1, f) ← new_const f xsize pow;
    '(newdiv, f) ← new_op_before_sized f op IntSdiv [x; powc1] xsize;
    divvn ← output_of f newdiv;
    f ← op_set_opcode f op IntMult;
    '(powc2, f) ← new_const f xsize pow;
    f ← op_set_input f op 0 divvn;
    op_set_input f op 1 powc2)).

(** ** [RuleModOpt]: [x + (x / d) * -d] is [x % d] *)

(** an addition of [outvn2] and [x] *)
Definition mod_add (f : funcdata) (x outvn2 addop : nat) : option (option nat) :=
  add ← ops f !! addop;
  need (is_code IntAdd add) in
  in0 ← input add 0;
  lvn ← if Nat.eqb in0 outvn2 then input add 1 else Some in0;
  need (Nat.eqb lvn x) in
  found addop.

(** [div2] is the opposite of [div] *)
Definition is_opposite (f : funcdata) (div : nat) (xd xd2 : varnode) : option bool :=
  if is_constant xd2 then
    let mask := calc_mask (size xd2) in
    Some (is_constant xd && (Z.land (u64_add (Z.lxor (constant_value xd2) mask) 1) mask =? constant_value xd))
  else if negb (is_written xd2) then Some false
  else
    d2def ← vdef xd2; d2 ← ops f !! d2def;
    Some (is_code Int2comp d2 && bool_decide (input d2 0 = Some div)).

(** a multiplication of [outvn] by the opposite of [div], and the addition above it *)
Definition mod_mult (f : funcdata) (x div outvn multop : nat) : option (option nat) :=
  mult ← ops f !! multop;
  need (is_code IntMult mult) in
  in1 ← input mult 1;
  div2 ← if Nat.eqb in1 outvn then input mult 0 else Some in1;
  xd2 ← varnodes f !! div2;
  xd ← varnodes f !! div;
  ok ← is_opposite f div xd xd2;
  need ok in
  outvn2 ← output mult; xo2 ← varnodes f !! outvn2;
  first_of (mod_add f x outvn2) (descend xo2).

Definition mod_match (f : funcdata) (op : nat) : option (option (nat * nat * nat * opcode)) :=
  o ← ops f !! op;
  x ← input o 0;
  div ← input o 1;
  outvn ← output o; xo ← varnodes f !! outvn;
  call? addop := first_of (mod_mult f x div outvn) (descend xo) in
  found (x, div, addop, if bool_decide (opc o = IntDiv) then IntRem else IntSrem).

Definition RuleModOpt : rule :=
  Rule [IntDiv; IntSdiv] (fun op f => fire (mod_match f op) f (fun '(x, div, addop, newcode) =>
    f ← op_set_input f addop 0 x;
    xd ← varnodes f !! div;
    f ← (if is_constant xd then
           '(dc, f) ← new_const f (size xd) (constant_value xd);
           op_set_input f addop 1 dc
         else op_set_input f addop 1 div);
    op_set_opcode f addop newcode)).

(** ** [RuleSignMod2nOpt]: [((V + (sign >> (w - n))) & (2 ^ n - 1)) - (sign >> (w - n))] is [V s% 2 ^ n] *)

(** the varnode a [SUBPIECE] truncates by [amount] *)
Definition truncated (f : funcdata) (vn : nat) (amount : Z) : option (option nat) :=
  x ← varnodes f !! vn;
  need (is_written x) in
  sub_op ← vdef x; s ← ops f !! sub_op;
  need (is_code Subpiece s) in
  c ← input s 1; xc ← varnodes f !! c;
  need (constant_value xc =? amount) in
  v ← input s 0;
  found v.

(** the input of [add] that is [a], whole or truncated *)
Definition base_slot (f : funcdata) (a : nat) (trunc : bool) (add : pcode_op) (slot : nat) : option (option nat) :=
  vn ← input add slot;
  if trunc then
    call? v := truncated f vn 0 in
    need (Nat.eqb a v) in
    found slot
  else
    need (Nat.eqb a vn) in
    found slot.

(** the mask: the operation, and the size it is computed at where it is extended afterwards *)
Definition mod_mask (f : funcdata) (and_out : nat) : option (option (pcode_op * option Z)) :=
  x ← varnodes f !! and_out;
  need (is_written x) in
  and_op ← vdef x; a ← ops f !! and_op;
  if is_code IntZext a then
    inner ← input a 0; xi ← varnodes f !! inner;
    need (is_written xi) in
    d ← vdef xi; b ← ops f !! d;
    need (is_code IntAnd b) in
    found (b, Some (size xi))
  else
    need (is_code IntAnd a) in
    found (a, None).

Definition sign_mod2n_mult (f : funcdata) (a correct_vn : nat) (shift_amt mask : Z) (multop : nat) : option (option nat) :=
  mult ← ops f !! multop;
  need (is_code IntMult mult) in
  negone ← input mult 1; xn ← varnodes f !! negone;
  need (is_constant xn) in
  xcorrect ← varnodes f !! correct_vn;
  need (constant_value xn =? calc_mask (size xcorrect)) in
  mult_out ← output mult; xm ← varnodes f !! mult_out;
  need (Nat.eqb (List.length (descend xm)) 1) in
  base_op ← descend xm !! 0%nat; base ← ops f !! base_op;
  need (is_code IntAdd base) in
  let mult_slot := if bool_decide (input base 0 = Some mult_out) then 0%nat else 1%nat in
  and_out ← input base (1 - mult_slot);
  call? m := mod_mask f and_out in
  let '(and_, trunc) := m in
  const_vn ← input and_ 1; xc ← varnodes f !! const_vn;
  need (is_constant xc && (constant_value xc =? mask)) in
  add_out ← input and_ 0; xo ← varnodes f !! add_out;
  need (is_written xo) in
  add_op ← vdef xo; add ← ops f !! add_op;
  need (is_code IntAdd add) in
  call? a_slot := first_slot (base_slot f a (bool_decide (is_Some trunc)) add) in
  ext_vn ← input add (1 - a_slot); xe ← varnodes f !! ext_vn;
  need (is_written xe) in
  shift_op ← vdef xe; sh ← ops f !! shift_op;
  need (is_code IntRight sh) in
  cvn ← input sh 1; xv ← varnodes f !! cvn;
  need (is_constant xv) in
  xa ← varnodes f !! a;
  let shiftval := match trunc with Some t => i64 (i64 (constant_value xv) + (size xa - t) * 8) | None => i64 (constant_value xv) end in
  need (shiftval =? shift_amt) in
  sh0 ← input sh 0;
  call? ext2 := check_sign_extraction f sh0 in
  match trunc with
  | Some t =>
      x2 ← varnodes f !! ext2;
      need (is_written x2) in
      sub_op ← vdef x2; s ← ops f !! sub_op;
      need (is_code Subpiece s) in
      c ← input s 1; xt ← varnodes f !! c;
      need (i64 (constant_value xt) =? t) in
      ext2 ← input s 0;
      need (Nat.eqb a ext2) in
      found base_op
  | None => need (Nat.eqb a ext2) in found base_op
  end.

Definition sign_mod2n_match (f : funcdata) (op : nat) : option (option (nat * nat * Z)) :=
  o ← ops f !! op;
  in1 ← input o 1; x1 ← varnodes f !! in1;
  need (is_constant x1) in
  let shift_amt := i64 (constant_value x1) in
  in0 ← input o 0;
  call? a := check_sign_extraction f in0 in
  xa ← varnodes f !! a;
  need (negb (is_free xa)) in
  correct_vn ← output o;
  let n := i64 (size xa * 8 - shift_amt) in
  let mask := u64_shl 1 n - 1 in
  xcorrect ← varnodes f !! correct_vn;
  call? base_op := first_of (sign_mod2n_mult f a correct_vn shift_amt mask) (descend xcorrect) in
  found (a, base_op, mask).

Definition RuleSignMod2nOpt : rule :=
  Rule [IntRight] (fun op f => fire (sign_mod2n_match f op) f (fun '(a, base_op, mask) =>
    xa ← varnodes f !! a;
    f ← op_set_opcode f base_op IntSrem;
    f ← op_set_input f base_op 0 a;
    '(c, f) ← new_const f (size xa) (w64 (mask + 1));
    op_set_input f base_op 1 c)).

(** ** [RuleSignMod2nOpt2]: [V - ((V - (V s>> (w - 1))) & -2)] is [V s% 2] *)

(** a guard whose failure goes on to the next slot *)
Notation "'ensure' c 'in' k" := (if (c : bool) then k else Some (Some None)) (at level 10, c at level 100, k at level 200) : match_scope.

(** One slot: [Some None] returns [None] from the whole search, [found None] continues. *)
Definition sign_ext_slot (f : funcdata) (o : pcode_op) (slot : nat) : option (option (option nat)) :=
  let? minus_vn := input o slot in
  xm ← varnodes f !! minus_vn;
  ensure (is_written xm) in
  mult_op ← vdef xm; mult ← ops f !! mult_op;
  ensure (is_code IntMult mult) in
  let? const_vn := input mult 1 in
  xc ← varnodes f !! const_vn;
  ensure (is_minus_one xc) in
  let? base := input o (1 - slot) in
  let? sign_ext := input mult 0 in
  xs ← varnodes f !! sign_ext;
  ensure (is_written xs) in
  shift_op ← vdef xs; sh ← ops f !! shift_op;
  ensure (is_code IntSright sh) in
  ensure (bool_decide (input sh 0 = Some base)) in
  let? cvn := input sh 1 in
  xv ← varnodes f !! cvn;
  xb ← varnodes f !! base;
  ensure (is_constant xv && (i64 (constant_value xv) =? 8 * size xb - 1)) in
  found (Some base).

Definition check_sign_ext_form (f : funcdata) (op : nat) : option (option nat) :=
  o ← ops f !! op;
  call? r := sign_ext_slot f o 0 in
  match r with Some base => found base | None => call? r := sign_ext_slot f o 1 in Some r end.

Definition sign_mod2_root (f : funcdata) (base mult_out root_op : nat) : option (option (nat * nat)) :=
  root ← ops f !! root_op;
  need (is_code IntAdd root) in
  let slot := if bool_decide (input root 0 = Some mult_out) then 0%nat else 1%nat in
  need (bool_decide (input root (1 - slot) = Some base)) in
  found (root_op, slot).

Definition sign_mod2n2_match (f : funcdata) (op : nat) : option (option (nat * Z * nat * nat)) :=
  o ← ops f !! op;
  const_vn ← input o 1; xk ← varnodes f !! const_vn;
  need (is_constant xk) in
  let mask := calc_mask (size xk) in
  need (constant_value xk =? mask) in
  and_out ← input o 0; xo ← varnodes f !! and_out;
  need (is_written xo) in
  and_op ← vdef xo; a ← ops f !! and_op;
  need (is_code IntAnd a) in
  cvn ← input a 1; xc ← varnodes f !! cvn;
  need (is_constant xc) in
  let npow := Z.land (u64_add (u64_not (constant_value xc)) 1) mask in
  need ((count_ones npow =? 1) && negb (npow =? 1)) in
  adj_vn ← input a 0; xj ← varnodes f !! adj_vn;
  need (is_written xj) in
  adj_op ← vdef xj; adj ← ops f !! adj_op;
  need (is_code IntAdd adj) in
  need (npow =? 2) in
  call? base := check_sign_ext_form f adj_op in
  xb ← varnodes f !! base;
  need (negb (is_free xb)) in
  mult_out ← output o; xm ← varnodes f !! mult_out;
  call? r := first_of (sign_mod2_root f base mult_out) (descend xm) in
  let '(root_op, slot) := r in
  found (base, npow, root_op, slot).

Definition RuleSignMod2nOpt2 : rule :=
  Rule [IntMult] (fun op f => fire (sign_mod2n2_match f op) f (fun '(base, npow, root_op, slot) =>
    f ← (if Nat.eqb slot 0 then op_set_input f root_op 0 base else Some f);
    xb ← varnodes f !! base;
    '(c, f) ← new_const f (size xb) npow;
    f ← op_set_input f root_op 1 c;
    op_set_opcode f root_op IntSrem)).

(** ** [RuleSignMod2Opt]: [((V - sign) & 1) + sign] is [V s% 2] *)

Definition minus_term (f : funcdata) (add : pcode_op) (slot : nat) : option (option (nat * pcode_op)) :=
  vn ← input add slot; x ← varnodes f !! vn;
  need (is_written x) in
  mo ← vdef x; m ← ops f !! mo;
  need (is_code IntMult m) in
  cvn ← input m 1; xc ← varnodes f !! cvn;
  need (is_minus_one xc) in
  found (slot, m).

(** the value two pieces of which are the high part [base] and the low part [other] *)
Definition truncated_base (f : funcdata) (base other : nat) : option (option nat) :=
  xb ← varnodes f !! base; xo ← varnodes f !! other;
  need (is_written xb && is_written xo) in
  sub_op ← vdef xb; s ← ops f !! sub_op;
  need (is_code Subpiece s) in
  c ← input s 1; xc ← varnodes f !! c;
  v ← input s 0; xv ← varnodes f !! v;
  need (u64_add (constant_value xc) (size xb) =? size xv) in
  call? w := truncated f other 0 in
  need (Nat.eqb w v) in
  found v.

Definition sign_mod2_sum (f : funcdata) (base and_out root_op : nat) : option (option nat) :=
  root ← ops f !! root_op;
  need (is_code IntAdd root) in
  let slot := if bool_decide (input root 0 = Some and_out) then 0%nat else 1%nat in
  other ← input root (1 - slot);
  r ← check_sign_extraction f other;
  need (bool_decide (r = Some base)) in
  found root_op.

Definition sign_mod2_match (f : funcdata) (op : nat) : option (option (nat * nat)) :=
  o ← ops f !! op;
  const_vn ← input o 1; xk ← varnodes f !! const_vn;
  need (is_constant xk && (constant_value xk =? 1)) in
  add_out ← input o 0; xo ← varnodes f !! add_out;
  need (is_written xo) in
  add_op ← vdef xo; add ← ops f !! add_op;
  need (is_code IntAdd add) in
  call? t := first_slot (minus_term f add) in
  let '(mult_slot, mult) := t in
  m0 ← input mult 0;
  call? base0 := check_sign_extraction f m0 in
  other_base ← input add (1 - mult_slot);
  let trunc := negb (Nat.eqb base0 other_base) in
  call? base := (if trunc then truncated_base f base0 other_base else found base0) in
  xb ← varnodes f !! base;
  need (negb (is_free xb)) in
  out ← output o; xout ← varnodes f !! out;
  call? and_out := (if trunc then
      need (Nat.eqb (List.length (descend xout)) 1) in
      ext_op ← descend xout !! 0%nat; e ← ops f !! ext_op;
      need (is_code IntZext e) in
      v ← output e; found v
    else found out) in
  xa ← varnodes f !! and_out;
  call? root_op := first_of (sign_mod2_sum f base and_out) (descend xa) in
  found (base, root_op).

Definition RuleSignMod2Opt : rule :=
  Rule [IntAnd] (fun op f => fire (sign_mod2_match f op) f (fun '(base, root_op) =>
    f ← op_set_opcode f root_op IntSrem;
    f ← op_set_input f root_op 0 base;
    xb ← varnodes f !! base;
    '(two, f) ← new_const f (size xb) 2;
    op_set_input f root_op 1 two)).
