(* ===== verification/Rules.v ===== *)
(** The simplification rules on single operations ([decompile/rules.rs]): identities, comparisons with
    extreme constants, negations and shifts. *)
From Stdlib Require Import ZArith Lia Bool List.
From stdpp Require Import base decidable option list strings numbers.
From S2P Require Import Prelude Space OpCode BitUtil Funcdata FuncdataBuild RuleBase.
Local Open Scope Z_scope.
Local Open Scope match_scope.

(** [op] becomes a copy of a new constant, with [op_remove_input(op, 1)] before *)
Definition copy_const (f : funcdata) (op : nat) (sz k : Z) : option funcdata :=
  f ← op_set_opcode f op Copy;
  f ← op_remove_input f op 1;
  '(c, f) ← new_const f sz k;
  op_set_input f op 0 c.

(** the same, in the order of [RuleLess2Zero]: the constant is built first *)
Definition const_copy (f : funcdata) (op : nat) (sz k : Z) : option funcdata :=
  '(c, f) ← new_const f sz k;
  f ← op_set_opcode f op Copy;
  f ← op_remove_input f op 1;
  op_set_input f op 0 c.

(** [mask(v, size)] of rules.rs *)
Definition mask (v size : Z) : Z := if 8 <=? size then v else Z.land v (u64_shl 1 (8 * size) - 1).

(** [data.op(op).num_inputs() == 2] *)
Definition two_inputs (o : pcode_op) : bool := Nat.eqb (List.length (inrefs o)) 2.

(** ** [RuleTrivialArith]: [x OP x] *)

(** what [x OP x] is: a constant, or [x] itself *)
Definition trivial_value (c : opcode) (out_size : Z) : option (option (Z * Z)) :=
  match c with
  | IntNotequal | IntSless | IntLess | BoolXor => Some (Some (1, 0))
  | IntEqual | IntSlessequal | IntLessequal => Some (Some (1, 1))
  | IntXor => Some (Some (out_size, 0))
  | IntAnd | IntOr | BoolAnd | BoolOr => Some None
  | _ => None
  end.

Definition trivial_arith_match (f : funcdata) (op : nat) : option (option (option (Z * Z))) :=
  o ← ops f !! op;
  need (two_inputs o && bool_decide (input o 0 = input o 1)) in
  out_size ← match output o with Some v => x ← varnodes f !! v; Some (size x) | None => Some 1 end;
  let? cval := trivial_value (opc o) out_size in
  found cval.

Definition RuleTrivialArith : rule :=
  Rule [IntNotequal; IntSless; IntLess; BoolXor; IntEqual; IntSlessequal; IntLessequal; IntXor; IntAnd; IntOr; BoolAnd; BoolOr]
    (fun op f => fire (trivial_arith_match f op) f (fun cval =>
      f ← op_remove_input f op 1;
      f ← op_set_opcode f op Copy;
      match cval with
      | Some (sz, v) => '(c, f) ← new_const f sz v; op_set_input f op 0 c
      | None => Some f
      end)).

(** ** [RuleTermOrder]: a constant goes second *)

Definition term_order_match (f : funcdata) (op : nat) : option (option unit) :=
  o ← ops f !! op;
  need (two_inputs o) in
  in0 ← input o 0; in1 ← input o 1; x0 ← varnodes f !! in0; x1 ← varnodes f !! in1;
  need (is_constant x0 && negb (is_constant x1)) in
  found tt.

Definition RuleTermOrder : rule :=
  Rule [IntEqual; IntNotequal; IntAdd; IntCarry; IntScarry; IntXor; IntAnd; IntOr; IntMult; BoolXor; BoolAnd; BoolOr;
        FloatEqual; FloatNotequal; FloatAdd; FloatMult]
    (fun op f => fire (term_order_match f op) f (fun _ => op_swap_input f op 0 1)).

(** ** [RuleIdentityEl]: [x + 0], [x * 1], [x * 0] *)

(** the input that goes away *)
Definition identity_el_match (f : funcdata) (op : nat) : option (option nat) :=
  o ← ops f !! op;
  need (two_inputs o) in
  in1 ← input o 1; x1 ← varnodes f !! in1;
  need (is_constant x1) in
  let val := constant_value x1 in
  if (val =? 0) && negb (is_code IntMult o) then found 1%nat
  else
    need (is_code IntMult o) in
    if val =? 1 then found 1%nat else if val =? 0 then found 0%nat else Some None.

Definition RuleIdentityEl : rule :=
  Rule [IntAdd; IntXor; IntOr; BoolXor; BoolOr; IntMult] (fun op f => fire (identity_el_match f op) f (fun slot =>
    f ← op_set_opcode f op Copy;
    op_remove_input f op slot)).

(** ** [RuleTrivialShift]: shifts by nothing, and by everything *)

(** the size of the zero that is left, if so *)
Definition trivial_shift_match (f : funcdata) (op : nat) : option (option (option Z)) :=
  o ← ops f !! op;
  need (two_inputs o) in
  in1 ← input o 1; x1 ← varnodes f !! in1;
  need (is_constant x1) in
  let val := constant_value x1 in
  if negb (val =? 0) then
    in0 ← input o 0; x0 ← varnodes f !! in0;
    need (negb ((val <? 8 * size x0) || is_code IntSright o)) in
    found (Some (size x0))
  else found None.

Definition RuleTrivialShift : rule :=
  Rule [IntLeft; IntRight; IntSright] (fun op f => fire (trivial_shift_match f op) f (fun zero =>
    f ← match zero with
        | Some sz => '(z, f) ← new_const f sz 0; op_set_input f op 0 z
        | None => Some f
        end;
    f ← op_remove_input f op 1;
    op_set_opcode f op Copy)).

(** ** [RuleShift2Mult]: [V << c] among sums and products is [V * 2 ^ c] *)

Definition is_arith (c : opcode) : bool := match c with IntAdd | IntSub | IntMult => true | _ => false end.

(** some operation of the list is an arithmetic one *)
Fixpoint any_arith (f : funcdata) (l : list nat) : option bool :=
  match l with
  | [] => Some false
  | d :: l => o ← ops f !! d; if is_arith (opc o) then Some true else any_arith f l
  end.

Definition shift2mult_match (f : funcdata) (op : nat) : option (option (Z * Z)) :=
  o ← ops f !! op;
  need (two_inputs o) in
  in1 ← input o 1; x1 ← varnodes f !! in1;
  need (is_constant x1) in
  let val := constant_value x1 in
  need (negb (32 <=? val)) in
  in0 ← input o 0; x0 ← varnodes f !! in0;
  input_arith ← match vdef x0 with Some d => p ← ops f !! d; Some (is_arith (opc p)) | None => Some false end;
  desc_arith ← match output o with Some v => x ← varnodes f !! v; any_arith f (descend x) | None => Some false end;
  need (input_arith || desc_arith) in
  out ← output o; xo ← varnodes f !! out;
  found (size xo, u64_shl 1 val).

Definition RuleShift2Mult : rule :=
  Rule [IntLeft] (fun op f => fire (shift2mult_match f op) f (fun '(sz, k) =>
    '(nc, f) ← new_const f sz k;
    f ← op_set_input f op 1 nc;
    op_set_opcode f op IntMult)).

(** ** Comparisons with extreme constants *)

(** [RuleLessEqual2Zero]: what [lvn <= rvn] is, a constant truth or an equality *)
Definition lessequal2zero_match (f : funcdata) (op : nat) : option (option bool) :=
  o ← ops f !! op;
  need (is_code IntLessequal o) in
  lvn ← input o 0; rvn ← input o 1; xl ← varnodes f !! lvn; xr ← varnodes f !! rvn;
  if is_constant xl then
    if constant_value xl =? 0 then found true
    else need (constant_value xl =? calc_mask (size xl)) in found false
  else
    need (is_constant xr) in
    if constant_value xr =? 0 then found false
    else need (constant_value xr =? calc_mask (size xr)) in found true.

Definition RuleLessEqual2Zero : rule :=
  Rule [IntLessequal] (fun op f => fire (lessequal2zero_match f op) f (fun always =>
    if always then copy_const f op 1 1 else op_set_opcode f op IntEqual)).

(** [RuleLess2Zero]: what [lvn < rvn] is, a constant falsehood or an inequality *)
Definition less2zero_match (f : funcdata) (op : nat) : option (option bool) :=
  o ← ops f !! op;
  lvn ← input o 0; rvn ← input o 1; xl ← varnodes f !! lvn; xr ← varnodes f !! rvn;
  if is_constant xl then
    if constant_value xl =? 0 then found false
    else need (constant_value xl =? calc_mask (size xl)) in found true
  else
    need (is_constant xr) in
    if constant_value xr =? 0 then found true
    else need (constant_value xr =? calc_mask (size xr)) in found false.

Definition RuleLess2Zero : rule :=
  Rule [IntLess] (fun op f => fire (less2zero_match f op) f (fun never =>
    if never then const_copy f op 1 0 else op_set_opcode f op IntNotequal)).

(** [RuleLessOne]: [V < 1] and [V <= 0] are [V == 0]; whether the constant changes, and its size *)
Definition less_one_match (f : funcdata) (op : nat) : option (option (bool * Z)) :=
  o ← ops f !! op;
  let? constvn := input o 1 in
  x ← varnodes f !! constvn;
  need (is_constant x) in
  let val := constant_value x in
  need (negb (is_code IntLess o && negb (val =? 1))) in
  need (negb (is_code IntLessequal o && negb (val =? 0))) in
  found (negb (val =? 0), size x).

Definition RuleLessOne : rule :=
  Rule [IntLess; IntLessequal] (fun op f => fire (less_one_match f op) f (fun '(change, sz) =>
    f ← op_set_opcode f op IntEqual;
    if (change : bool) then '(zero, f) ← new_const f sz 0; op_set_input f op 1 zero else Some f)).

(** [RuleCarryElim]: [carry(V, c)] is [-c <= V] *)
Definition carry_elim_match (f : funcdata) (op : nat) : option (option (nat * Z * Z)) :=
  o ← ops f !! op;
  vn2 ← input o 1; x2 ← varnodes f !! vn2;
  need (is_constant x2) in
  vn1 ← input o 0; x1 ← varnodes f !! vn1;
  need (negb (is_free x1)) in
  found (vn1, constant_value x2, size x2).

Definition RuleCarryElim : rule :=
  Rule [IntCarry] (fun op f => fire (carry_elim_match f op) f (fun '(vn1, off, sz) =>
    if off =? 0 then
      f ← op_remove_input f op 1;
      '(c, f) ← new_const f 1 0;
      f ← op_set_input f op 0 c;
      op_set_opcode f op Copy
    else
      let off := Z.land (w64 (- off)) (calc_mask sz) in
      f ← op_set_opcode f op IntLessequal;
      f ← op_set_input f op 1 vn1;
      x1 ← varnodes f !! vn1;
      '(c, f) ← new_const f (size x1) off;
      op_set_input f op 0 c)).

(** [RuleXorCollapse]: [(x ^ c) == d] is [x == (c ^ d)], and [(x ^ y) == 0] is [x == y] *)
Definition xor_collapse_match (f : funcdata) (op : nat) : option (option (nat * (nat + Z * Z))) :=
  o ← ops f !! op;
  need (is_code IntEqual o || is_code IntNotequal o) in
  cvn ← input o 1; xc ← varnodes f !! cvn;
  need (is_constant xc) in
  xin ← input o 0; x ← varnodes f !! xin;
  let? xorop := vdef x in
  p ← ops f !! xorop;
  need (is_code IntXor p) in
  need (bool_decide (is_Some (lone_descend x))) in
  let coeff1 := constant_value xc in
  xorvn ← input p 1; xor0 ← input p 0; x0 ← varnodes f !! xor0;
  need (negb (is_free x0)) in
  xv ← varnodes f !! xorvn;
  if negb (is_constant xv) then
    need (negb (negb (coeff1 =? 0) || is_free xv)) in
    found (xor0, inl xorvn)
  else
    let coeff2 := constant_value xv in
    need (negb (coeff2 =? 0)) in
    found (xor0, inr (size xc, Z.lxor coeff1 coeff2)).

Definition RuleXorCollapse : rule :=
  Rule [IntEqual; IntNotequal] (fun op f => fire (xor_collapse_match f op) f (fun '(xor0, side) =>
    f ← match side with
        | inl xorvn => op_set_input f op 1 xorvn
        | inr (sz, k) => '(c, f) ← new_const f sz k; op_set_input f op 1 c
        end;
    op_set_input f op 0 xor0)).

(** ** Masks and negations *)

(** [RuleOrMask]: [V | -1] is the mask *)
Definition or_mask_match (f : funcdata) (op : nat) : option (option nat) :=
  o ← ops f !! op;
  let? out := output o in
  xo ← varnodes f !! out;
  let size := size xo in
  need (negb (8 <? size)) in
  let? c := input o 1 in
  xc ← varnodes f !! c;
  need (is_constant xc) in
  let allones := mask (2 ^ 64 - 1) size in
  need (mask (constant_value xc) size =? allones) in
  found c.

Definition RuleOrMask : rule :=
  Rule [IntOr] (fun op f => fire (or_mask_match f op) f (fun c =>
    f ← op_set_opcode f op Copy;
    op_set_all_input f op [c])).

(** [RuleSub2Add]: [V - W] is [V + W * -1] *)
Definition sub2add_match (f : funcdata) (op : nat) : option (option (nat * Z)) :=
  o ← ops f !! op;
  vn ← input o 1; x ← varnodes f !! vn;
  found (vn, size x).

Definition RuleSub2Add : rule :=
  Rule [IntSub] (fun op f => fire (sub2add_match f op) f (fun '(vn, size) =>
    '(negone, f) ← new_const f size (mask (2 ^ 64 - 1) size);
    '(newop, f) ← new_op_before f op IntMult [vn; negone];
    newvn ← output_of f newop;
    f ← op_set_input f op 1 newvn;
    op_set_opcode f op IntAdd)).

(** [RuleMultNegOne]: [V * -1] is [-V] *)
Definition mult_neg_one_match (f : funcdata) (op : nat) : option (option unit) :=
  o ← ops f !! op;
  let? constvn := input o 1 in
  x ← varnodes f !! constvn;
  need (negb (negb (is_constant x) || negb (constant_value x =? mask (2 ^ 64 - 1) (size x)))) in
  found tt.

Definition RuleMultNegOne : rule :=
  Rule [IntMult] (fun op f => fire (mult_neg_one_match f op) f (fun _ =>
    f ← op_set_opcode f op Int2comp;
    op_remove_input f op 1)).

(** [Rule2Comp2Mult]: [-V] is [V * -1] *)
Definition Rule2Comp2Mult : rule :=
  Rule [Int2comp] (fun op f => fire (found tt) f (fun _ =>
    f ← op_set_opcode f op IntMult;
    o ← ops f !! op;
    v ← input o 0; x ← varnodes f !! v;
    '(negone, f) ← new_const f (size x) (calc_mask (size x));
    op_insert_input f op 1 negone)).

(** [Rule2Comp2Sub]: [V + -W] is [V - W], and the negation goes away *)
Definition comp2sub_match (f : funcdata) (op : nat) : option (option (nat * nat * nat)) :=
  o ← ops f !! op;
  let? out := output o in
  x ← varnodes f !! out;
  need (Nat.eqb (List.length (descend x)) 1) in
  addop ← descend x !! 0%nat; a ← ops f !! addop;
  need (is_code IntAdd a) in
  w ← input o 0;
  found (addop, out, w).

Definition Rule2Comp2Sub : rule :=
  Rule [Int2comp] (fun op f => fire (comp2sub_match f op) f (fun '(addop, out, w) =>
    a ← ops f !! addop;
    f ← (if bool_decide (input a 0 = Some out) then other ← input a 1; op_set_input f addop 0 other else Some f);
    f ← op_set_input f addop 1 w;
    f ← op_set_opcode f addop IntSub;
    op_destroy f op)).

(** [RuleNegateNegate]: [~(~V)] is [V] *)
Definition negate_negate_match (f : funcdata) (op : nat) : option (option nat) :=
  o ← ops f !! op;
  let? vn1 := input o 0 in
  x1 ← varnodes f !! vn1;
  need (is_written x1) in
  neg2 ← vdef x1; p ← ops f !! neg2;
  need (is_code IntNegate p) in
  let? vn2 := input p 0 in
  x2 ← varnodes f !! vn2;
  need (negb (is_free x2)) in
  found vn2.

Definition RuleNegateNegate : rule :=
  Rule [IntNegate] (fun op f => fire (negate_negate_match f op) f (fun vn2 =>
    f ← op_set_input f op 0 vn2;
    op_set_opcode f op Copy)).

(** [RuleNegateIdentity]: [~V & V] is 0, [~V | V] and [~V ^ V] are the mask *)
Definition slot_of (o : pcode_op) (vn : nat) : nat :=
  match list_find (fun v => v = vn) (inrefs o) with Some (i, _) => i | None => 0%nat end.

Definition negate_identity_use (f : funcdata) (vn out_vn logic_op : nat) : option (option (nat * Z * Z)) :=
  l ← ops f !! logic_op;
  need (negb (negb (is_code IntAnd l) && negb (is_code IntOr l) && negb (is_code IntXor l))) in
  let slot := slot_of l out_vn in
  other ← input l (1 - slot);
  need (Nat.eqb other vn) in
  x ← varnodes f !! vn;
  found (logic_op, size x, if is_code IntAnd l then 0 else calc_mask (size x)).

Definition negate_identity_match (f : funcdata) (op : nat) : option (option (nat * Z * Z)) :=
  o ← ops f !! op;
  vn ← input o 0; out_vn ← output o; x ← varnodes f !! out_vn;
  first_of (negate_identity_use f vn out_vn) (descend x).

Definition RuleNegateIdentity : rule :=
  Rule [IntNegate] (fun op f => fire (negate_identity_match f op) f (fun '(logic_op, sz, value) =>
    '(c, f) ← new_const f sz value;
    f ← op_set_input f logic_op 0 c;
    f ← op_remove_input f logic_op 1;
    op_set_opcode f logic_op Copy)).

(** [RuleXorSwap]: [V ^ (V ^ W)] is [W] *)
Definition xor_swap_slot (f : funcdata) (o : pcode_op) (i : nat) : option (option nat) :=
  let? vn := input o i in
  x ← varnodes f !! vn;
  need (is_written x) in
  op2 ← vdef x; p ← ops f !! op2;
  need (is_code IntXor p) in
  let othervn := input o (1 - i) in
  let? vn0 := input p 0 in
  let? vn1 := input p 1 in
  x0 ← varnodes f !! vn0; x1 ← varnodes f !! vn1;
  if bool_decide (othervn = Some vn0) && negb (is_free x1) then found vn1
  else need (bool_decide (othervn = Some vn1) && negb (is_free x0)) in found vn0.

Definition RuleXorSwap : rule :=
  Rule [IntXor] (fun op f => fire (o ← ops f !! op; first_slot (xor_swap_slot f o)) f (fun keep =>
    f ← op_remove_input f op 1;
    f ← op_set_opcode f op Copy;
    op_set_input f op 0 keep)).

(** ** Booleans *)

(** [RuleTrivialBool]: the code and the input that are left; an input is there already, or a new truth value *)
Definition trivial_bool_match (f : funcdata) (op : nat) : option (option (opcode * option Z)) :=
  o ← ops f !! op;
  vnconst ← input o 1; x ← varnodes f !! vnconst;
  need (is_constant x) in
  let val := constant_value x in
  match opc o with
  | BoolXor => found (if val =? 1 then BoolNegate else Copy, None)
  | BoolAnd => found (Copy, if val =? 1 then None else Some 0)
  | BoolOr => found (Copy, if val =? 1 then Some 1 else None)
  | _ => Some None
  end.

Definition RuleTrivialBool : rule :=
  Rule [BoolAnd; BoolOr; BoolXor] (fun op f => fire (trivial_bool_match f op) f (fun '(c, truth) =>
    o ← ops f !! op;
    '(vn, f) ← match truth with Some k => new_const f 1 k | None => v ← input o 0; Some (v, f) end;
    f ← op_remove_input f op 1;
    f ← op_set_opcode f op c;
    op_set_input f op 0 vn)).

(** [RuleBxor2NotEqual] *)
Definition RuleBxor2NotEqual : rule := Rule [BoolXor] (fun op f => fire (found tt) f (fun _ => op_set_opcode f op IntNotequal)).

(** [RuleNotDistribute]: [!(V && W)] is [!V || !W] *)
Definition not_distribute_match (f : funcdata) (op : nat) : option (option (opcode * nat * nat)) :=
  o ← ops f !! op;
  need (is_code BoolNegate o) in
  inv ← input o 0; x ← varnodes f !! inv;
  let? compop := vdef x in
  p ← ops f !! compop;
  let? c := match opc p with BoolAnd => Some BoolOr | BoolOr => Some BoolAnd | _ => None end in
  c0 ← input p 0; c1 ← input p 1;
  found (c, c0, c1).

Definition RuleNotDistribute : rule :=
  Rule [BoolNegate] (fun op f => fire (not_distribute_match f op) f (fun '(c, c0, c1) =>
    '(neg1, f) ← new_op_before f op BoolNegate [c0];
    out1 ← output_of f neg1;
    '(neg2, f) ← new_op_before f op BoolNegate [c1];
    out2 ← output_of f neg2;
    f ← op_set_opcode f op c;
    f ← op_set_input f op 0 out1;
    op_append_input f op out2)).

(** ** Pieces and shifts *)

(** [RuleDoubleSub]: a piece of a piece *)
Definition double_sub_match (f : funcdata) (op : nat) : option (option (nat * Z)) :=
  o ← ops f !! op;
  vn ← input o 0; x ← varnodes f !! vn;
  need (is_written x) in
  op2 ← vdef x; p ← ops f !! op2;
  need (is_code Subpiece p) in
  c1 ← input o 1; x1 ← varnodes f !! c1;
  c2 ← input p 1; x2 ← varnodes f !! c2;
  base ← input p 0;
  found (base, u64_add (constant_value x1) (constant_value x2)).

Definition RuleDoubleSub : rule :=
  Rule [Subpiece] (fun op f => fire (double_sub_match f op) f (fun '(base, offset) =>
    f ← op_set_input f op 0 base;
    '(c, f) ← new_const f 4 offset;
    op_set_input f op 1 c)).

(** [RuleDoubleArithShift]: arithmetic shifts add up, to the last bit at most *)
Definition double_arith_shift_match (f : funcdata) (op : nat) : option (option (nat * Z)) :=
  o ← ops f !! op;
  const_d ← input o 1; xd ← varnodes f !! const_d;
  need (is_constant xd) in
  shiftin ← input o 0; x ← varnodes f !! shiftin;
  need (is_written x) in
  shift2op ← vdef x; p ← ops f !! shift2op;
  need (is_code IntSright p) in
  const_c ← input p 1; xc ← varnodes f !! const_c;
  need (is_constant xc) in
  in_vn ← input p 0; xi ← varnodes f !! in_vn;
  need (negb (is_free xi)) in
  out ← output o; xo ← varnodes f !! out;
  let max := i32 (size xo * 8 - 1) in
  let sa := i32 (i32 (constant_value xc) + i32 (constant_value xd)) in
  need (negb (sa <=? 0)) in
  found (in_vn, if max <? sa then max else sa).

Definition RuleDoubleArithShift : rule :=
  Rule [IntSright] (fun op f => fire (double_arith_shift_match f op) f (fun '(in_vn, sa) =>
    f ← op_set_input f op 0 in_vn;
    '(c, f) ← new_const f 4 (w64 sa);
    op_set_input f op 1 c)).

(** [RuleConcatShift]: a shift that drops the low part of a concatenation extends the high part *)
Definition concat_shift_match (f : funcdata) (op : nat) : option (option (nat * Z * opcode * Z * Z)) :=
  o ← ops f !! op;
  in1 ← input o 1; x1 ← varnodes f !! in1;
  need (is_constant x1) in
  shiftin ← input o 0; x ← varnodes f !! shiftin;
  need (is_written x) in
  concat ← vdef x; p ← ops f !! concat;
  need (is_code Piece p) in
  let sa := i64 (constant_value x1) in
  least ← input p 1; xl ← varnodes f !! least;
  let leastsize := size xl * 8 in
  need (negb (sa <? leastsize)) in
  mainin ← input p 0; xm ← varnodes f !! mainin;
  need (negb (is_free xm)) in
  found (mainin, i64 (sa - leastsize), if is_code IntRight o then IntZext else IntSext, size x, size x1).

Definition RuleConcatShift : rule :=
  Rule [IntRight; IntSright] (fun op f => fire (concat_shift_match f op) f (fun '(mainin, sa, extcode, sz, csz) =>
    if sa =? 0 then
      f ← op_remove_input f op 1;
      f ← op_set_opcode f op extcode;
      op_set_input f op 0 mainin
    else
      '(extop, f) ← new_op_before_sized f op extcode [mainin] sz;
      newvn ← output_of f extop;
      f ← op_set_input f op 0 newvn;
      '(c, f) ← new_const f csz (w64 sa);
      op_set_input f op 1 c)).

(** [RuleSignForm]: the high piece of a sign extension is the sign *)
Definition sign_form_match (f : funcdata) (op : nat) : option (option (nat * Z)) :=
  o ← ops f !! op;
  sextout ← input o 0; x ← varnodes f !! sextout;
  need (is_written x) in
  sextop ← vdef x; p ← ops f !! sextop;
  need (is_code IntSext p) in
  a ← input p 0; c ← input o 1; xc ← varnodes f !! c; xa ← varnodes f !! a;
  need (negb (i64 (constant_value xc) <? size xa)) in
  need (negb (is_free xa)) in
  found (a, w32 (8 * size xa - 1)).

Definition RuleSignForm : rule :=
  Rule [Subpiece] (fun op f => fire (sign_form_match f op) f (fun '(a, n) =>
    f ← op_set_input f op 0 a;
    '(cn, f) ← new_const f 4 n;
    f ← op_set_input f op 1 cn;
    op_set_opcode f op IntSright)).

(** ** [RulePropagateCopy]: the source of a copy in place of the copy *)

(** [op::flags::RETURN_COPY] *)
Definition RETURN_COPY : Z := 0x200.

Definition is_heritage_known (x : varnode) : bool := has (flags x) (Z.lor INSERT (Z.lor CONSTANT ANNOTATION)).

Definition propagate_slot (f : funcdata) (o : pcode_op) (i : nat) : option (option (nat * nat)) :=
  vn ← input o i; x ← varnodes f !! vn;
  let? def := vdef x in
  p ← ops f !! def;
  need (is_code Copy p) in
  invn ← input p 0; xi ← varnodes f !! invn;
  need (negb (Nat.eqb invn vn || negb (is_heritage_known xi))) in
  need (negb (is_marker o && is_constant xi)) in
  found (i, invn).

Definition propagate_copy_match (f : funcdata) (op : nat) : option (option (nat * nat)) :=
  o ← ops f !! op;
  need (negb (is_code Return o || has (oflags o) RETURN_COPY)) in
  first_of (propagate_slot f o) (seq 0 (List.length (inrefs o))).

Definition RulePropagateCopy : rule :=
  Rule [] (fun op f => fire (propagate_copy_match f op) f (fun '(i, invn) => op_set_input f op i invn)).

(** ** [RuleIntLessEqual]: [V <= c] is [V < c + 1] *)

Definition RuleIntLessEqual : rule :=
  Rule [IntLessequal; IntSlessequal] (fun op f => '(fired, f) ← replace_lessequal f op; Some (if (fired : bool) then 1 else 0, f)).
