(* ===== verification/DivoptFacts.v ===== *)
(** Correctness of [calc_divisor]: a divisor it answers is the one the multiplication divides by, for
    every operand of the stated width, and it recovers every divisor from the multiplier a compiler
    computes for it. *)
From Stdlib Require Import ZArith Lia Bool List.
From stdpp Require Import base decidable option list numbers.
From S2P Require Import Prelude Space OpCode BitUtil Funcdata FuncdataBuild Divopt.
Local Open Scope Z_scope.

(** ** The quotient a multiplication computes *)

(** What the high part of [x * magic] should be: [x / d] truncated, less one where [x] is negative *)
Definition corrected_quot (x d : Z) : Z := if x <? 0 then Z.quot x d - 1 else Z.quot x d.

(** The multiplier exceeds [p / d] by [e / d]: little enough for the operands up to [b]. *)
Record magic_for (p magic d e b : Z) : Prop := {
  mg_divisor : 0 < d < 2 ^ 64;
  mg_excess : 0 < e;
  mg_small : e * b <= p;
  mg_mult : d * magic = p + e }.

Lemma magic_quotient (p magic d e b x : Z) : 0 < p -> magic_for p magic d e b -> - b <= x < b ->
  x * magic / p = corrected_quot x d.
Proof.
  intros Hp [Hd He Hs Hm] Hx; unfold corrected_quot; destruct (Z.ltb_spec x 0) as [Hn|Hn].
  - replace (Z.quot x d) with (- (- x / d)) by (rewrite <- Z.quot_div_nonneg by lia; rewrite Z.quot_opp_l by lia; lia).
    assert (Hb : - x * e <= p) by nia.
    pose proof (Z.div_mod (- x) d ltac:(lia)) as E; pose proof (Z.mod_pos_bound (- x) d ltac:(lia)) as B.
    set (k := - x / d) in *; set (s := - x mod d) in *; clearbody k s.
    symmetry; apply Z.div_unique with (r := x * magic + (k + 1) * p); [left|ring].
    assert (d * (x * magic + (k + 1) * p) = p * (d - s) + x * e) by (replace (d * (x * magic + (k + 1) * p)) with (x * (d * magic) + d * (k + 1) * p) by ring; rewrite Hm; nia).
    split; nia.
  - rewrite Z.quot_div_nonneg by lia.
    assert (Hb : x * e < p) by nia.
    pose proof (Z.div_mod x d ltac:(lia)) as E; pose proof (Z.mod_pos_bound x d ltac:(lia)) as B.
    set (k := x / d) in *; set (s := x mod d) in *; clearbody k s.
    symmetry; apply Z.div_unique with (r := x * magic - k * p); [left|ring].
    assert (d * (x * magic - k * p) = p * s + x * e) by (replace (d * (x * magic - k * p)) with (x * (d * magic) - d * k * p) by ring; rewrite Hm; nia).
    split; nia.
Qed.

(** ** The precision check *)

Lemma maxx_spec (xsize : Z) : 0 <= xsize <= 64 ->
  (if xsize =? 64 then u64_max else u64_shl 1 xsize - 1) = 2 ^ xsize - 1.
Proof.
  intros H; destruct (Z.eqb_spec xsize 64) as [->|N]; [reflexivity|].
  unfold u64_shl, w64; rewrite (Z.mod_small xsize) by lia; rewrite Z.shiftl_1_l, Z.mod_small; [reflexivity|].
  split; [lia|]; change 18446744073709551616 with (2 ^ 64); apply Z.pow_lt_mono_r; lia.
Qed.

Lemma check_precision_sound (p q diff xsize : Z) : 0 < p -> 0 <= q < 2 ^ 64 -> 0 <= diff -> 0 <= xsize <= 64 ->
  check_precision p q diff xsize <> 0 -> check_precision p q diff xsize = q /\ (diff = 0 \/ diff * 2 ^ xsize <= p).
Proof.
  intros Hp Hq Hd Hx; unfold check_precision; rewrite (maxx_spec xsize Hx), (w64_small q) by lia.
  destruct (Z.eqb_spec diff 0) as [->|N]; [auto|].
  assert (P64 : 2 ^ xsize <= 2 ^ 64) by (apply Z.pow_le_mono_r; lia).
  pose proof (Z.mul_div_le p diff ltac:(lia)) as L; pose proof (Z.pow_pos_nonneg 2 xsize ltac:(lia) ltac:(lia)) as Hpos.
  change u64_max with (2 ^ 64 - 1).
  destruct (Z.ltb_spec (2 ^ 64 - 1) (p / diff)); [intros _; split; [reflexivity|right; nia]|].
  destruct (Z.leb_spec (p / diff) (2 ^ xsize - 1)); [congruence|intros _; split; [reflexivity|right; nia]].
Qed.

Lemma check_precision_complete (p q diff xsize : Z) : 0 < p -> 0 <= q < 2 ^ 64 -> 0 < diff -> 0 <= xsize <= 64 -> diff * 2 ^ xsize <= p ->
  check_precision p q diff xsize = q.
Proof.
  intros Hp Hq Hd Hx Hs; unfold check_precision; rewrite (maxx_spec xsize Hx), (w64_small q) by lia.
  destruct (Z.eqb_spec diff 0); [lia|].
  assert (2 ^ xsize <= p / diff) by (apply Z.div_le_lower_bound; lia).
  destruct (u64_max <? p / diff); [reflexivity|]; destruct (Z.leb_spec (p / diff) (2 ^ xsize - 1)); [lia|reflexivity].
Qed.

(** ** [calc_divisor] *)

(** The widths for which [diff], a [u64], does not lose the excess *)
Definition precise (n xsize : Z) : Prop := 0 <= n <= 127 /\ 0 <= xsize <= 64 /\ (n <= 126 \/ xsize <= 63).

(** an answer is given for shifts and widths in range only *)
Lemma calc_divisor_range (n magic xsize : Z) : calc_divisor n magic xsize <> 0 -> n <= 127 /\ xsize <= 64.
Proof. unfold calc_divisor; destruct (Z.ltb_spec 127 n), (Z.ltb_spec 64 xsize); cbn [orb]; done || lia. Qed.

Lemma quotient_bound (p y q r n : Z) : p = 2 ^ n -> 0 <= n <= 127 -> p = y * q + r -> 0 <= r < y -> q <= y ->
  q < 2 ^ 64 - 1 /\ (n <= 126 -> q <= 2 ^ 63).
Proof.
  intros Hp Hn E Hr Hq.
  assert (2 ^ n <= 2 ^ 127) by (apply Z.pow_le_mono_r; lia).
  split; [nia|]; intros H126; assert (2 ^ n <= 2 ^ 126) by (apply Z.pow_le_mono_r; lia); nia.
Qed.

(** The excess is at most [2^64]: where the quotient is rounded up it is [2 * d - r], and [d] is at most about the root of the power. *)
Lemma excess_bound (p y q r n : Z) : p = 2 ^ n -> 0 <= n <= 127 -> p = y * q + r -> 0 <= r < y -> q <= y -> q <= r ->
  0 <= r - y + (q + 1) -> r - y + (q + 1) < q + 1 -> q + 1 + (y - r) <= 2 ^ 64 /\ (n <= 126 -> q + 1 + (y - r) < 2 ^ 64).
Proof.
  intros Hp Hn E Hr Hq Hqr Hlo Hhi.
  destruct (quotient_bound p y q r n Hp Hn E Hr Hq) as [B64 B63].
  assert (P127 : 2 ^ n <= 2 ^ 127) by (apply Z.pow_le_mono_r; lia).
  split.
  - destruct (Z.le_gt_cases (q + 1 + (y - r)) (2 ^ 64)) as [H|H]; [exact H|exfalso].
    assert (2 ^ 64 <= y) by lia.
    assert (q < 2 ^ 63 + 1) by nia.
    assert (q = 2 ^ 63) as -> by lia; nia.
  - intros H126; specialize (B63 H126); assert (P126 : 2 ^ n <= 2 ^ 126) by (apply Z.pow_le_mono_r; lia).
    destruct (Z.lt_ge_cases (q + 1 + (y - r)) (2 ^ 64)) as [H|H]; [exact H|exfalso].
    assert (2 ^ 64 - 1 <= y) by lia; nia.
Qed.

Lemma adjusted_remainder (y q r : Z) : 0 <= q < 2 ^ 64 - 1 -> 0 <= r < y -> y < 2 ^ 128 ->
  w128 (w128 (r - y) + (q + 1)) < q + 1 -> 0 <= r - y + (q + 1) /\ w128 (w128 (r - y) + (q + 1)) = r - y + (q + 1).
Proof.
  intros Hq Hr Hy; unfold w128; rewrite Z.add_mod_idemp_l by lia.
  destruct (Z.lt_ge_cases (r - y + (q + 1)) 0) as [H|H].
  - replace ((r - y + (q + 1)) mod 2 ^ 128) with (r - y + (q + 1) + 2 ^ 128)
      by (apply Z.mod_unique with (-1); lia).
    lia.
  - rewrite Z.mod_small by lia; lia.
Qed.

Lemma calc_divisor_magic (n magic xsize : Z) : precise n xsize -> magic < 2 ^ 128 -> calc_divisor n magic xsize <> 0 ->
  exists e, magic_for (2 ^ n) magic (calc_divisor n magic xsize) e (2 ^ xsize).
Proof.
  intros (Hn & Hx & Hw) Hm; unfold calc_divisor.
  destruct (Z.ltb_spec 127 n), (Z.ltb_spec 64 xsize), (Z.leb_spec magic 1) as [|Hmagic]; cbn [orb]; try congruence; try lia.
  remember (magic - 1) as y eqn:Ey; cbv zeta.
  assert (Hp : 0 < 2 ^ n) by (apply Z.pow_pos_nonneg; lia).
  pose proof (Z.div_mod (2 ^ n) y ltac:(lia)) as E; pose proof (Z.mod_pos_bound (2 ^ n) y ltac:(lia)) as Hr.
  pose proof (Z.div_pos (2 ^ n) y ltac:(lia) ltac:(lia)) as Hq0.
  set (q := 2 ^ n / y) in *; set (r := 2 ^ n mod y) in *; clearbody q r.
  destruct (u64_max <? q); [congruence|]; destruct (Z.ltb_spec y q) as [|Hyq]; [congruence|].
  destruct (quotient_bound _ y q r n eq_refl Hn E Hr Hyq) as [Bq _].
  destruct (Z.leb_spec q r) as [Hqr|Hqr].
  - destruct (Z.leb_spec (q + 1) (w128 (w128 (r - y) + (q + 1)))) as [|Hlt]; [congruence|].
    destruct (adjusted_remainder y q r ltac:(lia) Hr ltac:(lia) Hlt) as [Hlo Er]; rewrite Er in Hlt |- *.
    destruct (excess_bound _ y q r n eq_refl Hn E Hr Hyq Hqr Hlo Hlt) as [Be Be'].
    unfold u64_add, u64_sub; rewrite !(w64_small (q + 1)), (w64_small (r - y + (q + 1))), (w64_small (q + 1 - (r - y + (q + 1)))) by lia.
    replace (q + 1 + (q + 1 - (r - y + (q + 1)))) with (q + 1 + (y - r)) by ring.
    intros Hd; pose proof (w64_range (q + 1 + (y - r))) as Rd.
    destruct (check_precision_sound (2 ^ n) (q + 1) (w64 (q + 1 + (y - r))) xsize Hp ltac:(lia) ltac:(lia) Hx Hd) as [-> Hs].
    exists (q + 1 + (y - r)); constructor; [lia|lia| |assert (magic = y + 1) as -> by lia; nia].
    destruct (Z.eq_dec (q + 1 + (y - r)) (2 ^ 64)) as [E64|N64].
    + assert (127 <= n) by lia; rewrite E64, <- Z.pow_add_r by lia; apply Z.pow_le_mono_r; lia.
    + rewrite w64_small in Hs by lia; destruct Hs as [Hs|Hs]; [lia|exact Hs].
  - unfold u64_add, u64_sub; rewrite !(w64_small q), (w64_small r), (w64_small (q - r)), Z.add_0_l, (w64_small (q - r)) by lia.
    intros Hd; destruct (check_precision_sound (2 ^ n) q (q - r) xsize Hp ltac:(lia) ltac:(lia) Hx Hd) as [-> Hs].
    exists (q - r); constructor; [lia|lia|destruct Hs as [Hs|Hs]; [lia|exact Hs]|assert (magic = y + 1) as -> by lia; nia].
Qed.

(** The multiplier a compiler takes for [d]: the least above [2^n / d] *)
Definition least_magic (n d : Z) : Z := 2 ^ n / d + 1.

Lemma calc_divisor_recovers (n d xsize : Z) : 0 <= n <= 127 -> 0 <= xsize <= 64 -> 0 < d < 2 ^ 64 -> d <= 2 ^ n / d ->
  (d - 2 ^ n mod d) * 2 ^ xsize <= 2 ^ n -> calc_divisor n (least_magic n d) xsize = d.
Proof.
  intros Hn Hx Hd Hy Hs; unfold calc_divisor, least_magic.
  assert (Hp : 0 < 2 ^ n) by (apply Z.pow_pos_nonneg; lia).
  pose proof (Z.div_mod (2 ^ n) d ltac:(lia)) as E; pose proof (Z.mod_pos_bound (2 ^ n) d ltac:(lia)) as Hr.
  set (y := 2 ^ n / d) in *; set (r := 2 ^ n mod d) in *; clearbody y r.
  destruct (Z.ltb_spec 127 n), (Z.ltb_spec 64 xsize), (Z.leb_spec (y + 1) 1); try lia; cbn [orb].
  replace (y + 1 - 1) with y by ring; cbv zeta.
  rewrite <- (Z.div_unique (2 ^ n) y d r), <- (Z.mod_unique (2 ^ n) y d r) by lia.
  change u64_max with (2 ^ 64 - 1).
  destruct (Z.ltb_spec (2 ^ 64 - 1) d), (Z.ltb_spec y d), (Z.leb_spec d r); try lia.
  unfold u64_add, u64_sub; rewrite !(w64_small d), (w64_small r), (w64_small (d - r)), Z.add_0_l, (w64_small (d - r)) by lia.
  apply check_precision_complete; lia.
Qed.
