(* ===== verification/Valuation.v ===== *)
(** The equations of a function: what each integer operation of the graph says of the values it links,
    and when a transformation of the graph keeps them.  A valuation that satisfies the equations is one
    outcome of the function, whatever its loads, calls and joins produce. *)
From Stdlib Require Import ZArith Lia Bool List.
From stdpp Require Import base decidable option list strings gmap numbers tactics.
From S2P Require Import Prelude Space OpCode BitUtil PcodeSem Funcdata FuncdataLinks FuncdataEdits FuncdataRemove FuncdataBlocks FuncdataTheorems FuncdataBuild.
Local Open Scope Z_scope.

(** ** Operations as equations *)

(** An operand: a constant, or the value a varnode holds *)
Inductive term := TConst (c : Z) | TVar (v : nat).
Record arg := Arg { ar_size : Z; ar_term : term }.

(** What an operation is, apart from its place *)
Record view := View { w_opc : opcode; w_args : list arg; w_out : option arg }.

#[export] Instance term_eq_dec : EqDecision term.
Proof. intros a b; unfold Decision; decide equality; apply (decide (_ = _)). Defined.
#[export] Instance arg_eq_dec : EqDecision arg.
Proof. intros a b; unfold Decision; decide equality; apply (decide (_ = _)). Defined.

Definition src (f : funcdata) (v : nat) : option arg :=
  (fun x => Arg (size x) (if is_constant x then TConst (a_offset (loc x)) else TVar v)) <$> varnodes f !! v.

Definition out_src (f : funcdata) (o : option nat) : option (option arg) :=
  match o with None => Some None | Some v => Some <$> src f v end.

Definition view_of (f : funcdata) (o : nat) : option view :=
  x ← ops f !! o; args ← mapM (src f) (inrefs x); out ← out_src f (output x); Some (View (opc x) args out).

(** ** Meaning *)

Definition is_unary (c : opcode) : bool :=
  match c with Copy | IntZext | IntSext | Int2comp | IntNegate | BoolNegate | Popcount | Lzcount => true | _ => false end.

Definition is_binary (c : opcode) : bool :=
  match c with
  | IntEqual | IntNotequal | IntLess | IntLessequal | IntSless | IntSlessequal | IntCarry | IntScarry | IntSborrow
  | IntAdd | IntSub | IntMult | IntAnd | IntOr | IntXor | IntLeft | IntRight | IntSright
  | IntDiv | IntRem | IntSdiv | IntSrem | BoolAnd | BoolOr | BoolXor | Subpiece | Piece => true
  | _ => false
  end.

(** the operations the p-code semantics determines *)
Definition evaluable (c : opcode) : bool := is_unary c || is_binary c.

(** the logical operations are defined on booleans *)
Definition is_bool (x : Z) : bool := (0 <=? x) && (x <=? 1).

Definition eval1 (c : opcode) (s out x : Z) : option Z :=
  match c with BoolNegate => if is_bool x then eval_unary c s out x else None | _ => eval_unary c s out x end.

Definition eval2 (c : opcode) (s1 s2 out x y : Z) : option Z :=
  match c with
  | Piece => Some (wrap out (x * modulus s2 + y))
  | BoolAnd | BoolOr | BoolXor => if is_bool x && is_bool y then eval_binary c s1 out x y else None
  | _ => eval_binary c s1 out x y
  end.

Definition term_val (rho : nat -> Z) (t : term) : Z := match t with TConst c => c | TVar v => rho v end.
Definition val (rho : nat -> Z) (a : arg) : Z := term_val rho (ar_term a).

Definition eval_view (rho : nat -> Z) (c : opcode) (args : list arg) (out : Z) : option Z :=
  match args with
  | [a] => eval1 c (ar_size a) out (val rho a)
  | [a; b] => eval2 c (ar_size a) (ar_size b) out (val rho a) (val rho b)
  | _ => None
  end.

(** The equation of an operation; an operation that does not yield a value, or whose value the
    semantics leaves open, says nothing. *)
Definition holds (rho : nat -> Z) (w : view) : Prop :=
  match w_out w with
  | Some r => if evaluable (w_opc w) then eval_view rho (w_opc w) (w_args w) (ar_size r) = Some (val rho r) else True
  | None => True
  end.

(** ** Types *)

Definition size2 (c : opcode) (s1 s2 out : Z) : bool :=
  match c with
  | Subpiece => out <=? s1
  | Piece => out =? s1 + s2
  | _ => binary_sizes c s1 s2 out
  end.

(** an operand has a size of a machine word at most and, if a constant, fits it *)
Definition arg_ok (a : arg) : bool :=
  (1 <=? ar_size a) && (ar_size a <=? 8) && match ar_term a with TConst c => (0 <=? c) && (c <? modulus (ar_size a)) | TVar _ => true end.

Definition is_var (a : arg) : bool := match ar_term a with TVar _ => true | TConst _ => false end.

(** a piece is taken at a constant offset, and lies within its value *)
Definition offset_ok (c : opcode) (a b r : arg) : bool :=
  match c with Subpiece => match ar_term b with TConst k => k + ar_size r <=? ar_size a | TVar _ => false end | _ => true end.

(** An operation of the semantics is destroyed, or has the inputs and the sizes of its code. *)
Definition view_ok (w : view) : bool :=
  if evaluable (w_opc w) then
    match w_args w, w_out w with
    | [], None => true
    | [a], Some r => is_unary (w_opc w) && arg_ok a && arg_ok r && is_var r && unary_sizes (w_opc w) (ar_size a) (ar_size r)
    | [a; b], Some r =>
        is_binary (w_opc w) && arg_ok a && arg_ok b && arg_ok r && is_var r && size2 (w_opc w) (ar_size a) (ar_size b) (ar_size r) && offset_ok (w_opc w) a b r
    | _, _ => false
    end
  else true.

Definition typed (f : funcdata) : Prop := forall o w, view_of f o = Some w -> view_ok w = true.

(** ** Solutions *)

(** every value lies in the range of its size *)
Definition fits (f : funcdata) (rho : nat -> Z) : Prop :=
  forall v s, src f v = Some (Arg s (TVar v)) -> 0 <= s -> is_value s (rho v).

Record solution (f : funcdata) (rho : nat -> Z) : Prop := Solution {
  so_fits : fits f rho;
  so_holds : forall o w, view_of f o = Some w -> holds rho w;
}.

(** [f'] computes what [f] computes: each value [f] determines, [f'] determines, and to the same. *)
Record implements (f f' : funcdata) : Prop := Implements {
  im_defined : forall o w r, view_of f o = Some w -> evaluable (w_opc w) = true -> w_out w = Some r ->
    exists w', view_of f' o = Some w' /\ evaluable (w_opc w') = true /\ w_out w' = Some r;
  im_solution : forall rho, solution f rho -> exists rho', solution f' rho' /\ forall v, is_vn f v = true -> rho' v = rho v;
  im_vns : (List.length (varnodes f) <= List.length (varnodes f'))%nat;
}.

#[export] Instance implements_refl : Reflexive implements.
Proof. intros f; constructor; [eauto 6|eauto|done]. Qed.

#[export] Instance implements_trans : Transitive implements.
Proof.
  intros f g h [D1 S1 L1] [D2 S2 L2]; constructor; [| |lia].
  - intros o w r Hw He Hr; destruct (D1 o w r Hw He Hr) as (w' & Hw' & He' & Hr'); eauto.
  - intros rho S; destruct (S1 rho S) as (rho1 & S' & E1); destruct (S2 rho1 S') as (rho2 & S'' & E2).
    exists rho2; split; [done|]; intros v Hv; rewrite E2; [by apply E1|]; unfold is_vn in *; apply Nat.ltb_lt in Hv; apply Nat.ltb_lt; lia.
Qed.

(** ** Steps of a transformation *)

(** [f'] is [f] but for the operations [ops]: constants and values keep their meaning, the other
    operations their equation and place. *)
Record step (f f' : funcdata) (changed : list nat) : Prop := Step {
  st_wf : wf f';
  st_src : forall v a, src f v = Some a -> src f' v = Some a;
  st_view : forall o, ~ In o changed -> is_op f o = true -> view_of f' o = view_of f o;
  st_new : forall o, is_op f o = false -> is_op f' o = true -> In o changed;
  st_vns : (List.length (varnodes f) <= List.length (varnodes f'))%nat;
  st_ops : (List.length (ops f) <= List.length (ops f'))%nat;
  st_inside : forall o, inside f o = true -> inside f' o = true;
}.

Lemma step_refl (f : funcdata) : wf f -> step f f [].
Proof. intros W; constructor; eauto; intros o; congruence. Qed.

Lemma is_op_mono (f f' : funcdata) (o : nat) : (List.length (ops f) <= List.length (ops f'))%nat -> is_op f o = true -> is_op f' o = true.
Proof. intros L; unfold is_op; rewrite !Nat.ltb_lt; lia. Qed.

Lemma is_vn_mono (f f' : funcdata) (v : nat) : (List.length (varnodes f) <= List.length (varnodes f'))%nat -> is_vn f v = true -> is_vn f' v = true.
Proof. intros L; unfold is_vn; rewrite !Nat.ltb_lt; lia. Qed.

Lemma step_trans (f g h : funcdata) (l l' : list nat) : step f g l -> step g h l' -> step f h (l ++ l').
Proof.
  intros [W1 S1 V1 N1 L1 M1 I1] [W2 S2 V2 N2 L2 M2 I2]; constructor; try lia; try done; [by eauto| | |by eauto].
  - intros o Ho Hi; rewrite in_app_iff in Ho; rewrite V2 by (try tauto; by eapply is_op_mono); apply V1; tauto.
  - intros o Ho Hi; rewrite in_app_iff; destruct (is_op g o) eqn:E; [left|right]; eauto.
Qed.

Lemma step_incl (f f' : funcdata) (l l' : list nat) : step f f' l -> (forall o, In o l -> In o l') -> step f f' l'.
Proof. intros [] Hi; constructor; eauto. Qed.

(** ** Views of a well-formed graph *)

Lemma src_total (f : funcdata) (v : nat) : (v < List.length (varnodes f))%nat -> exists a, src f v = Some a.
Proof. intros H; unfold src; destruct (lookup_lt_is_Some_2 _ _ H) as [x ->]; cbn; eauto. Qed.

Lemma src_lt (f : funcdata) (v : nat) (a : arg) : src f v = Some a -> (v < List.length (varnodes f))%nat.
Proof. unfold src; destruct (varnodes f !! v) eqn:E; [|done]; by apply lookup_lt_Some in E. Qed.

Lemma srcs_total (f : funcdata) (l : list nat) : in_arena f l -> exists args, mapM (src f) l = Some args.
Proof.
  unfold in_arena; intros H; induction H as [|v l Hv _ [args IH]]; [by exists []|].
  destruct (src_total f v Hv) as [a Ha]; exists (a :: args); cbn; by rewrite Ha; cbn; rewrite IH.
Qed.

Lemma srcs_mono (f f' : funcdata) (l : list nat) (args : list arg) : (forall v a, src f v = Some a -> src f' v = Some a) ->
  mapM (src f) l = Some args -> mapM (src f') l = Some args.
Proof. intros H; rewrite !mapM_Some; intros F; induction F; constructor; auto. Qed.

Lemma output_lt (f : funcdata) (o v : nat) (x : pcode_op) : graph_ok f -> ops f !! o = Some x -> output x = Some v -> (v < List.length (varnodes f))%nat.
Proof.
  intros G Hx Ho; assert (E : def_of f v = Some o) by (apply (go_def _ G); unfold out_of; by rewrite Hx).
  unfold def_of in E; destruct (varnodes f !! v) eqn:Ev; [by apply lookup_lt_Some in Ev|done].
Qed.

Lemma view_total (f : funcdata) (o : nat) : wf f -> is_op f o = true -> exists w, view_of f o = Some w.
Proof.
  intros W H; destruct (is_op_at f o H) as [x Hx]; unfold view_of; rewrite Hx; cbn.
  pose proof (graph_in_arena f o (wf_graph _ W)) as Ha; rewrite (inputs_at _ _ _ Hx) in Ha.
  destruct (srcs_total f _ Ha) as [args ->]; cbn; unfold out_src; destruct (output x) as [v|] eqn:Ev; [|eauto].
  destruct (src_total f v (output_lt f o v x (wf_graph _ W) Hx Ev)) as [r ->]; cbn; eauto.
Qed.

Lemma view_is_op (f : funcdata) (o : nat) (w : view) : view_of f o = Some w -> is_op f o = true.
Proof. unfold view_of, is_op; destruct (ops f !! o) eqn:E; [|done]; intros _; apply Nat.ltb_lt; by apply lookup_lt_Some in E. Qed.

(** ** What a step establishes *)

(** The changed operations are typed, and hold in an extension of each solution. *)
Lemma step_typed (f f' : funcdata) (l : list nat) : wf f -> step f f' l -> typed f ->
  (forall o w, In o l -> view_of f' o = Some w -> view_ok w = true) -> typed f'.
Proof.
  intros W S T Hl o w Hw; destruct (in_dec Nat.eq_dec o l) as [Hin|Hn]; [eauto|].
  assert (Hi : is_op f o = true) by (destruct (is_op f o) eqn:E; [done|exfalso; apply Hn, (st_new _ _ _ S); [done|by eapply view_is_op]]).
  apply (T o); by rewrite <- (st_view _ _ _ S) by done.
Qed.

Definition agree (f : funcdata) (rho rho' : nat -> Z) : Prop := forall v, is_vn f v = true -> rho' v = rho v.

(** the varnodes a view mentions *)
Definition arg_in (f : funcdata) (a : arg) : Prop := exists v, src f v = Some a.

Lemma src_var (f : funcdata) (v u : nat) (s : Z) : src f v = Some (Arg s (TVar u)) -> u = v.
Proof. unfold src; destruct (varnodes f !! v) as [x|]; [|done]; cbn; destruct (is_constant x); congruence. Qed.

Lemma val_agree (f : funcdata) (rho rho' : nat -> Z) (a : arg) : agree f rho rho' -> arg_in f a -> val rho' a = val rho a.
Proof.
  intros A [v Hv]; unfold val; destruct a as [s [c|u]]; [done|]; cbn; pose proof (src_var _ _ _ _ Hv) as ->.
  apply A, Nat.ltb_lt; by eapply src_lt.
Qed.

Lemma view_args_in (f : funcdata) (o : nat) (w : view) : view_of f o = Some w ->
  List.Forall (arg_in f) (w_args w) /\ (forall r, w_out w = Some r -> arg_in f r).
Proof.
  unfold view_of; intros H; destruct (ops f !! o) as [x|]; [|done]; cbn in H.
  destruct (mapM (src f) (inrefs x)) as [args|] eqn:Ea; [|done]; cbn in H.
  destruct (out_src f (output x)) as [out|] eqn:Eo; [|done]; injection H as <-; cbn; split.
  - apply mapM_Some in Ea; clear Eo; induction Ea as [|v a l l' Hva _ IH]; constructor; [by exists v|done].
  - intros r ->; unfold out_src in Eo; destruct (output x) as [v|]; [|done].
    destruct (src f v) as [b|] eqn:Eb; [|done]; injection Eo as <-; by exists v.
Qed.

Lemma holds_agree (f : funcdata) (rho rho' : nat -> Z) (o : nat) (w : view) : agree f rho rho' -> view_of f o = Some w ->
  holds rho w -> holds rho' w.
Proof.
  intros A Hw; destruct (view_args_in f o w Hw) as [Ha Hr]; unfold holds; destruct (w_out w) as [r|]; [|done].
  destruct (evaluable (w_opc w)); [|done]; rewrite (val_agree f rho rho' r A (Hr r eq_refl)).
  assert (E : eval_view rho' (w_opc w) (w_args w) (ar_size r) = eval_view rho (w_opc w) (w_args w) (ar_size r)).
  { unfold eval_view; destruct Ha as [|a l Ha1 Ha2]; [done|]; rewrite (val_agree f rho rho' a A Ha1).
    destruct Ha2 as [|b l Hb Hl]; [done|]; destruct Hl; [|done]; by rewrite (val_agree f rho rho' b A Hb). }
  by rewrite E.
Qed.

(** The values a step adds *)
Definition fresh (f : funcdata) (v : nat) : Prop := (List.length (varnodes f) <= v)%nat.

Lemma step_solution (f f' : funcdata) (l : list nat) (rho rho' : nat -> Z) : step f f' l -> solution f rho -> agree f rho rho' ->
  (forall v s, fresh f v -> src f' v = Some (Arg s (TVar v)) -> 0 <= s -> is_value s (rho' v)) ->
  (forall o w, In o l -> view_of f' o = Some w -> holds rho' w) -> solution f' rho'.
Proof.
  intros S [Hf Hh] A Hnew Hl; constructor.
  - intros v s Hv Hs; destruct (decide (v < List.length (varnodes f))%nat) as [Hlt|Hge]; [|apply Hnew; [unfold fresh; lia|done..]].
    rewrite A by (by apply Nat.ltb_lt); apply Hf; [|done]; destruct (src_total f v Hlt) as [a Ha]; rewrite Ha.
    apply (st_src _ _ _ S) in Ha; congruence.
  - intros o w Hw; destruct (in_dec Nat.eq_dec o l) as [Hin|Hn]; [eauto|].
    assert (Hi : is_op f o = true) by (destruct (is_op f o) eqn:E; [done|exfalso; apply Hn, (st_new _ _ _ S); [done|by eapply view_is_op]]).
    rewrite (st_view _ _ _ S) in Hw by done; eapply holds_agree; eauto.
Qed.
