(* ===== verification/ValuationEdits.v ===== *)
(** The edits of a graph as steps: how each primitive changes the equation of the operation it edits,
    and that it leaves the others. *)
From Stdlib Require Import ZArith Lia Bool List.
From stdpp Require Import base decidable option list strings gmap numbers tactics.
From S2P Require Import Prelude Space OpCode BitUtil PcodeSem Funcdata FuncdataLinks FuncdataEdits FuncdataRemove FuncdataBlocks FuncdataTheorems FuncdataBuild Valuation.
Local Open Scope Z_scope.

(** ** Untyped steps *)

(** the same equation and place *)
Definition alike (x x' : pcode_op) : Prop := opc x' = opc x /\ inrefs x' = inrefs x /\ output x' = output x.

(** A [step], before well-formedness is known. *)
Record moves (f f' : funcdata) (l : list nat) : Prop := Moves {
  mv_src : forall v a, src f v = Some a -> src f' v = Some a;
  mv_ops : forall o x, ~ In o l -> ops f !! o = Some x -> exists x', ops f' !! o = Some x' /\ alike x x';
  mv_new : forall o, ops f !! o = None -> is_Some (ops f' !! o) -> In o l;
  mv_vns : (List.length (varnodes f) <= List.length (varnodes f'))%nat;
  mv_nops : (List.length (ops f) <= List.length (ops f'))%nat;
  mv_inside : forall o, inside f o = true -> inside f' o = true;
  mv_flags : forall o x, ops f !! o = Some x -> exists x', ops f' !! o = Some x' /\ oflags x' = oflags x;
}.

Lemma moves_refl (f : funcdata) : moves f f [].
Proof. constructor; try done; [intros o x _ Hx; exists x; by repeat split|by intros o -> [? [=]]|eauto]. Qed.

Lemma moves_trans (f g h : funcdata) (l l' : list nat) : moves f g l -> moves g h l' -> moves f h (l ++ l').
Proof.
  intros [S1 O1 N1 V1 P1 I1 F1] [S2 O2 N2 V2 P2 I2 F2]; constructor; try lia; eauto.
  - intros o x Hn Hx; rewrite in_app_iff in Hn; destruct (O1 o x ltac:(tauto) Hx) as (y & Hy & A & B & C).
    destruct (O2 o y ltac:(tauto) Hy) as (z & Hz & D & E & F); exists z; split; [done|]; repeat split; congruence.
  - intros o Hn Hs; rewrite in_app_iff; destruct (ops g !! o) eqn:E; [left; apply N1; [done|by rewrite E]|right; auto].
  - intros o x Hx; destruct (F1 o x Hx) as (y & Hy & E1); destruct (F2 o y Hy) as (z & Hz & E2); exists z; split; [done|congruence].
Qed.

Lemma moves_incl (f f' : funcdata) (l l' : list nat) : moves f f' l -> (forall o, In o l -> In o l') -> moves f f' l'.
Proof. intros [] H; constructor; eauto. Qed.

Lemma moves_step (f f' : funcdata) (l : list nat) : wf f -> wf f' -> moves f f' l -> step f f' l.
Proof.
  intros W W' M; constructor; try apply M; [done| |].
  - intros o Hn Hi; destruct (view_total f o W Hi) as [w Hw]; rewrite Hw; unfold view_of in *.
    destruct (ops f !! o) as [x|] eqn:Hx; [|done]; destruct (mv_ops _ _ _ M o x Hn Hx) as (x' & Hx' & A & B & C).
    rewrite Hx'; cbn in Hw |- *; rewrite A, B, C; destruct (mapM (src f) (inrefs x)) as [args|] eqn:Ea; [|done].
    rewrite (srcs_mono f f' _ args (mv_src _ _ _ M) Ea); cbn in Hw |- *.
    unfold out_src in *; destruct (output x) as [v|]; [|done]; destruct (src f v) as [r|] eqn:Er; [|done].
    by rewrite (mv_src _ _ _ M v r Er).
  - intros o Hn Hi; apply (mv_new _ _ _ M); [|by destruct (is_op_at f' o Hi) as [x ->]].
    unfold is_op in Hn; apply Nat.ltb_ge in Hn; by apply lookup_ge_None.
Qed.

(** ** The elementary updates *)

Lemma inside_same (f f' : funcdata) : blocks f' = blocks f -> (forall o, parent_of f' o = parent_of f o) ->
  forall o, inside f o = true -> inside f' o = true.
Proof. intros Eb Ep o; unfold inside, block_ops; by rewrite Ep, Eb. Qed.

Lemma src_upd (f : funcdata) (v : nat) (g : varnode -> varnode) (x : varnode) : varnodes f !! v = Some x ->
  size (g x) = size x -> loc (g x) = loc x -> is_constant (g x) = is_constant x ->
  forall u, src (with_varnodes f (<[v := g x]> (varnodes f))) u = src f u.
Proof.
  intros Hx Es El Ec u; unfold src; cbn; pose proof (lookup_lt_Some _ _ _ Hx); rewrite lookup_upd by done.
  case_decide as E; [|done]; subst u; rewrite Hx; cbn; by rewrite Es, El, Ec.
Qed.

Lemma moves_vn_mut (f f' : funcdata) (v : nat) (g : varnode -> varnode) :
  (forall x, size (g x) = size x /\ loc (g x) = loc x /\ is_constant (g x) = is_constant x) -> vn_mut f v g = Some f' ->
  moves f f' [] /\ ops f' = ops f.
Proof.
  intros Hg; unfold vn_mut; destruct (varnodes f !! v) as [x|] eqn:Hx; [|done]; intros [= <-]; split; [|done].
  destruct (Hg x) as (Es & El & Ec); constructor; cbn; try done.
  - intros u a; by rewrite (src_upd f v g x).
  - intros o y _ Hy; exists y; by repeat split.
  - by intros o -> [? [=]].
  - by rewrite length_insert.
  - eauto.
Qed.

Lemma moves_op_mut (f f' : funcdata) (op : nat) (g : pcode_op -> pcode_op) : (forall x, parent (g x) = parent x /\ oflags (g x) = oflags x) -> op_mut f op g = Some f' ->
  exists x, ops f !! op = Some x /\ moves f f' [op] /\ ops f' !! op = Some (g x) /\ varnodes f' = varnodes f /\ blocks f' = blocks f.
Proof.
  intros Hg; unfold op_mut; destruct (ops f !! op) as [x|] eqn:Hx; [|done]; intros [= <-]; exists x.
  pose proof (lookup_lt_Some _ _ _ Hx) as L; split_and!; try done; [|by apply list_lookup_insert_eq].
  constructor; cbn; try done.
  - intros o y Hn Hy; rewrite list_lookup_insert_ne by (intros ->; apply Hn; by left); exists y; by repeat split.
  - intros o Hn [y Hy]; left; destruct (decide (op = o)) as [|N]; [done|]; rewrite list_lookup_insert_ne in Hy by done; congruence.
  - by rewrite length_insert.
  - apply inside_same; [done|]; intros o; unfold parent_of; cbn; rewrite lookup_upd by done; case_decide as E; [|done].
    subst o; rewrite Hx; apply Hg.
  - intros o y Hy; rewrite lookup_upd by done; case_decide as E; [|eauto]; subst o; exists (g x); split; [done|].
    assert (y = x) as -> by congruence; apply Hg.
Qed.

Lemma moves_alloc (f f' : funcdata) (sz : Z) (l : address) (fl : Z) (v : nat) : alloc_varnode f sz l fl = Some (v, f') ->
  moves f f' [] /\ ops f' = ops f /\ v = List.length (varnodes f) /\
  exists sp, src f' v = Some (Arg sz (if has (Z.lor fl (scope_flags sp)) CONSTANT then TConst (a_offset l) else TVar v)).
Proof.
  unfold alloc_varnode; destruct (sm_spaces (spaces f) !! _) as [sp|]; [|done]; intros [= <- <-]; cbn; split_and!; try done.
  - constructor; cbn; try done.
    + intros u a; unfold src; cbn; destruct (varnodes f !! u) as [x|] eqn:Hx; [|done]; by rewrite lookup_app_l, Hx by (by eapply lookup_lt_Some).
    + intros o y _ Hy; exists y; by repeat split.
    + by intros o -> [? [=]].
    + rewrite length_app; lia.
    + eauto.
  - exists sp; unfold src; cbn; by rewrite list_lookup_middle.
Qed.

(** ** Constants *)

Lemma new_const_moves (f f' : funcdata) (sz c : Z) (v : nat) : new_const f sz c = Some (v, f') ->
  moves f f' [] /\ ops f' = ops f /\ v = List.length (varnodes f) /\ src f' v = Some (Arg sz (TConst c)).
Proof.
  unfold new_const; destruct (constant_space f) as [k|]; [|done]; cbn; intros H.
  destruct (moves_alloc _ _ _ _ _ _ H) as (M & E & L & sp & S); split_and!; try done.
  by rewrite S, (const_has 0 sp : has (Z.lor CONSTANT (scope_flags sp)) CONSTANT = true).
Qed.

Lemma unique_constant_moves (f f' : funcdata) (vid v : nat) : unique_constant_for f vid = Some (v, f') ->
  moves f f' [] /\ ops f' = ops f /\ src f' v = src f vid.
Proof.
  unfold unique_constant_for; destruct (varnodes f !! vid) as [x|] eqn:Hx; [|done]; cbn.
  destruct (negb (is_constant x) || _ || _) eqn:E; [intros [= <- <-]; split_and!; [apply moves_refl|done..]|].
  apply orb_false_iff in E as [[Ec _]%orb_false_iff _]; apply negb_false_iff in Ec.
  destruct (new_const f _ _) as [[c f1]|] eqn:E1; [|done]; cbn; destruct (vn_mut f1 c _) as [f2|] eqn:E2; [|done]; intros [= <- <-].
  destruct (new_const_moves _ _ _ _ _ E1) as (M1 & O1 & L1 & S1).
  destruct (moves_vn_mut f1 f2 c (set_ty (ty x)) ltac:(done) E2) as (M2 & O2); split_and!.
  - exact (moves_trans _ _ _ _ _ M1 M2).
  - congruence.
  - rewrite (mv_src _ _ _ M2 c _ S1); unfold src; by rewrite Hx; cbn; rewrite Ec.
Qed.

Lemma attach_moves (f f' : funcdata) (op v : nat) : attach f op v = Some f' -> moves f f' [] /\ ops f' = ops f.
Proof. by apply moves_vn_mut. Qed.

Lemma detach_moves (f f' : funcdata) (op v : nat) : detach f op v = Some f' -> moves f f' [] /\ ops f' = ops f.
Proof. by apply moves_vn_mut. Qed.

(** ** Wiring *)

(** The inputs of an operation as operands *)
Definition args_of (f : funcdata) (l : list nat) (args : list arg) : Prop := mapM (src f) l = Some args.

Lemma args_moves (f f' : funcdata) (l : list nat) (args : list arg) (c : list nat) : moves f f' c -> args_of f l args -> args_of f' l args.
Proof. intros M; apply srcs_mono, M. Qed.

Lemma args_insert (f : funcdata) (l : list nat) (args : list arg) (i v : nat) (a : arg) : args_of f l args -> src f v = Some a ->
  args_of f (<[i := v]> l) (<[i := a]> args).
Proof. unfold args_of; rewrite !mapM_Some; intros F Ha; by apply Forall2_insert. Qed.

Lemma args_app (f : funcdata) (l : list nat) (args : list arg) (v : nat) (a : arg) : args_of f l args -> src f v = Some a ->
  args_of f (l ++ [v]) (args ++ [a]).
Proof. unfold args_of; rewrite !mapM_Some; intros F Ha; apply Forall2_app; [done|]; by repeat constructor. Qed.

Lemma args_delete (f : funcdata) (l : list nat) (args : list arg) (i : nat) : args_of f l args -> args_of f (delete i l) (delete i args).
Proof. unfold args_of; rewrite !mapM_Some; intros F; by apply Forall2_delete. Qed.

(** [op] of [f'] is an operation of code [c] that reads [args] and yields [out]. *)
Definition op_is (f : funcdata) (op : nat) (c : opcode) (args : list arg) (out : option nat) : Prop :=
  exists x, ops f !! op = Some x /\ opc x = c /\ args_of f (inrefs x) args /\ output x = out.

Lemma op_is_view (f : funcdata) (op : nat) (c : opcode) (args : list arg) (out : option nat) (r : option arg) :
  op_is f op c args out -> out_src f out = Some r -> view_of f op = Some (View c args r).
Proof. intros (x & Hx & <- & Ha & <-) Hr; unfold view_of; rewrite Hx; cbn; unfold args_of in Ha; rewrite Ha; cbn; by rewrite Hr. Qed.

Lemma op_is_moves (f f' : funcdata) (op : nat) (c : opcode) (args : list arg) (out : option nat) (l : list nat) : moves f f' l -> ~ In op l ->
  op_is f op c args out -> op_is f' op c args out.
Proof.
  intros M Hn (x & Hx & Ec & Ha & Eo); destruct (mv_ops _ _ _ M op x Hn Hx) as (x' & Hx' & A & B & C).
  exists x'; split_and!; [done|congruence| |congruence]; rewrite B; by eapply args_moves.
Qed.

Lemma op_is_mono (f f' : funcdata) (op : nat) (c : opcode) (args : list arg) (out : option nat) : moves f f' [] ->
  op_is f op c args out -> op_is f' op c args out.
Proof. intros M; apply (op_is_moves f f' op c args out []); [done|by intros []]. Qed.

(** An edit of one operation: it moves that operation, and makes it [c], [args], [out]. *)
Definition makes (f : funcdata) (op : nat) (c : opcode) (args : list arg) (out : option nat) (f' : funcdata) : Prop :=
  moves f f' [op] /\ op_is f' op c args out.

Lemma set_opcode_makes (f f' : funcdata) (op : nat) (c c' : opcode) (args : list arg) (out : option nat) : op_is f op c args out ->
  op_set_opcode f op c' = Some f' -> makes f op c' args out f'.
Proof.
  intros (x & Hx & Ec & Ha & Eo) H; unfold op_set_opcode in H; destruct (moves_op_mut _ _ _ (set_opc c') ltac:(done) H) as (y & Hy & M & Hy' & _ & _).
  split; [done|]; assert (y = x) as -> by congruence; exists (set_opc c' x); split_and!; try done; by eapply args_moves.
Qed.

(** the common end of the edits that give an operation new inputs *)
Lemma set_inrefs_makes (f f' : funcdata) (op : nat) (c : opcode) (args args' : list arg) (out : option nat) (g : pcode_op -> pcode_op) (l : list nat) :
  op_is f op c args out -> op_mut f op g = Some f' -> (forall x, ops f !! op = Some x -> g x = set_inrefs l x) ->
  (forall x, parent (g x) = parent x /\ oflags (g x) = oflags x) -> args_of f l args' -> makes f op c args' out f'.
Proof.
  intros (x & Hx & Ec & Ha & Eo) H Eg Hg Hl; destruct (moves_op_mut _ _ _ _ Hg H) as (y & Hy & M & Hy' & Ev & _).
  split; [done|]; assert (y = x) as -> by congruence; exists (g x); rewrite (Eg x Hx) in *; split_and!; try done; by eapply args_moves.
Qed.

Lemma makes_mono (f f1 f' : funcdata) (op : nat) (c : opcode) (args : list arg) (out : option nat) : makes f op c args out f1 -> moves f1 f' [] ->
  makes f op c args out f'.
Proof. intros [M I] M'; split; [exact (moves_trans _ _ _ _ _ M M')|by eapply op_is_mono]. Qed.

Lemma makes_after (f f1 f' : funcdata) (op : nat) (c : opcode) (args : list arg) (out : option nat) (l : list nat) :
  moves f f1 l -> (forall o, In o l -> o = op) -> makes f1 op c args out f' -> makes f op c args out f'.
Proof.
  intros M Hl [M' I]; split; [|done]; eapply moves_incl; [exact (moves_trans _ _ _ _ _ M M')|].
  intros o; rewrite in_app_iff; cbn; intros [H|H]; [left; symmetry; by apply Hl|tauto].
Qed.

Lemma set_input_makes (f f' : funcdata) (op : nat) (c : opcode) (args : list arg) (out : option nat) (i v : nat) (a : arg) :
  op_is f op c args out -> src f v = Some a -> op_set_input f op i v = Some f' -> makes f op c (<[i := a]> args) out f'.
Proof.
  intros I Ha H; pose proof I as (x & Hx & Ec & Hl & Eo); unfold op_set_input in H; rewrite Hx in H; cbn in H.
  destruct (inrefs x !! i) as [old|] eqn:Hs; [|done]; cbn in H; destruct (Nat.eqb_spec old v) as [->|N].
  - injection H as <-; split; [eapply moves_incl; [apply moves_refl|]; by intros ? []|].
    exists x; split_and!; try done; pose proof (args_insert f _ args i v a Hl Ha) as E; by rewrite list_insert_id in E.
  - destruct (unique_constant_for f v) as [[w f1]|] eqn:E1; [|done]; cbn in H.
    destruct (detach f1 op old) as [f2|] eqn:E2; [|done]; cbn in H; destruct (op_mut f2 op _) as [f3|] eqn:E3; [|done]; cbn in H.
    destruct (unique_constant_moves _ _ _ _ E1) as (M1 & _ & S1); destruct (detach_moves _ _ _ _ E2) as (M2 & O2); destruct (attach_moves _ _ _ _ H) as (M4 & _).
    pose proof (moves_trans _ _ _ _ _ M1 M2) as M12; rewrite Ha in S1.
    destruct (op_is_mono _ _ _ _ _ _ M12 I) as (x2 & Hx2 & Ec2 & Hl2 & Eo2).
    eapply makes_mono; [|exact M4]; eapply makes_after; [exact M12|by intros ? []|].
    eapply (set_inrefs_makes _ _ _ _ _ _ _ _ (<[i := w]> (inrefs x2))); [by exists x2|exact E3| |done|].
    + intros y Hy; by assert (y = x2) as -> by congruence.
    + apply args_insert; [done|]; by apply (mv_src _ _ _ M2).
Qed.

Lemma append_input_makes (f f' : funcdata) (op : nat) (c : opcode) (args : list arg) (out : option nat) (v : nat) (a : arg) :
  op_is f op c args out -> src f v = Some a -> op_append_input f op v = Some f' -> makes f op c (args ++ [a]) out f'.
Proof.
  intros I Ha H; unfold op_append_input in H; destruct (unique_constant_for f v) as [[w f1]|] eqn:E1; [|done]; cbn in H.
  destruct (op_mut f1 op _) as [f2|] eqn:E2; [|done]; cbn in H.
  destruct (unique_constant_moves _ _ _ _ E1) as (M1 & _ & S1); destruct (attach_moves _ _ _ _ H) as (M3 & _); rewrite Ha in S1.
  destruct (op_is_mono _ _ _ _ _ _ M1 I) as (x2 & Hx2 & Ec2 & Hl2 & Eo2).
  eapply makes_mono; [|exact M3]; eapply makes_after; [exact M1|by intros ? []|].
  eapply (set_inrefs_makes _ _ _ _ _ _ _ _ (inrefs x2 ++ [w])); [by exists x2|exact E2| |done|by apply args_app].
  intros y Hy; by assert (y = x2) as -> by congruence.
Qed.

Lemma args_at (f : funcdata) (l : list nat) (args : list arg) (i v : nat) (a : arg) : args_of f l args -> src f v = Some a ->
  args_of f (take i l ++ v :: drop i l) (take i args ++ a :: drop i args).
Proof. unfold args_of; rewrite !mapM_Some; intros F Ha; apply Forall2_app; [by apply Forall2_take|constructor; [done|by apply Forall2_drop]]. Qed.

Lemma insert_input_makes (f f' : funcdata) (op i : nat) (c : opcode) (args : list arg) (out : option nat) (v : nat) (a : arg) :
  op_is f op c args out -> src f v = Some a -> op_insert_input f op i v = Some f' -> makes f op c (take i args ++ a :: drop i args) out f'.
Proof.
  intros I Ha H; unfold op_insert_input in H; destruct (unique_constant_for f v) as [[w f1]|] eqn:E1; [|done]; cbn in H.
  destruct (unique_constant_moves _ _ _ _ E1) as (M1 & _ & S1); rewrite Ha in S1; destruct (op_is_mono _ _ _ _ _ _ M1 I) as (x2 & Hx2 & Ec2 & Hl2 & Eo2).
  rewrite Hx2 in H; cbn in H; unfold vec_insert in H; destruct (Nat.leb _ _); [|done]; cbn in H.
  destruct (op_mut f1 op _) as [f2|] eqn:E2; [|done]; cbn in H; destruct (attach_moves _ _ _ _ H) as (M3 & _).
  eapply makes_mono; [|exact M3]; eapply makes_after; [exact M1|by intros ? []|].
  eapply (set_inrefs_makes _ _ _ _ _ _ _ _ (take i (inrefs x2) ++ w :: drop i (inrefs x2))); [by exists x2|exact E2|done|done|by apply args_at].
Qed.

Lemma remove_input_makes (f f' : funcdata) (op : nat) (c : opcode) (args : list arg) (out : option nat) (i : nat) :
  op_is f op c args out -> op_remove_input f op i = Some f' -> makes f op c (delete i args) out f'.
Proof.
  intros I H; pose proof I as (x & Hx & Ec & Hl & Eo); unfold op_remove_input in H; rewrite Hx in H; cbn in H.
  destruct (inrefs x !! i) as [v|]; [|done]; cbn in H; destruct (op_mut f op _) as [f1|] eqn:E1; [|done]; cbn in H.
  eapply makes_mono; [|by apply (detach_moves _ _ _ _ H)]; eapply (set_inrefs_makes _ _ _ _ _ _ _ _ (delete i (inrefs x))); [done|exact E1|done|done|by apply args_delete].
Qed.

Lemma args_one (f : funcdata) (l : list nat) (a : arg) : args_of f l [a] <-> exists u, l = [u] /\ src f u = Some a.
Proof.
  unfold args_of; rewrite mapM_Some; split; [|intros (u & -> & Hu); by repeat constructor].
  intros (u & l1 & Hu & Hl & ->)%Forall2_cons_inv_r; apply Forall2_nil_inv_r in Hl as ->; eauto.
Qed.

Lemma args_two (f : funcdata) (l : list nat) (a b : arg) : args_of f l [a; b] <-> exists u v, l = [u; v] /\ src f u = Some a /\ src f v = Some b.
Proof.
  unfold args_of; rewrite mapM_Some; split; [|intros (u & v & -> & Hu & Hv); by repeat constructor].
  intros (u & l1 & Hu & (v & l2 & Hv & Hl & ->)%Forall2_cons_inv_r & ->)%Forall2_cons_inv_r; apply Forall2_nil_inv_r in Hl as ->; eauto 6.
Qed.

Lemma swap_input_makes (f f' : funcdata) (op : nat) (c : opcode) (a b : arg) (out : option nat) :
  op_is f op c [a; b] out -> op_swap_input f op 0 1 = Some f' -> makes f op c [b; a] out f'.
Proof.
  intros I H; pose proof I as (x & Hx & Ec & Hl & Eo); unfold op_swap_input in H; rewrite Hx in H; cbn in H.
  apply args_two in Hl as (u & v & El & Hu & Hv); rewrite El in H; cbn in H.
  eapply (set_inrefs_makes _ _ _ _ _ _ _ _ [v; u]); [done|exact H| |done|by apply args_two; eauto 6].
  intros y Hy; by assert (y = x) as -> by congruence.
Qed.

(** An edit of the reader lists alone. *)
Lemma fold_moves {A : Type} (g : funcdata -> A -> option funcdata) (l : list A) (f f' : funcdata) :
  (forall f a f', g f a = Some f' -> moves f f' [] /\ ops f' = ops f) -> fold_opt g l f = Some f' -> moves f f' [] /\ ops f' = ops f.
Proof.
  intros Hg; revert f; induction l as [|a l IH]; intros f; cbn; [intros [= <-]; split; [apply moves_refl|done]|].
  destruct (g f a) as [f1|] eqn:E; [|done]; cbn; intros H; destruct (Hg _ _ _ E) as [M1 O1]; destruct (IH _ H) as [M2 O2].
  split; [exact (moves_trans _ _ _ _ _ M1 M2)|congruence].
Qed.

Lemma release_inputs_makes (f f' : funcdata) (op : nat) (c : opcode) (args : list arg) (out : option nat) : op_is f op c args out ->
  release_inputs f op = Some f' -> makes f op c [] out f'.
Proof.
  intros I H; pose proof I as (x & Hx & _); unfold release_inputs in H; rewrite Hx in H; cbn in H.
  destruct (op_mut f op _) as [f1|] eqn:E1; [|done]; cbn in H.
  eapply makes_mono; [|by eapply fold_moves; [|exact H]; intros ? ? ?; apply detach_moves].
  eapply (set_inrefs_makes _ _ _ _ _ _ _ _ []); [done|exact E1|done|done|done].
Qed.

Lemma append_all_makes (l : list nat) (args : list arg) : forall (f f' : funcdata) (op : nat) (c : opcode) (args0 : list arg) (out : option nat),
  op_is f op c args0 out -> args_of f l args -> fold_opt (fun f v => op_append_input f op v) l f = Some f' -> makes f op c (args0 ++ args) out f'.
Proof.
  revert args; induction l as [|v l IH]; intros args f f' op c args0 out I Ha H; cbn in H.
  - injection H as <-; unfold args_of in Ha; rewrite mapM_Some in Ha; apply Forall2_nil_inv_l in Ha as ->; rewrite app_nil_r.
    split; [eapply moves_incl; [apply moves_refl|]; by intros ? []|done].
  - destruct (op_append_input f op v) as [f1|] eqn:E1; [|done]; cbn in H; unfold args_of in Ha; rewrite mapM_Some in Ha.
    inversion Ha as [|? a ? args1 Hv Hl]; subst; pose proof (append_input_makes _ _ _ _ _ _ _ _ I Hv E1) as M1.
    destruct M1 as [M1 I1]; assert (Ha1 : args_of f1 l args1) by (eapply args_moves; [exact M1|]; unfold args_of; by rewrite mapM_Some).
    pose proof (IH args1 f1 f' op c _ out I1 Ha1 H) as M2; rewrite <- app_assoc in M2; cbn in M2.
    eapply makes_after; [exact M1|by intros o [<-|[]]|exact M2].
Qed.

Lemma set_all_input_makes (f f' : funcdata) (op : nat) (c : opcode) (args0 args : list arg) (out : option nat) (l : list nat) :
  op_is f op c args0 out -> args_of f l args -> op_set_all_input f op l = Some f' -> makes f op c args out f'.
Proof.
  intros I Ha H; unfold op_set_all_input in H; destruct (release_inputs f op) as [f1|] eqn:E1; [|done]; cbn in H.
  destruct (release_inputs_makes _ _ _ _ _ _ I E1) as [M1 I1].
  eapply makes_after; [exact M1|by intros o [<-|[]]|]; apply (append_all_makes l args f1 f' op c [] out I1); [by eapply args_moves|done].
Qed.

(** ** New operations *)

Lemma unique_constants_moves (l : list nat) (args : list arg) : forall f f' vs, args_of f l args -> unique_constants f l = Some (vs, f') ->
  moves f f' [] /\ ops f' = ops f /\ args_of f' vs args.
Proof.
  revert args; induction l as [|v l IH]; intros args f f' vs Ha H; cbn in H.
  - injection H as <- <-; split_and!; [apply moves_refl|done|exact Ha].
  - destruct (unique_constant_for f v) as [[w f1]|] eqn:E1; [|done]; cbn in H; destruct (unique_constants f1 l) as [[ws f2]|] eqn:E2; [|done]; injection H as <- <-.
    unfold args_of in Ha; rewrite mapM_Some in Ha; inversion Ha as [|? a ? args1 Hv Hl]; subst.
    destruct (unique_constant_moves _ _ _ _ E1) as (M1 & O1 & S1); rewrite Hv in S1.
    assert (Ha1 : args_of f1 l args1) by (eapply args_moves; [exact M1|]; unfold args_of; by rewrite mapM_Some).
    destruct (IH args1 f1 _ _ Ha1 E2) as (M2 & O2 & A2); split_and!; [exact (moves_trans _ _ _ _ _ M1 M2)|congruence|].
    unfold args_of in *; rewrite mapM_Some in A2 |- *; constructor; [by apply (mv_src _ _ _ M2)|done].
Qed.

Lemma moves_push (f : funcdata) (x : pcode_op) : moves f (with_ops f (ops f ++ [x])) [List.length (ops f)].
Proof.
  constructor; cbn; try done.
  - intros o y _ Hy; exists y; split; [by rewrite lookup_app_l by (by eapply lookup_lt_Some)|by repeat split].
  - intros o Hn [y Hy]; left; apply lookup_ge_None in Hn; rewrite lookup_app_r in Hy by done; apply lookup_lt_Some in Hy; cbn in Hy; lia.
  - rewrite length_app; lia.
  - intros o; unfold inside, parent_of, block_ops; cbn; destruct (ops f !! o) as [y|] eqn:Hy; [|done]; by rewrite lookup_app_l, Hy by (by eapply lookup_lt_Some).
  - intros o y Hy; exists y; by rewrite lookup_app_l by (by eapply lookup_lt_Some).
Qed.

Lemma new_op_makes (f f' : funcdata) (c : opcode) (seq : seq_num) (l : list nat) (args : list arg) (id : nat) : args_of f l args ->
  new_op f c seq l = Some (id, f') -> id = List.length (ops f) /\ makes f id c args None f'.
Proof.
  intros Ha H; unfold new_op in H; destruct (unique_constants f l) as [[vs f1]|] eqn:E1; [|done]; cbn in H.
  destruct (fold_opt _ vs f1) as [f2|] eqn:E2; [|done]; injection H as <- <-; split; [done|].
  destruct (unique_constants_moves l args _ _ _ Ha E1) as (M1 & O1 & A1).
  destruct (fold_moves _ _ _ _ (fun f a f' => attach_moves f f' _ a) E2) as (M2 & O2).
  pose proof (moves_trans _ _ _ _ _ M1 M2) as M12; assert (EO : ops f2 = ops f) by congruence; rewrite <- EO.
  eapply makes_after; [exact M12|by intros ? []|]; split; [apply moves_push|].
  eexists; split; [cbn; by apply list_lookup_middle|]; split_and!; try done; change (args_of f2 vs args); eapply args_moves; [exact M2|exact A1].
Qed.

(** the arena of a new output *)
Lemma new_output_makes (f f' : funcdata) (op : nat) (c : opcode) (args : list arg) (sz : Z) (l : address) (v : nat) : op_is f op c args None ->
  new_output f op sz l = Some (v, f') -> v = List.length (varnodes f) /\ makes f op c args (Some v) f' /\ src f' v = Some (Arg sz (TVar v)).
Proof.
  intros I H; pose proof I as (x & Hx & Ec & Hl & Eo); unfold new_output, unset_output in H; rewrite Hx in H; cbn in H; rewrite Eo in H; cbn in H.
  destruct (alloc_varnode f sz l _) as [[w f1]|] eqn:E1; [|done]; cbn in H; destruct (vn_mut f1 w _) as [f2|] eqn:E2; [|done]; cbn in H.
  destruct (op_mut f2 op _) as [f3|] eqn:E3; [|done]; injection H as <- <-.
  destruct (moves_alloc _ _ _ _ _ _ E1) as (M1 & O1 & L1 & sp & S1); destruct (moves_vn_mut f1 f2 w (set_vdef (Some op)) ltac:(done) E2) as (M2 & O2).
  pose proof (moves_trans _ _ _ _ _ M1 M2) as M12; destruct (op_is_mono _ _ _ _ _ _ M12 I) as (x2 & Hx2 & Ec2 & Hl2 & Eo2).
  destruct (moves_op_mut _ _ _ (set_output (Some w)) ltac:(done) E3) as (y & Hy & M3 & Hy3 & _); assert (y = x2) as -> by congruence.
  assert (Ew : has (Z.lor (Z.lor WRITTEN INSERT) (scope_flags sp)) CONSTANT = false).
  { unfold scope_flags; destruct (sp_kind sp); try (destruct (0 <? sp_delay sp)); by vm_compute. }
  split; [done|]; split.
  - split; [exact (moves_trans _ _ _ _ _ M12 M3)|]; eexists; split; [exact Hy3|]; split_and!; try done; by eapply args_moves.
  - rewrite Ew in S1; apply (mv_src _ _ _ M3), (mv_src _ _ _ M2); exact S1.
Qed.

Lemma new_output_unique_makes (f f' : funcdata) (op : nat) (c : opcode) (args : list arg) (sz : Z) (v : nat) : op_is f op c args None ->
  new_output_unique f op sz = Some (v, f') -> v = List.length (varnodes f) /\ makes f op c args (Some v) f' /\ src f' v = Some (Arg sz (TVar v)).
Proof.
  intros I H; unfold new_output_unique, next_unique in H; destruct (by_name (spaces f) "unique") as [k|]; [|done]; cbn in H.
  match type of H with new_output ?g _ _ _ = _ => destruct (new_output_makes g f' op c args sz _ v I H) as (L & [M J] & S) end.
  split; [done|]; split; [|done]; split; [|done]; destruct M; by constructor.
Qed.

(** An operation in no block enters one. *)
Lemma insert_before_moves (f f' : funcdata) (newop follow : nat) : unplaced f newop -> op_insert_before f newop follow = Some f' -> moves f f' [].
Proof.
  intros U H; unfold op_insert_before in H; destruct (ops f !! follow) as [o|]; [|done]; cbn in H; unfold op_mut in H.
  destruct (ops f !! newop) as [x|] eqn:Hx; [|done]; cbn in H; pose proof (lookup_lt_Some _ _ _ Hx) as L.
  set (f1 := with_ops f (<[newop := set_parent (parent o) x]> (ops f))) in *.
  assert (Hp : forall p, p <> newop -> parent_of f1 p = parent_of f p) by (intros p N; unfold parent_of, f1; cbn; by rewrite list_lookup_insert_ne).
  assert (Hin : forall p, inside f p = true -> p <> newop) by (intros p Hi ->; destruct (inside_in f newop Hi) as (b & _ & Hb); by apply (U b)).
  assert (M : moves f f1 []).
  { constructor; try done.
    - intros p y _ Hy; unfold f1; cbn; rewrite lookup_upd by done; case_decide as E; [|exists y; by repeat split].
      subst p; assert (y = x) as -> by congruence; eexists; split; [done|by repeat split].
    - intros p Hn [y Hy]; apply lookup_lt_Some in Hy; apply lookup_ge_None in Hn; unfold f1 in Hy; cbn in Hy; rewrite length_insert in Hy; lia.
    - unfold f1; cbn; by rewrite length_insert.
    - intros p Hi; pose proof (Hin p Hi); unfold inside in *; by rewrite Hp.
    - intros p y Hy; unfold f1; cbn; rewrite lookup_upd by done; case_decide as E; [|eauto]; subst p; eexists; split; [done|].
      by assert (y = x) as -> by congruence. }
  destruct (parent o) as [b|]; [|by injection H as <-]; unfold place in H.
  destruct (blocks f !! b) as [z|] eqn:Hz; [|done]; change (blocks f !! b) with (blocks f1 !! b) in Hz; cbn [mbind option_bind] in H; rewrite Hz in H; cbn [mbind option_bind] in H.
  destruct (vec_insert _ newop (bops z)) as [bl|] eqn:Ev; [|done]; cbn [mbind option_bind] in H; unfold block_mut in H; rewrite Hz in H; injection H as <-.
  destruct M as [Ms Mo Mn Mv Ml Mi Mf]; constructor; try done; intros p Hi%Mi; unfold inside in *.
  match goal with |- context [parent_of ?g p] => change (parent_of g p) with (parent_of f1 p) end; destruct (parent_of f1 p) as [c|]; [|done].
  unfold block_ops in *; cbn [blocks with_blocks]; pose proof (lookup_lt_Some _ _ _ Hz) as Lb; change (blocks f1) with (blocks f) in *; rewrite lookup_upd by done; case_decide as E; [|done].
  subst c; rewrite Hz in Hi; cbn in Hi |- *; apply mem_in in Hi; apply mem_in.
  unfold vec_insert in Ev; destruct (Nat.leb _ _); [|done]; injection Ev as <-.
  rewrite <- (take_drop (default (List.length (bops z)) (position_of follow (bops z))) (bops z)) in Hi.
  apply in_app_iff in Hi as [Hi|Hi]; apply in_app_iff; [by left|right; by right].
Qed.

Lemma insert_before_inside (f f' : funcdata) (newop follow : nat) : inside f follow = true -> newop <> follow ->
  op_insert_before f newop follow = Some f' -> inside f' newop = true.
Proof.
  intros Hi N H; destruct (inside_in f follow Hi) as (b & Hb & _); unfold parent_of in Hb; unfold op_insert_before in H.
  destruct (ops f !! follow) as [o|]; [|done]; cbn in Hb, H; unfold op_mut in H; destruct (ops f !! newop) as [x|] eqn:Hx; [|done]; cbn in H.
  rewrite Hb in H; cbn [mbind option_bind] in H; unfold place in H; cbn [blocks with_ops] in H.
  destruct (blocks f !! b) as [z|] eqn:Hz; [|done]; cbn [mbind option_bind] in H.
  destruct (vec_insert _ newop (bops z)) as [bl|] eqn:Ev; [|done]; cbn [mbind option_bind] in H; unfold block_mut in H; cbn [blocks with_ops] in H; rewrite Hz in H; injection H as <-.
  unfold inside, parent_of, block_ops; cbn [ops blocks with_blocks with_ops]; rewrite list_lookup_insert_eq by (by eapply lookup_lt_Some); cbn.
  rewrite list_lookup_insert_eq by (by eapply lookup_lt_Some); cbn; apply mem_in.
  unfold vec_insert in Ev; destruct (Nat.leb _ _); [|done]; injection Ev as <-; apply in_app_iff; right; by left.
Qed.

(** ** Edits run *)

(** The edit [e] runs in [f] and keeps it well formed; [H] turns its success into what it makes. *)
Lemma edit_makes (f : funcdata) (e : edit) (m : option funcdata) (Q : funcdata -> Prop) : wf f -> valid f e = true -> apply_edit f e = m ->
  (forall f', m = Some f' -> Q f') -> runs m (fun f' => wf f' /\ Q f').
Proof. intros W V <- H; pose proof (edit_runs f e W V) as R; destruct (apply_edit f e) as [f'|]; [|done]; cbn in *; auto. Qed.

Lemma edit_makes_snd {A : Type} (f : funcdata) (e : edit) (m : option (A * funcdata)) (Q : A -> funcdata -> Prop) : wf f -> valid f e = true ->
  apply_edit f e = snd <$> m -> (forall a f', m = Some (a, f') -> Q a f') -> runs m (fun '(a, f') => wf f' /\ Q a f').
Proof. intros W V E H; pose proof (edit_runs f e W V) as R; rewrite E in R; destruct m as [[a f']|]; [|done]; cbn in *; auto. Qed.

Lemma op_is_lt (f : funcdata) (op : nat) (c : opcode) (args : list arg) (out : option nat) : op_is f op c args out -> is_op f op = true.
Proof. intros (x & Hx & _); apply Nat.ltb_lt; by eapply lookup_lt_Some. Qed.

Lemma op_is_inputs (f : funcdata) (op : nat) (c : opcode) (args : list arg) (out : option nat) : op_is f op c args out ->
  List.length (inputs f op) = List.length args.
Proof. intros (x & Hx & _ & Ha & _); unfold args_of in Ha; rewrite mapM_Some in Ha; rewrite (inputs_at _ _ _ Hx); by eapply Forall2_length. Qed.

Lemma src_is_vn (f : funcdata) (v : nat) (a : arg) : src f v = Some a -> is_vn f v = true.
Proof. intros H; apply Nat.ltb_lt; by eapply src_lt. Qed.

Lemma args_are_vns (f : funcdata) (l : list nat) (args : list arg) : args_of f l args -> forallb (is_vn f) l = true.
Proof. unfold args_of; rewrite mapM_Some; intros F; induction F as [|v a l args Hv _ IH]; [done|]; cbn [forallb]; by rewrite (src_is_vn _ _ _ Hv). Qed.

Lemma run_new_const (f : funcdata) (sz c : Z) : wf f ->
  runs (new_const f sz c) (fun '(v, f') => wf f' /\ moves f f' [] /\ v = List.length (varnodes f) /\ src f' v = Some (Arg sz (TConst c))).
Proof.
  intros W; apply (edit_makes_snd f (ENewConst sz c)); [done|done|done|]; intros v f' H.
  destruct (new_const_moves _ _ _ _ _ H) as (M & _ & L & S); by split_and!.
Qed.

Lemma run_set_opcode (f : funcdata) (op : nat) (c c' : opcode) (args : list arg) (out : option nat) : wf f -> op_is f op c args out ->
  runs (op_set_opcode f op c') (fun f' => wf f' /\ makes f op c' args out f').
Proof.
  intros W I; apply (edit_makes f (ESetOpcode op c')); [done|by eapply op_is_lt|done|]; intros f' H; by eapply set_opcode_makes.
Qed.

Lemma run_set_input (f : funcdata) (op i v : nat) (c : opcode) (args : list arg) (out : option nat) (a : arg) : wf f -> op_is f op c args out ->
  (i < List.length args)%nat -> src f v = Some a -> runs (op_set_input f op i v) (fun f' => wf f' /\ makes f op c (<[i := a]> args) out f').
Proof.
  intros W I L S; apply (edit_makes f (ESetInput op i v)); [done| |done|].
  - cbn [valid]; rewrite (op_is_lt _ _ _ _ _ I), (op_is_inputs _ _ _ _ _ I), (src_is_vn _ _ _ S); by apply Nat.ltb_lt in L as ->.
  - intros f' H; by eapply set_input_makes.
Qed.

Lemma run_append_input (f : funcdata) (op v : nat) (c : opcode) (args : list arg) (out : option nat) (a : arg) : wf f -> op_is f op c args out ->
  src f v = Some a -> runs (op_append_input f op v) (fun f' => wf f' /\ makes f op c (args ++ [a]) out f').
Proof.
  intros W I S; apply (edit_makes f (EAppendInput op v)); [done| |done|].
  - cbn [valid]; by rewrite (op_is_lt _ _ _ _ _ I), (src_is_vn _ _ _ S).
  - intros f' H; by eapply append_input_makes.
Qed.

Lemma run_insert_input (f : funcdata) (op i v : nat) (c : opcode) (args : list arg) (out : option nat) (a : arg) : wf f -> op_is f op c args out ->
  (i <= List.length args)%nat -> src f v = Some a -> runs (op_insert_input f op i v) (fun f' => wf f' /\ makes f op c (take i args ++ a :: drop i args) out f').
Proof.
  intros W I L S; apply (edit_makes f (EInsertInput op i v)); [done| |done|].
  - cbn [valid]; rewrite (op_is_lt _ _ _ _ _ I), (op_is_inputs _ _ _ _ _ I), (src_is_vn _ _ _ S); by apply Nat.leb_le in L as ->.
  - intros f' H; by eapply insert_input_makes.
Qed.

Lemma run_remove_input (f : funcdata) (op i : nat) (c : opcode) (args : list arg) (out : option nat) : wf f -> op_is f op c args out ->
  (i < List.length args)%nat -> runs (op_remove_input f op i) (fun f' => wf f' /\ makes f op c (delete i args) out f').
Proof.
  intros W I L; apply (edit_makes f (ERemoveInput op i)); [done| |done|].
  - cbn [valid]; rewrite (op_is_lt _ _ _ _ _ I), (op_is_inputs _ _ _ _ _ I); by apply Nat.ltb_lt in L as ->.
  - intros f' H; by eapply remove_input_makes.
Qed.

Lemma run_swap_input (f : funcdata) (op : nat) (c : opcode) (a b : arg) (out : option nat) : wf f -> op_is f op c [a; b] out ->
  runs (op_swap_input f op 0 1) (fun f' => wf f' /\ makes f op c [b; a] out f').
Proof.
  intros W I; apply (edit_makes f (ESwapInput op 0 1)); [done| |done|].
  - cbn [valid]; by rewrite (op_is_lt _ _ _ _ _ I), (op_is_inputs _ _ _ _ _ I).
  - intros f' H; by eapply swap_input_makes.
Qed.

Lemma run_set_all_input (f : funcdata) (op : nat) (c : opcode) (args0 args : list arg) (out : option nat) (l : list nat) : wf f ->
  op_is f op c args0 out -> args_of f l args -> runs (op_set_all_input f op l) (fun f' => wf f' /\ makes f op c args out f').
Proof.
  intros W I Ha; apply (edit_makes f (ESetAllInput op l)); [done| |done|].
  - cbn [valid]; by rewrite (op_is_lt _ _ _ _ _ I), (args_are_vns _ _ _ Ha).
  - intros f' H; by eapply set_all_input_makes.
Qed.

Lemma runs_both {A : Type} (m : option A) (P Q : A -> Prop) : runs m P -> (forall a, m = Some a -> Q a) -> runs m (fun a => P a /\ Q a).
Proof. destruct m; cbn; auto. Qed.

Lemma new_output_unique_edited (f : funcdata) (op : nat) (sz : Z) : wf f -> is_op f op = true ->
  runs (new_output_unique f op sz) (fun '(_, f') => edited f f').
Proof.
  intros W Ho; unfold new_output_unique; run_step ltac:(apply next_unique_runs; apply W); intros [l f1] [[G1 K1] Hl].
  pose proof (k_no _ _ K1); apply is_op_lt in Ho; eapply runs_mono; [apply new_output_edit; [done|lia|done]|].
  intros [v f'] [[G2 K2] _]; split; [done|by etrans].
Qed.

(** An operation appended after [f] lies in no block yet. *)
Lemma appended_unplaced (f f' : funcdata) (id : nat) : wf f' -> keeps f f' -> (List.length (ops f) <= id)%nat -> is_op f' id = true -> unplaced f' id.
Proof.
  intros W K L Hi b Hin; destruct (is_op_at f' id Hi) as [x Hx]; destruct (k_new _ _ K id x L Hx) as [E _].
  pose proof (pl_parent _ (wf_placed _ W) b id Hin) as E'; unfold parent_of in E'; rewrite Hx in E'; cbn in E'; congruence.
Qed.

Lemma unplaced_outside (f : funcdata) (o : nat) : unplaced f o -> outside f o = true.
Proof.
  intros U; apply forallb_forall; intros b Hb; apply negb_true_iff; destruct (mem o (bops b)) eqn:E; [exfalso|done]; apply mem_in in E.
  apply list_elem_of_In, list_elem_of_lookup in Hb as [n Hn]; apply (U n); unfold block_ops; by rewrite Hn.
Qed.

Lemma run_new_op_before_sized (f : funcdata) (follow : nat) (c : opcode) (l : list nat) (args : list arg) (sz : Z) : wf f ->
  inside f follow = true -> args_of f l args ->
  runs (new_op_before_sized f follow c l sz) (fun '(id, f') => wf f' /\ id = List.length (ops f) /\ inside f' id = true /\ exists v,
    makes f id c args (Some v) f' /\ src f' v = Some (Arg sz (TVar v)) /\ fresh f v).
Proof.
  intros W Hi Ha; unfold new_op_before_sized.
  assert (Hf : exists o, ops f !! follow = Some o) by (destruct (inside_in f follow Hi) as (b & Hb & _); unfold parent_of in Hb; destruct (ops f !! follow) as [o|]; [by exists o|done]).
  destruct Hf as [o Ho]; rewrite Ho; cbn [mbind option_bind].
  pose proof (args_are_vns _ _ _ Ha) as Hv.
  run_step ltac:(eapply (runs_both _ _ (fun '(id, f') => id = List.length (ops f) /\ makes f id c args None f')); [apply new_op_edit; [apply W|apply W|by apply is_vn_arena]|intros [id f1] H; exact (new_op_makes _ _ _ _ _ _ _ Ha H)]).
  intros [id f1] [[[G1 K1] _] [-> [M1 I1]]]; set (id := List.length (ops f)) in *.
  assert (W1 : wf f1) by (eapply wf_edited; [exact W|by split]); pose proof (op_is_lt _ _ _ _ _ I1) as L1.
  run_step ltac:(eapply (runs_both _ _ (fun '(v, f') => v = List.length (varnodes f1) /\ makes f1 id c args (Some v) f' /\ src f' v = Some (Arg sz (TVar v)))); [by apply new_output_unique_edited|intros [v f2] H; exact (new_output_unique_makes _ _ _ _ _ _ _ I1 H)]).
  intros [v f2] [[G2 K2] [-> [[M2 I2] S2]]]; set (v := List.length (varnodes f1)) in *.
  assert (W2 : wf f2) by (eapply wf_edited; [exact W1|by split]).
  assert (M12 : moves f f2 [id]) by (eapply moves_incl; [exact (moves_trans _ _ _ _ _ M1 M2)|]; cbn; tauto).
  assert (U : unplaced f2 id) by (eapply appended_unplaced; [done|etrans; [exact K1|exact K2]|done|by eapply op_is_lt]).
  run_step ltac:(apply (edit_makes f2 (EInsertBefore id follow) _ (fun f' => moves f2 f' [] /\ inside f' id = true));
    [done|cbn [valid]; by rewrite (op_is_lt _ _ _ _ _ I2), (unplaced_outside _ _ U), (mv_inside _ _ _ M12 _ Hi)|done|]).
  { intros f' H; split; [by eapply insert_before_moves|]; eapply insert_before_inside; [by apply (mv_inside _ _ _ M12)| |exact H].
    intros E; apply lookup_lt_Some in Ho; unfold id in E; lia. }
  intros f' [W' [M' Hin]]; cbn; split_and!; [done|done|done|]; exists v; split_and!.
  - split; [exact (moves_trans _ _ _ _ _ M12 M')|by eapply op_is_mono].
  - by apply (mv_src _ _ _ M').
  - apply (mv_vns _ _ _ M1).
Qed.
