(* ===== verification/Rewrite.v ===== *)
(** Rewrite rules of the decompiler as transformations of equations: the interface a rule satisfies, the
    operations a rule matches as equations, and the steps a sound rewrite is made of. *)
From Stdlib Require Import ZArith Lia Bool List.
From stdpp Require Import base decidable option list strings gmap numbers tactics.
From S2P Require Import Prelude Space OpCode BitUtil PcodeSem Funcdata FuncdataLinks FuncdataEdits FuncdataRemove FuncdataBlocks FuncdataTheorems FuncdataBuild RuleBase Valuation ValuationEdits.
Local Open Scope Z_scope.

(** ** Rules *)

(** what the rule pool tries a rule on: an operation of a block, of one of its codes, that yields the value its code computes *)
Definition target (ru : rule) (f : funcdata) (op : nat) : bool :=
  inside f op && match ops f !! op with Some o => (bool_decide (oplist ru = []) || bool_decide (opc o ∈ oplist ru)) && (negb (evaluable (opc o)) || bool_decide (is_Some (output o))) | None => false end.

(** every operation that is not destroyed lies in a block, and yields a value where its code computes one *)
Definition placed (f : funcdata) : Prop := forall o x, ops f !! o = Some x -> is_dead x = false ->
  inside f o = true /\ (evaluable (opc x) = true -> is_Some (output x)).

(** the function is well formed and typed, and computes what [f] does *)
Record result (f f' : funcdata) : Prop := Result {
  rs_wf : wf f';
  rs_typed : typed f';
  rs_implements : implements f f';
  rs_placed : placed f -> placed f';
  rs_ops : (List.length (ops f) <= List.length (ops f'))%nat;
}.

(** what the count of a rule says: it changed the function, or not *)
Definition outcome (f : funcdata) (p : Z * funcdata) : Prop := let '(n, f') := p in result f f' /\ 0 <= n /\ (n = 0 -> f' = f).

(** A sound rule never panics on a well-formed typed function, and gives one that computes the same. *)
Class Sound (ru : rule) : Prop := sound : forall f op, wf f -> typed f -> target ru f op = true -> runs (apply_op ru op f) (outcome f).

Lemma result_refl (f : funcdata) : wf f -> typed f -> result f f.
Proof. by constructor. Qed.

Lemma result_trans (f g h : funcdata) : result f g -> result g h -> result f h.
Proof. intros [] []; constructor; [done..|by etrans|auto|lia]. Qed.

(** ** Values *)

Lemma solution_agree (f : funcdata) (rho rho' : nat -> Z) : solution f rho -> agree f rho rho' -> solution f rho'.
Proof.
  intros [F H] A; constructor; [|intros o w Hw; by eapply holds_agree; [..|eapply H]].
  intros v s Hv Hs; rewrite A by (by eapply src_is_vn); by apply F.
Qed.

(** a valuation cut off above the values of [f] *)
Definition cut (f : funcdata) (rho : nat -> Z) (v : nat) : Z := if is_vn f v then rho v else 0.

Lemma cut_agree (f : funcdata) (rho : nat -> Z) : agree f rho (cut f rho).
Proof. intros v Hv; unfold cut; by rewrite Hv. Qed.

Lemma zero_is_value (s : Z) : 0 <= s -> is_value s 0.
Proof. intros H; unfold is_value, modulus; pose proof (Z.pow_pos_nonneg 2 (8 * s) ltac:(lia) ltac:(lia)); lia. Qed.

Lemma cut_fresh (f : funcdata) (rho : nat -> Z) (v : nat) : fresh f v -> cut f rho v = 0.
Proof. intros Hv; unfold cut, is_vn; assert (Nat.ltb v (List.length (varnodes f)) = false) as -> by (by apply Nat.ltb_ge); done. Qed.

Lemma wrap_is_value (s z : Z) : 0 <= s -> is_value s (wrap s z).
Proof. intros H; unfold is_value, wrap; apply Z.mod_pos_bound; unfold modulus; apply Z.pow_pos_nonneg; lia. Qed.

(** ** Steps that keep the function's equations *)

Lemma moves_placed (f f' : funcdata) (l : list nat) : moves f f' l ->
  (forall o, In o l -> (is_op f o = true \/ inside f' o = true) /\ forall x, ops f' !! o = Some x -> evaluable (opc x) = true -> is_Some (output x)) -> placed f -> placed f'.
Proof.
  intros M Hl P o x' Hx' Hd; destruct (decide (o ∈ l)) as [H|H]; [apply list_elem_of_In in H; destruct (Hl o H) as [Hi Ho]; split; [|eauto]|].
  - destruct Hi as [Hi|]; [|done]; destruct (is_op_at f o Hi) as [x Hx]; apply (mv_inside _ _ _ M), (P o x Hx).
    destruct (mv_flags _ _ _ M o x Hx) as (y & Hy & E); unfold is_dead in *; congruence.
  - rewrite list_elem_of_In in H; destruct (ops f !! o) as [x|] eqn:Hx; [|by destruct H; apply (mv_new _ _ _ M); [done|by rewrite Hx']].
    destruct (mv_ops _ _ _ M o x H Hx) as (y & Hy & Ec & _ & Eo); destruct (mv_flags _ _ _ M o x Hx) as (y' & Hy' & Ef).
    assert (y = x') as -> by congruence; assert (y' = x') as -> by congruence.
    destruct (P o x Hx) as [Hi Ho]; [unfold is_dead in *; congruence|]; split; [by apply (mv_inside _ _ _ M)|]; by rewrite Ec, Eo.
Qed.

Lemma unchanged_result (f f' : funcdata) : wf f -> typed f -> wf f' -> moves f f' [] -> result f f'.
Proof.
  intros W T W' M; pose proof (moves_step _ _ _ W W' M) as S; constructor; [done|eapply step_typed; [exact W|exact S|exact T|by intros ? ? []]| |by eapply moves_placed|apply M].
  constructor; [|intros rho Hs; exists (cut f rho); split; [|apply cut_agree]|apply M].
  - intros o w r Hw He Hr; exists w; rewrite (st_view _ _ _ S) by (try (by intros []); by eapply view_is_op); done.
  - eapply step_solution; [exact S|exact Hs|apply cut_agree| |by intros ? ? []].
    intros v s Hv _ Hs'; rewrite cut_fresh by done; by apply zero_is_value.
Qed.

(** The equations of the function a step adds operations to *)
Lemma solution_before (f f' : funcdata) (l : list nat) (rho : nat -> Z) : wf f -> wf f' -> moves f f' l ->
  (forall o, In o l -> is_op f o = false) -> solution f' rho -> solution f rho.
Proof.
  intros W W' M Hl [F H]; pose proof (moves_step _ _ _ W W' M) as S; constructor.
  - intros v s Hv; by apply F, (st_src _ _ _ S).
  - intros o w Hw; apply (H o); rewrite (st_view _ _ _ S); [done| |by eapply view_is_op].
    intros Hin; pose proof (view_is_op _ _ _ Hw) as E; by rewrite (Hl o Hin) in E.
Qed.

(** What an operation of the function computes *)
Definition gives (f : funcdata) (c : opcode) (args : list arg) (out : arg) : Prop :=
  forall rho, solution f rho -> eval_view rho c args (ar_size out) = Some (val rho out).

Lemma op_is_holds (f : funcdata) (op : nat) (c : opcode) (args : list arg) (r : nat) (s : Z) : op_is f op c args (Some r) ->
  src f r = Some (Arg s (TVar r)) -> evaluable c = true -> gives f c args (Arg s (TVar r)).
Proof.
  intros I Hr He rho [_ H]; pose proof (op_is_view _ _ _ _ _ _ I (eq_trans (f_equal _ Hr) eq_refl : out_src f (Some r) = Some (Some _))) as V.
  pose proof (H _ _ V) as E; unfold holds in E; cbn in E; by rewrite He in E.
Qed.

Lemma op_is_out (f : funcdata) (op : nat) (c : opcode) (args : list arg) (r : nat) (x : pcode_op) : op_is f op c args (Some r) ->
  ops f !! op = Some x -> is_Some (output x).
Proof. intros (y & Hy & _ & _ & Eo) Hx; assert (y = x) as -> by congruence; by exists r. Qed.

(** A new operation of a total code. *)
Lemma add_op_result (f f' : funcdata) (id : nat) (c : opcode) (args : list arg) (v : nat) (s : Z) : wf f -> typed f -> wf f' ->
  makes f id c args (Some v) f' -> is_op f id = false -> inside f' id = true -> src f' v = Some (Arg s (TVar v)) -> fresh f v ->
  List.Forall (arg_in f) args ->
  view_ok (View c args (Some (Arg s (TVar v)))) = true -> evaluable c = true ->
  (forall rho, solution f rho -> exists e, eval_view rho c args s = Some e /\ is_value s e) -> result f f'.
Proof.
  intros W T W' [M I] Hid Hin Hv Hf Ha Ho He Ht; pose proof (moves_step _ _ _ W W' M) as S.
  pose proof (op_is_view _ _ _ _ _ _ I (eq_trans (f_equal _ Hv) eq_refl : out_src f' (Some v) = Some (Some _))) as V.
  constructor; [done| |constructor; [| |apply M]|eapply moves_placed; [exact M|]; intros o [<-|[]]; split; [by right|intros x Hx _; by eapply op_is_out]|apply M].
  - eapply step_typed; [exact W|exact S|exact T|]; intros o w [<-|[]] Hw; rewrite V in Hw; by injection Hw as <-.
  - intros o w r Hw He' Hr; exists w; rewrite (st_view _ _ _ S); [done| |by eapply view_is_op].
    intros [<-|[]]; pose proof (view_is_op _ _ _ Hw); congruence.
  - intros rho Hs; destruct (Ht rho Hs) as (e & Ee & Hve); set (rho' := fun u => if decide (u = v) then e else cut f rho u).
    assert (A : agree f rho rho').
    { intros u Hu; unfold rho'; case_decide as E; [|by apply cut_agree]; subst u; unfold is_vn in Hu; apply Nat.ltb_lt in Hu; unfold fresh in Hf; lia. }
    exists rho'; split; [|exact A]; eapply step_solution; [exact S|exact Hs|exact A| |].
    + intros u s' Hu Hsu Hs'; unfold rho'; case_decide as E; [subst u; rewrite Hv in Hsu; by injection Hsu as <-|].
      rewrite cut_fresh by done; by apply zero_is_value.
    + intros o w [<-|[]] Hw; rewrite V in Hw; injection Hw as <-; unfold holds; cbn; rewrite He.
      assert (E : eval_view rho' c args s = eval_view rho c args s).
      { assert (Hval : List.Forall (fun a => val rho' a = val rho a) args).
        { rewrite List.Forall_forall in Ha |- *; intros a Hia; by apply (val_agree f), Ha. }
        unfold eval_view; destruct Hval as [|a l E1 [|b l' E2 [|]]]; rewrite ?E1, ?E2; done. }
      rewrite E, Ee; unfold val, rho'; cbn; by rewrite decide_True.
Qed.

(** An operation that changes its code and inputs, and yields the same. *)
Lemma rewire_result (f f' : funcdata) (op : nat) (c c' : opcode) (args args' : list arg) (r : nat) (s : Z) : wf f -> typed f -> wf f' ->
  op_is f op c args (Some r) -> moves f f' [op] -> op_is f' op c' args' (Some r) -> src f r = Some (Arg s (TVar r)) ->
  view_ok (View c' args' (Some (Arg s (TVar r)))) = true -> evaluable c' = true -> gives f c' args' (Arg s (TVar r)) -> result f f'.
Proof.
  intros W T W' I M I' Hr Ho He Hg; pose proof (moves_step _ _ _ W W' M) as S; pose proof (st_src _ _ _ S _ _ Hr) as Hr'.
  pose proof (op_is_view _ _ _ _ _ _ I' (eq_trans (f_equal _ Hr') eq_refl : out_src f' (Some r) = Some (Some _))) as V'.
  pose proof (op_is_view _ _ _ _ _ _ I (eq_trans (f_equal _ Hr) eq_refl : out_src f (Some r) = Some (Some _))) as V.
  constructor; [done| |constructor; [| |apply M]|eapply moves_placed; [exact M|]; intros o [<-|[]]; split; [left; by eapply op_is_lt|intros x Hx _; by eapply op_is_out]|apply M].
  - eapply step_typed; [exact W|exact S|exact T|]; intros o w [<-|[]] Hw; rewrite V' in Hw; by injection Hw as <-.
  - intros o w q Hw He' Hq; destruct (decide (o = op)) as [->|N].
    + rewrite V in Hw; injection Hw as <-; eexists; split; [exact V'|]; split; [done|exact Hq].
    + exists w; rewrite (st_view _ _ _ S); [done|by intros [<-|[]]|by eapply view_is_op].
  - intros rho Hs; pose proof (solution_agree _ _ _ Hs (cut_agree f rho)) as Hc; exists (cut f rho); split; [|apply cut_agree].
    eapply step_solution; [exact S|exact Hs|apply cut_agree| |].
    + intros v s' Hv _ Hs'; rewrite cut_fresh by done; by apply zero_is_value.
    + intros o w [<-|[]] Hw; rewrite V' in Hw; injection Hw as <-; unfold holds; cbn; rewrite He; by apply Hg.
Qed.

(** An operation the semantics leaves open changes its inputs. *)
Lemma opaque_result (f f' : funcdata) (op : nat) (c : opcode) (args args' : list arg) (out : option nat) : wf f -> typed f -> wf f' ->
  op_is f op c args out -> moves f f' [op] -> op_is f' op c args' out -> evaluable c = false -> result f f'.
Proof.
  intros W T W' I M I' Hc; pose proof (moves_step _ _ _ W W' M) as S.
  assert (Hv : forall w, view_of f' op = Some w -> evaluable (w_opc w) = false).
  { intros w; destruct I' as (x & Hx & Ec & _); unfold view_of; rewrite Hx; cbn; destruct (mapM _ _); [|done]; destruct (out_src _ _); [|done]; cbn; intros [= <-]; cbn; by rewrite Ec. }
  assert (Hv0 : forall w, view_of f op = Some w -> evaluable (w_opc w) = false).
  { intros w; destruct I as (x & Hx & Ec & _); unfold view_of; rewrite Hx; cbn; destruct (mapM _ _); [|done]; destruct (out_src _ _); [|done]; cbn; intros [= <-]; cbn; by rewrite Ec. }
  constructor; [done| |constructor; [| |apply M]|eapply moves_placed; [exact M|]; intros o [<-|[]]; split; [left; by eapply op_is_lt|]|apply M].
  - eapply step_typed; [exact W|exact S|exact T|]; intros o w [<-|[]] Hw; unfold view_ok; by rewrite (Hv w Hw).
  - intros o w q Hw He' Hq; exists w; rewrite (st_view _ _ _ S); [done| |by eapply view_is_op]; intros [<-|[]]; rewrite (Hv0 w Hw) in He'; done.
  - intros rho Hs; pose proof (solution_agree _ _ _ Hs (cut_agree f rho)) as Hcut; exists (cut f rho); split; [|apply cut_agree].
    eapply step_solution; [exact S|exact Hs|apply cut_agree| |].
    + intros v s' Hv' _ Hs'; rewrite cut_fresh by done; by apply zero_is_value.
    + intros o w [<-|[]] Hw; unfold holds; rewrite (Hv w Hw); by destruct (w_out w).
  - intros x Hx E; destruct I' as (x' & Hx' & Ec & _); assert (x' = x) as -> by congruence; congruence.
Qed.

(** ** Matched operations *)

Definition arg_of (v : nat) (x : varnode) : arg := Arg (size x) (if is_constant x then TConst (a_offset (loc x)) else TVar v).

(** the value a varnode holds *)
Definition vval (rho : nat -> Z) (v : nat) (x : varnode) : Z := val rho (arg_of v x).

Lemma src_at (f : funcdata) (v : nat) (x : varnode) : varnodes f !! v = Some x -> src f v = Some (arg_of v x).
Proof. intros H; unfold src; by rewrite H. Qed.

(** An operand: a value of the function with a size that, if a constant, it fits *)
Record operand (f : funcdata) (v : nat) (x : varnode) : Prop := Operand {
  on_at : varnodes f !! v = Some x;
  on_size : valid_size (size x);
  on_const : is_constant x = true -> is_value (size x) (a_offset (loc x));
}.

Lemma operand_fits (f : funcdata) (rho : nat -> Z) (v : nat) (x : varnode) : solution f rho -> operand f v x -> is_value (size x) (vval rho v x).
Proof.
  intros [F _] [Hx Hs Hc]; unfold vval, arg_of, val; cbn; destruct (is_constant x) eqn:E; cbn; [by apply Hc|].
  apply F; [|unfold valid_size in *; lia]; rewrite (src_at _ _ _ Hx); unfold arg_of; by rewrite E.
Qed.

Lemma operand_ok (f : funcdata) (v : nat) (x : varnode) : operand f v x -> arg_ok (arg_of v x) = true.
Proof.
  intros [Hx [Hs Hs'] Hc]; unfold arg_ok, arg_of; cbn; apply andb_true_iff; split; [apply andb_true_iff; split; by apply Z.leb_le|].
  destruct (is_constant x); [|done]; destruct (Hc eq_refl); apply andb_true_iff; split; [by apply Z.leb_le|by apply Z.ltb_lt].
Qed.

(** The result of an operation *)
Record yields (f : funcdata) (o : nat) (p : pcode_op) (r : nat) (z : varnode) : Prop := Yields {
  yd_op : ops f !! o = Some p;
  yd_out : output p = Some r;
  yd_operand : operand f r z;
  yd_var : is_constant z = false;
  yd_def : vdef z = Some o;
}.

(** A binary operation [p] that reads [a], [b] and yields [r] *)
Record binop (f : funcdata) (o : nat) (p : pcode_op) (a b r : nat) (x y z : varnode) : Prop := Binop {
  bo_in : inrefs p = [a; b];
  bo_yields : yields f o p r z;
  bo_a : operand f a x;
  bo_b : operand f b y;
  bo_sizes : size2 (opc p) (size x) (size y) (size z) = true;
  bo_offset : opc p = Subpiece -> is_constant y = true /\ a_offset (loc y) + size z <= size x;
}.

Record unop (f : funcdata) (o : nat) (p : pcode_op) (a r : nat) (x z : varnode) : Prop := Unop {
  uo_in : inrefs p = [a];
  uo_yields : yields f o p r z;
  uo_a : operand f a x;
  uo_sizes : unary_sizes (opc p) (size x) (size z) = true;
}.

Lemma arg_ok_operand (f : funcdata) (v : nat) (a : arg) : src f v = Some a -> arg_ok a = true -> exists x, operand f v x /\ a = arg_of v x.
Proof.
  unfold src; destruct (varnodes f !! v) as [x|] eqn:Hx; [|done]; intros [= <-]; intros [[Hs Hs']%andb_true_iff Hc]%andb_true_iff; apply Z.leb_le in Hs, Hs'; cbn in Hs, Hs', Hc.
  exists x; split; [|done]; constructor; [done|by split|]; intros E; rewrite E in Hc; apply andb_true_iff in Hc as [H1%Z.leb_le H2%Z.ltb_lt]; by split.
Qed.

Lemma yields_at (f : funcdata) (o : nat) (p : pcode_op) (r : nat) (R : arg) : wf f -> ops f !! o = Some p -> output p = Some r -> src f r = Some R ->
  arg_ok R = true -> is_var R = true -> exists z, yields f o p r z /\ R = arg_of r z.
Proof.
  intros W Hp Ho Hr Hok Hv; destruct (arg_ok_operand f r R Hr Hok) as (z & On & ->); exists z; split; [|done]; constructor; try done.
  - unfold is_var, arg_of in Hv; cbn in Hv; by destruct (is_constant z).
  - assert (E : out_of f o = Some r) by (unfold out_of; by rewrite Hp); apply (go_def _ (wf_graph _ W)) in E.
    unfold def_of in E; by rewrite (on_at _ _ _ On) in E.
Qed.

(** The view of an operation that reads or yields something *)
Definition live (p : pcode_op) : Prop := is_Some (output p) \/ inrefs p <> [].

Lemma live_view (f : funcdata) (o : nat) (p : pcode_op) : wf f -> ops f !! o = Some p -> exists args out,
  view_of f o = Some (View (opc p) args out) /\ args_of f (inrefs p) args /\ out_src f (output p) = Some out.
Proof.
  intros W Hp; assert (Hi : is_op f o = true) by (apply Nat.ltb_lt; by eapply lookup_lt_Some); destruct (view_total f o W Hi) as [w Hw].
  unfold view_of in Hw; rewrite Hp in Hw; cbn in Hw; destruct (mapM (src f) (inrefs p)) as [args|] eqn:Ea; [|done]; cbn in Hw.
  destruct (out_src f (output p)) as [out|] eqn:Eo; [|done]; exists args, out; split_and!; [|done|done].
  unfold view_of; rewrite Hp; cbn; rewrite Ea; cbn; by rewrite Eo.
Qed.

Lemma out_some (f : funcdata) (r : option nat) (R : arg) : out_src f r = Some (Some R) -> exists v, r = Some v /\ src f v = Some R.
Proof. unfold out_src; destruct r as [v|]; [|done]; destruct (src f v) eqn:E; [|done]; intros [= <-]; eauto. Qed.

Lemma binop_at (f : funcdata) (o : nat) (p : pcode_op) : wf f -> typed f -> ops f !! o = Some p -> is_binary (opc p) = true -> live p ->
  exists a b r x y z, binop f o p a b r x y z.
Proof.
  intros W T Hp Hb Hl; destruct (live_view f o p W Hp) as (args & out & V & Ha & Ho); pose proof (T o _ V) as Hok.
  unfold view_ok in Hok; cbn in Hok; unfold evaluable in Hok; rewrite Hb, orb_true_r in Hok.
  destruct args as [|A [|B [|]]], out as [R|]; try done.
  - unfold args_of in Ha; rewrite mapM_Some in Ha; apply Forall2_nil_inv_r in Ha; destruct Hl as [[v Hv]|Hl]; [|done].
    rewrite Hv in Ho; cbn in Ho; by destruct (src f v).
  - assert (is_unary (opc p) = false) as E by (by destruct (opc p)); by rewrite E in Hok.
  - repeat (apply andb_true_iff in Hok as [Hok ?]); apply args_two in Ha as (a & b & El & HA & HB); destruct (out_some _ _ _ Ho) as (r & Er & HR).
    destruct (arg_ok_operand f a A HA) as (x & Ox & ->); [done|]; destruct (arg_ok_operand f b B HB) as (y & Oy & ->); [done|].
    destruct (yields_at f o p r R W Hp Er HR) as (z & Yz & ->); [done..|]; exists a, b, r, x, y, z; constructor; try done.
    intros Ec; rewrite Ec in *; match goal with H : offset_ok _ _ _ _ = true |- _ => unfold offset_ok, arg_of in H; cbn in H; destruct (is_constant y); [|done]; by apply Z.leb_le in H end.
Qed.

Lemma unop_at (f : funcdata) (o : nat) (p : pcode_op) : wf f -> typed f -> ops f !! o = Some p -> is_unary (opc p) = true -> live p ->
  exists a r x z, unop f o p a r x z.
Proof.
  intros W T Hp Hb Hl; destruct (live_view f o p W Hp) as (args & out & V & Ha & Ho); pose proof (T o _ V) as Hok.
  unfold view_ok in Hok; cbn in Hok; unfold evaluable in Hok; rewrite Hb in Hok; cbn [orb andb] in Hok.
  destruct args as [|A [|B [|]]], out as [R|]; try done.
  - unfold args_of in Ha; rewrite mapM_Some in Ha; apply Forall2_nil_inv_r in Ha; destruct Hl as [[v Hv]|Hl]; [|done].
    rewrite Hv in Ho; cbn in Ho; by destruct (src f v).
  - do 3 apply andb_true_iff in Hok as [Hok ?]; apply args_one in Ha as (a & El & HA); destruct (out_some _ _ _ Ho) as (r & Er & HR).
    destruct (arg_ok_operand f a A HA) as (x & Ox & ->); [done|].
    destruct (yields_at f o p r R W Hp Er HR) as (z & Yz & ->); [done..|]; exists a, r, x, z; by constructor.
  - assert (is_binary (opc p) = false) as E by (by destruct (opc p)); by rewrite E in Hok.
Qed.

Lemma binop_is (f : funcdata) (o : nat) (p : pcode_op) (a b r : nat) (x y z : varnode) : binop f o p a b r x y z ->
  op_is f o (opc p) [arg_of a x; arg_of b y] (Some r).
Proof.
  intros [Hi [Hp Ho _ _ _] [Hx _ _] [Hy _ _] _]; exists p; split_and!; try done; rewrite Hi; apply args_two; exists a, b.
  by rewrite (src_at _ _ _ Hx), (src_at _ _ _ Hy).
Qed.

Lemma unop_is (f : funcdata) (o : nat) (p : pcode_op) (a r : nat) (x z : varnode) : unop f o p a r x z -> op_is f o (opc p) [arg_of a x] (Some r).
Proof. intros [Hi [Hp Ho _ _ _] [Hx _ _] _]; exists p; split_and!; try done; rewrite Hi; apply args_one; exists a; by rewrite (src_at _ _ _ Hx). Qed.

Lemma yields_src (f : funcdata) (o : nat) (p : pcode_op) (r : nat) (z : varnode) : yields f o p r z -> src f r = Some (Arg (size z) (TVar r)).
Proof. intros [_ _ [Hz _ _] Hv _]; rewrite (src_at _ _ _ Hz); unfold arg_of; by rewrite Hv. Qed.

(** The equation of a matched operation *)
Lemma binop_eq (f : funcdata) (o : nat) (p : pcode_op) (a b r : nat) (x y z : varnode) (rho : nat -> Z) : binop f o p a b r x y z ->
  is_binary (opc p) = true -> solution f rho -> eval2 (opc p) (size x) (size y) (size z) (vval rho a x) (vval rho b y) = Some (rho r).
Proof.
  intros B Hb Hs; assert (He : evaluable (opc p) = true) by (unfold evaluable; by rewrite Hb, orb_true_r).
  exact (op_is_holds f o _ _ r (size z) (binop_is _ _ _ _ _ _ _ _ _ B) (yields_src _ _ _ _ _ (bo_yields _ _ _ _ _ _ _ _ _ B)) He rho Hs).
Qed.

Lemma unop_eq (f : funcdata) (o : nat) (p : pcode_op) (a r : nat) (x z : varnode) (rho : nat -> Z) : unop f o p a r x z ->
  is_unary (opc p) = true -> solution f rho -> eval1 (opc p) (size x) (size z) (vval rho a x) = Some (rho r).
Proof.
  intros B Hb Hs; assert (He : evaluable (opc p) = true) by (unfold evaluable; by rewrite Hb).
  exact (op_is_holds f o _ _ r (size z) (unop_is _ _ _ _ _ _ _ B) (yields_src _ _ _ _ _ (uo_yields _ _ _ _ _ _ _ B)) He rho Hs).
Qed.

(** ** Following the graph *)

Lemma written_def (f : funcdata) (v : nat) (x : varnode) : wf f -> varnodes f !! v = Some x -> is_written x = true ->
  exists d p, vdef x = Some d /\ ops f !! d = Some p /\ output p = Some v.
Proof.
  intros W Hx Hw; pose proof (go_flags _ (wf_graph _ W) v x Hx) as [Fw _ _]; destruct (vdef x) as [d|] eqn:Ed; [|by apply Fw in Hw].
  assert (E : def_of f v = Some d) by (unfold def_of; by rewrite Hx); apply (go_def _ (wf_graph _ W)) in E.
  unfold out_of in E; destruct (ops f !! d) as [p|] eqn:Hp; [|done]; by exists d, p.
Qed.

Lemma reader_op (f : funcdata) (v o : nat) (x : varnode) : wf f -> varnodes f !! v = Some x -> In o (descend x) ->
  exists p, ops f !! o = Some p /\ In v (inrefs p).
Proof.
  intros W Hx Hin; pose proof (go_use _ (wf_graph _ W) v o) as E; unfold readers in E; rewrite Hx in E; cbn in E.
  apply (count_occ_In Nat.eq_dec) in Hin; unfold count in E; rewrite E in Hin; apply (count_occ_In Nat.eq_dec) in Hin.
  unfold inputs in Hin; destruct (ops f !! o) as [p|] eqn:Hp; [|done]; by exists p.
Qed.

Lemma live_out (p : pcode_op) (v : nat) : output p = Some v -> live p.
Proof. intros H; left; rewrite H; eauto. Qed.

Lemma live_in (p : pcode_op) (v : nat) : In v (inrefs p) -> live p.
Proof. intros H; right; by intros E; rewrite E in H. Qed.
