(* ===== verification/RuleFacts.v ===== *)
(** How a sound rule is proved: what a successful match says, step by step, and the tactics that follow
    the body of a rule. *)
From Stdlib Require Import ZArith Lia Bool List.
From stdpp Require Import base decidable option list strings gmap numbers tactics.
From S2P Require Import Prelude Space OpCode BitUtil PcodeSem Funcdata FuncdataLinks FuncdataEdits FuncdataRemove FuncdataBlocks FuncdataTheorems FuncdataBuild RuleBase Valuation ValuationEdits Rewrite.
Local Open Scope Z_scope.

(** ** Matches that do not panic *)

(** the search does not panic, and what it finds satisfies [P] *)
Definition finds {A : Type} (m : option (option A)) (P : A -> Prop) : Prop := runs m (fun r => forall a, r = Some a -> P a).

Lemma finds_none {A : Type} (P : A -> Prop) : finds (Some None) P.
Proof. by intros a [=]. Qed.

Lemma finds_some {A : Type} (a : A) (P : A -> Prop) : P a -> finds (Some (Some a)) P.
Proof. by intros H b [= <-]. Qed.

Lemma finds_need {A : Type} (c : bool) (m : option (option A)) (P : A -> Prop) : (c = true -> finds m P) -> finds (if c then m else Some None) P.
Proof. destruct c; [auto|]; intros _; apply finds_none. Qed.

Lemma finds_if {A : Type} (c : bool) (m m' : option (option A)) (P : A -> Prop) : (c = true -> finds m P) -> (c = false -> finds m' P) ->
  finds (if c then m else m') P.
Proof. destruct c; auto. Qed.

Lemma finds_try {A B : Type} (m : option A) (k : A -> option (option B)) (P : B -> Prop) : (forall a, m = Some a -> finds (k a) P) -> finds (try m k) P.
Proof. destruct m; cbn; [auto|]; intros _; apply finds_none. Qed.

Lemma finds_call {A B : Type} (m : option (option A)) (k : A -> option (option B)) (Q : A -> Prop) (P : B -> Prop) :
  finds m Q -> (forall a, Q a -> finds (k a) P) -> finds (try_call m k) P.
Proof. destruct m as [[a|]|]; cbn; [intros H Hk; apply Hk, H; done|intros _ _; apply finds_none|done]. Qed.

Lemma finds_slot {A : Type} (g : nat -> option (option A)) (P : A -> Prop) : finds (g 0%nat) P -> finds (g 1%nat) P -> finds (first_slot g) P.
Proof. unfold first_slot; destruct (g 0%nat) as [[a|]|]; cbn; [|auto|done]; intros H _ b [= <-]; by apply H. Qed.

Lemma finds_of {A : Type} (g : nat -> option (option A)) (l : list nat) (P : A -> Prop) : (forall o, In o l -> finds (g o) P) -> finds (first_of g l) P.
Proof.
  induction l as [|o l IH]; cbn; intros H; [apply finds_none|].
  pose proof (H o ltac:(by left)) as Ho; destruct (g o) as [[a|]|]; cbn; [|apply IH; auto|done].
  intros b [= <-]; by apply Ho.
Qed.

Lemma finds_mono {A : Type} (m : option (option A)) (P Q : A -> Prop) : finds m P -> (forall a, P a -> Q a) -> finds m Q.
Proof. destruct m; cbn; auto. Qed.

(** A rule is sound where its match says enough for its edits. *)
Lemma fire_result {A : Type} (m : option (option A)) (f : funcdata) (k : A -> option funcdata) (P : A -> Prop) : wf f -> typed f ->
  finds m P -> (forall a, P a -> runs (k a) (result f)) -> runs (fire m f k) (outcome f).
Proof.
  intros W T H Hk; unfold fire; destruct m as [[a|]|]; cbn; [|by split; [apply result_refl|]|done].
  apply runs_bind; eapply runs_mono; [apply Hk, H; done|]; intros f' R; by split.
Qed.

(** What the edits of a found match leave, and that nothing changes where there is none. *)
Lemma fire_spec {A : Type} (m : option (option A)) (f : funcdata) (k : A -> option funcdata) (Q : A -> funcdata -> Prop) :
  runs m (fun r => forall a, r = Some a -> runs (k a) (Q a)) ->
  runs (fire m f k) (fun '(n, f') => (n = 0 /\ f' = f /\ m = Some None) \/ (n = 1 /\ exists a, m = Some (Some a) /\ Q a f')).
Proof.
  unfold fire; destruct m as [[a|]|]; cbn; intros H; [|by left|done].
  apply runs_bind; eapply runs_mono; [by apply H|]; intros f' Hf; right; eauto.
Qed.

(** ** Following a body *)

(** boolean guards as propositions *)
Ltac guards := repeat match goal with
  | H : _ && _ = true |- _ => apply andb_true_iff in H as [? ?]
  | H : negb _ = true |- _ => apply negb_true_iff in H
  | H : negb _ = false |- _ => apply negb_false_iff in H
  | H : orb _ _ = false |- _ => apply orb_false_iff in H as [? ?]
  | H : is_minus_one _ = true |- _ => unfold is_minus_one in H
  | H : is_code _ _ = true |- _ => unfold is_code in H
  | H : is_code _ _ = false |- _ => unfold is_code in H
  | H : bool_decide _ = true |- _ => apply bool_decide_eq_true in H
  | H : bool_decide _ = false |- _ => apply bool_decide_eq_false in H
  | H : (_ =? _) = true |- _ => apply Z.eqb_eq in H
  | H : (_ =? _) = false |- _ => apply Z.eqb_neq in H
  | H : (_ <? _) = true |- _ => apply Z.ltb_lt in H
  | H : (_ <? _) = false |- _ => apply Z.ltb_ge in H
  | H : (_ <=? _) = true |- _ => apply Z.leb_le in H
  | H : (_ <=? _) = false |- _ => apply Z.leb_gt in H
  | H : Nat.eqb _ _ = true |- _ => apply Nat.eqb_eq in H
  | H : Nat.eqb _ _ = false |- _ => apply Nat.eqb_neq in H
  end.

Ltac reduce := cbn [mbind option_bind lookup list_lookup].

Lemma input_at (p : pcode_op) (i : nat) (l : list nat) : inrefs p = l -> input p i = l !! i.
Proof. intros H; unfold input; by rewrite H. Qed.

(** a lookup whose result is known *)
Ltac known := match goal with
  | H : ops ?f !! ?o = Some _ |- context [ops ?f !! ?o] => rewrite H; reduce
  | H : varnodes ?f !! ?v = Some _ |- context [varnodes ?f !! ?v] => rewrite H; reduce
  | H : inrefs ?p = _ |- context [input ?p ?i] => rewrite (input_at p i _ H); reduce
  | H : vdef ?x = Some _ |- context [vdef ?x] => rewrite H; reduce
  | H : output ?p = Some _ |- context [output ?p] => rewrite H; reduce
  end.

(** a slot of a matched operation *)
Ltac slot := match goal with
  | H : input ?p ?i = Some _ |- context [input ?p ?i] => rewrite H; reduce
  end.

(** ** Definitions of values *)

Lemma def_binop (f : funcdata) (v d : nat) (x : varnode) (p : pcode_op) : wf f -> typed f -> varnodes f !! v = Some x -> ops f !! d = Some p ->
  output p = Some v -> is_binary (opc p) = true -> exists a b xa xb, binop f d p a b v xa xb x.
Proof.
  intros W T Hx Hp Ho Hb; destruct (binop_at f d p W T Hp Hb (live_out p v Ho)) as (a & b & r & xa & xb & z & B).
  pose proof (yd_out _ _ _ _ _ (bo_yields _ _ _ _ _ _ _ _ _ B)) as E; assert (r = v) as -> by congruence.
  pose proof (on_at _ _ _ (yd_operand _ _ _ _ _ (bo_yields _ _ _ _ _ _ _ _ _ B))) as E'; assert (z = x) as -> by congruence; eauto.
Qed.

Lemma def_unop (f : funcdata) (v d : nat) (x : varnode) (p : pcode_op) : wf f -> typed f -> varnodes f !! v = Some x -> ops f !! d = Some p ->
  output p = Some v -> is_unary (opc p) = true -> exists a xa, unop f d p a v xa x.
Proof.
  intros W T Hx Hp Ho Hb; destruct (unop_at f d p W T Hp Hb (live_out p v Ho)) as (a & r & xa & z & B).
  pose proof (yd_out _ _ _ _ _ (uo_yields _ _ _ _ _ _ _ B)) as E; assert (r = v) as -> by congruence.
  pose proof (on_at _ _ _ (yd_operand _ _ _ _ _ (uo_yields _ _ _ _ _ _ _ B))) as E'; assert (z = x) as -> by congruence; eauto.
Qed.

(** the operands of a matched operation *)
Ltac operand_parts O := let C := fresh "O" in pose proof O as C; let E := fresh "Hat" in let V := fresh "Hval" in destruct C as [E V _].

Ltac binop_parts B :=
  let Ei := fresh "Hin" in let Oa := fresh "Oa" in let Ob := fresh "Ob" in
  pose proof (bo_in _ _ _ _ _ _ _ _ _ B) as Ei; pose proof (bo_a _ _ _ _ _ _ _ _ _ B) as Oa; pose proof (bo_b _ _ _ _ _ _ _ _ _ B) as Ob;
  operand_parts Oa; operand_parts Ob.

Ltac yields_parts B :=
  let Y := fresh "Y" in let Eo := fresh "Hout" in let On := fresh "On" in
  pose proof (bo_yields _ _ _ _ _ _ _ _ _ B) as Y; pose proof (yd_out _ _ _ _ _ Y) as Eo; pose proof (yd_operand _ _ _ _ _ Y) as On; operand_parts On.

Ltac unop_parts U :=
  let Ei := fresh "Hin" in let Oa := fresh "Oa" in
  pose proof (uo_in _ _ _ _ _ _ _ U) as Ei; pose proof (uo_a _ _ _ _ _ _ _ U) as Oa; operand_parts Oa.

(** the next guard, the definition of a written value, or the inputs of an operation of known code *)
Ltac follow W T := cbn beta iota; repeat first
  [ slot
  | known
  | match goal with
    | |- finds (if _ then _ else Some None) _ => let G := fresh "G" in apply finds_need; intros G; guards
    | Hw : is_written ?x = true, Hx : varnodes ?f !! ?v = Some ?x |- context [vdef ?x] =>
        let d := fresh "d" in let p := fresh "p" in let Hd := fresh "Hdef" in let Hp := fresh "Hop" in let Ho := fresh "Hout" in
        destruct (written_def f v x W Hx Hw) as (d & p & Hd & Hp & Ho)
    | Hp : ops ?f !! ?d = Some ?p, Ho : output ?p = Some ?v, Hx : varnodes ?f !! ?v = Some ?x, Ec : opc ?p = _ |- context [input ?p _] =>
        lazymatch goal with K : inrefs p = _ |- _ => fail | _ => idtac end;
        let a := fresh "a" in let b := fresh "b" in let xa := fresh "xa" in let xb := fresh "xb" in let B := fresh "B" in
        destruct (def_binop f v d x p W T Hx Hp Ho ltac:(rewrite Ec; reflexivity)) as (a & b & xa & xb & B); binop_parts B
    | Hp : ops ?f !! ?d = Some ?p, Ho : output ?p = Some ?v, Hx : varnodes ?f !! ?v = Some ?x, Ec : opc ?p = _ |- context [input ?p _] =>
        lazymatch goal with K : inrefs p = _ |- _ => fail | _ => idtac end;
        let a := fresh "a" in let xa := fresh "xa" in let U := fresh "U" in
        destruct (def_unop f v d x p W T Hx Hp Ho ltac:(rewrite Ec; reflexivity)) as (a & xa & U); unop_parts U
    | Hp : ops ?f !! ?d = Some ?p, Hr : In ?v (inrefs ?p), Ec : opc ?p = _ |- context [input ?p _] =>
        lazymatch goal with K : inrefs p = _ |- _ => fail | _ => idtac end;
        let a := fresh "a" in let b := fresh "b" in let r := fresh "r" in let xa := fresh "xa" in let xb := fresh "xb" in let z := fresh "z" in let B := fresh "B" in
        destruct (binop_at f d p W T Hp ltac:(rewrite Ec; reflexivity) (live_in p v Hr)) as (a & b & r & xa & xb & z & B); binop_parts B; yields_parts B
    end ].

(** ** Values of matched operations *)

(** what a variable and a constant hold *)
Lemma vval_var (rho : nat -> Z) (v : nat) (x : varnode) : is_constant x = false -> vval rho v x = rho v.
Proof. intros E; unfold vval, arg_of, val; cbn; by rewrite E. Qed.

Lemma vval_const (rho : nat -> Z) (v : nat) (x : varnode) : is_constant x = true -> vval rho v x = constant_value x.
Proof. intros E; unfold vval, arg_of, val; cbn; by rewrite E. Qed.

(** a matched operation, with its code known *)
Lemma binop_solved (f : funcdata) (o : nat) (p : pcode_op) (a b r : nat) (x y z : varnode) (c : opcode) (rho : nat -> Z) :
  binop f o p a b r x y z -> opc p = c -> is_binary c = true -> solution f rho ->
  eval2 c (size x) (size y) (size z) (vval rho a x) (vval rho b y) = Some (vval rho r z).
Proof.
  intros B <- Hb Hs; rewrite (vval_var rho r z) by apply (bo_yields _ _ _ _ _ _ _ _ _ B); by eapply binop_eq.
Qed.

Lemma unop_solved (f : funcdata) (o : nat) (p : pcode_op) (a r : nat) (x z : varnode) (c : opcode) (rho : nat -> Z) :
  unop f o p a r x z -> opc p = c -> is_unary c = true -> solution f rho ->
  eval1 c (size x) (size z) (vval rho a x) = Some (vval rho r z).
Proof.
  intros B <- Hb Hs; rewrite (vval_var rho r z) by apply (uo_yields _ _ _ _ _ _ _ B); by eapply unop_eq.
Qed.

(** the sizes of an operation whose inputs and output agree *)
Definition uniform (c : opcode) : bool :=
  match c with
  | IntAdd | IntSub | IntMult | IntAnd | IntOr | IntXor | IntDiv | IntRem | IntSdiv | IntSrem => true
  | _ => false
  end.

Lemma uniform_sizes (f : funcdata) (o : nat) (p : pcode_op) (a b r : nat) (x y z : varnode) : binop f o p a b r x y z -> uniform (opc p) = true ->
  size x = size z /\ size y = size z.
Proof. intros [_ _ _ _ H] Hu; destruct (opc p); try done; cbn in H; apply andb_true_iff in H as [H1%Z.eqb_eq H2%Z.eqb_eq]; lia. Qed.

Definition is_shift (c : opcode) : bool := match c with IntLeft | IntRight | IntSright => true | _ => false end.

Lemma shift_sizes (f : funcdata) (o : nat) (p : pcode_op) (a b r : nat) (x y z : varnode) : binop f o p a b r x y z -> is_shift (opc p) = true ->
  size x = size z.
Proof. intros [_ _ _ _ H] Hu; destruct (opc p); try done; cbn in H; by apply Z.eqb_eq in H. Qed.

(** the two terms of a sum, from either slot *)
Lemma add_slot (f : funcdata) (o : nat) (p : pcode_op) (a b r i : nat) (x y z : varnode) : binop f o p a b r x y z -> opc p = IntAdd -> (i < 2)%nat ->
  exists u w xu xw, input p i = Some u /\ input p (1 - i) = Some w /\ operand f u xu /\ operand f w xw /\ size xu = size z /\ size xw = size z /\
    forall rho, solution f rho -> vval rho r z = wrap (size z) (vval rho u xu + vval rho w xw).
Proof.
  intros B Ec Hi; pose proof B as [Ei _ Ha Hb _]; destruct (uniform_sizes _ _ _ _ _ _ _ _ _ B ltac:(by rewrite Ec)) as [Sx Sy].
  assert (E : forall rho, solution f rho -> vval rho r z = wrap (size z) (vval rho a x + vval rho b y)).
  { intros rho Hs; pose proof (binop_solved _ _ _ _ _ _ _ _ _ _ rho B Ec eq_refl Hs) as E; cbn in E; by injection E as <-. }
  unfold input; rewrite Ei; destruct i as [|[|]]; [exists a, b, x, y|exists b, a, y, x|lia]; split_and!; try done.
  intros rho Hs; rewrite Z.add_comm; by apply E.
Qed.

(** ** Edits of one operation *)

(** [g] is [f] with the operation [op] changed to [c], [args], [out]. *)
Record editing (f g : funcdata) (op : nat) (c : opcode) (args : list arg) (out : option nat) : Prop := Editing {
  ed_wf : wf g;
  ed_moves : moves f g [op];
  ed_is : op_is g op c args out;
}.

Section Editing.
Context (f : funcdata) (op : nat).

Lemma editing_start (c : opcode) (args : list arg) (out : option nat) : wf f -> op_is f op c args out -> editing f f op c args out.
Proof. intros W I; constructor; try done; eapply moves_incl; [apply moves_refl|]; by intros ? []. Qed.

Lemma editing_makes (g g' : funcdata) (c c' : opcode) (args args' : list arg) (out : option nat) : editing f g op c args out -> wf g' ->
  makes g op c' args' out g' -> editing f g' op c' args' out.
Proof.
  intros [W M I] W' [M' I']; constructor; try done; eapply moves_incl; [exact (moves_trans _ _ _ _ _ M M')|]; cbn; tauto.
Qed.

Lemma editing_src (g : funcdata) (c : opcode) (args : list arg) (out : option nat) (v : nat) (a : arg) : editing f g op c args out ->
  src f v = Some a -> src g v = Some a.
Proof. intros [_ M _]; apply (mv_src _ _ _ M). Qed.

(** what the edits left of a value *)
Lemma editing_vn (g : funcdata) (c : opcode) (args : list arg) (out : option nat) (v : nat) (x : varnode) : editing f g op c args out ->
  varnodes f !! v = Some x -> exists x', varnodes g !! v = Some x' /\ size x' = size x /\ is_constant x' = is_constant x /\
    (is_constant x = true -> constant_value x' = constant_value x).
Proof.
  intros [_ M _] Hx; pose proof (mv_src _ _ _ M v _ (src_at _ _ _ Hx)) as E; unfold src in E.
  destruct (varnodes g !! v) as [x'|]; [|done]; cbn in E; unfold arg_of in E; injection E as E1 E2; exists x'; split; [done|]; split; [done|].
  unfold constant_value; destruct (is_constant x), (is_constant x'); try done; injection E2; auto.
Qed.

Lemma run_input (g : funcdata) (c : opcode) (args : list arg) (out : option nat) (i v : nat) (a : arg) : editing f g op c args out ->
  (i < List.length args)%nat -> src g v = Some a -> runs (op_set_input g op i v) (fun g' => editing f g' op c (<[i := a]> args) out).
Proof.
  intros E L S; eapply runs_mono; [eapply (run_set_input g op i v); [apply E|apply E|done|exact S]|].
  intros g' [W' M']; by eapply editing_makes.
Qed.

(** the same, where a value is used later *)
Lemma run_input_src (g : funcdata) (c : opcode) (args : list arg) (out : option nat) (i v : nat) (a : arg) : editing f g op c args out ->
  (i < List.length args)%nat -> src g v = Some a ->
  runs (op_set_input g op i v) (fun g' => editing f g' op c (<[i := a]> args) out /\ forall w b, src g w = Some b -> src g' w = Some b).
Proof.
  intros E L S; eapply runs_mono; [eapply (run_set_input g op i v); [apply E|apply E|done|exact S]|].
  intros g' [W' M']; split; [by eapply editing_makes|]; apply (mv_src _ _ _ (proj1 M')).
Qed.

Lemma run_opcode (g : funcdata) (c c' : opcode) (args : list arg) (out : option nat) : editing f g op c args out ->
  runs (op_set_opcode g op c') (fun g' => editing f g' op c' args out).
Proof. intros E; eapply runs_mono; [eapply run_set_opcode; apply E|]; intros g' [W' M']; by eapply editing_makes. Qed.

Lemma run_remove (g : funcdata) (c : opcode) (args : list arg) (out : option nat) (i : nat) : editing f g op c args out ->
  (i < List.length args)%nat -> runs (op_remove_input g op i) (fun g' => editing f g' op c (delete i args) out).
Proof. intros E L; eapply runs_mono; [eapply run_remove_input; [apply E|apply E|done]|]; intros g' [W' M']; by eapply editing_makes. Qed.

Lemma run_opcode_src (g : funcdata) (c c' : opcode) (args : list arg) (out : option nat) : editing f g op c args out ->
  runs (op_set_opcode g op c') (fun g' => editing f g' op c' args out /\ forall w b, src g w = Some b -> src g' w = Some b).
Proof.
  intros E; eapply runs_mono; [eapply run_set_opcode; apply E|]; intros g' [W' M']; split; [by eapply editing_makes|]; apply (mv_src _ _ _ (proj1 M')).
Qed.

Lemma run_remove_src (g : funcdata) (c : opcode) (args : list arg) (out : option nat) (i : nat) : editing f g op c args out ->
  (i < List.length args)%nat -> runs (op_remove_input g op i) (fun g' => editing f g' op c (delete i args) out /\ forall w b, src g w = Some b -> src g' w = Some b).
Proof.
  intros E L; eapply runs_mono; [eapply run_remove_input; [apply E|apply E|done]|]; intros g' [W' M']; split; [by eapply editing_makes|]; apply (mv_src _ _ _ (proj1 M')).
Qed.

Lemma run_append (g : funcdata) (c : opcode) (args : list arg) (out : option nat) (v : nat) (a : arg) : editing f g op c args out ->
  src g v = Some a -> runs (op_append_input g op v) (fun g' => editing f g' op c (args ++ [a]) out).
Proof. intros E S; eapply runs_mono; [eapply run_append_input; [apply E|apply E|exact S]|]; intros g' [W' M']; by eapply editing_makes. Qed.

Lemma run_insert (g : funcdata) (c : opcode) (args : list arg) (out : option nat) (i v : nat) (a : arg) : editing f g op c args out ->
  (i <= List.length args)%nat -> src g v = Some a -> runs (op_insert_input g op i v) (fun g' => editing f g' op c (take i args ++ a :: drop i args) out).
Proof. intros E L S; eapply runs_mono; [eapply run_insert_input; [apply E|apply E|done|exact S]|]; intros g' [W' M']; by eapply editing_makes. Qed.

Lemma run_swap (g : funcdata) (c : opcode) (a b : arg) (out : option nat) : editing f g op c [a; b] out ->
  runs (op_swap_input g op 0 1) (fun g' => editing f g' op c [b; a] out).
Proof. intros E; eapply runs_mono; [eapply run_swap_input; apply E|]; intros g' [W' M']; by eapply editing_makes. Qed.

Lemma run_inputs (g : funcdata) (c : opcode) (args args' : list arg) (out : option nat) (l : list nat) : editing f g op c args out ->
  args_of g l args' -> runs (op_set_all_input g op l) (fun g' => editing f g' op c args' out).
Proof. intros E Ha; eapply runs_mono; [eapply run_set_all_input; [apply E|apply E|exact Ha]|]; intros g' [W' M']; by eapply editing_makes. Qed.

Lemma run_const (g : funcdata) (c : opcode) (args : list arg) (out : option nat) (sz k : Z) : editing f g op c args out ->
  runs (new_const g sz k) (fun '(v, g') => editing f g' op c args out /\ src g' v = Some (Arg sz (TConst k))).
Proof.
  intros [W M I]; eapply runs_mono; [by apply run_new_const|]; intros [v g'] (W' & M' & _ & S'); split; [|done]; constructor; [done| |by eapply op_is_mono].
  exact (moves_trans _ _ _ _ _ M M').
Qed.

(** The edited operation, typed and of the same value. *)
Lemma editing_result (g : funcdata) (c c' : opcode) (args args' : list arg) (r : nat) (s : Z) : wf f -> typed f ->
  op_is f op c args (Some r) -> src f r = Some (Arg s (TVar r)) -> editing f g op c' args' (Some r) ->
  view_ok (View c' args' (Some (Arg s (TVar r)))) = true -> evaluable c' = true -> gives f c' args' (Arg s (TVar r)) -> result f g.
Proof. intros W T I Hr [W' M I']; by eapply rewire_result. Qed.

End Editing.

(** ** The operation a rule is tried on *)

Lemma target_op (ru : rule) (f : funcdata) (op : nat) : target ru f op = true -> exists o, ops f !! op = Some o /\ (evaluable (opc o) = true -> is_Some (output o)) /\
  (oplist ru = [] \/ opc o ∈ oplist ru) /\ inside f op = true.
Proof.
  unfold target; intros [Hi H]%andb_true_iff; destruct (ops f !! op) as [o|]; [|done]; apply andb_true_iff in H as [H1 H2].
  exists o; split_and!; try done; [intros E; rewrite E in H2; by apply bool_decide_eq_true in H2|].
  apply orb_true_iff in H1 as [H%bool_decide_eq_true|H%bool_decide_eq_true]; auto.
Qed.

Lemma target_binop (ru : rule) (f : funcdata) (op : nat) : wf f -> typed f -> target ru f op = true -> oplist ru <> [] ->
  forallb is_binary (oplist ru) = true -> exists o a b r x y z, binop f op o a b r x y z /\ opc o ∈ oplist ru /\ inside f op = true.
Proof.
  intros W T H Hn Hb; destruct (target_op ru f op H) as (o & Ho & Er & [E|Hc] & Hi); [done|].
  assert (Eb : is_binary (opc o) = true) by (rewrite forallb_forall in Hb; by apply Hb, list_elem_of_In).
  destruct Er as [r Er]; [unfold evaluable; by rewrite Eb, orb_true_r|]; destruct (binop_at f op o W T Ho Eb (live_out _ _ Er)) as (a & b & r' & x & y & z & B); exists o, a, b, r', x, y, z; eauto.
Qed.

(** ** Equations of rewritten operations *)

Lemma gives_const (f : funcdata) (c : opcode) (v r : nat) (xv z : varnode) (s' k : Z) : is_constant z = false ->
  (forall rho, solution f rho -> eval2 c (size xv) s' (size z) (vval rho v xv) k = Some (vval rho r z)) ->
  gives f c [arg_of v xv; Arg s' (TConst k)] (Arg (size z) (TVar r)).
Proof. intros E H rho Hs; pose proof (H rho Hs) as G; rewrite (vval_var rho r z E) in G; exact G. Qed.

Lemma gives_two (f : funcdata) (c : opcode) (v w r : nat) (xv xw z : varnode) : is_constant z = false ->
  (forall rho, solution f rho -> eval2 c (size xv) (size xw) (size z) (vval rho v xv) (vval rho w xw) = Some (vval rho r z)) ->
  gives f c [arg_of v xv; arg_of w xw] (Arg (size z) (TVar r)).
Proof. intros E H rho Hs; pose proof (H rho Hs) as G; rewrite (vval_var rho r z E) in G; exact G. Qed.

Lemma gives_one (f : funcdata) (c : opcode) (v r : nat) (xv z : varnode) : is_constant z = false ->
  (forall rho, solution f rho -> eval1 c (size xv) (size z) (vval rho v xv) = Some (vval rho r z)) ->
  gives f c [arg_of v xv] (Arg (size z) (TVar r)).
Proof. intros E H rho Hs; pose proof (H rho Hs) as G; rewrite (vval_var rho r z E) in G; exact G. Qed.

(** ** Types of rewritten operations *)

Lemma const_ok (s k : Z) : valid_size s -> is_value s k -> arg_ok (Arg s (TConst k)) = true.
Proof.
  intros [H1 H2] [H3 H4]; unfold arg_ok; cbn; repeat (apply andb_true_iff; split); first [by apply Z.leb_le | by apply Z.ltb_lt].
Qed.

Lemma var_ok (s : Z) (v : nat) : valid_size s -> arg_ok (Arg s (TVar v)) = true.
Proof. intros [H1 H2]; unfold arg_ok; cbn; repeat (apply andb_true_iff; split); first [by apply Z.leb_le | done]. Qed.

Lemma view_ok_binary (c : opcode) (a b : arg) (s : Z) (r : nat) : is_binary c = true -> arg_ok a = true -> arg_ok b = true -> valid_size s ->
  size2 c (ar_size a) (ar_size b) s = true -> offset_ok c a b (Arg s (TVar r)) = true -> view_ok (View c [a; b] (Some (Arg s (TVar r)))) = true.
Proof.
  intros Hc Ha Hb Hs Hz Ho; unfold view_ok; cbn [w_opc w_args w_out ar_size]; unfold evaluable.
  by rewrite Hc, orb_true_r, Ha, Hb, (var_ok s r Hs), Hz, Ho.
Qed.

Lemma view_ok_unary (c : opcode) (a : arg) (s : Z) (r : nat) : is_unary c = true -> arg_ok a = true -> valid_size s ->
  unary_sizes c (ar_size a) s = true -> view_ok (View c [a] (Some (Arg s (TVar r)))) = true.
Proof. intros Hc Ha Hs Hz; unfold view_ok; cbn [w_opc w_args w_out ar_size]; unfold evaluable; rewrite Hc, Ha, (var_ok s r Hs), Hz; done. Qed.

Lemma operand_size (f : funcdata) (o : nat) (p : pcode_op) (r : nat) (z : varnode) : yields f o p r z -> valid_size (size z).
Proof. intros []; by apply (on_size f r). Qed.

Create HintDb rules.
#[export] Hint Resolve const_ok var_ok operand_ok view_ok_binary view_ok_unary on_size on_at src_at : rules.

(** ** The edits of a rule, one after another *)

(** the facts [E] says about the values of [f] *)
Ltac carry E O := let x := fresh "x'" in let Hx := fresh "Hx'" in let S := fresh "Sx'" in
  destruct (editing_vn _ _ _ _ _ _ _ _ E (on_at _ _ _ O)) as (x & Hx & S & _); rewrite Hx; cbn [mbind option_bind]; rewrite ?S.

Ltac edit lem := first [ eapply runs_bind; eapply runs_mono; [lem|] | eapply runs_mono; [lem|] ]; cbn beta.

(** A binary operation that comes to read a value and a constant of its size. *)
Lemma const_result (f g : funcdata) (op : nat) (o : pcode_op) (a b r v : nat) (x y z xv : varnode) (c : opcode) (k : Z) : wf f -> typed f ->
  binop f op o a b r x y z -> operand f v xv -> editing f g op c [arg_of v xv; Arg (size z) (TConst k)] (Some r) -> size xv = size z ->
  is_value (size z) k -> is_binary c = true -> uniform c = true ->
  (forall rho, solution f rho -> eval2 c (size z) (size z) (size z) (vval rho v xv) k = Some (vval rho r z)) -> result f g.
Proof.
  intros W T B Ov E Sv Hk Hc Hu Hg; pose proof (operand_size _ _ _ _ _ (bo_yields _ _ _ _ _ _ _ _ _ B)) as Vz.
  eapply editing_result; [done|done|by eapply binop_is|eapply yields_src, B|exact E| |by unfold evaluable; rewrite Hc, orb_true_r|].
  - apply view_ok_binary; [done|by eapply operand_ok|by apply const_ok|done| |by destruct c]; cbn; rewrite Sv; destruct c; try done; cbn; by rewrite Z.eqb_refl.
  - apply gives_const; [apply B|]; by rewrite Sv.
Qed.

(** A binary operation that comes to read two values of its size. *)
Lemma two_result (f g : funcdata) (op : nat) (o : pcode_op) (a b r v w : nat) (x y z xv xw : varnode) (c : opcode) : wf f -> typed f ->
  binop f op o a b r x y z -> operand f v xv -> operand f w xw -> editing f g op c [arg_of v xv; arg_of w xw] (Some r) -> size xv = size z -> size xw = size z ->
  is_binary c = true -> uniform c = true ->
  (forall rho, solution f rho -> eval2 c (size z) (size z) (size z) (vval rho v xv) (vval rho w xw) = Some (vval rho r z)) -> result f g.
Proof.
  intros W T B Ov Ow E Sv Sw Hc Hu Hg; pose proof (operand_size _ _ _ _ _ (bo_yields _ _ _ _ _ _ _ _ _ B)) as Vz.
  eapply editing_result; [done|done|by eapply binop_is|eapply yields_src, B|exact E| |by unfold evaluable; rewrite Hc, orb_true_r|].
  - apply view_ok_binary; [done|by eapply operand_ok|by eapply operand_ok|done| |by destruct c]; cbn; rewrite Sv, Sw; destruct c; try done; cbn; by rewrite Z.eqb_refl.
  - apply gives_two; [apply B|]; by rewrite Sv, Sw.
Qed.

(** ** Operations a rule adds *)

Lemma src_operand (f : funcdata) (v : nat) (s : Z) : src f v = Some (Arg s (TVar v)) -> valid_size s ->
  exists x, operand f v x /\ arg_of v x = Arg s (TVar v) /\ is_constant x = false.
Proof.
  unfold src; destruct (varnodes f !! v) as [x|] eqn:Hx; [|done]; intros E Hs; injection E as <- E; exists x; unfold arg_of.
  destruct (is_constant x) eqn:Ec; [discriminate|]; split_and!; try done; by constructor; rewrite ?Ec.
Qed.

Lemma operand_moves (f g : funcdata) (l : list nat) (v : nat) (x : varnode) : moves f g l -> operand f v x ->
  exists x', operand g v x' /\ arg_of v x' = arg_of v x.
Proof.
  intros M [Hx Hs Hc]; pose proof (mv_src _ _ _ M v _ (src_at _ _ _ Hx)) as E; unfold src in E.
  destruct (varnodes g !! v) as [x'|] eqn:Hx'; [|done]; cbn in E; apply (inj Some) in E; exists x'; split; [|exact E].
  unfold arg_of in E; injection E as E1 E2; constructor; [done|by rewrite E1|]; intros Ec; rewrite Ec in E2; rewrite E1.
  destruct (is_constant x); [|done]; injection E2 as ->; by apply Hc.
Qed.

Lemma arg_of_eq (v : nat) (x x' : varnode) : arg_of v x' = arg_of v x -> size x' = size x /\ forall rho, vval rho v x' = vval rho v x.
Proof. intros E; split; [by injection E|]; intros rho; unfold vval; by rewrite E. Qed.

(** A matched operation after other operations are added *)
Lemma binop_moves (f g : funcdata) (l : list nat) (op : nat) (o : pcode_op) (a b r : nat) (x y z : varnode) : wf g -> moves f g l -> ~ In op l ->
  binop f op o a b r x y z -> exists o' x' y' z', binop g op o' a b r x' y' z' /\ opc o' = opc o /\
    arg_of a x' = arg_of a x /\ arg_of b y' = arg_of b y /\ arg_of r z' = arg_of r z.
Proof.
  intros W M Hn [Hi [Hp Ho Hz Hv Hd] Ha Hb Hs Hf]; destruct (mv_ops _ _ _ M op o Hn Hp) as (o' & Hp' & Ec & Ei & Eo).
  destruct (operand_moves _ _ _ _ _ M Ha) as (x' & Ha' & Ex); destruct (operand_moves _ _ _ _ _ M Hb) as (y' & Hb' & Ey).
  destruct (operand_moves _ _ _ _ _ M Hz) as (z' & Hz' & Ez); exists o', x', y', z'; split_and!; try done.
  destruct (arg_of_eq _ _ _ Ex) as [Sx _]; destruct (arg_of_eq _ _ _ Ey) as [Sy _]; destruct (arg_of_eq _ _ _ Ez) as [Sz _].
  constructor; [congruence| |done|done|by rewrite Sx, Sy, Sz, Ec|].
  2: { intros E; rewrite Ec in E; destruct (Hf E) as [K L]; unfold arg_of in Ey; injection Ey as _ Ey; rewrite K in Ey; destruct (is_constant y'); [|done]; injection Ey as ->; split; [done|lia]. }
  constructor; [done|congruence|done| |].
  - unfold arg_of in Ez; injection Ez as _ Ez; rewrite Hv in Ez; by destruct (is_constant z').
  - assert (E : out_of g op = Some r) by (unfold out_of; rewrite Hp'; cbn; congruence); apply (go_def _ (wf_graph _ W)) in E.
    unfold def_of in E; by rewrite (on_at _ _ _ Hz') in E.
Qed.

Lemma args_of_in (f : funcdata) (l : list nat) (args : list arg) : args_of f l args -> List.Forall (arg_in f) args.
Proof. unfold args_of; rewrite mapM_Some; intros F; induction F as [|v a l args Hv _ IH]; constructor; [by exists v|done]. Qed.

Lemma run_add_const (f : funcdata) (sz k : Z) : wf f -> typed f ->
  runs (new_const f sz k) (fun '(v, g) => result f g /\ moves f g [] /\ src g v = Some (Arg sz (TConst k)) /\ forall rho, solution g rho -> solution f rho).
Proof.
  intros W T; eapply runs_mono; [by apply run_new_const|]; intros [v g] (W' & M & _ & S); split_and!; try done; [by apply unchanged_result|].
  intros rho; by apply (solution_before f g []).
Qed.

Lemma run_add_op (f : funcdata) (follow : nat) (c : opcode) (l : list nat) (args : list arg) (sz : Z) : wf f -> typed f -> inside f follow = true ->
  args_of f l args -> (forall v, view_ok (View c args (Some (Arg sz (TVar v)))) = true) -> evaluable c = true ->
  (forall rho, solution f rho -> exists e, eval_view rho c args sz = Some e /\ is_value sz e) ->
  runs (new_op_before_sized f follow c l sz) (fun '(id, g) => result f g /\ moves f g [id] /\ is_op f id = false /\ exists v,
    output_of g id = Some v /\ src g v = Some (Arg sz (TVar v)) /\
    forall rho, solution g rho -> solution f rho /\ eval_view rho c args sz = Some (rho v)).
Proof.
  intros W T Hi Ha Hv He Ht; eapply runs_mono; [by eapply run_new_op_before_sized|]; intros [id g] (W' & -> & Hin & v & [M I] & S & F).
  assert (Hid : is_op f (List.length (ops f)) = false) by (apply Nat.ltb_ge; lia).
  split; [|split; [done|split; [done|]]].
  - eapply add_op_result; [done|done|done|by split|done|done|exact S|done|by eapply args_of_in|done|done|done].
  - exists v; split_and!; [|done|].
    + destruct I as (x & Hx & _ & _ & Eo); unfold output_of; by rewrite Hx.
    + intros rho Hs; split; [eapply (solution_before f g [List.length (ops f)]); [done|done|done| |done]; by intros o [<-|[]]|].
      exact (op_is_holds g _ c args v sz I S He rho Hs).
Qed.

(** ** Rewritten operations, by the shape they take *)

(** an operation of the function that yields [r] *)
Definition site (f : funcdata) (op r : nat) (z : varnode) : Prop :=
  exists o c args, op_is f op c args (Some r) /\ yields f op o r z.

Lemma binop_site (f : funcdata) (op : nat) (o : pcode_op) (a b r : nat) (x y z : varnode) : binop f op o a b r x y z -> site f op r z.
Proof. intros B; exists o, (opc o), [arg_of a x; arg_of b y]; split; [by eapply binop_is|apply B]. Qed.

Lemma unop_site (f : funcdata) (op : nat) (o : pcode_op) (a r : nat) (x z : varnode) : unop f op o a r x z -> site f op r z.
Proof. intros U; exists o, (opc o), [arg_of a x]; split; [by eapply unop_is|apply U]. Qed.

Lemma site_var (f : funcdata) (op r : nat) (z : varnode) (rho : nat -> Z) : site f op r z -> vval rho r z = rho r.
Proof. intros (o & c & args & _ & Y); apply vval_var, Y. Qed.

Lemma site_size (f : funcdata) (op r : nat) (z : varnode) : site f op r z -> valid_size (size z).
Proof. intros (o & c & args & _ & Y); by eapply operand_size. Qed.

Lemma one_result (f g : funcdata) (op r : nat) (z : varnode) (c : opcode) (A : arg) : wf f -> typed f -> site f op r z ->
  editing f g op c [A] (Some r) -> arg_ok A = true -> is_unary c = true -> unary_sizes c (ar_size A) (size z) = true ->
  (forall rho, solution f rho -> eval1 c (ar_size A) (size z) (val rho A) = Some (vval rho r z)) -> result f g.
Proof.
  intros W T S E Ha Hc Hs Hg; pose proof (site_size _ _ _ _ S) as Vz; pose proof S as (o & c0 & args & I & Y).
  eapply editing_result; [done|done|exact I|by eapply yields_src|exact E|by apply view_ok_unary|by unfold evaluable; rewrite Hc|].
  intros rho Hr; cbn; rewrite (Hg rho Hr), (site_var _ _ _ _ rho S); done.
Qed.

Lemma pair_result (f g : funcdata) (op r : nat) (z : varnode) (c : opcode) (A B : arg) : wf f -> typed f -> site f op r z ->
  editing f g op c [A; B] (Some r) -> arg_ok A = true -> arg_ok B = true -> is_binary c = true -> size2 c (ar_size A) (ar_size B) (size z) = true ->
  offset_ok c A B (Arg (size z) (TVar r)) = true ->
  (forall rho, solution f rho -> eval2 c (ar_size A) (ar_size B) (size z) (val rho A) (val rho B) = Some (vval rho r z)) -> result f g.
Proof.
  intros W T S E Ha Hb Hc Hs Ho Hg; pose proof (site_size _ _ _ _ S) as Vz; pose proof S as (o & c0 & args & I & Y).
  eapply editing_result; [done|done|exact I|by eapply yields_src|exact E|by apply view_ok_binary|by unfold evaluable; rewrite Hc, orb_true_r|].
  intros rho Hr; cbn; rewrite (Hg rho Hr), (site_var _ _ _ _ rho S); done.
Qed.

(** a copy of a value, and of a constant *)
Lemma copy_result (f g : funcdata) (op r v : nat) (z xv : varnode) : wf f -> typed f -> site f op r z -> operand f v xv ->
  editing f g op Copy [arg_of v xv] (Some r) -> size xv = size z -> (forall rho, solution f rho -> vval rho v xv = vval rho r z) -> result f g.
Proof.
  intros W T S Ov E Sv Hg; eapply one_result; [done|done|exact S|exact E|by eapply operand_ok|done|cbn; by apply Z.eqb_eq|].
  intros rho Hr; cbn; fold (vval rho v xv); rewrite wrap_small; [by rewrite Hg|]; rewrite <- Sv; by eapply operand_fits.
Qed.

Lemma copy_const_result (f g : funcdata) (op r : nat) (z : varnode) (s k : Z) : wf f -> typed f -> site f op r z ->
  editing f g op Copy [Arg s (TConst k)] (Some r) -> s = size z -> is_value (size z) k -> (forall rho, solution f rho -> vval rho r z = k) -> result f g.
Proof.
  intros W T S E -> Hk Hg; pose proof (site_size _ _ _ _ S) as Vz; eapply one_result; [done|done|exact S|exact E|by apply const_ok|done|cbn; by apply Z.eqb_refl|].
  intros rho Hr; cbn; by rewrite (Hg rho Hr), wrap_small.
Qed.

Lemma target_unop (ru : rule) (f : funcdata) (op : nat) : wf f -> typed f -> target ru f op = true -> oplist ru <> [] ->
  forallb is_unary (oplist ru) = true -> exists o a r x z, unop f op o a r x z /\ opc o ∈ oplist ru /\ inside f op = true.
Proof.
  intros W T H Hn Hb; destruct (target_op ru f op H) as (o & Ho & Er & [E|Hc] & Hi); [done|].
  assert (Eb : is_unary (opc o) = true) by (rewrite forallb_forall in Hb; by apply Hb, list_elem_of_In).
  destruct Er as [r Er]; [unfold evaluable; by rewrite Eb|]; destruct (unop_at f op o W T Ho Eb (live_out _ _ Er)) as (a & r' & x & z & U); exists o, a, r', x, z; eauto.
Qed.

(** an operation whose output has the size of its first input *)
Lemma run_add_op_before (f : funcdata) (follow : nat) (c : opcode) (v : nat) (l : list nat) (A : arg) (args : list arg) : wf f -> typed f -> inside f follow = true ->
  args_of f (v :: l) (A :: args) -> (forall r, view_ok (View c (A :: args) (Some (Arg (ar_size A) (TVar r)))) = true) -> evaluable c = true ->
  (forall rho, solution f rho -> exists e, eval_view rho c (A :: args) (ar_size A) = Some e /\ is_value (ar_size A) e) ->
  runs (new_op_before f follow c (v :: l)) (fun '(id, g) => result f g /\ moves f g [id] /\ is_op f id = false /\ exists r,
    output_of g id = Some r /\ src g r = Some (Arg (ar_size A) (TVar r)) /\
    forall rho, solution g rho -> solution f rho /\ eval_view rho c (A :: args) (ar_size A) = Some (rho r)).
Proof.
  intros W T Hi Ha Hv He Ht; unfold new_op_before.
  assert (Hf : exists o, ops f !! follow = Some o) by (destruct (inside_in f follow Hi) as (b & Hb & _); unfold parent_of in Hb; destruct (ops f !! follow) as [o|]; [by exists o|done]).
  destruct Hf as [o Ho]; rewrite Ho; cbn [mbind option_bind head].
  assert (Hs : exists x, varnodes f !! v = Some x /\ size x = ar_size A).
  { unfold args_of in Ha; rewrite mapM_Some in Ha; inversion Ha as [|? ? ? ? Hs _]; subst; unfold src in Hs; destruct (varnodes f !! v) as [x|]; [|done]; cbn in Hs; exists x; by injection Hs as <-. }
  destruct Hs as (x & -> & Es); cbn [mbind option_bind]; rewrite Es; by apply run_add_op.
Qed.
