(* ===== verification/RuleArith.v ===== *)
(** Arithmetic of machine words for the rules: wrapping, signs, and rounding towards zero. *)
From Stdlib Require Import ZArith Lia Bool List.
From stdpp Require Import base decidable option list strings gmap numbers tactics.
From S2P Require Import Prelude Space OpCode BitUtil PcodeSem Funcdata FuncdataLinks FuncdataEdits FuncdataRemove FuncdataBlocks FuncdataTheorems FuncdataBuild RuleBase Divopt DivRules Valuation ValuationEdits Rewrite RuleFacts.
Local Open Scope Z_scope.

(** ** Sign words *)

(** all the bits the sign: what an arithmetic shift to the last bit leaves *)
Definition sign_word (s v : Z) : Z := if v <? modulus s / 2 then 0 else modulus s - 1.

Lemma sright_sign (s v : Z) : valid_size s -> is_value s v -> wrap s (signed s v / 2 ^ (8 * s - 1)) = sign_word s v.
Proof.
  intros Hs Hv; pose proof (modulus_half s Hs) as Hh; pose proof (modulus_pos s Hs) as Hp; unfold is_value, signed, sign_word in *.
  assert (Em : modulus s = 2 * 2 ^ (8 * s - 1)) by (unfold modulus, valid_size in *; rewrite <- Z.pow_succ_r by lia; f_equal; lia).
  replace (2 ^ (8 * s - 1)) with (modulus s / 2) by lia; clear Em; cmp.
  - rewrite Z.div_small by lia; unfold wrap; by rewrite Z.mod_0_l by lia.
  - replace ((v - modulus s) / (modulus s / 2)) with (-1) by (apply Z.div_unique with (r := v - modulus s / 2); lia).
    unfold wrap; symmetry; apply Z.mod_unique with (-1); lia.
Qed.

Lemma sign_bit_eq (x : varnode) : valid_size (size x) -> sign_bit x = 8 * size x - 1.
Proof. unfold valid_size, sign_bit, w32; intros; apply Z.mod_small; lia. Qed.

Lemma minus_one (x : varnode) (rho : nat -> Z) (v : nat) : valid_size (size x) -> is_minus_one x = true -> vval rho v x = modulus (size x) - 1.
Proof.
  intros Hs [Hc Hv%Z.eqb_eq]%andb_true_iff; rewrite (vval_const _ _ _ Hc), Hv; unfold valid_size, modulus in *.
  by rewrite calc_mask_ones, Z.ones_equiv by lia.
Qed.

Lemma wrap_add_l (s a b : Z) : wrap s (wrap s a + b) = wrap s (a + b).
Proof. apply Zplus_mod_idemp_l. Qed.

Lemma wrap_add_r (s a b : Z) : wrap s (a + wrap s b) = wrap s (a + b).
Proof. apply Zplus_mod_idemp_r. Qed.

Lemma wrap_mul_l (s a b : Z) : wrap s (wrap s a * b) = wrap s (a * b).
Proof. apply Zmult_mod_idemp_l. Qed.

Lemma wrap_mul_r (s a b : Z) : wrap s (a * wrap s b) = wrap s (a * b).
Proof. apply Zmult_mod_idemp_r. Qed.

Lemma wrap_opp (s a : Z) : valid_size s -> wrap s (a * (modulus s - 1)) = wrap s (- a).
Proof.
  intros Hs; replace (a * (modulus s - 1)) with (- a + a * modulus s) by ring; unfold wrap; apply Z_mod_plus_full.
Qed.

Lemma wrap_periodic (s a k : Z) : wrap s (a + k * modulus s) = wrap s a.
Proof. apply Z_mod_plus_full. Qed.

Lemma wrap_wrap (s a : Z) : wrap s (wrap s a) = wrap s a.
Proof. apply Zmod_mod. Qed.

Create Rewrite HintDb wrapping.
#[export] Hint Rewrite wrap_add_l wrap_add_r wrap_mul_l wrap_mul_r wrap_wrap : wrapping.

(** what is subtracted from a rounded value: one where the sign is set *)
Lemma opp_sign_word (s v : Z) : valid_size s -> wrap s (- sign_word s v) = if v <? modulus s / 2 then 0 else 1.
Proof.
  intros Hs; pose proof (modulus_ge s Hs); unfold sign_word; destruct (_ <? _); [reflexivity|].
  replace (- (modulus s - 1)) with (1 + (-1) * modulus s) by ring; rewrite wrap_periodic; apply wrap_small; unfold is_value; lia.
Qed.

Lemma signed_small (s v : Z) : 0 <= v < modulus s / 2 -> signed s v = v.
Proof. intros H; unfold signed; cmp; lia. Qed.

Lemma signed_two (s : Z) : valid_size s -> signed s 2 = 2.
Proof. intros Hs; pose proof (modulus_ge s Hs); pose proof (modulus_half s Hs); apply signed_small; lia. Qed.

(** half of a value, rounded towards zero *)
Lemma halve (s v : Z) : valid_size s -> is_value s v ->
  wrap s (signed s (wrap s (v + (if v <? modulus s / 2 then 0 else 1))) / 2 ^ 1) = wrap s (Z.quot (signed s v) 2).
Proof.
  intros Hs Hv; pose proof (modulus_ge s Hs) as Hg; pose proof (modulus_half s Hs) as Hh; unfold is_value in Hv; change (2 ^ 1) with 2.
  set (h := modulus s / 2) in *; destruct (Z.ltb_spec v h) as [Hlt|Hge].
  - rewrite Z.add_0_r, (wrap_small s v), (signed_small s v) by (fold h; unfold is_value; lia); by rewrite Z.quot_div_nonneg by lia.
  - f_equal; unfold signed at 2; fold h; destruct (Z.ltb_spec v h); [lia|]; destruct (Z.eq_dec v (modulus s - 1)) as [->|N].
    + replace (modulus s - 1 + 1) with (0 + 1 * modulus s) by ring; rewrite wrap_periodic, wrap_small, signed_small by (fold h; unfold is_value; lia).
      replace (modulus s - 1 - modulus s) with (-1) by ring; reflexivity.
    + rewrite wrap_small by (unfold is_value; lia); unfold signed; fold h; destruct (Z.ltb_spec (v + 1) h); [lia|].
      replace (v - modulus s) with (- (modulus s - v)) by ring; replace (v + 1 - modulus s) with (1 - (modulus s - v)) by ring.
      rewrite Z.quot_opp_l by lia; rewrite Z.quot_div_nonneg by lia; Z.to_euclidean_division_equations; lia.
Qed.

(** ** Chains of divisions *)

Lemma mostsigbit_log2 (v : Z) : 0 < v -> mostsigbit_set v = Z.log2 v.
Proof. intros H; unfold mostsigbit_set, u64_leading_zeros; destruct (Z.eqb_spec v 0); lia. Qed.

(** two factors of few enough bits *)
Lemma product_bound (a b n : Z) : 0 < a -> 0 < b -> Z.log2 a + Z.log2 b + 2 <= n -> 0 < a * b < 2 ^ n.
Proof.
  intros Ha Hb Hn; pose proof (Z.log2_spec a Ha) as [_ La]; pose proof (Z.log2_spec b Hb) as [_ Lb].
  pose proof (Z.log2_nonneg a); pose proof (Z.log2_nonneg b); split; [nia|].
  apply Z.lt_le_trans with (2 ^ Z.succ (Z.log2 a) * 2 ^ Z.succ (Z.log2 b)); [nia|].
  rewrite <- Z.pow_add_r by lia; apply Z.pow_le_mono_r; lia.
Qed.

Lemma land_calc_mask (s v : Z) : valid_size s -> Z.land (w64 v) (calc_mask s) = wrap s v.
Proof. intros Hs; unfold valid_size, wrap, modulus in *; by rewrite calc_mask_ones, land_ones_w64 by lia. Qed.

Lemma half_pow (s : Z) : valid_size s -> modulus s / 2 = 2 ^ (8 * s - 1).
Proof.
  intros Hs; pose proof (modulus_half s Hs) as Hh.
  assert (modulus s = 2 * 2 ^ (8 * s - 1)) by (unfold modulus, valid_size in *; rewrite <- Z.pow_succ_r by lia; f_equal; lia); lia.
Qed.

Lemma testbit_top (n v : Z) : 0 <= n -> 0 <= v < 2 * 2 ^ n -> Z.testbit v n = (2 ^ n <=? v).
Proof.
  intros Hn Hv; rewrite Z.testbit_eqb by done; pose proof (Z.pow_pos_nonneg 2 n ltac:(lia) ltac:(lia)).
  destruct (Z.leb_spec (2 ^ n) v).
  - replace (v / 2 ^ n) with 1 by (apply Z.div_unique with (r := v - 2 ^ n); lia); reflexivity.
  - rewrite Z.div_small by lia; reflexivity.
Qed.

Lemma signbit_half (s v : Z) : valid_size s -> is_value s v -> signbit_negative v s = (modulus s / 2 <=? v).
Proof.
  intros Hs Hv; rewrite half_pow by done; pose proof (half_pow s Hs) as Hh; pose proof (modulus_half s Hs) as Hm; unfold signbit_negative, valid_size, is_value in *.
  destruct (Z.eqb_spec s 0); [lia|].
  assert (E : u64_checked_shl0 128 (8 * (s - 1)) = 2 ^ (8 * s - 1)).
  { unfold u64_checked_shl0, u64_shl; destruct (Z.ltb_spec (8 * (s - 1)) 64); [|lia]; rewrite Z.mod_small, Z.shiftl_mul_pow2 by lia.
    change 128 with (2 ^ 7); rewrite <- Z.pow_add_r by lia; replace (7 + 8 * (s - 1)) with (8 * s - 1) by lia.
    apply w64_small; split; [lia|]; apply Z.pow_lt_mono_r; lia. }
  rewrite E; replace (8 * s - 1) with (Z.of_nat (Z.to_nat (8 * s - 1))) by lia.
  change (has v (2 ^ Z.of_nat (Z.to_nat (8 * s - 1))) = (2 ^ Z.of_nat (Z.to_nat (8 * s - 1)) <=? v)); rewrite has_bit, Z2Nat.id by lia.
  apply testbit_top; lia.
Qed.

(** [magnitude]: the absolute value of the signed reading *)
Lemma magnitude_abs (s v : Z) : valid_size s -> is_value s v -> magnitude v s = Z.abs (signed s v).
Proof.
  intros Hs Hv; unfold magnitude; rewrite (signbit_half s v Hs Hv), land_calc_mask by done; pose proof (modulus_half s Hs) as Hh; unfold is_value in Hv.
  unfold signed; set (h := modulus s / 2) in *; destruct (Z.leb_spec h v), (Z.ltb_spec v h); try lia.
  replace (- v) with (modulus s - v + (-1) * modulus s) by ring; rewrite wrap_periodic, wrap_small by (unfold is_value; lia); lia.
Qed.

Lemma signed_bounds (s v : Z) : valid_size s -> is_value s v -> - 2 ^ (8 * s - 1) <= signed s v < 2 ^ (8 * s - 1).
Proof. intros Hs Hv; pose proof (signed_range s v Hs Hv); by rewrite <- half_pow. Qed.

(** a signed number within the range of its size *)
Lemma signed_of_wrap (s z : Z) : valid_size s -> - 2 ^ (8 * s - 1) <= z < 2 ^ (8 * s - 1) -> signed s (wrap s z) = z.
Proof.
  intros Hs Hz; pose proof (modulus_half s Hs) as Hh; rewrite half_pow in Hh by done; unfold signed; rewrite half_pow by done.
  destruct (Z.lt_ge_cases z 0) as [Hn|Hn].
  - assert (E : wrap s z = z + modulus s) by (unfold wrap; symmetry; apply Z.mod_unique with (-1); lia); rewrite E.
    destruct (Z.ltb_spec (z + modulus s) (2 ^ (8 * s - 1))); lia.
  - rewrite wrap_small by (unfold is_value; lia); destruct (Z.ltb_spec z (2 ^ (8 * s - 1))); lia.
Qed.

Lemma wrap_signed (s v : Z) : valid_size s -> is_value s v -> wrap s (signed s v) = v.
Proof.
  intros Hs Hv; unfold signed; destruct (_ <? _); [by apply wrap_small|].
  replace (v - modulus s) with (v + (-1) * modulus s) by ring; rewrite wrap_periodic; by apply wrap_small.
Qed.

(** the quotient of a word stays in range, unless the least number is divided by -1 *)
Lemma quotient_range (n x c : Z) : 0 <= n -> - 2 ^ n <= x < 2 ^ n -> c <> 0 -> c <> -1 -> - 2 ^ n <= Z.quot x c < 2 ^ n.
Proof.
  intros Hn Hx Hc Hc'; destruct (Z.eq_dec c 1) as [->|N]; [by rewrite Z.quot_1_r|].
  assert (Z.abs (Z.quot x c) * 2 <= 2 ^ n).
  { rewrite <- Z.quot_abs by done; rewrite Z.quot_div_nonneg by lia.
    pose proof (Z.mul_div_le (Z.abs x) (Z.abs c) ltac:(lia)); pose proof (Z.div_pos (Z.abs x) (Z.abs c) ltac:(lia) ltac:(lia)); nia. }
  pose proof (Z.pow_pos_nonneg 2 n ltac:(lia) ltac:(lia)); lia.
Qed.

(** the product a chain divides by, as [RuleDivChain] computes it *)
Definition chain_product (s v1 v2 : Z) : Z := Z.land (u64_mul v1 v2) (calc_mask s).

Lemma chain_product_wrap (s v1 v2 : Z) : valid_size s -> chain_product s v1 v2 = wrap s (v1 * v2).
Proof. intros Hs; unfold chain_product, u64_mul; by apply land_calc_mask. Qed.

Lemma chain_product_value (s v1 v2 : Z) : valid_size s -> is_value s (chain_product s v1 v2).
Proof. intros Hs; rewrite chain_product_wrap by done; by apply wrap_value. Qed.

Definition chain_bits (s v1 v2 : Z) : Z := mostsigbit_set (magnitude v1 s) + mostsigbit_set (magnitude v2 s) + 2.

Lemma chain_magnitudes (s v1 v2 n : Z) : valid_size s -> is_value s v1 -> is_value s v2 -> v1 <> 0 -> v2 <> 0 -> chain_bits s v1 v2 <= n ->
  0 < Z.abs (signed s v1) * Z.abs (signed s v2) < 2 ^ n.
Proof.
  intros Hs H1 H2 N1 N2 Hn; unfold chain_bits in Hn; rewrite !magnitude_abs in Hn by done.
  assert (Hp : forall v, is_value s v -> v <> 0 -> 0 < Z.abs (signed s v)).
  { intros v Hv Nv; pose proof (wrap_signed s v Hs Hv) as E; destruct (Z.eq_dec (signed s v) 0) as [Z0|]; [|lia].
    rewrite Z0 in E; unfold wrap in E; rewrite Z.mod_0_l in E by (pose proof (modulus_pos s Hs); lia); lia. }
  pose proof (Hp v1 H1 N1); pose proof (Hp v2 H2 N2); rewrite !mostsigbit_log2 in Hn by done; by apply product_bound.
Qed.

Lemma chain_nonzero (s v1 v2 : Z) : valid_size s -> chain_product s v1 v2 <> 0 -> v1 <> 0 /\ v2 <> 0.
Proof.
  intros Hs H; pose proof (modulus_pos s Hs); rewrite chain_product_wrap in H by done.
  assert (wrap s 0 = 0) by (apply Z.mod_0_l; lia); split; intros ->; apply H; [done|by rewrite Z.mul_0_r].
Qed.

(** two unsigned divisions, by divisors without the sign bit *)
Lemma chain_unsigned (s x c1 c2 : Z) : valid_size s -> is_value s x -> is_value s c1 -> is_value s c2 ->
  Z.abs (signed s c1) = c1 -> Z.abs (signed s c2) = c2 -> chain_product s c1 c2 <> 0 -> chain_bits s c1 c2 <= 8 * s ->
  eval2 IntDiv s s s x (chain_product s c1 c2) = Some (wrap s (wrap s (x / c1) / c2)).
Proof.
  intros Hs Hx H1 H2 A1 A2 Np Hb; destruct (chain_nonzero s c1 c2 Hs Np) as [N1 N2].
  pose proof (chain_magnitudes s c1 c2 (8 * s) Hs H1 H2 N1 N2 Hb) as Hp; rewrite A1, A2 in Hp; fold (modulus s) in Hp.
  assert (Ep : chain_product s c1 c2 = c1 * c2) by (rewrite chain_product_wrap by done; apply wrap_small; unfold is_value; lia); rewrite Ep in *.
  unfold is_value in *; cbn; destruct (Z.eqb_spec (c1 * c2) 0); [done|].
  assert (Hq : is_value s (x / c1)) by (split; [apply Z.div_pos; lia|apply Z.le_lt_trans with x; [apply Z.div_le_upper_bound; nia|lia]]).
  by rewrite (wrap_small s (x / c1) Hq), Z.div_div by lia.
Qed.

(** a shift and a division *)
Lemma chain_shift (s x k c2 : Z) : valid_size s -> is_value s x -> 0 <= k < 2 ^ 32 -> is_value s c2 -> Z.abs (signed s c2) = c2 ->
  let c1 := u64_checked_shl0 1 (w32 k) in
  chain_product s c1 c2 <> 0 -> chain_bits s c1 c2 <= 8 * s ->
  eval2 IntDiv s s s x (chain_product s c1 c2) = Some (wrap s (wrap s (x / 2 ^ k) / c2)).
Proof.
  intros Hs Hx Hk H2 A2 c1 Np Hb; destruct (chain_nonzero s c1 c2 Hs Np) as [N1 N2].
  assert (Ek : w32 k = k) by (apply Z.mod_small; lia); unfold c1, u64_checked_shl0 in *; rewrite Ek in *; destruct (Z.ltb_spec k 64) as [L|]; [|done].
  assert (E1 : u64_shl 1 k = 2 ^ k).
  { unfold u64_shl; rewrite (Z.mod_small k), Z.shiftl_1_l by lia; apply w64_small; split; [lia|by apply Z.pow_lt_mono_r]. }
  rewrite E1 in *; assert (Hlt : k < 8 * s).
  { destruct (Z.lt_ge_cases k (8 * s)) as [|Hge]; [done|exfalso; apply Np; rewrite chain_product_wrap by done].
    replace (2 ^ k * c2) with (0 + (2 ^ (k - 8 * s) * c2) * modulus s).
    - rewrite wrap_periodic; apply Z.mod_0_l; pose proof (modulus_pos s Hs); lia.
    - unfold modulus, valid_size in *; replace (2 ^ k) with (2 ^ (k - 8 * s) * 2 ^ (8 * s)) by (rewrite <- Z.pow_add_r by lia; f_equal; lia); ring. }
  assert (H1 : is_value s (2 ^ k)) by (unfold is_value, modulus; split; [lia|apply Z.pow_lt_mono_r; lia]).
  apply (chain_unsigned s x (2 ^ k) c2); try done; unfold signed; rewrite half_pow by done.
  destruct (Z.ltb_spec (2 ^ k) (2 ^ (8 * s - 1))) as [L'|L']; [lia|].
  apply Z.pow_le_mono_r_iff in L'; [|lia|lia]; assert (k = 8 * s - 1) as -> by lia; pose proof (modulus_half s Hs) as Hh; rewrite half_pow in Hh by done; lia.
Qed.

(** two signed divisions; the first does not overflow *)
Lemma chain_signed (s x c1 c2 : Z) : valid_size s -> is_value s x -> is_value s c1 -> is_value s c2 -> c1 <> modulus s - 1 ->
  chain_product s c1 c2 <> 0 -> chain_bits s c1 c2 <= 8 * s - 2 ->
  eval2 IntSdiv s s s x (chain_product s c1 c2) = Some (wrap s (Z.quot (signed s (wrap s (Z.quot (signed s x) (signed s c1)))) (signed s c2))).
Proof.
  intros Hs Hx H1 H2 Nm Np Hb; destruct (chain_nonzero s c1 c2 Hs Np) as [N1 N2]; pose proof (modulus_half s Hs) as Hh.
  pose proof (chain_magnitudes s c1 c2 (8 * s - 2) Hs H1 H2 N1 N2 Hb) as Hp; rewrite <- Z.abs_mul in Hp.
  assert (Hpow : 2 ^ (8 * s - 2) <= 2 ^ (8 * s - 1)) by (apply Z.pow_le_mono_r; unfold valid_size in *; lia).
  assert (Es : signed s (wrap s (c1 * c2)) = signed s c1 * signed s c2).
  { replace (wrap s (c1 * c2)) with (wrap s (signed s c1 * signed s c2)); [apply signed_of_wrap; [done|lia]|].
    rewrite <- (wrap_signed s c1) at 2 by done; rewrite <- (wrap_signed s c2) at 2 by done; by autorewrite with wrapping. }
  pose proof (chain_product_wrap s c1 c2 Hs) as Ep.
  cbn; destruct (Z.eqb_spec (chain_product s c1 c2) 0); [done|]; rewrite Ep, Es.
  assert (M1 : signed s c1 <> -1) by (intros E; apply Nm; rewrite <- (wrap_signed s c1), E by done; unfold wrap; symmetry; apply Z.mod_unique with (-1); pose proof (modulus_pos s Hs); lia).
  rewrite signed_of_wrap; [|done|apply quotient_range; [unfold valid_size in *; lia|by apply signed_bounds|lia|done]].
  by rewrite Z.quot_quot by lia.
Qed.

Lemma i32_bits (s : Z) : valid_size s -> i32 (w32 (s * 8)) = 8 * s.
Proof.
  unfold valid_size; intros H; assert (s = 1 \/ s = 2 \/ s = 3 \/ s = 4 \/ s = 5 \/ s = 6 \/ s = 7 \/ s = 8) as Hs by lia.
  destruct Hs as [->|[->|[->|[->|[->|[->|[->| ->]]]]]]]; reflexivity.
Qed.

(** ** Rounding to a multiple of a power of two *)

(** [-1 << n] at the size, as [RuleSignNearMult] computes it *)
Definition high_mask (s n : Z) : Z := Z.land (u64_shl (calc_mask s) (w32 n)) (calc_mask s).

Lemma land_high_mask (s n v : Z) : valid_size s -> 0 <= n < 64 -> is_value s v -> Z.land v (high_mask s n) = v / 2 ^ n * 2 ^ n.
Proof.
  intros Hs Hn Hv; unfold high_mask, valid_size, is_value, modulus in *; rewrite <- Z.shiftr_div_pow2, <- Z.shiftl_mul_pow2 by lia.
  rewrite calc_mask_ones by lia; unfold u64_shl, w32; rewrite (Z.mod_small n 4294967296), (Z.mod_small n 64) by lia.
  unfold w64; change 18446744073709551616 with (2 ^ 64); apply Z.bits_inj'; intros i Hi; rewrite Z.land_spec, Z.land_spec, <- Z.land_ones, Z.land_spec by lia.
  assert (Hb : 8 * s <= i -> Z.testbit v i = false).
  { intros Hge; destruct (Z.eq_dec v 0) as [->|]; [apply Z.bits_0|]; apply Z.bits_above_log2; [lia|]; apply Z.log2_lt_pow2; [lia|].
    apply Z.lt_le_trans with (2 ^ (8 * s)); [lia|]; apply Z.pow_le_mono_r; lia. }
  destruct (Z.lt_ge_cases i n) as [L|L].
  - rewrite (Z.shiftl_spec_low _ _ i L), Z.shiftl_spec_low by done; cbn; apply andb_false_r.
  - rewrite !Z.shiftl_spec, Z.shiftr_spec by lia; replace (i - n + n) with i by ring.
    destruct (Z.lt_ge_cases i (8 * s)) as [L'|L']; [|by rewrite Hb].
    rewrite !Z.ones_spec_low by lia; cbn; apply andb_true_r.
Qed.

Lemma modulus_parts (s n : Z) : valid_size s -> 0 <= n <= 8 * s -> modulus s = 2 ^ n * 2 ^ (8 * s - n).
Proof. intros Hs Hn; unfold modulus; rewrite <- Z.pow_add_r by (unfold valid_size in *; lia); f_equal; lia. Qed.

(** the correction of a negative value before it is rounded *)
Lemma sign_correction (s n v : Z) : valid_size s -> 0 <= n <= 8 * s -> sign_word s v / 2 ^ (8 * s - n) = if v <? modulus s / 2 then 0 else 2 ^ n - 1.
Proof.
  intros Hs Hn; pose proof (modulus_parts s n Hs Hn) as Em; pose proof (Z.pow_pos_nonneg 2 (8 * s - n) ltac:(lia) ltac:(lia)) as Hp.
  unfold sign_word; destruct (_ <? _); [by apply Z.div_0_l; lia|].
  symmetry; apply Z.div_unique with (r := 2 ^ (8 * s - n) - 1); [lia|]; rewrite Em; ring.
Qed.

(** the signed reading of the power, up to sign *)
Lemma signed_power (s n : Z) : valid_size s -> 0 <= n < 8 * s -> signed s (2 ^ n) = if n =? 8 * s - 1 then - 2 ^ n else 2 ^ n.
Proof.
  intros Hs Hn; pose proof (modulus_half s Hs) as Hh; unfold signed; rewrite half_pow in Hh |- * by done; destruct (Z.eqb_spec n (8 * s - 1)) as [->|N].
  - rewrite Z.ltb_irrefl; lia.
  - assert (2 ^ n < 2 ^ (8 * s - 1)) by (apply Z.pow_lt_mono_r; lia); destruct (Z.ltb_spec (2 ^ n) (2 ^ (8 * s - 1))); lia.
Qed.

Lemma near_mult (s n v : Z) : valid_size s -> 0 < n < 8 * s -> is_value s v ->
  Z.land (wrap s (v + wrap s (sign_word s v / 2 ^ (8 * s - n)))) (high_mask s n) =
  wrap s (wrap s (Z.quot (signed s v) (signed s (2 ^ n))) * 2 ^ n).
Proof.
  intros Hs Hn Hv; rewrite wrap_add_r, sign_correction, land_high_mask, wrap_mul_l, signed_power by (try lia; try done; try (unfold valid_size in *; lia); by apply wrap_value).
  pose proof (modulus_half s Hs) as Hh; rewrite half_pow in Hh by done; pose proof (modulus_parts s n Hs ltac:(lia)) as Em.
  unfold is_value in Hv; unfold signed; rewrite half_pow by done; pose proof (Z.pow_pos_nonneg 2 n ltac:(lia) ltac:(lia)) as Hp.
  set (p := 2 ^ n) in *; set (h := 2 ^ (8 * s - 1)) in *; set (m := modulus s) in *.
  assert (Ht : n = 8 * s - 1 -> p = h) by (intros ->; done).
  destruct (Z.ltb_spec v h) as [L|L].
  - rewrite Z.add_0_r, wrap_small by (unfold is_value; fold m; lia); destruct (Z.eqb_spec n (8 * s - 1)) as [E|_].
    + rewrite Ht in * by done; rewrite Z.div_small, Z.quot_opp_r, Z.quot_small by lia; unfold wrap; rewrite Z.mod_0_l; [done|fold m; lia].
    + rewrite Z.quot_div_nonneg, wrap_small by (try lia; unfold is_value; fold m; pose proof (Z.mul_div_le v p ltac:(lia)); pose proof (Z.div_pos v p ltac:(lia) ltac:(lia)); nia); done.
  - replace (v - m) with (- (m - v)) by ring; set (u := m - v) in *; assert (Hu : 0 < u <= h) by lia; replace v with (m - u) in * by (unfold u; ring); clearbody u.
    pose proof (Z.mul_div_le u p ltac:(lia)) as D1; pose proof (Z.div_mod u p ltac:(lia)) as D2; pose proof (Z.mod_pos_bound u p ltac:(lia)) as D3; set (q := u / p) in *; set (e := u mod p) in *; clearbody q e.
    assert (EL : wrap s (m - u + (p - 1)) / p * p = if u <? p then 0 else m - q * p).
    { destruct (Z.ltb_spec u p).
      - replace (m - u + (p - 1)) with (p - 1 - u + 1 * modulus s) by (fold m; ring); rewrite wrap_periodic, wrap_small by (unfold is_value; fold m; nia).
        rewrite Z.div_small by lia; ring.
      - rewrite wrap_small by (unfold is_value; fold m; lia).
        replace ((m - u + (p - 1)) / p) with (2 ^ (8 * s - n) - q); [rewrite Em; ring|].
        apply Z.div_unique with (r := p - 1 - e); [lia|]; rewrite Em; lia. }
    rewrite EL; clear EL; destruct (Z.eqb_spec n (8 * s - 1)) as [E|_].
    + rewrite Ht in * by done; rewrite Z.quot_opp_opp, Z.quot_div_nonneg by lia.
      destruct (Z.ltb_spec u h); [rewrite Z.div_small by lia; unfold wrap; rewrite Z.mod_0_l; [done|fold m; lia]|].
      assert (u = h) as -> by lia; rewrite Z.div_same, Z.mul_1_l, wrap_small by (try lia; unfold is_value; fold m; lia); assert (q = 1) as -> by nia; lia.
    + rewrite Z.quot_opp_l, Z.quot_div_nonneg by lia; replace (u / p) with q by (apply Z.div_unique with (r := e); lia).
      destruct (Z.ltb_spec u p).
      * assert (q = 0) as -> by nia; unfold wrap; rewrite Z.mod_0_l; [done|fold m; lia].
      * unfold wrap; apply Z.mod_unique with (-1); fold m; [left; nia|ring].
Qed.

Lemma i64_pos (c : Z) : 0 <= c < 2 ^ 64 -> 0 < i64 c -> i64 c = c /\ c < 2 ^ 63.
Proof. unfold i64; intros H; rewrite w64_small by done; cmp; lia. Qed.

Lemma value_u64 (s c : Z) : valid_size s -> is_value s c -> 0 <= c < 2 ^ 64.
Proof. intros Hs [H1 H2]; pose proof (modulus_ge s Hs); lia. Qed.

Lemma i64_id (z : Z) : - 2 ^ 63 <= z < 2 ^ 63 -> i64 z = z.
Proof. intros H; rewrite <- (i64_small z H) at 2; unfold i64; by rewrite w64_w64. Qed.

(** ** Opposites and remainders *)

Lemma wrap_opp_wrap (s a : Z) : wrap s (- wrap s a) = wrap s (- a).
Proof. replace (- wrap s a) with (- 1 * wrap s a) by ring; rewrite wrap_mul_r; f_equal; ring. Qed.

Lemma opposite_opposite (s v : Z) : is_value s v -> wrap s (- wrap s (- v)) = v.
Proof. intros Hv; rewrite wrap_opp_wrap, Z.opp_involutive; by apply wrap_small. Qed.

Lemma high_bit (n v i : Z) : 0 <= n <= i -> 0 <= v < 2 ^ n -> Z.testbit v i = false.
Proof.
  intros Hi Hv; destruct (Z.eq_dec v 0) as [->|]; [apply Z.testbit_0_l|]; apply Z.bits_above_log2; [lia|].
  pose proof (proj1 (Z.log2_lt_pow2 v n ltac:(lia)) (proj2 Hv)); lia.
Qed.

(** the complement of a value within its bits *)
Lemma lxor_ones (n v : Z) : 0 <= n -> 0 <= v < 2 ^ n -> Z.lxor v (Z.ones n) = 2 ^ n - 1 - v.
Proof.
  intros Hn Hv; replace (2 ^ n - 1) with (Z.ones n) by (rewrite Z.ones_equiv; lia); rewrite Z.lxor_comm, Z.sub_nocarry_ldiff; apply Z.bits_inj'; intros i Hi.
  - rewrite Z.ldiff_spec, Z.lxor_spec; destruct (Z.lt_ge_cases i n); [rewrite Z.ones_spec_low by lia; by destruct (Z.testbit v i)|].
    by rewrite Z.ones_spec_high, (high_bit n v i) by lia.
  - rewrite Z.ldiff_spec, Z.bits_0; destruct (Z.lt_ge_cases i n); [rewrite Z.ones_spec_low by lia; apply andb_false_r|].
    by rewrite (high_bit n v i) by lia.
Qed.

(** the opposite of a constant, as the rules compute it *)
Lemma negate_const (s k : Z) : valid_size s -> is_value s k -> Z.land (u64_add (Z.lxor k (calc_mask s)) 1) (calc_mask s) = wrap s (- k).
Proof.
  intros Hs Hk; unfold u64_add; rewrite land_calc_mask by done; unfold valid_size, is_value in *.
  rewrite calc_mask_ones, lxor_ones by (unfold modulus in *; lia); fold (modulus s).
  replace (modulus s - 1 - k + 1) with (- k + 1 * modulus s) by ring; apply wrap_periodic.
Qed.

(** a value less the multiple of the divisor that its quotient counts *)
Lemma mod_unsigned (s x d : Z) : is_value s x -> wrap s (wrap s (wrap s (x / d) * wrap s (- d)) + x) = wrap s (x mod d).
Proof.
  intros Hx; autorewrite with wrapping; f_equal; destruct (Z.eq_dec d 0) as [->|N]; [by rewrite Z.mod_0_r; ring|].
  rewrite Z.mod_eq by done; ring.
Qed.

Lemma mod_signed (s x d : Z) : valid_size s -> is_value s x -> is_value s d ->
  wrap s (wrap s (wrap s (Z.quot (signed s x) (signed s d)) * wrap s (- d)) + x) = wrap s (Z.rem (signed s x) (signed s d)).
Proof.
  intros Hs Hx Hd; rewrite <- (wrap_signed s x) at 2 by done; rewrite <- (wrap_signed s d) at 2 by done; rewrite wrap_opp_wrap; autorewrite with wrapping; f_equal.
  pose proof (Z.quot_rem' (signed s x) (signed s d)); lia.
Qed.

(** ** Remainders modulo two *)

Lemma high_mask_one (s : Z) : valid_size s -> high_mask s 1 = modulus s - 2.
Proof.
  intros Hs; unfold high_mask, u64_shl; rewrite land_calc_mask by done; pose proof (modulus_ge s Hs); unfold valid_size in Hs.
  rewrite calc_mask_ones, Z.ones_equiv, Z.shiftl_mul_pow2 by (unfold w32; try lia; by apply Z.mod_pos_bound); fold (modulus s).
  replace (Z.pred (modulus s) * 2 ^ (w32 1 mod 64)) with (modulus s - 2 + 1 * modulus s) by (change (w32 1 mod 64) with 1; lia).
  rewrite wrap_periodic; apply wrap_small; unfold is_value; lia.
Qed.

(** a value less the even value next to it, towards zero *)
Lemma mod_two_even (s v : Z) : valid_size s -> is_value s v ->
  wrap s (v + wrap s (- Z.land (wrap s (v + (if v <? modulus s / 2 then 0 else 1))) (modulus s - 2))) = wrap s (Z.rem (signed s v) 2).
Proof.
  intros Hs Hv; pose proof (near_mult s 1 v Hs ltac:(unfold valid_size in *; lia) Hv) as E.
  rewrite high_mask_one, (sign_correction s 1 v), wrap_add_r, signed_two in E by (try done; unfold valid_size in *; lia).
  change (if v <? modulus s / 2 then 0 else 2 ^ 1 - 1) with (if v <? modulus s / 2 then 0 else 1) in E; rewrite E, wrap_opp_wrap, wrap_add_r.
  rewrite Z.rem_eq by done; rewrite <- (wrap_signed s v) at 1 by done; rewrite wrap_add_l, <- Z.mul_opp_r, <- wrap_add_r, wrap_mul_l, wrap_add_r; f_equal; change (2 ^ 1) with 2; ring.
Qed.

(** the parity of a value, with the sign of the value *)
Lemma mod_two_odd (s v : Z) : valid_size s -> is_value s v ->
  wrap s ((v + (if v <? modulus s / 2 then 0 else 1)) mod 2 + sign_word s v) = wrap s (Z.rem (signed s v) 2).
Proof.
  intros Hs Hv; pose proof (modulus_half s Hs) as Hh; pose proof (modulus_ge s Hs); unfold sign_word, signed, is_value in *; destruct (Z.ltb_spec v (modulus s / 2)).
  - rewrite !Z.add_0_r, Z.rem_mod_nonneg by lia; done.
  - replace (v - modulus s) with (- (modulus s - v)) by ring; rewrite Z.rem_opp_l, Z.rem_mod_nonneg by lia.
    replace ((v + 1) mod 2 + (modulus s - 1)) with ((v + 1) mod 2 - 1 + 1 * modulus s) by ring; rewrite wrap_periodic; f_equal.
    replace (modulus s - v) with (- v + modulus s / 2 * 2) by lia; rewrite Z.mod_add by lia.
    pose proof (Z.div_mod (v + 1) 2 ltac:(lia)); pose proof (Z.mod_pos_bound (v + 1) 2 ltac:(lia)).
    assert ((- v) mod 2 = 1 - (v + 1) mod 2) as ->; [|ring]; symmetry; apply Z.mod_unique with (- ((v + 1) / 2)); [left|]; lia.
Qed.

Lemma wrap_parity (s v : Z) : valid_size s -> wrap s v mod 2 = v mod 2.
Proof. intros Hs; unfold wrap; apply Z.mod_mod_divide; exists (modulus s / 2); pose proof (modulus_half s Hs); lia. Qed.

Lemma i64_value (s c n : Z) : valid_size s -> is_value s c -> i64 c = n -> 0 < n -> c = n.
Proof. intros Hs Hc E Hn; destruct (i64_pos c (value_u64 s c Hs Hc)); lia. Qed.

(** the sign of a value is the sign of its high part *)
Lemma high_part_value (s k v : Z) : valid_size s -> 1 <= k <= s -> is_value s v -> wrap k (v / 2 ^ (8 * (s - k))) = v / 2 ^ (8 * (s - k)).
Proof.
  intros Hs Hk Hv; apply wrap_small; unfold is_value, modulus in *; split; [apply Z.div_pos; [lia|apply Z.pow_pos_nonneg; lia]|].
  apply Z.div_lt_upper_bound; [apply Z.pow_pos_nonneg; lia|]; rewrite <- Z.pow_add_r by lia; replace (8 * (s - k) + 8 * k) with (8 * s) by ring; apply Hv.
Qed.

Lemma high_part_sign (s k v : Z) : valid_size s -> 1 <= k <= s -> is_value s v ->
  (wrap k (v / 2 ^ (8 * (s - k))) <? modulus k / 2) = (v <? modulus s / 2).
Proof.
  intros Hs Hk Hv; rewrite high_part_value by done; unfold valid_size in *; rewrite !half_pow by (unfold valid_size; lia).
  pose proof (Z.pow_pos_nonneg 2 (8 * (s - k)) ltac:(lia) ltac:(lia)) as Hp.
  assert (E : 2 ^ (8 * s - 1) = 2 ^ (8 * (s - k)) * 2 ^ (8 * k - 1)) by (rewrite <- Z.pow_add_r by lia; f_equal; lia).
  destruct (Z.ltb_spec v (2 ^ (8 * s - 1))) as [L|L]; rewrite E in L; [apply Z.ltb_lt; by apply Z.div_lt_upper_bound|].
  apply Z.ltb_ge; apply Z.div_le_lower_bound; lia.
Qed.
