(* ===== verification/DivRulesSound.v ===== *)
(** Soundness of the rules that recover divisions. *)
From Stdlib Require Import ZArith Lia Bool List.
From stdpp Require Import base decidable option list strings gmap numbers tactics.
From S2P Require Import Prelude Space OpCode BitUtil PcodeSem Funcdata FuncdataLinks FuncdataEdits FuncdataRemove FuncdataBlocks FuncdataTheorems FuncdataBuild RuleBase Divopt DivRules Valuation ValuationEdits Rewrite RuleFacts RuleArith.
Local Open Scope Z_scope.
Local Open Scope match_scope.

Section Matches.
Context (f : funcdata) (W : wf f) (T : typed f).

(** the sign of a value, and the opposite of a value *)
Lemma sign_solved (o : nat) (p : pcode_op) (a b r : nat) (x y z : varnode) : binop f o p a b r x y z -> opc p = IntSright ->
  is_constant y = true -> constant_value y = sign_bit x ->
  size x = size z /\ forall rho, solution f rho -> vval rho r z = sign_word (size z) (vval rho a x).
Proof.
  intros B Ec Hc Hv; pose proof (shift_sizes _ _ _ _ _ _ _ _ _ B ltac:(by rewrite Ec)) as Es; split; [done|]; intros rho Hs.
  pose proof (bo_a _ _ _ _ _ _ _ _ _ B) as Oa; operand_parts Oa; pose proof (binop_solved _ _ _ _ _ _ _ _ _ _ rho B Ec eq_refl Hs) as E.
  cbn in E; injection E as <-; rewrite (vval_const _ b y Hc), Hv, sign_bit_eq, <- Es by done; apply sright_sign; [done|by eapply operand_fits].
Qed.

Lemma opposite_solved (o : nat) (p : pcode_op) (a b r : nat) (x y z : varnode) : binop f o p a b r x y z -> opc p = IntMult ->
  is_constant y = true -> constant_value y = calc_mask (size y) ->
  size x = size z /\ forall rho, solution f rho -> vval rho r z = wrap (size z) (- vval rho a x).
Proof.
  intros B Ec Hc Hv; destruct (uniform_sizes _ _ _ _ _ _ _ _ _ B ltac:(by rewrite Ec)) as [Sx Sy]; split; [done|]; intros rho Hs.
  pose proof (bo_b _ _ _ _ _ _ _ _ _ B) as Ob; operand_parts Ob; pose proof (binop_solved _ _ _ _ _ _ _ _ _ _ rho B Ec eq_refl Hs) as E.
  cbn in E; injection E as <-; rewrite (minus_one y rho b), Sy; [|done|by unfold is_minus_one; rewrite Hc, Hv; apply Z.eqb_eq].
  apply wrap_opp; by rewrite <- Sy.
Qed.

Lemma check_sign_extraction_finds (v : nat) (x : varnode) : operand f v x ->
  finds (check_sign_extraction f v) (fun a => exists xa, operand f a xa /\ size xa = size x /\
    forall rho, solution f rho -> vval rho v x = sign_word (size xa) (vval rho a xa)).
Proof.
  intros Hx; operand_parts Hx; unfold check_sign_extraction; follow W T; apply finds_some; exists xa.
  destruct (sign_solved _ _ _ _ _ _ _ _ B ltac:(done) ltac:(done) ltac:(done)) as [Es E].
  split; [done|]; split; [done|]; rewrite Es; exact E.
Qed.

(** ** [RuleSignDiv2] *)

Lemma sign_div2_term_finds (add : pcode_op) (addop a b r i : nat) (x y z : varnode) : binop f addop add a b r x y z -> opc add = IntAdd -> (i < 2)%nat ->
  finds (sign_div2_term f add i) (fun v => exists xv, operand f v xv /\ is_free xv = false /\ size xv = size z /\
    forall rho, solution f rho -> vval rho r z = wrap (size z) (vval rho v xv + (if vval rho v xv <? modulus (size z) / 2 then 0 else 1))).
Proof.
  intros B Ec Hi; destruct (add_slot _ _ _ _ _ _ _ _ _ _ B Ec Hi) as (u & w & xu & xw & Iu & Iw & Ou & Ow & Su & Sw & Eadd).
  operand_parts Ou; operand_parts Ow; unfold sign_div2_term; follow W T; apply finds_some.
  destruct (opposite_solved _ _ _ _ _ _ _ _ B0 ltac:(done) ltac:(done) ltac:(done)) as [Sa Ea].
  destruct (sign_solved _ _ _ _ _ _ _ _ B1 ltac:(done) ltac:(done) ltac:(done)) as [Sb Eb].
  assert (a1 = w) as -> by congruence; assert (xa0 = xw) as -> by congruence; exists xw; split_and!; [done..|].
  intros rho Hs; rewrite (Eadd rho Hs), (Ea rho Hs), (Eb rho Hs), Su, Sa, Su, wrap_add_l, Z.add_comm, <- wrap_add_r, opp_sign_word; [done|by rewrite <- Su].
Qed.

Lemma sign_div2_match_finds (op : nat) (o : pcode_op) (a b r : nat) (x y z : varnode) : binop f op o a b r x y z -> opc o = IntSright ->
  finds (sign_div2_match f op) (fun v => exists xv, operand f v xv /\ size xv = size z /\
    forall rho, solution f rho -> eval2 IntSdiv (size z) (size z) (size z) (vval rho v xv) 2 = Some (vval rho r z)).
Proof.
  intros B Ec; pose proof (yd_op _ _ _ _ _ (bo_yields _ _ _ _ _ _ _ _ _ B)) as Ho; binop_parts B; unfold sign_div2_match; follow W T.
  destruct (def_binop f a d x p W T Hat Hop Hout ltac:(by rewrite G0)) as (u & w & xu & xw & Bp).
  pose proof (shift_sizes _ _ _ _ _ _ _ _ _ B ltac:(by rewrite Ec)) as Es.
  assert (Hterm : forall i, (i < 2)%nat -> finds (sign_div2_term f p i) (fun v => exists xv, operand f v xv /\ size xv = size z /\
    forall rho, solution f rho -> eval2 IntSdiv (size z) (size z) (size z) (vval rho v xv) 2 = Some (vval rho r z))); [|by apply finds_slot; apply Hterm; lia].
  intros i Hi; eapply finds_mono; [by eapply sign_div2_term_finds|]; intros v (xv & Ov & _ & Sv & Hv); exists xv; split_and!; [done|congruence|].
  intros rho Hs; pose proof (binop_solved _ _ _ _ _ _ _ _ _ _ rho B Ec eq_refl Hs) as E; cbn in E; injection E as <-.
  pose proof (on_size _ _ _ Ov) as Vv; rewrite (vval_const _ b y), H0, (Hv rho Hs), Es, halve by (rewrite ?H; try done; rewrite <- ?Es, <- ?Sv; try done; by eapply operand_fits).
  cbn; by rewrite signed_two by (by rewrite <- Es, <- Sv).
Qed.
End Matches.

#[export] Instance sign_div2_sound : Sound RuleSignDiv2.
Proof.
  intros f op W T Ht; destruct (target_binop _ f op W T Ht) as (o & a & b & r & x & y & z & B & Hc & _); [done|done|]; apply list_elem_of_singleton in Hc.
  cbn [apply_op RuleSignDiv2]; eapply fire_result; [done|done|by eapply sign_div2_match_finds|]; intros v (xv & Ov & Sv & Hg).
  pose proof (operand_size _ _ _ _ _ (bo_yields _ _ _ _ _ _ _ _ _ B)) as Vz; pose proof (modulus_ge _ Vz) as Mz.
  pose proof (editing_start f op _ _ _ W (binop_is _ _ _ _ _ _ _ _ _ B)) as E0.
  edit ltac:(eapply run_input; [exact E0|cbn; lia|apply src_at, Ov]); intros f1 E1; carry E1 Ov.
  edit ltac:(eapply run_const; exact E1); intros [c f2] [E2 S2].
  edit ltac:(eapply run_input; [exact E2|cbn; lia|exact S2]); intros f3 E3.
  edit ltac:(eapply run_opcode; exact E3); intros f4 E4; rewrite Sv in E4; cbn [insert list_insert] in E4.
  eapply const_result; [done|done|exact B|exact Ov|exact E4|done|unfold is_value; lia|done|done|exact Hg].
Qed.

(** ** [RuleDivChain] *)

(** The divisors of the chain at [op] for which the rule is right: unsigned, neither has its sign bit
    set, which the rule reads as signed; signed, the inner one is not -1, which overflows. *)
Definition chain_exact (c1 c2 : opcode) (s k1 k2 : Z) : bool :=
  match c2 with
  | IntDiv => (k2 <? modulus s / 2) && match c1 with IntRight => k1 <? 2 ^ 32 | _ => k1 <? modulus s / 2 end
  | _ => negb (k1 =? modulus s - 1)
  end.

Definition const_of (f : funcdata) (v : option nat) : Z := default 0 (x ← (v ≫= fun v => varnodes f !! v); Some (constant_value x)).

Definition div_chain_exact (f : funcdata) (op : nat) : bool :=
  default true (
    o ← ops f !! op; vn ← input o 0; x ← varnodes f !! vn; d ← vdef x; p ← ops f !! d;
    Some (chain_exact (opc p) (opc o) (size x) (const_of f (input p 1)) (const_of f (input o 1)))).

Lemma abs_signed_small (s v : Z) : 0 <= v < modulus s / 2 -> Z.abs (signed s v) = v.
Proof. intros H; rewrite signed_small by done; lia. Qed.

Section DivChain.
Context (f : funcdata) (W : wf f) (T : typed f).

(** the divisor the rule reads at the inner operation *)
Definition code_divisor (c c1 : opcode) (k1 : Z) : Z := if bool_decide (c1 = c) then k1 else u64_checked_shl0 1 (w32 k1).

(** the bits the product of the divisors may take *)
Definition chain_room (c : opcode) (s : Z) : Z := if bool_decide (c = IntDiv) then 8 * s else 8 * s - 2.

(** a division of [x], which [p] divides and only [o] reads *)
Record chain_found (o : pcode_op) (x y : varnode) (v : nat) (sz k : Z) (d : nat) (p : pcode_op) (a b' : nat) (xv xb : varnode) : Prop := ChainFound {
  cf_inner : binop f d p v b' a xv xb x;
  cf_code : opc p = opc o \/ opc o = IntDiv /\ opc p = IntRight;
  cf_consts : is_constant y = true /\ is_constant xb = true;
  cf_once : List.length (descend x) = 1%nat;
  cf_held : is_free xv = false;
  cf_size : sz = size x;
  cf_product : k = chain_product sz (code_divisor (opc o) (opc p) (constant_value xb)) (constant_value y);
  cf_nonzero : k <> 0;
  cf_room : chain_bits sz (code_divisor (opc o) (opc p) (constant_value xb)) (constant_value y) <= chain_room (opc o) sz;
}.

Lemma div_chain_match_shape (op : nat) (o : pcode_op) (a b r : nat) (x y z : varnode) : binop f op o a b r x y z -> opc o ∈ [IntDiv; IntSdiv] ->
  finds (div_chain_match f op) (fun '(v, sz, k) => exists d p b' xv xb, chain_found o x y v sz k d p a b' xv xb).
Proof.
  intros B Hc; pose proof (yd_op _ _ _ _ _ (bo_yields _ _ _ _ _ _ _ _ _ B)) as Ho; binop_parts B; unfold div_chain_match; follow W T.
  assert (Hcase : opc o = IntDiv /\ opc p = IntDiv \/ opc o = IntSdiv /\ opc p = IntSdiv \/ opc o = IntDiv /\ opc p = IntRight).
  { apply list_elem_of_In in Hc; cbn in Hc; match goal with G : _ || _ = true |- _ => apply orb_true_iff in G as [E%bool_decide_eq_true|[E1%bool_decide_eq_true E2%bool_decide_eq_true]%andb_true_iff] end; [|auto].
    destruct Hc as [Hc|[Hc|[]]]; [left|right; left]; split; congruence. }
  destruct Hcase as [[Eo Ep]|[[Eo Ep]|[Eo Ep]]]; rewrite Eo, Ep.
  all: repeat match goal with
    | |- context [bool_decide (?c = ?c)] => change (bool_decide (c = c)) with true
    | |- context [bool_decide (?c = ?d)] => change (bool_decide (c = d)) with false
    end; cbn [andb]; follow W T.
  all: apply finds_some; exists d, p, b0, xa, xb; rewrite ?i32_bits in * by done; constructor; rewrite ?Eo, ?Ep; auto.
Qed.

Lemma div_chain_match_finds (op : nat) (o : pcode_op) (a b r : nat) (x y z : varnode) : binop f op o a b r x y z -> opc o ∈ [IntDiv; IntSdiv] ->
  div_chain_exact f op = true ->
  finds (div_chain_match f op) (fun '(v, sz, k) => exists xv, operand f v xv /\ size xv = size z /\ sz = size z /\ is_value sz k /\
    forall rho, solution f rho -> eval2 (opc o) sz sz sz (vval rho v xv) k = Some (vval rho r z)).
Proof.
  intros B Hc He; eapply finds_mono; [by eapply div_chain_match_shape|]; intros [[v sz] k] (d & p & b' & xv & xb & [B' Hcode [Cy Cb] _ _ -> Ek Hk Hroom]).
  pose proof (yd_op _ _ _ _ _ (bo_yields _ _ _ _ _ _ _ _ _ B)) as Ho; binop_parts B; binop_parts B'.
  pose proof (bo_yields _ _ _ _ _ _ _ _ _ B') as Y; pose proof (yd_op _ _ _ _ _ Y) as Hp; pose proof (yd_def _ _ _ _ _ Y) as Hd.
  unfold div_chain_exact, const_of in He; rewrite Ho in He; cbn in He; rewrite (input_at o 0 _ Hin), (input_at o 1 _ Hin) in He; cbn in He; rewrite Hat, Hat0 in He; cbn in He.
  rewrite Hd in He; cbn in He; rewrite Hp in He; cbn in He; rewrite (input_at p 1 _ Hin0) in He; cbn in He; rewrite Hat2 in He; cbn in He.
  assert (Hu : uniform (opc o) = true /\ is_binary (opc o) = true) by (apply list_elem_of_In in Hc; cbn in Hc; destruct Hc as [<-|[<-|[]]]; done).
  destruct (uniform_sizes _ _ _ _ _ _ _ _ _ B (proj1 Hu)) as [Sx Sy]; exists xv.
  pose proof (on_const _ _ _ Ob Cy) as K2; rewrite Sy, <- Sx in K2; fold (constant_value y) in K2.
  assert (Sv : size xv = size x /\ (opc p = opc o -> is_value (size x) (constant_value xb))).
  { destruct Hcode as [Ec|[Eo Ec]]; [|split; [by apply (shift_sizes _ _ _ _ _ _ _ _ _ B'); rewrite Ec|congruence]].
    destruct (uniform_sizes _ _ _ _ _ _ _ _ _ B' ltac:(rewrite Ec; apply Hu)) as [S1 S2]; split; [done|]; intros _; rewrite <- S2; by apply (on_const _ _ _ Ob0). }
  destruct Sv as [Sv K1]; split_and!; [done|congruence|done|subst k; by apply chain_product_value|]; intros rho Hs; subst k.
  assert (Hx : is_value (size x) (vval rho v xv)) by (rewrite <- Sv; by eapply operand_fits).
  assert (Hcase : opc o = IntDiv /\ opc p = IntDiv \/ opc o = IntSdiv /\ opc p = IntSdiv \/ opc o = IntDiv /\ opc p = IntRight).
  { apply list_elem_of_In in Hc; cbn in Hc; destruct Hcode as [Ec|[]]; [|auto]; destruct Hc as [Hc|[Hc|[]]]; [left|right; left]; split; congruence. }
  clear Hc Hcode Hu; destruct Hcase as [[Eo Ep]|[[Eo Ep]|[Eo Ep]]]; rewrite Eo, Ep in *; unfold code_divisor, chain_room in *.
  all: repeat match goal with
    | H : context [bool_decide (?c = ?c)] |- _ => change (bool_decide (c = c)) with true in H
    | H : context [bool_decide (?c = ?d)] |- _ => change (bool_decide (c = d)) with false in H
    | |- context [bool_decide (?c = ?c)] => change (bool_decide (c = c)) with true
    | |- context [bool_decide (?c = ?d)] => change (bool_decide (c = d)) with false
    end; cbn [chain_exact] in He.
  all: pose proof (binop_solved _ _ _ _ _ _ _ _ _ _ rho B Eo eq_refl Hs) as E; pose proof (binop_solved _ _ _ _ _ _ _ _ _ _ rho B' Ep eq_refl Hs) as E'.
  all: rewrite (vval_const _ b y Cy) in E; rewrite (vval_const _ b' xb Cb) in E'; cbn in E, E'; destruct (constant_value y =? 0); [done|].
  - apply andb_true_iff in He as [L2%Z.ltb_lt L1%Z.ltb_lt]; destruct (constant_value xb =? 0); [done|]; injection E as <-; injection E' as <-.
    specialize (K1 eq_refl); unfold is_value in K1, K2; rewrite <- Sx; apply chain_unsigned; try done; by apply abs_signed_small; lia.
  - apply negb_true_iff, Z.eqb_neq in He; destruct (constant_value xb =? 0); [done|]; injection E as <-; injection E' as <-.
    specialize (K1 eq_refl); rewrite <- Sx, Sv; by apply chain_signed.
  - apply andb_true_iff in He as [L2%Z.ltb_lt L1%Z.ltb_lt]; injection E as <-; injection E' as <-.
    pose proof (on_const _ _ _ Ob0 Cb) as [K0 _]; fold (constant_value xb) in K0; unfold is_value in K2; rewrite <- Sx; apply chain_shift; try done; by apply abs_signed_small; lia.
Qed.

(** A chain of divisions is one division by the product. *)
Lemma div_chain_result (op : nat) : target RuleDivChain f op = true -> div_chain_exact f op = true ->
  runs (apply_op RuleDivChain op f) (outcome f).
Proof.
  intros Ht He; destruct (target_binop _ f op W T Ht) as (o & a & b & r & x & y & z & B & Hc & _); [done|done|].
  assert (Hu : is_binary (opc o) = true /\ uniform (opc o) = true) by (cbn in Hc; apply list_elem_of_In in Hc; cbn in Hc; destruct Hc as [<-|[<-|[]]]; done).
  cbn [apply_op RuleDivChain]; eapply fire_result; [done|done|by eapply div_chain_match_finds|]; intros [[v sz] k] (xv & Ov & Sv & -> & Hk & Hg).
  pose proof (editing_start f op _ _ _ W (binop_is _ _ _ _ _ _ _ _ _ B)) as E0.
  edit ltac:(eapply run_input; [exact E0|cbn; lia|apply src_at, Ov]); intros f1 E1.
  edit ltac:(eapply run_const; exact E1); intros [c f2] [E2 S2].
  edit ltac:(eapply run_input; [exact E2|cbn; lia|exact S2]); intros f3 E3; cbn [insert list_insert] in E3.
  eapply const_result; [done|done|exact B|exact Ov|exact E3|done|done|apply Hu|apply Hu|done].
Qed.
End DivChain.

(** ** [RuleSignNearMult] *)

Section NearMult.
Context (f : funcdata) (W : wf f) (T : typed f).

Lemma near_mult_term_finds (add : pcode_op) (i : nat) (sv : nat) (xv : varnode) : (i < 2)%nat -> input add i = Some sv -> varnodes f !! sv = Some xv ->
  finds (near_mult_term f add i) (fun '(idx, sv, uso) => (idx < 2)%nat /\ input add idx = Some sv /\ exists xv u, varnodes f !! sv = Some xv /\
    ops f !! uso = Some u /\ output u = Some sv /\ opc u = IntRight /\ exists c xc, input u 1 = Some c /\ varnodes f !! c = Some xc /\ is_constant xc = true).
Proof.
  intros Hi Hs Hx; unfold near_mult_term; follow W T; apply finds_some; split; [done|]; split; [done|]; exists xv, p; split_and!; try done.
  exists b, xb; by rewrite (input_at p 1 _ Hin).
Qed.

Lemma near_mult_match_finds (op : nat) (o : pcode_op) (a b r : nat) (x y z : varnode) : binop f op o a b r x y z -> opc o = IntAnd ->
  finds (near_mult_match f op) (fun '(v, n) => exists xv, operand f v xv /\ size xv = size z /\ 0 < n < 8 * size z /\
    forall rho, solution f rho -> vval rho r z = wrap (size z) (wrap (size z) (Z.quot (signed (size z) (vval rho v xv)) (signed (size z) (2 ^ n))) * 2 ^ n)).
Proof.
  intros B Ec; pose proof (yd_op _ _ _ _ _ (bo_yields _ _ _ _ _ _ _ _ _ B)) as Ho; binop_parts B; unfold near_mult_match; follow W T.
  eapply finds_call; [apply finds_slot; (eapply near_mult_term_finds; [lia|by rewrite (input_at p _ _ Hin0)|done])|].
  intros [[i sv] uso] (Hi & Is & xs & us & Hxs & Hus & Hout' & Eus & c & xc & Ic & Hxc & Kc).
  destruct (add_slot _ _ _ _ _ _ i _ _ _ B0 ltac:(done) Hi) as (sv' & v & xs' & xv & Is' & Iv & Os & Ov & Ss & Sv & Eadd).
  operand_parts Os; operand_parts Ov.
  assert (sv' = sv) as -> by congruence; assert (xs' = xs) as -> by congruence; follow W T; apply finds_some; exists xv.
  rewrite (input_at us 1 _ Hin1) in Ic; cbn in Ic; assert (b1 = c) as -> by congruence; assert (xb0 = xc) as -> by congruence.
  assert (a2 = v) as -> by congruence; assert (xa1 = xv) as -> by congruence.
  destruct (uniform_sizes _ _ _ _ _ _ _ _ _ B ltac:(by rewrite Ec)) as [Sx Sy].
  pose proof (shift_sizes _ _ _ _ _ _ _ _ _ B1 ltac:(by rewrite Eus)) as S1.
  destruct (sign_solved f _ _ _ _ _ _ _ _ B2 ltac:(done) ltac:(done) ltac:(done)) as [S2 E2].
  pose proof (value_u64 _ _ (on_size _ _ _ Ob1) (on_const _ _ _ Ob1 Kc)) as Kv; fold (constant_value xc) in Kv.
  destruct (i64_pos _ Kv ltac:(done)) as [Ek Lk]; rewrite Ek in *.
  assert (En : i64 (size xs * 8 - constant_value xc) = size xs * 8 - constant_value xc) by (apply i64_id; unfold valid_size in *; lia); rewrite En in *.
  split; [done|]; split; [congruence|]; split; [unfold valid_size in *; lia|]; intros rho Hs.
  pose proof (binop_solved _ _ _ _ _ _ _ _ _ _ rho B Ec eq_refl Hs) as E; cbn in E; injection E as <-.
  pose proof (binop_solved _ _ _ _ _ _ _ _ _ _ rho B1 Eus eq_refl Hs) as E1; cbn in E1; injection E1 as E1.
  rewrite (vval_const _ b y), (Eadd rho Hs), <- E1, (E2 rho Hs), (vval_const _ c xc) by done.
  fold (high_mask (size xs) (size xs * 8 - constant_value xc)) in *.
  match goal with H : high_mask _ _ = _ |- _ => rewrite <- H end.
  replace (constant_value xc) with (8 * size xs - (size xs * 8 - constant_value xc)) at 1 by ring; set (n := size xs * 8 - constant_value xc) in *.
  rewrite S1, Ss, Sx in *; rewrite (Z.add_comm (wrap _ _) (vval rho v xv)), near_mult, wrap_wrap; [done|done|unfold n; lia|].
  rewrite <- S2; by eapply operand_fits.
Qed.
End NearMult.

#[export] Instance sign_near_mult_sound : Sound RuleSignNearMult.
Proof.
  intros f op W T Ht; destruct (target_binop _ f op W T Ht) as (o & a & b & r & x & y & z & B & Hc & Hi); [done|done|]; apply list_elem_of_singleton in Hc.
  cbn [apply_op RuleSignNearMult]; eapply fire_result; [done|done|by eapply near_mult_match_finds|]; intros [v n] (xv & Ov & Sv & Hn & Hg).
  pose proof (operand_size _ _ _ _ _ (bo_yields _ _ _ _ _ _ _ _ _ B)) as Vz; rewrite (on_at _ _ _ Ov); cbn [mbind option_bind]; rewrite Sv.
  assert (Ep : u64_shl 1 (w32 n) = 2 ^ n).
  { unfold u64_shl, w32, valid_size in *; rewrite (Z.mod_small n 4294967296), (Z.mod_small n 64), Z.shiftl_1_l by lia; apply w64_small; split; [lia|apply Z.pow_lt_mono_r; lia]. }
  rewrite Ep; assert (Kn : is_value (size z) (2 ^ n)) by (split; [lia|unfold modulus; apply Z.pow_lt_mono_r; lia]).
  edit ltac:(by apply run_add_const); intros [c1 f1] (R1 & M1 & S1 & F1).
  destruct (operand_moves _ _ _ _ _ M1 Ov) as (xv1 & Ov1 & Ev1); destruct (arg_of_eq _ _ _ Ev1) as [Sv1 Vv1].
  edit ltac:(eapply (run_add_op f1 op IntSdiv [v; c1] [arg_of v xv1; Arg (size z) (TConst (2 ^ n))]); [apply R1|apply R1|by apply (mv_inside _ _ _ M1)| | |done|]).
  { apply args_two; exists v, c1; split_and!; [done|apply src_at, Ov1|done]. }
  { intros u; apply view_ok_binary; [done|by eapply operand_ok|by apply const_ok|done| |done]; cbn; rewrite Sv1, Sv; by rewrite Z.eqb_refl. }
  { intros rho Hs; cbn; destruct (Z.eqb_spec (2 ^ n) 0) as [E|_]; [pose proof (Z.pow_pos_nonneg 2 n ltac:(lia) ltac:(lia)); lia|]; eexists; split; [done|]; by apply wrap_value. }
  intros [id f2] (R2 & M2 & Hid & d & Ed & Sd & F2); rewrite Ed; cbn [mbind option_bind].
  assert (M12 : moves f f2 [id]) by exact (moves_trans _ _ _ _ _ M1 M2).
  assert (Nop : ~ In op [id]) by (intros [->|[]]; pose proof (mv_inside _ _ _ M1 _ Hi) as Hj; unfold inside, parent_of in Hj; unfold is_op in Hid; apply Nat.ltb_ge in Hid; by rewrite (proj2 (lookup_ge_None _ _) Hid) in Hj).
  destruct (binop_moves _ _ _ _ _ _ _ _ _ _ _ (rs_wf _ _ R2) M12 Nop B) as (o' & x' & y' & z' & B' & Eo' & Ex' & Ey' & Ez').
  destruct (arg_of_eq _ _ _ Ez') as [Sz' Vz']; destruct (src_operand _ _ _ Sd Vz) as (xd & Od & Ad & Cd).
  pose proof (editing_start f2 op _ _ _ (rs_wf _ _ R2) (binop_is _ _ _ _ _ _ _ _ _ B')) as E0.
  assert (Rf : result f f2) by (eapply result_trans; eassumption).
  edit ltac:(eapply run_opcode; exact E0); intros f3 E3.
  edit ltac:(eapply run_const; exact E3); intros [c2 f4] [E4 S4].
  edit ltac:(eapply run_input_src; [exact E4|cbn; lia|eapply editing_src; [exact E4|apply src_at, Od]]); intros f5 [E5 K5].
  edit ltac:(eapply run_input; [exact E5|cbn; lia|exact (K5 _ _ S4)]); intros f6 E6; cbn [insert list_insert] in E6; rewrite <- Sz' in E6, Kn.
  assert (Sd' : size xd = size z) by (by injection Ad).
  eapply result_trans; [exact Rf|]; eapply const_result; [apply Rf|apply Rf|exact B'|exact Od|exact E6|congruence|exact Kn|done|done|].
  intros rho Hs; destruct (F2 rho Hs) as [Hs1 Ee]; rewrite Ev1 in Ee; change (eval2 IntSdiv (size xv) (size z) (size z) (vval rho v xv) (2 ^ n) = Some (rho d)) in Ee.
  rewrite Vz', (Hg rho (F1 rho Hs1)), Sz', (vval_var rho d xd Cd); cbn in Ee |- *; destruct (Z.eqb_spec (2 ^ n) 0); [done|].
  by injection Ee as <-; rewrite Sv.
Qed.

(** ** [RuleModOpt] *)

Section ModOpt.
Context (f : funcdata) (W : wf f) (T : typed f).

(** the input of a matched operation other than [v], as the source reads it: the first tried unless it is [v] *)
Lemma other_input (o : nat) (p : pcode_op) (a b r v : nat) (x y z : varnode) (first second : nat) : binop f o p a b r x y z -> In v (inrefs p) ->
  uniform (opc p) = true -> (first, second) = (a, b) \/ (first, second) = (b, a) ->
  exists w xw, (if Nat.eqb first v then Some second else Some first) = Some w /\ operand f w xw /\ size xw = size z /\
    forall xv, varnodes f !! v = Some xv -> size xv = size z /\
      forall rho, vval rho a x = vval rho v xv /\ vval rho b y = vval rho w xw \/ vval rho a x = vval rho w xw /\ vval rho b y = vval rho v xv.
Proof.
  intros B Hin Hu Hf; pose proof B as [Ei _ Oa Ob _]; destruct (uniform_sizes _ _ _ _ _ _ _ _ _ B Hu) as [Sa Sb]; rewrite Ei in Hin.
  assert (Hsame : forall u xu xv, operand f u xu -> u = v -> varnodes f !! v = Some xv -> xv = xu) by (intros u xu xv O <- Hv; operand_parts O; congruence).
  assert (Hor : a = v \/ b = v) by (cbn in Hin; intuition).
  destruct Hf as [[= -> ->]|[= -> ->]]; match goal with |- context [Nat.eqb ?u ?t] => destruct (Nat.eqb_spec u t) as [E|N] end.
  1: assert (a = v) as E1 by done. 2: assert (b = v) as E2 by intuition. 3: assert (b = v) as E2 by done. 4: assert (a = v) as E1 by intuition.
  1,4: exists b, y; split_and!; try done; intros xv Hv; rewrite (Hsame a x xv Oa E1 Hv); split; [done|]; intros rho; left; by rewrite E1.
  all: exists a, x; split_and!; try done; intros xv Hv; rewrite (Hsame b y xv Ob E2 Hv); split; [done|]; intros rho; right; by rewrite E2.
Qed.

Lemma mod_add_finds (x outvn2 addop : nat) (xo2 : varnode) : varnodes f !! outvn2 = Some xo2 -> In addop (descend xo2) ->
  finds (mod_add f x outvn2 addop) (fun a => a = addop /\ exists add u w r xu xw z xx, binop f addop add u w r xu xw z /\ opc add = IntAdd /\
    operand f x xx /\ size xx = size z /\ size xo2 = size z /\
    forall rho, solution f rho -> vval rho r z = wrap (size z) (vval rho outvn2 xo2 + vval rho x xx)).
Proof.
  intros Hx Hr; destruct (reader_op f outvn2 addop xo2 W Hx Hr) as (p & Hp & Hin); unfold mod_add; follow W T.
  destruct (other_input _ _ _ _ _ outvn2 _ _ _ a b B Hin ltac:(by rewrite G) ltac:(by left)) as (w & xw & Ew & Ow & Sw & Hw).
  rewrite Ew; reduce; follow W T; apply finds_some; split; [done|]; exists p, a, b, r, xa, xb, z, xw; destruct (Hw xo2 Hx) as [So HVal].
  split_and!; try done; [congruence|]; intros rho Hs; pose proof (binop_solved _ _ _ _ _ _ _ _ _ _ rho B G eq_refl Hs) as E; cbn in E; injection E as <-.
  assert (w = x) as -> by congruence. destruct (HVal rho) as [[-> ->]|[-> ->]]; [done|by rewrite Z.add_comm].
Qed.

Lemma is_opposite_runs (div div2 : nat) (xd xd2 : varnode) : operand f div xd -> operand f div2 xd2 -> size xd2 = size xd ->
  runs (is_opposite f div xd xd2) (fun ok => ok = true -> forall rho, solution f rho -> vval rho div2 xd2 = wrap (size xd) (- vval rho div xd)).
Proof.
  intros Od O2 Es; operand_parts Od; operand_parts O2; unfold is_opposite; destruct (is_constant xd2) eqn:Ec.
  - cbn; intros H; guards; intros rho Hs; rewrite (vval_const _ div2 xd2 Ec), (vval_const _ div xd) by done.
    pose proof (on_const _ _ _ O2 Ec) as K2; fold (constant_value xd2) in K2; rewrite Es in *.
    match goal with E : _ = constant_value xd |- _ => rewrite <- E end; rewrite negate_const, opposite_opposite by done; done.
  - destruct (is_written xd2) eqn:Ew; cbn [negb]; [|by intros].
    destruct (written_def f div2 xd2 W Hat0 Ew) as (d & p & Hd & Hp & Ho); rewrite Hd; cbn [mbind option_bind]; rewrite Hp; cbn; intros H; guards.
    destruct (def_unop f div2 d xd2 p W T Hat0 Hp Ho) as (a & xa & U); [by match goal with E : opc p = _ |- _ => rewrite E end|].
    unop_parts U; assert (a = div) as -> by (match goal with E : input p 0 = _ |- _ => rewrite (input_at p 0 _ Hin) in E; by injection E end).
    assert (xa = xd) as -> by congruence; intros rho Hs; pose proof (unop_solved f _ _ _ _ _ _ _ rho U ltac:(eassumption) eq_refl Hs) as E; cbn in E.
    injection E as <-; by rewrite Es.
Qed.

(** a sum that takes the multiples of the divisor off the value *)
Definition remainder_at (x div outvn addop : nat) : Prop := exists add u w r xu xw z xx xd xo, binop f addop add u w r xu xw z /\
  operand f x xx /\ operand f div xd /\ varnodes f !! outvn = Some xo /\ size xx = size z /\ size xd = size z /\ size xo = size z /\
  forall rho, solution f rho -> vval rho r z = wrap (size z) (wrap (size z) (vval rho outvn xo * wrap (size z) (- vval rho div xd)) + vval rho x xx).

Lemma mod_mult_finds (x div outvn multop : nat) (xd xo : varnode) : operand f div xd -> varnodes f !! outvn = Some xo -> size xd = size xo ->
  In multop (descend xo) -> finds (mod_mult f x div outvn multop) (remainder_at x div outvn).
Proof.
  intros Od Hx Sd Hr; destruct (reader_op f outvn multop xo W Hx Hr) as (p & Hp & Hin); operand_parts Od; unfold mod_mult; follow W T.
  destruct (other_input _ _ _ _ _ outvn _ _ _ b a B Hin ltac:(by rewrite G) ltac:(by right)) as (w & xw & Ew & Ow & Sw & Hw).
  rewrite Ew; operand_parts Ow; reduce; follow W T; destruct (Hw xo Hx) as [So HVal].
  pose proof (is_opposite_runs div w xd xw Od Ow ltac:(congruence)) as Hop; destruct (is_opposite f div xd xw) as [ok|]; [|done]; cbn in Hop |- *.
  follow W T; apply finds_of; intros addop Ha; eapply finds_mono; [by apply mod_add_finds|].
  intros addop' (-> & add & u & w' & r' & xu & xw' & z' & xx & Ba & Ea & Ox & Sx & Sz & Hadd); exists add, u, w', r', xu, xw', z', xx, xd, xo.
  split_and!; try done; try congruence; intros rho Hs; rewrite (Hadd rho Hs); f_equal; f_equal.
  pose proof (binop_solved _ _ _ _ _ _ _ _ _ _ rho B ltac:(eassumption) eq_refl Hs) as E; cbn in E; injection E as <-.
  pose proof (Hop ltac:(done) rho Hs) as Ed; destruct (HVal rho) as [[-> ->]|[-> ->]]; rewrite Ed, Sz; [|rewrite Z.mul_comm]; by replace (size xd) with (size z') by congruence.
Qed.

Lemma mod_match_finds (op : nat) (o : pcode_op) (a b r : nat) (x y z : varnode) : binop f op o a b r x y z -> opc o ∈ [IntDiv; IntSdiv] ->
  finds (mod_match f op) (fun '(v, d, addop, c) => v = a /\ d = b /\ (c = IntRem \/ c = IntSrem) /\ exists add u w r xu xw z, binop f addop add u w r xu xw z /\
    size x = size z /\ size y = size z /\
    forall rho, solution f rho -> eval2 c (size z) (size z) (size z) (vval rho a x) (vval rho b y) = Some (vval rho r z)).
Proof.
  intros B Hc; pose proof (yd_op _ _ _ _ _ (bo_yields _ _ _ _ _ _ _ _ _ B)) as Ho; binop_parts B; yields_parts B; unfold mod_match; follow W T.
  assert (Hcase : opc o = IntDiv \/ opc o = IntSdiv) by (apply list_elem_of_In in Hc; cbn in Hc; intuition).
  destruct (uniform_sizes _ _ _ _ _ _ _ _ _ B ltac:(by destruct Hcase as [-> | ->])) as [Sx Sy].
  eapply finds_call; [apply finds_of; intros m Hm; eapply mod_mult_finds; [exact Ob|done|done|done]|].
  intros addop (add & u & w & r' & xu & xw & z' & xx & xd & xo & Ba & Ox & Od & Hxo & S1 & S2 & S3 & Hg); apply finds_some.
  operand_parts Ox; operand_parts Od; assert (xx = x) as -> by congruence; assert (xd = y) as -> by congruence; assert (xo = z) as -> by congruence.
  split; [done|]; split; [done|]; split; [by case_bool_decide; [left|right]|]; exists add, u, w, r', xu, xw, z'; split_and!; try done.
  intros rho Hs; rewrite (Hg rho Hs); destruct Hcase as [Ec|Ec]; rewrite Ec; [rewrite bool_decide_true by done|rewrite bool_decide_false by done]; pose proof (binop_solved _ _ _ _ _ _ _ _ _ _ rho B Ec eq_refl Hs) as E; cbn in E |- *;
    destruct (_ =? 0); try done; injection E as <-; rewrite S3, ?S1, ?S2; f_equal; symmetry.
  - apply mod_unsigned; rewrite <- S1; by eapply operand_fits.
  - apply mod_signed; [congruence|rewrite <- S1; by eapply operand_fits|rewrite <- S2; by eapply operand_fits].
Qed.
End ModOpt.

#[export] Instance mod_opt_sound : Sound RuleModOpt.
Proof.
  intros f op W T Ht; destruct (target_binop _ f op W T Ht) as (o & a & b & r & x & y & z & B & Hc & _); [done|done|].
  cbn [apply_op RuleModOpt]; eapply fire_result; [done|done|by eapply mod_match_finds|].
  intros [[[v d] addop] c] (-> & -> & Hcc & add & u & w & r' & xu & xw & z' & Ba & Sx & Sy & Hg); pose proof (bo_a _ _ _ _ _ _ _ _ _ B) as Oa; pose proof (bo_b _ _ _ _ _ _ _ _ _ B) as Ob.
  assert (Hu : is_binary c = true /\ uniform c = true) by (by destruct Hcc as [-> | ->]).
  pose proof (editing_start f addop _ _ _ W (binop_is _ _ _ _ _ _ _ _ _ Ba)) as E0.
  edit ltac:(eapply run_input; [exact E0|cbn; lia|apply src_at, Oa]); intros f1 E1; cbn [insert list_insert] in E1.
  destruct (editing_vn _ _ _ _ _ _ _ _ E1 (on_at _ _ _ Ob)) as (y1 & Hy1 & S1 & C1 & K1); rewrite Hy1; cbn [mbind option_bind]; rewrite C1.
  destruct (is_constant y) eqn:Ec.
  - rewrite (K1 eq_refl), S1, Sy; apply runs_bind.
    edit ltac:(eapply run_const; exact E1); intros [dc f2] [E2 S2].
    edit ltac:(eapply run_input; [exact E2|cbn; lia|exact S2]); intros f3 E3.
    edit ltac:(eapply run_opcode; exact E3); intros f4 E4; cbn [insert list_insert] in E4.
    eapply const_result; [done|done|exact Ba|exact Oa|exact E4|done|rewrite <- Sy; by apply (on_const _ _ _ Ob)|apply Hu|apply Hu|].
    intros rho Hs; by rewrite <- (vval_const rho b y Ec); apply Hg.
  - edit ltac:(eapply run_input; [exact E1|cbn; lia|eapply editing_src; [exact E1|apply src_at, Ob]]); intros f2 E2; cbn [insert list_insert] in E2.
    edit ltac:(eapply run_opcode; exact E2); intros f3 E3.
    eapply two_result; [done|done|exact Ba|exact Oa|exact Ob|exact E3|done|done|apply Hu|apply Hu|done].
Qed.
