(* ===== verification/DivChain.v ===== *)
(** Where [RuleDivChain] ([decompile/divopt.rs]) applies, read off the equations, and what it leaves: one
    division, by the product. *)
From Stdlib Require Import ZArith Lia Bool List.
From stdpp Require Import base decidable option list strings gmap numbers tactics.
From S2P Require Import Prelude Space OpCode BitUtil PcodeSem Funcdata FuncdataLinks FuncdataEdits FuncdataRemove FuncdataBlocks FuncdataTheorems FuncdataBuild RuleBase Divopt DivRules Valuation ValuationEdits Rewrite RuleFacts RuleArith DivRulesSound.
Local Open Scope Z_scope.
Local Open Scope match_scope.

(** ** The chain *)

(** what the inner operation divides by *)
Definition chain_divisor (c c1 : opcode) (k1 : Z) : Z := if bool_decide (c1 = c) then k1 else 2 ^ k1.

Definition bit_length (z : Z) : Z := Z.log2 (Z.abs z) + 1.

(** the product of the divisors is not zero, and their magnitudes together have few enough bits *)
Definition chain_merges (c : opcode) (s d1 d2 : Z) : Prop :=
  wrap s (d1 * d2) <> 0 /\ bit_length (signed s d1) + bit_length (signed s d2) <= chain_room c s.

(** a value that is an input or defined *)
Definition held (f : funcdata) (v : nat) : bool := match varnodes f !! v with Some x => negb (is_free x) | None => false end.

(** [op] divides by a constant what a division by a constant, or a shift, makes of [A], and is its only
    reader; [k] is the product of the divisors. *)
Inductive chain_at (f : funcdata) (op : nat) : opcode -> arg -> Z -> Z -> option arg -> Prop :=
  | ChainAt (c c1 : opcode) (q d b : nat) (A : arg) (s s1 k1 k2 : Z) (R : option arg) :
      view_of f op = Some (View c [Arg s (TVar q); Arg s (TConst k2)] R) ->
      def_of f q = Some d -> view_of f d = Some (View c1 [A; Arg s1 (TConst k1)] (Some (Arg s (TVar q)))) ->
      c1 = c \/ c = IntDiv /\ c1 = IntRight ->
      List.length (readers f q) = 1%nat -> inputs f d !! 0%nat = Some b -> held f b = true ->
      chain_merges c s (chain_divisor c c1 k1) k2 ->
      chain_at f op c A s (wrap s (chain_divisor c c1 k1 * k2)) R.

(** ** The arithmetic of the rule *)

Lemma magnitude_length (s v : Z) : valid_size s -> is_value s v -> v <> 0 -> mostsigbit_set (magnitude v s) + 1 = bit_length (signed s v).
Proof.
  intros Hs Hv N; rewrite magnitude_abs by done; unfold bit_length; rewrite mostsigbit_log2; [done|].
  pose proof (wrap_signed s v Hs Hv) as E; destruct (Z.eq_dec (signed s v) 0) as [Z0|]; [|lia].
  rewrite Z0 in E; unfold wrap in E; rewrite Z.mod_0_l in E by (pose proof (modulus_pos s Hs); lia); lia.
Qed.

Lemma wrap_high (s k v : Z) : valid_size s -> 8 * s <= k -> wrap s (2 ^ k * v) = 0.
Proof.
  intros Hs Hk; replace (2 ^ k * v) with (0 + (2 ^ (k - 8 * s) * v) * modulus s).
  - rewrite wrap_periodic; apply Z.mod_0_l; pose proof (modulus_pos s Hs); lia.
  - unfold modulus, valid_size in *; replace (2 ^ k) with (2 ^ (k - 8 * s) * 2 ^ (8 * s)) by (rewrite <- Z.pow_add_r by lia; f_equal; lia); ring.
Qed.

(** the power of two a shift divides by, in 64 bits *)
Lemma code_power (s k : Z) : valid_size s -> 0 <= k < 2 ^ 32 -> (k < 8 * s -> u64_checked_shl0 1 (w32 k) = 2 ^ k /\ is_value s (2 ^ k)) /\
  forall v, wrap s (u64_checked_shl0 1 (w32 k) * v) = wrap s (2 ^ k * v).
Proof.
  intros Hs Hk; assert (Ek : w32 k = k) by (apply Z.mod_small; lia); unfold u64_checked_shl0; rewrite Ek.
  assert (E1 : k < 64 -> u64_shl 1 k = 2 ^ k).
  { intros L; unfold u64_shl; rewrite Z.mod_small, Z.shiftl_1_l by lia; apply w64_small; split; [apply Z.pow_nonneg; lia|apply Z.pow_lt_mono_r; lia]. }
  split.
  - intros L; unfold valid_size in *; destruct (Z.ltb_spec k 64); [|lia]; split; [by apply E1|].
    unfold is_value, modulus; split; [apply Z.pow_nonneg; lia|apply Z.pow_lt_mono_r; lia].
  - intros v; destruct (Z.ltb_spec k 64); [by rewrite E1|]; rewrite (wrap_high s k) by (unfold valid_size in *; lia || done).
    rewrite Z.mul_0_l; apply Z.mod_0_l; pose proof (modulus_pos s Hs); lia.
Qed.

(** the rule's product and its count of bits are those of the divisors *)
Lemma chain_code (c c1 : opcode) (s k1 k2 : Z) : valid_size s -> is_value s k2 -> (c1 = c -> is_value s k1) -> (c1 <> c -> 0 <= k1 < 2 ^ 32) ->
  chain_product s (code_divisor c c1 k1) k2 = wrap s (chain_divisor c c1 k1 * k2) /\
  (wrap s (chain_divisor c c1 k1 * k2) <> 0 ->
   chain_bits s (code_divisor c c1 k1) k2 = bit_length (signed s (chain_divisor c c1 k1)) + bit_length (signed s k2)).
Proof.
  intros Hs H2 H1 Hk; rewrite chain_product_wrap by done; unfold code_divisor, chain_divisor.
  assert (L : forall d, is_value s d -> wrap s (d * k2) <> 0 -> chain_bits s d k2 = bit_length (signed s d) + bit_length (signed s k2)).
  { intros d Hd Np; rewrite <- chain_product_wrap in Np by done; destruct (chain_nonzero s d k2 Hs Np).
    unfold chain_bits; rewrite <- !magnitude_length by done; lia. }
  case_bool_decide as E; [split; auto|]; destruct (code_power s k1 Hs (Hk E)) as [Hp Hw]; split; [done|]; intros Np.
  destruct (Z.lt_ge_cases k1 (8 * s)) as [Lt|Ge]; [|by rewrite wrap_high in Np]; destruct (Hp Lt) as [-> Hv]; by apply L.
Qed.

(** ** The rule matches the chains *)

Lemma view_two (f : funcdata) (o : nat) (c : opcode) (a b : arg) (R : option arg) : view_of f o = Some (View c [a; b] R) ->
  exists p u v x y, ops f !! o = Some p /\ opc p = c /\ inrefs p = [u; v] /\ varnodes f !! u = Some x /\ varnodes f !! v = Some y /\ a = arg_of u x /\ b = arg_of v y.
Proof.
  unfold view_of; intros H; destruct (ops f !! o) as [p|] eqn:Hp; [|done]; cbn in H; destruct (mapM (src f) (inrefs p)) as [args|] eqn:Ha; [|done]; cbn in H.
  destruct (out_src f (output p)) as [out|]; [|done]; cbn in H; injection H as <- -> _; apply args_two in Ha as (u & v & Ei & Hu & Hv).
  unfold src in Hu, Hv; destruct (varnodes f !! u) as [x|] eqn:Hx; [|done]; destruct (varnodes f !! v) as [y|] eqn:Hy; [|done]; cbn in Hu, Hv.
  injection Hu as <-; injection Hv as <-; exists p, u, v, x, y; by split_and!.
Qed.

Lemma arg_of_const (s k : Z) (v : nat) (x : varnode) : Arg s (TConst k) = arg_of v x -> size x = s /\ is_constant x = true /\ constant_value x = k.
Proof. unfold arg_of, constant_value; destruct (is_constant x); [|done]; by intros [= -> ->]. Qed.

Lemma arg_of_var (s : Z) (u v : nat) (x : varnode) : Arg s (TVar u) = arg_of v x -> size x = s /\ is_constant x = false /\ u = v.
Proof. unfold arg_of; destruct (is_constant x); [done|]; by intros [= -> ->]. Qed.

Section Chains.
Context (f : funcdata) (W : wf f) (T : typed f) (op : nat).

(** the constants of a chain fit their sizes, or count bits *)
Lemma chain_consts (o p : pcode_op) (q b2 r d v b1 : nat) (xq y z xv xb : varnode) : binop f op o q b2 r xq y z -> binop f d p v b1 q xv xb xq ->
  opc o ∈ [IntDiv; IntSdiv] -> opc p = opc o \/ opc o = IntDiv /\ opc p = IntRight -> is_constant y = true -> is_constant xb = true ->
  div_chain_exact f op = true -> valid_size (size xq) /\ size y = size xq /\ is_value (size xq) (constant_value y) /\
    (opc p = opc o -> is_value (size xq) (constant_value xb)) /\ (opc p <> opc o -> 0 <= constant_value xb < 2 ^ 32).
Proof.
  intros B B' Hc Hcode Cy Cb He; binop_parts B; binop_parts B'.
  assert (Hu : uniform (opc o) = true) by (apply list_elem_of_In in Hc; cbn in Hc; destruct Hc as [<-|[<-|[]]]; done).
  destruct (uniform_sizes _ _ _ _ _ _ _ _ _ B Hu) as [Sx Sy].
  pose proof (yd_op _ _ _ _ _ (bo_yields _ _ _ _ _ _ _ _ _ B)) as Ho; pose proof (bo_yields _ _ _ _ _ _ _ _ _ B') as Y.
  pose proof (on_const _ _ _ Ob Cy) as K2; rewrite Sy, <- Sx in K2; split_and!; [done|congruence|done| |].
  - intros Ec; destruct (uniform_sizes _ _ _ _ _ _ _ _ _ B' ltac:(by rewrite Ec)) as [S1 S2]; rewrite <- S2; by apply (on_const _ _ _ Ob0).
  - intros Ne; destruct Hcode as [|[Eo Ep]]; [done|]; split; [apply (on_const _ _ _ Ob0 Cb)|].
    unfold div_chain_exact, const_of in He; rewrite Ho in He; cbn in He; rewrite (input_at o 0 _ Hin), (input_at o 1 _ Hin) in He; cbn in He; rewrite Hat, Hat0 in He; cbn in He.
    rewrite (yd_def _ _ _ _ _ Y) in He; cbn in He; rewrite (yd_op _ _ _ _ _ Y) in He; cbn in He; rewrite (input_at p 1 _ Hin0) in He; cbn in He; rewrite Hat2 in He; cbn in He.
    rewrite Eo, Ep in He; cbn in He; by apply andb_true_iff in He as [_ He%Z.ltb_lt].
Qed.

Lemma arg_of_is_const (v : nat) (x : varnode) : is_constant x = true -> arg_of v x = Arg (size x) (TConst (constant_value x)).
Proof. unfold arg_of; by intros ->. Qed.

Lemma binop_view (d : nat) (p : pcode_op) (a b r : nat) (x y z : varnode) : binop f d p a b r x y z ->
  view_of f d = Some (View (opc p) [arg_of a x; arg_of b y] (Some (Arg (size z) (TVar r)))).
Proof.
  intros B; pose proof (bo_yields _ _ _ _ _ _ _ _ _ B) as Y; eapply op_is_view; [by eapply binop_is|].
  cbn; by rewrite (yields_src _ _ _ _ _ Y).
Qed.

(** A match of the rule is a chain. *)
Lemma found_chain (o : pcode_op) (a b r : nat) (x y z : varnode) (v : nat) (sz k : Z) : binop f op o a b r x y z -> opc o ∈ [IntDiv; IntSdiv] ->
  div_chain_exact f op = true -> div_chain_match f op = found (v, sz, k) ->
  exists xv, varnodes f !! v = Some xv /\ chain_at f op (opc o) (arg_of v xv) sz k (Some (Arg (size z) (TVar r))).
Proof.
  intros B Hc He Em; pose proof (div_chain_match_shape f W T op o a b r x y z B Hc) as H; rewrite Em in H.
  destruct (H _ eq_refl) as (d & p & b' & xv & xb & [B' Hcode [Cy Cb] H1 Hh -> Ek Hk Hroom]).
  destruct (chain_consts _ _ _ _ _ _ _ _ _ _ _ _ _ B B' Hc Hcode Cy Cb He) as (Vs & Sy & K2 & K1 & K1').
  destruct (chain_code (opc o) (opc p) (size x) (constant_value xb) (constant_value y) Vs K2 K1 K1') as [Ep Eb].
  pose proof (bo_yields _ _ _ _ _ _ _ _ _ B') as Y; exists xv; split; [apply B'|]; rewrite Ep in Ek; subst k.
  pose proof (binop_view _ _ _ _ _ _ _ _ B) as V; rewrite (arg_of_is_const b y Cy), Sy in V.
  pose proof (binop_view _ _ _ _ _ _ _ _ B') as V'; rewrite (arg_of_is_const b' xb Cb) in V'.
  assert (Ex : arg_of a x = Arg (size x) (TVar a)) by (unfold arg_of; by rewrite (yd_var _ _ _ _ _ Y)); rewrite Ex in V.
  pose proof (on_at _ _ _ (bo_a _ _ _ _ _ _ _ _ _ B)) as Hx; pose proof (on_at _ _ _ (bo_a _ _ _ _ _ _ _ _ _ B')) as Hv.
  eapply (ChainAt f op (opc o) (opc p) a d v); [exact V|by rewrite (def_of_at _ _ _ Hx), (yd_def _ _ _ _ _ Y)|exact V'|done| | | |].
  - by rewrite (readers_at _ _ _ Hx).
  - rewrite (inputs_at _ _ _ (yd_op _ _ _ _ _ Y)), (bo_in _ _ _ _ _ _ _ _ _ B'); done.
  - unfold held; by rewrite Hv, Hh.
  - split; [done|]; by rewrite <- Eb.
Qed.

(** A chain is a match of the rule. *)
Lemma chain_found_match (c : opcode) (A : arg) (s k : Z) (R : option arg) : chain_at f op c A s k R -> c ∈ [IntDiv; IntSdiv] ->
  is_Some (ops f !! op ≫= output) -> div_chain_exact f op = true -> exists v, src f v = Some A /\ div_chain_match f op = found (v, s, k).
Proof.
  intros [c0 c1 q d b A0 s0 s1 k1 k2 R0 V Hd V' Hcode Hr Hb Hh [Np Hroom]] Hc Hl He.
  destruct (view_two _ _ _ _ _ _ V) as (o & u & w & xq & y & Ho & Eo & Ei & Hq & Hy & Aq & Ay).
  destruct (view_two _ _ _ _ _ _ V') as (p & v & w' & xv & xb & Hp & Ep & Ei' & Hv & Hw' & Av & Ab).
  apply arg_of_var in Aq as (Sq & Cq & <-); apply arg_of_const in Ay as (Sy & Cy & Ky); apply arg_of_const in Ab as (_ & Cb & Kb).
  assert (Hbin : is_binary (opc o) = true) by (rewrite Eo; apply list_elem_of_In in Hc; cbn in Hc; destruct Hc as [<-|[<-|[]]]; done).
  assert (Hlo : live o) by (destruct Hl as [r Hl]; rewrite Ho in Hl; cbn in Hl; left; by exists r).
  destruct (binop_at f op o W T Ho Hbin Hlo) as (q' & w2 & r & xq' & y' & z & B).
  assert (Eqq : [q'; w2] = [q; w]) by (rewrite <- Ei; symmetry; apply B); injection Eqq as -> ->.
  pose proof (on_at _ _ _ (bo_a _ _ _ _ _ _ _ _ _ B)) as Hq'; assert (xq' = xq) as -> by congruence.
  pose proof (on_at _ _ _ (bo_b _ _ _ _ _ _ _ _ _ B)) as Hy'; assert (y' = y) as -> by congruence.
  rewrite (def_of_at _ _ _ Hq) in Hd; assert (Hout : output p = Some q).
  { assert (Hdq : def_of f q = Some d) by (by rewrite (def_of_at _ _ _ Hq)); apply (go_def _ (wf_graph _ W)) in Hdq; by rewrite (out_of_at _ _ _ Hp) in Hdq. }
  assert (Hbin' : is_binary (opc p) = true) by (rewrite Ep; destruct Hcode as [->|[_ ->]]; [by rewrite <- Eo|done]).
  destruct (def_binop f q d xq p W T Hq Hp Hout Hbin') as (v2 & w3 & xv' & xb' & B').
  assert (Eqv : [v2; w3] = [v; w']) by (rewrite <- Ei'; symmetry; apply B'); injection Eqv as -> ->.
  pose proof (on_at _ _ _ (bo_a _ _ _ _ _ _ _ _ _ B')) as Hv'; assert (xv' = xv) as -> by congruence.
  pose proof (on_at _ _ _ (bo_b _ _ _ _ _ _ _ _ _ B')) as Hb'; assert (xb' = xb) as -> by congruence.
  rewrite (inputs_at _ _ _ Hp), Ei' in Hb; cbn in Hb; injection Hb as <-; unfold held in Hh; rewrite Hv in Hh.
  rewrite <- Eo in *; rewrite <- Ep in *; subst k1 k2 s0.
  destruct (chain_consts _ _ _ _ _ _ _ _ _ _ _ _ _ B B' Hc Hcode Cy Cb He) as (Vs & _ & K2 & K1 & K1').
  destruct (chain_code (opc o) (opc p) (size xq) (constant_value xb) (constant_value y) Vs K2 K1 K1') as [Epr Ebits].
  exists v; split; [by rewrite Av; apply src_at|]; unfold div_chain_match; rewrite Ho; reduce; rewrite (input_at o 1 _ Ei); reduce; rewrite Hy; reduce; rewrite Cy.
  rewrite (input_at o 0 _ Ei); reduce; rewrite Hq; reduce; pose proof (go_flags _ (wf_graph _ W) q xq Hq) as [Fw _ _].
  rewrite (proj2 Fw) by (by rewrite Hd); rewrite Hd; reduce; rewrite Hp; reduce.
  assert (bool_decide (opc p = opc o) || bool_decide (opc o = IntDiv) && bool_decide (opc p = IntRight) = true) as ->.
  { destruct Hcode as [->|[-> ->]]; [by rewrite bool_decide_true|by rewrite orb_true_r]. }
  rewrite (input_at p 1 _ Ei'); reduce; rewrite Hb'; reduce; rewrite Cb.
  rewrite (readers_at _ _ _ Hq) in Hr; rewrite Hr; cbn [Nat.eqb]; rewrite (input_at p 0 _ Ei'); reduce; rewrite Hv; reduce; rewrite Hh.
  fold (code_divisor (opc o) (opc p) (constant_value xb)); fold (chain_product (size xq) (code_divisor (opc o) (opc p) (constant_value xb)) (constant_value y)).
  fold (chain_bits (size xq) (code_divisor (opc o) (opc p) (constant_value xb)) (constant_value y)).
  rewrite Epr, (Ebits Np), i32_bits by done; rewrite (proj2 (Z.eqb_neq _ 0) Np); cbn [negb].
  unfold chain_room in Hroom; apply list_elem_of_In in Hc; cbn in Hc; destruct Hc as [Hc|[Hc|[]]]; rewrite <- Hc in *.
  all: repeat match goal with
    | H : context [bool_decide (?c = ?c)] |- _ => change (bool_decide (c = c)) with true in H
    | H : context [bool_decide (?c = ?d)] |- _ => change (bool_decide (c = d)) with false in H
    | |- context [bool_decide (?c = ?c)] => change (bool_decide (c = c)) with true
    | |- context [bool_decide (?c = ?d)] => change (bool_decide (c = d)) with false
    end; cbn [andb negb]; cbv iota in Hroom.
  - destruct (Z.ltb_spec (8 * size xq) (bit_length (signed (size xq) (chain_divisor IntDiv (opc p) (constant_value xb))) + bit_length (signed (size xq) (constant_value y)))); [lia|done].
  - destruct (Z.ltb_spec (8 * size xq - 2) (bit_length (signed (size xq) (chain_divisor IntSdiv (opc p) (constant_value xb))) + bit_length (signed (size xq) (constant_value y)))); [lia|done].
Qed.

(** What the rule leaves: where a chain stands one division of [A] by the product, elsewhere the function. *)
Lemma div_chain_leaves (n : Z) (f' : funcdata) : target RuleDivChain f op = true -> div_chain_exact f op = true -> apply_op RuleDivChain op f = Some (n, f') ->
  (n = 1 /\ exists c A s k R, chain_at f op c A s k R /\ view_of f' op = Some (View c [A; Arg s (TConst k)] R)) \/
  (n = 0 /\ f' = f /\ forall c A s k R, ~ chain_at f op c A s k R).
Proof.
  intros Ht He E; destruct (target_binop _ f op W T Ht) as (o & a & b & r & x & y & z & B & Hc & _); [done|done|]; cbn [oplist RuleDivChain] in Hc.
  pose proof (bo_yields _ _ _ _ _ _ _ _ _ B) as Y; cbn [apply_op RuleDivChain] in E.
  match type of E with fire ?mt f ?edits = _ => pose proof (fire_spec mt f edits (fun '(v, sz, k) f' => exists A, src f v = Some A /\ op_is f' op (opc o) [A; Arg sz (TConst k)] (Some r) /\ src f' r = src f r)) as H end.
  rewrite E in H; destruct H as [(-> & -> & Em)|(-> & [[v sz] k] & Em & A & Hv & I & Hr)].
  - eapply runs_mono; [by eapply div_chain_match_shape|]; intros m Hm [[v sz] k] ->.
    destruct (Hm _ eq_refl) as (d & p & b' & xv & xb & [B' _ _ _ _ _ _ _ _]); pose proof (bo_a _ _ _ _ _ _ _ _ _ B') as Ov.
    pose proof (editing_start f op _ _ _ W (binop_is _ _ _ _ _ _ _ _ _ B)) as E0.
    edit ltac:(eapply run_input; [exact E0|cbn; lia|apply src_at, Ov]); intros f1 E1.
    edit ltac:(eapply run_const; exact E1); intros [c f2] [E2 S2].
    edit ltac:(eapply run_input; [exact E2|cbn; lia|exact S2]); intros f3 E3; cbn [insert list_insert] in E3.
    exists (arg_of v xv); split; [by apply src_at, Ov|]; split; [apply E3|]; rewrite (yields_src _ _ _ _ _ Y); eapply editing_src; [exact E3|by eapply yields_src].
  - right; split; [done|]; split; [done|]; intros c A s k R Hch.
    assert (Hcc : c ∈ [IntDiv; IntSdiv]).
    { inversion Hch as [? ? ? ? ? ? ? ? ? ? ? V]; subst; destruct (view_two _ _ _ _ _ _ V) as (o' & ? & ? & ? & ? & Ho' & <- & _); assert (o' = o) as -> by (pose proof (yd_op _ _ _ _ _ Y); congruence); done. }
    destruct (chain_found_match c A s k R Hch Hcc) as (v & _ & Em'); [rewrite (yd_op _ _ _ _ _ Y); cbn; by rewrite (yd_out _ _ _ _ _ Y)|done|congruence].
  - left; split; [done|]; destruct (found_chain o a b r x y z v sz k B Hc He Em) as (xv & Hxv & Hch).
    assert (A = arg_of v xv) as -> by (rewrite (src_at _ _ _ Hxv) in Hv; congruence).
    eexists _, _, _, _, _; split; [exact Hch|]; eapply op_is_view; [exact I|]; cbn; rewrite Hr; by rewrite (yields_src _ _ _ _ _ Y).
Qed.

End Chains.
