(* ===== verification/ModRulesSound.v ===== *)
(** Soundness of the rules that recover remainders by powers of two. *)
From Stdlib Require Import ZArith Lia Bool List.
From stdpp Require Import base decidable option list strings gmap numbers tactics.
From S2P Require Import Prelude Space OpCode BitUtil PcodeSem Funcdata FuncdataLinks FuncdataEdits FuncdataRemove FuncdataBlocks FuncdataTheorems FuncdataBuild RuleBase Divopt DivRules Valuation ValuationEdits Rewrite RuleFacts RuleArith DivRulesSound.
Local Open Scope Z_scope.
Local Open Scope match_scope.

(** one where the value is negative: what rounds it towards zero *)
Definition sign_carry (s v : Z) : Z := if v <? modulus s / 2 then 0 else 1.

(** a body with steps that give up *)
Ltac walk W T := repeat (progress (follow W T; cbn [try])).

(** and with guards that go on to the next slot *)
Ltac walk_slot W T := walk W T; repeat match goal with
  | |- finds (if _ then _ else Some (Some None)) _ =>
      let G := fresh "G" in apply finds_if; [intros G; guards | intros _; apply finds_some; discriminate]; walk W T
  end.

Section Matches.
Context (f : funcdata) (W : wf f) (T : typed f).

(** the opposite of the sign of a value *)
Lemma carry_solved (o o' : nat) (p p' : pcode_op) (a b r a' b' : nat) (x y z x' y' : varnode) (rho : nat -> Z) : binop f o p a b r x y z ->
  binop f o' p' a' b' a x' y' x -> opc p = IntMult -> is_constant y = true -> constant_value y = calc_mask (size y) ->
  opc p' = IntSright -> is_constant y' = true -> constant_value y' = sign_bit x' -> solution f rho ->
  vval rho r z = sign_carry (size z) (vval rho a' x').
Proof.
  intros B B' E C K E' C' K' Hs; destruct (opposite_solved f _ _ _ _ _ _ _ _ B E C K) as [Sx Ev].
  destruct (sign_solved f _ _ _ _ _ _ _ _ B' E' C' K') as [Sx' Ev']; rewrite (Ev rho Hs), (Ev' rho Hs), Sx; apply opp_sign_word.
  eapply operand_size, B.
Qed.

(** ** [RuleSignMod2nOpt2] *)

Lemma sign_ext_slot_finds (add : pcode_op) (addop a b r i : nat) (x y z : varnode) : binop f addop add a b r x y z -> opc add = IntAdd -> (i < 2)%nat ->
  finds (sign_ext_slot f add i) (fun t => forall v, t = Some v -> exists xv, operand f v xv /\ size xv = size z /\
    forall rho, solution f rho -> vval rho r z = wrap (size z) (vval rho v xv + sign_carry (size z) (vval rho v xv))).
Proof.
  intros B Ec Hi; destruct (add_slot _ _ _ _ _ _ _ _ _ _ B Ec Hi) as (u & w & xu & xw & Iu & Iw & Ou & Ow & Su & Sw & Eadd).
  operand_parts Ou; operand_parts Ow; unfold sign_ext_slot; walk_slot W T.
  apply finds_some; intros v [= <-]; exists xw; split; [done|]; split; [done|]; intros rho Hs.
  assert (a1 = w) as -> by congruence; assert (xa0 = xw) as -> by congruence.
  rewrite (Eadd rho Hs), Z.add_comm, (carry_solved _ _ _ _ _ _ _ _ _ _ _ _ _ _ rho B0 B1 ltac:(done) ltac:(done) ltac:(done) ltac:(done) ltac:(done)); rewrite ?Su; try done.
  rewrite sign_bit_eq by done; eapply (i64_value (size xb0)); [done|by apply (on_const _ _ _ Ob0)|lia|unfold valid_size in *; lia].
Qed.

Lemma check_sign_ext_form_finds (add : pcode_op) (addop a b r : nat) (x y z : varnode) : binop f addop add a b r x y z -> opc add = IntAdd ->
  finds (check_sign_ext_form f addop) (fun v => exists xv, operand f v xv /\ size xv = size z /\
    forall rho, solution f rho -> vval rho r z = wrap (size z) (vval rho v xv + sign_carry (size z) (vval rho v xv))).
Proof.
  intros B Ec; unfold check_sign_ext_form; rewrite (yd_op _ _ _ _ _ (bo_yields _ _ _ _ _ _ _ _ _ B)); cbn [mbind option_bind].
  eapply finds_call; [eapply sign_ext_slot_finds; [exact B|done|lia]|]; intros [v|] Hv; [by apply finds_some, Hv|].
  eapply finds_call; [eapply sign_ext_slot_finds; [exact B|done|lia]|]; intros [v|] Hv'; [by apply finds_some, Hv'|apply finds_none].
Qed.

(** a sum that reads [v] once, and [w] *)
Lemma sign_mod2_root_finds (base mult_out root_op : nat) (xb xm : varnode) : operand f base xb -> varnodes f !! mult_out = Some xm -> In root_op (descend xm) ->
  finds (sign_mod2_root f base mult_out root_op) (fun '(op, slot) => exists root a b r x y z, binop f op root a b r x y z /\
    (slot = 0%nat \/ slot <> 0%nat /\ arg_of a x = arg_of base xb) /\ size xb = size z /\ size xm = size z /\
    forall rho, solution f rho -> vval rho r z = wrap (size z) (vval rho base xb + vval rho mult_out xm)).
Proof.
  intros Ob Hx Hr; destruct (reader_op f mult_out root_op xm W Hx Hr) as (p & Hp & Hin); operand_parts Ob; unfold sign_mod2_root; walk W T.
  destruct (uniform_sizes _ _ _ _ _ _ _ _ _ B ltac:(by rewrite G)) as [Sa Sb]; rewrite !(input_at p _ _ Hin0) in *; cbn in *.
  apply finds_some; exists p, a, b, r, xa, xb0, z; split; [done|].
  assert (Esum : forall rho, solution f rho -> vval rho r z = wrap (size z) (vval rho a xa + vval rho b xb0)).
  { intros rho Hs; pose proof (binop_solved _ _ _ _ _ _ _ _ _ _ rho B G eq_refl Hs) as E; cbn in E; by injection E as <-. }
  case_bool_decide as E; cbn in G0; injection G0 as G0.
  - injection E as ->; subst b; assert (xb0 = xb) as -> by congruence; assert (xa = xm) as -> by congruence.
    split_and!; try done; [by left|]; intros rho Hs; rewrite Z.add_comm; by apply Esum.
  - subst a; assert (b = mult_out) as -> by (rewrite Hin0 in Hin; cbn in Hin; destruct Hin as [->|[->|[]]]; [by destruct E|done]); assert (xa = xb) as -> by congruence; assert (xb0 = xm) as -> by congruence.
    split_and!; try done; by right.
Qed.

Lemma minus_two (s c : Z) : valid_size s -> is_value s c -> Z.land (u64_add (u64_not c) 1) (calc_mask s) = 2 -> c = modulus s - 2.
Proof.
  intros Hs Hc; unfold u64_add, u64_not; rewrite land_calc_mask by done; intros E; rewrite <- (opposite_opposite s c Hc).
  pose proof (modulus_ge s Hs); assert (E' : wrap s (- c) = 2).
  { rewrite <- E; unfold wrap; rewrite Z.add_mod, w64_mod, <- Z.add_mod by (try done; lia); f_equal; unfold Z.lnot; lia. }
  rewrite E'; unfold wrap; symmetry; apply Z.mod_unique with (-1); lia.
Qed.

(** the sum that takes the even value next to [v] off [v] *)
Lemma sign_mod2n2_match_finds (op : nat) (o : pcode_op) (a b r : nat) (x y z : varnode) : binop f op o a b r x y z -> opc o = IntMult ->
  finds (sign_mod2n2_match f op) (fun '(v, n, root_op, slot) => n = 2 /\ exists root a b r x y z xv, binop f root_op root a b r x y z /\ operand f v xv /\
    (slot = 0%nat \/ slot <> 0%nat /\ arg_of a x = arg_of v xv) /\ size xv = size z /\
    forall rho, solution f rho -> eval2 IntSrem (size z) (size z) (size z) (vval rho v xv) 2 = Some (vval rho r z)).
Proof.
  intros B Ec; pose proof (yd_op _ _ _ _ _ (bo_yields _ _ _ _ _ _ _ _ _ B)) as Ho; binop_parts B; yields_parts B; unfold sign_mod2n2_match; walk W T.
  destruct (def_binop f a0 d0 xa p0 W T ltac:(done) ltac:(done) ltac:(done) ltac:(by match goal with E : opc p0 = _ |- _ => rewrite E end)) as (u & w & xu & xw & B2).
  eapply finds_call; [by eapply check_sign_ext_form_finds|]; intros v (xv & Ov & Sv & Ev); operand_parts Ov; walk W T.
  eapply finds_call; [apply finds_of; intros q Hq; by eapply sign_mod2_root_finds|].
  intros [root_op slot] (root & a' & b' & r' & x' & y' & z' & B' & Hslot & S1 & S2 & Er); apply finds_some; split; [done|].
  exists root, a', b', r', x', y', z', xv; split_and!; try done; intros rho Hs.
  destruct (uniform_sizes _ _ _ _ _ _ _ _ _ B ltac:(by rewrite Ec)) as [Z1 Z2]; destruct (uniform_sizes _ _ _ _ _ _ _ _ _ B0 ltac:(by rewrite G2)) as [Z3 Z4].
  destruct (opposite_solved f _ _ _ _ _ _ _ _ B Ec G G0) as [_ Eo]; pose proof (binop_solved _ _ _ _ _ _ _ _ _ _ rho B0 G2 eq_refl Hs) as Ea; cbn in Ea; injection Ea as Ea.
  rewrite (vval_const rho b0 xb G3) in Ea; rewrite Z2, <- Z1, <- Z4 in G6.
  rewrite (minus_two (size xb) (constant_value xb)) in Ea; [|done|by apply (on_const _ _ _ Ob0)|done].
  rewrite (Er rho Hs), (Eo rho Hs), <- Ea, (Ev rho Hs); replace (size z) with (size z') by done; replace (size x) with (size z') by congruence.
  replace (size xa) with (size z') by congruence; replace (size xb) with (size z') by congruence.
  assert (Hz : valid_size (size z')) by (by rewrite <- S1).
  rewrite wrap_opp_wrap; cbn; rewrite signed_two by done; f_equal; symmetry; apply mod_two_even; [done|]; rewrite <- S1; by eapply operand_fits.
Qed.
End Matches.

#[export] Instance sign_mod2n2_sound : Sound RuleSignMod2nOpt2.
Proof.
  intros f op W T Ht; destruct (target_binop _ f op W T Ht) as (o & a & b & r & x & y & z & B & Hc & _); [done|done|]; apply list_elem_of_singleton in Hc.
  cbn [apply_op RuleSignMod2nOpt2]; eapply fire_result; [done|done|by eapply sign_mod2n2_match_finds|].
  intros [[[v n] root_op] slot] (-> & root & a' & b' & r' & x' & y' & z' & xv & B' & Ov & Hslot & Sv & Hg).
  pose proof (operand_size _ _ _ _ _ (bo_yields _ _ _ _ _ _ _ _ _ B')) as Vz; pose proof (modulus_ge _ Vz) as Mz.
  pose proof (editing_start f root_op _ _ _ W (binop_is _ _ _ _ _ _ _ _ _ B')) as E0.
  apply runs_bind; apply (runs_mono _ (fun f1 => editing f f1 root_op (opc root) [arg_of v xv; arg_of b' y'] (Some r'))).
  { destruct Hslot as [-> |[N <-]]; [cbn [Nat.eqb]|by rewrite (proj2 (Nat.eqb_neq _ _) N)].
    edit ltac:(eapply run_input; [exact E0|cbn; lia|apply src_at, Ov]); intros f1 E1; exact E1. }
  intros f1 E1; carry E1 Ov.
  edit ltac:(eapply run_const; exact E1); intros [c f2] [E2 S2].
  edit ltac:(eapply run_input; [exact E2|cbn; lia|exact S2]); intros f3 E3.
  edit ltac:(eapply run_opcode; exact E3); intros f4 E4; rewrite Sv in E4; cbn [insert list_insert] in E4.
  eapply const_result; [done|done|exact B'|exact Ov|exact E4|done|unfold is_value; lia|done|done|exact Hg].
Qed.

(** ** [RuleSignMod2Opt] *)

Section SignMod2.
Context (f : funcdata) (W : wf f) (T : typed f).

Lemma truncated_finds (v : nat) (x : varnode) (amount : Z) : operand f v x ->
  finds (truncated f v amount) (fun u => exists xu, operand f u xu /\ size x <= size xu /\
    forall rho, solution f rho -> vval rho v x = wrap (size x) (vval rho u xu / 2 ^ (8 * amount))).
Proof.
  intros O; operand_parts O; unfold truncated; walk W T; apply finds_some; exists xa; split; [done|].
  split; [pose proof (bo_sizes _ _ _ _ _ _ _ _ _ B) as E; rewrite G0 in E; by apply Z.leb_le in E|]; intros rho Hs.
  pose proof (binop_solved _ _ _ _ _ _ _ _ _ _ rho B G0 eq_refl Hs) as E; cbn in E; injection E as <-.
  by rewrite (vval_const rho b xb), G1 by (by apply (bo_offset _ _ _ _ _ _ _ _ _ B G0)).
Qed.

(** two pieces of one value, that have its sign and its parity *)
Lemma truncated_base_finds (base other : nat) (xb xo : varnode) : operand f base xb -> operand f other xo ->
  finds (truncated_base f base other) (fun v => exists xv, operand f v xv /\ forall rho, solution f rho ->
    sign_carry (size xb) (vval rho base xb) = sign_carry (size xv) (vval rho v xv) /\ vval rho other xo = wrap (size xo) (vval rho v xv)).
Proof.
  intros Ob Oo; operand_parts Ob; operand_parts Oo; unfold truncated_base; walk W T.
  eapply finds_call; [by apply truncated_finds|]; intros w (xw & Ow & _ & Ew); walk W T; apply finds_some; exists xa; split; [done|]; intros rho Hs.
  destruct (bo_offset _ _ _ _ _ _ _ _ _ B G) as [Kc _]; pose proof (bo_sizes _ _ _ _ _ _ _ _ _ B) as Sz; rewrite G in Sz; apply Z.leb_le in Sz.
  pose proof (value_u64 _ _ (on_size _ _ _ Ob0) (on_const _ _ _ Ob0 Kc)) as Kv; fold (constant_value xb0) in Kv.
  assert (Ec : constant_value xb0 = size xa - size xb).
  { unfold valid_size, u64_add, w64 in *; clear -G0 Hval Hval1 Sz Kv; change 18446744073709551616 with (2 ^ 64) in G0; pose proof (Z.div_mod (constant_value xb0 + size xb) (2 ^ 64) ltac:(lia)) as D; lia. }
  pose proof (binop_solved _ _ _ _ _ _ _ _ _ _ rho B G eq_refl Hs) as E; cbn in E; injection E as <-; rewrite (vval_const rho b xb0 Kc), Ec.
  pose proof (operand_fits _ _ _ _ Hs Oa) as Fv; split.
  - unfold sign_carry; by rewrite high_part_sign by (unfold valid_size in *; lia || done).
  - rewrite (Ew rho Hs); change (2 ^ (8 * 0)) with 1; rewrite Z.div_1_r; assert (xw = xa) as -> by (rewrite G1 in *; operand_parts Ow; congruence); by rewrite G1.
Qed.

Lemma minus_term_finds (add : pcode_op) (addop a b r i : nat) (x y z : varnode) : binop f addop add a b r x y z -> (i < 2)%nat ->
  opc add = IntAdd -> finds (minus_term f add i) (fun '(slot, m) => exists u w xu xw mo, input add (1 - slot) = Some w /\
    operand f w xw /\ size xu = size z /\ size xw = size z /\ exists m0 c x0 xc, binop f mo m m0 c u x0 xc xu /\ opc m = IntMult /\
    is_constant xc = true /\ constant_value xc = calc_mask (size xc) /\
    forall rho, solution f rho -> vval rho r z = wrap (size z) (vval rho u xu + vval rho w xw)).
Proof.
  intros B Hi Ec; destruct (add_slot _ _ _ _ _ _ _ _ _ _ B Ec Hi) as (u & w & xu & xw & Iu & Iw & Ou & Ow & Su & Sw & Eadd).
  operand_parts Ou; unfold minus_term; walk W T; apply finds_some; exists u, w, xu, xw, d; split_and!; try done.
  exists a0, b0, xa, xb; by split_and!.
Qed.

(** the term of a sum other than [v], by its slot *)
Lemma other_slot (o : nat) (p : pcode_op) (a b r v : nat) (x y z xv : varnode) : binop f o p a b r x y z -> opc p = IntAdd -> In v (inrefs p) ->
  varnodes f !! v = Some xv -> exists w xw, input p (1 - (if bool_decide (input p 0 = Some v) then 0 else 1)) = Some w /\ operand f w xw /\
    size xw = size z /\ size xv = size z /\ forall rho, solution f rho -> vval rho r z = wrap (size z) (vval rho v xv + vval rho w xw).
Proof.
  intros B Ec Hin Hx; destruct (other_input _ _ _ _ _ _ v _ _ _ a b B Hin ltac:(by rewrite Ec) ltac:(by left)) as (w & xw & Ew & Ow & Sw & Hw).
  destruct (Hw xv Hx) as [Sv Hval]; exists w, xw; split_and!; try done.
  - rewrite <- Ew; unfold input; rewrite (bo_in _ _ _ _ _ _ _ _ _ B); cbn; destruct (Nat.eqb_spec a v) as [-> |N]; [by rewrite bool_decide_true|].
    rewrite bool_decide_false; [done|congruence].
  - intros rho Hs; pose proof (binop_solved _ _ _ _ _ _ _ _ _ _ rho B Ec eq_refl Hs) as E; cbn in E; injection E as <-.
    destruct (Hval rho) as [[-> ->]|[-> ->]]; [done|by rewrite Z.add_comm].
Qed.

(** the sum that reads the parity, and adds the sign to it *)
Lemma sign_mod2_sum_finds (base and_out root_op : nat) (xb xa : varnode) : operand f base xb -> varnodes f !! and_out = Some xa -> In root_op (descend xa) ->
  finds (sign_mod2_sum f base and_out root_op) (fun op => exists root a b r x y z, binop f op root a b r x y z /\ size xb = size z /\
    forall rho, solution f rho -> vval rho r z = wrap (size z) (vval rho and_out xa + sign_word (size z) (vval rho base xb))).
Proof.
  intros Ob Hx Hr; destruct (reader_op f and_out root_op xa W Hx Hr) as (p & Hp & Hin); operand_parts Ob; unfold sign_mod2_sum; rewrite Hp; cbn [mbind option_bind].
  apply finds_need; intros G; guards; destruct (binop_at f root_op p W T Hp ltac:(by rewrite G) (live_in p and_out Hin)) as (a & b & r & x & y & z & B).
  destruct (other_slot _ _ _ _ _ and_out _ _ _ xa B G Hin Hx) as (w & xw & -> & Ow & Sw & Sa & Hg); cbn [mbind option_bind].
  pose proof (check_sign_extraction_finds f W T w xw Ow) as Hsign; unfold finds in Hsign; destruct (check_sign_extraction f w) as [r0|]; [|done]; cbn in Hsign |- *.
  apply finds_need; intros G'; guards; subst r0; destruct (Hsign base eq_refl) as (xb' & Ob' & Sb & Ev); apply finds_some.
  assert (xb' = xb) as -> by (operand_parts Ob'; congruence); exists p, a, b, r, x, y, z; split_and!; [done|congruence|].
  intros rho Hs; rewrite (Hg rho Hs), (Ev rho Hs); by replace (size xb) with (size z) by congruence.
Qed.

(** the parity, whole or extended *)
Lemma parity_finds (trunc : bool) (out : nat) (xout : varnode) : operand f out xout -> is_constant xout = false ->
  finds (if trunc then
      need (Nat.eqb (List.length (descend xout)) 1) in
      ext_op ← descend xout !! 0%nat; e ← ops f !! ext_op;
      need (is_code IntZext e) in
      v ← output e; found v
    else found out) (fun v => exists xv, operand f v xv /\ forall rho, solution f rho -> vval rho v xv = vval rho out xout).
Proof.
  intros Oo Kv; operand_parts Oo; apply finds_if; intros _; [|apply finds_some; by exists xout].
  apply finds_need; intros G; guards; destruct (descend xout) as [|e l] eqn:Ed; [done|]; cbn.
  destruct (reader_op f out e xout W Hat ltac:(rewrite Ed; by left)) as (p & Hp & Hin); rewrite Hp; cbn [mbind option_bind].
  apply finds_need; intros G'; guards; destruct (unop_at f e p W T Hp ltac:(by rewrite G') (live_in p out Hin)) as (a & r & x & z & U); unop_parts U.
  pose proof (uo_yields _ _ _ _ _ _ _ U) as Y; rewrite (yd_out _ _ _ _ _ Y); apply finds_some; exists z; split; [apply Y|]; intros rho Hs.
  assert (a = out) as -> by (rewrite Hin0 in Hin; cbn in Hin; intuition); assert (x = xout) as -> by congruence.
  pose proof (unop_solved _ _ _ _ _ _ _ _ rho U G' eq_refl Hs) as E; cbn in E; injection E as <-; apply wrap_small.
  pose proof (uo_sizes _ _ _ _ _ _ _ U) as Sz; rewrite G' in Sz; apply Z.ltb_lt in Sz; pose proof (operand_fits _ _ _ _ Hs Oa) as [F1 F2]; split; [done|].
  eapply Z.lt_le_trans; [exact F2|]; unfold modulus; apply Z.pow_le_mono_r; lia.
Qed.

Lemma base_finds (base other : nat) (xb xo : varnode) : operand f base xb -> operand f other xo ->
  finds (if negb (Nat.eqb base other) then truncated_base f base other else found base) (fun v => exists xv, operand f v xv /\ forall rho, solution f rho ->
    sign_carry (size xb) (vval rho base xb) = sign_carry (size xv) (vval rho v xv) /\ vval rho other xo = wrap (size xo) (vval rho v xv)).
Proof.
  intros Ob Oo; destruct (Nat.eqb_spec base other) as [-> |N]; cbn [negb]; [|by apply truncated_base_finds].
  assert (xo = xb) as -> by (operand_parts Ob; operand_parts Oo; congruence); apply finds_some; exists xb; split; [done|]; intros rho Hs; split; [done|].
  symmetry; apply wrap_small; by eapply operand_fits.
Qed.

Lemma parity_value (s v : Z) : valid_size s -> is_value s (v mod 2).
Proof. intros Hs; pose proof (modulus_ge s Hs); pose proof (Z.mod_pos_bound v 2 ltac:(lia)); unfold is_value; lia. Qed.

Lemma sign_mod2_match_finds (op : nat) (o : pcode_op) (a b r : nat) (x y z : varnode) : binop f op o a b r x y z -> opc o = IntAnd ->
  finds (sign_mod2_match f op) (fun '(v, root_op) => exists root a b r x y z xv, binop f root_op root a b r x y z /\ operand f v xv /\ size xv = size z /\
    forall rho, solution f rho -> eval2 IntSrem (size z) (size z) (size z) (vval rho v xv) 2 = Some (vval rho r z)).
Proof.
  intros B Ec; pose proof (yd_op _ _ _ _ _ (bo_yields _ _ _ _ _ _ _ _ _ B)) as Ho; binop_parts B; yields_parts B; unfold sign_mod2_match; walk W T.
  eapply finds_call; [apply finds_slot; (eapply minus_term_finds; [exact B0|lia|done])|].
  intros [slot m] (u & w & xu & xw & mo & Iw & Ow & Su & Sw & m0 & c & x0 & xc & Bm & Em & Kc & Vc & Esum).
  pose proof (bo_a _ _ _ _ _ _ _ _ _ Bm) as Om; binop_parts Bm; walk W T.
  eapply finds_call; [eapply check_sign_extraction_finds; [done|done|exact Om]|]; intros base0 (x0' & Ob0' & Sb0 & Esign); walk W T.
  eapply finds_call; [by eapply base_finds|]; intros v (xv & Ov & Ev); operand_parts Ov; walk W T.
  eapply finds_call; [apply parity_finds; [exact On|apply Y]|]; intros q (xq & Oq & Eq); operand_parts Oq; walk W T.
  eapply finds_call; [apply finds_of; intros t Ht; by eapply sign_mod2_sum_finds|].
  intros root_op (root & a' & b' & r' & x' & y' & z' & B' & Sv & Er); apply finds_some; exists root, a', b', r', x', y', z', xv; split_and!; try done; intros rho Hs.
  destruct (uniform_sizes _ _ _ _ _ _ _ _ _ B ltac:(by rewrite Ec)) as [Z1 _]; destruct (Ev rho Hs) as [Ecarry Ew].
  destruct (opposite_solved f _ _ _ _ _ _ _ _ Bm Em Kc Vc) as [Z2 Eo]; pose proof (binop_solved _ _ _ _ _ _ _ _ _ _ rho B Ec eq_refl Hs) as E; cbn in E; injection E as E.
  rewrite (vval_const rho b y H), H0, (Esum rho Hs), (Eo rho Hs), (Esign rho Hs), Sb0, Z2, opp_sign_word in E by (rewrite <- Z2; done).
  fold (sign_carry (size xu) (vval rho base0 x0')) in E; rewrite <- Z2, <- Sb0, Ecarry, Ew, Sw, wrap_add_r in E.
  assert (Hz : valid_size (size z')) by (by rewrite <- Sv).
  rewrite (Er rho Hs), (Eq rho Hs), <- E; cbn; rewrite signed_two by done; f_equal; rewrite Sv.
  change 1 with (Z.ones 1) at 1; rewrite Z.land_ones by done; change (2 ^ 1) with 2; rewrite wrap_parity, (wrap_small (size z) (_ mod 2)) by (try done; by apply parity_value); rewrite (Z.add_comm (sign_carry _ _)).
  symmetry; apply mod_two_odd; [done|]; rewrite <- Sv; by eapply operand_fits.
Qed.
End SignMod2.

#[export] Instance sign_mod2_sound : Sound RuleSignMod2Opt.
Proof.
  intros f op W T Ht; destruct (target_binop _ f op W T Ht) as (o & a & b & r & x & y & z & B & Hc & _); [done|done|]; apply list_elem_of_singleton in Hc.
  cbn [apply_op RuleSignMod2Opt]; eapply fire_result; [done|done|by eapply sign_mod2_match_finds|].
  intros [v root_op] (root & a' & b' & r' & x' & y' & z' & xv & B' & Ov & Sv & Hg).
  pose proof (operand_size _ _ _ _ _ (bo_yields _ _ _ _ _ _ _ _ _ B')) as Vz; pose proof (modulus_ge _ Vz) as Mz.
  pose proof (editing_start f root_op _ _ _ W (binop_is _ _ _ _ _ _ _ _ _ B')) as E0.
  edit ltac:(eapply run_opcode; exact E0); intros f1 E1.
  edit ltac:(eapply run_input; [exact E1|cbn; lia|eapply editing_src; [exact E1|apply src_at, Ov]]); intros f2 E2; carry E2 Ov.
  edit ltac:(eapply run_const; exact E2); intros [c f3] [E3 S3].
  edit ltac:(eapply run_input; [exact E3|cbn; lia|exact S3]); intros f4 E4; rewrite Sv in E4; cbn [insert list_insert] in E4.
  eapply const_result; [done|done|exact B'|exact Ov|exact E4|done|unfold is_value; lia|done|done|exact Hg].
Qed.
