(* ===== verification/RulesSound.v ===== *)
(** Soundness of the simplification rules on single operations. *)
From Stdlib Require Import ZArith Lia Bool List.
From stdpp Require Import base decidable option list strings gmap numbers tactics.
From S2P Require Import Prelude Space OpCode BitUtil PcodeSem Funcdata FuncdataLinks FuncdataEdits FuncdataRemove FuncdataBlocks FuncdataTheorems FuncdataBuild RuleBase Divopt DivRules Rules Valuation ValuationEdits Rewrite RuleFacts RuleArith DivRulesSound.
Local Open Scope Z_scope.
Local Open Scope match_scope.

(** ** Sizes and codes *)

(** the codes that compare two values of one size *)
Definition is_compare (c : opcode) : bool :=
  match c with IntEqual | IntNotequal | IntLess | IntLessequal | IntSless | IntSlessequal | IntCarry | IntScarry | IntSborrow => true | _ => false end.

Definition is_logic (c : opcode) : bool := match c with BoolAnd | BoolOr | BoolXor => true | _ => false end.

Section Sizes.
Context (f : funcdata) (o : nat) (p : pcode_op) (a b r : nat) (x y z : varnode) (B : binop f o p a b r x y z).

Lemma compare_sizes : is_compare (opc p) = true -> size x = size y /\ size z = 1.
Proof. intros Hc; pose proof (bo_sizes _ _ _ _ _ _ _ _ _ B) as H; destruct (opc p); try done; cbn in H; apply andb_true_iff in H as [H1%Z.eqb_eq H2%Z.eqb_eq]; done. Qed.

Lemma logic_sizes : is_logic (opc p) = true -> size x = 1 /\ size y = 1 /\ size z = 1.
Proof.
  intros Hc; pose proof (bo_sizes _ _ _ _ _ _ _ _ _ B) as H; destruct (opc p); try done; cbn in H;
    apply andb_true_iff in H as [[H1%Z.eqb_eq H2%Z.eqb_eq]%andb_true_iff H3%Z.eqb_eq]; done.
Qed.

(** the inputs of a logical operation are truth values *)
Lemma logic_bools (rho : nat -> Z) : is_logic (opc p) = true -> solution f rho -> 0 <= vval rho a x <= 1 /\ 0 <= vval rho b y <= 1.
Proof.
  intros Hc Hs; pose proof (binop_solved _ _ _ _ _ _ _ _ _ _ rho B eq_refl ltac:(by destruct (opc p)) Hs) as E; unfold eval2 in E.
  destruct (is_bool (vval rho a x)) eqn:E1, (is_bool (vval rho b y)) eqn:E2; destruct (opc p); try done;
    apply andb_true_iff in E1 as [E1%Z.leb_le E1'%Z.leb_le]; apply andb_true_iff in E2 as [E2%Z.leb_le E2'%Z.leb_le]; lia.
Qed.
End Sizes.

Lemma bool_cases (v : Z) : 0 <= v <= 1 -> v = 0 \/ v = 1.
Proof. lia. Qed.

Lemma truth_value (v : Z) : 0 <= v <= 1 -> is_value 1 v.
Proof. unfold is_value; change (modulus 1) with 256; lia. Qed.

(** ** [RuleTrivialArith] *)

Lemma trivial_arith_match_finds (f : funcdata) (op : nat) (o : pcode_op) (a b r : nat) (x y z : varnode) : binop f op o a b r x y z ->
  finds (trivial_arith_match f op) (fun cval =>
    match cval with
    | Some (s, k) => s = size z /\ is_value (size z) k /\ forall rho, solution f rho -> vval rho r z = k
    | None => size x = size z /\ forall rho, solution f rho -> vval rho a x = vval rho r z
    end).
Proof.
  intros B; pose proof (yd_op _ _ _ _ _ (bo_yields _ _ _ _ _ _ _ _ _ B)) as Ho; binop_parts B; yields_parts B; unfold trivial_arith_match, two_inputs, input.
  rewrite Ho; cbn [mbind option_bind]; rewrite Hin; cbn; apply finds_need; intros G; guards; injection G as <-; rewrite Hout; cbn; rewrite Hat1; cbn.
  assert (y = x) as -> by congruence; apply finds_try; intros cval Hc; apply finds_some.
  assert (V0 : is_value (size z) 0) by (apply zero_is_value; unfold valid_size in *; lia).
  assert (Hs : forall rho, solution f rho -> eval2 (opc o) (size x) (size x) (size z) (vval rho a x) (vval rho a x) = Some (vval rho r z)).
  { intros rho Hr; eapply binop_solved; [exact B|done| |done]; by destruct (opc o). }
  destruct (opc o) eqn:Ec; try discriminate Hc; injection Hc as <-.
  all: try (destruct (compare_sizes _ _ _ _ _ _ _ _ _ B ltac:(by rewrite Ec)) as [_ Sz]; rewrite Sz; split_and!; [done|apply truth_value; lia|];
    intros rho Hr; pose proof (Hs rho Hr) as E; cbn in E; rewrite ?Z.eqb_refl, ?Z.ltb_irrefl, ?Z.leb_refl in E; cbn in E; by injection E).
  all: try (destruct (uniform_sizes _ _ _ _ _ _ _ _ _ B ltac:(by rewrite Ec)) as [Sz _]; split_and!; try done;
    intros rho Hr; pose proof (Hs rho Hr) as E; cbn in E; rewrite ?Z.lxor_nilpotent, ?Z.land_diag, ?Z.lor_diag in E; injection E as <-; rewrite ?wrap_small; try done;
    rewrite <- Sz; by eapply operand_fits).
  all: destruct (logic_sizes _ _ _ _ _ _ _ _ _ B ltac:(by rewrite Ec)) as (S1 & _ & S3); rewrite ?S1, ?S3; split_and!; try done; try (by apply truth_value).
  all: intros rho Hr; pose proof (Hs rho Hr) as E; destruct (logic_bools _ _ _ _ _ _ _ _ _ B rho ltac:(by rewrite Ec) Hr) as [Hb _].
  all: destruct (bool_cases _ Hb) as [Eb|Eb]; rewrite Eb in *; cbn in E; by injection E.
Qed.

#[export] Instance trivial_arith_sound : Sound RuleTrivialArith.
Proof.
  intros f op W T Ht; destruct (target_binop _ f op W T Ht) as (o & a & b & r & x & y & z & B & Hc & _); [done|done|].
  cbn [apply_op RuleTrivialArith]; eapply fire_result; [done|done|by eapply trivial_arith_match_finds|]; intros cval Hg.
  pose proof (binop_site _ _ _ _ _ _ _ _ _ B) as S; pose proof (bo_a _ _ _ _ _ _ _ _ _ B) as Oa.
  pose proof (editing_start f op _ _ _ W (binop_is _ _ _ _ _ _ _ _ _ B)) as E0.
  edit ltac:(eapply run_remove; [exact E0|cbn; lia]); intros f1 E1.
  edit ltac:(eapply run_opcode; exact E1); intros f2 E2; cbn [delete list_delete] in E2; destruct cval as [[s k]|].
  - destruct Hg as (-> & Hk & Hg); edit ltac:(eapply run_const; exact E2); intros [c f3] [E3 S3].
    edit ltac:(eapply run_input; [exact E3|cbn; lia|exact S3]); intros f4 E4; by eapply copy_const_result.
  - destruct Hg as [Sx Hg]; by eapply copy_result.
Qed.

(** the operation a rule is tried on, its operands, and the edits of it *)
Ltac begin_binary lem :=
  intros f op W T Ht; destruct (target_binop _ f op W T Ht) as (o & a & b & r & x & y & z & B & Hc & Hi); [done|done|];
  pose proof (binop_site _ _ _ _ _ _ _ _ _ B) as S; pose proof (bo_a _ _ _ _ _ _ _ _ _ B) as Oa; pose proof (bo_b _ _ _ _ _ _ _ _ _ B) as Ob;
  pose proof (editing_start f op _ _ _ W (binop_is _ _ _ _ _ _ _ _ _ B)) as E0;
  cbn [apply_op oplist]; eapply fire_result; [done|done|eapply lem; try exact B; try done|].

(** ** [RuleTermOrder] *)

Definition commutes (c : opcode) : bool :=
  match c with IntEqual | IntNotequal | IntAdd | IntCarry | IntScarry | IntXor | IntAnd | IntOr | IntMult | BoolXor | BoolAnd | BoolOr => true | _ => false end.

Lemma eval2_commutes (c : opcode) (s out v w : Z) : commutes c = true -> eval2 c s s out v w = eval2 c s s out w v.
Proof.
  intros Hc; destruct c; try done; cbn; rewrite ?(Z.add_comm v w), ?(Z.mul_comm v w), ?(Z.land_comm v w), ?(Z.lor_comm v w), ?(Z.lxor_comm v w), ?(Z.eqb_sym v w),
    ?(Z.add_comm (signed s v)), ?(andb_comm (is_bool v)), ?(Z.land_comm (Z.land v 1)), ?(Z.lor_comm (Z.land v 1)), ?(Z.lxor_comm (Z.land v 1)); done.
Qed.

Lemma term_order_match_finds (f : funcdata) (op : nat) : wf f -> is_op f op = true -> finds (term_order_match f op) (fun _ => exists o A B, ops f !! op = Some o /\
  op_is f op (opc o) [A; B] (output o)).
Proof.
  intros W Hi; destruct (is_op_at f op Hi) as [o Ho]; unfold term_order_match; rewrite Ho; cbn [mbind option_bind].
  apply finds_need; intros G; unfold two_inputs in G; guards; destruct (inrefs o) as [|a [|b [|]]] eqn:Ei; try done; unfold input; rewrite Ei; cbn [lookup list_lookup mbind option_bind].
  pose proof (graph_in_arena f op (wf_graph _ W)) as Ha; rewrite (inputs_at _ _ _ Ho) in Ha; destruct (srcs_total f _ Ha) as [args Eargs].
  assert (Hargs : exists A B, args = [A; B]).
  { rewrite Ei, mapM_Some in Eargs; inversion Eargs as [|? A ? ? _ E1]; subst; inversion E1 as [|? B ? ? _ E2]; subst; inversion E2; eauto. }
  destruct Hargs as (A & B & ->); rewrite Ei in Ha; unfold in_arena in Ha; inversion Ha as [|? ? La Ha']; subst; inversion Ha' as [|? ? Lb _]; subst.
  destruct (lookup_lt_is_Some_2 _ _ La) as [x ->]; destruct (lookup_lt_is_Some_2 _ _ Lb) as [y ->]; cbn [mbind option_bind].
  apply finds_need; intros _; apply finds_some; exists o, A, B; split; [done|]; by exists o.
Qed.

#[export] Instance term_order_sound : Sound RuleTermOrder.
Proof.
  intros f op W T Ht; destruct (target_op _ f op Ht) as (o & Ho & Eo & Hc & Hi); destruct Hc as [Hc|Hc]; [done|].
  cbn [apply_op RuleTermOrder]; eapply fire_result; [done|done|apply term_order_match_finds; [done|by apply Nat.ltb_lt, (lookup_lt_Some _ _ _ Ho)]|].
  intros _ (o' & A & A' & Ho' & I); assert (o' = o) as -> by congruence; clear Ho'.
  assert (Hcase : commutes (opc o) = true \/ evaluable (opc o) = false).
  { apply list_elem_of_In in Hc; cbn in Hc; destruct Hc as [<-|[<-|[<-|[<-|[<-|[<-|[<-|[<-|[<-|[<-|[<-|[<-|[<-|[<-|[<-|[<-|[]]]]]]]]]]]]]]]]]; by auto. }
  destruct Hcase as [Hcm|Hev].
  - destruct (Eo ltac:(by destruct (opc o))) as [r Er]; destruct (binop_at f op o W T Ho ltac:(by destruct (opc o)) (live_out _ _ Er)) as (a & b & r' & x & y & z & B).
    pose proof (bo_a _ _ _ _ _ _ _ _ _ B) as Oa; pose proof (bo_b _ _ _ _ _ _ _ _ _ B) as Ob; pose proof (bo_sizes _ _ _ _ _ _ _ _ _ B) as Sz.
    edit ltac:(eapply run_swap, editing_start; [done|by eapply binop_is]); intros f1 E1.
    eapply pair_result; [done|done|by eapply binop_site|exact E1|by eapply operand_ok|by eapply operand_ok|by destruct (opc o)| |by destruct (opc o)|].
    + cbn; destruct (opc o); try done; cbn in Sz |- *; rewrite !andb_true_iff, !Z.eqb_eq in *; intuition congruence.
    + intros rho Hr; rewrite <- (binop_solved _ _ _ _ _ _ _ _ _ _ rho B eq_refl ltac:(by destruct (opc o)) Hr); cbn.
      assert (Sxy : size x = size y) by (destruct (opc o); try done; cbn in Sz; rewrite !andb_true_iff, !Z.eqb_eq in Sz; intuition congruence).
      rewrite Sxy; by apply eval2_commutes.
  - edit ltac:(eapply run_swap, editing_start; [done|exact I]); intros f1 E1; eapply opaque_result; [done|done|apply E1|exact I|apply E1|apply E1|done].
Qed.

(** ** [RuleIdentityEl] *)

Ltac op_parts B := pose proof (yd_op _ _ _ _ _ (bo_yields _ _ _ _ _ _ _ _ _ B)); binop_parts B; yields_parts B.

(** the codes of a rule's operation *)
Ltac codes Hc := apply list_elem_of_In in Hc; cbn in Hc; repeat (destruct Hc as [Hc|Hc]; [symmetry in Hc|]); try done.

Lemma identity_el_match_finds (f : funcdata) (op : nat) (o : pcode_op) (a b r : nat) (x y z : varnode) : wf f -> typed f -> binop f op o a b r x y z ->
  opc o ∈ [IntAdd; IntXor; IntOr; BoolXor; BoolOr; IntMult] ->
  finds (identity_el_match f op) (fun slot => slot = 1%nat /\ size x = size z /\ (forall rho, solution f rho -> vval rho a x = vval rho r z) \/
    slot = 0%nat /\ size y = size z /\ forall rho, solution f rho -> vval rho b y = vval rho r z).
Proof.
  intros W T B Hc; op_parts B; unfold identity_el_match, two_inputs; follow W T;
  assert (Hs : forall rho, solution f rho -> eval2 (opc o) (size x) (size y) (size z) (vval rho a x) (constant_value y) = Some (vval rho r z)).
  { intros rho Hr; rewrite <- (vval_const rho b y) by done; eapply binop_solved; [exact B|done| |done]; codes Hc; by rewrite Hc. }
  assert (Fx : forall rho, solution f rho -> is_value (size x) (vval rho a x)) by (intros; by eapply operand_fits).
  assert (Hu : uniform (opc o) = true -> size x = size z /\ size y = size z) by (intros; by eapply uniform_sizes).
  apply finds_if; intros G1; guards; [|apply finds_need; intros G2; guards; rewrite G2 in *; destruct (Hu eq_refl) as [Sx Sy]; apply finds_if; intros G3; guards].
  - apply finds_some; left; split; [done|]; destruct (is_logic (opc o)) eqn:El.
    + destruct (logic_sizes _ _ _ _ _ _ _ _ _ B El) as (S1 & _ & S3); split; [congruence|]; intros rho Hr; pose proof (Hs rho Hr) as E.
      destruct (logic_bools _ _ _ _ _ _ _ _ _ B rho El Hr) as [Hb _]; match goal with K : constant_value y = 0 |- _ => rewrite K in E end.
      destruct (bool_cases _ Hb) as [Eb|Eb]; rewrite Eb in *; codes Hc; rewrite Hc in *; try done; cbn in E; by injection E.
    + assert (Eu : uniform (opc o) = true) by (codes Hc; rewrite Hc in *; done); destruct (Hu Eu) as [Sx Sy]; split; [done|]; intros rho Hr; pose proof (Hs rho Hr) as E.
      match goal with K : constant_value y = 0 |- _ => rewrite K in E end; pose proof (Fx rho Hr) as F; rewrite Sx in F.
      codes Hc; rewrite Hc in *; try done; cbn in E; rewrite ?Z.add_0_r, ?Z.lxor_0_r, ?Z.lor_0_r, wrap_small in E by done; by injection E.
  - apply finds_some; left; split; [done|]; split; [done|]; intros rho Hr; pose proof (Hs rho Hr) as E; pose proof (Fx rho Hr) as F; rewrite Sx in F.
    rewrite G3 in E; cbn in E; rewrite Z.mul_1_r, wrap_small in E by done; by injection E.
  - apply finds_if; intros G4; guards; [|apply finds_none]; apply finds_some; right; split; [done|]; split; [done|]; intros rho Hr; pose proof (Hs rho Hr) as E.
    rewrite G4 in E; cbn in E; rewrite Z.mul_0_r in E; rewrite (vval_const rho b y), G4 by done; injection E as <-; unfold wrap; by rewrite Z.mod_0_l by (pose proof (modulus_ge _ Hval1); lia).
Qed.

#[export] Instance identity_el_sound : Sound RuleIdentityEl.
Proof.
  begin_binary identity_el_match_finds; intros slot Hg.
  edit ltac:(eapply run_opcode; exact E0); intros f1 E1.
  edit ltac:(eapply run_remove; [exact E1|cbn; destruct Hg as [[-> _]|[-> _]]; lia]); intros f2 E2.
  destruct Hg as [(-> & Sx & Hg)|(-> & Sy & Hg)]; cbn [delete list_delete] in E2; [eapply (copy_result f f2 op r a)|eapply (copy_result f f2 op r b)]; done.
Qed.

(** ** [RuleTrivialShift] *)

Lemma shift_left_out (s v n : Z) : valid_size s -> 8 * s <= n -> wrap s (v * 2 ^ n) = 0.
Proof.
  intros Hs Hn; unfold valid_size in Hs; replace n with (n - 8 * s + 8 * s) by ring; rewrite Z.pow_add_r, Z.mul_assoc by lia; unfold wrap, modulus.
  apply Z.mod_mul; pose proof (Z.pow_pos_nonneg 2 (8 * s) ltac:(lia) ltac:(lia)); lia.
Qed.

Lemma shift_right_out (s v n : Z) : valid_size s -> is_value s v -> 8 * s <= n -> v / 2 ^ n = 0.
Proof.
  intros Hs Hv Hn; unfold valid_size, is_value, modulus in *; apply Z.div_small; split; [lia|].
  eapply Z.lt_le_trans; [apply Hv|]; apply Z.pow_le_mono_r; lia.
Qed.

Lemma trivial_shift_match_finds (f : funcdata) (op : nat) (o : pcode_op) (a b r : nat) (x y z : varnode) : wf f -> typed f -> binop f op o a b r x y z ->
  opc o ∈ [IntLeft; IntRight; IntSright] -> finds (trivial_shift_match f op) (fun zero =>
    match zero with
    | None => forall rho, solution f rho -> vval rho a x = vval rho r z
    | Some s => s = size z /\ forall rho, solution f rho -> vval rho r z = 0
    end).
Proof.
  intros W T B Hc; op_parts B; unfold trivial_shift_match; follow W T; assert (Es : is_shift (opc o) = true) by (codes Hc; by rewrite Hc).
  pose proof (shift_sizes _ _ _ _ _ _ _ _ _ B Es) as Sx.
  assert (Hs : forall rho, solution f rho -> eval2 (opc o) (size x) (size y) (size z) (vval rho a x) (constant_value y) = Some (vval rho r z)).
  { intros rho Hr; rewrite <- (vval_const rho b y) by done; eapply binop_solved; [exact B|done|by destruct (opc o)|done]. }
  apply finds_if; intros G1; guards.
  - follow W T; apply finds_some; split; [done|]; intros rho Hr; pose proof (Hs rho Hr) as E; pose proof (operand_fits _ _ _ _ Hr Oa) as F.
    codes Hc; rewrite Hc in *; try done; cbn in E; injection E as <-.
    + apply shift_left_out; [done|lia].
    + rewrite (shift_right_out (size x)) by (done || lia); unfold wrap; by rewrite Z.mod_0_l by (pose proof (modulus_ge _ Hval1); lia).
  - apply finds_some; intros rho Hr; pose proof (Hs rho Hr) as E; pose proof (operand_fits _ _ _ _ Hr Oa) as F.
    match goal with K : constant_value y = 0 |- _ => rewrite K in E end.
    codes Hc; rewrite Hc in *; try done; cbn in E; injection E as <-; rewrite <- Sx, ?Z.mul_1_r, ?Z.div_1_r; symmetry; first [by apply wrap_small|by apply wrap_signed].
Qed.

#[export] Instance trivial_shift_sound : Sound RuleTrivialShift.
Proof.
  begin_binary trivial_shift_match_finds; intros zero Hg.
  assert (Sx : size x = size z) by (eapply shift_sizes; [exact B|codes Hc; by rewrite Hc]); pose proof (site_size _ _ _ _ S) as Vz; destruct zero as [s|].
  - destruct Hg as [-> Hg]; apply runs_bind; edit ltac:(eapply run_const; exact E0); intros [c f1] [E1 S1].
    edit ltac:(eapply run_input; [exact E1|cbn; lia|exact S1]); intros f2 E2.
    edit ltac:(eapply run_remove; [exact E2|cbn; lia]); intros f3 E3.
    edit ltac:(eapply run_opcode; exact E3); intros f4 E4; cbn [delete list_delete insert list_insert] in E4.
    eapply copy_const_result; [done|done|exact S|exact E4|done|apply zero_is_value; unfold valid_size in *; lia|done].
  - cbn [mbind option_bind]; edit ltac:(eapply run_remove; [exact E0|cbn; lia]); intros f1 E1.
    edit ltac:(eapply run_opcode; exact E1); intros f2 E2; cbn [delete list_delete] in E2; by eapply (copy_result f f2 op r a).
Qed.

(** ** Comparisons with extreme constants *)

(** what the mask of a size is *)
Lemma mask_ones (s : Z) : valid_size s -> calc_mask s = modulus s - 1.
Proof. intros Hs; unfold valid_size in Hs; rewrite calc_mask_ones, Z.ones_equiv by lia; unfold modulus; lia. Qed.

(** the branches of a match *)
Ltac branches := repeat match goal with
  | |- finds (Some None) _ => apply finds_none
  | |- finds (if _ then _ else Some None) _ => apply finds_need; let G := fresh "G" in intros G
  | |- finds (if _ then _ else _) _ => apply finds_if; let G := fresh "G" in intros G
  end; guards.

(** the comparisons of a goal, by cases *)
Ltac compare_cases := unfold is_value, b2z in *; repeat match goal with
  | |- context [?u <=? ?v] => destruct (Z.leb_spec u v)
  | |- context [?u <? ?v] => destruct (Z.ltb_spec u v)
  | |- context [?u =? ?v] => destruct (Z.eqb_spec u v)
  end; cbn [negb andb orb]; lia.

(** what the constants of the match hold *)
Ltac constants rho := repeat match goal with
  | C : is_constant ?x = true, O : operand _ ?a ?x |- _ =>
      lazymatch goal with K : vval rho a x = _ |- _ => fail | _ => pose proof (vval_const rho a x C) end
  end.

Section Compares.
Context (f : funcdata) (W : wf f) (T : typed f).

(** a comparison of two operands, and its value *)
Lemma compare_solved (op : nat) (o : pcode_op) (a b r : nat) (x y z : varnode) (c : opcode) (rho : nat -> Z) : binop f op o a b r x y z -> opc o = c ->
  is_compare c = true -> solution f rho -> size y = size x /\ is_value (size x) (vval rho a x) /\ is_value (size x) (vval rho b y) /\
    eval_binary c (size x) 1 (vval rho a x) (vval rho b y) = Some (vval rho r z).
Proof.
  intros B <- Hc Hr; destruct (compare_sizes _ _ _ _ _ _ _ _ _ B Hc) as [Sx Sz]; pose proof (bo_a _ _ _ _ _ _ _ _ _ B) as Oa; pose proof (bo_b _ _ _ _ _ _ _ _ _ B) as Ob.
  split_and!; [done|by eapply operand_fits|rewrite Sx; by eapply operand_fits|]; pose proof (binop_solved _ _ _ _ _ _ _ _ _ _ rho B eq_refl ltac:(by destruct (opc o)) Hr) as E.
  rewrite Sz in E; by destruct (opc o).
Qed.

Lemma lessequal2zero_match_finds (op : nat) (o : pcode_op) (a b r : nat) (x y z : varnode) : binop f op o a b r x y z ->
  finds (lessequal2zero_match f op) (fun always => forall rho, solution f rho ->
    vval rho r z = if always : bool then 1 else b2z (vval rho a x =? vval rho b y)).
Proof.
  intros B; op_parts B; unfold lessequal2zero_match; follow W T; branches; apply finds_some; intros rho Hr.
  all: destruct (compare_solved _ _ _ _ _ _ _ _ _ rho B G eq_refl Hr) as (Sy & Fx & Fy & E); cbn in E; injection E as <-; constants rho; rewrite ?mask_ones in * by done; rewrite ?Sy in *; compare_cases.
Qed.

Lemma less2zero_match_finds (op : nat) (o : pcode_op) (a b r : nat) (x y z : varnode) : binop f op o a b r x y z -> opc o = IntLess ->
  finds (less2zero_match f op) (fun never => forall rho, solution f rho ->
    vval rho r z = if never : bool then 0 else b2z (negb (vval rho a x =? vval rho b y))).
Proof.
  intros B Ec; op_parts B; unfold less2zero_match; follow W T; branches; apply finds_some; intros rho Hr.
  all: destruct (compare_solved _ _ _ _ _ _ _ _ _ rho B Ec eq_refl Hr) as (Sy & Fx & Fy & E); cbn in E; injection E as <-; constants rho; rewrite ?mask_ones in * by done; rewrite ?Sy in *; compare_cases.
Qed.

(** the operands of a comparison, compared otherwise *)
Lemma recompare (g : funcdata) (op : nat) (o : pcode_op) (a b r : nat) (x y z : varnode) (c : opcode) : binop f op o a b r x y z -> is_compare (opc o) = true ->
  is_compare c = true -> editing f g op c [arg_of a x; arg_of b y] (Some r) ->
  (forall rho, solution f rho -> eval_binary c (size x) 1 (vval rho a x) (vval rho b y) = Some (vval rho r z)) -> result f g.
Proof.
  intros B Ho Hc E Hg; destruct (compare_sizes _ _ _ _ _ _ _ _ _ B Ho) as [Sx Sz].
  eapply pair_result; [done|done|by eapply binop_site|exact E|eapply operand_ok, B|eapply operand_ok, B|by destruct c| |by destruct c|].
  - cbn; rewrite Sx, Sz; destruct c; try done; cbn; by rewrite Z.eqb_refl.
  - intros rho Hr; rewrite Sz; rewrite <- (Hg rho Hr); by destruct c.
Qed.
End Compares.

Lemma run_copy_const (f g : funcdata) (op : nat) (c : opcode) (A B : arg) (out : option nat) (sz k : Z) : editing f g op c [A; B] out ->
  runs (copy_const g op sz k) (fun g' => editing f g' op Copy [Arg sz (TConst k)] out).
Proof.
  intros E0; unfold copy_const; edit ltac:(eapply run_opcode; exact E0); intros f1 E1; edit ltac:(eapply run_remove; [exact E1|cbn; lia]); intros f2 E2.
  edit ltac:(eapply run_const; exact E2); intros [v f3] [E3 S3]; edit ltac:(eapply run_input; [exact E3|cbn; lia|exact S3]); intros f4 E4; exact E4.
Qed.

Lemma run_const_copy (f g : funcdata) (op : nat) (c : opcode) (A B : arg) (out : option nat) (sz k : Z) : editing f g op c [A; B] out ->
  runs (const_copy g op sz k) (fun g' => editing f g' op Copy [Arg sz (TConst k)] out).
Proof.
  intros E0; unfold const_copy; edit ltac:(eapply run_const; exact E0); intros [v f1] [E1 S1]; edit ltac:(eapply run_opcode_src; exact E1); intros f2 [E2 K2].
  edit ltac:(eapply run_remove_src; [exact E2|cbn; lia]); intros f3 [E3 K3].
  edit ltac:(eapply run_input; [exact E3|cbn; lia|by apply K3, K2]); intros f4 E4; exact E4.
Qed.

#[export] Instance lessequal2zero_sound : Sound RuleLessEqual2Zero.
Proof.
  begin_binary lessequal2zero_match_finds; intros always Hg; apply list_elem_of_singleton in Hc.
  destruct (compare_sizes _ _ _ _ _ _ _ _ _ B ltac:(by rewrite Hc)) as [_ Sz]; destruct always.
  - edit ltac:(eapply run_copy_const; exact E0); intros f1 E1; eapply copy_const_result; [done|done|exact S|exact E1|by rewrite Sz|rewrite Sz; apply truth_value; lia|exact Hg].
  - edit ltac:(eapply run_opcode; exact E0); intros f1 E1; eapply (recompare f W T f1 _ _ _ _ _ _ _ _ IntEqual); [exact B|by rewrite Hc|done|exact E1|].
    intros rho Hr; by rewrite (Hg rho Hr).
Qed.

#[export] Instance less2zero_sound : Sound RuleLess2Zero.
Proof.
  begin_binary less2zero_match_finds; [by apply list_elem_of_singleton in Hc|]; intros never Hg; apply list_elem_of_singleton in Hc.
  destruct (compare_sizes _ _ _ _ _ _ _ _ _ B ltac:(by rewrite Hc)) as [_ Sz]; destruct never.
  - edit ltac:(eapply run_const_copy; exact E0); intros f1 E1; eapply copy_const_result; [done|done|exact S|exact E1|by rewrite Sz|rewrite Sz; apply truth_value; lia|exact Hg].
  - edit ltac:(eapply run_opcode; exact E0); intros f1 E1; eapply (recompare f W T f1 _ _ _ _ _ _ _ _ IntNotequal); [exact B|by rewrite Hc|done|exact E1|].
    intros rho Hr; by rewrite (Hg rho Hr).
Qed.
