(* ===== verification/LogicSound.v ===== *)
(** Soundness of the simplification rules on comparisons, masks, negations and truth values. *)
From Stdlib Require Import ZArith Lia Bool List.
From stdpp Require Import base decidable option list strings gmap numbers tactics.
From S2P Require Import Prelude Space OpCode BitUtil PcodeSem Funcdata FuncdataLinks FuncdataEdits FuncdataRemove FuncdataBlocks FuncdataTheorems FuncdataBuild RuleBase Divopt DivRules Rules Valuation ValuationEdits Rewrite RuleFacts RuleArith DivRulesSound RulesSound.
Local Open Scope Z_scope.
Local Open Scope match_scope.

(** ** Comparisons *)

Section Compares.
Context (f : funcdata) (W : wf f) (T : typed f).

Lemma less_one_match_finds (op : nat) (o : pcode_op) (a b r : nat) (x y z : varnode) : binop f op o a b r x y z -> opc o ∈ [IntLess; IntLessequal] ->
  finds (less_one_match f op) (fun '(change, sz) => sz = size y /\ (change = false -> is_constant y = true /\ constant_value y = 0) /\
    forall rho, solution f rho -> vval rho r z = b2z (vval rho a x =? 0)).
Proof.
  intros B Hc; op_parts B; unfold less_one_match; follow W T; cbn [try]; follow W T; apply finds_some; split; [done|]; split.
  - intros E; by guards.
  - intros rho Hr; assert (Hcmp : is_compare (opc o) = true) by (codes Hc; by rewrite Hc).
    destruct (compare_solved f _ _ _ _ _ _ _ _ _ rho B eq_refl Hcmp Hr) as (Sy & Fx & Fy & E); constants rho; codes Hc; rewrite Hc in *; cbn in E; injection E as <-;
      apply andb_false_iff in G0 as [K|K]; apply andb_false_iff in G1 as [K'|K']; guards; try done; compare_cases.
Qed.
End Compares.

#[export] Instance less_one_sound : Sound RuleLessOne.
Proof.
  begin_binary less_one_match_finds; intros [change sz] (-> & Hk & Hg).
  assert (Hcmp : is_compare (opc o) = true) by (codes Hc; by rewrite Hc); destruct (compare_sizes _ _ _ _ _ _ _ _ _ B Hcmp) as [Sx Sz].
  pose proof (on_size _ _ _ Ob) as Vy.
  edit ltac:(eapply run_opcode; exact E0); intros f1 E1.
  assert (Ok : forall g, editing f g op IntEqual [arg_of a x; Arg (size y) (TConst 0)] (Some r) -> result f g).
  { intros g E; eapply pair_result; [done|done|exact S|exact E|by eapply operand_ok|apply const_ok; [done|apply zero_is_value; unfold valid_size in *; lia]|done| |done|].
    - cbn; rewrite Sx, Sz; by rewrite Z.eqb_refl.
    - intros rho Hr; cbn; by rewrite (Hg rho Hr). }
  destruct change.
  - edit ltac:(eapply run_const; exact E1); intros [c f2] [E2 S2]; edit ltac:(eapply run_input; [exact E2|cbn; lia|exact S2]); intros f3 E3; by apply Ok.
  - destruct (Hk eq_refl) as [K V]; apply Ok; unfold arg_of in E1 at 2; rewrite K in E1; unfold constant_value in V; by rewrite V in E1.
Qed.

(** ** [RuleCarryElim] *)

Lemma carry_elim_match_finds (f : funcdata) (op : nat) (o : pcode_op) (a b r : nat) (x y z : varnode) : wf f -> typed f -> binop f op o a b r x y z ->
  finds (carry_elim_match f op) (fun '(v, off, sz) => v = a /\ off = constant_value y /\ sz = size y /\ is_constant y = true).
Proof. intros W T B; op_parts B; unfold carry_elim_match; follow W T; by apply finds_some. Qed.

Lemma carry_wrap (s v k : Z) : valid_size s -> is_value s v -> is_value s k -> k <> 0 -> (wrap s (- k) <=? v) = (modulus s <=? v + k).
Proof.
  intros Hs Hv Hk N; pose proof (modulus_ge s Hs); unfold is_value in *; assert (wrap s (- k) = modulus s - k) as ->.
  { unfold wrap; symmetry; apply Z.mod_unique with (-1); lia. }
  destruct (Z.leb_spec (modulus s - k) v), (Z.leb_spec (modulus s) (v + k)); lia.
Qed.

#[export] Instance carry_elim_sound : Sound RuleCarryElim.
Proof.
  begin_binary carry_elim_match_finds; intros [[v off] sz] (-> & -> & -> & K); apply list_elem_of_singleton in Hc.
  destruct (compare_sizes _ _ _ _ _ _ _ _ _ B ltac:(by rewrite Hc)) as [Sx Sz]; pose proof (on_const _ _ _ Ob K) as Vk; fold (constant_value y) in Vk.
  pose proof (on_size _ _ _ Ob) as Vy; pose proof (wrap_value (size y) (- constant_value y) Vy) as Vw.
  assert (Hs : forall rho, solution f rho -> is_value (size y) (vval rho a x) /\ vval rho r z = b2z (modulus (size y) <=? vval rho a x + constant_value y)).
  { intros rho Hr; destruct (compare_solved f _ _ _ _ _ _ _ _ _ rho B Hc eq_refl Hr) as (Sy & Fx & Fy & E); cbn in E; injection E as <-; rewrite Sy; split; [done|].
    by rewrite (vval_const rho b y K). }
  destruct (Z.eqb_spec (constant_value y) 0) as [E|N].
  - edit ltac:(eapply run_remove; [exact E0|cbn; lia]); intros f1 E1; edit ltac:(eapply run_const; exact E1); intros [c f2] [E2 S2].
    edit ltac:(eapply run_input; [exact E2|cbn; lia|exact S2]); intros f3 E3; edit ltac:(eapply run_opcode; exact E3); intros f4 E4; cbn [delete list_delete insert list_insert] in E4.
    eapply copy_const_result; [done|done|exact S|exact E4|by rewrite Sz|rewrite Sz; apply truth_value; lia|]; intros rho Hr; destruct (Hs rho Hr) as [Fx ->]; rewrite E; compare_cases.
  - edit ltac:(eapply run_opcode; exact E0); intros f1 E1.
    edit ltac:(eapply run_input; [exact E1|cbn; lia|eapply editing_src; [exact E1|apply src_at, Oa]]); intros f2 E2; carry E2 Oa.
    edit ltac:(eapply run_const; exact E2); intros [c f3] [E3 S3]; edit ltac:(eapply run_input; [exact E3|cbn; lia|exact S3]); intros f4 E4; cbn [insert list_insert] in E4.
    rewrite land_calc_mask, Sx in E4 by done.
    eapply pair_result; [done|done|exact S|exact E4|by apply const_ok|by eapply operand_ok|done| |done|].
    + cbn; rewrite Sx, Sz; by rewrite Z.eqb_refl.
    + intros rho Hr; destruct (Hs rho Hr) as [Fx ->]; cbn; by rewrite <- carry_wrap.
Qed.

(** ** Masks and negations *)

Lemma mask_wrap (v s : Z) : valid_size s -> 0 <= v < 2 ^ 64 -> mask v s = wrap s v.
Proof.
  intros Hs Hv; pose proof (land_calc_mask s v Hs) as E; unfold w64 in E; rewrite Z.mod_small in E by done; rewrite <- E; unfold mask, calc_mask.
  destruct (8 <=? s); [|done]; change u64_max with (Z.ones 64); by rewrite Z.land_ones, Z.mod_small.
Qed.

Lemma mask_small (v s : Z) : valid_size s -> is_value s v -> mask v s = v.
Proof. intros Hs Hv; rewrite mask_wrap, wrap_small; [done..|by eapply value_u64]. Qed.

Lemma mask_minus_one (s : Z) : valid_size s -> mask (2 ^ 64 - 1) s = modulus s - 1.
Proof.
  intros Hs; pose proof (modulus_ge s Hs); rewrite mask_wrap by (done || lia); unfold wrap; rewrite <- (w64_mod s) by done.
  symmetry; apply Z.mod_unique with (2 ^ (64 - 8 * s) - 1); [lia|]; unfold modulus, valid_size in *.
  rewrite Z.mul_sub_distr_l, <- Z.pow_add_r by lia; replace (8 * s + (64 - 8 * s)) with 64 by lia; unfold w64; rewrite Z.mod_small; lia.
Qed.

Lemma or_ones (s v : Z) : valid_size s -> is_value s v -> Z.lor v (modulus s - 1) = modulus s - 1.
Proof.
  intros Hs Hv; replace (modulus s - 1) with (Z.ones (8 * s)) by (unfold modulus; rewrite Z.ones_equiv; lia); unfold valid_size, is_value, modulus in *.
  apply Z.bits_inj'; intros i Hi; rewrite Z.lor_spec; destruct (Z.ltb_spec i (8 * s)).
  - by rewrite Z.ones_spec_low, orb_true_r by lia.
  - rewrite Z.ones_spec_high, orb_false_r by lia; by apply high_bit with (8 * s); [lia|].
Qed.

Section Masks.
Context (f : funcdata) (W : wf f) (T : typed f).

Lemma or_mask_match_finds (op : nat) (o : pcode_op) (a b r : nat) (x y z : varnode) : binop f op o a b r x y z -> opc o = IntOr ->
  finds (or_mask_match f op) (fun c => c = b /\ forall rho, solution f rho -> vval rho b y = vval rho r z).
Proof.
  intros B Hc; op_parts B; destruct (uniform_sizes _ _ _ _ _ _ _ _ _ B ltac:(by rewrite Hc)) as [Sx Sy].
  unfold or_mask_match; follow W T; cbn [try]; follow W T; cbn [try]; follow W T; apply finds_some; split; [done|]; intros rho Hr.
  pose proof (binop_solved _ _ _ _ _ _ _ _ _ _ rho B Hc eq_refl Hr) as E; cbn in E; injection E as <-; rewrite (vval_const rho b y) by done.
  pose proof (on_const _ _ _ Ob ltac:(done)) as Vk; fold (constant_value y) in Vk; rewrite <- Sy in G1 |- *; rewrite mask_small, mask_minus_one in G1 by done; rewrite G1 in *.
  rewrite or_ones, wrap_small; [done..|]; rewrite Sy, <- Sx; by eapply operand_fits.
Qed.

Lemma mult_neg_one_match_finds (op : nat) (o : pcode_op) (a b r : nat) (x y z : varnode) : binop f op o a b r x y z -> opc o = IntMult ->
  finds (mult_neg_one_match f op) (fun _ => forall rho, solution f rho -> wrap (size z) (- vval rho a x) = vval rho r z).
Proof.
  intros B Hc; op_parts B; destruct (uniform_sizes _ _ _ _ _ _ _ _ _ B ltac:(by rewrite Hc)) as [Sx Sy].
  unfold mult_neg_one_match; follow W T; cbn [try]; follow W T; apply finds_some; intros rho Hr.
  destruct (opposite_solved f _ _ _ _ _ _ _ _ B Hc) as [_ E]; [done| |by rewrite (E rho Hr)]; rewrite mask_ones by done; by rewrite <- mask_minus_one.
Qed.
End Masks.

#[export] Instance or_mask_sound : Sound RuleOrMask.
Proof.
  begin_binary or_mask_match_finds; [by apply list_elem_of_singleton in Hc|]; intros c [-> Hg]; apply list_elem_of_singleton in Hc.
  destruct (uniform_sizes _ _ _ _ _ _ _ _ _ B ltac:(by rewrite Hc)) as [Sx Sy].
  edit ltac:(eapply run_opcode; exact E0); intros f1 E1.
  edit ltac:(eapply (run_inputs f op f1 _ _ [arg_of b y]); [exact E1|]); [|intros f2 E2; by eapply (copy_result f f2 op r b)].
  apply args_one; exists b; split; [done|]; eapply editing_src; [exact E1|apply src_at, Ob].
Qed.

#[export] Instance mult_neg_one_sound : Sound RuleMultNegOne.
Proof.
  begin_binary mult_neg_one_match_finds; [by apply list_elem_of_singleton in Hc|]; intros ? Hg; cbv beta in Hg; apply list_elem_of_singleton in Hc.
  destruct (uniform_sizes _ _ _ _ _ _ _ _ _ B ltac:(by rewrite Hc)) as [Sx Sy].
  edit ltac:(eapply run_opcode; exact E0); intros f1 E1; edit ltac:(eapply run_remove; [exact E1|cbn; lia]); intros f2 E2; cbn [delete list_delete] in E2.
  eapply one_result; [done|done|exact S|exact E2|by eapply operand_ok|done|by apply Z.eqb_eq|]; intros rho Hr; cbn; by rewrite <- (Hg rho Hr).
Qed.

(** the operation a rule on a unary code is tried on *)
Ltac begin_unary lem :=
  intros f op W T Ht; destruct (target_unop _ f op W T Ht) as (o & a & r & x & z & U & Hc & Hi); [done|done|]; apply list_elem_of_singleton in Hc;
  pose proof (unop_site _ _ _ _ _ _ _ U) as S; pose proof (uo_a _ _ _ _ _ _ _ U) as Oa;
  pose proof (editing_start f op _ _ _ W (unop_is _ _ _ _ _ _ _ U)) as E0;
  cbn [apply_op oplist]; eapply fire_result; [done|done|lem|].

Lemma unop_sizes (f : funcdata) (op : nat) (o : pcode_op) (a r : nat) (x z : varnode) : unop f op o a r x z ->
  (opc o = Int2comp \/ opc o = IntNegate) -> size x = size z.
Proof. intros U [E|E]; pose proof (uo_sizes _ _ _ _ _ _ _ U) as H; rewrite E in H; by apply Z.eqb_eq in H. Qed.

#[export] Instance comp2mult_sound : Sound Rule2Comp2Mult.
Proof.
  begin_unary ltac:(by apply (finds_some tt (fun _ => True))); intros ? _.
  pose proof (unop_sizes _ _ _ _ _ _ _ U (or_introl Hc)) as Sx; pose proof (on_size _ _ _ Oa) as Vx; pose proof (modulus_ge _ Vx) as Mx.
  edit ltac:(eapply run_opcode; exact E0); intros f1 E1; pose proof (ed_is _ _ _ _ _ _ E1) as (o1 & Ho1 & _ & Hargs & _); rewrite Ho1; cbn [mbind option_bind].
  apply args_one in Hargs as (a' & Hl & Ha'); rewrite (input_at o1 0 _ Hl); cbn [lookup list_lookup mbind option_bind].
  assert (Hx' : exists x', varnodes f1 !! a' = Some x' /\ size x' = size x).
  { unfold src in Ha'; destruct (varnodes f1 !! a') as [x'|]; [|done]; exists x'; split; [done|]; by injection Ha'. }
  destruct Hx' as (x' & -> & Sx'); cbn [mbind option_bind]; rewrite Sx'.
  edit ltac:(eapply run_const; exact E1); intros [c f2] [E2 S2]; edit ltac:(eapply run_insert; [exact E2|cbn; lia|exact S2]); intros f3 E3; cbn [take drop app] in E3.
  rewrite mask_ones in E3 by done.
  eapply pair_result; [done|done|exact S|exact E3|by eapply operand_ok|apply const_ok; [done|unfold is_value; lia]|done| |done|].
  - cbn; rewrite Sx; by rewrite Z.eqb_refl.
  - intros rho Hr; pose proof (unop_solved _ _ _ _ _ _ _ _ rho U Hc eq_refl Hr) as E; cbn in E; injection E as <-; cbn; by rewrite <- Sx, wrap_opp.
Qed.

Lemma negate_value (s v : Z) : valid_size s -> is_value s v -> wrap s (Z.lnot v) = modulus s - 1 - v.
Proof. intros Hs Hv; unfold wrap, is_value, Z.lnot in *; symmetry; apply Z.mod_unique with (-1); lia. Qed.

Section Negations.
Context (f : funcdata) (W : wf f) (T : typed f).

(** what a complement yields *)
Lemma negate_solved (op : nat) (o : pcode_op) (a r : nat) (x z : varnode) (rho : nat -> Z) : unop f op o a r x z -> opc o = IntNegate -> solution f rho ->
  vval rho r z = modulus (size z) - 1 - vval rho a x.
Proof.
  intros U Hc Hr; pose proof (unop_solved _ _ _ _ _ _ _ _ rho U Hc eq_refl Hr) as E; cbn in E; injection E as <-.
  pose proof (unop_sizes _ _ _ _ _ _ _ U (or_intror Hc)) as Sx; pose proof (uo_a _ _ _ _ _ _ _ U) as Oa.
  rewrite <- Sx; apply negate_value; [apply Oa|by eapply operand_fits].
Qed.

Lemma negate_negate_match_finds (op : nat) (o : pcode_op) (a r : nat) (x z : varnode) : unop f op o a r x z -> opc o = IntNegate ->
  finds (negate_negate_match f op) (fun v => exists xv, operand f v xv /\ size xv = size z /\ forall rho, solution f rho -> vval rho v xv = vval rho r z).
Proof.
  intros U Hc; pose proof (yd_op _ _ _ _ _ (uo_yields _ _ _ _ _ _ _ U)) as Ho; unop_parts U; unfold negate_negate_match; follow W T; cbn [try]; follow W T; cbn [try]; follow W T.
  apply finds_some; pose proof (unop_sizes _ _ _ _ _ _ _ U (or_intror Hc)) as Sx; pose proof (unop_sizes _ _ _ _ _ _ _ U0 (or_intror G0)) as Sa.
  exists xa; split_and!; [done|congruence|]; intros rho Hr; rewrite (negate_solved _ _ _ _ _ _ rho U Hc Hr), (negate_solved _ _ _ _ _ _ rho U0 G0 Hr), Sx; lia.
Qed.
End Negations.

#[export] Instance negate_negate_sound : Sound RuleNegateNegate.
Proof.
  begin_unary ltac:(by eapply negate_negate_match_finds); intros v (xv & Ov & Sv & Hg).
  edit ltac:(eapply run_input; [exact E0|cbn; lia|apply src_at, Ov]); intros f1 E1; edit ltac:(eapply run_opcode; exact E1); intros f2 E2; cbn [insert list_insert] in E2.
  by eapply (copy_result f f2 op r v).
Qed.

(** ** Truth values *)

#[export] Instance bxor2notequal_sound : Sound RuleBxor2NotEqual.
Proof.
  begin_binary (finds_some tt (fun _ => True)); intros ? _; apply list_elem_of_singleton in Hc.
  destruct (logic_sizes _ _ _ _ _ _ _ _ _ B ltac:(by rewrite Hc)) as (S1 & S2 & S3).
  edit ltac:(eapply run_opcode; exact E0); intros f1 E1.
  eapply pair_result; [done|done|exact S|exact E1|by eapply operand_ok|by eapply operand_ok|done|cbn; by rewrite S1, S2, S3|done|].
  intros rho Hr; pose proof (binop_solved _ _ _ _ _ _ _ _ _ _ rho B Hc eq_refl Hr) as E; fold (vval rho a x) (vval rho b y).
  destruct (logic_bools _ _ _ _ _ _ _ _ _ B rho ltac:(by rewrite Hc) Hr) as [Ha Hb].
  destruct (bool_cases _ Ha) as [Ea|Ea], (bool_cases _ Hb) as [Eb|Eb]; rewrite Ea, Eb in *; exact E.
Qed.

Section Booleans.
Context (f : funcdata) (W : wf f) (T : typed f).

(** the code and the operand that are left, and what they yield *)
Lemma trivial_bool_match_finds (op : nat) (o : pcode_op) (a b r : nat) (x y z : varnode) : binop f op o a b r x y z -> opc o ∈ [BoolAnd; BoolOr; BoolXor] ->
  finds (trivial_bool_match f op) (fun '(c, truth) => (c = Copy \/ c = BoolNegate) /\ match truth with Some k => k = 0 \/ k = 1 | None => True end /\
    forall rho, solution f rho -> let v := match truth with Some k => k | None => vval rho a x end in
      0 <= v <= 1 /\ vval rho r z = match c with BoolNegate => b2z (v =? 0) | _ => v end).
Proof.
  intros B Hc; op_parts B; unfold trivial_bool_match; follow W T; assert (El : is_logic (opc o) = true) by (codes Hc; by rewrite Hc).
  assert (Hs : forall rho, solution f rho -> eval2 (opc o) (size x) (size y) (size z) (vval rho a x) (constant_value y) = Some (vval rho r z) /\
    (vval rho a x = 0 \/ vval rho a x = 1) /\ (constant_value y = 0 \/ constant_value y = 1)).
  { intros rho Hr; rewrite <- (vval_const rho b y) by done; split; [eapply binop_solved; [exact B|done|by destruct (opc o)|done]|].
    destruct (logic_bools _ _ _ _ _ _ _ _ _ B rho El Hr) as [Ha Hb]; split; by apply bool_cases. }
  codes Hc; rewrite Hc in *; apply finds_some; destruct (Z.eqb_spec (constant_value y) 1) as [E|E]; split; auto; (split; [auto|]); intros rho Hr; cbn zeta;
    destruct (Hs rho Hr) as (Ev & [K'|K'] & [K|K]); rewrite ?K, ?K' in *; try done; cbn in Ev; injection Ev as <-; done.
Qed.

Lemma not_distribute_match_finds (op : nat) (o : pcode_op) (a r : nat) (x z : varnode) : unop f op o a r x z -> opc o = BoolNegate ->
  finds (not_distribute_match f op) (fun '(c, v, w) => exists xv xw, operand f v xv /\ operand f w xw /\ size xv = 1 /\ size xw = 1 /\ is_logic c = true /\
    forall rho, solution f rho -> 0 <= vval rho v xv <= 1 /\ 0 <= vval rho w xw <= 1 /\
      eval2 c 1 1 1 (b2z (vval rho v xv =? 0)) (b2z (vval rho w xw =? 0)) = Some (vval rho r z)).
Proof.
  intros U Hc; pose proof (yd_op _ _ _ _ _ (uo_yields _ _ _ _ _ _ _ U)) as Ho; unop_parts U; unfold not_distribute_match; follow W T.
  apply finds_try; intros d Ed; assert (Ew : is_written x = true) by (apply (fo_written _ (go_flags _ (wf_graph _ W) a x Hat)); by rewrite Ed).
  destruct (written_def f a x W Hat Ew) as (d' & p & Ed' & Hp & Hout); assert (d' = d) as -> by congruence; rewrite Hp; cbn [mbind option_bind].
  apply finds_try; intros c Ec; assert (Ep : opc p = BoolAnd /\ c = BoolOr \/ opc p = BoolOr /\ c = BoolAnd) by (destruct (opc p); try done; injection Ec as <-; auto).
  assert (El : is_logic (opc p) = true) by (by destruct Ep as [[-> _]|[-> _]]).
  destruct (def_binop f a d x p W T Hat Hp Hout) as (v & w & xv & xw & B); [by destruct Ep as [[-> _]|[-> _]]|]; binop_parts B; follow W T; apply finds_some.
  destruct (logic_sizes _ _ _ _ _ _ _ _ _ B El) as (S1 & S2 & S3); exists xv, xw; split_and!; try done; [by destruct Ep as [[_ ->]|[_ ->]]|].
  intros rho Hr; destruct (logic_bools _ _ _ _ _ _ _ _ _ B rho El Hr) as [Hv Hw]; split; [done|]; split; [done|].
  pose proof (unop_solved _ _ _ _ _ _ _ _ rho U Hc eq_refl Hr) as Eu; pose proof (binop_solved _ _ _ _ _ _ _ _ _ _ rho B eq_refl ltac:(by destruct Ep as [[-> _]|[-> _]]) Hr) as Eb.
  destruct (bool_cases _ Hv) as [Kv|Kv], (bool_cases _ Hw) as [Kw|Kw]; rewrite Kv, Kw in *; destruct Ep as [[Ep ->]|[Ep ->]]; rewrite Ep in Eb; cbn in Eb; injection Eb as Eb; rewrite <- Eb in Eu; exact Eu.
Qed.
End Booleans.

#[export] Instance trivial_bool_sound : Sound RuleTrivialBool.
Proof.
  begin_binary trivial_bool_match_finds; intros [c truth] (Hcode & Ht' & Hg); destruct (logic_sizes _ _ _ _ _ _ _ _ _ B ltac:(codes Hc; by rewrite Hc)) as (S1 & S2 & S3).
  rewrite (yd_op _ _ _ _ _ (bo_yields _ _ _ _ _ _ _ _ _ B)); cbn [mbind option_bind]; rewrite (input_at o 0 _ (bo_in _ _ _ _ _ _ _ _ _ B)).
  apply runs_bind; apply (runs_mono _ (fun '(vn, g) => editing f g op (opc o) [arg_of a x; arg_of b y] (Some r) /\
    src g vn = Some match truth with Some k => Arg 1 (TConst k) | None => arg_of a x end)).
  { destruct truth as [k|]; [by eapply run_const|]; cbn; split; [exact E0|apply src_at, Oa]. }
  intros [vn f1] [E1 S1']; set (A := match truth with Some k => Arg 1 (TConst k) | None => arg_of a x end) in *.
  edit ltac:(eapply run_remove_src; [exact E1|cbn; lia]); intros f2 [E2 K2]; edit ltac:(eapply run_opcode_src; exact E2); intros f3 [E3 K3].
  edit ltac:(eapply run_input; [exact E3|cbn; lia|by apply K3, K2]); intros f4 E4; cbn [delete list_delete insert list_insert] in E4.
  assert (Sa : ar_size A = 1) by (unfold A; by destruct truth).
  eapply one_result; [done|done|exact S|exact E4| |by destruct Hcode as [-> | ->]|rewrite Sa, S3; by destruct Hcode as [-> | ->]|].
  - unfold A; destruct truth as [k|]; [apply const_ok; [unfold valid_size; lia|apply truth_value; lia]|by eapply operand_ok].
  - intros rho Hr; destruct (Hg rho Hr) as [Hv ->]; assert (EA : val rho A = match truth with Some k => k | None => vval rho a x end) by (unfold A; by destruct truth).
    rewrite EA, S3; destruct (bool_cases _ Hv) as [-> | ->]; by destruct Hcode as [-> | ->].
Qed.
