(* ===== verification/AlgebraSound.v ===== *)
(** Soundness of the simplification rules that follow definitions, and add operations. *)
From Stdlib Require Import ZArith Lia Bool List.
From stdpp Require Import base decidable option list strings gmap numbers tactics.
From S2P Require Import Prelude Space OpCode BitUtil PcodeSem Funcdata FuncdataLinks FuncdataEdits FuncdataRemove FuncdataBlocks FuncdataTheorems FuncdataBuild RuleBase Divopt DivRules Rules Valuation ValuationEdits Rewrite RuleFacts RuleArith DivRulesSound RulesSound LogicSound.
Local Open Scope Z_scope.
Local Open Scope match_scope.

(** ** Operations added before the edited one *)

(** [g] is [f] with operations [l] added, which yield values of their own *)
Record grown (f g : funcdata) (l : list nat) : Prop := Grown {
  gr_result : result f g;
  gr_moves : moves f g l;
  gr_new : forall o, In o l -> is_op f o = false;
  gr_solution : forall rho, solution g rho -> solution f rho;
}.

Section Grown.
Context (f : funcdata) (W : wf f) (T : typed f).

Lemma grown_start : grown f f [].
Proof. constructor; [by apply result_refl|apply moves_refl|by intros ? []|done]. Qed.

Lemma grown_src (g : funcdata) (l : list nat) (v : nat) (a : arg) : grown f g l -> src f v = Some a -> src g v = Some a.
Proof. intros G; apply (mv_src _ _ _ (gr_moves _ _ _ G)). Qed.

Lemma grown_const (g : funcdata) (l : list nat) (sz k : Z) : grown f g l ->
  runs (new_const g sz k) (fun '(v, h) => grown f h l /\ src h v = Some (Arg sz (TConst k)) /\ forall w b, src g w = Some b -> src h w = Some b).
Proof.
  intros [R M N F]; eapply runs_mono; [apply run_add_const; apply R|]; intros [v h] (R' & M' & S & F'); split_and!; [|done|apply M'].
  constructor; [by eapply result_trans| |done|auto]; rewrite <- (app_nil_r l); by eapply moves_trans.
Qed.

Lemma grown_is (g : funcdata) (l : list nat) (op : nat) (c : opcode) (args : list arg) (out : option nat) : grown f g l ->
  op_is f op c args out -> op_is g op c args out.
Proof.
  intros [R M N F] I; eapply op_is_moves; [exact M| |exact I]; intros Hin; apply N in Hin.
  by rewrite (op_is_lt _ _ _ _ _ I) in Hin.
Qed.

(** the operation a rule edits, and its result *)
Lemma grown_site (g : funcdata) (l : list nat) (op r : nat) (z : varnode) : grown f g l -> site f op r z ->
  exists z', site g op r z' /\ size z' = size z /\ forall rho, vval rho r z' = vval rho r z.
Proof.
  intros G (o & c & args & I & Y); pose proof (grown_is _ _ _ _ _ _ G I) as I'; pose proof (gr_result _ _ _ G) as R.
  destruct (operand_moves _ _ _ _ _ (gr_moves _ _ _ G) (yd_operand _ _ _ _ _ Y)) as (z' & O' & Ez); destruct (arg_of_eq _ _ _ Ez) as [Sz Vz].
  exists z'; split_and!; try done; pose proof I' as (o' & Ho' & _ & _ & Eo'); exists o', c, args; split; [done|]; constructor; try done.
  - unfold arg_of in Ez; injection Ez as _ Ez; rewrite (yd_var _ _ _ _ _ Y) in Ez; by destruct (is_constant z').
  - assert (E : out_of g op = Some r) by (unfold out_of; by rewrite Ho'); apply (go_def _ (wf_graph _ (rs_wf _ _ R))) in E.
    unfold def_of in E; by rewrite (on_at _ _ _ O') in E.
Qed.

Lemma grown_op (g : funcdata) (l : list nat) (follow : nat) (c : opcode) (ids : list nat) (args : list arg) (sz : Z) : grown f g l ->
  inside f follow = true -> args_of g ids args -> (forall v, view_ok (View c args (Some (Arg sz (TVar v)))) = true) -> evaluable c = true ->
  (forall rho, solution g rho -> exists e, eval_view rho c args sz = Some e /\ is_value sz e) ->
  runs (new_op_before_sized g follow c ids sz) (fun '(id, h) => grown f h (l ++ [id]) /\ (forall w b, src g w = Some b -> src h w = Some b) /\ exists v,
    output_of h id = Some v /\ src h v = Some (Arg sz (TVar v)) /\ forall rho, solution h rho -> solution g rho /\ eval_view rho c args sz = Some (rho v)).
Proof.
  intros [R M N F] Hi Ha Hv He Ht; eapply runs_mono.
  { eapply run_add_op; [apply R|apply R|by apply (mv_inside _ _ _ M)|exact Ha|done|done|exact Ht]. }
  intros [id h] (R' & M' & Hid & v & Ev & Sv & Fv); split_and!; [|apply M'|by exists v]; constructor; [by eapply result_trans|by eapply moves_trans| |].
  - intros o [Ho|[<-|[]]]%in_app_iff; [by apply N|]; destruct (is_op f id) eqn:E; [|done]; by rewrite (is_op_mono f g id (mv_nops _ _ _ M) E) in Hid.
  - intros rho Hs; apply F, (Fv rho Hs).
Qed.

(** the same, at the size of the first input *)
Lemma grown_op_before (g : funcdata) (l : list nat) (follow : nat) (c : opcode) (v : nat) (ids : list nat) (A : arg) (args : list arg) : grown f g l ->
  inside f follow = true -> args_of g (v :: ids) (A :: args) -> (forall r, view_ok (View c (A :: args) (Some (Arg (ar_size A) (TVar r)))) = true) -> evaluable c = true ->
  (forall rho, solution g rho -> exists e, eval_view rho c (A :: args) (ar_size A) = Some e /\ is_value (ar_size A) e) ->
  runs (new_op_before g follow c (v :: ids)) (fun '(id, h) => grown f h (l ++ [id]) /\ (forall w b, src g w = Some b -> src h w = Some b) /\ exists r,
    output_of h id = Some r /\ src h r = Some (Arg (ar_size A) (TVar r)) /\ forall rho, solution h rho -> solution g rho /\ eval_view rho c (A :: args) (ar_size A) = Some (rho r)).
Proof.
  intros G Hi Ha Hv He Ht; unfold new_op_before; pose proof (mv_inside _ _ _ (gr_moves _ _ _ G) _ Hi) as Hi'.
  destruct (inside_in g follow Hi') as (b & Hb & _); unfold parent_of in Hb; destruct (ops g !! follow) as [o|] eqn:Ho; [|done]; cbn [mbind option_bind head].
  assert (Hs : exists x, varnodes g !! v = Some x /\ size x = ar_size A).
  { unfold args_of in Ha; rewrite mapM_Some in Ha; inversion Ha as [|? ? ? ? Hs _]; subst; unfold src in Hs; destruct (varnodes g !! v) as [x|]; [|done]; cbn in Hs; exists x; by injection Hs as <-. }
  destruct Hs as (x & -> & Es); cbn [mbind option_bind]; rewrite Es; by apply grown_op.
Qed.

(** the edits of the operation after that *)
Lemma grown_edit (g : funcdata) (l : list nat) (op : nat) (c : opcode) (args : list arg) (out : option nat) : grown f g l -> op_is f op c args out ->
  editing g g op c args out.
Proof. intros G I; apply editing_start; [apply G|by eapply grown_is]. Qed.

Lemma grown_pair_result (g g' : funcdata) (l : list nat) (op r : nat) (z : varnode) (c : opcode) (A B : arg) : grown f g l -> site f op r z ->
  editing g g' op c [A; B] (Some r) -> arg_ok A = true -> arg_ok B = true -> is_binary c = true -> size2 c (ar_size A) (ar_size B) (size z) = true ->
  offset_ok c A B (Arg (size z) (TVar r)) = true ->
  (forall rho, solution g rho -> eval2 c (ar_size A) (ar_size B) (size z) (val rho A) (val rho B) = Some (vval rho r z)) -> result f g'.
Proof.
  intros G S E Ha Hb Hc Hs Ho Hg; destruct (grown_site _ _ _ _ _ G S) as (z' & S' & Sz & Vz); pose proof (gr_result _ _ _ G) as R.
  eapply result_trans; [exact R|]; eapply pair_result; [apply R|apply R|exact S'|exact E|done|done|done|by rewrite Sz|by rewrite Sz|].
  intros rho Hr; rewrite Sz, Vz; by apply Hg.
Qed.
End Grown.

(** ** [RuleSub2Add] *)

Lemma sub2add_match_finds (f : funcdata) (op : nat) (o : pcode_op) (a b r : nat) (x y z : varnode) : wf f -> typed f -> binop f op o a b r x y z ->
  finds (sub2add_match f op) (fun '(v, sz) => v = b /\ sz = size y).
Proof. intros W T B; op_parts B; unfold sub2add_match; follow W T; by apply finds_some. Qed.

#[export] Instance sub2add_sound : Sound RuleSub2Add.
Proof.
  begin_binary sub2add_match_finds; intros [v sz] [-> ->]; apply list_elem_of_singleton in Hc.
  destruct (uniform_sizes _ _ _ _ _ _ _ _ _ B ltac:(by rewrite Hc)) as [Sx Sy]; pose proof (on_size _ _ _ Ob) as Vy; pose proof (modulus_ge _ Vy) as My.
  rewrite mask_minus_one by done; assert (Vk : is_value (size y) (modulus (size y) - 1)) by (unfold is_value; lia).
  edit ltac:(eapply grown_const; by apply grown_start); intros [c f1] (G1 & S1 & K1).
  edit ltac:(eapply (grown_op_before f f1 [] op IntMult b [c] (arg_of b y) [Arg (size y) (TConst (modulus (size y) - 1))]); [exact G1|done| | |done|]).
  { apply args_two; exists b, c; split_and!; [done|apply K1, src_at, Ob|done]. }
  { intros u; apply view_ok_binary; [done|by eapply operand_ok|by apply const_ok|done|cbn; by rewrite Z.eqb_refl|done]. }
  { intros rho Hs; cbn; eexists; split; [done|by apply wrap_value]. }
  intros [id f2] (G2 & K2 & d & Ed & Sd & F2); rewrite Ed; cbn [mbind option_bind].
  pose proof (grown_edit f f2 _ op _ _ _ G2 (binop_is _ _ _ _ _ _ _ _ _ B)) as E2.
  edit ltac:(eapply run_input; [exact E2|cbn; lia|exact Sd]); intros f3 E3; edit ltac:(eapply run_opcode; exact E3); intros f4 E4; cbn [insert list_insert] in E4.
  eapply (grown_pair_result f f2 f4); [exact G2|exact S|exact E4|by eapply operand_ok|by apply var_ok|done|cbn; rewrite Sx, Sy; by rewrite Z.eqb_refl|done|].
  intros rho Hr; destruct (F2 rho Hr) as [Hr1 Ev]; pose proof (binop_solved _ _ _ _ _ _ _ _ _ _ rho B Hc eq_refl (gr_solution _ _ _ G1 rho Hr1)) as E.
  cbn in E; injection E as <-; cbn in Ev; fold (vval rho b y) in Ev; rewrite wrap_opp, Sy in Ev by done; cbn; fold (vval rho a x); injection Ev as <-; by rewrite wrap_add_r.
Qed.

(** ** [RuleNotDistribute] *)

Lemma negate_total (s v : Z) : 0 <= v <= 1 -> exists e, eval1 BoolNegate s 1 v = Some e /\ is_value 1 e.
Proof.
  intros H; cbn; destruct (bool_cases _ H) as [-> | ->]; cbn; eexists; (split; [done|apply truth_value; lia]).
Qed.

Lemma truth_negated (v e : Z) : 0 <= v <= 1 -> eval1 BoolNegate 1 1 v = Some e -> e = b2z (v =? 0).
Proof. intros H; destruct (bool_cases _ H) as [-> | ->]; cbn; by intros [= <-]. Qed.

(** the negation of a truth value, before [op] *)
Lemma grown_negation (f g : funcdata) (l : list nat) (op v : nat) (xv : varnode) : wf f -> typed f -> grown f g l -> inside f op = true -> operand f v xv -> size xv = 1 ->
  (forall rho, solution f rho -> 0 <= vval rho v xv <= 1) ->
  runs (new_op_before g op BoolNegate [v]) (fun '(id, h) => grown f h (l ++ [id]) /\ (forall w b, src g w = Some b -> src h w = Some b) /\ exists d,
    output_of h id = Some d /\ src h d = Some (Arg 1 (TVar d)) /\ forall rho, solution h rho -> solution g rho /\ rho d = b2z (vval rho v xv =? 0)).
Proof.
  intros W T G Hi Ov Sv Hb; eapply runs_mono.
  { eapply (grown_op_before f g l op BoolNegate v [] (arg_of v xv) []); [exact G|done| | |done|].
    - apply args_one; exists v; split; [done|]; eapply grown_src; [exact G|apply src_at, Ov].
    - intros u; apply view_ok_unary; [done|by eapply operand_ok|apply Ov|cbn; by rewrite Sv].
    - intros rho Hs; cbn [eval_view ar_size arg_of]; rewrite Sv; apply negate_total, Hb, (gr_solution _ _ _ G), Hs. }
  intros [id h] (G' & K & d & Ed & Sd & F); split; [done|]; split; [done|]; exists d; cbn [ar_size arg_of] in Sd; rewrite Sv in Sd; split_and!; try done; intros rho Hr.
  destruct (F rho Hr) as [Hg Ev]; split; [done|]; cbn [eval_view ar_size arg_of] in Ev; rewrite Sv in Ev; by apply truth_negated in Ev; [|apply Hb, (gr_solution _ _ _ G)].
Qed.

#[export] Instance not_distribute_sound : Sound RuleNotDistribute.
Proof.
  begin_unary ltac:(by eapply not_distribute_match_finds); intros [[c v] w] (xv & xw & Ov & Ow & Sv & Sw & El & Hg).
  assert (Sz : size z = 1) by (pose proof (uo_sizes _ _ _ _ _ _ _ U) as H; rewrite Hc in H; by apply Z.eqb_eq in H).
  edit ltac:(eapply (grown_negation f f [] op v xv); [done|done|by apply grown_start|done|done|done|by apply Hg]); intros [id1 f1] (G1 & K1 & d1 & Ed1 & Sd1 & F1).
  rewrite Ed1; cbn [mbind option_bind].
  edit ltac:(eapply (grown_negation f f1 _ op w xw); [done|done|exact G1|done|done|done|by apply Hg]); intros [id2 f2] (G2 & K2 & d2 & Ed2 & Sd2 & F2).
  rewrite Ed2; cbn [mbind option_bind].
  pose proof (grown_edit f f2 _ op _ _ _ G2 (unop_is _ _ _ _ _ _ _ U)) as E2.
  edit ltac:(eapply run_opcode_src; exact E2); intros f3 [E3 K3].
  edit ltac:(eapply run_input_src; [exact E3|cbn; lia|by apply K3, K2]); intros f4 [E4 K4].
  edit ltac:(eapply run_append; [exact E4|by apply K4, K3]); intros f5 E5; cbn [insert list_insert app] in E5.
  eapply (grown_pair_result f f2 f5); [exact G2|exact S|exact E5|by apply var_ok|by apply var_ok|by destruct c|rewrite Sz; by destruct c|by destruct c|].
  intros rho Hr; destruct (F2 rho Hr) as [Hr1 Ev2]; destruct (F1 rho Hr1) as [Hr0 Ev1]; cbn [ar_size ar_term val term_val]; rewrite Sz, Ev1, Ev2; by apply Hg.
Qed.

(** ** Exclusive or *)

(** the definition of a value *)
Lemma def_op (f : funcdata) (v d : nat) (x : varnode) : wf f -> varnodes f !! v = Some x -> vdef x = Some d -> exists p, ops f !! d = Some p /\ output p = Some v.
Proof.
  intros W Hx Hd; assert (Hw : is_written x = true) by (apply (fo_written _ (go_flags _ (wf_graph _ W) v x Hx)); by rewrite Hd).
  destruct (written_def f v x W Hx Hw) as (d' & p & Hd' & Hp & Ho); assert (d' = d) as -> by congruence; by exists p.
Qed.

Lemma lxor_value (s v w : Z) : valid_size s -> is_value s v -> is_value s w -> is_value s (Z.lxor v w).
Proof.
  intros Hs Hv Hw; assert (E : Z.lxor v w = wrap s (Z.lxor v w)); [|rewrite E; by apply wrap_value].
  rewrite <- (wrap_small s v Hv) at 1; rewrite <- (wrap_small s w Hw) at 1; unfold wrap, modulus, valid_size in *; rewrite <- !Z.land_ones by lia.
  apply Z.bits_inj'; intros i Hi; rewrite ?Z.lxor_spec, ?Z.land_spec, ?Z.lxor_spec; by destruct (Z.testbit v i), (Z.testbit w i), (Z.testbit (Z.ones (8 * s)) i).
Qed.

Lemma lxor_eqb (a b c : Z) : (Z.lxor a b =? c) = (a =? Z.lxor c b).
Proof.
  destruct (Z.eqb_spec (Z.lxor a b) c) as [E|N], (Z.eqb_spec a (Z.lxor c b)) as [E'|N']; try done.
  - destruct N'; by rewrite <- E, Z.lxor_assoc, Z.lxor_nilpotent, Z.lxor_0_r.
  - destruct N; by rewrite E', Z.lxor_assoc, Z.lxor_nilpotent, Z.lxor_0_r.
Qed.

Section Xors.
Context (f : funcdata) (W : wf f) (T : typed f).

(** the value of an exclusive or *)
Lemma xor_solved (op : nat) (o : pcode_op) (a b r : nat) (x y z : varnode) : binop f op o a b r x y z -> opc o = IntXor ->
  size x = size z /\ size y = size z /\ forall rho, solution f rho -> vval rho r z = Z.lxor (vval rho a x) (vval rho b y).
Proof.
  intros B Hc; destruct (uniform_sizes _ _ _ _ _ _ _ _ _ B ltac:(by rewrite Hc)) as [Sx Sy]; split_and!; [done..|]; intros rho Hr.
  pose proof (binop_solved _ _ _ _ _ _ _ _ _ _ rho B Hc eq_refl Hr) as E; cbn in E; injection E as <-; apply wrap_small.
  pose proof (bo_a _ _ _ _ _ _ _ _ _ B) as Oa; pose proof (bo_b _ _ _ _ _ _ _ _ _ B) as Ob; pose proof (operand_size _ _ _ _ _ (bo_yields _ _ _ _ _ _ _ _ _ B)).
  apply lxor_value; [done|rewrite <- Sx|rewrite <- Sy]; by eapply operand_fits.
Qed.

Definition equals (c : opcode) : bool := match c with IntEqual | IntNotequal => true | _ => false end.

Lemma xor_collapse_match_finds (op : nat) (o : pcode_op) (a b r : nat) (x y z : varnode) : binop f op o a b r x y z -> equals (opc o) = true ->
  finds (xor_collapse_match f op) (fun '(v, side) => exists xv, operand f v xv /\ size xv = size x /\
    match side with
    | inl w => exists xw, operand f w xw /\ size xw = size x /\ forall rho, solution f rho -> (vval rho a x =? vval rho b y) = (vval rho v xv =? vval rho w xw)
    | inr (s, k) => s = size x /\ is_value s k /\ forall rho, solution f rho -> (vval rho a x =? vval rho b y) = (vval rho v xv =? k)
    end).
Proof.
  intros B Hc; op_parts B; destruct (compare_sizes _ _ _ _ _ _ _ _ _ B ltac:(by destruct (opc o))) as [Sx Sz]; unfold xor_collapse_match; follow W T.
  apply finds_try; intros d Ed; destruct (def_op f a d x W Hat Ed) as (p & Hp & Hop); follow W T; destruct (xor_solved _ _ _ _ _ _ _ _ B0 ltac:(done)) as (S1 & S2 & Ex); branches; apply finds_some.
  - exists xa; split_and!; [done..|]; exists xb; split_and!; [done..|]; intros rho Hr; rewrite (Ex rho Hr), lxor_eqb, (vval_const rho b y) by done.
    match goal with K : constant_value y = 0 |- _ => by rewrite K, Z.lxor_0_l end.
  - exists xa; split; [done|]; split; [done|]; pose proof (on_const _ _ _ Ob ltac:(done)) as Vy; pose proof (on_const _ _ _ Ob0 ltac:(done)) as Vb.
    split_and!; [done|apply lxor_value; [done|exact Vy|]; rewrite <- Sx, <- S2; exact Vb|]; intros rho Hr.
    by rewrite (Ex rho Hr), lxor_eqb, (vval_const rho b y), (vval_const rho b0 xb) by done.
Qed.
End Xors.

#[export] Instance xor_collapse_sound : Sound RuleXorCollapse.
Proof.
  begin_binary xor_collapse_match_finds; [codes Hc; by rewrite Hc|]; intros [v side] (xv & Ov & Sv & Hg).
  assert (Ec : equals (opc o) = true) by (codes Hc; by rewrite Hc); destruct (compare_sizes _ _ _ _ _ _ _ _ _ B ltac:(by destruct (opc o))) as [Sx Sz].
  assert (Hs : forall rho, solution f rho -> vval rho r z = b2z (match opc o with IntEqual => vval rho a x =? vval rho b y | _ => negb (vval rho a x =? vval rho b y) end)).
  { intros rho Hr; destruct (compare_solved f _ _ _ _ _ _ _ _ _ rho B eq_refl ltac:(by destruct (opc o)) Hr) as (_ & _ & _ & E); destruct (opc o); try done; cbn in E; by injection E as <-. }
  pose proof (on_size _ _ _ Oa) as Vx; destruct side as [w|[s k]].
  - destruct Hg as (xw & Ow & Sw & Hg); apply runs_bind; edit ltac:(eapply run_input; [exact E0|cbn; lia|apply src_at, Ow]); intros f1 E1.
    edit ltac:(eapply run_input; [exact E1|cbn; lia|eapply editing_src; [exact E1|apply src_at, Ov]]); intros f2 E2; cbn [insert list_insert] in E2.
    eapply pair_result; [done|done|exact S|exact E2|by eapply operand_ok|by eapply operand_ok|by destruct (opc o)| |by destruct (opc o)|].
    + cbn; rewrite Sv, Sw, Sz; destruct (opc o); try done; cbn; by rewrite Z.eqb_refl.
    + intros rho Hr; rewrite (Hs rho Hr), (Hg rho Hr); by destruct (opc o).
  - destruct Hg as (-> & Hk & Hg); apply runs_bind; edit ltac:(eapply run_const; exact E0); intros [c f1] [E1 S1].
    edit ltac:(eapply run_input; [exact E1|cbn; lia|exact S1]); intros f2 E2.
    edit ltac:(eapply run_input; [exact E2|cbn; lia|eapply editing_src; [exact E2|apply src_at, Ov]]); intros f3 E3; cbn [insert list_insert] in E3.
    eapply pair_result; [done|done|exact S|exact E3|by eapply operand_ok|by apply const_ok|by destruct (opc o)| |by destruct (opc o)|].
    + cbn; rewrite Sv, Sz; destruct (opc o); try done; cbn; by rewrite Z.eqb_refl.
    + intros rho Hr; rewrite (Hs rho Hr), (Hg rho Hr); by destruct (opc o).
Qed.

(** ** [RuleXorSwap] *)

(** the two inputs of an operation, from either slot *)
Lemma either_slot (f : funcdata) (o : nat) (p : pcode_op) (a b r i : nat) (x y z : varnode) : binop f o p a b r x y z -> (i < 2)%nat ->
  exists u w xu xw, input p i = Some u /\ input p (1 - i) = Some w /\ operand f u xu /\ operand f w xw /\
    (u = a /\ xu = x /\ w = b /\ xw = y \/ u = b /\ xu = y /\ w = a /\ xw = x).
Proof.
  intros [Ei _ Ha Hb _] Hi; unfold input; rewrite Ei; destruct i as [|[|]]; [exists a, b, x, y|exists b, a, y, x|lia]; split_and!; try done; auto.
Qed.

Lemma xor_swap_slot_finds (f : funcdata) (op : nat) (o : pcode_op) (a b r i : nat) (x y z : varnode) : wf f -> typed f -> binop f op o a b r x y z -> opc o = IntXor -> (i < 2)%nat ->
  finds (xor_swap_slot f o i) (fun v => exists xv, operand f v xv /\ size xv = size z /\ forall rho, solution f rho -> vval rho v xv = vval rho r z).
Proof.
  intros W T B Hc Hi; destruct (xor_solved f _ _ _ _ _ _ _ _ B Hc) as (Sx & Sy & Eo); destruct (either_slot _ _ _ _ _ _ _ _ _ _ B Hi) as (u & w & xu & xw & Iu & Iw & Ou & Ow & Hcase).
  operand_parts Ou; operand_parts Ow; unfold xor_swap_slot; rewrite Iu, Iw; cbn [try]; follow W T; destruct (xor_solved f _ _ _ _ _ _ _ _ B0 G0) as (S1 & S2 & Ex); cbn [try]; follow W T.
  assert (Su : size xu = size z) by (destruct Hcase as [(_ & -> & _ & _)|(_ & -> & _ & _)]; done).
  assert (E : forall rho, solution f rho -> vval rho r z = Z.lxor (Z.lxor (vval rho a0 xa) (vval rho b0 xb)) (vval rho w xw)).
  { intros rho Hr; rewrite (Eo rho Hr), <- (Ex rho Hr); destruct Hcase as [(-> & -> & -> & ->)|(-> & -> & -> & ->)]; [done|apply Z.lxor_comm]. }
  apply finds_if; intros Gc; [|apply finds_need; intros Gd]; guards; apply finds_some.
  - assert (w = a0) as -> by congruence; assert (xw = xa) as -> by congruence; exists xb; split_and!; [done|congruence|]; intros rho Hr.
    by rewrite (E rho Hr), (Z.lxor_comm (vval rho a0 xa)), Z.lxor_assoc, Z.lxor_nilpotent, Z.lxor_0_r.
  - assert (w = b0) as -> by congruence; assert (xw = xb) as -> by congruence; exists xa; split_and!; [done|congruence|]; intros rho Hr.
    by rewrite (E rho Hr), Z.lxor_assoc, Z.lxor_nilpotent, Z.lxor_0_r.
Qed.

Lemma xor_swap_match_finds (f : funcdata) (op : nat) (o : pcode_op) (a b r : nat) (x y z : varnode) : wf f -> typed f -> binop f op o a b r x y z -> opc o = IntXor ->
  finds (o ← ops f !! op; first_slot (xor_swap_slot f o)) (fun v => exists xv, operand f v xv /\ size xv = size z /\ forall rho, solution f rho -> vval rho v xv = vval rho r z).
Proof.
  intros W T B Hc; rewrite (yd_op _ _ _ _ _ (bo_yields _ _ _ _ _ _ _ _ _ B)); cbn [mbind option_bind].
  apply finds_slot; (eapply xor_swap_slot_finds; [done|done|exact B|done|lia]).
Qed.

#[export] Instance xor_swap_sound : Sound RuleXorSwap.
Proof.
  begin_binary xor_swap_match_finds; [by apply list_elem_of_singleton in Hc|]; intros v (xv & Ov & Sv & Hg).
  edit ltac:(eapply run_remove; [exact E0|cbn; lia]); intros f1 E1; edit ltac:(eapply run_opcode; exact E1); intros f2 E2.
  edit ltac:(eapply run_input; [exact E2|cbn; lia|eapply editing_src; [exact E2|apply src_at, Ov]]); intros f3 E3; cbn [delete list_delete insert list_insert] in E3.
  by eapply (copy_result f f3 op r v).
Qed.

(** ** [RuleNegateIdentity] *)

Definition masks (c : opcode) : bool := match c with IntAnd | IntOr | IntXor => true | _ => false end.

Lemma complement_masks (c : opcode) (s v : Z) : valid_size s -> is_value s v -> masks c = true ->
  eval_binary c s s (modulus s - 1 - v) v = Some (match c with IntAnd => 0 | _ => modulus s - 1 end).
Proof.
  intros Hs Hv Hc; assert (E : modulus s - 1 - v = Z.lxor v (Z.ones (8 * s))) by (unfold valid_size, is_value, modulus in *; rewrite lxor_ones by (done || lia); lia).
  assert (Hb : forall i, 0 <= i -> Z.testbit (Z.ones (8 * s)) i = (i <? 8 * s)) by (intros i Hi; unfold valid_size in *; destruct (Z.ltb_spec i (8 * s)); [apply Z.ones_spec_low|apply Z.ones_spec_high]; lia).
  assert (Hh : forall i, 8 * s <= i -> Z.testbit v i = false) by (intros i Hi; unfold valid_size in *; apply high_bit with (8 * s); [lia|exact Hv]).
  assert (Ones : wrap s (Z.ones (8 * s)) = modulus s - 1) by (unfold valid_size in *; rewrite Z.ones_equiv; change (2 ^ (8 * s)) with (modulus s); rewrite <- Z.sub_1_r; apply wrap_small; pose proof (modulus_ge s Hs); unfold is_value; lia).
  rewrite E; destruct c; try done; cbn; f_equal.
  - rewrite Z.lxor_comm, <- Z.lxor_assoc, Z.lxor_nilpotent, Z.lxor_0_l; exact Ones.
  - transitivity (wrap s 0); [f_equal|by rewrite wrap_small by (apply zero_is_value; unfold valid_size in *; lia)].
    apply Z.bits_inj'; intros i Hi; rewrite Z.land_spec, Z.lxor_spec, Hb, Z.bits_0 by done; destruct (Z.ltb_spec i (8 * s)); [by destruct (Z.testbit v i)|by rewrite Hh].
  - rewrite <- Ones; f_equal; apply Z.bits_inj'; intros i Hi; rewrite Z.lor_spec, Z.lxor_spec, Hb by done; destruct (Z.ltb_spec i (8 * s)); [by destruct (Z.testbit v i)|by rewrite Hh].
Qed.

Lemma slot_of_two (p : pcode_op) (a b v : nat) : inrefs p = [a; b] -> In v [a; b] ->
  v = a /\ slot_of p v = 0%nat \/ v = b /\ slot_of p v = 1%nat.
Proof.
  intros Hi Hin; unfold slot_of; rewrite Hi; cbn; case_decide as E; [left; by subst|]; right; cbn; destruct Hin as [->|[->|[]]]; [done|].
  by rewrite decide_True.
Qed.

Lemma masks_commute (c : opcode) (s v w : Z) : masks c = true -> eval_binary c s s v w = eval_binary c s s w v.
Proof. intros Hc; destruct c; try discriminate Hc; cbn; by rewrite ?(Z.land_comm v), ?(Z.lor_comm v), ?(Z.lxor_comm v). Qed.

Section NegateIdentity.
Context (f : funcdata) (W : wf f) (T : typed f) (op : nat) (o : pcode_op) (a r : nat) (x z : varnode) (U : unop f op o a r x z) (Hc : opc o = IntNegate).

Lemma negate_identity_use_finds (logic_op : nat) : In logic_op (descend z) ->
  finds (negate_identity_use f a r logic_op) (fun '(l, s, k) => exists p v w q y y' u, binop f l p v w q y y' u /\ s = size u /\ is_value s k /\
    forall rho, solution f rho -> vval rho q u = k).
Proof.
  intros Hr; pose proof (yd_operand _ _ _ _ _ (uo_yields _ _ _ _ _ _ _ U)) as On; operand_parts On; destruct (reader_op f r logic_op z W Hat Hr) as (p & Hp & Hin).
  unop_parts U; pose proof (unop_sizes _ _ _ _ _ _ _ U (or_intror Hc)) as Sxz; unfold negate_identity_use; rewrite Hp; cbn [mbind option_bind].
  apply finds_need; intros G; assert (Em : masks (opc p) = true) by (unfold is_code in G; by destruct (opc p)).
  destruct (binop_at f logic_op p W T Hp ltac:(by destruct (opc p)) (live_in p r Hin)) as (v & w & q & y & y' & u & B); binop_parts B.
  destruct (uniform_sizes _ _ _ _ _ _ _ _ _ B ltac:(by destruct (opc p))) as [Sy Sy'].
  assert (Hother : forall other, input p (1 - slot_of p r) = Some other -> other = a -> exists ya yr, operand f a ya /\ operand f r yr /\ size ya = size u /\ size yr = size u /\
    forall rho, solution f rho -> eval_binary (opc p) (size u) (size u) (vval rho r yr) (vval rho a ya) = Some (vval rho q u)).
  { intros other Ho ->; rewrite Hin1 in Hin; unfold input in Ho; rewrite Hin1 in Ho.
    assert (Hs : forall rho, solution f rho -> eval_binary (opc p) (size u) (size u) (vval rho v y) (vval rho w y') = Some (vval rho q u)).
    { intros rho Hs; rewrite <- (binop_solved _ _ _ _ _ _ _ _ _ _ rho B eq_refl ltac:(by destruct (opc p)) Hs), Sy, Sy'; by destruct (opc p). }
    destruct (slot_of_two p v w r Hin1 Hin) as [[-> Es]|[-> Es]]; rewrite Es in Ho; cbn in Ho; injection Ho as ->.
    - exists y', y; by split_and!.
    - exists y, y'; split_and!; [done..|]; intros rho Hr'; rewrite <- (Hs rho Hr'); by apply masks_commute. }
  destruct (slot_of_two p v w r Hin1 ltac:(by rewrite <- Hin1)) as [[E Es]|[E Es]]; rewrite Es in Hother |- *; cbn [Nat.sub] in Hother |- *; rewrite (input_at p _ _ Hin1) in Hother |- *; cbn [lookup list_lookup mbind option_bind] in Hother |- *.
  all: apply finds_need; intros G'; guards; destruct (Hother _ eq_refl G') as (ya & yr & Oa' & Or' & Sa & Sr & Hg); rewrite Hat0; cbn [mbind option_bind]; apply finds_some; exists p, v, w, q, y, y', u.
  all: assert (ya = x) as -> by (operand_parts Oa'; congruence); assert (yr = z) as -> by (operand_parts Or'; congruence).
  all: assert (Hv : is_value (size x) (if is_code IntAnd p then 0 else calc_mask (size x))) by
    (pose proof (modulus_ge _ Hval0); destruct (is_code _ _); rewrite ?mask_ones by done; unfold is_value; lia).
  all: split_and!; [done|done|done|]; intros rho Hs; pose proof (Hg rho Hs) as Eq; rewrite (negate_solved f _ _ _ _ _ _ rho U Hc Hs), Sr, <- Sa in Eq.
  all: rewrite complement_masks in Eq by (try done; by eapply operand_fits); injection Eq as <-; rewrite mask_ones by done; unfold is_code; by destruct (opc p).
Qed.
End NegateIdentity.

#[export] Instance negate_identity_sound : Sound RuleNegateIdentity.
Proof.
  intros f op W T Ht; destruct (target_unop _ f op W T Ht) as (o & a & r & x & z & U & Hc & Hi); [done|done|]; apply list_elem_of_singleton in Hc.
  pose proof (uo_yields _ _ _ _ _ _ _ U) as Y; pose proof (yd_operand _ _ _ _ _ Y) as On; operand_parts On; unop_parts U.
  cbn [apply_op oplist RuleNegateIdentity]; eapply fire_result; [done|done| |].
  - unfold negate_identity_match; rewrite (yd_op _ _ _ _ _ Y); cbn [mbind option_bind]; rewrite (input_at o 0 _ Hin); cbn [lookup list_lookup mbind option_bind].
    rewrite (yd_out _ _ _ _ _ Y); cbn [mbind option_bind]; rewrite Hat; cbn [mbind option_bind]; apply finds_of; intros l Hl; by eapply negate_identity_use_finds.
  - intros [[l s] k] (p & v & w & q & y & y' & u & B & -> & Hk & Hg); pose proof (editing_start f l _ _ _ W (binop_is _ _ _ _ _ _ _ _ _ B)) as E0.
    edit ltac:(eapply run_const; exact E0); intros [c f1] [E1 S1]; edit ltac:(eapply run_input; [exact E1|cbn; lia|exact S1]); intros f2 E2.
    edit ltac:(eapply run_remove; [exact E2|cbn; lia]); intros f3 E3; edit ltac:(eapply run_opcode; exact E3); intros f4 E4; cbn [delete list_delete insert list_insert] in E4.
    eapply copy_const_result; [done|done|by eapply binop_site|exact E4|done|done|exact Hg].
Qed.

(** ** Pieces *)

Lemma piece_of_piece (s s1 v c1 c2 : Z) : valid_size s -> valid_size s1 -> 0 <= c1 -> 0 <= c2 -> c1 + s <= s1 ->
  wrap s (wrap s1 (v / 2 ^ (8 * c2)) / 2 ^ (8 * c1)) = wrap s (v / 2 ^ (8 * (c2 + c1))).
Proof.
  intros Hs Hs1 H1 H2 H; unfold valid_size, wrap, modulus in *; replace (8 * (c2 + c1)) with (8 * c2 + 8 * c1) by ring.
  rewrite Z.pow_add_r, <- Z.div_div by (try lia; apply Z.pow_nonzero || apply Z.pow_pos_nonneg; lia); generalize (v / 2 ^ (8 * c2)); intros u.
  assert (E : 2 ^ (8 * s1) = 2 ^ (8 * c1) * 2 ^ (8 * (s1 - c1))) by (rewrite <- Z.pow_add_r by lia; f_equal; lia).
  assert (P : forall n, 0 <= n -> 0 < 2 ^ n) by (intros; by apply Z.pow_pos_nonneg).
  assert (A1 : 0 < 2 ^ (8 * c1)) by (apply P; lia); assert (A2 : 0 < 2 ^ (8 * (s1 - c1))) by (apply P; lia); assert (A3 : 0 < 2 ^ (8 * s)) by (apply P; lia).
  rewrite E, Z.rem_mul_r, (Z.mul_comm (2 ^ (8 * c1)) (_ mod _)), Z.div_add, (Z.div_small (u mod _)), Z.add_0_l by (try apply Z.mod_pos_bound; lia); apply Z.mod_mod_divide.
  exists (2 ^ (8 * (s1 - c1 - s))); rewrite <- Z.pow_add_r by lia; f_equal; lia.
Qed.

Lemma double_sub_match_finds (f : funcdata) (op : nat) (o : pcode_op) (a b r : nat) (x y z : varnode) : wf f -> typed f -> binop f op o a b r x y z -> opc o = Subpiece ->
  finds (double_sub_match f op) (fun '(v, k) => exists xv, operand f v xv /\ is_value 4 k /\ k + size z <= size xv /\
    forall rho, solution f rho -> vval rho r z = wrap (size z) (vval rho v xv / 2 ^ (8 * k))).
Proof.
  intros W T B Hc; op_parts B; unfold double_sub_match; follow W T; apply finds_some; exists xa; split; [done|].
  destruct (bo_offset _ _ _ _ _ _ _ _ _ B Hc) as [K1 L1]; destruct (bo_offset _ _ _ _ _ _ _ _ _ B0 G0) as [K2 L2].
  destruct (on_const _ _ _ Ob K1) as [P1 _]; destruct (on_const _ _ _ Ob0 K2) as [P2 _]; fold (constant_value y) in *; fold (constant_value xb) in *.
  assert (E : u64_add (constant_value y) (constant_value xb) = constant_value xb + constant_value y) by (unfold u64_add, valid_size in *; rewrite w64_small; lia).
  rewrite E; split; [unfold is_value, valid_size in *; change (modulus 4) with 4294967296; lia|]; split; [lia|]; intros rho Hr.
  pose proof (binop_solved _ _ _ _ _ _ _ _ _ _ rho B Hc eq_refl Hr) as E1; cbn in E1; injection E1 as <-; rewrite (vval_const rho b y K1).
  pose proof (binop_solved _ _ _ _ _ _ _ _ _ _ rho B0 G0 eq_refl Hr) as E2; cbn in E2; injection E2 as <-; rewrite (vval_const rho b0 xb K2).
  by apply piece_of_piece.
Qed.

#[export] Instance double_sub_sound : Sound RuleDoubleSub.
Proof.
  begin_binary double_sub_match_finds; [by apply list_elem_of_singleton in Hc|]; intros [v k] (xv & Ov & Vk & L & Hg); apply list_elem_of_singleton in Hc.
  edit ltac:(eapply run_input; [exact E0|cbn; lia|apply src_at, Ov]); intros f1 E1; edit ltac:(eapply run_const; exact E1); intros [c f2] [E2 S2].
  edit ltac:(eapply run_input; [exact E2|cbn; lia|exact S2]); intros f3 E3; cbn [insert list_insert] in E3; rewrite Hc in E3; pose proof (site_size _ _ _ _ S) as Vz; destruct Vk as [Vk Vk'].
  eapply pair_result; [done|done|exact S|exact E3|by eapply operand_ok|apply const_ok; [unfold valid_size; lia|by split]|done| |cbn; by apply Z.leb_le|].
  - cbn; apply Z.leb_le; lia.
  - intros rho Hr; cbn; fold (vval rho v xv); by rewrite (Hg rho Hr).
Qed.

(** ** [RuleConcatShift] *)

Section Concat.
Context (sm l m w : Z) (Hm : valid_size sm) (Hl : valid_size l) (Hs : valid_size (sm + l)) (Vm : is_value sm m) (Vw : is_value l w).

Lemma modulus_split_sum : modulus (sm + l) = modulus sm * modulus l.
Proof. unfold modulus, valid_size in *; rewrite <- Z.pow_add_r by lia; f_equal; lia. Qed.

Lemma concat_value : is_value (sm + l) (m * modulus l + w).
Proof. unfold is_value in *; rewrite modulus_split_sum; nia. Qed.

Lemma concat_signed : signed (sm + l) (m * modulus l + w) = signed sm m * modulus l + w.
Proof.
  pose proof (modulus_half sm Hm) as E; pose proof (modulus_half _ Hs) as E'; pose proof modulus_split_sum as E2; unfold signed, is_value in *.
  destruct (Z.ltb_spec m (modulus sm / 2)), (Z.ltb_spec (m * modulus l + w) (modulus (sm + l) / 2)); nia.
Qed.
End Concat.

Lemma concat_shifted (l u w k : Z) : valid_size l -> is_value l w -> 0 <= k -> (u * modulus l + w) / 2 ^ (8 * l + k) = u / 2 ^ k.
Proof.
  intros Hl Vw Hk; unfold is_value, modulus, valid_size in *; assert (P : forall n, 0 <= n -> 0 < 2 ^ n) by (intros; by apply Z.pow_pos_nonneg).
  pose proof (P (8 * l) ltac:(lia)); pose proof (P k Hk); rewrite Z.pow_add_r, <- Z.div_div, Z.add_comm, Z.div_add, (Z.div_small w), Z.add_0_l by lia; done.
Qed.

(** the extension a rule puts for the high part, and the value it leaves *)
Definition extended (c : opcode) (s v : Z) : Z := match c with IntZext => v | _ => signed s v end.

Lemma concat_shift_match_finds (f : funcdata) (op : nat) (o : pcode_op) (a b r : nat) (x y z : varnode) : wf f -> typed f -> binop f op o a b r x y z ->
  opc o ∈ [IntRight; IntSright] ->
  finds (concat_shift_match f op) (fun '(v, k, c, s, cs) => exists xv, operand f v xv /\ s = size z /\ cs = size y /\ size xv < size z /\
    c = (if bool_decide (opc o = IntRight) then IntZext else IntSext) /\ is_value cs k /\
    forall rho, solution f rho -> vval rho r z = wrap (size z) (extended c (size xv) (vval rho v xv) / 2 ^ k)).
Proof.
  intros W T B Hc; op_parts B; unfold concat_shift_match; follow W T; apply finds_some; exists xa; split; [done|].
  assert (Es : is_shift (opc o) = true) by (codes Hc; by rewrite Hc); pose proof (shift_sizes _ _ _ _ _ _ _ _ _ B Es) as Sx.
  assert (Sz : size x = size xa + size xb) by (pose proof (bo_sizes _ _ _ _ _ _ _ _ _ B0) as H'; match goal with E : opc p = Piece |- _ => rewrite E in H' end; by apply Z.eqb_eq in H').
  pose proof (on_const _ _ _ Ob ltac:(done)) as Vy; fold (constant_value y) in Vy; pose proof (value_u64 _ _ Hval0 Vy) as Uy.
  destruct (i64_pos (constant_value y) Uy) as [Ei Ly]; [unfold valid_size in *; lia|]; rewrite Ei in *; rewrite i64_id by (unfold valid_size in *; lia).
  set (k := constant_value y - size xb * 8) in *; assert (Ek : constant_value y = 8 * size xb + k) by (unfold k; lia); assert (Hk : 0 <= k) by (unfold k; lia).
  split; [done|]; split; [done|]; split; [unfold valid_size in *; lia|]; split; [done|]; split; [unfold is_value, valid_size in *; lia|]; intros rho Hr.
  pose proof (operand_fits _ _ _ _ Hr Oa0) as Fm; pose proof (operand_fits _ _ _ _ Hr Ob0) as Fw; assert (Hs : valid_size (size xa + size xb)) by (by rewrite <- Sz).
  assert (E0 : vval rho a x = vval rho a0 xa * modulus (size xb) + vval rho b0 xb).
  { pose proof (binop_solved _ _ _ _ _ _ _ _ _ _ rho B0 ltac:(eassumption) eq_refl Hr) as E; cbn in E; injection E as <-; rewrite Sz; apply wrap_small; by apply concat_value. }
  pose proof (binop_solved _ _ _ _ _ _ _ _ _ _ rho B eq_refl ltac:(by destruct (opc o)) Hr) as E; rewrite (vval_const rho b y), E0, Ek, Sz in E by done; unfold is_code.
  codes Hc; rewrite Hc in E |- *; cbn in E |- *; injection E as <-; rewrite ?concat_signed, concat_shifted by done; done.
Qed.

Section Extensions.
Context (c : opcode) (s s' v : Z) (Hc : c = IntZext \/ c = IntSext) (Hs : valid_size s) (Hs' : valid_size s') (L : s < s') (Hv : is_value s v).

Lemma extension_value : eval1 c s s' v = Some (wrap s' (extended c s v)).
Proof. by destruct Hc as [-> | ->]. Qed.

Lemma extension_shifted (k : Z) : eval_binary (match c with IntZext => IntRight | _ => IntSright end) s' s' (wrap s' (extended c s v)) k = Some (wrap s' (extended c s v / 2 ^ k)).
Proof.
  assert (Hb : modulus s <= modulus s') by (unfold modulus, valid_size in *; apply Z.pow_le_mono_r; lia).
  assert (Hd : modulus s <= modulus s' / 2) by (rewrite half_pow by done; unfold modulus, valid_size in *; apply Z.pow_le_mono_r; lia).
  destruct Hc as [-> | ->]; cbn; do 3 f_equal; [apply wrap_small; unfold is_value in *; lia|]; pose proof (modulus_half s Hs); pose proof (signed_range s v Hs Hv).
  apply signed_of_wrap; [done|]; rewrite <- half_pow by done; lia.
Qed.
End Extensions.

#[export] Instance concat_shift_sound : Sound RuleConcatShift.
Proof.
  begin_binary concat_shift_match_finds; intros [[[[v k] c] s] cs] (xv & Ov & -> & -> & L & Ec & Vk & Hg).
  pose proof (site_size _ _ _ _ S) as Vz; pose proof (on_size _ _ _ Ov) as Vv; pose proof (on_size _ _ _ Ob) as Vy.
  assert (Es : is_shift (opc o) = true) by (codes Hc; by rewrite Hc); pose proof (shift_sizes _ _ _ _ _ _ _ _ _ B Es) as Sx.
  assert (Hext : c = IntZext \/ c = IntSext) by (subst c; destruct (bool_decide _); auto).
  assert (Hu : is_unary c = true) by (by destruct Hext as [-> | ->]); assert (Hz : unary_sizes c (size xv) (size z) = true) by (apply Z.ltb_lt in L; by destruct Hext as [-> | ->]).
  destruct (Z.eqb_spec k 0) as [-> |N].
  - edit ltac:(eapply run_remove; [exact E0|cbn; lia]); intros f1 E1; edit ltac:(eapply run_opcode; exact E1); intros f2 E2.
    edit ltac:(eapply run_input; [exact E2|cbn; lia|eapply editing_src; [exact E2|apply src_at, Ov]]); intros f3 E3; cbn [delete list_delete insert list_insert] in E3.
    eapply one_result; [done|done|exact S|exact E3|by eapply operand_ok|done|done|]; intros rho Hr; fold (vval rho v xv); cbn [ar_size arg_of].
    rewrite extension_value, (Hg rho Hr) by (done || by eapply operand_fits); change (2 ^ 0) with 1; by rewrite Z.div_1_r.
  - edit ltac:(eapply (grown_op f f [] op c [v] [arg_of v xv] (size z)); [by apply grown_start|done| | |by unfold evaluable; rewrite Hu|]).
    { apply args_one; exists v; split; [done|apply src_at, Ov]. }
    { intros u; by apply view_ok_unary; [|eapply operand_ok| |]. }
    { intros rho Hr; cbn [eval_view ar_size arg_of]; fold (vval rho v xv); rewrite extension_value by (done || by eapply operand_fits); eexists; split; [done|by apply wrap_value]. }
    intros [id f1] (G1 & K1 & d & Ed & Sd & F1); rewrite Ed; cbn [mbind option_bind].
    pose proof (grown_edit f f1 _ op _ _ _ G1 (binop_is _ _ _ _ _ _ _ _ _ B)) as E1.
    edit ltac:(eapply run_input; [exact E1|cbn; lia|exact Sd]); intros f2 E2; edit ltac:(eapply run_const; exact E2); intros [cn f3] [E3 S3].
    edit ltac:(eapply run_input; [exact E3|cbn; lia|exact S3]); intros f4 E4; cbn [insert list_insert] in E4; rewrite (w64_small k) in E4 by (by eapply value_u64).
    assert (Eo : opc o = match c with IntZext => IntRight | _ => IntSright end) by (rewrite Ec; codes Hc; by rewrite Hc).
    eapply (grown_pair_result f f1 f4); [exact G1|exact S|exact E4|by apply var_ok|by apply const_ok|by destruct (opc o)|destruct (opc o); try done; by apply Z.eqb_eq|by destruct (opc o)|].
    intros rho Hr; destruct (F1 rho Hr) as [Hr0 Ev]; cbn [eval_view ar_size arg_of] in Ev; fold (vval rho v xv) in Ev.
    pose proof (operand_fits _ _ _ _ Hr0 Ov) as Fv; rewrite extension_value in Ev by done; injection Ev as Ev; cbn [ar_size ar_term val term_val]; rewrite <- Ev, (Hg rho Hr0), Eo.
    rewrite <- (extension_shifted c (size xv) (size z)) by done; by destruct Hext as [-> | ->].
Qed.

(** ** [RulePropagateCopy] *)

(** an operand of the same size and value *)
Record same_arg (f : funcdata) (A A' : arg) : Prop := SameArg {
  sa_ok : arg_ok A' = true;
  sa_size : ar_size A' = ar_size A;
  sa_var : is_var A = true;
  sa_val : forall rho, solution f rho -> val rho A' = val rho A;
}.

Lemma same_arg_view (f : funcdata) (c : opcode) (args : list arg) (R : arg) (i : nat) (A A' : arg) : args !! i = Some A -> same_arg f A A' ->
  evaluable c = true -> view_ok (View c args (Some R)) = true ->
  view_ok (View c (<[i := A']> args) (Some R)) = true /\ forall rho, solution f rho -> eval_view rho c (<[i := A']> args) (ar_size R) = eval_view rho c args (ar_size R).
Proof.
  intros Hi [Hok Hs Hv Hval] He H; unfold view_ok in *; cbn [w_opc w_args w_out] in *; rewrite He in H |- *.
  destruct args as [|a [|b [|]]]; try done; destruct i as [|[|]]; try done; cbn in Hi; injection Hi as ->; cbn [insert list_insert eval_view].
  - rewrite Hs, Hok; split; [rewrite !andb_true_iff in H |- *; tauto|]; intros rho Hr; by rewrite Hval.
  - rewrite Hs, Hok; split; [|intros rho Hr; by rewrite Hval]; assert (E : offset_ok c A' b R = offset_ok c A b R) by (unfold offset_ok; by rewrite Hs).
    rewrite E; rewrite !andb_true_iff in H |- *; tauto.
  - rewrite Hs, Hok; split; [|intros rho Hr; by rewrite Hval]; assert (E : offset_ok c a A R = true -> offset_ok c a A' R = true).
    { unfold offset_ok, is_var in *; destruct c; try done; by destruct (ar_term A). }
    rewrite !andb_true_iff in H |- *; tauto.
Qed.

Lemma propagate_result (f g : funcdata) (op : nat) (c : opcode) (args : list arg) (out : option nat) (i : nat) (A A' : arg) : wf f -> typed f ->
  op_is f op c args out -> (evaluable c = true -> is_Some out) -> args !! i = Some A -> same_arg f A A' -> editing f g op c (<[i := A']> args) out -> result f g.
Proof.
  intros W T I Ho Hi HA E; destruct (evaluable c) eqn:He; [|eapply opaque_result; [done|done|apply E|exact I|apply E|apply E|done]].
  destruct (Ho eq_refl) as [r ->]; pose proof I as (o & Hop & Ec & _ & Eo); destruct (src_total f r (output_lt f op r o (wf_graph _ W) Hop Eo)) as [R HR].
  pose proof (op_is_view _ _ _ _ _ _ I (eq_trans (f_equal _ HR) eq_refl : out_src f (Some r) = Some (Some _))) as V; pose proof (T _ _ V) as Hok.
  assert (Hvar : is_var R = true) by (clear - Hok He; unfold view_ok in Hok; cbn [w_opc w_args w_out] in Hok; rewrite He in Hok; destruct args as [|? [|? [|]]]; try done; repeat (apply andb_true_iff in Hok as [Hok ?]); done).
  destruct R as [s [k|u]]; [done|]; pose proof (src_var _ _ _ _ HR) as ->; destruct (same_arg_view f c args (Arg s (TVar r)) i A A' Hi HA He Hok) as [Hok' Hval].
  eapply editing_result; [done|done|exact I|exact HR|exact E|exact Hok'|done|]; intros rho Hr; rewrite (Hval rho Hr); by apply (op_is_holds f op c args r s).
Qed.

Lemma propagate_slot_finds (f : funcdata) (o : pcode_op) (i : nat) : wf f -> typed f -> (exists op, ops f !! op = Some o) -> (i < List.length (inrefs o))%nat ->
  finds (propagate_slot f o i) (fun '(j, v) => exists u x xv, inrefs o !! j = Some u /\ varnodes f !! u = Some x /\ operand f v xv /\ same_arg f (arg_of u x) (arg_of v xv)).
Proof.
  intros W T [op Ho] Hi; destruct (lookup_lt_is_Some_2 _ _ Hi) as [u Hu]; pose proof (graph_in_arena f op (wf_graph _ W)) as Ha; rewrite (inputs_at _ _ _ Ho) in Ha.
  unfold in_arena in Ha; rewrite List.Forall_forall in Ha; pose proof (Ha u (proj1 (list_elem_of_In _ _) (list_elem_of_lookup_2 _ _ _ Hu))) as Lu; destruct (lookup_lt_is_Some_2 _ _ Lu) as [x Hx].
  unfold propagate_slot, input; rewrite Hu; cbn [mbind option_bind]; rewrite Hx; cbn [mbind option_bind]; apply finds_try; intros d Ed.
  destruct (def_op f u d x W Hx Ed) as (p & Hp & Hout); rewrite Hp; cbn [mbind option_bind]; apply finds_need; intros G; guards.
  destruct (def_unop f u d x p W T Hx Hp Hout ltac:(by rewrite G)) as (v & xv & U); unop_parts U; rewrite Hin; cbn [lookup list_lookup mbind option_bind]; rewrite Hat; cbn [mbind option_bind].
  apply finds_need; intros G1; apply finds_need; intros G2; apply finds_some; exists u, x, xv; split_and!; try done.
  pose proof (uo_sizes _ _ _ _ _ _ _ U) as Sz; rewrite G in Sz; apply Z.eqb_eq in Sz; constructor; [by eapply operand_ok|done| |].
  - unfold is_var, arg_of; cbn; by rewrite (yd_var _ _ _ _ _ (uo_yields _ _ _ _ _ _ _ U)).
  - intros rho Hr; pose proof (unop_solved _ _ _ _ _ _ _ _ rho U G eq_refl Hr) as E; cbn in E; injection E as E; fold (vval rho u x) (vval rho v xv); rewrite <- E, wrap_small; [done|].
    rewrite <- Sz; by eapply operand_fits.
Qed.

#[export] Instance propagate_copy_sound : Sound RulePropagateCopy.
Proof.
  intros f op W T Ht; destruct (target_op _ f op Ht) as (o & Ho & Er & _ & Hi); cbn [apply_op RulePropagateCopy].
  eapply fire_result; [done|done| |].
  - unfold propagate_copy_match; rewrite Ho; cbn [mbind option_bind]; apply finds_need; intros _; apply finds_of; intros i [_ Hi']%in_seq; apply propagate_slot_finds; [done|done|by exists op|exact Hi'].
  - intros [i v] (u & x & xv & Hu & Hx & Ov & Ha); pose proof (graph_in_arena f op (wf_graph _ W)) as Hin; rewrite (inputs_at _ _ _ Ho) in Hin; destruct (srcs_total f _ Hin) as [args Hargs].
    assert (I : op_is f op (opc o) args (output o)) by (by exists o); assert (HA : args !! i = Some (arg_of u x)).
    { rewrite mapM_Some in Hargs; destruct (Forall2_lookup_l _ _ _ _ _ Hargs Hu) as (A & HA & E); by rewrite HA, <- E, (src_at _ _ _ Hx). }
    edit ltac:(eapply run_input; [by eapply editing_start|by eapply lookup_lt_Some|apply src_at, Ov]); intros g E; by eapply propagate_result.
Qed.
