(* ===== verification/HostFloat.v ===== *)
(** The host's floating point, as the interpreter uses it: the interface [HostFloat] lists the
    operations on Rust's [f32] and [f64] that [float_op] calls, and [ieee] implements it with the
    IEEE-754 arithmetic of [SpecFloat] (every NaN encodes as the default quiet NaN). *)
From Stdlib Require Import ZArith Lia Bool List Floats.SpecFloat.
From stdpp Require Import base.
From S2P Require Import Prelude.
Local Open Scope Z_scope.

Class HostFloat := {
  f64 : Type;
  f64_of_f32_bits : Z -> f64;      (* [f32::from_bits(_) as f64] *)
  f64_of_bits : Z -> f64;
  f32_bits : f64 -> Z;             (* [(_ as f32).to_bits()] *)
  f64_bits : f64 -> Z;
  f64_add : f64 -> f64 -> f64;
  f64_sub : f64 -> f64 -> f64;
  f64_mul : f64 -> f64 -> f64;
  f64_div : f64 -> f64 -> f64;
  f64_neg : f64 -> f64;
  f64_abs : f64 -> f64;
  f64_sqrt : f64 -> f64;
  f64_ceil : f64 -> f64;
  f64_floor : f64 -> f64;
  f64_round : f64 -> f64;
  f64_eq : f64 -> f64 -> bool;
  f64_lt : f64 -> f64 -> bool;
  f64_le : f64 -> f64 -> bool;
  f64_is_nan : f64 -> bool;
  f64_of_i64 : Z -> f64;
  f64_to_i64 : f64 -> Z;           (* [_ as i64]: toward zero, saturating *)
}.

(** ** An IEEE implementation *)

(** [mw] stored significand bits, [ew] exponent bits *)
Definition decode (mw ew : Z) (bits : Z) : spec_float :=
  let s := Z.testbit bits (mw + ew) in
  let ex := Z.land (Z.shiftr bits mw) (Z.ones ew) in
  let m := Z.land bits (Z.ones mw) in
  let bias := 2 ^ (ew - 1) - 1 in
  if ex =? Z.ones ew then (if m =? 0 then S754_infinity s else S754_nan)
  else
    let '(m, e) := if ex =? 0 then (m, 1 - bias - mw) else (m + 2 ^ mw, ex - bias - mw) in
    match m with
    | Zpos p => S754_finite s p e
    | _ => S754_zero s
    end.

Definition encode (mw ew : Z) (x : spec_float) : Z :=
  let bias := 2 ^ (ew - 1) - 1 in
  let sign (s : bool) := if s then 2 ^ (mw + ew) else 0 in
  match x with
  | S754_zero s => sign s
  | S754_infinity s => sign s + Z.ones ew * 2 ^ mw
  | S754_nan => Z.ones ew * 2 ^ mw + 2 ^ (mw - 1)
  | S754_finite s m e =>
      if Z.pos m <? 2 ^ mw then sign s + Z.pos m
      else sign s + (e + bias + mw) * 2 ^ mw + (Z.pos m - 2 ^ mw)
  end.

(** the nearest value of the given format *)
Definition round_to (prec emax : Z) (x : spec_float) : spec_float :=
  match x with
  | S754_finite s m e => binary_normalize prec emax (if s then Z.neg m else Z.pos m) e s
  | _ => x
  end.

(** an integral magnitude computed from the magnitude [m * 2^e], the sign kept *)
Definition integral (f : bool -> Z -> Z -> Z) (x : spec_float) : spec_float :=
  match x with
  | S754_finite s m e =>
      if 0 <=? e then x
      else
        let n := f s (Z.pos m) (2 ^ (- e)) in
        if n =? 0 then S754_zero s else binary_normalize 53 1024 (if s then - n else n) 0 s
  | _ => x
  end.

Definition truncate (x : spec_float) : Z :=
  match x with
  | S754_finite s m e =>
      let n := if 0 <=? e then Z.pos m * 2 ^ e else Z.pos m / 2 ^ (- e) in
      Z.max (- 2 ^ 63) (Z.min (2 ^ 63 - 1) (if s then - n else n))
  | S754_infinity s => if s then - 2 ^ 63 else 2 ^ 63 - 1
  | _ => 0
  end.

#[export] Instance ieee : HostFloat := {
  f64 := spec_float;
  f64_of_f32_bits b := round_to 53 1024 (decode 23 8 b);
  f64_of_bits := decode 52 11;
  f32_bits x := encode 23 8 (round_to 24 128 x);
  f64_bits := encode 52 11;
  f64_add := SFadd 53 1024;
  f64_sub := SFsub 53 1024;
  f64_mul := SFmul 53 1024;
  f64_div := SFdiv 53 1024;
  f64_neg := SFopp;
  f64_abs := SFabs;
  f64_sqrt := SFsqrt 53 1024;
  f64_ceil := integral (fun s m d => if (s : bool) then m / d else (m + d - 1) / d);
  f64_floor := integral (fun s m d => if (s : bool) then (m + d - 1) / d else m / d);
  f64_round := integral (fun _ m d => (2 * m + d) / (2 * d));
  f64_eq := SFeqb;
  f64_lt := SFltb;
  f64_le := SFleb;
  f64_is_nan x := match x with S754_nan => true | _ => false end;
  f64_of_i64 z := binary_normalize 53 1024 z 0 false;
  f64_to_i64 := truncate;
}.
