(* ===== verification/ConstFold.v ===== *)
(** Constant folding ([decompile/rules.rs]: [eval_const], [RuleConstFold]; [decompile/float.rs]: the
    encodings of floats), and when it agrees with the meaning of the operations. *)
From Stdlib Require Import ZArith Lia Bool List.
From stdpp Require Import base decidable option list strings gmap numbers tactics.
From S2P Require Import Prelude Space OpCode BitUtil PcodeSem Funcdata FuncdataLinks FuncdataEdits FuncdataRemove FuncdataBlocks FuncdataTheorems FuncdataBuild HostFloat RuleBase Divopt DivRules Rules Valuation ValuationEdits Rewrite RuleFacts RuleArith DivRulesSound RulesSound LogicSound.
Local Open Scope Z_scope.
Local Open Scope match_scope.

(** ** The evaluator *)

(** [sext(v, size)] of rules.rs *)
Definition sext (v size : Z) : Z :=
  if (size =? 0) || (8 <=? size) then v
  else let sh := 64 - 8 * size in w64 (i64_shr (i64 (u64_shl v sh)) sh).

Definition u64_saturating_mul (a b : Z) : Z := Z.min (a * b) u64_max.

(** [checked_shl(n as u32).unwrap_or(0)], [checked_shr(n as u32).unwrap_or(0)] *)
Definition fold_shl (a n : Z) : Z := u64_checked_shl0 a (w32 n).
Definition fold_shr (a n : Z) : Z := u64_checked_shr0 a (w32 n).

Section Eval.
Context `{HF : HostFloat}.

(** [float::to_host], [float::encode] *)
Definition to_host (encoding size : Z) : f64 := if size =? 4 then f64_of_f32_bits (w32 encoding) else f64_of_bits encoding.
Definition encode_host (host : f64) (size : Z) : Z := if size =? 4 then f32_bits host else f64_bits host.

(** the value of a float operation *)
Definition eval_float (c : opcode) (inputs : list (Z * Z)) (out_size : Z) : Z :=
  let insz i := match inputs !! i with Some (_, s) => s | None => 1 end in
  let raw i := match inputs !! i with Some (v, _) => v | None => 0 end in
  let fin i := to_host (raw i) (insz i) in
  let enc h := encode_host h out_size in
  match c with
  | FloatAdd => enc (f64_add (fin 0%nat) (fin 1%nat))
  | FloatSub => enc (f64_sub (fin 0%nat) (fin 1%nat))
  | FloatMult => enc (f64_mul (fin 0%nat) (fin 1%nat))
  | FloatDiv => enc (f64_div (fin 0%nat) (fin 1%nat))
  | FloatNeg => enc (f64_neg (fin 0%nat))
  | FloatAbs => enc (f64_abs (fin 0%nat))
  | FloatSqrt => enc (f64_sqrt (fin 0%nat))
  | FloatFloat2float => enc (fin 0%nat)
  | FloatInt2float => enc (f64_of_i64 (i64 (match inputs !! 0%nat with Some (v, s) => sext v s | None => 0 end)))
  | FloatTrunc => w64 (f64_to_i64 (fin 0%nat))
  | FloatEqual => u64_of_bool (f64_eq (fin 0%nat) (fin 1%nat))
  | FloatNotequal => u64_of_bool (negb (f64_eq (fin 0%nat) (fin 1%nat)))
  | FloatLess => u64_of_bool (f64_lt (fin 0%nat) (fin 1%nat))
  | FloatLessequal => u64_of_bool (f64_le (fin 0%nat) (fin 1%nat))
  | _ => u64_of_bool (f64_is_nan (fin 0%nat))
  end.

Definition eval_const (c : opcode) (inputs : list (Z * Z)) (out_size : Z) : option Z :=
  let a i := match inputs !! i with Some (v, s) => mask v s | None => 0 end in
  let sa i := match inputs !! i with Some (v, s) => sext v s | None => 0 end in
  let a0 := a 0%nat in let a1 := a 1%nat in
  let s0 := sa 0%nat in let s1 := sa 1%nat in
  res ← match c with
    | Copy => Some a0
    | IntAdd => Some (u64_add a0 a1)
    | IntSub => Some (u64_sub a0 a1)
    | IntMult => Some (u64_mul a0 a1)
    | IntAnd => Some (Z.land a0 a1)
    | IntOr => Some (Z.lor a0 a1)
    | IntXor => Some (Z.lxor a0 a1)
    | IntLeft => Some (fold_shl a0 a1)
    | IntRight => Some (fold_shr a0 a1)
    | IntSright => Some (u64_shr s0 (Z.min (w32 a1) 63))
    | IntNegate => Some (u64_not a0)
    | Int2comp => Some (w64 (- a0))
    | IntZext => Some a0
    | IntSext => Some s0
    | Subpiece => Some (fold_shr a0 (u64_saturating_mul a1 8))
    | IntEqual => Some (u64_of_bool (a0 =? a1))
    | IntNotequal => Some (u64_of_bool (negb (a0 =? a1)))
    | IntLess => Some (u64_of_bool (a0 <? a1))
    | IntLessequal => Some (u64_of_bool (a0 <=? a1))
    | IntSless => Some (u64_of_bool (i64 s0 <? i64 s1))
    | IntSlessequal => Some (u64_of_bool (i64 s0 <=? i64 s1))
    | BoolNegate => Some (u64_of_bool (a0 =? 0))
    | BoolAnd => Some (Z.land (Z.land a0 1) (Z.land a1 1))
    | BoolOr => Some (Z.lor (Z.land a0 1) (Z.land a1 1))
    | BoolXor => Some (Z.lxor (Z.land a0 1) (Z.land a1 1))
    | Popcount => Some (count_ones a0)
    | Lzcount => Some (u64_leading_zeros a0)
    | FloatAdd | FloatSub | FloatMult | FloatDiv | FloatNeg | FloatAbs | FloatSqrt
    | FloatFloat2float | FloatInt2float | FloatTrunc | FloatEqual | FloatNotequal | FloatLess
    | FloatLessequal | FloatNan => Some (eval_float c inputs out_size)
    | _ => None
    end;
  Some (mask res out_size).

(** ** The rule *)

(** the inputs, if all are constants; [None] is a panic *)
Fixpoint constant_inputs (f : funcdata) (l : list nat) : option (option (list (Z * Z))) :=
  match l with
  | [] => found []
  | v :: l =>
      x ← varnodes f !! v;
      need (is_constant x) in
      call? r := constant_inputs f l in
      found ((constant_value x, size x) :: r)
  end.

Definition const_fold_match (f : funcdata) (op : nat) : option (option (nat * Z * Z)) :=
  o ← ops f !! op;
  need (negb (is_code Copy o)) in
  need (negb (is_code Ptrsub o || is_code Ptradd o || negb (Z.land (oflags o) NO_COLLAPSE =? 0))) in
  let? out := output o in
  need (negb (bool_decide (inrefs o = []))) in
  call? inputs := constant_inputs f (inrefs o) in
  xo ← varnodes f !! out;
  need (negb (8 <? size xo)) in
  let? val := eval_const (opc o) inputs (size xo) in
  found (List.length (inrefs o), size xo, val).

(** [for slot in (1..n).rev()] *)
Fixpoint remove_above (f : funcdata) (op n : nat) : option funcdata :=
  match n with
  | O => Some f
  | S n => f ← op_remove_input f op (S n); remove_above f op n
  end.

Definition RuleConstFold : rule :=
  Rule [] (fun op f => fire (const_fold_match f op) f (fun '(n, sz, val) =>
    '(c, f) ← new_const f sz val;
    f ← remove_above f op (n - 1);
    f ← op_set_input f op 0 c;
    op_set_opcode f op Copy)).
End Eval.

(** The constants an operation folds as it runs: the arithmetic shift is done on the unsigned word, the
    leading zeros are counted in 64 bits, and a distance is cut to 32 bits. *)
Definition folds_exactly (c : opcode) (s v w : Z) : bool :=
  match c with
  | IntLeft | IntRight => w <? 2 ^ 32
  | IntSright => (w <? 2 ^ 32) && ((v <? modulus s / 2) || (8 * s + w <=? 64))
  | Lzcount => s =? 8
  | _ => true
  end.

Example shifts_as_unsigned : eval_const IntSright [(0xc000000000000000, 8); (4, 4)] 8 = Some 0x0c00000000000000 /\
  eval_binary IntSright 8 8 0xc000000000000000 4 = Some 0xfc00000000000000.
Proof. vm_compute; split; reflexivity. Qed.

Example counts_in_words : eval_const Lzcount [(1, 4)] 4 = Some 63 /\ eval_unary Lzcount 4 4 1 = Some 31.
Proof. vm_compute; split; reflexivity. Qed.

Example cuts_distances : eval_const IntLeft [(1, 4); (2 ^ 32, 8)] 4 = Some 1 /\ eval_binary IntLeft 4 4 1 (2 ^ 32) = Some 0.
Proof. split; [vm_compute; reflexivity|]; unfold eval_binary; rewrite shift_left_out; [done|unfold valid_size; lia|lia]. Qed.

(** ** Folding agrees with the operations *)

Lemma sext_signed (s v : Z) : valid_size s -> is_value s v -> sext v s = w64 (signed s v) /\ i64 (sext v s) = signed s v.
Proof.
  intros Hs Hv; pose proof (modulus_ge s Hs) as Ms; pose proof (half_pow s Hs) as Hp; pose proof (modulus_half s Hs) as H2.
  assert (Hr : - 2 ^ 63 <= signed s v < 2 ^ 63).
  { pose proof (signed_range s v Hs Hv); assert (modulus s / 2 <= 2 ^ 63) by (rewrite Hp; unfold valid_size in *; apply Z.pow_le_mono_r; lia); lia. }
  enough (E : sext v s = w64 (signed s v)) by (split; [done|]; by rewrite E, i64_small); unfold sext, valid_size in *.
  destruct (Z.eqb_spec s 0); [lia|]; destruct (Z.leb_spec 8 s) as [L|L]; cbn [orb].
  - assert (s = 8) as -> by lia; unfold signed; change (modulus 8) with (2 ^ 64) in *; unfold is_value in Hv; change (modulus 8) with (2 ^ 64) in Hv.
    destruct (Z.ltb_spec v (2 ^ 64 / 2)); [by rewrite w64_small|]; unfold w64; change 18446744073709551616 with (2 ^ 64); apply Z.mod_unique with (-1); lia.
  - set (sh := 64 - 8 * s); assert (Hsh : 8 <= sh < 64) by (unfold sh; lia); f_equal; unfold i64_shr, u64_shl; rewrite (Z.mod_small sh 64), Z.shiftl_mul_pow2, Z.shiftr_div_pow2 by lia.
    assert (P : 0 < 2 ^ sh) by (apply Z.pow_pos_nonneg; lia); assert (E64 : modulus s * 2 ^ sh = 2 ^ 64) by (unfold modulus, sh; rewrite <- Z.pow_add_r by lia; f_equal; lia).
    assert (E63 : modulus s / 2 * 2 ^ sh = 2 ^ 63) by (apply (Z.mul_cancel_l _ _ 2); [lia|]; rewrite Z.mul_assoc, <- H2, E64; done).
    replace (w64 (v * 2 ^ sh)) with (w64 (signed s v * 2 ^ sh)).
    + rewrite i64_small; [apply Z.div_mul; lia|]; pose proof (signed_range s v Hs Hv); nia.
    + unfold signed; destruct (Z.ltb_spec v (modulus s / 2)); [done|]; unfold w64; change 18446744073709551616 with (2 ^ 64); rewrite Z.mul_sub_distr_r, E64.
      replace (v * 2 ^ sh - 2 ^ 64) with (v * 2 ^ sh + (-1) * 2 ^ 64) by ring; by rewrite Z.mod_add.
Qed.

Lemma mask_word (v s : Z) : valid_size s -> mask (w64 v) s = wrap s v.
Proof. intros Hs; rewrite mask_wrap by (done || apply w64_range); unfold wrap; by apply w64_mod. Qed.

Lemma mask_truth (s : Z) (t : bool) : valid_size s -> mask (u64_of_bool t) s = b2z t.
Proof. intros Hs; rewrite mask_small; [by destruct t|done|]; pose proof (modulus_ge s Hs); unfold is_value; destruct t; cbn; lia. Qed.

Lemma ones_counted (v : Z) : 0 <= v < 2 ^ 64 -> 0 <= count_ones v < 2 ^ 64.
Proof.
  assert (H : forall p, 1 <= pos_popcount p <= Zpos p) by (induction p; cbn [pos_popcount]; lia).
  intros Hv; destruct v as [|p|p]; cbn; [lia| |lia]; pose proof (H p); lia.
Qed.

(** shifts of a value by an amount below [2 ^ 32] *)
Lemma fold_shl_value (s v n : Z) : valid_size s -> 0 <= n < 2 ^ 32 -> mask (fold_shl v n) s = wrap s (v * 2 ^ n).
Proof.
  intros Hs Hn; unfold fold_shl, u64_checked_shl0, w32; rewrite Z.mod_small by (change 4294967296 with (2 ^ 32); lia); destruct (Z.ltb_spec n 64).
  - unfold u64_shl; rewrite Z.mod_small, Z.shiftl_mul_pow2 by lia; by apply mask_word.
  - rewrite shift_left_out by (unfold valid_size in *; done || lia); rewrite mask_small; [done|done|apply zero_is_value; unfold valid_size in *; lia].
Qed.

Lemma quotient_word (v n : Z) : 0 <= v < 2 ^ 64 -> 0 <= n -> 0 <= v / 2 ^ n < 2 ^ 64.
Proof.
  intros Hv Hn; pose proof (Z.pow_pos_nonneg 2 n ltac:(lia) Hn); split; [apply Z.div_pos; lia|]; eapply Z.le_lt_trans; [apply Z.div_le_upper_bound|apply Hv]; [lia|nia].
Qed.

Lemma fold_shr_value (s t v n : Z) : valid_size s -> is_value t v -> valid_size t -> 0 <= n < 2 ^ 32 -> mask (fold_shr v n) s = wrap s (v / 2 ^ n).
Proof.
  intros Hs Hv Ht Hn; pose proof (value_u64 _ _ Ht Hv) as Hu; unfold fold_shr, u64_checked_shr0, w32; rewrite Z.mod_small by (change 4294967296 with (2 ^ 32); lia); destruct (Z.ltb_spec n 64).
  - unfold u64_shr; rewrite Z.mod_small, Z.shiftr_div_pow2 by lia; apply mask_wrap; [done|]; apply quotient_word; lia.
  - rewrite (shift_right_out t) by (unfold valid_size in *; done || lia); rewrite mask_small; [|done|apply zero_is_value; unfold valid_size in *; lia].
    symmetry; apply wrap_small, zero_is_value; unfold valid_size in *; lia.
Qed.

(** the unsigned shift of a sign-extended value, where it is right *)
Lemma folded_sright (s v n : Z) : valid_size s -> is_value s v -> 0 <= n < 2 ^ 32 -> v < modulus s / 2 \/ 8 * s + n <= 64 ->
  mask (u64_shr (sext v s) (Z.min (w32 n) 63)) s = wrap s (signed s v / 2 ^ n).
Proof.
  intros Hs Hv Hn H; destruct (sext_signed s v Hs Hv) as [-> _]; unfold w32; rewrite (Z.mod_small n) by (change 4294967296 with (2 ^ 32); lia).
  assert (Hm : 0 <= Z.min n 63 < 64) by lia; unfold u64_shr; rewrite Z.mod_small, Z.shiftr_div_pow2 by lia.
  rewrite mask_wrap; [|done|apply quotient_word; [apply w64_range|lia]]; destruct H as [H|H].
  - rewrite signed_small by (split; [apply Hv|done]); rewrite w64_small by (by eapply value_u64); destruct (Z.le_gt_cases n 63); [by rewrite Z.min_l|].
    pose proof (modulus_half s Hs); pose proof (half_pow s Hs); assert (v < 2 ^ 63) by (eapply Z.lt_le_trans; [exact H|]; rewrite half_pow by done; apply Z.pow_le_mono_r; unfold valid_size in *; lia).
    rewrite Z.min_r, (shift_right_out s v n), Z.div_small; unfold is_value, valid_size in *; try done; lia.
  - rewrite Z.min_l by (unfold valid_size in *; lia); unfold w64; change 18446744073709551616 with (2 ^ 64); unfold valid_size in *.
    set (z := signed s v); replace (z mod 2 ^ 64) with (z + - (z / 2 ^ 64) * 2 ^ (64 - 8 * s - n) * modulus s * 2 ^ n); [rewrite Z.div_add by (apply Z.pow_nonzero; lia); apply wrap_periodic|].
    pose proof (Z.div_mod z (2 ^ 64) ltac:(lia)); assert (E : 2 ^ (64 - 8 * s - n) * modulus s * 2 ^ n = 2 ^ 64) by (unfold modulus; rewrite <- !Z.pow_add_r by lia; f_equal; lia).
    rewrite <- !Z.mul_assoc, (Z.mul_assoc (2 ^ (64 - 8 * s - n))), E; lia.
Qed.

Section Folds.
Context `{HF : HostFloat} (s out v r k : Z) (Hs : valid_size s) (Ho : valid_size out) (Hv : is_value s v).

Lemma fold_unary (c : opcode) : is_unary c = true -> folds_exactly c s v 0 = true ->
  eval_const c [(v, s)] out = Some k -> eval1 c s out v = Some r -> k = r.
Proof.
  intros Hc He; unfold eval_const; cbn [lookup list_lookup]; rewrite mask_small by done; pose proof (value_u64 _ _ Hs Hv) as Hu.
  destruct c; try done; cbn [mbind option_bind eval1 eval_unary]; intros [= <-]; unfold u64_not.
  all: try (intros [= <-]; rewrite ?mask_word, ?mask_truth by done; done).
  - intros [= <-]; by apply mask_wrap.
  - intros [= <-]; by apply mask_wrap.
  - destruct (sext_signed s v Hs Hv) as [-> _]; intros [= <-]; by apply mask_word.
  - destruct (is_bool v); [|done]; intros [= <-]; by apply mask_truth.
  - intros [= <-]; apply mask_wrap; [done|by apply ones_counted].
  - apply Z.eqb_eq in He as ->; intros [= <-]; rewrite mask_wrap; [|done|]; unfold u64_leading_zeros; destruct (Z.eqb_spec v 0) as [-> |N]; try (f_equal; lia); try lia.
    assert (Z.log2 v < 64) by (apply Z.log2_lt_pow2; lia); pose proof (Z.log2_nonneg v); lia.
Qed.

Context (t w : Z) (Ht : valid_size t) (Hw : is_value t w).

Lemma logic_word (f : Z -> Z -> Z) : (forall x y i, Z.testbit (f x y) i = true -> Z.testbit x i = true \/ Z.testbit y i = true) -> 0 <= f v w -> 0 <= f v w < 2 ^ 64.
Proof.
  intros Hf Hn; split; [done|]; destruct (Z.eq_dec (f v w) 0) as [-> |N]; [lia|]; apply Z.log2_lt_pow2; [lia|].
  pose proof (Z.bit_log2 (f v w) ltac:(lia)) as Hb; pose proof (value_u64 _ _ Hs Hv); pose proof (value_u64 _ _ Ht Hw).
  destruct (Z.lt_ge_cases (Z.log2 (f v w)) 64) as [|L]; [done|]; destruct (Hf _ _ _ Hb) as [E|E]; rewrite (high_bit 64) in E by (done || lia); done.
Qed.

(** the logical operations on truth values *)
Lemma fold_logic (f : Z -> Z -> Z) : (forall a b : bool, exists d : bool, f (Z.land (b2z a) 1) (Z.land (b2z b) 1) = b2z d) ->
  (if is_bool v && is_bool w then Some (f (Z.land v 1) (Z.land w 1)) else None) = Some r -> mask (f (Z.land v 1) (Z.land w 1)) out = r.
Proof.
  intros Hf; unfold is_bool; destruct (_ && _) eqn:E; [|done]; intros [= <-]; rewrite !andb_true_iff, !Z.leb_le in E; destruct E as [[V1 V2] [W1 W2]].
  assert (Ev : exists a, v = b2z a) by (destruct (Z.eq_dec v 0) as [-> |]; [by exists false|exists true; cbn; lia]).
  assert (Ew : exists b, w = b2z b) by (destruct (Z.eq_dec w 0) as [-> |]; [by exists false|exists true; cbn; lia]).
  destruct Ev as [a ->], Ew as [b ->]; destruct (Hf a b) as [d ->]; change (b2z d) with (u64_of_bool d) at 1; by apply mask_truth.
Qed.

Lemma fold_binary (c : opcode) : is_binary c = true -> size2 c s t out = true -> (c = Subpiece -> w + out <= s) -> folds_exactly c s v w = true ->
  eval_const c [(v, s); (w, t)] out = Some k -> eval2 c s t out v w = Some r -> k = r.
Proof.
  intros Hc Hz Hp He; unfold eval_const; cbn [lookup list_lookup]; rewrite !mask_small by done; pose proof (value_u64 _ _ Hs Hv) as Hu; pose proof (value_u64 _ _ Ht Hw) as Hu'.
  destruct (sext_signed s v Hs Hv) as [_ E1], (sext_signed t w Ht Hw) as [_ E2].
  destruct c; try done; cbn [mbind option_bind eval2 eval_binary]; intros [= <-]; unfold u64_add, u64_sub, u64_mul; rewrite ?E1, ?E2; cbn in Hz, He.
  all: try (intros [= <-]; rewrite ?mask_word, ?mask_truth by done; done).
  1-2: apply andb_true_iff in Hz as [<-%Z.eqb_eq _]; intros [= <-]; by apply mask_truth.
  - intros [= <-]; apply mask_wrap; [done|]; apply logic_word; [|apply Z.lxor_nonneg; lia]; intros x y i; rewrite Z.lxor_spec; destruct (Z.testbit x i), (Z.testbit y i); auto.
  - intros [= <-]; apply mask_wrap; [done|]; apply logic_word; [|apply Z.land_nonneg; lia]; intros x y i; rewrite Z.land_spec; destruct (Z.testbit x i), (Z.testbit y i); auto.
  - intros [= <-]; apply mask_wrap; [done|]; apply logic_word; [|apply Z.lor_nonneg; lia]; intros x y i; rewrite Z.lor_spec; destruct (Z.testbit x i), (Z.testbit y i); auto.
  - apply Z.ltb_lt in He; intros [= <-]; apply fold_shl_value; [done|split; [apply Hw|done]].
  - apply Z.ltb_lt in He; intros [= <-]; apply (fold_shr_value out s); [done|done|done|split; [apply Hw|done]].
  - apply Z.eqb_eq in Hz as <-; apply andb_true_iff in He as [He%Z.ltb_lt He']; intros [= <-]; apply folded_sright; [done|done|split; [apply Hw|done]|].
    apply orb_true_iff in He' as [H%Z.ltb_lt|H%Z.leb_le]; auto.
  - apply (fold_logic Z.lxor); intros [|] [|]; first [by exists true|by exists false].
  - apply (fold_logic Z.land); intros [|] [|]; first [by exists true|by exists false].
  - apply (fold_logic Z.lor); intros [|] [|]; first [by exists true|by exists false].
  - pose proof (Hp eq_refl); destruct Hw as [Hw0 _]; unfold valid_size in *; intros [= <-]; unfold u64_saturating_mul, u64_max; rewrite Z.min_l, (Z.mul_comm w) by lia.
    apply (fold_shr_value out s); unfold valid_size; try done; lia.
Qed.

End Folds.

(** ** The values of constants *)

Lemma masked_word (x s : Z) : valid_size s -> 0 <= x < 2 ^ 64 -> is_value s (mask x s).
Proof. intros Hs Hx; rewrite mask_wrap by done; by apply wrap_value. Qed.

Lemma truth_word (t : bool) : 0 <= u64_of_bool t < 2 ^ 64.
Proof. destruct t; cbn; lia. Qed.

Lemma shr_word (v n : Z) : 0 <= v < 2 ^ 64 -> 0 <= u64_shr v n < 2 ^ 64.
Proof. intros Hv; unfold u64_shr; pose proof (Z.mod_pos_bound n 64 ltac:(lia)); rewrite Z.shiftr_div_pow2 by lia; apply quotient_word; lia. Qed.

Lemma fold_shr_word (v n : Z) : 0 <= v < 2 ^ 64 -> 0 <= fold_shr v n < 2 ^ 64.
Proof. intros Hv; unfold fold_shr, u64_checked_shr0; destruct (_ <? _); [by apply shr_word|lia]. Qed.

Lemma fold_shl_word (v n : Z) : 0 <= fold_shl v n < 2 ^ 64.
Proof. unfold fold_shl, u64_checked_shl0; destruct (_ <? _); [apply w64_range|lia]. Qed.

Lemma leading_zeros_word (v : Z) : 0 <= v < 2 ^ 64 -> 0 <= u64_leading_zeros v < 2 ^ 64.
Proof.
  intros Hv; unfold u64_leading_zeros; destruct (Z.eqb_spec v 0); [lia|]; assert (Z.log2 v < 64) by (apply Z.log2_lt_pow2; lia); pose proof (Z.log2_nonneg v); lia.
Qed.

Lemma sext_word (v s : Z) : 0 <= v < 2 ^ 64 -> 0 <= sext v s < 2 ^ 64.
Proof. intros Hv; unfold sext; destruct (_ || _); [done|apply w64_range]. Qed.

Create HintDb fold_words.
#[export] Hint Resolve truth_word shr_word fold_shr_word fold_shl_word leading_zeros_word sext_word ones_counted w64_range : fold_words.

Lemma bitwise_word (f : Z -> Z -> Z) (x y : Z) : f = Z.land \/ f = Z.lor \/ f = Z.lxor -> 0 <= x < 2 ^ 64 -> 0 <= y < 2 ^ 64 -> 0 <= f x y < 2 ^ 64.
Proof.
  intros Hf Hx Hy; apply (logic_word 8 x ltac:(unfold valid_size; lia) Hx 8 y ltac:(unfold valid_size; lia) Hy).
  - intros u v i; destruct Hf as [-> |[-> | ->]]; rewrite ?Z.land_spec, ?Z.lor_spec, ?Z.lxor_spec; destruct (Z.testbit u i), (Z.testbit v i); auto.
  - destruct Hf as [-> |[-> | ->]]; [apply Z.land_nonneg|apply Z.lor_nonneg|apply Z.lxor_nonneg]; lia.
Qed.

(** an input that is a constant of its size *)
Definition constant_ok (p : Z * Z) : Prop := let '(v, s) := p in valid_size s /\ is_value s v.

Section Range.
Context `{HF : HostFloat} (l : list (Z * Z)) (Hl : List.Forall constant_ok l).

Lemma input_words (i : nat) : 0 <= match l !! i with Some (v, s) => mask v s | None => 0 end < 2 ^ 64 /\
  0 <= match l !! i with Some (v, s) => sext v s | None => 0 end < 2 ^ 64.
Proof.
  destruct (l !! i) as [[v s]|] eqn:E; [|lia]; rewrite List.Forall_forall in Hl; destruct (Hl (v, s)) as [Hs Hv]; [by apply list_elem_of_In, (list_elem_of_lookup_2 _ i)|].
  rewrite mask_small by done; pose proof (value_u64 _ _ Hs Hv); auto with fold_words.
Qed.

(** a folded integer operation leaves a constant of the size of its output *)
Lemma fold_range (c : opcode) (out k : Z) : valid_size out -> evaluable c = true -> eval_const c l out = Some k -> is_value out k.
Proof.
  intros Ho He; unfold eval_const; destruct (input_words 0) as [A0 S0], (input_words 1) as [A1 S1]; revert A0 S0 A1 S1.
  generalize (match l !! 0%nat with Some (v, s) => mask v s | None => 0 end) (match l !! 0%nat with Some (v, s) => sext v s | None => 0 end)
    (match l !! 1%nat with Some (v, s) => mask v s | None => 0 end) (match l !! 1%nat with Some (v, s) => sext v s | None => 0 end); intros a0 s0 a1 s1 A0 S0 A1 S1.
  assert (One : 0 <= 1 < 2 ^ 64) by lia.
  destruct c; try done; cbn [mbind option_bind]; intros [= <-]; apply masked_word; try done; unfold u64_add, u64_sub, u64_mul, u64_not; auto with fold_words.
  all: repeat (apply bitwise_word; [auto| |]); done.
Qed.
End Range.

(** ** The rule, where it folds exactly *)

Lemma constant_inputs_finds (f : funcdata) (l : list nat) (args : list arg) : args_of f l args ->
  finds (constant_inputs f l) (fun r => List.map (fun '(v, s) => Arg s (TConst v)) r = args).
Proof.
  unfold args_of; rewrite mapM_Some; intros F; induction F as [|v a l args Hv _ IH]; cbn [constant_inputs]; [by apply finds_some|].
  unfold src in Hv; destruct (varnodes f !! v) as [x|]; [|done]; cbn in Hv |- *; injection Hv as <-; apply finds_need; intros G.
  eapply finds_call; [exact IH|]; intros r <-; apply finds_some; cbn; by rewrite G.
Qed.

Lemma run_remove_above (f g : funcdata) (op : nat) (c : opcode) (n : nat) (A : arg) (args : list arg) (out : option nat) (v : nat) (a : arg) : List.length args = n ->
  editing f g op c (A :: args) out -> src g v = Some a -> runs (remove_above g op n) (fun h => editing f h op c [A] out /\ src h v = Some a).
Proof.
  revert g args; induction n as [|n IH]; intros g args Hn E S; cbn [remove_above]; [by destruct args|].
  edit ltac:(eapply run_remove_src; [exact E|cbn; lia]); intros g1 [E1 K1]; cbn [delete list_delete] in E1; eapply (IH g1 (delete n args)); [|exact E1|by apply K1].
  rewrite length_delete by (apply lookup_lt_is_Some_2; lia); lia.
Qed.

(** the operation folds to what it computes, or is not folded *)
Definition fold_exact (f : funcdata) (op : nat) : bool :=
  match view_of f op with
  | Some w =>
      match w_args w with
      | [Arg s (TConst v)] => evaluable (w_opc w) && folds_exactly (w_opc w) s v 0
      | [Arg s (TConst v); Arg _ (TConst u)] => evaluable (w_opc w) && folds_exactly (w_opc w) s v u
      | [] => true
      | args => existsb is_var args
      end
  | None => false
  end.

Lemma const_ok_inv (s v : Z) : arg_ok (Arg s (TConst v)) = true -> valid_size s /\ is_value s v.
Proof. unfold arg_ok; cbn; rewrite !andb_true_iff, !Z.leb_le, Z.ltb_lt; intros [[H1 H2] [H3 H4]]; by split. Qed.

Lemma no_variables (l : list (Z * Z)) : existsb is_var (List.map (fun '(v, s) => Arg s (TConst v)) l) = false.
Proof. by induction l as [|[v s] l IH]. Qed.

Section ConstFold.
Context `{HF : HostFloat} (f : funcdata) (W : wf f) (T : typed f) (op : nat) (o : pcode_op) (Ho : ops f !! op = Some o) (args : list arg) (Hargs : args_of f (inrefs o) args).

Lemma const_fold_match_finds : finds (const_fold_match f op) (fun '(n, sz, k) => exists r z inputs, output o = Some r /\ varnodes f !! r = Some z /\ sz = size z /\
  n = List.length args /\ args <> [] /\ args = List.map (fun '(v, s) => Arg s (TConst v)) inputs /\ eval_const (opc o) inputs sz = Some k /\
  opc o <> Copy /\ Z.land (oflags o) NO_COLLAPSE = 0).
Proof.
  unfold const_fold_match; rewrite Ho; cbn [mbind option_bind]; apply finds_need; intros Nc; apply finds_need; intros Nf; apply finds_try; intros r Er.
  apply negb_true_iff in Nc, Nf; apply orb_false_iff in Nf as [_ Nf]; apply negb_false_iff, Z.eqb_eq in Nf; unfold is_code in Nc; apply bool_decide_eq_false in Nc.
  apply finds_need; intros N; guards; eapply finds_call; [by apply constant_inputs_finds|]; intros inputs Hm.
  destruct (lookup_lt_is_Some_2 (varnodes f) r (output_lt f op r o (wf_graph _ W) Ho Er)) as [z Hz]; rewrite Hz; cbn [mbind option_bind].
  apply finds_need; intros _; apply finds_try; intros k Ek; apply finds_some; exists r, z, inputs.
  assert (El : List.length (inrefs o) = List.length args) by (unfold args_of in Hargs; rewrite mapM_Some in Hargs; by eapply Forall2_length).
  split_and!; try done; intros ->; by destruct (inrefs o).
Qed.

Lemma const_fold_view (r : nat) (z : varnode) : output o = Some r -> varnodes f !! r = Some z -> view_of f op = Some (View (opc o) args (Some (arg_of r z))).
Proof.
  intros Er Hz; unfold view_of; rewrite Ho; cbn; unfold args_of in Hargs; rewrite Hargs; cbn; rewrite Er; cbn; by rewrite (src_at _ _ _ Hz).
Qed.

(** an operation on constants, and the constant it folds to *)
Lemma const_fold_value (r : nat) (z : varnode) (inputs : list (Z * Z)) (k : Z) : output o = Some r -> varnodes f !! r = Some z -> args <> [] ->
  args = List.map (fun '(v, s) => Arg s (TConst v)) inputs -> eval_const (opc o) inputs (size z) = Some k -> fold_exact f op = true ->
  site f op r z /\ is_value (size z) k /\ (forall rho, solution f rho -> vval rho r z = k) /\
  forall k', eval_view (fun _ => 0) (opc o) args (size z) = Some k' -> k = k'.
Proof.
  intros Er Hz Hn Hm Hk He; pose proof (const_fold_view r z Er Hz) as V; unfold fold_exact in He; rewrite V in He; cbn [w_opc w_args] in He; pose proof (T _ _ V) as Hok.
  destruct inputs as [|[v s] [|[u t] [|[]]]]; subst args; cbn [List.map] in Hok; cbn in Hn, He; [done| | |by rewrite no_variables in He].
  - apply andb_true_iff in He as [He Hf]; assert (Hu : is_unary (opc o) = true).
    { unfold view_ok in Hok; cbn [w_opc w_args w_out] in Hok; rewrite He in Hok; rewrite !andb_true_iff in Hok; tauto. }
    destruct (unop_at f op o W T Ho Hu (live_out _ _ Er)) as (a & r' & x & z' & U); unop_parts U; pose proof (uo_yields _ _ _ _ _ _ _ U) as Y.
    assert (r' = r) as -> by (pose proof (yd_out _ _ _ _ _ Y); congruence); assert (z' = z) as -> by (pose proof (on_at _ _ _ (yd_operand _ _ _ _ _ Y)); congruence).
    pose proof (operand_size _ _ _ _ _ Y) as Vz; assert (Ea : arg_of a x = Arg s (TConst v)).
    { apply args_one in Hargs as (a' & Hl & Ha); assert (a' = a) as -> by congruence; rewrite (src_at _ _ _ Hat) in Ha; congruence. }
    pose proof (operand_ok _ _ _ Oa) as Ka; rewrite Ea in Ka; apply const_ok_inv in Ka as [Vs Kv]; split; [by eapply unop_site|]; split.
    + eapply fold_range; [|exact Vz|exact He|exact Hk]; constructor; [by split|constructor].
    + split; [|intros k'; by eapply (fold_unary s (size z) v)]; intros rho Hr; symmetry; eapply (fold_unary s (size z) v); [exact Vs|exact Vz|exact Kv|exact Hu|exact Hf|exact Hk|].
      pose proof (unop_solved _ _ _ _ _ _ _ _ rho U eq_refl Hu Hr) as E; unfold vval at 1 in E; rewrite Ea in E; cbn in E; assert (size x = s) as <- by (unfold arg_of in Ea; by injection Ea); exact E.
  - apply andb_true_iff in He as [He Hf]; assert (Hb : is_binary (opc o) = true).
    { unfold view_ok in Hok; cbn [w_opc w_args w_out] in Hok; rewrite He in Hok; rewrite !andb_true_iff in Hok; tauto. }
    destruct (binop_at f op o W T Ho Hb (live_out _ _ Er)) as (a & b & r' & x & y & z' & B); binop_parts B; pose proof (bo_yields _ _ _ _ _ _ _ _ _ B) as Y.
    assert (r' = r) as -> by (pose proof (yd_out _ _ _ _ _ Y); congruence); assert (z' = z) as -> by (pose proof (on_at _ _ _ (yd_operand _ _ _ _ _ Y)); congruence).
    pose proof (operand_size _ _ _ _ _ Y) as Vz; assert (Ea : arg_of a x = Arg s (TConst v) /\ arg_of b y = Arg t (TConst u)).
    { apply args_two in Hargs as (a' & b' & Hl & Ha & Hb'); assert (a' = a) as -> by congruence; assert (b' = b) as -> by congruence; rewrite (src_at _ _ _ Hat) in Ha; rewrite (src_at _ _ _ Hat0) in Hb'; split; congruence. }
    destruct Ea as [Ea Eb]; pose proof (operand_ok _ _ _ Oa) as Ka; pose proof (operand_ok _ _ _ Ob) as Kb; rewrite Ea in Ka; rewrite Eb in Kb; apply const_ok_inv in Ka as [Vs Kv]; apply const_ok_inv in Kb as [Vt Ku].
    assert (size x = s) as Sx by (unfold arg_of in Ea; by injection Ea); assert (size y = t) as Sy by (unfold arg_of in Eb; by injection Eb).
    split; [by eapply binop_site|]; split.
    + eapply fold_range; [|exact Vz|exact He|exact Hk]; constructor; [by split|constructor; [by split|constructor]].
    + assert (F : forall k', eval2 (opc o) s t (size z) v u = Some k' -> k = k').
      { intros k'; eapply (fold_binary s (size z) v); [exact Vs|exact Vz|exact Kv|exact Vt|exact Ku|exact Hb| | |exact Hf|exact Hk].
        - pose proof (bo_sizes _ _ _ _ _ _ _ _ _ B) as Sz; by rewrite Sx, Sy in Sz.
        - intros Ec; destruct (bo_offset _ _ _ _ _ _ _ _ _ B Ec) as [Cy L]; rewrite Sx in L; unfold arg_of in Eb; rewrite Cy in Eb; injection Eb as _ Eb; by rewrite Eb in L. }
      split; [|exact F]; intros rho Hr; symmetry; apply F.
      pose proof (binop_solved _ _ _ _ _ _ _ _ _ _ rho B eq_refl Hb Hr) as E; unfold vval at 1 2 in E; rewrite Ea, Eb, Sx, Sy in E; exact E.
Qed.

(** the edits of a match *)
Lemma const_fold_edits (r : nat) (sz k : Z) : args <> [] -> output o = Some r ->
  runs ('(c, f) ← new_const f sz k; f ← remove_above f op (List.length args - 1); f ← op_set_input f op 0 c; op_set_opcode f op Copy)
    (fun f' => editing f f' op Copy [Arg sz (TConst k)] (Some r)).
Proof.
  intros Hn Er; assert (I : op_is f op (opc o) args (Some r)) by (exists o; by split_and!).
  edit ltac:(eapply run_const; by eapply editing_start); intros [c f1] [E1 S1].
  destruct args as [|A rest]; [done|]; cbn [List.length]; rewrite Nat.sub_succ, Nat.sub_0_r.
  edit ltac:(eapply run_remove_above; [reflexivity|exact E1|exact S1]); intros f2 [E2 S2].
  edit ltac:(eapply run_input; [exact E2|cbn; lia|exact S2]); intros f3 E3; eapply runs_mono; [eapply run_opcode; exact E3|]; done.
Qed.

Lemma const_fold_result : inside f op = true -> fold_exact f op = true -> runs (apply_op RuleConstFold op f) (outcome f).
Proof.
  intros Hi He; cbn [apply_op RuleConstFold]; eapply fire_result; [done|done|apply const_fold_match_finds|]; intros [[n sz] k] (r & z & inputs & Er & Hz & -> & -> & Hn & Hm & Hk & _).
  destruct (const_fold_value r z inputs k Er Hz Hn Hm Hk He) as (S & Kv & Hv & _).
  eapply runs_mono; [by apply (const_fold_edits r)|]; cbn beta; intros f' E; by eapply copy_const_result.
Qed.

(** ** Where it folds, and what it leaves *)

(** a code the rule folds *)
Definition folds (c : opcode) : bool :=
  match c with
  | IntAdd | IntSub | IntMult | IntAnd | IntOr | IntXor | IntLeft | IntRight | IntSright | IntNegate | Int2comp | IntZext | IntSext
  | Subpiece | IntEqual | IntNotequal | IntLess | IntLessequal | IntSless | IntSlessequal | BoolNegate | BoolAnd | BoolOr | BoolXor
  | Popcount | Lzcount => true
  | _ => false
  end.

(** [op] computes [out] from constants alone, and may be folded *)
Definition foldable (c : opcode) (args : list arg) (out : arg) : Prop :=
  view_of f op = Some (View c args (Some out)) /\ folds c = true /\ args <> [] /\ existsb is_var args = false /\
  Z.land (default 0 (oflags <$> ops f !! op)) NO_COLLAPSE = 0.

Lemma folds_evaluable (c : opcode) : folds c = true -> evaluable c = true /\ c <> Copy /\ c <> Ptrsub /\ c <> Ptradd.
Proof. by destruct c. Qed.

Lemma folds_answers (c : opcode) (inputs : list (Z * Z)) (s : Z) : folds c = true -> exists k, eval_const c inputs s = Some k.
Proof. intros H; unfold eval_const; destruct c; try done; eexists; reflexivity. Qed.

Lemma answers_folds (c : opcode) (inputs : list (Z * Z)) (s k : Z) : eval_const c inputs s = Some k -> evaluable c = true -> c <> Copy -> folds c = true.
Proof. unfold eval_const; by destruct c. Qed.

Lemma constant_inputs_all (l : list nat) (args' : list arg) : args_of f l args' -> existsb is_var args' = false -> exists r, constant_inputs f l = Some (Some r).
Proof.
  unfold args_of; rewrite mapM_Some; intros F; induction F as [|v a l args' Hv _ IH]; cbn [constant_inputs existsb]; [eauto|].
  intros [Ha Hr]%orb_false_iff; destruct (IH Hr) as [r ->]; unfold src in Hv; destruct (varnodes f !! v) as [x|]; [|done]; cbn in Hv |- *; injection Hv as <-.
  unfold is_var in Ha; cbn in Ha; destruct (is_constant x); [by eexists|done].
Qed.

Lemma foldable_found (c : opcode) (args' : list arg) (out : arg) : foldable c args' out -> exists m, const_fold_match f op = Some (Some m).
Proof.
  intros (V & Hf & Hn & Hv & Hfl); destruct (folds_evaluable c Hf) as (He & N1 & N2 & N3); pose proof (T _ _ V) as Hok.
  unfold view_of in V; rewrite Ho in V, Hfl; cbn in V, Hfl; unfold args_of in Hargs; rewrite Hargs in V; cbn in V.
  destruct (out_src f (output o)) as [R|] eqn:Eo; [|done]; cbn in V; injection V as Ec -> ->; destruct (out_some _ _ _ Eo) as (r & Er & Hr).
  destruct (constant_inputs_all (inrefs o) args' Hargs Hv) as [inputs Hi]; unfold const_fold_match, is_code; rewrite Ho; cbn [mbind option_bind].
  rewrite !bool_decide_false by congruence; rewrite Hfl, Er; cbn [Z.eqb negb orb try].
  assert (inrefs o <> []) by (intros E; rewrite E in Hargs; by injection Hargs); rewrite bool_decide_false by done; rewrite Hi; cbn [negb try_call try].
  unfold src in Hr; destruct (varnodes f !! r) as [z|]; [|done]; cbn in Hr |- *; injection Hr as <-.
  assert (size z <= 8) as L.
  { unfold view_ok in Hok; cbn [w_opc w_args w_out] in Hok; rewrite He in Hok; destruct args' as [|? [|? [|]]]; try done;
      rewrite ?andb_true_iff in Hok; destruct_and?; match goal with K : arg_ok (Arg (size z) _) = true |- _ => unfold arg_ok in K; cbn in K; rewrite !andb_true_iff, !Z.leb_le in K; tauto end. }
  destruct (Z.ltb_spec 8 (size z)); [lia|]; cbn [negb]; destruct (folds_answers (opc o) inputs (size z)) as [k ->]; [by rewrite Ec|]; by eexists.
Qed.

Lemma const_fold_leaves (n : Z) (f' : funcdata) : fold_exact f op = true -> apply_op RuleConstFold op f = Some (n, f') ->
  (n = 1 /\ exists c args out k, foldable c args out /\ view_of f' op = Some (View Copy [Arg (ar_size out) (TConst k)] (Some out)) /\
     forall k', eval_view (fun _ => 0) c args (ar_size out) = Some k' -> k = k') \/
  (n = 0 /\ f' = f /\ forall c args out, ~ foldable c args out).
Proof.
  intros He E; cbn [apply_op RuleConstFold] in E.
  match type of E with fire ?mt f ?edits = _ => pose proof (fire_spec mt f edits (fun '(m, sz, k) f' => forall r, output o = Some r -> editing f f' op Copy [Arg sz (TConst k)] (Some r))) as H end.
  rewrite E in H; destruct H as [(-> & -> & Em)|(-> & [[m sz] k] & Em & Ed)].
  - eapply runs_mono; [apply const_fold_match_finds|]; intros m Hm [[m' sz] k] ->; destruct (Hm _ eq_refl) as (r & z & inputs & Er & Hz & -> & -> & Hn & _).
    eapply runs_mono; [by apply (const_fold_edits r)|]; intros g Eg r' Er'; by assert (r' = r) as -> by congruence.
  - right; split; [done|]; split; [done|]; intros c args' out Hf; destruct (foldable_found c args' out Hf) as [m Em']; congruence.
  - left; split; [done|]; pose proof const_fold_match_finds as Hm; rewrite Em in Hm; destruct (Hm _ eq_refl) as (r & z & inputs & Er & Hz & -> & -> & Hn & Hi & Hk & Nc & Nf).
    destruct (const_fold_value r z inputs k Er Hz Hn Hi Hk He) as (S & _ & _ & Hv); specialize (Ed r Er); exists (opc o), args, (arg_of r z), k.
    pose proof (const_fold_view r z Er Hz) as V; split_and!; [split_and!; [done| |done|by rewrite Hi, no_variables|by rewrite Ho]| |exact Hv].
    + eapply answers_folds; [exact Hk| |done]; unfold fold_exact in He; rewrite V in He; cbn in He.
      destruct inputs as [|[v s] [|[u t] [|[]]]]; subst args; cbn [List.map] in He; [done|by apply andb_true_iff in He as [? _]..|by rewrite no_variables in He].
    + eapply op_is_view; [apply Ed|]; cbn; by rewrite (editing_src _ _ _ _ _ _ _ _ Ed (src_at _ _ _ Hz)).
Qed.
End ConstFold.
