(* ===== verification/PoolSound.v ===== *)
(** The rule pool: a pool of sound rules keeps what the function computes, whatever the number of rounds
    the deadline leaves it. *)
From Stdlib Require Import ZArith Lia Bool List.
From stdpp Require Import base decidable option list strings gmap numbers tactics.
From S2P Require Import Prelude Space OpCode BitUtil PcodeSem Funcdata FuncdataLinks FuncdataEdits FuncdataRemove FuncdataBlocks FuncdataTheorems FuncdataBuild RuleBase Valuation ValuationEdits Rewrite RuleFacts.
Local Open Scope Z_scope.

(** the function, as the pool keeps it *)
Record ready (f : funcdata) : Prop := Ready {
  re_wf : wf f;
  re_typed : typed f;
  re_placed : placed f;
}.

Lemma result_ready (f f' : funcdata) : ready f -> result f f' -> ready f'.
Proof. intros [] []; constructor; auto. Qed.

Section Pool.
Context (pool : list rule) (Hpool : List.Forall Sound pool).

(** the rule is registered for the code *)
Definition takes (ru : rule) (c : opcode) : Prop := oplist ru = [] \/ c ∈ oplist ru.

Lemma rules_for_sound (c : opcode) : List.Forall (fun ru => Sound ru /\ takes ru c) (rules_for pool c).
Proof.
  rewrite List.Forall_forall in Hpool |- *; intros ru [Hin H]%filter_In; split; [auto|].
  apply orb_true_iff in H as [E%bool_decide_eq_true|E%bool_decide_eq_true]; [by left|by right].
Qed.

(** a rule meets its targets in a ready function *)
Lemma ready_target (f : funcdata) (ru : rule) (id : nat) (o : pcode_op) : ready f -> ops f !! id = Some o -> is_dead o = false ->
  takes ru (opc o) -> target ru f id = true.
Proof.
  intros R Ho Hd Hc; destruct (re_placed f R id o Ho Hd) as [Hi Hout]; unfold target; rewrite Hi, Ho; cbn [andb].
  apply andb_true_iff; split; [apply orb_true_iff; destruct Hc; [left|right]; by apply bool_decide_eq_true|].
  destruct (evaluable (opc o)); [|done]; by apply bool_decide_eq_true, Hout.
Qed.

Lemma op_stays (f f' : funcdata) (id : nat) (o : pcode_op) : result f f' -> ops f !! id = Some o -> exists o', ops f' !! id = Some o'.
Proof. intros R Ho; apply lookup_lt_Some in Ho; apply lookup_lt_is_Some_2; pose proof (rs_ops _ _ R); lia. Qed.

Lemma process_op_runs (fuel : nat) (id : nat) (c : opcode) (todo : list rule) (round : Z) (f : funcdata) (o : pcode_op) : ready f ->
  ops f !! id = Some o -> is_dead o = false -> opc o = c -> List.Forall (fun ru => Sound ru /\ takes ru c) todo ->
  runs (process_op fuel pool id c todo round f) (fun '(_, f') => result f f').
Proof.
  revert c todo round f o; induction fuel as [|fuel IH]; intros c todo round f o R Ho Hd Hc Ht; cbn; [apply result_refl; apply R|].
  destruct Ht as [|ru todo [P Hin] Ht]; [apply result_refl; apply R|].
  apply runs_bind; eapply runs_mono; [apply P; [apply R|apply R|]; eapply ready_target; [done..|by rewrite Hc]|].
  intros [n f'] (R1 & Hn & H0); destruct (op_stays _ _ _ _ R1 Ho) as [o' Ho']; rewrite Ho'; cbn [mbind option_bind].
  pose proof (result_ready _ _ R R1) as R'; destruct ((0 <? n) && is_dead o') eqn:Ed; [exact R1|].
  assert (Hd' : is_dead o' = false).
  { apply andb_false_iff in Ed as [L%Z.ltb_ge|]; [|done]; assert (f' = f) as -> by (apply H0; lia); congruence. }
  case_bool_decide as Ec; (eapply runs_mono; [eapply IH; [done|exact Ho'|done|done|]|intros [m g] Rg; by eapply result_trans]).
  - done.
  - apply rules_for_sound.
Qed.

Lemma fold_opt_runs {A S : Type} (g : S -> A -> option S) (l : list A) (s : S) (I : S -> Prop) : I s -> (forall a s, In a l -> I s -> runs (g s a) I) ->
  runs (fold_opt g l s) I.
Proof.
  revert s; induction l as [|a l IH]; intros s Hs Hg; cbn; [done|]; apply runs_bind; eapply runs_mono; [by apply Hg; [left|]|].
  intros s' Hs'; apply IH; [done|]; intros b t Hb; apply Hg; by right.
Qed.

Lemma pool_round_runs (fuel : nat) (f : funcdata) : ready f -> runs (pool_round fuel pool f) (fun '(_, f') => result f f').
Proof.
  intros R; unfold pool_round; apply fold_opt_runs; [apply result_refl; apply R|].
  intros id [round g] Hid Rg; apply sort_by_in, in_seq in Hid; destruct (lookup_lt_is_Some_2 (ops f) id ltac:(lia)) as [o0 Ho0].
  destruct (op_stays _ _ _ _ Rg Ho0) as [o Ho]; rewrite Ho; cbn [mbind option_bind]; destruct (is_dead o) eqn:Ed; [done|].
  eapply runs_mono; [eapply process_op_runs; [by eapply result_ready|done|done|done|apply rules_for_sound]|].
  intros [m h] Rh; by eapply result_trans.
Qed.

Lemma pool_apply_runs (rounds fuel : nat) (total : Z) (f : funcdata) : ready f -> runs (pool_apply rounds fuel pool total f) (fun '(_, f') => result f f').
Proof.
  revert total f; induction rounds as [|rounds IH]; intros total f R; cbn; [apply result_refl; apply R|].
  apply runs_bind; eapply runs_mono; [by apply pool_round_runs|]; intros [round g] Rg; destruct (round =? 0); [exact Rg|].
  eapply runs_mono; [apply IH; by eapply result_ready|]; intros [m h] Rh; by eapply result_trans.
Qed.
End Pool.
