(* ===== verification/RuleTheorems.v ===== *)
(** What the rules promise: single rules and pools of them keep what a function computes, and the divisor
    recovered from a multiplication is the right one. *)
From Stdlib Require Import ZArith Lia Bool List.
From stdpp Require Import base decidable option list strings gmap numbers tactics.
From S2P Require Import Prelude Space OpCode BitUtil PcodeSem Funcdata FuncdataLinks FuncdataEdits FuncdataRemove FuncdataBlocks FuncdataTheorems FuncdataBuild RuleBase Divopt DivRules Rules DivoptFacts Valuation ValuationEdits Rewrite RuleFacts RuleArith DivRulesSound DivChain ModRulesSound RulesSound LogicSound AlgebraSound HostFloat ConstFold PoolSound.
Local Open Scope Z_scope.

(** ** The conditions, decided *)

Definition all_ops (f : funcdata) (p : nat -> bool) : bool := forallb p (seq 0 (List.length (ops f))).

Lemma all_ops_at (f : funcdata) (p : nat -> bool) (o : nat) (x : pcode_op) : all_ops f p = true -> ops f !! o = Some x -> p o = true.
Proof. unfold all_ops; rewrite forallb_forall; intros H Hx; apply H, in_seq; apply lookup_lt_Some in Hx; lia. Qed.

Definition typedb (f : funcdata) : bool := all_ops f (fun o => match view_of f o with Some w => view_ok w | None => true end).

Lemma typedb_typed (f : funcdata) : typedb f = true -> typed f.
Proof.
  intros H o w Hw; pose proof (view_is_op _ _ _ Hw) as Hi; apply is_op_at in Hi as [x Hx].
  pose proof (all_ops_at _ _ o x H Hx) as E; cbv beta in E; by rewrite Hw in E.
Qed.

Definition placedb (f : funcdata) : bool := all_ops f (fun o =>
  match ops f !! o with
  | Some x => is_dead x || (inside f o && (negb (evaluable (opc x)) || bool_decide (is_Some (output x))))
  | None => true
  end).

Lemma placedb_placed (f : funcdata) : placedb f = true -> placed f.
Proof.
  intros H o x Hx Hd; pose proof (all_ops_at _ _ o x H Hx) as E; cbv beta in E; rewrite Hx, Hd in E; cbn in E; apply andb_true_iff in E as [Hi E]; split; [done|].
  intros Hev; rewrite Hev in E; by apply bool_decide_eq_true in E.
Qed.

Lemma readyb_intro (f : funcdata) : wf f -> typedb f = true -> placedb f = true -> ready f.
Proof. intros W T P; constructor; [done|by apply typedb_typed|by apply placedb_placed]. Qed.

(** ** A function that halves its argument, and takes the remainder, as a compiler writes it *)

(** [(x - (x s>> 31)) s>> 1], and that times -2 plus [x] *)
Definition halving_edits : list edit :=
  [ENewInput 4 (Addr 2 0x38); ENewConst 4 31; ENewOp IntSright (at_entry 0) [0; 1]; ENewOutputUnique 0 4;
   ENewConst 4 0xffffffff; ENewOp IntMult (at_entry 1) [2; 3]; ENewOutputUnique 1 4;
   ENewOp IntAdd (at_entry 2) [0; 4]; ENewOutputUnique 2 4;
   ENewConst 4 1; ENewOp IntSright (at_entry 3) [5; 6]; ENewOutputUnique 3 4;
   ENewConst 4 0xfffffffe; ENewOp IntMult (at_entry 4) [7; 8]; ENewOutputUnique 4 4;
   ENewOp IntAdd (at_entry 5) [9; 0]; ENewOutputUnique 5 4;
   ENewBlock; EInsertEnd 0 0; EInsertEnd 1 0; EInsertEnd 2 0; EInsertEnd 3 0; EInsertEnd 4 0; EInsertEnd 5 0]%nat.

Definition halving : funcdata := edited_by sample_start halving_edits.

Lemma halving_ready : ready halving.
Proof. apply readyb_intro; [apply edited_by_wf; [exact sample_start_wf|]|..]; vm_compute; reflexivity. Qed.

Definition code_at (f : funcdata) (o : nat) : option opcode := opc <$> ops f !! o.

(** ** Single rules *)



(** [C20] A chain of divisions by constants, or of a shift and an unsigned division, becomes one division of the
    same value by the product, and nothing else changes: [RuleDivChain] fires exactly where a chain stands
    ([chain_at]: the inner value has one reader, the product is not zero and the magnitudes of the divisors
    have few enough bits together), and the function it leaves computes what the function did.  The
    divisors are those for which that is so ([div_chain_exact]): unsigned ones below the sign bit, and no
    signed inner one of -1; [div_chain_sign_bit] shows the rule wrong on the others. *)
Theorem div_chain_one_division (f : funcdata) (op : nat) : wf f -> typed f -> target RuleDivChain f op = true -> div_chain_exact f op = true ->
  exists n f', apply_op RuleDivChain op f = Some (n, f') /\ wf f' /\ typed f' /\ implements f f' /\
    ((n = 1 /\ exists c A s k R, chain_at f op c A s k R /\ view_of f' op = Some (View c [A; Arg s (TConst k)] R)) \/
     (n = 0 /\ f' = f /\ forall c A s k R, ~ chain_at f op c A s k R)).
Proof.
  intros W T Ht He; pose proof (div_chain_result f W T op Ht He) as R; destruct (apply_op RuleDivChain op f) as [[n f']|] eqn:E; [|done].
  destruct R as [[] _]; exists n, f'; split_and!; try done; by apply div_chain_leaves.
Qed.

(** [(x / k1) / k2] on [sz] bytes *)
Definition chain_edits (sz k1 k2 : Z) : list edit :=
  [ENewInput sz (Addr 2 0x38); ENewConst sz k1; ENewOp IntDiv (at_entry 0) [0; 1]; ENewOutputUnique 0 sz;
   ENewConst sz k2; ENewOp IntDiv (at_entry 1) [2; 3]; ENewOutputUnique 1 sz;
   ENewBlock; EInsertEnd 0 0; EInsertEnd 1 0]%nat.

Definition chain (sz k1 k2 : Z) : funcdata := edited_by sample_start (chain_edits sz k1 k2).

Lemma chain_ready : ready (chain 4 10 6).
Proof. apply readyb_intro; [apply edited_by_wf; [exact sample_start_wf|]|..]; vm_compute; reflexivity. Qed.

(** [(x / 10) / 6] is [x / 60] *)
Lemma div_chain_one_division_witness : exists f', apply_op RuleDivChain 1 (chain 4 10 6) = Some (1, f') /\ implements (chain 4 10 6) f' /\
  (exists c A s k R, chain_at (chain 4 10 6) 1 c A s k R /\ view_of f' 1 = Some (View c [A; Arg s (TConst k)] R)) /\
  (view_of f' 1 = Some (View IntDiv [Arg 4 (TVar 0); Arg 4 (TConst 60)] (Some (Arg 4 (TVar 4))))).
Proof.
  destruct (div_chain_one_division (chain 4 10 6) 1 (re_wf _ chain_ready) (re_typed _ chain_ready) ltac:(vm_compute; reflexivity) ltac:(vm_compute; reflexivity))
    as (n & f' & E & _ & _ & I & [[-> H]|[-> _]]); [|vm_compute in E; discriminate E].
  exists f'; split; [exact E|]; split; [exact I|]; split; [exact H|]; clear H; vm_compute in E; injection E as <-; reflexivity.
Defined.

(** An unsigned divisor with its sign bit set counts as a small negative one: [(x / 255) / 2] on one byte
    becomes [x / 254], which differs at 254. *)
Example div_chain_sign_bit : div_chain_match (chain 1 255 2) 1 = Some (Some (0%nat, 1, 254)) /\ 254 / 255 / 2 <> 254 / 254.
Proof. split; [vm_compute; reflexivity|discriminate]. Qed.

(** [C21] An integer operation on constants becomes a copy of the constant it computes: [RuleConstFold] fires
    exactly on the operations it may fold ([foldable]: an integer code it knows, constant inputs only, no
    flag against it), leaves there a COPY of one constant, which is the value of the operation wherever
    the semantics gives one, and keeps what the function computes.  This is so where the folding is exact
    ([fold_exact]): an operation of the integer semantics, not an arithmetic shift of a negative word past what 64 bits hold, nor a count of
    leading zeros of less than a word, nor a distance of 2^32 or more, where [shifts_as_unsigned],
    [counts_in_words] and [cuts_distances] show other values. *)
Theorem const_fold_computes `{HF : HostFloat} (f : funcdata) (op : nat) : wf f -> typed f -> target RuleConstFold f op = true -> fold_exact f op = true ->
  exists n f', apply_op RuleConstFold op f = Some (n, f') /\ wf f' /\ typed f' /\ implements f f' /\
    ((n = 1 /\ exists c args out k, foldable f op c args out /\ view_of f' op = Some (View Copy [Arg (ar_size out) (TConst k)] (Some out)) /\
        forall k', eval_view (fun _ => 0) c args (ar_size out) = Some k' -> k = k') \/
     (n = 0 /\ f' = f /\ forall c args out, ~ foldable f op c args out)).
Proof.
  intros W T Ht He; destruct (target_op _ f op Ht) as (o & Ho & _ & _ & Hi); pose proof (graph_in_arena f op (wf_graph _ W)) as Ha; rewrite (inputs_at _ _ _ Ho) in Ha.
  destruct (srcs_total f _ Ha) as [args Hargs]; pose proof (const_fold_result f W T op o Ho args Hargs Hi He) as R.
  destruct (apply_op RuleConstFold op f) as [[n f']|] eqn:E; [|done]; destruct R as [[] _]; exists n, f'; split_and!; try done.
  by eapply const_fold_leaves.
Qed.

(** [c s>> 4] on a constant of four bytes *)
Definition sright_edits (c : Z) : list edit :=
  [ENewConst 4 c; ENewConst 4 4; ENewOp IntSright (at_entry 0) [0; 1]; ENewOutputUnique 0 4; ENewBlock; EInsertEnd 0 0]%nat.

Definition sright (c : Z) : funcdata := edited_by sample_start (sright_edits c).

Lemma sright_ready : ready (sright 0xc0000000).
Proof. apply readyb_intro; [apply edited_by_wf; [exact sample_start_wf|]|..]; vm_compute; reflexivity. Qed.

Lemma const_fold_computes_witness : exists f', apply_op RuleConstFold 0 (sright 0xc0000000) = Some (1, f') /\ implements (sright 0xc0000000) f' /\
  view_of f' 0 = Some (View Copy [Arg 4 (TConst 0xfc000000)] (Some (Arg 4 (TVar 2)))).
Proof.
  destruct (const_fold_computes (sright 0xc0000000) 0 (re_wf _ sright_ready) (re_typed _ sright_ready) ltac:(vm_compute; reflexivity) ltac:(vm_compute; reflexivity))
    as (n & f' & E & _ & _ & I & [[-> H]|[-> _]]); [|vm_compute in E; discriminate E].
  exists f'; split; [exact E|]; split; [exact I|]; destruct H as (c & args & out & k & (V & _) & V' & Hk).
  vm_compute in V; injection V as <- <- <-; rewrite V', (Hk 0xfc000000 ltac:(vm_compute; reflexivity)); reflexivity.
Defined.

(** [(x << k) + x] on one byte *)
Definition shifted_edits (k : Z) : list edit :=
  [ENewInput 1 (Addr 2 0x38); ENewConst 1 k; ENewOp IntLeft (at_entry 0) [0; 1]; ENewOutputUnique 0 1;
   ENewOp IntAdd (at_entry 1) [2; 0]; ENewOutputUnique 1 1; ENewBlock; EInsertEnd 0 0; EInsertEnd 1 0]%nat.

(** A shift by the width of its value or more becomes a product with a constant that does not fit. *)
Example shift_becomes_wide_product :
  (f' ← snd <$> apply_op RuleShift2Mult 0 (edited_by sample_start (shifted_edits 9)); view_of f' 0) =
    Some (View IntMult [Arg 1 (TVar 0); Arg 1 (TConst 512)] (Some (Arg 1 (TVar 2)))).
Proof. vm_compute; reflexivity. Qed.

(** ** The recovered divisor *)

(** [C7] Where [calc_divisor] answers a divisor, multiplying by the magic number and shifting is dividing by
    that divisor, for every operand of the given width (towards zero, less one where it is negative).
    This is so for every shift, width and magic number but one pair: shifts by 127 of 64-bit operands, for
    which the check of precision overflows and [calc_divisor_wide] shows a wrong answer. *)
Theorem calc_divisor_divides (n magic xsize x : Z) : 0 <= n -> 0 <= xsize -> (n, xsize) <> (127, 64) -> magic < 2 ^ 128 ->
  calc_divisor n magic xsize <> 0 -> - 2 ^ xsize <= x < 2 ^ xsize -> x * magic / 2 ^ n = corrected_quot x (calc_divisor n magic xsize).
Proof.
  intros Hn Hs Hw Hm H Hx; assert (Hp : precise n xsize).
  { apply calc_divisor_range in H; unfold precise; assert (~ (n = 127 /\ xsize = 64)) by (intros [-> ->]; by apply Hw); lia. }
  destruct (calc_divisor_magic n magic xsize Hp Hm H) as [e He]; eapply magic_quotient; [|exact He|exact Hx].
  apply Z.pow_pos_nonneg; lia.
Qed.

(** the multiplier of a compiler's division by ten *)
Lemma calc_divisor_divides_witness : calc_divisor 35 0xcccccccd 32 = 10 /\ forall x, 0 <= x < 2 ^ 32 -> x * 0xcccccccd / 2 ^ 35 = x / 10.
Proof.
  split; [vm_compute; reflexivity|]; intros x Hx.
  rewrite (calc_divisor_divides 35 0xcccccccd 32 x ltac:(lia) ltac:(lia) ltac:(discriminate) ltac:(lia) ltac:(vm_compute; discriminate) ltac:(lia)).
  change (calc_divisor 35 0xcccccccd 32) with 10; unfold corrected_quot; destruct (Z.ltb_spec x 0); [lia|]; apply Z.quot_div_nonneg; lia.
Defined.

(** At the widest operands and shifts the check of precision overflows, and a wrong divisor is returned. *)
Example calc_divisor_wide : calc_divisor 127 (2 ^ 64 + 2) 64 = 2 ^ 63 /\
  (2 ^ 64 - 1) * (2 ^ 64 + 2) / 2 ^ 127 = 2 /\ (2 ^ 64 - 1) / 2 ^ 63 = 1.
Proof. vm_compute; split_and!; reflexivity. Qed.

(** [C22] The divisor a compiler started from is the one recovered: for the least multiplier above the
    quotient of the power, wherever it is precise enough and the divisor is at most that quotient. *)
Theorem calc_divisor_round_trip (n d xsize : Z) : 0 <= n <= 127 -> 0 <= xsize <= 64 -> 0 < d < 2 ^ 64 -> d <= 2 ^ n / d ->
  (d - 2 ^ n mod d) * 2 ^ xsize <= 2 ^ n -> calc_divisor n (least_magic n d) xsize = d.
Proof. apply calc_divisor_recovers. Qed.

Lemma calc_divisor_round_trip_witness : calc_divisor 35 (least_magic 35 10) 32 = 10 /\ least_magic 35 10 = 0xcccccccd.
Proof. split; [apply (calc_divisor_round_trip 35 10 32); vm_compute; intuition discriminate|vm_compute; reflexivity]. Defined.

(** ** Pools *)

(** the rules shown sound *)
Definition sound_rules : list rule :=
  [RuleTermOrder; RuleTrivialArith; RuleIdentityEl; RuleTrivialShift; RuleLessEqual2Zero; RuleLess2Zero;
   RuleLessOne; RuleCarryElim; RuleOrMask; RuleMultNegOne; Rule2Comp2Mult; RuleNegateNegate; RuleBxor2NotEqual;
   RuleTrivialBool; RuleSub2Add; RuleNotDistribute; RuleXorCollapse; RuleXorSwap; RuleNegateIdentity;
   RuleDoubleSub; RuleConcatShift; RulePropagateCopy;
   RuleSignDiv2; RuleModOpt; RuleSignNearMult; RuleSignMod2nOpt2; RuleSignMod2Opt].

Lemma sound_rules_sound (pool : list rule) : incl pool sound_rules -> List.Forall Sound pool.
Proof.
  intros Hi; apply List.Forall_forall; intros ru Hru%Hi; unfold sound_rules in Hru; cbn in Hru; repeat destruct Hru as [<-|Hru]; try apply _; done.
Qed.

(** [C5] A pool of sound rules, in any order and however many rounds the deadline leaves it, never panics on a
    function with typed operations, all placed, and ends in one that computes the same. *)
Theorem pool_keeps_meaning (pool : list rule) (rounds fuel : nat) (total : Z) (f : funcdata) : incl pool sound_rules -> ready f ->
  exists n f', pool_apply rounds fuel pool total f = Some (n, f') /\ ready f' /\ implements f f'.
Proof.
  intros Hi R; pose proof (pool_apply_runs pool (sound_rules_sound pool Hi) rounds fuel total f R) as H.
  destruct (pool_apply rounds fuel pool total f) as [[n f']|]; [|done]; exists n, f'; split; [done|]; split; [by eapply result_ready|apply H].
Qed.

(** two rounds find the division and the remainder *)
Lemma pool_keeps_meaning_witness : exists n f', pool_apply 5 20 [RuleSignDiv2; RuleModOpt] 0 halving = Some (n, f') /\ implements halving f' /\
  n = 2 /\ code_at f' 3 = Some IntSdiv /\ code_at f' 5 = Some IntSrem.
Proof.
  assert (Hi : incl [RuleSignDiv2; RuleModOpt] sound_rules) by (intros ru [<-|[<-|[]]]; cbn; tauto).
  destruct (pool_keeps_meaning [RuleSignDiv2; RuleModOpt] 5 20 0 halving Hi halving_ready) as (n & f' & E & _ & I).
  exists n, f'; split; [exact E|]; split; [exact I|]; vm_compute in E; injection E as <- <-; split_and!; reflexivity.
Defined.
