(* ===== verification/AddressSet.v ===== *)
(** [analysis/program/address_set.rs]: sets of addresses as canonical lists of inclusive ranges,
    with the set algebra the analyzers use. *)
From Stdlib Require Import ZArith Lia Bool List Sorted.
From stdpp Require Import base tactics list numbers.
From S2P Require Import Prelude Space.
Local Open Scope Z_scope.

Record address_range := AR { space : Z; rmin : Z; rmax : Z }.

(** the set is its list of ranges *)
Definition address_set := list address_range.

Definition length (r : address_range) : Z := u64_add (u64_sub (rmax r) (rmin r)) 1.

Definition contains_offset (r : address_range) (off : Z) : bool := (rmin r <=? off) && (off <=? rmax r).

(** tuple comparison of the sort keys [(space, offset)] *)
Definition key_lt (a b : Z * Z) : bool :=
  (fst a <? fst b) || ((fst a =? fst b) && (snd a <? snd b)).

Definition key (r : address_range) : Z * Z := (space r, rmin r).

Definition touches_or_overlaps (a b : address_range) : bool :=
  let holds v o := match o with Some w => v =? w | None => false end in
  let a_then_b := (rmax a <? rmin b) && holds (rmin b) (u64_checked_add (rmax a) 1) in
  let b_then_a := (rmax b <? rmin a) && holds (rmin a) (u64_checked_add (rmax b) 1) in
  let overlap := (rmin a <=? rmax b) && (rmin b <=? rmax a) in
  overlap || a_then_b || b_then_a.

Definition empty_set : address_set := [].

Definition is_empty (s : address_set) : bool := match s with [] => true | _ => false end.

(** [iter().map(length).sum()] on [u64] *)
Definition num_addresses (s : address_set) : Z := fold_left (fun n r => u64_add n (length r)) s 0.

Definition min_address (s : address_set) : option address :=
  match s with [] => None | r :: _ => Some (Addr (space r) (rmin r)) end.

Definition max_address (s : address_set) : option address :=
  match nth_error s (Nat.pred (List.length s)) with None => None | Some r => Some (Addr (space r) (rmax r)) end.

Definition contains (s : address_set) (a : address) : bool :=
  existsb (fun r => (space r =? a_space a) && contains_offset r (a_offset a)) s.

(** the [while hi < len] loop: the grown range and the ranges after [hi] *)
Fixpoint absorb (new : address_range) (l : list address_range) : address_range * list address_range :=
  match l with
  | [] => (new, [])
  | r :: rest =>
      if negb (space r =? space new) || negb (touches_or_overlaps r new) then (new, l)
      else absorb (AR (space new) (Z.min (rmin new) (rmin r)) (Z.max (rmax new) (rmax r))) rest
  end.

Definition add_range (s : address_set) (sp mn mx : Z) : address_set :=
  let new := AR sp mn mx in
  let lo := partition_point (fun r => key_lt (key r) (sp, mn)) s in
  let lo :=
    match lo with
    | O => lo
    | S p =>
        match nth_error s p with
        | Some prev => if (space prev =? sp) && touches_or_overlaps prev new then p else lo
        | None => lo
        end
    end in
  let '(new, rest) := absorb new (skipn lo s) in
  firstn lo s ++ new :: rest.

Definition add (s : address_set) (a : address) : address_set :=
  add_range s (a_space a) (a_offset a) (a_offset a).

Definition extend (s other : address_set) : address_set :=
  fold_left (fun out r => add_range out (space r) (rmin r) (rmax r)) other s.

(** a clone of [self] extended *)
Definition union (s other : address_set) : address_set := extend s other.

Definition intersect_range (a b : address_range) (out : address_set) : address_set :=
  if negb (space a =? space b) then out
  else
    let lo := Z.max (rmin a) (rmin b) in
    let hi := Z.min (rmax a) (rmax b) in
    if lo <=? hi then add_range out (space a) lo hi else out.

Definition intersect (s other : address_set) : address_set :=
  fold_left (fun out a => fold_left (fun out b => intersect_range a b out) other out) s empty_set.

(** the two-pointer merge: either pointer advances *)
Fixpoint intersects (s : address_set) : address_set -> bool :=
  fix inner (other : address_set) : bool :=
    match s, other with
    | a :: s', b :: other' =>
        if key_lt (space a, rmax a) (space b, rmin b) then intersects s' other
        else if key_lt (space b, rmax b) (space a, rmin a) then inner other'
        else true
    | _, _ => false
    end.

(** [sort_by_key(|b| b.min)], a stable sort *)
Fixpoint insert_by_min (r : address_range) (l : list address_range) : list address_range :=
  match l with
  | [] => [r]
  | x :: l' => if rmin r <=? rmin x then r :: l else x :: insert_by_min r l'
  end.
Definition sort_by_min (l : list address_range) : list address_range := foldr insert_by_min [] l.

(** the fragments of [a] left by the cutters: output, next uncovered offset, covered to the end *)
Fixpoint cut (a : address_range) (cutters : list address_range) (cur : Z) (out : address_set)
  : address_set * Z * bool :=
  match cutters with
  | [] => (out, cur, false)
  | b :: cutters =>
      let bmin := Z.max (rmin b) (rmin a) in
      let bmax := Z.min (rmax b) (rmax a) in
      let out := if cur <? bmin then add_range out (space a) cur (bmin - 1) else out in
      if rmax a <=? bmax then (out, cur, true)
      else cut a cutters (Z.max cur (bmax + 1)) out
  end.

Definition subtract_range (other : address_set) (out : address_set) (a : address_range) : address_set :=
  let cutters :=
    sort_by_min (List.filter (fun b => (space b =? space a) && (rmin a <=? rmax b) && (rmin b <=? rmax a)) other) in
  let '(out, cur, covered_to_end) := cut a cutters (rmin a) out in
  if negb covered_to_end && (cur <=? rmax a) then add_range out (space a) cur (rmax a) else out.

Definition subtract (s other : address_set) : address_set :=
  fold_left (subtract_range other) s empty_set.

Definition xor (s other : address_set) : address_set := union (subtract s other) (subtract other s).

#[export] Instance address_range_eq_dec : EqDecision address_range.
Proof. solve_decision. Defined.

(** the derived equality of the range vectors *)
Definition has_same_addresses (s other : address_set) : bool := bool_decide (s = other).

(** * The set a list of ranges denotes *)

(** [a] lies in the range. *)
Definition in_range (r : address_range) (a : address) : Prop :=
  space r = a_space a /\ rmin r <= a_offset a <= rmax r.

Definition in_set (s : address_set) (a : address) : Prop := exists r, In r s /\ in_range r a.

(** A range of [u64] offsets. *)
Definition valid (r : address_range) : Prop := 0 <= rmin r <= rmax r /\ rmax r < 2 ^ 64.

(** [x] lies before [y], with a gap when they share the space. *)
Definition sep (x y : address_range) : Prop :=
  space x < space y \/ (space x = space y /\ rmax x + 1 < rmin y).

(** The representation invariant: valid ranges in order, neither overlapping nor adjacent. *)
Definition canonical (s : address_set) : Prop := Forall valid s /\ StronglySorted sep s.

Lemma contains_in_set (s : address_set) (a : address) : contains s a = true <-> in_set s a.
Proof.
  unfold contains, in_set, in_range, contains_offset. rewrite existsb_exists.
  split; intros (r & Hr & H); exists r; (split; [done|]);
    rewrite !andb_true_iff, Z.eqb_eq, !Z.leb_le in *; tauto.
Qed.

Lemma in_set_nil (a : address) : ~ in_set [] a.
Proof. intros (r & [] & _). Qed.

Lemma in_set_cons (r : address_range) (s : address_set) (a : address) :
  in_set (r :: s) a <-> in_range r a \/ in_set s a.
Proof.
  unfold in_set. split.
  - intros (x & [-> | Hx] & Ha); [by left|right; by exists x].
  - intros [Ha | (x & Hx & Ha)]; [exists r; split; [by left|done]|exists x; split; [by right|done]].
Qed.

Lemma in_set_app (s t : address_set) (a : address) :
  in_set (s ++ t) a <-> in_set s a \/ in_set t a.
Proof.
  induction s as [|r s IH]; cbn [app]; [pose proof (in_set_nil a); tauto|].
  rewrite !in_set_cons, IH. tauto.
Qed.

Lemma canonical_nil : canonical [].
Proof. split; constructor. Qed.

Lemma canonical_cons (r : address_range) (s : address_set) :
  canonical (r :: s) <-> valid r /\ Forall (sep r) s /\ canonical s.
Proof.
  unfold canonical. split.
  - intros [Hv Hs]. inversion Hv; subst. inversion Hs; subst. done.
  - intros (Hr & Hf & Hv & Hs). split; by constructor.
Qed.

Lemma canonical_app (s t : address_set) :
  canonical (s ++ t) <-> canonical s /\ canonical t /\ Forall (fun x => Forall (sep x) t) s.
Proof.
  induction s as [|r s IH]; cbn [app].
  - split; [intros H; repeat split; (apply H || constructor)|tauto].
  - rewrite !canonical_cons, IH, Forall_app, Forall_cons_iff. tauto.
Qed.

Lemma touches_spec (a b : address_range) : valid a -> valid b ->
  touches_or_overlaps a b = true <-> rmin a <= rmax b + 1 /\ rmin b <= rmax a + 1.
Proof.
  unfold valid, touches_or_overlaps, u64_checked_add. intros Ha Hb. cbn. cmp; cbn; (split; intros; (done || lia)).
Qed.

(** ** [add_range] *)

Lemma sep_trans (x y z : address_range) : valid y -> sep x y -> sep y z -> sep x z.
Proof. unfold valid, sep. lia. Qed.

Lemma sep_all (x y : address_range) (l : list address_range) :
  valid y -> sep x y -> Forall (sep y) l -> Forall (sep x) l.
Proof. intros Hy Hxy. apply Forall_impl. intros z. by apply sep_trans. Qed.

(** Absorbing the ranges that touch: what is left is past the grown range. *)
Lemma absorb_spec (l : list address_range) : forall new new' rest,
  canonical l -> valid new -> Forall (fun r => ~ sep r new) l -> absorb new l = (new', rest) ->
  canonical (new' :: rest) /\
  (forall a, in_set (new' :: rest) a <-> in_range new a \/ in_set l a) /\
  (forall p, sep p new -> Forall (sep p) l -> sep p new' /\ Forall (sep p) rest).
Proof.
  induction l as [|r l IH]; cbn [absorb]; intros new new' rest Hc Hn Hl E.
  - injection E as <- <-. split; [by apply canonical_cons|]. split; [|done].
    intros a. apply in_set_cons.
  - apply canonical_cons in Hc as (Hr & Hs & Hc). inversion Hl as [|? ? Hnr Hnl]; subst.
    destruct (Z.eqb_spec (space r) (space new)) as [Esp|Nsp]; cbn [negb orb] in E.
    2: { injection E as <- <-. 
         assert (sep new r) as Hsep by (unfold sep in *; lia).
         split; [|split; [intros a; apply in_set_cons|done]].
         apply canonical_cons. split; [done|]. split; [|by apply canonical_cons].
         constructor; [done|]. by apply (sep_all new r). }
    destruct (touches_or_overlaps r new) eqn:Et; cbn [negb] in E.
    + apply touches_spec in Et; [|done..].
      apply IH in E as (Hc' & Hin & Hp); [|done| |].
      * split; [done|]. split.
        -- intros a. rewrite Hin, in_set_cons. unfold in_range. cbn.
           assert (space new = a_space a <-> space r = a_space a) as -> by (by rewrite Esp).
           unfold valid in *.
           assert (Z.min (rmin new) (rmin r) <= a_offset a <= Z.max (rmax new) (rmax r) <->
             rmin new <= a_offset a <= rmax new \/ rmin r <= a_offset a <= rmax r) as -> by lia.
           tauto.
        -- intros p Hpn Hpl. inversion Hpl; subst. apply Hp; [|done]. unfold sep in *. cbn. lia.
      * unfold valid in *. cbn. lia.
      * rewrite Forall_forall in Hs, Hnl |- *. intros x Hx Hsx. specialize (Hs x Hx).
        specialize (Hnl x Hx). unfold sep, valid in *. cbn in *. lia.
    + injection E as <- <-. assert (~ (rmin r <= rmax new + 1 /\ rmin new <= rmax r + 1)) as Hnt.
      { rewrite <- touches_spec by done. congruence. }
      assert (sep new r) as Hsep by (unfold sep, valid in *; lia).
      split; [|split; [intros a; apply in_set_cons|done]].
      apply canonical_cons. split; [done|]. split; [|by apply canonical_cons].
      constructor; [done|]. by apply (sep_all new r).
Qed.

Lemma key_lt_spec (a b : Z * Z) : key_lt a b = true <-> fst a < fst b \/ (fst a = fst b /\ snd a < snd b).
Proof. unfold key_lt. rewrite orb_true_iff, andb_true_iff, Z.eqb_eq, !Z.ltb_lt. tauto. Qed.

(** The split [partition_point] makes of a canonical set. *)
Lemma partition_split (s : address_set) (sp mn : Z) : canonical s ->
  let lo := partition_point (fun r => key_lt (key r) (sp, mn)) s in
  Forall (fun r => space r < sp \/ (space r = sp /\ rmin r < mn)) (firstn lo s) /\
  Forall (fun r => sp < space r \/ (space r = sp /\ mn <= rmin r)) (skipn lo s).
Proof.
  induction s as [|r s IH]; cbn [partition_point]; intros Hc; [by split|].
  apply canonical_cons in Hc as (Hr & Hs & Hc). specialize (IH Hc). cbn in IH.
  destruct (key_lt (key r) (sp, mn)) eqn:E.
  - apply key_lt_spec in E. cbn in E. cbn [firstn skipn]. split; [|tauto]. constructor; tauto.
  - assert (~ (space r < sp \/ space r = sp /\ rmin r < mn)) as Hn
      by (intros H; apply (key_lt_spec (key r) (sp, mn)) in H; congruence).
    cbn [firstn skipn]. split; [constructor|]. constructor; [lia|].
    rewrite Forall_forall in Hs |- *. intros x Hx. specialize (Hs x Hx).
    unfold sep, valid in *. lia.
Qed.

(** Adding a range at a split of the set around it. *)
Lemma add_at_split (s1 s2 : address_set) (new new' : address_range) (rest : list address_range) :
  canonical (s1 ++ s2) -> valid new -> Forall (fun r => sep r new) s1 ->
  Forall (fun r => ~ sep r new) s2 -> absorb new s2 = (new', rest) ->
  canonical (s1 ++ new' :: rest) /\
  forall a, in_set (s1 ++ new' :: rest) a <-> in_range new a \/ in_set (s1 ++ s2) a.
Proof.
  intros Hc Hn H1 H2 E. apply canonical_app in Hc as (Hc1 & Hc2 & H12).
  apply absorb_spec in E as (Hc' & Hin & Hp); [|done..].
  split.
  - apply canonical_app. split; [done|]. split; [done|].
    rewrite Forall_forall in H1, H12 |- *. intros x Hx.
    destruct (Hp x (H1 x Hx) (H12 x Hx)) as [? ?]. by constructor.
  - intros a. rewrite !in_set_app, Hin. tauto.
Qed.

Lemma split_at (s : address_set) (n : nat) : (n < List.length s)%nat ->
  exists x, nth_error s n = Some x /\ firstn (S n) s = firstn n s ++ [x] /\ skipn n s = x :: skipn (S n) s.
Proof.
  revert n. induction s as [|r s IH]; cbn [List.length]; intros n Hn; [lia|].
  destruct n as [|n]; [by exists r|]. destruct (IH n) as (x & Hx & Hf & Hk); [lia|].
  exists x. cbn [nth_error firstn skipn app] in *. by rewrite Hf.
Qed.

(** The ranges before the insertion point lie before the new range. *)
Lemma before_sep (s1 : address_set) (prev new : address_range) : valid new -> canonical (s1 ++ [prev]) ->
  space prev < space new \/ (space prev = space new /\ rmin prev < rmin new) ->
  ((space prev =? space new) && touches_or_overlaps prev new) = false ->
  Forall (fun r => sep r new) (s1 ++ [prev]).
Proof.
  intros Hn Hc Hk Ht. apply canonical_app in Hc as (_ & Hc2 & H12).
  apply canonical_cons in Hc2 as (Hp & _ & _).
  assert (sep prev new) as Hsep.
  { unfold sep. destruct Hk as [Hk|[Hk Hlt]]; [by left|right]. split; [done|].
    rewrite Hk, Z.eqb_refl in Ht. cbn in Ht.
    assert (~ (rmin prev <= rmax new + 1 /\ rmin new <= rmax prev + 1)) as Hnt
      by (rewrite <- touches_spec by done; congruence).
    unfold valid in *. lia. }
  apply Forall_app. split; [|by constructor].
  rewrite Forall_forall in H12 |- *. intros x Hx. specialize (H12 x Hx). inversion H12; subst.
  by apply (sep_trans x prev).
Qed.

Lemma add_range_adds (s : address_set) (sp mn mx : Z) :
  canonical s -> 0 <= mn <= mx -> mx < 2 ^ 64 ->
  canonical (add_range s sp mn mx) /\
  (forall a, in_set (add_range s sp mn mx) a <-> in_range (AR sp mn mx) a \/ in_set s a).
Proof.
  intros Hc Hm Hx. unfold add_range. set (new := AR sp mn mx).
  assert (valid new) as Hn by (unfold valid; cbn; lia).
  destruct (partition_split s sp mn Hc) as [H1 H2].
  set (lo0 := partition_point _ s) in *.
  pose proof (partition_point_le (fun r => key_lt (key r) (sp, mn)) s) as Hle. fold lo0 in Hle.
  assert (forall lo, Forall (fun r => sep r new) (firstn lo s) ->
            Forall (fun r => ~ sep r new) (skipn lo s) ->
            let s' := let '(new', rest) := absorb new (skipn lo s) in firstn lo s ++ new' :: rest in
            canonical s' /\ forall a, in_set s' a <-> in_range new a \/ in_set s a) as Hfin.
  { intros lo Ha Hb. destruct (absorb new (skipn lo s)) as [new' rest] eqn:E.
    destruct (add_at_split (firstn lo s) (skipn lo s) new new' rest) as [Hc' Hin]; try done;
      rewrite firstn_skipn in *; done. }
  assert (Forall (fun r => ~ sep r new) (skipn lo0 s)) as H3.
  { destruct Hc as [Hv _]. rewrite <- (firstn_skipn lo0 s), Forall_app in Hv. destruct Hv as [_ Hv].
    rewrite Forall_forall in H2, Hv |- *. intros x Hxs. specialize (H2 x Hxs). specialize (Hv x Hxs).
    unfold sep, valid in *. cbn. lia. }
  destruct lo0 as [|p] eqn:El; [apply (Hfin 0%nat); [constructor|done]|].
  destruct (split_at s p Hle) as (prev & -> & Hf & Hk).
  assert (canonical (firstn p s ++ [prev])) as Hcp.
  { rewrite <- Hf. rewrite <- (firstn_skipn (S p) s) in Hc. by apply canonical_app in Hc as [? _]. }
  rewrite Hf, Forall_app in H1. destruct H1 as [H1 Hprev]. inversion Hprev; subst.
  destruct (_ && _) eqn:Et.
  - apply andb_prop in Et as [Es Et]. apply Z.eqb_eq in Es.
    apply canonical_app in Hcp as (_ & Hcv & H12). apply canonical_cons in Hcv as (Hv & _ & _).
    apply touches_spec in Et; [|done..]. cbn in Et. apply Hfin.
    + rewrite Forall_forall in H12 |- *. intros x Hxs. specialize (H12 x Hxs). inversion H12; subst.
      unfold sep in *. cbn. lia.
    + rewrite Hk. constructor; [|done]. unfold sep. cbn. lia.
  - apply Hfin; [|done]. rewrite Hf. by apply before_sep.
Qed.

(** ** The set algebra *)

Lemma add_range_canonical (s : address_set) (r : address_range) : canonical s -> valid r ->
  canonical (add_range s (space r) (rmin r) (rmax r)) /\
  (forall a, in_set (add_range s (space r) (rmin r) (rmax r)) a <-> in_range r a \/ in_set s a).
Proof. intros Hc [? ?]. destruct r. by apply add_range_adds. Qed.

Lemma extend_spec (other s : address_set) : canonical s -> Forall valid other ->
  canonical (extend s other) /\ (forall a, in_set (extend s other) a <-> in_set s a \/ in_set other a).
Proof.
  unfold extend. revert s. induction other as [|r other IH]; cbn [fold_left]; intros s Hc Hv.
  - split; [done|]. intros a. pose proof (in_set_nil a). tauto.
  - inversion Hv; subst. destruct (add_range_canonical s r) as [Hc' Hin]; [done..|].
    destruct (IH _ Hc') as [Hc'' Hin']; [done|]. split; [done|].
    intros a. rewrite Hin', Hin, in_set_cons. tauto.
Qed.

Lemma intersect_range_spec (a b : address_range) (out : address_set) : canonical out -> valid a -> valid b ->
  canonical (intersect_range a b out) /\
  (forall x, in_set (intersect_range a b out) x <-> (in_range a x /\ in_range b x) \/ in_set out x).
Proof.
  intros Hc Ha Hb. unfold intersect_range.
  destruct (Z.eqb_spec (space a) (space b)) as [Es|Ns]; cbn [negb].
  - destruct (Z.leb_spec (Z.max (rmin a) (rmin b)) (Z.min (rmax a) (rmax b))).
    + unfold valid in *. destruct (add_range_adds out (space a) (Z.max (rmin a) (rmin b)) (Z.min (rmax a) (rmax b)))
        as [Hc' Hin]; [done|lia|lia|]. split; [done|]. intros x. rewrite Hin. unfold in_range. cbn.
      assert (Z.max (rmin a) (rmin b) <= a_offset x <= Z.min (rmax a) (rmax b) <->
              rmin a <= a_offset x <= rmax a /\ rmin b <= a_offset x <= rmax b) as -> by lia.
      rewrite Es. tauto.
    + split; [done|]. intros x. unfold in_range. split; [tauto|]. intros [[? ?]|]; [lia|done].
  - split; [done|]. intros x. unfold in_range. split; [tauto|]. intros [[? ?]|]; [lia|done].
Qed.

Lemma intersect_one (a : address_range) (other out : address_set) : canonical out -> valid a -> Forall valid other ->
  let out' := fold_left (fun out b => intersect_range a b out) other out in
  canonical out' /\ (forall x, in_set out' x <-> (in_range a x /\ in_set other x) \/ in_set out x).
Proof.
  revert out. induction other as [|b other IH]; cbn [fold_left]; intros out Hc Ha Hv.
  - split; [done|]. intros x. pose proof (in_set_nil x). tauto.
  - inversion Hv; subst. destruct (intersect_range_spec a b out) as [Hc' Hin]; [done..|].
    destruct (IH _ Hc' Ha) as [Hc'' Hin']; [done|]. split; [done|].
    intros x. rewrite Hin', Hin, in_set_cons. tauto.
Qed.

(** The address lies in none of the ranges, spaces aside. *)
Definition uncovered (cutters : list address_range) (off : Z) : Prop :=
  Forall (fun b => ~ (rmin b <= off <= rmax b)) cutters.

Definition finish (a : address_range) (res : address_set * Z * bool) : address_set :=
  let '(out, cur, covered_to_end) := res in
  if negb covered_to_end && (cur <=? rmax a) then add_range out (space a) cur (rmax a) else out.

Lemma cut_spec (a : address_range) (cutters : list address_range) : forall cur out,
  valid a -> Forall valid cutters -> StronglySorted (fun x y => rmin x <= rmin y) cutters ->
  Forall (fun b => rmin a <= rmax b /\ rmin b <= rmax a) cutters ->
  rmin a <= cur <= rmax a -> canonical out ->
  let out' := finish a (cut a cutters cur out) in
  canonical out' /\
  (forall x, in_set out' x <->
     in_set out x \/ (space a = a_space x /\ cur <= a_offset x <= rmax a /\ uncovered cutters (a_offset x))).
Proof.
  induction cutters as [|b bs IH]; cbn [cut]; intros cur out Ha Hv Hs Ho Hcur Hc.
  - cbn. destruct (Z.leb_spec cur (rmax a)); [|lia]. unfold valid in Ha.
    destruct (add_range_adds out (space a) cur (rmax a)) as [Hc' Hin]; [done|lia|lia|].
    split; [done|]. intros x. rewrite Hin. unfold in_range. cbn.
    assert (uncovered [] (a_offset x)) by constructor. tauto.
  - inversion Hv as [|? ? Hb Hvs]; subst. inversion Hs as [|? ? Hss Hle]; subst.
    inversion Ho as [|? ? Hob Hos]; subst.
    set (bmin := Z.max (rmin b) (rmin a)). set (bmax := Z.min (rmax b) (rmax a)).
    set (out1 := if cur <? bmin then _ else _).
    assert (canonical out1 /\ forall x, in_set out1 x <->
      in_set out x \/ (space a = a_space x /\ cur <= a_offset x < bmin)) as [Hc1 Hin1].
    { unfold out1, valid in *. destruct (Z.ltb_spec cur bmin).
      - destruct (add_range_adds out (space a) cur (bmin - 1)) as [Hc' Hin]; [done|lia|lia|].
        split; [done|]. intros x. rewrite Hin. unfold in_range. cbn.
        assert (cur <= a_offset x <= bmin - 1 <-> cur <= a_offset x < bmin) as -> by lia. tauto.
      - split; [done|]. intros x. split; [tauto|]. intros [|[_ ?]]; [done|lia]. }
    assert (forall off, cur <= off < bmin -> uncovered (b :: bs) off) as Hbefore.
    { intros off Hoff. constructor; [lia|]. eapply Forall_impl; [|exact Hle]. cbn. lia. }
    destruct (Z.leb_spec (rmax a) bmax) as [Hend|Hend].
    + cbn [finish negb andb]. split; [done|]. intros x. rewrite Hin1. split.
      * intros [|[? ?]]; [by left|right]. split; [done|]. split; [lia|]. by apply Hbefore.
      * intros [|(? & Hx & Hu)]; [by left|right]. split; [done|]. inversion Hu; subst. lia.
    + destruct (IH (Z.max cur (bmax + 1)) out1) as [Hc' Hin]; try done; [lia|].
      split; [done|]. intros x. rewrite Hin, Hin1. split.
      * intros [[|[? ?]]|(? & Hx & Hu)]; [by left|right..].
        -- split; [done|]. split; [lia|]. by apply Hbefore.
        -- split; [done|]. split; [lia|]. constructor; [lia|done].
      * intros [|(? & Hx & Hu)]; [by left; left|]. inversion Hu; subst.
        destruct (Z.lt_ge_cases (a_offset x) bmin); [left; right; split; [done|lia]|right].
        split; [done|]. split; [lia|done].
Qed.

Lemma insert_by_min_spec (r : address_range) (l : list address_range) :
  StronglySorted (fun x y => rmin x <= rmin y) l ->
  StronglySorted (fun x y => rmin x <= rmin y) (insert_by_min r l) /\
  (forall x, In x (insert_by_min r l) <-> r = x \/ In x l).
Proof.
  induction l as [|y l IH]; cbn; intros Hs.
  - split; [repeat constructor|done].
  - inversion Hs as [|? ? Hss Hle]; subst. destruct (IH Hss) as [Hs' Hin].
    destruct (Z.leb_spec (rmin r) (rmin y)).
    + split; [|done]. constructor; [done|]. constructor; [done|].
      eapply Forall_impl; [|exact Hle]. cbn. lia.
    + split; [|intros x; cbn; rewrite Hin; tauto]. constructor; [done|].
      rewrite Forall_forall in Hle |- *. intros x Hx. apply Hin in Hx as [<-|Hx]; [lia|by apply Hle].
Qed.

Lemma sort_by_min_spec (l : list address_range) :
  StronglySorted (fun x y => rmin x <= rmin y) (sort_by_min l) /\
  (forall x, In x (sort_by_min l) <-> In x l).
Proof.
  induction l as [|r l [Hs Hin]]; cbn; [split; [constructor|done]|].
  destruct (insert_by_min_spec r _ Hs) as [Hs' Hin']. split; [done|]. intros x. rewrite Hin', Hin. done.
Qed.

Lemma subtract_range_spec (other out : address_set) (a : address_range) :
  canonical out -> valid a -> Forall valid other ->
  canonical (subtract_range other out a) /\
  (forall x, in_set (subtract_range other out a) x <-> in_set out x \/ (in_range a x /\ ~ in_set other x)).
Proof.
  intros Hc Ha Hv. unfold subtract_range.
  set (sel := List.filter _ other). destruct (sort_by_min_spec sel) as [Hs Hin].
  assert (forall b, In b (sort_by_min sel) <->
            In b other /\ space b = space a /\ rmin a <= rmax b /\ rmin b <= rmax a) as Hsel.
  { intros b. rewrite Hin. unfold sel. rewrite filter_In, !andb_true_iff, Z.eqb_eq, !Z.leb_le. tauto. }
  rewrite Forall_forall in Hv.
  destruct (cut_spec a (sort_by_min sel) (rmin a) out Ha) as [Hc' Hin'];
    [|done| |unfold valid in Ha; lia|done|];
    [by rewrite Forall_forall; intros b Hb; apply Hv, Hsel
    |by rewrite Forall_forall; intros b Hb; apply Hsel in Hb as (_ & _ & ?)|].
  unfold finish in *. destruct (cut _ _ _ _) as [[out' cur] cov]. split; [done|].
  intros x. rewrite Hin'. unfold in_range, uncovered, in_set. rewrite Forall_forall.
  split; (intros [|H]; [by left|right]).
  - destruct H as (? & ? & Hu). split; [done|]. intros (b & Hb & Hbx & ?). apply (Hu b); [|done].
    apply Hsel. split; [done|]. split; [congruence|lia].
  - destruct H as ([? ?] & Hn). split; [done|]. split; [done|]. intros b Hb Hbx. apply Hsel in Hb as (? & ? & ?).
    apply Hn. exists b. split; [done|]. split; [congruence|done].
Qed.

(** A loop that adds the addresses [P r] of every range of [s] to the output. *)
Lemma fold_spec (f : address_set -> address_range -> address_set) (P : address_range -> address -> Prop) :
  (forall out r, canonical out -> valid r ->
     canonical (f out r) /\ (forall x, in_set (f out r) x <-> in_set out x \/ P r x)) ->
  forall s out, canonical out -> Forall valid s ->
  canonical (fold_left f s out) /\
  (forall x, in_set (fold_left f s out) x <-> in_set out x \/ exists r, In r s /\ P r x).
Proof.
  intros Hf. induction s as [|r s IH]; cbn [fold_left]; intros out Hc Hv.
  - split; [done|]. intros x. split; [tauto|]. intros [|(r & [] & _)]; done.
  - inversion Hv; subst. destruct (Hf out r) as [Hc' Hin]; [done..|].
    destruct (IH (f out r) Hc') as [Hc'' Hin']; [done|]. split; [done|].
    intros x. rewrite Hin', Hin. split.
    + intros [[|]|(y & ? & ?)]; [by left|right; exists r; by split; [left|]|right; exists y; by split; [right|]].
    + intros [|(y & [-> |] & ?)]; [by left; left|left; by right|right; by exists y].
Qed.

Lemma subtract_spec (s other : address_set) : canonical s -> canonical other ->
  canonical (subtract s other) /\ (forall a, in_set (subtract s other) a <-> in_set s a /\ ~ in_set other a).
Proof.
  intros [Hv _] [Hvo _]. unfold subtract.
  destruct (fold_spec (subtract_range other) (fun r x => in_range r x /\ ~ in_set other x)) with (s := s) (out := empty_set)
    as [Hc Hin]; [intros; by apply subtract_range_spec|apply canonical_nil|done|].
  split; [done|]. intros a. rewrite Hin. unfold in_set at 2. split.
  - intros [H|(r & ? & ? & ?)]; [by apply in_set_nil in H|]. split; [by exists r|done].
  - intros [(r & ? & ?) ?]. right. by exists r.
Qed.

Lemma intersect_sets (s other : address_set) : canonical s -> canonical other ->
  canonical (intersect s other) /\ forall a, in_set (intersect s other) a <-> in_set s a /\ in_set other a.
Proof.
  intros [Hvs _] [Hvo _]. unfold intersect.
  destruct (fold_spec (fun out a => fold_left (fun out b => intersect_range a b out) other out)
             (fun r x => in_range r x /\ in_set other x)) with (s := s) (out := empty_set) as [Hc Hin];
    [|apply canonical_nil|done|].
  + intros out r Hco Hr. destruct (intersect_one r other out) as [Hc Hin]; [done..|].
    split; [done|]. intros x. rewrite Hin. tauto.
  + split; [done|]. intros a. rewrite Hin. unfold in_set at 2. split.
    * intros [H|(r & ? & ? & ?)]; [by apply in_set_nil in H|]. split; [by exists r|done].
    * intros [(r & ? & ?) ?]. right. by exists r.
Qed.

(** [C31] Adding a range to a canonical set gives a canonical set of exactly the old addresses and
    those of the range. *)
Theorem add_range_spec (s : address_set) (sp mn mx : Z) :
  canonical s -> 0 <= mn <= mx -> mx < 2 ^ 64 ->
  canonical (add_range s sp mn mx) /\
  (forall a, in_set (add_range s sp mn mx) a <-> in_range (AR sp mn mx) a \/ in_set s a).
Proof. apply add_range_adds. Qed.

(** [C32] The set operations on canonical sets give canonical sets of the right addresses: union
    (and [extend]), intersection, difference and symmetric difference. *)
Theorem algebra_spec (s other : address_set) : canonical s -> canonical other ->
  (canonical (union s other) /\ forall a, in_set (union s other) a <-> in_set s a \/ in_set other a) /\
  (canonical (intersect s other) /\ forall a, in_set (intersect s other) a <-> in_set s a /\ in_set other a) /\
  (canonical (subtract s other) /\ forall a, in_set (subtract s other) a <-> in_set s a /\ ~ in_set other a) /\
  (canonical (xor s other) /\ forall a, in_set (xor s other) a <->
     (in_set s a /\ ~ in_set other a) \/ (in_set other a /\ ~ in_set s a)).
Proof.
  intros Hs Ho. pose proof Hs as [Hvs _]. pose proof Ho as [Hvo _].
  split; [by apply extend_spec|]. split; [|split; [by apply subtract_spec|]].
  - by apply intersect_sets.
  - unfold xor, union. destruct (subtract_spec s other) as [Hc1 Hin1]; [done..|].
    destruct (subtract_spec other s) as [[Hv2 Hs2] Hin2]; [done..|].
    destruct (extend_spec (subtract other s) (subtract s other)) as [Hc Hin]; [done..|].
    split; [done|]. intros a. rewrite Hin, Hin1, Hin2. done.
Qed.

(** ** Canonical sets are unique *)

Lemma sep_disjoint (r : address_range) (s : address_set) (a : address) : Forall (sep r) s -> valid r ->
  in_range r a -> ~ in_set s a.
Proof.
  rewrite Forall_forall. intros Hs Hr [? ?] (x & Hx & ? & ?). specialize (Hs x Hx). unfold sep, valid in *. lia.
Qed.

(** The first range of a canonical set is determined by its addresses. *)
Lemma head_unique (r1 r2 : address_range) (s1 s2 : address_set) :
  canonical (r1 :: s1) -> canonical (r2 :: s2) ->
  (forall a, in_set (r1 :: s1) a -> in_set (r2 :: s2) a) ->
  space r2 < space r1 \/ (space r2 = space r1 /\ rmin r2 <= rmin r1 /\ 
     (rmin r1 <= rmax r2 -> rmax r1 <= rmax r2)).
Proof.
  intros H1 H2 Hin. apply canonical_cons in H1 as (Hv1 & Hs1 & _). apply canonical_cons in H2 as (Hv2 & Hs2 & _).
  rewrite Forall_forall in Hs2. unfold valid in *.
  assert (Hcase : forall off, rmin r1 <= off <= rmax r1 ->
    (space r2 = space r1 /\ rmin r2 <= off <= rmax r2) \/
    exists x, sep r2 x /\ space x = space r1 /\ rmin x <= off <= rmax x).
  { intros off Hoff. destruct (Hin (Addr (space r1) off)) as (x & [<- | Hx] & Hsp & Hx2);
      [exists r1; split; [by left|by split]|by left|right; exists x; by split; [apply Hs2|]]. }
  destruct (Hcase (rmin r1)) as [[E Hr]|(x & Hx & Ex & Hr)]; [lia| |unfold sep in Hx; lia].
  right. split; [done|]. split; [lia|]. intros _.
  destruct (Z.le_gt_cases (rmax r1) (rmax r2)); [done|]. exfalso.
  destruct (Hcase (rmax r2 + 1)) as [[_ Hr']|(x & Hx & Ex & Hr')]; [lia|lia|unfold sep in Hx; lia].
Qed.

(** Two canonical sets have the same addresses exactly when they are equal, so
    [has_same_addresses] decides equality of the address sets. *)
Theorem has_same_addresses_spec (s other : address_set) : canonical s -> canonical other ->
  has_same_addresses s other = true <-> (forall a, contains s a = contains other a).
Proof.
  intros Hs Ho. unfold has_same_addresses. rewrite bool_decide_eq_true. split; [by intros ->|].
  assert (forall s t a, contains s a = contains t a <-> (in_set s a <-> in_set t a)) as Hc.
  { intros. rewrite <- !contains_in_set. destruct (contains s0 a), (contains t a); intuition congruence. }
  intros H. assert (forall a, in_set s a <-> in_set other a) as Hin by (intros; by apply Hc). clear H Hc.
  revert other Ho Hin. induction s as [|r s IH]; intros other Ho Hin.
  - destruct other as [|r other]; [done|]. apply canonical_cons in Ho as ([? ?] & _ & _).
    destruct (in_set_nil (Addr (space r) (rmin r))). apply Hin. apply in_set_cons. left. by split; cbn; [|lia].
  - destruct other as [|r' other].
    { apply canonical_cons in Hs as ([? ?] & _ & _).
      destruct (in_set_nil (Addr (space r) (rmin r))). apply Hin. apply in_set_cons. left. by split; cbn; [|lia]. }
    pose proof (head_unique r r' s other Hs Ho (fun a => proj1 (Hin a))) as H1.
    pose proof (head_unique r' r other s Ho Hs (fun a => proj2 (Hin a))) as H2.
    apply canonical_cons in Hs as (Hv & Hsep & Hs). apply canonical_cons in Ho as (Hv' & Hsep' & Ho).
    assert (r = r') as <-.
    { unfold valid in *. destruct r, r'; cbn in *. f_equal; lia. }
    f_equal. apply IH; [done..|]. intros a. specialize (Hin a). rewrite !in_set_cons in Hin.
    pose proof (sep_disjoint r s a Hsep Hv). pose proof (sep_disjoint r other a Hsep' Hv). tauto.
Qed.

(** The two-pointer merge [intersects] answers whether some address is in both sets. *)
Theorem intersects_spec (s other : address_set) : canonical s -> canonical other ->
  intersects s other = true <-> exists a, in_set s a /\ in_set other a.
Proof.
  revert other. induction s as [|r s IH]; intros other Hs Ho.
  - destruct other as [|r0 other0]; cbn; (split; [done|]); intros (a & H & _); by apply in_set_nil in H.
  - induction other as [|r' other IHo].
    + cbn. split; [done|]. intros (a & _ & H). by apply in_set_nil in H.
    + cbn [intersects]. pose proof Hs as Hs0. pose proof Ho as Ho0.
      apply canonical_cons in Hs as (Hv & Hsep & Hs). apply canonical_cons in Ho as (Hv' & Hsep' & Ho).
      rewrite Forall_forall in Hsep, Hsep'. unfold valid in *.
      destruct (key_lt (space r, rmax r) (space r', rmin r')) eqn:E1; [|destruct (key_lt (space r', rmax r') (space r, rmin r)) eqn:E2].
      * apply key_lt_spec in E1. cbn in E1. rewrite IH by done. split; intros (a & H1 & H2).
        { exists a. rewrite in_set_cons. tauto. }
        exists a. split; [|done]. apply in_set_cons in H1 as [[? ?]|]; [|done]. exfalso.
        apply in_set_cons in H2 as [[? ?]|(x & Hx & ? & ?)]; [lia|]. specialize (Hsep' x Hx). unfold sep in *. lia.
      * apply key_lt_spec in E2. cbn in E2. change (_ <-> _) with
          (intersects (r :: s) other = true <-> exists a, in_set (r :: s) a /\ in_set (r' :: other) a).
        rewrite IHo by done. split; intros (a & H1 & H2).
        { exists a. rewrite (in_set_cons r'). tauto. }
        exists a. split; [done|]. apply in_set_cons in H2 as [[? ?]|]; [|done]. exfalso.
        apply in_set_cons in H1 as [[? ?]|(x & Hx & ? & ?)]; [lia|]. specialize (Hsep x Hx). unfold sep in *. lia.
      * assert (~ (space r < space r' \/ space r = space r' /\ rmax r < rmin r')) as N1
          by (intros H; apply (key_lt_spec (space r, rmax r) (space r', rmin r')) in H; congruence).
        assert (~ (space r' < space r \/ space r' = space r /\ rmax r' < rmin r)) as N2
          by (intros H; apply (key_lt_spec (space r', rmax r') (space r, rmin r)) in H; congruence).
        split; [intros _|done]. exists (Addr (space r) (Z.max (rmin r) (rmin r'))).
        rewrite !in_set_cons. unfold in_range. cbn. split; left; lia.
Qed.

(** ** Queries *)

(** The addresses of a set, one by one. *)
Definition elements (s : address_set) : list address :=
  flat_map (fun r => map (Addr (space r)) (seqZ (rmin r) (rmax r - rmin r + 1))) s.

Lemma in_range_elements (r : address_range) (a : address) :
  In a (map (Addr (space r)) (seqZ (rmin r) (rmax r - rmin r + 1))) <-> in_range r a.
Proof.
  rewrite in_map_iff. unfold in_range. split.
  - intros (z & <- & Hz). apply list_elem_of_In, elem_of_seqZ in Hz. cbn. lia.
  - intros [Hs Hz]. exists (a_offset a). split; [destruct a; cbn in *; by subst|].
    apply list_elem_of_In, elem_of_seqZ. lia.
Qed.

Lemma in_elements (s : address_set) (a : address) : In a (elements s) <-> in_set s a.
Proof.
  unfold elements, in_set. rewrite in_flat_map.
  split; intros (r & Hr & Ha); exists r; (split; [done|]); by apply in_range_elements.
Qed.

Lemma elements_NoDup (s : address_set) : canonical s -> List.NoDup (elements s).
Proof.
  induction s as [|r s IH]; cbn; intros Hc; [constructor|].
  apply canonical_cons in Hc as (Hv & Hs & Hc). apply List.NoDup_app.
  - apply NoDup_ListNoDup, NoDup_fmap_2; [intros x y; congruence|apply NoDup_seqZ].
  - by apply IH.
  - intros a Ha Hin. apply in_range_elements in Ha. apply in_elements in Hin.
    by apply (sep_disjoint r s a).
Qed.

Lemma length_exact (r : address_range) : valid r -> length r = w64 (rmax r - rmin r + 1).
Proof. intros Hv. unfold length. by wsimpl. Qed.

Lemma num_addresses_acc (s : address_set) (n : Z) : Forall valid s -> n = w64 n ->
  fold_left (fun n r => u64_add n (length r)) s n = w64 (n + Z.of_nat (List.length (elements s))).
Proof.
  revert n. induction s as [|r s IH]; intros n Hv Hn; cbn [fold_left elements flat_map List.length].
  - by rewrite Z.add_0_r.
  - inversion Hv as [|? ? Hr Hvs]; subst.
    rewrite IH; [|done|unfold u64_add; by rewrite w64_w64].
    rewrite length_exact by done. fold (elements s). rewrite length_app, length_map, length_seqZ.
    unfold valid in Hr. wsimpl. f_equal. lia.
Qed.

Definition address_le (a b : address) : Prop :=
  a_space a < a_space b \/ (a_space a = a_space b /\ a_offset a <= a_offset b).

(** [num_addresses] is the number of addresses of a canonical set, modulo [2^64];
    [min_address] and [max_address] are its least and greatest addresses, [None] when empty. *)
Theorem queries_spec (s : address_set) (l : list address) : canonical s ->
  List.NoDup l -> (forall a, In a l <-> contains s a = true) ->
  num_addresses s = w64 (Z.of_nat (List.length l)) /\
  match min_address s, max_address s with
  | Some mn, Some mx => in_set s mn /\ in_set s mx /\
      forall a, in_set s a -> address_le mn a /\ address_le a mx
  | None, None => l = []
  | _, _ => False
  end.
Proof.
  intros Hc Hnd Hl. assert (forall a, In a l <-> In a (elements s)) as Hle
    by (intros; by rewrite Hl, contains_in_set, in_elements).
  split.
  - unfold num_addresses. rewrite num_addresses_acc by (apply Hc || done). cbn [Z.add].
    rewrite Z.add_0_l. do 2 f_equal.
    apply Permutation_length, Permutation.NoDup_Permutation; [by apply elements_NoDup|done|by intros].
  - clear Hnd Hl. unfold min_address, max_address. destruct s as [|r s].
    { cbn. destruct l as [|a l]; [done|]. exfalso. by apply (Hle a); left. }
    destruct (@exists_last _ (r :: s) ltac:(discriminate)) as (s' & r' & E).
    assert (nth_error (r :: s) (Nat.pred (List.length (r :: s))) = Some r') as ->.
    { rewrite E, length_app. cbn [List.length]. rewrite nth_error_app2 by lia.
      by replace (Nat.pred (List.length s' + 1) - List.length s')%nat with 0%nat by lia. }
    pose proof Hc as Hc'. rewrite E in Hc'. apply canonical_app in Hc' as (_ & Hr' & Hlast).
    apply canonical_cons in Hr' as (Hv' & _ & _). apply canonical_cons in Hc as (Hv & Hsep & _).
    unfold valid in *. rewrite Forall_forall in Hsep, Hlast.
    split; [exists r; split; [by left|split; cbn; lia]|].
    split; [exists r'; split; [rewrite E; apply in_app_iff; right; by left|split; cbn; lia]|].
    intros a (x & Hx & Hxs & Hxa). unfold address_le. cbn. split.
    + destruct Hx as [<- | Hx]; [lia|]. specialize (Hsep x Hx). unfold sep in Hsep. lia.
    + rewrite E in Hx. apply in_app_iff in Hx as [Hx|[<- | []]]; [|lia].
      specialize (Hlast x Hx). inversion Hlast as [|? ? Hs _]; subst. unfold sep in Hs. lia.
Qed.

(** * The theorems at work *)

Ltac canon := split; repeat constructor; unfold sep; cbn; lia.

Lemma add_range_spec_witness :
  canonical [AR 1 0 30; AR 2 0 5] /\ in_set [AR 1 0 30; AR 2 0 5] (Addr 1 15).
Proof.
  destruct (add_range_spec [AR 1 0 10; AR 1 20 30; AR 2 0 5] 1 11 19) as [H Hin]; [canon|lia|lia|].
  split; [exact H|]. apply Hin. left. unfold in_range. cbn. lia.
Defined.

Lemma algebra_spec_witness :
  canonical [AR 1 0 4; AR 1 26 30] /\ in_set [AR 1 0 4; AR 1 11 19; AR 1 26 30] (Addr 1 12).
Proof.
  destruct (algebra_spec [AR 1 0 10; AR 1 20 30] [AR 1 5 25]) as (_ & _ & [H _] & [_ Hx]); [canon|canon|].
  split; [exact H|]. apply Hx. right. split.
  - exists (AR 1 5 25). split; [by left|unfold in_range; cbn; lia].
  - rewrite <- contains_in_set. discriminate.
Defined.

Lemma has_same_addresses_spec_witness :
  contains (union [AR 1 0 3] [AR 1 4 7]) (Addr 1 5) = contains [AR 1 0 7] (Addr 1 5).
Proof.
  apply (has_same_addresses_spec (union [AR 1 0 3] [AR 1 4 7]) [AR 1 0 7]); [|canon|reflexivity].
  change (canonical [AR 1 0 7]). canon.
Defined.

Lemma intersects_spec_witness :
  exists a, in_set [AR 1 0 3; AR 2 10 20] a /\ in_set [AR 1 5 9; AR 2 20 25] a.
Proof. apply (intersects_spec [AR 1 0 3; AR 2 10 20] [AR 1 5 9; AR 2 20 25]); [canon|canon|reflexivity]. Defined.

Lemma queries_spec_witness :
  num_addresses [AR 1 2 3; AR 2 7 7] = 3 /\ in_set [AR 1 2 3; AR 2 7 7] (Addr 1 2).
Proof.
  destruct (queries_spec [AR 1 2 3; AR 2 7 7] [Addr 1 2; Addr 1 3; Addr 2 7]) as [H Hm]; [canon| | |].
  - repeat constructor; cbn; intuition discriminate.
  - intros a. rewrite contains_in_set, <- in_elements. reflexivity.
  - split; [exact H|]. apply Hm.
Defined.
