(* ===== verification/Pcode.v ===== *)
(** [sleigh/pcode.rs]: the lifted p-code operations and their normalized text. *)
From Stdlib Require Import ZArith Lia Bool List String Ascii.
From stdpp Require Import base decidable strings pretty tactics.
From S2P Require Import Prelude OpCode.
Local Open Scope Z_scope.

Record varnode := VN { vn_space : string; vn_offset : Z; vn_size : Z }.

#[export] Instance varnode_eq_dec : EqDecision varnode.
Proof. solve_decision. Defined.

Inductive parg := PVar (v : varnode) | PSpace (name : string).

Inductive branch_dest := Other | Start | Next.

Record pcode_op := POP { po_opcode : Z; po_out : option varnode; po_ins : list parg; po_dest : branch_dest }.

(** [{:#x}] of a [u64] *)
Definition hex_digit (d : Z) : ascii :=
  nth (Z.to_nat d) ["0";"1";"2";"3";"4";"5";"6";"7";"8";"9";"a";"b";"c";"d";"e";"f"]%char "0"%char.

Fixpoint hex_loop (fuel : nat) (n : Z) (acc : string) : string :=
  match fuel with
  | O => acc
  | S fuel =>
      let acc := String (hex_digit (n mod 16)) acc in
      if n <? 16 then acc else hex_loop fuel (n / 16) acc
  end.

Definition hex (n : Z) : string := ("0x" ++ hex_loop 16 n "")%string.

Definition render_varnode (v : varnode) : string :=
  ("(" ++ vn_space v ++ "," ++ hex (vn_offset v) ++ "," ++ pretty (Z.to_N (vn_size v)) ++ ")")%string.

Definition is_const (v : varnode) : bool := String.eqb (vn_space v) "const".

Definition render_arg (a : parg) : string :=
  match a with
  | PVar v => render_varnode v
  | PSpace name => ("(space," ++ name ++ ")")%string
  end.

Definition as_var (a : parg) : option varnode :=
  match a with PVar v => Some v | PSpace _ => None end.

Definition op_name (op : pcode_op) : string := opcode_name (po_opcode op).

Definition render (op : pcode_op) : string :=
  let s := match po_out op with
           | Some out => (render_varnode out ++ " = ")%string
           | None => EmptyString
           end in
  fold_left (fun s a => (s ++ " " ++ render_arg a)%string) (po_ins op) (s ++ op_name op)%string.
