(* ===== verification/M68kAlu.v ===== *)
(** The arithmetic of the 68000 state modifier, [sleigh/emu_m68k.rs]: the decimal adjusts behind
    [abcd], [sbcd] and [nbcd], and the shifts and rotates with their flags.  A [u8] and a [u64] are
    [Z]s in their range. *)
From Stdlib Require Import ZArith Lia Bool List.
From stdpp Require Import base decidable tactics.
From S2P Require Import Prelude.
Local Open Scope Z_scope.

Inductive shift_kind := Arithmetic | Logical | RotateExtended | Rotate.

#[export] Instance shift_kind_eq_dec : EqDecision shift_kind.
Proof. solve_decision. Defined.

Record shifted := Shifted { sh_value : Z; sh_x : option bool; sh_overflow : bool; sh_carry : bool }.

Record decimal := Decimal { dec_value : Z; dec_carry : bool; dec_overflow : bool }.

(** [overflowing_add]/[overflowing_sub] on [u8] *)
Definition u8_overflowing_add (a b : Z) : Z * bool := (w8 (a + b), 256 <=? a + b).
Definition u8_overflowing_sub (a b : Z) : Z * bool := (w8 (a - b), a - b <? 0).

Definition u8_not (a : Z) : Z := w8 (Z.lnot a).

(** [dst + src + x] in decimal *)
Definition bcd_add (dst src : Z) (x : bool) : decimal :=
  let low := w8 (w8 (Z.land dst 15 + Z.land src 15) + u64_of_bool x) in
  let correction := if 10 <=? low then 6 else 0 in
  let threshold := if negb (correction =? 0) then 154 else 160 in
  let '(sum, c1) := u8_overflowing_add dst src in
  let '(sum, c2) := u8_overflowing_add sum (u64_of_bool x) in
  let carry := c1 || c2 in
  let '(carry, correction) :=
    if carry || (threshold <=? sum) then (true, Z.lor correction 96) else (carry, correction) in
  let '(value, c3) := u8_overflowing_add sum correction in
  Decimal value (carry || c3) (negb (Z.land (Z.land (u8_not sum) value) 128 =? 0)).

(** [dst - src - x] in decimal *)
Definition bcd_sub (dst src : Z) (x : bool) : decimal :=
  let low := w8 (w8 (Z.land dst 15 - Z.land src 15) - u64_of_bool x) in
  let correction := if 16 <=? low then 6 else 0 in
  let '(diff, b1) := u8_overflowing_sub dst src in
  let '(diff, b2) := u8_overflowing_sub diff (u64_of_bool x) in
  let borrow := b1 || b2 in
  let correction := if borrow then Z.lor correction 96 else correction in
  let '(value, b3) := u8_overflowing_sub diff correction in
  Decimal value (borrow || b3) (negb (Z.land (Z.land diff (u8_not value)) 128 =? 0)).

(** the stored byte, and the flags: X and C, V, N, result non-zero *)
Definition nbcd_adjust (tmp : Z) (x : bool) : Z * (bool * bool * bool * bool) :=
  let d := w8 (w8 (- w8 tmp) - u64_of_bool x) in
  let r := bcd_sub 0 d x in
  (dec_value r,
   (dec_carry r, dec_overflow r, negb (Z.land (dec_value r) 128 =? 0), negb (dec_value r =? 0))).

Definition bit_set (z : Z) : bool := negb (z =? 0).

(** the low [bits] of [value] shifted or rotated by [n] *)
Definition shift (kind : shift_kind) (left : bool) (bits value n : Z) (x : bool) : shifted :=
  let mask := u64_shl 1 bits - 1 in
  let v := Z.land value mask in
  let msb r := bit_set (Z.land (u64_shr r (bits - 1)) 1) in
  if n =? 0 then
    Shifted v None false (bool_decide (kind = RotateExtended) && x)
  else
    match kind, left with
    | Arithmetic, true | Logical, true =>
        let value := if n <? bits then Z.land (u64_shl v n) mask else 0 in
        let carry := (n <=? bits) && bit_set (Z.land (u64_shr v (bits - n)) 1) in
        let overflow :=
          bool_decide (kind = Arithmetic)
          && (if bits <=? n then negb (v =? 0)
              else
                let top := u64_shr v (bits - n - 1) in
                negb (top =? 0) && negb (top =? u64_shl 1 (n + 1) - 1)) in
        Shifted value (Some carry) overflow carry
    | Logical, false =>
        let value := if n <? bits then u64_shr v n else 0 in
        let carry := (n <=? bits) && bit_set (Z.land (u64_shr v (n - 1)) 1) in
        Shifted value (Some carry) false carry
    | Arithmetic, false =>
        let signed := i64_shr (i64 (u64_shl v (64 - bits))) (64 - bits) in
        let value := Z.land (w64 (i64_shr signed (Z.min n bits))) mask in
        let carry := if n <=? bits then bit_set (Z.land (i64_shr signed (n - 1)) 1) else msb v in
        Shifted value (Some carry) false carry
    | Rotate, _ =>
        let k := n mod bits in
        let value :=
          if k =? 0 then v
          else if left then Z.land (Z.lor (u64_shl v k) (u64_shr v (bits - k))) mask
          else Z.land (Z.lor (u64_shr v k) (u64_shl v (bits - k))) mask in
        let carry := if left then bit_set (Z.land value 1) else msb value in
        Shifted value None false carry
    | RotateExtended, _ =>
        let width := bits + 1 in
        let k := n mod width in
        let all := Z.lor (u64_shl (u64_of_bool x) bits) v in
        let wide := u64_shl 1 width - 1 in
        let rotated :=
          if k =? 0 then all
          else if left then Z.land (Z.lor (u64_shl all k) (u64_shr all (width - k))) wide
          else Z.land (Z.lor (u64_shr all k) (u64_shl all (width - k))) wide in
        let carry := bit_set (u64_shr rotated bits) in
        Shifted (Z.land rotated mask) (Some carry) false carry
    end.

(** ** Reference definitions

    What the two routines compute, digit by digit and bit by bit. *)

(** The byte that spells the number [n < 100] in binary-coded decimal. *)
Definition to_bcd (n : Z) : Z := 16 * (n / 10) + n mod 10.

(** The state of a shift in progress: the value, X, C and V. *)
Record shift_state := SS { ss_v : Z; ss_x : bool; ss_c : bool; ss_o : bool }.

(** One position: the bit shifted in, the bit shifted out into C (and X, unless rotating without
    it), V when an arithmetic left shift changes the sign. *)
Definition shift_one (kind : shift_kind) (left : bool) (bits : Z) (s : shift_state) : shift_state :=
  let top := Z.testbit (ss_v s) (bits - 1) in
  let low := Z.testbit (ss_v s) 0 in
  let inbit :=
    match kind with
    | Logical => false
    | Arithmetic => negb left && top
    | Rotate => if left then top else low
    | RotateExtended => ss_x s
    end in
  let out := if left then top else low in
  let v' := if left then (2 * ss_v s + Z.b2z inbit) mod 2 ^ bits
            else ss_v s / 2 + Z.b2z inbit * 2 ^ (bits - 1) in
  SS v' (if bool_decide (kind = Rotate) then ss_x s else out) out
     (ss_o s || (bool_decide (kind = Arithmetic) && left && negb (eqb top (Z.testbit v' (bits - 1))))).

Fixpoint shift_iter (kind : shift_kind) (left : bool) (bits : Z) (n : nat) (s : shift_state) : shift_state :=
  match n with
  | O => s
  | S n => shift_one kind left bits (shift_iter kind left bits n s)
  end.

(** * The decimal adjusts *)

Lemma to_bcd_digits (n : Z) : 0 <= n < 100 ->
  exists h l, 0 <= h <= 9 /\ 0 <= l <= 9 /\ n = 10 * h + l /\ to_bcd n = 16 * h + l.
Proof.
  intros Hn. exists (n / 10), (n mod 10). unfold to_bcd.
  pose proof (Z.mod_pos_bound n 10). pose proof (Z.div_mod n 10). lia.
Qed.

Lemma to_bcd_make (h l : Z) : 0 <= h <= 9 -> 0 <= l <= 9 -> to_bcd (10 * h + l) = 16 * h + l.
Proof.
  intros Hh Hl. unfold to_bcd.
  assert ((10 * h + l) / 10 = h) as -> by (symmetry; apply (Z.div_unique _ _ _ l); lia).
  assert ((10 * h + l) mod 10 = l) as -> by (symmetry; apply (Z.mod_unique_pos _ _ h); lia). done.
Qed.

Lemma low_digit (h l : Z) : 0 <= h -> 0 <= l <= 15 -> Z.land (16 * h + l) 15 = l.
Proof.
  intros Hh Hl. change 15 with (Z.ones 4). rewrite Z.land_ones by lia.
  symmetry. apply (Z.mod_unique_pos _ _ h); lia.
Qed.

Lemma w8_cases (z : Z) : -256 <= z < 512 ->
  w8 z = if z <? 0 then z + 256 else if z <? 256 then z else z - 256.
Proof. intros. unfold w8. cmp; modcase z 256; lia. Qed.

(** Two chained byte additions carry when the whole sum does. *)
Lemma chained_add (a b c : Z) : 0 <= a < 256 -> 0 <= b < 256 -> 0 <= c <= 1 ->
  w8 (w8 (a + b) + c) = (if a + b + c <? 256 then a + b + c else a + b + c - 256) /\
  ((256 <=? a + b) || (256 <=? w8 (a + b) + c)) = (256 <=? a + b + c).
Proof.
  intros. rewrite (w8_cases (a + b)) by lia.
  destruct (Z.ltb_spec (a + b) 0), (Z.ltb_spec (a + b) 256); try lia;
    rewrite w8_cases by lia; (split; [cmp; lia|cmp; cbn; (done || lia)]).
Qed.

Lemma chained_sub (a b c : Z) : 0 <= a < 256 -> 0 <= b < 256 -> 0 <= c <= 1 ->
  w8 (w8 (a - b) - c) = (if a - b - c <? 0 then a - b - c + 256 else a - b - c) /\
  ((a - b <? 0) || (w8 (a - b) - c <? 0)) = (a - b - c <? 0).
Proof.
  intros. rewrite (w8_cases (a - b)) by lia.
  destruct (Z.ltb_spec (a - b) 0), (Z.ltb_spec (a - b) 256); try lia;
    rewrite w8_cases by lia; (split; [cmp; lia|cmp; cbn; (done || lia)]).
Qed.

Lemma to_bcd_is (k h l : Z) : 0 <= h <= 9 -> 0 <= l <= 9 -> k = 10 * h + l -> to_bcd k = 16 * h + l.
Proof. intros ? ? ->. by apply to_bcd_make. Qed.

Ltac bcd_digits a1 b1 l :=
  first [rewrite (to_bcd_is _ (a1 + b1) l) by lia; cmp; lia
        |rewrite (to_bcd_is _ (a1 + b1 - 10) l) by lia; cmp; lia
        |rewrite (to_bcd_is _ (a1 + b1 + 1) (l - 10)) by lia; cmp; lia
        |rewrite (to_bcd_is _ (a1 + b1 + 1 - 10) (l - 10)) by lia; cmp; lia].

Ltac bcd_digits_sub a1 b1 l :=
  first [rewrite (to_bcd_is _ (a1 - b1) l) by lia; cmp; lia
        |rewrite (to_bcd_is _ (a1 - b1 + 10) l) by lia; cmp; lia
        |rewrite (to_bcd_is _ (a1 - b1 - 1) (l + 10)) by lia; cmp; lia
        |rewrite (to_bcd_is _ (a1 - b1 - 1 + 10) (l + 10)) by lia; cmp; lia].

Lemma bcd_add_digits (a1 a0 b1 b0 : Z) (x : bool) :
  0 <= a1 <= 9 -> 0 <= a0 <= 9 -> 0 <= b1 <= 9 -> 0 <= b0 <= 9 ->
  let t := 10 * a1 + a0 + (10 * b1 + b0) + u64_of_bool x in
  let r := bcd_add (16 * a1 + a0) (16 * b1 + b0) x in
  dec_value r = to_bcd (if 100 <=? t then t - 100 else t) /\ dec_carry r = (100 <=? t).
Proof.
  intros. unfold t, r, bcd_add, u8_overflowing_add. rewrite !low_digit by lia.
  set (c := u64_of_bool x). assert (0 <= c <= 1) by (destruct x; cbn; lia).
  destruct (chained_add a0 b0 c) as [-> _]; [lia..|].
  destruct (chained_add (16 * a1 + a0) (16 * b1 + b0) c) as [-> ->]; [lia..|].
  destruct (Z.ltb_spec (a0 + b0 + c) 256); [|lia].
  destruct (Z.leb_spec 10 (a0 + b0 + c)) as [Hlow|Hlow]; cbn [Z.eqb negb];
    destruct (Z.leb_spec 256 (16 * a1 + a0 + (16 * b1 + b0) + c)), (Z.ltb_spec (16 * a1 + a0 + (16 * b1 + b0) + c) 256);
    try lia; cbn [orb];
    [|destruct (Z.leb_spec 154 (16 * a1 + a0 + (16 * b1 + b0) + c))| |
      destruct (Z.leb_spec 160 (16 * a1 + a0 + (16 * b1 + b0) + c))];
    cbn [orb dec_value dec_carry]; change (Z.lor 6 96) with 102; change (Z.lor 0 96) with 96;
    (rewrite w8_cases by lia); (split; [|cmp; cbn [orb]; (done || lia)]);
    destruct (Z.leb_spec 100 (10 * a1 + a0 + (10 * b1 + b0) + c)); try lia;
    bcd_digits a1 b1 (a0 + b0 + c).
Qed.

Lemma bcd_sub_digits (a1 a0 b1 b0 : Z) (x : bool) :
  0 <= a1 <= 9 -> 0 <= a0 <= 9 -> 0 <= b1 <= 9 -> 0 <= b0 <= 9 ->
  let t := 10 * a1 + a0 - (10 * b1 + b0) - u64_of_bool x in
  let r := bcd_sub (16 * a1 + a0) (16 * b1 + b0) x in
  dec_value r = to_bcd (if t <? 0 then t + 100 else t) /\ dec_carry r = (t <? 0).
Proof.
  intros. unfold t, r, bcd_sub, u8_overflowing_sub. rewrite !low_digit by lia.
  set (c := u64_of_bool x). assert (0 <= c <= 1) by (destruct x; cbn; lia).
  destruct (chained_sub a0 b0 c) as [-> _]; [lia..|].
  destruct (chained_sub (16 * a1 + a0) (16 * b1 + b0) c) as [-> ->]; [lia..|].
  destruct (Z.ltb_spec (a0 - b0 - c) 0) as [Hlow|Hlow];
    [destruct (Z.leb_spec 16 (a0 - b0 - c + 256)); [|lia]|destruct (Z.leb_spec 16 (a0 - b0 - c)); [lia|]];
    destruct (Z.ltb_spec (16 * a1 + a0 - (16 * b1 + b0) - c) 0);
    cbn [orb dec_value dec_carry]; change (Z.lor 6 96) with 102; change (Z.lor 0 96) with 96;
    (rewrite w8_cases by lia); (split; [|cmp; cbn [orb]; (done || lia)]);
    destruct (Z.ltb_spec (10 * a1 + a0 - (10 * b1 + b0) - c) 0); try lia;
    bcd_digits_sub a1 b1 (a0 - b0 - c).
Qed.

(** On binary-coded decimal bytes [bcd_add] and [bcd_sub] add and subtract modulo 100 with
    the decimal carry or borrow, and the adjust inside [nbcd] recovers its operand and negates it. *)
Theorem bcd_correct (a b : Z) (x : bool) : 0 <= a < 100 -> 0 <= b < 100 ->
  (dec_value (bcd_add (to_bcd a) (to_bcd b) x) = to_bcd ((a + b + u64_of_bool x) mod 100) /\
   dec_carry (bcd_add (to_bcd a) (to_bcd b) x) = (100 <=? a + b + u64_of_bool x)) /\
  (dec_value (bcd_sub (to_bcd a) (to_bcd b) x) = to_bcd ((a - b - u64_of_bool x) mod 100) /\
   dec_carry (bcd_sub (to_bcd a) (to_bcd b) x) = (a - b - u64_of_bool x <? 0)) /\
  fst (nbcd_adjust (w64 (0 - to_bcd b - u64_of_bool x)) x) = to_bcd ((0 - b - u64_of_bool x) mod 100).
Proof.
  intros Ha Hb. destruct (to_bcd_digits a Ha) as (a1 & a0 & ? & ? & -> & ->).
  destruct (to_bcd_digits b Hb) as (b1 & b0 & ? & ? & -> & ->).
  assert (0 <= u64_of_bool x <= 1) by (destruct x; cbn; lia).
  destruct (bcd_add_digits a1 a0 b1 b0 x) as [Av Ac]; [lia..|].
  destruct (bcd_sub_digits a1 a0 b1 b0 x) as [Sv Sc]; [lia..|].
  destruct (bcd_sub_digits 0 0 b1 b0 x) as [Nv _]; [lia..|].
  split; [split; [rewrite Av|done]|split; [split; [rewrite Sv|done]|]].
  - f_equal. modcase (10 * a1 + a0 + (10 * b1 + b0) + u64_of_bool x) 100; cmp; lia.
  - f_equal. modcase (10 * a1 + a0 - (10 * b1 + b0) - u64_of_bool x) 100; cmp; lia.
  - unfold nbcd_adjust. cbn [fst].
    assert (w8 (w8 (- w8 (w64 (0 - (16 * b1 + b0) - u64_of_bool x))) - u64_of_bool x) = 16 * b1 + b0) as ->.
    { unfold w8, w64. rewrite Z.mod_mod_divide by (exists 72057594037927936; reflexivity).
      modcase (0 - (16 * b1 + b0) - u64_of_bool x) 256;
        match goal with |- ((- ?a) mod 256 - _) mod 256 = _ => modcase (- a) 256 end;
        match goal with |- ?a mod 256 = _ => modcase a 256 end; lia. }
    change (16 * 0 + 0) with 0 in Nv. rewrite Nv. f_equal.
    modcase (0 - (10 * b1 + b0) - u64_of_bool x) 100; cmp; lia.
Qed.

(** * Shifts and rotates *)

Lemma shl_bit (v k i : Z) : 0 <= k < 64 -> 0 <= i < 64 -> Z.testbit (u64_shl v k) i = Z.testbit v (i - k).
Proof.
  intros. unfold u64_shl, w64. change 18446744073709551616 with (2 ^ 64).
  rewrite (Z.mod_small k), Z.mod_pow2_bits_low, Z.shiftl_spec by lia. done.
Qed.

Lemma shr_bit (v k i : Z) : 0 <= k < 64 -> 0 <= i -> Z.testbit (u64_shr v k) i = Z.testbit v (i + k).
Proof. intros. unfold u64_shr. rewrite (Z.mod_small k), Z.shiftr_spec by lia. done. Qed.

Lemma bit_set_testbit (v : Z) : bit_set (Z.land v 1) = Z.testbit v 0.
Proof.
  unfold bit_set. change 1 with (Z.ones 1). rewrite Z.land_ones, <- Z.bit0_mod by lia.
  by destruct (Z.testbit v 0).
Qed.

Lemma shr_land_bit (v k : Z) : 0 <= k < 64 -> bit_set (Z.land (u64_shr v k) 1) = Z.testbit v k.
Proof. intros. rewrite bit_set_testbit, shr_bit by lia. done. Qed.

Lemma width_mask (bits : Z) : 0 <= bits < 64 -> u64_shl 1 bits - 1 = Z.ones bits.
Proof.
  intros. unfold u64_shl. rewrite Z.mod_small, Z.shiftl_mul_pow2 by lia.
  assert (2 ^ bits < 2 ^ 64) by (apply Z.pow_lt_mono_r; lia). pose proof (pow2_pos bits).
  rewrite w64_small, ones_pow by lia. lia.
Qed.

Lemma high_bit_false (v n i : Z) : 0 <= v < 2 ^ n -> 0 <= n <= i -> Z.testbit v i = false.
Proof.
  intros Hv Hi. rewrite <- (Z.mod_small v (2 ^ n)) by lia. apply Z.mod_pow2_bits_high. lia.
Qed.

(** Numbers of [n] bits are equal when their bits are. *)
Lemma bits_eq (n a b : Z) : 0 <= n -> 0 <= a < 2 ^ n -> 0 <= b < 2 ^ n ->
  (forall i, 0 <= i < n -> Z.testbit a i = Z.testbit b i) -> a = b.
Proof.
  intros Hn Ha Hb H. apply Z.bits_inj'. intros i Hi.
  destruct (Z.lt_ge_cases i n); [by apply H|].
  rewrite (high_bit_false a n i), (high_bit_false b n i) by lia. done.
Qed.

Lemma land_ones_range (z n : Z) : 0 <= n -> 0 <= Z.land z (Z.ones n) < 2 ^ n.
Proof. intros. rewrite Z.land_ones by lia. apply Z.mod_pos_bound, pow2_pos. lia. Qed.

Lemma land_ones_bit (z n i : Z) : 0 <= i < n -> Z.testbit (Z.land z (Z.ones n)) i = Z.testbit z i.
Proof. intros. rewrite Z.land_spec, Z.ones_spec_low by lia. apply andb_true_r. Qed.

(** One position to the left: bit [i] was bit [i - 1]. *)
Lemma step_left_bits (bits v : Z) (b : bool) : 1 <= bits -> 0 <= v < 2 ^ bits ->
  let v' := (2 * v + Z.b2z b) mod 2 ^ bits in
  0 <= v' < 2 ^ bits /\
  forall i, 0 <= i < bits -> Z.testbit v' i = if i =? 0 then b else Z.testbit v (i - 1).
Proof.
  intros Hb Hv v'. split; [apply Z.mod_pos_bound, pow2_pos; lia|]. intros i Hi. unfold v'.
  rewrite Z.mod_pow2_bits_low by lia. destruct (Z.eqb_spec i 0) as [->|].
  - rewrite Z.add_comm, Z.add_b2z_double_bit0. done.
  - replace i with (Z.succ (i - 1)) at 1 by lia.
    rewrite Z.testbit_succ_r by lia. done.
Qed.

(** One position to the right: bit [i] was bit [i + 1]. *)
Lemma step_right_bits (bits v : Z) (b : bool) : 1 <= bits -> 0 <= v < 2 ^ bits ->
  let v' := v / 2 + Z.b2z b * 2 ^ (bits - 1) in
  0 <= v' < 2 ^ bits /\
  forall i, 0 <= i < bits -> Z.testbit v' i = if i =? bits - 1 then b else Z.testbit v (i + 1).
Proof.
  intros Hb Hv v'. pose proof (pow2_pos (bits - 1) ltac:(lia)) as Hp.
  assert (2 ^ bits = 2 * 2 ^ (bits - 1)) as E by (rewrite <- Z.pow_succ_r by lia; f_equal; lia).
  assert (0 <= v / 2 < 2 ^ (bits - 1)) as Hh
    by (split; [apply Z.div_pos; lia|apply Z.div_lt_upper_bound; lia]).
  split; [unfold v'; destruct b; cbn [Z.b2z]; lia|]. intros i Hi. unfold v'.
  assert (v / 2 = Z.shiftr v 1) as Ed by (rewrite Z.shiftr_div_pow2; [done|lia]).
  destruct (Z.eqb_spec i (bits - 1)) as [->|].
  - rewrite Z.testbit_eqb by lia. rewrite Z.div_add, Z.div_small by lia. by destruct b.
  - rewrite <- (Z.mod_pow2_bits_low _ (bits - 1)) by lia.
    rewrite Z.mod_add, Z.mod_small, Ed, Z.shiftr_spec by lia. done.
Qed.

(** ** Closed forms of the iteration *)

(** Bit [i] after [n] positions; the extended rotate turns the value with X above its top bit. *)
Definition extended_bit (bits V : Z) (X : bool) (j : Z) : bool := if j =? bits then X else Z.testbit V j.

Definition bit_after (kind : shift_kind) (left : bool) (bits V : Z) (X : bool) (n i : Z) : bool :=
  match kind, left with
  | Arithmetic, true | Logical, true => Z.testbit V (i - n)
  | Logical, false => Z.testbit V (i + n)
  | Arithmetic, false => Z.testbit V (Z.min (i + n) (bits - 1))
  | Rotate, true => Z.testbit V ((i - n) mod bits)
  | Rotate, false => Z.testbit V ((i + n) mod bits)
  | RotateExtended, true => extended_bit bits V X ((i - n) mod (bits + 1))
  | RotateExtended, false => extended_bit bits V X ((i + n) mod (bits + 1))
  end.

(** The bit shifted out by the [n]-th position. *)
Definition out_bit (kind : shift_kind) (left : bool) (bits V : Z) (X : bool) (n : Z) : bool :=
  if left then bit_after kind left bits V X (n - 1) (bits - 1) else bit_after kind left bits V X (n - 1) 0.

Lemma mod_succ_cases (a m : Z) : 0 < m -> (a + 1) mod m = if a mod m =? m - 1 then 0 else a mod m + 1.
Proof.
  intros Hm. pose proof (Z.mod_pos_bound a m Hm). rewrite <- (Zplus_mod_idemp_l a 1 m).
  destruct (Z.eqb_spec (a mod m) (m - 1)) as [->|].
  - replace (m - 1 + 1) with m by lia. apply Z.mod_same. lia.
  - apply Z.mod_small. lia.
Qed.

Lemma mod_pred_cases (a m : Z) : 0 < m -> (a - 1) mod m = if a mod m =? 0 then m - 1 else a mod m - 1.
Proof.
  intros Hm. pose proof (Z.mod_pos_bound a m Hm). rewrite <- (Zminus_mod_idemp_l a 1 m).
  destruct (Z.eqb_spec (a mod m) 0) as [->|].
  - symmetry. apply (Z.mod_unique_pos _ _ (-1)); lia.
  - apply Z.mod_small. lia.
Qed.

Lemma shift_iter_bits (kind : shift_kind) (left : bool) (bits V : Z) (X : bool) (c0 : bool) (n : nat) :
  2 <= bits -> 0 <= V < 2 ^ bits ->
  let s := shift_iter kind left bits n (SS V X c0 false) in
  0 <= ss_v s < 2 ^ bits /\
  (forall i, 0 <= i < bits -> Z.testbit (ss_v s) i = bit_after kind left bits V X (Z.of_nat n) i) /\
  (kind = RotateExtended -> ss_x s = bit_after kind left bits V X (Z.of_nat n) bits).
Proof.
  intros Hb HV. induction n as [|n IH]; cbn zeta; cbn [shift_iter].
  - cbn [ss_v ss_x Z.of_nat]. split; [done|]. 
    split; [intros i Hi|intros ->]; unfold bit_after, extended_bit.
    + rewrite Z.sub_0_r, Z.add_0_r. destruct kind, left; rewrite ?Z.mod_small by lia;
        rewrite ?Z.min_l by lia; cmp; (done || lia).
    + rewrite Z.sub_0_r, Z.add_0_r. destruct left; rewrite Z.mod_small, Z.eqb_refl by lia; done.
  - destruct IH as (Hr & Hbit & Hx). set (s := shift_iter kind left bits n (SS V X c0 false)) in *.
    unfold shift_one. rewrite Hbit, (Hbit 0) by lia. cbn [ss_v ss_x]. rewrite Nat2Z.inj_succ.
    set (k := Z.of_nat n) in *. assert (0 <= k) as Hk by lia. clearbody k.
    assert (forall a b m, 0 < m -> a = b + m -> a mod m = b mod m) as Hper.
    { intros a b m Hm ->. replace (b + m) with (b + 1 * m) by lia. apply Z.mod_add. lia. }
    match goal with |- context [Z.b2z ?b] => set (inb := b) end.
    destruct left; [destruct (step_left_bits bits (ss_v s) inb) as [Hr' Hbit']; [lia|done|]
                   |destruct (step_right_bits bits (ss_v s) inb) as [Hr' Hbit']; [lia|done|]];
      (split; [done|split]).
    + intros i Hi. rewrite Hbit' by done. unfold inb. destruct (Z.eqb_spec i 0) as [->|]; [|rewrite Hbit by lia].
      * destruct kind; cbn [bit_after negb andb]; rewrite ?Hx by done; cbn [bit_after];
          rewrite ?(Z.testbit_neg_r V) by lia; try done; f_equal; apply Hper; lia.
      * unfold bit_after. by replace (i - 1 - k) with (i - Z.succ k) by lia.
    + intros ->. cbn. do 2 f_equal. lia.
    + intros i Hi. rewrite Hbit' by done. unfold inb. destruct (Z.eqb_spec i (bits - 1)) as [->|]; [|rewrite Hbit by lia].
      * destruct kind; cbn [bit_after negb andb]; rewrite ?Hx by done; cbn [bit_after].
        -- f_equal. lia.
        -- symmetry. apply (high_bit_false V bits); lia.
        -- do 2 f_equal. lia.
        -- f_equal. symmetry. apply Hper; lia.
      * unfold bit_after. by replace (i + 1 + k) with (i + Z.succ k) by lia.
    + intros ->. cbn. f_equal. symmetry. apply Hper; lia.
Qed.

(** The flags after at least one position. *)
Lemma shift_iter_flags (kind : shift_kind) (left : bool) (bits V : Z) (X : bool) (c0 : bool) (n : nat) :
  2 <= bits -> 0 <= V < 2 ^ bits ->
  let s := shift_iter kind left bits (S n) (SS V X c0 false) in
  ss_c s = out_bit kind left bits V X (Z.of_nat (S n)) /\
  ss_x s = (if bool_decide (kind = Rotate) then X else ss_c s).
Proof.
  intros Hb HV. destruct (shift_iter_bits kind left bits V X c0 n Hb HV) as (Hr & Hbit & Hx).
  cbn zeta. cbn [shift_iter]. unfold shift_one, out_bit. cbn [ss_c ss_x].
  replace (Z.of_nat (S n) - 1) with (Z.of_nat n) by lia. split.
  - destruct left; rewrite Hbit by lia; done.
  - destruct (decide (kind = Rotate)) as [->|Hk]; [rewrite bool_decide_eq_true_2 by done|by rewrite bool_decide_eq_false_2].
    clear. induction n as [|n IH]; [done|]. cbn [shift_iter]. unfold shift_one. cbn [ss_x].
    rewrite bool_decide_eq_true_2 by done. done.
Qed.

(** V after an arithmetic left shift: the sign changed at some position. *)
Lemma shift_iter_overflow (kind : shift_kind) (left : bool) (bits V : Z) (X : bool) (c0 : bool) (n : nat) :
  2 <= bits -> 0 <= V < 2 ^ bits ->
  ss_o (shift_iter kind left bits n (SS V X c0 false)) = true <->
  kind = Arithmetic /\ left = true /\
  exists j, 0 <= j < Z.of_nat n /\ Z.testbit V (bits - 1 - j) <> Z.testbit V (bits - 2 - j).
Proof.
  intros Hb HV. induction n as [|n IH]; cbn [shift_iter].
  - cbn. split; [done|]. intros (_ & _ & j & Hj & _). lia.
  - destruct (shift_iter_bits kind left bits V X c0 n Hb HV) as (Hr & Hbit & Hx).
    destruct (shift_iter_bits kind left bits V X c0 (S n) Hb HV) as (_ & Hbit' & _).
    cbn [shift_iter] in Hbit'. set (s := shift_iter kind left bits n (SS V X c0 false)) in *.
    specialize (Hbit' (bits - 1) ltac:(lia)). unfold shift_one in Hbit' |- *. cbn [ss_v ss_o] in *.
    rewrite Hbit', orb_true_iff, IH, !andb_true_iff, bool_decide_eq_true, Hbit by lia.
    rewrite Nat2Z.inj_succ. set (k := Z.of_nat n) in *.
    split.
    + intros [(-> & -> & j & Hj & Hne)|[[-> ->] Hne]]; (split; [done|split; [done|]]).
      * exists j. split; [lia|done].
      * cbn [bit_after] in Hne. exists k. split; [lia|].
        replace (bits - 2 - k) with (bits - 1 - Z.succ k) by lia.
        intros Heq. rewrite Heq, eqb_reflx in Hne. done.
    + intros (-> & -> & j & Hj & Hne). destruct (Z.eq_dec j k) as [->|]; [right|left].
      * split; [done|]. cbn [bit_after]. replace (bits - 1 - Z.succ k) with (bits - 2 - k) by lia.
        destruct (Z.testbit V (bits - 1 - k)), (Z.testbit V (bits - 2 - k)); done.
      * split; [done|]. split; [done|]. exists j. split; [lia|done].
Qed.

(** ** The routine against the iteration *)

(** A rotate written with two shifts: [w] bits of [all] by [k]. *)
Lemma rotate_bits (w all k i : Z) (left : bool) : 1 <= w < 64 -> 0 <= all < 2 ^ w -> 0 <= k < w -> 0 <= i < w ->
  Z.testbit (if k =? 0 then all
             else if left then Z.land (Z.lor (u64_shl all k) (u64_shr all (w - k))) (Z.ones w)
             else Z.land (Z.lor (u64_shr all k) (u64_shl all (w - k))) (Z.ones w)) i
  = Z.testbit all ((if left then i - k else i + k) mod w).
Proof.
  intros Hw Ha Hk Hi. destruct (Z.eqb_spec k 0) as [->|].
  { destruct left; f_equal; rewrite Z.mod_small; lia. }
  destruct left; rewrite land_ones_bit, Z.lor_spec, shl_bit, shr_bit by lia.
  - destruct (Z.lt_ge_cases i k).
    + rewrite (Z.testbit_neg_r all (i - k)) by lia. cbn [orb]. f_equal.
      apply (Z.mod_unique_pos _ _ (-1)); lia.
    + rewrite (high_bit_false all w (i + (w - k))), orb_false_r by lia. f_equal. symmetry. apply Z.mod_small. lia.
  - destruct (Z.lt_ge_cases (i + k) w).
    + rewrite (Z.testbit_neg_r all (i - (w - k))), orb_false_r by lia. f_equal. symmetry. apply Z.mod_small. lia.
    + rewrite (high_bit_false all w (i + k)) by lia. cbn [orb]. f_equal.
      apply (Z.mod_unique_pos _ _ 1); lia.
Qed.

Lemma rotate_range (w all k : Z) (left : bool) : 0 <= w -> 0 <= all < 2 ^ w ->
  0 <= (if k =? 0 then all
        else if left then Z.land (Z.lor (u64_shl all k) (u64_shr all (w - k))) (Z.ones w)
        else Z.land (Z.lor (u64_shr all k) (u64_shl all (w - k))) (Z.ones w)) < 2 ^ w.
Proof. intros Hw Ha. destruct (k =? 0), left; (done || by apply land_ones_range). Qed.

(** The value with X above its top bit. *)
Lemma extended_value (bits v : Z) (x : bool) : 1 <= bits < 63 -> 0 <= v < 2 ^ bits ->
  let all := Z.lor (u64_shl (u64_of_bool x) bits) v in
  0 <= all < 2 ^ (bits + 1) /\ forall j, 0 <= j < bits + 1 -> Z.testbit all j = extended_bit bits v x j.
Proof.
  intros Hb Hv all.
  assert (forall j, 0 <= j < 64 -> Z.testbit all j = extended_bit bits v x j) as Hbit.
  { intros j Hj. unfold all, extended_bit. rewrite Z.lor_spec, shl_bit by lia.
    destruct (Z.eqb_spec j bits) as [->|].
    - rewrite Z.sub_diag, (high_bit_false v bits bits), orb_false_r by lia. by destruct x.
    - replace (Z.testbit (u64_of_bool x) (j - bits)) with false; [done|].
      destruct x; [|by rewrite Z.testbit_0_l]. destruct (Z.lt_ge_cases j bits).
      + by rewrite Z.testbit_neg_r by lia.
      + symmetry. apply (high_bit_false _ 1); cbn; lia. }
  split; [|intros; apply Hbit; lia].
  assert (0 <= all) as H0.
  { apply Z.lor_nonneg. split; [|lia]. unfold u64_shl. apply w64_range. }
  split; [done|]. destruct (Z.lt_ge_cases all (2 ^ (bits + 1))) as [|Hge]; [done|exfalso].
  assert (all < 2 ^ 64) as H64.
  { destruct (Z.eq_dec all 0); [lia|]. apply Z.log2_lt_pow2; [lia|]. unfold all.
    rewrite Z.log2_lor by (try apply w64_range; lia).
    pose proof (w64_range (Z.shiftl (u64_of_bool x) (bits mod 64))) as Hr. unfold u64_shl.
    assert (2 ^ bits <= 2 ^ 62) by (apply Z.pow_le_mono_r; lia).
    apply Z.max_lub_lt; [destruct (Z.eq_dec (w64 (Z.shiftl (u64_of_bool x) (bits mod 64))) 0) as [->|]; [cbn; lia|]|
                         destruct (Z.eq_dec v 0) as [->|]; [cbn; lia|]]; apply Z.log2_lt_pow2; lia. }
  assert (bits + 1 <= Z.log2 all < 64) as Hl by (split; [apply Z.log2_le_pow2|apply Z.log2_lt_pow2]; lia).
  assert (0 < all) as Hpos by (pose proof (pow2_pos (bits + 1)); lia).
  pose proof (Z.bit_log2 all Hpos) as Ht. rewrite Hbit in Ht by lia. unfold extended_bit in Ht.
  destruct (Z.eqb_spec (Z.log2 all) bits); [lia|]. rewrite (high_bit_false v bits) in Ht by lia. done.
Qed.

(** All of [n + 1] bits are equal exactly when no adjacent two differ. *)
Lemma uniform_bits (t n : Z) : 0 <= n -> 0 <= t < 2 ^ (n + 1) ->
  (t = 0 \/ t = 2 ^ (n + 1) - 1) <-> (forall j, 0 <= j < n -> Z.testbit t (n - j) = Z.testbit t (n - 1 - j)).
Proof.
  intros Hn Ht. assert (2 ^ (n + 1) - 1 = Z.ones (n + 1)) as Eo by (rewrite ones_pow; lia). rewrite Eo. split.
  - intros [-> | ->] j Hj; [by rewrite !Z.testbit_0_l|]. rewrite !Z.ones_spec_low by lia. done.
  - intros H.
    assert (forall m, (Z.of_nat m <= n) -> Z.testbit t (Z.of_nat m) = Z.testbit t 0) as Hall.
    { induction m as [|m IH]; intros Hm; [done|]. rewrite <- IH by lia.
      specialize (H (n - Z.of_nat (S m)) ltac:(lia)).
      replace (n - (n - Z.of_nat (S m))) with (Z.of_nat (S m)) in H by lia.
      replace (n - 1 - (n - Z.of_nat (S m))) with (Z.of_nat m) in H by lia. done. }
    assert (forall i, 0 <= i < n + 1 -> Z.testbit t i = Z.testbit t 0) as Hz.
    { intros i Hi. replace i with (Z.of_nat (Z.to_nat i)) by lia. apply Hall. lia. }
    pose proof (land_ones_range (-1) (n + 1) ltac:(lia)) as Hor. rewrite Z.land_m1_l in Hor.
    destruct (Z.testbit t 0); [right|left]; apply (bits_eq (n + 1)); try lia; intros i Hi; rewrite Hz by done.
    + by rewrite Z.ones_spec_low by lia.
    + by rewrite Z.testbit_0_l.
Qed.

(** [V] of the arithmetic left shift: some adjacent pair among the bits that pass the top differ. *)
Lemma asl_overflow (bits V : Z) (X c0 : bool) (n : nat) : 2 <= bits < 63 -> 0 <= V < 2 ^ bits -> (0 < n < 64)%nat ->
  (if bits <=? Z.of_nat n then negb (V =? 0)
   else negb (u64_shr V (bits - Z.of_nat n - 1) =? 0)
        && negb (u64_shr V (bits - Z.of_nat n - 1) =? u64_shl 1 (Z.of_nat n + 1) - 1))
  = ss_o (shift_iter Arithmetic true bits n (SS V X c0 false)).
Proof.
  intros Hb HV Hn. pose proof (shift_iter_overflow Arithmetic true bits V X c0 n ltac:(lia) HV) as Ho.
  set (o := ss_o _) in *. set (k := Z.of_nat n) in *.
  assert ((o = false) <-> forall j, 0 <= j < k -> Z.testbit V (bits - 1 - j) = Z.testbit V (bits - 2 - j)) as Hf.
  { split.
    - intros Hof j Hj. destruct (Bool.bool_dec (Z.testbit V (bits - 1 - j)) (Z.testbit V (bits - 2 - j))) as [|Hne]; [done|].
      assert (o = true); [|congruence]. apply Ho. split; [done|]. split; [done|]. by exists j.
    - intros H. destruct o; [|done]. destruct Ho as [Ho _]. destruct (Ho eq_refl) as (_ & _ & j & Hj & Hne).
      by destruct (Hne (H j Hj)). }
  destruct (Z.leb_spec bits k) as [Hle|Hgt].
  - assert (V = 0 <-> o = false) as HV0.
    { rewrite Hf. split; [intros -> j Hj; by rewrite !Z.testbit_0_l|]. intros H.
      pose proof (uniform_bits V (bits - 1)) as Hu. replace (bits - 1 + 1) with bits in Hu by lia.
      destruct Hu as [_ Hu]; [lia|lia|]. destruct Hu as [|E]; [|done|].
      - intros j Hj. replace (bits - 1 - 1 - j) with (bits - 2 - j) by lia. apply H. lia.
      - specialize (H (bits - 1) ltac:(lia)). rewrite (Z.testbit_neg_r V (bits - 2 - (bits - 1))) in H by lia.
        rewrite E, <- ones_pow, Z.ones_spec_low in H by lia. done. }
    destruct (Z.eqb_spec V 0), o; cbn; intuition congruence.
  - assert (u64_shr V (bits - k - 1) = V / 2 ^ (bits - k - 1)) as Es
      by (unfold u64_shr; rewrite Z.mod_small, Z.shiftr_div_pow2 by lia; done).
    pose proof (uniform_bits (u64_shr V (bits - k - 1)) k ltac:(lia)) as Hu. 
    assert (0 <= u64_shr V (bits - k - 1) < 2 ^ (k + 1)) as Hr.
    { rewrite Es. pose proof (pow2_pos (bits - k - 1) ltac:(lia)). split; [apply Z.div_pos; lia|].
      apply Z.div_lt_upper_bound; [lia|]. rewrite <- Z.pow_add_r by lia. replace (bits - k - 1 + (k + 1)) with bits by lia. lia. }
    specialize (Hu Hr). rewrite width_mask, ones_pow by lia.
    assert (u64_shr V (bits - k - 1) = 0 \/ u64_shr V (bits - k - 1) = 2 ^ (k + 1) - 1 <-> o = false) as Hiff.
    { rewrite Hu, Hf. split; intros H j Hj; specialize (H j Hj); rewrite !shr_bit in * by lia.
      - replace (k - j + (bits - k - 1)) with (bits - 1 - j) in H by lia.
        replace (k - 1 - j + (bits - k - 1)) with (bits - 2 - j) in H by lia. done.
      - replace (k - j + (bits - k - 1)) with (bits - 1 - j) by lia.
        replace (k - 1 - j + (bits - k - 1)) with (bits - 2 - j) by lia. done. }
    destruct (Z.eqb_spec (u64_shr V (bits - k - 1)) 0), (Z.eqb_spec (u64_shr V (bits - k - 1)) (2 ^ (k + 1) - 1)), o;
      cbn; intuition congruence.
Qed.

(** An arithmetic right shift reads its sign bit past the top. *)
Lemma signed_value_bit (bits v i : Z) : 2 <= bits <= 32 -> 0 <= v < 2 ^ bits -> 0 <= i ->
  Z.testbit (i64_shr (i64 (u64_shl v (64 - bits))) (64 - bits)) i = Z.testbit v (Z.min i (bits - 1)).
Proof.
  intros Hb Hv Hi. unfold i64_shr. rewrite (Z.mod_small (64 - bits)), Z.shiftr_spec by lia.
  set (u := u64_shl v (64 - bits)).
  assert (0 <= u < 2 ^ 64) as Hu by apply w64_range.
  assert (forall j, 0 <= j < 64 -> Z.testbit u j = Z.testbit v (j - (64 - bits))) as Hub by (intros; apply shl_bit; lia).
  unfold i64. rewrite w64_small by done.
  assert (Z.testbit u 63 = negb (u <? 9223372036854775808)) as Htop.
  { rewrite Z.testbit_eqb by lia. change (2 ^ 63) with 9223372036854775808.
    destruct (Z.ltb_spec u 9223372036854775808).
    - rewrite Z.div_small by lia. done.
    - assert (u / 9223372036854775808 = 1) as -> by (symmetry; apply (Z.div_unique _ _ _ (u - 9223372036854775808)); lia).
      done. }
  rewrite Hub in Htop by lia. replace (63 - (64 - bits)) with (bits - 1) in Htop by lia.
  destruct (Z.lt_ge_cases i bits) as [Hlt|Hge].
  - rewrite Z.min_l by lia. transitivity (Z.testbit u (i + (64 - bits))).
    + destruct (u <? 9223372036854775808); [done|]. rewrite <- (Z.mod_pow2_bits_low (u - _) 64) by lia.
      rewrite <- (Z.mod_pow2_bits_low u 64) by lia. f_equal.
      replace (u - 18446744073709551616) with (u + (-1) * 2 ^ 64) by lia. apply Z.mod_add. lia.
    + rewrite Hub by lia. f_equal. lia.
  - rewrite Z.min_r, Htop by lia. destruct (Z.ltb_spec u 9223372036854775808); cbn [negb].
    + apply (high_bit_false u 64); lia.
    + replace (u - 18446744073709551616) with (- (18446744073709551616 - u)) by lia.
      rewrite Z.bits_opp, (high_bit_false _ 64) by lia. done.
Qed.

(** The values and carries of the plain shifts, by their bits. *)
Lemma shl_value (bits v n r : Z) : 2 <= bits <= 32 -> 0 < n < 64 -> 0 <= r < 2 ^ bits ->
  (forall i, 0 <= i < bits -> Z.testbit r i = Z.testbit v (i - n)) ->
  (if n <? bits then Z.land (u64_shl v n) (Z.ones bits) else 0) = r.
Proof.
  intros Hb Hn Hr Hbit. pose proof (land_ones_range (u64_shl v n) bits ltac:(lia)).
  destruct (Z.ltb_spec n bits); apply (bits_eq bits); try lia; intros i Hi; rewrite Hbit by done.
  - rewrite land_ones_bit, shl_bit by lia. done.
  - rewrite Z.testbit_0_l, Z.testbit_neg_r by lia. done.
Qed.

Lemma shl_carry (bits v n : Z) : 2 <= bits <= 32 -> 0 < n < 64 ->
  ((n <=? bits) && bit_set (Z.land (u64_shr v (bits - n)) 1)) = Z.testbit v (bits - 1 - (n - 1)).
Proof.
  intros. replace (bits - 1 - (n - 1)) with (bits - n) by lia. destruct (Z.leb_spec n bits); cbn [andb].
  - apply shr_land_bit. lia.
  - symmetry. apply Z.testbit_neg_r. lia.
Qed.

Lemma shr_value (bits v n r : Z) : 2 <= bits <= 32 -> 0 < n < 64 -> 0 <= r < 2 ^ bits -> 0 <= v < 2 ^ bits ->
  (forall i, 0 <= i < bits -> Z.testbit r i = Z.testbit v (i + n)) ->
  (if n <? bits then u64_shr v n else 0) = r.
Proof.
  intros Hb Hn Hr Hv Hbit.
  assert (0 <= u64_shr v n < 2 ^ bits).
  { unfold u64_shr. rewrite Z.mod_small, Z.shiftr_div_pow2 by lia. pose proof (pow2_pos n).
    split; [apply Z.div_pos; lia|]. apply Z.div_lt_upper_bound; nia. }
  destruct (Z.ltb_spec n bits); apply (bits_eq bits); try lia; intros i Hi; rewrite Hbit by done.
  - apply shr_bit; lia.
  - rewrite Z.testbit_0_l. symmetry. apply (high_bit_false v bits); lia.
Qed.

Lemma shr_carry (bits v n : Z) : 2 <= bits <= 32 -> 0 < n < 64 -> 0 <= v < 2 ^ bits ->
  ((n <=? bits) && bit_set (Z.land (u64_shr v (n - 1)) 1)) = Z.testbit v (0 + (n - 1)).
Proof.
  intros. destruct (Z.leb_spec n bits); cbn [andb Z.add].
  - rewrite shr_land_bit by lia. done.
  - symmetry. apply (high_bit_false v bits); lia.
Qed.

(** The arithmetic right shift's value and carry. *)
Lemma asr_parts (bits v n r : Z) : 2 <= bits <= 32 -> 0 < n < 64 -> 0 <= v < 2 ^ bits -> 0 <= r < 2 ^ bits ->
  (forall i, 0 <= i < bits -> Z.testbit r i = Z.testbit v (Z.min (i + n) (bits - 1))) ->
  let sg := i64_shr (i64 (u64_shl v (64 - bits))) (64 - bits) in
  Z.land (w64 (i64_shr sg (Z.min n bits))) (Z.ones bits) = r /\
  (if n <=? bits then bit_set (Z.land (i64_shr sg (n - 1)) 1)
   else bit_set (Z.land (u64_shr v (bits - 1)) 1)) = Z.testbit v (Z.min (0 + (n - 1)) (bits - 1)).
Proof.
  intros Hb Hn Hv Hr Hbit sg.
  assert (forall i, 0 <= i -> Z.testbit sg i = Z.testbit v (Z.min i (bits - 1))) as Hsb
    by (intros; by apply signed_value_bit).
  clearbody sg. split.
  - apply (bits_eq bits); [lia|apply land_ones_range; lia|done|]. intros i Hi. rewrite Hbit, land_ones_bit by lia.
    unfold w64. change 18446744073709551616 with (2 ^ 64). rewrite Z.mod_pow2_bits_low by lia.
    unfold i64_shr. rewrite (Z.mod_small (Z.min n bits)), Z.shiftr_spec, Hsb by lia. f_equal. lia.
  - destruct (Z.leb_spec n bits).
    + rewrite bit_set_testbit. unfold i64_shr. by rewrite Z.mod_small, Z.shiftr_spec, Hsb by lia.
    + rewrite shr_land_bit by lia. f_equal. lia.
Qed.

(** The plain rotate's value. *)
Lemma rotate_value (bits v n r : Z) (left x : bool) : 2 <= bits <= 32 -> 0 <= v < 2 ^ bits -> 0 <= r < 2 ^ bits ->
  (forall i, 0 <= i < bits -> Z.testbit r i = bit_after Rotate left bits v x n i) ->
  let k := n mod bits in
  (if k =? 0 then v
   else if left then Z.land (Z.lor (u64_shl v k) (u64_shr v (bits - k))) (Z.ones bits)
   else Z.land (Z.lor (u64_shr v k) (u64_shl v (bits - k))) (Z.ones bits)) = r.
Proof.
  intros Hb Hv Hr Hbit k. pose proof (Z.mod_pos_bound n bits ltac:(lia)) as Hk. fold k in Hk.
  apply (bits_eq bits); [lia|apply rotate_range; lia|done|]. intros i Hi. rewrite rotate_bits, Hbit by lia.
  unfold bit_after, k. destruct left; rewrite ?Zplus_mod_idemp_r, ?Zminus_mod_idemp_r; done.
Qed.

(** The bit a plain rotate leaves in C is the one it brought to the other end. *)
Lemma rotate_carry (bits v n r : Z) (left x : bool) : 2 <= bits <= 32 -> 0 < n < 64 -> 
  (forall i, 0 <= i < bits -> Z.testbit r i = bit_after Rotate left bits v x n i) ->
  (if left then bit_set (Z.land r 1) else bit_set (Z.land (u64_shr r (bits - 1)) 1))
  = out_bit Rotate left bits v x n.
Proof.
  intros Hb Hn Hbit. unfold out_bit.
  destruct left; [rewrite bit_set_testbit|rewrite shr_land_bit by lia]; rewrite Hbit by lia; cbn [bit_after]; f_equal.
  - replace (0 - n) with (bits - 1 - (n - 1) + (-1) * bits) by lia. apply Z.mod_add. lia.
  - replace (bits - 1 + n) with (0 + (n - 1) + 1 * bits) by lia. apply Z.mod_add. lia.
Qed.

(** The extended rotate's value and carry. *)
Lemma rotate_extended_parts (bits v n r : Z) (left x : bool) : 2 <= bits <= 32 -> 0 < n < 64 ->
  0 <= v < 2 ^ bits -> 0 <= r < 2 ^ bits ->
  (forall i, 0 <= i < bits -> Z.testbit r i = bit_after RotateExtended left bits v x n i) ->
  let k := n mod (bits + 1) in
  let all := Z.lor (u64_shl (u64_of_bool x) bits) v in
  let rot := if k =? 0 then all
    else if left then Z.land (Z.lor (u64_shl all k) (u64_shr all (bits + 1 - k))) (Z.ones (bits + 1))
    else Z.land (Z.lor (u64_shr all k) (u64_shl all (bits + 1 - k))) (Z.ones (bits + 1)) in
  Z.land rot (Z.ones bits) = r /\ bit_set (u64_shr rot bits) = out_bit RotateExtended left bits v x n.
Proof.
  intros Hb Hn Hv Hr Hbit k all rot. destruct (extended_value bits v x ltac:(lia) Hv) as [Har Hab].
  fold all in Har, Hab. pose proof (Z.mod_pos_bound n (bits + 1) ltac:(lia)) as Hk. fold k in Hk.
  pose proof (rotate_range (bits + 1) all k left ltac:(lia) Har) as Hrr. fold rot in Hrr.
  assert (forall i, 0 <= i < bits + 1 -> Z.testbit rot i = bit_after RotateExtended left bits v x n i) as Hrot.
  { intros i Hi. unfold rot. rewrite rotate_bits, Hab by (lia || (apply Z.mod_pos_bound; lia)).
    unfold bit_after, k. destruct left; rewrite ?Zplus_mod_idemp_r, ?Zminus_mod_idemp_r; done. }
  clearbody rot. split.
  - apply (bits_eq bits); [lia|apply land_ones_range; lia|done|]. intros i Hi.
    rewrite Hbit, land_ones_bit by lia. apply Hrot. lia.
  - assert (0 <= u64_shr rot bits < 2 ^ 1) as Hu.
    { unfold u64_shr. rewrite Z.mod_small, Z.shiftr_div_pow2 by lia. pose proof (pow2_pos bits).
      split; [apply Z.div_pos; lia|]. apply Z.div_lt_upper_bound; [lia|]. rewrite <- Z.pow_add_r by lia. lia. }
    transitivity (Z.testbit rot bits).
    { replace bits with (0 + bits) at 2 by lia. rewrite <- shr_bit by lia.
      assert (u64_shr rot bits = 0 \/ u64_shr rot bits = 1) as [-> | ->] by lia; done. }
    rewrite Hrot by lia. unfold out_bit. destruct left; cbn [bit_after]; f_equal.
    + f_equal. lia.
    + replace (bits + n) with (0 + (n - 1) + 1 * (bits + 1)) by lia. apply Z.mod_add. lia.
Qed.

(** The closed-form shifts and rotates equal [n] one-position steps: value, X, V and C, for
    the three operand widths and every count below 64. *)
Theorem shift_spec (kind : shift_kind) (left : bool) (bits value n : Z) (x : bool) :
  2 <= bits <= 32 -> 0 <= n < 64 ->
  let v := Z.land value (Z.ones bits) in
  let s := shift_iter kind left bits (Z.to_nat n)
             (SS v x (bool_decide (kind = RotateExtended) && x) false) in
  shift kind left bits value n x =
  Shifted (ss_v s) (if (n =? 0) || bool_decide (kind = Rotate) then None else Some (ss_x s)) (ss_o s) (ss_c s).
Proof.
  intros Hb Hn v s. pose proof (land_ones_range value bits ltac:(lia)) as Hv. fold v in Hv.
  unfold shift. rewrite width_mask by lia. fold v.
  destruct (Z.eqb_spec n 0) as [->|Hn0]; [done|]. cbn [orb].
  set (c0 := bool_decide (kind = RotateExtended) && x) in *.
  destruct (shift_iter_bits kind left bits v x c0 (Z.to_nat n) ltac:(lia) Hv) as (Hr & Hbit & _).
  assert (Z.to_nat n = S (Z.to_nat (n - 1))) as En by lia.
  destruct (shift_iter_flags kind left bits v x c0 (Z.to_nat (n - 1)) ltac:(lia) Hv) as [Hc Hx].
  rewrite <- En in Hc, Hx. fold s in Hr, Hbit, Hc, Hx. rewrite Z2Nat.id in * by lia.
  pose proof (shift_iter_overflow kind left bits v x c0 (Z.to_nat n) ltac:(lia) Hv) as Ho. fold s in Ho.
  assert (ss_o s = false \/ kind = Arithmetic /\ left = true) as Hov
    by (destruct (ss_o s); [right; split; apply Ho; done|by left]).
  clear Ho. rewrite Hx, Hc. clear Hx Hc.
  assert (forall k1 k2 : shift_kind, k1 <> k2 -> bool_decide (k1 = k2) = false) as Hbd
    by (intros; by apply bool_decide_eq_false_2).
  destruct kind; rewrite ?Hbd, ?(bool_decide_eq_true_2 _ (eq_refl Rotate)) by done; cbn [andb].
  - destruct left.
    + rewrite (shl_value bits v n (ss_v s)), shl_carry by (done || lia). f_equal.
      rewrite bool_decide_eq_true_2 by done. cbn [andb].
      pose proof (asl_overflow bits v x c0 (Z.to_nat n) ltac:(lia) Hv ltac:(lia)) as Ho.
      rewrite Z2Nat.id in Ho by lia. exact Ho.
    + destruct Hov as [-> | [_ ?]]; [|done].
      destruct (asr_parts bits v n (ss_v s)) as [-> ->]; (done || lia).
  - destruct Hov as [-> | [? _]]; [|done]. destruct left.
    + rewrite (shl_value bits v n (ss_v s)), shl_carry by (done || lia). done.
    + rewrite (shr_value bits v n (ss_v s)), shr_carry by (done || lia). done.
  - destruct Hov as [-> | [? _]]; [|done]. rewrite width_mask by lia.
    destruct (rotate_extended_parts bits v n (ss_v s) left x) as [-> ->]; (done || lia).
  - destruct Hov as [-> | [? _]]; [|done].
    rewrite (rotate_value bits v n (ss_v s) left x), (rotate_carry bits v n (ss_v s) left x) by (done || lia). done.
Qed.

(** * The theorems at work *)

Lemma bcd_correct_witness : dec_value (bcd_add (to_bcd 45) (to_bcd 54) true) = to_bcd 0.
Proof. apply (bcd_correct 45 54 true); lia. Defined.

(** [asl.b] of [0x60] by two changes the sign on the way. *)
Lemma shift_spec_witness : shift Arithmetic true 8 96 2 false = Shifted 128 (Some true) true true.
Proof. rewrite (shift_spec Arithmetic true 8 96 2 false) by lia. reflexivity. Defined.
