(* ===== verification/Machine.v ===== *)
(** The state of the p-code interpreter, [sleigh/emu.rs]: memory banks by space, the byte order and
    bus of a space, the recorded effects, and the accessors every operation is built from.
    [HashMap] and [BTreeMap] are finite maps, a [u64] is a [Z] in its range. *)
From Stdlib Require Import ZArith Lia Bool List String.
From stdpp Require Import base decidable gmap strings list tactics.
From S2P Require Import Prelude Pcode M68kAlu.
Local Open Scope Z_scope.

(** ** Values of a size *)

Definition mask (v size : Z) : Z :=
  if (8 <=? size) || (size =? 0) then v else Z.land v (u64_shl 1 (size * 8) - 1).

(** the [i64] a [size]-byte value reads as *)
Definition sext (v size : Z) : Z :=
  if (size =? 0) || (8 <=? size) then i64 v
  else
    let bits := size * 8 in
    let sign := u64_shl 1 (bits - 1) in
    let m := mask v size in
    i64 (u64_sub (Z.lxor m sign) sign).

(** ** Data *)

Inductive user_op := ULock | UIn | UOut | USwi | UBcdAdjust | UUnknown.

Definition SWI_VECTOR : Z := 4294967040.

(** the loaded image, [(start, bytes)] ascending and disjoint *)
Record backing := Backing { b_space : string; b_blocks : list (Z * list Z) }.

Inductive effect :=
| EStore (space : string) (address size value : Z)
| ECall (target : Z) (args : list Z)
| EFault
| EPort (is_write : bool) (port size value : Z)
| ESwi (number : Z) (args : list Z)
| EStub (address : Z).

Inductive flag_source := Bit | IsZero | IsNegative.
Record flag_return := FlagReturn { fr_flag : Z * Z; fr_reg : Z * Z; fr_from : flag_source }.
Record reg_return := RegReturn { rr_src : Z * Z; rr_dst : Z * Z }.

(** the 68000 instructions the state modifier handles *)
Inductive insn :=
| Bcd (add : bool) (rx ry : Z) (memory : bool)
| Nbcd
| DivW (signed : bool) (dn : Z)
| Shift (kind : shift_kind) (left : bool) (bits count : Z) (by_register : bool) (dy : Z)
| ShiftMemory (kind : shift_kind) (left : bool).

(** register offsets, [d] and [a] of eight *)
Record m68k := M68k {
  m_d : list Z; m_a : list Z; m_x : Z; m_n : Z; m_z : Z; m_v : Z; m_c : Z; m_ram : string;
}.

Record before := Before {
  bf_dividend : Z;
  bf_z : Z;
  bf_nbcd_flags : option (bool * bool * bool * bool);
  bf_quotient : option Z;
}.

Record machine := Machine {
  mem : gmap string (gmap Z Z);
  fill : option Z;
  pool : list Z;
  unmodeled : Z;
  unmodeled_ops : gset string;
  userops : gmap Z string;
  swi_args : list (Z * Z);
  effects : list effect;
  effect_sites : list (Z * Z);
  at_site : Z * Z;
  uninitialized : gmap (Z * Z) (Z * Z);
  port_answers : gmap Z (list Z * Z);
  unanswered : gmap Z (Z * Z);
  trace : bool;
  quiet : option (Z * Z);
  flag_return_ordinals : list (Z * flag_return);
  reg_return_ordinals : list (Z * reg_return);
  last_quotient : option (varnode * Z * bool);
  image_backing : option backing;
  big_endian : gset string;
  address_mask : option (string * Z);
  modifier : option m68k;
  adjusting : option (insn * before);
}.

Definition set_mem (m : machine) (v : gmap string (gmap Z Z)) : machine :=
  Machine v (fill m) (pool m) (unmodeled m) (unmodeled_ops m) (userops m)
    (swi_args m) (effects m) (effect_sites m) (at_site m) (uninitialized m) (port_answers m)
    (unanswered m) (trace m) (quiet m) (flag_return_ordinals m) (reg_return_ordinals m) (last_quotient m)
    (image_backing m) (big_endian m) (address_mask m) (modifier m) (adjusting m).
Definition set_unmodeled (m : machine) (v : Z) : machine :=
  Machine (mem m) (fill m) (pool m) v (unmodeled_ops m) (userops m)
    (swi_args m) (effects m) (effect_sites m) (at_site m) (uninitialized m) (port_answers m)
    (unanswered m) (trace m) (quiet m) (flag_return_ordinals m) (reg_return_ordinals m) (last_quotient m)
    (image_backing m) (big_endian m) (address_mask m) (modifier m) (adjusting m).
Definition set_unmodeled_ops (m : machine) (v : gset string) : machine :=
  Machine (mem m) (fill m) (pool m) (unmodeled m) v (userops m)
    (swi_args m) (effects m) (effect_sites m) (at_site m) (uninitialized m) (port_answers m)
    (unanswered m) (trace m) (quiet m) (flag_return_ordinals m) (reg_return_ordinals m) (last_quotient m)
    (image_backing m) (big_endian m) (address_mask m) (modifier m) (adjusting m).
Definition set_effects (m : machine) (v : list effect) : machine :=
  Machine (mem m) (fill m) (pool m) (unmodeled m) (unmodeled_ops m) (userops m)
    (swi_args m) v (effect_sites m) (at_site m) (uninitialized m) (port_answers m)
    (unanswered m) (trace m) (quiet m) (flag_return_ordinals m) (reg_return_ordinals m) (last_quotient m)
    (image_backing m) (big_endian m) (address_mask m) (modifier m) (adjusting m).
Definition set_effect_sites (m : machine) (v : list (Z * Z)) : machine :=
  Machine (mem m) (fill m) (pool m) (unmodeled m) (unmodeled_ops m) (userops m)
    (swi_args m) (effects m) v (at_site m) (uninitialized m) (port_answers m)
    (unanswered m) (trace m) (quiet m) (flag_return_ordinals m) (reg_return_ordinals m) (last_quotient m)
    (image_backing m) (big_endian m) (address_mask m) (modifier m) (adjusting m).
Definition set_at_site (m : machine) (v : Z * Z) : machine :=
  Machine (mem m) (fill m) (pool m) (unmodeled m) (unmodeled_ops m) (userops m)
    (swi_args m) (effects m) (effect_sites m) v (uninitialized m) (port_answers m)
    (unanswered m) (trace m) (quiet m) (flag_return_ordinals m) (reg_return_ordinals m) (last_quotient m)
    (image_backing m) (big_endian m) (address_mask m) (modifier m) (adjusting m).
Definition set_uninitialized (m : machine) (v : gmap (Z * Z) (Z * Z)) : machine :=
  Machine (mem m) (fill m) (pool m) (unmodeled m) (unmodeled_ops m) (userops m)
    (swi_args m) (effects m) (effect_sites m) (at_site m) v (port_answers m)
    (unanswered m) (trace m) (quiet m) (flag_return_ordinals m) (reg_return_ordinals m) (last_quotient m)
    (image_backing m) (big_endian m) (address_mask m) (modifier m) (adjusting m).
Definition set_port_answers (m : machine) (v : gmap Z (list Z * Z)) : machine :=
  Machine (mem m) (fill m) (pool m) (unmodeled m) (unmodeled_ops m) (userops m)
    (swi_args m) (effects m) (effect_sites m) (at_site m) (uninitialized m) v
    (unanswered m) (trace m) (quiet m) (flag_return_ordinals m) (reg_return_ordinals m) (last_quotient m)
    (image_backing m) (big_endian m) (address_mask m) (modifier m) (adjusting m).
Definition set_unanswered (m : machine) (v : gmap Z (Z * Z)) : machine :=
  Machine (mem m) (fill m) (pool m) (unmodeled m) (unmodeled_ops m) (userops m)
    (swi_args m) (effects m) (effect_sites m) (at_site m) (uninitialized m) (port_answers m)
    v (trace m) (quiet m) (flag_return_ordinals m) (reg_return_ordinals m) (last_quotient m)
    (image_backing m) (big_endian m) (address_mask m) (modifier m) (adjusting m).
Definition set_trace (m : machine) (v : bool) : machine :=
  Machine (mem m) (fill m) (pool m) (unmodeled m) (unmodeled_ops m) (userops m)
    (swi_args m) (effects m) (effect_sites m) (at_site m) (uninitialized m) (port_answers m)
    (unanswered m) v (quiet m) (flag_return_ordinals m) (reg_return_ordinals m) (last_quotient m)
    (image_backing m) (big_endian m) (address_mask m) (modifier m) (adjusting m).
Definition set_flag_return_ordinals (m : machine) (v : list (Z * flag_return)) : machine :=
  Machine (mem m) (fill m) (pool m) (unmodeled m) (unmodeled_ops m) (userops m)
    (swi_args m) (effects m) (effect_sites m) (at_site m) (uninitialized m) (port_answers m)
    (unanswered m) (trace m) (quiet m) v (reg_return_ordinals m) (last_quotient m)
    (image_backing m) (big_endian m) (address_mask m) (modifier m) (adjusting m).
Definition set_reg_return_ordinals (m : machine) (v : list (Z * reg_return)) : machine :=
  Machine (mem m) (fill m) (pool m) (unmodeled m) (unmodeled_ops m) (userops m)
    (swi_args m) (effects m) (effect_sites m) (at_site m) (uninitialized m) (port_answers m)
    (unanswered m) (trace m) (quiet m) (flag_return_ordinals m) v (last_quotient m)
    (image_backing m) (big_endian m) (address_mask m) (modifier m) (adjusting m).
Definition set_last_quotient (m : machine) (v : option (varnode * Z * bool)) : machine :=
  Machine (mem m) (fill m) (pool m) (unmodeled m) (unmodeled_ops m) (userops m)
    (swi_args m) (effects m) (effect_sites m) (at_site m) (uninitialized m) (port_answers m)
    (unanswered m) (trace m) (quiet m) (flag_return_ordinals m) (reg_return_ordinals m) v
    (image_backing m) (big_endian m) (address_mask m) (modifier m) (adjusting m).
Definition set_adjusting (m : machine) (v : option (insn * before)) : machine :=
  Machine (mem m) (fill m) (pool m) (unmodeled m) (unmodeled_ops m) (userops m)
    (swi_args m) (effects m) (effect_sites m) (at_site m) (uninitialized m) (port_answers m)
    (unanswered m) (trace m) (quiet m) (flag_return_ordinals m) (reg_return_ordinals m) (last_quotient m)
    (image_backing m) (big_endian m) (address_mask m) (modifier m) v.

(** [Machine::default()] *)
Definition default_machine : machine :=
  Machine ∅ None [] 0 ∅ ∅ [] [] [] (0, 0) ∅ ∅ ∅ false None [] [] None None ∅ None None None.

(** ** Never-written memory *)

Definition mix (seed a b : Z) : Z :=
  let x := Z.lxor (Z.lxor seed (u64_mul a 11400714819323198485)) (u64_mul b 1099511628211) in
  let x := Z.lxor x (Z.shiftr x 33) in
  let x := u64_mul x 18397679294719823053 in
  Z.lxor x (Z.shiftr x 29).

Definition space_len (space : string) : Z := Z.of_nat (String.length space).

Definition fill_dword (seed : Z) (space : string) (block : Z) (pool : list Z) : Z :=
  let h := mix seed block (space_len space) in
  if negb (match pool with [] => true | _ => false end) && negb (h mod 4 =? 0)
  then nth (Z.to_nat (Z.shiftr h 8 mod Z.of_nat (List.length pool))) pool 0
  else h.

Definition fill_byte_pool (seed : Z) (space : string) (offset : Z) (pool : list Z) : Z :=
  let block := Z.land offset (u64_not 3) in
  let w := fill_dword seed space block pool in
  Z.land (u64_shr w (8 * (offset - block))) 255.

Definition fill_byte (seed : Z) (space : string) (offset : Z) : Z :=
  Z.land (mix seed offset (space_len space)) 255.

Definition call_flag_bit (seed target calls off : Z) : Z :=
  Z.land (fill_byte (Z.lxor (Z.lxor (Z.lxor seed target) (u64_shl calls 8)) off) "flag" off) 1.

Definition call_clobber_fill (seed target calls off : Z) : Z :=
  let v := fill_byte (Z.lxor (Z.lxor (Z.lxor seed target) (u64_shl calls 8)) off) "call" off in
  Z.lor (Z.lor (Z.lor v (u64_shl v 8)) (u64_shl v 16)) (u64_shl v 24).

(** [partition_point(start <= at)] on ascending blocks: how many start at or before [at] *)
Fixpoint blocks_upto {A : Type} (blocks : list (Z * A)) (at_ : Z) : nat :=
  match blocks with
  | [] => 0
  | (start, _) :: blocks => if start <=? at_ then S (blocks_upto blocks at_) else 0
  end.

(** [Backing::byte] *)
Definition backing_byte (b : backing) (space : string) (at_ : Z) : option Z :=
  if negb (String.eqb space (b_space b)) then None
  else
    match blocks_upto (b_blocks b) at_ with
    | O => None
    | S i =>
        match nth_error (b_blocks b) i with
        | Some (start, bytes) => nth_error bytes (Z.to_nat (at_ - start))
        | None => None
        end
    end.

(** ** Memory *)

Definition bus (m : machine) (space : string) (address : Z) : Z :=
  match address_mask m with
  | Some (masked, mask) => if String.eqb masked space then Z.land address mask else address
  | None => address
  end.

Definition byte_at (m : machine) (space : string) (offset size i : Z) : Z :=
  let at_ := if decide (space ∈ big_endian m) then u64_add offset (size - 1 - i) else u64_add offset i in
  bus m space at_.

(** what one byte reads: the bank, the image, the fill, or zero *)
Definition read_byte (m : machine) (space : string) (at_ : Z) : Z :=
  match mem m !! space ≫= (fun bank => bank !! at_) with
  | Some b => b
  | None =>
      match image_backing m ≫= (fun img => backing_byte img space at_) with
      | Some b => b
      | None =>
          match fill m with
          | Some seed =>
              if negb (String.eqb space "register") && negb (String.eqb space "unique")
              then fill_byte_pool seed space at_ (pool m) else 0
          | None => 0
          end
      end
  end.

(** the byte indices [0 .. size.min(8)] of a value *)
Definition value_bytes (size : Z) : list Z := map Z.of_nat (seq 0 (Z.to_nat (Z.min size 8))).

Definition read (m : machine) (space : string) (offset size : Z) : Z :=
  if String.eqb space "const" then mask offset size
  else
    fold_left (fun v i => Z.lor v (u64_shl (read_byte m space (byte_at m space offset size i)) (8 * i)))
      (value_bytes size) 0.

Definition record (m : machine) (e : effect) : machine :=
  set_effect_sites (set_effects m (effects m ++ [e])) (effect_sites m ++ [at_site m]).

(** stores in the scratch window are not observable *)
Definition scratch (m : machine) (offset : Z) : bool :=
  match quiet m with
  | Some (lo, hi) => (lo <=? offset) && (offset <? hi)
  | None => false
  end.

Definition observed (m : machine) (space : string) : bool :=
  trace m && negb (String.eqb space "register") && negb (String.eqb space "unique").

(** [bank.insert] of each byte, in order *)
Definition insert_bytes (m : machine) (space : string) (bytes : list (Z * Z)) : machine :=
  let bank := default ∅ (mem m !! space) in
  set_mem m (<[space := fold_left (fun bank ab => <[fst ab := snd ab]> bank) bytes bank]> (mem m)).

Definition write (m : machine) (space : string) (offset size value : Z) : machine :=
  if String.eqb space "const" then m
  else
    let offset := bus m space offset in
    let m :=
      if observed m space && negb (scratch m offset)
      then record m (EStore space offset size (mask value size)) else m in
    insert_bytes m space
      (map (fun i => (byte_at m space offset size i, Z.land (u64_shr value (8 * i)) 255)) (value_bytes size)).

Definition indexed {A : Type} (l : list A) : list (Z * A) :=
  combine (map Z.of_nat (seq 0 (List.length l))) l.

Definition write_bytes (m : machine) (space : string) (offset : Z) (bytes : list Z) : machine :=
  if String.eqb space "const" then m
  else
    let m :=
      if observed m space && negb (scratch m offset)
      then fold_left (fun m ib => record m (EStore space (bus m space (u64_add offset (fst ib))) 1 (snd ib)))
             (indexed bytes) m
      else m in
    insert_bytes m space (map (fun ib => (bus m space (u64_add offset (fst ib)), snd ib)) (indexed bytes)).

(** ** What a run leaves for its caller *)

(** [sort_unstable] on strings *)
Definition spaces (m : machine) : list string :=
  sort_by String.leb
    (map fst (List.filter (fun sb : string * gmap Z Z => negb (bool_decide (snd sb = ∅))) (map_to_list (mem m)))).

(** ordered by step, then by the key of the [BTreeMap] *)
Definition uninitialized_registers (m : machine) : list (Z * Z * (Z * Z)) :=
  sort_by (fun a b =>
      let '(off, size, (_, step)) := a in let '(off', size', (_, step')) := b in
      (step <? step') || ((step =? step') && ((off <? off') || ((off =? off') && (size <=? size')))))
    (map_to_list (uninitialized m)).

Definition unanswered_ports (m : machine) : list (Z * (Z * Z)) :=
  sort_by (fun a b =>
      let '(port, (_, step)) := a in let '(port', (_, step')) := b in
      (step <? step') || ((step =? step') && (port <=? port')))
    (map_to_list (unanswered m)).

Definition answer_port (m : machine) (port : Z) (values : list Z) : machine :=
  set_port_answers m (<[port := (values, 0)]> (port_answers m)).

(** sorted, coalesced runs of the bytes of a space *)
Definition written (m : machine) (space : string) : list (Z * list Z) :=
  match mem m !! space with
  | None => []
  | Some bank =>
      fold_left (fun runs ab =>
          match rev runs with
          | (start, bytes) :: earlier =>
              if start + Z.of_nat (List.length bytes) =? fst ab
              then rev earlier ++ [(start, bytes ++ [snd ab])]
              else runs ++ [(fst ab, [snd ab])]
          | [] => [(fst ab, [snd ab])]
          end)
        (sort_by (fun a b : Z * Z => fst a <=? fst b) (map_to_list bank)) []
  end.

(** ** Operands *)

Definition note_register_read (m : machine) (offset size : Z) : machine :=
  let bank := mem m !! "register"%string in
  let has i := match bank ≫= (fun b => b !! u64_add offset i) with Some _ => true | None => false end in
  if forallb has (map Z.of_nat (seq 0 (Z.to_nat size))) then m
  else
    match uninitialized m !! (offset, size) with
    | Some _ => m
    | None => set_uninitialized m (<[(offset, size) := at_site m]> (uninitialized m))
    end.

Definition read_arg (a : parg) : state machine Z := fun m =>
  match a with
  | PVar v =>
      let m := if String.eqb (vn_space v) "register" then note_register_read m (vn_offset v) (vn_size v) else m in
      (read m (vn_space v) (vn_offset v) (vn_size v), m)
  | PSpace _ => (0, m)
  end.

Definition sread_arg (a : parg) : state machine Z := fun m =>
  match a with
  | PVar v => let '(x, m) := read_arg a m in (sext x (vn_size v), m)
  | PSpace _ => (0, m)
  end.
