(* ===== verification/MachineFacts.v ===== *)
(** Memory of the interpreter's machine: what a write leaves at its own location and elsewhere, and
    which fields the accessors touch. *)
From Stdlib Require Import ZArith Lia Bool List String.
From stdpp Require Import base decidable gmap strings list tactics.
From S2P Require Import Prelude Pcode M68kAlu Machine.
Local Open Scope Z_scope.

(** The bus keeps the low address lines, at least three of them: the bytes of a value are distinct
    cells. *)
Definition bus_ok (m : machine) : Prop :=
  match address_mask m with
  | Some (_, lines) => exists k, 3 <= k <= 64 /\ lines = Z.ones k
  | None => True
  end.

(** Every cell holds a byte. *)
Definition bytes_ok (m : machine) : Prop :=
  forall space bank at_ b, mem m !! space = Some bank -> bank !! at_ = Some b -> 0 <= b < 256.

(** The bytes of [value] as [write] lays them out. *)
Definition laid_out (m : machine) (space : string) (offset size value : Z) : list (Z * Z) :=
  map (fun i => (byte_at m space offset size i, Z.land (u64_shr value (8 * i)) 255)) (value_bytes size).

(** ** Bytes of a value *)

Definition combine_bytes (f : Z -> Z) (l : list Z) (acc : Z) : Z :=
  fold_left (fun v i => Z.lor v (u64_shl (f i) (8 * i))) l acc.

Lemma byte_bit_high (b j : Z) : 0 <= b < 256 -> 8 <= j -> Z.testbit b j = false.
Proof.
  intros Hb Hj. destruct (Z.eq_dec b 0) as [->|]; [apply Z.testbit_0_l|].
  apply Z.bits_above_log2; [lia|]. assert (Z.log2 b < 8) by (apply Z.log2_lt_pow2; lia). lia.
Qed.

Lemma combine_bytes_bit (f : Z -> Z) (n : nat) (j : Z) : (n <= 8)%nat -> (forall i, 0 <= f i < 256) -> 0 <= j < 64 ->
  Z.testbit (combine_bytes f (map Z.of_nat (seq 0 n)) 0) j =
  if j <? 8 * Z.of_nat n then Z.testbit (f (j / 8)) (j mod 8) else false.
Proof.
  intros Hn Hf Hj. unfold combine_bytes. induction n as [|n IH].
  - cbn. rewrite Z.testbit_0_l. cmp; [lia|done].
  - rewrite seq_S, map_app, fold_left_app. cbn [map fold_left Nat.add]. rewrite Z.lor_spec, IH by lia.
    set (k := Z.of_nat n). unfold u64_shl, w64. change 18446744073709551616 with (2 ^ 64).
    rewrite (Z.mod_small (8 * k)), Z.mod_pow2_bits_low, Z.shiftl_spec by lia.
    rewrite Nat2Z.inj_succ. fold k.
    destruct (Z.ltb_spec j (8 * k)) as [Hlt|Hge].
    + rewrite (Z.testbit_neg_r (f k)), orb_false_r by lia. destruct (Z.ltb_spec j (8 * Z.succ k)); [done|lia].
    + cbn [orb]. destruct (Z.ltb_spec j (8 * Z.succ k)).
      * assert (j / 8 = k) as -> by (symmetry; apply (Z.div_unique _ _ _ (j - 8 * k)); lia).
        f_equal. apply (Z.mod_unique_pos _ _ k); lia.
      * apply byte_bit_high; [done|lia].
Qed.

Lemma combine_bytes_range (f : Z -> Z) (n : nat) : (n <= 8)%nat -> (forall i, 0 <= f i < 256) ->
  0 <= combine_bytes f (map Z.of_nat (seq 0 n)) 0 < 2 ^ 64.
Proof.
  intros Hn Hf. unfold combine_bytes. induction n as [|n IH]; [cbn; lia|].
  rewrite seq_S, map_app, fold_left_app. cbn [map fold_left Nat.add].
  set (a := fold_left _ _ _) in *. pose proof (w64_range (Z.shiftl (f (Z.of_nat n)) (8 * Z.of_nat n mod 64))) as Hr.
  fold (u64_shl (f (Z.of_nat n)) (8 * Z.of_nat n)) in Hr. specialize (IH ltac:(lia)).
  set (b := u64_shl _ _) in *. split; [apply Z.lor_nonneg; lia|].
  destruct (Z.eq_dec (Z.lor a b) 0) as [->|]; [lia|]. assert (0 <= Z.lor a b) by (apply Z.lor_nonneg; lia).
  apply Z.log2_lt_pow2; [lia|]. rewrite Z.log2_lor by lia.
  apply Z.max_lub_lt; [destruct (Z.eq_dec a 0) as [->|]|destruct (Z.eq_dec b 0) as [->|]];
    try (cbn; lia); apply Z.log2_lt_pow2; lia.
Qed.

Lemma mask_spec (v size : Z) : 1 <= size <= 8 -> 0 <= v < 2 ^ 64 -> mask v size = v mod 2 ^ (8 * size).
Proof.
  intros Hs Hv. unfold mask. destruct (Z.leb_spec 8 size), (Z.eqb_spec size 0); try lia; cbn [orb].
  - replace size with 8 by lia. symmetry. by apply Z.mod_small.
  - rewrite Z.mul_comm. unfold u64_shl. rewrite (Z.mod_small (8 * size) 64), Z.shiftl_mul_pow2, Z.mul_1_l by lia.
    assert (2 ^ (8 * size) < 2 ^ 64) by (apply Z.pow_lt_mono_r; lia). pose proof (pow2_pos (8 * size)).
    rewrite w64_small, <- ones_pow by lia. apply Z.land_ones. lia.
Qed.

Lemma mask_bit (v size j : Z) : 1 <= size <= 8 -> 0 <= v < 2 ^ 64 -> 0 <= j ->
  Z.testbit (mask v size) j = if j <? 8 * size then Z.testbit v j else false.
Proof.
  intros. rewrite mask_spec by done. cmp; [apply Z.mod_pow2_bits_low; lia|apply Z.mod_pow2_bits_high; lia].
Qed.

Lemma mask_range (v size : Z) : 1 <= size <= 8 -> 0 <= v < 2 ^ 64 -> 0 <= mask v size < 2 ^ (8 * size).
Proof. intros. rewrite mask_spec by done. apply Z.mod_pos_bound, pow2_pos. lia. Qed.

(** Splitting a value in bytes and combining them gives its masked value. *)
Lemma combine_split (v size : Z) : 1 <= size <= 8 -> 0 <= v < 2 ^ 64 ->
  combine_bytes (fun i => Z.land (u64_shr v (8 * i)) 255) (value_bytes size) 0 = mask v size.
Proof.
  intros Hs Hv. unfold value_bytes. rewrite Z.min_l by lia.
  set (f := fun i => Z.land (u64_shr v (8 * i)) 255).
  assert (forall i, 0 <= f i < 256) as Hf.
  { intros i. unfold f. change 255 with (Z.ones 8). rewrite Z.land_ones by lia. apply Z.mod_pos_bound. lia. }
  pose proof (mask_range v size Hs Hv). assert (2 ^ (8 * size) <= 2 ^ 64) by (apply Z.pow_le_mono_r; lia).
  apply (bits_eq 64); [lia|apply combine_bytes_range; [lia|done]|lia|].
  intros j Hj. rewrite combine_bytes_bit, mask_bit by (lia || done). rewrite Z2Nat.id by lia.
  destruct (Z.ltb_spec j (8 * size)); [|done]. unfold f. change 255 with (Z.ones 8).
  pose proof (Z.mod_pos_bound j 8). pose proof (Z.div_mod j 8).
  rewrite Z.land_spec, Z.ones_spec_low, andb_true_r, shr_bit by lia. f_equal. lia.
Qed.

(** ** Cells *)

Lemma fold_insert_lookup (l : list (Z * Z)) (bank : gmap Z Z) (a : Z) :
  ~ In a (map fst l) -> fold_left (fun b ab => <[fst ab := snd ab]> b) l bank !! a = bank !! a.
Proof.
  revert bank. induction l as [|[x v] l IH]; cbn [fold_left map]; intros bank Hn; [done|].
  rewrite IH by (intros H; apply Hn; by right). cbn [fst snd]. apply lookup_insert_ne. intros ->. apply Hn. by left.
Qed.

Lemma fold_insert_in (l : list (Z * Z)) (bank : gmap Z Z) (a v : Z) :
  List.NoDup (map fst l) -> In (a, v) l -> fold_left (fun b ab => <[fst ab := snd ab]> b) l bank !! a = Some v.
Proof.
  revert bank. induction l as [|[x w] l IH]; cbn [fold_left map]; intros bank Hnd Hin; [done|].
  inversion Hnd as [|? ? Hni Hnd']; subst. destruct Hin as [[= -> ->]|Hin]; [|by apply IH].
  rewrite fold_insert_lookup by done. cbn. apply lookup_insert_eq.
Qed.

(** Recording an effect leaves memory and the layout of spaces alone. *)
Lemma read_byte_record (m : machine) (e : effect) (space : string) (a : Z) :
  read_byte (record m e) space a = read_byte m space a.
Proof. done. Qed.

Lemma byte_at_record (m : machine) (e : effect) (space : string) (offset size i : Z) :
  byte_at (record m e) space offset size i = byte_at m space offset size i.
Proof. done. Qed.

Lemma read_byte_insert (m : machine) (space sp : string) (l : list (Z * Z)) (a : Z) :
  (sp = space -> ~ In a (map fst l)) -> read_byte (insert_bytes m space l) sp a = read_byte m sp a.
Proof.
  intros Hn. unfold read_byte, insert_bytes. cbn [mem set_mem image_backing fill pool].
  destruct (decide (space = sp)) as [->|]; [|by rewrite lookup_insert_ne].
  rewrite lookup_insert_eq. cbn [mbind option_bind]. rewrite fold_insert_lookup by auto.
  destruct (mem m !! sp) as [bank|]; cbn; [done|]. by rewrite lookup_empty.
Qed.

Lemma read_byte_inserted (m : machine) (space : string) (l : list (Z * Z)) (a v : Z) :
  List.NoDup (map fst l) -> In (a, v) l -> read_byte (insert_bytes m space l) space a = v.
Proof.
  intros Hnd Hin. unfold read_byte, insert_bytes. cbn [mem set_mem].
  rewrite lookup_insert_eq. cbn [mbind option_bind]. by rewrite (fold_insert_in l _ a v).
Qed.

Lemma in_value_bytes (size i : Z) : In i (value_bytes size) <-> 0 <= i < Z.min size 8.
Proof.
  unfold value_bytes. rewrite in_map_iff. split.
  - intros (n & <- & Hn). apply in_seq in Hn. lia.
  - intros Hi. exists (Z.to_nat i). split; [lia|]. apply in_seq. lia.
Qed.

(** ** The bus *)

Lemma bus_idem (m : machine) (space : string) (a : Z) : bus m space (bus m space a) = bus m space a.
Proof.
  unfold bus. destruct (address_mask m) as [[sp lines]|]; [|done]. destruct (String.eqb sp space); [|done].
  by rewrite <- Z.land_assoc, Z.land_diag.
Qed.

(** On an admissible bus an address is its residue modulo a power of two of at least 8. *)
Lemma bus_mod (m : machine) (space : string) : bus_ok m ->
  exists k, 3 <= k <= 64 /\ forall z, bus m space (w64 z) = z mod 2 ^ k.
Proof.
  unfold bus_ok, bus. destruct (address_mask m) as [[sp lines]|].
  - intros (k & Hk & ->). destruct (String.eqb sp space); [|by exists 64].
    exists k. split; [done|]. intros z. apply land_ones_w64. lia.
  - intros _. by exists 64.
Qed.

(** The displacement of byte [i] in its location. *)
Definition displacement (m : machine) (space : string) (size i : Z) : Z :=
  if decide (space ∈ big_endian m) then size - 1 - i else i.

Lemma byte_at_mod (m : machine) (space : string) (k : Z) : (forall z, bus m space (w64 z) = z mod 2 ^ k) ->
  forall offset size i, byte_at m space offset size i = (offset + displacement m space size i) mod 2 ^ k.
Proof.
  intros Hk offset size i. unfold byte_at, displacement, u64_add. by destruct (decide _); rewrite Hk.
Qed.

(** The bytes of a location are distinct cells, reached through the bus once or twice. *)
Lemma byte_at_bus (m : machine) (space : string) (offset size i : Z) : bus_ok m -> 0 <= offset < 2 ^ 64 ->
  byte_at m space (bus m space offset) size i = byte_at m space offset size i.
Proof.
  intros Hok Ho. destruct (bus_mod m space Hok) as (k & Hk & Hmod). rewrite !(byte_at_mod m space k) by done.
  rewrite <- (w64_small offset) at 1 by done. rewrite Hmod, Zplus_mod_idemp_l. done.
Qed.

Lemma byte_at_inj (m : machine) (space : string) (offset size i j : Z) : bus_ok m ->
  0 <= i < Z.min size 8 -> 0 <= j < Z.min size 8 ->
  byte_at m space offset size i = byte_at m space offset size j -> i = j.
Proof.
  intros Hok Hi Hj E. destruct (bus_mod m space Hok) as (k & Hk & Hmod).
  rewrite !(byte_at_mod m space k) in E by done.
  assert (2 ^ 3 <= 2 ^ k) by (apply Z.pow_le_mono_r; lia).
  apply mod_eq_sub in E; [|lia]. unfold displacement in E.
  destruct (decide _); apply mod_zero_small in E; lia.
Qed.

Lemma laid_out_NoDup (m : machine) (space : string) (offset size value : Z) : bus_ok m ->
  List.NoDup (map fst (laid_out m space offset size value)).
Proof.
  intros Hok. unfold laid_out. rewrite map_map. cbn [fst].
  assert (forall l, List.NoDup l -> (forall i, In i l -> 0 <= i < Z.min size 8) ->
            List.NoDup (map (fun i => byte_at m space offset size i) l)) as H.
  { induction l as [|x l IH]; intros Hnd Hin; [constructor|]. inversion Hnd; subst. cbn. constructor.
    - rewrite in_map_iff. intros (y & Hy & Hyl). apply byte_at_inj in Hy; [by subst|done| |]; apply Hin; [by right|by left].
    - apply IH; [done|]. intros; apply Hin; by right. }
  apply H; [|by intros; apply in_value_bytes]. unfold value_bytes.
  apply NoDup_ListNoDup, NoDup_fmap_2; [intros x y; lia|]. apply NoDup_ListNoDup, seq_NoDup.
Qed.

(** ** Reading and writing *)

(** A write to a memory space is the insertion of its bytes, after the record of the effect. *)
Lemma write_cells (m : machine) (space : string) (offset size value : Z) :
  String.eqb space "const" = false -> bus_ok m -> 0 <= offset < 2 ^ 64 ->
  exists m', (m' = m \/ m' = record m (EStore space (bus m space offset) size (mask value size))) /\
    write m space offset size value = insert_bytes m' space (laid_out m space offset size value).
Proof.
  intros Hc Hok Ho. unfold write. rewrite Hc.
  set (m' := if observed m space && _ then _ else m). exists m'. split.
  - unfold m'. destruct (_ && _); [by right|by left].
  - unfold laid_out. f_equal. apply map_ext. intros i. f_equal.
    rewrite <- (byte_at_bus m) by done. unfold m'. by destruct (_ && _).
Qed.

Lemma read_written (m : machine) (space : string) (offset size value : Z) :
  String.eqb space "const" = false -> bus_ok m -> 0 <= offset < 2 ^ 64 -> 1 <= size <= 8 ->
  0 <= value < 2 ^ 64 -> read (write m space offset size value) space offset size = mask value size.
Proof.
  intros Hc Hok Ho Hs Hv. destruct (write_cells m space offset size value Hc Hok Ho) as (m' & Hm' & ->).
  rewrite <- combine_split by done. unfold read. rewrite Hc. unfold combine_bytes.
  assert (forall l acc, (forall i, In i l -> In i (value_bytes size)) ->
    fold_left (fun v i => Z.lor v (u64_shl (read_byte (insert_bytes m' space (laid_out m space offset size value)) space
       (byte_at (insert_bytes m' space (laid_out m space offset size value)) space offset size i)) (8 * i))) l acc
    = fold_left (fun v i => Z.lor v (u64_shl (Z.land (u64_shr value (8 * i)) 255) (8 * i))) l acc) as H.
  { induction l as [|i l IH]; intros acc Hin; [done|]. cbn [fold_left].
    rewrite IH by (intros; apply Hin; by right). do 3 f_equal.
    apply read_byte_inserted; [by apply laid_out_NoDup|]. unfold laid_out. apply in_map_iff.
    exists i. split; [|apply Hin; by left]. f_equal. by destruct Hm' as [-> | ->]. }
  apply H. done.
Qed.

Lemma write_elsewhere (m : machine) (space sp : string) (offset size value a : Z) :
  bus_ok m -> 0 <= offset < 2 ^ 64 ->
  (sp = space -> forall i, 0 <= i < Z.min size 8 -> a <> byte_at m space offset size i) ->
  read_byte (write m space offset size value) sp a = read_byte m sp a.
Proof.
  intros Hok Ho Ha. destruct (String.eqb space "const") eqn:Hc; [unfold write; by rewrite Hc|].
  destruct (write_cells m space offset size value Hc Hok Ho) as (m' & Hm' & ->).
  rewrite read_byte_insert; [by destruct Hm' as [-> | ->]|].
  intros E. unfold laid_out. rewrite map_map, in_map_iff. intros (i & Hi & Hin). cbn in Hi.
  apply in_value_bytes in Hin. by apply (Ha E i).
Qed.

Lemma write_layout (m : machine) (space sp : string) (offset size value off sz i : Z) :
  byte_at (write m space offset size value) sp off sz i = byte_at m sp off sz i.
Proof. unfold write. destruct (String.eqb space "const"); [done|]. by destruct (_ && _). Qed.

(** A value depends on its cells only. *)
Lemma read_ext (m m' : machine) (space : string) (offset size : Z) (l : list Z) (acc : Z) :
  (forall a, read_byte m space a = read_byte m' space a) ->
  (forall i, byte_at m space offset size i = byte_at m' space offset size i) ->
  fold_left (fun v i => Z.lor v (u64_shl (read_byte m space (byte_at m space offset size i)) (8 * i))) l acc =
  fold_left (fun v i => Z.lor v (u64_shl (read_byte m' space (byte_at m' space offset size i)) (8 * i))) l acc.
Proof. intros Hr Hb. revert acc. induction l as [|i l IH]; intros acc; [done|]. cbn. by rewrite IH, Hr, Hb. Qed.

(** What a store is seen as from outside: nothing in the registers, in the temporaries, or in the
    scratch window. *)
Definition store_effects (m : machine) (space : string) (offset size value : Z) : list effect :=
  if observed m space && negb (scratch m (bus m space offset))
  then [EStore space (bus m space offset) size (mask value size)] else [].

Lemma write_effects (m : machine) (space : string) (offset size value : Z) :
  String.eqb space "const" = false ->
  effects (write m space offset size value) = effects m ++ store_effects m space offset size value.
Proof.
  intros Hc. unfold write, store_effects. rewrite Hc.
  destruct (observed m space && _); cbn; [done|]. by rewrite app_nil_r.
Qed.

(** [C25] A write of 1 to 8 bytes to a register or memory location, in either byte order and through
    any bus of at least three address lines: the location reads back the value masked to its size,
    every other cell of every space reads as before, and one store is recorded exactly when the
    machine is traced and the location is in observable memory. *)
Theorem write_spec (m : machine) (space : string) (offset size value : Z) :
  String.eqb space "const" = false -> bus_ok m -> 0 <= offset < 2 ^ 64 -> 1 <= size <= 8 -> 0 <= value < 2 ^ 64 ->
  let m' := write m space offset size value in
  read m' space offset size = mask value size /\
  (forall sp a, (sp = space -> forall i, 0 <= i < size -> a <> byte_at m space offset size i) ->
     read_byte m' sp a = read_byte m sp a) /\
  effects m' = effects m ++ store_effects m space offset size value.
Proof.
  intros Hc Hok Ho Hs Hv m'. split; [by apply read_written|]. split; [|by apply write_effects].
  intros sp a Ha. apply write_elsewhere; [done|done|]. intros E i Hi. apply Ha; [done|lia].
Qed.

(** Two bytes at the top of a 68000's 24-bit big-endian bus: the second wraps to address 0, and the
    recorded address is the bus's. *)
Lemma write_spec_witness :
  let m := Machine ∅ None [] 0 ∅ ∅ [] [] [] (0, 0) ∅ ∅ ∅ true None [] [] None None {["ram"%string]}
             (Some ("ram"%string, Z.ones 24)) None None in
  let m' := write m "ram" 4294967295 2 74565 in
  read m' "ram" 4294967295 2 = 9029 /\ read_byte m' "ram" 0 = 69 /\ read_byte m' "ram" 1 = 0 /\
  effects m' = [EStore "ram" 16777215 2 9029].
Proof.
  intros m m'.
  destruct (write_spec m "ram" 4294967295 2 74565) as (H1 & H2 & H3);
    [reflexivity|exists 24; split; [lia|reflexivity]|lia|lia|lia|].
  split; [exact H1|]. split; [vm_compute; reflexivity|]. split.
  - etransitivity; [apply H2|reflexivity]. intros _ i Hi. assert (i = 0 \/ i = 1) as [-> | ->] by lia; vm_compute; discriminate.
  - etransitivity; [exact H3|reflexivity].
Defined.
