(* ===== verification/M68kModifier.v ===== *)
(** The 68000 state modifier of [sleigh/emu_m68k.rs]: which instructions it handles, the ones it
    executes in place of their p-code, and what it adjusts once the p-code of the others has run. *)
From Stdlib Require Import ZArith Lia Bool List String Ascii.
From stdpp Require Import base decidable gmap strings pretty list tactics.
From S2P Require Import Prelude Pcode M68kAlu Machine.
Local Open Scope Z_scope.

(** ** What the emulator reads of a language specification

    [disassemble_ctx bytes base context] is the decoder of [sleigh/engine.rs]: the instructions of
    a byte window, with their addresses, lengths and p-code. *)
Record instruction := Instruction {
  in_address : Z;
  in_mnemonic : string;
  in_bytes : list Z;
  in_ops : list pcode_op;
}.

Record spec := Spec {
  emulate_modifier : option string;
  register_offset : string -> option Z;
  default_space_name : string;
  big_endian_names : list string;
  spec_userops : gmap Z string;
  disassemble_ctx : list Z -> Z -> list Z -> list instruction;
}.

(** ** Strings *)

Definition ascii_lower (c : ascii) : ascii :=
  let n := nat_of_ascii c in
  if ((65 <=? n) && (n <=? 90))%nat then ascii_of_nat (n + 32) else c.

Fixpoint to_ascii_lowercase (s : string) : string :=
  match s with
  | EmptyString => EmptyString
  | String c s => String (ascii_lower c) (to_ascii_lowercase s)
  end.

(** [split('.').next()] *)
Fixpoint before_dot (s : string) : string :=
  match s with
  | EmptyString => EmptyString
  | String c s => if Ascii.eqb c "." then EmptyString else String c (before_dot s)
  end.

Definition ends_with (s suffix : string) : bool :=
  let n := String.length s in
  let k := String.length suffix in
  (k <=? n)%nat && String.eqb (String.substring (n - k) k s) suffix.

(** ** Resolution and classification *)

Definition modifier_class : string := ".m68kEmulateInstructionStateModifier".

Fixpoint map_option {A B : Type} (f : A -> option B) (l : list A) : option (list B) :=
  match l with
  | [] => Some []
  | x :: l =>
      match f x, map_option f l with
      | Some y, Some l => Some (y :: l)
      | _, _ => None
      end
  end.

Definition for_spec (sp : spec) : option m68k :=
  match emulate_modifier sp with
  | None => None
  | Some name =>
      if negb (ends_with name modifier_class) then None
      else
        let reg := register_offset sp in
        let idx := seq 0 8 in
        match map_option (fun i => reg ("D" ++ pretty i)%string) idx,
              map_option (fun i => reg (if (i =? 7)%nat then "SP" else ("A" ++ pretty i))%string) idx,
              reg "XF"%string, reg "NF"%string, reg "ZF"%string, reg "VF"%string, reg "CF"%string with
        | Some d, Some a, Some x, Some n, Some z, Some v, Some c =>
            Some (M68k d a x n z v c (default_space_name sp))
        | _, _, _, _, _, _, _ => None
        end
  end.

(** the four families by the two-bit type field *)
Definition kinds (i : Z) : shift_kind :=
  if i =? 0 then Arithmetic else if i =? 1 then Logical else if i =? 2 then RotateExtended else Rotate.

Definition is_shift_name (base : string) : bool :=
  existsb (String.eqb base) ["asl"; "asr"; "lsl"; "lsr"; "roxl"; "roxr"; "rol"; "ror"]%string.

Definition classify (mnemonic : string) (bytes : list Z) : option insn :=
  match bytes with
  | b0 :: b1 :: _ =>
      let word := 256 * b0 + b1 in
      let rx := Z.land (Z.shiftr word 9) 7 in
      let ry := Z.land word 7 in
      let memory := bit_set (Z.land word 8) in
      let name := to_ascii_lowercase mnemonic in
      if String.eqb name "abcd" then Some (Bcd true rx ry memory)
      else if String.eqb name "sbcd" then Some (Bcd false rx ry memory)
      else if String.eqb name "nbcd" then Some Nbcd
      else if String.eqb name "divu.w" then Some (DivW false rx)
      else if String.eqb name "divs.w" then Some (DivW true rx)
      else
        let base := before_dot name in
        if negb (Z.land word 61440 =? 57344) || negb (is_shift_name base) then None
        else
          let left := bit_set (Z.land word 256) in
          let size := Z.land (Z.shiftr word 6) 3 in
          if size =? 3 then Some (ShiftMemory (kinds (Z.land (Z.shiftr word 9) 3)) left)
          else
            Some (Shift (kinds (Z.land (Z.shiftr word 3) 3)) left (Z.shiftl 8 size) rx
                    (bit_set (Z.land word 32)) ry)
  | _ => None
  end.

(** ** Execution *)

(** a register of the banks *)
Definition d_reg (k : m68k) (i : Z) : Z := nth (Z.to_nat i) (m_d k) 0.
Definition a_reg (k : m68k) (i : Z) : Z := nth (Z.to_nat i) (m_a k) 0.

Definition read_reg (m : machine) (off size : Z) : Z := read m "register" off size.
Definition write_reg (m : machine) (off size v : Z) : machine := write m "register" off size v.

(** X and C, V, N, and Z kept from [z] when the result is zero *)
Definition set_bcd_flags (k : m68k) (m : machine) (flags : bool * bool * bool * bool) (z : Z) : machine :=
  let '(carry, overflow, negative, nonzero) := flags in
  let m := write_reg m (m_x k) 1 (u64_of_bool carry) in
  let m := write_reg m (m_c k) 1 (u64_of_bool carry) in
  let m := write_reg m (m_v k) 1 (u64_of_bool overflow) in
  let m := write_reg m (m_n k) 1 (u64_of_bool negative) in
  write_reg m (m_z k) 1 (if nonzero then 0 else z).

Definition execute_shift (k : m68k) (m : machine) (kind : shift_kind) (left : bool) (bits count : Z)
    (by_register : bool) (dy : Z) : machine :=
  let n := if by_register then w32 (Z.land (read_reg m (d_reg k count) 4) 63)
           else if count =? 0 then 8 else w32 count in
  let old := read_reg m (d_reg k dy) 4 in
  let x := bit_set (Z.land (read_reg m (m_x k) 1) 1) in
  let r := shift kind left bits old n x in
  let keep := if bits =? 32 then 0 else Z.land 4294967295 (u64_not (u64_shl 1 bits - 1)) in
  let m := write_reg m (d_reg k dy) 4 (Z.lor (Z.land old keep) (sh_value r)) in
  let m := match sh_x r with Some x => write_reg m (m_x k) 1 (u64_of_bool x) | None => m end in
  let m := write_reg m (m_n k) 1 (Z.land (u64_shr (sh_value r) (bits - 1)) 1) in
  let m := write_reg m (m_z k) 1 (u64_of_bool (sh_value r =? 0)) in
  let m := write_reg m (m_v k) 1 (u64_of_bool (sh_overflow r)) in
  write_reg m (m_c k) 1 (u64_of_bool (sh_carry r)).

(** predecrement by the operand size, by two for A7 *)
Definition predecrement (k : m68k) (m : machine) (r : Z) : Z :=
  Z.land (u64_sub (read_reg m (a_reg k r) 4) (if r =? 7 then 2 else 1)) 4294967295.

Definition execute_bcd (k : m68k) (m : machine) (add : bool) (rx ry : Z) (memory : bool) : machine :=
  let x := bit_set (Z.land (read_reg m (m_x k) 1) 1) in
  let '(src, dst, at_, m) :=
    if memory then
      let ay := predecrement k m ry in
      let m := write_reg m (a_reg k ry) 4 ay in
      let src := w8 (read m (m_ram k) ay 1) in
      let ax := predecrement k m rx in
      let m := write_reg m (a_reg k rx) 4 ax in
      (src, w8 (read m (m_ram k) ax 1), Some ax, m)
    else (w8 (read_reg m (d_reg k ry) 4), w8 (read_reg m (d_reg k rx) 4), None, m) in
  let r := if add then bcd_add dst src x else bcd_sub dst src x in
  let m :=
    match at_ with
    | Some ax => write m (m_ram k) ax 1 (dec_value r)
    | None =>
        let dx := read_reg m (d_reg k rx) 4 in
        write_reg m (d_reg k rx) 4 (Z.lor (Z.land dx (u64_not 255)) (dec_value r))
    end in
  let z := read_reg m (m_z k) 1 in
  set_bcd_flags k m
    (dec_carry r, dec_overflow r, bit_set (Z.land (dec_value r) 128), negb (dec_value r =? 0)) z.

(** executed in place of the p-code: [None] when it is not *)
Definition execute (k : m68k) (m : machine) (i : insn) : option machine :=
  match i with
  | Shift kind lft bits count by_register dy =>
      Some (execute_shift k m kind lft bits count by_register dy)
  | Bcd add rx ry memory => Some (execute_bcd k m add rx ry memory)
  | _ => None
  end.

Definition take_before (k : m68k) (m : machine) (i : insn) : before :=
  let dividend := match i with DivW _ dn => read_reg m (d_reg k dn) 4 | _ => 0 end in
  Before dividend (read_reg m (m_z k) 1) None None.

Definition x_flag (k : m68k) (m : machine) : bool := bit_set (Z.land (read_reg m (m_x k) 1) 1).

Definition after_div (k : m68k) (m : machine) (signed : bool) (dn : Z) (bf : before) (q : Z) : machine :=
  let fits := if signed then (-32768 <=? i64 q) && (i64 q <=? 32767) else q <=? 65535 in
  let m := write_reg m (m_c k) 1 0 in
  if fits then
    let m := write_reg m (m_n k) 1 (Z.land (u64_shr q 15) 1) in
    let m := write_reg m (m_z k) 1 (u64_of_bool (Z.land q 65535 =? 0)) in
    write_reg m (m_v k) 1 0
  else
    let m := write_reg m (d_reg k dn) 4 (bf_dividend bf) in
    let m := write_reg m (m_n k) 1 1 in
    let m := write_reg m (m_z k) 1 0 in
    write_reg m (m_v k) 1 1.

Definition after (k : m68k) (m : machine) (i : insn) (bf : before) : machine :=
  match i with
  | Nbcd =>
      match bf_nbcd_flags bf with
      | Some flags => set_bcd_flags k m flags (bf_z bf)
      | None => m
      end
  | DivW signed dn =>
      match bf_quotient bf with
      | Some q => after_div k m signed dn bf q
      | None => m
      end
  | ShiftMemory kind lft =>
      if bool_decide (kind = Arithmetic) && lft then m else write_reg m (m_v k) 1 0
  | Bcd _ _ _ _ | Shift _ _ _ _ _ _ => m
  end.
