(* ===== verification/AluFacts.v ===== *)
(** The 64-bit arithmetic of the interpreter's integer operations: each computes, once masked to the
    size of its output, the value [PcodeSem] gives the operation. *)
From Stdlib Require Import ZArith Lia Bool List.
From stdpp Require Import base decidable tactics.
From S2P Require Import Prelude OpCode PcodeSem BitUtil M68kAlu Machine MachineFacts.
Local Open Scope Z_scope.

(** [r] is a [u64] whose low [size] bytes hold [v]. *)
Definition holds (size r v : Z) : Prop := 0 <= r < 2 ^ 64 /\ mask r size = v.

(** ** Words of a size *)

Lemma holds_w64 (size z : Z) : valid_size size -> holds size (w64 z) (wrap size z).
Proof.
  intros Hs. split; [apply w64_range|]. rewrite mask_spec by (done || apply w64_range).
  by apply w64_mod.
Qed.

Lemma value_word (size x : Z) : valid_size size -> is_value size x -> 0 <= x < 2 ^ 64.
Proof. intros Hs Hx. pose proof (modulus_ge size Hs). unfold is_value in Hx. lia. Qed.

Lemma holds_word (size x : Z) : valid_size size -> 0 <= x < 2 ^ 64 -> holds size x (wrap size x).
Proof. intros Hs Hx. rewrite <- (w64_small x) at 1 by done. by apply holds_w64. Qed.

Lemma mask_value (size x : Z) : valid_size size -> is_value size x -> mask x size = x.
Proof.
  intros Hs Hx. rewrite mask_spec by (done || by eapply value_word). by apply Z.mod_small.
Qed.

Lemma b2z_of_bool (b : bool) : u64_of_bool b = b2z b.
Proof. done. Qed.

Lemma holds_bool (b : bool) : holds 1 (u64_of_bool b) (b2z b).
Proof. by destruct b. Qed.

Lemma log2_word (x : Z) : 0 <= x < 2 ^ 64 -> Z.log2 x < 64.
Proof. intros Hx. destruct (Z.eq_dec x 0) as [->|]; [cbn; lia|apply Z.log2_lt_pow2; lia]. Qed.

Lemma land_word (x y : Z) : 0 <= x < 2 ^ 64 -> 0 <= y -> 0 <= Z.land x y < 2 ^ 64.
Proof.
  intros Hx Hy. assert (0 <= Z.land x y) by (apply Z.land_nonneg; lia). split; [done|].
  destruct (Z.eq_dec (Z.land x y) 0) as [->|]; [lia|].
  apply Z.log2_lt_pow2; [lia|]. pose proof (Z.log2_land x y ltac:(lia) Hy).
  assert (x <> 0) by (intros ->; by rewrite Z.land_0_l in *).
  pose proof (log2_word x Hx). lia.
Qed.

Lemma lor_word (x y : Z) : 0 <= x < 2 ^ 64 -> 0 <= y < 2 ^ 64 -> 0 <= Z.lor x y < 2 ^ 64.
Proof.
  intros Hx Hy. assert (0 <= Z.lor x y) by (apply Z.lor_nonneg; lia). split; [done|].
  destruct (Z.eq_dec (Z.lor x y) 0) as [->|]; [lia|]. apply Z.log2_lt_pow2; [lia|]. rewrite Z.log2_lor by lia.
  apply Z.max_lub_lt; by apply log2_word.
Qed.

Lemma lxor_word (x y : Z) : 0 <= x < 2 ^ 64 -> 0 <= y < 2 ^ 64 -> 0 <= Z.lxor x y < 2 ^ 64.
Proof.
  intros Hx Hy. assert (0 <= Z.lxor x y) by (apply Z.lxor_nonneg; lia). split; [done|].
  destruct (Z.eq_dec (Z.lxor x y) 0) as [->|]; [lia|]. apply Z.log2_lt_pow2; [lia|].
  pose proof (Z.log2_lxor x y ltac:(lia) ltac:(lia)).
  pose proof (log2_word x Hx). pose proof (log2_word y Hy). lia.
Qed.

(** ** The signed reading *)

(** Adding the sign bit without carry. *)
Lemma lxor_sign (k m : Z) : 0 <= k -> 0 <= m < 2 * 2 ^ k ->
  Z.lxor m (2 ^ k) = if m <? 2 ^ k then m + 2 ^ k else m - 2 ^ k.
Proof.
  intros Hk Hm. pose proof (pow2_pos k Hk).
  assert (forall r, 0 <= r < 2 ^ k -> Z.lxor r (2 ^ k) = r + 2 ^ k) as Hlow.
  { intros r Hr. symmetry. apply Z.add_nocarry_lxor. apply Z.bits_inj'. intros i Hi.
    rewrite Z.land_spec, Z.bits_0, Z.pow2_bits_eqb by done. destruct (Z.eqb_spec k i) as [->|]; [|by rewrite andb_false_r].
    rewrite andb_true_r. destruct (Z.eq_dec r 0) as [->|]; [apply Z.testbit_0_l|].
    apply Z.bits_above_log2; [lia|]. apply Z.log2_lt_pow2; lia. }
  destruct (Z.ltb_spec m (2 ^ k)) as [Hlt|Hge]; [apply Hlow; lia|].
  assert (m = Z.lxor (m - 2 ^ k) (2 ^ k)) as -> by (rewrite Hlow; lia).
  rewrite Z.lxor_assoc, Z.lxor_nilpotent, Z.lxor_0_r. rewrite Hlow; lia.
Qed.

Lemma sext_spec (size x : Z) : valid_size size -> 0 <= x < 2 ^ 64 -> sext x size = signed size (wrap size x).
Proof.
  intros Hs Hx. unfold sext, valid_size in *. pose proof (modulus_half size Hs) as Hh.
  destruct (Z.eqb_spec size 0), (Z.leb_spec 8 size); try lia; cbn [orb].
  - replace size with 8 in * by lia. unfold i64, signed, wrap, modulus. rewrite w64_small by done.
    rewrite Z.mod_small by done. change (2 ^ (8 * 8) / 2) with 9223372036854775808.
    change (2 ^ (8 * 8)) with 18446744073709551616. done.
  - rewrite mask_spec by (done || lia). fold (modulus size). fold (wrap size x).
    assert (modulus size <= 2 ^ 56) by (apply Z.pow_le_mono_r; lia).
    assert (2 ^ (8 * size - 1) = modulus size / 2) as Eh.
    { unfold modulus. replace (8 * size) with (1 + (8 * size - 1)) at 2 by lia.
      rewrite Z.pow_add_r by lia. rewrite (Z.mul_comm (2 ^ 1)), Z.div_mul by lia. done. }
    replace (size * 8 - 1) with (8 * size - 1) by lia.
    assert (u64_shl 1 (8 * size - 1) = modulus size / 2) as ->.
    { unfold u64_shl. rewrite (Z.mod_small _ 64), Z.shiftl_mul_pow2, Z.mul_1_l, Eh by lia. apply w64_small. lia. }
    pose proof (wrap_value size x Hs) as Hw. unfold is_value in Hw.
    unfold u64_sub. rewrite <- Eh, lxor_sign, Eh by lia. unfold signed.
    rewrite i64_small by (cmp; lia). cmp; lia.
Qed.

Lemma sext_value (size x : Z) : valid_size size -> is_value size x -> sext x size = signed size x.
Proof. intros Hs Hx. rewrite sext_spec by (done || by eapply value_word). by rewrite wrap_small. Qed.

Lemma sext_range (size x : Z) : valid_size size -> 0 <= x < 2 ^ 64 ->
  - (modulus size / 2) <= sext x size < modulus size / 2.
Proof. intros. rewrite sext_spec by done. apply signed_range; [done|]. by apply wrap_value. Qed.

Lemma half_word (size : Z) : valid_size size -> modulus size / 2 <= 2 ^ 63.
Proof. intros Hs. pose proof (modulus_ge size Hs). pose proof (modulus_half size Hs). lia. Qed.

(** ** The operations *)

Section Values.
Variables (size x y : Z).
Hypotheses (Hs : valid_size size) (Hx : is_value size x) (Hy : is_value size y).

Lemma word_x : 0 <= x < 2 ^ 64.
Proof using Hs Hx. by eapply value_word. Qed.
Lemma word_y : 0 <= y < 2 ^ 64.
Proof using Hs Hy. by eapply value_word. Qed.

Lemma carry_value :
  u64_of_bool ((mask u64_max size <? u64_add (mask x size) (mask y size)) || (u64_max <? mask x size + mask y size))
  = b2z (modulus size <=? x + y).
Proof using Hs Hx Hy.
  rewrite (mask_value size x), (mask_value size y) by done. pose proof word_x. pose proof word_y. pose proof (modulus_ge size Hs) as Hm.
  assert (mask u64_max size = modulus size - 1) as ->.
  { rewrite mask_spec by (done || (unfold u64_max; lia)). symmetry.
    assert (modulus size * 2 ^ (64 - 8 * size) = 2 ^ 64) as E.
    { unfold modulus, valid_size in *. rewrite <- Z.pow_add_r by lia. f_equal. lia. }
    apply (Z.mod_unique_pos _ _ (2 ^ (64 - 8 * size) - 1)); [unfold modulus in *; lia|].
    change u64_max with (2 ^ 64 - 1). rewrite <- E. unfold modulus. lia. }
  rewrite b2z_of_bool. f_equal. unfold is_value, u64_add, w64, u64_max in *.
  destruct (Z.eq_dec size 8) as [->|].
  - change (modulus 8) with 18446744073709551616 in *. modcase (x + y) 18446744073709551616; cmp; cbn; lia.
  - assert (modulus size <= 2 ^ 56) by (unfold modulus, valid_size in *; apply Z.pow_le_mono_r; lia).
    rewrite Z.mod_small by lia. cmp; cbn; lia.
Qed.

(** The sign of a wrapped sum or difference of two signed values. *)
Lemma sum_sign (a b : Z) (h := modulus size / 2) : - h <= a < h -> - h <= b < h -> forall s, s = a + b \/ s = a - b ->
  sext (mask (w64 (i64 s)) size) size = if s <? - h then s + 2 * h else if s <? h then s else s - 2 * h.
Proof using Hs.
  intros Ha Hb s Hsum. pose proof (modulus_half size Hs) as Hh. pose proof (half_word size Hs) as Hw.
  pose proof (modulus_ge size Hs). fold h in Hh, Hw.
  assert (w64 (i64 s) = w64 s) as ->.
  { unfold i64. cmp; [apply w64_w64|]. rewrite w64_sub_l. unfold w64.
    replace (s - 18446744073709551616) with (s + (-1) * 18446744073709551616) by lia. apply Z.mod_add. lia. }
  rewrite mask_spec by (done || apply w64_range). fold (modulus size). rewrite w64_mod by done.
  fold (wrap size s). pose proof (wrap_value size s Hs) as Hv. rewrite sext_value by done.
  unfold signed, wrap in *. fold h. clear Hv. set (m := modulus size) in *.
  assert (- m <= s < 2 * m) as Hr by lia. destruct (mod_cases s m) as [[? E]|[[? E]|[? E]]]; [lia|done|..]; rewrite E; cmp; lia.
Qed.

Lemma scarry_value (a := signed size x) (b := signed size y) :
  (let s := sext (mask (w64 (i64 (a + b))) size) size in
   u64_of_bool (eqb (a <? 0) (b <? 0) && negb (eqb (a <? 0) (s <? 0))))
  = b2z ((modulus size / 2 <=? a + b) || (a + b <? - (modulus size / 2))).
Proof using Hs Hx Hy.
  pose proof (signed_range size x Hs Hx) as Ha. pose proof (signed_range size y Hs Hy) as Hb.
  pose proof (modulus_half size Hs). pose proof (modulus_ge size Hs). fold a in Ha. fold b in Hb.
  rewrite (sum_sign a b Ha Hb) by auto. rewrite b2z_of_bool. cbn zeta. f_equal. cmp; cbn; lia.
Qed.

Lemma sborrow_value (a := signed size x) (b := signed size y) :
  (let s := sext (mask (w64 (i64 (a - b))) size) size in
   u64_of_bool (negb (eqb (a <? 0) (b <? 0)) && negb (eqb (a <? 0) (s <? 0))))
  = b2z ((modulus size / 2 <=? a - b) || (a - b <? - (modulus size / 2))).
Proof using Hs Hx Hy.
  pose proof (signed_range size x Hs Hx) as Ha. pose proof (signed_range size y Hs Hy) as Hb.
  pose proof (modulus_half size Hs). pose proof (modulus_ge size Hs). fold a in Ha. fold b in Hb.
  rewrite (sum_sign a b Ha Hb) by auto. rewrite b2z_of_bool. cbn zeta. f_equal. cmp; cbn; lia.
Qed.
End Values.

Section Shifts.
Variables (size x y : Z).
Hypotheses (Hs : valid_size size) (Hx : is_value size x) (Hy : 0 <= y).

(** A distance is counted modulo 64. *)
Lemma w32_mod64 : w32 y mod 64 = y mod 64.
Proof using. unfold w32. apply Z.mod_mod_divide. by exists (2 ^ 26). Qed.

Lemma left_value : holds size (u64_shl x (w32 y)) (wrap size (x * 2 ^ (y mod 64))).
Proof using Hs.
  pose proof (Z.mod_pos_bound y 64). unfold u64_shl. rewrite w32_mod64, Z.shiftl_mul_pow2 by lia. by apply holds_w64.
Qed.

Lemma shr_div (n : Z) : 0 <= n < 64 -> u64_shr x n = x / 2 ^ n.
Proof using. intros. unfold u64_shr. rewrite Z.mod_small, Z.shiftr_div_pow2 by lia. done. Qed.

Lemma div_word (n : Z) : 0 <= n -> 0 <= x / 2 ^ n < 2 ^ 64.
Proof using Hs Hx.
  intros Hn. pose proof (value_word size x Hs Hx). pose proof (pow2_pos n Hn).
  split; [apply Z.div_pos; lia|]. apply Z.div_lt_upper_bound; nia.
Qed.

Lemma right_value (out : Z) : valid_size out -> holds out (u64_shr x (w32 y)) (wrap out (x / 2 ^ (y mod 64))).
Proof using Hs Hx.
  intros. pose proof (Z.mod_pos_bound y 64). unfold u64_shr. rewrite w32_mod64, Z.shiftr_div_pow2 by lia.
  apply holds_word; [done|]. apply div_word. lia.
Qed.

(** Bytes cut off are counted modulo 8. *)
Lemma subpiece_value (out : Z) : valid_size out ->
  holds out (u64_shr x (u64_mul y 8)) (wrap out (x / 2 ^ (8 * (y mod 8)))).
Proof using Hs Hx.
  intros. pose proof (Z.mod_pos_bound y 8). unfold u64_shr, u64_mul, w64.
  rewrite Z.mod_mod_divide by (by exists (2 ^ 58)). rewrite (Z.mul_comm y). change 64 with (8 * 8).
  rewrite Z.mul_mod_distr_l, Z.shiftr_div_pow2 by lia. apply holds_word; [done|]. apply div_word. lia.
Qed.

(** A distance of an arithmetic shift is counted modulo [2 ^ 32]. *)
Lemma sright_value : holds size (w64 (i64_shr (sext x size) (Z.min (w32 y) 63))) (wrap size (signed size x / 2 ^ (y mod 2 ^ 32))).
Proof using Hs Hx.
  change (w32 y) with (y mod 2 ^ 32). pose proof (Z.mod_pos_bound y (2 ^ 32) ltac:(lia)) as Hn.
  generalize dependent (y mod 2 ^ 32). intros n Hn. rewrite sext_value by done. unfold i64_shr.
  rewrite Z.mod_small, Z.shiftr_div_pow2 by lia.
  replace (signed size x / 2 ^ n) with (signed size x / 2 ^ Z.min n 63); [by apply holds_w64|].
  destruct (Z.le_gt_cases n 63); [by rewrite Z.min_l by lia|]. rewrite Z.min_r by lia.
  pose proof (signed_range size x Hs Hx). pose proof (half_word size Hs).
  assert (2 ^ 63 <= 2 ^ n) by (apply Z.pow_le_mono_r; lia). pose proof (modulus_ge size Hs).
  destruct (Z.lt_ge_cases (signed size x) 0).
  - assert (forall p, 2 ^ 63 <= p -> signed size x / p = -1) as E.
    { intros p Hp. symmetry. apply (Z.div_unique _ _ _ (signed size x + p)); lia. }
    by rewrite !E.
  - by rewrite !Z.div_small by lia.
Qed.
End Shifts.

Lemma bit_cases (x : Z) : Z.land x 1 = 0 \/ Z.land x 1 = 1.
Proof. change (Z.land x 1) with (Z.land x (Z.ones 1)). rewrite Z.land_ones by lia. pose proof (Z.mod_pos_bound x (2 ^ 1)). lia. Qed.

Lemma holds_bits (f : Z -> Z -> Z) (x y : Z) : (forall a b, a = 0 \/ a = 1 -> b = 0 \/ b = 1 -> f a b = 0 \/ f a b = 1) ->
  holds 1 (f (Z.land x 1) (Z.land y 1)) (f (Z.land x 1) (Z.land y 1)).
Proof. intros Hf. by destruct (Hf _ _ (bit_cases x) (bit_cases y)) as [-> | ->]. Qed.

Section Holds.
Variables (size x y : Z).
Hypotheses (Hs : valid_size size) (Hx : is_value size x) (Hy : is_value size y).

Lemma holds_sless : holds 1 (u64_of_bool (sext x size <? sext y size)) (b2z (signed size x <? signed size y)).
Proof using All. rewrite !sext_value by done. apply holds_bool. Qed.
Lemma holds_slessequal : holds 1 (u64_of_bool (sext x size <=? sext y size)) (b2z (signed size x <=? signed size y)).
Proof using All. rewrite !sext_value by done. apply holds_bool. Qed.
Lemma holds_carry :
  holds 1 (u64_of_bool ((mask u64_max size <? u64_add (mask x size) (mask y size)) || (u64_max <? mask x size + mask y size)))
    (b2z (modulus size <=? x + y)).
Proof using All. rewrite carry_value by done. apply holds_bool. Qed.
Lemma holds_scarry :
  holds 1 (u64_of_bool (eqb (sext x size <? 0) (sext y size <? 0)
             && negb (eqb (sext x size <? 0) (sext (mask (w64 (i64 (sext x size + sext y size))) size) size <? 0))))
    (b2z ((modulus size / 2 <=? signed size x + signed size y) || (signed size x + signed size y <? - (modulus size / 2)))).
Proof using All. rewrite !(sext_value size x), !(sext_value size y) by done. rewrite scarry_value by done. apply holds_bool. Qed.
Lemma holds_sborrow :
  holds 1 (u64_of_bool (negb (eqb (sext x size <? 0) (sext y size <? 0))
             && negb (eqb (sext x size <? 0) (sext (mask (w64 (i64 (sext x size - sext y size))) size) size <? 0))))
    (b2z ((modulus size / 2 <=? signed size x - signed size y) || (signed size x - signed size y <? - (modulus size / 2)))).
Proof using All. rewrite !(sext_value size x), !(sext_value size y) by done. rewrite sborrow_value by done. apply holds_bool. Qed.
Lemma holds_land : holds size (Z.land x y) (wrap size (Z.land x y)).
Proof using All. pose proof (value_word size x Hs Hx). pose proof (value_word size y Hs Hy). apply holds_word; [done|]. apply land_word; lia. Qed.
Lemma holds_lor : holds size (Z.lor x y) (wrap size (Z.lor x y)).
Proof using All. pose proof (value_word size x Hs Hx). pose proof (value_word size y Hs Hy). apply holds_word; [done|]. by apply lor_word. Qed.
Lemma holds_lxor : holds size (Z.lxor x y) (wrap size (Z.lxor x y)).
Proof using All. pose proof (value_word size x Hs Hx). pose proof (value_word size y Hs Hy). apply holds_word; [done|]. by apply lxor_word. Qed.
End Holds.

Lemma holds_bit_xor (x y : Z) : holds 1 (Z.lxor (Z.land x 1) (Z.land y 1)) (Z.lxor (Z.land x 1) (Z.land y 1)).
Proof. apply (holds_bits Z.lxor). intros a b [-> | ->] [-> | ->]; vm_compute; auto. Qed.
Lemma holds_bit_and (x y : Z) : holds 1 (Z.land (Z.land x 1) (Z.land y 1)) (Z.land (Z.land x 1) (Z.land y 1)).
Proof. apply (holds_bits Z.land). intros a b [-> | ->] [-> | ->]; vm_compute; auto. Qed.
Lemma holds_bit_or (x y : Z) : holds 1 (Z.lor (Z.land x 1) (Z.land y 1)) (Z.lor (Z.land x 1) (Z.land y 1)).
Proof. apply (holds_bits Z.lor). intros a b [-> | ->] [-> | ->]; vm_compute; auto. Qed.

Lemma holds_add (size x y : Z) : valid_size size -> holds size (u64_add x y) (wrap size (x + y)).
Proof. apply holds_w64. Qed.
Lemma holds_sub (size x y : Z) : valid_size size -> holds size (u64_sub x y) (wrap size (x - y)).
Proof. apply holds_w64. Qed.
Lemma holds_mul (size x y : Z) : valid_size size -> holds size (u64_mul x y) (wrap size (x * y)).
Proof. apply holds_w64. Qed.

Lemma holds_div (size x y : Z) : valid_size size -> is_value size x -> is_value size y -> y <> 0 ->
  holds size (mask x size / mask y size) (wrap size (x / y)).
Proof.
  intros Hs Hx Hy Hn. rewrite !mask_value by done. apply holds_word; [done|].
  pose proof (value_word size x Hs Hx). unfold is_value in Hy.
  split; [apply Z.div_pos; lia|]. apply Z.div_lt_upper_bound; nia.
Qed.
Lemma holds_rem (size x y : Z) : valid_size size -> is_value size x -> is_value size y -> y <> 0 ->
  holds size (mask x size mod mask y size) (wrap size (x mod y)).
Proof.
  intros Hs Hx Hy Hn. rewrite !mask_value by done. apply holds_word; [done|].
  pose proof (value_word size y Hs Hy). unfold is_value in Hy. pose proof (Z.mod_pos_bound x y). lia.
Qed.

Lemma popcount_le (p : positive) : 1 <= pos_popcount p <= Zpos p.
Proof. induction p; cbn [pos_popcount]; lia. Qed.

Lemma count_ones_word (x : Z) : 0 <= x < 2 ^ 64 -> 0 <= count_ones x < 2 ^ 64.
Proof. intros Hx. destruct x as [|p|p]; cbn; [lia| |lia]. pose proof (popcount_le p). lia. Qed.

Lemma holds_lzcount (size out x : Z) : valid_size size -> valid_size out -> is_value size x ->
  holds out (u64_sub (u64_leading_zeros x) (8 * (8 - Z.min size 8)))
    (wrap out (8 * size - (if x =? 0 then 0 else Z.log2 x + 1))).
Proof.
  intros Hs Ho Hx. unfold u64_leading_zeros, valid_size in *. rewrite Z.min_l by lia.
  replace (8 * size - (if x =? 0 then 0 else Z.log2 x + 1)) with ((if x =? 0 then 64 else 63 - Z.log2 x) - 8 * (8 - size))
    by (cmp; lia).
  by apply holds_w64.
Qed.

Create HintDb holds.
#[export] Hint Resolve holds_bool holds_w64 holds_add holds_sub holds_mul holds_div holds_rem holds_sless holds_slessequal holds_carry holds_scarry holds_sborrow
  holds_land holds_lor holds_lxor holds_bit_xor holds_bit_and holds_bit_or left_value right_value sright_value subpiece_value : holds.

(** ** Narrowing a quotient *)

(** The values of a size, in one of the two readings. *)
Definition representable (sg : bool) (size v : Z) : bool :=
  if sg then (- (modulus size / 2) <=? v) && (v <? modulus size / 2) else (0 <=? v) && (v <? modulus size).

Lemma quot_range (h a b : Z) : - h <= a < h -> b <> 0 -> - h <= Z.quot a b <= h.
Proof.
  intros Ha Hb. pose proof (Z.quot_abs a b Hb) as E.
  rewrite Z.quot_div_nonneg in E by lia.
  assert (Z.abs a / Z.abs b <= Z.abs a) by (apply Z.div_le_upper_bound; nia). lia.
Qed.

Lemma signed_wrap (size v : Z) : valid_size size -> representable true size v = true -> signed size (wrap size v) = v.
Proof.
  intros Hs Hr. unfold representable, signed, wrap in *. pose proof (modulus_half size Hs). pose proof (modulus_ge size Hs).
  apply andb_true_iff in Hr as [H1 H2]. apply Z.leb_le in H1. apply Z.ltb_lt in H2.
  modcase v (modulus size); cmp; lia.
Qed.

Lemma modulus_lt (s1 s2 : Z) : valid_size s1 -> valid_size s2 -> s1 < s2 -> modulus s1 < modulus s2.
Proof. unfold valid_size, modulus. intros. apply Z.pow_lt_mono_r; lia. Qed.

Lemma narrow_unsigned (s1 s2 v : Z) : valid_size s1 -> valid_size s2 -> s1 < s2 -> is_value s2 v ->
  negb (mask v s1 =? mask v s2) = negb (representable false s1 v).
Proof.
  intros H1 H2 Hlt Hv. rewrite (mask_value s2) by done. rewrite mask_spec by (done || by eapply value_word).
  fold (modulus s1). unfold representable. pose proof (modulus_pos s1 H1). unfold is_value in Hv.
  destruct (Z.ltb_spec v (modulus s1)).
  - rewrite Z.mod_small by lia. cmp; cbn; lia.
  - pose proof (Z.mod_pos_bound v (modulus s1)). cmp; cbn; lia.
Qed.

Lemma narrow_signed (s1 s2 v : Z) : valid_size s1 -> valid_size s2 -> s1 < s2 ->
  - (modulus s2 / 2) <= v <= modulus s2 / 2 ->
  negb (sext (mask (w64 v) s1) s1 =? sext (w64 v) s2) = negb (representable true s1 v).
Proof.
  intros H1 H2 Hlt Hv. pose proof (modulus_half s1 H1). pose proof (modulus_half s2 H2).
  pose proof (modulus_lt s1 s2 H1 H2 Hlt). f_equal.
  assert (sext (mask (w64 v) s1) s1 = signed s1 (wrap s1 v)) as E1.
  { rewrite mask_spec by (done || apply w64_range). fold (modulus s1). rewrite w64_mod by done.
    fold (wrap s1 v). apply sext_value; [done|]. by apply wrap_value. }
  assert (sext (w64 v) s2 = signed s2 (wrap s2 v)) as E2.
  { rewrite sext_spec by (done || apply w64_range). unfold wrap. by rewrite w64_mod. }
  rewrite E1, E2. pose proof (signed_range s1 (wrap s1 v) H1 (wrap_value s1 v H1)) as Hr.
  destruct (Z.eq_dec v (modulus s2 / 2)) as [->|].
  - assert (signed s2 (wrap s2 (modulus s2 / 2)) = - (modulus s2 / 2)) as ->.
    { unfold signed, wrap. rewrite Z.mod_small by lia. cmp; lia. }
    unfold representable. cmp; cbn; lia.
  - rewrite (signed_wrap s2 v) by (done || (unfold representable; cmp; cbn; lia)).
    destruct (representable true s1 v) eqn:Er; [rewrite (signed_wrap s1 v H1 Er); apply Z.eqb_refl|].
    apply Z.eqb_neq. intros E. rewrite E in Hr. unfold representable in Er. revert Er. cmp; cbn; (done || lia).
Qed.

Lemma signed_nonzero (size v : Z) : valid_size size -> is_value size v -> v <> 0 -> signed size v <> 0.
Proof. intros Hs Hv Hn. unfold signed, is_value in *. cmp; lia. Qed.
