(* ===== verification/Step.v ===== *)
(** One p-code operation of the interpreter, [Machine::step] of [sleigh/emu.rs], with everything it
    calls: user operations, the float family, division faults and the quotient narrowing, and the
    brackets around an instruction the state modifier adjusts. *)
From Stdlib Require Import ZArith Lia Bool List String.
From stdpp Require Import base decidable gmap strings pretty list tactics.
From S2P Require Import Prelude OpCode HostFloat Pcode M68kAlu Machine M68kModifier.
Local Open Scope Z_scope.
Local Open Scope state_scope.

(** [Panic] is not a constructor of the source's: the operation does not return. *)
Inductive flow := Next | Rel (d : Z) | Jump (target : Z) | Stop | Fault | Panic.

Definition first_var (op : pcode_op) : option varnode :=
  match po_ins op with a :: _ => as_var a | [] => None end.

(** [op.ins.first().and_then(as_var).map_or(d, |v| v.size)] *)
Definition in_size_or (op : pcode_op) (d : Z) : Z :=
  match first_var op with Some v => vn_size v | None => d end.

Definition out_size (op : pcode_op) : Z :=
  match po_out op with Some v => vn_size v | None => 0 end.

(** the closures [a] and [sa] *)
Definition arg (op : pcode_op) (i : nat) : state machine Z :=
  match nth_error (po_ins op) i with Some a => read_arg a | None => ret 0 end.
Definition sarg (op : pcode_op) (i : nat) : state machine Z :=
  match nth_error (po_ins op) i with Some a => sread_arg a | None => ret 0 end.

Definition branch_to (target : option parg) : flow :=
  match target ≫= as_var with
  | Some v => if is_const v then Rel (sext (vn_offset v) (vn_size v)) else Jump (vn_offset v)
  | None => Next
  end.

(** ** Unmodelled operations *)

Definition user_index (op : pcode_op) : Z :=
  match first_var op with Some v => vn_offset v | None => u64_max end.

Definition unmodeled_label (m : machine) (op : pcode_op) : string :=
  let name := opcode_name (po_opcode op) in
  if String.eqb name "CALLOTHER" then
    let idx := user_index op in
    match userops m !! idx with
    | Some n => ("CALLOTHER:" ++ n)%string
    | None => ("CALLOTHER:#" ++ pretty (Z.to_N idx))%string
    end
  else if String.prefix "FLOAT_" name then (name ++ "@" ++ pretty (Z.to_N (in_size_or op 0)))%string
  else name.

(** the count and the set of names *)
Definition note_unmodeled (op : pcode_op) : state machine unit :=
  modify (fun m =>
    let m := set_unmodeled m (unmodeled m + 1) in
    set_unmodeled_ops m ({[ unmodeled_label m op ]} ∪ unmodeled_ops m)).

(** ** Faults and quotients *)

Definition fault : state machine flow := fun m =>
  (Fault, if trace m then record m EFault else m).

Definition remember_quotient (op : pcode_op) (quotient : Z) (signed : bool) : state machine unit :=
  modify (fun m =>
    let m :=
      match adjusting m with
      | Some (i, bf) =>
          set_adjusting m (Some (i, Before (bf_dividend bf) (bf_z bf) (bf_nbcd_flags bf) (Some quotient)))
      | None => m
      end in
    set_last_quotient m
      (match po_out op with Some v => Some (v, quotient, signed) | None => None end)).

Definition narrows_quotient_lossily (op : pcode_op) : state machine bool := fun m =>
  match last_quotient m, first_var op, po_out op with
  | Some (q, value, signed), Some input, Some out =>
      if negb (bool_decide (input = q)) || (vn_size q <=? vn_size out) then (false, m)
      else
        let '(skipped, m) :=
          match nth_error (po_ins op) 1 with
          | Some a => let '(x, m) := read_arg a m in (negb (x =? 0), m)
          | None => (false, m)
          end in
        if skipped then (false, m)
        else
          let kept := mask value (vn_size out) in
          (if signed then negb (sext kept (vn_size out) =? sext value (vn_size q))
           else negb (kept =? mask value (vn_size q)), m)
  | _, _, _ => (false, m)
  end.

(** ** The state modifier's brackets *)

(** [true] when the instruction was executed whole *)
Definition begin_adjusted (i : insn) : state machine bool := fun m =>
  match modifier m with
  | None => (false, m)
  | Some k =>
      match execute k m i with
      | Some m => (true, m)
      | None => (false, set_adjusting m (Some (i, take_before k m i)))
      end
  end.

Definition end_adjusted (m : machine) : machine :=
  match adjusting m, modifier m with
  | Some (i, bf), Some k => after k (set_adjusting m None) i bf
  | _, _ => set_adjusting m None
  end.

(** ** User operations *)

Definition userop_kind (m : machine) (op : pcode_op) : user_op :=
  match userops m !! user_index op with
  | Some name =>
      if String.eqb name "LOCK" || String.eqb name "UNLOCK" then ULock
      else if String.eqb name "in" then UIn
      else if String.eqb name "out" then UOut
      else if String.eqb name "swi" then USwi
      else if String.eqb name "bcdAdjust" then UBcdAdjust
      else UUnknown
  | None => UUnknown
  end.

Definition size_of_arg (op : pcode_op) (i : nat) : Z :=
  match nth_error (po_ins op) i ≫= as_var with Some v => vn_size v | None => 0 end.

Definition traced (e : effect) : state machine unit :=
  modify (fun m => if trace m then record m e else m).

Definition answer_in (port osize : Z) : state machine Z := fun m =>
  let unanswered_read :=
    let m := match unanswered m !! port with
             | Some _ => m
             | None => set_unanswered m (<[port := at_site m]> (unanswered m))
             end in
    (match fill m with Some seed => mask (mix seed port 18766) osize | None => 0 end, m) in
  match port_answers m !! port with
  | Some (values, reads) =>
      match values with
      | [] => unanswered_read
      | _ =>
          let last := Z.of_nat (List.length values) - 1 in
          let v := nth (Z.to_nat (Z.min reads last)) values 0 in
          (mask v osize, set_port_answers m (<[port := (values, reads + 1)]> (port_answers m)))
      end
  | None => unanswered_read
  end.

Definition write_out (op : pcode_op) (res : Z) : state machine unit :=
  modify (fun m =>
    match po_out op with
    | Some v => write m (vn_space v) (vn_offset v) (vn_size v) (mask res (vn_size v))
    | None => m
    end).

Definition callother (op : pcode_op) (osize : Z) : state machine flow :=
  let finish (res : Z) := write_out op res ;* ret Next in
  let* m := get in
  match userop_kind m op with
  | ULock => ret Next
  | UOut =>
      let* port := arg op 1 in
      let* val := arg op 2 in
      traced (EPort true port (size_of_arg op 2) val) ;* ret Next
  | UIn =>
      let* port := arg op 1 in
      let* v := answer_in port osize in
      traced (EPort false port osize v) ;* finish v
  | USwi =>
      let* n := arg op 1 in
      let* m := get in
      let args := map (fun os => read m "register" (fst os) (snd os)) (swi_args m) in
      traced (ESwi n args) ;* finish (Z.lor SWI_VECTOR (Z.land n 255))
  | UBcdAdjust =>
      match modifier m, adjusting m with
      | Some k, Some (Nbcd, _) =>
          let* tmp := arg op 1 in
          let* m := get in
          let '(value, flags) := nbcd_adjust tmp (x_flag k m) in
          modify (fun m =>
            match adjusting m with
            | Some (i, bf) =>
                set_adjusting m (Some (i, Before (bf_dividend bf) (bf_z bf) (Some flags) (bf_quotient bf)))
            | None => m
            end) ;* finish value
      | _, _ => note_unmodeled op ;* finish 0
      end
  | UUnknown => note_unmodeled op ;* finish 0
  end.

Section Interpreter.
Context `{HostFloat}.

(** ** The float family *)

Definition ieee_size (size : Z) : option Z := if (size =? 4) || (size =? 8) then Some size else None.

Definition host_float_of (encoding size : Z) : option f64 :=
  match ieee_size size with
  | None => None
  | Some s => Some (if s =? 4 then f64_of_f32_bits (w32 encoding) else f64_of_bits encoding)
  end.

Definition float_encode (host : f64) (size : Z) : Z :=
  if size =? 4 then f32_bits host else f64_bits host.

(** the second operand of a binary operation, decoded *)
Definition float_arg (op : pcode_op) (isz : Z) : state machine (option f64) :=
  match nth_error (po_ins op) 1 with
  | None => ret None
  | Some a => let* y := read_arg a in ret (host_float_of y isz)
  end.

Definition float_bin (op : pcode_op) (x isz osize : Z) (f : f64 -> f64 -> f64) : state machine (option Z) :=
  match host_float_of x isz with
  | None => ret None
  | Some a =>
      let* b := float_arg op isz in
      ret (match b with
           | Some b => if osize =? isz then Some (float_encode (f a b) isz) else None
           | None => None
           end)
  end.

Definition float_cmp (op : pcode_op) (x isz : Z) (f : f64 -> f64 -> bool) : state machine (option Z) :=
  match host_float_of x isz with
  | None => ret None
  | Some a =>
      let* b := float_arg op isz in
      ret (match b with Some b => Some (u64_of_bool (f a b)) | None => None end)
  end.

Definition float_un (x isz osize : Z) (f : f64 -> f64) : option Z :=
  match host_float_of x isz with
  | None => None
  | Some a => if osize =? isz then Some (float_encode (f a) isz) else None
  end.

(** [FLOAT_TRUNC]: the integer indefinite value outside the range of an [i64] *)
Definition float_trunc (v : f64) (osize : Z) : Z :=
  let two63 := f64_neg (f64_of_i64 (- 2 ^ 63)) in
  let ival :=
    if f64_is_nan v || f64_lt v (f64_neg two63) || f64_le two63 v then - 2 ^ 63 else f64_to_i64 v in
  mask (w64 ival) osize.

(** [None]: not modelled at these widths *)
Definition float_op (opc : opcode) (op : pcode_op) (osize : Z) : state machine (option Z) :=
  match po_ins op with
  | PVar v :: _ =>
      let isz := vn_size v in
      let* x := read_arg (PVar v) in
      match opc with
      | FloatAdd => float_bin op x isz osize f64_add
      | FloatSub => float_bin op x isz osize f64_sub
      | FloatMult => float_bin op x isz osize f64_mul
      | FloatDiv => float_bin op x isz osize f64_div
      | FloatNeg => ret (float_un x isz osize f64_neg)
      | FloatAbs => ret (float_un x isz osize f64_abs)
      | FloatSqrt => ret (float_un x isz osize f64_sqrt)
      | FloatCeil => ret (float_un x isz osize f64_ceil)
      | FloatFloor => ret (float_un x isz osize f64_floor)
      | FloatRound => ret (float_un x isz osize f64_round)
      | FloatEqual => float_cmp op x isz f64_eq
      | FloatNotequal => float_cmp op x isz (fun a b => negb (f64_eq a b))
      | FloatLess => float_cmp op x isz f64_lt
      | FloatLessequal => float_cmp op x isz f64_le
      | FloatNan =>
          ret (match host_float_of x isz with Some a => Some (u64_of_bool (f64_is_nan a)) | None => None end)
      | FloatInt2float =>
          ret (match ieee_size osize with
               | Some s => Some (float_encode (f64_of_i64 (sext x isz)) s) | None => None end)
      | FloatFloat2float =>
          ret (match host_float_of x isz, ieee_size osize with
               | Some a, Some s => Some (float_encode a s) | _, _ => None end)
      | FloatTrunc =>
          ret (match host_float_of x isz with Some a => Some (float_trunc a osize) | None => None end)
      | _ => ret None
      end
  | _ => ret None
  end.

(** ** One operation *)

(** the write of the result; a write to the quotient's own varnode forgets the quotient *)
Definition finish (op : pcode_op) (res : Z) : state machine flow :=
  write_out op res ;*
  modify (fun m =>
    let division := match from_u32 (po_opcode op) with Some IntDiv | Some IntSdiv => true | _ => false end in
    match po_out op, last_quotient m with
    | Some v, Some (q, _, _) => if negb division && bool_decide (q = v) then set_last_quotient m None else m
    | _, _ => m
    end) ;*
  ret Next.

Definition unmodelled (op : pcode_op) : state machine flow := note_unmodeled op ;* finish op 0.

(** the operations that compute a value from their first operands and do nothing else *)
Definition alu (opc : opcode) (op : pcode_op) : option (state machine Z) :=
  let a := arg op in
  let sa := sarg op in
  let osize := out_size op in
  let bin (f : Z -> Z -> Z) := Some (let* x := a 0%nat in let* y := a 1%nat in ret (f x y)) in
  let un (f : Z -> Z) := Some (let* x := a 0%nat in ret (f x)) in
  let sbin (f : Z -> Z -> Z) := Some (let* x := sa 0%nat in let* y := sa 1%nat in ret (f x y)) in
  match opc with
  | Copy | IntZext => un id
  | IntAdd => bin u64_add
  | IntSub => bin u64_sub
  | IntMult => bin u64_mul
  | IntAnd => bin Z.land
  | IntOr => bin Z.lor
  | IntXor => bin Z.lxor
  | IntLeft => bin (fun x y => u64_shl x (w32 y))
  | IntRight => bin (fun x y => u64_shr x (w32 y))
  | IntSright =>
      Some (let* x := sa 0%nat in let* y := a 1%nat in ret (w64 (i64_shr x (Z.min (w32 y) 63))))
  | IntNegate => un u64_not
  | Int2comp => un (fun x => w64 (- x))
  | IntSext => Some (let* x := sa 0%nat in ret (w64 x))
  | IntEqual => bin (fun x y => u64_of_bool (x =? y))
  | IntNotequal => bin (fun x y => u64_of_bool (negb (x =? y)))
  | IntLess => bin (fun x y => u64_of_bool (x <? y))
  | IntLessequal => bin (fun x y => u64_of_bool (x <=? y))
  | IntSless => sbin (fun x y => u64_of_bool (x <? y))
  | IntSlessequal => sbin (fun x y => u64_of_bool (x <=? y))
  | IntCarry =>
      let isize := in_size_or op osize in
      bin (fun x y =>
        let x := mask x isize in let y := mask y isize in
        u64_of_bool ((mask u64_max isize <? u64_add x y) || (u64_max <? x + y)))
  | IntScarry =>
      let isize := in_size_or op osize in
      sbin (fun a b =>
        let s := sext (mask (w64 (i64 (a + b))) isize) isize in
        u64_of_bool (eqb (a <? 0) (b <? 0) && negb (eqb (a <? 0) (s <? 0))))
  | IntSborrow =>
      let isize := in_size_or op osize in
      sbin (fun a b =>
        let s := sext (mask (w64 (i64 (a - b))) isize) isize in
        u64_of_bool (negb (eqb (a <? 0) (b <? 0)) && negb (eqb (a <? 0) (s <? 0))))
  | BoolNegate => un (fun x => u64_of_bool (x =? 0))
  | BoolAnd => bin (fun x y => Z.land (Z.land x 1) (Z.land y 1))
  | BoolOr => bin (fun x y => Z.lor (Z.land x 1) (Z.land y 1))
  | BoolXor => bin (fun x y => Z.lxor (Z.land x 1) (Z.land y 1))
  | Popcount => un count_ones
  | Lzcount =>
      un (fun x => u64_sub (u64_leading_zeros x) (8 * (8 - Z.min (in_size_or op 8) 8)))
  | _ => None
  end.

(** the guard shared by the divisions: a zero divisor traps *)
Definition divide (op : pcode_op) (k : state machine flow) : state machine flow :=
  let* d := arg op 1 in
  if d =? 0 then fault else k.

Definition step (op : pcode_op) : state machine flow :=
  let osize := out_size op in
  let first := nth_error (po_ins op) 0 in
  match from_u32 (po_opcode op) with
  | Some Return => ret Stop
  | Some Branch => ret (branch_to first)
  | Some Cbranch =>
      let* c := arg op 1 in
      ret (if negb (Z.land c 1 =? 0) then branch_to first else Next)
  | Some Branchind => let* t := arg op 0 in ret (Jump t)
  | Some Call | Some Callind => ret Next
  | Some Subpiece =>
      let* lossy := narrows_quotient_lossily op in
      if lossy then fault
      else
        let* x := arg op 0 in
        let* y := arg op 1 in
        finish op (u64_shr x (u64_mul y 8))
  | Some IntDiv =>
      divide op
        (let* x := arg op 0 in
         let* y := arg op 1 in
         if mask y osize =? 0 then ret Panic
         else
           let q := mask x osize / mask y osize in
           remember_quotient op q false ;* finish op q)
  | Some IntRem =>
      divide op
        (let* x := arg op 0 in
         let* y := arg op 1 in
         if mask y osize =? 0 then ret Panic else finish op (mask x osize mod mask y osize))
  | Some IntSdiv =>
      divide op
        (let* x := sarg op 0 in
         let* y := sarg op 1 in
         let q := w64 (Z.quot x y) in
         remember_quotient op q true ;* finish op q)
  | Some IntSrem =>
      divide op
        (let* x := sarg op 0 in
         let* y := sarg op 1 in
         finish op (w64 (Z.rem x y)))
  | Some Load =>
      match nth_error (po_ins op) 0, nth_error (po_ins op) 1 with
      | Some (PSpace spc), Some ptr =>
          let* at_ := read_arg ptr in
          let* m := get in
          finish op (read m spc at_ osize)
      | _, _ => finish op 0
      end
  | Some Store =>
      match nth_error (po_ins op) 0, nth_error (po_ins op) 1, nth_error (po_ins op) 2 with
      | Some (PSpace spc), Some ptr, Some val =>
          let* addr := read_arg ptr in
          let* v := read_arg val in
          let sz := match as_var val with Some vn => vn_size vn | None => 0 end in
          modify (fun m => write m spc addr sz v) ;* ret Next
      | _, _, _ => ret Next
      end
  | Some Callother => callother op osize
  | Some opc =>
      match opc with
      | FloatAdd | FloatSub | FloatMult | FloatDiv | FloatNeg | FloatAbs | FloatSqrt | FloatCeil
      | FloatFloor | FloatRound | FloatEqual | FloatNotequal | FloatLess | FloatLessequal | FloatNan
      | FloatInt2float | FloatFloat2float | FloatTrunc =>
          let* r := float_op opc op osize in
          match r with
          | Some v => finish op v
          | None => unmodelled op
          end
      | _ =>
          match alu opc op with
          | Some c => let* res := c in finish op res
          | None => unmodelled op
          end
      end
  | None => unmodelled op
  end.

End Interpreter.
