(* ===== verification/StepFacts.v ===== *)
(** The invariant of the interpreter's machine, which every p-code operation keeps. *)
From Stdlib Require Import ZArith Lia Bool List String.
From stdpp Require Import base decidable gmap strings list tactics.
From S2P Require Import Prelude OpCode BitUtil HostFloat Pcode M68kAlu Machine MachineFacts M68kModifier Step.
Local Open Scope Z_scope.
Local Open Scope state_scope.

(** The machine's invariant: cells and image hold bytes, every effect has its site, and the bus
    keeps the low address lines. *)
Definition backing_ok (m : machine) : Prop :=
  match image_backing m with
  | Some b => forall start bytes, In (start, bytes) (b_blocks b) -> Forall (fun x => 0 <= x < 256) bytes
  | None => True
  end.

Record machine_ok (m : machine) : Prop := {
  ok_bytes : bytes_ok m;
  ok_backing : backing_ok m;
  ok_sites : List.length (effects m) = List.length (effect_sites m);
  ok_bus : bus_ok m;
}.

(** A computation keeps a property of the machine. *)
Definition keeps {A : Type} (P : machine -> Prop) (c : state machine A) : Prop :=
  forall m, P m -> P (snd (c m)).

(** The values of the next [n] reads of a port. *)
Fixpoint port_reads (n : nat) (port osize : Z) (m : machine) : list Z :=
  match n with
  | O => []
  | S n => let '(v, m) := answer_in port osize m in v :: port_reads n port osize m
  end.

(** ** Keeping a property *)

Create HintDb keeps.

Lemma keeps_ret {A : Type} (P : machine -> Prop) (a : A) : keeps P (ret a).
Proof. by intros m. Qed.

Lemma keeps_bind {A B : Type} (P : machine -> Prop) (c : state machine A) (k : A -> state machine B) :
  keeps P c -> (forall a, keeps P (k a)) -> keeps P (bind c k).
Proof.
  intros Hc Hk m Hm. unfold bind. specialize (Hc m Hm). destruct (c m) as [a m']. by apply Hk.
Qed.

Lemma keeps_get (P : machine -> Prop) : keeps P get.
Proof. by intros m. Qed.

Lemma keeps_modify (P : machine -> Prop) (f : machine -> machine) : (forall m, P m -> P (f m)) -> keeps P (modify f).
Proof. intros Hf m Hm. by apply Hf. Qed.

#[export] Hint Resolve keeps_ret keeps_bind keeps_get : keeps.

(** ** What keeps the machine's invariant *)

(** Only memory, effects and the bus matter to the invariant. *)
Lemma machine_ok_ext (m m' : machine) :
  mem m' = mem m -> effects m' = effects m -> effect_sites m' = effect_sites m ->
  image_backing m' = image_backing m -> address_mask m' = address_mask m ->
  machine_ok m -> machine_ok m'.
Proof.
  intros Em Ee Es Eb Ea [H1 H2 H3 H4].
  split; [unfold bytes_ok in *; rewrite Em|unfold backing_ok in *; rewrite Eb|rewrite Ee, Es|unfold bus_ok in *; rewrite Ea];
    done.
Qed.

Lemma record_ok (m : machine) (e : effect) : machine_ok m -> machine_ok (record m e).
Proof.
  intros [H1 H2 H3 H4]. split; [done|done| |done]. unfold record. cbn. rewrite !length_app, H3. done.
Qed.

Lemma fold_insert_ok (l : list (Z * Z)) (bank : gmap Z Z) :
  (forall a b, bank !! a = Some b -> 0 <= b < 256) -> (forall a b, In (a, b) l -> 0 <= b < 256) ->
  forall a b, fold_left (fun b ab => <[fst ab := snd ab]> b) l bank !! a = Some b -> 0 <= b < 256.
Proof.
  revert bank. induction l as [|[x v] l IH]; cbn [fold_left]; intros bank Hb Hl; [done|].
  apply IH; [|intros a b Hin; apply (Hl a); by right]. intros a b. cbn [fst snd].
  destruct (decide (x = a)) as [->|]; [rewrite lookup_insert_eq|rewrite lookup_insert_ne by done; apply Hb].
  intros [= <-]. apply (Hl a). by left.
Qed.

Lemma insert_bytes_ok (m : machine) (space : string) (l : list (Z * Z)) :
  machine_ok m -> (forall a b, In (a, b) l -> 0 <= b < 256) -> machine_ok (insert_bytes m space l).
Proof.
  intros [H1 H2 H3 H4] Hl. split; [|done|done|done]. intros sp bank a b. unfold insert_bytes. cbn [mem set_mem].
  destruct (decide (space = sp)) as [->|]; [rewrite lookup_insert_eq|rewrite lookup_insert_ne by done; apply H1].
  intros [= <-]. apply fold_insert_ok; [|done]. intros a' b'.
  destruct (mem m !! sp) as [bank'|] eqn:E; cbn; [by apply (H1 sp bank')|by rewrite lookup_empty].
Qed.

Lemma byte_of_value (v : Z) : 0 <= Z.land v 255 < 256.
Proof. change 255 with (Z.ones 8). rewrite Z.land_ones by lia. apply Z.mod_pos_bound. lia. Qed.

Lemma write_ok (m : machine) (space : string) (offset size value : Z) :
  machine_ok m -> machine_ok (write m space offset size value).
Proof.
  intros Hm. unfold write. destruct (String.eqb space "const"); [done|]. apply insert_bytes_ok.
  - destruct (_ && _); [by apply record_ok|done].
  - intros a b Hin. apply in_map_iff in Hin as (i & [= <- <-] & _). by apply byte_of_value.
Qed.

Ltac ok_ext := intros; by eapply machine_ok_ext; [..|eassumption].

Lemma note_register_read_ok (m : machine) (offset size : Z) :
  machine_ok m -> machine_ok (note_register_read m offset size).
Proof. unfold note_register_read. intros Hm. destruct (forallb _ _); [done|]. destruct (uninitialized m !! _); [done|ok_ext]. Qed.

Lemma read_arg_keeps (a : parg) : keeps machine_ok (read_arg a).
Proof.
  intros m Hm. destruct a as [v|s]; [|done]. cbn. destruct (String.eqb _ _); [by apply note_register_read_ok|done].
Qed.

Lemma sread_arg_keeps (a : parg) : keeps machine_ok (sread_arg a).
Proof.
  intros m Hm. destruct a as [v|s]; [|done]. pose proof (read_arg_keeps (PVar v) m Hm) as H.
  unfold sread_arg. by destruct (read_arg (PVar v) m).
Qed.

Lemma arg_keeps (op : pcode_op) (i : nat) : keeps machine_ok (arg op i).
Proof. unfold arg. destruct (nth_error _ _); [apply read_arg_keeps|apply keeps_ret]. Qed.

Lemma sarg_keeps (op : pcode_op) (i : nat) : keeps machine_ok (sarg op i).
Proof. unfold sarg. destruct (nth_error _ _); [apply sread_arg_keeps|apply keeps_ret]. Qed.

Lemma note_unmodeled_keeps (op : pcode_op) : keeps machine_ok (note_unmodeled op).
Proof. apply keeps_modify. ok_ext. Qed.

Lemma fault_keeps : keeps machine_ok fault.
Proof. intros m Hm. unfold fault. cbn. destruct (trace m); [by apply record_ok|done]. Qed.

Lemma traced_keeps (e : effect) : keeps machine_ok (traced e).
Proof. apply keeps_modify. intros m Hm. destruct (trace m); [by apply record_ok|done]. Qed.

Lemma remember_quotient_keeps (op : pcode_op) (q : Z) (s : bool) : keeps machine_ok (remember_quotient op q s).
Proof. apply keeps_modify. intros m Hm. destruct (adjusting m) as [[i bf]|]; ok_ext. Qed.

Lemma write_out_keeps (op : pcode_op) (res : Z) : keeps machine_ok (write_out op res).
Proof. apply keeps_modify. intros m Hm. destruct (po_out op); [by apply write_ok|done]. Qed.

Lemma answer_in_keeps (port osize : Z) : keeps machine_ok (answer_in port osize).
Proof.
  intros m Hm. unfold answer_in.
  destruct (port_answers m !! port) as [[[|x values] reads]|]; cbn; [|ok_ext|];
    (destruct (unanswered m !! port); [done|ok_ext]).
Qed.

Lemma narrows_keeps (op : pcode_op) : keeps machine_ok (narrows_quotient_lossily op).
Proof.
  intros m Hm. unfold narrows_quotient_lossily.
  destruct (last_quotient m) as [[[q value] signed]|]; [|done]. destruct (first_var op) as [input|]; [|done].
  destruct (po_out op) as [out|]; [|done]. destruct (_ || _); [done|].
  destruct (nth_error (po_ins op) 1) as [a|]; [|done]. pose proof (read_arg_keeps a m Hm) as H.
  destruct (read_arg a m) as [x m']. by destruct (negb (x =? 0)).
Qed.

#[export] Hint Resolve arg_keeps sarg_keeps read_arg_keeps note_unmodeled_keeps fault_keeps traced_keeps
  remember_quotient_keeps write_out_keeps answer_in_keeps narrows_keeps : keeps.

Ltac keep_step :=
  match goal with
  | |- keeps _ (match ?x with _ => _ end) => destruct x eqn:?
  | |- keeps _ (let '(_, _) := ?x in _) => destruct x eqn:?
  | |- keeps _ (bind _ _) => apply keeps_bind; [|intros]
  | |- keeps _ _ => by eauto with keeps
  end.
Ltac keep := repeat keep_step.

Section Steps.
Context `{HostFloat}.

Lemma finish_keeps (op : pcode_op) (res : Z) : keeps machine_ok (finish op res).
Proof.
  unfold finish. keep. apply keeps_modify. intros m Hm.
  destruct (po_out op); [|done]. destruct (last_quotient m) as [[[q ?] ?]|]; [|done]. destruct (_ && _); [ok_ext|done].
Qed.

Lemma callother_keeps (op : pcode_op) (osize : Z) : keeps machine_ok (callother op osize).
Proof.
  unfold callother. keep. apply keeps_modify. intros m' Hm'. destruct (adjusting m') as [[? ?]|]; [ok_ext|done].
Qed.

Lemma float_op_keeps (opc : opcode) (op : pcode_op) (osize : Z) : keeps machine_ok (float_op opc op osize).
Proof.
  unfold float_op. keep_step; [by eauto with keeps|]. destruct p; [|by eauto with keeps].
  apply keeps_bind; [by eauto with keeps|intros x].
  destruct opc; unfold float_bin, float_cmp, float_arg; keep.
Qed.

Lemma alu_keeps (opc : opcode) (op : pcode_op) (c : state machine Z) : alu opc op = Some c -> keeps machine_ok c.
Proof. intros Hc. destruct opc; try discriminate; injection Hc as <-; keep. Qed.

#[local] Hint Resolve finish_keeps callother_keeps float_op_keeps : keeps.

Lemma unmodelled_keeps (op : pcode_op) : keeps machine_ok (unmodelled op).
Proof. unfold unmodelled. keep. Qed.
#[local] Hint Resolve unmodelled_keeps : keeps.

(** Every p-code operation keeps the machine's invariant. *)
Lemma step_keeps (op : pcode_op) : keeps machine_ok (step op).
Proof.
  unfold step.
  destruct (from_u32 (po_opcode op)) as [opc|]; [|by eauto with keeps].
  destruct opc; cbn [alu]; unfold divide; keep. apply keeps_modify. intros m' Hm'. by apply write_ok.
Qed.
End Steps.

(** ** Ports *)

Lemma port_reads_from (n : nat) (port osize r : Z) (values : list Z) (m : machine) : values <> [] -> 0 <= r ->
  port_answers m !! port = Some (values, r) ->
  port_reads n port osize m =
  map (fun i => mask (nth (Z.to_nat (Z.min (r + Z.of_nat i) (Z.of_nat (List.length values) - 1))) values 0) osize) (seq 0 n).
Proof.
  intros Hv. revert r m. induction n as [|n IH]; intros r m Hr Hm; [done|].
  cbn [port_reads]. unfold answer_in. rewrite Hm. destruct values as [|v0 vs]; [done|].
  rewrite (IH (r + 1)) by (lia || (cbn [port_answers set_port_answers]; apply lookup_insert_eq)).
  cbn [seq map]. rewrite Z.add_0_r. f_equal. rewrite <- seq_shift, map_map. apply map_ext. intros i.
  do 4 f_equal. lia.
Qed.

(** A port given a list of values answers its reads with them in order, cut to the width of the
    read, and then with the last one for ever. *)
Theorem answer_port_in_order (n : nat) (port osize : Z) (values : list Z) (m : machine) : values <> [] ->
  port_reads n port osize (answer_port m port values) =
  map (fun i => mask (nth (Nat.min i (List.length values - 1)) values 0) osize) (seq 0 n).
Proof.
  intros Hv. rewrite (port_reads_from n port osize 0 values) by (done || apply lookup_insert_eq).
  apply map_ext. intros i. do 2 f_equal. destruct values; [done|]. cbn [List.length]. lia.
Qed.

Lemma answer_port_in_order_witness :
  port_reads 5 96 1 (answer_port default_machine 96 [0; 0; 264]) = [0; 0; 8; 8; 8].
Proof. etransitivity; [apply answer_port_in_order; discriminate|reflexivity]. Defined.
