(* ===== verification/StepEval.v ===== *)
(** The interpreter's operations against the p-code semantics of [PcodeSem]: a refinement of the
    integer operations, faults included, the narrowing of quotients, and memory operations. *)
From Stdlib Require Import ZArith Lia Bool List String.
From stdpp Require Import base decidable gmap strings list tactics.
From S2P Require Import Prelude OpCode PcodeSem HostFloat Pcode M68kAlu Machine MachineFacts M68kModifier AluFacts Step StepFacts.
Local Open Scope Z_scope.
Local Open Scope state_scope.

(** The second operand as the interpreter counts it: the distance of a logical shift modulo 64, of an
    arithmetic one modulo [2 ^ 32], and the bytes a SUBPIECE cuts off modulo 8. *)
Definition counted (opc : opcode) (y : Z) : Z :=
  match opc with
  | IntLeft | IntRight => y mod 64
  | IntSright => y mod 2 ^ 32
  | Subpiece => y mod 8
  | _ => y
  end.

(** The two-input operations the semantics defines. *)
Definition is_binary (opc : opcode) : bool :=
  match eval_binary opc 1 1 1 1 with Some _ => true | None => false end.

Definition value_of (m : machine) (v : varnode) : Z := read m (vn_space v) (vn_offset v) (vn_size v).

(** An operand: a size of 1 to 8 bytes and an offset that is a [u64]. *)
Definition operand (v : varnode) : Prop := valid_size (vn_size v) /\ 0 <= vn_offset v < 2 ^ 64.

(** A location an operation writes: not a constant. *)
Definition location (v : varnode) : Prop := operand v /\ String.eqb (vn_space v) "const" = false.

(** A cell that is not one of the bytes of [v]. *)
Definition outside (m : machine) (v : varnode) (sp : string) (a : Z) : Prop :=
  sp = vn_space v -> forall i, 0 <= i < vn_size v ->
  a <> byte_at m (vn_space v) (vn_offset v) (vn_size v) i.

(** The operation goes on to the next one with [v] in [o] and every other cell unchanged. *)
Definition yields (c : state machine flow) (m : machine) (o : varnode) (v : Z) : Prop :=
  let '(f, m') := c m in
  f = Step.Next /\ value_of m' o = v /\ (forall sp a, outside m o sp a -> read_byte m' sp a = read_byte m sp a).

(** The operation traps: memory is unchanged, and a traced machine records the fault. *)
Definition faults (c : state machine flow) (m : machine) : Prop :=
  let '(f, m') := c m in
  f = Step.Fault /\ (forall sp a, read_byte m' sp a = read_byte m sp a) /\
  effects m' = effects m ++ (if trace m then [EFault] else []).

(** [m'] is [m] with other notes on uninitialized registers. *)
Definition noted (m m' : machine) : Prop := exists u, m' = set_uninitialized m u.

(** ** Reading operands *)

Lemma noted_refl (m : machine) : noted m m.
Proof. exists (uninitialized m). by destruct m. Qed.

Lemma noted_trans (m1 m2 m3 : machine) : noted m1 m2 -> noted m2 m3 -> noted m1 m3.
Proof. intros [u ->] [u' ->]. by exists u'. Qed.

Lemma note_noted (m : machine) (offset size : Z) : noted m (note_register_read m offset size).
Proof.
  unfold note_register_read. destruct (forallb _ _); [apply noted_refl|].
  destruct (uninitialized m !! _); [apply noted_refl|by eexists].
Qed.

Lemma read_arg_run (m : machine) (v : varnode) : exists m', read_arg (PVar v) m = (value_of m v, m') /\ noted m m'.
Proof.
  unfold read_arg. set (m' := if String.eqb _ _ then _ else _). exists m'.
  assert (noted m m') as Hn by (unfold m'; destruct (String.eqb _ _); [apply note_noted|apply noted_refl]).
  split; [|done]. f_equal. by destruct Hn as [u ->].
Qed.

Lemma arg_run (op : pcode_op) (i : nat) (v : varnode) (m : machine) :
  nth_error (po_ins op) i = Some (PVar v) -> exists m', arg op i m = (value_of m v, m') /\ noted m m'.
Proof. intros E. unfold arg. rewrite E. apply read_arg_run. Qed.

Lemma sarg_run (op : pcode_op) (i : nat) (v : varnode) (m : machine) :
  nth_error (po_ins op) i = Some (PVar v) ->
  exists m', sarg op i m = (sext (value_of m v) (vn_size v), m') /\ noted m m'.
Proof.
  intros E. unfold sarg. rewrite E. unfold sread_arg. destruct (read_arg_run m v) as (m' & -> & Hn). by exists m'.
Qed.

(** Two operands are read one after the other; the second read sees the first one's machine. *)
Lemma two_run {A : Type} (c1 c2 : state machine Z) (k : Z -> Z -> state machine A) (x1 x2 : Z) (m : machine) :
  (forall m', noted m m' -> exists m'', c1 m' = (x1, m'') /\ noted m' m'') ->
  (forall m', noted m m' -> exists m'', c2 m' = (x2, m'') /\ noted m' m'') ->
  exists m', (let* x := c1 in let* y := c2 in k x y) m = k x1 x2 m' /\ noted m m'.
Proof.
  intros H1 H2. destruct (H1 m (noted_refl m)) as (m1 & E1 & N1). destruct (H2 m1 N1) as (m2 & E2 & N2).
  exists m2. unfold bind. rewrite E1, E2. split; [done|by eapply noted_trans].
Qed.

Lemma value_noted (m m' : machine) (v : varnode) : noted m m' -> value_of m' v = value_of m v.
Proof. by intros [u ->]. Qed.

Lemma read_byte_range (m : machine) (space : string) (a : Z) : machine_ok m -> 0 <= read_byte m space a < 256.
Proof.
  intros [Hb Hk _ _]. unfold read_byte. destruct (mem m !! space) as [bank|] eqn:Em; cbn [mbind option_bind].
  1: destruct (bank !! a) as [b|] eqn:Ea; [by eapply Hb|].
  all: destruct (image_backing m) as [img|] eqn:Ei; cbn [mbind option_bind].
  1, 3: destruct (backing_byte img space a) as [b|] eqn:Eb.
  1, 3: unfold backing_ok in Hk; rewrite Ei in Hk; unfold backing_byte in Eb;
    destruct (negb _); [done|]; destruct (blocks_upto _ _); [done|];
    destruct (nth_error (b_blocks img) n) as [[start bytes]|] eqn:En; [|done];
    apply nth_error_In in En, Eb; apply Hk in En; rewrite List.Forall_forall in En; by apply En.
  all: destruct (fill m); [|lia]; destruct (_ && _); [|lia]; apply byte_of_value.
Qed.

Lemma value_range (m : machine) (v : varnode) : machine_ok m -> operand v -> is_value (vn_size v) (value_of m v).
Proof.
  intros Hm [Hs Ho]. unfold value_of, is_value, read. destruct (String.eqb _ _); [by apply mask_range|].
  set (f := fun i => read_byte m (vn_space v) (byte_at m (vn_space v) (vn_offset v) (vn_size v) i)).
  change (0 <= combine_bytes f (value_bytes (vn_size v)) 0 < modulus (vn_size v)).
  unfold value_bytes, valid_size, modulus in *. rewrite Z.min_l by lia.
  assert (forall i, 0 <= f i < 256) as Hf by (intros; by apply read_byte_range).
  pose proof (combine_bytes_range f (Z.to_nat (vn_size v)) ltac:(lia) Hf) as Hr.
  set (r := combine_bytes _ _ _) in *. split; [lia|].
  replace r with (r mod 2 ^ (8 * vn_size v)); [apply Z.mod_pos_bound; apply pow2_pos; lia|].
  apply (bits_eq 64); [lia| |done|].
  - pose proof (pow2_le_64 (8 * vn_size v) ltac:(lia)). pose proof (pow2_pos (8 * vn_size v) ltac:(lia)).
    pose proof (Z.mod_pos_bound r (2 ^ (8 * vn_size v))). lia.
  - intros j Hj. unfold r. destruct (Z.lt_ge_cases j (8 * vn_size v)).
    + by rewrite Z.mod_pow2_bits_low by lia.
    + rewrite Z.mod_pow2_bits_high, combine_bytes_bit by (done || lia). cmp; [lia|done].
Qed.

(** ** Writing results *)

Section Refinement.
Context `{HostFloat}.

Lemma noted_cells (m m' : machine) : noted m m' -> forall sp a, read_byte m' sp a = read_byte m sp a.
Proof. by intros [u ->]. Qed.

Lemma bus_noted (m m' : machine) : noted m m' -> bus_ok m -> bus_ok m'.
Proof. by intros [u ->]. Qed.

(** The tail of an operation that computed [r]: it writes the masked result. *)
Lemma finish_yields (m m' : machine) (op : pcode_op) (o : varnode) (r v : Z) :
  bus_ok m -> read_byte m' = read_byte m -> bus m' = bus m -> big_endian m' = big_endian m -> bus_ok m' ->
  po_out op = Some o -> location o -> holds (vn_size o) r v ->
  let '(f, m'') := finish op r m' in
  f = Step.Next /\ value_of m'' o = v /\ (forall sp a, outside m o sp a -> read_byte m'' sp a = read_byte m sp a).
Proof.
  intros Hok Hrb Hbus Hbe Hok' Ho [[Hs Hoff] Hc] [Hr Hv]. unfold finish, write_out, bind, modify, ret. rewrite Ho.
  set (w := write m' _ _ _ _).
  set (m'' := match last_quotient w with Some _ => _ | None => _ end).
  assert (read m'' = read w /\ read_byte m'' = read_byte w) as [Er Eb].
  { unfold m''. destruct (last_quotient w) as [[[q ?] ?]|]; [|done]. by destruct (_ && _). }
  pose proof (mask_range r (vn_size o) Hs Hr) as Hm. assert (2 ^ (8 * vn_size o) <= 2 ^ 64).
  { apply Z.pow_le_mono_r; unfold valid_size in *; lia. }
  split; [done|]. split.
  - unfold value_of. rewrite Er. unfold w. rewrite read_written by (done || lia).
    rewrite (mask_value (vn_size o) (mask r (vn_size o)) Hs Hm). done.
  - intros sp a Ha. rewrite Eb. unfold w. rewrite write_elsewhere; [by rewrite Hrb|done|done|].
    intros E i Hi. unfold outside in Ha. unfold byte_at in *. rewrite Hbus, Hbe. apply Ha; [done|lia].
Qed.

Lemma finish_noted (m m' : machine) (op : pcode_op) (o : varnode) (r v : Z) :
  bus_ok m -> noted m m' -> po_out op = Some o -> location o -> holds (vn_size o) r v ->
  let '(f, m'') := finish op r m' in
  f = Step.Next /\ value_of m'' o = v /\ (forall sp a, outside m o sp a -> read_byte m'' sp a = read_byte m sp a).
Proof. intros Hok [u ->] Ho Hl Hh. by apply finish_yields. Qed.

(** The computation of a value from noted reads, then the tail. *)
Lemma value_yields (c : state machine Z) (m m' : machine) (op : pcode_op) (o : varnode) (r v : Z) :
  bus_ok m -> c m = (r, m') -> noted m m' -> po_out op = Some o -> location o -> holds (vn_size o) r v ->
  yields (let* res := c in finish op res) m o v.
Proof. intros Hok Hc Hn Ho Hl Hh. unfold yields, bind. rewrite Hc. by apply finish_noted. Qed.

Section Binary.
Variables (op : pcode_op) (a b : varnode).
Hypothesis Hins : po_ins op = [PVar a; PVar b].

Lemma bin_run {A : Type} (k : Z -> Z -> state machine A) (m : machine) :
  exists m', (let* x := arg op 0 in let* y := arg op 1 in k x y) m = k (value_of m a) (value_of m b) m' /\ noted m m'.
Proof using Hins.
  apply two_run; intros m' N.
  - destruct (arg_run op 0 a m') as (m'' & E & N'); [by rewrite Hins|]. exists m''. by rewrite E, (value_noted m m').
  - destruct (arg_run op 1 b m') as (m'' & E & N'); [by rewrite Hins|]. exists m''. by rewrite E, (value_noted m m').
Qed.

Lemma sbin_run {A : Type} (k : Z -> Z -> state machine A) (m : machine) :
  exists m', (let* x := sarg op 0 in let* y := sarg op 1 in k x y) m
             = k (sext (value_of m a) (vn_size a)) (sext (value_of m b) (vn_size b)) m' /\ noted m m'.
Proof using Hins.
  apply two_run; intros m' N.
  - destruct (sarg_run op 0 a m') as (m'' & E & N'); [by rewrite Hins|]. exists m''. by rewrite E, (value_noted m m').
  - destruct (sarg_run op 1 b m') as (m'' & E & N'); [by rewrite Hins|]. exists m''. by rewrite E, (value_noted m m').
Qed.

Lemma mixed_run {A : Type} (k : Z -> Z -> state machine A) (m : machine) :
  exists m', (let* x := sarg op 0 in let* y := arg op 1 in k x y) m
             = k (sext (value_of m a) (vn_size a)) (value_of m b) m' /\ noted m m'.
Proof using Hins.
  apply two_run; intros m' N.
  - destruct (sarg_run op 0 a m') as (m'' & E & N'); [by rewrite Hins|]. exists m''. by rewrite E, (value_noted m m').
  - destruct (arg_run op 1 b m') as (m'' & E & N'); [by rewrite Hins|]. exists m''. by rewrite E, (value_noted m m').
Qed.

Lemma bin_value (f : Z -> Z -> Z) (size v : Z) (m : machine) : holds size (f (value_of m a) (value_of m b)) v ->
  exists r m', (let* x := arg op 0 in let* y := arg op 1 in ret (f x y)) m = (r, m') /\ noted m m' /\ holds size r v.
Proof using Hins.
  intros Hh. destruct (bin_run (fun x y => ret (f x y)) m) as (m' & E & N). by exists (f (value_of m a) (value_of m b)), m'.
Qed.

Lemma sbin_value (f : Z -> Z -> Z) (size v : Z) (m : machine) :
  holds size (f (sext (value_of m a) (vn_size a)) (sext (value_of m b) (vn_size b))) v ->
  exists r m', (let* x := sarg op 0 in let* y := sarg op 1 in ret (f x y)) m = (r, m') /\ noted m m' /\ holds size r v.
Proof using Hins.
  intros Hh. destruct (sbin_run (fun x y => ret (f x y)) m) as (m' & E & N). by eexists _, m'.
Qed.

Lemma mixed_value (f : Z -> Z -> Z) (size v : Z) (m : machine) :
  holds size (f (sext (value_of m a) (vn_size a)) (value_of m b)) v ->
  exists r m', (let* x := sarg op 0 in let* y := arg op 1 in ret (f x y)) m = (r, m') /\ noted m m' /\ holds size r v.
Proof using Hins.
  intros Hh. destruct (mixed_run (fun x y => ret (f x y)) m) as (m' & E & N). by eexists _, m'.
Qed.

(** The operations without a fault: the computed word holds the value of the semantics. *)
Lemma alu_value (opc : opcode) (o : varnode) (m : machine) :
  machine_ok m -> operand a -> operand b -> location o -> po_out op = Some o ->
  binary_sizes opc (vn_size a) (vn_size b) (vn_size o) = true ->
  is_binary opc = true -> opc <> Subpiece -> opc <> IntDiv -> opc <> IntSdiv -> opc <> IntRem -> opc <> IntSrem ->
  exists c v, alu opc op = Some c /\ eval_binary opc (vn_size a) (vn_size o) (value_of m a) (counted opc (value_of m b)) = Some v /\
    exists r m', c m = (r, m') /\ noted m m' /\ holds (vn_size o) r v.
Proof using Hins.
  intros Hm Ha Hb [[Ho _] _] Hout Hsz Hbin ? ? ? ? ?.
  pose proof (value_range m a Hm Ha) as Hx. pose proof (value_range m b Hm Hb) as Hy.
  destruct Ha as [Ha _], Hb as [Hb _].
  pose proof (value_word _ _ Ha Hx) as Hxw. pose proof (value_word _ _ Hb Hy) as Hyw.
  remember (value_of m a) as x eqn:Ex. remember (value_of m b) as y eqn:Ey.
  assert (forall d, in_size_or op d = vn_size a) as Hin by (intros; unfold in_size_or, first_var; by rewrite Hins).
  destruct opc; try discriminate; try done; cbn in Hsz; try rewrite !andb_true_iff in Hsz;
    (do 2 eexists; split; [reflexivity|]; split; [reflexivity|]);
    (first [apply bin_value|apply sbin_value|apply mixed_value]); rewrite ?Hin;
    rewrite ?Z.eqb_eq in Hsz; rewrite <- ?Ex, <- ?Ey; clear - Hsz Hx Hy Ha Hb Ho Hxw Hyw.
  all: repeat match goal with H : _ /\ _ |- _ => destruct H as [? ?] end.
  all: repeat match goal with H : ?s = _ |- _ => rewrite H in * end.
  all: eauto with holds.
Qed.
(** *** Divisions *)

Lemma divide_faults (k : state machine flow) (m : machine) : value_of m b = 0 -> faults (divide op k) m.
Proof using Hins.
  intros Hz. unfold faults, divide, bind. destruct (arg_run op 1 b m) as (m' & -> & N); [by rewrite Hins|].
  rewrite Hz. cbn. destruct N as [u ->]. unfold fault. cbn. destruct (trace m); cbn; [done|]. by rewrite app_nil_r.
Qed.

Lemma divide_goes (k : state machine flow) (m : machine) : value_of m b <> 0 ->
  exists m', divide op k m = k m' /\ noted m m'.
Proof using Hins.
  intros Hz. unfold divide, bind. destruct (arg_run op 1 b m) as (m' & -> & N); [by rewrite Hins|].
  exists m'. destruct (Z.eqb_spec (value_of m b) 0); done.
Qed.

(** The tail of a quotient: the result is written and remembered. *)
Lemma quotient_yields (m m' : machine) (o : varnode) (q v : Z) (sg : bool) :
  bus_ok m -> noted m m' -> po_out op = Some o -> location o -> holds (vn_size o) q v ->
  from_u32 (po_opcode op) = Some IntDiv \/ from_u32 (po_opcode op) = Some IntSdiv ->
  let '(f, m'') := (remember_quotient op q sg ;* finish op q) m' in
  (f = Step.Next /\ value_of m'' o = v /\ (forall sp a, outside m o sp a -> read_byte m'' sp a = read_byte m sp a)) /\
  last_quotient m'' = Some (o, q, sg).
Proof using.
  intros Hok [u ->] Ho Hl Hh Hop. unfold bind at 1.
  destruct (remember_quotient op q sg (set_uninitialized m u)) as [[] m3] eqn:E.
  assert (read_byte m3 = read_byte m /\ bus m3 = bus m /\ big_endian m3 = big_endian m /\ bus_ok m3 /\
          last_quotient m3 = Some (o, q, sg)) as (E1 & E2 & E3 & E4 & E5).
  { revert E. unfold remember_quotient, modify. cbn. rewrite Ho. destruct (adjusting m) as [[i bf]|]; by intros [= <-]. }
  pose proof (finish_yields m m3 op o q v Hok E1 E2 E3 E4 Ho Hl Hh) as Hf.
  assert (last_quotient (snd (finish op q m3)) = Some (o, q, sg)) as Hq.
  { unfold finish, write_out, bind, modify. cbn [snd ret]. rewrite Ho.
    assert (forall sp off sz val, last_quotient (write m3 sp off sz val) = Some (o, q, sg)) as Ew.
    { intros. unfold write. destruct (String.eqb _ _); [done|]. by destruct (_ && _). }
    rewrite Ew. destruct Hop as [-> | ->]; cbn; apply Ew. }
  by destruct (finish op q m3).
Qed.

Section Division.
Variables (o : varnode) (m : machine).
Hypotheses (Hm : machine_ok m) (Ha : operand a) (Hb : operand b) (Hl : location o) (Ho : po_out op = Some o)
  (Es1 : vn_size a = vn_size b) (Es2 : vn_size a = vn_size o).

Lemma division_values : is_value (vn_size o) (value_of m a) /\ is_value (vn_size o) (value_of m b) /\ valid_size (vn_size o).
Proof using All.
  pose proof (value_range m a Hm Ha) as Hx. pose proof (value_range m b Hm Hb) as Hy.
  rewrite <- Es1, Es2 in Hy. rewrite Es2 in Hx. by destruct Hl as [[? _] _].
Qed.

(** The word a division computes, and whether it is read as signed. *)
Definition quotient_word (sg : bool) : Z :=
  if sg then w64 (Z.quot (signed (vn_size o) (value_of m a)) (signed (vn_size o) (value_of m b)))
  else value_of m a / value_of m b.

Lemma quotient_step (sg : bool) :
  from_u32 (po_opcode op) = Some (if sg then IntSdiv else IntDiv) -> value_of m b <> 0 ->
  let '(f, m') := step op m in
  (f = Step.Next /\ value_of m' o = wrap (vn_size o) (quotient_word sg) /\
   (forall sp a, outside m o sp a -> read_byte m' sp a = read_byte m sp a)) /\
  last_quotient m' = Some (o, quotient_word sg, sg).
Proof using All.
  intros Eop Ez. destruct division_values as (Hx & Hy & Hs). unfold step. rewrite Eop. unfold out_size. rewrite Ho.
  destruct sg; match goal with |- context [divide op ?k m] => destruct (divide_goes k m Ez) as (m1 & -> & N1) end;
    match goal with
    | |- context [bind (arg _ _) (fun x => bind _ (fun y => @?k x y))] => destruct (bin_run k m1) as (m2 & E & N2)
    | |- context [bind (sarg _ _) (fun x => bind _ (fun y => @?k x y))] => destruct (sbin_run k m1) as (m2 & E & N2)
    end; rewrite E, ?(value_noted m m1) by done; pose proof (noted_trans _ _ _ N1 N2) as N; cbn beta zeta.
  - rewrite <- Es1, Es2, !sext_value by done. apply quotient_yields; auto using ok_bus.
    unfold quotient_word, wrap. rewrite w64_mod by done. by apply holds_w64.
  - rewrite !mask_value by done. rewrite (proj2 (Z.eqb_neq _ _) Ez). apply quotient_yields; auto using ok_bus.
    pose proof (holds_div (vn_size o) _ _ Hs Hx Hy Ez) as Hh. by rewrite !mask_value in Hh by done.
Qed.

Lemma remainder_step (sg : bool) :
  from_u32 (po_opcode op) = Some (if sg then IntSrem else IntRem) -> value_of m b <> 0 ->
  yields (step op) m o (wrap (vn_size o)
    (if sg then Z.rem (signed (vn_size o) (value_of m a)) (signed (vn_size o) (value_of m b))
     else value_of m a mod value_of m b)).
Proof using All.
  intros Eop Ez. destruct division_values as (Hx & Hy & Hs). unfold yields, step. rewrite Eop. unfold out_size. rewrite Ho.
  destruct sg; match goal with |- context [divide op ?k m] => destruct (divide_goes k m Ez) as (m1 & -> & N1) end;
    match goal with
    | |- context [bind (arg _ _) (fun x => bind _ (fun y => @?k x y))] => destruct (bin_run k m1) as (m2 & E & N2)
    | |- context [bind (sarg _ _) (fun x => bind _ (fun y => @?k x y))] => destruct (sbin_run k m1) as (m2 & E & N2)
    end; rewrite E, ?(value_noted m m1) by done; pose proof (noted_trans _ _ _ N1 N2) as N; cbn beta zeta.
  - apply finish_noted; auto using ok_bus. rewrite <- Es1, Es2, !sext_value by done. by apply holds_w64.
  - rewrite (mask_value (vn_size o) (value_of m b)), (proj2 (Z.eqb_neq _ _) Ez) by done.
    apply finish_noted; auto using ok_bus.
    pose proof (holds_rem (vn_size o) _ _ Hs Hx Hy Ez) as Hh. by rewrite (mask_value (vn_size o) (value_of m b)) in Hh by done.
Qed.
End Division.

Lemma division_refines (opc : opcode) (o : varnode) (m : machine) :
  machine_ok m -> operand a -> operand b -> location o -> po_out op = Some o -> from_u32 (po_opcode op) = Some opc ->
  binary_sizes opc (vn_size a) (vn_size b) (vn_size o) = true -> In opc [IntDiv; IntSdiv; IntRem; IntSrem] ->
  match eval_binary opc (vn_size a) (vn_size o) (value_of m a) (value_of m b) with
  | Some v => yields (step op) m o v
  | None => faults (step op) m
  end.
Proof using Hins.
  intros Hm Ha Hb Hl Ho Eop Hsz Hin.
  assert (vn_size a = vn_size b /\ vn_size a = vn_size o) as [Es1 Es2].
  { destruct Hin as [<-|[<-|[<-|[<-|[]]]]]; cbn in Hsz; rewrite andb_true_iff, !Z.eqb_eq in Hsz; done. }
  destruct (Z.eq_dec (value_of m b) 0) as [Ez|Ez].
  { unfold step. rewrite Eop. destruct Hin as [<-|[<-|[<-|[<-|[]]]]]; cbn [eval_binary]; rewrite Ez; by apply divide_faults. }
  assert ((value_of m b =? 0) = false) as Ezb by by apply Z.eqb_neq.
  destruct (division_values o m) as (_ & _ & Hs); try done.
  destruct Hin as [<-|[<-|[<-|[<-|[]]]]]; cbn [eval_binary]; rewrite Ezb, ?Es2.
  - pose proof (quotient_step o m Hm Ha Hb Hl Ho Es1 Es2 false Eop Ez) as Hq. revert Hq. unfold yields.
    destruct (step op m) as [f m']. by intros [? _].
  - pose proof (quotient_step o m Hm Ha Hb Hl Ho Es1 Es2 true Eop Ez) as Hq. unfold yields, quotient_word, wrap in *.
    rewrite w64_mod in Hq by done. revert Hq. destruct (step op m) as [f m']. by intros [? _].
  - by apply (remainder_step o m Hm Ha Hb Hl Ho Es1 Es2 false).
  - by apply (remainder_step o m Hm Ha Hb Hl Ho Es1 Es2 true).
Qed.

(** *** Truncation *)

Lemma subpiece_yields (o : varnode) (m : machine) :
  machine_ok m -> operand a -> operand b -> location o -> po_out op = Some o ->
  from_u32 (po_opcode op) = Some Subpiece -> fst (narrows_quotient_lossily op m) = false ->
  yields (step op) m o (wrap (vn_size o) (value_of m a / 2 ^ (8 * (value_of m b mod 8)))).
Proof using Hins.
  intros Hm Ha Hb Hl Ho Eop Hq.
  pose proof (value_range m a Hm Ha) as Hx.
  destruct Ha as [Ha _], Hb as [Hb _]. unfold yields, step. rewrite Eop. unfold bind at 1.
  assert (noted m (snd (narrows_quotient_lossily op m))) as N.
  { unfold narrows_quotient_lossily, first_var. rewrite Hins, Ho. cbn [as_var nth_error].
    destruct (last_quotient m) as [[[q value] sg]|]; [|apply noted_refl]. destruct (_ || _); [apply noted_refl|].
    destruct (read_arg_run m b) as (m' & -> & N). by destruct (negb (value_of m b =? 0)). }
  destruct (narrows_quotient_lossily op m) as [lossy m1]. cbn in Hq, N. subst lossy.
  destruct (bin_run (fun x y => finish op (u64_shr x (u64_mul y 8))) m1) as (m2 & E & N2). rewrite E.
  rewrite !(value_noted m m1) by done. apply finish_noted; [by apply ok_bus|by eapply noted_trans|done|done|].
  destruct Hl as [[? _] _]. by apply (subpiece_value (vn_size a)).
Qed.

Lemma step_alu (opc : opcode) (c : state machine Z) : from_u32 (po_opcode op) = Some opc -> alu opc op = Some c ->
  step op = (let* res := c in finish op res).
Proof using. intros Eop Ec. unfold step. rewrite Eop. destruct opc; try discriminate Ec; by injection Ec as <-. Qed.

End Binary.
End Refinement.

(** *** One input *)

Section Unary.
Context `{HostFloat}.
Variables (op : pcode_op) (a o : varnode).
Hypotheses (Hins : po_ins op = [PVar a]) (Ho : po_out op = Some o).

Lemma un_value (f : Z -> Z) (size v : Z) (m : machine) : holds size (f (value_of m a)) v ->
  exists r m', (let* x := arg op 0 in ret (f x)) m = (r, m') /\ noted m m' /\ holds size r v.
Proof using Hins.
  intros Hh. destruct (arg_run op 0 a m) as (m' & E & N); [by rewrite Hins|].
  exists (f (value_of m a)), m'. unfold bind. by rewrite E.
Qed.

Lemma sun_value (f : Z -> Z) (size v : Z) (m : machine) : holds size (f (sext (value_of m a) (vn_size a))) v ->
  exists r m', (let* x := sarg op 0 in ret (f x)) m = (r, m') /\ noted m m' /\ holds size r v.
Proof using Hins.
  intros Hh. destruct (sarg_run op 0 a m) as (m' & E & N); [by rewrite Hins|].
  exists (f (sext (value_of m a) (vn_size a))), m'. unfold bind. by rewrite E.
Qed.

Lemma alu_unary (opc : opcode) (m : machine) (v : Z) :
  machine_ok m -> operand a -> location o -> unary_sizes opc (vn_size a) (vn_size o) = true ->
  eval_unary opc (vn_size a) (vn_size o) (value_of m a) = Some v ->
  exists c, alu opc op = Some c /\ exists r m', c m = (r, m') /\ noted m m' /\ holds (vn_size o) r v.
Proof using Hins.
  intros Hm Ha [[Hso _] _] Hsz E. pose proof (value_range m a Hm Ha) as Hx. destruct Ha as [Ha _].
  pose proof (value_word _ _ Ha Hx) as Hxw.
  destruct opc; try discriminate; injection E as <-; eexists; (split; [reflexivity|]);
    (first [apply un_value|apply sun_value]).
  - by apply holds_word.
  - by apply holds_word.
  - rewrite sext_value by done. by apply holds_w64.
  - by apply holds_w64.
  - by apply holds_w64.
  - cbn in Hsz. rewrite Z.eqb_eq in Hsz. rewrite Hsz. apply holds_bool.
  - apply holds_word; [done|]. by apply count_ones_word.
  - unfold in_size_or, first_var. rewrite Hins. cbn [as_var]. by apply holds_lzcount.
Qed.
End Unary.

(** ** The operations *)

Section Properties.
Context `{HostFloat}.

Lemma from_as (opc : opcode) : from_u32 (as_u32 opc) = Some opc.
Proof using. by destruct opc. Qed.

(** [C4] The interpreter implements the p-code semantics of the two-input integer operations of the sizes
    the semantics asks for, on operands of 1 to 8 bytes in any space, byte order and bus, with one
    difference it states: the second operand of a shift or a SUBPIECE is first counted modulo 64, modulo
    [2 ^ 32] (INT_SRIGHT) or modulo 8 bytes.  [step] goes on with the value so defined in the output and no
    other cell changed, and where the semantics gives no value (a zero divisor) it faults with memory
    unchanged, recording the fault when traced.  (A SUBPIECE that narrows a remembered quotient is the
    subject of [quotient_narrowing].) *)
Theorem step_binary_refines (op : pcode_op) (opc : opcode) (a b o : varnode) (m : machine) :
  machine_ok m -> po_opcode op = as_u32 opc -> po_ins op = [PVar a; PVar b] -> po_out op = Some o ->
  operand a -> operand b -> location o -> is_binary opc = true ->
  binary_sizes opc (vn_size a) (vn_size b) (vn_size o) = true ->
  (opc = Subpiece -> fst (narrows_quotient_lossily op m) = false) ->
  match eval_binary opc (vn_size a) (vn_size o) (value_of m a) (counted opc (value_of m b)) with
  | Some v => yields (step op) m o v
  | None => faults (step op) m
  end.
Proof.
  intros Hm Eop Hins Ho Ha Hb Hl Hbin Hsz Hq.
  assert (from_u32 (po_opcode op) = Some opc) as E by (rewrite Eop; apply from_as).
  destruct (decide (opc = Subpiece)) as [->|].
  { cbn [eval_binary]. apply (subpiece_yields op a b Hins); auto. }
  destruct (decide (In opc [IntDiv; IntSdiv; IntRem; IntSrem])) as [Hd|Hd].
  { assert (counted opc (value_of m b) = value_of m b) as -> by (destruct Hd as [<-|[<-|[<-|[<-|[]]]]]; done). by apply (division_refines op a b Hins). }
  destruct (alu_value op a b Hins opc o m) as (c & v & Ec & -> & r & m' & Er & N & Hh);
    try done; try (intros ->; apply Hd; cbn; tauto).
  rewrite (step_alu op opc c E Ec). by eapply value_yields; eauto using ok_bus.
Qed.

(** [C34] The interpreter implements the p-code semantics of the one-input integer operations. *)
Theorem step_unary_refines (op : pcode_op) (opc : opcode) (a o : varnode) (m : machine) (v : Z) :
  machine_ok m -> po_opcode op = as_u32 opc -> po_ins op = [PVar a] -> po_out op = Some o ->
  operand a -> location o -> unary_sizes opc (vn_size a) (vn_size o) = true ->
  eval_unary opc (vn_size a) (vn_size o) (value_of m a) = Some v -> yields (step op) m o v.
Proof.
  intros Hm Eop Hins Ho Ha Hl Hsz Ev.
  assert (from_u32 (po_opcode op) = Some opc) as E by (rewrite Eop; apply from_as).
  destruct (alu_unary op a o Hins opc m v Hm Ha Hl Hsz Ev) as (c & Ec & r & m' & Er & N & Hh).
  rewrite (step_alu op opc c E Ec). by eapply value_yields; eauto using ok_bus.
Qed.

(** [C24] A division followed by the truncation of its quotient: the truncation faults exactly when
    the quotient, read as the division reads it, does not fit the narrower output. *)
Theorem quotient_narrowing (sg : bool) (div sub : pcode_op) (a b q z o : varnode) (m : machine) :
  machine_ok m -> po_opcode div = as_u32 (if sg then IntSdiv else IntDiv) ->
  po_ins div = [PVar a; PVar b] -> po_out div = Some q -> operand a -> operand b -> location q ->
  vn_size a = vn_size q -> vn_size b = vn_size q -> value_of m b <> 0 ->
  po_opcode sub = as_u32 Subpiece -> po_ins sub = [PVar q; PVar z] -> po_out sub = Some o -> location o ->
  z = VN "const" 0 (vn_size z) -> valid_size (vn_size z) -> vn_size o < vn_size q ->
  let quotient := if sg then Z.quot (signed (vn_size q) (value_of m a)) (signed (vn_size q) (value_of m b))
                  else value_of m a / value_of m b in
  fst (step sub (snd (step div m))) = if representable sg (vn_size o) quotient then Step.Next else Step.Fault.
Proof.
  intros Hm Ediv Hins Hq Ha Hb Hlq Es1 Es2 Ez Esub Hins' Ho Hlo Hz Hsz Hlt quotient.
  assert (from_u32 (po_opcode div) = Some (if sg then IntSdiv else IntDiv)) as E by (rewrite Ediv; apply from_as).
  pose proof (quotient_step div a b Hins q m Hm Ha Hb Hlq Hq ltac:(congruence) Es1 sg E Ez) as Hstep.
  pose proof (step_keeps div m Hm) as Hm'.
  destruct (division_values div a b Hins q m Hm Ha Hb Hlq Hq ltac:(congruence) Es1) as (Hx & Hy & Hsq).
  destruct (step div m) as [f m']. destruct Hstep as [_ Hlast]. cbn [snd] in *.
  assert (from_u32 (po_opcode sub) = Some Subpiece) as E' by (rewrite Esub; done).
  assert (value_of m' z = 0) as Ezero by (rewrite Hz; unfold value_of, read; cbn; apply mask_value; unfold is_value; pose proof (modulus_pos (vn_size z) Hsz); (done || lia)).
  assert (exists m'', narrows_quotient_lossily sub m' = (negb (representable sg (vn_size o) quotient), m'')) as (m'' & En).
  { unfold narrows_quotient_lossily, first_var. rewrite Hlast, Hins', Ho. cbn [as_var nth_error].
    rewrite bool_decide_true by done. destruct (Z.leb_spec (vn_size q) (vn_size o)); [lia|]. cbn [negb orb].
    destruct (read_arg_run m' z) as (m'' & -> & N). rewrite Ezero. cbn [negb Z.eqb]. exists m''. f_equal.
    destruct Hlo as [[? _] _]. unfold quotient, quotient_word. destruct sg.
    - apply narrow_signed; [done|done|done|]. apply quot_range; [by apply signed_range|]. by apply signed_nonzero.
    - apply narrow_unsigned; [done|done|done|]. unfold is_value in *.
      split; [apply Z.div_pos; lia|]. apply Z.div_lt_upper_bound; nia. }
  destruct (representable sg (vn_size o) quotient); cbn [negb] in En.
  - assert (fst (narrows_quotient_lossily sub m') = false) as Hf by (by rewrite En).
    assert (operand z) as Hoz by (rewrite Hz; split; [done|cbn; lia]).
    pose proof (subpiece_yields sub q z Hins' o m' Hm' (proj1 Hlq) Hoz Hlo Ho E' Hf) as Hy'.
    unfold yields in Hy'. by destruct (step sub m') as [f' ?]; destruct Hy' as [-> _].
  - unfold step. rewrite E'. unfold bind. by rewrite En.
Qed.
(** [C35] Memory operations: after a STORE, a LOAD of the same size through the same pointer puts the
    stored value in its output. *)
Theorem store_load (st ld : pcode_op) (sp : string) (p v o : varnode) (m : machine) :
  machine_ok m -> po_opcode st = as_u32 Store -> po_ins st = [PSpace sp; PVar p; PVar v] ->
  po_opcode ld = as_u32 Load -> po_ins ld = [PSpace sp; PVar p] -> po_out ld = Some o ->
  operand p -> operand v -> location o -> String.eqb sp "const" = false -> vn_size o = vn_size v ->
  vn_space p <> sp ->
  let m' := snd (step st m) in
  fst (step st m) = Step.Next /\ yields (step ld) m' o (value_of m v).
Proof.
  intros Hm Est Hst Eld Hld Ho Hp Hv Hlo Hsp Hsz Hdiff m'.
  assert (from_u32 (po_opcode st) = Some Store) as E by (rewrite Est; done).
  assert (from_u32 (po_opcode ld) = Some Load) as E' by (rewrite Eld; done).
  pose proof (value_range m p Hm Hp) as Hrp. pose proof (value_range m v Hm Hv) as Hrv.
  destruct Hp as [Hp Hpo], Hv as [Hv Hvo].
  pose proof (value_word _ _ Hp Hrp) as Hwp. pose proof (value_word _ _ Hv Hrv) as Hwv.
  assert (exists u, step st m = (Step.Next, write (set_uninitialized m u) sp (value_of m p) (vn_size v) (value_of m v))) as (u & Em).
  { unfold step. rewrite E, Hst. cbn [nth_error].
    match goal with |- context [bind (read_arg _) (fun x => bind _ (fun y => @?k x y))] =>
      destruct (two_run (read_arg (PVar p)) (read_arg (PVar v)) k (value_of m p) (value_of m v) m) as (m2 & -> & [u ->]) end.
    - intros m1 N. rewrite <- (value_noted m m1) by done. apply read_arg_run.
    - intros m1 N. rewrite <- (value_noted m m1 v) by done. apply read_arg_run.
    - by exists u. }
  unfold m'. rewrite Em. cbn [fst snd]. split; [done|]. set (mu := set_uninitialized m u).
  set (w := write mu sp _ _ _). assert (machine_ok mu) as Hmu by (by apply (machine_ok_ext m)).
  assert (machine_ok w) as Hw by (by apply write_ok).
  assert (value_of w p = value_of m p) as Evp.
  { unfold value_of, read. destruct (String.eqb (vn_space p) "const") eqn:Ec; [done|].
    apply (read_ext w m); intros; [|by unfold w; rewrite write_layout].
    unfold w. rewrite write_elsewhere; [done|by apply ok_bus|done|]. congruence. }
  assert (read w sp (value_of m p) (vn_size v) = value_of m v) as Er.
  { unfold w. rewrite read_written by (done || by apply ok_bus). by apply mask_value. }
  unfold yields, step. rewrite E', Hld. cbn [nth_error]. unfold bind at 1.
  destruct (read_arg_run w p) as (w' & -> & N). unfold bind at 1, get. unfold out_size. rewrite Ho, Hsz, Evp.
  destruct N as [u' ->]. change (read (set_uninitialized w u')) with (read w). rewrite Er.
  apply (finish_noted w); [by apply ok_bus|by eexists|done|done|]. rewrite Hsz. split; [done|]. by apply mask_value.
Qed.
End Properties.

(** ** Witnesses *)

(** Two registers: 0xffffffff and 3; a 32-bit dividend of 0x10001 at 16 over 1 at 20. *)
Definition example_machine : machine :=
  write (write (write (write default_machine "register" 0 4 4294967295) "register" 4 4 3) "register" 16 4 65537)
    "register" 20 4 1.

Lemma default_ok : machine_ok default_machine.
Proof. split; [by intros ? ? ? ? E|done|done|done]. Qed.

Lemma example_ok : machine_ok example_machine.
Proof. repeat apply write_ok. apply default_ok. Qed.

Definition reg (offset size : Z) : varnode := VN "register" offset size.

Lemma step_binary_refines_witness :
  let add := POP 19 (Some (reg 8 4)) [PVar (reg 0 4); PVar (reg 4 4)] Other in
  let div := POP 33 (Some (reg 8 4)) [PVar (reg 0 4); PVar (reg 12 4)] Other in
  let shl := POP 29 (Some (reg 8 4)) [PVar (reg 4 4); PVar (VN "const" 65 4)] Other in
  yields (step add) example_machine (reg 8 4) 2 /\ faults (step div) example_machine /\ yields (step shl) example_machine (reg 8 4) 6.
Proof.
  split; [|split].
  - apply (step_binary_refines _ IntAdd (reg 0 4) (reg 4 4) (reg 8 4) example_machine example_ok); try reflexivity;
      try discriminate; repeat split; cbn; lia.
  - apply (step_binary_refines _ IntDiv (reg 0 4) (reg 12 4) (reg 8 4) example_machine example_ok); try reflexivity;
      try discriminate; repeat split; cbn; lia.
  - apply (step_binary_refines _ IntLeft (reg 4 4) (VN "const" 65 4) (reg 8 4) example_machine example_ok); try reflexivity;
      try discriminate; repeat split; cbn; lia.
Defined.

Lemma step_unary_refines_witness :
  yields (step (POP 18 (Some (reg 8 8)) [PVar (reg 0 4)] Other)) example_machine (reg 8 8) (2 ^ 64 - 1).
Proof.
  apply (step_unary_refines _ IntSext (reg 0 4) (reg 8 8) example_machine _ example_ok); try reflexivity;
    repeat split; cbn; lia.
Defined.

(** 0x10001 / 1 does not fit 16 bits; 0xffffffff / 0x10001 does. *)
Lemma quotient_narrowing_witness :
  let div a b := POP 33 (Some (reg 24 4)) [PVar a; PVar b] Other in
  let sub := POP 63 (Some (reg 28 2)) [PVar (reg 24 4); PVar (VN "const" 0 4)] Other in
  fst (step sub (snd (step (div (reg 16 4) (reg 20 4)) example_machine))) = Step.Fault /\
  fst (step sub (snd (step (div (reg 0 4) (reg 16 4)) example_machine))) = Step.Next.
Proof.
  split.
  - apply (quotient_narrowing false _ _ (reg 16 4) (reg 20 4) (reg 24 4) (VN "const" 0 4) (reg 28 2) example_machine
             example_ok); try reflexivity; try (vm_compute; discriminate); repeat split; cbn; lia.
  - apply (quotient_narrowing false _ _ (reg 0 4) (reg 16 4) (reg 24 4) (VN "const" 0 4) (reg 28 2) example_machine
             example_ok); try reflexivity; try (vm_compute; discriminate); repeat split; cbn; lia.
Defined.

Lemma store_load_witness :
  let st := POP 3 None [PSpace "ram"; PVar (reg 4 4); PVar (reg 0 4)] Other in
  let ld := POP 2 (Some (reg 8 4)) [PSpace "ram"; PVar (reg 4 4)] Other in
  fst (step st example_machine) = Step.Next /\ yields (step ld) (snd (step st example_machine)) (reg 8 4) 4294967295.
Proof.
  apply (store_load _ _ "ram" (reg 4 4) (reg 0 4) (reg 8 4) example_machine example_ok); try reflexivity;
    try discriminate; repeat split; cbn; lia.
Defined.
