(* ===== verification/Run.v ===== *)
(** Whole runs of the interpreter, [Image] and [Image::resume] of [sleigh/emu.rs]: decoding on
    demand, the address loop with followed or skipped calls, stubs, the step budget, and the
    reasons a run ends. *)
From Stdlib Require Import ZArith Lia Bool List String.
From stdpp Require Import base decidable gmap strings list tactics.
From S2P Require Import Prelude OpCode HostFloat Pcode M68kAlu Machine M68kModifier Step.
Local Open Scope Z_scope.

(** ** Data *)

(** [Panicked] is not a constructor of the source's: the run was cut short by a panic. *)
Inductive stop := Returned | Faulted | NoInstruction (pc : Z) | StepCap | Panicked.

Record decoded_insn := Decoded {
  d_ops : list pcode_op;
  d_next : Z;
  d_calls : bool;
  d_adjust : option insn;
}.

Record run_options := RunOptions {
  o_entry : option Z;
  o_follow_calls : bool;
  o_max_steps : Z;
  o_trace : bool;
  o_stubs : gset Z;
}.

Definition default_options : run_options := RunOptions None false 5000000 false ∅.

Record run_result := Run { r_machine : machine; r_steps : Z; r_stop : stop }.

Record image := Image {
  i_spec : spec;
  i_blocks : list (Z * list Z);
  i_base : Z;
  i_context : list Z;
  i_decoded : gmap Z decoded_insn;
  i_memory : option backing;
  i_stack_pointer : option (Z * Z);
  i_address_mask : option Z;
  i_m68k : option m68k;
}.

Definition DECODE_WINDOW : Z := 64.

Definition set_decoded (img : image) (d : gmap Z decoded_insn) : image :=
  Image (i_spec img) (i_blocks img) (i_base img) (i_context img) d (i_memory img) (i_stack_pointer img)
    (i_address_mask img) (i_m68k img).

(** ** Building an image *)

Definition from_blocks (sp : spec) (blocks : list (Z * list Z)) (context : list Z) : image :=
  let blocks := sort_by (fun a b : Z * list Z => fst a <=? fst b)
                  (List.filter (fun b => match snd b with [] => false | _ => true end) blocks) in
  let base := match blocks with (start, _) :: _ => start | [] => 0 end in
  Image sp blocks base context ∅ None None None (for_spec sp).

Definition new (sp : spec) (bytes : list Z) (base : Z) (context : list Z) : image :=
  let img := from_blocks sp [(base, bytes)] context in
  Image (i_spec img) (i_blocks img) base (i_context img) (i_decoded img) (i_memory img) (i_stack_pointer img)
    (i_address_mask img) (i_m68k img).

Definition with_stack_pointer (img : image) (offset size : Z) : image :=
  Image (i_spec img) (i_blocks img) (i_base img) (i_context img) (i_decoded img) (i_memory img)
    (Some (offset, size)) (i_address_mask img) (i_m68k img).

Definition with_address_mask (img : image) (mask : Z) : image :=
  Image (i_spec img) (i_blocks img) (i_base img) (i_context img) (i_decoded img) (i_memory img)
    (i_stack_pointer img) (Some mask) (i_m68k img).

Definition with_image_memory (img : image) : image :=
  Image (i_spec img) (i_blocks img) (i_base img) (i_context img) (i_decoded img)
    (Some (Backing (default_space_name (i_spec img)) (i_blocks img)))
    (i_stack_pointer img) (i_address_mask img) (i_m68k img).

Definition decoded (img : image) : Z := Z.of_nat (size (i_decoded img)).

(** ** Decoding *)

Definition is_call (op : pcode_op) : bool :=
  String.eqb (opcode_name (po_opcode op)) "CALL" || String.eqb (opcode_name (po_opcode op)) "CALLIND".

Definition adjust (k : option m68k) (i : instruction) : option insn :=
  match k with Some _ => classify (in_mnemonic i) (in_bytes i) | None => None end.

Definition insn_next (i : instruction) : Z := u64_add (in_address i) (Z.of_nat (List.length (in_bytes i))).

Definition decode (k : option m68k) (i : instruction) : decoded_insn :=
  Decoded (in_ops i) (insn_next i) (existsb is_call (in_ops i)) (adjust k i).

(** The decoded instructions of a window are kept up to the first one the window cuts; an address
    already decoded keeps its instruction. *)
Fixpoint keep_window (k : option m68k) (cut : bool) (window_end : Z) (insns : list instruction)
    (d : gmap Z decoded_insn) : gmap Z decoded_insn :=
  match insns with
  | [] => d
  | i :: insns =>
      if cut && (window_end <? insn_next i) then d
      else
        let d := match d !! in_address i with
                 | Some _ => d
                 | None => <[in_address i := decode k i]> d
                 end in
        keep_window k cut window_end insns d
  end.

Definition slice (bytes : list Z) (off end_ : Z) : list Z :=
  firstn (Z.to_nat (end_ - off)) (skipn (Z.to_nat off) bytes).

(** [Image::at] *)
Definition at_pc (img : image) (pc : Z) : option decoded_insn * image :=
  match i_decoded img !! pc with
  | Some d => (Some d, img)
  | None =>
      match blocks_upto (i_blocks img) pc with
      | O => (None, img)
      | S i =>
          match nth_error (i_blocks img) i with
          | None => (None, img)
          | Some (start, bytes) =>
              let off := pc - start in
              let len := Z.of_nat (List.length bytes) in
              if len <=? off then (None, img)
              else
                let end_ := Z.min (off + DECODE_WINDOW) len in
                let cut := end_ <? len in
                let window_end := u64_add start end_ in
                let insns := disassemble_ctx (i_spec img) (slice bytes off end_) pc (i_context img) in
                let img := set_decoded img (keep_window (i_m68k img) cut window_end insns (i_decoded img)) in
                (i_decoded img !! pc, img)
          end
      end
  end.

(** ** Running *)

(** [Image::machine] *)
Definition fresh_machine (img : image) : machine :=
  let sp := i_spec img in
  Machine ∅ None [] 0 ∅ (spec_userops sp) [] [] [] (0, 0) ∅ ∅ ∅ false None [] [] None (i_memory img)
    (list_to_set (big_endian_names sp))
    (match i_address_mask img with Some mask => Some (default_space_name sp, mask) | None => None end)
    (i_m68k img) None.

(** what [resume] clears before it runs *)
Definition start_run (m : machine) (trace : bool) : machine :=
  let m := set_effects m [] in
  let m := set_effect_sites m [] in
  let m := set_uninitialized m ∅ in
  let m := set_unanswered m ∅ in
  let m := set_unmodeled m 0 in
  let m := set_unmodeled_ops m ∅ in
  let m := set_last_quotient m None in
  set_trace m trace.

(** the entered calls, innermost first: fall-through and stack pointer *)
Definition frames : Type := list (Z * option Z).

(** [m.write("register", off, size, sp)] when both are known *)
Definition restore_sp (stack : option (Z * Z)) (sp : option Z) (m : machine) : machine :=
  match stack, sp with
  | Some (off, size), Some sp => write m "register" off size sp
  | _, _ => m
  end.

(** the target of a call, read only when it is needed *)
Definition call_target (opts : run_options) (name : string) (op : pcode_op) : state machine (option Z) := fun m =>
  if o_follow_calls opts || trace m then
    match po_ins op with
    | [] => (Some 0, m)
    | PVar v :: _ =>
        if String.eqb name "CALL" && negb (is_const v) then (Some (vn_offset v), m)
        else let '(x, m) := read_arg (PVar v) m in (Some x, m)
    | a :: _ => let '(x, m) := read_arg a m in (Some x, m)
    end
  else (None, m).

(** how the operations of one instruction end: the run stops, or control leaves the instruction *)
Inductive op_exit := Ends (s : stop) | Leaves (jump : option Z).

(** [(i as i64 + d).max(0) as usize] *)
Definition rel_index (i : nat) (d : Z) : nat := Z.to_nat (Z.max (i64 (Z.of_nat i + d)) 0).

Section Resume.
Context `{HostFloat}.
Variables (opts : run_options) (stack : option (Z * Z)) (bus_mask : option Z).

(** One call operation: an event, then entered or skipped. [inr]: go on with the next operation. *)
Definition do_call (op : pcode_op) (next : Z) (sp_at_call : option Z) (fs : frames) (m : machine)
    : (option Z + unit) * frames * machine :=
  let name := opcode_name (po_opcode op) in
  let '(target, m) := call_target opts name op m in
  let interrupt :=
    match target with Some t => Z.land t (u64_not 255) =? SWI_VECTOR | None => false end in
  let target :=
    match target, bus_mask with
    | Some t, Some mask => if negb interrupt then Some (Z.land t mask) else Some t
    | t, _ => t
    end in
  let m := if trace m && negb interrupt then record m (ECall (default 0 target) []) else m in
  if o_follow_calls opts && negb interrupt then (inl target, (next, sp_at_call) :: fs, m)
  else (inr tt, fs, restore_sp stack sp_at_call m).

(** The operations of one instruction, from index [i]; [None] only when [fuel] runs out. *)
Fixpoint ops_loop (fuel : nat) (pc next : Z) (sp_at_call : option Z) (ops : list pcode_op) (i : nat)
    (fs : frames) (steps : Z) (m : machine) : option (op_exit * frames * Z * machine) :=
  match fuel with
  | O => None
  | S fuel =>
      match nth_error ops i with
      | None => Some (Leaves None, fs, steps, m)
      | Some op =>
          if o_max_steps opts <=? steps then Some (Ends StepCap, fs, steps, m)
          else
            let steps := steps + 1 in
            let m := set_at_site m (pc, steps) in
            let name := opcode_name (po_opcode op) in
            if is_call op then
              match do_call op next sp_at_call fs m with
              | (inl jump, fs, m) => Some (Leaves jump, fs, steps, m)
              | (inr _, fs, m) => ops_loop fuel pc next sp_at_call ops (S i) fs steps m
              end
            else if o_follow_calls opts && String.eqb name "RETURN" then
              match fs with
              | [] => Some (Ends Returned, fs, steps, m)
              | _ :: fs =>
                  match po_ins op with
                  | [] => Some (Leaves (Some 0), fs, steps, m)
                  | a :: _ => let '(t, m) := read_arg a m in Some (Leaves (Some t), fs, steps, m)
                  end
              end
            else
              let '(f, m) := step op m in
              match f with
              | Next => ops_loop fuel pc next sp_at_call ops (S i) fs steps m
              | Rel d => ops_loop fuel pc next sp_at_call ops (rel_index i d) fs steps m
              | Jump t => Some (Leaves (Some t), fs, steps, m)
              | Stop => Some (Ends Returned, fs, steps, m)
              | Fault => Some (Ends Faulted, fs, steps, m)
              | Panic => Some (Ends Panicked, fs, steps, m)
              end
      end
  end.

(** One round per operation left in the budget, and one to find it spent. *)
Definition ops_fuel (steps : Z) : nat := S (S (Z.to_nat (o_max_steps opts - steps))).

(** What the address loop carries from one instruction to the next. *)
Record run_state := RunState {
  rs_image : image; rs_pc : Z; rs_frames : frames; rs_steps : Z; rs_machine : machine;
}.

Inductive turn := Stops (s : stop) (img : image) (steps : Z) (m : machine) | Goes (rs : run_state).

(** One turn of the address loop: a stub, an instruction the state modifier executes whole, or the
    operations of an instruction. *)
Definition turn_stub (pc : Z) (rs : run_state) : turn :=
  let m := rs_machine rs in
  if o_max_steps opts <=? rs_steps rs then Stops StepCap (rs_image rs) (rs_steps rs) m
  else
    let steps := rs_steps rs + 1 in
    let m := set_at_site m (pc, steps) in
    let m := if trace m then record m (EStub pc) else m in
    match rs_frames rs with
    | [] => Stops Returned (rs_image rs) steps m
    | (ret, sp) :: fs => Goes (RunState (rs_image rs) ret fs steps (restore_sp stack sp m))
    end.

Definition turn_ops (img : image) (pc : Z) (d : decoded_insn) (fs : frames) (steps : Z) (m : machine) : option turn :=
  let sp_at_call :=
    match stack with
    | Some (off, size) => if d_calls d then Some (read m "register" off size) else None
    | None => None
    end in
  match ops_loop (ops_fuel steps) pc (d_next d) sp_at_call (d_ops d) 0 fs steps m with
  | None => None
  | Some (Ends s, _, steps, m) => Some (Stops s img steps m)
  | Some (Leaves jump, fs, steps, m) =>
      Some (Goes (RunState img (default (d_next d) jump) fs steps (end_adjusted m)))
  end.

Definition run_turn (rs : run_state) : option turn :=
  let pc := match bus_mask with Some mask => Z.land (rs_pc rs) mask | None => rs_pc rs end in
  if decide (pc ∈ o_stubs opts) then Some (turn_stub pc rs)
  else
    match at_pc (rs_image rs) pc with
    | (None, img) => Some (Stops (NoInstruction pc) img (rs_steps rs) (rs_machine rs))
    | (Some d, img) =>
        let steps := rs_steps rs in
        let m := rs_machine rs in
        match d_adjust d with
        | Some a =>
            if o_max_steps opts <=? steps then Some (Stops StepCap img steps m)
            else
              let m := set_at_site m (pc, steps + 1) in
              let '(whole, m) := begin_adjusted a m in
              if whole then Some (Goes (RunState img (d_next d) (rs_frames rs) (steps + 1) m))
              else turn_ops img pc d (rs_frames rs) steps m
        | None => turn_ops img pc d (rs_frames rs) steps m
        end
    end.

Fixpoint run_loop (fuel : nat) (rs : run_state) : option (run_result * image) :=
  match fuel with
  | O => None
  | S fuel =>
      match run_turn rs with
      | None => None
      | Some (Stops s img steps m) => Some (Run (set_adjusting m None) steps s, img)
      | Some (Goes rs) => run_loop fuel rs
      end
  end.

End Resume.

Section Runs.
Context `{HostFloat}.

(** [Image::resume] *)
Definition resume (fuel : nat) (img : image) (m : machine) (opts : run_options) : option (run_result * image) :=
  run_loop opts (i_stack_pointer img) (i_address_mask img) fuel
    (RunState img (default (i_base img) (o_entry opts)) [] 0 (start_run m (o_trace opts))).

Definition inputs : Type := list (string * Z * Z * Z).

Definition write_inputs (m : machine) (l : inputs) : machine :=
  fold_left (fun m '(space, offset, value, size) => write m space offset size value) l m.

(** [Image::run] *)
Definition run (fuel : nat) (img : image) (l : inputs) (opts : run_options) : option (run_result * image) :=
  resume fuel img (write_inputs (fresh_machine img) l) opts.

Definition run_with (fuel : nat) (sp : spec) (bytes : list Z) (base : Z) (context : list Z) (l : inputs)
    (opts : run_options) : option run_result :=
  match run fuel (new sp bytes base context) l opts with
  | Some (r, _) => Some r
  | None => None
  end.

Definition run_default (fuel : nat) (sp : spec) (bytes : list Z) (base : Z) (context : list Z) (l : inputs)
    : option run_result := run_with fuel sp bytes base context l default_options.

End Runs.
