(* ===== verification/RunFacts.v ===== *)
(** Runs of the interpreter: the machine's invariant through a whole run, the step budget, and
    termination on an image without a bus. *)
From Stdlib Require Import ZArith Lia Bool List String.
From stdpp Require Import base decidable gmap strings list tactics.
From S2P Require Import Prelude OpCode HostFloat Pcode M68kAlu Machine MachineFacts M68kModifier Step StepFacts Run.
Local Open Scope Z_scope.

(** What the runs rely on of the decoder, for a window below the top of the address space: an
    instruction lies in its window, is not empty, and has at most 16 bytes (x86's longest has 15). *)
Definition decoder_ok (sp : spec) : Prop :=
  forall bytes base context i, 0 <= base -> base + Z.of_nat (List.length bytes) + 16 < 2 ^ 64 ->
  In i (disassemble_ctx sp bytes base context) ->
  base <= in_address i < base + Z.of_nat (List.length bytes) /\ 1 <= Z.of_nat (List.length (in_bytes i)) <= 16.

(** The first address above every block. *)
Definition code_end (blocks : list (Z * list Z)) : Z :=
  fold_right (fun b e => Z.max (fst b + Z.of_nat (List.length (snd b))) e) 0 blocks.

Record image_ok (img : image) : Prop := {
  img_decoder : decoder_ok (i_spec img);
  img_blocks : Forall (fun b => 0 <= fst b /\ fst b + Z.of_nat (List.length (snd b)) + 16 < 2 ^ 64) (i_blocks img);
  img_decoded : forall pc d, i_decoded img !! pc = Some d ->
    0 <= pc < code_end (i_blocks img) /\ pc < d_next d;
}.

(** Turns enough for a run: each one spends a step, or moves forward in the code. *)
Definition run_fuel (img : image) (opts : run_options) : nat :=
  Z.to_nat ((o_max_steps opts + 1) * (code_end (i_blocks img) + 1) + 1).

(** ** The state modifier keeps the invariant *)

Lemma write_reg_ok (m : machine) (off size v : Z) : machine_ok m -> machine_ok (write_reg m off size v).
Proof. apply write_ok. Qed.

Ltac writes_ok :=
  repeat first [ assumption | apply write_reg_ok | apply write_ok
               | match goal with |- machine_ok (match ?x with _ => _ end) => destruct x eqn:? end ].

Lemma set_bcd_flags_ok (k : m68k) (m : machine) (f : bool * bool * bool * bool) (z : Z) :
  machine_ok m -> machine_ok (set_bcd_flags k m f z).
Proof. intros Hm. unfold set_bcd_flags. destruct f as [[[? ?] ?] ?]. writes_ok. Qed.

Lemma execute_ok (k : m68k) (m m' : machine) (i : insn) : machine_ok m -> execute k m i = Some m' -> machine_ok m'.
Proof.
  intros Hm. destruct i; cbn [execute]; intros [= <-].
  - unfold execute_bcd. destruct memory; apply set_bcd_flags_ok; writes_ok.
  - unfold execute_shift. writes_ok.
Qed.

Lemma after_ok (k : m68k) (m : machine) (i : insn) (bf : before) : machine_ok m -> machine_ok (after k m i bf).
Proof.
  intros Hm. destruct i; cbn [after]; [done| | |done|].
  - destruct (bf_nbcd_flags bf); [by apply set_bcd_flags_ok|done].
  - destruct (bf_quotient bf); [unfold after_div; writes_ok|done].
  - writes_ok.
Qed.

Lemma begin_adjusted_keeps (i : insn) : keeps machine_ok (begin_adjusted i).
Proof.
  intros m Hm. unfold begin_adjusted. destruct (modifier m) as [k|]; [|done].
  destruct (execute k m i) eqn:E; [by eapply execute_ok|]. ok_ext.
Qed.

Lemma end_adjusted_ok (m : machine) : machine_ok m -> machine_ok (end_adjusted m).
Proof.
  intros Hm. unfold end_adjusted.
  assert (machine_ok (set_adjusting m None)) by (by apply (machine_ok_ext m)).
  destruct (adjusting m) as [[i bf]|]; [|done]. destruct (modifier m); [by apply after_ok|done].
Qed.

Lemma set_site_ok (m : machine) (s : Z * Z) : machine_ok m -> machine_ok (set_at_site m s).
Proof. by apply machine_ok_ext. Qed.

Lemma restore_sp_ok (stack : option (Z * Z)) (sp : option Z) (m : machine) : machine_ok m -> machine_ok (restore_sp stack sp m).
Proof. unfold restore_sp. destruct stack as [[? ?]|], sp; auto using write_ok. Qed.

(** ** The operations of an instruction *)

Section Loop.
Context `{HostFloat}.
Variables (opts : run_options) (stack : option (Z * Z)) (bus_mask : option Z).

Lemma call_target_keeps (name : string) (op : pcode_op) : keeps machine_ok (call_target opts name op).
Proof.
  intros m Hm. unfold call_target. destruct (_ || _); [|done]. destruct (po_ins op) as [|a l]; [done|].
  pose proof (read_arg_keeps a m Hm) as Ha. destruct a as [v|s].
  - destruct (_ && _); [done|]. by destruct (read_arg (PVar v) m).
  - by destruct (read_arg (PSpace s) m).
Qed.

Lemma do_call_ok (op : pcode_op) (next : Z) (sp : option Z) (fs : frames) (m : machine) :
  machine_ok m -> machine_ok (snd (do_call opts stack bus_mask op next sp fs m)).
Proof.
  intros Hm. unfold do_call. pose proof (call_target_keeps (opcode_name (po_opcode op)) op m Hm) as Ht.
  destruct (call_target opts _ op m) as [t m1]. cbn [snd] in Ht.
  match goal with |- context [trace m1 && ?b] => destruct (trace m1 && b) end;
    match goal with |- context [o_follow_calls opts && ?b] => destruct (o_follow_calls opts && b) end;
    cbn [snd]; auto using restore_sp_ok, record_ok.
Qed.

(** The loop over operations always ends, within the budget, and spends a step when it executes
    anything. *)
Definition ops_result (ops : list pcode_op) (i : nat) (steps : Z) (r : option (op_exit * frames * Z * machine)) : Prop :=
  exists e fs steps' m, r = Some (e, fs, steps', m) /\ machine_ok m /\ steps <= steps' <= o_max_steps opts /\
    (e = Ends StepCap -> steps' = o_max_steps opts) /\
    (steps' = steps -> e = Ends StepCap \/ (e = Leaves None /\ nth_error ops i = None)).

Lemma ops_result_step (ops : list pcode_op) (i j : nat) (steps : Z) (r : option (op_exit * frames * Z * machine)) :
  ops_result ops j (steps + 1) r -> ops_result ops i steps r.
Proof.
  intros (e & fs & s & m & Hr & Hm & Hs & Hc & _). exists e, fs, s, m. split_and!; (done || lia || (intros; exfalso; lia)).
Qed.

Lemma ops_result_end (ops : list pcode_op) (i : nat) (steps : Z) (e : op_exit) (fs : frames) (m : machine) :
  machine_ok m -> steps < o_max_steps opts -> e <> Ends StepCap -> ops_result ops i steps (Some (e, fs, steps + 1, m)).
Proof. intros. exists e, fs, (steps + 1), m. split_and!; (done || lia || (intros; exfalso; lia)). Qed.

Lemma ops_loop_total (fuel : nat) (pc next : Z) (sp : option Z) (ops : list pcode_op) (i : nat) (fs : frames)
    (steps : Z) (m : machine) :
  machine_ok m -> steps <= o_max_steps opts -> o_max_steps opts - steps < Z.of_nat fuel ->
  ops_result ops i steps (ops_loop opts stack bus_mask fuel pc next sp ops i fs steps m).
Proof.
  revert i fs steps m. induction fuel as [|fuel IH]; intros i fs steps m Hm Hs Hf; [lia|]. cbn [ops_loop].
  destruct (nth_error ops i) as [op|] eqn:Ei; [|exists (Leaves None), fs, steps, m; split_and!; auto; (lia || done)].
  destruct (Z.leb_spec (o_max_steps opts) steps) as [Hle|Hlt].
  { exists (Ends StepCap), fs, steps, m. split_and!; auto; lia. }
  assert (machine_ok (set_at_site m (pc, steps + 1))) as Hm' by by apply set_site_ok.
  assert (forall j fs m, machine_ok m ->
    ops_result ops i steps (ops_loop opts stack bus_mask fuel pc next sp ops j fs (steps + 1) m)) as IH'.
  { intros. eapply ops_result_step, IH; [done|lia|lia]. }
  destruct (is_call op).
  { pose proof (do_call_ok op next sp fs _ Hm') as Hc. destruct (do_call opts stack bus_mask op next sp fs _) as [[[j|[]] fs'] m'].
    - by apply ops_result_end.
    - by apply IH'. }
  destruct (_ && _).
  { destruct fs as [|f fs]; [by apply ops_result_end|]. destruct (po_ins op) as [|a l]; [by apply ops_result_end|].
    pose proof (read_arg_keeps a _ Hm') as Ha. destruct (read_arg a _). by apply ops_result_end. }
  pose proof (step_keeps op _ Hm') as Hst. destruct (step op _) as [f m']. cbn [snd] in Hst.
  destruct f; auto using ops_result_end; by apply ops_result_end.
Qed.
End Loop.

(** ** Decoding *)

Lemma blocks_upto_start (blocks : list (Z * list Z)) (a : Z) (i : nat) (start : Z) (bytes : list Z) :
  blocks_upto blocks a = S i -> nth_error blocks i = Some (start, bytes) -> start <= a.
Proof.
  revert i. induction blocks as [|[s b] blocks IH]; intros i; cbn [blocks_upto]; [done|].
  destruct (Z.leb_spec s a); [|done]. intros [= <-]. destruct (blocks_upto blocks a) as [|j] eqn:E; cbn.
  - by intros [= <- <-].
  - apply IH. done.
Qed.

Lemma code_end_block (blocks : list (Z * list Z)) (start : Z) (bytes : list Z) :
  In (start, bytes) blocks -> start + Z.of_nat (List.length bytes) <= code_end blocks.
Proof.
  induction blocks as [|b blocks IH]; [done|]. intros [->|Hin]; cbn [code_end fold_right fst snd]; [lia|].
  fold (code_end blocks). specialize (IH Hin). lia.
Qed.

Lemma code_end_nonneg (blocks : list (Z * list Z)) : 0 <= code_end blocks.
Proof. induction blocks as [|b blocks IH]; cbn; [lia|]. fold (code_end blocks). lia. Qed.

Lemma keep_window_ok (E : Z) (k : option m68k) (cut : bool) (we : Z) (insns : list instruction) (d : gmap Z decoded_insn) :
  (forall pc i, d !! pc = Some i -> 0 <= pc < E /\ pc < d_next i) ->
  (forall i, In i insns -> 0 <= in_address i < E /\ in_address i < insn_next i) ->
  forall pc i, keep_window k cut we insns d !! pc = Some i -> 0 <= pc < E /\ pc < d_next i.
Proof.
  revert d. induction insns as [|j insns IH]; intros d Hd Hi; cbn [keep_window]; [done|].
  destruct (_ && _); [done|]. apply IH; [|intros; apply Hi; by right].
  intros pc i. destruct (d !! in_address j); [apply Hd|].
  destruct (decide (in_address j = pc)) as [<-|]; [rewrite lookup_insert_eq|by rewrite lookup_insert_ne by done; apply Hd].
  intros [= <-]. cbn. apply Hi. by left.
Qed.

Lemma at_pc_ok (img : image) (pc : Z) : image_ok img ->
  let '(d, img') := at_pc img pc in
  image_ok img' /\ i_blocks img' = i_blocks img /\
  match d with Some d => 0 <= pc < code_end (i_blocks img) /\ pc < d_next d | None => True end.
Proof.
  intros [Hdec Hbl Hd]. unfold at_pc. destruct (i_decoded img !! pc) as [d|] eqn:Ed.
  { split; [by split|]. split; [done|]. by apply Hd. }
  destruct (blocks_upto (i_blocks img) pc) as [|i] eqn:Eu; [by split|].
  destruct (nth_error (i_blocks img) i) as [[start bytes]|] eqn:En; [|by split].
  pose proof (blocks_upto_start _ _ _ _ _ Eu En) as Hstart.
  assert (0 <= start /\ start + Z.of_nat (List.length bytes) + 16 < 2 ^ 64) as [Hs0 Htop].
  { rewrite List.Forall_forall in Hbl. apply (Hbl (start, bytes)). by eapply nth_error_In. }
  pose proof (code_end_block _ _ _ (nth_error_In _ _ En)) as Hend.
  destruct (Z.leb_spec (Z.of_nat (List.length bytes)) (pc - start)) as [|Hlt]; [by split|].
  set (e := Z.min _ _). set (insns := disassemble_ctx _ _ _ _).
  set (kw := keep_window _ _ _ _ _).
  assert (forall p d, kw !! p = Some d -> 0 <= p < code_end (i_blocks img) /\ p < d_next d) as Hk.
  { apply keep_window_ok; [done|]. intros j Hj.
    assert (Z.of_nat (List.length (slice bytes (pc - start) e)) <= start + Z.of_nat (List.length bytes) - pc) as Hl.
    { unfold slice. rewrite length_firstn, length_skipn. lia. }
    apply Hdec in Hj as (Ha & Hn); [|lia|lia]. split; [lia|].
    unfold insn_next, u64_add. rewrite w64_small; lia. }
  split; [split; cbn; done|]. split; [done|]. cbn [i_decoded set_decoded].
  destruct (kw !! pc) as [d|] eqn:E; [by apply Hk|done].
Qed.

(** ** Turns *)

Section Turns.
Context `{HostFloat}.
Variables (opts : run_options) (stack : option (Z * Z)) (bus_mask : option Z).

Record state_ok (rs : run_state) : Prop := {
  rs_mok : machine_ok (rs_machine rs);
  rs_iok : image_ok (rs_image rs);
  rs_budget : 0 <= rs_steps rs <= o_max_steps opts;
}.

Definition on_bus (pc : Z) : Z := match bus_mask with Some mask => Z.land pc mask | None => pc end.

(** What a turn gives: the end of the run, within the budget, or a state with a step spent or an
    address advanced. *)
Definition turn_result (rs : run_state) (t : turn) : Prop :=
  match t with
  | Stops s _ steps m => machine_ok m /\ rs_steps rs <= steps <= o_max_steps opts /\ (s = StepCap -> steps = o_max_steps opts)
  | Goes rs' =>
      state_ok rs' /\ i_blocks (rs_image rs') = i_blocks (rs_image rs) /\
      (rs_steps rs < rs_steps rs' \/
       rs_steps rs' = rs_steps rs /\ on_bus (rs_pc rs) < rs_pc rs' /\ 0 <= on_bus (rs_pc rs) < code_end (i_blocks (rs_image rs)))
  end.

Lemma turn_stub_result (pc : Z) (rs : run_state) : state_ok rs -> turn_result rs (turn_stub opts stack pc rs).
Proof.
  intros [Hm Hi Hb]. unfold turn_stub. destruct (Z.leb_spec (o_max_steps opts) (rs_steps rs)).
  { cbn. split_and!; (done || lia). }
  assert (machine_ok (set_at_site (rs_machine rs) (pc, rs_steps rs + 1))) as Hm' by by apply set_site_ok.
  set (m := if trace _ then _ else _). assert (machine_ok m) as Hm2 by (unfold m; destruct (trace _); [by apply record_ok|done]).
  destruct (rs_frames rs) as [|[rt sp] fs]; cbn.
  - split_and!; (done || lia).
  - split_and!; [|done|lia]. split; cbn; [by apply restore_sp_ok|done|lia].
Qed.

Lemma turn_ops_result (rs : run_state) (img : image) (d : decoded_insn) (m : machine) :
  state_ok rs -> machine_ok m -> image_ok img -> i_blocks img = i_blocks (rs_image rs) ->
  0 <= on_bus (rs_pc rs) < code_end (i_blocks (rs_image rs)) -> on_bus (rs_pc rs) < d_next d ->
  exists t, turn_ops opts stack bus_mask img (on_bus (rs_pc rs)) d (rs_frames rs) (rs_steps rs) m = Some t /\ turn_result rs t.
Proof.
  intros [_ _ Hb] Hm Hi Hbl Hpc Hnext. unfold turn_ops. set (sp := match stack with Some _ => _ | None => _ end).
  destruct (ops_loop_total opts stack bus_mask (ops_fuel opts (rs_steps rs)) (on_bus (rs_pc rs)) (d_next d) sp (d_ops d) 0
              (rs_frames rs) (rs_steps rs) m Hm) as (e & fs & s & m' & -> & Hm' & Hs & Hcap & Hsame);
    [lia|unfold ops_fuel; lia|].
  destruct e as [st|jump]; eexists; (split; [reflexivity|]); cbn.
  - split_and!; [done|lia|lia|]. intros ->. by apply Hcap.
  - split_and!; [|done|].
    + split; cbn; [by apply end_adjusted_ok|done|lia].
    + destruct (Z.eq_dec s (rs_steps rs)) as [E|]; [|lia]. destruct (Hsame E) as [?|[[= ->] _]]; [done|]. cbn. lia.
Qed.

Lemma run_turn_result (rs : run_state) : state_ok rs -> exists t, run_turn opts stack bus_mask rs = Some t /\ turn_result rs t.
Proof.
  intros Hok. pose proof Hok as [Hm Hi Hb]. unfold run_turn. fold (on_bus (rs_pc rs)).
  destruct (decide _); [eexists; split; [reflexivity|by apply turn_stub_result]|].
  pose proof (at_pc_ok (rs_image rs) (on_bus (rs_pc rs)) Hi) as Hat.
  destruct (at_pc (rs_image rs) (on_bus (rs_pc rs))) as [[d|] img]; destruct Hat as (Himg & Hbl & Hd);
    [|eexists; split; [reflexivity|]; cbn; split_and!; (done || lia)].
  destruct Hd as [Hpc Hnext]. destruct (d_adjust d) as [a|]; [|by apply turn_ops_result].
  destruct (Z.leb_spec (o_max_steps opts) (rs_steps rs)).
  { eexists; split; [reflexivity|]. cbn. split_and!; (done || lia). }
  pose proof (begin_adjusted_keeps a _ (set_site_ok _ (on_bus (rs_pc rs), rs_steps rs + 1) Hm)) as Hadj.
  destruct (begin_adjusted a _) as [[] m'].
  - eexists; split; [reflexivity|]. cbn. split_and!; [|done|lia]. split; cbn; (done || lia).
  - by apply turn_ops_result.
Qed.

(** Each turn lowers this bound. *)
Definition turns_left (E : Z) (rs : run_state) : Z :=
  (o_max_steps opts - rs_steps rs) * (E + 1) + Z.min E (Z.max 0 (E - rs_pc rs)).

Lemma turns_left_less (E : Z) (rs rs' : run_state) : 0 <= E -> rs_steps rs' <= o_max_steps opts ->
  (rs_steps rs < rs_steps rs' \/ rs_steps rs' = rs_steps rs /\ rs_pc rs < rs_pc rs' /\ 0 <= rs_pc rs < E) ->
  turns_left E rs' < turns_left E rs.
Proof. intros HE Hs. unfold turns_left. intros [Hlt|(-> & Hpc & H0)]; [nia|lia]. Qed.

Lemma run_loop_total (fuel : nat) (rs : run_state) : bus_mask = None -> state_ok rs ->
  turns_left (code_end (i_blocks (rs_image rs))) rs < Z.of_nat fuel ->
  exists r img, run_loop opts stack bus_mask fuel rs = Some (r, img) /\ machine_ok (r_machine r) /\
    0 <= r_steps r <= o_max_steps opts /\ (r_stop r = StepCap -> r_steps r = o_max_steps opts).
Proof.
  intros Hbus. revert rs. induction fuel as [|fuel IH]; intros rs Hok Hf.
  { pose proof (code_end_nonneg (i_blocks (rs_image rs))). destruct Hok as [_ _ Hb]. unfold turns_left in Hf. nia. }
  cbn [run_loop]. destruct (run_turn_result rs Hok) as (t & -> & Ht). destruct t as [s img steps m|rs'].
  - destruct Ht as (Hm & Hs & Hcap). do 2 eexists. split; [reflexivity|]. cbn.
    split; [by apply (machine_ok_ext m)|]. destruct Hok. split; [lia|]. intros ->. by apply Hcap.
  - destruct Ht as (Hok' & Hbl & Hprog). apply IH; [done|]. rewrite Hbl.
    assert (turns_left (code_end (i_blocks (rs_image rs))) rs' < turns_left (code_end (i_blocks (rs_image rs))) rs); [|lia].
    apply turns_left_less; [apply code_end_nonneg|apply Hok'|]. unfold on_bus in Hprog. rewrite Hbus in Hprog. lia.
Qed.
End Turns.

(** ** Whole runs *)

Lemma start_run_ok (m : machine) (t : bool) : machine_ok m -> machine_ok (start_run m t).
Proof. intros [H1 H2 H3 H4]. by split. Qed.

Section Resume.
Context `{HostFloat}.

(** [C12] A run of an image without a bus mask ends, whatever it executes: within the given number of
    turns it stops with a machine that satisfies its invariant and a count of operations within
    the budget, and it reports the budget spent only when all of it is.  (One of the reasons to stop is
    [Panicked], a division of ill-sized p-code whose divisor the output's mask empties.) *)
Theorem resume_terminates (img : image) (m : machine) (opts : run_options) (fuel : nat) :
  image_ok img -> machine_ok m -> i_address_mask img = None -> 0 <= o_max_steps opts -> (run_fuel img opts <= fuel)%nat ->
  exists r img', resume fuel img m opts = Some (r, img') /\ machine_ok (r_machine r) /\
    0 <= r_steps r <= o_max_steps opts /\ (r_stop r = StepCap -> r_steps r = o_max_steps opts).
Proof.
  intros Hi Hm Hbus Hmax Hf. unfold resume. apply run_loop_total; [done|..].
  - split; cbn; [by apply start_run_ok|done|lia].
  - cbn. unfold run_fuel, turns_left in *. cbn. pose proof (code_end_nonneg (i_blocks img)). nia.
Qed.
End Resume.

(** ** Witnesses *)

(** A one-byte language: 0 does nothing, 1 returns, 2 branches to address 0. *)
Definition toy_ops (b : Z) : list pcode_op :=
  if b =? 1 then [POP 10 None [] Other]
  else if b =? 2 then [POP 4 None [PVar (VN "ram" 0 8)] Other] else [].

Fixpoint toy_decode (bytes : list Z) (base : Z) : list instruction :=
  match bytes with
  | [] => []
  | b :: bytes => Instruction base "toy" [b] (toy_ops b) :: toy_decode bytes (base + 1)
  end.

Definition toy : spec := Spec None (fun _ => None) "ram" [] ∅ (fun bytes base _ => toy_decode bytes base).

Lemma toy_decoder_ok : decoder_ok toy.
Proof.
  intros bytes base context i _ _. cbn [disassemble_ctx toy]. revert base.
  induction bytes as [|b bytes IH]; intros base; [done|]. cbn [toy_decode List.length In].
  intros [<- |Hin]; [cbn; lia|]. apply IH in Hin. lia.
Qed.

Lemma toy_image_ok (bytes : list Z) (base : Z) : 0 <= base -> base + Z.of_nat (List.length bytes) + 16 < 2 ^ 64 ->
  image_ok (new toy bytes base []).
Proof.
  intros Hb Hl. split; [apply toy_decoder_ok| |intros pc d; cbn; by rewrite lookup_empty].
  destruct bytes as [|b bytes]; cbn; repeat constructor; cbn in *; lia.
Qed.

(** A branch to itself spends the budget; a [RETURN] after a gap returns at its first operation. *)
Lemma resume_terminates_witness :
  (exists r img, resume (run_fuel (new toy [2] 0 []) (RunOptions None false 3 false ∅)) (new toy [2] 0 [])
     default_machine (RunOptions None false 3 false ∅) = Some (r, img) /\ machine_ok (r_machine r) /\
     0 <= r_steps r <= 3 /\ (r_stop r = StepCap -> r_steps r = 3)) /\
  option_map (fun ri => (r_steps (fst ri), r_stop (fst ri)))
    (resume 100 (new toy [2] 0 []) default_machine (RunOptions None false 3 false ∅)) = Some (3, StepCap).
Proof.
  split; [|vm_compute; reflexivity].
  apply (resume_terminates (new toy [2] 0 []) default_machine (RunOptions None false 3 false ∅));
    [apply toy_image_ok; cbn; lia| |reflexivity|cbn; lia|lia].
  split; [by intros ? ? ? ? E|exact I|reflexivity|exact I].
Defined.

(** ** A run without operations *)

(** An image of instructions without operations that fills the whole bus never spends a step: the
    run does not end, whatever the budget. *)
Lemma resume_spins (fuel : nat) :
  resume fuel (with_address_mask (new toy [0; 0] 0 []) 1) default_machine default_options = None.
Proof.
  unfold resume. set (img := with_address_mask (new toy [0; 0] 0 []) 1).
  set (img' := snd (at_pc img 0)). set (m := start_run default_machine false).
  assert (forall n p, p = 0 \/ p = 1 \/ p = 2 ->
            run_loop default_options None (Some 1) n (RunState img' p [] 0 m) = None) as Hspin.
  { induction n as [|n IH]; intros p Hp; [done|]. cbn [run_loop].
    assert (exists q, (q = 1 \/ q = 2) /\
              run_turn default_options None (Some 1) (RunState img' p [] 0 m) = Some (Goes (RunState img' q [] 0 m)))
      as (q & Hq & ->); [|by apply IH; tauto].
    destruct Hp as [-> |[-> | ->]]; [exists 1|exists 2|exists 1]; (split; [by auto|vm_compute; reflexivity]). }
  destruct fuel as [|fuel]; [done|]. cbn [run_loop].
  replace (run_turn default_options None (Some 1) (RunState img 0 [] 0 m)) with (Some (Goes (RunState img' 1 [] 0 m)))
    by (vm_compute; reflexivity).
  by apply Hspin; auto.
Qed.
