(* ===== verification/RunBlind.v ===== *)
(** Tracing does not change what a run does: a traced and an untraced run of the same image and
    state agree on everything but what they record. *)
From Stdlib Require Import ZArith Lia Bool List String.
From stdpp Require Import base decidable gmap strings list tactics.
From S2P Require Import Prelude OpCode HostFloat Pcode M68kAlu Machine MachineFacts M68kModifier Step StepFacts Run RunFacts.
Local Open Scope Z_scope.
Local Open Scope state_scope.

(** A machine without its records: effects and their sites, noted registers, and the switch. *)
Definition blind (m : machine) : machine :=
  Machine (mem m) (fill m) (pool m) (unmodeled m) (unmodeled_ops m) (userops m) (swi_args m) [] [] (at_site m) ∅
    (port_answers m) (unanswered m) false (quiet m) (flag_return_ordinals m) (reg_return_ordinals m) (last_quotient m)
    (image_backing m) (big_endian m) (address_mask m) (modifier m) (adjusting m).

Definition same (m m' : machine) : Prop := blind m = blind m'.

(** A computation that does the same on machines that differ in their records. *)
Definition sim {A : Type} (c : state machine A) : Prop :=
  forall m m', same m m' -> fst (c m) = fst (c m') /\ same (snd (c m)) (snd (c m')).

Definition with_trace (opts : run_options) (t : bool) : run_options :=
  RunOptions (o_entry opts) (o_follow_calls opts) (o_max_steps opts) t (o_stubs opts).

(** What a caller sees of a run, records aside. *)
Definition outcome (ri : run_result * image) : machine * Z * stop * image :=
  (blind (r_machine (fst ri)), r_steps (fst ri), r_stop (fst ri), snd ri).

(** ** Simulation *)

Create HintDb sim.

(** It is enough to compare a machine with its blind one. *)
Lemma sim_blind {A : Type} (c : state machine A) :
  (forall m, fst (c m) = fst (c (blind m)) /\ blind (snd (c m)) = blind (snd (c (blind m)))) -> sim c.
Proof.
  intros Hc m m' E. destruct (Hc m) as [F1 S1], (Hc m') as [F2 S2]. unfold same in *. rewrite E in *. split; congruence.
Qed.

Lemma sim_ret {A : Type} (a : A) : sim (ret a).
Proof. by intros m m' E. Qed.

Lemma sim_bind {A B : Type} (c : state machine A) (k : A -> state machine B) :
  sim c -> (forall a, sim (k a)) -> sim (bind c k).
Proof.
  intros Hc Hk m m' E. unfold bind. destruct (Hc m m' E) as [F S].
  destruct (c m) as [a m1], (c m') as [a' m1']. cbn in F, S. subst a'. by apply Hk.
Qed.

Lemma sim_get {B : Type} (k : machine -> state machine B) :
  (forall m, k m = k (blind m)) -> (forall m, sim (k m)) -> sim (bind get k).
Proof.
  intros Hk Hs m m' E. unfold bind, get. rewrite (Hk m), (Hk m'), E. by apply Hs.
Qed.

Lemma sim_modify (f : machine -> machine) : (forall m, blind (f m) = blind (f (blind m))) -> sim (modify f).
Proof. intros Hf. apply sim_blind. intros m. split; [done|apply Hf]. Qed.

#[export] Hint Resolve sim_ret : sim.

Lemma blind_record (m : machine) (e : effect) : blind (record m e) = blind m.
Proof. done. Qed.

Lemma blind_write (m : machine) (space : string) (offset size value : Z) :
  blind (write m space offset size value) = write (blind m) space offset size value.
Proof. unfold write. destruct (String.eqb space "const"); [done|]. by destruct (_ && _). Qed.

Lemma blind_blind (m : machine) : blind (blind m) = blind m.
Proof. done. Qed.

Lemma read_blind (m : machine) : read (blind m) = read m.
Proof. done. Qed.

Lemma blind_note (m : machine) (offset size : Z) : blind (note_register_read m offset size) = blind m.
Proof. unfold note_register_read. destruct (forallb _ _); [done|]. by destruct (uninitialized m !! _). Qed.

Lemma sim_read_arg (a : parg) : sim (read_arg a).
Proof.
  apply sim_blind. intros m. destruct a as [v|s]; [|done]. unfold read_arg.
  destruct (String.eqb _ _); [|done]. cbn [fst snd]. rewrite !blind_note. split; [|done].
  rewrite <- (read_blind (note_register_read m _ _)), <- (read_blind (note_register_read (blind m) _ _)). by rewrite !blind_note.
Qed.

Lemma sim_sread_arg (a : parg) : sim (sread_arg a).
Proof.
  intros m m' E. destruct a as [v|s]; [|done]. pose proof (sim_read_arg (PVar v) m m' E) as H. unfold sread_arg.
  destruct (read_arg (PVar v) m), (read_arg (PVar v) m'). cbn in *. by destruct H as [-> ?].
Qed.
#[export] Hint Resolve sim_read_arg sim_sread_arg : sim.

Lemma sim_arg (op : pcode_op) (i : nat) : sim (arg op i).
Proof. unfold arg. destruct (nth_error _ _); auto with sim. Qed.

Lemma sim_sarg (op : pcode_op) (i : nat) : sim (sarg op i).
Proof. unfold sarg. destruct (nth_error _ _); auto with sim. Qed.

Lemma sim_note_unmodeled (op : pcode_op) : sim (note_unmodeled op).
Proof. by apply sim_modify. Qed.

Lemma sim_fault : sim fault.
Proof. apply sim_blind. intros m. unfold fault. cbn. by destruct (trace m). Qed.

Lemma sim_traced (e : effect) : sim (traced e).
Proof. apply sim_modify. intros m. cbn. by destruct (trace m). Qed.

Lemma sim_remember (op : pcode_op) (q : Z) (s : bool) : sim (remember_quotient op q s).
Proof. apply sim_modify. intros m. cbn. by destruct (adjusting m) as [[i bf]|]. Qed.

Lemma sim_write_out (op : pcode_op) (res : Z) : sim (write_out op res).
Proof. apply sim_modify. intros m. destruct (po_out op); [|done]. by rewrite !blind_write. Qed.

Lemma sim_answer_in (port osize : Z) : sim (answer_in port osize).
Proof.
  apply sim_blind. intros m. unfold answer_in. cbn.
  destruct (port_answers m !! port) as [[[|x values] reads]|]; cbn; [|done|]; by destruct (unanswered m !! port).
Qed.

Lemma sim_narrows (op : pcode_op) : sim (narrows_quotient_lossily op).
Proof.
  intros m m' E. unfold narrows_quotient_lossily.
  assert (last_quotient m = last_quotient m') as <- by (change (last_quotient (blind m) = last_quotient (blind m')); by rewrite E).
  destruct (last_quotient m) as [[[q value] signed]|]; [|done]. destruct (first_var op) as [input|]; [|done].
  destruct (po_out op) as [out|]; [|done]. destruct (_ || _); [done|].
  destruct (nth_error (po_ins op) 1) as [a|]; [|done]. pose proof (sim_read_arg a m m' E) as H.
  destruct (read_arg a m) as [x m1], (read_arg a m') as [x' m1']. cbn in H. destruct H as [-> H].
  by destruct (negb (x' =? 0)).
Qed.

#[export] Hint Resolve sim_arg sim_sarg sim_note_unmodeled sim_fault sim_traced sim_remember sim_write_out
  sim_answer_in sim_narrows : sim.

Ltac sim_step :=
  match goal with
  | |- sim (match ?x with _ => _ end) => destruct x eqn:?
  | |- sim (let '(_, _) := ?x in _) => destruct x eqn:?
  | |- sim (bind get _) => apply sim_get; [reflexivity|intros]
  | |- sim (bind _ _) => apply sim_bind; [|intros]
  | |- sim _ => by eauto with sim
  end.
Ltac simulate := repeat sim_step.

Section Steps.
Context `{HostFloat}.

Lemma sim_finish (op : pcode_op) (res : Z) : sim (finish op res).
Proof.
  unfold finish. simulate. apply sim_modify. intros m. destruct (po_out op); [|done]. cbn.
  destruct (last_quotient m) as [[[q ?] ?]|]; [|done]. by destruct (_ && _).
Qed.

Lemma sim_callother (op : pcode_op) (osize : Z) : sim (callother op osize).
Proof.
  unfold callother. simulate. apply sim_modify. intros m'. cbn. by destruct (adjusting m') as [[? ?]|].
Qed.

Lemma sim_float_op (opc : opcode) (op : pcode_op) (osize : Z) : sim (float_op opc op osize).
Proof.
  unfold float_op. sim_step; [by eauto with sim|]. destruct p; [|by eauto with sim].
  apply sim_bind; [by eauto with sim|intros x].
  destruct opc; unfold float_bin, float_cmp, float_arg; simulate.
Qed.

Lemma sim_alu (opc : opcode) (op : pcode_op) (c : state machine Z) : alu opc op = Some c -> sim c.
Proof. intros Hc. destruct opc; try discriminate; injection Hc as <-; simulate. Qed.

#[local] Hint Resolve sim_finish sim_callother sim_float_op : sim.

Lemma sim_unmodelled (op : pcode_op) : sim (unmodelled op).
Proof. unfold unmodelled. simulate. Qed.
#[local] Hint Resolve sim_unmodelled : sim.

Lemma sim_step_op (op : pcode_op) : sim (step op).
Proof.
  unfold step. destruct (from_u32 (po_opcode op)) as [opc|]; [|by eauto with sim].
  destruct opc; cbn [alu]; unfold divide; simulate. apply sim_modify. intros m'. by rewrite !blind_write.
Qed.
End Steps.

(** ** The state modifier *)

(** Both sides as blind images of one term: writes move under [blind], reads do not see it. *)
Ltac see_through := unfold write_reg, read_reg; repeat rewrite blind_write; rewrite ?read_blind; repeat rewrite <- blind_write;
  rewrite ?read_blind; try reflexivity.

Lemma blind_bcd_flags (k : m68k) (m : machine) (f : bool * bool * bool * bool) (z : Z) :
  blind (set_bcd_flags k m f z) = set_bcd_flags k (blind m) f z.
Proof. unfold set_bcd_flags. destruct f as [[[c o] n] nz]. unfold write_reg. by rewrite !blind_write. Qed.

Lemma blind_execute_shift (k : m68k) (m : machine) (kind : shift_kind) (lft : bool) (bits count : Z) (by_register : bool) (dy : Z) :
  blind (execute_shift k m kind lft bits count by_register dy) = execute_shift k (blind m) kind lft bits count by_register dy.
Proof.
  unfold execute_shift, read_reg, write_reg. rewrite !read_blind. cbn zeta.
  destruct (sh_x _); by rewrite !blind_write.
Qed.

Lemma blind_execute_bcd (k : m68k) (m : machine) (add : bool) (rx ry : Z) (memory : bool) :
  blind (execute_bcd k m add rx ry memory) = execute_bcd k (blind m) add rx ry memory.
Proof.
  unfold execute_bcd, predecrement, read_reg, write_reg. rewrite !read_blind. cbn zeta.
  destruct memory; cbn zeta iota beta; rewrite blind_bcd_flags, ?blind_write; repeat rewrite <- blind_write; by rewrite !read_blind.
Qed.

Lemma blind_execute (k : m68k) (m : machine) (i : insn) : option_map blind (execute k m i) = execute k (blind m) i.
Proof. destruct i; cbn [execute option_map]; [by rewrite blind_execute_bcd|done|done|by rewrite blind_execute_shift|done]. Qed.

Lemma blind_after (k : m68k) (m : machine) (i : insn) (bf : before) : blind (after k m i bf) = after k (blind m) i bf.
Proof.
  destruct i; cbn [after]; [done| | |done|].
  - destruct (bf_nbcd_flags bf); [apply blind_bcd_flags|done].
  - destruct (bf_quotient bf); [|done]. unfold after_div, write_reg. cbn zeta. destruct (if signed then _ else _); by rewrite !blind_write.
  - unfold write_reg. destruct (_ && _); [done|by rewrite blind_write].
Qed.

Lemma sim_begin_adjusted (i : insn) : sim (begin_adjusted i).
Proof.
  apply sim_blind. intros m. unfold begin_adjusted. change (modifier (blind m)) with (modifier m).
  destruct (modifier m) as [k|]; [|done]. rewrite <- blind_execute.
  by destruct (execute k m i).
Qed.

Lemma same_end_adjusted (m m' : machine) : same m m' -> same (end_adjusted m) (end_adjusted m').
Proof.
  assert (forall m, blind (end_adjusted m) = blind (end_adjusted (blind m))) as Hb.
  { intros n. unfold end_adjusted. cbn. destruct (adjusting n) as [[i bf]|]; [|done]. destruct (modifier n); [|done].
    by rewrite !blind_after. }
  intros E. unfold same in *. rewrite (Hb m), (Hb m'), E. done.
Qed.

Lemma same_sites (m m' : machine) (s : Z * Z) : same m m' -> same (set_at_site m s) (set_at_site m' s).
Proof.
  intros E. unfold same. change (set_at_site (blind m) s = set_at_site (blind m') s). by rewrite E.
Qed.

Lemma same_write (m m' : machine) (sp : string) (off sz v : Z) : same m m' -> same (write m sp off sz v) (write m' sp off sz v).
Proof. intros E. unfold same. rewrite !blind_write. by rewrite E. Qed.

Lemma same_read (m m' : machine) (sp : string) (off sz : Z) : same m m' -> read m sp off sz = read m' sp off sz.
Proof. intros E. change (read (blind m) sp off sz = read (blind m') sp off sz). by rewrite E. Qed.

Lemma same_restore (stack : option (Z * Z)) (sp : option Z) (m m' : machine) :
  same m m' -> same (restore_sp stack sp m) (restore_sp stack sp m').
Proof. intros E. unfold restore_sp. destruct stack as [[? ?]|], sp; auto using same_write. Qed.

(** ** Runs *)

Section Loops.
Context `{HostFloat}.
Variables (opts : run_options) (stack : option (Z * Z)) (bus_mask : option Z).

Lemma same_target (name : string) (op : pcode_op) (m m' : machine) : same m m' ->
  let '(t, m1) := call_target opts name op m in
  let '(t', m1') := call_target opts name op m' in
  same m1 m1' /\ (o_follow_calls opts = true -> t = t').
Proof.
  intros E. unfold call_target.
  assert (forall a, let '(x, n) := read_arg a m in let '(x', n') := read_arg a m' in
            x = x' /\ same n n' /\ same n m' /\ same m n') as Hr.
  { intros a. pose proof (sim_read_arg a m m' E) as H1. pose proof (sim_read_arg a m m eq_refl) as _.
    assert (forall q, same (snd (read_arg a q)) q) as Hq.
    { intros q. destruct a as [v|s]; [|done]. unfold read_arg. cbn [snd]. destruct (String.eqb _ _); [apply blind_note|done]. }
    pose proof (Hq m) as Q. pose proof (Hq m') as Q'. destruct (read_arg a m), (read_arg a m'). cbn in *.
    unfold same in *. split_and!; [by destruct H1|by destruct H1|congruence|congruence]. }
  destruct (o_follow_calls opts) eqn:Ef; cbn [orb].
  - destruct (po_ins op) as [|[v|s] l]; [done| |].
    + destruct (_ && _); [done|]. specialize (Hr (PVar v)). destruct (read_arg (PVar v) m), (read_arg (PVar v) m').
      destruct Hr as (-> & ? & _). done.
    + specialize (Hr (PSpace s)). destruct (read_arg (PSpace s) m), (read_arg (PSpace s) m'). destruct Hr as (-> & ? & _). done.
  - destruct (trace m), (trace m'), (po_ins op) as [|[v|s] l]; try done; try (destruct (_ && _); [done|]);
      match goal with |- context [read_arg ?a _] => specialize (Hr a); revert Hr; destruct (read_arg a m), (read_arg a m') end;
      (intros (? & ? & ? & ?); by split).
Qed.

Lemma same_do_call (op : pcode_op) (next : Z) (sp : option Z) (fs : frames) (m m' : machine) : same m m' ->
  let '(r, fs1, m1) := do_call opts stack bus_mask op next sp fs m in
  let '(r', fs1', m1') := do_call opts stack bus_mask op next sp fs m' in
  r = r' /\ fs1 = fs1' /\ same m1 m1'.
Proof.
  intros E. unfold do_call. pose proof (same_target (opcode_name (po_opcode op)) op m m' E) as Ht.
  destruct (call_target opts _ op m) as [t m1], (call_target opts _ op m') as [t' m1']. destruct Ht as [Em Et].
  assert (forall b b' e e', same (if trace m1 && b then record m1 e else m1) (if trace m1' && b' then record m1' e' else m1')) as Hrec.
  { intros b b' e e'. by destruct (trace m1 && b), (trace m1' && b'). }
  destruct (o_follow_calls opts); cbn [andb].
  - rewrite (Et eq_refl). destruct (negb _); split_and!; (done || apply Hrec || apply same_restore, Hrec).
  - split_and!; [done|done|]. apply same_restore, Hrec.
Qed.

(** Two exits that differ only in the records of the machine. *)
Definition same_exit (r r' : option (op_exit * frames * Z * machine)) : Prop :=
  match r, r' with
  | Some (e, fs, s, m), Some (e', fs', s', m') => e = e' /\ fs = fs' /\ s = s' /\ same m m'
  | None, None => True
  | _, _ => False
  end.

Lemma same_ops_loop (fuel : nat) (pc next : Z) (sp : option Z) (ops : list pcode_op) (i : nat) (fs : frames)
    (steps : Z) (m m' : machine) : same m m' ->
  same_exit (ops_loop opts stack bus_mask fuel pc next sp ops i fs steps m)
            (ops_loop opts stack bus_mask fuel pc next sp ops i fs steps m').
Proof.
  revert i fs steps m m'. induction fuel as [|fuel IH]; intros i fs steps m m' E; [done|]. cbn [ops_loop].
  destruct (nth_error ops i) as [op|]; [|done]. destruct (_ <=? _); [done|].
  pose proof (same_sites m m' (pc, steps + 1) E) as Es. set (n := set_at_site m _) in *. set (n' := set_at_site m' _) in *.
  destruct (is_call op).
  { pose proof (same_do_call op next sp fs n n' Es) as Hc.
    destruct (do_call opts stack bus_mask op next sp fs n) as [[r fs1] m1],
      (do_call opts stack bus_mask op next sp fs n') as [[r' fs1'] m1']. destruct Hc as (-> & -> & Em).
    destruct r' as [j|[]]; [done|by apply IH]. }
  destruct (_ && _).
  { destruct fs as [|f fs]; [done|]. destruct (po_ins op) as [|a l]; [done|].
    pose proof (sim_read_arg a n n' Es) as Ha. destruct (read_arg a n), (read_arg a n'). cbn in Ha. by destruct Ha as [-> ?]. }
  pose proof (sim_step_op op n n' Es) as Hst. destruct (step op n) as [f m1], (step op n') as [f' m1'].
  cbn in Hst. destruct Hst as [-> Em]. destruct f'; try done; by apply IH.
Qed.

Definition same_state (r r' : run_state) : Prop :=
  rs_image r = rs_image r' /\ rs_pc r = rs_pc r' /\ rs_frames r = rs_frames r' /\ rs_steps r = rs_steps r' /\
  same (rs_machine r) (rs_machine r').

Definition same_turn (t t' : option turn) : Prop :=
  match t, t' with
  | Some (Stops s i n m1), Some (Stops s' i' n' m1') => s = s' /\ i = i' /\ n = n' /\ same m1 m1'
  | Some (Goes r), Some (Goes r') => same_state r r'
  | None, None => True
  | _, _ => False
  end.

Lemma same_turn_ops (img : image) (pc : Z) (d : decoded_insn) (fs : frames) (steps : Z) (m m' : machine) : same m m' ->
  same_turn (turn_ops opts stack bus_mask img pc d fs steps m) (turn_ops opts stack bus_mask img pc d fs steps m').
Proof.
  intros E. unfold turn_ops.
  assert ((match stack with Some (off, size) => if d_calls d then Some (read m "register" off size) else None | None => None end) =
          (match stack with Some (off, size) => if d_calls d then Some (read m' "register" off size) else None | None => None end)) as ->.
  { destruct stack as [[? ?]|]; [|done]. by rewrite (same_read m m'). }
  set (sp := match stack with Some _ => _ | None => _ end).
  pose proof (same_ops_loop (ops_fuel opts steps) pc (d_next d) sp (d_ops d) 0 fs steps m m' E) as Hl. unfold same_exit in Hl.
  destruct (ops_loop _ _ _ _ _ _ _ _ _ _ _ m) as [[[[e fs1] s] m1]|], (ops_loop _ _ _ _ _ _ _ _ _ _ _ m') as [[[[e' fs1'] s'] m1']|];
    try done. destruct Hl as (-> & -> & -> & Em). destruct e'; [done|]. cbn. split_and!; try done. by apply same_end_adjusted.
Qed.
Lemma same_turn_stub (pc : Z) (rs rs' : run_state) : same_state rs rs' ->
  same_turn (Some (turn_stub opts stack pc rs)) (Some (turn_stub opts stack pc rs')).
Proof.
  intros (Ei & Ep & Ef & Es & Em). unfold turn_stub. rewrite Ei, Ef, Es. destruct (_ <=? _); [done|].
  pose proof (same_sites _ _ (pc, rs_steps rs' + 1) Em) as En.
  assert (forall n n' e, same n n' -> same (if trace n then record n e else n) (if trace n' then record n' e else n')) as Hr.
  { intros n n' e E. by destruct (trace n), (trace n'). }
  specialize (Hr _ _ (EStub pc) En).
  destruct (rs_frames rs') as [|[rt sp] fs]; cbn; split_and!; try done; try exact Hr. apply same_restore. exact Hr.
Qed.

Lemma same_run_turn (rs rs' : run_state) : same_state rs rs' ->
  same_turn (run_turn opts stack bus_mask rs) (run_turn opts stack bus_mask rs').
Proof.
  intros E. pose proof E as (Ei & Ep & Ef & Es & Em). unfold run_turn. rewrite Ep.
  set (pc := match bus_mask with Some mask => _ | None => _ end).
  destruct (decide _); [by apply same_turn_stub|]. rewrite Ei, Ef, Es.
  destruct (at_pc (rs_image rs') pc) as [[d|] img]; [|done].
  destruct (d_adjust d) as [a|]; [|by apply same_turn_ops]. destruct (_ <=? _); [done|].
  pose proof (sim_begin_adjusted a _ _ (same_sites _ _ (pc, rs_steps rs' + 1) Em)) as Hb.
  destruct (begin_adjusted a (set_at_site (rs_machine rs) _)) as [w m1], (begin_adjusted a (set_at_site (rs_machine rs') _)) as [w' m1'].
  cbn in Hb. destruct Hb as [-> E1]. destruct w'; [done|by apply same_turn_ops].
Qed.

Lemma same_run_loop (fuel : nat) (rs rs' : run_state) : same_state rs rs' ->
  option_map outcome (run_loop opts stack bus_mask fuel rs) = option_map outcome (run_loop opts stack bus_mask fuel rs').
Proof.
  revert rs rs'. induction fuel as [|fuel IH]; intros rs rs' E; [done|]. cbn [run_loop].
  pose proof (same_run_turn rs rs' E) as Ht. unfold same_turn in Ht.
  destruct (run_turn _ _ _ rs) as [[s i n m1|r]|], (run_turn _ _ _ rs') as [[s' i' n' m1'|r']|]; try done.
  - destruct Ht as (-> & -> & -> & Em). cbn. unfold outcome. cbn. do 4 f_equal.
    change (set_adjusting (blind m1) None = set_adjusting (blind m1') None). by rewrite Em.
  - by apply IH.
Qed.
End Loops.

Section Transparency.
Context `{HostFloat}.

(** [C23] Recording is transparent: with tracing on or off a run leaves the same memory and registers,
    the same count of operations, the same reason to stop, the same decoded instructions and the
    same answers from ports, and differs only in its records. *)
Theorem trace_transparent (fuel : nat) (img : image) (m : machine) (opts : run_options) :
  option_map outcome (resume fuel img m (with_trace opts true)) =
  option_map outcome (resume fuel img m (with_trace opts false)).
Proof.
  unfold resume. change (run_loop (with_trace opts true)) with (run_loop opts).
  change (run_loop (with_trace opts false)) with (run_loop opts). apply same_run_loop. by split_and!.
Qed.
End Transparency.
