(* ===== verification/Trace.v ===== *)
(** The differential run, [run_traced] of [sleigh/emu.rs]: one function's effects over a seeded
    state, every call an event that leaves the same answers for the original and the candidate. *)
From Stdlib Require Import ZArith Lia Bool List String.
From stdpp Require Import base decidable gmap strings list tactics.
From S2P Require Import Prelude OpCode HostFloat Pcode M68kAlu Machine M68kModifier Step Run.
Local Open Scope Z_scope.

Record run_config := RunConfig {
  c_seed : Z;
  c_scratch : Z * Z;
  c_call_args : gmap Z (list (Z * Z));
  c_default_args : list (Z * Z);
  c_stack_targets : gset Z;
  c_sp : Z * Z;
  c_call_clobbers : list (Z * Z);
  c_call_modifies : gmap Z (list (Z * Z));
  c_call_flag_clobbers : list (Z * Z);
  c_call_flag_returns : gmap Z flag_return;
  c_site_flag_returns : gmap Z flag_return;
  c_ordinal_flag_returns : gmap Z flag_return;
  c_call_reg_returns : gmap Z reg_return;
  c_site_reg_returns : gmap Z reg_return;
  c_ordinal_reg_returns : gmap Z reg_return;
  c_is_candidate_run : bool;
  c_max_steps : Z;
  c_pool : list Z;
  c_image : list (Z * list Z);
  c_max_effects : Z;
}.

(** an instruction of the program map: its operations, its fall-through and its adjustment *)
Definition prog_entry : Type := list pcode_op * Z * option insn.

(** [a.or(b)] *)
Definition or_else {A : Type} (a b : option A) : option A :=
  match a with Some _ => a | None => b end.

Section Traced.
Context `{HostFloat}.
Variable cfg : run_config.

(** ** A call *)

(** The target: the operand's own address for a direct call, its value otherwise. *)
Definition traced_target (indirect : bool) (op : pcode_op) : state machine Z :=
  let first := match po_ins op with a :: _ => a | [] => PSpace "" end in
  match first with
  | PVar v => if negb indirect && negb (is_const v) then ret (vn_offset v) else read_arg first
  | PSpace _ => read_arg first
  end.

Definition call_values (m : machine) (indirect : bool) (target : Z) : list Z :=
  if indirect || bool_decide (target ∈ c_stack_targets cfg) then []
  else
    map (fun os => read m "register" (fst os) (snd os))
      (default (c_default_args cfg) (c_call_args cfg !! target)).

(** The callee returned: its return address is popped. *)
Definition pop_return (m : machine) : machine :=
  let '(spoff, spsz) := c_sp cfg in
  write m "register" spoff spsz (u64_add (read m "register" spoff spsz) spsz).

Definition clobber (target calls : Z) (m : machine) : machine :=
  let m := fold_left (fun m '(off, sz) => write m "register" off sz (call_clobber_fill (c_seed cfg) target calls off))
             (default (c_call_clobbers cfg) (c_call_modifies cfg !! target)) m in
  fold_left (fun m '(off, sz) => write m "register" off sz (call_flag_bit (c_seed cfg) target calls off))
    (c_call_flag_clobbers cfg) m.

(** the callee's answer in a flag *)
Definition flag_answer (target calls : Z) (fr : flag_return) (m : machine) : machine :=
  let '(foff, fsz) := fr_flag fr in
  let '(roff, rsz) := fr_reg fr in
  match fr_from fr with
  | Bit =>
      let bit := call_flag_bit (c_seed cfg) target calls foff in
      let m := write m "register" foff fsz bit in
      if c_is_candidate_run cfg then write m "register" roff rsz bit else m
  | IsZero => write m "register" foff fsz (u64_of_bool (read m "register" roff rsz =? 0))
  | IsNegative =>
      write m "register" foff fsz (Z.land (u64_shr (read m "register" roff rsz) (8 * rsz - 1)) 1)
  end.

Definition deliver_flag (pc target calls : Z) (m : machine) : machine :=
  let by_site := c_site_flag_returns cfg !! pc in
  let m := match by_site with
           | Some fr => set_flag_return_ordinals m (flag_return_ordinals m ++ [(calls, fr)])
           | None => m
           end in
  match or_else (or_else (c_call_flag_returns cfg !! target) by_site) (c_ordinal_flag_returns cfg !! calls) with
  | Some fr => flag_answer target calls fr m
  | None => m
  end.

(** the callee's answer in a register the candidate cannot name *)
Definition deliver_reg (pc target calls : Z) (m : machine) : machine :=
  let by_site := c_site_reg_returns cfg !! pc in
  let m := match by_site with
           | Some rr => set_reg_return_ordinals m (reg_return_ordinals m ++ [(calls, rr)])
           | None => m
           end in
  match or_else (or_else (c_call_reg_returns cfg !! target) by_site) (c_ordinal_reg_returns cfg !! calls) with
  | Some rr =>
      if c_is_candidate_run cfg
      then write m "register" (fst (rr_dst rr)) (snd (rr_dst rr))
             (call_clobber_fill (c_seed cfg) target calls (fst (rr_src rr)))
      else m
  | None => m
  end.

(** The event: the call with its arguments, then the callee's effect on the registers. *)
Definition call_event (pc calls : Z) (op : pcode_op) (m : machine) : Z * machine :=
  let indirect := String.eqb (opcode_name (po_opcode op)) "CALLIND" in
  let '(target, m) := traced_target indirect op m in
  let m := record m (ECall target (call_values m indirect target)) in
  let calls := u64_add calls 1 in
  let m := clobber target calls (pop_return m) in
  (calls, deliver_reg pc target calls (deliver_flag pc target calls m)).

(** ** The loop *)

Inductive traced_exit := Breaks (finished : bool) | Falls (jump : option Z).

(** [None]: out of fuel, or a panic of an operation. *)
Fixpoint traced_ops (fuel : nat) (pc : Z) (ops : list pcode_op) (i : nat) (steps calls : Z) (m : machine)
    : option (traced_exit * Z * Z * machine) :=
  match fuel with
  | O => None
  | S fuel =>
      match nth_error ops i with
      | None => Some (Falls None, steps, calls, m)
      | Some op =>
          let steps := steps + 1 in
          if (c_max_steps cfg <? steps) || (c_max_effects cfg <? Z.of_nat (List.length (effects m)))
          then Some (Breaks false, steps, calls, m)
          else
            let m := set_at_site m (pc, steps) in
            let name := opcode_name (po_opcode op) in
            if is_call op then
              let '(calls, m) := call_event pc calls op m in
              traced_ops fuel pc ops (S i) steps calls m
            else if String.eqb name "RETURN" then Some (Breaks true, steps, calls, m)
            else
              let '(f, m) := step op m in
              match f with
              | Next => traced_ops fuel pc ops (S i) steps calls m
              | Rel d => traced_ops fuel pc ops (rel_index i d) steps calls m
              | Jump t => Some (Falls (Some t), steps, calls, m)
              | Stop | Fault => Some (Breaks true, steps, calls, m)
              | Panic => None
              end
      end
  end.

Definition traced_fuel (steps : Z) : nat := S (S (Z.to_nat (c_max_steps cfg - steps))).

(** What the program map and its on-demand decode read. *)
Record code := Code { k_spec : spec; k_bytes : list Z; k_base : Z; k_context : list Z; k_m68k : option m68k }.

Definition entry_of (c : code) (i : instruction) : prog_entry :=
  (in_ops i, insn_next i, adjust (k_m68k c) i).

(** the linear sweep; a repeated address keeps its last instruction *)
Definition sweep (c : code) : gmap Z prog_entry :=
  fold_left (fun p i => <[in_address i := entry_of c i]> p)
    (disassemble_ctx (k_spec c) (k_bytes c) (k_base c) (k_context c)) ∅.

(** the instruction at an address the sweep did not reach *)
Definition decode_at (c : code) (pc : Z) : option prog_entry :=
  let len := Z.of_nat (List.length (k_bytes c)) in
  if pc <? k_base c then None
  else
    let off := pc - k_base c in
    if len <=? off then None
    else
      let end_ := Z.min (off + DECODE_WINDOW) len in
      match disassemble_ctx (k_spec c) (slice (k_bytes c) off end_) pc (k_context c) with
      | [] => None
      | i :: _ =>
          if (end_ =? len) || (insn_next i <=? u64_add (k_base c) end_) then Some (entry_of c i) else None
      end.

Definition fetch (c : code) (p : gmap Z prog_entry) (pc : Z) : option (prog_entry * gmap Z prog_entry) :=
  match p !! pc with
  | Some e => Some (e, p)
  | None => match decode_at c pc with Some e => Some (e, <[pc := e]> p) | None => None end
  end.

Fixpoint traced_loop (fuel : nat) (c : code) (p : gmap Z prog_entry) (pc steps calls : Z) (m : machine)
    : option (machine * bool) :=
  match fuel with
  | O => None
  | S fuel =>
      match fetch c p pc with
      | None => Some (set_adjusting m None, false)
      | Some ((ops, next, fix_), p) =>
          let '(whole, m) :=
            match fix_ with
            | Some f => begin_adjusted f (set_at_site m (pc, steps + 1))
            | None => (false, m)
            end in
          if whole then traced_loop fuel c p next (steps + 1) calls m
          else
            match traced_ops (traced_fuel steps) pc ops 0 steps calls m with
            | None => None
            | Some (Breaks finished, _, _, m) => Some (set_adjusting m None, finished)
            | Some (Falls jump, steps, calls, m) =>
                traced_loop fuel c p (default next jump) steps calls (end_adjusted m)
            end
      end
  end.

(** the machine before the run: the fill, the image as data, the inputs, and no effects *)
Definition traced_machine (sp : spec) (l : inputs) : machine :=
  let m := Machine ∅ (Some (c_seed cfg)) (c_pool cfg) 0 ∅ (spec_userops sp) (c_default_args cfg) [] [] (0, 0) ∅ ∅ ∅
             true (Some (c_scratch cfg)) [] [] None None (list_to_set (big_endian_names sp)) None (for_spec sp) None in
  let m := fold_left (fun m '(at_, chunk) =>
             fold_left (fun m ib => write m (default_space_name sp) (u64_add at_ (fst ib)) 1 (snd ib)) (indexed chunk) m)
             (c_image cfg) m in
  let m := write_inputs m l in
  set_effect_sites (set_effects m []) [].

(** The final machine, and whether the routine ended. *)
Definition run_traced (fuel : nat) (sp : spec) (bytes : list Z) (base : Z) (context : list Z) (l : inputs)
    : option (machine * bool) :=
  let c := Code sp bytes base context (for_spec sp) in
  traced_loop fuel c (sweep c) base 0 0 (traced_machine sp l).
End Traced.
