(* ===== verification/TraceFacts.v ===== *)
(** Differential runs: what a call leaves for the original and for the candidate. *)
From Stdlib Require Import ZArith Lia Bool List String.
From stdpp Require Import base decidable gmap strings list tactics.
From S2P Require Import Prelude OpCode PcodeSem HostFloat Pcode M68kAlu Machine MachineFacts M68kModifier AluFacts Step StepFacts StepEval Run RunFacts Trace.
Local Open Scope Z_scope.

(** The configuration of the candidate's run. *)
Definition as_candidate (cfg : run_config) (candidate : bool) : run_config :=
  RunConfig (c_seed cfg) (c_scratch cfg) (c_call_args cfg) (c_default_args cfg) (c_stack_targets cfg) (c_sp cfg)
    (c_call_clobbers cfg) (c_call_modifies cfg) (c_call_flag_clobbers cfg) (c_call_flag_returns cfg)
    (c_site_flag_returns cfg) (c_ordinal_flag_returns cfg) (c_call_reg_returns cfg) (c_site_reg_returns cfg)
    (c_ordinal_reg_returns cfg) candidate (c_max_steps cfg) (c_pool cfg) (c_image cfg) (c_max_effects cfg).

(** A register of 1 to 8 bytes. *)
Definition register (r : Z * Z) : Prop := valid_size (snd r) /\ 0 <= fst r /\ fst r + snd r <= 2 ^ 64.

Definition apart (r s : Z * Z) : Prop := fst r + snd r <= fst s \/ fst s + snd s <= fst r.

(** A machine without a bus, as the differential runs build it. *)
Definition plain (m : machine) : Prop := machine_ok m /\ address_mask m = None.

Definition read_register (m : machine) (r : Z * Z) : Z := read m "register" (fst r) (snd r).

(** ** Registers *)

Lemma plain_write (m : machine) (off sz v : Z) : plain m -> plain (write m "register" off sz v).
Proof. intros [Hm Ha]. split; [by apply write_ok|]. unfold write. cbn. destruct (_ && _); done. Qed.

Lemma plain_byte_at (m : machine) (r : Z * Z) (i : Z) : plain m -> register r -> 0 <= i < snd r ->
  fst r <= byte_at m "register" (fst r) (snd r) i < fst r + snd r.
Proof.
  intros [_ Ha] (Hs & H0 & H1) Hi. unfold byte_at, bus. rewrite Ha. unfold u64_add, valid_size in *.
  destruct (decide _); rewrite w64_small; lia.
Qed.

Lemma read_write_same (m : machine) (r : Z * Z) (v : Z) : plain m -> register r -> is_value (snd r) v ->
  read_register (write m "register" (fst r) (snd r) v) r = v.
Proof.
  intros [Hm _] (Hs & H0 & H1) Hv. unfold read_register. pose proof (value_word _ _ Hs Hv). unfold valid_size in *.
  rewrite read_written by (done || (by apply ok_bus) || lia). by apply mask_value.
Qed.

Lemma read_write_apart (m : machine) (r s : Z * Z) (v : Z) : plain m -> register r -> register s -> apart r s ->
  read_register (write m "register" (fst s) (snd s) v) r = read_register m r.
Proof.
  intros Hp Hr Hs Hap. unfold read_register, read. cbn [String.eqb Ascii.eqb Bool.eqb].
  assert (forall i, In i (value_bytes (snd r)) ->
    read_byte (write m "register" (fst s) (snd s) v) "register"
      (byte_at (write m "register" (fst s) (snd s) v) "register" (fst r) (snd r) i) =
    read_byte m "register" (byte_at m "register" (fst r) (snd r) i)) as Hb.
  { intros i Hi. apply in_value_bytes in Hi. rewrite write_layout. destruct (proj1 Hs) as [_ Hs8].
    apply write_elsewhere; [apply ok_bus, Hp|destruct Hs as (? & ? & ?); unfold valid_size in *; lia|].
    intros _ j Hj. pose proof (plain_byte_at m r i Hp Hr ltac:(lia)). pose proof (plain_byte_at m s j Hp Hs ltac:(lia)).
    unfold apart in Hap. lia. }
  generalize 0 at 1 2. generalize dependent (value_bytes (snd r)). intros l. induction l as [|i l IH]; intros Hb z; [done|].
  cbn [fold_left]. rewrite Hb by (by left). apply IH. intros j Hj. apply Hb. by right.
Qed.

Lemma register_write_effects (m : machine) (off sz v : Z) : effects (write m "register" off sz v) = effects m.
Proof. unfold write. cbn. unfold observed. rewrite andb_false_r. done. Qed.

Lemma flag_bit_range (seed target calls off : Z) : 0 <= call_flag_bit seed target calls off < 2.
Proof. unfold call_flag_bit. destruct (bit_cases (fill_byte (Z.lxor (Z.lxor (Z.lxor seed target) (u64_shl calls 8)) off) "flag" off)) as [-> | ->]; lia. Qed.

Lemma bit_value (size b : Z) : valid_size size -> 0 <= b < 2 -> is_value size b.
Proof. intros Hs Hb. pose proof (modulus_ge size Hs). unfold is_value. lia. Qed.

(** ** A call *)

Section Event.
Variable cfg : run_config.

Lemma fold_writes_plain (l : list (Z * Z)) (f : Z -> Z) (m : machine) : plain m ->
  plain (fold_left (fun m '(off, sz) => write m "register" off sz (f off)) l m).
Proof. revert m. induction l as [|[off sz] l IH]; intros m Hm; [done|]. cbn. apply IH. by apply plain_write. Qed.

Lemma fold_writes_effects (l : list (Z * Z)) (f : Z -> Z) (m : machine) :
  effects (fold_left (fun m '(off, sz) => write m "register" off sz (f off)) l m) = effects m.
Proof. revert m. induction l as [|[off sz] l IH]; intros m; [done|]. cbn. rewrite IH. apply register_write_effects. Qed.

Lemma clobber_plain (target calls : Z) (m : machine) : plain m -> plain (clobber cfg target calls (pop_return cfg m)).
Proof.
  intros Hm. unfold clobber, pop_return. destruct (c_sp cfg) as [spoff spsz]. do 2 apply fold_writes_plain. by apply plain_write.
Qed.

Lemma clobber_effects (target calls : Z) (m : machine) : effects (clobber cfg target calls (pop_return cfg m)) = effects m.
Proof.
  unfold clobber, pop_return. destruct (c_sp cfg) as [spoff spsz].
  rewrite !fold_writes_effects. apply register_write_effects.
Qed.

Lemma deliver_flag_effects (pc target calls : Z) (m : machine) : effects (deliver_flag cfg pc target calls m) = effects m.
Proof.
  unfold deliver_flag. set (m' := match c_site_flag_returns cfg !! pc with Some _ => _ | None => m end).
  assert (effects m' = effects m) as <- by (unfold m'; by destruct (_ !! pc)).
  destruct (or_else _ _) as [[[? ?] [? ?] from]|]; [|done]. unfold flag_answer. cbn [fr_flag fr_reg fr_from].
  destruct from; [destruct (c_is_candidate_run cfg)|..]; by rewrite ?register_write_effects.
Qed.

Lemma deliver_reg_effects (pc target calls : Z) (m : machine) : effects (deliver_reg cfg pc target calls m) = effects m.
Proof.
  unfold deliver_reg. set (m' := match c_site_reg_returns cfg !! pc with Some _ => _ | None => m end).
  assert (effects m' = effects m) as <- by (unfold m'; by destruct (_ !! pc)).
  destruct (or_else _ _); [|done]. destruct (c_is_candidate_run cfg); [apply register_write_effects|done].
Qed.

(** A call in a differential run is one event: a direct call to an address records exactly that
    target with the argument registers its contract names (none for a stack convention), read before
    the call changes any register, and nothing else is recorded. *)
Theorem call_event_recorded (pc calls : Z) (op : pcode_op) (v : varnode) (m : machine) :
  po_opcode op = as_u32 Call -> po_ins op = [PVar v] -> is_const v = false ->
  effects (snd (call_event cfg pc calls op m)) =
  effects m ++ [ECall (vn_offset v)
    (if decide (vn_offset v ∈ c_stack_targets cfg) then []
     else map (read_register m) (default (c_default_args cfg) (c_call_args cfg !! vn_offset v)))].
Proof.
  intros Eop Hins Hc. unfold call_event, traced_target. rewrite Eop, Hins, Hc. cbn -[clobber pop_return deliver_reg deliver_flag].
  rewrite deliver_reg_effects, deliver_flag_effects, clobber_effects. unfold record, call_values. cbn [effects set_effect_sites set_effects orb].
  do 3 f_equal. case_bool_decide; case_decide; done.
Qed.

(** [C26] A callee that answers in a flag: after the call the original's flag, the candidate's flag and
    the general register the candidate's model reads hold one and the same bit, whatever the two
    programs' states. *)
Theorem flag_answer_shared (pc pc' calls : Z) (op : pcode_op) (v : varnode) (fr : flag_return) (m m' : machine) :
  po_opcode op = as_u32 Call -> po_ins op = [PVar v] -> is_const v = false ->
  c_call_flag_returns cfg !! vn_offset v = Some fr -> fr_from fr = Bit ->
  c_call_reg_returns cfg = ∅ -> c_site_reg_returns cfg = ∅ -> c_ordinal_reg_returns cfg = ∅ ->
  plain m -> plain m' -> register (fr_flag fr) -> register (fr_reg fr) -> apart (fr_flag fr) (fr_reg fr) ->
  let original := snd (call_event (as_candidate cfg false) pc calls op m) in
  let candidate := snd (call_event (as_candidate cfg true) pc' calls op m') in
  let bit := call_flag_bit (c_seed cfg) (vn_offset v) (u64_add calls 1) (fst (fr_flag fr)) in
  read_register original (fr_flag fr) = bit /\ read_register candidate (fr_flag fr) = bit /\
  read_register candidate (fr_reg fr) = bit.
Proof.
  intros Eop Hins Hc Hfr Hbit E1 E2 E3 Hm Hm' Hf Hr Hap original candidate bit.
  pose proof (flag_bit_range (c_seed cfg) (vn_offset v) (u64_add calls 1) (fst (fr_flag fr))) as Hb. fold bit in Hb.
  assert (forall b p n, plain n -> exists n', plain n' /\
    snd (call_event (as_candidate cfg b) p calls op n) =
    (let w := write n' "register" (fst (fr_flag fr)) (snd (fr_flag fr)) bit in
     if b then write w "register" (fst (fr_reg fr)) (snd (fr_reg fr)) bit else w)) as Hev.
  { intros b p n Hn. unfold call_event, traced_target. rewrite Eop, Hins, Hc. cbn -[clobber pop_return deliver_reg deliver_flag].
    match goal with |- context [clobber ?c ?t ?k (pop_return ?c ?x)] => set (n1 := clobber c t k (pop_return c x)) end.
    assert (plain n1) as Hn1.
    { apply fold_writes_plain, fold_writes_plain. unfold pop_return. destruct (c_sp _). apply plain_write.
      destruct Hn as [Hn Ha]. split; [by apply record_ok|done]. }
    unfold deliver_reg. cbn [as_candidate c_site_reg_returns c_call_reg_returns c_ordinal_reg_returns]. rewrite E1, E2, E3, !lookup_empty.
    cbn [or_else]. unfold deliver_flag. cbn [as_candidate c_call_flag_returns c_site_flag_returns c_ordinal_flag_returns]. rewrite Hfr. cbn [or_else].
    unfold flag_answer. rewrite Hbit. destruct (fr_flag fr) as [foff fsz], (fr_reg fr) as [roff rsz].
    exists (match c_site_flag_returns cfg !! p with
            | Some f => set_flag_return_ordinals n1 (flag_return_ordinals n1 ++ [(u64_add calls 1, f)])
            | None => n1
            end). split; [|reflexivity].
    destruct (c_site_flag_returns cfg !! p); [|done]. destruct Hn1. split; [by apply (machine_ok_ext n1)|done]. }
  pose proof (proj1 Hf) as Hfs. pose proof (proj1 Hr) as Hrs.
  unfold original, candidate. destruct (Hev false pc m Hm) as (n & Hn & ->). destruct (Hev true pc' m' Hm') as (n' & Hn' & ->).
  cbn zeta iota. split_and!.
  - apply read_write_same; [done|done|by apply bit_value].
  - rewrite read_write_apart by (done || by apply plain_write). apply read_write_same; [done|done|by apply bit_value].
  - apply read_write_same; [by apply plain_write|done|by apply bit_value].
Qed.
End Event.

(** ** Witnesses *)

(** [CF] at 0x200 and [EAX] at 0: a callee at 0x1000 answers in [CF], and one argument in [EDX]. *)
Definition example_config : run_config :=
  RunConfig 7 (0, 0) {[ 4096 := [(8, 4)] ]} [] ∅ (16, 4) [(0, 4)] ∅ [] {[ 4096 := FlagReturn (512, 1) (0, 4) Bit ]} ∅ ∅ ∅ ∅ ∅
    false 1000 [] [] 1000.

Definition example_call : pcode_op := POP 7 None [PVar (VN "ram" 4096 4)] Other.

Lemma call_event_recorded_witness :
  effects (snd (call_event example_config 0 0 example_call (write default_machine "register" 8 4 77))) = [ECall 4096 [77]].
Proof. etransitivity; [apply (call_event_recorded _ _ _ _ (VN "ram" 4096 4)); reflexivity|vm_compute; reflexivity]. Defined.

Lemma flag_answer_shared_witness :
  let candidate := snd (call_event (as_candidate example_config true) 64 0 example_call (write default_machine "register" 0 4 1)) in
  read_register candidate (0, 4) = call_flag_bit 7 4096 1 512.
Proof.
  apply (flag_answer_shared example_config 0 64 0 example_call (VN "ram" 4096 4) (FlagReturn (512, 1) (0, 4) Bit) default_machine);
    try reflexivity; try (split; [|reflexivity]; try apply write_ok; apply default_ok);
    unfold register, apart, valid_size; cbn; lia.
Defined.
