(* ===== verification/CircleRange.v ===== *)
(** [decompile/circlerange.rs]: the circular strided value range and its operations. *)
From Stdlib Require Import ZArith Lia Bool List Ascii String.
From stdpp Require Import base.
From S2P Require Import Prelude OpCode BitUtil.
Local Open Scope Z_scope.

Record circle_range := CR {
  left : Z;       (* left boundary of the open range [left,right) *)
  right : Z;      (* right boundary *)
  mask : Z;       (* domain size is [mask + 1] *)
  isempty : bool;
  step : Z;       (* explicit step size, an i32 *)
}.

Definition with_bounds (r : circle_range) (l rt : Z) : circle_range :=
  CR l rt (mask r) (isempty r) (step r).
Definition with_mask (r : circle_range) (m : Z) : circle_range :=
  CR (left r) (right r) m (isempty r) (step r).
Definition with_empty (r : circle_range) (e : bool) : circle_range :=
  CR (left r) (right r) (mask r) e (step r).
Definition with_step (r : circle_range) (s : Z) : circle_range :=
  CR (left r) (right r) (mask r) (isempty r) s.

(** [self.step as u64] *)
Definition step64 (r : circle_range) : Z := w64 (step r).

Definition default : circle_range := CR 0 0 0 true 1.

(** [PartialEq::eq] *)
Definition cr_eq (a b : circle_range) : bool :=
  if negb (Bool.eqb (isempty a) (isempty b)) then false
  else if isempty a then true
  else (left a =? left b) && (right a =? right b) && (mask a =? mask b) && (step a =? step b).

Definition new (lft rgt size stp : Z) : circle_range :=
  CR lft rgt (calc_mask_i32 size) false stp.

Definition from_bool (val : bool) : circle_range :=
  CR (if val then 1 else 0) (u64_of_bool val + 1) 255 false 1.

Definition from_value (val size : Z) : circle_range :=
  let m := calc_mask_i32 size in CR val (Z.land (u64_add val 1) m) m false 1.

Definition set_range (self : circle_range) (lft rgt size stp : Z) : circle_range :=
  CR lft rgt (calc_mask_i32 size) false stp.

Definition set_value (self : circle_range) (val size : Z) : circle_range :=
  let m := calc_mask_i32 size in CR val (Z.land (u64_add val 1) m) m false 1.

Definition set_full (self : circle_range) (size : Z) : circle_range :=
  CR 0 0 (calc_mask_i32 size) false 1.

Definition is_empty (r : circle_range) : bool := isempty r.

Definition is_full (r : circle_range) : bool :=
  negb (isempty r) && (step r =? 1) && (left r =? right r).

Definition is_single (r : circle_range) : bool :=
  negb (isempty r) && (right r =? Z.land (u64_add (left r) (step64 r)) (mask r)).

Definition get_min (r : circle_range) : Z := left r.
Definition get_max (r : circle_range) : Z := Z.land (u64_sub (right r) (step64 r)) (mask r).
Definition get_end (r : circle_range) : Z := right r.
Definition get_mask (r : circle_range) : Z := mask r.
Definition get_step (r : circle_range) : Z := step r.

(** the advanced value and whether it is still inside *)
Definition get_next (r : circle_range) (val : Z) : Z * bool :=
  let v := Z.land (u64_add val (step64 r)) (mask r) in (v, negb (v =? right r)).

Definition normalize (r : circle_range) : circle_range :=
  if left r =? right r then
    let l := if negb (step r =? 1) then left r mod step64 r else 0 in
    with_bounds r l l
  else r.

Definition complement (r : circle_range) : circle_range :=
  if isempty r then CR 0 0 (mask r) false (step r)
  else if left r =? right r then with_empty r true
  else with_bounds r (right r) (left r).

Definition contains_val (r : circle_range) (val : Z) : bool :=
  if isempty r then false
  else if negb (step r =? 1) && negb (left r mod step64 r =? val mod step64 r) then false
  else if left r <? right r then
    if val <? left r then false else if right r <=? val then false else true
  else if right r <? left r then
    if val <? right r then true else if left r <=? val then true else false
  else true.

Definition convert_to_boolean (r : circle_range) : circle_range * bool :=
  if isempty r then (r, false)
  else
    let contains_zero := contains_val r 0 in
    let contains_one := contains_val r 1 in
    if contains_zero && contains_one then (CR 0 2 255 false 1, true)
    else if contains_zero then (CR 0 1 255 false 1, false)
    else if contains_one then (CR 1 2 255 false 1, false)
    else (CR (left r) (right r) 255 true 1, false).

(** returns (empty?, left, right) *)
Definition new_stride (msk stp old_step rem myleft myright : Z) : bool * Z * Z :=
  if negb (old_step =? 1)
     && negb (w32 (myleft mod w64 old_step) =? rem mod w32 old_step)
  then (true, myleft, myright)
  else
    let orig_order := myleft <? myright in
    let left_rem := w32 (myleft mod w64 stp) in
    let right_rem := w32 (myright mod w64 stp) in
    let myleft := if rem <? left_rem
                  then u64_add myleft (w32 (rem + w32 stp - left_rem))
                  else u64_add myleft (rem - left_rem) in
    let myright := if rem <? right_rem
                   then u64_add myright (w32 (rem + w32 stp - right_rem))
                   else u64_add myright (rem - right_rem) in
    let myleft := Z.land myleft msk in
    let myright := Z.land myright msk in
    let new_order := myleft <? myright in
    (negb (Bool.eqb orig_order new_order), myleft, myright).

(** returns (empty?, left, right) *)
Definition new_domain (new_mask new_step myleft myright : Z) : bool * Z * Z :=
  let rem := if negb (new_step =? 1) then myleft mod w64 new_step else 0 in
  if (new_mask <? myleft) && (new_mask <? myright) then
    if myleft <? myright then (true, myleft, myright) else (false, rem, rem)
  else
    let myleft := if new_mask <? myleft then rem else myleft in
    let myright := if new_mask <? myright then rem else myright in
    if myleft =? myright then (false, rem, rem) else (false, myleft, myright).

Definition get_size (r : circle_range) : Z :=
  if isempty r then 0
  else
    let stp := step64 r in
    if left r <? right r then (right r - left r) / stp
    else
      let val := u64_add (u64_sub (mask r) (u64_sub (left r) (right r))) stp / stp in
      if val =? 0 then
        if 1 <? step r then mask r / stp + 1 else mask r
      else val.

Definition get_max_info (r : circle_range) : Z :=
  let half_point := Z.lxor (mask r) (Z.shiftr (mask r) 1) in
  if contains_val r half_point then 64 - u64_leading_zeros half_point
  else
    let size_left :=
      if Z.land half_point (left r) =? 0 then u64_leading_zeros (left r)
      else u64_leading_zeros (Z.land (u64_not (left r)) (mask r)) in
    let size_right :=
      if Z.land half_point (right r) =? 0 then u64_leading_zeros (right r)
      else u64_leading_zeros (Z.land (u64_not (right r)) (mask r)) in
    64 - (if size_right <? size_left then size_right else size_left).

Definition ARRANGE : string :=
  "gcgbegdagggggggeggggcgbggggggggcdfgggggggegdggggbgggfggggcgbegda".

Definition encode_range_overlaps (op1left op1right op2left op2right : Z) : ascii :=
  let val :=
    (if op1left <=? op1right then 32 else 0)
    + (if op1left <=? op2left then 16 else 0)
    + (if op1left <=? op2right then 8 else 0)
    + (if op1right <=? op2left then 4 else 0)
    + (if op1right <=? op2right then 2 else 0)
    + (if op2left <=? op2right then 1 else 0) in
  match String.get (Z.to_nat val) ARRANGE with Some c => c | None => "g"%char end.

Definition contains_range (self op2 : circle_range) : bool :=
  if isempty self then isempty op2
  else if isempty op2 then true
  else if (step op2 <? step self) && negb (is_single op2) then false
  else if left self =? right self then true
  else if left op2 =? right op2 then false
  else if negb (left self mod step64 self =? left op2 mod step64 self) then false
  else if (left self =? left op2) && (right self =? right op2) then true
  else
    let overlap_code := encode_range_overlaps (left self) (right self) (left op2) (right op2) in
    if Ascii.eqb overlap_code "c" then true
    else if Ascii.eqb overlap_code "b" && (right self =? right op2) then true
    else false.

(** the tail of [circle_union]: join [left1,right1) and [left2,right2), both of stride
    [new_step] and remainder [rem] *)
Definition union_arcs (self : circle_range) (new_step rem left1 right1 left2 right2 : Z)
  : circle_range * Z :=
  let result l r := (CR l r (mask self) false new_step, 0) in
  if (left1 =? right1) || (left2 =? right2) then result rem rem
  else
    match encode_range_overlaps left1 right1 left2 right2 with
    | "a"%char | "f"%char =>
        if right1 =? left2 then result left1 right2
        else if left1 =? right2 then result left2 right1
        else (self, 2)
    | "b"%char => result left1 right2
    | "c"%char => result left1 right1
    | "d"%char => result left2 right2
    | "e"%char => result left2 right1
    | "g"%char => result rem rem
    | _ => (self, -1)
    end.

(** the updated [self] and the return code (0 valid, 2 two pieces, [self] then unmodified) *)
Definition circle_union (self op2 : circle_range) : circle_range * Z :=
  if isempty op2 then (self, 0)
  else if isempty self then (op2, 0)
  else if negb (mask self =? mask op2) then (self, 2)
  else
    let cont (a_right b_right new_step : Z) : circle_range * Z :=
      if negb (new_step =? 1) then
        let r := left self mod w64 new_step in
        if negb (r =? left op2 mod w64 new_step) then (self, 2)
        else union_arcs self new_step r (left self) a_right (left op2) b_right
      else union_arcs self new_step 0 (left self) a_right (left op2) b_right in
    if step self <? step op2 then
      if is_single self then
        cont (Z.land (u64_add (left self) (w64 (step op2))) (mask self)) (right op2) (step op2)
      else (self, 2)
    else if step op2 <? step self then
      if is_single op2 then
        cont (right self) (Z.land (u64_add (left op2) (w64 (step self))) (mask self)) (step self)
      else (self, 2)
    else cont (right self) (right op2) (step self).

(** the updated [self] and whether the container is everything *)
Definition minimal_container (self op2 : circle_range) (max_step : Z) : circle_range * bool :=
  let general :=
    let a_right := u64_add (u64_sub (right self) (step64 self)) 1 in
    let b_right := u64_add (u64_sub (right op2) (step64 op2)) 1 in
    let msk := Z.lor (mask self) (mask op2) in
    let res l r := CR l r msk (isempty self) 1 in
    let r :=
      match encode_range_overlaps (left self) a_right (left op2) b_right with
      | "a"%char =>
          let vacant1 := u64_add (u64_add (left self) (msk - b_right)) 1 in
          let vacant2 := u64_sub (left op2) a_right in
          if vacant1 <? vacant2 then res (left op2) a_right else res (left self) b_right
      | "f"%char =>
          let vacant1 := u64_add (u64_add (left op2) (msk - a_right)) 1 in
          let vacant2 := u64_sub (left self) b_right in
          if vacant1 <? vacant2 then res (left self) b_right else res (left op2) a_right
      | "b"%char => res (left self) b_right
      | "c"%char => res (left self) a_right
      | "d"%char => res (left op2) b_right
      | "e"%char => res (left op2) a_right
      | "g"%char => res 0 0
      | _ => res (left self) (right self)
      end in
    let r := normalize r in
    (r, left r =? right r) in
  if is_single self && is_single op2 then
    let '(mn, mx) := if get_min self <? get_min op2
                     then (get_min self, get_min op2) else (get_min op2, get_min self) in
    let diff := mx - mn in
    if (0 <? diff) && (diff <=? w64 max_step)
       && (leastsigbit_set diff =? mostsigbit_set diff)
    then
      let stp := i32 diff in
      (CR mn (Z.land (u64_add mx (w64 stp)) (mask self)) (mask self) (isempty self) stp, false)
    else general
  else general.

(** the updated [self] and the original step *)
Definition invert (self : circle_range) : circle_range * Z :=
  (complement (with_step self 1), step self).

Definition set_if_empty (r : circle_range) : circle_range :=
  if left r =? right r then with_empty r true else r.

(** the tail of [intersect]: meet [myleft,myright) and [op2left,op2right) in the common domain *)
Definition intersect_arcs (self : circle_range)
    (new_mask new_step myleft myright op2left op2right : Z) : circle_range * Z :=
  let done (r : circle_range) := (CR (left r) (right r) new_mask (isempty r) new_step, 0) in
  if myleft =? myright then done (with_bounds self op2left op2right)
  else if op2left =? op2right then done (with_bounds self myleft myright)
  else
    match encode_range_overlaps myleft myright op2left op2right with
    | "a"%char | "f"%char => done (with_empty self true)
    | "b"%char => done (set_if_empty (with_bounds self op2left myright))
    | "c"%char => done (with_bounds self op2left op2right)
    | "d"%char => done (with_bounds self myleft myright)
    | "e"%char => done (set_if_empty (with_bounds self myleft op2right))
    | "g"%char =>
        if myleft =? op2right then done (set_if_empty (with_bounds self op2left myright))
        else if op2left =? myright then done (set_if_empty (with_bounds self myleft op2right))
        else (self, 2)
    | _ => (self, 2)
    end.

(** the updated [self] and the return code (0 valid, 2 two pieces, [self] then unmodified) *)
Definition intersect (self op2 : circle_range) : circle_range * Z :=
  if isempty self then (self, 0)
  else if isempty op2 then (with_empty self true, 0)
  else
    let '(empty1, myleft, myright, op2left, op2right, new_step) :=
      if step self <? step op2 then
        let rem := w32 (left op2 mod w64 (step op2)) in
        let '(e, l, r) := new_stride (mask self) (step op2) (step self) rem (left self) (right self) in
        (e, l, r, left op2, right op2, step op2)
      else if step op2 <? step self then
        let rem := w32 (left self mod w64 (step self)) in
        let '(e, l, r) := new_stride (mask op2) (step self) (step op2) rem (left op2) (right op2) in
        (e, left self, right self, l, r, step self)
      else (false, left self, right self, left op2, right op2, step self) in
    if empty1 then (with_empty self true, 0)
    else
      let new_mask := Z.land (mask self) (mask op2) in
      let '(empty2, myleft, myright, op2left, op2right) :=
        if negb (mask self =? new_mask) then
          let '(e, l, r) := new_domain new_mask new_step myleft myright in (e, l, r, op2left, op2right)
        else if negb (mask op2 =? new_mask) then
          let '(e, l, r) := new_domain new_mask new_step op2left op2right in (e, myleft, myright, l, r)
        else (false, myleft, myright, op2left, op2right) in
      if empty2 then (with_empty self true, 0)
      else intersect_arcs self new_mask new_step myleft myright op2left op2right.

(** the updated [self] and whether the mask was valid *)
Definition set_nz_mask (self : circle_range) (nzmask size : Z) : circle_range * bool :=
  let trans := bit_transitions nzmask size in
  if 2 <? trans then (self, false)
  else
    let hasstep := Z.land nzmask 1 =? 0 in
    if negb hasstep && (trans =? 2) then (self, false)
    else if trans =? 0 then
      if hasstep then (CR 0 1 (calc_mask_i32 size) false 1, true)
      else (CR 0 0 (calc_mask_i32 size) false 1, true)
    else
      let shift := leastsigbit_set nzmask in
      let stp := i32 (Z.shiftl 1 (w32 shift mod 32)) in
      let m := calc_mask_i32 size in
      (CR 0 (Z.land (u64_add nzmask (w64 stp)) m) m false stp, true).

Definition set_stride (self : circle_range) (new_step rem : Z) : circle_range :=
  let iseverything := negb (isempty self) && (left self =? right self) in
  if new_step =? step self then self
  else
    let a_right := u64_sub (right self) (step64 self) in
    if new_step =? 1 then with_step self 1
    else
      let stp := w64 new_step in
      let l := u64_add (u64_sub (left self) (left self mod stp)) rem in
      let a_right := u64_add (u64_sub a_right (a_right mod stp)) rem in
      let r := u64_add a_right stp in
      CR l r (mask self) (if negb iseverything && (l =? r) then true else isempty self) new_step.

Definition complement_if (b : bool) (r : circle_range) : circle_range :=
  if b then complement r else r.

(** the updated [self] and whether a valid range was formed *)
Definition pull_back_unary (self : circle_range) (opc : opcode) (in_size out_size : Z)
  : circle_range * bool :=
  if isempty self then (self, true)
  else
    match opc with
    | BoolNegate =>
        let '(r, both) := convert_to_boolean self in
        if both then (r, true)
        else let l := Z.lxor (left r) 1 in (with_bounds r l (u64_add l 1), true)
    | Copy => (self, true)
    | Int2comp =>
        let val := Z.land (u64_add (u64_add (u64_not (left self)) 1) (step64 self)) (mask self) in
        let l := Z.land (u64_add (u64_add (u64_not (right self)) 1) (step64 self)) (mask self) in
        (with_bounds self l val, true)
    | IntNegate =>
        let val := Z.land (u64_add (u64_not (left self)) (step64 self)) (mask self) in
        let l := Z.land (u64_add (u64_not (right self)) (step64 self)) (mask self) in
        (with_bounds self l val, true)
    | IntZext =>
        let val := calc_mask_i32 in_size in
        let rem := left self mod step64 self in
        let zextrange := CR rem (u64_add (u64_add val 1) rem) (mask self) false (step self) in
        let '(r, code) := intersect self zextrange in
        if negb (code =? 0) then (r, false)
        else (CR (Z.land (left r) val) (Z.land (right r) val) (Z.land (mask r) val)
                 (isempty r) (step r), true)
    | IntSext =>
        let val := calc_mask_i32 in_size in
        let rem := Z.land (left self) (step64 self) in
        let sleft := u64_add (Z.lxor val (Z.shiftr val 1)) rem in
        let sextrange := CR sleft (sign_extend sleft in_size out_size) (mask self) false (step self) in
        let '(s, code) := intersect sextrange self in
        if negb (code =? 0) then (self, false)
        else if negb (is_empty s) then (self, false)
        else (CR (Z.land (left self) val) (Z.land (right self) val) (Z.land (mask self) val)
                 (isempty self) (step self), true)
    | _ => (self, false)
    end.

(** the shape shared by the comparison arms: coerce to a boolean range; when it held both
    outcomes every input is possible, otherwise take the region of the true outcome and
    complement it when the outcome was false *)
Definition pull_back_compare (self : circle_range) (in_size : Z)
    (region : circle_range -> circle_range) : circle_range :=
  let '(r, both) := convert_to_boolean self in
  let r := with_mask r (calc_mask_i32 in_size) in
  if both then r
  else
    let yescomplement := left r =? 0 in
    complement_if yescomplement (region r).

Definition pull_back_binary (self : circle_range) (opc : opcode) (val slot in_size out_size : Z)
  : circle_range * bool :=
  if isempty self then (self, true)
  else
    match opc with
    | IntEqual =>
        (pull_back_compare self in_size (fun r =>
           with_bounds r val (Z.land (u64_add val 1) (mask r))), true)
    | IntNotequal =>
        (pull_back_compare self in_size (fun r =>
           with_bounds r (Z.land (u64_add val 1) (mask r)) val), true)
    | IntLess =>
        (pull_back_compare self in_size (fun r =>
           if slot =? 0 then
             if val =? 0 then with_empty r true else with_bounds r 0 val
           else if val =? mask r then with_empty r true
           else with_bounds r (Z.land (u64_add val 1) (mask r)) 0), true)
    | IntLessequal =>
        (pull_back_compare self in_size (fun r =>
           if slot =? 0 then with_bounds r 0 (Z.land (u64_add val 1) (mask r))
           else with_bounds r val 0), true)
    | IntSless =>
        (pull_back_compare self in_size (fun r =>
           if slot =? 0 then
             if val =? u64_add (Z.shiftr (mask r) 1) 1 then with_empty r true
             else with_bounds r (u64_add (Z.shiftr (mask r) 1) 1) val
           else if val =? Z.shiftr (mask r) 1 then with_empty r true
           else with_bounds r (Z.land (u64_add val 1) (mask r))
                  (u64_add (Z.shiftr (mask r) 1) 1)), true)
    | IntSlessequal =>
        (pull_back_compare self in_size (fun r =>
           if slot =? 0 then
             with_bounds r (u64_add (Z.shiftr (mask r) 1) 1) (Z.land (u64_add val 1) (mask r))
           else with_bounds r val (u64_add (Z.shiftr (mask r) 1) 1)), true)
    | IntCarry =>
        (pull_back_compare self in_size (fun r =>
           if val =? 0 then with_empty r true
           else with_bounds r (Z.land (u64_add (u64_sub (mask r) val) 1) (mask r)) 0), true)
    | IntAdd =>
        (with_bounds self (Z.land (u64_sub (left self) val) (mask self))
           (Z.land (u64_sub (right self) val) (mask self)), true)
    | IntSub =>
        if slot =? 0 then
          (with_bounds self (Z.land (u64_add (left self) val) (mask self))
             (Z.land (u64_add (right self) val) (mask self)), true)
        else
          (with_bounds self (Z.land (u64_sub val (left self)) (mask self))
             (Z.land (u64_sub val (right self)) (mask self)), true)
    | IntRight =>
        if negb (step self =? 1) || negb (slot =? 0) then (self, false)
        else
          let right_bound := u64_add (u64_shr (calc_mask_i32 in_size) val) 1 in
          if ((right_bound <=? left self) && (right_bound <=? right self)
              && (right self <=? left self))
             || ((left self =? 0) && (right_bound <=? right self))
             || (left self =? right self)
          then (with_bounds self 0 0, true)
          else
            let l := if right_bound <? left self then right_bound else left self in
            let r := if right_bound <? right self then 0 else right self in
            (set_if_empty (with_bounds self (Z.land (u64_shl l val) (mask self))
                             (Z.land (u64_shl r val) (mask self))), true)
    | IntSright =>
        if negb (step self =? 1) || negb (slot =? 0) then (self, false)
        else
          let rightb0 := calc_mask_i32 in_size in
          let leftb := u64_shr rightb0 (u64_add val 1) in
          let rightb := Z.lxor leftb rightb0 in
          let leftb := u64_add leftb 1 in
          if ((leftb <=? left self) && (left self <=? rightb) && (leftb <=? right self)
              && (right self <=? rightb) && (right self <=? left self))
             || (left self =? right self)
          then (with_bounds self 0 0, true)
          else
            let l := if (leftb <? left self) && (left self <? rightb) then leftb else left self in
            let r := if (leftb <? right self) && (right self <? rightb) then rightb
                     else right self in
            (set_if_empty (with_bounds self (Z.land (u64_shl l val) (mask self))
                             (Z.land (u64_shl r val) (mask self))), true)
    | _ => (self, false)
    end.

(** ** Push forward

    [self] is overwritten; the resulting range and whether it is known. The fields [self] keeps
    when the push fails are those of the partial update, as in the source. *)
Definition push_forward_unary (self : circle_range) (opc : opcode) (in1 : circle_range)
    (in_size out_size : Z) : circle_range * bool :=
  if isempty in1 then (with_empty self true, true)
  else
    match opc with
    | Cast | Copy => (in1, true)
    | IntZext =>
        let m := calc_mask_i32 out_size in
        if left in1 =? right in1 then
          let l := left in1 mod step64 in1 in
          (CR l (u64_add (u64_add (mask in1) 1) l) m false (step in1), true)
        else
          let l := left in1 in
          let r := Z.land (u64_sub (right in1) (step64 in1)) (mask in1) in
          if r <? l then (CR l r m false (step in1), false)
          else (CR l (u64_add r (step64 in1)) m false (step in1), true)
    | IntSext =>
        let m := calc_mask_i32 out_size in
        if left in1 =? right in1 then
          let rem := left in1 mod step64 in1 in
          let r := Z.shiftr (calc_mask_i32 in_size) 1 in
          let l := u64_add (Z.lxor (calc_mask_i32 out_size) r) rem in
          (CR l (u64_add (u64_add r 1) rem) m false (step in1), true)
        else
          let l := sign_extend (left in1) in_size out_size in
          let r := sign_extend (Z.land (u64_sub (right in1) (step64 in1)) (mask in1)) in_size out_size in
          if i64 r <? i64 l then (CR l r m false (step in1), false)
          else (CR l (Z.land (u64_add r (step64 in1)) m) m false (step in1), true)
    | Int2comp =>
        let r := Z.land (u64_add (u64_add (u64_not (left in1)) 1) (step64 in1)) (mask in1) in
        let l := Z.land (u64_add (u64_add (u64_not (right in1)) 1) (step64 in1)) (mask in1) in
        (normalize (CR l r (mask in1) false (step in1)), true)
    | IntNegate =>
        let l := Z.land (u64_add (u64_not (right in1)) (step64 in1)) (mask in1) in
        let r := Z.land (u64_add (u64_not (left in1)) (step64 in1)) (mask in1) in
        (normalize (CR l r (mask in1) false (step in1)), true)
    | BoolNegate | FloatNan => (CR 0 2 255 false 1, true)
    | _ => (self, false)
    end.

(** the [while self.step < max_step] loop of INT_MULT: factors of two of the constant move
    into the stride; the i32 step doubles, so 32 rounds are enough *)
Fixpoint mult_step_loop (fuel : nat) (stp tmp max_step : Z) : Z :=
  match fuel with
  | O => stp
  | S fuel =>
      if stp <? max_step then
        if negb (Z.land tmp 1 =? 0) then stp
        else mult_step_loop fuel (i32 (Z.shiftl stp 1)) (Z.shiftr tmp 1) max_step
      else stp
  end.

(** the [while self.step < max_step && tmp > 0] loop of INT_LEFT *)
Fixpoint left_step_loop (fuel : nat) (stp tmp max_step : Z) : Z :=
  match fuel with
  | O => stp
  | S fuel =>
      if (stp <? max_step) && (0 <? tmp)
      then left_step_loop fuel (i32 (Z.shiftl stp 1)) (tmp - 1) max_step
      else stp
  end.

Definition whole_size (m : Z) : Z := 64 - u64_leading_zeros m.

Definition boolean_result : circle_range := CR 0 2 255 false 1.

Definition push_forward_add (in1 in2 : circle_range) : circle_range :=
  let m := Z.lor (mask in1) (mask in2) in
  if (left in1 =? right in1) || (left in2 =? right in2) then
    let s := Z.min (step in1) (step in2) in
    let l := u64_add (left in1) (left in2) mod w64 s in
    CR l l m false s
  else if is_single in2 then
    CR (Z.land (u64_add (left in1) (left in2)) m) (Z.land (u64_add (right in1) (left in2)) m)
       m false (step in1)
  else if is_single in1 then
    CR (Z.land (u64_add (left in2) (left in1)) m) (Z.land (u64_add (right in2) (left in1)) m)
       m false (step in2)
  else
    let s := Z.min (step in1) (step in2) in
    let size1 :=
      if left in1 <? right in1 then right in1 - left in1
      else u64_add (u64_sub (mask in1) (u64_sub (left in1) (right in1))) (step64 in1) in
    let l := Z.land (u64_add (left in1) (left in2)) m in
    let r := Z.land
               (u64_add
                  (u64_sub (u64_add (u64_sub (right in1) (step64 in1)) (right in2)) (step64 in2))
                  (w64 s)) m in
    let sizenew :=
      if l <? r then r - l else u64_add (u64_sub m (u64_sub l r)) (w64 s) in
    let r := if sizenew <? size1 then l else r in
    normalize (CR l r m false s).

Definition push_forward_mult (in1 in2 : circle_range) (max_step : Z) : option circle_range :=
  let m := Z.lor (mask in1) (mask in2) in
  let cont (const_val stp : Z) :=
    let s := mult_step_loop 64 stp (w32 const_val) max_step in
    if whole_size m <? get_max_info in1 + get_max_info in2 then
      let l := u64_mul (left in1) (left in2) mod w64 s in
      normalize (CR l l m false s)
    else
      let last := u64_mul (u64_sub (right in1) (step64 in1)) (u64_sub (right in2) (step64 in2)) in
      let first := u64_mul (left in1) (left in2) in
      if negb (Z.land const_val (Z.lxor m (Z.shiftr m 1)) =? 0) then
        CR (Z.land last m) (Z.land (u64_add first (w64 s)) m) m false s
      else CR (Z.land first m) (Z.land (u64_add last (w64 s)) m) m false s in
  if is_single in1 then Some (cont (get_min in1) (step in2))
  else if is_single in2 then Some (cont (get_min in2) (step in1))
  else None.

Definition push_forward_left (in1 in2 : circle_range) (max_step : Z) : circle_range :=
  let m := mask in1 in
  let sa := w32 (get_min in2) in
  let s := left_step_loop 64 (step in1) sa max_step in
  let l := Z.land (u64_checked_shl0 (left in1) sa) m in
  let r := Z.land (u64_checked_shl0 (right in1) sa) m in
  if whole_size m <? get_max_info in1 + i32 sa then normalize (CR l l m false s)
  else CR l r m false s.

Definition push_forward_subpiece (in1 in2 : circle_range) (out_size : Z) : circle_range :=
  let sa := i32 (i32 (left in2) * 8) in
  let m := calc_mask_i32 out_size in
  let s := if sa =? 0 then step in1 else 1 in
  let range := if left in1 <? right in1 then right in1 - left in1 else left in1 - right in1 in
  let sh v := if 64 <=? sa then 0 else u64_shr v sa in
  if (range =? 0) || (m <? sh range) then CR 0 0 m false s
  else
    let l := Z.land (sh (left in1)) m in
    let r := Z.land (u64_add (sh (u64_sub (right in1) (step64 in1))) (w64 s)) m in
    normalize (CR l r m false s).

Definition push_forward_right (in1 in2 : circle_range) (out_size : Z) : circle_range :=
  let sa := w32 (left in2) in
  let m := calc_mask_i32 out_size in
  let sh v := u64_checked_shr0 v sa in
  let '(l, r) :=
    if left in1 <? right in1
    then (sh (left in1), u64_add (sh (u64_sub (right in1) (step64 in1))) 1)
    else (0, sh (mask in1)) in
  let r := if l =? r then Z.land (u64_add l 1) m else r in
  CR l r m false 1.

Definition push_forward_sright (in1 in2 : circle_range) (in_size out_size : Z) : circle_range :=
  let sa := w32 (left in2) in
  let m := calc_mask_i32 out_size in
  let bit_pos := 8 * in_size - 1 in
  let val_left := sign_extend_bit (i64 (left in1)) bit_pos in
  let val_right := sign_extend_bit (i64 (right in1)) bit_pos in
  let '(val_left, val_right) :=
    if val_right <=? val_left then
      let vr := i64 (Z.shiftr m 1) in
      (sign_extend_bit (i64 (vr + 1)) bit_pos, vr)
    else (val_left, val_right) in
  let shr v := if sa <? 64 then i64_shr v sa else if v <? 0 then -1 else 0 in
  let l := Z.land (w64 (shr val_left)) m in
  let r := Z.land (w64 (i64 (shr (i64 (val_right - step in1)) + 1))) m in
  let r := if l =? r then Z.land (u64_add l 1) m else r in
  CR l r m false 1.

Definition push_forward_binary (self : circle_range) (opc : opcode) (in1 in2 : circle_range)
    (in_size out_size max_step : Z) : circle_range * bool :=
  if isempty in1 || isempty in2 then (with_empty self true, true)
  else
    match opc with
    | Ptrsub | IntAdd => (push_forward_add in1 in2, true)
    | IntMult =>
        match push_forward_mult in1 in2 max_step with
        | Some r => (r, true)
        | None => (CR (left self) (right self) (Z.lor (mask in1) (mask in2)) false (step self), false)
        end
    | IntLeft =>
        if negb (is_single in2) then (self, false) else (push_forward_left in1 in2 max_step, true)
    | Subpiece =>
        if negb (is_single in2) then (self, false) else (push_forward_subpiece in1 in2 out_size, true)
    | IntRight =>
        if negb (is_single in2) then (self, false) else (push_forward_right in1 in2 out_size, true)
    | IntSright =>
        if negb (is_single in2) then (self, false)
        else (push_forward_sright in1 in2 in_size out_size, true)
    | IntEqual | IntNotequal | IntSless | IntSlessequal | IntLess | IntLessequal | IntCarry
    | IntScarry | IntSborrow | BoolXor | BoolAnd | BoolOr | FloatEqual | FloatNotequal
    | FloatLess | FloatLessequal => (boolean_result, true)
    | _ => (self, false)
    end.

Definition push_forward_trinary (self : circle_range) (opc : opcode)
    (in1 in2 in3 : circle_range) (in_size out_size max_step : Z) : circle_range * bool :=
  match opc with
  | Ptradd =>
      let '(tmp, ok) := push_forward_binary default IntMult in2 in3 in_size in_size max_step in
      if negb ok then (self, false)
      else push_forward_binary self IntAdd in1 tmp in_size out_size max_step
  | _ => (self, false)
  end.

Definition widen (self op2 : circle_range) (left_is_stable : bool) : circle_range :=
  let r :=
    if left_is_stable then
      let lmod := left self mod step64 self in
      let m := right op2 mod step64 self in
      let rt := if m <=? lmod then u64_add (right op2) (lmod - m)
                else u64_sub (right op2) (m - lmod) in
      with_bounds self (left self) (Z.land rt (mask self))
    else with_bounds self (Z.land (left op2) (mask self)) (right self) in
  normalize r.

(** restype, opcode, constant and its slot; the last three only meaningful for restype 0 *)
Definition translate2_op (self : circle_range) : Z * opcode * Z * Z :=
  if isempty self then (3, Copy, 0, 0)
  else if negb (step self =? 1) then (2, Copy, 0, 0)
  else if right self =? Z.land (u64_add (left self) 1) (mask self) then (0, IntEqual, left self, 0)
  else if left self =? Z.land (u64_add (right self) 1) (mask self) then (0, IntNotequal, right self, 0)
  else if left self =? right self then (1, Copy, 0, 0)
  else if left self =? 0 then (0, IntLess, right self, 1)
  else if right self =? 0 then (0, IntLess, Z.land (u64_sub (left self) 1) (mask self), 0)
  else if left self =? u64_add (Z.shiftr (mask self) 1) 1 then (0, IntSless, right self, 1)
  else if right self =? u64_add (Z.shiftr (mask self) 1) 1 then
    (0, IntSless, Z.land (u64_sub (left self) 1) (mask self), 0)
  else (2, Copy, 0, 0).

(** ** The pull-back driver *)

(** What [pull_back] reads of a Varnode and of a p-code operation of the function. *)
Record varnode := VN { vn_size : Z; vn_constant : option Z; vn_nzmask : Z }.
Record pcode_op := OP { op_code : opcode; op_output_size : option Z; op_inputs : list varnode }.

Definition is_constant (v : varnode) : bool := match vn_constant v with Some _ => true | None => false end.
Definition constant_value (v : varnode) : Z := match vn_constant v with Some c => c | None => 0 end.

(** the binary case: [res] in [slot], the constant in the other one; [None]: not a range *)
Definition pull_back_const (self : circle_range) (opc : opcode) (res constvn : varnode)
    (slot out_size : Z) (usenzmask : bool) : circle_range * bool :=
  let val := constant_value constvn in
  let '(r, ok) := pull_back_binary self opc val slot (vn_size res) out_size in
  if ok then (r, true)
  else if usenzmask && (match opc with Subpiece => true | _ => false end) && (val =? 0) then
    let msbset := Z.quot (mostsigbit_set (vn_nzmask res) + 8) 8 in
    if out_size <? msbset then (r, false)
    else (with_mask r (calc_mask_i32 (vn_size res)), true)
  else (r, false).

Definition narrow_nzmask (self : circle_range) (res : varnode) : circle_range :=
  let '(nzrange, ok) := set_nz_mask default (vn_nzmask res) (vn_size res) in
  if ok then fst (intersect self nzrange) else self.

(** the updated range and the unknown input, when the pull-back forms a range *)
Definition pull_back (self : circle_range) (op : pcode_op) (usenzmask : bool)
  : circle_range * option varnode :=
  match op_output_size op with
  | None => (self, None)
  | Some out_size =>
      let finish (r : circle_range) (ok : bool) (res : varnode) :=
        if negb ok then (r, None)
        else ((if usenzmask then narrow_nzmask r res else r), Some res) in
      match op_inputs op with
      | [res] =>
          if is_constant res then (self, None)
          else let '(r, ok) := pull_back_unary self (op_code op) (vn_size res) out_size in
               finish r ok res
      | [in0; in1] =>
          if is_constant in0 then
            if is_constant in1 then (self, None)
            else let '(r, ok) := pull_back_const self (op_code op) in1 in0 1 out_size usenzmask in
                 finish r ok in1
          else if negb (is_constant in1) then (self, None)
          else let '(r, ok) := pull_back_const self (op_code op) in0 in1 0 out_size usenzmask in
               finish r ok in0
      | _ => (self, None)
      end
  end.
