(* ===== verification/CircleRangeSpec.v ===== *)
(** The set a circular range denotes and its basic theory: well-formedness, the two
    characterisations of membership used by the soundness proofs, and the queries
    ([contains_val], [get_size], [get_next], [complement], ...) of [CircleRange]. *)
From Stdlib Require Import Ascii String ZArith Lia Bool List.
From stdpp Require Import base tactics.
From S2P Require Import Prelude OpCode BitUtil CircleRange PcodeSem.
Local Open Scope Z_scope.

(** The domain size and the number of elements of a range. *)
Definition dom (r : circle_range) : Z := mask r + 1.
Definition count (r : circle_range) : Z :=
  if left r =? right r then dom r / step r else ((right r - left r) mod dom r) / step r.

(** The values of the range: [left], [left + step], ... around the domain, [count] of them. *)
Definition denotes (r : circle_range) (v : Z) : Prop :=
  isempty r = false /\ exists i, 0 <= i < count r /\ v = (left r + i * step r) mod dom r.

(** The shape every range built by the module has: a low-bit mask of at most 64 bits and a
    power-of-two stride, fitting an i32, that divides the domain. *)
Record shaped (r : circle_range) : Prop := {
  sh_mask : exists k, 1 <= k <= 64 /\ mask r = Z.ones k;
  sh_step : exists s, 0 <= s <= 30 /\ step r = 2 ^ s;
  sh_div : (step r | dom r);
}.

(** A non-empty range has its bounds in the domain and in the same residue class. *)
Record wf (r : circle_range) : Prop := {
  wf_shape : shaped r;
  wf_left : isempty r = false -> 0 <= left r <= mask r;
  wf_right : isempty r = false -> 0 <= right r <= mask r;
  wf_phase : isempty r = false -> left r mod step r = right r mod step r;
}.

(** [v] lies on the arc from [l] up to, not including, [r]; the whole circle when [l = r]. *)
Definition arc (l r v : Z) : Prop :=
  (l < r /\ l <= v < r) \/ (r < l /\ (v < r \/ l <= v)) \/ l = r.

(** The circular order of the four bounds behind each overlap code: one constructor per entry of
    [ARRANGE] that a linear order of the bounds can reach. *)
Inductive overlap (l1 r1 l2 r2 : Z) : ascii -> Prop :=
| ov_a7 : r2 < l1 -> r1 <= l2 -> l2 <= r2 -> overlap l1 r1 l2 r2 "a"
| ov_a63 : l1 <= r1 -> r1 <= l2 -> l2 <= r2 -> overlap l1 r1 l2 r2 "a"
| ov_b3 : r2 < l1 -> l2 < r1 -> r1 <= r2 -> overlap l1 r1 l2 r2 "b"
| ov_b22 : l1 <= l2 -> r2 < l1 -> r1 <= r2 -> overlap l1 r1 l2 r2 "b"
| ov_b48 : l1 <= l2 -> r2 < l1 -> l2 < r1 -> overlap l1 r1 l2 r2 "b"
| ov_b59 : l1 <= l2 -> l2 < r1 -> r1 <= r2 -> overlap l1 r1 l2 r2 "b"
| ov_c1 : r1 < l1 -> r2 < r1 -> l2 <= r2 -> overlap l1 r1 l2 r2 "c"
| ov_c20 : r1 < l1 -> l1 <= l2 -> r2 < r1 -> overlap l1 r1 l2 r2 "c"
| ov_c31 : r1 < l1 -> l1 <= l2 -> l2 <= r2 -> overlap l1 r1 l2 r2 "c"
| ov_c57 : l1 <= l2 -> r2 < r1 -> l2 <= r2 -> overlap l1 r1 l2 r2 "c"
| ov_d6 : l2 < l1 -> r1 <= r2 -> r2 < l2 -> overlap l1 r1 l2 r2 "d"
| ov_d32 : l1 <= r1 -> l2 < l1 -> r2 < l2 -> overlap l1 r1 l2 r2 "d"
| ov_d43 : l1 <= r1 -> l2 < l1 -> r1 <= r2 -> overlap l1 r1 l2 r2 "d"
| ov_d62 : l1 <= r1 -> r1 <= r2 -> r2 < l2 -> overlap l1 r1 l2 r2 "d"
| ov_e4 : l2 < l1 -> r1 <= l2 -> r2 < r1 -> overlap l1 r1 l2 r2 "e"
| ov_e15 : l2 < l1 -> l1 <= r2 -> r1 <= l2 -> overlap l1 r1 l2 r2 "e"
| ov_e41 : l2 < l1 -> l1 <= r2 -> r2 < r1 -> overlap l1 r1 l2 r2 "e"
| ov_e60 : l1 <= r2 -> r1 <= l2 -> r2 < r1 -> overlap l1 r1 l2 r2 "e"
| ov_f33 : l1 <= r1 -> r2 < l1 -> l2 <= r2 -> overlap l1 r1 l2 r2 "f"
| ov_f52 : l1 <= r1 -> r2 < l1 -> r1 <= l2 -> overlap l1 r1 l2 r2 "f"
| ov_g0 : r1 < l1 -> l2 < r1 -> r2 < l2 -> overlap l1 r1 l2 r2 "g"
| ov_g11 : r1 < l1 -> l1 <= r2 -> l2 < r1 -> overlap l1 r1 l2 r2 "g"
| ov_g30 : r1 < l1 -> l1 <= r2 -> r2 < l2 -> overlap l1 r1 l2 r2 "g"
| ov_g56 : l1 <= r2 -> l2 < r1 -> r2 < l2 -> overlap l1 r1 l2 r2 "g".

(** Two ranges with the same values. *)
Definition same_set (a b : circle_range) : Prop := forall v, denotes a v <-> denotes b v.

(** ** Shapes *)

Lemma ones_dom (k : Z) : 0 <= k -> Z.ones k + 1 = 2 ^ k.
Proof. intros. rewrite ones_pow; lia. Qed.

Lemma shaped_facts (r : circle_range) : shaped r ->
  0 < step r <= dom r /\ dom r <= 2 ^ 64 /\ 2 <= dom r /\ step r < 2 ^ 31 /\ step64 r = step r
  /\ (step r | dom r).
Proof.
  intros [(k & Hk & Hm) (s & Hs & Hst) Hd].
  assert (dom r = 2 ^ k) as Hdom by (unfold dom; rewrite Hm, ones_dom; lia).
  assert (2 ^ 1 <= 2 ^ k <= 2 ^ 64) by (split; apply Z.pow_le_mono_r; lia).
  assert (2 ^ s <= 2 ^ 30) by (apply Z.pow_le_mono_r; lia).
  pose proof (pow2_pos s ltac:(lia)).
  assert (step r <= dom r) by (apply Z.divide_pos_le; [lia|done]).
  unfold step64. rewrite w64_small by lia. repeat split; (lia || done).
Qed.

(** Masking a 64-bit result with the range's mask is the residue modulo its domain. *)
Lemma land_mask (r : circle_range) (z : Z) : shaped r -> Z.land (w64 z) (mask r) = z mod dom r.
Proof.
  intros [(k & Hk & Hm) _ _]. unfold dom. rewrite Hm, ones_dom by lia.
  apply land_ones_w64; lia.
Qed.

Ltac shape H :=
  let F := fresh "F" in
  pose proof (shaped_facts _ (wf_shape _ H)) as F;
  destruct F as (? & ? & ? & ? & ? & ?).

(** ** Membership *)

Lemma arc_rot (m l r v : Z) : 0 <= l < m -> 0 <= r < m -> 0 <= v < m ->
  arc l r v <-> l = r \/ (v - l) mod m < (r - l) mod m.
Proof.
  intros. unfold arc.
  modcase (v - l) m; modcase (r - l) m; lia.
Qed.

Lemma step_multiple (a s : Z) : 0 < s -> a mod s = 0 -> a = a / s * s.
Proof. intros. pose proof (Z.div_mod a s). lia. Qed.

Lemma mod_div_lt (a d s : Z) : 0 < s -> a mod s = 0 -> d mod s = 0 -> a / s < d / s <-> a < d.
Proof.
  intros Hs Ha Hd.
  rewrite (step_multiple a s Hs Ha), (step_multiple d s Hs Hd) at 2.
  rewrite <- (Z.mul_lt_mono_pos_r s); lia.
Qed.

(** The values are the points of the arc in [left]'s residue class. *)
Lemma denotes_rot (r : circle_range) (v : Z) : wf r ->
  denotes r v <-> isempty r = false /\ 0 <= v <= mask r /\ v mod step r = left r mod step r
    /\ (left r = right r \/ (v - left r) mod dom r < (right r - left r) mod dom r).
Proof.
  intros H. shape H. unfold denotes.
  destruct (isempty r) eqn:Ee; [by split; intros [? _]|].
  pose proof (wf_left _ H Ee). pose proof (wf_right _ H Ee). pose proof (wf_phase _ H Ee) as Hph.
  assert (forall x, (x mod dom r) mod step r = x mod step r) as Hmm
    by (intros; by apply Z.mod_mod_divide).
  assert (Hdm : (right r - left r) mod dom r mod step r = 0)
    by (rewrite Hmm; apply mod_eq_sub; [lia|congruence]).
  assert (Hd0 : dom r mod step r = 0) by (apply Z.mod_divide; [lia|done]).
  set (S := step r) in *. set (M := dom r) in *.
  assert (M = mask r + 1) by reflexivity.
  split.
  - intros (_ & i & Hi & ->). unfold count in Hi. fold M S in Hi.
    assert (0 <= i * S) by nia.
    assert (i * S < if left r =? right r then M else (right r - left r) mod M) as Hlt.
    { destruct (left r =? right r); apply (mod_div_lt (i * S) _ S);
        try rewrite Z.div_mul; try rewrite Z.mod_mul; lia. }
    split; [done|]. split; [pose proof (Z.mod_pos_bound (left r + i * S) M); lia|].
    split; [rewrite Hmm, Z.mod_add; lia|].
    rewrite Zminus_mod_idemp_l. replace (left r + i * S - left r) with (i * S) by lia.
    destruct (Z.eqb_spec (left r) (right r)); [by left|right].
    pose proof (Z.mod_pos_bound (right r - left r) M ltac:(lia)).
    rewrite Z.mod_small; lia.
  - intros (_ & Hv & Hs & Ha). split; [done|].
    set (d := (v - left r) mod M) in *.
    pose proof (Z.mod_pos_bound (v - left r) M ltac:(lia)).
    assert (d mod S = 0) as Hds by (unfold d; rewrite Hmm; apply mod_eq_sub; [lia|congruence]).
    exists (d / S). rewrite <- (step_multiple d S) by lia. split.
    + split; [apply Z.div_pos; lia|]. unfold count. fold M S.
      destruct (Z.eqb_spec (left r) (right r)); apply mod_div_lt; lia.
    + unfold d. rewrite Zplus_mod_idemp_r. replace (left r + (v - left r)) with v by lia.
      symmetry. apply Z.mod_small. lia.
Qed.

Lemma denotes_arc (r : circle_range) (v : Z) : wf r ->
  denotes r v <-> isempty r = false /\ 0 <= v <= mask r /\ v mod step r = left r mod step r
    /\ arc (left r) (right r) v.
Proof.
  intros H. rewrite denotes_rot by done.
  destruct (isempty r) eqn:Ee; [by split; intros [? _]|].
  pose proof (wf_left _ H Ee). pose proof (wf_right _ H Ee).
  split; intros (_ & Hv & Hs & Ha); (do 3 (split; [done|])).
  - apply (arc_rot (dom r)); unfold dom; lia || done.
  - apply (arc_rot (dom r)) in Ha; unfold dom in *; lia || done.
Qed.

Lemma denotes_range (r : circle_range) (v : Z) : wf r -> denotes r v -> 0 <= v <= mask r.
Proof. intros H Hd. apply denotes_rot in Hd; tauto. Qed.

Lemma denotes_empty (r : circle_range) (v : Z) : isempty r = true -> ~ denotes r v.
Proof. unfold denotes. intros -> [? _]. done. Qed.

(** [contains_val] decides membership. *)
Lemma contains_val_denotes (r : circle_range) (v : Z) : wf r -> 0 <= v <= mask r ->
  contains_val r v = true <-> denotes r v.
Proof.
  intros H Hv. rewrite denotes_arc by done. shape H. unfold contains_val, arc.
  replace (step64 r) with (step r).
  destruct (isempty r); [by split; [|intros [? _]]|].
  destruct (Z.eqb_spec (step r) 1) as [Hs|]; cbn [negb andb].
  - rewrite Hs, !Z.mod_1_r. cmp; (split; [intros; try done; repeat split; lia|intros; try done; lia]).
  - cmp; cbn [negb]; (split; [intros; try done; repeat split; lia|intros; try done; lia]).
Qed.

Ltac overlap_case :=
  first [apply ov_a7; lia
        | apply ov_a63; lia
        | apply ov_b3; lia
        | apply ov_b22; lia
        | apply ov_b48; lia
        | apply ov_b59; lia
        | apply ov_c1; lia
        | apply ov_c20; lia
        | apply ov_c31; lia
        | apply ov_c57; lia
        | apply ov_d6; lia
        | apply ov_d32; lia
        | apply ov_d43; lia
        | apply ov_d62; lia
        | apply ov_e4; lia
        | apply ov_e15; lia
        | apply ov_e41; lia
        | apply ov_e60; lia
        | apply ov_f33; lia
        | apply ov_f52; lia
        | apply ov_g0; lia
        | apply ov_g11; lia
        | apply ov_g30; lia
        | apply ov_g56; lia].

Lemma encode_overlap (l1 r1 l2 r2 : Z) :
  overlap l1 r1 l2 r2 (encode_range_overlaps l1 r1 l2 r2).
Proof.
  unfold encode_range_overlaps.
  destruct (Z.leb_spec l1 r1), (Z.leb_spec l1 l2), (Z.leb_spec l1 r2), (Z.leb_spec r1 l2),
    (Z.leb_spec r1 r2), (Z.leb_spec l2 r2); first [exfalso; lia | cbn; overlap_case].
Qed.

(** ** Building ranges *)

Lemma shaped_of (r : circle_range) (k s : Z) :
  1 <= k <= 64 -> 0 <= s <= 30 -> s <= k -> mask r = Z.ones k -> step r = 2 ^ s -> shaped r.
Proof.
  intros Hk Hs Hsk Hm Hst. split; [by exists k|by exists s|].
  unfold dom. rewrite Hm, Hst, ones_dom by lia. apply pow2_divide; lia.
Qed.

Lemma shaped_ext (a b : circle_range) :
  mask a = mask b -> step a = step b -> shaped a -> shaped b.
Proof.
  intros Hm Hs [(k & Hk & Ek) (s & Hs' & Es) Hd].
  split; [exists k; by rewrite <- Hm|exists s; by rewrite <- Hs|].
  unfold dom in *. by rewrite <- Hm, <- Hs.
Qed.

Lemma wf_empty (r : circle_range) : shaped r -> isempty r = true -> wf r.
Proof. intros Hs He. split; [done|congruence..]. Qed.

(** The range [r] with new bounds of the right residue class. *)
Lemma wf_bounds (r : circle_range) (l rt : Z) (e : bool) :
  shaped r -> 0 <= l <= mask r -> 0 <= rt <= mask r -> l mod step r = rt mod step r ->
  wf (CR l rt (mask r) e (step r)).
Proof. intros Hs Hl Hr Hp. split; cbn; auto. by apply (shaped_ext r). Qed.

(** Membership of a range given by its fields, in arc form. *)
Lemma denotes_CR (l r m s v : Z) : wf (CR l r m false s) ->
  denotes (CR l r m false s) v <-> 0 <= v <= m /\ v mod s = l mod s /\ arc l r v.
Proof. intros H. rewrite denotes_arc by done. cbn. tauto. Qed.

(** A single-element range denotes its left bound. *)
Lemma is_single_right (r : circle_range) : wf r -> is_single r = true ->
  isempty r = false /\ right r = (left r + step r) mod dom r.
Proof.
  intros H Hs. unfold is_single in Hs. apply andb_prop in Hs as [He Hr].
  apply negb_true_iff in He. apply Z.eqb_eq in Hr. shape H.
  wsimpl. rewrite land_mask in Hr by apply wf_shape, H. split; [done|]. congruence.
Qed.

(** The arc of one stride around the left bound meets the residue class in one point. *)
Lemma one_step_arc (m s l v : Z) : 0 < s -> (s | m) -> s <= m -> 0 <= l < m -> 0 <= v < m ->
  v mod s = l mod s ->
  (l = (l + s) mod m \/ (v - l) mod m < ((l + s) mod m - l) mod m) <-> v = l.
Proof.
  intros Hs Hd Hsm Hl Hv Hp.
  assert (((v - l) mod m) mod s = 0) as Hz.
  { rewrite Z.mod_mod_divide by done. apply mod_eq_sub; lia. }
  rewrite Zminus_mod_idemp_l. replace (l + s - l) with s by lia.
  pose proof (Z.mod_pos_bound (v - l) m ltac:(lia)).
  assert ((v - l) mod m < s \/ s <= (v - l) mod m) as [Hlt|Hge] by lia.
  - rewrite Z.mod_small in Hz by lia.
    assert (v = l) by (modcase (v - l) m; lia). subst.
    split; [done|intros _]. destruct (Z.eq_dec s m) as [->|]; [left|right].
    + replace (l + m) with (l + 1 * m) by lia. rewrite Z.mod_add, Z.mod_small; lia.
    + rewrite Z.sub_diag, Z.mod_0_l, (Z.mod_small s); lia.
  - split; [|intros ->; rewrite Z.sub_diag, Z.mod_0_l in Hge; lia].
    intros [E|Hlt].
    + destruct (Z.eq_dec s m) as [->|]; [|modcase (l + s) m; lia].
      lia.
    + destruct (Z.eq_dec s m) as [->|]; [rewrite Z.mod_same in Hlt; lia|].
      rewrite (Z.mod_small s) in Hlt; lia.
Qed.

Lemma is_single_denotes (r : circle_range) (v : Z) : wf r -> is_single r = true ->
  denotes r v <-> v = left r.
Proof.
  intros H Hs. apply is_single_right in Hs as [He Hr]; [|done]. shape H.
  pose proof (wf_left _ H He). rewrite denotes_rot by done. unfold dom in *. rewrite He, Hr.
  split.
  - intros (_ & Hv & Hp & Ha). by apply (one_step_arc (mask r + 1) (step r) (left r) v) in Ha; try lia.
  - intros ->. split; [done|]. split; [lia|]. split; [done|].
    apply one_step_arc; lia || done.
Qed.

(** A single element seen with a larger stride: one step of that stride. *)
Lemma single_restride (r : circle_range) (s : Z) :
  wf r -> is_single r = true -> shaped (with_step r s) ->
  let r' := CR (left r) ((left r + s) mod dom r) (mask r) false s in
  wf r' /\ same_set r' r.
Proof.
  intros H Hs Hsh. pose proof (is_single_right r H Hs) as [He _].
  pose proof (wf_left _ H He) as Hl.
  pose proof (shaped_facts _ Hsh) as (Hst & _ & Hd2 & _ & _ & Hdiv).
  change (step (with_step r s)) with s in *. change (dom (with_step r s)) with (dom r) in *.
  assert (wf (CR (left r) ((left r + s) mod dom r) (mask r) false s)) as Hw.
  { apply (wf_bounds (with_step r s)); cbn; [done|done| |].
    - pose proof (Z.mod_pos_bound (left r + s) (dom r)). unfold dom in *. lia.
    - rewrite Z.mod_mod_divide by done. symmetry.
      replace (left r + s) with (left r + 1 * s) by lia. apply Z.mod_add. lia. }
  split; [done|]. intros v. rewrite (is_single_denotes r) by done.
  rewrite denotes_rot by done. unfold dom in *. cbn. split.
  - intros (_ & Hv & Hp & Ha). apply one_step_arc in Ha; lia || done.
  - intros ->. split; [done|]. split; [lia|]. split; [done|]. apply one_step_arc; lia || done.
Qed.

(** ** Concrete ranges *)

(** A decidable form of [wf] for a range whose mask has [k] bits and whose stride is [2 ^ s]. *)
Definition wfb (k s : Z) (r : circle_range) : bool :=
  (1 <=? k) && (k <=? 64) && (0 <=? s) && (s <=? 30) && (s <=? k)
  && (mask r =? Z.ones k) && (step r =? 2 ^ s)
  && (isempty r || ((0 <=? left r) && (left r <=? mask r) && (0 <=? right r) && (right r <=? mask r)
                    && (left r mod step r =? right r mod step r))).

Lemma wfb_wf (k s : Z) (r : circle_range) : wfb k s r = true -> wf r.
Proof.
  unfold wfb. rewrite !andb_true_iff, orb_true_iff, !andb_true_iff, !Z.leb_le, !Z.eqb_eq.
  intros (((((((? & ?) & ?) & ?) & ?) & ?) & ?) & Hor).
  split; [apply (shaped_of r k s); lia|..]; intros E; rewrite E in Hor; destruct Hor as [|Hor]; (done || lia).
Qed.

(** Membership by evaluation. *)
Lemma denotes_check (k s : Z) (r : circle_range) (v : Z) :
  wfb k s r && (0 <=? v) && (v <=? mask r) && contains_val r v = true -> denotes r v.
Proof.
  rewrite !andb_true_iff, !Z.leb_le. intros (((Hw & ?) & ?) & ?).
  apply contains_val_denotes; [by apply (wfb_wf k s)|lia|done].
Qed.
