(* ===== verification/CircleRangeSets.v ===== *)
(** [CircleRange] as a set algebra: the queries, [complement]/[invert], [circle_union],
    [intersect], [contains_range], [minimal_container] and [set_nz_mask] against the denoted
    sets of [CircleRangeSpec]. *)
From Stdlib Require Import Ascii String ZArith Lia Bool List.
From stdpp Require Import base tactics.
From S2P Require Import Prelude OpCode BitUtil CircleRange PcodeSem CircleRangeSpec.
Local Open Scope Z_scope.

(** What [circle_union] and [intersect] promise: code 0 and a well-formed range of exactly the
    values [P] describes, or code 2 and [self] untouched. *)
Definition set_result (self : circle_range) (P : Z -> Prop) (res : circle_range * Z) : Prop :=
  let '(r, code) := res in
  (code = 0 /\ wf r /\ forall v, denotes r v <-> P v) \/ (code = 2 /\ r = self).

(** ** Union *)

(** Joining two arcs of one stride and phase. *)
Lemma union_body (self : circle_range) (s rem l1 r1 l2 r2 : Z) (P : Z -> Prop) :
  let m := mask self in
  let A := CR l1 r1 m false s in let B := CR l2 r2 m false s in
  wf A -> wf B -> l1 mod s = l2 mod s ->
  rem = (if negb (s =? 1) then l1 mod s else 0) ->
  (forall v, P v <-> denotes A v \/ denotes B v) ->
  set_result self P (union_arcs self s rem l1 r1 l2 r2).
Proof.
  intros m A B HA HB Hph Hrem HP. subst A B. unfold union_arcs. fold m.
  pose proof (wf_left _ HA eq_refl) as HlA. pose proof (wf_right _ HA eq_refl) as HrA.
  pose proof (wf_left _ HB eq_refl) as HlB. pose proof (wf_right _ HB eq_refl) as HrB.
  pose proof (wf_phase _ HA eq_refl) as HpA. pose proof (wf_phase _ HB eq_refl) as HpB.
  shape HA. pose proof (wf_shape _ HA) as Hsh. unfold dom in *. cbn in *.
  assert (Hok : forall l r, 0 <= l <= m -> 0 <= r <= m -> l mod s = l1 mod s -> r mod s = l1 mod s ->
    (forall v, 0 <= v <= m -> arc l r v <-> arc l1 r1 v \/ arc l2 r2 v) ->
    set_result self P (CR l r m false s, 0)).
  { intros l r Hl Hr Hlp Hrp Harc. left. split; [done|].
    assert (wf (CR l r m false s)) as Hw by (apply (wf_bounds (CR l1 r1 m false s)); cbn; lia || done).
    split; [done|]. intros v. rewrite HP, !denotes_CR by done.
    specialize (Harc v). rewrite Hlp, <- Hph. tauto. }
  assert (rem mod s = l1 mod s /\ 0 <= rem <= m) as [Hrm Hrr].
  { subst rem. destruct (Z.eqb_spec s 1) as [->|]; cbn [negb].
    - rewrite !Z.mod_1_r. lia.
    - rewrite Z.mod_mod by lia. pose proof (Z.mod_pos_bound l1 s). lia. }
  destruct (Z.eqb_spec l1 r1); cbn [orb]; [apply Hok; try lia; unfold arc; lia|].
  destruct (Z.eqb_spec l2 r2); [apply Hok; try lia; unfold arc; lia|].
  destruct (encode_overlap l1 r1 l2 r2); cbn;
    try (apply Hok; [lia..|unfold arc; lia]);
    (destruct (Z.eqb_spec r1 l2); [apply Hok; [lia..|unfold arc; lia]|]);
    (destruct (Z.eqb_spec l1 r2); [apply Hok; [lia..|unfold arc; lia]|]); by right.
Qed.

(** A non-empty range, restated by its fields. *)
Lemma restate (r : circle_range) (m s : Z) :
  wf r -> isempty r = false -> mask r = m -> step r = s ->
  let r' := CR (left r) (right r) m false s in wf r' /\ same_set r' r.
Proof.
  intros Hw He <- <-. destruct r as [l rt m e s]. cbn in *. subst e. by split.
Qed.

Lemma shaped_restride (a b : circle_range) :
  shaped a -> shaped b -> mask a = mask b -> shaped (with_step a (step b)).
Proof. intros _ Hb Hm. apply (shaped_ext b); cbn; congruence. Qed.

Lemma single_stride_range (a b : circle_range) : wf a -> wf b -> is_single a = true ->
  mask a = mask b ->
  let a' := CR (left a) (Z.land (u64_add (left a) (w64 (step b))) (mask a)) (mask a) false (step b) in
  wf a' /\ same_set a' a.
Proof.
  intros Ha Hb Hs Hm. shape Hb.
  replace (Z.land (u64_add (left a) (w64 (step b))) (mask a))
    with ((left a + step b) mod dom a)
    by (wsimpl; rewrite land_mask by apply wf_shape, Ha; done).
  apply single_restride; [done|done|]. apply shaped_restride; auto using wf_shape.
Qed.

(** [C11] [circle_union] returns 0 with a well-formed range of exactly the values of either
    operand, or 2 with [self] unmodified; it never returns anything else. *)
Theorem circle_union_spec (self op2 : circle_range) : wf self -> wf op2 ->
  set_result self (fun v => denotes self v \/ denotes op2 v) (circle_union self op2).
Proof.
  intros H1 H2. unfold circle_union.
  destruct (isempty op2) eqn:E2.
  { left. split; [done|split; [done|]]. intros v. pose proof (denotes_empty op2 v E2). tauto. }
  destruct (isempty self) eqn:E1.
  { left. split; [done|split; [done|]]. intros v. pose proof (denotes_empty self v E1). tauto. }
  destruct (Z.eqb_spec (mask self) (mask op2)) as [Hm|]; cbn [negb]; [|by right].
  pose proof (shaped_facts _ (wf_shape _ H1)) as (? & ? & ? & ? & Hst1 & _).
  pose proof (shaped_facts _ (wf_shape _ H2)) as (? & ? & ? & ? & Hst2 & _).
  unfold step64 in Hst1, Hst2.
  (* the common tail, for operands restated at the stride [s] *)
  assert (Htail : forall s r1 r2,
    w64 s = s ->
    wf (CR (left self) r1 (mask self) false s) -> wf (CR (left op2) r2 (mask self) false s) ->
    same_set (CR (left self) r1 (mask self) false s) self ->
    same_set (CR (left op2) r2 (mask self) false s) op2 ->
    set_result self (fun v => denotes self v \/ denotes op2 v)
      (if negb (s =? 1) then
         let r := left self mod w64 s in
         if negb (r =? left op2 mod w64 s) then (self, 2)
         else union_arcs self s r (left self) r1 (left op2) r2
       else union_arcs self s 0 (left self) r1 (left op2) r2)).
  { intros s r1 r2 Hs W1 W2 S1 S2. rewrite Hs. cbv zeta.
    destruct (Z.eqb_spec s 1) as [->|]; cbn [negb].
    - apply union_body; [done|done|by rewrite !Z.mod_1_r|done|].
      intros v. rewrite (S1 v), (S2 v). done.
    - destruct (Z.eqb_spec (left self mod s) (left op2 mod s)); cbn [negb]; [|by right].
      apply union_body; [done..|by destruct (Z.eqb_spec s 1)|].
      intros v. rewrite (S1 v), (S2 v). done. }
  destruct (Z.ltb_spec (step self) (step op2)).
  - destruct (is_single self) eqn:Es; [|by right].
    destruct (single_stride_range self op2 H1 H2 Es Hm) as [W S].
    destruct (restate op2 (mask self) (step op2) H2 E2) as [W' S']; [done|done|].
    by apply Htail.
  - destruct (Z.ltb_spec (step op2) (step self)).
    + destruct (is_single op2) eqn:Es; [|by right].
      destruct (single_stride_range op2 self H2 H1 Es (eq_sym Hm)) as [W S].
      destruct (restate self (mask self) (step self) H1 E1) as [W' S']; [done|done|].
      cbv zeta in W, S. rewrite <- Hm in W, S. by apply Htail.
    + destruct (restate op2 (mask self) (step self) H2 E2) as [W S]; [done|lia|].
      destruct (restate self (mask self) (step self) H1 E1) as [W' S']; [done|done|].
      by apply Htail.
Qed.

(** ** Intersection *)

(** Meeting two arcs of one domain, stride and phase: the tail of [intersect]. *)
Lemma intersect_body (self : circle_range) (m s l1 r1 l2 r2 : Z) :
  let A := CR l1 r1 m false s in let B := CR l2 r2 m false s in
  isempty self = false ->
  wf A -> wf B -> l1 mod s = l2 mod s ->
  set_result self (fun v => denotes A v /\ denotes B v) (intersect_arcs self m s l1 r1 l2 r2).
Proof.
  intros A B He HA HB Hph. subst A B. unfold intersect_arcs.
  set (done := fun r : circle_range => (CR (left r) (right r) m (isempty r) s, 0)).
  pose proof (wf_left _ HA eq_refl). pose proof (wf_right _ HA eq_refl).
  pose proof (wf_left _ HB eq_refl). pose proof (wf_right _ HB eq_refl).
  pose proof (wf_phase _ HA eq_refl) as HpA. pose proof (wf_phase _ HB eq_refl) as HpB.
  pose proof (wf_shape _ HA) as Hsh. cbn in *.
  set (P := fun v => denotes (CR l1 r1 m false s) v /\ denotes (CR l2 r2 m false s) v).
  (* a result with bounds [l], [r] *)
  assert (Hok : forall l r, (l = l1 \/ l = l2) -> (r = r1 \/ r = r2) ->
    (forall v, 0 <= v <= m -> arc l r v <-> arc l1 r1 v /\ arc l2 r2 v) ->
    set_result self P (done (with_bounds self l r))).
  { intros l r Hl Hr Harc. left. split; [auto|]. unfold with_bounds. cbn. rewrite He.
    assert (wf (CR l r m false s)) as Hw
      by (apply (wf_bounds (CR l1 r1 m false s)); cbn; [exact Hsh|lia..|destruct Hl, Hr; subst; lia]).
    split; [exact Hw|]. intros v. unfold P. rewrite !denotes_CR by assumption.
    specialize (Harc v). assert (l mod s = l1 mod s) as -> by (destruct Hl; subst; auto).
    rewrite <- Hph. tauto. }
  (* a result that may turn out empty *)
  assert (Hset : forall l r, (l = l1 \/ l = l2) -> (r = r1 \/ r = r2) ->
    (forall v, 0 <= v <= m -> l <> r /\ arc l r v <-> arc l1 r1 v /\ arc l2 r2 v) ->
    set_result self P (done (set_if_empty (with_bounds self l r)))).
  { intros l r Hl Hr Harc. unfold set_if_empty. cbn. destruct (Z.eqb_spec l r) as [E|E].
    - left. split; [auto|]. cbn. split.
      + apply wf_empty; [|auto]. by apply (shaped_ext (CR l1 r1 m false s)).
      + intros v. split; [intros Hv; by apply denotes_empty in Hv|].
        unfold P. rewrite !denotes_CR by assumption. specialize (Harc v). tauto.
    - apply Hok; [auto..|]. intros v Hv. specialize (Harc v Hv). tauto. }
  destruct (Z.eqb_spec l1 r1); [apply Hok; [lia..|unfold arc; lia]|].
  destruct (Z.eqb_spec l2 r2); [apply Hok; [lia..|unfold arc; lia]|].
  destruct (encode_overlap l1 r1 l2 r2); cbn;
    try (apply Hok; [lia..|unfold arc; lia]);
    try (apply Hset; [lia..|unfold arc; lia]);
    try (left; split; [reflexivity|split;
           [apply wf_empty; [by apply (shaped_ext (CR l1 r1 m false s))|reflexivity]|]];
         intros v; split; [intros Hv; by apply denotes_empty in Hv|];
         unfold P; rewrite !denotes_CR by assumption; unfold arc; lia);
    (destruct (Z.eqb_spec l1 r2); [apply Hset; [lia..|unfold arc; lia]|]);
    (destruct (Z.eqb_spec l2 r1); [apply Hset; [lia..|unfold arc; lia]|]); by right.
Qed.

(** [C30] On two ranges of one domain, stride and phase, [intersect] returns 0 with a
    well-formed range of exactly the common values, or 2 with [self] unmodified. *)
Theorem intersect_exact (self op2 : circle_range) : wf self -> wf op2 ->
  mask self = mask op2 -> step self = step op2 ->
  left self mod step self = left op2 mod step self ->
  set_result self (fun v => denotes self v /\ denotes op2 v) (intersect self op2).
Proof.
  intros H1 H2 Hm Hs Hph. unfold intersect.
  destruct (isempty self) eqn:E1.
  { left. split; [done|split; [done|]]. intros v. pose proof (denotes_empty self v E1). tauto. }
  destruct (isempty op2) eqn:E2.
  { left. split; [done|split; [apply wf_empty; [by apply (shaped_ext self), wf_shape|done]|]].
    intros v. pose proof (denotes_empty op2 v E2).
    split; [intros Hv; by apply denotes_empty in Hv|tauto]. }
  rewrite Hs, Z.ltb_irrefl. cbv beta iota zeta. rewrite Hm, Z.land_diag, Z.eqb_refl.
  cbv beta iota zeta. cbn [negb].
  destruct (restate op2 (mask op2) (step op2) H2 E2) as [W2 S2]; [done|done|].
  destruct (restate self (mask op2) (step op2) H1 E1) as [W1 S1]; [done|done|].
  rewrite Hs in Hph.
  pose proof (intersect_body self (mask op2) (step op2) _ _ _ _ E1 W1 W2 Hph) as Hb.
  revert Hb. unfold set_result. destruct (intersect_arcs _ _ _ _ _ _ _) as [r code].
  intros [(? & ? & Hv)|?]; [left|by right]. split; [done|split; [done|]].
  intros v. rewrite Hv, (S1 v), (S2 v). done.
Qed.

(** Fitting an arc into a smaller domain keeps every value that fits. *)
Lemma new_domain_spec (m nm s l r : Z) :
  wf (CR l r m false s) -> shaped (CR l r nm false s) -> nm <= m ->
  let '(e, l', r') := new_domain nm s l r in
  (e = true -> forall v, 0 <= v <= nm -> ~ denotes (CR l r m false s) v) /\
  (e = false -> wf (CR l' r' nm false s) /\
    forall v, 0 <= v <= nm -> denotes (CR l r m false s) v -> denotes (CR l' r' nm false s) v).
Proof.
  intros H Hs Hle. pose proof (shaped_facts _ Hs) as (Hst & _ & _ & _ & Hst64 & _).
  pose proof (wf_left _ H eq_refl). pose proof (wf_right _ H eq_refl).
  pose proof (wf_phase _ H eq_refl) as Hph. unfold step64, dom in *. cbn in *.
  unfold new_domain. rewrite Hst64.
  set (rem := if negb (s =? 1) then l mod s else 0).
  assert (Hrem : 0 <= rem < s /\ rem mod s = l mod s /\ forall v, 0 <= v -> v mod s = l mod s -> rem <= v).
  { pose proof (Z.mod_pos_bound l s ltac:(lia)). unfold rem. destruct (Z.eqb_spec s 1) as [->|]; cbn.
    - rewrite !Z.mod_1_r. repeat split; lia.
    - rewrite Z.mod_mod by lia. repeat split; try lia.
      intros v Hv <-. apply Z.mod_le; lia. }
  destruct Hrem as (? & Hrp & Hrv). pose proof (Hrv l ltac:(lia) eq_refl).
  (* a non-empty result *)
  assert (Hok : forall l' r', 0 <= l' <= nm -> 0 <= r' <= nm ->
    l' mod s = l mod s -> r' mod s = l mod s ->
    (forall v, 0 <= v <= nm -> rem <= v -> arc l r v -> arc l' r' v) ->
    wf (CR l' r' nm false s) /\
    forall v, 0 <= v <= nm -> denotes (CR l r m false s) v -> denotes (CR l' r' nm false s) v).
  { intros l' r' ? ? Hl' Hr' Harc.
    assert (wf (CR l' r' nm false s)) by (apply (wf_bounds (CR l r nm false s)); cbn; lia || done).
    split; [done|]. intros v Hv Hd. apply denotes_CR in Hd as (_ & Hvp & Ha); [|done].
    apply denotes_CR; [done|]. rewrite Hl'. auto with lia. }
  destruct (Z.ltb_spec nm l), (Z.ltb_spec nm r); cbn [andb].
  - destruct (Z.ltb_spec l r).
    + split; [|done]. intros _ v Hv Hd. apply denotes_CR in Hd as (_ & _ & Ha); [|done].
      unfold arc in Ha. lia.
    + split; [done|intros _; apply Hok; try lia; unfold arc; lia].
  - destruct (Z.eqb_spec rem r); (split; [done|intros _; apply Hok; try lia; unfold arc; lia]).
  - destruct (Z.eqb_spec l rem); (split; [done|intros _; apply Hok; try lia; unfold arc; lia]).
  - destruct (Z.eqb_spec l r); (split; [done|intros _; apply Hok; try lia; unfold arc; lia]).
Qed.

Lemma denotes_restate (r : circle_range) (m s v : Z) :
  wf r -> isempty r = false -> mask r = m -> step r = s ->
  denotes r v -> denotes (CR (left r) (right r) m false s) v.
Proof. intros H He Hm Hs Hd. destruct (restate r m s H He Hm Hs) as [_ S]. by apply S. Qed.

(** The code-0 result of the tail keeps the common values, whatever the phases. *)
Lemma intersect_arcs_sound (self : circle_range) (m s l1 r1 l2 r2 v : Z) :
  isempty self = false -> wf (CR l1 r1 m false s) -> wf (CR l2 r2 m false s) ->
  denotes (CR l1 r1 m false s) v -> denotes (CR l2 r2 m false s) v ->
  snd (intersect_arcs self m s l1 r1 l2 r2) = 0 ->
  denotes (fst (intersect_arcs self m s l1 r1 l2 r2)) v.
Proof.
  intros He W1 W2 D1 D2.
  assert (l1 mod s = l2 mod s) as Hph.
  { pose proof D1 as D1'. pose proof D2 as D2'.
    apply denotes_CR in D1' as (_ & <- & _); [|done]. by apply denotes_CR in D2' as (_ & <- & _). }
  pose proof (intersect_body self m s l1 r1 l2 r2 He W1 W2 Hph) as Hb. unfold set_result in Hb.
  destruct (intersect_arcs self m s l1 r1 l2 r2) as [r code].
  cbn. intros Hc. destruct Hb as [(_ & _ & Hv)|[-> _]]; [by apply Hv|done].
Qed.

(** The common domain of two masks is the smaller one. *)
Lemma land_masks (a b : circle_range) : shaped a -> shaped b ->
  Z.land (mask a) (mask b) = Z.min (mask a) (mask b).
Proof.
  intros [(k1 & Hk1 & ->) _ _] [(k2 & Hk2 & ->) _ _].
  rewrite Z.land_ones, !ones_pow by lia.
  pose proof (pow2_pos k1). pose proof (pow2_pos k2).
  assert (k1 <= k2 \/ k2 < k1) as [Hle|Hlt] by lia.
  - assert (2 ^ k1 <= 2 ^ k2) by (apply Z.pow_le_mono_r; lia). rewrite Z.mod_small; lia.
  - assert (2 ^ k2 <= 2 ^ k1) by (apply Z.pow_le_mono_r; lia).
    rewrite Z.min_r by lia. destruct (pow2_divide k2 k1 ltac:(lia)) as [q Hq].
    replace (2 ^ k1 - 1) with (2 ^ k2 - 1 + (q - 1) * 2 ^ k2) by lia.
    rewrite Z.mod_add by lia. apply Z.mod_small. lia.
Qed.

(** Across domains of different sizes (the zero extension of a pull-back meets the
    input domain), [intersect] at one stride loses no common value. *)
Theorem intersect_sound (self op2 : circle_range) (v : Z) : wf self -> wf op2 ->
  step self = step op2 -> snd (intersect self op2) = 0 ->
  denotes self v -> denotes op2 v -> denotes (fst (intersect self op2)) v.
Proof.
  intros H1 H2 Hs. unfold intersect.
  destruct (isempty self) eqn:E1; [done|].
  destruct (isempty op2) eqn:E2; [intros _ _ Hd; by apply denotes_empty in Hd|].
  rewrite Hs, Z.ltb_irrefl. cbv beta iota zeta.
  intros Hcode Hv1 Hv2. revert Hcode.
  pose proof (denotes_range _ _ H1 Hv1) as Hr1. pose proof (denotes_range _ _ H2 Hv2) as Hr2.
  destruct (restate op2 (mask op2) (step op2) H2 E2) as [W2 _]; [done|done|].
  destruct (restate self (mask self) (step op2) H1 E1) as [W1 _]; [done|done|].
  apply (denotes_restate _ (mask self) (step op2)) in Hv1; [|done..].
  apply (denotes_restate _ (mask op2) (step op2)) in Hv2; [|done..].
  set (nm := Z.land (mask self) (mask op2)).
  assert (nm = Z.min (mask self) (mask op2)) as Hnm by (apply land_masks; by apply wf_shape).
  assert (Hshape : forall l r, shaped (CR l r nm false (step op2))).
  { intros l r. assert (nm = mask self \/ nm = mask op2) as [E|E] by lia; rewrite E.
    - by apply (shaped_ext (CR (left self) (right self) (mask self) false (step op2))), wf_shape.
    - by apply (shaped_ext (CR (left op2) (right op2) (mask op2) false (step op2))), wf_shape. }
  destruct (Z.eqb_spec (mask self) nm) as [Em|Em]; cbn [negb];
    [destruct (Z.eqb_spec (mask op2) nm) as [Em'|Em']; cbn [negb]|].
  - rewrite Em in W1, Hv1. rewrite Em' in W2, Hv2. by apply intersect_arcs_sound.
  - pose proof (new_domain_spec (mask op2) nm (step op2) _ _ W2 (Hshape _ _) ltac:(lia)) as Hnd.
    destruct (new_domain nm (step op2) (left op2) (right op2)) as [[e l] r].
    destruct Hnd as [He Hne]. destruct e; [by destruct (He eq_refl v ltac:(lia) Hv2)|].
    destruct (Hne eq_refl) as [Wn Hn]. rewrite Em in W1, Hv1.
    apply intersect_arcs_sound; auto with lia.
  - pose proof (new_domain_spec (mask self) nm (step op2) _ _ W1 (Hshape _ _) ltac:(lia)) as Hnd.
    destruct (new_domain nm (step op2) (left self) (right self)) as [[e l] r].
    destruct Hnd as [He Hne]. destruct e; [by destruct (He eq_refl v ltac:(lia) Hv1)|].
    destruct (Hne eq_refl) as [Wn Hn].
    assert (mask op2 = nm) as Em' by lia. rewrite Em' in W2, Hv2.
    apply intersect_arcs_sound; auto with lia.
Qed.

(** ** Queries *)

(** [contains_val] decides membership, and [get_size] counts the members (one less when
    all [2^64] values are in: "lie by one"). *)
Theorem contains_size_spec (r : circle_range) : wf r ->
  (forall v, 0 <= v <= mask r -> contains_val r v = true <-> denotes r v) /\
  get_size r = (if isempty r then 0 else if count r =? 2 ^ 64 then 2 ^ 64 - 1 else count r).
Proof.
  intros H. split; [intros; by apply contains_val_denotes|].
  unfold get_size. destruct (isempty r) eqn:E; [done|]. shape H.
  pose proof (wf_left _ H E). pose proof (wf_right _ H E). pose proof (wf_phase _ H E) as Hph.
  apply mod_eq_sub in Hph; [|lia].
  replace (step64 r) with (step r). unfold count. set (S := step r) in *.
  assert (dom r mod S = 0) as Hd0 by (apply Z.mod_divide; [lia|done]).
  pose proof (step_multiple (dom r) S ltac:(lia) Hd0) as HdS.
  pose proof (step_multiple _ S ltac:(lia) Hph) as HlrS.
  set (q := dom r / S) in *. set (d := (left r - right r) / S) in *.
  assert (0 < q) by nia. unfold dom in *.
  destruct (Z.ltb_spec (left r) (right r)).
  - destruct (Z.eqb_spec (left r) (right r)); [lia|].
    rewrite Z.mod_small by lia.
    assert (right r - left r = - d * S) as Hrl by lia. rewrite Hrl, Z.div_mul by lia.
    destruct (Z.eqb_spec (- d) (2 ^ 64)); nia.
  - wsimpl. replace (mask r - (left r - right r) + S) with ((q - d) * S + (S - 1)) by lia.
    assert (0 <= d) by nia.
    destruct (Z.eqb_spec (left r) (right r)) as [Elr|].
    + assert (d = 0) as -> by nia. replace (q - 0) with q by lia.
      assert (q * S + (S - 1) < 2 ^ 64 \/ 2 ^ 64 <= q * S + (S - 1)) as [Hlt|Hge] by lia.
      * rewrite w64_small by lia. rewrite Z.div_add_l, (Z.div_small (S - 1)) by lia.
        rewrite Z.add_0_r. destruct (Z.eqb_spec q 0); [lia|].
        destruct (Z.eqb_spec q (2 ^ 64)); nia.
      * assert (q * S = 2 ^ 64) as HqS.
        { destruct (sh_mask _ (wf_shape _ H)) as (k & Hk & Em).
          assert (mask r + 1 = 2 ^ k) by (rewrite Em; apply ones_dom; lia).
          destruct (Z.eq_dec k 64) as [->|]; [lia|].
          assert (2 * 2 ^ k <= 2 ^ 64).
          { rewrite <- (Z.pow_succ_r 2 k) by lia. apply Z.pow_le_mono_r; lia. }
          lia. }
        replace (w64 (q * S + (S - 1))) with (S - 1)
          by (unfold w64; rewrite HqS; change 18446744073709551616 with (2 ^ 64);
              replace (2 ^ 64 + (S - 1)) with (S - 1 + 1 * 2 ^ 64) by lia;
              rewrite Z.mod_add, Z.mod_small; lia).
        rewrite Z.div_small by lia. cbn [Z.eqb]. fold S.
        replace (mask r) with (q * S - 1) by lia.
        destruct (Z.ltb_spec 1 S).
        -- replace (q * S - 1) with ((q - 1) * S + (S - 1)) by lia.
           rewrite Z.div_add_l, (Z.div_small (S - 1)) by lia.
           destruct (Z.eqb_spec q (2 ^ 64)); nia.
        -- assert (S = 1) as HS by lia. rewrite HS in *. destruct (Z.eqb_spec q (2 ^ 64)); lia.
    + replace ((right r - left r) mod (mask r + 1)) with ((q - d) * S)
        by (modcase (right r - left r) (mask r + 1); nia).
      assert (0 < d < q) by nia.
      rewrite w64_small by nia. rewrite Z.div_add_l, (Z.div_small (S - 1)), Z.div_mul by lia.
      destruct (Z.eqb_spec (q - d + 0) 0), (Z.eqb_spec (q - d) (2 ^ 64)); nia.
Qed.

(** A positive answer of [contains_range] is sound on one domain, unless [self] is a
    strided whole circle, whose residue class the code does not compare. *)
Theorem contains_range_sound (self op2 : circle_range) : wf self -> wf op2 ->
  mask self = mask op2 ->
  (isempty self = false -> left self = right self -> step self = 1) ->
  contains_range self op2 = true -> forall v, denotes op2 v -> denotes self v.
Proof.
  intros H1 H2 Hm Hfull. unfold contains_range.
  destruct (isempty self) eqn:E1; [intros E2 v Hv; by apply denotes_empty in Hv|].
  destruct (isempty op2) eqn:E2; [intros _ v Hv; by apply denotes_empty in Hv|].
  pose proof (wf_left _ H1 E1). pose proof (wf_right _ H1 E1).
  pose proof (wf_left _ H2 E2). pose proof (wf_right _ H2 E2).
  pose proof (wf_phase _ H2 E2) as Hp2.
  shape H1. replace (step64 self) with (step self).
  (* [op2]'s values are in its own class modulo [self]'s stride when that stride divides *)
  assert (Hcls : (step self | step op2) \/ is_single op2 = true ->
    forall v, denotes op2 v -> v mod step self = left op2 mod step self).
  { intros [Hd|Hs] v Hv.
    - apply denotes_arc in Hv as (_ & _ & Hv & _); [|done].
      pose proof (shaped_facts _ (wf_shape _ H2)) as (? & _).
      apply mod_eq_sub in Hv; [|lia]. apply mod_eq_sub; [lia|].
      apply Z.mod_divide in Hv; [|lia]. apply Z.mod_divide; [lia|]. by etrans.
    - by apply is_single_denotes in Hv as ->. }
  assert (Hdiv : step self <= step op2 -> (step self | step op2)).
  { destruct (sh_step _ (wf_shape _ H1)) as (s1 & ? & Es1).
    destruct (sh_step _ (wf_shape _ H2)) as (s2 & ? & Es2). rewrite Es1, Es2. intros Hle.
    apply pow2_divide. split; [lia|]. by apply Z.pow_le_mono_r_iff in Hle; [|lia..]. }
  assert (is_single op2 = true \/ step self <= step op2 ->
    forall v, denotes op2 v -> v mod step self = left op2 mod step self) as Hcl by tauto.
  clear Hcls Hdiv Hp2.
  match goal with |- (if ?c then false else ?e) = true -> _ =>
    assert (Htail : (is_single op2 = true \/ step self <= step op2) -> e = true ->
      forall v, denotes op2 v -> denotes self v); [|destruct c eqn:Ec; [done|]]
  end.
  - intros Hor Hc v Hv. pose proof (denotes_range _ _ H2 Hv) as Hr.
    pose proof (Hcl Hor v Hv) as Hvp. apply denotes_arc in Hv as (_ & _ & _ & Ha); [|done].
    apply denotes_arc; [done|]. split; [done|]. split; [lia|]. revert Hc.
    destruct (Z.eqb_spec (left self) (right self)) as [Ef|Ef].
    { rewrite (Hfull eq_refl Ef), !Z.mod_1_r. unfold arc. lia. }
    destruct (Z.eqb_spec (left op2) (right op2)); [done|].
    destruct (Z.eqb_spec (left self mod step self) (left op2 mod step self)) as [Hph|]; [|done].
    cbn [negb]. intros Hc. split; [congruence|]. unfold arc in *. revert Hc.
    destruct (Z.eqb_spec (left self) (left op2)), (Z.eqb_spec (right self) (right op2));
      cbn [andb]; try lia;
      destruct (encode_overlap (left self) (right self) (left op2) (right op2)); cbn;
      intros; try done; lia.
  - apply Htail. destruct (is_single op2); [by left|right].
    destruct (Z.ltb_spec (step op2) (step self)); [done|lia].
Qed.

(** ** Complement *)

Lemma complement_denotes (a : circle_range) (v : Z) : wf a -> step a = 1 -> 0 <= v <= mask a ->
  wf (complement a) /\ (denotes (complement a) v <-> ~ denotes a v).
Proof.
  intros H Hs Hv. shape H. unfold dom in *.
  assert (Hw : forall l rt e, (e = false -> 0 <= l <= mask a /\ 0 <= rt <= mask a) ->
    wf (CR l rt (mask a) e 1)).
  { intros l rt e He. split; cbn; [|tauto..|by rewrite !Z.mod_1_r].
    apply (shaped_ext a); cbn; auto using wf_shape. }
  unfold complement. rewrite Hs. destruct (isempty a) eqn:E.
  - assert (wf (CR 0 0 (mask a) false 1)) as W by (apply Hw; lia). split; [done|].
    rewrite denotes_CR, !Z.mod_1_r by done. pose proof (denotes_empty a v E). unfold arc. tauto.
  - pose proof (wf_left _ H E). pose proof (wf_right _ H E).
    assert (denotes a v <-> arc (left a) (right a) v) as Hda
      by (rewrite denotes_arc, Hs, !Z.mod_1_r by done; tauto).
    unfold with_empty, with_bounds. rewrite Hs, E.
    destruct (Z.eqb_spec (left a) (right a)); (split; [by apply Hw|]).
    + pose proof (denotes_empty (CR (left a) (right a) (mask a) true 1) v eq_refl).
      rewrite Hda. unfold arc. tauto.
    + rewrite denotes_CR, Hda, !Z.mod_1_r by (by apply Hw). unfold arc. lia.
Qed.

Lemma complement_fields (r : circle_range) :
  mask (complement r) = mask r /\ step (complement r) = step r.
Proof. unfold complement. destruct (isempty r), (left r =? right r); by cbn. Qed.

Lemma denotes_dec (r : circle_range) (v : Z) : wf r -> 0 <= v <= mask r ->
  denotes r v \/ ~ denotes r v.
Proof.
  intros H Hv. rewrite <- contains_val_denotes by done. destruct (contains_val r v); auto.
Qed.

(** [invert] of an unstrided range denotes exactly the other values of the domain, and
    inverting twice gives the set back. *)
Theorem invert_exact (r : circle_range) (v : Z) : wf r -> step r = 1 -> 0 <= v <= mask r ->
  (denotes (fst (invert r)) v <-> ~ denotes r v) /\
  (denotes (fst (invert (fst (invert r)))) v <-> denotes r v).
Proof.
  intros H Hs Hv. unfold invert. cbn [fst].
  assert (forall a, step a = 1 -> with_step a 1 = a) as Hid
    by (intros [l rt m e s]; unfold with_step; cbn; by intros ->).
  rewrite (Hid r Hs).
  destruct (complement_denotes r v H Hs Hv) as [W D].
  destruct (complement_fields r) as [M S]. rewrite Hs in S.
  rewrite (Hid _ S).
  destruct (complement_denotes (complement r) v W S ltac:(lia)) as [_ D'].
  split; [done|]. rewrite D', D. pose proof (denotes_dec r v H Hv). tauto.
Qed.

(** * The theorems at work *)

(** [0xfe, 0xff, 0, 1] joined with [0, 4, ..., 0xfc] is not one range; joined with [2, 3] it is. *)
Lemma circle_union_spec_witness :
  set_result (CR 254 2 255 false 1) (fun v => denotes (CR 254 2 255 false 1) v \/ denotes (CR 2 4 255 false 1) v)
    (CR 254 4 255 false 1, 0).
Proof.
  apply (circle_union_spec (CR 254 2 255 false 1) (CR 2 4 255 false 1));
    apply (wfb_wf 8 0); reflexivity.
Defined.

(** Two even-strided arcs, one across zero. *)
Lemma intersect_exact_witness :
  set_result (CR 250 20 255 false 2) (fun v => denotes (CR 250 20 255 false 2) v /\ denotes (CR 10 40 255 false 2) v)
    (CR 10 20 255 false 2, 0).
Proof.
  apply (intersect_exact (CR 250 20 255 false 2) (CR 10 40 255 false 2));
    [apply (wfb_wf 8 1); reflexivity..|reflexivity|reflexivity|reflexivity].
Defined.

Lemma intersect_sound_witness :
  denotes (fst (intersect (CR 0 256 65535 false 1) (CR 10 40 255 false 1))) 12.
Proof.
  apply (intersect_sound (CR 0 256 65535 false 1) (CR 10 40 255 false 1) 12);
    [apply (wfb_wf 16 0); reflexivity|apply (wfb_wf 8 0); reflexivity|reflexivity|reflexivity
    |apply (denotes_check 16 0); reflexivity|apply (denotes_check 8 0); reflexivity].
Defined.

Lemma contains_size_spec_witness :
  contains_val (CR 250 6 255 false 4) 2 = true /\ get_size (CR 250 6 255 false 4) = 3 /\
  denotes (CR 250 6 255 false 4) 2.
Proof.
  destruct (contains_size_spec (CR 250 6 255 false 4)) as [Hc Hs];
    [apply (wfb_wf 8 2); reflexivity|].
  split; [reflexivity|]. split; [exact Hs|]. apply Hc; [cbn; lia|reflexivity].
Defined.

Lemma contains_range_sound_witness :
  denotes (CR 10 6 255 false 4) 22.
Proof.
  apply (contains_range_sound (CR 10 6 255 false 4) (CR 18 26 255 false 4));
    [apply (wfb_wf 8 2); reflexivity..|reflexivity|intros _ H; discriminate H|reflexivity|].
  apply (denotes_check 8 2). reflexivity.
Defined.

Lemma invert_exact_witness :
  denotes (fst (invert (CR 250 6 255 false 1))) 100 /\ ~ denotes (CR 250 6 255 false 1) 100.
Proof.
  destruct (invert_exact (CR 250 6 255 false 1) 100) as [H _];
    [apply (wfb_wf 8 0); reflexivity|reflexivity|cbn; lia|].
  assert (denotes (fst (invert (CR 250 6 255 false 1))) 100) as D by (apply (denotes_check 8 0); reflexivity).
  split; [exact D|by apply H].
Defined.

(** * What the set operations do not promise *)

(** A strided whole circle is reported to contain ranges of other residue classes. *)
Lemma contains_range_phase :
  contains_range (CR 0 0 7 false 2) (CR 1 2 7 false 1) = true /\
  denotes (CR 1 2 7 false 1) 1 /\ ~ denotes (CR 0 0 7 false 2) 1.
Proof.
  split; [reflexivity|]. split; [apply (denotes_check 3 0); reflexivity|].
  rewrite <- contains_val_denotes; [discriminate|apply (wfb_wf 3 1); reflexivity|cbn; lia].
Qed.

(** Restating the smaller stride reports an empty result when rounding the bounds reverses their
    order: [0 .. 0xfc] and the multiples of four have common values. *)
Lemma intersect_restride_empty :
  isempty (fst (intersect (CR 0 253 255 false 1) (CR 0 0 255 false 4))) = true /\
  snd (intersect (CR 0 253 255 false 1) (CR 0 0 255 false 4)) = 0 /\
  denotes (CR 0 253 255 false 1) 8 /\ denotes (CR 0 0 255 false 4) 8.
Proof.
  split; [reflexivity|]. split; [reflexivity|].
  split; [apply (denotes_check 8 0)|apply (denotes_check 8 2)]; reflexivity.
Qed.
