(* ===== verification/CircleRangePull.v ===== *)
(** [pull_back_unary], [pull_back_binary] and [translate2_op] of [CircleRange] against the
    p-code semantics of [PcodeSem]: the range of inputs that reach a range of outputs. *)
From Stdlib Require Import Ascii String ZArith Lia Bool List.
From stdpp Require Import base tactics.
From S2P Require Import Prelude OpCode BitUtil PcodeSem CircleRange CircleRangeSpec CircleRangeSets.
Local Open Scope Z_scope.

(** A well-formed range over the values of [size] bytes. *)
Record range_of (size : Z) (r : circle_range) : Prop := {
  ro_wf : wf r;
  ro_mask : mask r = modulus size - 1;
}.

(** The comparisons, whose outcome is one of two values. *)
Definition is_compare (opc : opcode) : bool :=
  match opc with
  | IntEqual | IntNotequal | IntLess | IntLessequal | IntSless | IntSlessequal | IntCarry => true
  | _ => false
  end.

(** The constant [c] in slot [cslot], the variable [x] in the other. *)
Definition eval_with_const (opc : opcode) (in_size out_size c cslot x : Z) : option Z :=
  if cslot =? 0 then eval_binary opc in_size out_size c x
  else eval_binary opc in_size out_size x c.

Lemma range_of_dom (size : Z) (r : circle_range) : range_of size r -> dom r = modulus size.
Proof. intros [_ H]. unfold dom. lia. Qed.

Lemma calc_mask_range (size : Z) : valid_size size ->
  calc_mask_i32 size = modulus size - 1 /\ exists k, 1 <= k <= 64 /\ modulus size - 1 = Z.ones k.
Proof.
  intros Hs. split; [by apply calc_mask_modulus|]. exists (8 * size). unfold valid_size in Hs.
  split; [lia|]. unfold modulus. rewrite ones_pow; lia.
Qed.

Lemma shaped_size (size s : Z) (l r : Z) (e : bool) : valid_size size -> 0 <= s <= 7 ->
  shaped (CR l r (modulus size - 1) e (2 ^ s)).
Proof.
  intros Hv Hs. unfold valid_size in *. apply (shaped_of _ (8 * size) s); cbn [mask step]; try lia.
  unfold modulus. rewrite ones_pow; lia.
Qed.

(** Unstrided ranges over the values of [size] bytes. *)
Lemma range1 (size l r : Z) (e : bool) : valid_size size ->
  (e = false -> is_value size l /\ is_value size r) ->
  range_of size (CR l r (modulus size - 1) e 1).
Proof.
  intros Hv He. unfold is_value in He. split; [|done].
  split; cbn [left right mask isempty step];
    [by apply (shaped_size size 0); [|lia]|intros E; specialize (He E); lia..|by rewrite !Z.mod_1_r].
Qed.

Lemma denotes1 (m l r v : Z) : wf (CR l r m false 1) ->
  denotes (CR l r m false 1) v <-> 0 <= v <= m /\ arc l r v.
Proof. intros H. rewrite denotes_CR, !Z.mod_1_r by done. tauto. Qed.

(** ** Affine operations: negation, complement, adding a constant *)

(** A rotation or reflection of the circle: the image arc has the image members. *)
Lemma rotate_denotes (r : circle_range) (c x : Z) : wf r -> isempty r = false ->
  0 <= x <= mask r ->
  let r' := with_bounds r ((left r - c) mod dom r) ((right r - c) mod dom r) in
  wf r' /\ (denotes r' x <-> denotes r ((x + c) mod dom r)).
Proof.
  intros H He Hx r'. shape H. pose proof (wf_phase _ H He) as Hph.
  assert (forall y, 0 <= y mod dom r <= mask r) as Hb
    by (intros y; pose proof (Z.mod_pos_bound y (dom r)); unfold dom in *; lia).
  assert (forall y, (y mod dom r) mod step r = y mod step r) as Hmm
    by (intros; by apply Z.mod_mod_divide).
  assert (wf r') as Hw.
  { split; cbn; auto; [by apply (shaped_ext r); auto using wf_shape|].
    intros _. rewrite !Hmm. apply mod_eq_sub; [lia|].
    apply mod_eq_sub in Hph; [|lia]. rewrite <- Hph. f_equal. lia. }
  split; [done|]. rewrite !denotes_rot by done. cbn. change (dom r') with (dom r).
  rewrite !Hmm, !Zminus_mod_idemp_l, !Zminus_mod_idemp_r.
  replace (x - (left r - c)) with (x + c - left r) by lia.
  replace (right r - c - (left r - c)) with (right r - left r) by lia.
  assert (x mod step r = (left r - c) mod step r <-> (x + c) mod step r = left r mod step r) as ->.
  { rewrite !mod_eq_sub by lia. by replace (x - (left r - c)) with (x + c - left r) by lia. }
  assert ((left r - c) mod dom r = (right r - c) mod dom r <-> left r = right r) as ->.
  { pose proof (wf_left _ H He). pose proof (wf_right _ H He).
    rewrite mod_eq_sub by lia. replace (left r - c - (right r - c)) with (left r - right r) by lia.
    unfold dom in *. split; [|intros ->; by rewrite Z.sub_diag].
    intros Hz. apply mod_zero_small in Hz; lia. }
  pose proof (Hb (x + c)). tauto.
Qed.

Lemma reflect_denotes (r : circle_range) (c x : Z) : wf r -> isempty r = false ->
  0 <= x <= mask r ->
  let r' := with_bounds r ((c - right r + step r) mod dom r) ((c - left r + step r) mod dom r) in
  wf r' /\ (denotes r' x <-> denotes r ((c - x) mod dom r)).
Proof.
  intros H He Hx r'. shape H. pose proof (wf_phase _ H He) as Hph.
  pose proof (wf_left _ H He). pose proof (wf_right _ H He).
  set (M := dom r) in *. set (S := step r) in *.
  assert (forall y, 0 <= y mod M < M) as Hb by (intros y; apply Z.mod_pos_bound; lia).
  assert (forall y, (y mod M) mod S = y mod S) as Hmm by (intros; by apply Z.mod_mod_divide).
  assert (M = mask r + 1) by reflexivity.
  assert (wf r') as Hw.
  { split; cbn; fold M S; intros; [by apply (shaped_ext r); auto using wf_shape| | |].
    - pose proof (Hb (c - right r + S)). lia.
    - pose proof (Hb (c - left r + S)). lia.
    - rewrite !Hmm. apply mod_eq_sub; [lia|]. apply mod_eq_sub in Hph; [|lia].
      rewrite <- Hph. f_equal. lia. }
  split; [done|]. rewrite !denotes_rot by done. cbn. change (dom r') with M. fold M S.
  rewrite !Hmm, !Zminus_mod_idemp_l, !Zminus_mod_idemp_r.
  replace (c - left r + S - (c - right r + S)) with (right r - left r) by lia.
  replace (x - (c - right r + S)) with (right r - left r - S - (c - x - left r)) by lia.
  assert (x mod S = (c - right r + S) mod S <-> (c - x) mod S = left r mod S) as ->.
  { rewrite !mod_eq_sub by lia. apply mod_eq_sub in Hph; [|lia].
    rewrite !Z.mod_divide in * by lia.
    split; intros; [replace (c - x - left r) with (right r - left r - S - (x - (c - right r + S))) by lia
                   |replace (x - (c - right r + S)) with (right r - left r - S - (c - x - left r)) by lia];
    (apply Z.divide_sub_r; [|done]); (apply Z.divide_sub_r; [|apply Z.divide_refl]);
    by replace (right r - left r) with (- (left r - right r)) by lia; apply Z.divide_opp_r. }
  assert ((c - right r + S) mod M = (c - left r + S) mod M <-> left r = right r) as ->.
  { rewrite mod_eq_sub by lia.
    replace (c - right r + S - (c - left r + S)) with (left r - right r) by lia.
    split; [|intros ->; by rewrite Z.sub_diag].
    intros Hz. apply mod_zero_small in Hz; lia. }
  destruct (Z.eq_dec ((c - x) mod S) (left r mod S)) as [Hc|]; [|tauto].
  (* with [d] the arc's length and [t] the offset of the reflected point, both multiples of [S]:
     the reflected offset is [d - S - t] *)
  set (d := (right r - left r) mod M). set (t := (c - x - left r) mod M).
  assert ((right r - left r - S - (c - x - left r)) mod M = (d - S - t) mod M) as ->
    by (symmetry; apply mod_sub3; lia).
  pose proof (Hb (right r - left r)) as Hd. pose proof (Hb (c - x - left r)) as Ht. fold d in Hd. fold t in Ht.
  assert (d mod S = 0) as HdS by (unfold d; rewrite Hmm; apply mod_eq_sub; congruence || lia).
  assert (t mod S = 0) as HtS by (unfold t; rewrite Hmm; apply mod_eq_sub; lia || done).
  assert (left r <> right r -> d <> 0) as Hd0.
  { intros Hne Hd0. apply mod_zero_small in Hd0; lia. }
  assert (M mod S = 0) as HMS by (apply Z.mod_divide; [lia|done]).
  pose proof (multiple_lt t d S ltac:(lia) HtS HdS). pose proof (multiple_lt t M S ltac:(lia) HtS HMS).
  pose proof (multiple_lt 0 d S ltac:(lia) (Z.mod_0_l S ltac:(lia)) HdS).
  assert (0 <= (c - x) mod M <= mask r) as Hcx by (pose proof (Hb (c - x)); lia).
  assert (left r = right r \/ left r <> right r) as [|Hne] by lia; [tauto|].
  pose proof (Hd0 Hne).
  assert ((d - S - t) mod M < d <-> t < d) by (modcase (d - S - t) M; lia).
  tauto.
Qed.

(** ** Unary operations *)

Lemma mod_dom_small (r : circle_range) (x : Z) : 0 <= x <= mask r -> x mod dom r = x.
Proof. intros. apply Z.mod_small. unfold dom. lia. Qed.

Lemma pull_back_empty (r : circle_range) (x y : Z) :
  isempty r = true -> denotes r x <-> denotes r y.
Proof. intros H. pose proof (denotes_empty r x H). pose proof (denotes_empty r y H). tauto. Qed.

(** Pulling a range (of any stride) back through COPY, INT_2COMP or INT_NEGATE gives exactly
    the inputs whose output lies in the range. *)
Theorem pull_back_unary_exact (size : Z) (r r' : circle_range) (opc : opcode) (x y : Z) :
  valid_size size -> range_of size r -> is_value size x ->
  opc = Copy \/ opc = Int2comp \/ opc = IntNegate ->
  pull_back_unary r opc size size = (r', true) ->
  eval_unary opc size size x = Some y ->
  range_of size r' /\ (denotes r' x <-> denotes r y).
Proof.
  intros Hs [H Hm] Hx Hop Hpb Hev. pose proof (range_of_dom size r (Build_range_of _ _ H Hm)) as Hd.
  unfold is_value in Hx. unfold pull_back_unary in Hpb.
  destruct (isempty r) eqn:E; [injection Hpb as <-; split; [by split|by apply pull_back_empty]|].
  shape H. unfold eval_unary, wrap in Hev. rewrite <- Hd in Hev.
  destruct Hop as [ -> | [ -> | -> ]].
  - injection Hpb as <-. injection Hev as <-. rewrite mod_dom_small by lia. split; [by split|done].
  - injection Hpb as <-. injection Hev as <-. wsimpl.
    replace (step64 r) with (step r) in *. rewrite !land_mask by apply wf_shape, H.
    destruct (reflect_denotes r 0 x H E ltac:(lia)) as [W D].
    replace (Z.lnot (left r) + 1 + step r) with (0 - left r + step r) by (unfold Z.lnot; lia).
    replace (Z.lnot (right r) + 1 + step r) with (0 - right r + step r) by (unfold Z.lnot; lia).
    split; [by split|]. rewrite D. by replace (0 - x) with (- x) by lia.
  - injection Hpb as <-. injection Hev as <-. wsimpl.
    replace (step64 r) with (step r) in *. rewrite !land_mask by apply wf_shape, H.
    destruct (reflect_denotes r (-1) x H E ltac:(lia)) as [W D].
    replace (Z.lnot (left r) + step r) with (-1 - left r + step r) by (unfold Z.lnot; lia).
    replace (Z.lnot (right r) + step r) with (-1 - right r + step r) by (unfold Z.lnot; lia).
    split; [by split|]. rewrite D. by replace (-1 - x) with (Z.lnot x) by (unfold Z.lnot; lia).
Qed.

(** Pulling back through INT_ADD of a constant, or INT_SUB of a constant, gives exactly the
    inputs whose output lies in the range. *)
Theorem pull_back_add_exact (size : Z) (r r' : circle_range) (opc : opcode) (slot val x y : Z) :
  valid_size size -> range_of size r -> is_value size x ->
  opc = IntAdd /\ (slot = 0 \/ slot = 1) \/ opc = IntSub /\ slot = 0 ->
  pull_back_binary r opc val slot size size = (r', true) ->
  eval_with_const opc size size val (1 - slot) x = Some y ->
  range_of size r' /\ (denotes r' x <-> denotes r y).
Proof.
  intros Hs [H Hm] Hx Hop Hpb Hev. pose proof (range_of_dom size r (Build_range_of _ _ H Hm)) as Hd.
  unfold is_value in Hx. unfold pull_back_binary in Hpb.
  destruct (isempty r) eqn:E; [injection Hpb as <-; split; [by split|by apply pull_back_empty]|].
  unfold eval_with_const, eval_binary, wrap in Hev. rewrite <- Hd in Hev.
  destruct Hop as [[-> Hslot] | [-> ->]].
  - injection Hpb as <-. assert (y = (x + val) mod dom r) as ->
      by (destruct (1 - slot =? 0); injection Hev as <-; f_equal; lia).
    wsimpl. rewrite !land_mask by apply wf_shape, H.
    destruct (rotate_denotes r val x H E ltac:(lia)) as [W D]. by split; [split|].
  - injection Hpb as <-. cbn in Hev. injection Hev as <-. wsimpl.
    rewrite !land_mask by apply wf_shape, H.
    destruct (rotate_denotes r (- val) x H E ltac:(lia)) as [W D].
    replace (left r + val) with (left r - - val) by lia.
    replace (right r + val) with (right r - - val) by lia.
    split; [by split|]. rewrite D. by replace (x + - val) with (x - val) by lia.
Qed.

(** ** Comparisons *)

(** What coercing to a boolean range leaves: the outcomes the range held. *)
Lemma convert_to_boolean_spec (r : circle_range) : wf r -> isempty r = false -> 1 <= mask r ->
  let '(b, both) := convert_to_boolean r in
  step b = 1 /\ mask b = 255 /\
  (both = true <-> denotes r 0 /\ denotes r 1) /\
  (both = false ->
     (isempty b = false /\ left b = 0 /\ denotes r 0 /\ ~ denotes r 1) \/
     (isempty b = false /\ left b = 1 /\ ~ denotes r 0 /\ denotes r 1) \/
     (isempty b = true /\ left b <> 0 /\ ~ denotes r 0 /\ ~ denotes r 1)).
Proof.
  intros H E Hm. unfold convert_to_boolean. rewrite E.
  pose proof (contains_val_denotes r 0 H ltac:(lia)) as D0.
  pose proof (contains_val_denotes r 1 H ltac:(lia)) as D1.
  assert (contains_val r 0 = false -> contains_val r 1 = false -> left r <> 0) as Hl.
  { intros C0 _ Hl. rewrite C0 in D0. assert (denotes r 0) as D; [|by apply D0 in D].
    apply denotes_rot; [done|]. rewrite Hl. repeat split; try lia; try done.
    destruct (Z.eq_dec 0 (right r)); [by left|right].
    pose proof (wf_right _ H E). shape H.
    rewrite Z.sub_diag, Z.mod_0_l, Z.mod_small; unfold dom in *; lia. }
  destruct (contains_val r 0), (contains_val r 1); cbn; intuition congruence.
Qed.

(** The comparison shared by the arms, for a region that denotes the inputs of the true outcome
    and keeps an empty range empty. *)
Lemma pull_back_compare_spec (r : circle_range) (in_size x : Z) (b : bool)
    (region : circle_range -> circle_range) :
  valid_size in_size -> range_of 1 r -> isempty r = false -> is_value in_size x ->
  ~ (denotes r 0 /\ denotes r 1) ->
  (forall a, isempty a = true -> isempty (region a) = true /\ mask (region a) = mask a
     /\ step (region a) = step a) ->
  (forall a, isempty a = false -> mask a = modulus in_size - 1 -> step a = 1 ->
     range_of in_size (region a) /\ step (region a) = 1 /\
     (denotes (region a) x <-> b = true)) ->
  range_of in_size (pull_back_compare r in_size region) /\
  (denotes (pull_back_compare r in_size region) x <-> denotes r (b2z b)).
Proof.
  intros Hs [H Hm] E Hx Hnb Hempty Hregion. unfold pull_back_compare, is_value in *.
  pose proof (convert_to_boolean_spec r H E) as Hc. rewrite Hm in Hc. specialize (Hc ltac:(cbn; lia)).
  destruct (convert_to_boolean r) as [c both]. destruct Hc as (Hcs & _ & Hb & Hcase).
  destruct both; [tauto|]. destruct (calc_mask_range in_size Hs) as [Hcm _].
  set (a := with_mask c (calc_mask_i32 in_size)).
  assert (mask a = modulus in_size - 1) as Ham by done.
  assert (step a = 1) as Has by done.
  change (left a) with (left c). change (isempty c) with (isempty a) in *.
  destruct (Hcase eq_refl) as [(Ee & Hl & D0 & D1)|[(Ee & Hl & D0 & D1)|(Ee & Hl & D0 & D1)]].
  - destruct (Hregion a Ee Ham Has) as ([W M] & S & D). rewrite Hl. cbn [Z.eqb complement_if].
    destruct (complement_denotes (region a) x W S ltac:(lia)) as [Wc Dc].
    split; [split; [done|]|].
    + destruct (complement_fields (region a)). congruence.
    + rewrite Dc, D. destruct b; cbn; intuition congruence.
  - destruct (Hregion a Ee Ham Has) as ([W M] & S & D). rewrite Hl. cbn [Z.eqb complement_if].
    split; [by split|]. rewrite D. destruct b; cbn; intuition congruence.
  - destruct (Hempty a Ee) as (Re & Rm & Rs). destruct (Z.eqb_spec (left c) 0); [done|]. cbn [complement_if].
    split; [split; [|congruence]|].
    + apply wf_empty; [|done]. apply (shaped_ext (CR 0 0 (modulus in_size - 1) false 1)); cbn; [lia|lia|].
      by apply (shaped_size in_size 0); [|lia].
    + pose proof (denotes_empty (region a) x Re). destruct b; cbn; tauto.
Qed.

Lemma half_mask (size : Z) : valid_size size ->
  u64_add (Z.shiftr (modulus size - 1) 1) 1 = modulus size / 2 /\
  Z.shiftr (modulus size - 1) 1 = modulus size / 2 - 1.
Proof.
  intros Hs. pose proof (modulus_half size Hs). pose proof (modulus_ge size Hs).
  assert (Z.shiftr (modulus size - 1) 1 = modulus size / 2 - 1) as ->.
  { rewrite Z.shiftr_div_pow2 by lia. symmetry. apply (Z.div_unique _ _ _ 1); lia. }
  split; [|done]. wsimpl. rewrite w64_small; lia.
Qed.

(** [C33] Pulling a boolean range that excludes one outcome back through an integer comparison
    with a constant on either side gives exactly the inputs whose outcome lies in it. *)
Theorem pull_back_compare_exact (in_size : Z) (r r' : circle_range) (opc : opcode)
    (slot val x y : Z) :
  valid_size in_size -> range_of 1 r -> is_value in_size x -> is_value in_size val ->
  is_compare opc = true -> slot = 0 \/ slot = 1 ->
  ~ (denotes r 0 /\ denotes r 1) ->
  pull_back_binary r opc val slot in_size 1 = (r', true) ->
  eval_with_const opc in_size 1 val (1 - slot) x = Some y ->
  isempty r = false ->
  range_of in_size r' /\ (denotes r' x <-> denotes r y).
Proof.
  intros Hs Hr Hx Hv Hop Hslot Hnb Hpb Hev E. unfold pull_back_binary in Hpb. rewrite E in Hpb.
  pose proof (modulus_half in_size Hs) as Hh. pose proof (modulus_ge in_size Hs) as Hge.
  pose proof (half_mask in_size Hs) as [Hm1 Hm2].
  unfold is_value, eval_with_const in *.
  assert (Hland : forall z, Z.land (w64 z) (modulus in_size - 1) = z mod modulus in_size).
  { intros z. destruct (calc_mask_range in_size Hs) as (_ & k & Hk & Ek). rewrite Ek.
    rewrite ones_pow in Ek by lia. replace (modulus in_size) with (2 ^ k) by lia.
    apply land_ones_w64. lia. }
  destruct opc; try discriminate; injection Hpb as <-; revert Hev;
    destruct Hslot as [-> | ->]; cbn [Z.sub Z.eqb Z.add Z.opp Z.pos_sub Pos.pred_double eval_binary];
    intros Hev; injection Hev as <-;
    (apply pull_back_compare_spec; [done..|by intros a Ha; repeat case_match|]);
    intros a Ea Em Es; unfold with_bounds, with_empty, signed in *; rewrite ?Ea, ?Em, ?Es, ?Hm1, ?Hm2;
    wsimpl; rewrite ?Hland;
    try (modcase (val + 1) (modulus in_size)); try (modcase (modulus in_size - 1 - val + 1) (modulus in_size));
    cmp; rewrite ?Bool.negb_true_iff; 
    match goal with
    | |- range_of _ (CR ?l ?rt ?m ?e ?s) /\ _ =>
        assert (range_of in_size (CR l rt m e s)) as HR
          by (apply range1; [done|unfold is_value; intros; (discriminate || lia)])
    end;
    (split; [done|]; split; [done|]);
    destruct HR as [HW _];
    match goal with
    | |- denotes (CR _ _ _ true _) _ <-> _ =>
        split; [intros Hd; by apply denotes_empty in Hd|intros; exfalso; (discriminate || lia)]
    | |- _ => rewrite denotes1 by done; unfold arc; lia
    end.
Qed.

(** ** Right shifts *)

(** The quotient by a power of two against a bound. *)
Lemma div_pow_lt (x p b : Z) : 0 < p -> (x / p < b <-> x < b * p).
Proof.
  intros Hp. split; intros.
  - pose proof (Z.mod_pos_bound x p Hp). pose proof (Z.div_mod x p). nia.
  - apply Z.div_lt_upper_bound; lia.
Qed.

Lemma scaled_land (size p c : Z) : valid_size size -> 0 < p -> 0 <= c -> c * p <= modulus size ->
  (c * p) mod modulus size = if c * p =? modulus size then 0 else c * p.
Proof.
  intros Hs Hp Hc Hle. pose proof (modulus_pos size Hs).
  destruct (Z.eqb_spec (c * p) (modulus size)) as [->|].
  - apply Z.mod_same. lia.
  - apply Z.mod_small. nia.
Qed.

Lemma land_modulus (size z : Z) : valid_size size ->
  Z.land (w64 z) (modulus size - 1) = z mod modulus size.
Proof.
  intros Hs. destruct (calc_mask_range size Hs) as (_ & k & Hk & Ek). rewrite Ek.
  rewrite ones_pow in Ek by lia. replace (modulus size) with (2 ^ k) by lia.
  apply land_ones_w64. lia.
Qed.

(** the shift distances below the width *)
Lemma shift_facts (size val : Z) : valid_size size -> 0 <= val < 8 * size ->
  exists q, modulus size = q * 2 ^ val /\ 0 < 2 ^ val /\ 2 <= q /\ val mod 64 = val /\
    u64_shr (modulus size - 1) val = q - 1 /\
    (forall z, u64_shl z val = w64 (z * 2 ^ val)) /\ (8 * size - val < 64 -> q < 2 ^ 64).
Proof.
  unfold valid_size. intros Hs Hval. pose proof (pow2_pos val ltac:(lia)).
  exists (2 ^ (8 * size - val)).
  assert (modulus size = 2 ^ (8 * size - val) * 2 ^ val) as E
    by (unfold modulus; rewrite <- Z.pow_add_r by lia; f_equal; lia).
  assert (2 ^ 1 <= 2 ^ (8 * size - val)) by (apply Z.pow_le_mono_r; lia).
  assert (val mod 64 = val) as Em by (apply Z.mod_small; lia).
  split; [done|]. split; [done|]. split; [lia|]. split; [done|]. split.
  - unfold u64_shr. rewrite Em, Z.shiftr_div_pow2, E by lia.
    symmetry. apply (Z.div_unique _ _ _ (2 ^ val - 1)); lia.
  - split; [|intros; apply Z.pow_lt_mono_r; lia].
    intros z. unfold u64_shl. by rewrite Em, Z.shiftl_mul_pow2 by lia.
Qed.

Lemma set_if_empty_denotes (size l r x : Z) : valid_size size ->
  is_value size l -> is_value size r -> is_value size x ->
  let s := set_if_empty (CR l r (modulus size - 1) false 1) in
  range_of size s /\ (denotes s x <-> l <> r /\ arc l r x).
Proof.
  intros Hs Hl Hr Hx s. unfold s, set_if_empty. cbn. unfold is_value in *.
  destruct (Z.eqb_spec l r).
  - split; [by apply range1|]. unfold with_empty. cbn.
    pose proof (denotes_empty (CR l r (modulus size - 1) true 1) x eq_refl). tauto.
  - assert (range_of size (CR l r (modulus size - 1) false 1)) as HR by (by apply range1).
    split; [done|]. destruct HR as [HW _]. rewrite denotes1 by done. 
    assert (0 <= x <= modulus size - 1) by lia. tauto.
Qed.

(** Pulling an unstrided range back through INT_RIGHT by a constant distance below the width
    (not the shift of an 8-byte value by zero, where the bound wraps to 0) gives exactly the inputs whose shifted value lies in the range. *)
Theorem pull_back_right_exact (size : Z) (r r' : circle_range) (val x y : Z) :
  valid_size size -> range_of size r -> is_value size x -> 0 <= val < 8 * size ->
  8 * size - val < 64 -> isempty r = false -> step r = 1 ->
  pull_back_binary r IntRight val 0 size size = (r', true) ->
  eval_binary IntRight size size x val = Some y ->
  range_of size r' /\ (denotes r' x <-> denotes r y).
Proof.
  intros Hs [H Hm] Hx Hval Hv64 E Hst Hpb Hev. unfold pull_back_binary in Hpb.
  rewrite E, Hst in Hpb. cbn [Z.eqb negb orb Pos.eqb] in Hpb.
  pose proof (wf_left _ H E). pose proof (wf_right _ H E). pose proof (modulus_ge size Hs).
  destruct (shift_facts size val Hs Hval) as (q & Eq & Hp & Hq & _ & Hshr & Hshl & Hq64).
  specialize (Hq64 Hv64).
  rewrite (calc_mask_modulus size Hs) in Hpb. rewrite Hshr in Hpb.
  assert (u64_add (q - 1) 1 = q) as Hrb by (wsimpl; rewrite w64_small; lia).
  rewrite Hrb in Hpb. cbn in Hev. injection Hev as <-. unfold is_value in *.
  set (p := 2 ^ val) in *.
  assert (0 <= x / p < q) as Hxq by (split; [apply Z.div_pos; lia|apply div_pow_lt; lia]).
  unfold wrap. rewrite (Z.mod_small (x / p)) by nia.
  assert (denotes r (x / p) <-> arc (left r) (right r) (x / p)) as ->.
  { rewrite denotes_arc, Hst, !Z.mod_1_r by done.
    assert (0 <= x / p <= mask r) by nia. tauto. }
  pose proof (div_pow_lt x p (left r) Hp) as Dl. pose proof (div_pow_lt x p (right r) Hp) as Dr.
  pose proof (div_pow_lt x p q Hp) as Dq.
  unfold with_bounds in Hpb. rewrite Hm, E, Hst in Hpb. unfold arc.
  match type of Hpb with context [if ?c then _ else _] => destruct c eqn:Ec end.
  - injection Hpb as <-.
    assert (range_of size (CR 0 0 (modulus size - 1) false 1)) as HR
      by (apply range1; [done|unfold is_value; lia]).
    split; [done|]. destruct HR as [HW _]. rewrite denotes1 by done. unfold arc. lia.
  - injection Hpb as <-.
    set (l := if q <? left r then q else left r) in *. set (rt := if q <? right r then 0 else right r) in *.
    rewrite !Hshl, !land_modulus by done.
    assert (0 <= l <= q /\ 0 <= rt <= q) as [Hl Hrt] by (unfold l, rt; cmp; lia).
    assert (forall a, 0 <= a <= q -> 0 <= a * p <= modulus size /\ (a * p = modulus size <-> a = q)) as Hsc.
    { intros a Ha. rewrite Eq. pose proof (Z.mul_le_mono_nonneg_r a q p). split; [nia|].
      split; [intros Hap; by apply Z.mul_cancel_r in Hap; [|lia]|by intros ->]. }
    destruct (Hsc l Hl) as [? Hlq], (Hsc rt Hrt) as [? Hrq].
    rewrite (scaled_land size p l), (scaled_land size p rt) by (done || lia).
    match goal with |- range_of _ (set_if_empty (CR ?a ?b _ _ _)) /\ _ =>
      destruct (set_if_empty_denotes size a b x Hs) as [HR HD];
        [unfold is_value; destruct (Z.eqb_spec (l * p) (modulus size)); lia
        |unfold is_value; destruct (Z.eqb_spec (rt * p) (modulus size)); lia|done|] end.
    split; [done|]. rewrite HD. unfold arc.
    assert (left r < right r <-> left r * p < right r * p) by (apply Z.mul_lt_mono_pos_r; lia).
    assert (right r < left r <-> right r * p < left r * p) by (apply Z.mul_lt_mono_pos_r; lia).
    assert (left r < q <-> left r * p < q * p) by (apply Z.mul_lt_mono_pos_r; lia).
    assert (right r < q <-> right r * p < q * p) by (apply Z.mul_lt_mono_pos_r; lia).
    assert (0 < left r <-> 0 * p < left r * p) by (apply Z.mul_lt_mono_pos_r; lia).
    assert (0 < right r <-> 0 * p < right r * p) by (apply Z.mul_lt_mono_pos_r; lia).
    rewrite Eq in *.
    subst l rt. clear HD HR Hshl Hshr Hrb Hlq Hrq Hsc.
    destruct (Z.ltb_spec q (left r)), (Z.ltb_spec q (right r)); rewrite ?Z.mul_0_l in *;
    generalize dependent (left r * p); intros A; intros;
    generalize dependent (right r * p); intros B; intros;
    generalize dependent (q * p); intros M; intros; rewrite ?Z.eqb_refl;
      repeat match goal with |- context [?a =? ?b] => destruct (Z.eqb_spec a b) end; cmp; lia.
Qed.

(** * The theorems at work *)

Lemma pull_back_unary_exact_witness :
  range_of 1 (CR 246 253 255 false 1) /\
  (denotes (CR 246 253 255 false 1) 250 <-> denotes (CR 4 11 255 false 1) 6).
Proof.
  apply (pull_back_unary_exact 1 (CR 4 11 255 false 1) (CR 246 253 255 false 1) Int2comp 250 6);
    [unfold valid_size; lia|split; [apply (wfb_wf 8 0)|]; reflexivity|unfold is_value; cbn; lia
    |tauto|reflexivity|reflexivity].
Defined.

Lemma pull_back_add_exact_witness :
  range_of 1 (CR 240 0 255 false 4) /\
  (denotes (CR 240 0 255 false 4) 248 <-> denotes (CR 4 20 255 false 4) 12).
Proof.
  apply (pull_back_add_exact 1 (CR 4 20 255 false 4) (CR 240 0 255 false 4) IntAdd 0 20 248 12);
    [unfold valid_size; lia|split; [apply (wfb_wf 8 2)|]; reflexivity|unfold is_value; cbn; lia
    |tauto|reflexivity|reflexivity].
Defined.

Lemma pull_back_compare_exact_witness :
  range_of 2 (CR 32768 16 65535 false 1) /\
  (denotes (CR 32768 16 65535 false 1) 65535 <-> denotes (CR 1 2 255 false 1) 1).
Proof.
  apply (pull_back_compare_exact 2 (CR 1 2 255 false 1) (CR 32768 16 65535 false 1) IntSless 0 16 65535 1);
    [unfold valid_size; lia|split; [apply (wfb_wf 8 0)|]; reflexivity|unfold is_value; cbn; lia
    |unfold is_value; cbn; lia|reflexivity|tauto| |reflexivity|reflexivity|reflexivity].
  rewrite <- contains_val_denotes; [intros [H _]; discriminate H|apply (wfb_wf 8 0); reflexivity|cbn; lia].
Defined.

Lemma pull_back_right_exact_witness :
  range_of 1 (CR 16 48 255 false 1) /\
  (denotes (CR 16 48 255 false 1) 47 <-> denotes (CR 2 6 255 false 1) 5).
Proof.
  apply (pull_back_right_exact 1 (CR 2 6 255 false 1) (CR 16 48 255 false 1) 3 47 5);
    [unfold valid_size; lia|split; [apply (wfb_wf 8 0)|]; reflexivity|unfold is_value; cbn; lia
    |lia|lia|reflexivity|reflexivity|reflexivity|reflexivity].
Defined.

(** * What the pull-back does not promise *)

(** [INT_SUB] with the constant first reflects the circle; the arm reflects the bounds without
    exchanging them: the input 1 of [5 - x] in [3 .. 5) is lost. *)
Lemma pull_back_sub_reversed :
  pull_back_binary (CR 3 5 255 false 1) IntSub 5 1 1 1 = (CR 2 0 255 false 1, true) /\
  eval_with_const IntSub 1 1 5 0 1 = Some 4 /\ denotes (CR 3 5 255 false 1) 4 /\
  ~ denotes (CR 2 0 255 false 1) 1.
Proof.
  split; [reflexivity|]. split; [reflexivity|]. split; [apply (denotes_check 8 0); reflexivity|].
  rewrite <- contains_val_denotes; [discriminate|apply (wfb_wf 8 0); reflexivity|cbn; lia].
Qed.

(** With both outcomes in the range every input qualifies, but the arm answers [0 .. 2). *)
Lemma pull_back_compare_both :
  pull_back_binary (CR 0 2 255 false 1) IntLess 100 0 1 1 = (CR 0 2 255 false 1, true) /\
  eval_with_const IntLess 1 1 100 1 50 = Some 1 /\ denotes (CR 0 2 255 false 1) 1 /\
  ~ denotes (CR 0 2 255 false 1) 50.
Proof.
  split; [reflexivity|]. split; [reflexivity|]. split; [apply (denotes_check 8 0); reflexivity|].
  rewrite <- contains_val_denotes; [discriminate|apply (wfb_wf 8 0); reflexivity|cbn; lia].
Qed.

(** The bound of an 8-byte shift by zero wraps to 0 and empties the range. *)
Lemma pull_back_right_zero :
  isempty (fst (pull_back_binary (CR 3 5 (2 ^ 64 - 1) false 1) IntRight 0 0 8 8)) = true.
Proof. reflexivity. Qed.
