(* ===== verification/CircleRangePush.v ===== *)
(** [push_forward_unary], the addition arm of [push_forward_binary] and [translate2_op] of
    [CircleRange] against the p-code semantics of [PcodeSem]: the pushed range holds the output
    of every input of the range, and the comparison a range is translated to holds exactly on
    the values of the range. *)
From Stdlib Require Import ZArith Lia Bool List.
From stdpp Require Import base tactics.
From S2P Require Import Prelude OpCode BitUtil PcodeSem CircleRange CircleRangeSpec CircleRangePull.
Local Open Scope Z_scope.

(** ** Canonical bounds *)

(** A full range with its bounds anywhere in its residue class. *)
Lemma denotes_full (l m s v : Z) : wf (CR l l m false s) ->
  denotes (CR l l m false s) v <-> 0 <= v <= m /\ v mod s = l mod s.
Proof. intros H. rewrite denotes_CR by done. unfold arc. tauto. Qed.

Lemma normalize_same (r : circle_range) : wf r -> isempty r = false ->
  wf (normalize r) /\ mask (normalize r) = mask r /\ same_set (normalize r) r.
Proof.
  intros H E. unfold normalize, same_set.
  destruct (Z.eqb_spec (left r) (right r)) as [Hlr|]; [|done].
  shape H. replace (step64 r) with (step r).
  pose proof (wf_left _ H E). unfold with_bounds. rewrite E.
  set (l := if negb (step r =? 1) then _ else _).
  assert (0 <= l <= mask r /\ l mod step r = left r mod step r) as [Hl Hc].
  { unfold l. destruct (Z.eqb_spec (step r) 1) as [Es|]; cbn [negb].
    - rewrite Es, !Z.mod_1_r. lia.
    - rewrite Z.mod_mod by lia. pose proof (Z.mod_pos_bound (left r) (step r)).
      pose proof (Z.mod_le (left r) (step r)). lia. }
  assert (wf (CR l l (mask r) false (step r))) as W
    by (apply wf_bounds; [apply wf_shape, H|lia|lia|done]).
  split; [done|]. split; [done|]. intros v. rewrite denotes_full by done.
  rewrite denotes_arc by done. rewrite Hc, <- Hlr. unfold arc. tauto.
Qed.

(** ** Sign extension *)

Lemma modulus_split (a b : Z) : valid_size a -> valid_size b -> a < b ->
  exists q, modulus b = q * modulus a /\ 256 <= q.
Proof.
  unfold valid_size, modulus. intros. exists (2 ^ (8 * (b - a))). split.
  - rewrite <- Z.pow_add_r by lia. f_equal. lia.
  - change 256 with (2 ^ 8). apply Z.pow_le_mono_r; lia.
Qed.

(** The value [sign_extend] computes with shifts is the signed reading of its input. *)
Lemma sign_extend_spec (in_size out_size x : Z) :
  valid_size in_size -> valid_size out_size -> in_size < out_size -> is_value in_size x ->
  sign_extend x in_size out_size = wrap out_size (signed in_size x).
Proof.
  intros Hi Ho Hlt Hx. pose proof (modulus_half in_size Hi) as Hh.
  pose proof (modulus_ge in_size Hi). pose proof (signed_range in_size x Hi Hx) as Hsr.
  unfold is_value, valid_size in *.
  assert (w64 (i64 x) = x) as Ex.
  { assert (modulus in_size <= 2 ^ 56) by (apply Z.pow_le_mono_r; lia).
    rewrite <- (w64_small x) at 1 by lia. rewrite i64_small, w64_small; lia. }
  unfold sign_extend. rewrite !Z.min_l, Ex, w32_small by lia.
  set (k := (8 - in_size) * 8). set (j := (8 - out_size) * 8).
  assert (modulus in_size * 2 ^ k = 2 ^ 64) as Ek
    by (unfold modulus, k; rewrite <- Z.pow_add_r by lia; f_equal; lia).
  assert (modulus out_size * 2 ^ j = 2 ^ 64) as Ej
    by (unfold modulus, j; rewrite <- Z.pow_add_r by lia; f_equal; lia).
  assert (2 ^ k = 2 ^ j * 2 ^ ((out_size - in_size) * 8)) as Ekj
    by (unfold k, j; rewrite <- Z.pow_add_r by lia; f_equal; lia).
  pose proof (pow2_pos k ltac:(lia)). pose proof (pow2_pos j ltac:(lia)).
  pose proof (pow2_pos ((out_size - in_size) * 8) ltac:(lia)).
  assert (i64 (u64_shl x k) = signed in_size x * 2 ^ k) as ->.
  { unfold u64_shl. rewrite (Z.mod_small k), Z.shiftl_mul_pow2 by lia.
    rewrite <- (i64_small (signed in_size x * 2 ^ k)) by nia. f_equal. unfold signed.
    cmp; [done|]. rewrite Z.mul_sub_distr_r, Ek. unfold w64.
    rewrite <- (Z.mod_add (x * 2 ^ k - 2 ^ 64) 1) by lia. f_equal. lia. }
  unfold i64_shr, u64_shr. rewrite (Z.mod_small ((_ - _) * 8)) by lia.
  rewrite (Z.mod_small ((8 - out_size) * 8)) by lia. fold j.
  rewrite !Z.shiftr_div_pow2, Ekj, Z.mul_assoc, Z.div_mul by lia.
  unfold w64, wrap. change 18446744073709551616 with (2 ^ 64). rewrite <- Ej.
  rewrite Z.mul_mod_distr_r, Z.div_mul by (unfold modulus; lia || (pose proof (pow2_pos (8 * out_size)); lia)).
  done.
Qed.

(** ** Unary operations *)

(** The stride of a range kept over a larger domain. *)
Lemma resize_range (in_size out_size : Z) (in1 : circle_range) (l rt : Z) :
  valid_size in_size -> valid_size out_size -> in_size < out_size -> range_of in_size in1 ->
  is_value out_size l -> is_value out_size rt -> l mod step in1 = rt mod step in1 ->
  range_of out_size (CR l rt (modulus out_size - 1) false (step in1)).
Proof.
  intros Hi Ho Hlt [H Hm] Hl Hr Hp. unfold is_value in *. split; [|done].
  apply (wf_bounds (CR l rt (modulus out_size - 1) false (step in1))); cbn; [|lia|lia|done].
  pose proof (modulus_ge in_size Hi).
  assert (modulus in_size <= modulus out_size)
    by (unfold modulus, valid_size in *; apply Z.pow_le_mono_r; lia).
  destruct (wf_shape _ H) as [_ (s & Hs & Es) Hdiv]. unfold dom in Hdiv. rewrite Hm, Es in Hdiv.
  unfold valid_size in *. rewrite Es. apply (shaped_of _ (8 * out_size) s); cbn [mask step]; try lia.
  - destruct (Z.le_gt_cases s (8 * out_size)); [done|].
    apply Z.divide_pos_le in Hdiv; [|lia].
    assert (modulus out_size <= 2 ^ s) by (apply Z.pow_le_mono_r; lia).
    replace (modulus in_size - 1 + 1) with (modulus in_size) in Hdiv by lia.
    assert (modulus in_size < modulus out_size); [|lia].
    unfold modulus. apply Z.pow_lt_mono_r; lia.
  - unfold modulus. rewrite ones_pow; lia.
Qed.

(** The last value of a range that is not full, and where the range lies when it does not wrap. *)
Lemma last_value (r : circle_range) : wf r -> isempty r = false -> left r <> right r ->
  let e := (right r - step r) mod dom r in
  0 <= e <= mask r /\ e mod step r = left r mod step r /\
  (forall x, denotes r x -> (left r <= e -> left r <= x <= e) /\ (e < left r -> x <= e \/ left r <= x)).
Proof.
  intros H E Hne e. shape H. pose proof (wf_left _ H E). pose proof (wf_right _ H E).
  pose proof (wf_phase _ H E) as Hph. unfold e, dom in *.
  pose proof (Z.mod_pos_bound (right r - step r) (mask r + 1) ltac:(lia)).
  split; [lia|]. split.
  - rewrite Z.mod_mod_divide by done. rewrite Hph.
    replace (right r - step r) with (right r + -1 * step r) by lia. apply Z.mod_add. lia.
  - intros x Hx. apply denotes_arc in Hx as (_ & Hx & Hc & Ha); [|done]. unfold arc in Ha.
    pose proof (Z.mod_le x (step r)). pose proof (Z.mod_le (left r) (step r)).
    assert ((mask r + 1) mod step r = 0) as HM by (apply Z.mod_divide; [lia|done]).
    assert (x < right r <-> x + step r <= right r) as Hxr.
    { pose proof (multiple_lt 0 (right r - x) (step r)) as Hml.
      rewrite Z.mod_0_l in Hml by lia. rewrite Hph in Hc. symmetry in Hc. apply mod_eq_sub in Hc; [|lia].
      specialize (Hml ltac:(lia) eq_refl Hc). lia. }
    assert (x + step r <= mask r + 1 + left r mod step r) as Hxm.
    { pose proof (multiple_lt (x - left r mod step r) (mask r + 1) (step r)) as Hml.
      assert ((x - left r mod step r) mod step r = 0) as Hz
        by (rewrite Zminus_mod_idemp_r; apply mod_eq_sub; lia).
      specialize (Hml ltac:(lia) Hz HM). pose proof (Z.mod_pos_bound (left r) (step r)). lia. }
    modcase (right r - step r) (mask r + 1); try lia.
    rewrite (Z.mod_small (right r)) in Hph by lia. lia.
Qed.

Lemma residue_unit (in_size : Z) (in1 : circle_range) (k : Z) : range_of in_size in1 -> valid_size in_size ->
  (k + modulus in_size) mod step in1 = k mod step in1.
Proof.
  intros [H Hm] Hs. shape H. assert (dom in1 = modulus in_size) as Hd by (unfold dom; lia).
  rewrite Hd in *. destruct (ltac:(eassumption) : (step in1 | modulus in_size)) as [q ->].
  apply Z.mod_add. lia.
Qed.

(** The arcs [push_forward_unary] builds for zero extension. *)
Lemma push_zext (in_size out_size : Z) (in1 r self : circle_range) (x : Z) :
  valid_size in_size -> valid_size out_size -> in_size < out_size ->
  range_of in_size in1 -> denotes in1 x ->
  push_forward_unary self IntZext in1 in_size out_size = (r, true) ->
  range_of out_size r /\ denotes r x.
Proof.
  intros Hi Ho Hlt HR Hd Hp. pose proof (resize_range in_size out_size in1) as Hsz.
  pose proof (residue_unit in_size in1) as Hu. pose proof (range_of_dom _ _ HR) as Hdom.
  destruct HR as [H Hm]. pose proof Hd as Hx. apply denotes_arc in Hx as (E & Hx & Hc & Ha); [|done].
  unfold push_forward_unary in Hp. rewrite E, (calc_mask_modulus out_size Ho) in Hp.
  destruct (modulus_split in_size out_size Hi Ho Hlt) as (q & Eq & Hq).
  pose proof (modulus_ge in_size Hi). pose proof (modulus_ge out_size Ho). shape H.
  assert (2 * modulus in_size <= modulus out_size) by nia.
  pose proof (wf_left _ H E). pose proof (wf_right _ H E).
  replace (step64 in1) with (step in1) in *. unfold is_value in Hsz.
  pose proof (Z.mod_pos_bound (left in1) (step in1) ltac:(lia)). wsimpl.
  destruct (Z.eqb_spec (left in1) (right in1)) as [Elr|Nlr].
  - injection Hp as <-. replace (mask in1 + 1) with (modulus in_size) by lia. rewrite w64_small by lia.
    assert (range_of out_size (CR (left in1 mod step in1) (modulus in_size + left in1 mod step in1)
              (modulus out_size - 1) false (step in1))) as HR.
    { apply Hsz; [done..|lia|lia|]. rewrite Z.add_comm. symmetry. by apply Hu. }
    split; [done|]. destruct HR as [W _]. apply denotes_CR; [done|].
    rewrite Z.mod_mod by lia. split; [lia|]. split; [done|]. left.
    rewrite <- Hc in *. pose proof (Z.mod_le x (step in1)). lia.
  - rewrite land_mask in Hp by apply wf_shape, H.
    destruct (last_value in1 H E Nlr) as (He & Hec & Hin). specialize (Hin x Hd).
    set (e := (right in1 - step in1) mod dom in1) in *.
    destruct (Z.ltb_spec e (left in1)); [discriminate|]. injection Hp as <-. rewrite w64_small by lia.
    assert (range_of out_size (CR (left in1) (e + step in1) (modulus out_size - 1) false (step in1))) as HR.
    { apply Hsz; [done..|lia|lia|]. replace (e + step in1) with (e + 1 * step in1) by lia.
      rewrite Z.mod_add by lia. done. }
    split; [done|]. destruct HR as [W _]. apply denotes_CR; [done|]. split; [lia|]. split; [done|].
    left. lia.
Qed.

(** The order [push_forward_unary] tests after sign extending: the two ends as [i64]s. *)
Lemma extended_order (in_size out_size l e : Z) :
  valid_size in_size -> valid_size out_size -> in_size < out_size ->
  is_value in_size l -> is_value in_size e ->
  let sl := signed in_size l in let se := signed in_size e in
  (i64 (wrap out_size se) <? i64 (wrap out_size sl)) = false ->
  (sl <= se /\ (out_size = 8 \/ (0 <= sl <-> 0 <= se))) \/ (0 <= sl /\ se < 0 /\ out_size < 8).
Proof.
  intros Hi Ho Hlt Hl He sl se Hle. apply Z.ltb_ge in Hle.
  pose proof (signed_range in_size l Hi Hl) as Hsl. pose proof (signed_range in_size e Hi He) as Hse.
  fold sl in Hsl. fold se in Hse. pose proof (modulus_half in_size Hi). pose proof (modulus_ge in_size Hi).
  destruct (modulus_split in_size out_size Hi Ho Hlt) as (q & Eq & Hq). unfold wrap in Hle.
  assert (modulus in_size < modulus out_size) by nia.
  destruct (Z.eq_dec out_size 8) as [->|Hne].
  - change (modulus 8) with 18446744073709551616 in *.
    change (sl mod 18446744073709551616) with (w64 sl) in Hle.
    change (se mod 18446744073709551616) with (w64 se) in Hle.
    rewrite !i64_small in Hle by lia. lia.
  - assert (modulus out_size <= 2 ^ 56)
      by (unfold modulus, valid_size in *; apply Z.pow_le_mono_r; lia).
    pose proof (Z.mod_pos_bound sl (modulus out_size)). pose proof (Z.mod_pos_bound se (modulus out_size)).
    rewrite <- (w64_small (sl mod _)), <- (w64_small (se mod _)) in Hle by lia.
    rewrite !i64_small in Hle by lia. unfold valid_size in *.
    modcase sl (modulus out_size); modcase se (modulus out_size); lia.
Qed.

(** A stride below the domain divides half of it. *)
Lemma step_half (in_size : Z) (r : circle_range) : valid_size in_size -> range_of in_size r ->
  step r < modulus in_size -> (step r | modulus in_size / 2).
Proof.
  intros Hs [H Hm] Hlt. destruct (wf_shape _ H) as [_ (s & Hk & Es) _]. rewrite Es in *.
  unfold valid_size, modulus in *.
  assert (2 ^ (8 * in_size) / 2 = 2 ^ (8 * in_size - 1)) as ->.
  { change 2 with (2 ^ 1) at 2. rewrite <- Z.pow_sub_r by lia. done. }
  apply pow2_divide. apply Z.pow_lt_mono_r_iff in Hlt; lia.
Qed.

Lemma divide_mod_add (a k s : Z) : 0 < s -> (s | k) -> (a + k) mod s = a mod s.
Proof. intros Hs [q ->]. apply Z.mod_add. lia. Qed.

Lemma signed_residue (in_size : Z) (r : circle_range) (x : Z) : valid_size in_size -> range_of in_size r ->
  signed in_size x mod step r = x mod step r.
Proof.
  intros Hs HR. unfold signed. cmp; [done|].
  rewrite <- (residue_unit in_size r) by done. f_equal. lia.
Qed.

(** The upper half of the larger domain, as the source writes it. *)
Lemma upper_half (in_size out_size : Z) : valid_size in_size -> valid_size out_size -> in_size < out_size ->
  Z.lxor (modulus out_size - 1) (modulus in_size / 2 - 1) = modulus out_size - modulus in_size / 2.
Proof.
  intros Hi Ho Hlt. pose proof (modulus_half in_size Hi).
  destruct (modulus_split in_size out_size Hi Ho Hlt) as (q & Eq & Hq).
  assert (modulus in_size / 2 = 2 ^ (8 * in_size - 1)) as Eh.
  { unfold modulus. change 2 with (2 ^ 1) at 2. unfold valid_size in *. rewrite <- Z.pow_sub_r by lia. done. }
  unfold valid_size in *. set (h := modulus in_size / 2) in *.
  assert (h - 1 = Z.ones (8 * in_size - 1)) as Ho1 by (rewrite ones_pow; lia).
  assert (Z.land (modulus out_size - h) (h - 1) = 0) as Hl.
  { rewrite Ho1, Z.land_ones, <- Eh by lia. apply Z.mod_divide; [lia|]. exists (2 * q - 1). lia. }
  replace (modulus out_size - 1) with (modulus out_size - h + (h - 1)) by lia.
  rewrite (Z.add_nocarry_lxor _ _ Hl), Z.lxor_assoc, Z.lxor_nilpotent, Z.lxor_0_r. done.
Qed.

(** The arcs [push_forward_unary] builds for sign extension: the whole domain. *)
Lemma push_sext_full (in_size out_size : Z) (in1 : circle_range) (x : Z) :
  valid_size in_size -> valid_size out_size -> in_size < out_size ->
  range_of in_size in1 -> step in1 < modulus in_size -> is_value in_size x ->
  x mod step in1 = left in1 mod step in1 ->
  let h := modulus in_size / 2 in let rem := left in1 mod step in1 in
  let r := CR (modulus out_size - h + rem) (h + rem) (modulus out_size - 1) false (step in1) in
  range_of out_size r /\ denotes r (wrap out_size (signed in_size x)).
Proof.
  intros Hi Ho Hlt HR Hstep Hx Hc h rem r. pose proof (signed_residue in_size in1 x Hi HR) as Hsx.
  pose proof (signed_range in_size x Hi Hx) as Hsr. pose proof (modulus_half in_size Hi) as Hh.
  pose proof (step_half in_size in1 Hi HR Hstep) as Hdiv. pose proof (modulus_ge in_size Hi).
  destruct (modulus_split in_size out_size Hi Ho Hlt) as (q & Eq & Hq).
  assert (step in1 | modulus out_size - h) as Hdo.
  { destruct Hdiv as [k Ek]. exists (q * 2 * k - k). unfold h. lia. }
  assert (step in1 | modulus out_size) as Hdm.
  { destruct Hdiv as [k Ek]. exists (q * 2 * k). lia. }
  fold h in Hdiv, Hsr, Hh. assert (0 < step in1) as Hs by (destruct HR as [HW _]; shape HW; lia).
  assert (step in1 <= h) by (apply Z.divide_pos_le; lia || done).
  pose proof (Z.mod_pos_bound (left in1) (step in1) Hs) as Hrem. fold rem in Hrem, Hc.
  assert (range_of out_size r) as HRr.
  { apply (resize_range in_size); unfold is_value; try done; try nia.
    rewrite !(Z.add_comm _ rem), !divide_mod_add by done. done. }
  split; [done|]. destruct HRr as [W _]. apply denotes_CR; [done|].
  set (sx := signed in_size x) in *. pose proof (Z.mod_le (sx + h) (step in1)) as Hle.
  rewrite divide_mod_add in Hle by done. unfold wrap. split; [|split].
  - pose proof (Z.mod_pos_bound sx (modulus out_size)). nia.
  - rewrite Z.mod_mod_divide, Hsx, Hc by done. rewrite Z.add_comm, divide_mod_add by done.
    unfold rem. symmetry. apply Z.mod_mod. lia.
  - unfold arc. assert (512 * h <= modulus out_size) by nia. modcase sx (modulus out_size); lia.
Qed.

(** The extended arc in integers: [2 * h] values read as signed, [l] and [e] the ends, [v] a value
    between them, [m] the larger domain. *)
Lemma extended_arc (h m st l e v : Z) : 0 < h -> 512 * h <= m -> 0 < st <= h ->
  - h <= l < h -> - h <= e < h -> - h <= v < h ->
  let u z := if z <? 0 then z + 2 * h else z in
  (u l <= u e -> u l <= u v <= u e) -> (u e < u l -> u v <= u e \/ u l <= u v) ->
  l <= e /\ (0 <= l -> 0 <= e) \/ 0 <= l /\ e < 0 ->
  (0 <= e + st -> e < 0 -> 0 <= l -> e + st <= l) ->
  arc (l mod m) ((e mod m + st) mod m) (v mod m).
Proof.
  intros Hh Hm Hst Hl He Hv u H1 H2 Ho Hw. unfold u in *. clear u. unfold arc.
  assert (forall z, - h <= z < h -> z mod m = if z <? 0 then z + m else z) as Hmod
    by (intros z Hz; cmp; modcase z m; lia).
  rewrite (Hmod l), (Hmod e), (Hmod v) by done. clear Hmod.
  destruct (Z.ltb_spec l 0), (Z.ltb_spec e 0), (Z.ltb_spec v 0); try lia;
    match goal with |- context [?a mod m] => modcase a m end; lia.
Qed.

(** The same for the arc between the extended ends. *)
Lemma push_sext_arc (in_size out_size : Z) (in1 : circle_range) (x : Z) :
  valid_size in_size -> valid_size out_size -> in_size < out_size ->
  range_of in_size in1 -> step in1 < modulus in_size -> denotes in1 x -> left in1 <> right in1 ->
  let e := (right in1 - step in1) mod dom in1 in
  let l' := wrap out_size (signed in_size (left in1)) in let e' := wrap out_size (signed in_size e) in
  (i64 e' <? i64 l') = false ->
  let r := CR l' ((e' + step in1) mod modulus out_size) (modulus out_size - 1) false (step in1) in
  range_of out_size r /\ denotes r (wrap out_size (signed in_size x)).
Proof.
  intros Hi Ho Hlt HR Hstep Hd Hne e l' e' Hord r.
  pose proof (range_of_dom _ _ HR) as Hdom. pose proof HR as [H Hm].
  pose proof Hd as Hx. apply denotes_rot in Hx as (E & Hx & Hc & _); [|done].
  destruct (last_value in1 H E Hne) as (He & Hec & Hin). specialize (Hin x Hd). fold e in He, Hec, Hin.
  pose proof (wf_left _ H E) as Hl. pose proof (modulus_ge in_size Hi). pose proof (modulus_half in_size Hi).
  pose proof (step_half in_size in1 Hi HR Hstep) as Hdiv. shape H.
  destruct (modulus_split in_size out_size Hi Ho Hlt) as (q & Eq & Hq).
  assert (step in1 | modulus out_size) as Hdm.
  { destruct Hdiv as [k Ek]. exists (q * 2 * k). lia. }
  assert (step in1 <= modulus in_size / 2) by (apply Z.divide_pos_le; lia || done).
  apply (extended_order in_size out_size) in Hord; [|done..|unfold is_value; lia|unfold is_value; lia].
  pose proof (signed_residue in_size in1 x Hi HR) as Hsx.
  pose proof (signed_residue in_size in1 e Hi HR) as Hse.
  pose proof (signed_residue in_size in1 (left in1) Hi HR) as Hsl.
  pose proof (signed_range in_size (left in1) Hi ltac:(unfold is_value; lia)) as Rl.
  pose proof (signed_range in_size e Hi ltac:(unfold is_value; lia)) as Re.
  pose proof (signed_range in_size x Hi ltac:(unfold is_value; lia)) as Rx.
  assert (512 * (modulus in_size / 2) <= modulus out_size) by nia.
  assert (range_of out_size r) as HRr.
  { apply (resize_range in_size); try done; [by apply wrap_value| |].
    - pose proof (Z.mod_pos_bound (e' + step in1) (modulus out_size)). unfold is_value. lia.
    - rewrite Z.mod_mod_divide by done. unfold l', e', wrap.
      replace (signed in_size e mod modulus out_size + step in1) with
        (signed in_size e mod modulus out_size + 1 * step in1) by lia.
      rewrite Z.mod_add, !Z.mod_mod_divide by lia || done. congruence. }
  split; [done|]. destruct HRr as [W _]. apply denotes_CR; [done|].
  unfold l', wrap. rewrite !Z.mod_mod_divide by done. split; [|split].
  - pose proof (Z.mod_pos_bound (signed in_size x) (modulus out_size)). lia.
  - congruence.
  - assert (0 <= signed in_size e + step in1 -> signed in_size e < 0 -> 
      0 <= signed in_size (left in1) -> signed in_size e + step in1 <= signed in_size (left in1)) as Hwrap.
    { intros. pose proof (Z.mod_le (signed in_size (left in1)) (step in1)).
      assert (signed in_size e mod step in1 = signed in_size e + step in1)
        by (symmetry; apply (Z.mod_unique_pos _ _ (-1)); lia).
      rewrite Hsl in *. rewrite <- Hec, <- Hse in *. lia. }
    assert (forall v, 0 <= v < modulus in_size -> v = 
      if signed in_size v <? 0 then signed in_size v + 2 * (modulus in_size / 2) else signed in_size v) as Hsg
      by (intros v Hv; unfold signed; cmp; lia).
    pose proof (Hsg (left in1) ltac:(lia)) as El. pose proof (Hsg x ltac:(lia)) as Ex.
    pose proof (Hsg e ltac:(lia)) as Ee.
    apply (extended_arc (modulus in_size / 2)); try (lia || done); rewrite <- El, <- Ex, <- Ee; tauto.
Qed.

Lemma push_sext (in_size out_size : Z) (in1 r self : circle_range) (x : Z) :
  valid_size in_size -> valid_size out_size -> in_size < out_size ->
  range_of in_size in1 -> step in1 < modulus in_size -> denotes in1 x ->
  push_forward_unary self IntSext in1 in_size out_size = (r, true) ->
  range_of out_size r /\ denotes r (wrap out_size (signed in_size x)).
Proof.
  intros Hi Ho Hlt HR Hstep Hd Hp. pose proof (range_of_dom _ _ HR) as Hdom. pose proof HR as [H Hm].
  pose proof Hd as Hx. apply denotes_rot in Hx as (E & Hx & Hc & _); [|done].
  pose proof (wf_left _ H E) as Hl. pose proof (wf_right _ H E) as Hr.
  unfold push_forward_unary in Hp. rewrite E, !calc_mask_modulus in Hp by done.
  pose proof (half_mask in_size Hi) as [_ Hhm]. rewrite Hhm, upper_half in Hp by done.
  pose proof (modulus_ge out_size Ho). pose proof (modulus_half in_size Hi). pose proof (modulus_ge in_size Hi).
  destruct (modulus_split in_size out_size Hi Ho Hlt) as (q & Eq & Hq). shape H.
  pose proof (step_half in_size in1 Hi HR Hstep) as Hdiv. apply Z.divide_pos_le in Hdiv; [|lia].
  pose proof (Z.mod_pos_bound (left in1) (step in1) ltac:(lia)).
  replace (step64 in1) with (step in1) in *. wsimpl.
  destruct (Z.eqb_spec (left in1) (right in1)) as [Elr|Nlr].
  - injection Hp as <-. rewrite !w64_small by nia.
    replace (modulus in_size / 2 - 1 + 1 + left in1 mod step in1)
      with (modulus in_size / 2 + left in1 mod step in1) by lia.
    apply push_sext_full; try done. unfold is_value. lia.
  - rewrite land_mask, Hdom in Hp by apply wf_shape, H.
    pose proof (Z.mod_pos_bound (right in1 - step in1) (modulus in_size) ltac:(lia)).
    rewrite !sign_extend_spec in Hp by (done || (unfold is_value; lia)).
    destruct (_ <? _) eqn:Ho'; [discriminate|]. injection Hp as <-.
    rewrite land_modulus by done. pose proof (push_sext_arc in_size out_size in1 x Hi Ho Hlt HR Hstep Hd Nlr) as Hfin.
    rewrite Hdom in Hfin. apply Hfin. exact Ho'.
Qed.

(** Pushing through a reflection [x -> c - x] of the circle. *)
Lemma push_reflect (size : Z) (r : circle_range) (c x : Z) :
  valid_size size -> range_of size r -> isempty r = false -> denotes r x ->
  let r' := normalize (CR (Z.land (w64 (c - right r + step r)) (mask r))
                          (Z.land (w64 (c - left r + step r)) (mask r)) (mask r) false (step r)) in
  range_of size r' /\ denotes r' (wrap size (c - x)).
Proof.
  intros Hs HR E Hd r'. pose proof (range_of_dom _ _ HR) as Hdom. destruct HR as [H Hm].
  pose proof (denotes_range _ _ H Hd) as Hx. pose proof (modulus_ge size Hs).
  unfold r', wrap. rewrite !land_mask by apply wf_shape, H. rewrite <- E.
  set (z := (c - x) mod modulus size).
  assert (0 <= z <= mask r) as Hz
    by (unfold z; pose proof (Z.mod_pos_bound (c - x) (modulus size)); lia).
  destruct (reflect_denotes r c z H E Hz) as [W D]. unfold with_bounds in *.
  destruct (normalize_same _ W E) as (Wn & Mn & Sn). split; [by split; [|rewrite Mn]|].
  apply Sn, D. unfold z. rewrite Hdom, Zminus_mod_idemp_r.
  replace (c - (c - x)) with x by lia. by rewrite Z.mod_small by lia.
Qed.

(** [C19] Pushing a range forward through a unary operation: when the push succeeds, the pushed
    range is well formed over the output size and holds the operation's result on every value of
    the input range. *)
Theorem push_forward_unary_sound (self in1 r : circle_range) (opc : opcode)
    (in_size out_size x y : Z) :
  valid_size in_size -> valid_size out_size -> unary_sizes opc in_size out_size = true ->
  range_of in_size in1 -> step in1 < modulus in_size -> denotes in1 x ->
  push_forward_unary self opc in1 in_size out_size = (r, true) ->
  eval_unary opc in_size out_size x = Some y ->
  range_of out_size r /\ denotes r y.
Proof.
  intros Hi Ho Hsz HR Hstep Hd Hp Hev. pose proof (range_of_dom _ _ HR) as Hdom. pose proof HR as [H Hm].
  pose proof (denotes_range _ _ H Hd) as Hx.
  assert (is_value in_size x) as Hv by (unfold is_value; lia).
  assert (isempty in1 = false) as E by (destruct (isempty in1) eqn:E; [by apply denotes_empty in Hd|done]).
  assert (opc <> Popcount) by (intros ->; unfold push_forward_unary in Hp; rewrite E in Hp; discriminate).
  assert (opc <> Lzcount) by (intros ->; unfold push_forward_unary in Hp; rewrite E in Hp; discriminate).
  destruct opc; try discriminate; try done; cbn [unary_sizes] in Hsz;
    try (apply Z.eqb_eq in Hsz); try (apply Z.ltb_lt in Hsz);
    [subst out_size| | |subst out_size|subst out_size|]; injection Hev as <-.
  - unfold push_forward_unary in Hp. rewrite E in Hp. injection Hp as <-. by rewrite wrap_small.
  - rewrite wrap_small; [by apply (push_zext in_size out_size in1 r self x)|].
    destruct (modulus_split in_size out_size Hi Ho Hsz) as (q & Eq & Hq). unfold is_value in *. nia.
  - by apply (push_sext in_size out_size in1 r self x).
  - unfold push_forward_unary in Hp. rewrite E in Hp. injection Hp as <-. wsimpl. shape H.
    replace (step64 in1) with (step in1).
    replace (Z.lnot (left in1) + 1 + step in1) with (0 - left in1 + step in1) by (unfold Z.lnot; lia).
    replace (Z.lnot (right in1) + 1 + step in1) with (0 - right in1 + step in1) by (unfold Z.lnot; lia).
    replace (- x) with (0 - x) by lia. by apply push_reflect.
  - unfold push_forward_unary in Hp. rewrite E in Hp. injection Hp as <-. wsimpl. shape H.
    replace (step64 in1) with (step in1).
    replace (Z.lnot (left in1) + step in1) with (-1 - left in1 + step in1) by (unfold Z.lnot; lia).
    replace (Z.lnot (right in1) + step in1) with (-1 - right in1 + step in1) by (unfold Z.lnot; lia).
    replace (Z.lnot x) with (-1 - x) by (unfold Z.lnot; lia). by apply push_reflect.
  - unfold push_forward_unary in Hp. rewrite E in Hp. injection Hp as <-. subst out_size.
    assert (range_of 1 boolean_result) as HR1 by (apply (range1 1); [done|by compute]).
    split; [done|]. destruct HR1 as [W _]. apply denotes1; [done|]. unfold arc. destruct (x =? 0); cbn; lia.
Qed.

(** ** Addition *)

(** Two elements at offsets [a], [b] of arcs of lengths [d1], [d2] (multiples of the strides). *)
Lemma offset_spec (r : circle_range) (x : Z) : wf r -> denotes r x -> left r <> right r ->
  exists d a, 0 < d < dom r /\ 0 <= a /\ a + step r <= d /\ (step r | a) /\ (step r | d) /\
    x mod dom r = (left r + a) mod dom r /\ right r mod dom r = (left r + d) mod dom r /\
    d = (if left r <? right r then right r - left r else right r - left r + dom r).
Proof.
  intros H Hd Hne. pose proof Hd as Hx. apply denotes_rot in Hx as (E & Hx & Hc & Ha); [|done].
  pose proof (wf_left _ H E). pose proof (wf_right _ H E). pose proof (wf_phase _ H E) as Hp. shape H.
  destruct Ha as [|Ha]; [done|]. unfold dom in *.
  set (m := mask r + 1) in *.
  assert ((step r | (right r - left r) mod m) /\ (step r | (x - left r) mod m)) as [Dd Da].
  { split; (apply Z.mod_divide; [lia|]); rewrite Z.mod_mod_divide by done; apply mod_eq_sub; lia. }
  exists ((right r - left r) mod m), ((x - left r) mod m).
  pose proof (Z.mod_pos_bound (x - left r) m ltac:(lia)).
  apply (multiple_lt _ _ (step r)) in Ha; [|lia|apply Z.mod_divide; lia || done..].
  repeat split; try done; try lia.
  - modcase (right r - left r) m; lia.
  - rewrite Zplus_mod_idemp_r. f_equal. lia.
  - rewrite Zplus_mod_idemp_r. f_equal. lia.
  - modcase (right r - left r) m; cmp; lia.
Qed.

Lemma step_min (size : Z) (a b : circle_range) : range_of size a -> range_of size b ->
  (Z.min (step a) (step b) | step a) /\ (Z.min (step a) (step b) | step b).
Proof.
  intros [Ha _] [Hb _].
  destruct (wf_shape _ Ha) as [_ (s & Hs & Es) _]. destruct (wf_shape _ Hb) as [_ (t & Ht & Et) _].
  rewrite Es, Et. destruct (Z.le_gt_cases s t).
  - rewrite Z.min_l by (apply Z.pow_le_mono_r; lia). split; [done|apply pow2_divide; lia].
  - rewrite Z.min_r by (apply Z.pow_le_mono_r; lia). split; [apply pow2_divide; lia|done].
Qed.

(** The sum of two arcs, when the test [push_forward_add] makes on the extents accepts it. *)
Lemma sum_arc (m s s1 s2 l d1 d2 a b r : Z) :
  0 < m -> 0 < s -> s <= s1 -> s <= s2 -> (s2 | m) -> (s2 | d2) ->
  0 < d1 < m -> 0 < d2 < m -> 0 <= a -> a + s1 <= d1 -> 0 <= b -> b + s2 <= d2 -> 0 <= l < m ->
  r = (l + (d1 + d2 - s1 - s2 + s)) mod m ->
  ((if l <? r then r - l else m - 1 - (l - r) + s) <? d1) = false ->
  l = r \/ (a + b) mod m < (r - l) mod m.
Proof.
  intros Hm Hs H1 H2 Dm D2 Hd1 Hd2 Ha Ha1 Hb Hb2 Hl Er Ht. apply Z.ltb_ge in Ht.
  assert (d2 + s2 <= m) as Hdm.
  { apply Z.mod_divide in Dm; [|lia]. apply Z.mod_divide in D2; [|lia].
    apply (multiple_lt d2 m s2); lia. }
  set (d := d1 + d2 - s1 - s2 + s) in *.
  assert ((r - l) mod m = d mod m) as Hd.
  { rewrite Er, Zminus_mod_idemp_l. f_equal. lia. }
  destruct (Z.eq_dec l r); [by left|right]. rewrite Hd.
  assert (d < m \/ d = m \/ m < d) as [Hlt|[Heq|Hgt]] by lia.
  - rewrite !Z.mod_small; lia.
  - exfalso. rewrite Heq in Er. assert ((l + m) mod m = l); [|congruence].
    symmetry. apply (Z.mod_unique_pos _ _ 1); lia.
  - exfalso. assert (r = if l + d - m <? m then l + d - m else l + d - 2 * m) as Er2.
    { rewrite Er. symmetry. destruct (Z.ltb_spec (l + d - m) m); [apply (Z.mod_unique_pos _ _ 1)|apply (Z.mod_unique_pos _ _ 2)]; lia. }
    clear Er Hd. unfold d in *. cmp; lia.
Qed.

(** Every member of the residue class of the sums is in the full range of that class. *)
Lemma push_add_full (size s l x y : Z) : valid_size size ->
  (forall a b e, shaped (CR a b (modulus size - 1) e s)) -> (x + y) mod s = l mod s ->
  let r := CR (w64 l mod w64 s) (w64 l mod w64 s) (modulus size - 1) false s in
  range_of size r /\ denotes r (wrap size (x + y)).
Proof.
  intros Hs Hsh Hc r. pose proof (modulus_ge size Hs).
  destruct (shaped_facts _ (Hsh 0 0 false)) as (Hs1 & _ & _ & Hs2 & _ & Hd). cbn in Hs1, Hs2, Hd.
  unfold dom in *. cbn in Hs1, Hd. replace (modulus size - 1 + 1) with (modulus size) in * by lia.
  assert (w64 l mod w64 s = l mod s) as El.
  { rewrite (w64_small s) by lia. unfold w64. apply Z.mod_mod_divide.
    apply (Z.divide_trans _ (modulus size)); [done|]. change 18446744073709551616 with (2 ^ 64).
    unfold modulus, valid_size in *. apply pow2_divide. lia. }
  unfold r. rewrite El. pose proof (Z.mod_pos_bound l s ltac:(lia)).
  assert (wf (CR (l mod s) (l mod s) (modulus size - 1) false s)) as W
    by (apply (wf_bounds (CR 0 0 (modulus size - 1) false s)); cbn; (apply Hsh || lia)).
  split; [by split|]. apply denotes_full; [done|].
  pose proof (wrap_value size (x + y) Hs) as Hv. unfold is_value in Hv. split; [lia|].
  unfold wrap. rewrite Z.mod_mod_divide, Z.mod_mod by lia || done. done.
Qed.

(** Adding a single value rotates the range. *)
Lemma push_add_single (size : Z) (in1 : circle_range) (c x : Z) :
  valid_size size -> range_of size in1 -> denotes in1 x ->
  let r := CR ((left in1 + c) mod modulus size) ((right in1 + c) mod modulus size)
             (modulus size - 1) false (step in1) in
  range_of size r /\ denotes r (wrap size (x + c)).
Proof.
  intros Hs HR Hd r. pose proof (range_of_dom _ _ HR) as Hdom. destruct HR as [H Hm].
  pose proof (denotes_range _ _ H Hd) as Hx. pose proof (wrap_value size (x + c) Hs) as Hv.
  unfold is_value in Hv.
  assert (isempty in1 = false) as E by (destruct (isempty in1) eqn:E; [by apply denotes_empty in Hd|done]).
  destruct (rotate_denotes in1 (- c) (wrap size (x + c)) H E ltac:(lia)) as [W D].
  unfold with_bounds in *. rewrite E, Hm, Hdom, !Z.sub_opp_r in *.
  split; [by split|]. apply D. unfold wrap. rewrite Zplus_mod_idemp_l.
  replace (x + c + - c) with x by lia. by rewrite Z.mod_small by lia.
Qed.

(** The arc between the sums of the ends, or the whole circle when it is too long. *)
Lemma push_add_arc (size : Z) (in1 in2 : circle_range) (x y : Z) (size1 sizenew r0 rt : Z) :
  valid_size size -> range_of size in1 -> range_of size in2 ->
  denotes in1 x -> denotes in2 y -> left in1 <> right in1 -> left in2 <> right in2 ->
  let s := Z.min (step in1) (step in2) in let m := modulus size in
  let l := (left in1 + left in2) mod m in
  r0 = (right in1 - step in1 + right in2 - step in2 + s) mod m ->
  size1 = (if left in1 <? right in1 then right in1 - left in1
           else w64 (m - 1 - (left in1 - right in1) + step in1)) ->
  sizenew = (if l <? r0 then r0 - l else w64 (m - 1 - (l - r0) + s)) ->
  rt = (if sizenew <? size1 then l else r0) ->
  (forall a b e, shaped (CR a b (m - 1) e s)) ->
  range_of size (CR l rt (m - 1) false s) /\ denotes (CR l rt (m - 1) false s) (wrap size (x + y)).
Proof.
  intros Hs HR1 HR2 Hx Hy N1 N2 s m l Er0 Es1 Esn Ert Hsh.
  pose proof (step_min size in1 in2 HR1 HR2) as [Ds1 Ds2]. fold s in Ds1, Ds2.
  pose proof (range_of_dom _ _ HR1) as Hd1. pose proof (range_of_dom _ _ HR2) as Hd2.
  destruct HR1 as [H1 Hm1], HR2 as [H2 Hm2]. pose proof (modulus_ge size Hs) as Hge. fold m in Hd1, Hd2, Hm1, Hm2, Hge |- *.
  destruct (offset_spec in1 x H1 Hx N1) as (d1 & a & Bd1 & Ba & Bad & Da & Dd1 & Ex & Erd1 & Ed1).
  destruct (offset_spec in2 y H2 Hy N2) as (d2 & b & Bd2 & Bb & Bbd & Db & Dd2 & Ey & Erd2 & Ed2).
  rewrite Hd1, Hd2 in *. shape H1. shape H2. rewrite Hd1, Hd2 in *.
  pose proof (wf_left _ H1 (proj1 Hx)). pose proof (wf_right _ H1 (proj1 Hx)).
  assert (0 <= l < m) as Hl by (apply Z.mod_pos_bound; lia).
  assert (0 < s /\ s <= step in1 /\ s <= step in2 /\ (s | m)) as (Hs0 & Hs1 & Hs2 & Hsm)
    by (split; [lia|split; [lia|split; [lia|by apply (Z.divide_trans _ (step in1))]]]).
  set (d := d1 + d2 - step in1 - step in2 + s) in *.
  assert (s | d) as Dsd.
  { assert (s | d1) by (by apply (Z.divide_trans _ (step in1))).
    assert (s | d2) by (by apply (Z.divide_trans _ (step in2))).
    unfold d. repeat (apply Z.divide_sub_r || apply Z.divide_add_r); done || apply Z.divide_refl. }
  assert (r0 = (l + d) mod m) as Er.
  { rewrite Er0. unfold l, d. rewrite Zplus_mod_idemp_l. apply mod_eq_sub; [lia|].
    destruct (left in1 <? right in1), (left in2 <? right in2); apply Z.mod_divide; try lia;
      [exists 0|exists (-1)|exists (-1)|exists (-2)]; lia. }
  assert (wrap size (x + y) = (l + (a + b)) mod m) as Ez.
  { unfold wrap, l. fold m. rewrite Zplus_mod, Ex, Ey, <- Zplus_mod, Zplus_mod_idemp_l. f_equal. lia. }
  assert (forall z, (z mod m) mod s = z mod s) as Hmm by (intros; by apply Z.mod_mod_divide).
  assert ((a + b) mod s = 0) as Hab.
  { apply Z.mod_divide; [lia|]. apply Z.divide_add_r; [by apply (Z.divide_trans _ (step in1))|by apply (Z.divide_trans _ (step in2))]. }
  assert (0 <= r0 < m /\ l mod s = r0 mod s) as [Hr0 Hph0].
  { rewrite Er, Hmm, (Zplus_mod l d s). apply Z.mod_divide in Dsd as ->; [|lia].
    rewrite Z.add_0_r, Z.mod_mod by lia. split; [apply Z.mod_pos_bound; lia|done]. }
  assert (0 <= rt < m /\ l mod s = rt mod s) as [Hrt Hph]
    by (rewrite Ert; by destruct (sizenew <? size1)).
  assert (range_of size (CR l rt (m - 1) false s)) as HR
    by (split; [apply (wf_bounds (CR 0 0 (m - 1) false s)); cbn; (apply Hsh || lia)|done]).
  split; [done|]. destruct HR as [W _]. rewrite denotes_rot by done. cbn [isempty mask step left right].
  change (dom _) with (m - 1 + 1). replace (m - 1 + 1) with m by lia. rewrite Ez, Hmm.
  pose proof (Z.mod_pos_bound (l + (a + b)) m ltac:(lia)).
  split; [done|]. split; [lia|]. split; [rewrite Zplus_mod, Hab, Z.add_0_r, Z.mod_mod; lia|].
  rewrite Zminus_mod_idemp_l. replace (l + (a + b) - l) with (a + b) by lia.
  destruct (sizenew <? size1) eqn:Et; [left; congruence|]. subst rt.
  destruct (Z.eq_dec l r0) as [|Hne]; [by left|].
  apply (sum_arc m s (step in1) (step in2) l d1 d2 a b r0); try (lia || done).
  apply Z.ltb_ge in Et. apply Z.ltb_ge. rewrite Esn, Es1 in Et. clear Er Er0 Ex Ey Erd1 Erd2 Ez.
  pose proof (mod_gap r0 l s Hs0 (eq_sym Hph0)).
  pose proof (mod_gap (right in1) (left in1) (step in1) ltac:(lia) (eq_sym (wf_phase _ H1 (proj1 Hx)))).
  destruct (Z.ltb_spec l r0), (Z.ltb_spec (left in1) (right in1)); rewrite ?w64_small in Et by lia; lia.
Qed.

(** Pushing two ranges forward through INT_ADD (or PTRSUB) gives a well-formed range that
    holds every sum of their values. *)
Theorem push_forward_add_sound (size max_step : Z) (self in1 in2 r : circle_range) (opc : opcode)
    (x y : Z) :
  valid_size size -> range_of size in1 -> range_of size in2 -> opc = IntAdd \/ opc = Ptrsub ->
  denotes in1 x -> denotes in2 y ->
  push_forward_binary self opc in1 in2 size size max_step = (r, true) ->
  range_of size r /\ denotes r (wrap size (x + y)).
Proof.
  intros Hs HR1 HR2 Hop Hx Hy Hp.
  assert (isempty in1 = false) as E1 by (destruct (isempty in1) eqn:E; [by apply denotes_empty in Hx|done]).
  assert (isempty in2 = false) as E2 by (destruct (isempty in2) eqn:E; [by apply denotes_empty in Hy|done]).
  unfold push_forward_binary in Hp. rewrite E1, E2 in Hp. cbn [orb] in Hp.
  assert (push_forward_add in1 in2 = r) as <- by (destruct Hop as [-> | ->]; congruence). clear Hp Hop.
  pose proof (step_min size in1 in2 HR1 HR2) as [Ds1 Ds2].
  pose proof (range_of_dom _ _ HR1) as Hd1. pose proof (range_of_dom _ _ HR2) as Hd2.
  destruct HR1 as [H1 Hm1], HR2 as [H2 Hm2]. pose proof (modulus_ge size Hs).
  pose proof (wf_left _ H1 E1). pose proof (wf_left _ H2 E2).
  pose proof (wf_right _ H1 E1). pose proof (wf_right _ H2 E2). shape H1. shape H2.
  set (s := Z.min (step in1) (step in2)) in *.
  assert (shaped (CR 0 0 (modulus size - 1) false s)) as Hsh.
  { unfold s. destruct (Z.min_spec (step in1) (step in2)) as [[_ ->]|[_ ->]];
      [apply (shaped_ext in1)|apply (shaped_ext in2)]; cbn; auto using wf_shape. }
  assert (forall a b e, shaped (CR a b (modulus size - 1) e s)) as Hsh' by (intros; by apply (shaped_ext (CR 0 0 (modulus size - 1) false s))).
  pose proof Hx as Dx. apply denotes_rot in Dx as (_ & Bx & Cx & _); [|done].
  pose proof Hy as Dy. apply denotes_rot in Dy as (_ & By & Cy & _); [|done].
  assert ((x + y) mod s = (left in1 + left in2) mod s) as Hcls.
  { assert (forall r z, (s | step r) -> 0 < step r -> z mod step r = left r mod step r -> z mod s = left r mod s) as Hc.
    { intros r' z Hdr Hpos Hz. rewrite <- (Z.mod_mod_divide z (step r')), Hz by done. by apply Z.mod_mod_divide. }
    rewrite Zplus_mod, (Hc in1 x), (Hc in2 y), <- Zplus_mod by lia || done. done. }
  unfold push_forward_add. fold s. rewrite Hm1, Hm2, Z.lor_diag.
  destruct (Z.eqb_spec (left in1) (right in1)) as [F1|F1]; cbn [orb];
    [by apply push_add_full|].
  destruct (Z.eqb_spec (left in2) (right in2)) as [F2|F2]; cbn [orb];
    [by apply push_add_full|].
  wsimpl. rewrite !land_modulus by done.
  destruct (is_single in2) eqn:S2; [|destruct (is_single in1) eqn:S1].
  - apply is_single_denotes in Hy; [|done..]. subst y. by apply push_add_single.
  - apply is_single_denotes in Hx; [|done..]. subst x. rewrite (Z.add_comm (left in1)). by apply push_add_single.
  - replace (step64 in1) with (step in1). replace (step64 in2) with (step in2).
    match goal with |- range_of _ (normalize (CR ?l ?rt ?m false s)) /\ _ =>
      assert (range_of size (CR l rt m false s) /\ denotes (CR l rt m false s) (wrap size (x + y))) as [HR HD] end.
    { eapply push_add_arc; [done|done|done|done|done|done|done| | | |reflexivity|done]; [|reflexivity|reflexivity].
      rewrite <- (w64_mod size), <- !Z.add_sub_assoc, <- !Z.add_assoc, w64_add_l, w64_mod by done; f_equal; lia. }
    destruct HR as [W _]. destruct (normalize_same _ W eq_refl) as (Wn & Mn & Sn).
    split; [by split|]. by apply Sn.
Qed.

(** ** Translation to a comparison *)

(** The verdict of [translate2_op] describes the range: 0, the comparison with the constant
    in the given slot holds exactly on its values; 1, it is full; 3, it is empty. *)
Theorem translate2_op_spec (size x : Z) (r : circle_range) :
  valid_size size -> range_of size r -> is_value size x ->
  let '(restype, opc, c, cslot) := translate2_op r in
  (restype = 0 ->
     denotes r x <-> eval_with_const opc size 1 c cslot x = Some 1) /\
  (restype = 1 -> denotes r x) /\ (restype = 3 -> ~ denotes r x) /\
  (restype = 0 \/ restype = 1 \/ restype = 2 \/ restype = 3).
Proof.
  intros Hs HR Hx. pose proof (range_of_dom _ _ HR) as Hdom. destruct HR as [H Hm].
  pose proof (half_mask size Hs) as [Hh _]. pose proof (modulus_half size Hs). pose proof (modulus_ge size Hs).
  unfold translate2_op. rewrite Hm, Hh. wsimpl. rewrite !land_modulus by done. unfold is_value in Hx.
  assert (forall b, Some (b2z b) = Some 1 <-> b = true) as Hb by (intros []; split; done).
  destruct (isempty r) eqn:E; [pose proof (denotes_empty r x E); repeat split; (done || tauto)|].
  pose proof (wf_left _ H E). pose proof (wf_right _ H E).
  destruct (Z.eqb_spec (step r) 1) as [S1|]; cbn [negb]; [|repeat split; (discriminate || tauto)].
  assert (denotes r x <-> arc (left r) (right r) x) as D.
  { rewrite denotes_arc, S1, !Z.mod_1_r by done. assert (0 <= x <= mask r) by lia. tauto. }
  modcase (left r + 1) (modulus size); modcase (right r + 1) (modulus size);
    modcase (left r - 1) (modulus size);
    repeat match goal with |- context [if ?a =? ?b then _ else _] => destruct (Z.eqb_spec a b) end;
    (split; [intros; try discriminate; rewrite D; unfold eval_with_const, arc; cbn; rewrite Hb; unfold signed;
             clear D Hb; cmp; cbn [negb]; (split; intros; (done || lia))
            |split; [first [discriminate | intros _; apply D; unfold arc; lia]|split; [discriminate|lia]]]).
Qed.

(** * The theorems at work *)

Lemma push_forward_unary_sound_witness :
  range_of 2 (CR 65408 0 65535 false 32) /\ denotes (CR 65408 0 65535 false 32) 65440.
Proof.
  apply (push_forward_unary_sound default (CR 128 0 255 false 32) (CR 65408 0 65535 false 32) IntSext 1 2 160 65440);
    [unfold valid_size; lia|unfold valid_size; lia|reflexivity|split; [apply (wfb_wf 8 5)|]; reflexivity
    |reflexivity|apply (denotes_check 8 5); reflexivity|reflexivity|reflexivity].
Defined.

Lemma push_forward_add_sound_witness :
  range_of 1 (CR 254 34 255 false 4) /\ denotes (CR 254 34 255 false 4) (wrap 1 (250 + 8)).
Proof.
  apply (push_forward_add_sound 1 64 default (CR 250 6 255 false 4) (CR 4 32 255 false 4)
           (CR 254 34 255 false 4) IntAdd 250 8);
    [unfold valid_size; lia|split; [apply (wfb_wf 8 2)|]; reflexivity|split; [apply (wfb_wf 8 2)|]; reflexivity
    |tauto|apply (denotes_check 8 2); reflexivity|apply (denotes_check 8 2); reflexivity|reflexivity].
Defined.

Lemma translate2_op_spec_witness :
  denotes (CR 128 16 255 false 1) 200 <-> eval_with_const IntSless 1 1 16 1 200 = Some 1.
Proof.
  pose proof (translate2_op_spec 1 200 (CR 128 16 255 false 1)) as H.
  assert (translate2_op (CR 128 16 255 false 1) = (0, IntSless, 16, 1)) as E by reflexivity.
  rewrite E in H. destruct H as [H _];
    [unfold valid_size; lia|split; [apply (wfb_wf 8 0)|]; reflexivity|unfold is_value; cbn; lia|].
  exact (H eq_refl).
Defined.
