(* ===== verification/NzMask.v ===== *)
(** The non-zero-mask analysis, [decompile/nzmask.rs]: for every varnode a mask of the bits that may
    be non-zero, computed bottom-up and then by a worklist over the loops.  A function is the part
    of [Funcdata] the analysis reads: varnodes, operations and blocks, by index; [dominator.rs]
    provides the immediate dominators. *)
From Stdlib Require Import ZArith Lia Bool List.
From stdpp Require Import base decidable gmap list tactics.
From S2P Require Import Prelude OpCode BitUtil.
Local Open Scope Z_scope.

Record vnode := Vnode {
  v_size : Z;
  v_nzm : Z;
  v_constant : bool;
  v_offset : Z;
  v_spacebase : bool;
  v_written : bool;
  v_def : option nat;
  v_descend : list nat;
}.

Record ssa_op := SsaOp {
  s_code : opcode;
  s_output : option nat;
  s_inputs : list nat;
  s_parent : option nat;
  s_calculated_bool : bool;
}.

Record block := Block { b_ops : list nat; b_in_edges : list nat }.

Record funcdata := Funcdata { f_vns : list vnode; f_ops : list ssa_op; f_blocks : list block }.

(** An index out of range panics; the defaults below stand for it. *)
Definition no_vnode : vnode := Vnode 0 0 false 0 false false None [].
Definition no_op : ssa_op := SsaOp Copy None [] None false.

Definition vn (f : funcdata) (i : nat) : vnode := nth i (f_vns f) no_vnode.
Definition op (f : funcdata) (i : nat) : ssa_op := nth i (f_ops f) no_op.

Definition with_nzm (v : vnode) (m : Z) : vnode :=
  Vnode (v_size v) m (v_constant v) (v_offset v) (v_spacebase v) (v_written v) (v_def v) (v_descend v).

(** [f.vn_mut(i).nzm = m] *)
Definition set_nzm (f : funcdata) (i : nat) (m : Z) : funcdata :=
  Funcdata (alter (fun v => with_nzm v m) i (f_vns f)) (f_ops f) (f_blocks f).

(** ** Dominators *)

(** [Dominators::dominates]: the chain of immediate dominators has at most one block each. *)
Fixpoint dominates_from (fuel : nat) (idom : list nat) (a n : nat) : bool :=
  match fuel with
  | O => false
  | S fuel =>
      if Nat.eqb n a then true
      else if Nat.eqb n (nth n idom n) then false
      else dominates_from fuel idom a (nth n idom n)
  end.

Definition dominates (idom : list nat) (a b : nat) : bool := dominates_from (S (List.length idom)) idom a b.

(** the parent's own block is always in range in a function [calc_nzmask] is given; the source panics otherwise *)
Definition is_loop_in (f : funcdata) (o : ssa_op) (slot : nat) (dom : list nat) : bool :=
  match s_parent o with
  | None => false
  | Some parent =>
      match nth_error (f_blocks f) parent with
      | None => false
      | Some b =>
          match nth_error (b_in_edges b) slot with
          | None => false
          | Some pred => dominates dom parent pred
          end
      end
  end.

(** ** The mask of one operation *)

(** [IntMult]: the product of an [n]-bit and an [m]-bit number, shifted by the common zeros *)
Definition mult_mask (val resmask size fullmask : Z) : Z :=
  if 8 <? size then fullmask
  else
    let sz1 := mostsigbit_set val in
    let sz2 := mostsigbit_set resmask in
    if (sz1 =? -1) || (sz2 =? -1) then 0
    else
      let l1 := leastsigbit_set val in
      let l2 := leastsigbit_set resmask in
      let sa := l1 + l2 in
      if 8 * size <=? sa then 0
      else
        let sz1 := sz1 - l1 + 1 in
        let sz2 := sz2 - l2 + 1 in
        let total := sz1 + sz2 in
        let total := if (sz1 =? 1) || (sz2 =? 1) then total - 1 else total in
        let r := if total <? 8 * size then pcode_right fullmask (w32 (8 * size - total)) else fullmask in
        Z.land (pcode_left r (w32 sa)) fullmask.

Definition sright_mask (resmask size fullmask sa : Z) : Z :=
  let signbit := Z.lxor fullmask (Z.shiftr fullmask 1) in
  if Z.land resmask signbit =? 0 then pcode_right resmask sa
  else Z.lor (pcode_right resmask sa) (Z.lxor (pcode_right fullmask sa) fullmask).

(** [op_nzmask_local]: an operation without an output, or without an input its code reads, panics in
    the source; here the missing slot reads [no_vnode]. *)
Definition op_nzmask_local (f : funcdata) (o : ssa_op) (cliploop : bool) (dom : list nat) : Z :=
  let size := v_size (vn f (default 0%nat (s_output o))) in
  let fullmask := calc_mask size in
  let input slot := vn f (nth slot (s_inputs o) (List.length (f_vns f))) in
  let in_nzm slot := v_nzm (input slot) in
  let in_size slot := v_size (input slot) in
  let in_const slot := v_constant (input slot) in
  let in_val slot := v_offset (input slot) in
  match s_code o with
  | IntEqual | IntNotequal | IntSless | IntSlessequal | IntLess | IntLessequal | IntCarry | IntScarry | IntSborrow
  | BoolNegate | BoolXor | BoolAnd | BoolOr | FloatEqual | FloatNotequal | FloatLess | FloatLessequal | FloatNan => 1
  | Call | Callind | Cpoolref => if s_calculated_bool o then 1 else fullmask
  | Copy | IntZext => in_nzm 0%nat
  | IntSext => sign_extend_mask (in_nzm 0%nat) (in_size 0%nat) size
  | IntXor | IntOr =>
      let resmask := in_nzm 0%nat in
      if negb (resmask =? fullmask) then Z.lor resmask (in_nzm 1%nat) else resmask
  | IntAnd =>
      let resmask := in_nzm 0%nat in
      if negb (resmask =? 0) then Z.land resmask (in_nzm 1%nat) else resmask
  | IntLeft =>
      if negb (in_const 1%nat) then fullmask
      else Z.land (pcode_left (in_nzm 0%nat) (w32 (in_val 1%nat))) fullmask
  | IntRight =>
      if negb (in_const 1%nat) then fullmask
      else pcode_right (in_nzm 0%nat) (w32 (in_val 1%nat))
  | IntSright =>
      if negb (in_const 1%nat) || (8 <? size) then fullmask
      else sright_mask (in_nzm 0%nat) size fullmask (w32 (in_val 1%nat))
  | IntDiv =>
      let resmask := coveringmask (in_nzm 0%nat) in
      if in_const 1%nat then
        let sa := mostsigbit_set (in_nzm 1%nat) in
        if negb (sa =? -1) then pcode_right resmask (w32 sa) else resmask
      else resmask
  | IntRem => coveringmask (u64_sub (in_nzm 1%nat) 1)
  | Popcount => Z.land (coveringmask (count_ones (in_nzm 0%nat))) fullmask
  | Lzcount => Z.land (coveringmask (in_size 0%nat * 8)) fullmask
  | Subpiece =>
      let resmask := in_nzm 0%nat in
      let sz1 := w32 (in_val 1%nat) in
      let resmask :=
        if in_size 0%nat <=? 8 then (if sz1 <? 8 then pcode_right resmask (8 * sz1) else 0) else resmask in
      Z.land resmask fullmask
  | Piece =>
      let sa := in_size 1%nat in
      let resmask := if sa <? 8 then pcode_left (in_nzm 0%nat) (8 * sa) else 0 in
      Z.lor resmask (in_nzm 1%nat)
  | IntMult => mult_mask (in_nzm 0%nat) (in_nzm 1%nat) size fullmask
  | IntAdd =>
      let resmask := in_nzm 0%nat in
      if negb (resmask =? fullmask) then
        let resmask := Z.lor resmask (in_nzm 1%nat) in
        let resmask := Z.lor resmask (u64_shl resmask 1) in
        Z.land resmask fullmask
      else resmask
  | Multiequal =>
      match s_inputs o with
      | [] => fullmask
      | _ =>
          fold_left (fun resmask i =>
              if cliploop && is_loop_in f o i dom then resmask else Z.lor resmask (in_nzm i))
            (seq 0 (List.length (s_inputs o))) 0
      end
  | _ => fullmask
  end.

(** ** The analysis *)

Definition op_out (f : funcdata) (i : nat) : option nat := s_output (op f i).

(** the mask of a varnode no operation writes *)
Definition leaf_mask (v : vnode) : Z :=
  if v_constant v then Z.land (v_offset v) (calc_mask (v_size v))
  else
    let m := calc_mask (v_size v) in
    if v_spacebase v then Z.land m (u64_not 255) else m.

(** Phase 1: a depth-first search, an operation's inputs before it. *)
Fixpoint dfs (fuel : nat) (dom : list nat) (f : funcdata) (marked : gset nat) (stack : list (nat * nat))
    : option (funcdata * gset nat) :=
  match fuel with
  | O => None
  | S fuel =>
      match stack with
      | [] => Some (f, marked)
      | (i, slot) :: stack =>
          let o := op f i in
          if Nat.leb (List.length (s_inputs o)) slot then
            let f := match s_output o with
                     | Some out => set_nzm f out (op_nzmask_local f o true dom)
                     | None => f
                     end in
            dfs fuel dom f marked stack
          else
            let stack := (i, S slot) :: stack in
            if bool_decide (s_code o = Multiequal) && is_loop_in f o slot dom then dfs fuel dom f marked stack
            else
              let vi := nth slot (s_inputs o) (List.length (f_vns f)) in
              if negb (v_written (vn f vi)) then dfs fuel dom (set_nzm f vi (leaf_mask (vn f vi))) marked stack
              else
                match v_def (vn f vi) with
                | None => dfs fuel dom f marked stack
                | Some def =>
                    if decide (def ∈ marked) then dfs fuel dom f marked stack
                    else dfs fuel dom f ({[ def ]} ∪ marked) ((def, 0%nat) :: stack)
                end
      end
  end.

Fixpoint phase1 (fuel : nat) (dom : list nat) (seeds : list nat) (f : funcdata) (marked : gset nat) : option funcdata :=
  match seeds with
  | [] => Some f
  | seed :: seeds =>
      if decide (seed ∈ marked) then phase1 fuel dom seeds f marked
      else
        match dfs fuel dom f ({[ seed ]} ∪ marked) [(seed, 0%nat)] with
        | Some (f, marked) => phase1 fuel dom seeds f marked
        | None => None
        end
  end.

(** Phase 2: recompute with every edge until nothing changes; the last pushed is the first popped. *)
Fixpoint phase2 (fuel : nat) (dom : list nat) (f : funcdata) (worklist : list nat) : option funcdata :=
  match fuel with
  | O => None
  | S fuel =>
      match worklist with
      | [] => Some f
      | i :: worklist =>
          let o := op f i in
          match s_output o with
          | None => phase2 fuel dom f worklist
          | Some out =>
              let nzmask := op_nzmask_local f o false dom in
              if negb (nzmask =? v_nzm (vn f out)) then
                let f := set_nzm f out nzmask in
                phase2 fuel dom f (fold_left (fun w d => d :: w) (v_descend (vn f out)) worklist)
              else phase2 fuel dom f worklist
          end
      end
  end.

Definition all_ops (f : funcdata) : list nat := flat_map b_ops (f_blocks f).

Definition calc_nzmask (fuel : nat) (dom : list nat) (f : funcdata) : option funcdata :=
  match phase1 fuel dom (all_ops f) f ∅ with
  | None => None
  | Some f =>
      phase2 fuel dom f
        (rev (List.filter (fun i => bool_decide (s_code (op f i) = Multiequal)) (all_ops f)))
  end.
