(* ===== verification/NzMaskFacts.v ===== *)
(** Soundness of the non-zero masks against the p-code semantics. *)
From Stdlib Require Import ZArith Lia Bool List.
From stdpp Require Import base decidable gmap list tactics.
From S2P Require Import Prelude OpCode BitUtil PcodeSem M68kAlu Machine MachineFacts AluFacts CircleRangePush NzMask.
Local Open Scope Z_scope.

(** Every bit of [x] is a bit of [m]. *)
Definition bits_in (x m : Z) : Prop := forall i, 0 <= i -> Z.testbit x i = true -> Z.testbit m i = true.

(** Below a set bit every bit is set. *)
Definition low_ones (m : Z) : Prop := forall i j, 0 <= j <= i -> Z.testbit m i = true -> Z.testbit m j = true.

(** ** Bits *)

Lemma bits_in_refl (x : Z) : bits_in x x.
Proof. by intros i. Qed.

Lemma bits_in_0 (m : Z) : bits_in 0 m.
Proof. intros i Hi. by rewrite Z.testbit_0_l. Qed.

Lemma bits_in_lor_l (x m n : Z) : bits_in x m -> bits_in x (Z.lor m n).
Proof. intros H i Hi Hx. by rewrite Z.lor_spec, (H i Hi Hx). Qed.

Lemma bits_in_lor_r (x m n : Z) : bits_in x n -> bits_in x (Z.lor m n).
Proof. intros H i Hi Hx. by rewrite Z.lor_spec, (H i Hi Hx), orb_true_r. Qed.

Lemma bits_in_land (x m n : Z) : bits_in x m -> bits_in x n -> bits_in x (Z.land m n).
Proof. intros H1 H2 i Hi Hx. by rewrite Z.land_spec, (H1 i Hi Hx), (H2 i Hi Hx). Qed.

Lemma bits_in_trans (x m n : Z) : bits_in x m -> bits_in m n -> bits_in x n.
Proof. intros H1 H2 i Hi Hx. by apply H2, H1. Qed.

Lemma top_bit (x i : Z) : 0 <= x -> 0 <= i -> Z.testbit x i = true -> 2 ^ i <= x.
Proof.
  intros Hx Hi Hb. destruct (Z.lt_ge_cases x (2 ^ i)); [|done]. exfalso.
  destruct (Z.eq_dec x 0) as [->|]; [by rewrite Z.testbit_0_l in Hb|].
  rewrite Z.bits_above_log2 in Hb; [done|done|]. apply Z.log2_lt_pow2; lia.
Qed.

Lemma bits_in_le (x m : Z) : 0 <= x -> 0 <= m -> bits_in x m -> x <= m.
Proof.
  intros Hx Hm H. assert (Z.ldiff x m = 0) as E.
  { apply Z.bits_inj'. intros i Hi. rewrite Z.ldiff_spec, Z.testbit_0_l.
    destruct (Z.testbit x i) eqn:Eb; [|done]. by rewrite (H i Hi Eb). }
  pose proof (Z.sub_nocarry_ldiff m x E) as Hs. assert (0 <= Z.ldiff m x) by (apply Z.ldiff_nonneg; lia). lia.
Qed.

(** A number is covered by a run of ones at least as large. *)
Lemma le_bits_in (x m : Z) : 0 <= x <= m -> low_ones m -> bits_in x m.
Proof.
  intros Hx Hl i Hi Hb. pose proof (top_bit x i ltac:(lia) Hi Hb). pose proof (pow2_pos i Hi).
  apply (Hl (Z.log2 m) i); [|apply Z.bit_log2; lia]. split; [done|]. apply Z.log2_le_pow2; lia.
Qed.

Lemma low_ones_ones (k : Z) : 0 <= k -> low_ones (Z.ones k).
Proof.
  intros Hk i j Hij Hb. destruct (Z.lt_ge_cases i k); [apply Z.ones_spec_low; lia|].
  rewrite Z.ones_spec_high in Hb by lia. done.
Qed.

Lemma low_ones_shiftr (m n : Z) : 0 <= n -> low_ones m -> low_ones (Z.shiftr m n).
Proof. intros Hn Hl i j Hij. rewrite !Z.shiftr_spec by lia. apply Hl. lia. Qed.

Lemma calc_mask_value (size x : Z) : valid_size size -> is_value size x -> bits_in x (calc_mask size).
Proof.
  intros Hs Hx. unfold valid_size, is_value, modulus in *. rewrite calc_mask_ones by lia.
  apply le_bits_in; [rewrite ones_pow; lia|]. apply low_ones_ones. lia.
Qed.

Lemma calc_mask_word (size : Z) : valid_size size -> 0 <= calc_mask size < 2 ^ 64.
Proof.
  intros Hs. pose proof (modulus_ge size Hs). unfold valid_size, modulus in *. rewrite calc_mask_ones, ones_pow by lia. lia.
Qed.

(** [coveringmask]: after each doubling a bit is set when one of the next [sz] bits was. *)
Lemma covering_step (v w sz : Z) : 0 < sz < 64 ->
  (forall i, 0 <= i -> Z.testbit w i = true <-> exists j, i <= j < i + sz /\ Z.testbit v j = true) ->
  forall i, 0 <= i -> Z.testbit (Z.lor w (u64_shr w sz)) i = true <-> exists j, i <= j < i + 2 * sz /\ Z.testbit v j = true.
Proof.
  intros Hsz Hw i Hi. rewrite Z.lor_spec, orb_true_iff, shr_bit, !Hw by lia. split.
  - intros [(j & Hj & Hb)|(j & Hj & Hb)]; exists j; (split; [lia|done]).
  - intros (j & Hj & Hb). destruct (Z.lt_ge_cases j (i + sz)); [left|right]; exists j; (split; [lia|done]).
Qed.

Lemma covering_bits (v i : Z) : 0 <= v < 2 ^ 64 -> 0 <= i ->
  Z.testbit (coveringmask v) i = true <-> exists j, i <= j < i + 64 /\ Z.testbit v j = true.
Proof.
  intros Hv Hi. unfold coveringmask.
  assert (forall j, 0 <= j -> Z.testbit v j = true <-> exists k, j <= k < j + 1 /\ Z.testbit v k = true) as H0.
  { intros j Hj. split; [intros Hb; exists j; split; [lia|done]|]. intros (k & Hk & Hb). by replace j with k by lia. }
  pose proof (covering_step v _ 1 ltac:(lia) H0) as H1. pose proof (covering_step v _ 2 ltac:(lia) H1) as H2.
  pose proof (covering_step v _ 4 ltac:(lia) H2) as H3. pose proof (covering_step v _ 8 ltac:(lia) H3) as H4.
  pose proof (covering_step v _ 16 ltac:(lia) H4) as H5. pose proof (covering_step v _ 32 ltac:(lia) H5) as H6.
  exact (H6 i Hi).
Qed.

Lemma word_bit (v j : Z) : 0 <= v < 2 ^ 64 -> Z.testbit v j = true -> 0 <= j < 64.
Proof.
  intros Hv Hb. destruct (Z.lt_ge_cases j 0); [by rewrite Z.testbit_neg_r in Hb|]. split; [done|].
  pose proof (top_bit v j ltac:(lia) ltac:(lia) Hb). destruct (Z.lt_ge_cases j 64); [done|].
  assert (2 ^ 64 <= 2 ^ j) by (apply Z.pow_le_mono_r; lia). lia.
Qed.

Lemma covering_low_ones (v : Z) : 0 <= v < 2 ^ 64 -> low_ones (coveringmask v).
Proof.
  intros Hv i j Hij Hb. apply covering_bits in Hb as (k & Hk & Hb); [|done|lia]. apply covering_bits; [done|lia|].
  pose proof (word_bit v k Hv Hb). exists k. split; [lia|done].
Qed.

Lemma covering_le (v : Z) : 0 <= v < 2 ^ 64 -> bits_in v (coveringmask v).
Proof. intros Hv i Hi Hb. apply covering_bits; [done|done|]. exists i. split; [lia|done]. Qed.

Lemma covering_nonneg (v : Z) : 0 <= v -> 0 <= coveringmask v.
Proof.
  intros Hv. assert (forall w sz, 0 <= w -> 0 <= Z.lor w (u64_shr w sz)) as N.
  { intros w sz Hw. apply Z.lor_nonneg. split; [done|]. unfold u64_shr. by apply Z.shiftr_nonneg. }
  exact (N _ 32 (N _ 16 (N _ 8 (N _ 4 (N _ 2 (N _ 1 Hv)))))).
Qed.

Lemma covering_word (v : Z) : 0 <= v < 2 ^ 64 -> 0 <= coveringmask v < 2 ^ 64.
Proof.
  intros Hv. pose proof (covering_nonneg v ltac:(lia)). split; [done|]. destruct (Z.lt_ge_cases (coveringmask v) (2 ^ 64)); [done|].
  assert (64 <= Z.log2 (coveringmask v)) by (apply Z.log2_le_pow2; lia).
  pose proof (Z.bit_log2 (coveringmask v) ltac:(lia)) as Hb. apply covering_bits in Hb as (j & Hj & Hb); [|done|lia].
  pose proof (word_bit v j Hv Hb). lia.
Qed.

(** A value at most [v] is covered by the covering mask of [v], also after the same right shift. *)
Lemma covering_covers (x v : Z) : 0 <= x <= v -> v < 2 ^ 64 -> bits_in x (coveringmask v).
Proof.
  intros Hx Hv. apply le_bits_in; [|apply covering_low_ones; lia]. split; [lia|].
  transitivity v; [lia|]. apply bits_in_le; [lia|apply covering_nonneg; lia|apply covering_le; lia].
Qed.

(** ** Shifts *)

Lemma bits_in_shiftr (x m n : Z) : 0 <= n -> bits_in x m -> bits_in (Z.shiftr x n) (Z.shiftr m n).
Proof. intros Hn H i Hi. rewrite !Z.shiftr_spec by lia. apply H. lia. Qed.

Lemma bits_in_shiftl (x m n : Z) : bits_in x m -> bits_in (Z.shiftl x n) (Z.shiftl m n).
Proof.
  intros H i Hi. rewrite !Z.shiftl_spec by lia. intros Hb. destruct (Z.lt_ge_cases (i - n) 0); [by rewrite Z.testbit_neg_r in Hb|].
  by apply H.
Qed.

Lemma pcode_right_shift (m sa : Z) : 0 <= m < 2 ^ 64 -> 0 <= sa -> pcode_right m sa = Z.shiftr m sa.
Proof.
  intros Hm Hsa. unfold pcode_right, u64_shr. destruct (Z.leb_spec 64 sa).
  - symmetry. rewrite Z.shiftr_div_pow2 by lia. apply Z.div_small. assert (2 ^ 64 <= 2 ^ sa) by (apply Z.pow_le_mono_r; lia). lia.
  - by rewrite Z.mod_small by lia.
Qed.

Lemma bits_in_w64 (x m : Z) : 0 <= x < 2 ^ 64 -> bits_in x m -> bits_in x (w64 m).
Proof.
  intros Hx H i Hi Hb. pose proof (word_bit x i Hx Hb). unfold w64. change 18446744073709551616 with (2 ^ 64).
  rewrite Z.mod_pow2_bits_low by lia. by apply H.
Qed.

Lemma mod_bits_in (x k : Z) : 0 <= k -> bits_in (x mod 2 ^ k) x.
Proof.
  intros Hk i Hi. destruct (Z.lt_ge_cases i k); [by rewrite Z.mod_pow2_bits_low by lia|by rewrite Z.mod_pow2_bits_high by lia].
Qed.

Lemma wrap_bits_in (size x : Z) : valid_size size -> bits_in (wrap size x) x.
Proof. intros Hs. apply mod_bits_in. unfold valid_size in *. lia. Qed.

(** A left shift in a size is covered by the shifted mask. *)
Lemma left_mask_sound (size x m sa : Z) : valid_size size -> 0 <= sa -> bits_in x m ->
  bits_in (wrap size (x * 2 ^ sa)) (Z.land (pcode_left m sa) (calc_mask size)).
Proof.
  intros Hs Hsa H. pose proof (wrap_value size (x * 2 ^ sa) Hs) as Hv. pose proof (value_word _ _ Hs Hv) as Hw.
  apply bits_in_land; [|by apply calc_mask_value]. unfold pcode_left. destruct (Z.leb_spec 64 sa).
  - assert (wrap size (x * 2 ^ sa) = 0) as ->; [|apply bits_in_0].
    apply Z.mod_divide; [pose proof (modulus_pos size Hs); lia|]. unfold modulus, valid_size in *.
    apply Z.divide_mul_r. apply pow2_divide. lia.
  - unfold u64_shl. rewrite Z.mod_small by lia. apply bits_in_w64; [done|].
    eapply bits_in_trans; [by apply wrap_bits_in|]. rewrite <- Z.shiftl_mul_pow2 by lia. by apply bits_in_shiftl.
Qed.

Lemma right_mask_sound (x m sa : Z) : 0 <= m < 2 ^ 64 -> 0 <= sa -> bits_in x m -> bits_in (x / 2 ^ sa) (pcode_right m sa).
Proof. intros Hm Hsa H. rewrite pcode_right_shift, <- Z.shiftr_div_pow2 by lia. by apply bits_in_shiftr. Qed.

(** ** Addition: a bit of the sum is a bit of an operand or a carry from the bit below *)

Lemma add_bits_in (a b u : Z) : bits_in a u -> bits_in b u -> bits_in (a + b) (Z.lor u (Z.shiftl u 1)).
Proof.
  intros Ha Hb i Hi Hs. destruct (Z.add_carry_bits a b false) as (c & E & Ec & E0). cbn [Z.b2z] in E. rewrite Z.add_0_r in E.
  assert (forall j, 0 <= j -> Z.testbit c (j + 1) = true -> Z.testbit u j = true) as Hc.
  { intros j Hj Hcj. assert (Z.testbit (c / 2) j = true) as Hd.
    { rewrite <- Z.div2_div, Z.div2_spec, Z.shiftr_spec by done. done. }
    rewrite Ec in Hd. rewrite Z.lor_spec, !Z.land_spec, Z.lor_spec in Hd.
    destruct (Z.testbit a j) eqn:Ea; [by apply Ha|]. destruct (Z.testbit b j) eqn:Eb; [by apply Hb|].
    cbn in Hd. by rewrite andb_false_r in Hd. }
  rewrite E in Hs. rewrite !Z.lxor_spec in Hs. rewrite Z.lor_spec, Z.shiftl_spec by done.
  destruct (Z.testbit a i) eqn:Ea; [by rewrite (Ha i Hi Ea)|]. destruct (Z.testbit b i) eqn:Eb; [by rewrite (Hb i Hi Eb)|].
  cbn in Hs. rewrite orb_true_iff. right. destruct (Z.eq_dec i 0) as [->|]; [congruence|]. apply Hc; [lia|].
  by replace (i - 1 + 1) with i by lia.
Qed.

(** ** Multiplication *)

Lemma mostsigbit_spec (v : Z) : 0 < v < 2 ^ 64 -> mostsigbit_set v = Z.log2 v.
Proof.
  intros Hv. unfold mostsigbit_set, u64_leading_zeros. destruct (Z.eqb_spec v 0); [lia|]. lia.
Qed.

Lemma ctz_low (p : positive) (i : Z) : 0 <= i < pos_ctz p -> Z.testbit (Zpos p) i = false.
Proof.
  revert i. induction p as [p IH|p IH|]; intros i Hi; cbn [pos_ctz] in Hi; [lia| |lia].
  destruct (Z.eq_dec i 0) as [->|]; [done|].
  change (Zpos p~0) with (2 * Zpos p). rewrite <- (Z.succ_pred i). rewrite Z.double_bits_succ. apply IH. lia.
Qed.

Lemma ctz_range (p : positive) : 0 <= pos_ctz p /\ 2 ^ pos_ctz p <= Zpos p.
Proof.
  induction p as [p IH|p IH|]; cbn [pos_ctz]; [lia| |lia]. split; [lia|].
  rewrite Z.pow_add_r by lia. change (Zpos p~0) with (2 * Zpos p). lia.
Qed.

Lemma lsb_divide (x v : Z) : 0 < v < 2 ^ 64 -> bits_in x v ->
  0 <= leastsigbit_set v <= Z.log2 v /\ (2 ^ leastsigbit_set v | x).
Proof.
  intros Hv Hx. unfold leastsigbit_set, u64_trailing_zeros. destruct (Z.eqb_spec v 0); [lia|].
  destruct v as [|p|p]; [lia| |lia]. pose proof (ctz_range p) as [H0 H1].
  split; [split; [done|]; apply Z.log2_le_pow2; lia|].
  apply Z.mod_divide; [pose proof (pow2_pos (pos_ctz p)); lia|].
  apply Z.bits_inj'. intros i Hi. rewrite Z.testbit_0_l.
  destruct (Z.lt_ge_cases i (pos_ctz p)); [|by rewrite Z.mod_pow2_bits_high by lia].
  rewrite Z.mod_pow2_bits_low by lia. destruct (Z.testbit x i) eqn:E; [|done].
  apply Hx in E; [|done]. by rewrite ctz_low in E.
Qed.

(** [x] is [2 ^ l] times a number of [n] bits. *)
Definition spans (x l n : Z) : Prop := exists q, x = q * 2 ^ l /\ 0 <= q < 2 ^ n.

Lemma mask_spans (x v : Z) : 0 <= x -> 0 < v < 2 ^ 64 -> bits_in x v ->
  spans x (leastsigbit_set v) (mostsigbit_set v - leastsigbit_set v + 1).
Proof.
  intros Hx Hv Hin. destruct (lsb_divide x v Hv Hin) as [Hl [q Hq]]. rewrite mostsigbit_spec by done. exists q. split; [done|].
  set (l := leastsigbit_set v) in *. pose proof (pow2_pos l ltac:(lia)).
  assert (x <= v) by (apply bits_in_le; (done || lia)). pose proof (Z.log2_spec v ltac:(lia)) as [_ Hlog].
  assert (2 ^ Z.succ (Z.log2 v) = 2 ^ (Z.log2 v - l + 1) * 2 ^ l) as E by (rewrite <- Z.pow_add_r by lia; f_equal; lia).
  rewrite E in Hlog. split; nia.
Qed.

(** A one-bit factor widens nothing. *)
Lemma spans_mul (x y l1 l2 n1 n2 : Z) : 0 <= l1 -> 0 <= l2 -> 1 <= n1 -> 1 <= n2 -> spans x l1 n1 -> spans y l2 n2 ->
  spans (x * y) (l1 + l2) (if (n1 =? 1) || (n2 =? 1) then n1 + n2 - 1 else n1 + n2).
Proof.
  intros H1 H2 H3 H4 (q & -> & Hq) (r & -> & Hr). exists (q * r). split; [rewrite Z.pow_add_r by lia; ring|].
  pose proof (pow2_pos n1 ltac:(lia)). pose proof (pow2_pos n2 ltac:(lia)).
  destruct (Z.eqb_spec n1 1) as [->|]; [replace (1 + n2 - 1) with n2 by lia; cbn [orb]; change (2 ^ 1) with 2 in *; nia|].
  destruct (Z.eqb_spec n2 1) as [->|]; [replace (n1 + 1 - 1) with n1 by lia; cbn [orb]; change (2 ^ 1) with 2 in *; nia|].
  cbn [orb]. rewrite Z.pow_add_r by lia. nia.
Qed.

(** The bits of a product within its size. *)
Lemma spans_bits (x l n size i : Z) : 0 <= l -> 0 <= n -> spans x l n -> 0 <= i ->
  Z.testbit (x mod 2 ^ (8 * size)) i = true -> l <= i < l + n.
Proof.
  intros Hl Hn (q & -> & Hq) Hi Hb. destruct (Z.lt_ge_cases (8 * size) 0) as [Hneg|Hpos].
  { rewrite (Z.pow_neg_r 2 (8 * size)), Z.mod_0_r in Hb by done. revert Hb.
    rewrite <- Z.shiftl_mul_pow2, Z.shiftl_spec by lia. intros Hb.
    destruct (Z.lt_ge_cases (i - l) 0); [by rewrite Z.testbit_neg_r in Hb|].
    pose proof (top_bit q (i - l) ltac:(lia) ltac:(lia) Hb).
    destruct (Z.lt_ge_cases (i - l) n); [lia|]. assert (2 ^ n <= 2 ^ (i - l)) by (apply Z.pow_le_mono_r; lia). lia. }
  destruct (Z.lt_ge_cases i (8 * size)); [|by rewrite Z.mod_pow2_bits_high in Hb by lia].
  rewrite Z.mod_pow2_bits_low, <- Z.shiftl_mul_pow2, Z.shiftl_spec in Hb by lia.
  destruct (Z.lt_ge_cases (i - l) 0); [by rewrite Z.testbit_neg_r in Hb|].
  pose proof (top_bit q (i - l) ltac:(lia) ltac:(lia) Hb).
  destruct (Z.lt_ge_cases (i - l) n); [lia|]. assert (2 ^ n <= 2 ^ (i - l)) by (apply Z.pow_le_mono_r; lia). lia.
Qed.

Lemma mult_mask_sound (size x y m1 m2 : Z) : valid_size size -> 0 <= x -> 0 <= y -> 0 <= m1 < 2 ^ 64 -> 0 <= m2 < 2 ^ 64 ->
  bits_in x m1 -> bits_in y m2 -> bits_in (wrap size (x * y)) (mult_mask m1 m2 size (calc_mask size)).
Proof.
  intros Hs Hx Hy Hm1 Hm2 H1 H2. unfold mult_mask. destruct (Z.ltb_spec 8 size); [unfold valid_size in Hs; lia|].
  destruct (Z.eq_dec m1 0) as [->|].
  { assert (x = 0) as -> by (pose proof (bits_in_le x 0 ltac:(lia) ltac:(lia) H1); lia). cbn. rewrite Z.mul_0_l. apply bits_in_0. }
  destruct (Z.eq_dec m2 0) as [->|].
  { assert (y = 0) as -> by (pose proof (bits_in_le y 0 ltac:(lia) ltac:(lia) H2); lia). rewrite Z.mul_0_r, orb_true_r. apply bits_in_0. }
  destruct (lsb_divide x m1 ltac:(lia) H1) as [Hl1 _]. destruct (lsb_divide y m2 ltac:(lia) H2) as [Hl2 _].
  pose proof (mask_spans x m1 Hx ltac:(lia) H1) as S1. pose proof (mask_spans y m2 Hy ltac:(lia) H2) as S2.
  rewrite !mostsigbit_spec in * by lia. pose proof (Z.log2_nonneg m1). pose proof (Z.log2_nonneg m2).
  destruct (Z.eqb_spec (Z.log2 m1) (-1)); [lia|]. destruct (Z.eqb_spec (Z.log2 m2) (-1)); [lia|]. cbn [orb].
  set (l1 := leastsigbit_set m1) in *. set (l2 := leastsigbit_set m2) in *.
  set (w1 := Z.log2 m1 - l1 + 1) in *. set (w2 := Z.log2 m2 - l2 + 1) in *.
  pose proof (spans_mul x y l1 l2 w1 w2 ltac:(lia) ltac:(lia) ltac:(lia) ltac:(lia) S1 S2) as Sp.
  set (total := if (w1 =? 1) || (w2 =? 1) then _ else _) in *.
  assert (0 <= total) as Ht by (unfold total; destruct (_ || _); lia).
  assert (forall i, 0 <= i -> Z.testbit (wrap size (x * y)) i = true -> l1 + l2 <= i < l1 + l2 + total /\ i < 8 * size) as Hb.
  { intros i Hi Hbit. split; [by eapply spans_bits; eauto; lia|]. unfold wrap, modulus in Hbit.
    destruct (Z.lt_ge_cases i (8 * size)); [done|]. unfold valid_size in Hs. by rewrite Z.mod_pow2_bits_high in Hbit by lia. }
  destruct (Z.leb_spec (8 * size) (l1 + l2)).
  { intros i Hi Hbit. destruct (Hb i Hi Hbit). lia. }
  pose proof (wrap_value size (x * y) Hs) as Hv. unfold valid_size in Hs.
  apply bits_in_land; [|by apply calc_mask_value]. rewrite (w32_small (l1 + l2)) by lia. intros i Hi Hbit. destruct (Hb i Hi Hbit) as [Hr H8].
  unfold pcode_left. destruct (Z.leb_spec 64 (l1 + l2)); [lia|]. unfold u64_shl. rewrite (Z.mod_small _ 64) by lia.
  unfold w64. change 18446744073709551616 with (2 ^ 64). rewrite Z.mod_pow2_bits_low, Z.shiftl_spec by lia.
  pose proof (calc_mask_word size Hs). destruct (Z.ltb_spec total (8 * size)).
  - rewrite w32_small, pcode_right_shift, Z.shiftr_spec, calc_mask_ones by lia. apply Z.ones_spec_low. lia.
  - rewrite calc_mask_ones by lia. apply Z.ones_spec_low. lia.
Qed.

(** ** Sign extension, signed shifts *)

Lemma signed_bit (size x i : Z) : valid_size size -> is_value size x -> 0 <= i ->
  Z.testbit (signed size x) i = Z.testbit x (Z.min i (8 * size - 1)).
Proof.
  intros Hs Hx Hi. pose proof (modulus_half size Hs) as Hh. unfold is_value, valid_size in *.
  assert (modulus size / 2 = 2 ^ (8 * size - 1)) as Eh.
  { assert (modulus size = 2 * 2 ^ (8 * size - 1)) by (unfold modulus; rewrite <- Z.pow_succ_r by lia; f_equal; lia). lia. }
  assert (Z.testbit x (8 * size - 1) = negb (x <? 2 ^ (8 * size - 1))) as Et.
  { destruct (Z.ltb_spec x (2 ^ (8 * size - 1))); cbn [negb].
    - destruct (Z.testbit x (8 * size - 1)) eqn:E; [|done]. pose proof (top_bit x (8 * size - 1) ltac:(lia) ltac:(lia) E). lia.
    - assert (x <> 0) by (pose proof (pow2_pos (8 * size - 1) ltac:(lia)); lia).
      replace (8 * size - 1) with (Z.log2 x); [apply Z.bit_log2; lia|]. apply Z.log2_unique; [lia|]. rewrite <- Z.add_1_r.
      replace (8 * size - 1 + 1) with (8 * size) by lia. unfold modulus in *. lia. }
  unfold signed. rewrite Eh. destruct (Z.lt_ge_cases i (8 * size)).
  - replace (Z.min i (8 * size - 1)) with i by lia. destruct (Z.ltb_spec x (2 ^ (8 * size - 1))); [done|].
    rewrite <- (Z.mod_pow2_bits_low (x - _) (8 * size) i), <- (Z.mod_pow2_bits_low x (8 * size) i) by lia.
    f_equal. unfold modulus. rewrite Zminus_mod, Z_mod_same_full, Z.sub_0_r. by apply Zmod_mod.
  - replace (Z.min i (8 * size - 1)) with (8 * size - 1) by lia. rewrite Et. clear Et.
    destruct (Z.ltb_spec x (2 ^ (8 * size - 1))); cbn [negb].
    + destruct (Z.testbit x i) eqn:E; [|done]. pose proof (top_bit x i ltac:(lia) Hi E).
      assert (2 ^ (8 * size) <= 2 ^ i) by (apply Z.pow_le_mono_r; lia). unfold modulus in *. lia.
    + replace i with (i - 8 * size + 8 * size) by lia. rewrite <- Z.div_pow2_bits by lia.
      replace ((x - modulus size) / 2 ^ (8 * size)) with (-1); [apply Z.bits_m1; lia|].
      unfold modulus in *. apply Z.div_unique with x; lia.
Qed.

Lemma bits_in_mod (x m k : Z) : 0 <= x < 2 ^ k -> bits_in x m -> bits_in x (m mod 2 ^ k).
Proof.
  intros Hx H i Hi Hb. assert (0 <= k) by (destruct (Z.lt_ge_cases k 0); [rewrite Z.pow_neg_r in Hx by done; lia|done]).
  pose proof (top_bit x i ltac:(lia) Hi Hb). destruct (Z.lt_ge_cases i k).
  - rewrite Z.mod_pow2_bits_low by lia. by apply H.
  - assert (2 ^ k <= 2 ^ i) by (apply Z.pow_le_mono_r; lia). lia.
Qed.

(** The mask form of [sign_extend] reads only the bits of the input's size. *)
Lemma sign_extend_mask_spec (in_size out_size m : Z) : valid_size in_size -> valid_size out_size -> in_size < out_size ->
  0 <= m < 2 ^ 64 -> sign_extend_mask m in_size out_size = wrap out_size (signed in_size (m mod modulus in_size)).
Proof.
  intros Hi Ho Hlt Hm. pose proof (modulus_pos in_size Hi).
  assert (is_value in_size (m mod modulus in_size)) as Hv by (unfold is_value; apply Z.mod_pos_bound; done).
  rewrite <- sign_extend_spec by done. unfold valid_size in *. unfold sign_extend_mask, sign_extend. rewrite !Z.min_l by lia.
  destruct (Z.leb_spec out_size in_size); [lia|]. do 4 f_equal.
  assert (modulus in_size <= 2 ^ 56) by (unfold modulus; apply Z.pow_le_mono_r; lia). unfold is_value in Hv.
  replace (w64 (i64 (m mod modulus in_size))) with (m mod modulus in_size)
    by (rewrite <- (w64_small (m mod modulus in_size)) at 2 by lia; rewrite i64_small, w64_small; lia).
  rewrite (w32_small ((8 - in_size) * 8)) by lia. unfold u64_shl. rewrite !(Z.mod_small _ 64), !Z.shiftl_mul_pow2 by lia.
  unfold w64. change 18446744073709551616 with (2 ^ 64).
  replace (2 ^ 64) with (modulus in_size * 2 ^ ((8 - in_size) * 8)) by (unfold modulus; rewrite <- Z.pow_add_r by lia; f_equal; lia).
  pose proof (pow2_pos ((8 - in_size) * 8) ltac:(lia)). rewrite !Zmult_mod_distr_r. by rewrite Zmod_mod.
Qed.

Lemma sext_mask_sound (in_size out_size x m : Z) : valid_size in_size -> valid_size out_size -> in_size < out_size ->
  0 <= m < 2 ^ 64 -> is_value in_size x -> bits_in x m ->
  bits_in (wrap out_size (signed in_size x)) (sign_extend_mask m in_size out_size).
Proof.
  intros Hi Ho Hlt Hm Hx H. rewrite sign_extend_mask_spec by done. intros i H0 Hb.
  assert (is_value in_size (m mod modulus in_size)) as Hv by (unfold is_value; apply Z.mod_pos_bound, modulus_pos; done).
  unfold wrap in *. change (modulus out_size) with (2 ^ (8 * out_size)) in *. unfold valid_size in *. destruct (Z.lt_ge_cases i (8 * out_size)).
  - rewrite Z.mod_pow2_bits_low, signed_bit in Hb by (done || lia).
    rewrite Z.mod_pow2_bits_low, signed_bit by (done || lia).
    apply (bits_in_mod x m (8 * in_size)); (done || lia).
  - by rewrite Z.mod_pow2_bits_high in Hb by lia.
Qed.

Lemma sright_mask_sound (size x m sa : Z) : valid_size size -> 0 <= sa -> 0 <= m < 2 ^ 64 -> is_value size x -> bits_in x m ->
  bits_in (wrap size (signed size x / 2 ^ sa)) (sright_mask m size (calc_mask size) sa).
Proof.
  intros Hs Hsa Hm Hx H i Hi Hb. pose proof (calc_mask_word size Hs) as Hf. unfold valid_size in *.
  destruct (Z.lt_ge_cases i (8 * size)); [|unfold wrap, modulus in Hb; by rewrite Z.mod_pow2_bits_high in Hb by lia].
  unfold wrap, modulus in Hb. rewrite Z.mod_pow2_bits_low, <- Z.shiftr_div_pow2, Z.shiftr_spec, signed_bit in Hb by (done || lia).
  assert (Z.land m (Z.lxor (calc_mask size) (Z.shiftr (calc_mask size) 1)) = 0 -> Z.testbit x (8 * size - 1) = false) as Htop.
  { intros E. destruct (Z.testbit x (8 * size - 1)) eqn:Ex; [|done]. apply H in Ex; [|lia].
    apply (f_equal (fun z => Z.testbit z (8 * size - 1))) in E.
    rewrite Z.land_spec, Ex, Z.lxor_spec, Z.shiftr_spec, calc_mask_ones, Z.ones_spec_low, Z.ones_spec_high, Z.testbit_0_l in E by lia. done. }
  unfold sright_mask. rewrite pcode_right_shift by done.
  destruct (Z.eqb_spec (Z.land m (Z.lxor (calc_mask size) (Z.shiftr (calc_mask size) 1))) 0) as [E|_].
  - rewrite Z.shiftr_spec by done. destruct (Z.le_gt_cases (i + sa) (8 * size - 1)).
    + rewrite Z.min_l in Hb by lia. by apply H; [lia|].
    + rewrite Z.min_r, Htop in Hb by (done || lia). done.
  - rewrite Z.lor_spec, Z.lxor_spec, pcode_right_shift, !Z.shiftr_spec, calc_mask_ones, (Z.ones_spec_low (8 * size) i) by (done || lia).
    destruct (Z.le_gt_cases (i + sa) (8 * size - 1)).
    + rewrite Z.min_l in Hb by lia. rewrite (H (i + sa)) by (done || lia). done.
    + rewrite Z.ones_spec_high by lia. apply orb_true_r.
Qed.

(** ** Counting *)

Lemma popcount_mono (p q : positive) : bits_in (Zpos p) (Zpos q) -> pos_popcount p <= pos_popcount q.
Proof.
  revert q. induction p as [p IH|p IH|]; intros q H.
  - pose proof (H 0 ltac:(lia) eq_refl) as H0. assert (forall r, q = xI r -> bits_in (Zpos p) (Zpos r)) as Hr.
    { intros r -> i Hi Hb. specialize (H (Z.succ i) ltac:(lia)). change (Zpos p~1) with (2 * Zpos p + 1) in H.
      change (Zpos r~1) with (2 * Zpos r + 1) in H. rewrite !Z.testbit_odd_succ in H by done. by apply H. }
    destruct q as [r|r|]; [|done|].
    + cbn [pos_popcount]. specialize (IH r (Hr r eq_refl)). lia.
    + exfalso. pose proof (bits_in_le (Zpos p~1) 1 ltac:(lia) ltac:(lia) H). lia.
  - assert (forall r b, Zpos q = 2 * Zpos r + Z.b2z b -> bits_in (Zpos p) (Zpos r)) as Hr.
    { intros r b E i Hi Hb. specialize (H (Z.succ i) ltac:(lia)). change (Zpos p~0) with (2 * Zpos p) in H. rewrite E in H.
      rewrite Z.double_bits_succ in H. destruct b; cbn [Z.b2z] in H; [rewrite Z.testbit_odd_succ in H by done; by apply H|].
      rewrite Z.add_0_r, Z.double_bits_succ in H. by apply H. }
    destruct q as [r|r|]; cbn [pos_popcount].
    + specialize (IH r (Hr r true ltac:(cbn; lia))). lia.
    + exact (IH r (Hr r false ltac:(cbn; lia))).
    + exfalso. pose proof (bits_in_le (Zpos p~0) 1 ltac:(lia) ltac:(lia) H). lia.
  - cbn [pos_popcount]. pose proof (popcount_le q). lia.
Qed.

Lemma count_ones_mono (x m : Z) : 0 <= x -> 0 <= m -> bits_in x m -> count_ones x <= count_ones m.
Proof.
  intros Hx Hm H. destruct x as [|p|p]; [| |lia].
  - destruct m as [|q|q]; cbn; [lia| |lia]. pose proof (popcount_le q). lia.
  - destruct m as [|q|q]; [|by apply popcount_mono|lia]. pose proof (bits_in_le _ _ Hx Hm H). lia.
Qed.
