(* ===== verification/NzMaskSound.v ===== *)
(** The execution of an SSA function on valuations of its varnodes, and the soundness of the masks
    for it: at a function whose masks satisfy the local equation of every operation, no execution sets
    a bit the masks exclude. *)
From Stdlib Require Import ZArith Lia Bool List.
From stdpp Require Import base decidable gmap list relations tactics.
From S2P Require Import Prelude OpCode BitUtil PcodeSem M68kAlu Machine MachineFacts AluFacts NzMask NzMaskFacts.
Local Open Scope Z_scope.

(** The value a varnode last received; [None] before it is first assigned. *)
Definition valuation : Type := nat -> option Z.

Definition assign (vals : valuation) (i : nat) (r : Z) : valuation := fun j => if Nat.eqb j i then Some r else vals j.

Definition boolean_result (opc : opcode) : bool :=
  match opc with
  | FloatEqual | FloatNotequal | FloatLess | FloatLessequal | FloatNan => true
  | _ => false
  end.

(** The operations whose result the p-code semantics of [PcodeSem] does not determine. *)
Definition opaque_result (opc : opcode) : bool :=
  match opc with
  | Load | Call | Callind | Callother | Cpoolref | Indirect | FloatAdd | FloatDiv | FloatMult | FloatSub | FloatNeg
  | FloatAbs | FloatSqrt | FloatInt2float | FloatFloat2float | FloatTrunc | FloatCeil | FloatFloor | FloatRound
  | Ptradd | Ptrsub | New | Insert | Extract | Segmentop | Cast => true
  | _ => false
  end.

(** [produces f vals o r]: executing [o] can give [r]. *)
Inductive produces (f : funcdata) (vals : valuation) (o : ssa_op) : Z -> Prop :=
| produces_unary out a x r : s_output o = Some out -> s_inputs o = [a] -> vals a = Some x ->
    eval_unary (s_code o) (v_size (vn f a)) (v_size (vn f out)) x = Some r -> produces f vals o r
| produces_binary out a b x y r : s_output o = Some out -> s_inputs o = [a; b] -> vals a = Some x -> vals b = Some y ->
    eval_binary (s_code o) (v_size (vn f a)) (v_size (vn f out)) x y = Some r -> produces f vals o r
| produces_piece out a b x y : s_output o = Some out -> s_inputs o = [a; b] -> s_code o = Piece -> vals a = Some x -> vals b = Some y ->
    produces f vals o (wrap (v_size (vn f out)) (x * 2 ^ (8 * v_size (vn f b)) + y))
| produces_phi a x : s_code o = Multiequal -> In a (s_inputs o) -> vals a = Some x -> produces f vals o x
| produces_boolean r : boolean_result (s_code o) = true -> 0 <= r <= 1 -> produces f vals o r
| produces_opaque out r : s_output o = Some out -> opaque_result (s_code o) = true -> is_value (v_size (vn f out)) r ->
    (s_calculated_bool o = true -> 0 <= r <= 1) -> produces f vals o r.

(** One operation of the function executes. *)
Inductive exec (f : funcdata) : valuation -> valuation -> Prop :=
| exec_op vals i out r : op_out f i = Some out -> produces f vals (op f i) r -> exec f vals (assign vals out r).

(** The sizes of an operation, as the p-code reference requires them; a truncation amount is a
    constant, and an arithmetic shift's constant amount fits the [u32] it is cast to. *)
Definition op_ok (f : funcdata) (o : ssa_op) : Prop :=
  match s_output o with
  | None => True
  | Some out =>
      valid_size (v_size (vn f out)) /\ Forall (fun i => valid_size (v_size (vn f i))) (s_inputs o) /\
      (if opaque_result (s_code o) || boolean_result (s_code o) then True
      else
        match s_code o, s_inputs o with
        | Multiequal, l => Forall (fun i => v_size (vn f i) = v_size (vn f out)) l
        | Piece, [a; b] => v_size (vn f a) + v_size (vn f b) = v_size (vn f out)
        | Subpiece, [a; b] => v_constant (vn f b) = true
        | opc, [a] => unary_sizes opc (v_size (vn f a)) (v_size (vn f out)) = true
        | opc, [a; b] => binary_sizes opc (v_size (vn f a)) (v_size (vn f b)) (v_size (vn f out)) = true /\
                         (opc = IntSright -> v_constant (vn f b) = true -> v_offset (vn f b) < 2 ^ 32)
        | _, _ => False
        end)
  end.

(** The value [x] of a varnode lies in its mask; a constant's value and mask are the constant. *)
Definition vn_sound (f : funcdata) (i : nat) (x : Z) : Prop :=
  is_value (v_size (vn f i)) x /\ 0 <= v_nzm (vn f i) < 2 ^ 64 /\ bits_in x (v_nzm (vn f i)) /\
  (v_constant (vn f i) = true -> x = v_offset (vn f i) /\ v_nzm (vn f i) = v_offset (vn f i)).

(** Every operation's output holds the mask the operation computes. *)
Definition stable (f : funcdata) (dom : list nat) : Prop :=
  forall i out, op_out f i = Some out -> v_nzm (vn f out) = op_nzmask_local f (op f i) false dom.

(** The operations are well sized, and write no constant. *)
Definition well_sized (f : funcdata) : Prop :=
  forall i, op_ok f (op f i) /\ (forall out, op_out f i = Some out -> v_constant (vn f out) = false).

Definition masks_ok (f : funcdata) : Prop := forall i, 0 <= v_nzm (vn f i) < 2 ^ 64.

(** ** Values of the results *)

Lemma small_bit_value (size r : Z) : valid_size size -> 0 <= r <= 1 -> is_value size r.
Proof. intros Hs Hr. pose proof (modulus_ge size Hs). unfold is_value. lia. Qed.

Lemma bit_in_one (r : Z) : 0 <= r <= 1 -> bits_in r 1.
Proof. intros Hr. assert (r = 0 \/ r = 1) as [-> | ->] by lia; [apply bits_in_0|apply bits_in_refl]. Qed.

Lemma b2z_bit (b : bool) : 0 <= b2z b <= 1.
Proof. destruct b; cbn; lia. Qed.

Lemma land_bits (x y : Z) : 0 <= Z.land (Z.land x 1) (Z.land y 1) <= 1.
Proof. destruct (bit_cases x) as [-> | ->], (bit_cases y) as [-> | ->]; vm_compute; (split; discriminate). Qed.

Lemma lor_bits (x y : Z) : 0 <= Z.lor (Z.land x 1) (Z.land y 1) <= 1.
Proof. destruct (bit_cases x) as [-> | ->], (bit_cases y) as [-> | ->]; vm_compute; (split; discriminate). Qed.

Lemma lxor_bits (x y : Z) : 0 <= Z.lxor (Z.land x 1) (Z.land y 1) <= 1.
Proof. destruct (bit_cases x) as [-> | ->], (bit_cases y) as [-> | ->]; vm_compute; (split; discriminate). Qed.

Create HintDb masks.
#[export] Hint Resolve small_bit_value bit_in_one b2z_bit land_bits lor_bits lxor_bits : masks.
#[export] Hint Resolve wrap_value bits_in_0 calc_mask_value : masks.

Lemma eval_unary_value (opc : opcode) (s1 out x r : Z) : valid_size out -> eval_unary opc s1 out x = Some r -> is_value out r.
Proof. intros Hs E. destruct opc; simplify_eq/=; auto with masks. Qed.

Lemma eval_binary_value (opc : opcode) (s1 out x y r : Z) : valid_size out -> eval_binary opc s1 out x y = Some r -> is_value out r.
Proof.
  intros Hs E. destruct opc; cbn in E; try (destruct (y =? 0)); simplify_eq/=; auto with masks.
Qed.

(** ** The mask of an operation covers its result *)

Lemma guard_sound (r m full rest : Z) : bits_in r full -> bits_in r rest -> bits_in r (if negb (m =? full) then rest else m).
Proof. intros H1 H2. destruct (Z.eqb_spec m full) as [->|]; done. Qed.

Lemma bits_in_lor (x y m n : Z) : bits_in x m -> bits_in y n -> bits_in (Z.lor x y) (Z.lor m n).
Proof. intros H1 H2 i Hi. rewrite !Z.lor_spec, !orb_true_iff. intros [E|E]; [left; by apply H1|right; by apply H2]. Qed.

Lemma bits_in_lxor (x y m n : Z) : bits_in x m -> bits_in y n -> bits_in (Z.lxor x y) (Z.lor m n).
Proof.
  intros H1 H2 i Hi. rewrite Z.lxor_spec, Z.lor_spec. intros E. destruct (Z.testbit x i) eqn:Ex; [by rewrite (H1 i Hi Ex)|].
  destruct (Z.testbit y i) eqn:Ey; [rewrite (H2 i Hi Ey); apply orb_true_r|done].
Qed.

Lemma bits_in_land2 (x y m n : Z) : bits_in x m -> bits_in y n -> bits_in (Z.land x y) (Z.land m n).
Proof. intros H1 H2 i Hi. rewrite !Z.land_spec, !andb_true_iff. intros [E1 E2]. split; [by apply H1|by apply H2]. Qed.

Lemma wrap_in (size x m : Z) : valid_size size -> bits_in x m -> bits_in (wrap size x) m.
Proof. intros Hs H. eapply bits_in_trans; [by apply wrap_bits_in|done]. Qed.

(** A shift by at least [2 ^ 32] leaves nothing, whatever its distance is cast to. *)
Lemma huge_right (x n : Z) : 0 <= x < 2 ^ 64 -> 64 <= n -> x / 2 ^ n = 0.
Proof. intros Hx Hn. apply Z.div_small. assert (2 ^ 64 <= 2 ^ n) by (apply Z.pow_le_mono_r; lia). lia. Qed.

Lemma huge_left (size x n : Z) : valid_size size -> 64 <= n -> wrap size (x * 2 ^ n) = 0.
Proof.
  intros Hs Hn. apply Z.mod_divide; [pose proof (modulus_pos size Hs); lia|].
  unfold modulus, valid_size in *. apply Z.divide_mul_r, pow2_divide. lia.
Qed.

Lemma add_mask_sound (size x y m1 m2 : Z) : valid_size size -> bits_in x m1 -> bits_in y m2 ->
  bits_in (wrap size (x + y)) (Z.land (Z.lor (Z.lor m1 m2) (u64_shl (Z.lor m1 m2) 1)) (calc_mask size)).
Proof.
  intros Hs H1 H2. pose proof (wrap_value size (x + y) Hs) as Hv. apply bits_in_land; [|by apply calc_mask_value].
  pose proof (wrap_in _ _ _ Hs (add_bits_in x y (Z.lor m1 m2) (bits_in_lor_l _ _ _ H1) (bits_in_lor_r _ _ _ H2))) as H.
  intros i Hi Hb. pose proof (word_bit _ i (value_word _ _ Hs Hv) Hb). specialize (H i Hi Hb). rewrite Z.lor_spec in *.
  apply orb_true_iff in H as [->|H]; [done|]. apply orb_true_iff. right. unfold u64_shl, w64.
  change 18446744073709551616 with (2 ^ 64). by rewrite Z.mod_pow2_bits_low by lia.
Qed.

Lemma left_const_sound (size x m y : Z) : valid_size size -> 0 <= y -> bits_in x m ->
  bits_in (wrap size (x * 2 ^ y)) (Z.land (pcode_left m (w32 y)) (calc_mask size)).
Proof.
  intros Hs Hy H. destruct (Z.lt_ge_cases y (2 ^ 32)); [rewrite w32_small by lia; by apply left_mask_sound|].
  rewrite huge_left by (done || lia). apply bits_in_0.
Qed.

Lemma right_const_sound (size x m y : Z) : valid_size size -> 0 <= x < 2 ^ 64 -> 0 <= m < 2 ^ 64 -> 0 <= y -> bits_in x m ->
  bits_in (wrap size (x / 2 ^ y)) (pcode_right m (w32 y)).
Proof.
  intros Hs Hx Hm Hy H. apply wrap_in; [done|]. destruct (Z.lt_ge_cases y (2 ^ 32)); [rewrite w32_small by lia; by apply right_mask_sound|].
  rewrite huge_right by lia. apply bits_in_0.
Qed.

Lemma subpiece_mask_sound (size x m y : Z) : 0 <= x < 2 ^ 64 -> 0 <= m < 2 ^ 64 -> 0 <= y -> bits_in x m -> valid_size size ->
  bits_in (wrap size (x / 2 ^ (8 * y))) (Z.land (if w32 y <? 8 then pcode_right m (8 * w32 y) else 0) (calc_mask size)).
Proof.
  intros Hx Hm Hy H Hs. apply bits_in_land; [|by apply calc_mask_value, wrap_value]. apply wrap_in; [done|].
  destruct (Z.lt_ge_cases y 8); [|rewrite huge_right by lia; apply bits_in_0]. rewrite w32_small by lia.
  destruct (Z.ltb_spec y 8); [apply right_mask_sound; (done || lia)|lia].
Qed.

Section Local.
Context (f : funcdata) (o : ssa_op) (out : nat) (dom : list nat).
Hypothesis Hout : s_output o = Some out.
Hypothesis Hok : op_ok f o.

Lemma out_valid : valid_size (v_size (vn f out)).
Proof. unfold op_ok in Hok. rewrite Hout in Hok. apply Hok. Qed.

Lemma full_sound (r : Z) : is_value (v_size (vn f out)) r -> bits_in r (calc_mask (v_size (vn f out))).
Proof. apply calc_mask_value, out_valid. Qed.

Lemma unary_sound (a : nat) (x r : Z) : s_inputs o = [a] -> vn_sound f a x ->
  eval_unary (s_code o) (v_size (vn f a)) (v_size (vn f out)) (x) = Some r ->
  bits_in r (op_nzmask_local f o false dom).
Proof.
  intros Ei (Hx & Hm & Hb & _) E. pose proof out_valid as Hv. pose proof (eval_unary_value _ _ _ _ _ Hv E) as Hr. pose proof (full_sound r Hr) as Hfull.
  unfold op_ok in Hok. rewrite Hout, Ei in Hok. destruct Hok as (_ & Hva & Hsz).
  apply Forall_inv in Hva. pose proof (value_word _ _ Hva Hx) as Hw.
  unfold op_nzmask_local. rewrite Hout, Ei. cbn [default nth].
  destruct (s_code o); cbn in E, Hsz; simplify_eq/=; auto with masks.
  - apply Z.eqb_eq in Hsz. rewrite wrap_small by (by rewrite <- Hsz). done.
  - apply Z.ltb_lt in Hsz. rewrite wrap_small; [done|]. pose proof (modulus_lt _ _ Hva Hv Hsz). unfold is_value in *. lia.
  - apply Z.ltb_lt in Hsz. by apply sext_mask_sound.
  - apply bits_in_land; [|done]. eapply bits_in_trans; [by apply wrap_bits_in|].
    pose proof (count_ones_word _ Hw). pose proof (count_ones_word _ Hm). apply covering_covers; [|lia].
    split; [lia|]. apply count_ones_mono; (done || lia).
  - apply bits_in_land; [|done]. eapply bits_in_trans; [by apply wrap_bits_in|]. unfold is_value, valid_size, modulus in *.
    apply covering_covers; [|lia]. destruct (Z.eqb_spec (x) 0); [lia|].
    assert (Z.log2 (x) < 8 * v_size (vn f a)) by (apply Z.log2_lt_pow2; lia). pose proof (Z.log2_nonneg (x)). lia.
Qed.

(** The result of a division and of a remainder is covered by the covering masks. *)
Lemma div_mask_sound (x m d : Z) : 0 <= x -> 0 <= m < 2 ^ 64 -> bits_in x m -> 0 < d -> bits_in (x / d) (coveringmask m).
Proof.
  clear. intros Hx Hm H Hd. pose proof (bits_in_le x m Hx ltac:(lia) H). apply covering_covers; [|lia].
  split; [apply Z.div_pos; lia|]. transitivity x; [|done]. apply Z.div_le_upper_bound; nia.
Qed.

Lemma div_const_mask_sound (x m d : Z) : 0 <= x -> 0 <= m < 2 ^ 64 -> bits_in x m -> 0 < d < 2 ^ 64 ->
  bits_in (x / d) (pcode_right (coveringmask m) (w32 (mostsigbit_set d))).
Proof.
  clear. intros Hx Hm H Hd. pose proof (bits_in_le x m Hx ltac:(lia) H). rewrite mostsigbit_spec by done.
  pose proof (Z.log2_spec d ltac:(lia)) as [Hlog _]. pose proof (Z.log2_nonneg d). pose proof (log2_word d ltac:(lia)).
  rewrite w32_small by lia. pose proof (pow2_pos (Z.log2 d) ltac:(lia)).
  pose proof (covering_word m Hm) as Hc.
  assert (m <= coveringmask m) by (apply bits_in_le; [lia|lia|by apply covering_le]).
  rewrite pcode_right_shift by lia. apply le_bits_in; [|apply low_ones_shiftr; [lia|by apply covering_low_ones]].
  rewrite Z.shiftr_div_pow2 by lia. split; [apply Z.div_pos; lia|].
  transitivity (x / 2 ^ Z.log2 d); [apply Z.div_le_compat_l; lia|apply Z.div_le_mono; lia].
Qed.

Lemma rem_mask_sound (x y m : Z) : 0 < y -> 0 <= m < 2 ^ 64 -> bits_in y m -> bits_in (x mod y) (coveringmask (u64_sub m 1)).
Proof.
  clear. intros Hy Hm H. pose proof (bits_in_le y m ltac:(lia) ltac:(lia) H). pose proof (Z.mod_pos_bound x y Hy).
  unfold u64_sub. rewrite w64_small by lia. apply covering_covers; lia.
Qed.

Lemma shift_const (a b : nat) (y : Z) : s_inputs o = [a; b] -> vn_sound f b y -> v_constant (vn f b) = true ->
  y = v_offset (vn f b) /\ v_nzm (vn f b) = y /\ 0 <= y < 2 ^ 64.
Proof.
  intros Ei (Hx & _ & _ & Hc) Ec. unfold op_ok in Hok. rewrite Hout, Ei in Hok. destruct Hok as (_ & Hva & _).
  apply Forall_inv_tail, Forall_inv in Hva.
  destruct (Hc Ec) as [E1 E2]. split_and!; [done|congruence|by eapply value_word..].
Qed.

Lemma binary_sound (a b : nat) (x y r : Z) : s_inputs o = [a; b] -> vn_sound f a x -> vn_sound f b y ->
  eval_binary (s_code o) (v_size (vn f a)) (v_size (vn f out)) (x) (y) = Some r ->
  bits_in r (op_nzmask_local f o false dom).
Proof.
  intros Ei Hsa Hsb E. pose proof out_valid as Hv. pose proof (eval_binary_value _ _ _ _ _ _ Hv E) as Hr. pose proof (full_sound r Hr) as Hfull.
  pose proof (shift_const a b y Ei Hsb) as Hsc.
  unfold op_ok in Hok. rewrite Hout, Ei in Hok. destruct Hok as (_ & Hva & Hsz).
  pose proof (Forall_inv Hva) as Ha. pose proof (Forall_inv (Forall_inv_tail Hva)) as Hb. clear Hva.
  destruct Hsa as (Hx & Hm1 & H1 & _). destruct Hsb as (Hy & Hm2 & H2 & _).
  pose proof (value_word _ _ Ha Hx) as Hwx. pose proof (value_word _ _ Hb Hy) as Hwy.
  unfold op_nzmask_local. rewrite Hout, Ei. cbn [default nth].
  destruct (s_code o); cbn [eval_binary] in E; try discriminate E; try exact Hfull;
    try (injection E as <-; auto with masks; fail); cbn [id] in *.
  - injection E as <-. apply guard_sound; [done|]. by apply add_mask_sound.
  - injection E as <-. apply guard_sound; [done|]. apply wrap_in; [done|]. by apply bits_in_lxor.
  - injection E as <-. apply wrap_in; [done|]. destruct (negb _); [by apply bits_in_land2|].
    intros i Hi. rewrite Z.land_spec, andb_true_iff. intros [Hi1 _]. by apply H1.
  - injection E as <-. apply guard_sound; [done|]. apply wrap_in; [done|]. by apply bits_in_lor.
  - destruct (v_constant (vn f b)); [|done]. destruct Hsc as (<- & _ & ?); [done|]. injection E as <-. apply left_const_sound; (done || lia).
  - destruct (v_constant (vn f b)); [|done]. destruct Hsc as (<- & _ & ?); [done|]. injection E as <-. apply right_const_sound; (done || lia).
  - destruct (v_constant (vn f b)) eqn:Ec; [|done]. destruct Hsc as (Ev & _ & ?); [done|]. cbn in Hsz. destruct Hsz as [Hsz Hlt].
    apply Z.eqb_eq in Hsz. specialize (Hlt eq_refl eq_refl). rewrite <- Ev in *. rewrite w32_small by lia. cbn [negb orb].
    destruct (Z.ltb_spec 8 (v_size (vn f out))); [done|]. injection E as <-. rewrite Hsz in *. apply sright_mask_sound; (done || lia).
  - injection E as <-. apply mult_mask_sound; (done || lia).
  - destruct (Z.eqb_spec (y) 0); [done|]. injection E as <-. apply wrap_in; [done|].
    destruct (v_constant (vn f b)); [|apply div_mask_sound; (done || lia)]. destruct Hsc as (_ & -> & ?); [done|].
    destruct (Z.eqb_spec (mostsigbit_set (y)) (-1)); [apply div_mask_sound|apply div_const_mask_sound]; (done || lia).
  - destruct (Z.eqb_spec (y) 0); [done|]. injection E as <-. apply wrap_in; [done|]. apply rem_mask_sound; (done || lia).
  - injection E as <-. destruct Hsc as (<- & _ & ?); [done|].
    destruct (Z.leb_spec (v_size (vn f a)) 8); [|unfold valid_size in Ha; lia]. apply subpiece_mask_sound; (done || lia).
Qed.

Lemma piece_sound (a b : nat) (x y : Z) : s_inputs o = [a; b] -> s_code o = Piece -> vn_sound f a x -> vn_sound f b y ->
  bits_in (wrap (v_size (vn f out)) (x * 2 ^ (8 * v_size (vn f b)) + y)) (op_nzmask_local f o false dom).
Proof.
  intros Ei Ec (Hx & Hm1 & H1 & _) (Hy & Hm2 & H2 & _). pose proof out_valid as Hv. unfold op_ok in Hok. rewrite Hout, Ei, Ec in Hok. destruct Hok as (_ & Hva & Hsz).
  pose proof (Forall_inv (Forall_inv_tail Hva)) as Hb. pose proof (Forall_inv Hva) as Ha. clear Hva. cbn in Hsz.
  unfold op_nzmask_local. rewrite Hout, Ei, Ec. cbn [default nth]. unfold valid_size in Hv, Ha, Hb.
  destruct (Z.ltb_spec (v_size (vn f b)) 8); [|lia]. unfold is_value, modulus in Hx, Hy.
  assert (x * 2 ^ (8 * v_size (vn f b)) + y < 2 ^ (8 * v_size (vn f out))) as Hlt.
  { rewrite <- Hsz, Z.mul_add_distr_l, Z.pow_add_r by lia. nia. }
  pose proof (pow2_pos (8 * v_size (vn f b)) ltac:(lia)). rewrite wrap_small by (unfold is_value, modulus; nia).
  assert (bits_in (x * 2 ^ (8 * v_size (vn f b))) (pcode_left (v_nzm (vn f a)) (8 * v_size (vn f b)))) as Hl.
  { unfold pcode_left. destruct (Z.leb_spec 64 (8 * v_size (vn f b))); [lia|]. unfold u64_shl. rewrite Z.mod_small by lia.
    apply bits_in_w64; [|rewrite <- Z.shiftl_mul_pow2 by lia; by apply bits_in_shiftl].
    assert (2 ^ (8 * v_size (vn f out)) <= 2 ^ 64) by (apply Z.pow_le_mono_r; lia). nia. }
  replace (x * 2 ^ (8 * v_size (vn f b)) + y) with (Z.lor (x * 2 ^ (8 * v_size (vn f b))) (y)); [by apply bits_in_lor|].
  rewrite <- Z.add_lor_land, <- (Z.add_0_r (Z.lor _ _)) at 1. f_equal. symmetry. apply Z.bits_inj'. intros i Hi.
  rewrite Z.land_spec, Z.testbit_0_l. destruct (Z.lt_ge_cases i (8 * v_size (vn f b))).
  - by rewrite Z.mul_pow2_bits_low by lia.
  - destruct (Z.testbit (y) i) eqn:E; [|by rewrite andb_false_r]. pose proof (top_bit (y) i ltac:(lia) Hi E).
    assert (2 ^ (8 * v_size (vn f b)) <= 2 ^ i) by (apply Z.pow_le_mono_r; lia). lia.
Qed.

(** The fold over the inputs of a phi collects the mask of every one of them. *)
Lemma phi_fold (l : list nat) (g : nat -> Z) (acc : Z) (x : Z) :
  bits_in x acc \/ (exists i, In i l /\ bits_in x (g i)) -> bits_in x (fold_left (fun m i => Z.lor m (g i)) l acc).
Proof.
  clear. revert acc. induction l as [|i l IH]; intros acc H; cbn [fold_left].
  - by destruct H as [H|(i & [] & _)].
  - apply IH. destruct H as [H|(j & [->|Hj] & H)]; [left; by apply bits_in_lor_l|left; by apply bits_in_lor_r|right; by exists j].
Qed.

Lemma phi_sound (a : nat) (x : Z) : s_code o = Multiequal -> In a (s_inputs o) -> vn_sound f a x -> bits_in x (op_nzmask_local f o false dom).
Proof.
  intros Ec Ha (_ & _ & Hb & _). unfold op_nzmask_local. rewrite Ec. cbn [andb]. destruct (s_inputs o) as [|i0 l0] eqn:Ei; [done|]. rewrite <- Ei in *.
  apply phi_fold. right. apply (In_nth _ _ (List.length (f_vns f))) in Ha as (k & Hk & Ea).
  exists k. split; [apply in_seq; lia|]. by rewrite Ea.
Qed.

Lemma local_sound (vals : valuation) (r : Z) : (forall a x, vals a = Some x -> vn_sound f a x) -> produces f vals o r ->
  is_value (v_size (vn f out)) r /\ bits_in r (op_nzmask_local f o false dom).
Proof.
  pose proof out_valid as Hv. intros Hvals Hp.
  destruct Hp as [out' a x r E Ei Ex Er|out' a b x y r E Ei Ex Ey Er|out' a b x y E Ei Ec Ex Ey|a x Ec Ha Ex|r Ec Hr|out' r E Ec Hr Hb].
  - rewrite Hout in E. injection E as <-. split; [by eapply eval_unary_value|exact (unary_sound a x r Ei (Hvals a x Ex) Er)].
  - rewrite Hout in E. injection E as <-. split; [by eapply eval_binary_value|by eapply binary_sound; eauto].
  - rewrite Hout in E. injection E as <-. split; [by apply wrap_value|exact (piece_sound a b x y Ei Ec (Hvals a x Ex) (Hvals b y Ey))].
  - split; [|by eapply phi_sound; eauto]. unfold op_ok in Hok. rewrite Hout, Ec in Hok. destruct Hok as (_ & _ & Hsz). cbn in Hsz.
    rewrite List.Forall_forall in Hsz. rewrite <- (Hsz a Ha). by apply Hvals.
  - split; [by apply small_bit_value|]. unfold op_nzmask_local. destruct (s_code o); try done; by apply bit_in_one.
  - rewrite Hout in E. injection E as <-. split; [done|]. pose proof (full_sound r Hr). unfold op_nzmask_local. rewrite Hout. cbn [default id].
    destruct (s_code o), (s_calculated_bool o); try done; by apply bit_in_one, Hb.
Qed.
End Local.

(** ** Executions *)

(** One step keeps every varnode within its mask. *)
Lemma exec_sound (f : funcdata) (dom : list nat) (vals vals' : valuation) : stable f dom -> well_sized f -> masks_ok f ->
  exec f vals vals' -> (forall i x, vals i = Some x -> vn_sound f i x) -> forall i x, vals' i = Some x -> vn_sound f i x.
Proof.
  intros Hst Hw Hm He Hvals i x Hi. destruct He as [vals k out r Hout Hp]. unfold assign in Hi.
  destruct (Nat.eqb_spec i out) as [->|Hne]; [|by apply Hvals]. injection Hi as <-. destruct (Hw k) as [Hok Hc].
  destruct (local_sound f (op f k) out dom Hout Hok vals r Hvals Hp) as [Hv Hb]. rewrite <- (Hst k out Hout) in Hb.
  unfold vn_sound. rewrite (Hc out Hout). split; [done|]. split; [by apply Hm|done].
Qed.

Lemma execs_sound (f : funcdata) (dom : list nat) (vals vals' : valuation) : stable f dom -> well_sized f -> masks_ok f ->
  rtc (exec f) vals vals' -> (forall i x, vals i = Some x -> vn_sound f i x) -> forall i x, vals' i = Some x -> vn_sound f i x.
Proof.
  intros Hst Hw Hm Hr. induction Hr as [vals|vals vals1 vals2 H1 _ IH]; intros Hvals; [done|]. apply IH. by eapply exec_sound.
Qed.
