(* ===== verification/NzMaskGraph.v ===== *)
(** The graph the non-zero-mask analysis works on: what it never changes, what an operation's mask
    depends on, and that every mask is a 64-bit word. *)
From Stdlib Require Import ZArith Lia Bool List.
From stdpp Require Import base decidable gmap list relations tactics.
From S2P Require Import Prelude OpCode BitUtil PcodeSem AluFacts NzMask NzMaskFacts NzMaskSound.
Local Open Scope Z_scope.

(** The function without its masks: what the analysis never changes. *)
Definition erase (f : funcdata) : funcdata :=
  Funcdata (map (fun v => with_nzm v 0) (f_vns f)) (f_ops f) (f_blocks f).

(** The input [slot] of [o] is a back edge the depth-first phase leaves out. *)
Definition clipped (f : funcdata) (dom : list nat) (o : ssa_op) (slot : nat) : bool :=
  bool_decide (s_code o = Multiequal) && is_loop_in f o slot dom.

(** What heritage leaves: single assignment, complete descendant lists, every operation in a block,
    and no cycle other than through a back edge of a phi ([rank] decreases from an operation to the
    definitions of its inputs). *)
Record ssa_ok (f : funcdata) (dom : list nat) (rank : nat -> nat) : Prop := SsaOk {
  ssa_out : forall i out, op_out f i = Some out ->
    (out < List.length (f_vns f))%nat /\ v_written (vn f out) = true /\ v_def (vn f out) = Some i;
  ssa_def : forall a, v_written (vn f a) = true -> exists d, v_def (vn f a) = Some d /\ op_out f d = Some a;
  ssa_in : forall i a, In a (s_inputs (op f i)) -> (a < List.length (f_vns f))%nat /\ In i (v_descend (vn f a));
  ssa_listed : forall i out, op_out f i = Some out -> In i (all_ops f);
  ssa_rank : forall i k a d, nth_error (s_inputs (op f i)) k = Some a -> clipped f dom (op f i) k = false ->
    v_written (vn f a) = true -> v_def (vn f a) = Some d -> (rank d < rank i)%nat;
}.

(** ** The graph and the masks *)

Lemma vn_set (f : funcdata) (i j : nat) (m : Z) :
  vn (set_nzm f i m) j = if Nat.eqb j i && Nat.ltb i (List.length (f_vns f)) then with_nzm (vn f j) m else vn f j.
Proof.
  unfold vn, set_nzm. cbn [f_vns]. rewrite !nth_lookup, list_lookup_alter. destruct (Nat.eqb_spec j i) as [->|Hne]; cbn [andb].
  - rewrite decide_True by done. destruct (Nat.ltb_spec i (List.length (f_vns f))) as [Hl|Hl].
    + by destruct (lookup_lt_is_Some_2 (f_vns f) i Hl) as [v ->].
    + by rewrite lookup_ge_None_2.
  - by rewrite decide_False by congruence.
Qed.

Lemma erase_set (f : funcdata) (i : nat) (m : Z) : erase (set_nzm f i m) = erase f.
Proof.
  unfold erase, set_nzm. cbn [f_vns f_ops f_blocks]. f_equal. apply list_eq. intros k.
  change (((fun v => with_nzm v 0) <$> alter (fun v => with_nzm v m) i (f_vns f)) !! k = ((fun v => with_nzm v 0) <$> f_vns f) !! k).
  rewrite !list_lookup_fmap, list_lookup_alter. destruct (decide (i = k)) as [->|]; by destruct (f_vns f !! k).
Qed.

Section Graph.
Context (f g : funcdata).
Hypothesis Hg : erase f = erase g.

Lemma erase_ops : f_ops f = f_ops g.
Proof. by injection Hg. Qed.

Lemma erase_blocks : f_blocks f = f_blocks g.
Proof. by injection Hg. Qed.

Lemma erase_length : List.length (f_vns f) = List.length (f_vns g).
Proof. injection Hg as E _ _. apply (f_equal (@List.length vnode)) in E. by rewrite !length_map in E. Qed.

Lemma erase_op (i : nat) : op f i = op g i.
Proof. unfold op. by rewrite erase_ops. Qed.

Lemma erase_vn (i : nat) : with_nzm (vn f i) 0 = with_nzm (vn g i) 0.
Proof.
  injection Hg as E _ _. unfold vn.
  pose proof (map_nth (fun v => with_nzm v 0) (f_vns f) no_vnode i) as Ef. pose proof (map_nth (fun v => with_nzm v 0) (f_vns g) no_vnode i) as Eg.
  cbn beta in Ef, Eg. by rewrite <- Ef, <- Eg, E.
Qed.

Lemma erase_eq (i : nat) (m : Z) : with_nzm (vn f i) m = with_nzm (vn g i) m.
Proof. pose proof (erase_vn i) as E. unfold with_nzm in *. by injection E as -> -> -> -> -> -> ->. Qed.

Lemma erase_fields (i : nat) : v_size (vn f i) = v_size (vn g i) /\ v_constant (vn f i) = v_constant (vn g i) /\
  v_offset (vn f i) = v_offset (vn g i) /\ v_written (vn f i) = v_written (vn g i) /\ v_def (vn f i) = v_def (vn g i) /\
  v_descend (vn f i) = v_descend (vn g i) /\ leaf_mask (vn f i) = leaf_mask (vn g i).
Proof. pose proof (erase_vn i) as E. unfold with_nzm in E. injection E as E1 E2 E3 E4 E5 E6 E7. unfold leaf_mask. by rewrite E1, E2, E3, E4. Qed.
End Graph.

(** The mask of an operation reads only the masks of the inputs that are not left out. *)
Lemma local_ext (f g : funcdata) (dom : list nat) (o : ssa_op) (cl : bool) : erase f = erase g ->
  (forall k a, nth_error (s_inputs o) k = Some a -> cl && clipped f dom o k = false -> v_nzm (vn f a) = v_nzm (vn g a)) ->
  op_nzmask_local f o cl dom = op_nzmask_local g o cl dom.
Proof.
  intros Hg Hm. pose proof (erase_fields f g Hg (default 0%nat (s_output o))) as (Eout & _).
  assert (forall k, v_size (vn f (nth k (s_inputs o) (List.length (f_vns f)))) = v_size (vn g (nth k (s_inputs o) (List.length (f_vns g)))) /\
    v_constant (vn f (nth k (s_inputs o) (List.length (f_vns f)))) = v_constant (vn g (nth k (s_inputs o) (List.length (f_vns g)))) /\
    v_offset (vn f (nth k (s_inputs o) (List.length (f_vns f)))) = v_offset (vn g (nth k (s_inputs o) (List.length (f_vns g))))) as Hf.
  { intros k. rewrite (erase_length f g Hg). pose proof (erase_fields f g Hg (nth k (s_inputs o) (List.length (f_vns g)))) as (E1 & E2 & E3 & _). done. }
  assert (forall k, cl && clipped f dom o k = false ->
    v_nzm (vn f (nth k (s_inputs o) (List.length (f_vns f)))) = v_nzm (vn g (nth k (s_inputs o) (List.length (f_vns g))))) as Hn.
  { intros k Hk. destruct (nth_error (s_inputs o) k) as [a|] eqn:E.
    - rewrite !(nth_error_nth _ _ _ E). by eapply Hm.
    - apply nth_error_None in E. rewrite !nth_overflow by done. unfold vn. by rewrite !nth_overflow by done. }
  destruct (decide (s_code o = Multiequal)) as [Ec|Ec].
  - unfold op_nzmask_local. rewrite Ec, Eout. destruct (s_inputs o) as [|a0 l0] eqn:Ei; [done|]. rewrite <- Ei in *. clear a0 l0 Ei.
    match goal with |- fold_left ?F ?l ?a = fold_left ?G ?l ?a => assert (forall l' a', fold_left F l' a' = fold_left G l' a') as H; [|apply H] end.
    induction l' as [|k l IH]; intros acc; cbn [fold_left]; [done|].
    assert (is_loop_in f o k dom = is_loop_in g o k dom) as El by (unfold is_loop_in; by rewrite (erase_blocks f g Hg)).
    unfold clipped in Hn. specialize (Hn k). rewrite Ec, bool_decide_eq_true_2 in Hn by done. cbn [andb] in Hn.
    rewrite <- El. destruct (cl && is_loop_in f o k dom) eqn:Ecl; [apply IH|]. rewrite Hn by done. apply IH.
  - assert (forall k, cl && clipped f dom o k = false) as Hcl.
    { intros k. unfold clipped. rewrite bool_decide_eq_false_2 by done. apply andb_false_r. }
    pose proof (Hn 0%nat (Hcl _)) as N0. pose proof (Hn 1%nat (Hcl _)) as N1.
    destruct (Hf 0%nat) as (S0 & C0 & O0), (Hf 1%nat) as (S1 & C1 & O1). clear Hf Hn.
    unfold op_nzmask_local. rewrite Eout, N0, N1, S0, S1, C1, O1. destruct (s_code o); done.
Qed.

(** ** The masks are words *)

Definition word (m : Z) : Prop := 0 <= m < 2 ^ 64.

(** Sizes are [u32] values. *)
Definition sizes_ok (f : funcdata) : Prop := forall i, 0 <= v_size (vn f i).

Lemma word_w64 (z : Z) : word (w64 z).
Proof. apply w64_range. Qed.

Lemma word_shr (m n : Z) : word m -> word (u64_shr m n).
Proof.
  unfold word, u64_shr. intros Hm. pose proof (Z.mod_pos_bound n 64 ltac:(lia)). rewrite Z.shiftr_div_pow2 by lia.
  pose proof (pow2_pos (n mod 64) ltac:(lia)). split; [apply Z.div_pos; lia|]. apply Z.div_lt_upper_bound; nia.
Qed.

Lemma word_land (x m : Z) : word m -> word (Z.land x m).
Proof. unfold word. intros Hm. rewrite Z.land_comm. destruct (Z.le_gt_cases 0 x); [apply land_word; lia|].
  assert (0 <= Z.land m x) by (apply Z.land_nonneg; lia). assert (bits_in (Z.land m x) m) by (intros i _; rewrite Z.land_spec; by intros [? _]%andb_true_iff).
  pose proof (bits_in_le (Z.land m x) m ltac:(lia) ltac:(lia) ltac:(done)). lia.
Qed.

Lemma word_lor (x m : Z) : word x -> word m -> word (Z.lor x m).
Proof. apply lor_word. Qed.

Lemma word_lxor (x m : Z) : word x -> word m -> word (Z.lxor x m).
Proof. apply lxor_word. Qed.

Lemma word_left (m n : Z) : word (pcode_left m n).
Proof. unfold pcode_left. destruct (64 <=? n); [done|apply word_w64]. Qed.

Lemma word_right (m n : Z) : word m -> word (pcode_right m n).
Proof. intros Hm. unfold pcode_right. destruct (64 <=? n); [done|by apply word_shr]. Qed.

Lemma word_calc (size : Z) : 0 <= size -> word (calc_mask size).
Proof.
  intros Hs. unfold word. destruct (Z.le_gt_cases size 8); [|unfold calc_mask; by destruct (Z.leb_spec 8 size); [|lia]].
  rewrite calc_mask_ones, ones_pow by lia. pose proof (pow2_pos (8 * size) ltac:(lia)). pose proof (pow2_le_64 (8 * size) ltac:(lia)). lia.
Qed.

Lemma word_sext (m s1 s2 : Z) : 0 <= s2 -> word (sign_extend_mask m s1 s2).
Proof.
  intros Hs. unfold sign_extend_mask. destruct (_ <=? _); [apply word_land, word_calc; lia|]. apply word_shr, word_w64.
Qed.

Lemma word_covering (m : Z) : word m -> word (coveringmask m).
Proof. apply covering_word. Qed.

Create HintDb words64.
#[export] Hint Resolve word_w64 word_shr word_land word_lor word_lxor word_left word_right word_calc word_sext word_covering : words64.
#[export] Hint Extern 1 (word _) => done : words64.

Lemma word_fold (l : list nat) (g : Z -> nat -> Z) (acc : Z) : (forall m i, word m -> word (g m i)) -> word acc -> word (fold_left g l acc).
Proof. intros Hg. revert acc. induction l as [|i l IH]; intros acc Ha; [done|]. cbn [fold_left]. apply IH. by apply Hg. Qed.

Lemma local_word (f : funcdata) (o : ssa_op) (cl : bool) (dom : list nat) : sizes_ok f -> masks_ok f ->
  word (op_nzmask_local f o cl dom).
Proof.
  intros Hs Hm. assert (forall i, word (v_nzm (vn f i))) as Hw by exact Hm. assert (word 0) by done. assert (word 1) by done.
  pose proof (Hs (default 0%nat (s_output o))) as Ho. pose proof (word_calc _ Ho) as Hfull.
  unfold op_nzmask_local. destruct (s_code o); auto with words64; unfold sright_mask, mult_mask, u64_sub;
    try (repeat match goal with |- context [if ?b then _ else _] => destruct b end; auto with words64; fail).
  destruct (s_inputs o) as [|a l]; [done|]. apply word_fold; [|done]. intros m i Hmi. destruct (_ && _); auto with words64.
Qed.

