(* ===== verification/NzMaskCalc.v ===== *)
(** The analysis of [nzmask.rs] computes what it is meant to: the depth-first phase visits every
    operation once, inputs before users, within a fuel read off the function, and the worklist phase
    ends only where the equation of every operation holds. *)
From Stdlib Require Import ZArith Lia Bool List.
From stdpp Require Import base decidable gmap list relations tactics.
From S2P Require Import Prelude OpCode BitUtil PcodeSem NzMask NzMaskFacts NzMaskSound NzMaskGraph.
Local Open Scope Z_scope.

(** ** The depth-first phase *)

Section Calc.
Context (f0 : funcdata) (dom : list nat) (rank : nat -> nat).
Hypothesis Hssa : ssa_ok f0 dom rank.
Hypothesis Hsizes : sizes_ok f0.

(** A varnode whose mask is what it will be at the end of the phase, [fin] the operations done. *)
Definition settled (f : funcdata) (fin : nat -> Prop) (a : nat) : Prop :=
  if v_written (vn f0 a) then exists d, v_def (vn f0 a) = Some d /\ fin d
  else v_nzm (vn f a) = leaf_mask (vn f0 a).

Definition unclipped (i k a : nat) : Prop :=
  nth_error (s_inputs (op f0 i)) k = Some a /\ clipped f0 dom (op f0 i) k = false.

(** An operation that is done: its inputs are settled and its output has its mask. *)
Definition finished (f : funcdata) (fin : nat -> Prop) (i : nat) : Prop :=
  (forall out, op_out f0 i = Some out -> v_nzm (vn f out) = op_nzmask_local f (op f0 i) true dom) /\
  (forall k a, unclipped i k a -> settled f fin a).

(** The stack: the inputs before the slot are settled, but for the one whose definition is the entry
    [above]. *)
Fixpoint stack_ok (f : funcdata) (fin : nat -> Prop) (above : option nat) (stack : list (nat * nat)) : Prop :=
  match stack with
  | [] => True
  | (i, slot) :: stack =>
      (forall k a, (k < slot)%nat -> unclipped i k a -> settled f fin a \/
         (exists d, v_written (vn f0 a) = true /\ v_def (vn f0 a) = Some d /\ above = Some d)) /\
      (forall d, above = Some d -> (rank d < rank i)%nat) /\
      stack_ok f fin (Some i) stack
  end.

Definition fin_of (marked : gset nat) (stack : list (nat * nat)) (i : nat) : Prop := i ∈ marked /\ ~ In i (map fst stack).

Record phase1_inv (f : funcdata) (marked : gset nat) (stack : list (nat * nat)) : Prop := Phase1Inv {
  inv_graph : erase f = erase f0;
  inv_done : forall i, fin_of marked stack i -> finished f (fin_of marked stack) i;
  inv_stack : stack_ok f (fin_of marked stack) None stack;
  inv_marked : forall i, In i (map fst stack) -> i ∈ marked;
  inv_leaves : forall a, v_written (vn f0 a) = false -> v_nzm (vn f a) = leaf_mask (vn f0 a) \/ v_nzm (vn f a) = v_nzm (vn f0 a);
  inv_words : masks_ok f;
}.

Lemma stack_rank (f : funcdata) (fin : nat -> Prop) (d : nat) (stack : list (nat * nat)) :
  stack_ok f fin (Some d) stack -> forall i, In i (map fst stack) -> (rank d < rank i)%nat.
Proof.
  revert d. induction stack as [|[j slot] stack IH]; intros d Hs i Hi; [done|]. destruct Hs as (_ & Hr & Hs).
  specialize (Hr d eq_refl). destruct Hi as [<-|Hi]; [done|]. specialize (IH j Hs i Hi). lia.
Qed.

Lemma top_not_below (f : funcdata) (fin : nat -> Prop) (above : option nat) (i slot : nat) (stack : list (nat * nat)) :
  stack_ok f fin above ((i, slot) :: stack) -> ~ In i (map fst stack).
Proof. intros (_ & _ & Hs) Hi. pose proof (stack_rank _ _ _ _ Hs i Hi). lia. Qed.

Lemma settled_mono (f f' : funcdata) (fin fin' : nat -> Prop) (a : nat) : (forall d, fin d -> fin' d) ->
  (v_written (vn f0 a) = false -> v_nzm (vn f a) = leaf_mask (vn f0 a) -> v_nzm (vn f' a) = v_nzm (vn f a)) ->
  settled f fin a -> settled f' fin' a.
Proof.
  intros Hfin Hm. unfold settled. destruct (v_written (vn f0 a)).
  - intros (d & E & Hd). exists d. auto.
  - intros E. by rewrite Hm.
Qed.

Lemma stack_ok_mono (f f' : funcdata) (fin fin' : nat -> Prop) (above : option nat) (stack : list (nat * nat)) :
  (forall a, settled f fin a -> settled f' fin' a) -> stack_ok f fin above stack -> stack_ok f' fin' above stack.
Proof.
  intros Hset. revert above. induction stack as [|[i slot] stack IH]; intros above; [done|]. intros (H1 & H2 & H3).
  split; [|split; [done|by apply IH]]. intros k a Hk Hu. destruct (H1 k a Hk Hu) as [Hs|Hs]; [left; auto|by right].
Qed.

(** The operation above is done. *)
Lemma stack_ok_pop (f : funcdata) (fin : nat -> Prop) (d : nat) (stack : list (nat * nat)) :
  fin d -> stack_ok f fin (Some d) stack -> stack_ok f fin None stack.
Proof.
  intros Hd. destruct stack as [|[i slot] stack]; [done|]. intros (H1 & _ & H3). split; [|split; [done|done]].
  intros k a Hk Hu. destruct (H1 k a Hk Hu) as [Hs|(d' & Hw & Ed & E)]; [by left|]. left. injection E as ->.
  unfold settled. rewrite Hw. by exists d'.
Qed.

Lemma unclipped_in (i k a : nat) : unclipped i k a -> In a (s_inputs (op f0 i)).
Proof. intros [H _]. by eapply nth_error_In. Qed.

(** A finished operation stays finished when no mask it depends on changes. *)
Lemma finished_ext (f f' : funcdata) (fin fin' : nat -> Prop) (i : nat) : erase f = erase f0 -> erase f' = erase f0 ->
  (forall a, settled f fin a -> settled f' fin' a) ->
  (forall a, settled f fin a -> v_nzm (vn f' a) = v_nzm (vn f a)) ->
  (forall out, op_out f0 i = Some out -> v_nzm (vn f' out) = v_nzm (vn f out)) ->
  finished f fin i -> finished f' fin' i.
Proof.
  intros Hg Hg' Hset Hm Hout [H1 H2]. split; [|intros k a Hu; eauto].
  intros out Ho. rewrite Hout, (H1 out Ho) by done. apply local_ext; [congruence|]. intros k a Hk Hc. symmetry. apply Hm, (H2 k).
  split; [done|]. unfold clipped in *. unfold is_loop_in in *. rewrite (erase_blocks f f0 Hg) in Hc. done.
Qed.

Lemma set_mask (f : funcdata) (a j : nat) (m : Z) : erase f = erase f0 -> (a < List.length (f_vns f0))%nat ->
  v_nzm (vn (set_nzm f a m) j) = if Nat.eqb j a then m else v_nzm (vn f j).
Proof.
  intros Hg Ha. rewrite vn_set, (erase_length f f0 Hg). destruct (Nat.eqb_spec j a); cbn [andb]; [|done].
  by destruct (Nat.ltb_spec a (List.length (f_vns f0))); [|lia].
Qed.

Lemma words_set (f : funcdata) (a : nat) (m : Z) : masks_ok f -> word m -> masks_ok (set_nzm f a m).
Proof. intros Hf Hm j. rewrite vn_set. by destruct (_ && _). Qed.

Lemma leaf_word (a : nat) : word (leaf_mask (vn f0 a)).
Proof.
  pose proof (word_calc _ (Hsizes a)). unfold leaf_mask. destruct (v_constant _); [by apply word_land|].
  destruct (v_spacebase _); [|done]. rewrite Z.land_comm. by apply word_land.
Qed.

Lemma inv_leaf (f : funcdata) (marked : gset nat) (stack : list (nat * nat)) (a : nat) : phase1_inv f marked stack ->
  (a < List.length (f_vns f0))%nat -> v_written (vn f0 a) = false ->
  phase1_inv (set_nzm f a (leaf_mask (vn f0 a))) marked stack /\
  settled (set_nzm f a (leaf_mask (vn f0 a))) (fin_of marked stack) a.
Proof.
  intros [Hg Hd Hs Hm Hlv Hwd] Ha Hw.
  assert (forall b, settled f (fin_of marked stack) b -> v_nzm (vn (set_nzm f a (leaf_mask (vn f0 a))) b) = v_nzm (vn f b)) as Hsame.
  { intros b Hb. rewrite set_mask by done. destruct (Nat.eqb_spec b a) as [->|]; [|done].
    unfold settled in Hb. rewrite Hw in Hb. by rewrite Hb. }
  assert (forall b, settled f (fin_of marked stack) b -> settled (set_nzm f a (leaf_mask (vn f0 a))) (fin_of marked stack) b) as Hset.
  { intros b Hb. eapply settled_mono; [| |exact Hb]; [done|]. intros _ _. by apply Hsame. }
  split; [|unfold settled; rewrite Hw; rewrite set_mask by done; by rewrite Nat.eqb_refl]. split.
  - by rewrite erase_set.
  - intros i Hi. eapply finished_ext; [exact Hg|by rewrite erase_set|exact Hset|exact Hsame| |by apply Hd].
    intros out Ho. rewrite set_mask by done. destruct (Nat.eqb_spec out a) as [->|]; [|done].
    apply (ssa_out _ _ _ Hssa) in Ho as (_ & E & _). congruence.
  - eapply stack_ok_mono; [exact Hset|done].
  - done.
  - intros b Hb. rewrite set_mask by done. destruct (Nat.eqb_spec b a) as [->|]; [by left|by apply Hlv].
  - by apply words_set, leaf_word.
Qed.

Lemma inv_bump (f : funcdata) (marked : gset nat) (i slot : nat) (stack : list (nat * nat)) :
  phase1_inv f marked ((i, slot) :: stack) -> (forall a, unclipped i slot a -> settled f (fin_of marked ((i, slot) :: stack)) a) ->
  phase1_inv f marked ((i, S slot) :: stack).
Proof.
  intros [Hg Hd Hs Hm Hlv Hwd] Ha. split; [done|done| |done|done|done]. destruct Hs as (H1 & H2 & H3). split; [|split; [done|exact H3]].
  intros k a Hk Hu. destruct (decide (k = slot)) as [->|]; [left; by apply Ha|]. apply (H1 k a); [lia|done].
Qed.

(** Descending to the definition of the input at the slot. *)
Lemma inv_push (f : funcdata) (marked : gset nat) (i slot d a : nat) (stack : list (nat * nat)) :
  phase1_inv f marked ((i, slot) :: stack) -> unclipped i slot a -> v_written (vn f0 a) = true -> v_def (vn f0 a) = Some d ->
  d ∉ marked -> phase1_inv f ({[ d ]} ∪ marked) ((d, 0%nat) :: (i, S slot) :: stack).
Proof.
  intros [Hg Hd Hs Hm Hlv Hwd] Hu Hw Ed Hnew.
  assert (forall j, fin_of ({[ d ]} ∪ marked) ((d, 0%nat) :: (i, S slot) :: stack) j <-> fin_of marked ((i, slot) :: stack) j) as Hfin.
  { intros j. unfold fin_of. cbn [map fst In]. split.
    - intros [H1 H2]. apply elem_of_union in H1 as [H1|H1]; [apply elem_of_singleton in H1 as ->; exfalso; apply H2; by left|].
      split; [done|]. intros H3. apply H2. by right.
    - intros [H1 H2]. split; [by apply elem_of_union_r|]. intros [->|H3]; [done|by apply H2]. }
  assert (forall b, settled f (fin_of marked ((i, slot) :: stack)) b ->
    settled f (fin_of ({[ d ]} ∪ marked) ((d, 0%nat) :: (i, S slot) :: stack)) b) as Hset.
  { intros b. apply settled_mono; [intros j; apply Hfin|done]. }
  destruct Hs as (H1 & H2 & H3). pose proof (stack_ok_mono f f _ _ _ _ Hset H3) as H3'. split; [done| | | |done|done].
  - intros j Hj. apply Hfin in Hj. eapply finished_ext; [exact Hg|exact Hg|exact Hset|done|done|by apply Hd].
  - cbn [stack_ok]. split; [intros k b Hk; lia|]. split; [done|]. split; [|split; [|exact H3']].
    + intros k b Hk Hub. destruct (decide (k = slot)) as [->|].
      * right. exists d. destruct Hu as [E1 _], Hub as [E2 _]. rewrite E1 in E2. injection E2 as <-. done.
      * destruct (H1 k b ltac:(lia) Hub) as [Hb|(d' & _ & _ & E)]; [left; by apply Hset|done].
    + intros d' E. injection E as <-. destruct Hu as [E1 E2]. exact (ssa_rank _ _ _ Hssa i slot a d E1 E2 Hw Ed).
  - cbn [map fst In]. intros j [<-|Hj]; [by apply elem_of_union_l, elem_of_singleton|]. apply elem_of_union_r, Hm. done.
Qed.

Definition finish (f : funcdata) (i : nat) : funcdata :=
  match op_out f0 i with
  | Some out => set_nzm f out (op_nzmask_local f (op f0 i) true dom)
  | None => f
  end.

Lemma finish_graph (f : funcdata) (i : nat) : erase f = erase f0 -> erase (finish f i) = erase f0.
Proof. intros Hg. unfold finish. destruct (op_out f0 i); [by rewrite erase_set|done]. Qed.

Lemma finish_mask (f : funcdata) (i j : nat) : erase f = erase f0 -> op_out f0 i <> Some j ->
  v_nzm (vn (finish f i) j) = v_nzm (vn f j).
Proof.
  intros Hg Hj. unfold finish. destruct (op_out f0 i) as [out|] eqn:Eo; [|done].
  rewrite set_mask by (done || by eapply ssa_out). by destruct (Nat.eqb_spec j out) as [->|].
Qed.

Lemma finish_out (f : funcdata) (i out : nat) : erase f = erase f0 -> op_out f0 i = Some out ->
  v_nzm (vn (finish f i) out) = op_nzmask_local f (op f0 i) true dom.
Proof.
  intros Hg Eo. unfold finish. rewrite Eo. rewrite set_mask by (done || by eapply ssa_out). by rewrite Nat.eqb_refl.
Qed.

(** A varnode whose mask an operation that is not done sets is not settled. *)
Lemma settled_not_out (f : funcdata) (fin : nat -> Prop) (i a : nat) : ~ fin i -> settled f fin a -> op_out f0 i <> Some a.
Proof.
  intros Hi Ha Ho. apply (ssa_out _ _ _ Hssa) in Ho as (_ & Hw & Ed). unfold settled in Ha. rewrite Hw in Ha.
  destruct Ha as (d & Ed' & Hd). congruence.
Qed.

Lemma inv_pop (f : funcdata) (marked : gset nat) (i slot : nat) (stack : list (nat * nat)) :
  phase1_inv f marked ((i, slot) :: stack) -> (List.length (s_inputs (op f0 i)) <= slot)%nat ->
  phase1_inv (finish f i) marked stack.
Proof.
  intros [Hg Hd Hs Hm Hlv Hwd] Hlen. pose proof (top_not_below _ _ _ _ _ _ Hs) as Hbelow. destruct Hs as (H1 & _ & H3).
  set (fin := fin_of marked ((i, slot) :: stack)) in *. assert (~ fin i) as Hni by (intros [_ H]; apply H; by left).
  assert (forall j, fin j -> fin_of marked stack j) as Hmono by (intros j [Hj1 Hj2]; split; [done|]; intros H; apply Hj2; by right).
  assert (fin_of marked stack i) as Hi by (split; [apply Hm; by left|done]).
  assert (forall a, settled f fin a -> settled (finish f i) (fin_of marked stack) a) as Hset.
  { intros a Ha. eapply settled_mono; [exact Hmono| |exact Ha]. intros _ _. apply finish_mask; [done|by eapply settled_not_out]. }
  assert (forall k a, unclipped i k a -> settled f fin a) as Hin.
  { intros k a Hu. destruct (H1 k a) as [Ha|(d & _ & _ & E)]; [|done|done|done].
    destruct Hu as [E _]. assert (nth_error (s_inputs (op f0 i)) k <> None) as Hk by congruence. apply nth_error_Some in Hk. lia. }
  split; [by apply finish_graph| | | | |].
  - intros j [Hj1 Hj2]. destruct (decide (j = i)) as [->|Hne].
    + split; [|intros k a Hu; apply Hset, (Hin k a Hu)]. intros out Ho. rewrite (finish_out f i out Hg Ho).
      apply local_ext; [rewrite finish_graph by done; done|]. intros k a Hk Hc. symmetry. apply finish_mask; [done|].
      apply (settled_not_out f fin); [done|]. apply (Hin k). split; [done|]. unfold clipped, is_loop_in in *. by rewrite (erase_blocks f f0 Hg) in Hc.
    + assert (fin j) as Hj by (split; [done|]; intros [E|H]; [by apply Hne|by apply Hj2]).
      eapply finished_ext; [exact Hg|by apply finish_graph|exact Hset| | |by apply Hd].
      * intros a Ha. apply finish_mask; [done|by apply (settled_not_out f fin)].
      * intros out Ho. apply finish_mask; [done|]. intros Ho'. apply (ssa_out _ _ _ Hssa) in Ho as (_ & _ & E1), Ho' as (_ & _ & E2). congruence.
  - apply stack_ok_pop with i; [done|]. by eapply stack_ok_mono.
  - intros j Hj. apply Hm. by right.
  - intros a Ha. rewrite finish_mask; [by apply Hlv|done|]. intros Ho. apply (ssa_out _ _ _ Hssa) in Ho as (_ & E & _). congruence.
  - unfold finish. destruct (op_out f0 i) as [out|]; [|done]. apply words_set; [done|]. apply local_word; [|done].
    intros j. destruct (erase_fields f f0 Hg j) as (-> & _). apply Hsizes.
Qed.

(** The size of the search: the slots left on the stack and those of the operations not yet met. *)
Definition weight (i : nat) : nat := S (List.length (s_inputs (op f0 i))).

Definition unmet (marked : gset nat) : nat :=
  list_sum (map weight (List.filter (fun i => negb (bool_decide (i ∈ marked))) (seq 0 (List.length (f_ops f0))))).

Definition on_stack (stack : list (nat * nat)) : nat := list_sum (map (fun '(i, slot) => S (List.length (s_inputs (op f0 i)) - slot)) stack).

Lemma unmet_mark (d : nat) (marked : gset nat) : (d < List.length (f_ops f0))%nat -> d ∉ marked ->
  (unmet ({[ d ]} ∪ marked) + weight d = unmet marked)%nat.
Proof.
  intros Hd Hm. unfold unmet. assert (In d (seq 0 (List.length (f_ops f0)))) as Hin by (apply in_seq; lia).
  pose proof (seq_NoDup (List.length (f_ops f0)) 0) as Hnd. revert Hnd Hin. generalize (seq 0 (List.length (f_ops f0))) as l.
  assert (forall i, i <> d -> bool_decide (i ∈ {[ d ]} ∪ marked) = bool_decide (i ∈ marked)) as Hne.
  { intros i Hi. apply bool_decide_ext. rewrite elem_of_union, elem_of_singleton. tauto. }
  assert (forall l, ~ In d l -> List.filter (fun i => negb (bool_decide (i ∈ {[ d ]} ∪ marked))) l =
    List.filter (fun i => negb (bool_decide (i ∈ marked))) l) as Hout.
  { intros l Hl. apply filter_ext_in. intros i Hi. rewrite Hne; [done|]. by intros ->. }
  induction l as [|i l IH]; intros Hnd Hin; [done|]. apply List.NoDup_cons_iff in Hnd as [Hi Hnd]. cbn [List.filter].
  destruct (decide (i = d)) as [->|Hid].
  - rewrite (bool_decide_eq_true_2 (d ∈ {[ d ]} ∪ marked)) by (by apply elem_of_union_l, elem_of_singleton).
    rewrite (bool_decide_eq_false_2 (d ∈ marked)) by done. cbn [negb]. rewrite Hout by done. unfold list_sum. cbn [map fold_right]. lia.
  - destruct Hin as [E|Hin]; [done|]. specialize (IH Hnd Hin). rewrite (Hne i Hid). unfold list_sum in *.
    destruct (negb _); cbn [map fold_right]; lia.
Qed.

Lemma op_range (d a : nat) : op_out f0 d = Some a -> (d < List.length (f_ops f0))%nat.
Proof.
  intros E. destruct (Nat.lt_ge_cases d (List.length (f_ops f0))); [done|]. unfold op_out, op in E. by rewrite nth_overflow in E.
Qed.

(** The search ends with every operation it met done; only a fuel within its size can stop it. *)
Lemma dfs_spec (fuel : nat) (f : funcdata) (marked : gset nat) (stack : list (nat * nat)) : phase1_inv f marked stack ->
  match dfs fuel dom f marked stack with
  | Some (f', marked') => phase1_inv f' marked' [] /\ (forall i, i ∈ marked -> i ∈ marked')
  | None => (fuel <= on_stack stack + unmet marked)%nat
  end.
Proof.
  revert f marked stack. induction fuel as [|fuel IH]; intros f marked stack Hinv; cbn [dfs]; [lia|].
  destruct stack as [|[i slot] stack]; [done|]. pose proof (inv_graph _ _ _ Hinv) as Hg. rewrite (erase_op f f0 Hg).
  assert (forall s, on_stack ((i, s) :: stack) = (S (List.length (s_inputs (op f0 i)) - s) + on_stack stack)%nat) as Hon by done. rewrite Hon.
  destruct (Nat.leb_spec (List.length (s_inputs (op f0 i))) slot) as [Hl|Hl].
  { pose proof (inv_pop f marked i slot stack Hinv Hl) as Hpop. unfold finish, op_out in Hpop. specialize (IH _ _ _ Hpop).
    destruct (s_output (op f0 i)); (destruct (dfs fuel _ _ _ _) as [[f' marked']|]; [done|unfold weight; lia]). }
  assert (phase1_inv f marked ((i, S slot) :: stack) ->
    match dfs fuel dom f marked ((i, S slot) :: stack) with
    | Some (f', marked') => phase1_inv f' marked' [] /\ (forall j, j ∈ marked -> j ∈ marked')
    | None => (S fuel <= S (List.length (s_inputs (op f0 i)) - slot) + on_stack stack + unmet marked)%nat
    end) as Hnext.
  { intros H. specialize (IH _ _ _ H). rewrite Hon in IH. destruct (dfs fuel _ _ _ _) as [[f' marked']|]; [done|unfold weight in *; lia]. }
  destruct (clipped f0 dom (op f0 i) slot) eqn:Ec; unfold clipped, is_loop_in in Ec; unfold is_loop_in; rewrite (erase_blocks f f0 Hg), Ec.
  { apply Hnext, inv_bump; [done|]. intros a [_ Hc]. unfold clipped, is_loop_in in Hc. congruence. }
  destruct (nth_error (s_inputs (op f0 i)) slot) as [a|] eqn:Ea; [|apply nth_error_None in Ea; lia].
  assert (unclipped i slot a) as Hu by done. rewrite (nth_error_nth _ _ _ Ea).
  assert (a < List.length (f_vns f0))%nat as Hlen by (eapply (ssa_in _ _ _ Hssa); by eapply unclipped_in).
  assert (forall b, unclipped i slot b -> b = a) as Huniq by (intros b [Hb _]; congruence).
  destruct (erase_fields f f0 Hg a) as (_ & _ & _ & -> & -> & _ & ->). destruct (v_written (vn f0 a)) eqn:Ew; cbn [negb].
  - destruct (ssa_def _ _ _ Hssa a Ew) as (d & Ed & Hd). rewrite Ed. destruct (decide (d ∈ marked)) as [Hdm|Hdm].
    + apply Hnext, inv_bump; [done|]. intros b Hb. rewrite (Huniq b Hb). unfold settled. rewrite Ew. exists d. split; [done|].
      split; [done|]. pose proof (ssa_rank _ _ _ Hssa i slot a d Ea Ec Ew Ed) as Hr. cbn [map fst In]. intros [->|Hs]; [lia|].
      pose proof (inv_stack _ _ _ Hinv) as (_ & _ & H3). pose proof (stack_rank _ _ _ _ H3 d Hs). lia.
    + pose proof (inv_push f marked i slot d a stack Hinv Hu Ew Ed Hdm) as Hpush. specialize (IH _ _ _ Hpush).
      pose proof (unmet_mark d marked (op_range d a Hd) Hdm). unfold on_stack at 1 in IH. cbn [map list_sum fold_right] in IH.
      destruct (dfs fuel _ _ _ _) as [[f' marked']|].
      * destruct IH as [IH1 IH2]. split; [done|]. intros j Hj. by apply IH2, elem_of_union_r.
      * unfold list_sum in IH. fold (on_stack stack) in IH. unfold weight in *. unfold on_stack, list_sum. lia.
  - destruct (inv_leaf f marked ((i, slot) :: stack) a Hinv Hlen Ew) as [Hleaf Hset].
    pose proof (inv_bump _ _ _ _ _ Hleaf (fun b Hb => eq_ind_r (settled _ _) Hset (Huniq b Hb))) as Hb.
    specialize (IH _ _ _ Hb). rewrite Hon in IH. destruct (dfs fuel _ _ _ _) as [[f' marked']|]; [done|unfold weight in *; lia].
Qed.

Lemma unmet_le (marked : gset nat) : (unmet marked <= unmet ∅)%nat.
Proof.
  unfold unmet. induction (seq 0 (List.length (f_ops f0))) as [|i l IH]; [done|]. cbn [List.filter].
  rewrite (bool_decide_eq_false_2 (i ∈ ∅)) by (by apply not_elem_of_empty). unfold list_sum in *. destruct (negb _); cbn [negb map fold_right]; lia.
Qed.

(** A search started at an operation not met yet. *)
Lemma inv_start (f : funcdata) (marked : gset nat) (i : nat) : phase1_inv f marked [] -> i ∉ marked ->
  phase1_inv f ({[ i ]} ∪ marked) [(i, 0%nat)].
Proof.
  intros [Hg Hd Hs Hm Hlv Hwd] Hi.
  assert (forall j, fin_of ({[ i ]} ∪ marked) [(i, 0%nat)] j <-> fin_of marked [] j) as Hfin.
  { intros j. unfold fin_of. rewrite elem_of_union, elem_of_singleton. cbn. split; [intros [[->|H] Hn]; tauto|].
    intros [H _]. split; [by right|]. intros [->|[]]. done. }
  split; [done| | | |done|done].
  - intros j Hj. apply Hfin in Hj. eapply finished_ext; [exact Hg|exact Hg| |done|done|by apply Hd].
    intros a. apply settled_mono; [intros d; apply Hfin|done].
  - split; [intros k a Hk; lia|done].
  - intros j [<-|[]]. by apply elem_of_union_l, elem_of_singleton.
Qed.

Lemma phase1_spec (fuel : nat) (seeds : list nat) (f : funcdata) (marked : gset nat) : phase1_inv f marked [] ->
  match phase1 fuel dom seeds f marked with
  | Some f' => exists marked', phase1_inv f' marked' [] /\ (forall i, i ∈ marked -> i ∈ marked') /\ (forall i, In i seeds -> i ∈ marked')
  | None => (fuel <= S (unmet ∅))%nat
  end.
Proof.
  revert f marked. induction seeds as [|i seeds IH]; intros f marked Hinv; cbn [phase1]; [by exists marked|].
  destruct (decide (i ∈ marked)) as [Hi|Hi].
  - specialize (IH f marked Hinv). destruct (phase1 _ _ _ _ _) as [f'|]; [|done]. destruct IH as (m & H1 & H2 & H3).
    exists m. split; [done|]. split; [done|]. intros j [<-|Hj]; auto.
  - pose proof (dfs_spec fuel f _ _ (inv_start f marked i Hinv Hi)) as Hd.
    destruct (dfs _ _ _ _ _) as [[f1 m1]|].
    + destruct Hd as [Hd1 Hd2]. specialize (IH f1 m1 Hd1). destruct (phase1 _ _ _ _ _) as [f'|]; [|done].
      destruct IH as (m & H1 & H2 & H3). exists m. split; [done|]. split; [intros j Hj; by apply H2, Hd2, elem_of_union_r|].
      intros j [<-|Hj]; [by apply H2, Hd2, elem_of_union_l, elem_of_singleton|auto].
    + destruct (Nat.lt_ge_cases i (List.length (f_ops f0))) as [Hlt|Hge].
      * pose proof (unmet_mark i marked Hlt Hi). pose proof (unmet_le marked). unfold on_stack, list_sum, weight in *. cbn [map fold_right] in Hd. lia.
      * pose proof (unmet_le ({[ i ]} ∪ marked)). unfold on_stack, list_sum in Hd. cbn [map fold_right] in Hd.
        unfold op in Hd. rewrite nth_overflow in Hd by done. cbn in Hd. lia.
Qed.

Lemma phase1_start : masks_ok f0 -> phase1_inv f0 ∅ [].
Proof.
  intros Hw. split; [done| |done|done|by right|done]. intros i [Hi _]. by apply not_elem_of_empty in Hi.
Qed.

(** ** The worklist phase *)

Record phase2_inv (f : funcdata) (worklist : list nat) : Prop := Phase2Inv {
  inv2_graph : erase f = erase f0;
  inv2_pending : forall i out, op_out f0 i = Some out -> In i worklist \/ v_nzm (vn f out) = op_nzmask_local f (op f0 i) false dom;
  inv2_words : masks_ok f;
}.

Lemma in_pushed (l w : list nat) (x : nat) : In x (fold_left (fun w d => d :: w) l w) <-> In x l \/ In x w.
Proof. revert w. induction l as [|d l IH]; intros w; cbn [fold_left]; [cbn; tauto|]. rewrite IH. cbn. tauto. Qed.

Lemma inv2_set (f : funcdata) (i out : nat) (worklist : list nat) : phase2_inv f (i :: worklist) -> op_out f0 i = Some out ->
  phase2_inv (set_nzm f out (op_nzmask_local f (op f0 i) false dom))
    (fold_left (fun w d => d :: w) (v_descend (vn f0 out)) worklist).
Proof.
  intros [Hg Hp Hw] Ho. pose proof (ssa_out _ _ _ Hssa i out Ho) as (Hlt & _ & Edef).
  assert (forall j, v_nzm (vn (set_nzm f out (op_nzmask_local f (op f0 i) false dom)) j) =
    if Nat.eqb j out then op_nzmask_local f (op f0 i) false dom else v_nzm (vn f j)) as Hset by (intros j; by apply set_mask).
  split; [by rewrite erase_set| |].
  - intros j out' Ho'. rewrite in_pushed. destruct (in_dec Nat.eq_dec out (s_inputs (op f0 j))) as [Hin|Hin].
    { left. left. by apply (ssa_in _ _ _ Hssa j out). }
    assert (op_nzmask_local (set_nzm f out (op_nzmask_local f (op f0 i) false dom)) (op f0 j) false dom =
      op_nzmask_local f (op f0 j) false dom) as ->.
    { apply local_ext; [by rewrite erase_set|]. intros k a Hk _. rewrite Hset. destruct (Nat.eqb_spec a out) as [->|]; [|done].
      by apply nth_error_In in Hk. }
    rewrite Hset. destruct (Nat.eqb_spec out' out) as [->|Hne].
    + right. apply (ssa_out _ _ _ Hssa) in Ho' as (_ & _ & E). rewrite Edef in E. by injection E as ->.
    + destruct (Hp j out' Ho') as [[->|Hj]|E]; [congruence|left; by right|by right].
  - apply words_set; [done|]. apply local_word; [|done]. intros j. destruct (erase_fields f f0 Hg j) as (-> & _). apply Hsizes.
Qed.

Lemma phase2_spec (fuel : nat) (f f' : funcdata) (worklist : list nat) : phase2_inv f worklist ->
  phase2 fuel dom f worklist = Some f' ->
  phase2_inv f' [] /\ (forall a, v_written (vn f0 a) = false -> v_nzm (vn f' a) = v_nzm (vn f a)).
Proof.
  revert f worklist. induction fuel as [|fuel IH]; intros f worklist Hinv E; [done|]. cbn [phase2] in E.
  destruct worklist as [|i worklist]; [by injection E as <-|]. pose proof (inv2_graph _ _ Hinv) as Hg.
  rewrite (erase_op f f0 Hg) in E. change (s_output (op f0 i)) with (op_out f0 i) in E. destruct (op_out f0 i) as [out|] eqn:Ho.
  - destruct (erase_fields f f0 Hg out) as (_ & _ & _ & _ & _ & Edesc & _).
    destruct (Z.eqb_spec (op_nzmask_local f (op f0 i) false dom) (v_nzm (vn f out))) as [Heq|Hne]; cbn [negb] in E.
    + apply IH in E; [done|]. destruct Hinv as [_ Hp Hw]. split; [done| |done]. intros j out' Ho'.
      destruct (Hp j out' Ho') as [[->|Hj]|Ej]; [right; congruence|by left|by right].
    + destruct (erase_fields (set_nzm f out (op_nzmask_local f (op f0 i) false dom)) f (erase_set f out _) out) as (_ & _ & _ & _ & _ & Ed & _).
      rewrite Ed, Edesc in E. apply IH in E as [E1 E2]; [|by apply inv2_set]. split; [done|]. intros a Ha. rewrite (E2 a Ha).
      pose proof (ssa_out _ _ _ Hssa i out Ho) as (Hlt & Hwr & _). rewrite set_mask by done.
      destruct (Nat.eqb_spec a out) as [->|]; [congruence|done].
  - apply IH in E; [done|]. destruct Hinv as [_ Hp Hw]. split; [done| |done]. intros j out' Ho'.
    destruct (Hp j out' Ho') as [[->|Hj]|Ej]; [congruence|by left|by right].
Qed.

Lemma local_no_phi (f : funcdata) (o : ssa_op) : s_code o <> Multiequal -> op_nzmask_local f o true dom = op_nzmask_local f o false dom.
Proof. intros Hc. unfold op_nzmask_local. by destruct (s_code o). Qed.

(** After the first phase the equations that can fail are those of the phis. *)
Lemma phase2_start (f : funcdata) (marked : gset nat) : phase1_inv f marked [] -> (forall i, In i (all_ops f0) -> i ∈ marked) ->
  phase2_inv f (rev (List.filter (fun i => bool_decide (s_code (op f i) = Multiequal)) (all_ops f))).
Proof.
  intros [Hg Hd _ _ _ Hw] Hall. split; [done| |done]. intros i out Ho. pose proof (ssa_listed _ _ _ Hssa i out Ho) as Hi.
  assert (all_ops f = all_ops f0) as -> by (unfold all_ops; by rewrite (erase_blocks f f0 Hg)).
  destruct (decide (s_code (op f0 i) = Multiequal)) as [Hc|Hc].
  - left. apply -> in_rev. apply filter_In. split; [done|]. by rewrite (erase_op f f0 Hg), bool_decide_eq_true_2.
  - right. destruct (Hd i) as [H _]; [split; [by apply Hall|intros []]|]. rewrite (H out Ho). by apply local_no_phi.
Qed.

Lemma calc_spec (fuel : nat) (g : funcdata) : masks_ok f0 -> calc_nzmask fuel dom f0 = Some g ->
  erase g = erase f0 /\ stable g dom /\ masks_ok g /\
  (forall a, v_written (vn f0 a) = false -> v_nzm (vn g a) = leaf_mask (vn f0 a) \/ v_nzm (vn g a) = v_nzm (vn f0 a)).
Proof.
  intros Hw E. unfold calc_nzmask in E. pose proof (phase1_spec fuel (all_ops f0) f0 ∅ (phase1_start Hw)) as H1.
  destruct (phase1 _ _ _ _ _) as [f1|]; [|done]. destruct H1 as (marked & Hinv & _ & Hall).
  pose proof (phase2_spec fuel f1 g _ (phase2_start f1 marked Hinv Hall) E) as [[Hg Hp Hwg] Hleaf].
  split; [done|]. split; [|split; [done|]].
  - intros i out Ho. unfold op_out in Ho. rewrite (erase_op g f0 Hg) in *. by destruct (Hp i out Ho) as [[]|H].
  - intros a Ha. rewrite (Hleaf a Ha). by apply (inv_leaves _ _ _ Hinv).
Qed.
End Calc.

(** ** The two executions of a graph agree *)

Lemma produces_graph (f g : funcdata) (vals : valuation) (o : ssa_op) (r : Z) : erase f = erase g -> produces f vals o r -> produces g vals o r.
Proof.
  intros Hg Hp. assert (forall a, v_size (vn f a) = v_size (vn g a)) as Hs by (intros a; by apply erase_fields).
  destruct Hp as [out a x r E Ei Ex Er|out a b x y r E Ei Ex Ey Er|out a b x y E Ei Ec Ex Ey|a x Ec Ha Ex|r Ec Hr|out r E Ec Hr Hb].
  - eapply produces_unary; eauto. by rewrite <- !Hs.
  - eapply produces_binary; eauto. by rewrite <- !Hs.
  - rewrite !Hs. by eapply produces_piece.
  - by eapply produces_phi.
  - by eapply produces_boolean.
  - eapply produces_opaque; eauto. by rewrite <- Hs.
Qed.

Lemma exec_graph (f g : funcdata) (vals vals' : valuation) : erase f = erase g -> exec f vals vals' -> exec g vals vals'.
Proof.
  intros Hg He. destruct He as [vals i out r Ho Hp]. unfold op_out in Ho. rewrite (erase_op f g Hg) in *.
  apply exec_op with i; [done|]. by eapply produces_graph.
Qed.

Lemma execs_graph (f g : funcdata) (vals vals' : valuation) : erase f = erase g -> rtc (exec f) vals vals' -> rtc (exec g) vals vals'.
Proof. intros Hg. apply rtc_subrel. intros v v'. by apply exec_graph. Qed.

Lemma well_sized_graph (f g : funcdata) : erase f = erase g -> well_sized f -> well_sized g.
Proof.
  intros Hg Hw i. destruct (Hw i) as [H1 H2]. unfold op_out in *. rewrite (erase_op f g Hg) in *. split.
  - unfold op_ok in *. assert (forall a, v_size (vn g a) = v_size (vn f a)) as Hs by (intros a; symmetry; by apply erase_fields).
    assert (forall a, v_constant (vn g a) = v_constant (vn f a)) as Hc by (intros a; symmetry; by apply erase_fields).
    assert (forall a, v_offset (vn g a) = v_offset (vn f a)) as Hoff by (intros a; symmetry; by apply erase_fields).
    destruct (s_output _) as [out|]; [|done]. rewrite Hs. destruct H1 as (Hv & Hins & H1). split; [done|]. split.
    + eapply List.Forall_impl; [|exact Hins]. intros a. by rewrite Hs.
    + destruct (_ || _); [done|]. destruct (s_code (op g i)), (s_inputs (op g i)) as [|a [|b [|c l]]]; rewrite ?Hs, ?Hc, ?Hoff; try done.
      all: eapply List.Forall_impl; [|exact H1]; intros z; by rewrite Hs.
  - intros out Ho. destruct (erase_fields f g Hg out) as (_ & <- & _). by apply H2.
Qed.
