(* ===== verification/NzMaskTheorems.v ===== *)
(** What the non-zero-mask analysis promises: its result satisfies every operation's equation, its masks
    are sound for every execution, and where its worklist does not end. *)
From Stdlib Require Import ZArith Lia Bool List.
From stdpp Require Import base decidable gmap list relations tactics.
From S2P Require Import Prelude OpCode BitUtil PcodeSem AluFacts NzMask NzMaskFacts NzMaskSound NzMaskGraph NzMaskCalc.
Local Open Scope Z_scope.

(** The mask [alloc_varnode] gives a new varnode. *)
Definition alloc_nzm (v : vnode) : Z :=
  if v_constant v then Z.land (v_offset v) (calc_mask (v_size v)) else calc_mask (v_size v).

(** The varnodes no operation writes hold the mask of their creation or of an earlier run. *)
Definition created (f : funcdata) : Prop :=
  forall a, v_written (vn f a) = false -> v_nzm (vn f a) = alloc_nzm (vn f a) \/ v_nzm (vn f a) = leaf_mask (vn f a).

(** The values a function starts with: those of its inputs and constants; a spacebase input is aligned. *)
Definition entry (f : funcdata) (vals : valuation) : Prop :=
  forall a x, vals a = Some x -> v_written (vn f a) = false /\ is_value (v_size (vn f a)) x /\ word x /\
    bits_in x (leaf_mask (vn f a)) /\ (v_constant (vn f a) = true -> x = v_offset (vn f a)).

(** The depth-first phase needs a step for every operation and for every input. *)
Definition search_fuel (f : funcdata) : nat := S (S (list_sum (map (fun o => S (List.length (s_inputs o))) (f_ops f)))).

(** x & 0xff, shifted left by 8; and a loop z = phi(0, w), w = z | (x & 0xff). *)
Definition loop_function : funcdata :=
  Funcdata
    [ Vnode 4 4294967295 false 16 false false None [0%nat];
      Vnode 4 255 true 255 false false None [0%nat];
      Vnode 4 4294967295 false 4096 false true (Some 0%nat) [1%nat; 3%nat];
      Vnode 4 8 true 8 false false None [1%nat];
      Vnode 4 4294967295 false 4100 false true (Some 1%nat) [];
      Vnode 4 0 true 0 false false None [2%nat];
      Vnode 4 4294967295 false 20 false true (Some 2%nat) [3%nat];
      Vnode 4 4294967295 false 24 false true (Some 3%nat) [2%nat] ]
    [ SsaOp IntAnd (Some 2%nat) [0%nat; 1%nat] (Some 0%nat) false;
      SsaOp IntLeft (Some 4%nat) [2%nat; 3%nat] (Some 0%nat) false;
      SsaOp Multiequal (Some 6%nat) [5%nat; 7%nat] (Some 1%nat) false;
      SsaOp IntOr (Some 7%nat) [6%nat; 2%nat] (Some 1%nat) false ]
    [ Block [0%nat; 1%nat] []; Block [2%nat; 3%nat] [0%nat; 1%nat] ].

Definition loop_entry : valuation := fun a =>
  match a with 0%nat => Some 305419896 | 1%nat => Some 255 | 3%nat => Some 8 | 5%nat => Some 0 | _ => None end.

Definition loop_result : funcdata := default loop_function (calc_nzmask 30 [0%nat; 0%nat] loop_function).

(** z = phi(0, y), x = z & 1, y = k % x: [IntRem]'s mask falls from everything to nothing as its divisor's grows. *)
Definition spin_function (z x y : Z) : funcdata :=
  Funcdata
    [ Vnode 8 0 true 0 false false None [0%nat];
      Vnode 8 z false 16 false true (Some 0%nat) [1%nat];
      Vnode 8 1 true 1 false false None [1%nat];
      Vnode 8 x false 24 false true (Some 1%nat) [2%nat];
      Vnode 8 u64_max false 32 false false None [2%nat];
      Vnode 8 y false 40 false true (Some 2%nat) [0%nat] ]
    [ SsaOp Multiequal (Some 1%nat) [0%nat; 5%nat] (Some 1%nat) false;
      SsaOp IntAnd (Some 3%nat) [1%nat; 2%nat] (Some 1%nat) false;
      SsaOp IntRem (Some 5%nat) [4%nat; 3%nat] (Some 1%nat) false ]
    [ Block [] []; Block [0%nat; 1%nat; 2%nat] [0%nat; 1%nat] ].

Example loop_masks :
  option_map (fun g => map v_nzm (f_vns g)) (calc_nzmask 30 [0%nat; 0%nat] loop_function)
  = Some [4294967295; 255; 255; 8; 65280; 0; 255; 255].
Proof. vm_compute. reflexivity. Qed.

(** ** Lemmas *)

(** More fuel changes no answer of the search. *)
Lemma dfs_more (fuel extra : nat) (dom : list nat) (f : funcdata) (marked : gset nat) (stack : list (nat * nat)) (r : funcdata * gset nat) :
  dfs fuel dom f marked stack = Some r -> dfs (fuel + extra) dom f marked stack = Some r.
Proof.
  revert f marked stack. induction fuel as [|fuel IH]; intros f marked stack E; [done|]. cbn [dfs Nat.add] in *.
  repeat case_match; try done; by apply IH.
Qed.

Lemma phase1_more (fuel extra : nat) (dom seeds : list nat) (f g : funcdata) (marked : gset nat) :
  phase1 fuel dom seeds f marked = Some g -> phase1 (fuel + extra) dom seeds f marked = Some g.
Proof.
  revert f marked. induction seeds as [|i seeds IH]; intros f marked E; [done|]. cbn [phase1] in *.
  destruct (decide (i ∈ marked)); [by apply IH|]. destruct (dfs fuel _ _ _ _) as [[f' m']|] eqn:Ed; [|done].
  rewrite (dfs_more _ extra _ _ _ _ _ Ed). by apply IH.
Qed.

Lemma phase2_change (k i out : nat) (dom w : list nat) (f : funcdata) (m : Z) : op_out f i = Some out ->
  op_nzmask_local f (op f i) false dom = m -> m <> v_nzm (vn f out) ->
  phase2 (S k) dom f (i :: w) = phase2 k dom (set_nzm f out m) (fold_left (fun w d => d :: w) (v_descend (vn (set_nzm f out m) out)) w).
Proof.
  intros Ho <- Hm. cbn [phase2]. change (s_output (op f i)) with (op_out f i). rewrite Ho.
  by destruct (Z.eqb_spec (op_nzmask_local f (op f i) false dom) (v_nzm (vn f out))).
Qed.

Lemma spin_cycle (fuel : nat) :
  phase2 fuel [0%nat; 0%nat] (spin_function 0 0 u64_max) [0%nat] = None /\
  phase2 fuel [0%nat; 0%nat] (spin_function u64_max 0 u64_max) [1%nat] = None /\
  phase2 fuel [0%nat; 0%nat] (spin_function u64_max 1 u64_max) [2%nat] = None /\
  phase2 fuel [0%nat; 0%nat] (spin_function u64_max 1 0) [0%nat] = None /\
  phase2 fuel [0%nat; 0%nat] (spin_function 0 1 0) [1%nat] = None /\
  phase2 fuel [0%nat; 0%nat] (spin_function 0 0 0) [2%nat] = None.
Proof.
  induction fuel as [|fuel (H0 & H1 & H2 & H3 & H4 & H5)]; [done|]. split_and!.
  - by rewrite (phase2_change fuel 0 1 _ _ _ u64_max).
  - by rewrite (phase2_change fuel 1 3 _ _ _ 1).
  - by rewrite (phase2_change fuel 2 5 _ _ _ 0).
  - by rewrite (phase2_change fuel 0 1 _ _ _ 0).
  - by rewrite (phase2_change fuel 1 3 _ _ _ 0).
  - by rewrite (phase2_change fuel 2 5 _ _ _ u64_max).
Qed.

(** The worklist of the second phase does not end on that loop, whatever the fuel. *)
Lemma calc_nzmask_spins (fuel : nat) : calc_nzmask fuel [0%nat; 0%nat] (spin_function u64_max u64_max u64_max) = None.
Proof.
  unfold calc_nzmask. destruct (phase1 fuel _ _ _ _) as [f|] eqn:E; [|done].
  assert (phase1 20 [0%nat; 0%nat] (all_ops (spin_function u64_max u64_max u64_max)) (spin_function u64_max u64_max u64_max) ∅
    = Some (spin_function 0 0 u64_max)) as E20 by (vm_compute; reflexivity).
  pose proof (phase1_more _ 20 _ _ _ _ _ E) as E1. pose proof (phase1_more _ fuel _ _ _ _ _ E20) as E2. rewrite Nat.add_comm in E2.
  rewrite E2 in E1. injection E1 as <-. exact (proj1 (spin_cycle fuel)).
Qed.

Lemma map_nth_seq {A B : Type} (g : A -> B) (l : list A) (d : A) : map (fun i => g (nth i l d)) (seq 0 (List.length l)) = map g l.
Proof.
  induction l as [|a l IH]; [done|]. cbn [List.length seq map nth]. f_equal. rewrite <- List.seq_shift, map_map. exact IH.
Qed.

Lemma unmet_all (f : funcdata) : (S (unmet f ∅) < search_fuel f)%nat.
Proof.
  unfold search_fuel, unmet. rewrite <- (map_nth_seq (fun o => S (List.length (s_inputs o))) (f_ops f) no_op).
  change (fun i => S (List.length (s_inputs (nth i (f_ops f) no_op)))) with (weight f).
  unfold list_sum. induction (seq 0 (List.length (f_ops f))) as [|i l IH]; [cbn; lia|].
  cbn [List.filter map fold_right]. destruct (negb _); cbn [map fold_right]; lia.
Qed.

Lemma leaf_in_calc (x : Z) (v : vnode) : bits_in x (leaf_mask v) -> bits_in x (alloc_nzm v).
Proof.
  unfold leaf_mask, alloc_nzm. destruct (v_constant v); [done|]. destruct (v_spacebase v); [|done].
  intros H i Hi Hb. specialize (H i Hi Hb). rewrite Z.land_spec in H. by apply andb_true_iff in H as [? _].
Qed.

Lemma const_mask (size x : Z) : 0 <= size -> is_value size x -> word x -> Z.land x (calc_mask size) = x.
Proof.
  intros Hs Hx Hw. unfold is_value, modulus, word in *. destruct (Z.le_gt_cases size 8).
  - rewrite calc_mask_ones, Z.land_ones by lia. by apply Z.mod_small.
  - unfold calc_mask. destruct (Z.leb_spec 8 size); [|lia]. change u64_max with (Z.ones 64). rewrite Z.land_ones by lia. by apply Z.mod_small.
Qed.

(** At the start every value lies in the mask the analysis leaves for it. *)
Lemma entry_sound (f g : funcdata) (vals : valuation) : sizes_ok f -> created f -> entry f vals -> erase g = erase f -> masks_ok g ->
  (forall a, v_written (vn f a) = false -> v_nzm (vn g a) = leaf_mask (vn f a) \/ v_nzm (vn g a) = v_nzm (vn f a)) ->
  forall a x, vals a = Some x -> vn_sound g a x.
Proof.
  intros Hs Hc He Hg Hw Hleaf a x Ha. destruct (He a x Ha) as (Hwr & Hv & Hwx & Hb & Hk).
  destruct (erase_fields g f Hg a) as (E1 & E2 & E3 & _). unfold vn_sound. rewrite E1, E2, E3.
  assert (v_nzm (vn g a) = leaf_mask (vn f a) \/ v_nzm (vn g a) = alloc_nzm (vn f a)) as Hm.
  { destruct (Hleaf a Hwr) as [E|E]; [by left|]. rewrite E. destruct (Hc a Hwr) as [->| ->]; [by right|by left]. }
  split; [done|]. split; [apply Hw|]. split.
  - destruct Hm as [->| ->]; [done|by apply leaf_in_calc].
  - intros Econst. specialize (Hk Econst). split; [done|]. unfold leaf_mask, alloc_nzm in Hm. rewrite Econst, <- Hk in Hm.
    rewrite const_mask in Hm by (done || apply Hs). destruct Hm as [->| ->]; done.
Qed.

(** ** The theorems *)

(** [C8] The masks [calc_nzmask] computes are sound: when the analysis returns, in every execution of
    the function from its inputs and constants -- its operations in any order and number, so also around
    its loops -- no varnode ever holds a bit outside its mask. *)
Theorem nzmask_sound (f g : funcdata) (dom : list nat) (rank : nat -> nat) (fuel : nat) (vals vals' : valuation) :
  ssa_ok f dom rank -> well_sized f -> sizes_ok f -> masks_ok f -> created f ->
  calc_nzmask fuel dom f = Some g -> entry f vals -> rtc (exec f) vals vals' ->
  forall a x, vals' a = Some x -> bits_in x (v_nzm (vn g a)).
Proof.
  intros Hssa Hw Hs Hm Hc E He Hr a x Ha. destruct (calc_spec f dom rank Hssa Hs fuel g Hm E) as (Hg & Hst & Hmg & Hleaf).
  assert (vn_sound g a x) as H; [|apply H]. revert a x Ha. eapply (execs_sound g dom vals vals'); [exact Hst| |exact Hmg| |].
  - by eapply well_sized_graph.
  - by eapply execs_graph.
  - by eapply entry_sound.
Qed.

(** [C17] When the analysis returns, its masks satisfy the equation of every operation, with every edge
    of every phi: a varnode an operation writes holds exactly the mask that operation computes from the
    final masks of its inputs; the others hold their leaf mask or the mask they had; and nothing but
    masks has changed. *)
Theorem nzmask_equations (f g : funcdata) (dom : list nat) (rank : nat -> nat) (fuel : nat) :
  ssa_ok f dom rank -> sizes_ok f -> masks_ok f -> calc_nzmask fuel dom f = Some g ->
  erase g = erase f /\
  (forall i out, op_out g i = Some out -> v_nzm (vn g out) = op_nzmask_local g (op g i) false dom) /\
  (forall a, v_written (vn g a) = false -> v_nzm (vn g a) = leaf_mask (vn g a) \/ v_nzm (vn g a) = v_nzm (vn f a)).
Proof.
  intros Hssa Hs Hm E. destruct (calc_spec f dom rank Hssa Hs fuel g Hm E) as (Hg & Hst & _ & Hleaf). split; [done|]. split; [done|].
  intros a Ha. destruct (erase_fields g f Hg a) as (_ & _ & _ & Ew & _ & _ & ->). apply Hleaf. congruence.
Qed.

(** [C27] The depth-first phase ends: one step for each operation and each input of the function is fuel
    enough, whatever its loops, and it meets every operation of every block. *)
Theorem nzmask_search_ends (f : funcdata) (dom : list nat) (rank : nat -> nat) (fuel : nat) :
  ssa_ok f dom rank -> sizes_ok f -> masks_ok f -> (search_fuel f <= fuel)%nat ->
  exists g, phase1 fuel dom (all_ops f) f ∅ = Some g /\ erase g = erase f /\
    (forall i out, op_out g i = Some out -> v_nzm (vn g out) = op_nzmask_local g (op g i) true dom).
Proof.
  intros Hssa Hs Hm Hf. pose proof (phase1_spec f dom rank Hssa Hs fuel (all_ops f) f ∅ (phase1_start f dom rank Hm)) as H.
  destruct (phase1 fuel dom (all_ops f) f ∅) as [g|]; [|pose proof (unmet_all f); lia]. destruct H as (marked & [Hg Hd _ _ _ _] & _ & Hall).
  exists g. split; [done|]. split; [done|]. intros i out Ho. unfold op_out in Ho. rewrite (erase_op g f Hg) in *.
  destruct (Hd i) as [H _]; [|by apply H]. split; [|intros []]. apply Hall. by eapply (ssa_listed _ _ _ Hssa).
Qed.

(** ** Witnesses *)

Lemma loop_ssa : ssa_ok loop_function [0%nat; 0%nat] (fun i => i).
Proof.
  split.
  - intros [|[|[|[|i]]]] out; cbn; [..|by destruct i]; intros E; simplify_eq; (split; [lia|done]).
  - intros [|[|[|[|[|[|[|[|[|a]]]]]]]]]; cbn; intros E; try discriminate E; eexists; (split; [reflexivity|done]).
  - intros [|[|[|[|i]]]] a; cbn; [..|by destruct i]; intros H; repeat (destruct H as [<-|H]; [cbn; split; [lia|tauto]|]); done.
  - intros [|[|[|[|i]]]] out; cbn; [tauto..|by destruct i].
  - intros [|[|[|[|i]]]] k a d; [..|by destruct i, k]; destruct k as [|[|k]]; cbn [op loop_function f_ops nth s_inputs nth_error];
      intros E Hc Hw Hd; try (rewrite nth_error_nil in E; discriminate E); injection E as <-;
      cbn in Hw, Hd; try discriminate Hw; try (vm_compute in Hc; discriminate Hc); injection Hd as <-; lia.
Qed.

Lemma loop_sizes : sizes_ok loop_function.
Proof. intros a. do 9 (destruct a as [|a]; [cbn; lia|]). cbn. lia. Qed.

Lemma loop_words : masks_ok loop_function.
Proof. intros a. do 9 (destruct a as [|a]; [cbn; lia|]). cbn. lia. Qed.

Lemma loop_well_sized : well_sized loop_function.
Proof.
  intros i. split; [|do 4 (destruct i as [|i]; [intros out E; injection E as <-; reflexivity|]); intros out E; by destruct i].
  do 4 (destruct i as [|i]; [cbn; unfold valid_size; split_and!; try lia; repeat (constructor; cbn; try lia); done|]). by destruct i.
Qed.

Lemma loop_entry_ok : entry loop_function loop_entry.
Proof.
  intros [|[|[|[|[|[|a]]]]]] x E; cbn in E; try discriminate E; injection E as <-; (split; [done|split; [done|split; [done|split; [|done]]]]).
  - apply calc_mask_value; done.
  - exact (bits_in_refl 255).
  - exact (bits_in_refl 8).
  - apply bits_in_0.
Qed.

Lemma nzmask_sound_witness :
  ssa_ok loop_function [0%nat; 0%nat] (fun i => i) /\ calc_nzmask 30 [0%nat; 0%nat] loop_function = Some loop_result /\
  entry loop_function loop_entry /\ bits_in 120 (v_nzm (vn loop_result 2)).
Proof.
  split; [exact loop_ssa|]. split; [vm_compute; reflexivity|]. split; [exact loop_entry_ok|].
  apply (nzmask_sound loop_function loop_result [0%nat; 0%nat] (fun i => i) 30 loop_entry (assign loop_entry 2 120)).
  - exact loop_ssa.
  - exact loop_well_sized.
  - exact loop_sizes.
  - exact loop_words.
  - intros a. do 9 (destruct a as [|a]; [intros E; try discriminate E; by left|]). by left.
  - vm_compute. reflexivity.
  - exact loop_entry_ok.
  - apply rtc_once. apply (exec_op loop_function loop_entry 0 2 120); [reflexivity|].
    apply (produces_binary _ _ _ 2 0 1 305419896 255); reflexivity.
  - reflexivity.
Defined.

Lemma nzmask_equations_witness :
  calc_nzmask 30 [0%nat; 0%nat] loop_function = Some loop_result /\ erase loop_result = erase loop_function.
Proof.
  split; [vm_compute; reflexivity|].
  apply (nzmask_equations loop_function loop_result [0%nat; 0%nat] (fun i => i) 30 loop_ssa loop_sizes loop_words).
  vm_compute. reflexivity.
Defined.

Lemma nzmask_search_ends_witness :
  (search_fuel loop_function <= 14)%nat /\
  exists g, phase1 14 [0%nat; 0%nat] (all_ops loop_function) loop_function ∅ = Some g /\ erase g = erase loop_function.
Proof.
  split; [vm_compute; lia|].
  destruct (nzmask_search_ends loop_function [0%nat; 0%nat] (fun i => i) 14 loop_ssa loop_sizes loop_words) as (g & E & Hg & _).
  - vm_compute. lia.
  - exists g. split; [exact E|exact Hg].
Defined.
