(* ===== verification/Ditted.v ===== *)
(** Byte patterns with don't-care bits, [analysis/bytesearch/ditted.rs]: parsing, matching,
    concatenation and the rendering as groups of bits. *)
From Stdlib Require Import ZArith Lia Bool List Ascii String.
From stdpp Require Import base decidable list tactics.
From S2P Require Import Prelude.
Local Open Scope Z_scope.

(** A [char] is its code point; the text of a pattern file. *)
Definition text : Type := list Z.

Fixpoint code_points (s : string) : text :=
  match s with
  | EmptyString => []
  | String c s => Z.of_nat (nat_of_ascii c) :: code_points s
  end.

Definition space_char : Z := 32.
Definition newline : Z := 10.
Definition hash : Z := 35.
Definition star : Z := 42.
Definition dot : Z := 46.
Definition zero_char : Z := 48.
Definition one_char : Z := 49.
Definition x_char : Z := 120.

(** [char::is_whitespace], the White_Space property of Unicode *)
Definition is_whitespace (c : Z) : bool :=
  ((9 <=? c) && (c <=? 13)) || (c =? 32) || (c =? 133) || (c =? 160) || (c =? 5760) || ((8192 <=? c) && (c <=? 8202)) ||
  (c =? 8232) || (c =? 8233) || (c =? 8239) || (c =? 8287) || (c =? 12288).

(** [char::to_digit(16)] *)
Definition to_digit16 (c : Z) : option Z :=
  if (48 <=? c) && (c <=? 57) then Some (c - 48)
  else if (97 <=? c) && (c <=? 102) then Some (c - 87)
  else if (65 <=? c) && (c <=? 70) then Some (c - 55)
  else None.

Record ditted := Ditted { bits : list Z; dits : list Z; d_index : nat }.

Inductive parse_error := BadSequence | TruncatedHex | BadNibble | TruncatedGroup.

Definition empty : ditted := Ditted [] [] 0.

(** [mode]: [-1] looking for a start, [-2] skipping a comment, [0] hexadecimal, [1] binary *)

(** One byte in hexadecimal: [c1] and [c2]. *)
Definition hex_byte (c1 c2 : Z) : parse_error + Z * Z :=
  match (if c1 =? dot then Some (0, Z.lxor 255 240) else option_map (fun d => (w8 (Z.shiftl d 4), 255)) (to_digit16 c1)) with
  | None => inl BadNibble
  | Some (val, mask) =>
      if c2 =? dot then inr (val, Z.lxor mask 15)
      else match to_digit16 c2 with Some d => inr (Z.lor val d, mask) | None => inl BadNibble end
  end.

(** One byte in binary: the next [n] characters. *)
Fixpoint binary_byte (n : nat) (chars : text) (val mask : Z) : parse_error + Z * Z :=
  match n with
  | O => inr (val, mask)
  | S n =>
      match chars with
      | [] => inl TruncatedGroup
      | c :: chars =>
          if c =? zero_char then binary_byte n chars (w8 (Z.shiftl val 1)) (Z.lor (w8 (Z.shiftl mask 1)) 1)
          else if c =? dot then binary_byte n chars (w8 (Z.shiftl val 1)) (w8 (Z.shiftl mask 1))
          else binary_byte n chars (Z.lor (w8 (Z.shiftl val 1)) 1) (Z.lor (w8 (Z.shiftl mask 1)) 1)
      end
  end.

(** The loop of [parse]: [chars] is the text from position [i]. *)
Fixpoint parse_loop (fuel : nat) (chars : text) (mode mark_offset : Z) (bitarray ditarray : list Z) : option (parse_error + ditted * Z) :=
  match fuel with
  | O => None
  | S fuel =>
      match chars with
      | [] => Some (inr (Ditted bitarray ditarray 0, mark_offset))
      | c1 :: rest =>
          if (mode =? -2) && negb (c1 =? newline) then parse_loop fuel rest mode mark_offset bitarray ditarray
          else if is_whitespace c1 then parse_loop fuel rest (-1) mark_offset bitarray ditarray
          else if c1 =? hash then parse_loop fuel rest (-2) mark_offset bitarray ditarray
          else
            let binary mode :=
              match binary_byte 8 chars 0 0 with
              | inl e => Some (inl e)
              | inr (val, mask) => parse_loop fuel (skipn 8 chars) mode mark_offset (bitarray ++ [val]) (ditarray ++ [mask])
              end in
            let byte mode :=
              if mode =? 0 then
                match rest with
                | [] => Some (inl TruncatedHex)
                | c2 :: rest =>
                    match hex_byte c1 c2 with
                    | inl e => Some (inl e)
                    | inr (val, mask) => parse_loop fuel rest mode mark_offset (bitarray ++ [val]) (ditarray ++ [mask])
                    end
                end
              else binary mode in
            if mode =? -1 then
              if c1 =? zero_char then
                match rest with
                | c2 :: rest => if c2 =? x_char then parse_loop fuel rest 0 mark_offset bitarray ditarray else byte mode
                | [] => byte mode
                end
              else if c1 =? star then parse_loop fuel rest mode (i32 (Z.of_nat (List.length ditarray))) bitarray ditarray
              else if (c1 =? one_char) || (c1 =? dot) then byte 1
              else Some (inl BadSequence)
            else byte mode
      end
  end.

(** every turn reads a character at least *)
Definition parse (chars : text) : option (parse_error + ditted * Z) := parse_loop (S (List.length chars)) chars (-1) (-1) [] [].

(** [is_match]; [dits] indexed out of range panics, [bits] decides *)
Definition is_match (s : ditted) (pos : nat) (val : Z) : bool :=
  match nth_error (bits s) pos with
  | None => false
  | Some b => Z.land val (nth pos (dits s) 0) =? b
  end.

Definition size (s : ditted) : nat := List.length (bits s).

Definition set_index (s : ditted) (index : nat) : ditted := Ditted (bits s) (dits s) index.

Definition num_fixed_bits (s : ditted) : Z := fold_left (fun n d => n + count_ones d) (dits s) 0.

Definition concatenate (s other : ditted) : ditted := Ditted (bits s ++ bits other) (dits s ++ dits other) 0.

(** one group of [to_bit_string], [pos] from 128 down *)
Fixpoint bit_group (n : nat) (dchomp bchomp : Z) : text :=
  match n with
  | O => []
  | S n =>
      let p := 2 ^ Z.of_nat n in
      (if Z.land dchomp p =? 0 then dot else if negb (Z.land bchomp p =? 0) then one_char else zero_char) :: bit_group n dchomp bchomp
  end.

Definition to_bit_string (s : ditted) : text :=
  flat_map (fun '(b, d) => space_char :: bit_group 8 d b) (combine (bits s) (dits s)).

(** ** Examples, the tests of the file *)

Example parse_hex : option_map (fun r => match r with inr (s, mark) => Some (bits s, dits s, mark) | _ => None end)
  (parse (code_points "0x5.")) = Some (Some ([80], [240], -1)).
Proof. reflexivity. Qed.

Example parse_mixed : option_map (fun r => match r with inr (s, mark) => Some (bits s, dits s, mark) | _ => None end)
  (parse (code_points "0x55 *0x89 100000.1")) = Some (Some ([85; 137; 129], [255; 255; 253], 1)).
Proof. reflexivity. Qed.

(** ** Parsing what was rendered *)

(** A required bit is a checked bit. *)
Definition well_formed (s : ditted) : Prop :=
  List.length (bits s) = List.length (dits s) /\
  Forall (fun '(b, d) => 0 <= b < 256 /\ 0 <= d < 256 /\ Z.land b d = b) (combine (bits s) (dits s)).

Definition group_ok (b d : Z) : bool :=
  let g := bit_group 8 d b in
  forallb (fun c => (c =? dot) || (c =? zero_char) || (c =? one_char)) g &&
  match binary_byte 8 g 0 0 with inr (v, m) => (v =? b) && (m =? d) | inl _ => false end.

Definition byte_values : list Z := map Z.of_nat (seq 0 256).

Lemma in_byte_values (b : Z) : 0 <= b < 256 -> In b byte_values.
Proof. intros Hb. apply in_map_iff. exists (Z.to_nat b). split; [lia|]. apply in_seq. lia. Qed.

Lemma groups_ok : forallb (fun d => forallb (fun b => negb (Z.land b d =? b) || group_ok b d) byte_values) byte_values = true.
Proof. vm_compute. reflexivity. Qed.

Lemma group_spec (b d : Z) : 0 <= b < 256 -> 0 <= d < 256 -> Z.land b d = b ->
  Forall (fun c => c = dot \/ c = zero_char \/ c = one_char) (bit_group 8 d b) /\ binary_byte 8 (bit_group 8 d b) 0 0 = inr (b, d).
Proof.
  intros Hb Hd E. pose proof groups_ok as H. rewrite forallb_forall in H. specialize (H d (in_byte_values d Hd)). cbv beta in H.
  rewrite forallb_forall in H. specialize (H b (in_byte_values b Hb)). cbv beta in H. rewrite (proj2 (Z.eqb_eq _ _) E) in H. cbn [negb orb] in H.
  unfold group_ok in H. apply andb_true_iff in H as [H1 H2]. rewrite forallb_forall in H1. split.
  - apply List.Forall_forall. intros c Hc. specialize (H1 c Hc). cbv beta in H1. rewrite !orb_true_iff, !Z.eqb_eq in H1. tauto.
  - destruct (binary_byte 8 _ 0 0) as [e|[v m]]; [done|]. apply andb_true_iff in H2 as [Hv Hm]. apply Z.eqb_eq in Hv, Hm. by subst.
Qed.

Lemma bit_group_length (n : nat) (d b : Z) : List.length (bit_group n d b) = n.
Proof. induction n as [|n IH]; cbn; [done|by f_equal]. Qed.

Lemma binary_byte_app (n : nat) (l rest : text) (val mask : Z) : List.length l = n ->
  binary_byte n (l ++ rest) val mask = binary_byte n l val mask.
Proof.
  revert l val mask. induction n as [|n IH]; intros l val mask Hl; [done|]. destruct l as [|c l]; [done|].
  cbn [binary_byte app]. injection Hl as Hl. by rewrite !IH.
Qed.

(** One group of bits. *)
Lemma parse_group (fuel : nat) (b d mode mark : Z) (rest : text) (ba da : list Z) : 0 <= b < 256 -> 0 <= d < 256 -> Z.land b d = b ->
  mode = -1 \/ mode = 1 ->
  exists mode', (mode' = -1 \/ mode' = 1) /\
  parse_loop (S (S fuel)) (space_char :: bit_group 8 d b ++ rest) mode mark ba da =
  parse_loop fuel rest mode' mark (ba ++ [b]) (da ++ [d]).
Proof.
  intros Hb Hd E Hm. destruct (group_spec b d Hb Hd E) as [Hg Hbin].
  pose proof (binary_byte_app 8 (bit_group 8 d b) rest 0 0 (bit_group_length 8 d b)) as Happ. rewrite Hbin in Happ.
  pose proof (bit_group_length 8 d b) as Hlen.
  destruct (bit_group 8 d b) as [|c1 [|c2 l]] eqn:Eg; [done|done|]. pose proof (Forall_inv Hg) as H1.
  pose proof (Forall_inv (Forall_inv_tail Hg)) as H2.
  assert (skipn 8 ((c1 :: c2 :: l) ++ rest) = rest) as Hskip by (rewrite <- Hlen; apply drop_app_length).
  assert ((c2 =? x_char) = false) as Ex by (destruct H2 as [->|[->| ->]]; reflexivity).
  exists (if c1 =? zero_char then -1 else 1). split; [destruct (c1 =? zero_char); tauto|].
  change (space_char :: (c1 :: c2 :: l) ++ rest) with (space_char :: c1 :: c2 :: (l ++ rest)).
  change (parse_loop (S (S fuel)) (space_char :: c1 :: c2 :: l ++ rest) mode mark ba da) with
    (if (mode =? -2) && true then parse_loop (S fuel) (c1 :: c2 :: l ++ rest) mode mark ba da
     else parse_loop (S fuel) (c1 :: c2 :: l ++ rest) (-1) mark ba da).
  replace (mode =? -2) with false by (destruct Hm as [->| ->]; reflexivity). cbn [andb].
  change ((c1 :: c2 :: l) ++ rest) with (c1 :: c2 :: l ++ rest) in *.
  remember (c1 :: c2 :: l ++ rest) as chars eqn:Ec. cbn [parse_loop]. rewrite Ec at 1.
  destruct H1 as [->|[->| ->]]; cbn [Z.eqb Pos.eqb andb orb negb is_whitespace]; rewrite <- ?Ec, ?Happ, ?Ex, ?Hskip; reflexivity.
Qed.

Lemma parse_groups (l : list (Z * Z)) (fuel : nat) (mode mark : Z) (ba da : list Z) :
  Forall (fun '(b, d) => 0 <= b < 256 /\ 0 <= d < 256 /\ Z.land b d = b) l -> mode = -1 \/ mode = 1 ->
  parse_loop (S (2 * List.length l + fuel)) (flat_map (fun '(b, d) => space_char :: bit_group 8 d b) l) mode mark ba da =
  Some (inr (Ditted (ba ++ map fst l) (da ++ map snd l) 0, mark)).
Proof.
  revert mode ba da. induction l as [|[b d] l IH]; intros mode ba da Hl Hm; [cbn [parse_loop flat_map map]; by rewrite !app_nil_r|].
  pose proof (Forall_inv Hl) as (Hb & Hd & E). apply Forall_inv_tail in Hl. cbn [flat_map List.length].
  replace (S (2 * S (List.length l) + fuel)) with (S (S (S (2 * List.length l + fuel)))) by lia.
  destruct (parse_group (S (2 * List.length l + fuel)) b d mode mark (flat_map (fun '(b, d) => space_char :: bit_group 8 d b) l) ba da Hb Hd E Hm)
    as (mode' & Hm' & Hp).
  change ((space_char :: bit_group 8 d b) ++ ?r) with (space_char :: bit_group 8 d b ++ r). rewrite Hp, (IH mode' _ _ Hl Hm').
  by rewrite <- !app_assoc.
Qed.

Lemma flat_map_groups_length (l : list (Z * Z)) :
  List.length (flat_map (fun '(b, d) => space_char :: bit_group 8 d b) l) = (9 * List.length l)%nat.
Proof.
  induction l as [|[b d] l IH]; [done|]. cbn [flat_map]. rewrite length_app, IH. cbn [List.length]. rewrite bit_group_length. lia.
Qed.

Lemma map_combine {A B : Type} (l : list A) (k : list B) : List.length l = List.length k ->
  map fst (combine l k) = l /\ map snd (combine l k) = k.
Proof.
  revert k. induction l as [|a l IH]; intros [|b k] H; try done. injection H as H. destruct (IH k H) as [E1 E2]. cbn. by rewrite E1, E2.
Qed.

(** [C36] Parsing what [to_bit_string] renders gives the sequence back, without a mark, for every
    sequence whose required bits are checked bits. *)
Theorem ditted_round_trip (s : ditted) : well_formed s ->
  parse (to_bit_string s) = Some (inr (set_index s 0, -1)).
Proof.
  intros [Hlen Hf]. unfold parse, to_bit_string. rewrite flat_map_groups_length.
  replace (9 * List.length (combine (bits s) (dits s)))%nat
    with (2 * List.length (combine (bits s) (dits s)) + 7 * List.length (combine (bits s) (dits s)))%nat by lia.
  rewrite (parse_groups (combine (bits s) (dits s)) _ (-1) (-1) [] [] Hf) by (by left).
  destruct (map_combine (bits s) (dits s) Hlen) as [-> ->]. done.
Qed.

Lemma ditted_round_trip_witness :
  well_formed (Ditted [80; 129] [240; 253] 3) /\ parse (to_bit_string (Ditted [80; 129] [240; 253] 3)) = Some (inr (Ditted [80; 129] [240; 253] 0, -1)).
Proof.
  assert (well_formed (Ditted [80; 129] [240; 253] 3)) as H.
  { split; [reflexivity|]. repeat constructor; (lia || reflexivity). }
  split; [exact H|]. apply (ditted_round_trip (Ditted [80; 129] [240; 253] 3) H).
Defined.

(** The loop reads a character at least in every turn, so [parse] always answers. *)
Lemma parse_loop_answers (fuel : nat) (chars : text) (mode mark : Z) (ba da : list Z) : (List.length chars < fuel)%nat ->
  parse_loop fuel chars mode mark ba da <> None.
Proof.
  revert chars mode mark ba da. induction fuel as [|fuel IH]; intros chars mode mark ba da Hf; [lia|]. cbn [parse_loop].
  destruct chars as [|c1 rest]; [done|]. cbn [List.length] in Hf.
  assert (forall m, match binary_byte 8 (c1 :: rest) 0 0 with
    | inl e => Some (inl e)
    | inr (val, mask) => parse_loop fuel (skipn 8 (c1 :: rest)) m mark (ba ++ [val]) (da ++ [mask]) end <> None) as Hbin.
  { intros m. destruct (binary_byte 8 (c1 :: rest) 0 0) as [e|[v k]]; [done|]. apply IH. rewrite length_skipn. cbn [List.length]. lia. }
  assert (forall m, match rest with
    | [] => Some (inl TruncatedHex)
    | c2 :: rest0 => match hex_byte c1 c2 with
      | inl e => Some (inl e)
      | inr (val, mask) => parse_loop fuel rest0 m mark (ba ++ [val]) (da ++ [mask]) end end <> None) as Hhex.
  { intros m. destruct rest as [|c2 rest]; [done|]. destruct (hex_byte c1 c2) as [e|[v k]]; [done|]. apply IH. cbn [List.length] in Hf. lia. }
  destruct (_ && _); [apply IH; lia|]. destruct (is_whitespace c1); [apply IH; lia|]. destruct (c1 =? hash); [apply IH; lia|].
  destruct (mode =? -1).
  - destruct (c1 =? zero_char).
    + destruct rest as [|c2 rest]; [destruct (mode =? 0); auto|]. destruct (c2 =? x_char); [apply IH; cbn [List.length] in Hf; lia|].
      destruct (mode =? 0); auto.
    + destruct (c1 =? star); [apply IH; lia|]. destruct (_ || _); [exact (Hbin 1)|done].
  - destruct (mode =? 0); auto.
Qed.

Lemma parse_answers (chars : text) : parse chars <> None.
Proof. apply parse_loop_answers. lia. Qed.
