(* ===== verification/Sequence.v ===== *)
(** The compiled multi-pattern matcher, [analysis/bytesearch/sequence.rs]: an arena of states built level
    by level, equal states of a level merged.  A state is its index in the arena, [None] the
    [NONE] of the source. *)
From Stdlib Require Import ZArith Lia Bool List Sorting.
From stdpp Require Import base decidable list tactics.
From S2P Require Import Prelude Ditted.

Record node := Node {
  parent : option nat;
  possible : list nat;
  success : option (list nat);
  trans : list (option nat);
}.

Record seq_match := SeqMatch { seq_index : nat; offset : nat }.

(** [SequenceSearchState] is its arena. *)
Abbreviation machine := (list node).

Definition no_node : node := Node None [] None [].

(** An index out of range panics; [no_node] stands for it. *)
Definition nd (st : machine) (i : nat) : node := nth i st no_node.

Definition update (st : machine) (i : nat) (f : node -> node) : machine := alter f i st.

Definition new_node (st : machine) (p : option nat) : machine * nat := (st ++ [Node p [] None []], List.length st).

Definition add_sequence (st : machine) (n pat_index pat_size pos : nat) : machine :=
  update st n (fun x => Node (parent x) (possible x ++ [pat_index])
    (if Nat.eqb pos pat_size then Some (default [] (success x) ++ [pat_index]) else success x) (trans x)).

(** [sort_unstable] on indices *)
Definition sort_nat (l : list nat) : list nat := sort_by Nat.leb l.

Definition sort_sequences (st : machine) (n : nat) : machine :=
  update st n (fun x => Node (parent x) (sort_nat (possible x)) (option_map sort_nat (success x)) (trans x)).

(** the lexicographic order of index lists *)
Fixpoint list_cmp (a b : list nat) : comparison :=
  match a, b with
  | [], [] => Eq
  | [], _ :: _ => Lt
  | _ :: _, [] => Gt
  | x :: a, y :: b => match Nat.compare x y with Eq => list_cmp a b | c => c end
  end.

Definition compare (st : machine) (a b : nat) : comparison := list_cmp (possible (nd st a)) (possible (nd st b)).

Definition set_trans (st : machine) (n : nat) (t : list (option nat)) : machine :=
  update st n (fun x => Node (parent x) (possible x) (success x) t).

(** [build_single_transition]; the state, the states made so far *)
Definition build_single_transition (patterns : list ditted) (state pos : nat) (acc : machine * list nat) (val : nat) : machine * list nat :=
  let '(st, res) := acc in
  let '(st, newstate) :=
    fold_left (fun '(st, newstate) curpat =>
        if is_match (nth curpat patterns empty) pos (Z.of_nat val) then
          let '(st, n) := match newstate with
                          | None => new_node st (Some state)
                          | Some n => (st, n)
                          end in
          (add_sequence st n curpat (size (nth curpat patterns empty)) (S pos), Some n)
        else (st, newstate))
      (possible (nd st state)) (st, None) in
  let st := set_trans st state (<[val := newstate]> (trans (nd st state))) in
  match newstate with
  | None => (st, res)
  | Some n => (sort_sequences st n, res ++ [n])
  end.

(** the sorted union of two success lists; [tmp] the merged so far *)
Fixpoint merge_success (fuel : nat) (mine op tmp : list nat) : list nat :=
  match fuel with
  | O => tmp
  | S fuel =>
      let push v := if match hd_error (rev tmp) with Some w => Nat.eqb w v | None => false end then tmp else tmp ++ [v] in
      match mine, op with
      | [], [] => tmp
      | a :: mine', b :: op' => if Nat.leb a b then merge_success fuel mine' op (push a) else merge_success fuel mine op' (push b)
      | a :: mine', [] => merge_success fuel mine' op (push a)
      | [], b :: op' => merge_success fuel mine op' (push b)
      end
  end.

Definition merge (st : machine) (keep op : nat) : machine :=
  let st := match parent (nd st op) with
            | None => st
            | Some p => set_trans st p (map (fun t => if bool_decide (t = Some op) then Some keep else t) (trans (nd st p)))
            end in
  let op_success := success (nd st op) in
  let st := update st op (fun x => Node (parent x) (possible x) None (trans x)) in
  match op_success with
  | None => st
  | Some theirs =>
      update st keep (fun x => Node (parent x) (possible x)
        (match success x with
         | None => Some theirs
         | Some mine => Some (merge_success (List.length mine + List.length theirs) mine theirs [])
         end) (trans x))
  end.

(** the loop over the sorted states: the machine, the state kept last, the states kept *)
Definition dedup (st : machine) (first : nat) (rest : list nat) : machine * list nat :=
  let '(st, _, finalres) :=
    fold_left (fun '(st, curpat, finalres) nextpat =>
        match compare st curpat nextpat with
        | Eq => (merge st curpat nextpat, curpat, finalres)
        | _ => (st, nextpat, finalres ++ [nextpat])
        end) rest (st, first, [first]) in
  (st, finalres).

Definition build_transition_level (st : machine) (prev : list nat) (patterns : list ditted) (pos : nat) : machine * list nat :=
  let '(st, res) :=
    fold_left (fun '(st, res) next =>
        fold_left (build_single_transition patterns next pos) (seq 0 256) (set_trans st next (repeat None 256), res))
      prev (st, []) in
  match sort_by (fun a b => match compare st a b with Gt => false | _ => true end) res with
  | [] => (st, [])
  | first :: rest => dedup st first rest
  end.

Fixpoint build_levels (fuel : nat) (st : machine) (statelevel : list nat) (patterns : list ditted) (level : nat) : option machine :=
  match statelevel with
  | [] => Some st
  | _ =>
      match fuel with
      | O => None
      | S fuel =>
          let '(st, statelevel) := build_transition_level st statelevel patterns level in
          build_levels fuel st statelevel patterns (S level)
      end
  end.

(** [build_state_machine] on the patterns in their order; [set_index] gives each its position *)
Definition build_state_machine (fuel : nat) (patterns : list ditted) : option machine :=
  let '(st, root) := new_node [] None in
  let st := fold_left (fun st i => add_sequence st root i (size (nth i patterns empty)) 0) (seq 0 (List.length patterns)) st in
  build_levels fuel (sort_sequences st root) [root] patterns 0.

(** the inner loop of [apply]: the buffer from [subindex] *)
Fixpoint run_from (st : machine) (curstate : nat) (buffer : list Z) (off : nat) : list seq_match :=
  map (fun s => SeqMatch s off) (default [] (success (nd st curstate))) ++
  match buffer with
  | [] => []
  | b :: buffer =>
      match trans (nd st curstate) with
      | [] => []
      | t => match nth (Z.to_nat b) t None with
             | None => []
             | Some next => run_from st next buffer off
             end
      end
  end.

(** what [apply] appends to [out] *)
Definition apply (st : machine) (buffer : list Z) (max_start : nat) : list seq_match :=
  flat_map (fun off => run_from st 0 (skipn off buffer) off) (seq 0 (Nat.min max_start (List.length buffer))).

Definition max_sequence_size (st : machine) (patterns : list ditted) : nat :=
  match st with
  | [] => 0
  | root :: _ => fold_left Nat.max (map (fun i => size (nth i patterns empty)) (possible root)) 0
  end.

(** The states of a level number at least the longest pattern's bytes, then none. *)
Definition levels_fuel (patterns : list ditted) : nat := S (S (list_max (map size patterns))).

(** ** Examples *)

Definition example_patterns : list ditted :=
  [Ditted [85%Z] [255%Z] 0; Ditted [85%Z; 137%Z] [255%Z; 255%Z] 1; Ditted [80%Z] [240%Z] 2].

Example example_apply :
  option_map (fun st => apply st [85; 137; 81]%Z 3) (build_state_machine 10 example_patterns)
  = Some [SeqMatch 0 0; SeqMatch 2 0; SeqMatch 1 0; SeqMatch 2 2].
Proof. vm_compute. reflexivity. Qed.
