(* ===== verification/SequenceFacts.v ===== *)
(** The matcher of [Sequence] against its specification: the sequences that match at each offset, the
    shorter first and then by index.  The construction is followed level by level: what one transition
    adds, what a level holds before and after its equal states are merged. *)
From Stdlib Require Import ZArith Lia Bool List Sorting Permutation.
From stdpp Require Import base decidable list tactics.
From S2P Require Import Prelude Ditted Sequence.

(** ** The specification *)

(** The sequence agrees with the first bytes of the buffer. *)
Definition matches_at (s : ditted) (buffer : list Z) : bool :=
  forallb (fun k => is_match s k (nth k buffer 0%Z)) (seq 0 (size s)).

(** All sequences that match at [off], by length, then by index. *)
Definition matches_from (patterns : list ditted) (buffer : list Z) (off : nat) : list seq_match :=
  flat_map (fun k =>
      map (fun i => SeqMatch i off)
        (List.filter (fun i => Nat.eqb (size (nth i patterns empty)) k && matches_at (nth i patterns empty) buffer) (seq 0 (List.length patterns))))
    (seq 0 (S (List.length buffer))).

Definition byte_ok (b : Z) : Prop := (0 <= b < 256)%Z.

(** ** Sorting *)

Lemma sort_sorted (l : list nat) : StronglySorted lt l -> sort_nat l = l.
Proof.
  induction l as [|x l IH]; [done|]. intros Hs. apply StronglySorted_inv in Hs as [Hs Hx]. unfold sort_nat in *. cbn [sort_by fold_right].
  fold (sort_by Nat.leb l). rewrite (IH Hs). destruct l as [|y l]; [done|]. apply List.Forall_inv in Hx. cbn.
  by destruct (Nat.leb_spec x y); [|lia].
Qed.

Lemma filter_sorted (f : nat -> bool) (l : list nat) : StronglySorted lt l -> StronglySorted lt (List.filter f l).
Proof.
  induction l as [|x l IH]; [done|]. intros Hs. apply StronglySorted_inv in Hs as [Hs Hx]. cbn. destruct (f x); [|by apply IH].
  constructor; [by apply IH|]. apply List.Forall_forall. intros y Hy. apply filter_In in Hy as [Hy _]. by eapply List.Forall_forall in Hx.
Qed.

Lemma seq_sorted (n s : nat) : StronglySorted lt (seq s n).
Proof.
  revert s. induction n as [|n IH]; intros s; constructor; [apply IH|]. apply List.Forall_forall. intros y Hy. apply in_seq in Hy. lia.
Qed.

Lemma list_cmp_eq (a b : list nat) : list_cmp a b = Eq -> a = b.
Proof.
  revert b. induction a as [|x a IH]; intros [|y b] E; try done. cbn in E. destruct (Nat.compare_spec x y) as [->| |]; try done.
  by rewrite (IH b E).
Qed.

(** ** Arenas *)

Lemma nd_update (st : machine) (i j : nat) (f : node -> node) :
  nd (update st i f) j = if Nat.eqb i j && Nat.ltb i (List.length st) then f (nd st j) else nd st j.
Proof.
  unfold nd, update. rewrite !nth_lookup, list_lookup_alter. destruct (Nat.eqb_spec i j) as [->|Hne]; cbn [andb].
  - rewrite decide_True by done. destruct (Nat.ltb_spec j (List.length st)) as [Hl|Hl].
    + by destruct (lookup_lt_is_Some_2 st j Hl) as [x ->].
    + by rewrite lookup_ge_None_2.
  - by rewrite decide_False.
Qed.

Lemma update_length (st : machine) (i : nat) (f : node -> node) : List.length (update st i f) = List.length st.
Proof. apply length_alter. Qed.

Lemma nd_old (st : machine) (x : node) (i : nat) : i < List.length st -> nd (st ++ [x]) i = nd st i.
Proof. intros Hi. unfold nd. by rewrite app_nth1. Qed.

Lemma nd_new (st : machine) (x : node) : nd (st ++ [x]) (List.length st) = x.
Proof. unfold nd. by rewrite app_nth2, Nat.sub_diag by lia. Qed.

Lemma update_new (st : machine) (x : node) (f : node -> node) : update (st ++ [x]) (List.length st) f = st ++ [f x].
Proof. unfold update. by rewrite alter_app_r_alt, Nat.sub_diag by lia. Qed.

Lemma update_at (st : machine) (x : node) (f : node -> node) (n : nat) : n = List.length st -> update (st ++ [x]) n f = st ++ [f x].
Proof. intros ->. apply update_new. Qed.

Lemma update_old (st : machine) (x : node) (i : nat) (f : node -> node) : i < List.length st -> update (st ++ [x]) i f = update st i f ++ [x].
Proof. intros Hi. unfold update. by rewrite alter_app_l. Qed.

Lemma add_new (st : machine) (x : node) (i sz pos : nat) : add_sequence (st ++ [x]) (List.length st) i sz pos =
  st ++ [Node (parent x) (possible x ++ [i]) (if Nat.eqb pos sz then Some (default [] (success x) ++ [i]) else success x) (trans x)].
Proof. unfold add_sequence. by rewrite update_new. Qed.

Section Machine.
Context (patterns : list ditted).

Definition psize (i : nat) : nat := size (nth i patterns empty).
Definition fits (pos : nat) (v i : nat) : bool := is_match (nth i patterns empty) pos (Z.of_nat v).

(** The success list of a state: its sequences of exactly that length. *)
Definition complete (level : nat) (l : list nat) : list nat := List.filter (fun i => Nat.eqb level (psize i)) l.
Definition success_of (level : nat) (l : list nat) : option (list nat) :=
  match complete level l with [] => None | s => Some s end.

(** *** One transition *)

Lemma add_all (pos state val : nat) (st : machine) (l acc : list nat) : acc <> [] ->
  fold_left (fun '(st, newstate) curpat =>
      if is_match (nth curpat patterns empty) pos (Z.of_nat val) then
        let '(st, n) := match newstate with None => new_node st (Some state) | Some n => (st, n) end in
        (add_sequence st n curpat (size (nth curpat patterns empty)) (S pos), Some n)
      else (st, newstate)) l
    (st ++ [Node (Some state) acc (success_of (S pos) acc) []], Some (List.length st)) =
  (st ++ [Node (Some state) (acc ++ List.filter (fits pos val) l) (success_of (S pos) (acc ++ List.filter (fits pos val) l)) []],
    Some (List.length st)).
Proof.
  revert acc. induction l as [|i l IH]; intros acc Hacc; cbn [fold_left List.filter]; [by rewrite app_nil_r|].
  change (is_match (nth i patterns empty) pos (Z.of_nat val)) with (fits pos val i). destruct (fits pos val i); [|by apply IH].
  assert (success_of (S pos) (acc ++ [i]) =
    if Nat.eqb (S pos) (psize i) then Some (default [] (success_of (S pos) acc) ++ [i]) else success_of (S pos) acc) as Es.
  { unfold success_of, complete. rewrite List.filter_app. cbn [List.filter]. destruct (Nat.eqb (S pos) (psize i)); [|by rewrite app_nil_r].
    by destruct (List.filter _ acc). }
  rewrite add_new. cbn [parent possible success trans]. fold (psize i). rewrite <- Es.
  rewrite (IH (acc ++ [i])) by (by destruct acc). by rewrite <- app_assoc.
Qed.

(** What one transition leaves: the entry, and the new state when there is one. *)
Definition with_transition (st : machine) (state pos val : nat) (l : list nat) : machine :=
  match l with
  | [] => set_trans st state (<[val := None]> (trans (nd st state)))
  | _ => set_trans st state (<[val := Some (List.length st)]> (trans (nd st state))) ++ [Node (Some state) l (success_of (S pos) l) []]
  end.

Lemma success_sorted (level : nat) (l : list nat) : StronglySorted lt l -> option_map sort_nat (success_of level l) = success_of level l.
Proof.
  intros Hs. unfold success_of. destruct (complete level l) as [|i s] eqn:E; [done|]. cbn [option_map]. f_equal. apply sort_sorted. rewrite <- E. by apply filter_sorted.
Qed.

Lemma single_transition (st : machine) (res : list nat) (state pos val : nat) :
  state < List.length st -> StronglySorted lt (possible (nd st state)) ->
  build_single_transition patterns state pos (st, res) val =
  (with_transition st state pos val (List.filter (fits pos val) (possible (nd st state))),
   match List.filter (fits pos val) (possible (nd st state)) with [] => res | _ => res ++ [List.length st] end).
Proof.
  intros Hst Hs. unfold build_single_transition. pose proof (filter_sorted (fits pos val) _ Hs) as Hf. revert Hf.
  generalize (possible (nd st state)) as l. clear Hs. induction l as [|i l IH]; intros Hf; [done|]. cbn [fold_left List.filter] in *.
  change (is_match (nth i patterns empty) pos (Z.of_nat val)) with (fits pos val i). destruct (fits pos val i) eqn:Ei; [|by apply IH]. clear IH.
  unfold new_node at 2. rewrite add_new. cbn [parent possible success trans app]. fold (psize i).
  pose proof (add_all pos state val st l [i] ltac:(done)) as Hall. unfold success_of at 1, complete at 1 in Hall. cbn [List.filter] in Hall.
  replace (if Nat.eqb (S pos) (psize i) then Some (default [] None ++ [i]) else None)
    with (match (if Nat.eqb (S pos) (psize i) then [i] else []) with [] => None | s => Some s end) by (by destruct (Nat.eqb (S pos) (psize i))).
  rewrite Hall. cbn [app]. fold (complete (S pos) (i :: List.filter (fits pos val) l)). fold (success_of (S pos) (i :: List.filter (fits pos val) l)).
  unfold sort_sequences, set_trans, with_transition, set_trans. rewrite (nd_old _ _ _ Hst), (update_old _ _ _ _ Hst).
  rewrite (update_at _ _ _ (List.length st)) by (by rewrite update_length). cbn [parent possible success trans]. rewrite sort_sorted, success_sorted by done. done.
Qed.

(** *** One level before merging *)

Definition state_ok (st : machine) (level x : nat) : Prop :=
  x < List.length st /\ StronglySorted lt (possible (nd st x)) /\ success (nd st x) = success_of level (possible (nd st x)) /\
  (forall i, In i (possible (nd st x)) -> level <= psize i).

(** The transition of [x] on [v] leads to a state of the right sequences that is [ok], or nowhere. *)
Definition entry_ok (st : machine) (pos x v : nat) (ok : nat -> Prop) : Prop :=
  match List.filter (fits pos v) (possible (nd st x)) with
  | [] => nth v (trans (nd st x)) None = None
  | l => exists y, nth v (trans (nd st x)) None = Some y /\ ok y /\ possible (nd st y) = l
  end.

Lemma nth_insert (l : list (option nat)) (v w : nat) (a : option nat) : v < List.length l ->
  nth w (<[v := a]> l) None = if Nat.eqb v w then a else nth w l None.
Proof.
  intros Hv. rewrite !nth_lookup. destruct (Nat.eqb_spec v w) as [->|Hne].
  - by rewrite list_lookup_insert_eq.
  - by rewrite list_lookup_insert_ne.
Qed.

Lemma nd_set_trans (st : machine) (x y : nat) (t : list (option nat)) : x < List.length st ->
  nd (set_trans st x t) y = if Nat.eqb x y then Node (parent (nd st y)) (possible (nd st y)) (success (nd st y)) t else nd st y.
Proof.
  intros Hx. unfold set_trans. rewrite nd_update. by destruct (Nat.ltb_spec x (List.length st)); [rewrite andb_true_r|lia].
Qed.

Lemma set_trans_length (st : machine) (x : nat) (t : list (option nat)) : List.length (set_trans st x t) = List.length st.
Proof. apply update_length. Qed.

(** The states after one transition: those of before, the entry set, and the new one. *)
Lemma nd_with_transition (st : machine) (x pos v : nat) (l : list nat) (y : nat) : x < List.length st ->
  let st' := with_transition st x pos v l in
  let target := match l with [] => None | _ => Some (List.length st) end in
  List.length st' = List.length st + (match l with [] => 0 | _ => 1 end) /\
  (y < List.length st -> nd st' y = if Nat.eqb x y then Node (parent (nd st y)) (possible (nd st y)) (success (nd st y)) (<[v := target]> (trans (nd st x)))
                                    else nd st y) /\
  (l <> [] -> nd st' (List.length st) = Node (Some x) l (success_of (S pos) l) []).
Proof.
  intros Hx. unfold with_transition. destruct l as [|i l]; cbn zeta.
  - rewrite set_trans_length, nd_set_trans by done. split; [lia|]. split; done.
  - rewrite length_app, set_trans_length. split; [cbn; lia|]. split.
    + intros Hy. rewrite nd_old by (by rewrite set_trans_length). by apply nd_set_trans.
    + intros _. rewrite <- (set_trans_length st x (<[v := Some (List.length st)]> (trans (nd st x)))) at 2. apply nd_new.
Qed.

Section Level.
Context (st0 : machine) (prev : list nat) (pos : nat).
Hypothesis Hprev : forall x, In x prev -> state_ok st0 pos x.

Record expanding (st : machine) (res : list nat) (done : nat -> nat -> Prop) : Prop := Expanding {
  ex_length : List.length st0 <= List.length st;
  ex_old : forall y, y < List.length st0 ->
    parent (nd st y) = parent (nd st0 y) /\ possible (nd st y) = possible (nd st0 y) /\ success (nd st y) = success (nd st0 y) /\
    (~ In y prev -> trans (nd st y) = trans (nd st0 y));
  ex_unique : List.NoDup res;
  ex_res : forall y, In y res -> List.length st0 <= y /\ state_ok st (S pos) y /\ possible (nd st y) <> [] /\ trans (nd st y) = [] /\
    (exists x, In x prev /\ parent (nd st y) = Some x);
  ex_done : forall x v, In x prev -> done x v -> List.length (trans (nd st x)) = 256 /\
    entry_ok st pos x v (fun y => In y res /\ parent (nd st y) = Some x);
}.

Lemma transition_step (st : machine) (res : list nat) (done : nat -> nat -> Prop) (x v : nat) :
  expanding st res done -> In x prev -> v < 256 -> List.length (trans (nd st x)) = 256 ->
  let r := build_single_transition patterns x pos (st, res) v in
  expanding (fst r) (snd r) (fun x' v' => done x' v' \/ (x' = x /\ v' = v)) /\ List.length (trans (nd (fst r) x)) = 256.
Proof.
  intros [Hlen Hold Hun Hres Hdone] Hx Hv Ht. destruct (Hprev x Hx) as (Hx0 & Hsort & _ & Hsz). destruct (Hold x Hx0) as (_ & Ep & _ & _).
  assert (x < List.length st) as Hxl by lia. rewrite single_transition by (done || by rewrite Ep). cbn zeta. cbn [fst snd].
  pose proof (fun y => nd_with_transition st x pos v (List.filter (fits pos v) (possible (nd st x))) y Hxl) as Hnd. cbn zeta in Hnd.
  assert (entry : forall y, In y (List.filter (fits pos v) (possible (nd st x))) -> S pos <= psize y).
  { intros y Hy. apply filter_In in Hy as [_ Hy]. unfold fits, is_match in Hy. unfold psize, size.
    destruct (nth_error _ pos) eqn:E; [|done]. assert (nth_error (bits (nth y patterns empty)) pos <> None) as H by congruence.
    apply nth_error_Some in H. lia. }
  pose proof (filter_sorted (fits pos v) (possible (nd st x)) ltac:(by rewrite Ep)) as Hfs.
  remember (List.filter (fits pos v) (possible (nd st x))) as l eqn:El. destruct (Hnd 0) as (Hl' & _ & Hnew).
  assert (forall y, y < List.length st -> possible (nd (with_transition st x pos v l) y) = possible (nd st y) /\
    parent (nd (with_transition st x pos v l) y) = parent (nd st y) /\ success (nd (with_transition st x pos v l) y) = success (nd st y) /\
    trans (nd (with_transition st x pos v l) y) = if Nat.eqb x y then <[v := match l with [] => None | _ => Some (List.length st) end]> (trans (nd st x)) else trans (nd st y)) as Hf.
  { intros y Hy. destruct (Hnd y) as (_ & H & _). rewrite (H Hy). by destruct (Nat.eqb x y). }
  set (st' := with_transition st x pos v l) in *. set (res' := match l with [] => res | _ => res ++ [List.length st] end).
  assert (forall y, In y res -> List.length st0 <= y < List.length st) as Hrange by (intros y Hy; destruct (Hres y Hy) as (H1 & (H2 & _) & _); lia).
  assert (forall y, In y res -> In y res') as Hsub by (intros y Hy; unfold res'; destruct l; [done|]; apply in_app_iff; by left).
  assert (List.length (trans (nd st' x)) = 256) as Ht'.
  { destruct (Hf x Hxl) as (_ & _ & _ & ->). by rewrite Nat.eqb_refl, length_insert. }
  split; [|done]. split.
  - lia.
  - intros y Hy. destruct (Hold y Hy) as (H1 & H2 & H3 & H4). destruct (Hf y ltac:(lia)) as (-> & -> & -> & ->). split_and!; try done.
    intros Hn. destruct (Nat.eqb_spec x y) as [->|]; [done|by apply H4].
  - unfold res'. destruct l as [|i l']; [done|]. apply List.NoDup_app; [done|apply List.NoDup_cons; [intros []|apply List.NoDup_nil]|].
    intros y Hy [<-|[]]. specialize (Hrange _ Hy). lia.
  - intros y Hy. assert (In y res \/ (y = List.length st /\ l <> [])) as [Hin|[-> Hl]].
    { unfold res' in Hy. destruct l; [by left|]. apply in_app_iff in Hy as [Hy|[<-|[]]]; [by left|by right]. }
    + destruct (Hres y Hin) as (H1 & (H2 & H3 & H4 & H5) & H6 & H7 & H8). destruct (Hf y H2) as (E1 & E2 & E3 & E4). unfold state_ok. rewrite E1, E2, E3, E4.
      destruct (Nat.eqb_spec x y) as [->|]; [lia|]. split_and!; try done. lia.
    + rewrite (Hnew Hl). unfold state_ok. rewrite (Hnew Hl). cbn [possible success trans parent]. destruct l; [done|]. split_and!; try done; try lia. by exists x.
  - intros x' v' Hx' Hd. destruct (Hprev x' Hx') as (Hx0' & _). assert (x' < List.length st) as Hxl' by lia.
    assert (List.length (trans (nd st' x')) = 256) as Hlen256.
    { destruct (Nat.eqb_spec x x') as [<-|Hne]; [done|]. destruct (Hf x' Hxl') as (_ & _ & _ & ->). destruct (Nat.eqb_spec x x'); [done|].
      destruct Hd as [Hd|[-> _]]; [by apply Hdone with v'|done]. }
    split; [done|]. unfold entry_ok. destruct (Hf x' Hxl') as (-> & _ & _ & ->).
    destruct (decide (x' = x /\ v' = v)) as [[-> ->]|Hne].
    + rewrite Nat.eqb_refl, nth_insert, Nat.eqb_refl, <- El by lia. destruct l as [|i l']; [done|].
      exists (List.length st). rewrite (Hnew ltac:(done)). split; [done|]. split; [|done]. split; [|done]. apply in_app_iff. right. by left.
    + destruct Hd as [Hd|Hd]; [|done]. destruct (Hdone x' v' Hx' Hd) as [_ He]. unfold entry_ok in He.
      assert (nth v' (if Nat.eqb x x' then <[v := match l with [] => None | _ => Some (List.length st) end]> (trans (nd st x)) else trans (nd st x')) None
        = nth v' (trans (nd st x')) None) as ->.
      { destruct (Nat.eqb_spec x x') as [<-|]; [|done]. rewrite nth_insert by lia. destruct (Nat.eqb_spec v v') as [<-|]; [by exfalso; apply Hne|done]. }
      destruct (List.filter (fits pos v') (possible (nd st x'))) as [|j k]; [done|]. destruct He as (y & E1 & [E2 E3] & E4).
      exists y. destruct (Hf y ltac:(by apply Hrange)) as (-> & -> & _ & _). split_and!; auto.
Qed.

Lemma expanding_weaken (st : machine) (res : list nat) (done done' : nat -> nat -> Prop) :
  (forall x v, done' x v -> done x v) -> expanding st res done -> expanding st res done'.
Proof. intros Hd [H1 H2 H3 H4 H5]. split; auto. Qed.

Lemma reset_state (st : machine) (res : list nat) (done : nat -> nat -> Prop) (x : nat) :
  expanding st res done -> In x prev -> (forall v, ~ done x v) ->
  expanding (set_trans st x (repeat None 256)) res done /\ List.length (trans (nd (set_trans st x (repeat None 256)) x)) = 256.
Proof.
  intros [Hlen Hold Hun Hres Hdone] Hx Hn. destruct (Hprev x Hx) as (Hx0 & _). assert (x < List.length st) as Hxl by lia.
  assert (forall y, parent (nd (set_trans st x (repeat None 256)) y) = parent (nd st y) /\
    possible (nd (set_trans st x (repeat None 256)) y) = possible (nd st y) /\
    success (nd (set_trans st x (repeat None 256)) y) = success (nd st y) /\
    (x <> y -> trans (nd (set_trans st x (repeat None 256)) y) = trans (nd st y))) as Hf.
  { intros y. rewrite nd_set_trans by done. by destruct (Nat.eqb_spec x y). }
  split; [|rewrite nd_set_trans, Nat.eqb_refl by done; apply repeat_length]. split.
  - by rewrite set_trans_length.
  - intros y Hy. destruct (Hf y) as (-> & -> & -> & Ht). destruct (Hold y Hy) as (H1 & H2 & H3 & H4). split_and!; try done.
    intros Hp. rewrite Ht; [by apply H4|]. by intros ->.
  - done.
  - intros y Hy. destruct (Hres y Hy) as (H1 & H2 & H3 & H4 & H5). destruct (Hf y) as (E1 & E2 & E3 & E4). unfold state_ok.
    rewrite E1, E2, E3, E4, set_trans_length by lia. done.
  - intros x' v Hx' Hd. assert (x <> x') as Hne by (intros ->; by apply (Hn v)). destruct (Hdone x' v Hx' Hd) as [H1 H2].
    destruct (Hf x') as (_ & E2 & _ & E4). rewrite E4 by done. split; [done|]. unfold entry_ok in *. rewrite E2, E4 by done.
    destruct (List.filter _ _) as [|i l]; [done|]. destruct H2 as (y & Ey & [Hy Hpy] & Hpos). exists y.
    destruct (Hf y) as (-> & -> & _ & _). done.
Qed.

Lemma state_transitions (l : list nat) (st : machine) (res : list nat) (done : nat -> nat -> Prop) (x : nat) :
  expanding st res done -> In x prev -> List.Forall (fun v => v < 256) l -> List.length (trans (nd st x)) = 256 ->
  let r := fold_left (build_single_transition patterns x pos) l (st, res) in
  expanding (fst r) (snd r) (fun x' v' => done x' v' \/ (x' = x /\ In v' l)).
Proof.
  revert st res done. induction l as [|v l IH]; intros st res done He Hx Hl Ht; cbn zeta.
  - eapply expanding_weaken; [|exact He]. by intros x' v' [H|[_ []]].
  - cbn [fold_left]. apply List.Forall_cons_iff in Hl as [Hv Hl].
    destruct (transition_step st res done x v He Hx Hv Ht) as [He' Ht'].
    destruct (build_single_transition patterns x pos (st, res) v) as [st' res']. cbn [fst snd] in *.
    eapply expanding_weaken; [|exact (IH st' res' _ He' Hx Hl Ht')]. intros x' v' [H|[-> [<-|H]]]; auto.
Qed.

Definition expand_state : machine * list nat -> nat -> machine * list nat :=
  fun '(st, res) next => fold_left (build_single_transition patterns next pos) (seq 0 256) (set_trans st next (repeat None 256), res).

Lemma expand_states (todo : list nat) (st : machine) (res : list nat) (done : nat -> nat -> Prop) :
  expanding st res done -> List.NoDup todo -> (forall x, In x todo -> In x prev /\ forall v, ~ done x v) ->
  let r := fold_left expand_state todo (st, res) in
  expanding (fst r) (snd r) (fun x v => done x v \/ (In x todo /\ v < 256)).
Proof.
  revert st res done. induction todo as [|x todo IH]; intros st res done He Hnd Ht; cbn zeta.
  - eapply expanding_weaken; [|exact He]. by intros x' v' [H|[[] _]].
  - cbn [fold_left]. apply List.NoDup_cons_iff in Hnd as [Hx Hnd]. destruct (Ht x (or_introl eq_refl)) as [Hxp Hxd].
    destruct (reset_state st res done x He Hxp Hxd) as [Hr Hrl].
    pose proof (state_transitions (seq 0 256) _ res done x Hr Hxp ltac:(apply List.Forall_forall; intros v Hv%in_seq; lia) Hrl) as Hs.
    cbn zeta in Hs. unfold expand_state at 2 4. cbn beta iota.
    destruct (fold_left (build_single_transition patterns x pos) (seq 0 256) (set_trans st x (repeat None 256), res)) as [st' res'].
    cbn [fst snd] in Hs. eapply expanding_weaken; [|apply (IH st' res' _ Hs Hnd)].
    + intros x' v' [H|[[<-|H] Hv]]; [by left; left| |by right]. left. right. split; [done|]. apply in_seq. lia.
    + intros x' Hx'. destruct (Ht x' (or_intror Hx')) as [H1 H2]. split; [done|]. intros v [H|[-> _]]; [by apply (H2 v)|done].
Qed.

(** *** Merging the equal states of a level *)

Record merging (st : machine) (final rest : list nat) : Prop := Merging {
  mg_length : List.length st0 <= List.length st;
  mg_old : forall y, y < List.length st0 ->
    parent (nd st y) = parent (nd st0 y) /\ possible (nd st y) = possible (nd st0 y) /\ success (nd st y) = success (nd st0 y) /\
    (~ In y prev -> trans (nd st y) = trans (nd st0 y));
  mg_unique : List.NoDup (final ++ rest);
  mg_states : forall y, In y (final ++ rest) -> List.length st0 <= y /\ state_ok st (S pos) y /\ possible (nd st y) <> [] /\ trans (nd st y) = [] /\
    (exists x, In x prev /\ parent (nd st y) = Some x);
  mg_entries : forall x, In x prev -> List.length (trans (nd st x)) = 256 /\ forall v, v < 256 ->
    entry_ok st pos x v (fun y => In y final \/ (In y rest /\ parent (nd st y) = Some x));
}.

Lemma merge_same (l tmp : list nat) : StronglySorted lt l ->
  (forall w a, hd_error (rev tmp) = Some w -> In a l -> w < a) ->
  merge_success (List.length l + List.length l) l l tmp = tmp ++ l.
Proof.
  revert tmp. induction l as [|a l IH]; intros tmp Hs Ht; [by rewrite app_nil_r|].
  apply StronglySorted_inv in Hs as [Hs Ha]. rewrite List.Forall_forall in Ha.
  assert (forall t, hd_error (rev (t ++ [a])) = Some a) as Hlast by (intros t; by rewrite rev_app_distr).
  cbn [List.length]. rewrite Nat.add_succ_r. cbn [Nat.add merge_success]. rewrite Nat.leb_refl.
  replace (match hd_error (rev tmp) with Some w => Nat.eqb w a | None => false end) with false.
  2:{ destruct (hd_error (rev tmp)) as [w|] eqn:E; [|done]. specialize (Ht w a eq_refl (or_introl eq_refl)). by destruct (Nat.eqb_spec w a); [lia|]. }
  assert (merge_success (List.length l + List.length l) l l (tmp ++ [a]) = tmp ++ a :: l) as <-.
  { rewrite IH; [by rewrite <- app_assoc|done|]. intros w b Hw Hb. rewrite Hlast in Hw. injection Hw as <-. by apply Ha. }
  destruct l as [|b l]; [cbn [merge_success]; by rewrite Hlast, Nat.eqb_refl|].
  specialize (Ha b (or_introl eq_refl)). destruct (Nat.leb_spec b a); [lia|]. by rewrite Hlast, Nat.eqb_refl.
Qed.

(** Merging redirects the entries that led to the state merged, and changes no state that is kept. *)
Lemma nd_merge (st : machine) (keep op p y : nat) : keep < List.length st -> op < List.length st -> p < List.length st -> keep <> op -> p <> op ->
  parent (nd st op) = Some p -> success (nd st keep) = success (nd st op) ->
  (forall s, success (nd st op) = Some s -> StronglySorted lt s) -> y <> op ->
  List.length (merge st keep op) = List.length st /\
  parent (nd (merge st keep op) y) = parent (nd st y) /\ possible (nd (merge st keep op) y) = possible (nd st y) /\
  success (nd (merge st keep op) y) = success (nd st y) /\
  trans (nd (merge st keep op) y) =
    if Nat.eqb p y then map (fun t => if bool_decide (t = Some op) then Some keep else t) (trans (nd st y)) else trans (nd st y).
Proof.
  intros Hk Ho Hp Hko Hpo Epar Esucc Hsort Hy. unfold merge. rewrite Epar.
  set (t := map _ (trans (nd st p))).
  assert (nd (set_trans st p t) op = nd st op) as -> by (rewrite nd_set_trans by done; by destruct (Nat.eqb_spec p op)).
  assert (nd (update (set_trans st p t) op (fun x => Node (parent x) (possible x) None (trans x))) y = nd (set_trans st p t) y) as Ey.
  { rewrite nd_update. by destruct (Nat.eqb_spec op y). }
  assert (nd (set_trans st p t) y = if Nat.eqb p y then Node (parent (nd st y)) (possible (nd st y)) (success (nd st y)) t else nd st y) as Ey2
    by (by apply nd_set_trans).
  destruct (success (nd st op)) as [theirs|] eqn:Et.
  - rewrite update_length, update_length, set_trans_length. split; [done|]. rewrite nd_update, update_length, set_trans_length, Ey, Ey2.
    destruct (Nat.ltb_spec keep (List.length st)); [|lia]. rewrite andb_true_r.
    destruct (Nat.eqb_spec keep y) as [->|]; destruct (Nat.eqb_spec p y) as [->|]; cbn [parent possible success trans]; split_and!; try done;
      rewrite Esucc; f_equal; by apply (merge_same theirs []); [apply Hsort|].
  - rewrite update_length, set_trans_length. split; [done|]. rewrite Ey, Ey2. by destruct (Nat.eqb_spec p y) as [->|].
Qed.

Lemma merge_step (st : machine) (final rest : list nat) (keep op : nat) :
  merging st final (op :: rest) -> In keep final -> possible (nd st keep) = possible (nd st op) ->
  merging (merge st keep op) final rest.
Proof.
  intros [Hlen Hold Hun Hst He] Hk Ek. pose proof (NoDup_remove _ _ _ Hun) as [Hun' Hnop].
  assert (In op (final ++ op :: rest)) as Hino by (apply in_app_iff; right; by left).
  assert (In keep (final ++ op :: rest)) as Hink by (apply in_app_iff; by left).
  destruct (Hst op Hino) as (Ho1 & (Ho2 & Ho3 & Ho4 & _) & _ & _ & (p & Hp & Epar)).
  destruct (Hst keep Hink) as (_ & (Hk2 & _ & Hk4 & _) & _ & _ & _). destruct (Hprev p Hp) as (Hp0 & _).
  assert (keep <> op) as Hko by (intros ->; apply Hnop, in_app_iff; by left).
  assert (forall y, y <> op -> List.length (merge st keep op) = List.length st /\
    parent (nd (merge st keep op) y) = parent (nd st y) /\ possible (nd (merge st keep op) y) = possible (nd st y) /\
    success (nd (merge st keep op) y) = success (nd st y) /\
    trans (nd (merge st keep op) y) =
      if Nat.eqb p y then map (fun t => if bool_decide (t = Some op) then Some keep else t) (trans (nd st y)) else trans (nd st y)) as Hm.
  { intros y Hy. apply nd_merge; try done; try lia; [congruence|]. intros s Es. rewrite Ho4 in Es. unfold success_of in Es.
    destruct (complete (S pos) (possible (nd st op))) as [|i l] eqn:E; [done|]. injection Es as <-. rewrite <- E. by apply filter_sorted. }
  assert (forall y, In y (final ++ rest) -> y <> op /\ In y (final ++ op :: rest)) as Hkept.
  { intros y Hy. split; [by intros ->|]. apply in_app_iff in Hy as [Hy|Hy]; apply in_app_iff; [by left|right; by right]. }
  split.
  - destruct (Hm keep Hko) as (-> & _). done.
  - intros y Hy. destruct (Hm y ltac:(lia)) as (_ & -> & -> & -> & ->). destruct (Hold y Hy) as (H1 & H2 & H3 & H4). split_and!; try done.
    intros Hn. destruct (Nat.eqb_spec p y) as [->|]; [done|by apply H4].
  - done.
  - intros y Hy. destruct (Hkept y Hy) as [Hne Hin]. destruct (Hst y Hin) as (H1 & H2 & H3 & H4 & H5).
    destruct (Hm y Hne) as (El & E1 & E2 & E3 & E4). unfold state_ok. rewrite El, E1, E2, E3, E4.
    destruct (Nat.eqb_spec p y) as [->|]; [lia|done].
  - intros x Hx. destruct (Hprev x Hx) as (Hx0 & _). destruct (He x Hx) as [Hl Hv]. destruct (Hm x ltac:(lia)) as (_ & _ & Ep & _ & Et).
    split; [rewrite Et; by destruct (Nat.eqb p x); [rewrite length_map|]|]. intros v Hlt. specialize (Hv v Hlt). unfold entry_ok in *. rewrite Ep.
    assert (nth v (trans (nd (merge st keep op) x)) None =
      if Nat.eqb p x then (if bool_decide (nth v (trans (nd st x)) None = Some op) then Some keep else nth v (trans (nd st x)) None)
      else nth v (trans (nd st x)) None) as ->.
    { rewrite Et. destruct (Nat.eqb p x); [|done].
      exact (map_nth (fun t => if bool_decide (t = Some op) then Some keep else t) (trans (nd st x)) None v). }
    destruct (List.filter (fits pos v) (possible (nd st x))) as [|i l].
    + rewrite Hv. by destruct (Nat.eqb p x).
    + destruct Hv as (y & -> & Hy & Epos). destruct (decide (y = op)) as [->|Hne].
      * destruct Hy as [Hy|[_ Hy]]; [exfalso; apply Hnop, in_app_iff; by left|]. rewrite Epar in Hy. injection Hy as ->.
        rewrite Nat.eqb_refl, bool_decide_eq_true_2 by done. exists keep. destruct (Hm keep Hko) as (_ & _ & -> & _).
        split; [done|]. split; [by left|congruence].
      * exists y. destruct (Hm y Hne) as (_ & -> & -> & _). rewrite bool_decide_eq_false_2 by congruence.
        split; [by destruct (Nat.eqb p x)|]. split; [|done]. destruct Hy as [Hy|[[Hy|Hy] Hpy]]; [by left|by rewrite Hy in Hne|by right].
Qed.

(** A state that is kept moves to the states kept. *)
Lemma keep_step (st : machine) (final rest : list nat) (y : nat) : merging st final (y :: rest) -> merging st (final ++ [y]) rest.
Proof.
  intros [Hlen Hold Hun Hst He]. split; try done; try by rewrite <- app_assoc.
  intros x Hx. destruct (He x Hx) as [H1 H2]. split; [done|]. intros v Hv. specialize (H2 v Hv). unfold entry_ok in *.
  destruct (List.filter _ _) as [|i l]; [done|]. destruct H2 as (z & Ez & Hz & Ep). exists z. split; [done|]. split; [|done].
  rewrite in_app_iff. destruct Hz as [Hz|[[->|Hz] Hp]]; [left; by left|left; right; by left|by right].
Qed.

Lemma dedup_spec (st : machine) (first : nat) (rest : list nat) : merging st [first] rest ->
  merging (fst (dedup st first rest)) (snd (dedup st first rest)) [].
Proof.
  intros Hm. unfold dedup.
  assert (forall l st' cur final, merging st' final l -> In cur final ->
    let r := fold_left (fun '(st, curpat, finalres) nextpat =>
        match compare st curpat nextpat with
        | Eq => (merge st curpat nextpat, curpat, finalres)
        | _ => (st, nextpat, finalres ++ [nextpat])
        end) l (st', cur, final) in merging (fst (fst r)) (snd r) []) as H.
  { induction l as [|y l IH]; intros st' cur final Hml Hc; cbn zeta; [done|]. cbn [fold_left].
    destruct (compare st' cur y) eqn:E; [apply IH; [|done]; apply merge_step; [done|done|by apply list_cmp_eq]|..];
      (apply IH; [by apply keep_step|apply in_app_iff; right; by left]). }
  specialize (H rest st first [first] Hm (or_introl eq_refl)). cbn zeta in H.
  destruct (fold_left _ rest (st, first, [first])) as [[st' cur] final]. done.
Qed.
End Level.
End Machine.
