(* ===== verification/SequenceSpec.v ===== *)
(** The matcher is its specification: every level in turn, then runs of the finished machine. *)
From Stdlib Require Import ZArith Lia Bool List Sorting Permutation.
From stdpp Require Import base decidable list tactics.
From S2P Require Import Prelude Ditted Sequence SequenceFacts.

(** The run of a machine without merged states: the sequences still possible, byte after byte. *)
Fixpoint narrowing (patterns : list ditted) (level : nat) (l : list nat) (buffer : list Z) (off : nat) : list seq_match :=
  map (fun s => SeqMatch s off) (complete patterns level l) ++
  match buffer with
  | [] => []
  | b :: buffer => narrowing patterns (S level) (List.filter (fits patterns level (Z.to_nat b)) l) buffer off
  end.

Section Build.
Context (patterns : list ditted).

Lemma expanding_merging (st0 : machine) (prev : list nat) (pos : nat) (st : machine) (res final rest : list nat) :
  expanding patterns st0 prev pos st res (fun x v => In x prev /\ v < 256) -> Permutation res (final ++ rest) ->
  (forall x, In x prev -> x < List.length st0) -> merging patterns st0 prev pos st final rest.
Proof.
  intros [Hlen Hold Hun Hres Hdone] Hp Hprev.
  assert (forall y, In y res <-> In y (final ++ rest)) as Hin by (intros y; split; apply Permutation_in; [done|by symmetry]).
  split; [done|done|by eapply Permutation_NoDup| |].
  - intros y Hy. by apply Hres, Hin.
  - intros x Hx. split; [by apply (Hdone x 0); [|split; [done|lia]]|]. intros v Hv. destruct (Hdone x v Hx (conj Hx Hv)) as [_ He].
    unfold entry_ok in *. destruct (List.filter _ _) as [|i l]; [done|]. destruct He as (y & Ey & [Hy Hpy] & Epos).
    exists y. split; [done|]. split; [|done]. apply Hin, in_app_iff in Hy. destruct Hy; [by left|by right].
Qed.

(** A level built, its equal states merged. *)
Lemma level_spec (st : machine) (prev : list nat) (pos : nat) : (forall x, In x prev -> state_ok patterns st pos x) -> List.NoDup prev ->
  let r := build_transition_level st prev patterns pos in merging patterns st prev pos (fst r) (snd r) [].
Proof.
  intros Hprev Hnd. unfold build_transition_level.
  assert (expanding patterns st prev pos st [] (fun _ _ => False)) as H0.
  { split; [done|done|apply List.NoDup_nil|intros y []|done]. }
  pose proof (expand_states patterns st prev pos Hprev prev st [] _ H0 Hnd ltac:(by auto)) as He. cbn zeta in He.
  change (fun '(st, res) next => fold_left (build_single_transition patterns next pos) (seq 0 256) (set_trans st next (repeat None 256), res))
    with (expand_state patterns pos).
  destruct (fold_left (expand_state patterns pos) prev (st, [])) as [st' res]. cbn [fst snd] in He.
  pose proof (Permutation_sym (sort_by_perm (fun a b => match compare st' a b with Gt => false | _ => true end) res)) as Hperm.
  assert (forall x, In x prev -> x < List.length st) as Hlt by (intros x Hx; by apply Hprev).
  assert (expanding patterns st prev pos st' res (fun x v => In x prev /\ v < 256)) as He'.
  { eapply expanding_weaken; [|exact He]. intros x v H. by right. }
  destruct (sort_by _ res) as [|first rest].
  - apply Permutation_nil in Hperm as ->. by eapply expanding_merging.
  - apply dedup_spec; [done|]. eapply expanding_merging; [exact He'|by symmetry|done].
Qed.

Lemma narrowing_nil (level : nat) (buffer : list Z) (off : nat) : narrowing patterns level [] buffer off = [].
Proof. revert level. induction buffer as [|b buffer IH]; intros level; [done|]. cbn. apply IH. Qed.

Lemma levels_spec (fuel : nat) (st st_f : machine) (statelevel : list nat) (level : nat) :
  (forall x, In x statelevel -> state_ok patterns st level x) -> List.NoDup statelevel ->
  build_levels fuel st statelevel patterns level = Some st_f ->
  List.length st <= List.length st_f /\
  (forall y, y < List.length st -> possible (nd st_f y) = possible (nd st y) /\ success (nd st_f y) = success (nd st y) /\
    (~ In y statelevel -> trans (nd st_f y) = trans (nd st y))) /\
  (forall x buffer off, In x statelevel -> List.Forall byte_ok buffer ->
    run_from st_f x buffer off = narrowing patterns level (possible (nd st x)) buffer off).
Proof.
  revert st statelevel level. induction fuel as [|fuel IH]; intros st statelevel level Hst Hnd E.
  { cbn in E. destruct statelevel; [|done]. by injection E as <-. }
  cbn [build_levels] in E. destruct statelevel as [|x0 l0] eqn:El; [by injection E as <-|]. rewrite <- El in *. clear x0 l0 El.
  pose proof (level_spec st statelevel level Hst Hnd) as Hm. cbn zeta in Hm.
  destruct (build_transition_level st statelevel patterns level) as [st' next]. cbn [fst snd] in Hm.
  destruct Hm as [Hlen Hold Hun Hnext Hent]. rewrite app_nil_r in Hun, Hnext.
  destruct (IH st' next (S level) ltac:(intros x Hx; by apply Hnext) Hun E) as (Hlen' & Hold' & Hrun'). split; [lia|].
  assert (forall y, y < List.length st -> ~ In y next) as Hout by (intros y Hy Hin; destruct (Hnext y Hin) as [? _]; lia). split.
  - intros y Hy. destruct (Hold y Hy) as (_ & E2 & E3 & E4), (Hold' y ltac:(lia)) as (F2 & F3 & F4). split_and!; [congruence|congruence|].
    intros Hn. rewrite F4 by auto. by apply E4.
  - intros x buffer off Hx Hb. destruct (Hst x Hx) as (Hxl & _ & Hsucc & _).
    destruct (Hold x Hxl) as (_ & E2 & E3 & _), (Hold' x ltac:(lia)) as (F2 & F3 & F4). specialize (F4 (Hout x Hxl)).
    destruct (Hent x Hx) as [H256 Hentry].
    assert (default [] (success (nd st_f x)) = complete patterns level (possible (nd st x))) as Ec.
    { rewrite F3, E3, Hsucc. unfold success_of. by destruct (complete patterns level (possible (nd st x))). }
    destruct buffer as [|b buffer]; cbn [run_from narrowing]; rewrite Ec; f_equal. rewrite F4.
    pose proof (List.Forall_inv Hb) as Hb1. apply List.Forall_inv_tail in Hb. unfold byte_ok in Hb1.
    specialize (Hentry (Z.to_nat b) ltac:(lia)). unfold entry_ok in Hentry. rewrite E2 in Hentry.
    destruct (trans (nd st' x)) as [|t0 t] eqn:Et; [done|]. rewrite <- Et in *.
    destruct (List.filter (fits patterns level (Z.to_nat b)) (possible (nd st x))) as [|i l].
    + rewrite Hentry. by rewrite narrowing_nil.
    + destruct Hentry as (y & -> & [Hy|[[] _]] & <-). by apply Hrun'.
Qed.

(** The levels end: a state of level [n] has a sequence of [n] bytes at least. *)
Lemma levels_end (fuel : nat) (st : machine) (statelevel : list nat) (level : nat) :
  (forall x, In x statelevel -> state_ok patterns st level x /\ (level = 0 \/ possible (nd st x) <> [])) -> List.NoDup statelevel ->
  list_max (map size patterns) + 2 <= fuel + level -> build_levels fuel st statelevel patterns level <> None.
Proof.
  revert st statelevel level. induction fuel as [|fuel IH]; intros st statelevel level Hst Hnd Hf.
  - destruct statelevel as [|x l]; [done|]. exfalso. destruct (Hst x (or_introl eq_refl)) as [(_ & _ & _ & Hsz) [->|Hne]]; [lia|].
    destruct (possible (nd st x)) as [|i q]; [done|]. specialize (Hsz i (or_introl eq_refl)). unfold psize in Hsz.
    assert (size (nth i patterns empty) <= list_max (map size patterns)) as Hmax; [|lia].
    destruct (Nat.lt_ge_cases i (List.length patterns)) as [Hi|Hi]; [|rewrite nth_overflow by done; cbn; lia].
    pose proof (proj1 (list_max_le (map size patterns) _) (Nat.le_refl _)) as Hall. rewrite List.Forall_forall in Hall.
    apply Hall, in_map, nth_In, Hi.
  - destruct statelevel as [|x0 l0] eqn:El; [done|]. rewrite <- El in *. cbn [build_levels]. rewrite El at 1. clear x0 l0 El.
    assert (forall x, In x statelevel -> state_ok patterns st level x) as Hst' by (intros x Hx; by apply Hst).
    pose proof (level_spec st statelevel level Hst' Hnd) as Hm. cbn zeta in Hm.
    destruct (build_transition_level st statelevel patterns level) as [st' next]. cbn [fst snd] in Hm.
    destruct Hm as [_ _ Hun Hnext _]. rewrite app_nil_r in Hun, Hnext. apply IH; [|done|lia].
    intros y Hy. destruct (Hnext y Hy) as (_ & H1 & H2 & _). split; [done|by right].
Qed.
End Build.

(** ** The root *)

Lemma add_root (patterns : list ditted) (l acc : list nat) :
  fold_left (fun st i => add_sequence st 0 i (size (nth i patterns empty)) 0) l [Node None acc (success_of patterns 0 acc) []] =
  [Node None (acc ++ l) (success_of patterns 0 (acc ++ l)) []].
Proof.
  revert acc. induction l as [|i l IH]; intros acc; cbn [fold_left]; [by rewrite app_nil_r|].
  assert (success_of patterns 0 (acc ++ [i]) =
    if Nat.eqb 0 (psize patterns i) then Some (default [] (success_of patterns 0 acc) ++ [i]) else success_of patterns 0 acc) as Es.
  { unfold success_of, complete. rewrite List.filter_app. cbn [List.filter]. destruct (Nat.eqb 0 (psize patterns i)); [|by rewrite app_nil_r].
    by destruct (List.filter _ acc). }
  change [Node None acc (success_of patterns 0 acc) []] with ([] ++ [Node None acc (success_of patterns 0 acc) []]).
  change 0 with (List.length (@nil node)) at 1. rewrite add_new. cbn [parent possible success trans app List.length]. fold (psize patterns i).
  rewrite <- Es, IH. by rewrite <- app_assoc.
Qed.

Definition root_machine (patterns : list ditted) : machine :=
  [Node None (seq 0 (List.length patterns)) (success_of patterns 0 (seq 0 (List.length patterns))) []].

Lemma build_root (fuel : nat) (patterns : list ditted) :
  build_state_machine fuel patterns = build_levels fuel (root_machine patterns) [0] patterns 0.
Proof.
  unfold build_state_machine, new_node. cbn [app List.length]. change None with (success_of patterns 0 []) at 2. rewrite add_root. cbn [app].
  f_equal. unfold sort_sequences, update, root_machine. cbn [alter list_alter parent possible success trans].
  rewrite sort_sorted, success_sorted by apply seq_sorted. done.
Qed.

Lemma root_ok (patterns : list ditted) (x : nat) : In x [0] -> state_ok patterns (root_machine patterns) 0 x.
Proof. intros [<-|[]]. split; [cbn; lia|]. split; [apply seq_sorted|]. split; [done|]. intros i _. lia. Qed.

Lemma single_NoDup (x : nat) : List.NoDup [x].
Proof. apply List.NoDup_cons; [intros []|apply List.NoDup_nil]. Qed.

(** ** The closed form *)

Lemma flat_map_seq_S {A : Type} (f : nat -> list A) (n : nat) : flat_map f (seq 0 (S n)) = f 0 ++ flat_map (fun k => f (S k)) (seq 0 n).
Proof. cbn [seq flat_map]. by rewrite <- List.seq_shift, flat_map_concat_map, map_map, <- flat_map_concat_map. Qed.

Lemma forallb_seq_S (f : nat -> bool) (n : nat) : forallb f (seq 0 (S n)) = f 0 && forallb (fun k => f (S k)) (seq 0 n).
Proof. cbn [seq forallb]. f_equal. rewrite <- List.seq_shift. induction (seq 0 n) as [|a l IH]; [done|]. cbn. by rewrite IH. Qed.

(** The sequence agrees with [k] bytes from [level] on. *)
Definition agrees (patterns : list ditted) (level k : nat) (buffer : list Z) (i : nat) : bool :=
  forallb (fun j => is_match (nth i patterns empty) (level + j) (nth j buffer 0%Z)) (seq 0 k).

Lemma forallb_map_ext {A : Type} (f g : A -> bool) (l : list A) : (forall x, f x = g x) -> forallb f l = forallb g l.
Proof. intros H. induction l as [|a l IH]; [done|]. cbn. by rewrite H, IH. Qed.

Lemma filter_filter {A : Type} (f g : A -> bool) (l : list A) : List.filter f (List.filter g l) = List.filter (fun x => g x && f x) l.
Proof. induction l as [|a l IH]; [done|]. cbn. destruct (g a); cbn; by rewrite IH. Qed.

Lemma narrowing_closed (patterns : list ditted) (level : nat) (l : list nat) (buffer : list Z) (off : nat) : List.Forall byte_ok buffer ->
  narrowing patterns level l buffer off =
  flat_map (fun k => map (fun i => SeqMatch i off)
      (List.filter (fun i => Nat.eqb (size (nth i patterns empty)) (level + k) && agrees patterns level k buffer i) l))
    (seq 0 (S (List.length buffer))).
Proof.
  revert level l. induction buffer as [|b buffer IH]; intros level l Hb; rewrite flat_map_seq_S; cbn [narrowing]; f_equal.
  1, 2: f_equal; apply filter_ext; intros i; rewrite Nat.add_0_r, andb_true_r; unfold psize; apply Nat.eqb_sym.
  apply List.Forall_cons_iff in Hb as [Hb1 Hb]. rewrite (IH _ _ Hb), !flat_map_concat_map. f_equal. apply map_ext_in. intros k _.
  f_equal. rewrite filter_filter. apply filter_ext. intros i. unfold agrees. rewrite forallb_seq_S, Nat.add_0_r. cbn [nth].
  unfold fits. unfold byte_ok in Hb1. rewrite Z2Nat.id by lia. rewrite Nat.add_succ_r. cbn [Nat.add].
  destruct (is_match _ level b); cbn [andb]; [|by rewrite andb_false_r]. f_equal. apply forallb_map_ext. intros j. by rewrite Nat.add_succ_r.
Qed.

Lemma narrowing_matches (patterns : list ditted) (buffer : list Z) (off : nat) : List.Forall byte_ok buffer ->
  narrowing patterns 0 (seq 0 (List.length patterns)) buffer off = matches_from patterns buffer off.
Proof.
  intros Hb. rewrite narrowing_closed by done. unfold matches_from. rewrite !flat_map_concat_map. f_equal. apply map_ext. intros k.
  f_equal. apply filter_ext. intros i. cbn [Nat.add]. destruct (Nat.eqb_spec (size (nth i patterns empty)) k) as [<-|]; done.
Qed.

Lemma Forall_skipn {A : Type} (P : A -> Prop) (n : nat) (l : list A) : List.Forall P l -> List.Forall P (skipn n l).
Proof. revert l. induction n as [|n IH]; intros l H; [done|]. destruct H; [apply List.Forall_nil|by apply IH]. Qed.

Lemma build_ends (patterns : list ditted) (fuel : nat) : levels_fuel patterns <= fuel -> exists st, build_state_machine fuel patterns = Some st.
Proof.
  intros Hf. rewrite build_root. destruct (build_levels fuel (root_machine patterns) [0] patterns 0) as [st|] eqn:E; [by exists st|].
  exfalso. apply (levels_end patterns fuel (root_machine patterns) [0] 0); [|apply single_NoDup|unfold levels_fuel in Hf; lia|done].
  intros x Hx. split; [by apply root_ok|by left].
Qed.

Lemma apply_closed (patterns : list ditted) (fuel : nat) (st : machine) (buffer : list Z) (max_start : nat) :
  build_state_machine fuel patterns = Some st -> List.Forall byte_ok buffer ->
  apply st buffer max_start =
  flat_map (fun off => matches_from patterns (skipn off buffer) off) (seq 0 (Nat.min max_start (List.length buffer))).
Proof.
  rewrite build_root. intros E Hb. destruct (levels_spec patterns fuel _ st [0] 0 (root_ok patterns) (single_NoDup 0) E) as (_ & _ & Hrun).
  unfold apply. rewrite !flat_map_concat_map. f_equal. apply map_ext. intros off.
  rewrite (Hrun 0 _ off (or_introl eq_refl)) by (by apply Forall_skipn). by apply narrowing_matches, Forall_skipn.
Qed.

(** ** The theorems *)

(** [C28] The compiled machine is the specification: the construction ends (in one level per byte of the
    longest sequence), and on any buffer [apply] reports, in order, for every start offset below the bound
    exactly the sequences that match there, the shorter before the longer and then by index --
    whatever states were merged on the way. *)
Theorem apply_matches (patterns : list ditted) (fuel : nat) (buffer : list Z) (max_start : nat) :
  levels_fuel patterns <= fuel -> List.Forall byte_ok buffer ->
  exists st, build_state_machine fuel patterns = Some st /\
    apply st buffer max_start =
    flat_map (fun off => matches_from patterns (skipn off buffer) off) (seq 0 (Nat.min max_start (List.length buffer))).
Proof.
  intros Hf Hb. destruct (build_ends patterns fuel Hf) as [st E]. exists st. split; [done|]. by apply (apply_closed patterns fuel).
Qed.

Lemma apply_matches_witness :
  levels_fuel example_patterns = 4 /\
  exists st, build_state_machine 4 example_patterns = Some st /\
    apply st [85%Z; 137%Z; 81%Z] 3 = [SeqMatch 0 0; SeqMatch 2 0; SeqMatch 1 0; SeqMatch 2 2].
Proof.
  split; [reflexivity|]. destruct (apply_matches example_patterns 4 [85%Z; 137%Z; 81%Z] 3) as (st & E1 & E2).
  - vm_compute. lia.
  - repeat constructor; unfold byte_ok; lia.
  - exists st. split; [exact E1|]. rewrite E2. vm_compute. reflexivity.
Defined.
