(* ===== verification/Memory.v ===== *)
(** The memory map of a program, [analysis/program/memory.rs]: named blocks, initialized or not, by
    address.  Sums of offsets wrap at [2 ^ 64], as in a build without overflow checks. *)
From Stdlib Require Import ZArith Lia Bool List String Sorted.
From stdpp Require Import base decidable list tactics.
From S2P Require Import Prelude Space AddressSet.
Local Open Scope Z_scope.

Record memory_block := MemoryBlock {
  mb_name : string;
  mb_start : address;
  mb_end : address;
  mb_read : bool;
  mb_write : bool;
  mb_execute : bool;
  mb_bytes : option (list Z);
}.

(** [Memory] is its vector of blocks. *)
Abbreviation memory := (list memory_block).

Definition block_size (b : memory_block) : Z := u64_add (u64_sub (a_offset (mb_end b)) (a_offset (mb_start b))) 1.

Definition is_initialized (b : memory_block) : bool := match mb_bytes b with Some _ => true | None => false end.

Definition block_contains (b : memory_block) (a : address) : bool :=
  (a_space a =? a_space (mb_start b)) && (a_offset (mb_start b) <=? a_offset a) && (a_offset a <=? a_offset (mb_end b)).

(** the index of an address of the block in its bytes *)
Definition index_in (b : memory_block) (a : address) : nat := Z.to_nat (a_offset a - a_offset (mb_start b)).

Definition block_byte_at (b : memory_block) (a : address) : option Z :=
  if negb (block_contains b a) then None
  else match mb_bytes b with
       | Some bytes => nth_error bytes (index_in b a)
       | None => None
       end.

(** the sort key [(space, offset)] *)
Definition start_le (a b : memory_block) : bool :=
  negb (key_lt (a_space (mb_start b), a_offset (mb_start b)) (a_space (mb_start a), a_offset (mb_start a))).

Definition add_block (m : memory) (name : string) (start : address) (len : Z) (read write execute : bool) (bytes : option (list Z)) : memory :=
  sort_by start_le (m ++ [MemoryBlock name start (Addr (a_space start) (u64_sub (u64_add (a_offset start) len) 1)) read write execute bytes]).

Definition block_at (m : memory) (a : address) : option memory_block := find (fun b => block_contains b a) m.

Definition is_external_block_address (m : memory) (a : address) : bool :=
  match block_at m a with Some b => String.eqb (mb_name b) "EXTERNAL" | None => false end.

Definition byte_at (m : memory) (a : address) : option Z :=
  match block_at m a with Some b => block_byte_at b a | None => None end.

Definition shift (a : address) (i : nat) : address := Addr (a_space a) (u64_add (a_offset a) (Z.of_nat i)).

(** the byte-at-a-time loop, stopped at the first byte that is not there *)
Fixpoint read_bytes (m : memory) (a : address) (i len : nat) : list Z :=
  match len with
  | O => []
  | S len =>
      match byte_at m (shift a i) with
      | Some b => b :: read_bytes m a (S i) len
      | None => []
      end
  end.

Definition read_window (m : memory) (a : address) (len : nat) : list Z :=
  let slow := read_bytes m a 0 len in
  match block_at m a with
  | Some b =>
      match mb_bytes b with
      | Some bytes =>
          let start := index_in b a in
          let stop := Nat.min (start + len) (List.length bytes) in
          if Nat.leb start stop then firstn (stop - start) (skipn start bytes) else slow
      | None => slow
      end
  | None => slow
  end.

Definition memory_contains (m : memory) (a : address) : bool := match block_at m a with Some _ => true | None => false end.

(** [to_le_bytes] *)
Definition le_bytes (value : Z) : list Z := map (fun i => w8 (Z.shiftr value (8 * Z.of_nat i))) (seq 0 8).

Definition overwrite (bytes : list Z) (off : nat) (new : list Z) : list Z := firstn off bytes ++ new ++ skipn (off + List.length new) bytes.

(** [iter_mut().find]: the first block that covers the address *)
Fixpoint write_u64 (m : memory) (a : address) (value : Z) : memory :=
  match m with
  | [] => []
  | b :: m =>
      if block_contains b a then
        match mb_bytes b with
        | Some bytes =>
            if Nat.leb (index_in b a + 8) (List.length bytes) then
              MemoryBlock (mb_name b) (mb_start b) (mb_end b) (mb_read b) (mb_write b) (mb_execute b)
                (Some (overwrite bytes (index_in b a) (le_bytes value))) :: m
            else b :: m
        | None => b :: m
        end
      else b :: write_u64 m a value
  end.

Definition block_by_name (m : memory) (name : string) : option memory_block := find (fun b => String.eqb (mb_name b) name) m.

(** ** Well-formed memories *)

(** What [add_block]'s callers give it: a non-empty range, its bytes as many as its addresses. *)
Definition block_ok (b : memory_block) : Prop :=
  a_space (mb_end b) = a_space (mb_start b) /\ 0 <= a_offset (mb_start b) <= a_offset (mb_end b) /\ a_offset (mb_end b) < 2 ^ 64 /\
  forall bytes, mb_bytes b = Some bytes -> Z.of_nat (List.length bytes) = a_offset (mb_end b) - a_offset (mb_start b) + 1.

(** No address lies in two blocks. *)
Definition disjoint (m : memory) : Prop :=
  forall i j b c a, nth_error m i = Some b -> nth_error m j = Some c -> block_contains b a = true -> block_contains c a = true -> i = j.

Definition memory_ok (m : memory) : Prop := List.Forall block_ok m /\ disjoint m.

(** Two adjacent blocks: a window across them ends with the first. *)
Definition adjacent_blocks : memory :=
  [MemoryBlock "a" (Addr 1 0) (Addr 1 1) true false false (Some [10; 11]);
   MemoryBlock "b" (Addr 1 2) (Addr 1 3) true false false (Some [12; 13])].

(** [read_window] is said to stop at the first uncovered or uninitialized byte; it stops at the end of the block. *)
Lemma read_window_stops_at_block : read_window adjacent_blocks (Addr 1 1) 3 = [11] /\ read_bytes adjacent_blocks (Addr 1 1) 0 3 = [11; 12; 13].
Proof. split; reflexivity. Qed.

Lemma contains_spec (b : memory_block) (a : address) : block_contains b a = true <->
  a_space a = a_space (mb_start b) /\ a_offset (mb_start b) <= a_offset a <= a_offset (mb_end b).
Proof. unfold block_contains. rewrite !andb_true_iff, Z.eqb_eq, !Z.leb_le. tauto. Qed.

Lemma block_at_spec (m : memory) (a : address) (b : memory_block) : block_at m a = Some b -> In b m /\ block_contains b a = true.
Proof. unfold block_at. intros E. by apply find_some in E. Qed.

Lemma block_at_in (m : memory) (a : address) (b : memory_block) : disjoint m -> In b m -> block_contains b a = true -> block_at m a = Some b.
Proof.
  intros Hd Hb Ha. unfold block_at. destruct (find _ m) as [c|] eqn:E.
  - apply find_some in E as [Hc Hca]. apply In_nth_error in Hb as [i Hi], Hc as [j Hj]. assert (i = j) as -> by eauto. congruence.
  - by pose proof (find_none _ _ E b Hb) as H; cbn beta in H; rewrite Ha in H.
Qed.

Lemma byte_at_in (m : memory) (b : memory_block) (bytes : list Z) (a : address) : memory_ok m -> In b m -> mb_bytes b = Some bytes ->
  block_contains b a = true -> byte_at m a = nth_error bytes (index_in b a).
Proof. intros [_ Hd] Hb Eb Ha. unfold byte_at. rewrite (block_at_in m a b Hd Hb Ha). unfold block_byte_at. by rewrite Ha, Eb. Qed.

(** A window that starts in an initialized block is the block's bytes from there, up to its end. *)
Lemma read_window_block (m : memory) (b : memory_block) (bytes : list Z) (a : address) (len : nat) : memory_ok m -> In b m ->
  mb_bytes b = Some bytes -> block_contains b a = true -> read_window m a len = firstn len (skipn (index_in b a) bytes).
Proof.
  intros [Hok Hd] Hb Eb Ha. unfold read_window. rewrite (block_at_in m a b Hd Hb Ha), Eb.
  rewrite List.Forall_forall in Hok. destruct (Hok b Hb) as (_ & H1 & _ & H2). specialize (H2 bytes Eb).
  apply contains_spec in Ha. assert (index_in b a < List.length bytes)%nat by (unfold index_in; lia).
  destruct (Nat.leb_spec (index_in b a) (Nat.min (index_in b a + len) (List.length bytes))); [|lia].
  destruct (Nat.le_gt_cases (index_in b a + len) (List.length bytes)).
  - f_equal. lia.
  - rewrite !firstn_all2; [done|rewrite length_skipn; lia|rewrite length_skipn; lia].
Qed.

(** ** Writes *)

Lemma overwrite_length (bytes new : list Z) (off : nat) : (off + List.length new <= List.length bytes)%nat ->
  List.length (overwrite bytes off new) = List.length bytes.
Proof. intros H. unfold overwrite. rewrite !length_app, length_firstn, length_skipn. lia. Qed.

Lemma overwrite_outside (bytes new : list Z) (off k : nat) : (off + List.length new <= List.length bytes)%nat ->
  (k < off \/ off + List.length new <= k)%nat -> nth_error (overwrite bytes off new) k = nth_error bytes k.
Proof.
  intros Hl Hk. unfold overwrite. destruct (Nat.lt_ge_cases k off).
  - rewrite nth_error_app1 by (rewrite length_firstn; lia). rewrite <- (firstn_skipn off bytes) at 2.
    by rewrite nth_error_app1 by (rewrite length_firstn; lia).
  - rewrite nth_error_app2, nth_error_app2 by (rewrite !length_firstn; lia). rewrite length_firstn.
    rewrite nth_error_skipn. f_equal. lia.
Qed.

Lemma overwrite_inside (bytes new : list Z) (off : nat) : (off + List.length new <= List.length bytes)%nat ->
  firstn (List.length new) (skipn off (overwrite bytes off new)) = new.
Proof.
  intros Hl. unfold overwrite. rewrite drop_app_length' by (rewrite length_firstn; lia). apply take_app_length.
Qed.

Lemma le_bytes_length (value : Z) : List.length (le_bytes value) = 8%nat.
Proof. unfold le_bytes. by rewrite length_map, length_seq. Qed.

Definition written_block (b : memory_block) (a : address) (value : Z) : memory_block :=
  match mb_bytes b with
  | Some bytes =>
      if Nat.leb (index_in b a + 8) (List.length bytes) then
        MemoryBlock (mb_name b) (mb_start b) (mb_end b) (mb_read b) (mb_write b) (mb_execute b) (Some (overwrite bytes (index_in b a) (le_bytes value)))
      else b
  | None => b
  end.

Lemma write_u64_cons (b : memory_block) (m : memory) (a : address) (value : Z) :
  write_u64 (b :: m) a value = if block_contains b a then written_block b a value :: m else b :: write_u64 m a value.
Proof. cbn [write_u64]. unfold written_block. destruct (block_contains b a); [|done]. destruct (mb_bytes b); [|done]. by destruct (_ <=? _)%nat. Qed.

Lemma written_contains (b : memory_block) (a x : address) (value : Z) : block_contains (written_block b a value) x = block_contains b x.
Proof. unfold written_block. destruct (mb_bytes b); [|done]. by destruct (_ <=? _)%nat. Qed.

Lemma written_index (b : memory_block) (a x : address) (value : Z) : index_in (written_block b a value) x = index_in b x.
Proof. unfold written_block. destruct (mb_bytes b); [|done]. by destruct (_ <=? _)%nat. Qed.

Lemma written_ok (b : memory_block) (a : address) (value : Z) : block_ok b -> block_ok (written_block b a value).
Proof.
  intros Hb. pose proof Hb as (H1 & H2 & H3 & H4). unfold written_block. destruct (mb_bytes b) as [bytes|] eqn:E; [|exact Hb].
  destruct (Nat.leb_spec (index_in b a + 8) (List.length bytes)); [|exact Hb].
  split; [done|]. split; [done|]. split; [done|]. intros bytes' E'. cbn [mb_bytes] in E'. injection E' as <-.
  rewrite overwrite_length by (rewrite le_bytes_length; lia). by apply H4.
Qed.

Lemma write_u64_nth (m : memory) (a : address) (value : Z) (i : nat) (b : memory_block) :
  nth_error (write_u64 m a value) i = Some b -> exists c, nth_error m i = Some c /\ (b = c \/ b = written_block c a value).
Proof.
  revert i. induction m as [|c m IH]; intros i E; [by destruct i|]. rewrite write_u64_cons in E. destruct (block_contains c a).
  - destruct i as [|i]; cbn in *; [injection E as <-; exists c; split; [done|by right]|exists b; split; [done|by left]].
  - destruct i as [|i]; cbn in *; [injection E as <-; exists c; split; [done|by left]|by apply IH].
Qed.

Lemma write_u64_ok (m : memory) (a : address) (value : Z) : memory_ok m -> memory_ok (write_u64 m a value).
Proof.
  intros [Hok Hd]. rewrite List.Forall_forall in Hok. split.
  - apply List.Forall_forall. intros b Hb. apply In_nth_error in Hb as [i Hi]. apply write_u64_nth in Hi as (c & Hc & [-> | ->]);
      apply nth_error_In in Hc; [by apply Hok|by apply written_ok, Hok].
  - intros i j b c x Hi Hj Hb Hc. apply write_u64_nth in Hi as (b' & Hi & Eb), Hj as (c' & Hj & Ec).
    apply (Hd i j b' c' x); [done|done|destruct Eb as [<- | ->]|destruct Ec as [<- | ->]]; by rewrite ?written_contains in *.
Qed.

Lemma write_u64_other (m : memory) (a x : address) (value : Z) : List.Forall block_ok m ->
  ~ (a_space x = a_space a /\ a_offset a <= a_offset x < a_offset a + 8) -> byte_at (write_u64 m a value) x = byte_at m x.
Proof.
  intros Hok Hx. induction m as [|b m IH]; [done|]. pose proof (List.Forall_inv Hok) as Hb. apply List.Forall_inv_tail in Hok.
  rewrite write_u64_cons. destruct (block_contains b a) eqn:Ea.
  - unfold byte_at, block_at. cbn [find]. rewrite written_contains. destruct (block_contains b x) eqn:Ex; [|done].
    unfold block_byte_at. rewrite written_contains, written_index, Ex. cbn [negb]. unfold written_block.
    destruct (mb_bytes b) as [bytes|] eqn:Eb; [|by rewrite Eb].
    destruct (Nat.leb_spec (index_in b a + 8) (List.length bytes)); [|by rewrite Eb]. cbn [mb_bytes].
    apply contains_spec in Ea, Ex. apply overwrite_outside; rewrite le_bytes_length; [done|]. unfold index_in. lia.
  - unfold byte_at, block_at in *. cbn [find]. destruct (block_contains b x); [done|]. by apply IH.
Qed.

Lemma write_u64_in (m : memory) (b : memory_block) (a : address) (value : Z) : disjoint m -> In b m -> block_contains b a = true ->
  In (written_block b a value) (write_u64 m a value).
Proof.
  intros Hd Hb Ha. assert (block_at m a = Some b) as E by by apply block_at_in. clear Hd Hb. induction m as [|c m IH]; [done|].
  rewrite write_u64_cons. unfold block_at in *. cbn [find] in E. destruct (block_contains c a); [injection E as ->; by left|right; by apply IH].
Qed.

(** Writing a word: in an initialized block that holds all eight bytes they read back in
    little-endian order, no other byte of the memory changes and the memory stays well formed; an
    address no initialized block covers, or too close to the end of its block, is left alone. *)
Theorem write_u64_spec (m : memory) (a : address) (value : Z) : memory_ok m ->
  memory_ok (write_u64 m a value) /\
  (forall x, ~ (a_space x = a_space a /\ a_offset a <= a_offset x < a_offset a + 8) -> byte_at (write_u64 m a value) x = byte_at m x) /\
  (forall b, In b m -> block_contains b a = true ->
     if is_initialized b && (a_offset a + 7 <=? a_offset (mb_end b)) then read_window (write_u64 m a value) a 8 = le_bytes value
     else write_u64 m a value = m) /\
  (block_at m a = None -> write_u64 m a value = m).
Proof.
  intros Hm. pose proof Hm as [Hok Hd]. split; [by apply write_u64_ok|]. split; [intros x; by apply write_u64_other|]. split.
  - intros b Hb Ha. rewrite List.Forall_forall in Hok. destruct (Hok b Hb) as (_ & H1 & _ & H2). pose proof (proj1 (contains_spec b a) Ha) as Hr.
    assert (written_block b a value = b -> write_u64 m a value = m) as Hsame.
    { intros E. assert (block_at m a = Some b) as Eb by by apply block_at_in. clear - E Eb Ha. induction m as [|c m IH]; [done|].
      rewrite write_u64_cons. unfold block_at in *. cbn [find] in Eb. destruct (block_contains c a); [injection Eb as ->; by rewrite E|by rewrite IH]. }
    unfold is_initialized. destruct (mb_bytes b) as [bytes|] eqn:Eb; [|apply Hsame; unfold written_block; by rewrite Eb].
    specialize (H2 bytes eq_refl). cbn [andb]. destruct (Z.leb_spec (a_offset a + 7) (a_offset (mb_end b))).
    + assert (index_in b a + 8 <= List.length bytes)%nat by (unfold index_in; lia).
      assert (mb_bytes (written_block b a value) = Some (overwrite bytes (index_in b a) (le_bytes value))) as Ew.
      { unfold written_block. rewrite Eb. by destruct (Nat.leb_spec (index_in b a + 8) (List.length bytes)); [|lia]. }
      rewrite (read_window_block _ (written_block b a value) _ a 8 (write_u64_ok m a value Hm) (write_u64_in m b a value Hd Hb Ha) Ew)
        by (by rewrite written_contains).
      rewrite written_index, <- (le_bytes_length value). apply overwrite_inside. by rewrite le_bytes_length.
    + apply Hsame. unfold written_block. rewrite Eb. destruct (Nat.leb_spec (index_in b a + 8) (List.length bytes)); [unfold index_in in *; lia|done].
  - clear. intros E. induction m as [|c m IH]; [done|]. rewrite write_u64_cons. unfold block_at in *. cbn [find] in E.
    destruct (block_contains c a); [done|]. by rewrite IH.
Qed.

Definition example_memory : memory := [MemoryBlock "text" (Addr 1 4096) (Addr 1 4111) true false true (Some (repeat 144 16))].

Lemma example_memory_ok : memory_ok example_memory.
Proof.
  split.
  - apply List.Forall_cons; [|apply List.Forall_nil]. split; [reflexivity|]. split; [cbn; lia|]. split; [cbn; lia|].
    intros bytes E. injection E as <-. reflexivity.
  - intros [|i] [|j] b c x Hi Hj _ _; [reflexivity|by destruct j|by destruct i|by destruct i].
Qed.

Lemma write_u64_spec_witness :
  memory_ok example_memory /\ read_window (write_u64 example_memory (Addr 1 4100) 258) (Addr 1 4100) 8 = [2; 1; 0; 0; 0; 0; 0; 0].
Proof.
  split; [exact example_memory_ok|].
  destruct (write_u64_spec example_memory (Addr 1 4100) 258 example_memory_ok) as (_ & _ & H & _).
  rewrite (H (MemoryBlock "text" (Addr 1 4096) (Addr 1 4111) true false true (Some (repeat 144 16)))); [reflexivity|by left|reflexivity].
Defined.
