(* ===== verification/Search.v ===== *)
(** Patterns and the search of a program's memory for them: [analysis/bytesearch/pattern.rs] and
    [searcher.rs].  The pattern files' XML is read by a third-party parser and is not modelled; the
    actions of a pattern and the program a match is handed to are parameters. *)
From Stdlib Require Import ZArith Lia Bool List String.
From stdpp Require Import base decidable list tactics.
From S2P Require Import Prelude Space AddressSet Memory Ditted Sequence SequenceFacts SequenceSpec.
Local Open Scope Z_scope.

(** [Align]: the match address, offset, has the bits of the mask clear. *)
Inductive post_rule := Align (align_offset alignmask : Z).

Definition rule_apply (r : post_rule) (matchoffset : Z) : bool :=
  match r with
  | Align align_offset alignmask => Z.land (i64 (u64_add (w64 (i64 matchoffset)) (w64 align_offset))) alignmask =? 0
  end.

Record pattern (A : Type) := Pattern { p_seq : ditted; mark_offset : nat; post_rules : list post_rule; actions : list A }.
Arguments Pattern {A}. Arguments p_seq {A}. Arguments mark_offset {A}. Arguments post_rules {A}. Arguments actions {A}.

Record matched (A : Type) := Matched { m_pattern : pattern A; sequence_index : nat; m_offset : nat }.
Arguments Matched {A}. Arguments m_pattern {A}. Arguments sequence_index {A}. Arguments m_offset {A}.

Definition match_mark_offset {A} (m : matched A) : Z := Z.of_nat (m_offset m) + Z.of_nat (mark_offset (m_pattern m)).

Definition check_post_rules {A} (m : matched A) (streamoffset : Z) : bool :=
  forallb (fun r => rule_apply r (u64_add streamoffset (Z.of_nat (m_offset m)))) (post_rules (m_pattern m)).

(** [PatternPairSet] *)
Record pattern_pair_set (A : Type) := PatternPairSet {
  total_bits_of_check : Z; post_bits_of_check : Z; pre_sequences : list ditted; post_patterns : list (pattern A) }.
Arguments PatternPairSet {A}. Arguments total_bits_of_check {A}. Arguments post_bits_of_check {A}.
Arguments pre_sequences {A}. Arguments post_patterns {A}.

(** what [create_final_patterns] appends *)
Definition create_final_patterns {A} (ps : pattern_pair_set A) : list (pattern A) :=
  flat_map (fun post =>
      let postcheck := num_fixed_bits (p_seq post) in
      if postcheck <? post_bits_of_check ps then []
      else
        flat_map (fun pre =>
            if num_fixed_bits pre + postcheck <? total_bits_of_check ps then []
            else [Pattern (concatenate pre (p_seq post)) (size pre) (post_rules post) (actions post)])
          (pre_sequences ps))
    (post_patterns ps).

Definition RESTRICTED_PATTERN_BYTE_RANGE : Z := 32.

Definition block_range (start stop : address) : address_set := add_range empty_set (a_space start) (a_offset start) (a_offset stop).

Lemma In_firstn {T : Type} (n : nat) (l : list T) (x : T) : In x (firstn n l) -> In x l.
Proof. intros H. rewrite <- (firstn_skipn n l). apply in_app_iff. by left. Qed.

Lemma In_skipn {T : Type} (n : nat) (l : list T) (x : T) : In x (skipn n l) -> In x l.
Proof. intros H. rewrite <- (firstn_skipn n l). apply in_app_iff. by right. Qed.

Section Searcher.
Context {A P : Type} (memory_of : P -> memory) (apply_action : P -> address -> matched A -> P).

Record searcher := Searcher { root : list node; patterns : list (pattern A); do_executable_blocks_only : bool; s_max_sequence_size : nat }.

Definition new_searcher (st : list node) (pats : list (pattern A)) : searcher :=
  Searcher st pats false (fold_left Nat.max (map (fun p => size (p_seq p)) pats) 0%nat).

Definition set_search_executable_only (s : searcher) (only : bool) : searcher :=
  Searcher (root s) (patterns s) only (s_max_sequence_size s).

Definition no_pattern : pattern A := Pattern empty 0 [] [].

(** the window of one range: where it starts in the block, how many starts are tried, its bytes;
    the lengths are those of byte vectors, below [2 ^ 63], so their sums do not wrap *)
Definition range_window (s : searcher) (m : memory) (block_start block_end : address) (r : address_range) : Z * Z * list Z :=
  let block_offset := Z.max (rmin r - a_offset block_start - RESTRICTED_PATTERN_BYTE_RANGE) 0 in
  let max_block_search_length := rmax r - a_offset block_start - block_offset + 1 in
  let want := max_block_search_length + Z.of_nat (s_max_sequence_size s) + 1 in
  let avail := a_offset block_end - a_offset block_start - block_offset + 1 in
  (block_offset, max_block_search_length,
   read_window m (Addr (a_space block_start) (a_offset block_start + block_offset)) (Z.to_nat (Z.min want avail))).

(** the matches of one range that pass their post rules, with the address each is reported at *)
Definition range_matches (s : searcher) (m : memory) (block_start block_end : address) (r : address_range) : list (address * matched A) :=
  let '(block_offset, max_block_search_length, data) := range_window s m block_start block_end r in
  flat_map (fun sm =>
      let mt := Matched (nth (seq_index sm) (patterns s) no_pattern) (seq_index sm) (offset sm) in
      if check_post_rules mt (a_offset block_start + block_offset)
      then [(Addr (a_space block_start) (u64_add (u64_add (a_offset block_start) (match_mark_offset mt)) block_offset), mt)] else [])
    (Sequence.apply (root s) data (Z.to_nat max_block_search_length)).

Definition done_set (block_start block_end : address) (restrict_set : option address_set) : address_set :=
  match restrict_set with
  | Some s => if is_empty s then block_range block_start block_end else intersect s (block_range block_start block_end)
  | None => block_range block_start block_end
  end.

Definition search_block (s : searcher) (program : P) (block_start block_end : address) (restrict_set : option address_set) : P :=
  fold_left (fun program r =>
      fold_left (fun program am => apply_action program (fst am) (snd am)) (range_matches s (memory_of program) block_start block_end r) program)
    (done_set block_start block_end restrict_set) program.

Definition searched (s : searcher) (search_set : option address_set) (b : memory_block) : bool :=
  is_initialized b && (negb (do_executable_blocks_only s) || mb_execute b) &&
  match search_set with
  | Some set => is_empty set || negb (is_empty (intersect set (block_range (mb_start b) (mb_end b))))
  | None => true
  end.

Definition search (s : searcher) (program : P) (search_set : option address_set) : P :=
  fold_left (fun program b =>
      if searched s search_set b then search_block s program (mb_start b) (mb_end b) search_set else program)
    (memory_of program) program.

(** The searcher of a pattern list: its machine is the one built from the patterns' sequences. *)
Definition searcher_ok (s : searcher) (fuel : nat) : Prop :=
  build_state_machine fuel (map p_seq (patterns s)) = Some (root s) /\
  s_max_sequence_size s = fold_left Nat.max (map (fun p => size (p_seq p)) (patterns s)) 0%nat.

(** The sequence of the pattern agrees with the bytes at [q], all of them there. *)
Definition pattern_at (p : pattern A) (bytes : list Z) (q : nat) : Prop :=
  (q + size (p_seq p) <= List.length bytes)%nat /\ matches_at (p_seq p) (skipn q bytes) = true.

Lemma fold_max_le (l : list nat) (acc x : nat) : (x <= acc)%nat \/ In x l -> (x <= fold_left Nat.max l acc)%nat.
Proof.
  revert acc. induction l as [|y l IH]; intros acc [H|H]; cbn [fold_left]; [done|done|apply IH; left; lia|].
  destruct H as [->|H]; apply IH; [left; lia|by right].
Qed.

Lemma in_matches_from (pats : list ditted) (buffer : list Z) (off : nat) (sm : seq_match) : In sm (matches_from pats buffer off) <->
  exists i, (i < List.length pats)%nat /\ (size (nth i pats empty) <= List.length buffer)%nat /\
    matches_at (nth i pats empty) buffer = true /\ sm = SeqMatch i off.
Proof.
  unfold matches_from. rewrite in_flat_map. split.
  - intros (k & Hk & H). apply in_map_iff in H as (i & <- & H). apply filter_In in H as [Hi H]. apply andb_true_iff in H as [E H].
    apply Nat.eqb_eq in E. apply in_seq in Hk, Hi. exists i. split_and!; (done || lia).
  - intros (i & Hi & Hl & Hm & ->). exists (size (nth i pats empty)). split; [apply in_seq; lia|]. apply in_map_iff. exists i. split; [done|].
    apply filter_In. split; [apply in_seq; lia|]. by rewrite Nat.eqb_refl, Hm.
Qed.

(** What lies past the window is out of every sequence's reach. *)
Lemma matches_at_window (d : ditted) (l : list Z) (w q : nat) : (q + size d <= w)%nat ->
  matches_at d (skipn q (firstn w l)) = matches_at d (skipn q l).
Proof.
  intros Hw. unfold matches_at. assert (forall n, (n <= size d)%nat ->
    forallb (fun k => is_match d k (nth k (skipn q (firstn w l)) 0)) (seq 0 n) = forallb (fun k => is_match d k (nth k (skipn q l) 0)) (seq 0 n)) as H; [|by apply H].
  induction n as [|n IH]; intros Hn; [done|]. rewrite seq_S, !forallb_app, IH by lia. f_equal. cbn [forallb]. f_equal. f_equal.
  rewrite !nth_lookup, !lookup_drop, lookup_take. by rewrite decide_True by lia.
Qed.

Section Range.
Context (s : searcher) (fuel : nat) (m : memory) (b : memory_block) (bytes : list Z) (r : address_range).
Hypothesis Hs : searcher_ok s fuel.
Hypothesis Hm : memory_ok m.
Hypothesis Hb : In b m.
Hypothesis Hbytes : mb_bytes b = Some bytes.
Hypothesis Hvalues : List.Forall byte_ok bytes.
Hypothesis Hr : a_offset (mb_start b) <= rmin r <= rmax r /\ rmax r <= a_offset (mb_end b).

(** the first position of the block that is tried *)
Definition first_tried : nat := Z.to_nat (Z.max (rmin r - a_offset (mb_start b) - RESTRICTED_PATTERN_BYTE_RANGE) 0).

Lemma block_length : Z.of_nat (List.length bytes) = a_offset (mb_end b) - a_offset (mb_start b) + 1 /\ 0 <= a_offset (mb_start b) /\
  a_offset (mb_end b) < 2 ^ 64 /\ a_space (mb_end b) = a_space (mb_start b).
Proof. destruct Hm as [Hok _]. rewrite List.Forall_forall in Hok. destruct (Hok b Hb) as (H1 & H2 & H3 & H4). specialize (H4 bytes Hbytes). lia. Qed.

(** The window's sequences at an offset are those of the block there: reading a sequence's length
    past the range loses none. *)
Lemma window_matches (sm : seq_match) :
  let '(_, len, data) := range_window s m (mb_start b) (mb_end b) r in
  In sm (Sequence.apply (root s) data (Z.to_nat len)) <->
  exists i q, (i < List.length (patterns s))%nat /\ (first_tried <= q)%nat /\ Z.of_nat q <= rmax r - a_offset (mb_start b) /\
    pattern_at (nth i (patterns s) no_pattern) bytes q /\ sm = SeqMatch i (q - first_tried).
Proof.
  pose proof block_length as (Hlen & H0 & H64 & Hsp). unfold range_window. fold first_tried.
  set (bo := Z.max (rmin r - a_offset (mb_start b) - RESTRICTED_PATTERN_BYTE_RANGE) 0).
  assert (Z.of_nat first_tried = bo) as Ebo by (unfold first_tried; lia). unfold RESTRICTED_PATTERN_BYTE_RANGE in bo.
  set (len := rmax r - a_offset (mb_start b) - bo + 1).
  set (w := Z.to_nat (Z.min (len + Z.of_nat (s_max_sequence_size s) + 1) (a_offset (mb_end b) - a_offset (mb_start b) - bo + 1))).
  rewrite (read_window_block m b bytes _ w Hm Hb Hbytes) by (apply contains_spec; cbn; lia).
  replace (index_in b (Addr (a_space (mb_start b)) (a_offset (mb_start b) + bo))) with first_tried by (unfold index_in; cbn; lia).
  destruct Hs as [Eroot Emax].
  assert (List.length (firstn w (skipn first_tried bytes)) = w) as Hw by (rewrite length_firstn, length_skipn; lia).
  rewrite (apply_closed _ fuel _ _ _ Eroot) by (apply List.Forall_forall; intros x Hx; rewrite List.Forall_forall in Hvalues;
    apply Hvalues; eapply In_skipn, In_firstn; exact Hx). rewrite Hw. rewrite in_flat_map.
  assert (forall i, (i < List.length (patterns s))%nat -> nth i (map p_seq (patterns s)) empty = p_seq (nth i (patterns s) no_pattern)) as Hnth.
  { intros i Hi. change empty with (p_seq no_pattern). apply map_nth. }
  assert (forall i, (i < List.length (patterns s))%nat -> (size (p_seq (nth i (patterns s) no_pattern)) <= s_max_sequence_size s)%nat) as Hsize.
  { intros i Hi. rewrite Emax. apply fold_max_le. right. apply in_map_iff. eexists. split; [reflexivity|]. by apply nth_In. }
  split.
  - intros (off & Hoff & H). apply in_seq in Hoff. apply in_matches_from in H as (i & Hi & Hl & Hmt & ->). rewrite length_map in Hi.
    rewrite (Hnth i Hi) in *. specialize (Hsize i Hi). rewrite length_skipn, Hw in Hl.
    exists i, (first_tried + off)%nat. split; [done|]. split; [lia|]. split; [lia|]. split; [|f_equal; lia]. split; [lia|].
    rewrite matches_at_window, skipn_skipn in Hmt by lia. by rewrite Nat.add_comm.
  - intros (i & q & Hi & Hq & Hmax & [Hfit Hmt] & ->). specialize (Hsize i Hi). exists (q - first_tried)%nat. split; [apply in_seq; lia|].
    apply in_matches_from. exists i. rewrite length_map, (Hnth i Hi). split; [done|]. split; [rewrite length_skipn, Hw; lia|]. split; [|done].
    rewrite matches_at_window, skipn_skipn by lia. by replace (q - first_tried + first_tried)%nat with q by lia.
Qed.

Lemma range_hits (a : address) (mt : matched A) : In (a, mt) (range_matches s m (mb_start b) (mb_end b) r) <->
  exists i q, (i < List.length (patterns s))%nat /\ (first_tried <= q)%nat /\ Z.of_nat q <= rmax r - a_offset (mb_start b) /\
    pattern_at (nth i (patterns s) no_pattern) bytes q /\
    forallb (fun rule => rule_apply rule (a_offset (mb_start b) + Z.of_nat q)) (post_rules (nth i (patterns s) no_pattern)) = true /\
    a = Addr (a_space (mb_start b)) (w64 (a_offset (mb_start b) + Z.of_nat q + Z.of_nat (mark_offset (nth i (patterns s) no_pattern)))) /\
    mt = Matched (nth i (patterns s) no_pattern) i (q - first_tried).
Proof.
  pose proof block_length as (Hlen & H0 & H64 & Hsp). pose proof window_matches as Hwin. unfold range_matches.
  assert (Ebo : fst (fst (range_window s m (mb_start b) (mb_end b) r)) = Z.of_nat first_tried) by (unfold range_window, first_tried; cbn; lia).
  destruct (range_window s m (mb_start b) (mb_end b) r) as [[bo len] data]. cbn [fst] in Ebo. subst bo. rewrite in_flat_map.
  assert (forall i q, (first_tried <= q)%nat -> Z.of_nat q <= rmax r - a_offset (mb_start b) ->
    check_post_rules (Matched (nth i (patterns s) no_pattern) i (q - first_tried)) (a_offset (mb_start b) + Z.of_nat first_tried) =
    forallb (fun rule => rule_apply rule (a_offset (mb_start b) + Z.of_nat q)) (post_rules (nth i (patterns s) no_pattern))) as Hrules.
  { intros i q H1 H2. unfold check_post_rules. cbn [m_offset m_pattern]. unfold u64_add. rewrite w64_small by lia.
    by replace (a_offset (mb_start b) + Z.of_nat first_tried + Z.of_nat (q - first_tried)) with (a_offset (mb_start b) + Z.of_nat q) by lia. }
  assert (forall i q, (first_tried <= q)%nat ->
    u64_add (u64_add (a_offset (mb_start b)) (match_mark_offset (Matched (nth i (patterns s) no_pattern) i (q - first_tried)))) (Z.of_nat first_tried) =
    w64 (a_offset (mb_start b) + Z.of_nat q + Z.of_nat (mark_offset (nth i (patterns s) no_pattern)))) as Hmark.
  { intros i q H1. unfold match_mark_offset, u64_add, w64. cbn [m_offset m_pattern]. rewrite Z.add_mod_idemp_l by done. f_equal. lia. }
  split.
  - intros (sm & Hsm & H). apply Hwin in Hsm as (i & q & Hi & Hq & Hmax & Hat & ->). cbn [seq_index offset] in H.
    rewrite (Hrules i q Hq Hmax), (Hmark i q Hq) in H. destruct (forallb _ _) eqn:E; [|done]. destruct H as [H|[]]. injection H as <- <-.
    exists i, q. split_and!; done.
  - intros (i & q & Hi & Hq & Hmax & Hat & Hru & -> & ->). exists (SeqMatch i (q - first_tried)). split; [apply Hwin; exists i, q; split_and!; done|].
    cbn [seq_index offset]. rewrite (Hrules i q Hq Hmax), (Hmark i q Hq), Hru. by left.
Qed.
End Range.

(** The searched ranges lie in the block. *)
Lemma done_set_ranges (b : memory_block) (restrict_set : option address_set) (r : address_range) : block_ok b ->
  (forall set, restrict_set = Some set -> canonical set) -> In r (done_set (mb_start b) (mb_end b) restrict_set) ->
  a_offset (mb_start b) <= rmin r <= rmax r /\ rmax r <= a_offset (mb_end b).
Proof.
  intros (H1 & H2 & H3 & _) Hc Hin. unfold done_set, block_range in Hin.
  destruct (add_range_adds empty_set (a_space (mb_start b)) (a_offset (mb_start b)) (a_offset (mb_end b)) canonical_nil ltac:(lia) ltac:(lia)) as [Hcb Hab].
  assert (forall set, canonical set -> In r set -> (forall x, in_set set x -> in_set (add_range empty_set (a_space (mb_start b)) (a_offset (mb_start b)) (a_offset (mb_end b))) x) ->
    a_offset (mb_start b) <= rmin r <= rmax r /\ rmax r <= a_offset (mb_end b)) as Hgen.
  { intros set [Hv _] Hr Hsub. rewrite Forall_forall in Hv. specialize (Hv r Hr) as [Hv1 Hv2].
    assert (forall x, rmin r <= x <= rmax r -> a_offset (mb_start b) <= x <= a_offset (mb_end b)) as Hx.
    { intros x Hx. destruct (proj1 (Hab (Addr (space r) x))) as [[_ H]|H]; [|exact H|by apply in_set_nil in H].
      apply Hsub. exists r. split; [done|]. by split. }
    pose proof (Hx (rmin r) ltac:(lia)). pose proof (Hx (rmax r) ltac:(lia)). lia. }
  destruct restrict_set as [set|]; [destruct (is_empty set)|]; [by eapply Hgen| |by eapply Hgen].
  destruct (intersect_sets set _ (Hc set eq_refl) Hcb) as [Hci Hai]. apply (Hgen _ Hci Hin). intros x Hx. by apply Hai in Hx as [_ Hx].
Qed.

(** [C29] Searching a block hands the program's actions exactly the matches of its searched ranges: a
    pattern whose bytes agree with the block, all inside it, at a position from 32 bytes before a range
    (or the block's start) to the range's last byte, and whose post rules hold at its address; each at
    the address of its mark, counted mod [2 ^ 64].  The window read for a range loses no match. *)
Theorem search_block_hits (s : searcher) (fuel : nat) (program : P) (b : memory_block) (bytes : list Z) (restrict_set : option address_set) :
  searcher_ok s fuel -> memory_ok (memory_of program) -> In b (memory_of program) -> mb_bytes b = Some bytes -> List.Forall byte_ok bytes ->
  (forall set, restrict_set = Some set -> canonical set) -> (forall p a mt, memory_of (apply_action p a mt) = memory_of p) ->
  exists hits, search_block s program (mb_start b) (mb_end b) restrict_set =
    fold_left (fun p am => apply_action p (fst am) (snd am)) hits program /\
  forall a mt, In (a, mt) hits <-> exists r i q, In r (done_set (mb_start b) (mb_end b) restrict_set) /\
    (i < List.length (patterns s))%nat /\ (first_tried b r <= q)%nat /\ Z.of_nat q <= rmax r - a_offset (mb_start b) /\
    pattern_at (nth i (patterns s) no_pattern) bytes q /\
    forallb (fun rule => rule_apply rule (a_offset (mb_start b) + Z.of_nat q)) (post_rules (nth i (patterns s) no_pattern)) = true /\
    a = Addr (a_space (mb_start b)) (w64 (a_offset (mb_start b) + Z.of_nat q + Z.of_nat (mark_offset (nth i (patterns s) no_pattern)))) /\
    mt = Matched (nth i (patterns s) no_pattern) i (q - first_tried b r).
Proof.
  intros Hs Hm Hb Hbytes Hvalues Hc Hkeep. exists (flat_map (range_matches s (memory_of program) (mb_start b) (mb_end b)) (done_set (mb_start b) (mb_end b) restrict_set)).
  assert (forall hits p, memory_of (fold_left (fun p am => apply_action p (fst am) (snd am)) hits p) = memory_of p) as Hfold.
  { induction hits as [|[a mt] hits IH]; intros p; [done|]. cbn [fold_left]. by rewrite IH, Hkeep. }
  split.
  - unfold search_block. assert (forall l p, memory_of p = memory_of program ->
      fold_left (fun p r => fold_left (fun p am => apply_action p (fst am) (snd am)) (range_matches s (memory_of p) (mb_start b) (mb_end b) r) p) l p =
      fold_left (fun p am => apply_action p (fst am) (snd am)) (flat_map (range_matches s (memory_of program) (mb_start b) (mb_end b)) l) p) as H; [|by apply H].
    induction l as [|r l IH]; intros p Ep; [done|]. cbn [fold_left flat_map]. rewrite fold_left_app, IH by (by rewrite Hfold). by rewrite Ep.
  - intros a mt. rewrite in_flat_map. destruct Hm as [Hok Hd]. pose proof Hok as Hok'. rewrite List.Forall_forall in Hok'.
    assert (forall r, In r (done_set (mb_start b) (mb_end b) restrict_set) -> a_offset (mb_start b) <= rmin r <= rmax r /\ rmax r <= a_offset (mb_end b)) as Hr
      by (intros r; apply done_set_ranges; [by apply Hok'|done]).
    split.
    + intros (r & Hin & H). apply (range_hits s fuel _ b bytes r Hs (conj Hok Hd) Hb Hbytes Hvalues (Hr r Hin)) in H as (i & q & H).
      exists r, i, q. split; [exact Hin|exact H].
    + intros (r & i & q & Hin & H). exists r. split; [exact Hin|].
      apply (range_hits s fuel _ b bytes r Hs (conj Hok Hd) Hb Hbytes Hvalues (Hr r Hin)). exists i, q. exact H.
Qed.
End Searcher.

(** ** Pattern pairs *)

Lemma is_match_app (d e : ditted) (k : nat) (v : Z) : List.length (bits d) = List.length (dits d) ->
  is_match (concatenate d e) k v = if Nat.ltb k (size d) then is_match d k v else is_match e (k - size d) v.
Proof.
  intros Hl. unfold is_match, concatenate, size. cbn [bits dits]. destruct (Nat.ltb_spec k (List.length (bits d))).
  - rewrite nth_error_app1, app_nth1 by lia. done.
  - rewrite nth_error_app2, app_nth2 by lia. by rewrite Hl.
Qed.

Lemma matches_at_app (d e : ditted) (buffer : list Z) : List.length (bits d) = List.length (dits d) ->
  matches_at (concatenate d e) buffer = matches_at d buffer && matches_at e (skipn (size d) buffer).
Proof.
  intros Hl. unfold matches_at. assert (size (concatenate d e) = size d + size e)%nat as ->
    by (unfold size, concatenate; cbn [bits]; by rewrite length_app).
  rewrite seq_app, forallb_app. f_equal.
  - assert (forall n, (n <= size d)%nat -> forallb (fun k => is_match (concatenate d e) k (nth k buffer 0)) (seq 0 n) =
      forallb (fun k => is_match d k (nth k buffer 0)) (seq 0 n)) as H; [|by apply H].
    induction n as [|n IH]; intros Hn; [done|]. rewrite seq_S, !forallb_app, IH by lia. f_equal. cbn [forallb]. f_equal.
    rewrite is_match_app by done. cbn [Nat.add]. by destruct (Nat.ltb_spec n (size d)); [|lia].
  - assert (forall n, forallb (fun k => is_match (concatenate d e) k (nth k buffer 0)) (seq (0 + size d) n) =
      forallb (fun k => is_match e k (nth k (skipn (size d) buffer) 0)) (seq 0 n)) as H; [|by apply H].
    induction n as [|n IH]; [done|]. rewrite !seq_S, !forallb_app, IH. f_equal. cbn [forallb]. f_equal.
    rewrite is_match_app by done. destruct (Nat.ltb_spec (0 + size d + n) (size d)); [lia|].
    rewrite !nth_lookup, lookup_drop. do 3 f_equal; lia.
Qed.

(** An expanded pair matches where its pre sequence does and the post sequence right after it, where its mark is. *)
Lemma pair_pattern_at {A : Type} (ps : pattern_pair_set A) (p : pattern A) (bytes : list Z) (q : nat) :
  (forall pre, In pre (pre_sequences ps) -> List.length (bits pre) = List.length (dits pre)) -> In p (create_final_patterns ps) ->
  exists pre post, In pre (pre_sequences ps) /\ In post (post_patterns ps) /\ mark_offset p = size pre /\ actions p = actions post /\
    (pattern_at p bytes q <-> pattern_at (Pattern pre 0 [] (actions p)) bytes q /\ pattern_at post bytes (q + mark_offset p)).
Proof.
  intros Hl Hin. unfold create_final_patterns in Hin. apply in_flat_map in Hin as (post & Hpost & Hin). destruct (_ <? _); [done|].
  apply in_flat_map in Hin as (pre & Hpre & Hin). destruct (_ <? _); [done|]. destruct Hin as [<-|[]].
  exists pre, post. split; [done|]. split; [done|]. split; [done|]. split; [done|]. unfold pattern_at. cbn [p_seq mark_offset].
  rewrite matches_at_app by (by apply Hl). rewrite skipn_skipn, andb_true_iff, (Nat.add_comm (size pre) q).
  assert (size (concatenate pre (p_seq post)) = size pre + size (p_seq post))%nat as -> by (unfold size, concatenate; cbn [bits]; by rewrite length_app).
  intuition lia.
Qed.

(** ** Witness *)

Definition example_block : memory_block :=
  MemoryBlock "text"%string (Addr 1 4096) (Addr 1 4103) true false true (Some [144; 195; 85; 137; 229; 195; 85; 72]).

Definition example_pair : pattern nat := Pattern (concatenate (Ditted [195] [255] 0) (Ditted [85; 137] [255; 255] 0)) 1 [Align 0 1] [7%nat].

Definition example_searcher : searcher :=
  new_searcher (default [] (build_state_machine 6 [p_seq example_pair])) [example_pair].

Definition collect (p : memory * list address) (a : address) (mt : matched nat) : memory * list address := (fst p, snd p ++ [a]).

Lemma search_block_hits_witness :
  searcher_ok example_searcher 6 /\
  exists hits, search_block (P := memory * list address) fst collect example_searcher ([example_block], []) (Addr 1 4096) (Addr 1 4103) None =
    fold_left (fun p am => collect p (fst am) (snd am)) hits ([example_block], []) /\
  forall a mt, In (a, mt) hits -> exists q, a = Addr 1 (w64 (4096 + Z.of_nat q + 1)).
Proof.
  assert (searcher_ok example_searcher 6) as Hs by (split; [vm_compute; reflexivity|reflexivity]).
  split; [exact Hs|].
  destruct (search_block_hits (P := memory * list address) fst collect example_searcher 6 ([example_block], []) example_block
    [144; 195; 85; 137; 229; 195; 85; 72] None) as (hits & E & H).
  - exact Hs.
  - split; [apply List.Forall_cons; [|apply List.Forall_nil]|].
    + split; [reflexivity|]. split; [cbn; lia|]. split; [cbn; lia|]. intros bytes Eb. injection Eb as <-. reflexivity.
    + intros [|i] [|j] b c x Hi Hj _ _; [reflexivity|by destruct j|by destruct i|by destruct i].
  - by left.
  - reflexivity.
  - repeat constructor; unfold byte_ok; lia.
  - intros set Hset. discriminate Hset.
  - reflexivity.
  - exists hits. split; [exact E|]. intros a mt Hin. apply H in Hin as (r & i & q & _ & Hi & _ & _ & _ & _ & -> & _).
    exists q. destruct i as [|i]; [reflexivity|]. cbn in Hi. lia.
Defined.
